(* ===== verification/_CoqProject ===== *)
-Q . S2P
Prelude.v
Limbs.v
Bignum.v
BignumSpec.v
BignumArith.v
BignumDiv.v
BignumBits.v
BignumText.v
Rational.v
RationalSpec.v
Doubles.v
Tagged.v
TaggedSpec.v
Dispatch.v
HashTable.v
HashTableSpec.v
KeyHash.v
NumericProps.v
HashProps.v
Values.v
Logic.v
KnowledgeBase.v
LogicSpec.v
UnifySpec.v
LogicProps.v
Bytes.v
Bytecode.v
BytecodeSpec.v
BytecodeProps.v
Persist.v
PersistSpec.v
PersistProps.v
TypeEnv.v
BuiltinEnv.v
TypeEnvSpec.v
TypeEnvReach.v
TypeArith.v
TypeProps.v
Heap.v
Arena.v
ArenaSpec.v
ArenaOps.v
ArenaProps.v
Dependent.v
DependentProps.v
TensorIndex.v
CText.v
CTextSpec.v
DoubleText.v
DoubleTextSpec.v
StringToNumber.v
NumTextProps.v
Writer.v
Reader.v
ReaderSafe.v
TokenSpec.v
ReadWriteSpec.v
ReaderProps.v
WorkDeque.v
WorkDequeProps.v
ThreadPool.v
ThreadPoolInv.v
ThreadPoolProps.v
Objects.v
Evac.v
EvacSpec.v
EvacWalk.v
Regions.v
RegionSpec.v
RegionStack.v
RegionProps.v
Control.v
ControlSpec.v
RaiseSpec.v
Parameters.v
ControlProps.v
Macro.v
MacroSpec.v
MacroScope.v
MacroProps.v
