(* ===== verification/Prelude.v ===== *)
(** * The Eshkol runtime, verified

    Eshkol is a Lisp dialect compiled through LLVM; this library is about the part
    of it written in C++ and C by hand: the runtime every compiled program links
    (src/lib/core), its thread pool and its bytecode files (src/lib/backend), and of
    the compiler the type environment (src/lib/types) and the macro expander
    (src/lib/frontend).  The definitions are
    translations of the functions and keep their names; the theorems say what the
    functions compute.

    ** The program's parts and where they are modelled

    - Bignums, lib/core/bignum.cpp: [Limbs] (arrays of 64-bit limbs), [Bignum]
      (representation, addition, subtraction, multiplication, comparison, int64
      conversion), [BignumDiv] (Knuth's Algorithm D), [BignumBits] (two's
      complement and shifts), [BignumText] (decimal text, powers), [Dispatch]
      (the tagged entry points that the compiled code calls).
    - Rationals, lib/core/rational.cpp: [Rational] (int64 pair or bignum pair,
      the arithmetic with its 128-bit intermediates, rounding) and [Tagged] (the numeric
      dispatch of that file).  [Doubles] is IEEE-754 binary64 over the Standard
      Library's specification of floating point.
    - Hash tables, lib/core/runtime_hash_table.cpp: [HashTable] (open addressing,
      tombstones, growth) against the interface [HashKey], and [KeyHash], the
      instance for tagged values.
    - [equal?], lib/core/runtime_deep_equal.cpp, and the trees of runtime values:
      [Values].
    - The logic engine, lib/core/logic.cpp: [Logic] (interning, substitutions,
      walking, the occurs check, unification) and [KnowledgeBase] (facts, queries,
      the tagged entry points, the printer); its state is the record [engine].
    - Knowledge-base files, lib/core/kb_persistence.cpp: [Bytes] and [Persist].
    - Files of compiled bytecode, lib/backend/eskb_format.h, eskb_writer.c and
      eskb_reader.c: [Bytecode], with the checks that lib/backend/eshkol_vm.c makes
      of a module before it runs.
    - The type environment, lib/types/hott_types.cpp: [TypeEnv] (nodes, the subtype
      cache, common supertypes, pair, function and sum types) and [BuiltinEnv];
      dependent types and dimension checks, lib/types/dependent.cpp: [Dependent].
    - The arena allocator, lib/core/runtime_arena_core.cpp, with the heap tracking
      of lib/core/resource_limits.cpp: [Heap] and [Arena].
    - Tensor indices, lib/core/runtime_tensor_index.cpp: [TensorIndex].
    - Text: [CText] is what the code uses of the C library ([strtoll], [strtod],
      [printf] of integers and of [%.*e], UTF-8); [DoubleText] the shortest text of
      a double (inc/eshkol/core/dtoa_shortest.h); [StringToNumber] the
      [string->number] of bignum.cpp; [Writer] is [display] and [write]
      (lib/core/runtime_display_hosted.cpp, inc/eshkol/core/symbol_syntax.h);
      [Reader] is [read] (lib/core/runtime_reader_hosted.cpp,
      inc/eshkol/core/string_escape.h, the symbol table of symbol_intern.cpp).
    - The thread pool: [WorkDeque] is the work-stealing deque with its epochs
      (inc/eshkol/backend/work_stealing_deque.h), [ThreadPool] the pool above it
      (lib/backend/thread_pool.cpp): submission, both worker loops, futures, pause
      and destruction.
    - Regions, lib/core/runtime_regions.cpp: [Objects] (tags, blocks, words, the
      region stack; inc/eshkol/eshkol.h, lib/core/arena_memory.h), [Evac] (the
      deep copy out of a dying region, every kind of object) and [Regions] (the
      stack, the allocation slot, the promotion transaction, the write barrier, the
      nursery, whose calls are emitted by lib/backend/llvm_codegen.cpp, the handles
      and the unwinding).
    - Control, lib/core/runtime_exceptions_hosted.cpp, runtime_continuations.cpp and
      runtime_parameters_hosted.cpp: [Control] (raising and the stack of handlers,
      dynamic-wind and rerooting, continuations, promises) and [Parameters], with the
      forms that lib/backend/llvm_codegen.cpp compiles to these calls (guard, raise,
      with-exception-handler, call/cc, dynamic-wind, force, make-parameter) and the
      parameterize of lib/frontend/parser.cpp.
    - The macro expander, lib/frontend/macro_expander.cpp: [Macro], over the syntax
      tree of inc/eshkol/eshkol.h.

    They meet as in the C++: [Rational] calls [Bignum], [Tagged] and [Dispatch]
    call both, [Logic] calls [Values] for [equal?], [KnowledgeBase] and [Persist]
    work on the state of [Logic], [Dependent] asks [TypeEnv], [Arena] reports to
    [Heap], [Writer] prints numbers with [DoubleText] and the logic objects with
    [KnowledgeBase], and [Reader] builds the [Values] that [Writer] prints.
    [ThreadPool] keeps an abstract deque per worker, the one that
    [WorkDequeProps.deque_linearizable] shows [WorkDeque] to be; [RegionProps] runs
    [HashTable] with the keys of [KeyHash] on a promoted table.  [Control] and
    [Parameters] work on the memory of [Regions]: a raise and a continuation close
    regions, a binding passes the write barrier.

    ** How the code is rendered

    An integer of [w] bits is a [Z], and an operation that can leave the width is
    followed by its wrap ([u64], [i64], [u128], ...).  A pointer that may be NULL
    is an [option]; an object is its value together with its address wherever the
    code compares pointers.  A raised exception is [Raised] in [outcome], a failed
    call [None] or the value the code returns, and undefined behaviour of C++ is
    [None] in [Dependent]; an access outside an array is [Fault] in [Bytecode].  Stateful code is a state transformer or a small state
    monad ([Logic], [Arena], [Reader], [Bytecode]).  Loops are structural where the code's
    are, and otherwise have fuel; [None] is then a call that has not returned.
    Every such function has a theorem that its fuel is enough: the limb loops by
    the number of limbs, the greatest common divisor by the size of its operands,
    the refinement of a trial quotient by two turns, [walk] by the number of
    bindings, the subtype search by the ids above a type, a KB file by the count in
    its header, the reader by two turns per byte of input ([ReaderSafe.reader_total])
    and its string loops by one, a buffer by the doublings of a [size_t].  Unification alone can loop for ever in the code
    as well: [LogicProps.unify_returns] says when it returns.

    Data from outside are arguments: the answers of [malloc] ([Arena], [Bytecode]), of
    [fopen], [fwrite] and [fclose] ([Persist]; for [Bytecode], what of a file fits), and
    [pow] ([Dispatch]).  The host is
    little-endian, the locale is C, and [ungetc] may put two bytes back, as glibc
    does.  A call under a global lock is one step.

    Threads interleave one shared access at a time under sequential consistency; a
    wait on a condition variable is a step that gives up the lock and one that takes
    it again after a notification.  What an invariant must remember and the code
    does not keep (the history of a deque, the place of each task) is ghost state.

    Memory with regions is a map from addresses to blocks of words; a word keeps its
    kind (tagged value, pointer, arena, number of some width), an address inside a
    block is not an address of the map, and the allocator hands out growing
    addresses.  A store typing Γ gives the role of each word; the level of a block is
    the index of the region that owns it.  The copy has the number of blocks as
    fuel and the unwinding the depth of the stack.  Region ids are never reused,
    where the code compares pointers.

    A call of [Control] returns, leaves for the [jmp_buf] of a [longjmp], ends the
    program, faults or has used up its fuel; [setjmp] catches the [longjmp] to its own
    buffer.  Closures of the program are an argument, [call].  The fuel of the loops over
    the chains of extents and of promises is at least their length, and the theorems say
    so; a raise takes one more for the failure of its own promotion.

    An expansion of macros threads the record [expander]; it ends, is undefined or is
    out of rounds, which are as many as macros are in scope and, as
    [MacroProps.expansion_returns] shows, never run out.  The limit on the depth is the
    one of the code.

    ** What the theorems show

    The [...Spec] files hold the abstract contracts ([bval] and [⇓] for bignums,
    [rval] and [canonical] for rationals, [exact_num] and [normal] for tagged
    numbers, [table_wf] for hash tables, [sat] and [inst] for substitutions,
    [is_sub] for subtyping, [arena_inv] with its ghost state for arenas, [emits] and
    [gets] for files, [writes] and [reads] for bytecode, [yields] for the reader, a list for a deque, [mem_ok] for
    memory with regions, the tree without names of [MacroScope.resolve] for the scopes of
    an expansion) and the lemmas that the operations
    meet them; the [...Props] files state the results.
    - [NumericProps]: exactness and canonical form of all integer and rational
      arithmetic, through every promotion; the bound on Algorithm D's trial
      quotient; text round trip; division by zero raises.
    - [HashProps]: a table is a finite map, and keys that are equal hash alike.
    - [LogicProps]: unification is sound, complete, most general, and returns on
      acyclic substitutions; queries.
    - [PersistProps]: what is saved loads again; any file loads safely.
    - [BytecodeProps]: the same of bytecode files, down to each array access; a byte that
      changed is detected; a module that passes the checks names only what exists.
    - [TypeProps], [DependentProps]: subtyping is decided and stable, sums are
      joins, promotion is commutative; checks that pass are safe.
    - [ArenaProps]: in every reachable state live allocations are disjoint and
      inside held memory; scopes give back exactly what they took.
    - [TensorIndex]: an index list addresses the row-major element it spells.
    - [NumTextProps], [ReaderProps]: numbers, and nested data, read back from what
      is printed; the reader returns on every input.
    - [WorkDequeProps]: the deque is linearizable, and wait-free for its owner, as
      long as no thief reads a deleted array.
    - [ThreadPoolProps]: each task runs at most once, counters are exact, shutdown
      ends and completes every future.
    - [RegionProps]: leaving regions frees exactly what is above the mark and leaves
      no pointer to it; a promotion is a transaction that copies up to forwarding;
      the write barrier makes a store safe; a token of a closed handle stays invalid.
    - [ControlProps]: a raise reaches its handler with everything above the mark undone;
      a reroot runs the thunks it crosses, in order; forcing memoizes and an abandoned
      force is rolled back; frames are bounded by the nesting; parameters are stacks.
    - [MacroProps]: an expansion has the scopes of the reference that marks what the
      template introduces; patterns and templates are inverses; every program is
      expanded.
    Each Props file ends with the places where the code departs from its comments
    or from what it means to do, as proved examples.

    ** Not modelled

    LLVM code generation, the GPU, XLA and BLAS backends and the foreign bridges
    call libraries that are not in the repository; the drivers, the REPL and the
    hosted services are calls of the operating system; the numerical runtime
    (tensors, differentiation, inference) makes numerical claims.  The bytecode VM,
    a second implementation in C, is modelled no further than its files.  The parser, the type checker and object
    allocation are not modelled.  The macro expander is, but for match forms, whose
    clauses it overwrites in the stored template; the statement about scopes covers the
    forms that bind by lambda and the let family.  Of control, the machine stack is left out, and so the images of it that
    continuations keep; so are the messages of exceptions, the errors that abort, tail
    transfer and the ports among the parameters.  Of the thread
    pool, the submission of batches, timed waits and the metrics are left out, and
    memory is sequentially consistent.  Of the regions, the older escape functions
    for one string or cell, the arenas of worker threads and the argument coercions
    of the handle builtins are left out; two raw ranges that overlap are not
    expressible, so neither is the test for them.  Within modelled files:
    diagnostics on the error stream, failing allocation outside arenas, and
    cyclic lists, which are not [Values]. *)

From stdpp Require Export base numbers list option.
From Stdlib Require Export ZArith Znumtheory Lia.

#[export] Set Default Goal Selector "!".
Local Open Scope Z_scope.

(** * Machine integers, loops, outcomes *)

(** ** Fixed-width integers

    A [w]-bit C++ integer is a [Z]; every operation that can leave the width
    is followed by the wrap of its type. *)

Definition u32 (x : Z) : Z := x mod 2 ^ 32.
Definition u64 (x : Z) : Z := x mod 2 ^ 64.
Definition u128 (x : Z) : Z := x mod 2 ^ 128.
Definition i32 (x : Z) : Z := (x + 2 ^ 31) mod 2 ^ 32 - 2 ^ 31.
Definition i64 (x : Z) : Z := (x + 2 ^ 63) mod 2 ^ 64 - 2 ^ 63.
Definition i128 (x : Z) : Z := (x + 2 ^ 127) mod 2 ^ 128 - 2 ^ 127.

Definition UINT64_MAX : Z := 2 ^ 64 - 1.
Definition INT64_MAX : Z := 2 ^ 63 - 1.
Definition INT64_MIN : Z := - 2 ^ 63.

Definition is_u64 (x : Z) : Prop := 0 <= x < 2 ^ 64.
Definition is_i64 (x : Z) : Prop := - 2 ^ 63 <= x < 2 ^ 63.
Definition is_i128 (x : Z) : Prop := - 2 ^ 127 <= x < 2 ^ 127.

(** A C++ [bool] or [int] flag seen as 0/1. *)
Definition b2z (b : bool) : Z := if b then 1 else 0.

Create HintDb machine.

Lemma u64_range x : is_u64 (u64 x).
Proof. apply Z.mod_pos_bound. lia. Qed.

Lemma u64_id x : is_u64 x → u64 x = x.
Proof. apply Z.mod_small. Qed.

Lemma u32_id x : 0 <= x < 2 ^ 32 → u32 x = x.
Proof. apply Z.mod_small. Qed.

Lemma u128_id x : 0 <= x < 2 ^ 128 → u128 x = x.
Proof. apply Z.mod_small. Qed.

Lemma i64_id x : is_i64 x → i64 x = x.
Proof. unfold i64, is_i64. intros. rewrite Z.mod_small; lia. Qed.

Lemma i32_id x : - 2 ^ 31 <= x < 2 ^ 31 → i32 x = x.
Proof. unfold i32. intros. rewrite Z.mod_small; lia. Qed.

Lemma i64_range x : is_i64 (i64 x).
Proof.
  unfold i64, is_i64. pose proof (Z.mod_pos_bound (x + 2 ^ 63) (2 ^ 64)). lia.
Qed.

Lemma i128_id x : is_i128 x → i128 x = x.
Proof. unfold i128, is_i128. intros. rewrite Z.mod_small; lia. Qed.

Lemma u64_split x : x = u64 x + 2 ^ 64 * Z.shiftr x 64.
Proof. unfold u64. rewrite Z.shiftr_div_pow2 by lia. pose proof (Z.div_mod x (2 ^ 64)). lia. Qed.

Lemma shiftr64_range x k : 0 <= x < k * 2 ^ 64 → 0 <= Z.shiftr x 64 < k.
Proof.
  intros. rewrite Z.shiftr_div_pow2 by lia. split.
  - apply Z.div_pos; lia.
  - apply Z.div_lt_upper_bound; lia.
Qed.

Lemma is_u64_0 : is_u64 0.
Proof. unfold is_u64. lia. Qed.

#[export] Hint Resolve u64_range i64_range is_u64_0 : machine.

(** ** Counted loops

    [for_up n i f s] is [for (k = i; k < i + n; k++) s = f k s], [for_down n f s]
    is [for (k = n - 1; k >= 0; k--) s = f k s]. *)

Fixpoint for_up {S : Type} (n i : nat) (f : nat → S → S) (s : S) : S :=
  match n with
  | O => s
  | Datatypes.S n' => for_up n' (Datatypes.S i) f (f i s)
  end.

Fixpoint for_down {S : Type} (n : nat) (f : nat → S → S) (s : S) : S :=
  match n with
  | O => s
  | Datatypes.S n' => for_down n' f (f n' s)
  end.

Lemma for_up_ind {S} (P : nat → S → Prop) n i f (s : S) :
  P i s →
  (∀ k s, (i <= k < i + n)%nat → P k s → P (Datatypes.S k) (f k s)) →
  P (i + n)%nat (for_up n i f s).
Proof.
  revert i s. induction n as [|n IH]; intros i s H0 Hs; simpl.
  - by rewrite Nat.add_0_r.
  - replace (i + Datatypes.S n)%nat with (Datatypes.S i + n)%nat by lia.
    apply IH; [apply Hs; [lia|done]|]. intros k s' Hk. apply Hs. lia.
Qed.

Lemma for_down_ind {S} (P : nat → S → Prop) n f (s : S) :
  P n s →
  (∀ k s, (k < n)%nat → P (Datatypes.S k) s → P k (f k s)) →
  P 0%nat (for_down n f s).
Proof.
  revert s. induction n as [|n IH]; intros s H0 Hs; simpl; [done|].
  apply IH; [apply Hs; [lia|done]|]. intros k s' Hk. apply Hs. lia.
Qed.

(** ** Exceptions

    [eshkol_raise] unwinds to the nearest handler and does not return: a call
    that can raise has the type [outcome A]. *)

Inductive exn := DivideByZero | TypeError.

Inductive outcome (A : Type) :=
| Ret (a : A)
| Raised (e : exn).
Arguments Ret {A} a.
Arguments Raised {A} e.

#[export] Instance outcome_ret : MRet outcome := λ A a, Ret a.
#[export] Instance outcome_bind : MBind outcome := λ A C f m,
  match m with Ret a => f a | Raised e => Raised e end.

(** [loop_up P as Hloop] replaces the counted loop of the goal by its result
    [st] and leaves the invariant rule instantiated at [P] in [Hloop];
    [loop_down] is the same for a downward loop. *)
Tactic Notation "loop_up" open_constr(P) "as" ident(H) :=
  match goal with
  | |- context [for_up ?n ?i ?f ?s] =>
      pose proof (for_up_ind P n i f s) as H;
      let st := fresh "st" in
      generalize dependent (for_up n i f s); intros st H
  end.

Tactic Notation "loop_down" open_constr(P) "as" ident(H) :=
  match goal with
  | |- context [for_down ?n ?f ?s] =>
      pose proof (for_down_ind P n f s) as H;
      let st := fresh "st" in
      generalize dependent (for_down n f s); intros st H
  end.

(** ** Trees

    For the induction principle of a type with lists of itself inside. *)

Definition forall_each {A} (P : A → Prop) (f : ∀ x, P x) : ∀ l, Forall P l :=
  fix go l := match l return Forall P l with [] => List.Forall_nil P | x :: l => List.Forall_cons P x l (f x) (go l) end.
