(* ===== verification/Limbs.v ===== *)
(** * Limbs: little-endian arrays of 64-bit limbs and the number they denote

    The arrays behind [BIGNUM_LIMBS] are lists of [Z]; [limb l i] is [l[i]],
    [<[i:=v]> l] is [l[i] = v].  Every access of the modelled code is in range,
    and the lemmas about it ask for the bound. *)

From S2P Require Export Prelude.
Local Open Scope Z_scope.

Definition B : Z := 2 ^ 64.
Definition pw (i : nat) : Z := B ^ Z.of_nat i.

Definition limb (l : list Z) (i : nat) : Z := nth i l 0.

Fixpoint lval (l : list Z) : Z :=
  match l with [] => 0 | x :: t => x + B * lval t end.

Abbreviation u64s := (Forall is_u64).

Create HintDb limbs.

Lemma B_pos : 0 < B. Proof. unfold B; lia. Qed.
Lemma pw_0 : pw 0 = 1. Proof. done. Qed.
Lemma pw_1 : pw 1 = B. Proof. done. Qed.
Lemma pw_S i : pw (S i) = B * pw i.
Proof. unfold pw. rewrite Nat2Z.inj_succ, Z.pow_succ_r by lia. done. Qed.
Lemma pw_pos i : 0 < pw i.
Proof. unfold pw. apply Z.pow_pos_nonneg; [apply B_pos|lia]. Qed.
Lemma pw_add i j : pw (i + j) = pw i * pw j.
Proof. unfold pw. rewrite Nat2Z.inj_add, Z.pow_add_r by lia. done. Qed.
Lemma pw_le i j : (i <= j)%nat → pw i <= pw j.
Proof. intros. unfold pw. apply Z.pow_le_mono_r; [apply B_pos|lia]. Qed.
Lemma pw_lt i j : (i < j)%nat → B * pw i <= pw j.
Proof. intros. rewrite <- pw_S. apply pw_le. lia. Qed.

#[export] Hint Resolve B_pos pw_pos : limbs.

Lemma limb_lookup l i x : l !! i = Some x → limb l i = x.
Proof. revert i; induction l as [|y l IH]; intros [|i] H; simplify_eq/=; auto. apply IH, H. Qed.

Lemma lookup_limb l i : (i < length l)%nat → l !! i = Some (limb l i).
Proof. intros H. destruct (lookup_lt_is_Some_2 l i H) as [x Hx]. by rewrite Hx, (limb_lookup _ _ _ Hx). Qed.

Lemma limb_ge l i : (length l <= i)%nat → limb l i = 0.
Proof. apply nth_overflow. Qed.

Lemma limb_insert_eq l i x : (i < length l)%nat → limb (<[i:=x]> l) i = x.
Proof. intros. apply limb_lookup, list_lookup_insert_eq. done. Qed.

Lemma limb_insert_ne l i j x : i ≠ j → limb (<[i:=x]> l) j = limb l j.
Proof.
  intros Hne. destruct (decide (j < length l)%nat).
  - apply limb_lookup. rewrite list_lookup_insert_ne by done. by apply lookup_limb.
  - rewrite !limb_ge; rewrite ?length_insert; [done|lia|lia].
Qed.

Lemma limb_u64 l i : u64s l → is_u64 (limb l i).
Proof.
  intros H. destruct (decide (i < length l)%nat) as [Hi|].
  - eapply (Forall_lookup_1 _ _ _ _ H), lookup_limb, Hi.
  - rewrite limb_ge by lia. apply is_u64_0.
Qed.

Lemma insert_u64s l i x : u64s l → is_u64 x → u64s (<[i:=x]> l).
Proof. intros. by apply Forall_insert. Qed.

Lemma replicate_u64s n : u64s (replicate n 0).
Proof. apply Forall_replicate, is_u64_0. Qed.

#[export] Hint Resolve limb_u64 insert_u64s replicate_u64s : limbs.

Lemma limb_replicate n i : limb (replicate n 0) i = 0.
Proof.
  destruct (decide (i < n)%nat).
  - apply limb_lookup, lookup_replicate_2. done.
  - apply limb_ge. rewrite length_replicate. lia.
Qed.

Lemma limb_take l i n : (i < n)%nat → limb (take n l) i = limb l i.
Proof.
  intros. destruct (decide (i < length l)%nat).
  - apply limb_lookup. rewrite lookup_take_lt by done. by apply lookup_limb.
  - rewrite !limb_ge; [done|lia|]. rewrite length_take. lia.
Qed.

Lemma limb_app_r l k i : limb (l ++ k) (length l + i) = limb k i.
Proof. unfold limb. rewrite app_nth2 by lia. f_equal. lia. Qed.

Lemma lval_app l k : lval (l ++ k) = lval l + pw (length l) * lval k.
Proof.
  induction l as [|x l IH]; simpl.
  - rewrite pw_0. lia.
  - rewrite IH, pw_S. ring.
Qed.

Lemma lval_singleton x : lval [x] = x.
Proof. simpl. lia. Qed.

Lemma lval_insert l i x : (i < length l)%nat →
  lval (<[i:=x]> l) = lval l + (x - limb l i) * pw i.
Proof.
  revert i. induction l as [|y l IH]; intros [|i] Hi; simpl in *; try lia.
  - rewrite pw_0. unfold limb. simpl. lia.
  - rewrite IH by lia. rewrite pw_S. change (limb (y :: l) (S i)) with (limb l i). ring.
Qed.

Lemma lval_replicate n : lval (replicate n 0) = 0.
Proof. induction n as [|n IH]; simpl; [done|]. rewrite IH. lia. Qed.

Lemma lval_bound l : u64s l → 0 <= lval l < pw (length l).
Proof.
  induction 1 as [|x l [Hx1 Hx2] _ IH]; simpl; [rewrite pw_0; lia|].
  rewrite pw_S. unfold B in *. nia.
Qed.

Lemma take_S_limb l i : (i < length l)%nat → take (S i) l = take i l ++ [limb l i].
Proof. intros. by apply take_S_r, lookup_limb. Qed.

Lemma lval_take_S l i : (i < length l)%nat →
  lval (take (S i) l) = lval (take i l) + limb l i * pw i.
Proof.
  intros. rewrite take_S_limb by done. rewrite lval_app, length_take, Nat.min_l by lia.
  rewrite lval_singleton. ring.
Qed.

(** Reading past the end adds zero limbs, as the [i < num_limbs ? l[i] : 0]
    guards of the code do. *)
Lemma lval_take_S' l i : lval (take (S i) l) = lval (take i l) + limb l i * pw i.
Proof.
  destruct (decide (i < length l)%nat); [by apply lval_take_S|].
  rewrite !take_ge by lia. rewrite limb_ge by lia. lia.
Qed.

Lemma lval_take_drop l i : lval l = lval (take i l) + pw (i `min` length l) * lval (drop i l).
Proof. rewrite <- (take_drop i l) at 1. rewrite lval_app, length_take. done. Qed.

Lemma lval_take_bound l i : u64s l → 0 <= lval (take i l) < pw i.
Proof.
  intros H. pose proof (lval_bound (take i l) (Forall_take _ _ _ H)) as Hb.
  rewrite length_take in Hb. pose proof (pw_le (i `min` length l) i). lia.
Qed.

Lemma limb_drop l i j : limb (drop i l) j = limb l (i + j).
Proof.
  destruct (decide (i + j < length l)%nat).
  - apply limb_lookup. rewrite lookup_drop. by apply lookup_limb.
  - rewrite !limb_ge; [done|lia|]. rewrite length_drop. lia.
Qed.

Lemma lval_top l n : length l = S n → u64s l →
  limb l n * pw n <= lval l < (limb l n + 1) * pw n.
Proof.
  intros Hl Hu. rewrite <- (take_ge l (S n)) at 2 3 by lia.
  rewrite lval_take_S by lia. pose proof (lval_take_bound l n Hu). lia.
Qed.

(** The value determines the limbs. *)
Lemma lval_zero l : u64s l → lval l = 0 → ∀ i, limb l i = 0.
Proof.
  intros Hu. induction Hu as [|x l [] Hl IH]; intros Hz i; simpl in Hz.
  - apply limb_ge. simpl. lia.
  - pose proof (lval_bound l Hl). assert (x = 0 ∧ lval l = 0) as [-> E] by (unfold B in *; nia).
    destruct i; [done|]. apply (IH E).
Qed.

(** ** Limb arithmetic *)

Lemma u64_carry x : x = u64 x + B * Z.shiftr x 64.
Proof. apply u64_split. Qed.

Lemma carry_range x k : 0 <= x < k * B → 0 <= Z.shiftr x 64 < k.
Proof. apply shiftr64_range. Qed.

Lemma land_mul_pow2_small x c s : 0 <= s → 0 <= c < 2 ^ s → Z.land (x * 2 ^ s) c = 0.
Proof.
  intros Hs Hc. rewrite <- Z.shiftl_mul_pow2 by done.
  rewrite <- (Z.mod_small c (2 ^ s)) by done.
  apply Z.bits_inj'. intros n Hn. rewrite Z.land_spec, Z.bits_0.
  destruct (Z.lt_ge_cases n s).
  - by rewrite Z.shiftl_spec_low.
  - rewrite Z.mod_pow2_bits_high by lia. apply andb_false_r.
Qed.

(** [(x << s) | c] with [c] below [2^s] is [x * 2^s + c]. *)
Lemma lor_mul_pow2_add x c s : 0 <= s → 0 <= c < 2 ^ s → Z.lor (x * 2 ^ s) c = x * 2 ^ s + c.
Proof. intros. symmetry. by apply Z.add_nocarry_lor, land_mul_pow2_small. Qed.

(** The low and high word of [x << s]: what a limb keeps and what it passes on. *)
Lemma u64_shiftl x s : 0 <= s <= 64 → u64 (Z.shiftl x s) = (x mod 2 ^ (64 - s)) * 2 ^ s.
Proof.
  intros. unfold u64. rewrite Z.shiftl_mul_pow2 by lia.
  replace (2 ^ 64) with (2 ^ (64 - s) * 2 ^ s) by (rewrite <- Z.pow_add_r by lia; f_equal; lia).
  rewrite Z.mul_mod_distr_r; [done|lia|]. apply Z.pow_nonzero; lia.
Qed.

Lemma shiftl_split x s : 0 <= s <= 64 →
  x * 2 ^ s = u64 (Z.shiftl x s) + B * Z.shiftr x (64 - s).
Proof.
  intros. rewrite u64_shiftl, Z.shiftr_div_pow2 by lia.
  pose proof (Z.div_mod x (2 ^ (64 - s)) ltac:(apply Z.pow_nonzero; lia)) as Hd.
  assert (B = 2 ^ (64 - s) * 2 ^ s) as -> by (unfold B; rewrite <- Z.pow_add_r by lia; f_equal; lia).
  rewrite Hd at 1. ring.
Qed.

Lemma shiftr_range x s : is_u64 x → 0 <= s <= 64 → 0 <= Z.shiftr x (64 - s) < 2 ^ s.
Proof.
  intros [] ?. rewrite Z.shiftr_div_pow2 by lia. split.
  - apply Z.div_pos; [lia|]. apply Z.pow_pos_nonneg; lia.
  - apply Z.div_lt_upper_bound; [apply Z.pow_pos_nonneg; lia|].
    rewrite <- Z.pow_add_r by lia. replace (64 - s + s) with 64 by lia. lia.
Qed.

Lemma lor_shift_carry x c s : is_u64 x → 0 <= s <= 64 → 0 <= c < 2 ^ s →
  Z.lor (u64 (Z.shiftl x s)) c = u64 (Z.shiftl x s) + c
  ∧ is_u64 (u64 (Z.shiftl x s) + c).
Proof.
  intros Hx Hs Hc. rewrite u64_shiftl by done. split; [apply lor_mul_pow2_add; lia|].
  pose proof (Z.mod_pos_bound x (2 ^ (64 - s)) ltac:(apply Z.pow_pos_nonneg; lia)).
  unfold is_u64. replace (2 ^ 64) with (2 ^ (64 - s) * 2 ^ s) by (rewrite <- Z.pow_add_r by lia; f_equal; lia).
  nia.
Qed.

(** Writing limb [i] of an array that is filled from the bottom. *)
Lemma lval_take_insert l i x : (i < length l)%nat →
  lval (take (S i) (<[i:=x]> l)) = lval (take i l) + x * pw i.
Proof.
  intros. rewrite lval_take_S by (rewrite length_insert; lia).
  rewrite take_insert_ge, limb_insert_eq by lia. done.
Qed.

Lemma guard_limb l i : (if (i <? length l)%nat then limb l i else 0) = limb l i.
Proof. destruct (Nat.ltb_spec i (length l)); [done|]. by rewrite limb_ge. Qed.

(** One double-word product plus two words fits in 128 bits. *)
Lemma mul_add_range x y z c :
  is_u64 x → is_u64 y → is_u64 z → is_u64 c → 0 <= x * y + z + c < B * B.
Proof. unfold is_u64, B. intros. nia. Qed.

(** A value below [B^k] has zero limbs from position [k] on. *)
Lemma lval_small_limb l k j : u64s l → lval l < pw k → (k <= j)%nat → limb l j = 0.
Proof.
  intros Hu Hk Hj. destruct (decide (limb l j = 0)) as [|Hne]; [done|exfalso].
  rewrite (lval_take_drop l (S j)), lval_take_S' in Hk.
  pose proof (limb_u64 l j Hu) as []. pose proof (lval_take_bound l j Hu).
  pose proof (lval_bound (drop (S j) l) (Forall_drop _ _ _ Hu)).
  pose proof (pw_pos (S j `min` length l)). pose proof (pw_le k j Hj). pose proof (pw_pos j). nia.
Qed.

(** [((__uint128_t)hi << 64) | lo] *)
Lemma dword_lor hi lo : is_u64 hi → is_u64 lo → Z.lor (u128 (Z.shiftl hi 64)) lo = hi * B + lo.
Proof.
  intros [] []. rewrite Z.shiftl_mul_pow2, u128_id by lia. apply lor_mul_pow2_add; lia.
Qed.

Lemma lval_take_small l k : u64s l → lval l < pw k → lval (take k l) = lval l.
Proof.
  intros Hu Hk. rewrite (lval_take_drop l k) in Hk |- *.
  pose proof (lval_bound (drop k l) (Forall_drop _ _ _ Hu)).
  pose proof (lval_take_bound l k Hu).
  destruct (decide (k <= length l)%nat).
  - rewrite Nat.min_l in * by lia. pose proof (pw_pos k).
    assert (lval (drop k l) = 0) as -> by nia. lia.
  - rewrite drop_ge by lia. simpl. lia.
Qed.

Lemma lval_take_zero_above l m : (∀ k, (m <= k)%nat → limb l k = 0) → lval (take m l) = lval l.
Proof.
  remember (length l - m)%nat as d eqn:E. revert m E.
  induction d as [|d IH]; intros m E Hz.
  - by rewrite take_ge by lia.
  - rewrite <- (IH (S m)); [|lia|intros; apply Hz; lia].
    rewrite lval_take_S', Hz by lia. lia.
Qed.
