(* ===== verification/Bignum.v ===== *)
(** * Bignum: sign-magnitude integers (lib/core/bignum.cpp, first half)

    Allocation, normalisation, magnitude comparison, the schoolbook addition,
    subtraction and multiplication, the signed operations built from them, the
    predicates and the int64 conversions.

    A pointer that may be NULL is an [option]; the limbs after the C struct are
    the list [limbs], so [num_limbs] is its length and decrementing
    [bn->num_limbs] drops limbs.  The arena is not modelled: an allocation
    always succeeds. *)

From S2P Require Export Limbs.
Local Open Scope Z_scope.

Record bignum := Bignum { sign : Z; limbs : list Z }.

#[export] Instance bignum_eq_dec : EqDecision bignum.
Proof. solve_decision. Defined.

Definition num_limbs (a : bignum) : nat := length (limbs a).

(** ** Internal helpers *)

Definition bignum_alloc (n : nat) : bignum := Bignum 0 (replicate n 0).

(** [while (num_limbs > 1 && limbs[num_limbs - 1] == 0) num_limbs--] *)
Fixpoint trim_count (l : list Z) (n : nat) : nat :=
  match n with
  | S n' => if (1 <? n)%nat && (limb l n' =? 0) then trim_count l n' else n
  | O => O
  end.

Definition bignum_normalize (bn : bignum) : bignum :=
  let n := trim_count (limbs bn) (num_limbs bn) in
  let l := take n (limbs bn) in
  Bignum (if (n =? 1)%nat && (limb l 0 =? 0) then 0 else sign bn) l.

Fixpoint compare_limbs (la lb : list Z) (n : nat) : Z :=
  match n with
  | O => 0
  | S i =>
      if negb (limb la i =? limb lb i)
      then (if limb lb i <? limb la i then 1 else -1)
      else compare_limbs la lb i
  end.

Definition bignum_compare_abs (a b : bignum) : Z :=
  if negb (num_limbs a =? num_limbs b)%nat
  then (if (num_limbs b <? num_limbs a)%nat then 1 else -1)
  else compare_limbs (limbs a) (limbs b) (num_limbs a).

Definition add_abs_step (la lb : list Z) (i : nat) (s : list Z * Z) : list Z * Z :=
  let '(lr, carry) := s in
  let av := if (i <? length la)%nat then limb la i else 0 in
  let bv := if (i <? length lb)%nat then limb lb i else 0 in
  let sum := u128 (av + bv + carry) in
  (<[i := u64 sum]> lr, u64 (Z.shiftr sum 64)).

(** [(a->num_limbs > b->num_limbs) ? a->num_limbs : b->num_limbs] *)
Definition max_num_limbs (a b : bignum) : nat :=
  if (num_limbs b <? num_limbs a)%nat then num_limbs a else num_limbs b.

Definition bignum_add_abs (a b : bignum) : bignum :=
  let max_limbs := max_num_limbs a b in
  let result := bignum_alloc (max_limbs + 1) in
  let '(lr, carry) :=
    for_up max_limbs 0 (add_abs_step (limbs a) (limbs b)) (limbs result, 0) in
  bignum_normalize (Bignum (sign result) (<[max_limbs := carry]> lr)).

Definition sub_abs_step (la lb : list Z) (i : nat) (s : list Z * Z) : list Z * Z :=
  let '(lr, borrow) := s in
  let av := limb la i in
  let bv := if (i <? length lb)%nat then limb lb i else 0 in
  let diff := u64 (u64 (av - bv) - borrow) in
  let borrow' :=
    if (av <? u64 (bv + borrow)) || (negb (borrow =? 0) && (bv =? UINT64_MAX)) then 1 else 0 in
  (<[i := diff]> lr, borrow').

Definition bignum_sub_abs (a b : bignum) : bignum :=
  let result := bignum_alloc (num_limbs a) in
  let '(lr, borrow) :=
    for_up (num_limbs a) 0 (sub_abs_step (limbs a) (limbs b)) (limbs result, 0) in
  bignum_normalize (Bignum (sign result) lr).

Definition addmul_step (a : list Z) (b_limb : Z) (offset i : nat) (s : list Z * Z) : list Z * Z :=
  let '(result, carry) := s in
  let prod := u128 (limb a i * b_limb + limb result (i + offset) + carry) in
  (<[(i + offset)%nat := u64 prod]> result, u64 (Z.shiftr prod 64)).

Definition bignum_addmul_limb (result : list Z) (result_limbs : nat) (a : list Z)
    (a_limbs : nat) (b_limb : Z) (offset : nat) : list Z :=
  let '(result, carry) := for_up a_limbs 0 (addmul_step a b_limb offset) (result, 0) in
  if (offset + a_limbs <? result_limbs)%nat
  then <[(offset + a_limbs)%nat := u64 (limb result (offset + a_limbs) + carry)]> result
  else result.

(** ** Public API *)

Definition eshkol_bignum_is_zero (a : option bignum) : bool :=
  match a with
  | None => true
  | Some a => (num_limbs a =? 1)%nat && (limb (limbs a) 0 =? 0)
  end.

Definition eshkol_bignum_is_negative (a : option bignum) : bool :=
  match a with
  | None => false
  | Some b => negb (sign b =? 0) && negb (eshkol_bignum_is_zero a)
  end.

Definition eshkol_bignum_is_positive (a : option bignum) : bool :=
  match a with
  | None => false
  | Some b => (sign b =? 0) && negb (eshkol_bignum_is_zero a)
  end.

Definition eshkol_bignum_is_even (a : option bignum) : bool :=
  match a with None => true | Some a => Z.land (limb (limbs a) 0) 1 =? 0 end.

Definition eshkol_bignum_is_odd (a : option bignum) : bool :=
  match a with None => false | Some a => Z.land (limb (limbs a) 0) 1 =? 1 end.

Definition eshkol_bignum_from_int64 (value : Z) : option bignum :=
  let bn := bignum_alloc 1 in
  Some (if value <? 0
        then Bignum 1 (<[0%nat := if value =? INT64_MIN then u64 (INT64_MAX + 1)
                                  else u64 (i64 (- value))]> (limbs bn))
        else Bignum (sign bn) (<[0%nat := u64 value]> (limbs bn))).

Definition eshkol_bignum_add (a b : option bignum) : option bignum :=
  a ← a; b ← b;
  Some (if sign a =? sign b
        then Bignum (sign a) (limbs (bignum_add_abs a b))
        else
          let cmp := bignum_compare_abs a b in
          if cmp =? 0 then bignum_alloc 1
          else if 0 <? cmp then Bignum (sign a) (limbs (bignum_sub_abs a b))
          else Bignum (sign b) (limbs (bignum_sub_abs b a))).

Definition eshkol_bignum_sub (a b : option bignum) : option bignum :=
  a ← a; b ← b;
  Some (if negb (sign a =? sign b)
        then Bignum (sign a) (limbs (bignum_add_abs a b))
        else
          let cmp := bignum_compare_abs a b in
          if cmp =? 0 then bignum_alloc 1
          else if 0 <? cmp then Bignum (sign a) (limbs (bignum_sub_abs a b))
          else Bignum (1 - sign a) (limbs (bignum_sub_abs b a))).

Definition mul_step (la lb : list Z) (result_limbs i : nat) (lr : list Z) : list Z :=
  if negb (limb lb i =? 0)
  then bignum_addmul_limb lr result_limbs la (length la) (limb lb i) i
  else lr.

Definition eshkol_bignum_mul (a b : option bignum) : option bignum :=
  a ← a; b ← b;
  let result_limbs := (num_limbs a + num_limbs b)%nat in
  let result := bignum_alloc result_limbs in
  let lr := for_up (num_limbs b) 0 (mul_step (limbs a) (limbs b) result_limbs) (limbs result) in
  let result := Bignum (sign result) lr in
  let s := if negb (sign a =? sign b) && negb (eshkol_bignum_is_zero (Some result))
           then 1 else 0 in
  Some (bignum_normalize (Bignum s lr)).

Definition eshkol_bignum_neg (a : option bignum) : option bignum :=
  a ← a;
  Some (Bignum (if eshkol_bignum_is_zero (Some a) then 0 else 1 - sign a) (limbs a)).

Definition eshkol_bignum_from_overflow (a b op : Z) : option bignum :=
  let ba := eshkol_bignum_from_int64 a in
  let bb := eshkol_bignum_from_int64 b in
  match ba, bb with
  | Some _, Some _ =>
      if op =? 0 then eshkol_bignum_add ba bb
      else if op =? 1 then eshkol_bignum_sub ba bb
      else if op =? 2 then eshkol_bignum_mul ba bb
      else None
  | _, _ => None
  end.

Definition eshkol_bignum_add_int64 (a : option bignum) (b : Z) : option bignum :=
  match eshkol_bignum_from_int64 b with None => None | bb => eshkol_bignum_add a bb end.

Definition eshkol_bignum_sub_int64 (a : option bignum) (b : Z) : option bignum :=
  match eshkol_bignum_from_int64 b with None => None | bb => eshkol_bignum_sub a bb end.

Definition eshkol_bignum_mul_int64 (a : option bignum) (b : Z) : option bignum :=
  match eshkol_bignum_from_int64 b with None => None | bb => eshkol_bignum_mul a bb end.

Definition eshkol_bignum_compare (a b : option bignum) : Z :=
  match a, b with
  | Some x, Some y =>
      if negb (sign x =? sign y)
      then if eshkol_bignum_is_zero a && eshkol_bignum_is_zero b then 0
           else if negb (sign x =? 0) then -1 else 1
      else
        let cmp := bignum_compare_abs x y in
        if negb (sign x =? 0) then - cmp else cmp
  | _, _ => 0
  end.

Definition eshkol_bignum_compare_int64 (a : bignum) (b : Z) : Z :=
  let full :=
    let temp :=
      if b <? 0
      then Bignum 1 [if b =? INT64_MIN then u64 (INT64_MAX + 1) else u64 (i64 (- b))]
      else Bignum 0 [u64 b] in
    eshkol_bignum_compare (Some a) (Some temp) in
  if (num_limbs a =? 1)%nat then
    let av := limb (limbs a) 0 in
    if (sign a =? 0) && (0 <=? b) then
      if u64 b <? av then 1 else if av <? u64 b then -1 else 0
    else if (sign a =? 1) && (b <? 0) then
      let babs := if b =? INT64_MIN then u64 (INT64_MAX + 1) else u64 (i64 (- b)) in
      if babs <? av then -1 else if av <? babs then 1 else 0
    else full
  else full.

(** The value written through [out] when the answer is [true]. *)
Definition eshkol_bignum_fits_int64 (a : option bignum) : option Z :=
  match a with
  | None => None
  | Some a =>
      if (1 <? num_limbs a)%nat then None
      else
        let val := limb (limbs a) 0 in
        if sign a =? 0 then
          if val <=? INT64_MAX then Some (i64 val) else None
        else if val =? u64 (INT64_MAX + 1) then Some INT64_MIN
        else if val <=? INT64_MAX then Some (- i64 val)
        else None
  end.
