(* ===== verification/BignumSpec.v ===== *)
(** * BignumSpec: what a bignum denotes, and that the operations of Bignum.v
    compute it

    [bval] is the integer a bignum denotes and [wf] its representation
    invariant (limbs of 64 bits, at least one, no leading zero limb, zero never
    negative).  [o ⇓ z] says that a call returned a well-formed bignum
    denoting [z]; it is the abstract contract every client of bignums uses. *)

From S2P Require Export Bignum.
Local Open Scope Z_scope.

Definition mag (b : bignum) : Z := lval (limbs b).
Definition bval (b : bignum) : Z := (if sign b =? 0 then 1 else -1) * mag b.

Record wf (b : bignum) : Prop := {
  wf_sign : sign b = 0 ∨ sign b = 1;
  wf_limbs : u64s (limbs b);
  wf_len : (1 <= num_limbs b)%nat;
  wf_top : num_limbs b = 1%nat ∨ limb (limbs b) (num_limbs b - 1) ≠ 0;
  wf_zero : mag b = 0 → sign b = 0
}.

Definition denotes (o : option bignum) (z : Z) : Prop :=
  ∃ b, o = Some b ∧ wf b ∧ bval b = z.

Declare Scope bignum_scope.
Notation "o ⇓ z" := (denotes o z) (at level 70, no associativity) : bignum_scope.
Open Scope bignum_scope.

Create HintDb bignum.

(** ** Normalisation *)

Lemma trim_count_spec l n : (n <= length l)%nat →
  let m := trim_count l n in
  (m <= n)%nat ∧ (n = 0%nat ∨ 1 <= m)%nat ∧ ((m <= 1)%nat ∨ limb l (m - 1) ≠ 0)
  ∧ lval (take n l) = lval (take m l).
Proof.
  induction n as [|n IH]; intros Hn; simpl; [repeat split; auto|].
  destruct (Nat.ltb_spec 1 (S n)), (Z.eqb_spec (limb l n) 0) as [E|E]; simpl.
  - destruct IH as (?&?&?&Hv); [lia|]. split_and!; [lia|lia|done|].
    rewrite lval_take_S, E by lia. lia.
  - split_and!; [lia|lia| |done]. right. by rewrite Nat.sub_0_r.
  - split_and!; [lia|lia|left; lia|done].
  - split_and!; [lia|lia|left; lia|done].
Qed.

Lemma normalize_spec s l : (s = 0 ∨ s = 1) → u64s l → (1 <= length l)%nat →
  let b := bignum_normalize (Bignum s l) in
  wf b ∧ mag b = lval l ∧ (mag b ≠ 0 → sign b = s).
Proof.
  intros Hs Hu Hl. unfold bignum_normalize, mag; cbn [limbs sign]. unfold num_limbs; cbn [limbs].
  destruct (trim_count_spec l (length l) ltac:(lia)) as (Hm & H1 & Ht & Hv).
  set (m := trim_count l (length l)) in *.
  rewrite firstn_all in Hv.
  assert (Hlen : length (take m l) = m) by (rewrite length_take; lia).
  assert (Hlim : limb (take m l) 0 = limb l 0) by (apply limb_take; lia).
  assert (Hmag1 : m = 1%nat → lval (take m l) = limb l 0).
  { intros ->. rewrite lval_take_S by lia. simpl. rewrite pw_0. lia. }
  split_and!; [split; unfold num_limbs, mag; cbn [limbs sign] | done |].
  - destruct (_ && _); auto.
  - by apply Forall_take.
  - rewrite Hlen. lia.
  - rewrite Hlen, limb_take by lia. destruct Ht as [Ht|Ht]; [left; lia|by right].
  - intros H0. destruct (Nat.eqb_spec m 1) as [E|E].
    + rewrite Hlim, <- Hmag1, H0 by done. done.
    + destruct Ht as [?|Ht]; [lia|]. destruct Ht.
      rewrite <- (limb_take l (m - 1) m) by lia. apply lval_zero; [by apply Forall_take|done].
  - intros Hne. destruct (Nat.eqb_spec m 1) as [E|E]; [|done].
    rewrite Hlim, <- Hmag1 by done. destruct (Z.eqb_spec (lval (take m l)) 0); [lia|done].
Qed.

Lemma normalize_denotes s l : (s = 0 ∨ s = 1) → u64s l → (1 <= length l)%nat →
  Some (bignum_normalize (Bignum s l)) ⇓ (if s =? 0 then 1 else -1) * lval l.
Proof.
  intros Hs Hu Hl. destruct (normalize_spec s l Hs Hu Hl) as (Hw & Hm & Hsg).
  eexists; split_and!; [done|done|]. unfold bval. rewrite Hm in *.
  destruct (decide (lval l = 0)) as [->|]; [lia|]. by rewrite Hsg.
Qed.

(** ** Facts about well-formed bignums *)

Lemma wf_bound b : wf b → 0 <= mag b < pw (num_limbs b).
Proof. intros []. by apply lval_bound. Qed.

Lemma wf_lower b : wf b → num_limbs b ≠ 1%nat → pw (num_limbs b - 1) <= mag b.
Proof.
  intros [] Hn. destruct wf_top0 as [?|Ht]; [done|].
  unfold mag, num_limbs in *.
  pose proof (lval_top (limbs b) (length (limbs b) - 1) ltac:(lia) wf_limbs0) as [Hlo _].
  pose proof (limb_u64 (limbs b) (length (limbs b) - 1) wf_limbs0) as [? ?].
  pose proof (pw_pos (length (limbs b) - 1)). nia.
Qed.

Lemma mag_one b : num_limbs b = 1%nat → mag b = limb (limbs b) 0.
Proof.
  unfold num_limbs, mag. destruct (limbs b) as [|x [|]]; try done. intros _. simpl. unfold limb. simpl. lia.
Qed.

Lemma is_zero_spec b : wf b → eshkol_bignum_is_zero (Some b) = (mag b =? 0).
Proof.
  intros Hw. unfold eshkol_bignum_is_zero.
  destruct (Nat.eqb_spec (num_limbs b) 1) as [E|E]; simpl.
  - by rewrite mag_one.
  - pose proof (wf_lower b Hw E). pose proof (pw_pos (num_limbs b - 1)). symmetry. apply Z.eqb_neq. lia.
Qed.

Lemma bval_zero b : bval b = 0 ↔ mag b = 0.
Proof. unfold bval. destruct (_ =? _); lia. Qed.

Lemma mag_abs b : wf b → mag b = Z.abs (bval b).
Proof. intros Hw. pose proof (wf_bound b Hw). unfold bval. destruct (_ =? _); lia. Qed.

Lemma bval_sign b : wf b → (sign b =? 0) = (0 <=? bval b).
Proof.
  intros Hw. pose proof (wf_bound b Hw) as Hb. unfold bval.
  destruct (wf_sign b Hw) as [E|E]; rewrite E; simpl; symmetry; [apply Z.leb_le; lia|].
  apply Z.leb_gt. pose proof (wf_zero b Hw). destruct (decide (mag b = 0)); [|lia].
  rewrite H in E by done. lia.
Qed.

Lemma denotes_zero_alloc : Some (bignum_alloc 1) ⇓ 0.
Proof.
  exists (bignum_alloc 1). split_and!; [done| |done]. split; cbn; auto.
  apply (replicate_u64s 1).
Qed.

(** ** Magnitude comparison *)

Lemma compare_limbs_spec la lb n : u64s la → u64s lb →
  compare_limbs la lb n = Z.sgn (lval (take n la) - lval (take n lb)).
Proof.
  intros Ha Hb. induction n as [|n IH]; cbn [compare_limbs]; [done|].
  rewrite !lval_take_S'.
  pose proof (lval_take_bound la n Ha). pose proof (lval_take_bound lb n Hb).
  destruct (Z.eqb_spec (limb la n) (limb lb n)) as [->|Hne]; simpl.
  - rewrite IH. f_equal. lia.
  - destruct (Z.ltb_spec (limb lb n) (limb la n)).
    + symmetry. apply Z.sgn_pos. nia.
    + symmetry. apply Z.sgn_neg. nia.
Qed.

Lemma compare_abs_spec a b : wf a → wf b →
  bignum_compare_abs a b = Z.sgn (mag a - mag b).
Proof.
  intros Ha Hb. unfold bignum_compare_abs.
  pose proof (wf_bound a Ha). pose proof (wf_bound b Hb).
  destruct (Nat.eqb_spec (num_limbs a) (num_limbs b)) as [E|E]; simpl.
  - rewrite compare_limbs_spec; [|by apply wf_limbs|by apply wf_limbs].
    unfold mag, num_limbs in *. rewrite E at 2. by rewrite !firstn_all.
  - destruct (Nat.ltb_spec (num_limbs b) (num_limbs a)) as [L|L]; symmetry.
    + apply Z.sgn_pos. pose proof (wf_len b Hb). pose proof (wf_lower a Ha ltac:(lia)).
      pose proof (pw_le (num_limbs b) (num_limbs a - 1) ltac:(lia)). lia.
    + apply Z.sgn_neg. pose proof (wf_len a Ha). pose proof (wf_lower b Hb ltac:(lia)).
      pose proof (pw_le (num_limbs a) (num_limbs b - 1) ltac:(lia)). lia.
Qed.

(** ** Magnitude addition and subtraction *)

Definition add_abs_inv (la lb : list Z) (n i : nat) (s : list Z * Z) : Prop :=
  length s.1 = n ∧ u64s s.1 ∧ 0 <= s.2 <= 1 ∧
  lval (take i s.1) + s.2 * pw i = lval (take i la) + lval (take i lb).

Lemma add_abs_step_inv la lb n i s : u64s la → u64s lb → (i < n)%nat →
  add_abs_inv la lb n i s → add_abs_inv la lb n (S i) (add_abs_step la lb i s).
Proof.
  destruct s as [lr c]. intros Ha Hb Hi (Hl & Hu & Hc & Hv). unfold add_abs_step, add_abs_inv in *.
  rewrite !guard_limb. cbn [fst snd] in *.
  pose proof (limb_u64 la i Ha) as Hx. pose proof (limb_u64 lb i Hb) as Hy.
  set (x := limb la i) in *. set (y := limb lb i) in *.
  rewrite u128_id by (unfold is_u64 in *; lia).
  pose proof (carry_range (x + y + c) 2 ltac:(unfold is_u64, B in *; lia)).
  rewrite (u64_id (Z.shiftr _ _)) by (unfold is_u64; lia).
  split_and!; [by rewrite length_insert|auto with limbs machine|lia|lia|].
  rewrite lval_take_insert, !lval_take_S' by lia. fold x y.
  pose proof (u64_carry (x + y + c)). rewrite pw_S. nia.
Qed.

Lemma max_num_limbs_ge a b :
  (num_limbs a <= max_num_limbs a b)%nat ∧ (num_limbs b <= max_num_limbs a b)%nat.
Proof. unfold max_num_limbs. destruct (Nat.ltb_spec (num_limbs b) (num_limbs a)); lia. Qed.

Lemma add_abs_spec a b : wf a → wf b →
  wf (bignum_add_abs a b) ∧ mag (bignum_add_abs a b) = mag a + mag b.
Proof.
  intros Ha Hb. unfold bignum_add_abs.
  pose proof (max_num_limbs_ge a b) as Hn. set (n := max_num_limbs a b) in *.
  loop_up (add_abs_inv (limbs a) (limbs b) (n + 1)) as Hloop.
  destruct st as [lr c]. destruct Hloop as (Hl & Hu & Hc & Hv).
  - split_and!; simpl; auto with limbs; [by rewrite length_replicate|lia|lia].
  - intros. apply add_abs_step_inv; [by apply wf_limbs|by apply wf_limbs|lia|done].
  - cbn [fst snd] in *. simpl in Hv.
    destruct (normalize_spec 0 (<[n:=c]> lr)) as (Hw & Hm & _); auto.
    + apply insert_u64s; [done|]. unfold is_u64; lia.
    + rewrite length_insert. lia.
    + split; [exact Hw|]. cbn [sign bignum_alloc]. rewrite Hm. unfold mag.
      rewrite <- (take_ge (<[n:=c]> lr) (S n)) by (rewrite length_insert; lia).
      rewrite lval_take_insert by lia. rewrite Hv. unfold num_limbs in *.
      rewrite !take_ge by lia. done.
Qed.

Definition sub_abs_inv (la lb : list Z) (n i : nat) (s : list Z * Z) : Prop :=
  length s.1 = n ∧ u64s s.1 ∧ (s.2 = 0 ∨ s.2 = 1) ∧
  lval (take i s.1) - s.2 * pw i = lval (take i la) - lval (take i lb).

(** One subtract-with-borrow step: the borrow test of the code is exact. *)
Lemma sub_borrow x y c : is_u64 x → is_u64 y → (c = 0 ∨ c = 1) →
  let c' := if (x <? u64 (y + c)) || (negb (c =? 0) && (y =? UINT64_MAX)) then 1 else 0 in
  (c' = 0 ∨ c' = 1) ∧ u64 (u64 (x - y) - c) - c' * B = x - y - c.
Proof.
  intros [] [] Hc c'. split; [unfold c'; destruct (_ || _); auto|].
  assert (E : u64 (u64 (x - y) - c) = u64 (x - y - c)).
  { unfold u64. by rewrite Zminus_mod_idemp_l. }
  rewrite E. unfold c', UINT64_MAX, u64, B.
  destruct Hc as [-> | ->]; simpl.
  - rewrite Z.add_0_r, orb_false_r, (Z.mod_small y) by lia.
    destruct (Z.ltb_spec x y).
    + rewrite <- (Z.mod_add _ 1), (Z.mod_small (x - y - 0 + _)) by lia. lia.
    + rewrite Z.mod_small by lia. lia.
  - destruct (Z.eqb_spec y (2 ^ 64 - 1)) as [->|Hy].
    + simpl. rewrite orb_true_r, <- (Z.mod_add _ 1), Z.mod_small by lia. lia.
    + simpl. rewrite orb_false_r, (Z.mod_small (y + 1)) by lia.
      destruct (Z.ltb_spec x (y + 1)).
      * rewrite <- (Z.mod_add _ 1), Z.mod_small by lia. lia.
      * rewrite Z.mod_small by lia. lia.
Qed.

Lemma sub_abs_step_inv la lb n i s : u64s la → u64s lb → (i < n)%nat →
  sub_abs_inv la lb n i s → sub_abs_inv la lb n (S i) (sub_abs_step la lb i s).
Proof.
  destruct s as [lr c]. intros Ha Hb Hi (Hl & Hu & Hc & Hv). unfold sub_abs_step, sub_abs_inv in *.
  rewrite guard_limb. cbn [fst snd] in *.
  destruct (sub_borrow (limb la i) (limb lb i) c) as [Hc' Hd]; auto with limbs.
  split_and!; [by rewrite length_insert|auto with limbs machine|done|].
  rewrite lval_take_insert, !lval_take_S' by lia. rewrite pw_S. nia.
Qed.

Lemma sub_abs_spec a b : wf a → wf b → mag b <= mag a →
  wf (bignum_sub_abs a b) ∧ mag (bignum_sub_abs a b) = mag a - mag b.
Proof.
  intros Ha Hb Hle. unfold bignum_sub_abs.
  assert (Hn : (num_limbs b <= num_limbs a)%nat).
  { destruct (decide (num_limbs b <= num_limbs a)%nat); [done|].
    pose proof (wf_len a Ha). pose proof (wf_lower b Hb ltac:(lia)). pose proof (wf_bound a Ha).
    pose proof (pw_le (num_limbs a) (num_limbs b - 1) ltac:(lia)). lia. }
  loop_up (sub_abs_inv (limbs a) (limbs b) (num_limbs a)) as Hloop.
  destruct st as [lr c]. destruct Hloop as (Hl & Hu & Hc & Hv).
  - split_and!; simpl; auto with limbs. by rewrite length_replicate.
  - intros. apply sub_abs_step_inv; [by apply wf_limbs|by apply wf_limbs|lia|done].
  - cbn [fst snd] in *. simpl in Hv. unfold num_limbs in *.
    rewrite !take_ge in Hv by lia. fold (mag a) (mag b) in Hv.
    pose proof (lval_bound lr Hu) as Hb'. rewrite Hl in Hb'.
    assert (c = 0) as -> by (pose proof (pw_pos (length (limbs a))); nia).
    destruct (normalize_spec 0 lr) as (Hw & Hm & _); auto.
    + rewrite Hl. apply (wf_len a Ha).
    + split; [exact Hw|]. cbn [sign bignum_alloc]. lia.
Qed.

Lemma wf_two s x y : (s = 0 ∨ s = 1) → is_u64 x → is_u64 y → y ≠ 0 → wf (Bignum s [x; y]).
Proof.
  intros Hs Hx Hy Hne. split; cbn; [done|repeat (constructor; [done|]); constructor|lia|by right|]. intros E.
  unfold mag in E. cbn in E. unfold is_u64, B in *. lia.
Qed.
