(* ===== verification/BignumArith.v ===== *)
(** * BignumArith: multiplication and the signed operations of Bignum.v *)

From S2P Require Export BignumSpec.
Local Open Scope Z_scope.

(** ** Multiplication *)

Definition addmul_inv (a : list Z) (b : Z) (off : nat) (r0 : list Z) (i : nat)
    (s : list Z * Z) : Prop :=
  length s.1 = length r0 ∧ u64s s.1 ∧ is_u64 s.2 ∧
  limb s.1 (off + length a) = limb r0 (off + length a) ∧
  lval s.1 + s.2 * pw (i + off) = lval r0 + lval (take i a) * b * pw off.

Lemma addmul_step_inv a b off r0 i s : u64s a → is_u64 b →
  (i < length a)%nat → (off + length a <= length r0)%nat →
  addmul_inv a b off r0 i s → addmul_inv a b off r0 (S i) (addmul_step a b off i s).
Proof.
  destruct s as [r c]. intros Ha Hb Hi Hlen (Hl & Hu & Hc & Hk & Hv).
  unfold addmul_step, addmul_inv in *. cbn [fst snd] in *.
  pose proof (limb_u64 a i Ha) as Hx. pose proof (limb_u64 r (i + off) Hu) as Hy.
  pose proof (mul_add_range _ _ _ _ Hx Hb Hy Hc) as Hr.
  rewrite u128_id by (unfold B in Hr; lia).
  set (p := limb a i * b + limb r (i + off) + c) in *.
  pose proof (carry_range p B Hr) as Hcr.
  rewrite (u64_id (Z.shiftr p 64)) by exact Hcr.
  split_and!; [by rewrite length_insert|auto with limbs machine|exact Hcr| |].
  - rewrite limb_insert_ne by lia. done.
  - rewrite lval_insert, lval_take_S' by lia.
    assert (Eu : u64 p = p - B * Z.shiftr p 64) by (pose proof (u64_carry p); lia).
    rewrite Eu. change (S i + off)%nat with (S (i + off)). rewrite pw_S.
    rewrite !(pw_add i off) in *. unfold p. lia.
Qed.

Lemma addmul_spec r0 a b off : u64s r0 → u64s a → is_u64 b →
  (off + length a < length r0)%nat → limb r0 (off + length a) = 0 →
  let r := bignum_addmul_limb r0 (length r0) a (length a) b off in
  length r = length r0 ∧ u64s r ∧ lval r = lval r0 + lval a * b * pw off.
Proof.
  intros Hr Ha Hb Hlen H0. unfold bignum_addmul_limb.
  loop_up (addmul_inv a b off r0) as Hloop. destruct st as [r c].
  destruct Hloop as (Hl & Hu & Hc & Hk & Hv).
  - split_and!; cbn [fst snd]; auto with machine.
  - intros. apply addmul_step_inv; auto; lia.
  - cbn [fst snd] in *. destruct (Nat.ltb_spec (off + length a) (length r0)); [|lia].
    rewrite Hk, H0, Z.add_0_l, u64_id by done. rewrite Nat.add_0_l in Hv.
    rewrite firstn_all, (Nat.add_comm (length a)) in Hv.
    split_and!; [by rewrite length_insert|by apply insert_u64s|].
    rewrite lval_insert, Hk, H0 by lia. lia.
Qed.

Definition mul_inv (la lb : list Z) (i : nat) (lr : list Z) : Prop :=
  length lr = (length la + length lb)%nat ∧ u64s lr ∧ lval lr = lval la * lval (take i lb).

Lemma mul_step_inv la lb i lr : u64s la → u64s lb → (i < length lb)%nat →
  mul_inv la lb i lr → mul_inv la lb (S i) (mul_step la lb (length la + length lb) i lr).
Proof.
  intros Ha Hb Hi (Hl & Hu & Hv). unfold mul_step.
  assert (Hs : lval la * lval (take (S i) lb) = lval lr + lval la * limb lb i * pw i).
  { rewrite lval_take_S' , Hv. ring. }
  destruct (Z.eqb_spec (limb lb i) 0) as [E|E]; simpl.
  - split_and!; [done|done|]. rewrite Hs, E. lia.
  - rewrite <- Hl. unfold mul_inv. rewrite Hs, <- Hl. apply addmul_spec; auto with limbs; [lia|].
    apply (lval_small_limb lr (i + length la)); [done| |lia].
    rewrite Hv, pw_add. pose proof (lval_bound la Ha). pose proof (lval_take_bound lb i Hb). nia.
Qed.

Lemma mul_limbs_spec la lb : u64s la → u64s lb →
  mul_inv la lb (length lb)
    (for_up (length lb) 0 (mul_step la lb (length la + length lb))
       (replicate (length la + length lb) 0)).
Proof.
  intros Ha Hb. loop_up (mul_inv la lb) as Hloop. apply Hloop.
  - split_and!; [apply length_replicate|auto with limbs|]. rewrite lval_replicate. simpl. lia.
  - intros. apply mul_step_inv; auto; lia.
Qed.

(** ** Signed operations *)

Section signed.
Context (a b : bignum) (Ha : wf a) (Hb : wf b).

(** Every signed addition and subtraction is one of three cases on the
    operands' magnitudes. *)
Lemma signed_add_abs s : (s = 0 ∨ s = 1) → (s = 1 → mag a + mag b ≠ 0) →
  Some (Bignum s (limbs (bignum_add_abs a b))) ⇓ (if s =? 0 then 1 else -1) * (mag a + mag b).
Proof using Ha Hb.
  intros Hs Hz. destruct (add_abs_spec a b Ha Hb) as [Hw Hm].
  eexists; split_and!; [done| |unfold bval, mag; cbn [sign limbs]; fold (mag (bignum_add_abs a b)); by rewrite Hm].
  destruct Hw as [? ? ? ? ?]. split; auto.
  unfold mag; cbn [limbs sign]. fold (mag (bignum_add_abs a b)). rewrite Hm. intros E.
  destruct Hs as [?|H1]; [done|]. by destruct (Hz H1).
Qed.

Lemma signed_sub_abs s : (s = 0 ∨ s = 1) → mag b < mag a →
  Some (Bignum s (limbs (bignum_sub_abs a b))) ⇓ (if s =? 0 then 1 else -1) * (mag a - mag b).
Proof using Ha Hb.
  intros Hs Hlt. destruct (sub_abs_spec a b Ha Hb ltac:(lia)) as [Hw Hm].
  eexists; split_and!; [done| |unfold bval, mag; cbn [sign limbs]; fold (mag (bignum_sub_abs a b)); by rewrite Hm].
  destruct Hw as [? ? ? ? ?]. split; auto.
  unfold mag; cbn [limbs sign]. fold (mag (bignum_sub_abs a b)). lia.
Qed.
End signed.

Ltac case_signs a b :=
  match goal with
  | Ha : wf a, Hb : wf b |- _ =>
      let E1 := fresh "Ea" in let E2 := fresh "Eb" in
      pose proof (wf_bound a Ha); pose proof (wf_bound b Hb);
      pose proof (wf_zero a Ha); pose proof (wf_zero b Hb);
      destruct (wf_sign a Ha) as [E1|E1], (wf_sign b Hb) as [E2|E2]
  end.

Lemma denotes_eq o z z' : o ⇓ z → z = z' → o ⇓ z'.
Proof. by intros H ->. Qed.

(** The common tail of [eshkol_bignum_add]/[eshkol_bignum_sub] on operands
    whose signs make it a subtraction of magnitudes. *)
Lemma cmp_sub_cases a b sa sb : wf a → wf b → (sa = 0 ∨ sa = 1) → (sb = 0 ∨ sb = 1) → sa ≠ sb →
  Some (if bignum_compare_abs a b =? 0 then bignum_alloc 1
        else if 0 <? bignum_compare_abs a b then Bignum sa (limbs (bignum_sub_abs a b))
        else Bignum sb (limbs (bignum_sub_abs b a)))
  ⇓ (if sa =? 0 then 1 else -1) * (mag a - mag b).
Proof.
  intros Ha Hb Hsa Hsb Hne. rewrite compare_abs_spec by done.
  destruct (Z.sgn_spec (mag a - mag b)) as [[? ->]|[[? ->]|[? ->]]]; simpl.
  - apply signed_sub_abs; auto; lia.
  - eapply denotes_eq; [apply denotes_zero_alloc|lia].
  - eapply denotes_eq; [apply signed_sub_abs; auto; lia|].
    destruct Hsa as [-> | ->], Hsb as [-> | ->]; simpl; lia.
Qed.

Lemma add_denotes a b za zb : a ⇓ za → b ⇓ zb → eshkol_bignum_add a b ⇓ za + zb.
Proof.
  intros (x & -> & Hx & <-) (y & -> & Hy & <-). unfold eshkol_bignum_add. cbn -[bignum_alloc Z.mul].
  unfold bval. case_signs x y; rewrite Ea, Eb; cbn -[bignum_alloc Z.mul].
  - eapply denotes_eq; [apply signed_add_abs; auto; lia|]. simpl. lia.
  - eapply denotes_eq; [apply cmp_sub_cases; auto|]. simpl. lia.
  - eapply denotes_eq; [apply cmp_sub_cases; auto|]. simpl. lia.
  - eapply denotes_eq; [apply signed_add_abs; auto; lia|]. simpl. lia.
Qed.

Lemma sub_denotes a b za zb : a ⇓ za → b ⇓ zb → eshkol_bignum_sub a b ⇓ za - zb.
Proof.
  intros (x & -> & Hx & <-) (y & -> & Hy & <-). unfold eshkol_bignum_sub. cbn -[bignum_alloc Z.mul Z.sub].
  unfold bval. case_signs x y; rewrite Ea, Eb; cbn -[bignum_alloc Z.mul Z.sub].
  - eapply denotes_eq; [apply (cmp_sub_cases x y 0 1); auto; lia|]. simpl. lia.
  - eapply denotes_eq; [apply signed_add_abs; auto; lia|]. simpl. lia.
  - eapply denotes_eq; [apply signed_add_abs; auto; lia|]. simpl. lia.
  - eapply denotes_eq; [apply (cmp_sub_cases x y 1 0); auto; lia|]. simpl. lia.
Qed.

Lemma mul_denotes a b za zb : a ⇓ za → b ⇓ zb → eshkol_bignum_mul a b ⇓ za * zb.
Proof.
  intros (x & -> & Hx & <-) (y & -> & Hy & <-). unfold eshkol_bignum_mul. cbn [mbind option_bind].
  unfold num_limbs at 2 3. cbn [bignum_alloc limbs sign].
  destruct (mul_limbs_spec (limbs x) (limbs y)) as (Hl & Hu & Hv); [by apply wf_limbs|by apply wf_limbs|].
  rewrite firstn_all in Hv. fold (num_limbs x) (num_limbs y) in *.
  set (lr := for_up _ _ _ _) in *. clearbody lr.
  pose proof (wf_len x Hx). pose proof (wf_len y Hy).
  set (s := if _ && _ then _ else _).
  assert (Hs : s = 0 ∨ s = 1) by (unfold s; destruct (_ && _); auto).
  eapply denotes_eq; [apply normalize_denotes; auto; lia|].
  rewrite Hv. fold (mag x) (mag y). unfold bval.
  assert (Hz : eshkol_bignum_is_zero (Some (Bignum 0 lr)) = false).
  { unfold eshkol_bignum_is_zero, num_limbs; cbn [limbs].
    destruct (Nat.eqb_spec (length lr) 1); [lia|done]. }
  unfold s. rewrite Hz. case_signs x y; rewrite Ea, Eb; simpl; lia.
Qed.

Lemma neg_denotes a za : a ⇓ za → eshkol_bignum_neg a ⇓ - za.
Proof.
  intros (x & -> & Hx & <-). unfold eshkol_bignum_neg. cbn [mbind option_bind].
  rewrite is_zero_spec by done. destruct Hx as [Hs Hl Hn Ht Hz] eqn:E; clear E.
  eexists; split_and!; [done| |].
  - split; auto; unfold mag in *; cbn [limbs sign] in *.
    + destruct (Z.eqb_spec (lval (limbs x)) 0); [auto|]. lia.
    + intros H0. rewrite H0. done.
  - unfold bval, mag in *; cbn [limbs sign].
    destruct (Z.eqb_spec (lval (limbs x)) 0) as [->|]; [lia|].
    destruct Hs as [-> | ->]; simpl; lia.
Qed.

Lemma from_int64_denotes v : is_i64 v → eshkol_bignum_from_int64 v ⇓ v.
Proof.
  intros Hv. unfold is_i64 in Hv. unfold eshkol_bignum_from_int64, INT64_MIN, INT64_MAX.
  assert (Hmk : ∀ s m, (s = 0 ∨ s = 1) → is_u64 m → (m = 0 → s = 0) →
    Some (Bignum s [m]) ⇓ (if s =? 0 then 1 else -1) * m).
  { intros s m Hs Hm H0. eexists; split_and!; [done| |unfold bval, mag; cbn; lia].
    split; cbn; auto. unfold mag; cbn. intros. apply H0. lia. }
  destruct (Z.ltb_spec v 0).
  - destruct (Z.eqb_spec v (- 2 ^ 63)) as [->|Hne].
    + eapply denotes_eq; [apply (Hmk 1); [auto|apply u64_range|done]|done].
    + rewrite i64_id, u64_id by (unfold is_i64, is_u64; lia).
      eapply denotes_eq; [apply (Hmk 1); [auto|unfold is_u64; lia|lia]|]. simpl. lia.
  - rewrite u64_id by (unfold is_u64; lia).
    eapply denotes_eq; [apply (Hmk 0); [auto|unfold is_u64; lia|lia]|]. simpl. lia.
Qed.

#[export] Hint Resolve add_denotes sub_denotes mul_denotes neg_denotes from_int64_denotes : bignum.

(** ** Comparison and predicates *)

Lemma compare_denotes a b za zb : a ⇓ za → b ⇓ zb → eshkol_bignum_compare a b = Z.sgn (za - zb).
Proof.
  intros (x & -> & Hx & <-) (y & -> & Hy & <-). unfold eshkol_bignum_compare.
  rewrite !is_zero_spec, compare_abs_spec by done. unfold bval.
  case_signs x y; rewrite Ea, Eb; simpl.
  - f_equal; lia.
  - destruct (Z.eqb_spec (mag x) 0), (Z.eqb_spec (mag y) 0); simpl; symmetry; lia.
  - destruct (Z.eqb_spec (mag x) 0), (Z.eqb_spec (mag y) 0); simpl; symmetry; lia.
  - rewrite <- Z.sgn_opp. f_equal; lia.
Qed.

Lemma is_zero_denotes a za : a ⇓ za → eshkol_bignum_is_zero a = (za =? 0).
Proof.
  intros (x & -> & Hx & <-). rewrite is_zero_spec by done. unfold bval.
  destruct (sign x =? 0), (Z.eqb_spec (mag x) 0); symmetry; [apply Z.eqb_eq|apply Z.eqb_neq|apply Z.eqb_eq|apply Z.eqb_neq]; lia.
Qed.

Lemma sign_denotes x : wf x → (negb (sign x =? 0)) = (bval x <? 0).
Proof. intros Hx. rewrite bval_sign, Z.ltb_antisym; done. Qed.

Lemma is_negative_denotes a za : a ⇓ za → eshkol_bignum_is_negative a = (za <? 0).
Proof.
  intros H. pose proof (is_zero_denotes _ _ H) as Hz. destruct H as (x & -> & Hx & <-).
  unfold eshkol_bignum_is_negative. rewrite Hz, sign_denotes by done.
  destruct (Z.ltb_spec (bval x) 0), (Z.eqb_spec (bval x) 0); simpl; lia.
Qed.

Lemma is_positive_denotes a za : a ⇓ za → eshkol_bignum_is_positive a = (0 <? za).
Proof.
  intros H. pose proof (is_zero_denotes _ _ H) as Hz. destruct H as (x & -> & Hx & <-).
  unfold eshkol_bignum_is_positive. rewrite Hz, bval_sign by done.
  destruct (Z.leb_spec 0 (bval x)), (Z.eqb_spec (bval x) 0), (Z.ltb_spec 0 (bval x)); simpl; lia.
Qed.

Lemma limb0_parity l : l ≠ [] → limb l 0 mod 2 = lval l mod 2.
Proof.
  destruct l as [|x l]; [done|]. intros _. simpl. change (limb (x :: l) 0) with x.
  replace (x + B * lval l) with (x + (2 ^ 63 * lval l) * 2) by (unfold B; lia).
  by rewrite Z.mod_add.
Qed.

Lemma wf_nonempty x : wf x → limbs x ≠ [].
Proof. intros Hx E. pose proof (wf_len x Hx) as Hl. unfold num_limbs in Hl. rewrite E in Hl. simpl in Hl. lia. Qed.

Lemma is_odd_denotes a za : a ⇓ za → eshkol_bignum_is_odd a = Z.odd za.
Proof.
  intros (x & -> & Hx & <-). unfold eshkol_bignum_is_odd.
  change 1 with (Z.ones 1) at 1. rewrite Z.land_ones, Z.pow_1_r by lia.
  rewrite limb0_parity by (by apply wf_nonempty).
  fold (mag x). rewrite (mag_abs x Hx), Zmod_odd.
  replace (Z.odd (Z.abs (bval x))) with (Z.odd (bval x)).
  - by destruct (Z.odd (bval x)).
  - destruct (Z.abs_eq_or_opp (bval x)) as [-> | ->]; [done|by rewrite Z.odd_opp].
Qed.

Lemma is_even_denotes a za : a ⇓ za → eshkol_bignum_is_even a = Z.even za.
Proof.
  intros H. pose proof (is_odd_denotes _ _ H) as Ho. rewrite <- Z.negb_odd, <- Ho.
  destruct H as (x & -> & Hx & <-). unfold eshkol_bignum_is_even, eshkol_bignum_is_odd.
  change 1 with (Z.ones 1). rewrite Z.land_ones, Z.pow_1_r by lia.
  pose proof (Z.mod_pos_bound (limb (limbs x) 0) 2).
  destruct (Z.eqb_spec (limb (limbs x) 0 mod 2) 0), (Z.eqb_spec (limb (limbs x) 0 mod 2) (Z.ones 1)) as [E|E];
    simpl in *; try done; change (Z.ones 1) with 1 in *; lia.
Qed.

Lemma fits_int64_denotes a za : a ⇓ za →
  eshkol_bignum_fits_int64 a = if decide (is_i64 za) then Some za else None.
Proof.
  intros (x & -> & Hx & <-). unfold eshkol_bignum_fits_int64.
  pose proof (wf_bound x Hx). pose proof (wf_len x Hx).
  destruct (Nat.ltb_spec 1 (num_limbs x)) as [L|L].
  - rewrite decide_False; [done|]. pose proof (wf_lower x Hx ltac:(lia)).
    pose proof (pw_le 1 (num_limbs x - 1) ltac:(lia)). rewrite pw_1 in *.
    unfold is_i64, bval, B in *. destruct (_ =? _); lia.
  - rewrite <- (mag_one x) by lia. unfold bval, INT64_MAX, INT64_MIN, is_i64.
    change (u64 (2 ^ 63 - 1 + 1)) with (2 ^ 63).
    destruct (wf_sign x Hx) as [E|E]; rewrite E; cbn [Z.eqb].
    + destruct (Z.leb_spec (mag x) (2 ^ 63 - 1)).
      * rewrite i64_id, decide_True by (unfold is_i64; lia). f_equal. lia.
      * by rewrite decide_False by lia.
    + destruct (Z.eqb_spec (mag x) (2 ^ 63)) as [->|]; [by rewrite decide_True by lia|].
      destruct (Z.leb_spec (mag x) (2 ^ 63 - 1)).
      * rewrite i64_id, decide_True by (unfold is_i64; lia). f_equal; lia.
      * by rewrite decide_False by lia.
Qed.

(** A well-formed bignum is determined by the number it denotes. *)
Lemma lval_inj l k : u64s l → u64s k → length l = length k → lval l = lval k → l = k.
Proof.
  intros Hl. revert k. induction Hl as [|x l [] Hl IH]; intros k Hk Hn Hv; destruct k as [|y k]; try done.
  apply Forall_cons_1 in Hk as [[] Hk]. simpl in *.
  assert (x = y ∧ lval l = lval k) as [-> Ev] by (unfold B in *; lia).
  f_equal. apply IH; auto.
Qed.

Lemma wf_num_limbs a b : wf a → wf b → mag a = mag b → num_limbs a = num_limbs b.
Proof.
  intros Ha Hb E. pose proof (wf_bound a Ha). pose proof (wf_bound b Hb).
  pose proof (wf_len a Ha). pose proof (wf_len b Hb).
  destruct (Nat.lt_trichotomy (num_limbs a) (num_limbs b)) as [L|[|L]]; [|done|].
  - pose proof (wf_lower b Hb ltac:(lia)). pose proof (pw_le (num_limbs a) (num_limbs b - 1) ltac:(lia)). lia.
  - pose proof (wf_lower a Ha ltac:(lia)). pose proof (pw_le (num_limbs b) (num_limbs a - 1) ltac:(lia)). lia.
Qed.

Lemma bval_inj a b : wf a → wf b → bval a = bval b → a = b.
Proof.
  intros Ha Hb E. pose proof (bval_sign a Ha) as Sa. pose proof (bval_sign b Hb) as Sb. rewrite E in Sa.
  assert (Em : mag a = mag b) by (rewrite !mag_abs by done; by rewrite E).
  destruct a as [s l], b as [t k]. f_equal.
  - rewrite <- Sb in Sa. destruct (wf_sign _ Ha) as [E1|E1], (wf_sign _ Hb) as [E2|E2];
      cbn [sign] in *; subst; done.
  - apply lval_inj; [apply (wf_limbs _ Ha)|apply (wf_limbs _ Hb)|apply (wf_num_limbs _ _ Ha Hb Em)|exact Em].
Qed.

Lemma compare_int64_denotes a v : wf a → is_i64 v →
  eshkol_bignum_compare_int64 a v = Z.sgn (bval a - v).
Proof.
  intros Ha Hv. unfold eshkol_bignum_compare_int64.
  assert (Hfull : eshkol_bignum_compare (Some a)
    (Some (if v <? 0 then Bignum 1 [if v =? INT64_MIN then u64 (INT64_MAX + 1) else u64 (i64 (- v))]
           else Bignum 0 [u64 v])) = Z.sgn (bval a - v)).
  { apply compare_denotes; [by eexists|]. pose proof (from_int64_denotes v Hv) as Hd.
    unfold eshkol_bignum_from_int64 in Hd. exact Hd. }
  rewrite Hfull. destruct (Nat.eqb_spec (num_limbs a) 1) as [E|]; [|done].
  rewrite <- (mag_one a) by done. unfold is_i64, INT64_MIN, INT64_MAX in *.
  change (u64 (2 ^ 63 - 1 + 1)) with (2 ^ 63). unfold bval.
  pose proof (wf_bound a Ha).
  destruct (wf_sign a Ha) as [Es|Es]; rewrite Es; cbn [Z.eqb andb].
  - destruct (Z.leb_spec 0 v); simpl; [|done]. rewrite u64_id by (unfold is_u64; lia).
    destruct (Z.ltb_spec v (mag a)), (Z.ltb_spec (mag a) v); lia.
  - destruct (Z.ltb_spec v 0); simpl; [|done].
    set (m := if _ =? _ then _ else _).
    assert (Hm : m = - v).
    { unfold m. destruct (Z.eqb_spec v (- 2 ^ 63)) as [->|]; [done|].
      rewrite i64_id, u64_id by (unfold is_i64, is_u64; lia). done. }
    rewrite Hm. destruct (Z.ltb_spec (- v) (mag a)), (Z.ltb_spec (mag a) (- v)); lia.
Qed.
