(* ===== verification/BignumDiv.v ===== *)
(** * BignumDiv: division, and what it returns *)

From S2P Require Export BignumArith.
Local Open Scope Z_scope.

(** * division (lib/core/bignum.cpp, [bignum_div_limb],
    [bignum_divmod_abs] and the public [eshkol_bignum_div]/[eshkol_bignum_mod])

    Knuth's Algorithm D over 64-bit limbs with 128-bit intermediates, every
    intermediate wrapped at the width of its C++ type. *)

Definition div_limb_step (la : list Z) (divisor : Z) (i : nat) (s : list Z * Z) : list Z * Z :=
  let '(lr, rem) := s in
  let cur := Z.lor (u128 (Z.shiftl rem 64)) (limb la i) in
  (<[i := u64 (cur / divisor)]> lr, cur mod divisor).

(** Quotient and the value stored through [remainder]. *)
Definition bignum_div_limb (a : bignum) (divisor : Z) : bignum * Z :=
  let result := bignum_alloc (num_limbs a) in
  let '(lr, rem) := for_down (num_limbs a) (div_limb_step (limbs a) divisor) (limbs result, 0) in
  (bignum_normalize (Bignum (sign result) lr), u64 rem).

(** [__builtin_clzll], defined for a non-zero argument. *)
Definition clzll (x : Z) : Z := 63 - Z.log2 x.

(** [out[i] = (v[i] << shift) | carry; carry = v[i] >> (64 - shift)] *)
Definition shl_step (v : list Z) (shift : Z) (i : nat) (s : list Z * Z) : list Z * Z :=
  let '(out, carry) := s in
  (<[i := Z.lor (u64 (Z.shiftl (limb v i) shift)) carry]> out, Z.shiftr (limb v i) (64 - shift)).

(** [out[i] = (v[i] >> shift) | carry; carry = v[i] << (64 - shift)] *)
Definition shr_step (v : list Z) (shift : Z) (i : nat) (s : list Z * Z) : list Z * Z :=
  let '(out, carry) := s in
  (<[i := Z.lor (Z.shiftr (limb v i) shift) carry]> out, u64 (Z.shiftl (limb v i) (64 - shift))).

(** The correction loop of the trial quotient.  [rhat] grows by a limb whose
    top bit is set, so the loop runs at most twice. *)
Fixpoint refine_qhat (fuel : nat) (n_ge_2 : bool) (v1 v2 u2 qhat rhat : Z) : Z * Z :=
  match fuel with
  | O => (qhat, rhat)
  | S fuel' =>
      if (2 ^ 64 <=? qhat)
         || (n_ge_2 && (u128 (u128 (Z.shiftl rhat 64) + u2) <? u128 (qhat * v2)))
      then
        let qhat := u128 (qhat - 1) in
        let rhat := u128 (rhat + v1) in
        if 2 ^ 64 <=? rhat then (qhat, rhat)
        else refine_qhat fuel' n_ge_2 v1 v2 u2 qhat rhat
      else (qhat, rhat)
  end.

Definition trial_qhat (un vn : list Z) (n j : nat) : Z :=
  let v1 := limb vn (n - 1) in
  let uhat := Z.lor (u128 (Z.shiftl (limb un (j + n)) 64)) (limb un (j + n - 1)) in
  (refine_qhat 2 (2 <=? n)%nat v1 (limb vn (n - 2)) (limb un (j + n - 2))
     (uhat / v1) (uhat mod v1)).1.

Definition mulsub_step (vn : list Z) (qhat : Z) (j i : nat) (s : list Z * Z) : list Z * Z :=
  let '(un, borrow_s) := s in
  let prod := u128 (u64 qhat * limb vn i) in
  let plo := u64 prod in
  let phi := u64 (Z.shiftr prod 64) in
  let diff := i128 (limb un (j + i) - plo + borrow_s) in
  (<[(j + i)%nat := u64 diff]> un, i128 (Z.shiftr diff 64 - phi)).

Definition addback_step (vn : list Z) (j i : nat) (s : list Z * Z) : list Z * Z :=
  let '(un, carry) := s in
  let sum := u128 (limb un (j + i) + limb vn i + carry) in
  (<[(j + i)%nat := u64 sum]> un, u64 (Z.shiftr sum 64)).

(** One quotient limb: trial quotient, multiply and subtract, add back. *)
Definition divmod_step (vn : list Z) (n j : nat) (s : list Z * list Z) : list Z * list Z :=
  let '(un, ql) := s in
  let qhat := trial_qhat un vn n j in
  let '(un, borrow_s) := for_up n 0 (mulsub_step vn qhat j) (un, 0) in
  let diff_top := i128 (limb un (j + n) + borrow_s) in
  let un := <[(j + n)%nat := u64 diff_top]> un in
  let ql := <[j := u64 qhat]> ql in
  if diff_top <? 0 then
    let ql := <[j := u64 (limb ql j - 1)]> ql in
    let '(un, carry) := for_up n 0 (addback_step vn j) (un, 0) in
    (<[(j + n)%nat := u64 (limb un (j + n) + carry)]> un, ql)
  else (un, ql).

(** Quotient and remainder of the magnitudes, both unsigned. *)
Definition bignum_divmod_abs (a b : bignum) : bignum * bignum :=
  if (num_limbs b =? 1)%nat then
    let '(q, rem) := bignum_div_limb a (limb (limbs b) 0) in
    (q, Bignum 0 (<[0%nat := rem]> (limbs (bignum_alloc 1))))
  else
    let cmp := bignum_compare_abs a b in
    if cmp <? 0 then (bignum_alloc 1, Bignum 0 (limbs a))
    else if cmp =? 0 then
      (Bignum 0 (<[0%nat := 1]> (limbs (bignum_alloc 1))), bignum_alloc 1)
    else
      let n := num_limbs b in
      let m := (num_limbs a - n)%nat in
      let vn := limbs b in
      let d_top := limb vn (n - 1) in
      let shift := if negb (d_top =? 0) then clzll d_top else 0 in
      let vn_shifted :=
        if 0 <? shift
        then (for_up n 0 (shl_step vn shift) (replicate n 0, 0)).1
        else vn in
      let ua := limbs a in
      let un :=
        if 0 <? shift
        then let '(un, carry) :=
               for_up (num_limbs a) 0 (shl_step ua shift) (replicate (num_limbs a + 1) 0, 0) in
             <[num_limbs a := carry]> un
        else ua ++ [0] in
      let q := bignum_alloc (m + 1) in
      let '(un, ql) := for_down (m + 1) (divmod_step vn_shifted n) (un, limbs q) in
      let rl :=
        if 0 <? shift
        then (for_down n (shr_step un shift) (replicate n 0, 0)).1
        else take n un in
      (bignum_normalize (Bignum (sign q) ql), bignum_normalize (Bignum 0 rl)).

Definition eshkol_bignum_div (a b : option bignum) : outcome (option bignum) :=
  match a, b with
  | Some x, Some y =>
      if eshkol_bignum_is_zero b then Raised DivideByZero
      else
        let q := (bignum_divmod_abs x y).1 in
        Ret (Some (Bignum (if negb (sign x =? sign y) && negb (eshkol_bignum_is_zero (Some q))
                           then 1 else 0) (limbs q)))
  | _, _ => Ret None
  end.

Definition eshkol_bignum_mod (a b : option bignum) : outcome (option bignum) :=
  match a, b with
  | Some x, Some y =>
      if eshkol_bignum_is_zero b then Raised DivideByZero
      else
        let r := (bignum_divmod_abs x y).2 in
        Ret (Some (Bignum (if negb (sign x =? 0) && negb (eshkol_bignum_is_zero (Some r))
                           then 1 else 0) (limbs r)))
  | _, _ => Ret None
  end.

(** * Algorithm D, its trial quotients and its result *)

(** * The trial quotient of Algorithm D is right or one too large

    The arithmetic behind [trial_qhat], with the dividend's partial remainder
    [U] and the shifted divisor [W] split at their three and two top limbs. *)

Section trial.
Context (K ul u1 u0 u2 vl v1 v2 : Z).
Context (HK : 0 < K) (Hul : 0 <= ul < K) (Hvl : 0 <= vl < K).
Context (Hu1 : is_u64 u1) (Hu0 : is_u64 u0) (Hu2 : is_u64 u2).
Context (Hv1 : 2 ^ 63 <= v1 < 2 ^ 64) (Hv2 : is_u64 v2).

Definition trial_U : Z := ul + ((u1 * B + u0) * B + u2) * K.
Definition trial_W : Z := vl + (v1 * B + v2) * K.
Context (HUW : trial_U < trial_W * B).

Let q : Z := trial_U / trial_W.

Lemma trial_W_pos : 0 < trial_W.
Proof. unfold trial_W, is_u64, B in *. nia. Qed.

Lemma trial_U_nonneg : 0 <= trial_U.
Proof. unfold trial_U, is_u64, B in *. nia. Qed.

Lemma trial_q_bounds : 0 <= q < B ∧ q * trial_W <= trial_U < (q + 1) * trial_W.
Proof.
  pose proof trial_W_pos. pose proof trial_U_nonneg. unfold q.
  pose proof (Z.mul_div_le trial_U trial_W). pose proof (Z.mul_succ_div_gt trial_U trial_W).
  split; [split|nia]; [apply Z.div_pos; lia|apply Z.div_lt_upper_bound; lia].
Qed.

Lemma trial_top : u1 * B + u0 < (v1 + 1) * B.
Proof.
  assert (u1 < v1 + 1); [|unfold is_u64, B in *; lia].
  apply Z.nle_gt. intros L. unfold trial_U, trial_W, is_u64 in *.
  assert (v1 * B + v2 + 1 <= u1 * B) by (unfold B in *; lia).
  assert ((v1 * B + v2 + 1) * K <= u1 * B * K) by nia.
  assert (0 <= u0 * B * K + u2 * K) by (unfold B in *; nia).
  assert (vl * B < K * B) by (unfold B in *; nia).
  unfold B in *. nia.
Qed.

Definition trial_inv (qhat rhat : Z) : Prop :=
  qhat * v1 + rhat = u1 * B + u0 ∧ q <= qhat <= B + 1 ∧ 0 <= rhat.

(** A trial quotient below [B] whose test fails is final. *)
Lemma trial_final qhat rhat : trial_inv qhat rhat → qhat < B →
  qhat * v2 <= rhat * B + u2 → q <= qhat <= q + 1 ∧ qhat < B.
Proof.
  intros (E & [Hq _] & Hr) HB Ht. split_and!; [done| |done].
  destruct trial_q_bounds as [Hq0 [_ Hlt]]. apply Z.nlt_ge. intros L.
  assert (H1 : (qhat - 1) * trial_W <= trial_U); [|pose proof trial_W_pos; nia].
  assert (H2 : qhat * (v1 * B + v2) <= (u1 * B + u0) * B + u2) by (rewrite <- E; lia).
  assert (H3 : qhat * trial_W <= trial_U + qhat * K).
  { unfold trial_W, trial_U.
    assert (qhat * (v1 * B + v2) * K <= ((u1 * B + u0) * B + u2) * K) by (apply Z.mul_le_mono_nonneg_r; lia).
    assert (qhat * vl <= qhat * K) by (apply Z.mul_le_mono_nonneg_l; lia). lia. }
  assert (H4 : qhat * K <= trial_W); [|lia].
  unfold trial_W. assert (qhat * K <= B * K) by (apply Z.mul_le_mono_nonneg_r; lia).
  assert (B * K <= v1 * B * K) by (apply Z.mul_le_mono_nonneg_r; [lia|unfold B; lia]).
  unfold is_u64 in *. nia.
Qed.

(** A trial quotient whose test succeeds is too large. *)
Lemma trial_too_large qhat rhat : trial_inv qhat rhat →
  (B <= qhat ∨ rhat * B + u2 < qhat * v2) → q < qhat.
Proof.
  intros (E & [Hq _] & Hr) Ht. destruct trial_q_bounds as [Hq0 [Hle _]].
  destruct Ht as [|Ht]; [lia|]. apply Z.nle_gt. intros L.
  assert (qhat = q) as Eq by lia. rewrite <- Eq in *.
  assert (H2 : (u1 * B + u0) * B + u2 + 1 <= qhat * (v1 * B + v2)) by (rewrite <- E; lia).
  assert (H3 : ((u1 * B + u0) * B + u2 + 1) * K <= qhat * (v1 * B + v2) * K)
    by (apply Z.mul_le_mono_nonneg_r; lia).
  unfold trial_W, trial_U in Hle. nia.
Qed.

Lemma trial_big_rhat qhat rhat : trial_inv qhat rhat → B <= qhat → rhat < B.
Proof.
  intros (E & _ & Hr) HB. pose proof trial_top. unfold is_u64, B in *. nia.
Qed.

(** One iteration: either the loop stops with the final answer or it goes on
    from a smaller trial quotient. *)
Lemma refine_step fuel qhat rhat : trial_inv qhat rhat → rhat < B →
  (let r := (refine_qhat (S fuel) true v1 v2 u2 qhat rhat).1 in q <= r <= q + 1 ∧ r < B) ∨
  (refine_qhat (S fuel) true v1 v2 u2 qhat rhat =
     refine_qhat fuel true v1 v2 u2 (qhat - 1) (rhat + v1)
   ∧ trial_inv (qhat - 1) (rhat + v1) ∧ rhat + v1 < B).
Proof.
  intros Hi Hr. cbn [refine_qhat andb]. pose proof Hi as (E & Hq & Hr0).
  destruct trial_q_bounds as [Hq0 _].
  rewrite Z.shiftl_mul_pow2, (u128_id (rhat * _)) by (unfold B in *; lia).
  rewrite u128_id by (unfold is_u64, B in *; lia).
  assert (Htest : (2 ^ 64 <=? qhat) || (rhat * 2 ^ 64 + u2 <? u128 (qhat * v2)) = true ∧ q < qhat
                ∨ (2 ^ 64 <=? qhat) || (rhat * 2 ^ 64 + u2 <? u128 (qhat * v2)) = false
                  ∧ qhat < B ∧ qhat * v2 <= rhat * B + u2).
  { destruct (Z.leb_spec (2 ^ 64) qhat); simpl.
    - left. split; [done|]. eapply trial_too_large; [done|]. unfold B. lia.
    - rewrite u128_id by (unfold is_u64 in *; nia).
      destruct (Z.ltb_spec (rhat * 2 ^ 64 + u2) (qhat * v2)).
      + left. split; [done|]. eapply trial_too_large; [done|]. right. done.
      + right. done. }
  destruct Htest as [[-> Hlt]|(-> & HB & Ht)].
  - rewrite (u128_id (qhat - 1)), (u128_id (rhat + v1)) by (unfold B in *; lia).
    assert (Hi' : trial_inv (qhat - 1) (rhat + v1)) by (split_and!; lia).
    destruct (Z.leb_spec (2 ^ 64) (rhat + v1)); [left|right; split_and!; [done|exact Hi'|done]].
    cbn [fst]. assert (qhat - 1 < B).
    { apply Z.nle_gt. intros L. pose proof (trial_big_rhat _ _ Hi' L). unfold B in *. lia. }
    apply (trial_final _ (rhat + v1)); [done|done|]. unfold is_u64, B in *. nia.
  - left. by apply (trial_final _ rhat).
Qed.

Lemma trial_inv_init : trial_inv ((u1 * B + u0) / v1) ((u1 * B + u0) mod v1)
  ∧ (u1 * B + u0) mod v1 < v1.
Proof.
  pose proof (Z.div_mod (u1 * B + u0) v1 ltac:(lia)) as Hd.
  pose proof (Z.mod_pos_bound (u1 * B + u0) v1 ltac:(lia)).
  unfold trial_inv. split_and!; [rewrite Hd at 3; ring| | |apply H|apply H].
  - destruct trial_q_bounds as [Hq0 [Hle _]]. apply Z.nlt_ge. intros L.
    assert (L1 : u1 * B + u0 + 1 <= q * v1) by nia.
    assert (L2 : (u1 * B + u0 + 1) * B * K <= q * v1 * B * K)
      by (apply Z.mul_le_mono_nonneg_r; [lia|]; apply Z.mul_le_mono_nonneg_r; [unfold B; lia|lia]).
    unfold trial_W, trial_U in Hle. unfold is_u64, B in *. nia.
  - pose proof trial_top. apply Z.lt_succ_r, Z.div_lt_upper_bound; [lia|]. unfold B in *. lia.
Qed.

(** Two iterations are enough: the third test is never reached. *)
Lemma refine_spec fuel :
  let r := (refine_qhat (S (S fuel)) true v1 v2 u2 ((u1 * B + u0) / v1) ((u1 * B + u0) mod v1)).1 in
  q <= r <= q + 1 ∧ r < B.
Proof.
  destruct trial_inv_init as [Hi Hlt]. cbv zeta.
  destruct (refine_step (S fuel) _ _ Hi (Z.lt_trans _ _ _ Hlt (proj2 Hv1))) as [?|(-> & Hi1 & Hlt1)]; [done|].
  destruct (refine_step fuel _ _ Hi1 Hlt1) as [?|(-> & Hi2 & Hlt2)]; [done|].
  destruct Hi as (_ & _ & Hm). clear - Hm Hlt2 Hv1. generalize dependent ((u1 * B + u0) mod v1).
  unfold B. intros. lia.
Qed.
End trial.

(** * The division of BignumDiv.v is exact

    Each loop has an invariant on the value of the whole array; [divmod_spec]
    puts them together. *)

(** ** Division by one limb *)

Definition zero_below (l : list Z) (i : nat) : Prop := ∀ k, (k < i)%nat → limb l k = 0.

Lemma zero_below_insert l i x : zero_below l (S i) → zero_below (<[i:=x]> l) i.
Proof. intros H k Hk. rewrite limb_insert_ne by lia. apply H. lia. Qed.

Definition div_limb_inv (la : list Z) (d : Z) (i : nat) (s : list Z * Z) : Prop :=
  length s.1 = length la ∧ u64s s.1 ∧ 0 <= s.2 < d ∧ zero_below s.1 i ∧
  lval s.1 * d + s.2 * pw i + lval (take i la) = lval la.

Lemma div_limb_step_inv la d i s : u64s la → 0 < d < 2 ^ 64 → (i < length la)%nat →
  div_limb_inv la d (S i) s → div_limb_inv la d i (div_limb_step la d i s).
Proof.
  destruct s as [lr r]. intros Ha Hd Hi (Hl & Hu & Hr & Hz & Hv).
  unfold div_limb_step, div_limb_inv in *. cbn [fst snd] in *.
  pose proof (limb_u64 la i Ha) as Hx.
  rewrite dword_lor by (auto; unfold is_u64; lia). set (cur := r * B + limb la i).
  pose proof (Z.div_mod cur d ltac:(lia)) as E. pose proof (Z.mod_pos_bound cur d ltac:(lia)).
  assert (Hq : is_u64 (cur / d)).
  { unfold is_u64, cur, B in *. split; [apply Z.div_pos; lia|apply Z.div_lt_upper_bound; lia]. }
  rewrite (u64_id (cur / d)) by done.
  split_and!; [by rewrite length_insert|auto with limbs|apply H|apply H|by apply zero_below_insert|].
  rewrite lval_insert, (Hz i) by lia. rewrite lval_take_S', pw_S in Hv.
  assert (cur * pw i = (cur / d * d + cur mod d) * pw i) by (f_equal; lia). unfold cur in *. nia.
Qed.

Lemma div_limb_loop la d : u64s la → 0 < d < 2 ^ 64 →
  div_limb_inv la d 0 (for_down (length la) (div_limb_step la d) (replicate (length la) 0, 0)).
Proof.
  intros Ha Hd. loop_down (div_limb_inv la d) as Hloop. apply Hloop.
  - split_and!; cbn [fst snd]; auto with limbs; [apply length_replicate|lia|lia| |].
    + intros k _. apply limb_replicate.
    + rewrite lval_replicate, firstn_all. lia.
  - intros. by apply div_limb_step_inv.
Qed.

(** Truncating division of a magnitude by a non-zero limb. *)
Lemma div_limb_spec a d : wf a → 0 < d < 2 ^ 64 →
  let '(q, r) := bignum_div_limb a d in
  wf q ∧ sign q = 0 ∧ mag q = mag a / d ∧ r = mag a mod d.
Proof.
  intros Ha Hd. unfold bignum_div_limb. cbn [bignum_alloc limbs sign]. unfold num_limbs.
  pose proof (div_limb_loop (limbs a) d (wf_limbs a Ha) Hd) as Hloop.
  destruct (for_down _ _ _) as [lr r]. destruct Hloop as (Hl & Hu & Hr & _ & Hv). cbn [fst snd] in *.
  pose proof (wf_len a Ha) as Hn. unfold num_limbs in Hn.
  destruct (normalize_spec 0 lr) as (Hw & Hm & _); auto; [by rewrite Hl|].
  rewrite pw_0 in Hv. simpl in Hv. fold (mag a) in Hv.
  split_and!; [done|cbn; by destruct (_ && _)| |].
  - rewrite Hm. apply Z.div_unique with r; lia.
  - rewrite u64_id by (unfold is_u64; lia). apply Z.mod_unique with (lval lr); lia.
Qed.

(** ** Shifting an array by less than a limb *)

Definition shl_inv (v : list Z) (n : nat) (s : Z) (i : nat) (st : list Z * Z) : Prop :=
  length st.1 = n ∧ u64s st.1 ∧ 0 <= st.2 < 2 ^ s ∧
  lval (take i st.1) + st.2 * pw i = lval (take i v) * 2 ^ s.

Lemma shl_step_inv v n s i st : u64s v → 0 <= s <= 64 → (i < n)%nat →
  shl_inv v n s i st → shl_inv v n s (S i) (shl_step v s i st).
Proof.
  destruct st as [out c]. intros Hv Hs Hi (Hl & Hu & Hc & He). unfold shl_step, shl_inv in *.
  cbn [fst snd] in *. pose proof (limb_u64 v i Hv) as Hx.
  destruct (lor_shift_carry (limb v i) c s Hx Hs Hc) as [-> Hlu].
  split_and!; [by rewrite length_insert|by apply insert_u64s| | |].
  1,2: apply (shiftr_range (limb v i) s Hx Hs).
  rewrite lval_take_insert, lval_take_S', pw_S by lia.
  pose proof (shiftl_split (limb v i) s Hs) as E.
  assert (limb v i * 2 ^ s * pw i = (u64 (limb v i ≪ s) + B * (limb v i ≫ (64 - s))) * pw i) by (by rewrite E).
  lia.
Qed.

Lemma shl_loop v n s k : u64s v → 0 <= s <= 64 → (k <= n)%nat →
  shl_inv v n s k (for_up k 0 (shl_step v s) (replicate n 0, 0)).
Proof.
  intros Hv Hs Hk. loop_up (shl_inv v n s) as Hloop. apply Hloop.
  - split_and!; cbn [fst snd]; auto with limbs; [apply length_replicate|lia|lia].
  - intros. apply shl_step_inv; auto; lia.
Qed.

Definition shr_inv (v : list Z) (n : nat) (s : Z) (i : nat) (st : list Z * Z) : Prop :=
  length st.1 = n ∧ u64s st.1 ∧ zero_below st.1 i ∧
  ∃ c, st.2 = c * 2 ^ (64 - s) ∧ 0 <= c < 2 ^ s ∧
  lval st.1 * 2 ^ s + c * pw i + lval (take i v) = lval (take n v).

Lemma shr_step_inv v n s i st : u64s v → 0 <= s <= 64 → (i < n)%nat →
  shr_inv v n s (S i) st → shr_inv v n s i (shr_step v s i st).
Proof.
  destruct st as [out c']. intros Hv Hs Hi (Hl & Hu & Hz & c & Ec & Hc & He).
  unfold shr_step, shr_inv in *. cbn [fst snd] in *. subst c'. pose proof (limb_u64 v i Hv) as Hx.
  assert (HB : B = 2 ^ (64 - s) * 2 ^ s) by (unfold B; rewrite <- Z.pow_add_r by lia; f_equal; lia).
  pose proof (shiftr_range (limb v i) (64 - s) Hx ltac:(lia)) as Hq.
  replace (64 - (64 - s)) with s in Hq by lia.
  rewrite Z.lor_comm, lor_mul_pow2_add by lia.
  pose proof (shiftl_split (limb v i) (64 - s) ltac:(lia)) as E.
  replace (64 - (64 - s)) with s in E by lia.
  rewrite (u64_shiftl _ (64 - s)) in * by lia. replace (64 - (64 - s)) with s in * by lia.
  set (h := limb v i ≫ s) in *. set (lo := limb v i mod 2 ^ s) in *.
  assert (Hsp : limb v i = h * 2 ^ s + lo).
  { pose proof (Z.pow_pos_nonneg 2 (64 - s)). rewrite HB in E. nia. }
  pose proof (Z.mod_pos_bound (limb v i) (2 ^ s) ltac:(lia)) as Hlo. fold lo in Hlo.
  split_and!; [by rewrite length_insert| |by apply zero_below_insert|].
  - apply insert_u64s; [done|]. unfold is_u64. change (2 ^ 64) with B. rewrite HB. nia.
  - exists lo. split_and!; [done|lia|lia|].
    rewrite lval_insert, (Hz i) by lia. rewrite lval_take_S', pw_S in He. rewrite HB in He.
    rewrite Hsp in He. lia.
Qed.

Lemma shr_loop v n s : u64s v → 0 <= s <= 64 → (2 ^ s | lval (take n v)) →
  let r := (for_down n (shr_step v s) (replicate n 0, 0)).1 in
  length r = n ∧ u64s r ∧ lval r * 2 ^ s = lval (take n v).
Proof.
  intros Hv Hs [x Hx]. loop_down (shr_inv v n s) as Hloop.
  destruct Hloop as (Hl & Hu & _ & c & _ & Hc & He).
  - split_and!; cbn [fst snd]; auto with limbs; [apply length_replicate| |].
    + intros k _. apply limb_replicate.
    + exists 0. rewrite lval_replicate. split_and!; try lia.
  - intros. by apply shr_step_inv.
  - split_and!; [done|done|]. rewrite Hx in *. rewrite pw_0 in He. simpl in He.
    assert (c = 0); [|lia]. assert (c = (x - lval st.1) * 2 ^ s) by lia.
    assert (x - lval st.1 = 0) by nia. nia.
Qed.

(** ** Multiply and subtract, add back *)

Definition mulsub_inv (vn : list Z) (q : Z) (j : nat) (un0 : list Z) (i : nat)
    (s : list Z * Z) : Prop :=
  length s.1 = length un0 ∧ u64s s.1 ∧ - B < s.2 <= 0 ∧
  (∀ k, (j + i <= k)%nat → limb s.1 k = limb un0 k) ∧
  lval s.1 + s.2 * pw (j + i) = lval un0 - q * lval (take i vn) * pw j.

Lemma mulsub_step_inv vn q j un0 i s : u64s vn → is_u64 q →
  (i < length vn)%nat → (j + length vn <= length un0)%nat →
  mulsub_inv vn q j un0 i s → mulsub_inv vn q j un0 (S i) (mulsub_step vn q j i s).
Proof.
  destruct s as [un b]. intros Hvn Hq Hi Hlen (Hl & Hu & Hb & Hk & Hv).
  unfold mulsub_step, mulsub_inv in *. cbn [fst snd] in *.
  pose proof (limb_u64 vn i Hvn) as Hx. pose proof (limb_u64 un (j + i) Hu) as Hy.
  rewrite (u64_id q) by done.
  assert (Hp : 0 <= q * limb vn i <= (B - 1) * (B - 1)) by (unfold is_u64, B in *; nia).
  rewrite u128_id by (unfold B in *; lia).
  set (p := q * limb vn i) in *.
  pose proof (u64_range p) as Hlo. pose proof (u64_carry p) as Ep.
  assert (Hhi : 0 <= p ≫ 64 < B - 1).
  { apply shiftr64_range. unfold B in *; lia. }
  rewrite (u64_id (p ≫ 64)) by (unfold is_u64, B in *; lia).
  rewrite (i128_id (_ - _ + b)) by (unfold is_i128, is_u64, B in *; lia).
  set (d := limb un (j + i) - u64 p + b) in *.
  pose proof (u64_carry d) as Ed. pose proof (u64_range d) as Hd.
  assert (Hb' : - B < d ≫ 64 - p ≫ 64 <= 0) by (unfold is_u64, d, B in *; lia).
  rewrite (i128_id (d ≫ 64 - _)) by (unfold is_i128, B in *; lia).
  split_and!; [by rewrite length_insert|auto with limbs machine|lia|lia| |].
  - intros k Hk'. rewrite limb_insert_ne by lia. apply Hk. lia.
  - rewrite lval_insert, lval_take_S' by lia. rewrite Nat.add_succ_r, pw_S.
    assert (E1 : u64 d = d - B * (d ≫ 64)) by lia.
    assert (E2 : u64 p = p - B * (p ≫ 64)) by lia.
    rewrite E1. unfold d. rewrite E2, !pw_add in *. unfold p. lia.
Qed.

Lemma mulsub_loop vn q j un : u64s vn → is_u64 q → u64s un → (j + length vn <= length un)%nat →
  mulsub_inv vn q j un (length vn) (for_up (length vn) 0 (mulsub_step vn q j) (un, 0)).
Proof.
  intros Hvn Hq Hun Hlen. loop_up (mulsub_inv vn q j un) as Hloop. apply Hloop.
  - split_and!; cbn [fst snd]; auto; [unfold B; lia|lia|simpl; lia].
  - intros. apply mulsub_step_inv; auto; lia.
Qed.

Definition addback_inv (vn : list Z) (j : nat) (un0 : list Z) (i : nat) (s : list Z * Z) : Prop :=
  length s.1 = length un0 ∧ u64s s.1 ∧ 0 <= s.2 <= 1 ∧
  (∀ k, (j + i <= k)%nat → limb s.1 k = limb un0 k) ∧
  lval s.1 + s.2 * pw (j + i) = lval un0 + lval (take i vn) * pw j.

Lemma addback_step_inv vn j un0 i s : u64s vn →
  (i < length vn)%nat → (j + length vn <= length un0)%nat →
  addback_inv vn j un0 i s → addback_inv vn j un0 (S i) (addback_step vn j i s).
Proof.
  destruct s as [un c]. intros Hvn Hi Hlen (Hl & Hu & Hc & Hk & Hv).
  unfold addback_step, addback_inv in *. cbn [fst snd] in *.
  pose proof (limb_u64 vn i Hvn) as Hx. pose proof (limb_u64 un (j + i) Hu) as Hy.
  rewrite u128_id by (unfold is_u64 in *; lia).
  set (p := limb un (j + i) + limb vn i + c) in *.
  pose proof (carry_range p 2 ltac:(unfold p, is_u64, B in *; lia)) as Hcr.
  rewrite (u64_id (p ≫ 64)) by (unfold is_u64; lia).
  split_and!; [by rewrite length_insert|auto with limbs machine|lia|lia| |].
  - intros k Hk'. rewrite limb_insert_ne by lia. apply Hk. lia.
  - rewrite lval_insert, lval_take_S' by lia. rewrite Nat.add_succ_r, pw_S.
    assert (E1 : u64 p = p - B * (p ≫ 64)) by (pose proof (u64_carry p); lia).
    rewrite E1, !pw_add in *. unfold p. lia.
Qed.

Lemma addback_loop vn j un : u64s vn → u64s un → (j + length vn <= length un)%nat →
  addback_inv vn j un (length vn) (for_up (length vn) 0 (addback_step vn j) (un, 0)).
Proof.
  intros Hvn Hun Hlen. loop_up (addback_inv vn j un) as Hloop. apply Hloop.
  - split_and!; cbn [fst snd]; auto; [lia|simpl; lia].
  - intros. apply addback_step_inv; auto; lia.
Qed.

(** ** One quotient limb *)

Section step.
Context (vn : list Z) (n : nat).
Context (Hvn : u64s vn) (Hlen : length vn = n) (Hn : (2 <= n)%nat).
Context (Htop : 2 ^ 63 <= limb vn (n - 1)).

Lemma divisor_bounds : pw (n - 1) <= lval vn < pw n.
Proof.
  pose proof (lval_bound vn Hvn). rewrite Hlen in *.
  pose proof (lval_top vn (n - 1) ltac:(lia) Hvn) as [? _]. pose proof (pw_pos (n - 1)). nia.
Qed.

Lemma trial_qhat_spec un j : u64s un → (j + n < length un)%nat →
  lval un < lval vn * pw (S j) →
  let q := lval un / (lval vn * pw j) in
  q <= trial_qhat un vn n j <= q + 1 ∧ 0 <= q ∧ trial_qhat un vn n j < B.
Proof.
  intros Hun Hj Hlt. pose proof divisor_bounds as HV. unfold trial_qhat.
  destruct (Nat.leb_spec 2 n); [|lia].
  rewrite dword_lor by auto with limbs. set (k := (j + n - 2)%nat).
  replace (j + n)%nat with (S (S k)) in * by lia. replace (S (S k) - 1)%nat with (S k) by lia.
  assert (EU : lval un = trial_U (pw k) (lval (take k un)) (limb un (S (S k))) (limb un (S k)) (limb un k)).
  { rewrite <- (lval_take_small un (S (S (S k)))); [|done|].
    - rewrite !lval_take_S', !pw_S. unfold trial_U. ring.
    - eapply Z.lt_le_trans; [exact Hlt|]. replace (S (S (S k))) with (n + S j)%nat by lia.
      rewrite pw_add. pose proof (pw_pos (S j)). nia. }
  assert (EW : lval vn * pw j = trial_W (pw k) (lval (take (n - 2) vn) * pw j) (limb vn (n - 1)) (limb vn (n - 2))).
  { rewrite <- (take_ge vn (S (S (n - 2)))) at 1 by lia. rewrite !lval_take_S', !pw_S.
    replace (S (n - 2)) with (n - 1)%nat by lia. unfold trial_W.
    replace k with ((n - 2) + j)%nat by lia. rewrite pw_add. ring. }
  pose proof (lval_take_bound vn (n - 2) Hvn) as Hvl. pose proof (pw_pos j). pose proof (pw_pos k).
  assert (Hvl' : 0 <= lval (take (n - 2) vn) * pw j < pw k).
  { replace k with ((n - 2) + j)%nat by lia. rewrite pw_add. nia. }
  pose proof (lval_bound un Hun). pose proof (pw_pos (n - 1)).
  assert (0 <= lval un / (lval vn * pw j)) by (apply Z.div_pos; nia).
  assert (HUW : lval un < lval vn * pw j * B) by (rewrite pw_S in Hlt; lia).
  rewrite EU, EW in *.
  destruct (refine_spec (pw k) (lval (take k un)) (limb un (S (S k))) (limb un (S k)) (limb un k)
    (lval (take (n - 2) vn) * pw j) (limb vn (n - 1)) (limb vn (n - 2))) with (fuel := 0%nat)
    as [Hq HB]; auto using lval_take_bound with limbs.
  split; [done|]. by apply limb_u64.
Qed.

Definition divmod_inv (U0 : Z) (nq j : nat) (s : list Z * list Z) : Prop :=
  length s.1 = (nq + n)%nat ∧ u64s s.1 ∧ length s.2 = nq ∧ u64s s.2 ∧ zero_below s.2 j ∧
  lval s.1 + lval s.2 * lval vn = U0 ∧ lval s.1 < lval vn * pw j.

Lemma top_limb_value un k t : (k < length un)%nat → (∀ i, (S k <= i)%nat → limb un i = 0) →
  lval un = lval (take k un) + limb un k * pw k ∧
  lval (<[k := t]> un) = lval (take k un) + t * pw k.
Proof.
  intros Hk Hz. rewrite lval_insert by done.
  rewrite <- (lval_take_zero_above un (S k)) by done. rewrite lval_take_S'. lia.
Qed.

Section body.
Context (un ql : list Z) (U0 : Z) (nq j : nat) (Hj : (j < nq)%nat).
Context (Hinv : divmod_inv U0 nq (S j) (un, ql)).
Let W : Z := lval vn * pw j.
Let q : Z := lval un / W.
Let qhat : Z := trial_qhat un vn n j.

Lemma W_bounds : 0 < W < pw (j + n) ∧ W <= pw (j + n).
Proof.
  pose proof divisor_bounds. pose proof (pw_pos j). pose proof (pw_pos (n - 1)).
  unfold W. rewrite Nat.add_comm, pw_add. nia.
Qed.

Lemma step_q : q <= qhat <= q + 1 ∧ 0 <= q ∧ qhat < B ∧ q * W <= lval un < (q + 1) * W.
Proof.
  destruct Hinv as (Hl & Hu & _ & _ & _ & _ & Hlt). cbn [fst snd] in *.
  pose proof (trial_qhat_spec un j Hu ltac:(lia) Hlt) as [H H0].
  pose proof W_bounds as [HW _]. pose proof (Z.mul_div_le (lval un) W ltac:(lia)) as H1.
  pose proof (Z.mul_succ_div_gt (lval un) W ltac:(lia)) as H2. fold q in H1, H2.
  split_and!; [apply H|apply H|apply H0|apply H0|lia|lia].
Qed.

Lemma step_high k : (S (j + n) <= k)%nat → limb un k = 0.
Proof.
  intros Hk. destruct Hinv as (Hl & Hu & _ & _ & _ & _ & Hlt). cbn [fst snd] in *.
  apply (lval_small_limb un (S (j + n))); [done| |done].
  pose proof W_bounds. rewrite pw_S in *. unfold W in *. pose proof B_pos. nia.
Qed.

(** The state after the multiply-and-subtract loop. *)
Lemma step_mulsub un1 b :
  mulsub_inv vn qhat j un n (un1, b) →
  let t := limb un1 (j + n) + b in
  let un2 := <[(j + n)%nat := u64 t]> un1 in
  - B < t < B ∧ length un2 = length un ∧ u64s un2 ∧
  (∀ k, (S (j + n) <= k)%nat → limb un2 k = 0) ∧
  (0 <= t → qhat = q ∧ lval un2 = lval un - q * W) ∧
  (t < 0 → qhat = q + 1 ∧ lval un2 = lval un - qhat * W + B * pw (j + n)).
Proof.
  intros (Hl1 & Hu1 & Hb & Hk1 & Hv1) t un2. cbn [fst snd] in *.
  destruct Hinv as (Hl & Hu & _). cbn [fst snd] in *.
  pose proof step_q as (Hq & Hq0 & HqB & HqW). pose proof W_bounds as [HW _].
  rewrite <- Hlen, firstn_all, Hlen in Hv1.
  assert (Hz1 : ∀ i, (S (j + n) <= i)%nat → limb un1 i = 0).
  { intros i Hi. rewrite Hk1 by lia. by apply step_high. }
  destruct (top_limb_value un1 (j + n) (u64 t) ltac:(lia) Hz1) as [E1 E2].
  fold un2 in E2. pose proof (limb_u64 un1 (j + n) Hu1) as Ht.
  pose proof (lval_take_bound un1 (j + n) Hu1) as Hlow. pose proof (pw_pos (j + n)).
  assert (Et : lval (take (j + n) un1) + t * pw (j + n) = lval un - qhat * W) by (unfold t, W; lia).
  assert (Htb : - B < t < B) by (unfold t, is_u64, B in *; lia).
  split_and!; try (unfold is_u64, B in *; lia).
  - unfold un2. rewrite length_insert. lia.
  - unfold un2. auto with limbs machine.
  - intros k Hk. unfold un2. rewrite limb_insert_ne by lia. by apply Hz1.
  - intros H0. rewrite E2, u64_id by (unfold is_u64, B in *; lia).
    assert (qhat = q) as -> by nia. split; [done|lia].
  - intros H0. assert (u64 t = t + B) as Eu.
    { unfold u64, B in *. rewrite <- (Z.mod_add _ 1), Z.mod_small by lia. lia. }
    rewrite E2, Eu. split; [nia|lia].
Qed.

(** The add-back step restores the exact remainder. *)
Lemma step_addback un2 un3 c : length un2 = length un → u64s un2 →
  (∀ k, (S (j + n) <= k)%nat → limb un2 k = 0) →
  lval un2 = lval un - (q + 1) * W + B * pw (j + n) →
  addback_inv vn j un2 n (un3, c) →
  let un4 := <[(j + n)%nat := u64 (limb un3 (j + n) + c)]> un3 in
  length un4 = length un ∧ u64s un4 ∧ lval un4 = lval un - q * W.
Proof.
  intros Hl2 Hu2 Hz2 Hv2 (Hl3 & Hu3 & Hc & Hk3 & Hv3) un4. cbn [fst snd] in *.
  destruct Hinv as (Hl & Hu & _). cbn [fst snd] in *.
  pose proof step_q as (Hq & Hq0 & HqB & HqW). pose proof W_bounds as [HW _].
  rewrite <- Hlen, firstn_all, Hlen in Hv3.
  assert (Hz3 : ∀ i, (S (j + n) <= i)%nat → limb un3 i = 0).
  { intros i Hi. rewrite Hk3 by lia. by apply Hz2. }
  destruct (top_limb_value un3 (j + n) (u64 (limb un3 (j + n) + c)) ltac:(lia) Hz3) as [E3 E4].
  fold un4 in E4. pose proof (limb_u64 un3 (j + n) Hu3) as Ht.
  pose proof (lval_take_bound un3 (j + n) Hu3) as Hlow. pose proof (pw_pos (j + n)).
  set (t := limb un3 (j + n)) in *.
  assert (Et : lval (take (j + n) un3) + (t + c) * pw (j + n) = lval un - q * W + B * pw (j + n))
    by (unfold W in *; lia).
  assert (Htc : t + c = B) by (unfold is_u64, B in *; nia).
  split_and!; [unfold un4; rewrite length_insert; lia|unfold un4; auto with limbs machine|].
  rewrite E4, Htc in *. change (u64 B) with 0. lia.
Qed.

Lemma step_ql x : x = q →
  length (<[j := x]> ql) = nq ∧ u64s (<[j := x]> ql) ∧ zero_below (<[j := x]> ql) j ∧
  lval un - q * W + lval (<[j := x]> ql) * lval vn = U0 ∧ lval un - q * W < lval vn * pw j.
Proof.
  intros ->. destruct Hinv as (Hl & Hu & Hlq & Huq & Hz & Hv & Hlt). cbn [fst snd] in *.
  pose proof step_q as (Hq & Hq0 & HqB & HqW).
  split_and!; [by rewrite length_insert| |by apply zero_below_insert| |unfold W in *; lia].
  - apply insert_u64s; [done|]. unfold is_u64, B in *. lia.
  - rewrite lval_insert, (Hz j) by lia. unfold W. lia.
Qed.

Lemma divmod_step_inv : divmod_inv U0 nq j (divmod_step vn n j (un, ql)).
Proof.
  pose proof Hinv as (Hl & Hu & Hlq & Huq & _). cbn [fst snd] in *.
  pose proof step_q as (Hq & Hq0 & HqB & _). unfold divmod_step. fold qhat.
  assert (Hqu : is_u64 qhat) by (unfold is_u64, B in *; lia).
  pose proof (mulsub_loop vn qhat j un Hvn Hqu Hu ltac:(lia)) as Hms. rewrite Hlen in Hms.
  destruct (for_up n 0 (mulsub_step vn qhat j) (un, 0)) as [un1 b].
  pose proof (step_mulsub un1 b Hms) as (Htb & Hl2 & Hu2 & Hz2 & Hpos & Hneg).
  rewrite i128_id by (unfold is_i128, B in *; lia).
  set (t := limb un1 (j + n) + b) in *. set (un2 := <[(j + n)%nat := u64 t]> un1) in *.
  rewrite (u64_id qhat) by done.
  destruct (Z.ltb_spec t 0) as [L|L].
  - destruct (Hneg L) as [Eq Ev].
    pose proof (addback_loop vn j un2 Hvn Hu2 ltac:(lia)) as Hab. rewrite Hlen in Hab.
    destruct (for_up n 0 (addback_step vn j) (un2, 0)) as [un3 c].
    destruct (step_addback un2 un3 c Hl2 Hu2 Hz2 ltac:(rewrite <- Eq; exact Ev) Hab) as (Hl4 & Hu4 & Hv4).
    rewrite limb_insert_eq, list_insert_insert_eq by lia.
    destruct (step_ql (u64 (qhat - 1))) as (? & ? & ? & ? & ?).
    { rewrite u64_id; unfold is_u64, B in *; lia. }
    unfold divmod_inv. cbn [fst snd]. rewrite Hv4. split_and!; auto; lia.
  - destruct (Hpos L) as [Eq Ev].
    destruct (step_ql qhat Eq) as (? & ? & ? & ? & ?).
    unfold divmod_inv. cbn [fst snd]. rewrite Ev. split_and!; auto; lia.
Qed.
End body.

(** The main loop: quotient and remainder of the shifted operands. *)
Lemma divmod_loop un nq : u64s un → length un = (nq + n)%nat → lval un < lval vn * pw nq →
  let '(r, ql) := for_down nq (divmod_step vn n) (un, replicate nq 0) in
  length r = (nq + n)%nat ∧ length ql = nq ∧ u64s ql ∧ u64s r ∧
  lval ql = lval un / lval vn ∧ lval r = lval un mod lval vn.
Proof.
  intros Hu Hl Hlt. loop_down (divmod_inv (lval un) nq) as Hloop. destruct st as [r ql].
  destruct Hloop as (Hl' & Hu' & Hlq & Huq & _ & Hv & Hr); cbn [fst snd] in *.
  - split_and!; cbn [fst snd]; auto with limbs; [apply length_replicate| |].
    + intros k _. apply limb_replicate.
    + rewrite lval_replicate. lia.
  - intros k [un' ql'] Hk Hi. by apply divmod_step_inv.
  - rewrite pw_0 in Hr. pose proof (lval_bound r Hu').
    split_and!; auto; [apply Z.div_unique with (lval r)|apply Z.mod_unique with (lval ql)]; lia.
Qed.
End step.

(** ** The whole division *)

Lemma clz_spec x : 0 < x < 2 ^ 64 →
  0 <= clzll x <= 63 ∧ 2 ^ 63 <= x * 2 ^ clzll x < 2 ^ 64.
Proof.
  intros Hx. unfold clzll. pose proof (Z.log2_spec x ltac:(lia)) as [Hlo Hhi].
  pose proof (Z.log2_nonneg x). pose proof (Z.log2_lt_pow2 x 64 ltac:(lia)) as [Hl _].
  specialize (Hl ltac:(lia)). set (k := Z.log2 x) in *. split; [lia|].
  replace (2 ^ 63) with (2 ^ k * 2 ^ (63 - k)) by (rewrite <- Z.pow_add_r by lia; f_equal; lia).
  replace (2 ^ 64) with (2 ^ Z.succ k * 2 ^ (63 - k)) by (rewrite <- Z.pow_add_r by lia; f_equal; lia).
  pose proof (Z.pow_pos_nonneg 2 (63 - k)). split; [apply Z.mul_le_mono_nonneg_r|apply Z.mul_lt_mono_pos_r]; lia.
Qed.

(** The dividend and the divisor after normalisation by [2^s]. *)
Lemma shifted_divisor v n s : u64s v → length v = n → (1 <= n)%nat → 0 < s <= 63 →
  2 ^ 63 <= limb v (n - 1) * 2 ^ s < 2 ^ 64 →
  let v' := (for_up n 0 (shl_step v s) (replicate n 0, 0)).1 in
  length v' = n ∧ u64s v' ∧ lval v' = lval v * 2 ^ s ∧ 2 ^ 63 <= limb v' (n - 1).
Proof.
  intros Hv Hl Hn Hs Htop. pose proof (shl_loop v n s n Hv ltac:(lia) ltac:(lia)) as Hloop.
  destruct (for_up _ _ _ _) as [v' c]. destruct Hloop as (Hl' & Hu' & Hc & He). cbn [fst snd] in *.
  rewrite <- Hl', firstn_all, Hl', <- Hl, firstn_all, Hl in He.
  pose proof (lval_bound v' Hu') as Hb. rewrite Hl' in Hb.
  pose proof (lval_top v (n - 1) ltac:(lia) Hv) as [Hlo Hhi].
  pose proof (lval_top v' (n - 1) ltac:(lia) Hu') as [Hlo' Hhi'].
  pose proof (pw_pos (n - 1)) as Hp. assert (Epw : pw n = B * pw (n - 1)) by (rewrite <- pw_S; f_equal; lia).
  assert (Hmul : (limb v (n - 1) + 1) * 2 ^ s <= B).
  { assert (HB : B = 2 ^ (64 - s) * 2 ^ s) by (unfold B; rewrite <- Z.pow_add_r by lia; f_equal; lia).
    rewrite HB. apply Z.mul_le_mono_nonneg_r; [lia|].
    change (2 ^ 64) with B in Htop. rewrite HB in Htop. pose proof (Z.pow_pos_nonneg 2 s). nia. }
  assert (Hlt : lval v * 2 ^ s < pw n) by (rewrite Epw; pose proof (Z.pow_pos_nonneg 2 s); nia).
  assert (c = 0) as -> by (rewrite Epw in *; unfold B in *; nia).
  split_and!; [done|done|lia|].
  apply Z.lt_succ_r, Z.le_succ_l. unfold Z.succ.
  assert (2 ^ 63 * pw (n - 1) <= lval v'); [|nia].
  assert (limb v (n - 1) * 2 ^ s * pw (n - 1) <= lval v * 2 ^ s) by nia. nia.
Qed.

Lemma shifted_dividend v s : u64s v → 0 < s <= 63 →
  let un := (let '(un, carry) :=
     for_up (length v) 0 (shl_step v s) (replicate (length v + 1) 0, 0) in <[length v := carry]> un) in
  length un = (length v + 1)%nat ∧ u64s un ∧ lval un = lval v * 2 ^ s.
Proof.
  intros Hv Hs. pose proof (shl_loop v (length v + 1) s (length v) Hv ltac:(lia) ltac:(lia)) as Hloop.
  destruct (for_up _ _ _ _) as [un c]. destruct Hloop as (Hl' & Hu' & Hc & He). cbn [fst snd] in *.
  rewrite firstn_all in He. split_and!; [by rewrite length_insert| |].
  - apply insert_u64s; [done|]. unfold is_u64.
    pose proof (Z.pow_le_mono_r 2 s 64). lia.
  - rewrite <- (take_ge (<[length v:=c]> un) (S (length v))) by (rewrite length_insert; lia).
    rewrite lval_take_insert by lia. lia.
Qed.

Lemma single_limb_wf x : is_u64 x → wf (Bignum 0 [x]) ∧ mag (Bignum 0 [x]) = x.
Proof. intros Hx. split; [split; cbn; auto|unfold mag; cbn; lia]. Qed.

(** The multi-limb path of [bignum_divmod_abs], shifting both operands. *)
Lemma divmod_core va vb n m : u64s va → u64s vb → length vb = n → length va = (n + m)%nat →
  (2 <= n)%nat → limb vb (n - 1) ≠ 0 →
  let shift := if negb (limb vb (n - 1) =? 0) then clzll (limb vb (n - 1)) else 0 in
  let vs := if 0 <? shift then (for_up n 0 (shl_step vb shift) (replicate n 0, 0)).1 else vb in
  let un := if 0 <? shift
            then let '(un, carry) := for_up (length va) 0 (shl_step va shift)
                   (replicate (length va + 1) 0, 0) in <[length va := carry]> un
            else va ++ [0] in
  let '(un, ql) := for_down (m + 1) (divmod_step vs n) (un, replicate (m + 1) 0) in
  let rl := if 0 <? shift then (for_down n (shr_step un shift) (replicate n 0, 0)).1
            else take n un in
  length ql = (m + 1)%nat ∧ u64s ql ∧ length rl = n ∧ u64s rl ∧
  lval ql = lval va / lval vb ∧ lval rl = lval va mod lval vb.
Proof.
  intros Ha Hb Hlb Hla Hn Hne. cbv zeta.
  pose proof (limb_u64 vb (n - 1) Hb) as Htop0. unfold is_u64 in Htop0.
  destruct (Z.eqb_spec (limb vb (n - 1)) 0) as [|_]; [done|]. cbn [negb].
  pose proof (clz_spec (limb vb (n - 1)) ltac:(lia)) as [Hs Htop].
  set (s := clzll _) in *.
  set (vs := if 0 <? s then (for_up n 0 _ _).1 else vb).
  set (un0 := if 0 <? s then _ else va ++ [0]).
  assert (Hvs : length vs = n ∧ u64s vs ∧ lval vs = lval vb * 2 ^ s ∧ 2 ^ 63 <= limb vs (n - 1)).
  { unfold vs. destruct (Z.ltb_spec 0 s); [apply shifted_divisor; auto; lia|].
    assert (s = 0) as Es by lia. rewrite Es in *. split_and!; auto; lia. }
  assert (Hun : length un0 = (length va + 1)%nat ∧ u64s un0 ∧ lval un0 = lval va * 2 ^ s).
  { unfold un0. destruct (Z.ltb_spec 0 s); [apply shifted_dividend; auto; lia|].
    assert (s = 0) as -> by lia. rewrite length_app, lval_app, lval_singleton.
    split_and!; [done|apply Forall_app; split; [done|by repeat constructor]|lia]. }
  clearbody vs un0. destruct Hvs as (Hlv & Huv & Ev & Htv), Hun as (Hlu & Huu & Eu).
  pose proof (Z.pow_pos_nonneg 2 s ltac:(lia) ltac:(lia)) as H2s.
  pose proof (lval_bound va Ha) as Hva. rewrite Hla in Hva.
  pose proof (lval_top vb (n - 1) ltac:(lia) Hb) as [Hvb _].
  pose proof (pw_pos (n - 1)).
  assert (HVB : pw (n - 1) <= lval vb) by nia.
  assert (Hlt : lval un0 < lval vs * pw (m + 1)).
  { rewrite Eu, Ev. replace (lval vb * 2 ^ s * pw (m + 1)) with (lval vb * pw (m + 1) * 2 ^ s) by ring.
    apply Z.mul_lt_mono_pos_r; [lia|]. eapply Z.lt_le_trans; [apply Hva|].
    replace (n + m)%nat with ((n - 1) + (m + 1))%nat by lia. rewrite pw_add.
    apply Z.mul_le_mono_nonneg_r; [|done]. pose proof (pw_pos (m + 1)). lia. }
  pose proof (divmod_loop vs n Huv Hlv Hn Htv un0 (m + 1) Huu ltac:(lia) Hlt) as Hloop.
  destruct (for_down _ _ _) as [un ql]. destruct Hloop as (Hlr0 & Hlq & Huq & Hur & Eq & Er).
  rewrite Eu, Ev in Eq, Er. rewrite Z.div_mul_cancel_r in Eq by lia. rewrite Z.mul_mod_distr_r in Er by lia.
  pose proof (Z.mod_pos_bound (lval va) (lval vb) ltac:(lia)) as Hm.
  assert (Hsmall : lval un < pw n).
  { rewrite Er. eapply Z.lt_le_trans; [apply Z.mul_lt_mono_pos_r; [done|apply Hm]|].
    rewrite <- Ev. pose proof (lval_bound vs Huv) as Hbv. rewrite Hlv in Hbv. lia. }
  pose proof (lval_take_small un n Hur Hsmall) as Et.
  destruct (Z.ltb_spec 0 s).
  - destruct (shr_loop un n s Hur ltac:(lia)) as (Hlr & Hurl & El).
    { exists (lval va mod lval vb). by rewrite Et. }
    rewrite Et, Er in El. split_and!; auto. nia.
  - assert (s = 0) as E0 by lia. rewrite E0, Z.mul_1_r in Er.
    split_and!; auto; [|by apply Forall_take|by rewrite Et].
    rewrite length_take. lia.
Qed.

Lemma abs_wf a : wf a → wf (Bignum 0 (limbs a)) ∧ mag (Bignum 0 (limbs a)) = mag a.
Proof. intros []. split; [split; auto|done]. Qed.

(** What [bignum_divmod_abs] must return: unsigned, well-formed, and the value. *)
Definition unsigned_as (b : bignum) (z : Z) : Prop := wf b ∧ sign b = 0 ∧ mag b = z.

Lemma unsigned_limb x z : is_u64 x → x = z → unsigned_as (Bignum 0 [x]) z.
Proof. intros Hx <-. destruct (single_limb_wf x Hx). split_and!; done. Qed.

Lemma unsigned_normalize l z : u64s l → (1 <= length l)%nat → lval l = z →
  unsigned_as (bignum_normalize (Bignum 0 l)) z.
Proof.
  intros Hu Hl <-. destruct (normalize_spec 0 l ltac:(auto) Hu Hl) as (? & ? & _).
  split_and!; [done| |done]. unfold bignum_normalize. cbn [sign]. by destruct (_ && _).
Qed.

Lemma divmod_spec a b : wf a → wf b → mag b ≠ 0 →
  let r := bignum_divmod_abs a b in
  unsigned_as r.1 (mag a / mag b) ∧ unsigned_as r.2 (mag a mod mag b).
Proof.
  intros Ha Hb Hne. unfold bignum_divmod_abs.
  pose proof (wf_bound a Ha) as Hba. pose proof (wf_bound b Hb) as Hbb.
  destruct (Nat.eqb_spec (num_limbs b) 1) as [E1|E1].
  { rewrite <- (mag_one b E1). rewrite E1, pw_1 in Hbb. unfold B in Hbb.
    pose proof (div_limb_spec a (mag b) Ha ltac:(lia)) as Hd.
    destruct (bignum_div_limb a (mag b)) as [q r]. destruct Hd as (? & ? & ? & ->).
    pose proof (Z.mod_pos_bound (mag a) (mag b) ltac:(lia)).
    split; [done|]. apply unsigned_limb; [unfold is_u64; lia|done]. }
  rewrite compare_abs_spec by done.
  destruct (Z.sgn_spec (mag a - mag b)) as [[L ->]|[[L ->]|[L ->]]]; cbn [Z.ltb Z.eqb Z.compare].
  - pose proof (wf_len b Hb). set (n := num_limbs b) in *.
    assert (Hnm : (n <= num_limbs a)%nat).
    { apply Nat.nlt_ge. intros Hlt. pose proof (wf_lower b Hb E1).
      pose proof (pw_le (num_limbs a) (num_limbs b - 1) ltac:(lia)). lia. }
    destruct (wf_top b Hb) as [?|Htop]; [done|].
    pose proof (divmod_core (limbs a) (limbs b) n (num_limbs a - n) (wf_limbs a Ha) (wf_limbs b Hb)
      eq_refl ltac:(unfold num_limbs in *; lia) ltac:(lia) Htop) as Hcore. cbv zeta in Hcore |- *.
    unfold num_limbs at 2 3 4 5 6. cbn [bignum_alloc limbs sign].
    destruct (for_down _ _ _) as [un ql].
    destruct Hcore as (Hlq & Huq & Hlr & Hur & Eq & Er). cbn [fst snd].
    split; apply unsigned_normalize; auto; lia.
  - split; cbn [fst snd]; apply unsigned_limb; try (unfold is_u64; lia).
    + replace (mag a) with (mag b) by lia. by rewrite Z.div_same.
    + replace (mag a) with (mag b) by lia. by rewrite Z.mod_same.
  - destruct (abs_wf a Ha) as [Hwa Hma]. split; cbn [fst snd].
    + apply unsigned_limb; [unfold is_u64; lia|]. symmetry. apply Z.div_small. lia.
    + split_and!; [done|done|]. etrans; [exact Hma|]. symmetry. apply Z.mod_small. lia.
Qed.

(** ** The signed operations *)

(** [o ⇓ᵣ z]: the call returned normally, a well-formed bignum denoting [z]. *)
Definition returns (o : outcome (option bignum)) (z : Z) : Prop :=
  ∃ r, o = Ret r ∧ denotes r z.
Notation "o ⇓ᵣ z" := (returns o z) (at level 70, no associativity) : bignum_scope.

Lemma denotes_signed r z s : unsigned_as r z →
  (s = 0 ∨ s = 1) →
  Some (Bignum (if (s =? 1) && negb (eshkol_bignum_is_zero (Some r)) then 1 else 0) (limbs r))
  ⇓ (if s =? 1 then - z else z).
Proof.
  intros (Hw & Hs & Hm) Hs'. rewrite is_zero_spec, Hm by done. destruct Hw as [? ? ? ? ?].
  exists (Bignum (if (s =? 1) && negb (z =? 0) then 1 else 0) (limbs r)).
  unfold bval, mag in *; cbn [limbs sign] in *.
  split_and!; [done| |].
  - split; auto; unfold mag; cbn [limbs sign]; rewrite ?Hm.
    + destruct (_ && _); auto.
    + intros ->. by rewrite andb_false_r.
  - rewrite Hm. destruct Hs' as [-> | ->]; simpl; [lia|]. destruct (Z.eqb_spec z 0); simpl; lia.
Qed.

Lemma div_returns a b za zb : a ⇓ za → b ⇓ zb → zb ≠ 0 → eshkol_bignum_div a b ⇓ᵣ Z.quot za zb.
Proof.
  intros Ha Hb Hne. pose proof (is_zero_denotes _ _ Hb) as Hz.
  destruct Ha as (x & -> & Hx & <-), Hb as (y & -> & Hy & <-). unfold eshkol_bignum_div.
  rewrite Hz. destruct (Z.eqb_spec (bval y) 0); [done|].
  destruct (divmod_spec x y Hx Hy) as [Hq _]; [by rewrite <- bval_zero|].
  pose proof (denotes_signed _ _ (if negb (sign x =? sign y) then 1 else 0) Hq) as Hd.
  eexists; split; [done|].
  assert (Hs : ((if negb (sign x =? sign y) then 1 else 0) =? 1) = negb (sign x =? sign y))
    by (by destruct (negb _)).
  rewrite Hs in Hd. eapply denotes_eq; [apply Hd; destruct (negb _); auto|].
  rewrite (mag_abs x Hx), (mag_abs y Hy) in *.
  rewrite Z.quot_div by done.
  pose proof (bval_sign x Hx) as Sx. pose proof (bval_sign y Hy) as Sy.
  destruct (wf_sign x Hx) as [E1|E1], (wf_sign y Hy) as [E2|E2]; rewrite E1, E2 in *; cbn [Z.eqb negb] in *.
  all: destruct (Z.sgn_spec (bval x)) as [[? Gx]|[[? Gx]|[? Gx]]]; rewrite Gx;
       destruct (Z.sgn_spec (bval y)) as [[? Gy]|[[? Gy]|[? Gy]]]; rewrite Gy; try lia.
  all: first [cbn [Pos.eqb negb]; lia | replace (bval x) with 0 by lia; rewrite ?Z.div_0_l by lia; lia].
Qed.

Lemma mod_returns a b za zb : a ⇓ za → b ⇓ zb → zb ≠ 0 → eshkol_bignum_mod a b ⇓ᵣ Z.rem za zb.
Proof.
  intros Ha Hb Hne. pose proof (is_zero_denotes _ _ Hb) as Hz.
  destruct Ha as (x & -> & Hx & <-), Hb as (y & -> & Hy & <-). unfold eshkol_bignum_mod.
  rewrite Hz. destruct (Z.eqb_spec (bval y) 0); [done|].
  destruct (divmod_spec x y Hx Hy) as [_ Hr]; [by rewrite <- bval_zero|].
  pose proof (denotes_signed _ _ (if negb (sign x =? 0) then 1 else 0) Hr) as Hd.
  eexists; split; [done|].
  assert (Hs : ((if negb (sign x =? 0) then 1 else 0) =? 1) = negb (sign x =? 0))
    by (by destruct (negb _)).
  rewrite Hs in Hd. eapply denotes_eq; [apply Hd; destruct (negb _); auto|].
  rewrite (mag_abs x Hx), (mag_abs y Hy) in *. rewrite Z.rem_mod by done.
  pose proof (bval_sign x Hx) as Sx.
  destruct (wf_sign x Hx) as [E1|E1]; rewrite E1 in *; cbn [Z.eqb negb] in *;
    destruct (Z.sgn_spec (bval x)) as [[? Gx]|[[? Gx]|[? Gx]]]; rewrite Gx; try lia.
  replace (bval x) with 0 by lia. rewrite ?Z.mod_0_l by lia. lia.
Qed.

Lemma div_by_zero a b za : a ⇓ za → b ⇓ 0 →
  eshkol_bignum_div a b = Raised DivideByZero ∧ eshkol_bignum_mod a b = Raised DivideByZero.
Proof.
  intros Ha Hb. pose proof (is_zero_denotes _ _ Hb) as Hz. rewrite Z.eqb_refl in Hz.
  destruct Ha as (x & -> & Hx & <-), Hb as (y & -> & Hy & E).
  unfold eshkol_bignum_div, eshkol_bignum_mod. by rewrite Hz.
Qed.

#[export] Hint Resolve div_returns mod_returns : bignum.
