(* ===== verification/BignumBits.v ===== *)
(** * BignumBits: two's-complement bitwise operations and shifts, and what they compute *)

From S2P Require Export BignumDiv.
Local Open Scope Z_scope.

(** * two's-complement bitwise operations and shifts
    (lib/core/bignum.cpp, "Bitwise Operations") *)

(** [~x] on 64 bits. *)
Definition not64 (x : Z) : Z := UINT64_MAX - x.

(** Flip one limb and add the carry in: shared by both conversions. *)
Definition negate_step (i : nat) (s : list Z * Z) : list Z * Z :=
  let '(out, carry) := s in
  let sum := u128 (not64 (limb out i) + carry) in
  (<[i := u64 sum]> out, u64 (Z.shiftr sum 64)).

Definition to_twos_complement (a : bignum) (n : nat) : list Z :=
  let out := for_up n 0 (λ i out, <[i := if (i <? num_limbs a)%nat then limb (limbs a) i else 0]> out)
               (replicate n 0) in
  if negb (sign a =? 0) then (for_up n 0 negate_step (out, 1)).1 else out.

Definition from_twos_complement (tc : list Z) (n : nat) : bignum :=
  let negative := negb (Z.shiftr (limb tc (n - 1)) 63 =? 0) in
  let work := if negative then (for_up n 0 negate_step (tc, 1)).1 else tc in
  let actual := trim_count work n in
  Bignum (if negative then 1 else 0) (take actual work).

(** [n = max + 1; if (n > 127) n = 127;] — the width of the fixed scratch arrays. *)
Definition bitwise_width (a b : bignum) : nat :=
  let n := (max_num_limbs a b + 1)%nat in
  if (127 <? n)%nat then 127%nat else n.

(** The body the three binary operations share; [f] is [&], [|] or [^]. *)
Definition bitwise_with (f : Z → Z → Z) (a b : bignum) : bignum :=
  let n := bitwise_width a b in
  let tc_a := to_twos_complement a n in
  let tc_b := to_twos_complement b n in
  let ext_a := if negb (sign a =? 0) then UINT64_MAX else 0 in
  let ext_b := if negb (sign b =? 0) then UINT64_MAX else 0 in
  let tc_a := for_up (n - num_limbs a) (num_limbs a) (λ i t, <[i := ext_a]> t) tc_a in
  let tc_b := for_up (n - num_limbs b) (num_limbs b) (λ i t, <[i := ext_b]> t) tc_b in
  let tc_r := for_up n 0 (λ i r, <[i := f (limb tc_a i) (limb tc_b i)]> r) (replicate n 0) in
  from_twos_complement tc_r n.

Definition eshkol_bignum_bitwise_and (a b : option bignum) : option bignum :=
  a ← a; b ← b; Some (bitwise_with Z.land a b).
Definition eshkol_bignum_bitwise_or (a b : option bignum) : option bignum :=
  a ← a; b ← b; Some (bitwise_with Z.lor a b).
Definition eshkol_bignum_bitwise_xor (a b : option bignum) : option bignum :=
  a ← a; b ← b; Some (bitwise_with Z.lxor a b).

Definition eshkol_bignum_bitwise_not (a : option bignum) : option bignum :=
  match a with
  | None => None
  | Some x =>
      let one := eshkol_bignum_from_int64 1 in
      if negb (sign x =? 0)
      then let abs_a := eshkol_bignum_neg a in eshkol_bignum_sub abs_a one
      else let a_plus_1 := eshkol_bignum_add a one in eshkol_bignum_neg a_plus_1
  end.

Definition shift_left_step (al : list Z) (word_shift : nat) (bit_shift : Z) (new_limbs i : nat)
    (rl : list Z) : list Z :=
  let v := if bit_shift =? 0 then limb al i else u64 (Z.shiftl (limb al i) bit_shift) in
  let rl := <[(i + word_shift)%nat := Z.lor (limb rl (i + word_shift)) v]> rl in
  if (0 <? bit_shift) && (i + word_shift + 1 <? new_limbs)%nat
  then <[(i + word_shift + 1)%nat :=
           Z.lor (limb rl (i + word_shift + 1)) (Z.shiftr (limb al i) (64 - bit_shift))]> rl
  else rl.

Definition shift_right_step (al : list Z) (word_shift : nat) (bit_shift : Z) (i : nat)
    (rl : list Z) : list Z :=
  let src := (i + word_shift)%nat in
  let rl := <[i := if bit_shift =? 0 then limb al src else Z.shiftr (limb al src) bit_shift]> rl in
  if (0 <? bit_shift) && (src + 1 <? length al)%nat
  then <[i := Z.lor (limb rl i) (u64 (Z.shiftl (limb al (src + 1)) (64 - bit_shift)))]> rl
  else rl.

Definition eshkol_bignum_shift (a : option bignum) (count : Z) : option bignum :=
  match a with
  | None => None
  | Some x =>
      if eshkol_bignum_is_zero a || (count =? 0) then eshkol_bignum_from_int64 0
      else if 0 <? count then
        let word_shift := Z.to_nat (u32 (count / 64)) in
        let bit_shift := count mod 64 in
        let new_limbs := (num_limbs x + word_shift + 1)%nat in
        let rl := for_up (num_limbs x) 0
                    (shift_left_step (limbs x) word_shift bit_shift new_limbs)
                    (limbs (bignum_alloc new_limbs)) in
        Some (Bignum (sign x) (take (trim_count rl new_limbs) rl))
      else
        let rcount := i64 (- count) in
        let word_shift := Z.to_nat (u32 (rcount / 64)) in
        let bit_shift := rcount mod 64 in
        if (num_limbs x <=? word_shift)%nat then
          if negb (sign x =? 0) then eshkol_bignum_from_int64 (-1) else eshkol_bignum_from_int64 0
        else
          let new_limbs := (num_limbs x - word_shift)%nat in
          let rl := for_up new_limbs 0 (shift_right_step (limbs x) word_shift bit_shift)
                      (limbs (bignum_alloc new_limbs)) in
          let result := Bignum (sign x) (take (trim_count rl new_limbs) rl) in
          if negb (sign x =? 0) && eshkol_bignum_is_zero (Some result)
          then eshkol_bignum_from_int64 (-1)
          else Some result
  end.

(** The SWAR bit count of one limb. *)
Definition bignum_popcount64 (v : Z) : Z :=
  let v := u64 (v - Z.land (Z.shiftr v 1) 0x5555555555555555) in
  let v := u64 (Z.land v 0x3333333333333333 + Z.land (Z.shiftr v 2) 0x3333333333333333) in
  let v := Z.land (u64 (v + Z.shiftr v 4)) 0x0F0F0F0F0F0F0F0F in
  Z.shiftr (u64 (v * 0x0101010101010101)) 56.

Definition popcount_neg_step (l : list Z) (i : nat) (s : Z * Z) : Z * Z :=
  let '(count, borrow) := s in
  let limb0 := limb l i in
  let '(limb1, borrow) :=
    if negb (borrow =? 0)
    then if limb0 =? 0 then (UINT64_MAX, borrow) else (limb0 - 1, 0)
    else (limb0, borrow) in
  (count + bignum_popcount64 limb1, borrow).

Definition eshkol_bignum_popcount (a : option bignum) : Z :=
  match a with
  | None => 0
  | Some a =>
      if sign a =? 0 then
        for_up (num_limbs a) 0 (λ i count, count + bignum_popcount64 (limb (limbs a) i)) 0
      else
        let '(count, _) := for_up (num_limbs a) 0 (popcount_neg_step (limbs a)) (0, 1) in
        -1 - count
  end.

(** * bitwise operations and shifts agree with two's complement *)

(** * Bitwise operations agree with two's complement on [Z] *)

(** ** Bitwise functions, digit by digit *)

(** [f] acts on each bit by [g] and keeps non-negative words non-negative. *)
Record bitwise_fun (f : Z → Z → Z) (g : bool → bool → bool) : Prop := {
  bf_spec : ∀ x y n, 0 <= n → Z.testbit (f x y) n = g (Z.testbit x n) (Z.testbit y n);
  bf_zero : g false false = false
}.

Lemma land_bitwise : bitwise_fun Z.land andb.
Proof. split; [intros; apply Z.land_spec|done]. Qed.
Lemma lor_bitwise : bitwise_fun Z.lor orb.
Proof. split; [intros; apply Z.lor_spec|done]. Qed.
Lemma lxor_bitwise : bitwise_fun Z.lxor xorb.
Proof. split; [intros; apply Z.lxor_spec|done]. Qed.

Lemma pow2_64 i : pw i = 2 ^ (64 * Z.of_nat i).
Proof. unfold pw, B. by rewrite <- Z.pow_mul_r by lia. Qed.

Lemma testbit_split x X k n : 0 <= k → 0 <= x < 2 ^ k → 0 <= n →
  Z.testbit (x + X * 2 ^ k) n = if n <? k then Z.testbit x n else Z.testbit X (n - k).
Proof.
  intros Hk Hx Hn. rewrite Z.add_comm, <- lor_mul_pow2_add by done.
  rewrite Z.lor_spec, <- Z.shiftl_mul_pow2, Z.shiftl_spec by lia.
  rewrite <- (Z.mod_small x (2 ^ k)) at 1 by done.
  destruct (Z.ltb_spec n k).
  - rewrite Z.testbit_neg_r by lia. simpl. by rewrite Z.mod_small.
  - rewrite Z.mod_pow2_bits_high by lia. by rewrite orb_false_r.
Qed.

Section bitwise.
Context f g (Hf : bitwise_fun f g).

Lemma bf_mod x y k : 0 <= k → f (x mod 2 ^ k) (y mod 2 ^ k) = f x y mod 2 ^ k.
Proof using Hf.
  intros Hk. apply Z.bits_inj'. intros n Hn. rewrite (bf_spec _ _ Hf) by done.
  destruct (Z.lt_ge_cases n k).
  - rewrite !Z.mod_pow2_bits_low, (bf_spec _ _ Hf) by done. done.
  - rewrite !Z.mod_pow2_bits_high by lia. apply (bf_zero _ _ Hf).
Qed.

Lemma bf_range x y k : 0 <= k → 0 <= x < 2 ^ k → 0 <= y < 2 ^ k → 0 <= f x y < 2 ^ k.
Proof using Hf.
  intros Hk Hx Hy. rewrite <- (Z.mod_small x (2 ^ k)), <- (Z.mod_small y (2 ^ k)) by done.
  rewrite bf_mod by done. apply Z.mod_pos_bound. apply Z.pow_pos_nonneg; lia.
Qed.

Lemma bf_split x X y Y k : 0 <= k → 0 <= x < 2 ^ k → 0 <= y < 2 ^ k →
  f (x + X * 2 ^ k) (y + Y * 2 ^ k) = f x y + f X Y * 2 ^ k.
Proof using Hf.
  intros Hk Hx Hy. apply Z.bits_inj'. intros n Hn.
  rewrite (bf_spec _ _ Hf), !testbit_split by (auto using bf_range).
  destruct (Z.ltb_spec n k); rewrite (bf_spec _ _ Hf); auto; lia.
Qed.

Lemma bf_u64 x y : is_u64 x → is_u64 y → is_u64 (f x y).
Proof using Hf. intros. apply bf_range; auto; lia. Qed.

(** The result of two numbers of [k] bits and a sign has [k] bits and a sign. *)
Lemma bf_signed_range x y k : 0 <= k → - 2 ^ k <= x < 2 ^ k → - 2 ^ k <= y < 2 ^ k →
  - 2 ^ k <= f x y < 2 ^ k.
Proof using Hf.
  intros Hk Hx Hy. pose proof (Z.pow_pos_nonneg 2 k ltac:(lia) Hk).
  assert (Hdiv : ∀ z, - 2 ^ k <= z < 2 ^ k ↔ (Z.shiftr z k = 0 ∨ Z.shiftr z k = -1)).
  { intros z. rewrite Z.shiftr_div_pow2 by done.
    pose proof (Z.div_mod z (2 ^ k) ltac:(lia)). pose proof (Z.mod_pos_bound z (2 ^ k) ltac:(lia)).
    set (d := z / 2 ^ k) in *. split; [|intros [E|E]; rewrite E in *; lia].
    intros. assert (-1 <= d < 1) by nia. lia. }
  assert (Hsh : Z.shiftr (f x y) k = f (Z.shiftr x k) (Z.shiftr y k)).
  { apply Z.bits_inj'. intros n Hn. rewrite Z.shiftr_spec, !(bf_spec _ _ Hf), !Z.shiftr_spec by lia. done. }
  apply Hdiv. apply Hdiv in Hx, Hy. rewrite Hsh.
  assert (Hc : ∀ c d, f (if c : bool then -1 else 0) (if d : bool then -1 else 0) =
                      if g c d then -1 else 0).
  { intros c d. apply Z.bits_inj'. intros n Hn. rewrite (bf_spec _ _ Hf) by done.
    trans (g c d); [destruct c, d|destruct (g c d)]; rewrite ?Z.bits_m1, ?Z.bits_0 by done; done. }
  destruct Hx as [-> | ->], Hy as [-> | ->];
    [rewrite (Hc false false)|rewrite (Hc false true)|rewrite (Hc true false)|rewrite (Hc true true)];
    destruct (g _ _); auto.
Qed.

(** The limb loop of the binary operations. *)
Lemma bitwise_loop ta tb n : u64s ta → u64s tb →
  let r := for_up n 0 (λ i r, <[i := f (limb ta i) (limb tb i)]> r) (replicate n 0) in
  length r = n ∧ u64s r ∧ lval r = f (lval (take n ta)) (lval (take n tb)).
Proof using Hf.
  intros Ha Hb.
  loop_up (λ i r, length r = n ∧ u64s r ∧ lval (take i r) = f (lval (take i ta)) (lval (take i tb))) as Hloop.
  destruct Hloop as (Hl & Hu & Hv).
  - split_and!; [apply length_replicate|auto with limbs|]. simpl.
    apply Z.bits_inj'. intros k Hk. rewrite (bf_spec _ _ Hf), !Z.bits_0 by done.
    symmetry. apply (bf_zero _ _ Hf).
  - intros i r Hi (Hl & Hu & Hv). split_and!; [by rewrite length_insert| |].
    + apply insert_u64s; [done|]. apply bf_u64; auto with limbs.
    + rewrite lval_take_insert, !lval_take_S', Hv by lia. rewrite pow2_64. symmetry.
      pose proof (lval_take_bound ta i Ha) as H1. pose proof (lval_take_bound tb i Hb) as H2.
      rewrite pow2_64 in H1, H2. apply bf_split; auto; lia.
  - split_and!; [done|done|]. simpl in Hv. rewrite <- Hv, take_ge by lia. done.
Qed.
End bitwise.

(** ** Two's complement *)

Definition negate_inv (l0 : list Z) (n i : nat) (s : list Z * Z) : Prop :=
  length s.1 = length l0 ∧ u64s s.1 ∧ 0 <= s.2 <= 1 ∧
  (∀ k, (i <= k)%nat → limb s.1 k = limb l0 k) ∧
  lval (take i s.1) + s.2 * pw i = pw i - lval (take i l0).

Lemma negate_loop l n : u64s l → (n <= length l)%nat →
  let r := (for_up n 0 negate_step (l, 1)).1 in
  length r = length l ∧ u64s r ∧
  lval (take n r) = (- lval (take n l)) mod pw n.
Proof.
  intros Hl Hn. loop_up (negate_inv l n) as Hloop. destruct st as [r c].
  destruct Hloop as (Hlr & Hur & Hc & _ & Hv).
  - split_and!; cbn [fst snd]; auto; simpl; rewrite ?pw_0; lia.
  - clear r c. intros i [out c] Hi (Ho & Hu & Hc & Hk & Hv). unfold negate_step, negate_inv in *. cbn [fst snd] in *.
    pose proof (limb_u64 out i Hu) as Hx. unfold not64, UINT64_MAX.
    rewrite u128_id by (unfold is_u64 in *; lia). set (p := 2 ^ 64 - 1 - limb out i + c).
    pose proof (carry_range p 2 ltac:(unfold p, is_u64, B in *; lia)) as Hcr.
    rewrite (u64_id (p ≫ 64)) by (unfold is_u64; lia).
    split_and!; [by rewrite length_insert|auto with limbs machine|lia|lia| |].
    + intros k Hk'. rewrite limb_insert_ne by lia. apply Hk. lia.
    + rewrite lval_take_insert, lval_take_S', pw_S by lia. rewrite <- (Hk i) by lia.
      assert (u64 p = p - B * (p ≫ 64)) as -> by (pose proof (u64_carry p); lia).
      assert (E : p = B - 1 - limb out i + c) by done. rewrite E at 1. lia.
  - cbn [fst snd] in *. simpl in Hv. split_and!; [done|done|].
    pose proof (lval_take_bound r n Hur). pose proof (lval_take_bound l n Hl). pose proof (pw_pos n).
    destruct (decide (lval (take n l) = 0)) as [E0|].
    + assert (c = 1) by nia. subst c. rewrite E0. simpl. rewrite Z.mod_0_l by lia. lia.
    + assert (c = 0) by nia. subst c. rewrite <- (Z.mod_add _ 1), Z.mod_small by lia. lia.
Qed.

Lemma lval_take_mod l n m : u64s l → (n <= m)%nat → lval (take n l) = lval (take m l) mod pw n.
Proof.
  intros Hl Hn. replace (take n l) with (take n (take m l)) by (rewrite take_take; f_equal; lia).
  set (k := take m l). assert (Hk : u64s k) by (by apply Forall_take).
  pose proof (lval_take_bound k n Hk) as Hb. pose proof (lval_take_drop k n) as E.
  destruct (decide (n <= length k)%nat).
  - rewrite Nat.min_l in E by lia. rewrite E, Z.mul_comm, Z.mod_add by lia.
    symmetry. by apply Z.mod_small.
  - rewrite (take_ge k n) in * by lia. symmetry. by apply Z.mod_small.
Qed.

(** The limbs an operand contributes after the sign-extension loop. *)
Definition extended (a : bignum) (n : nat) : list Z :=
  for_up (n - num_limbs a) (num_limbs a)
    (λ i t, <[i := if negb (sign a =? 0) then UINT64_MAX else 0]> t) (to_twos_complement a n).

Lemma copy_loop a n : wf a → (num_limbs a <= n)%nat →
  let out := for_up n 0 (λ i out, <[i := if (i <? num_limbs a)%nat then limb (limbs a) i else 0]> out)
               (replicate n 0) in
  length out = n ∧ u64s out ∧ lval out = mag a.
Proof.
  intros Ha Hn. pose proof (wf_limbs a Ha) as Hu.
  loop_up (λ i out, length out = n ∧ u64s out ∧ lval (take i out) = lval (take i (limbs a))) as Hloop.
  destruct Hloop as (Hl & Ho & Hv).
  - split_and!; [apply length_replicate|auto with limbs|done].
  - intros i out Hi (Hl & Ho & Hv). unfold num_limbs. rewrite guard_limb.
    split_and!; [by rewrite length_insert|auto with limbs|].
    rewrite lval_take_insert, lval_take_S', Hv by lia. done.
  - simpl in Hv. unfold num_limbs, mag in *. rewrite !take_ge in Hv by lia. done.
Qed.

Lemma to_twos_spec a n : wf a → (num_limbs a <= n)%nat →
  length (to_twos_complement a n) = n ∧ u64s (to_twos_complement a n) ∧
  lval (to_twos_complement a n) = bval a mod pw n.
Proof.
  intros Ha Hn. unfold to_twos_complement.
  destruct (copy_loop a n Ha Hn) as (Hl & Hu & Hv).
  set (out := for_up n 0 _ (replicate n 0)) in *. clearbody out.
  pose proof (wf_bound a Ha). pose proof (pw_le (num_limbs a) n Hn).
  unfold bval. destruct (sign a =? 0); cbn [negb].
  - split_and!; [done|done|]. rewrite Hv, Z.mul_1_l, Z.mod_small by lia. done.
  - destruct (negate_loop out n Hu ltac:(lia)) as (Hl' & Hu' & Hv').
    split_and!; [lia|done|]. rewrite !take_ge, Hv in Hv' by lia. rewrite Hv'. f_equal; lia.
Qed.

Lemma extended_spec a n : wf a → (num_limbs a < n)%nat →
  length (extended a n) = n ∧ u64s (extended a n) ∧ lval (extended a n) = bval a mod pw n.
Proof.
  intros Ha Hn. destruct (to_twos_spec a n Ha ltac:(lia)) as (Hl & Hu & Hv). unfold extended.
  set (k := num_limbs a) in *. set (t0 := to_twos_complement a n) in *.
  loop_up (λ i t, length t = n ∧ u64s t ∧
    lval (take i t) = lval (take k t0) + if sign a =? 0 then 0 else pw i - pw k) as Hloop.
  destruct Hloop as (Hl' & Hu' & Hv').
  - split_and!; [done|done|]. destruct (_ =? _); lia.
  - intros i t Hi (Hl' & Hu' & Hv').
    split_and!; [by rewrite length_insert| |].
    + apply insert_u64s; [done|]. destruct (_ =? _); unfold is_u64, UINT64_MAX; cbn [negb]; lia.
    + rewrite lval_take_insert, Hv', pw_S by lia. unfold UINT64_MAX.
      destruct (sign a =? 0); cbn [negb]; unfold B; lia.
  - replace (k + (n - k))%nat with n in Hv' by lia. rewrite take_ge in Hv' by lia.
    split_and!; [done|done|]. rewrite Hv', (lval_take_mod t0 k n), (take_ge t0), Hv by (done || lia).
    pose proof (wf_bound a Ha) as Hb. fold k in Hb. pose proof (pw_le k n ltac:(lia)).
    replace (pw n) with (pw k * pw (n - k)) at 1 by (rewrite <- pw_add; f_equal; lia).
    assert (Hdm : bval a mod (pw k * pw (n - k)) mod pw k = bval a mod pw k).
    { apply Z.mod_mod_divide, Z.divide_factor_l. }
    rewrite Hdm. unfold bval. pose proof (wf_zero a Ha).
    destruct (Z.eqb_spec (sign a) 0) as [E|E].
    + rewrite Z.mul_1_l, !Z.mod_small by lia. lia.
    + assert (0 < mag a) by (destruct (decide (mag a = 0)); [by rewrite H0 in E|lia]).
      rewrite <- (Z.mod_add (-1 * mag a) 1 (pw k)), Z.mod_small by lia.
      rewrite <- (Z.mod_add (-1 * mag a) 1 (pw n)), Z.mod_small by lia. lia.
Qed.

Lemma from_twos_spec tc n v : length tc = n → (1 <= n)%nat → u64s tc →
  - pw n <= 2 * v < pw n → lval tc = v mod pw n → Some (from_twos_complement tc n) ⇓ v.
Proof.
  intros Hl Hn Hu Hv E. unfold from_twos_complement.
  pose proof (pw_pos n) as Hp.
  assert (Epw : pw n = B * pw (n - 1)) by (rewrite <- pw_S; f_equal; lia).
  pose proof (lval_top tc (n - 1) ltac:(lia) Hu) as [Hlo Hhi].
  pose proof (limb_u64 tc (n - 1) Hu) as Ht. pose proof (pw_pos (n - 1)).
  assert (Hneg : negb (limb tc (n - 1) ≫ 63 =? 0) = (v <? 0)).
  { rewrite Z.shiftr_div_pow2 by lia. destruct (Z.ltb_spec v 0).
    - rewrite <- (Z.mod_add v 1), Z.mod_small in E by lia.
      destruct (Z.eqb_spec (limb tc (n - 1) / 2 ^ 63) 0) as [E0|]; [|done].
      apply Z.div_small_iff in E0; [|lia].
      assert ((limb tc (n - 1) + 1) * pw (n - 1) <= 2 ^ 63 * pw (n - 1)) by (apply Z.mul_le_mono_nonneg_r; lia).
      unfold B in *. lia.
    - rewrite Z.mod_small in E by lia.
      rewrite Z.div_small; [done|]. split; [apply Ht|]. apply Z.nle_gt. intros L.
      assert (2 ^ 63 * pw (n - 1) <= limb tc (n - 1) * pw (n - 1)) by (apply Z.mul_le_mono_nonneg_r; lia).
      unfold B in *. lia. }
  rewrite Hneg. set (work := if v <? 0 then _ else tc).
  assert (Hw : length work = n ∧ u64s work ∧ lval work = Z.abs v).
  { unfold work. destruct (Z.ltb_spec v 0).
    - destruct (negate_loop tc n Hu ltac:(lia)) as (Hl' & Hu' & Hv').
      split_and!; [lia|done|]. rewrite !take_ge in Hv' by lia. rewrite Hv', E.
      rewrite <- (Z.mod_add v 1), (Z.mod_small (v + _)) by lia.
      rewrite <- (Z.mod_add _ 1), Z.mod_small by lia. lia.
    - split_and!; [done|done|]. rewrite E, Z.mod_small by lia. lia. }
  destruct Hw as (Hlw & Huw & Hvw). clearbody work.
  destruct (trim_count_spec work n ltac:(lia)) as (Hm & H1 & Htop & Hvt).
  rewrite (take_ge work n), Hvw in Hvt by lia.
  eexists; split_and!; [done| |].
  - split; unfold num_limbs, mag; cbn [limbs sign].
    + destruct (v <? 0); auto.
    + by apply Forall_take.
    + rewrite length_take. lia.
    + rewrite length_take, Nat.min_l by lia. destruct Htop as [?|Htop]; [left; lia|right].
      by rewrite limb_take by lia.
    + rewrite <- Hvt. intros. destruct (Z.ltb_spec v 0); lia.
  - unfold bval, mag; cbn [limbs sign]. rewrite <- Hvt. destruct (Z.ltb_spec v 0); simpl; lia.
Qed.

(** [&], [|] and [^] on operands of at most 126 limbs; from 127 limbs on the
    fixed 127-limb scratch arrays cut the operands. *)
Lemma bitwise_with_denotes f g a b za zb : bitwise_fun f g →
  a ⇓ za → b ⇓ zb →
  (∀ x, a = Some x → num_limbs x <= 126)%nat → (∀ y, b = Some y → num_limbs y <= 126)%nat →
  (a ← a; b ← b; Some (bitwise_with f a b)) ⇓ f za zb.
Proof.
  intros Hf (x & -> & Hx & <-) (y & -> & Hy & <-) Hlx Hly. cbn [mbind option_bind].
  specialize (Hlx x eq_refl). specialize (Hly y eq_refl).
  pose proof (max_num_limbs_ge x y) as [Hmx Hmy]. unfold bitwise_with.
  set (n := bitwise_width x y).
  assert (Hn : (num_limbs x < n ∧ num_limbs y < n)%nat).
  { unfold n, bitwise_width, max_num_limbs in *.
    destruct (Nat.ltb_spec (num_limbs y) (num_limbs x)), (Nat.ltb_spec 127 (num_limbs x + 1)),
      (Nat.ltb_spec 127 (num_limbs y + 1)); lia. }
  fold (extended x n) (extended y n).
  destruct (extended_spec x n Hx ltac:(lia)) as (Hlx' & Hux & Evx).
  destruct (extended_spec y n Hy ltac:(lia)) as (Hly' & Huy & Evy).
  destruct (bitwise_loop f g Hf (extended x n) (extended y n) n Hux Huy) as (Hl & Hu & Hv).
  apply from_twos_spec; [done|lia|done| |].
  - assert (Hr : ∀ z, wf z → (num_limbs z < n)%nat → - pw (n - 1) <= bval z < pw (n - 1)).
    { intros z Hz Hlz. pose proof (wf_bound z Hz). pose proof (pw_le (num_limbs z) (n - 1) ltac:(lia)).
      unfold bval. destruct (_ =? _); lia. }
    pose proof (Hr x Hx ltac:(lia)) as Hrx. pose proof (Hr y Hy ltac:(lia)) as Hry.
    rewrite pow2_64 in Hrx, Hry.
    pose proof (bf_signed_range f g Hf _ _ (64 * Z.of_nat (n - 1)) ltac:(lia) Hrx Hry) as Hrf. rewrite <- pow2_64 in Hrf.
    assert (pw n = B * pw (n - 1)) as -> by (rewrite <- pw_S; f_equal; lia).
    pose proof (pw_pos (n - 1)). unfold B. lia.
  - rewrite Hv, !take_ge, Evx, Evy by lia. rewrite pow2_64. apply (bf_mod f g Hf). lia.
Qed.

Lemma bitwise_not_denotes a za : a ⇓ za → eshkol_bignum_bitwise_not a ⇓ Z.lnot za.
Proof.
  intros Ha. pose proof (from_int64_denotes 1 ltac:(unfold is_i64; lia)) as H1.
  pose proof Ha as (x & -> & Hx & <-). unfold eshkol_bignum_bitwise_not.
  rewrite sign_denotes by done. unfold Z.lnot.
  destruct (Z.ltb_spec (bval x) 0).
  - eapply denotes_eq; [eauto with bignum|lia].
  - eapply denotes_eq; [eauto with bignum|lia].
Qed.

(** * What [eshkol_bignum_shift] computes *)

(** ** Left shift *)

Definition shl_word_inv (al : list Z) (ws : nat) (bs : Z) (i : nat) (rl : list Z) : Prop :=
  length rl = (length al + ws + 1)%nat ∧ u64s rl ∧
  (∀ k, (i + ws < k)%nat → limb rl k = 0) ∧ 0 <= limb rl (i + ws) < 2 ^ bs ∧
  lval rl = lval (take i al) * 2 ^ bs * pw ws.

Lemma shift_left_step_inv al ws bs i rl : u64s al → 0 <= bs < 64 → (i < length al)%nat →
  shl_word_inv al ws bs i rl →
  shl_word_inv al ws bs (S i) (shift_left_step al ws bs (length al + ws + 1) i rl).
Proof.
  intros Ha Hbs Hi (Hl & Hu & Hz & Hc & Hv). unfold shift_left_step.
  pose proof (limb_u64 al i Ha) as Hx. set (x := limb al i) in *.
  destruct (lor_shift_carry x (limb rl (i + ws)) bs Hx ltac:(lia) Hc) as [Elor Hlow].
  pose proof (shiftl_split x bs ltac:(lia)) as Esplit.
  pose proof (shiftr_range x bs Hx ltac:(lia)) as Hhi.
  assert (Hval : lval (take (S i) al) * 2 ^ bs * pw ws = lval rl + x * 2 ^ bs * pw (i + ws)).
  { rewrite lval_take_S', Hv, pw_add. fold x. ring. }
  destruct (Z.eqb_spec bs 0) as [E|E].
  - rewrite E in *. simpl in Hc. assert (limb rl (i + ws) = 0) as E0 by lia.
    rewrite E0, Z.lor_0_l. cbn [Z.ltb Z.compare andb].
    unfold shl_word_inv. rewrite Hval, length_insert, lval_insert, E0 by lia.
    split_and!; [done|auto with limbs| | | |lia].
    + intros k Hk. rewrite limb_insert_ne by lia. apply Hz. lia.
    + rewrite limb_insert_ne, Hz by lia. lia.
    + rewrite limb_insert_ne, Hz by lia. lia.
  - rewrite (Z.lor_comm (limb rl (i + ws))), Elor.
    destruct (Z.ltb_spec 0 bs); [|lia].
    destruct (Nat.ltb_spec (i + ws + 1) (length al + ws + 1)); [|lia]. cbn [andb].
    rewrite (limb_insert_ne rl) by lia. rewrite (Hz (i + ws + 1)%nat), Z.lor_0_l by lia.
    assert (H2 : 2 ^ bs <= 2 ^ 64) by (apply Z.pow_le_mono_r; lia).
    unfold shl_word_inv. rewrite Hval, !length_insert.
    split_and!; [done| | | | |].
    + apply insert_u64s; [by apply insert_u64s|]. unfold is_u64. lia.
    + intros k Hk. rewrite !limb_insert_ne by lia. apply Hz. lia.
    + replace (S i + ws)%nat with (i + ws + 1)%nat by lia. rewrite limb_insert_eq; [lia|]. rewrite length_insert. lia.
    + replace (S i + ws)%nat with (i + ws + 1)%nat by lia. rewrite limb_insert_eq; [lia|]. rewrite length_insert. lia.
    + rewrite !lval_insert, limb_insert_ne, (Hz (i + ws + 1)%nat) by (rewrite ?length_insert; lia).
      replace (i + ws + 1)%nat with (S (i + ws)) by lia. rewrite pw_S, Esplit. ring.
Qed.

Lemma shift_left_loop al ws bs : u64s al → 0 <= bs < 64 →
  let n := (length al + ws + 1)%nat in
  let rl := for_up (length al) 0 (shift_left_step al ws bs n) (replicate n 0) in
  length rl = n ∧ u64s rl ∧ lval rl = lval al * 2 ^ bs * pw ws.
Proof.
  intros Ha Hbs n rl. subst rl n. loop_up (shl_word_inv al ws bs) as Hloop.
  destruct Hloop as (Hl & Hu & _ & _ & Hv).
  - unfold shl_word_inv. rewrite limb_replicate, lval_replicate.
    split_and!; auto with limbs; [apply length_replicate|intros; apply limb_replicate|lia|lia].
  - intros. apply shift_left_step_inv; auto; lia.
  - split_and!; [done|done|]. simpl in Hv. by rewrite firstn_all in Hv.
Qed.

(** ** Right shift *)

Definition shr_word_inv (d : list Z) (n : nat) (bs : Z) (i : nat) (rl : list Z) : Prop :=
  length rl = n ∧ u64s rl ∧
  lval (take i rl) * 2 ^ bs + limb d 0 mod 2 ^ bs = lval (take i d) + (limb d i mod 2 ^ bs) * pw i.

(** One limb: the bits moved down and those taken from the next limb. *)
Lemma shr_limb x y bs : is_u64 x → is_u64 y → 0 <= bs < 64 →
  let v := if bs =? 0 then x else Z.lor (Z.shiftr x bs) (u64 (Z.shiftl y (64 - bs))) in
  is_u64 v ∧ v * 2 ^ bs = x - x mod 2 ^ bs + (y mod 2 ^ bs) * B.
Proof.
  intros Hx Hy Hbs. destruct (Z.eqb_spec bs 0) as [->|E]; cbv zeta.
  - rewrite Z.pow_0_r, !Z.mod_1_r. split; [done|lia].
  - assert (HB : B = 2 ^ (64 - bs) * 2 ^ bs) by (unfold B; rewrite <- Z.pow_add_r by lia; f_equal; lia).
    pose proof (shiftr_range x (64 - bs) Hx ltac:(lia)) as Hq.
    replace (64 - (64 - bs)) with bs in Hq by lia.
    rewrite u64_shiftl by lia. replace (64 - (64 - bs)) with bs by lia.
    rewrite Z.lor_comm, lor_mul_pow2_add by lia.
    pose proof (Z.div_mod x (2 ^ bs) ltac:(apply Z.pow_nonzero; lia)) as Ed.
    rewrite Z.shiftr_div_pow2 in * by lia.
    pose proof (Z.mod_pos_bound y (2 ^ bs) ltac:(apply Z.pow_pos_nonneg; lia)).
    split; [|rewrite HB; lia]. unfold is_u64. change (2 ^ 64) with B. rewrite HB. nia.
Qed.

Lemma shift_right_step_inv al ws bs i rl n : u64s al → 0 <= bs < 64 → (i < n)%nat →
  (i + ws < length al)%nat →
  shr_word_inv (drop ws al) n bs i rl → shr_word_inv (drop ws al) n bs (S i) (shift_right_step al ws bs i rl).
Proof.
  intros Ha Hbs Hi Hlen (Hl & Hu & Hv).
  pose proof (limb_u64 al (i + ws) Ha) as Hx. pose proof (limb_u64 al (i + ws + 1) Ha) as Hy.
  destruct (shr_limb _ _ bs Hx Hy Hbs) as [Hvu Ev].
  assert (Es : shift_right_step al ws bs i rl =
    <[i := if bs =? 0 then limb al (i + ws)
           else Z.lor (Z.shiftr (limb al (i + ws)) bs) (u64 (Z.shiftl (limb al (i + ws + 1)) (64 - bs)))]> rl).
  { unfold shift_right_step. destruct (Z.eqb_spec bs 0) as [->|E]; [done|].
    destruct (Z.ltb_spec 0 bs); [|lia]. destruct (Nat.ltb_spec (i + ws + 1) (length al)); cbn [andb].
    - by rewrite limb_insert_eq, list_insert_insert_eq by lia.
    - rewrite (limb_ge al (i + ws + 1)), Z.shiftl_0_l by lia. change (u64 0) with 0. by rewrite Z.lor_0_r. }
  rewrite Es. split_and!; [by rewrite length_insert|by apply insert_u64s|].
  rewrite lval_take_insert, lval_take_S', pw_S by lia.
  rewrite !limb_drop in *. replace (ws + i)%nat with (i + ws)%nat in * by lia.
  replace (ws + S i)%nat with (i + ws + 1)%nat by lia.
  set (v := if bs =? 0 then _ else _) in *.
  assert (v * pw i * 2 ^ bs = (limb al (i + ws) - limb al (i + ws) mod 2 ^ bs
            + (limb al (i + ws + 1) mod 2 ^ bs) * B) * pw i) by (rewrite <- Ev; ring). lia.
Qed.

Lemma shift_right_loop al ws bs : u64s al → 0 <= bs < 64 → (ws < length al)%nat →
  let n := (length al - ws)%nat in
  let rl := for_up n 0 (shift_right_step al ws bs) (replicate n 0) in
  length rl = n ∧ u64s rl ∧ lval rl = lval al / (2 ^ bs * pw ws).
Proof.
  intros Ha Hbs Hws n rl. subst rl.
  loop_up (shr_word_inv (drop ws al) n bs) as Hloop.
  destruct Hloop as (Hl & Hu & Hv).
  - split_and!; [apply length_replicate|auto with limbs|]. simpl. rewrite pw_0. lia.
  - intros. apply shift_right_step_inv; auto; unfold n in *; lia.
  - simpl in Hv. split_and!; [done|done|].
    rewrite (limb_ge _ n), Z.mod_0_l, (take_ge st), (take_ge (drop ws al)) in Hv
      by (rewrite ?length_drop; unfold n in *; first [lia | apply Z.pow_nonzero; lia]).
    pose proof (lval_take_drop al ws) as E. rewrite Nat.min_l in E by lia.
    pose proof (lval_take_bound al ws Ha). pose proof (pw_pos ws).
    pose proof (Z.pow_pos_nonneg 2 bs ltac:(lia) ltac:(lia)).
    pose proof (Z.mod_pos_bound (limb (drop ws al) 0) (2 ^ bs) ltac:(lia)).
    rewrite Z.mul_comm, <- Z.div_div by lia.
    assert (lval al / pw ws = lval (drop ws al)) as ->.
    { symmetry. apply Z.div_unique with (lval (take ws al)); lia. }
    apply Z.div_unique with (limb (drop ws al) 0 mod 2 ^ bs); lia.
Qed.

(** ** The public operation *)

Lemma trimmed_denotes s l n : (s = 0 ∨ s = 1) → u64s l → length l = n → (1 <= n)%nat →
  (s = 1 → lval l ≠ 0) →
  Some (Bignum s (take (trim_count l n) l)) ⇓ (if s =? 0 then 1 else -1) * lval l.
Proof.
  intros Hs Hu Hl Hn Hz. destruct (trim_count_spec l n ltac:(lia)) as (Hm & H1 & Htop & Hv).
  rewrite (take_ge l n) in Hv by lia.
  eexists; split_and!; [done| |unfold bval, mag; cbn [sign limbs]; by rewrite Hv].
  split; unfold num_limbs, mag; cbn [limbs sign]; [done|by apply Forall_take| | |].
  - rewrite length_take. lia.
  - rewrite length_take, Nat.min_l by lia. destruct Htop as [?|Htop]; [left; lia|right].
    by rewrite limb_take by lia.
  - rewrite <- Hv. intros E0. destruct Hs as [?|Hs]; [done|]. by destruct (Hz Hs).
Qed.

Lemma shift_split c : 0 <= c → 2 ^ (c mod 64) * pw (Z.to_nat (c / 64)) = 2 ^ c.
Proof.
  intros Hc. pose proof (Z.div_pos c 64 ltac:(lia) ltac:(lia)). pose proof (Z.mod_pos_bound c 64 ltac:(lia)).
  rewrite pow2_64, Z2Nat.id, <- Z.pow_add_r by lia. f_equal. pose proof (Z.div_mod c 64). lia.
Qed.

(** Counts whose word part fits the [uint32_t] of the code. *)
Lemma word_count c : 0 <= c < 2 ^ 38 → u32 (c / 64) = c / 64.
Proof.
  intros Hc. apply u32_id. split; [apply Z.div_pos; lia|]. apply Z.div_lt_upper_bound; lia.
Qed.

Lemma shift_left_denotes a za c : a ⇓ za → za ≠ 0 → 0 < c < 2 ^ 38 →
  eshkol_bignum_shift a c ⇓ Z.shiftl za c.
Proof.
  intros Ha Hne Hc. pose proof (is_zero_denotes _ _ Ha) as Hz.
  destruct Ha as (x & -> & Hx & <-). unfold eshkol_bignum_shift.
  rewrite Hz. destruct (Z.eqb_spec (bval x) 0), (Z.eqb_spec c 0), (Z.ltb_spec 0 c); try lia. cbn [orb].
  rewrite word_count by lia. pose proof (shift_split c ltac:(lia)) as Esp.
  unfold num_limbs. cbn [bignum_alloc limbs].
  destruct (shift_left_loop (limbs x) (Z.to_nat (c / 64)) (c mod 64) (wf_limbs x Hx)
    ltac:(apply Z.mod_pos_bound; lia)) as (Hl & Hu & Hv).
  fold (mag x) in Hv. rewrite <- Z.mul_assoc, Esp in Hv.
  pose proof (Z.pow_pos_nonneg 2 c ltac:(lia) ltac:(lia)).
  eapply denotes_eq; [apply trimmed_denotes; auto; [apply Hx|lia|]|].
  - intros _. rewrite Hv. assert (mag x ≠ 0) by (by rewrite <- bval_zero). nia.
  - rewrite Hv, Z.shiftl_mul_pow2 by lia. unfold bval. ring.
Qed.

(** The right shift of the code: the magnitude is shifted, and a negative
    number whose magnitude vanishes becomes [-1]. *)
Definition shifted_right (z c : Z) : Z :=
  let m := Z.abs z / 2 ^ c in
  if 0 <=? z then m else if m =? 0 then -1 else - m.

Lemma shift_right_denotes a za c : a ⇓ za → za ≠ 0 → 0 < c < 2 ^ 38 →
  eshkol_bignum_shift a (- c) ⇓ shifted_right za c.
Proof.
  intros Ha Hne Hc. pose proof (is_zero_denotes _ _ Ha) as Hz.
  destruct Ha as (x & -> & Hx & <-). unfold eshkol_bignum_shift, shifted_right.
  rewrite Hz. destruct (Z.eqb_spec (bval x) 0), (Z.eqb_spec (- c) 0), (Z.ltb_spec 0 (- c)); try lia. cbn [orb].
  rewrite Z.opp_involutive, i64_id by (unfold is_i64; lia). rewrite word_count by lia.
  pose proof (shift_split c ltac:(lia)) as Esp. rewrite <- (mag_abs x Hx), <- (bval_sign x Hx).
  set (ws := Z.to_nat (c / 64)) in *. pose proof (wf_bound x Hx) as Hb.
  destruct (Nat.leb_spec (num_limbs x) ws) as [L|L].
  - assert (mag x / 2 ^ c = 0) as ->.
    { apply Z.div_small. rewrite <- Esp. split; [lia|]. pose proof (pw_le _ _ L).
      pose proof (Z.pow_pos_nonneg 2 (c mod 64) ltac:(lia) ltac:(apply Z.mod_pos_bound; lia)). pose proof (pw_pos ws). nia. }
    destruct (sign x =? 0); cbn [negb Z.eqb]; apply from_int64_denotes; clear; unfold is_i64; lia.
  - unfold num_limbs at 1 2. cbn [bignum_alloc limbs].
    destruct (shift_right_loop (limbs x) ws (c mod 64) (wf_limbs x Hx)
      ltac:(apply Z.mod_pos_bound; lia) L) as (Hl & Hu & Hv).
    fold (mag x) in Hv. rewrite Esp in Hv. unfold num_limbs in *.
    set (rl := for_up _ _ _ _) in *. clearbody rl.
    clear n n0. set (n := (length (limbs x) - ws)%nat) in *.
    pose proof (Z.div_pos (mag x) (2 ^ c) ltac:(lia) ltac:(apply Z.pow_pos_nonneg; lia)).
    destruct (trim_count_spec rl n ltac:(lia)) as (Hm & H1 & Htop & Hvt). rewrite (take_ge rl n) in Hvt by lia.
    assert (Hiz : eshkol_bignum_is_zero (Some (Bignum (sign x) (take (trim_count rl n) rl))) = (mag x / 2 ^ c =? 0)).
    { rewrite <- Hv.
      pose proof (is_zero_denotes _ _ (trimmed_denotes 0 rl n ltac:(auto) Hu Hl ltac:(lia) ltac:(done))) as E.
      rewrite Z.mul_1_l in E. exact E. }
    rewrite Hiz. destruct (wf_sign x Hx) as [E|E]; rewrite E in *; cbn [Z.eqb negb andb].
    + eapply denotes_eq; [apply trimmed_denotes; auto; lia|]. simpl. lia.
    + destruct (Z.eqb_spec (mag x / 2 ^ c) 0).
      * apply from_int64_denotes; clear; unfold is_i64; lia.
      * eapply denotes_eq; [apply trimmed_denotes; auto; lia|]. rewrite Hv. cbn [Z.eqb]. lia.
Qed.

(** When the code's right shift is the floor shift that its documentation asks for. *)
Lemma shifted_right_floor z c : 0 < c →
  shifted_right z c = Z.shiftr z c ↔ 0 <= z ∨ Z.abs z < 2 ^ c ∨ (2 ^ c | z).
Proof.
  intros Hc. unfold shifted_right. rewrite Z.shiftr_div_pow2 by lia.
  pose proof (Z.pow_pos_nonneg 2 c ltac:(lia) ltac:(lia)).
  destruct (Z.leb_spec 0 z); [rewrite Z.abs_eq by lia; tauto|].
  rewrite Z.abs_neq by lia.
  destruct (Z.eqb_spec (- z / 2 ^ c) 0) as [E|E].
  - apply Z.div_small_iff in E; [|lia].
    assert (z / 2 ^ c = -1) by (symmetry; apply Z.div_unique with (z + 2 ^ c); lia). lia.
  - rewrite Z.div_small_iff in E by lia. rewrite <- Z.mod_divide by lia.
    destruct (decide (z mod 2 ^ c = 0)) as [E0|E0].
    + rewrite Z.div_opp_l_z by lia. lia.
    + rewrite Z.div_opp_l_nz by lia. lia.
Qed.
