(* ===== verification/BignumText.v ===== *)
(** * BignumText: decimal text and powers (lib/core/bignum.cpp) *)

From Stdlib Require Export Ascii String.
From S2P Require Export BignumBits.
Local Open Scope Z_scope.

(** * Decimal text and exponentiation (lib/core/bignum.cpp)

    [eshkol_bignum_from_string], [eshkol_bignum_to_string],
    [eshkol_bignum_display] and [eshkol_bignum_pow].  A C string is the list of
    its characters before the NUL; the buffers keep their size, so the writes
    past the end that the code must not make would be lost. *)

Definition char_code (c : ascii) : Z := Z.of_N (N_of_ascii c).
Definition digit_char (d : Z) : ascii := ascii_of_N (Z.to_N (48 + d)).
Definition is_digit_char (c : ascii) : bool := (48 <=? char_code c) && (char_code c <=? 57).

Definition mul10_step (j : nat) (s : list Z * Z) : list Z * Z :=
  let '(l, carry) := s in
  let prod := u128 (limb l j * 10 + carry) in
  (<[j := u64 prod]> l, u64 (Z.shiftr prod 64)).

(** One digit: multiply by ten and add, growing by a limb when a carry is left. *)
Definition push_digit (l : list Z) (digit : Z) : list Z :=
  let '(l, carry) := for_up (length l) 0 mul10_step (l, digit) in
  if 0 <? carry then l ++ [carry] else l.

Fixpoint parse_digits (cs : list ascii) (l : list Z) : option (list Z) :=
  match cs with
  | [] => Some l
  | c :: cs => if is_digit_char c then parse_digits cs (push_digit l (char_code c - 48)) else None
  end.

(** [str] holds the [len] characters that are read; NULL and [len == 0] are [[]]. *)
Definition eshkol_bignum_from_string (str : list ascii) : option bignum :=
  match str with
  | [] => None
  | c :: rest =>
      let '(s, digits) :=
        if Ascii.eqb c "-" then (1, rest) else if Ascii.eqb c "+" then (0, rest) else (0, str) in
      match digits with
      | [] => None
      | _ => l ← parse_digits digits [0]; Some (bignum_normalize (Bignum s l))
      end
  end.

(** [while (!is_zero(temp)) { buf[pos++] = '0' + temp % 10; temp /= 10; }] *)
Fixpoint emit_digits (fuel : nat) (temp : bignum) (buf : list ascii) (pos : nat)
    : option (list ascii * nat) :=
  match fuel with
  | O => None
  | S fuel' =>
      if eshkol_bignum_is_zero (Some temp) then Some (buf, pos)
      else
        let '(next, rem) := bignum_div_limb temp 10 in
        emit_digits fuel' next (<[pos := digit_char rem]> buf) (S pos)
  end.

Definition swap_step (pos i : nat) (buf : list ascii) : list ascii :=
  let c := nth i buf Ascii.zero in
  let buf := <[i := nth (pos - 1 - i) buf Ascii.zero]> buf in
  <[(pos - 1 - i)%nat := c]> buf.

Definition max_digits (a : bignum) : nat := (num_limbs a * 20 + 2)%nat.

Definition eshkol_bignum_to_string (a : option bignum) : option (list ascii) :=
  match a with
  | None => None
  | Some x =>
      if eshkol_bignum_is_zero a then Some ["0"%char]
      else
        let buf := replicate (max_digits x) Ascii.zero in
        let temp := Bignum 0 (limbs x) in
        '(buf, pos) ← emit_digits (max_digits x) temp buf 0;
        let '(buf, pos) :=
          if negb (sign x =? 0) then (<[pos := "-"%char]> buf, S pos) else (buf, pos) in
        let buf := for_up (pos / 2) 0 (swap_step pos) buf in
        let buf := <[pos := Ascii.zero]> buf in
        Some (take pos buf)
  end.

(** [fprintf("%llu")] of a 64-bit value: the decimal digits without leading zeros. *)
Fixpoint print_llu (fuel : nat) (v : Z) (acc : list ascii) : list ascii :=
  match fuel with
  | O => acc
  | S fuel' =>
      let acc := digit_char (v mod 10) :: acc in
      if v / 10 =? 0 then acc else print_llu fuel' (v / 10) acc
  end.

Definition display_div_step (i : nat) (s : list Z * Z) : list Z * Z :=
  let '(work, rem) := s in
  let cur := Z.lor (u128 (Z.shiftl rem 64)) (limb work i) in
  (<[i := u64 (cur / 10)]> work, cur mod 10).

Fixpoint all_zero (work : list Z) (n : nat) : bool :=
  match n with O => true | S i => all_zero work i && (limb work i =? 0) end.

(** [while (work_limbs > 0 && work[work_limbs - 1] == 0) work_limbs--] *)
Fixpoint trim_work (work : list Z) (n : nat) : nat :=
  match n with S i => if limb work i =? 0 then trim_work work i else n | O => O end.

Fixpoint display_digits (fuel : nat) (work : list Z) (work_limbs : nat) (buf : list ascii) (pos : nat)
    : option (list ascii * nat) :=
  match fuel with
  | O => None
  | S fuel' =>
      if (0 <? work_limbs)%nat && negb (all_zero work work_limbs) then
        let '(work, rem) := for_down work_limbs display_div_step (work, 0) in
        display_digits fuel' work (trim_work work work_limbs) (<[pos := digit_char rem]> buf) (S pos)
      else Some (buf, pos)
  end.

(** The characters written to the stream. *)
Definition eshkol_bignum_display (a : option bignum) : option (list ascii) :=
  match a with
  | None => Some []
  | Some x =>
      if eshkol_bignum_is_zero a then Some ["0"%char]
      else
        let out := if negb (sign x =? 0) then ["-"%char] else [] in
        if (num_limbs x =? 1)%nat then Some (out ++ print_llu 20 (limb (limbs x) 0) [])
        else if (max_digits x <=? 256)%nat then
          '(buf, pos) ← display_digits 256 (limbs x) (num_limbs x) (replicate 256 Ascii.zero) 0;
          Some (out ++ for_down pos (λ i acc, acc ++ [nth i buf Ascii.zero]) [])
        else Some (out ++ list_ascii_of_string "<bignum:"
                       ++ print_llu 10 (Z.of_nat (num_limbs x)) []
                       ++ list_ascii_of_string "-limbs>")
  end.

(** Repeated squaring: the loop shifts the 64-bit exponent right once per turn. *)
Fixpoint pow_loop (fuel : nat) (result b : option bignum) (e : Z) : option bignum :=
  match fuel with
  | O => None
  | S fuel' =>
      if 0 <? e then
        result ← (if negb (Z.land e 1 =? 0) then eshkol_bignum_mul result b else result);
        let e := Z.shiftr e 1 in
        b ← (if 0 <? e then eshkol_bignum_mul b b else b);
        pow_loop fuel' (Some result) (Some b) e
      else result
  end.

Definition eshkol_bignum_pow (base : option bignum) (exp : Z) : option bignum :=
  match base with
  | None => None
  | Some _ =>
      if exp =? 0 then eshkol_bignum_from_int64 1
      else if exp =? 1 then eshkol_bignum_mul base (eshkol_bignum_from_int64 1)
      else
        let result := eshkol_bignum_from_int64 1 in
        let b := eshkol_bignum_mul base (eshkol_bignum_from_int64 1) in
        match result, b with
        | Some _, Some _ => pow_loop 65 result b exp
        | _, _ => None
        end
  end.

(** ** Decimal strings as numbers *)

Definition digits_value (ds : list ascii) : Z :=
  fold_left (λ v c, 10 * v + (char_code c - 48)) ds 0.
Definition all_digits (ds : list ascii) : Prop := Forall (λ c, is_digit_char c = true) ds.

Lemma char_code_digit d : 0 <= d < 10 → char_code (digit_char d) = 48 + d.
Proof.
  intros. unfold char_code, digit_char. rewrite N_ascii_embedding; lia.
Qed.

Lemma is_digit_digit d : 0 <= d < 10 → is_digit_char (digit_char d) = true.
Proof.
  intros. unfold is_digit_char. rewrite char_code_digit by done.
  apply andb_true_intro. rewrite !Z.leb_le. lia.
Qed.

Lemma is_digit_range c : is_digit_char c = true → 0 <= char_code c - 48 < 10.
Proof. unfold is_digit_char. intros [?%Z.leb_le ?%Z.leb_le]%andb_prop. lia. Qed.

Lemma fold_digits ds v :
  fold_left (λ v c, 10 * v + (char_code c - 48)) ds v = v * 10 ^ Z.of_nat (length ds) + digits_value ds.
Proof.
  unfold digits_value. revert v. induction ds as [|c ds IH]; intros v; cbn [fold_left length].
  - change (10 ^ Z.of_nat 0) with 1. lia.
  - rewrite IH, (IH (10 * 0 + _)), Nat2Z.inj_succ, Z.pow_succ_r by lia. ring.
Qed.

Lemma digits_value_cons c ds :
  digits_value (c :: ds) = (char_code c - 48) * 10 ^ Z.of_nat (length ds) + digits_value ds.
Proof. unfold digits_value at 1. cbn [fold_left]. rewrite fold_digits. ring. Qed.

Lemma digits_value_snoc ds c : digits_value (ds ++ [c]) = 10 * digits_value ds + (char_code c - 48).
Proof. unfold digits_value. by rewrite fold_left_app. Qed.

(** ** Parsing *)

Definition mul10_inv (l0 : list Z) (d : Z) (i : nat) (s : list Z * Z) : Prop :=
  length s.1 = length l0 ∧ u64s s.1 ∧ 0 <= s.2 < 10 ∧ (∀ k, (i <= k)%nat → limb s.1 k = limb l0 k) ∧
  lval (take i s.1) + s.2 * pw i = 10 * lval (take i l0) + d.

Lemma push_digit_spec l d : u64s l → 0 <= d < 10 →
  u64s (push_digit l d) ∧ (length l <= length (push_digit l d))%nat ∧ lval (push_digit l d) = 10 * lval l + d.
Proof.
  intros Hl Hd. unfold push_digit. loop_up (mul10_inv l d) as Hloop. destruct st as [r c].
  destruct Hloop as (Hlr & Hur & Hc & _ & Hv).
  - split_and!; cbn [fst snd]; auto; try lia. simpl. rewrite pw_0. lia.
  - clear r c. intros i [r c] Hi (Hlr & Hur & Hc & Hk & Hv). unfold mul10_step, mul10_inv in *. cbn [fst snd] in *.
    pose proof (limb_u64 r i Hur) as Hx. rewrite u128_id by (unfold is_u64 in Hx; lia).
    set (p := limb r i * 10 + c). pose proof (u64_carry p) as Ep.
    pose proof (carry_range p 10 ltac:(unfold p, is_u64, B in *; lia)).
    rewrite (u64_id (Z.shiftr p 64)) by (unfold is_u64; lia).
    rewrite length_insert, lval_take_insert, lval_take_S', pw_S by lia.
    split_and!; [done|auto with limbs machine|lia|lia| |].
    + intros k ?. rewrite limb_insert_ne by lia. apply Hk. lia.
    + assert (u64 p * pw i + Z.shiftr p 64 * (B * pw i) = p * pw i) as E by (rewrite Ep at 3; ring).
      unfold p in E at 3. rewrite (Hk i) in E by lia. lia.
  - cbn [fst snd] in *. simpl in Hv. rewrite !take_ge in Hv by lia.
    destruct (Z.ltb_spec 0 c).
    + split_and!.
      * apply Forall_app. split; [done|]. constructor; [unfold is_u64; lia|done].
      * rewrite length_app. lia.
      * rewrite lval_app, lval_singleton, Hlr. lia.
    + replace c with 0 in * by lia. split_and!; [done|lia|lia].
Qed.

Lemma parse_digits_spec ds l : u64s l → (1 <= length l)%nat → all_digits ds →
  ∃ r, parse_digits ds l = Some r ∧ u64s r ∧ (1 <= length r)%nat ∧
    lval r = fold_left (λ v c, 10 * v + (char_code c - 48)) ds (lval l).
Proof.
  intros Hu Hl Hd. revert l Hu Hl. induction Hd as [|c ds Hc Hd IH]; intros l Hu Hl; cbn [parse_digits fold_left].
  - eauto.
  - rewrite Hc. destruct (push_digit_spec l _ Hu (is_digit_range c Hc)) as (? & ? & <-). apply IH; [done|lia].
Qed.

Lemma parse_digits_some ds l r : parse_digits ds l = Some r → all_digits ds.
Proof.
  revert l. induction ds as [|c ds IH]; intros l; cbn [parse_digits]; [constructor|].
  destruct (is_digit_char c) eqn:E; [|done]. intros H. constructor; [done|by eapply IH].
Qed.

(** The literals the parser accepts and the number each denotes. *)
Inductive literal : list ascii → Z → Prop :=
| LitPlain ds : ds ≠ [] → all_digits ds → literal ds (digits_value ds)
| LitPlus ds : ds ≠ [] → all_digits ds → literal ("+"%char :: ds) (digits_value ds)
| LitMinus ds : ds ≠ [] → all_digits ds → literal ("-"%char :: ds) (- digits_value ds).

Lemma parse_tail_denotes ds s : (s = 0 ∨ s = 1) → all_digits ds →
  (l ← parse_digits ds [0]; Some (bignum_normalize (Bignum s l))) ⇓ (if s =? 0 then 1 else -1) * digits_value ds.
Proof.
  intros Hs Hd. destruct (parse_digits_spec ds [0] (replicate_u64s 1) ltac:(simpl; lia) Hd) as (r & -> & Hu & Hl & Hv).
  change (digits_value ds) with (fold_left (λ v c, 10 * v + (char_code c - 48)) ds (lval [0])).
  rewrite <- Hv. by apply normalize_denotes.
Qed.

Lemma from_string_literal s z : literal s z → eshkol_bignum_from_string s ⇓ z.
Proof.
  intros [ds Hne Hd|ds Hne Hd|ds Hne Hd]; unfold eshkol_bignum_from_string.
  - destruct ds as [|c ds]; [done|].
    assert (Ascii.eqb c "-" = false ∧ Ascii.eqb c "+" = false) as [-> ->].
    { apply Forall_cons_1 in Hd as [Hc _]. split; apply Ascii.eqb_neq; intros ->; vm_compute in Hc; done. }
    eapply denotes_eq; [apply (parse_tail_denotes _ 0); auto|]. simpl. lia.
  - simpl. destruct ds; [done|]. eapply denotes_eq; [apply (parse_tail_denotes _ 0); auto|]. simpl. lia.
  - simpl. destruct ds; [done|]. eapply denotes_eq; [apply (parse_tail_denotes _ 1); auto|]. simpl. lia.
Qed.

Lemma parse_tail_some ds s b : (l ← parse_digits ds [0]; Some (bignum_normalize (Bignum s l))) = Some b → all_digits ds.
Proof. destruct (parse_digits ds [0]) eqn:P; [|done]. intros _. by eapply parse_digits_some. Qed.

Lemma from_string_some s b : eshkol_bignum_from_string s = Some b → ∃ z, literal s z.
Proof.
  unfold eshkol_bignum_from_string. destruct s as [|c t]; [done|].
  destruct (Ascii.eqb_spec c "-") as [->|?]; [|destruct (Ascii.eqb_spec c "+") as [->|?]].
  - destruct t; [done|]. intros H%parse_tail_some. eexists. by apply LitMinus.
  - destruct t; [done|]. intros H%parse_tail_some. eexists. by apply LitPlus.
  - intros H%parse_tail_some. eexists. by apply LitPlain.
Qed.

(** ** Printing *)

(** The number of decimal digits of [m]. *)
Lemma digits_bound m k : 0 <= m < 10 ^ Z.of_nat (S k) → 0 <= m / 10 < 10 ^ Z.of_nat k.
Proof.
  rewrite Nat2Z.inj_succ, Z.pow_succ_r by lia. intros. split; [apply Z.div_pos; lia|].
  apply Z.div_lt_upper_bound; lia.
Qed.

Lemma digit_char_nonzero d : 0 < d < 10 → digit_char d ≠ "0"%char.
Proof.
  intros Hd E. apply (f_equal char_code) in E. rewrite char_code_digit in E by lia. change (char_code "0") with 48 in E. lia.
Qed.

(** The digits of [m], most significant first, stored from position [pos] on in
    reverse order; the rest of the buffer is untouched. *)
Lemma emit_digits_spec fuel t buf pos k : wf t → sign t = 0 → mag t < 10 ^ Z.of_nat k →
  (k < fuel)%nat → (pos + k <= length buf)%nat →
  ∃ ds, emit_digits fuel t buf pos = Some (take pos buf ++ rev ds ++ drop (pos + length ds) buf, (pos + length ds)%nat)
    ∧ (length ds <= k)%nat ∧ all_digits ds ∧ digits_value ds = mag t ∧ head ds ≠ Some "0"%char.
Proof.
  revert t buf pos k. induction fuel as [|fuel IH]; intros t buf pos k Ht Hs Hm Hk Hb; [lia|].
  cbn [emit_digits]. rewrite is_zero_spec by done. destruct (Z.eqb_spec (mag t) 0) as [E|E].
  - exists []. simpl. rewrite Nat.add_0_r, take_drop, E. split_and!; [done|lia|constructor|done|done].
  - pose proof (wf_bound t Ht). destruct k as [|k]; [change (10 ^ Z.of_nat 0) with 1 in Hm; lia|].
    pose proof (div_limb_spec t 10 Ht ltac:(lia)) as Hd. destruct (bignum_div_limb t 10) as [q r].
    destruct Hd as (Hq & Hsq & Hmq & Hr).
    pose proof (Z.mod_pos_bound (mag t) 10 ltac:(lia)) as Hmod. rewrite <- Hr in Hmod.
    pose proof (digits_bound (mag t) k ltac:(lia)) as Hdb. rewrite <- Hmq in Hdb.
    destruct (IH q (<[pos := digit_char r]> buf) (S pos) k) as (ds & Ee & Hl & Had & Hv & Hh);
      [done|done|lia|lia|rewrite length_insert; lia|].
    exists (ds ++ [digit_char r]). rewrite Ee, length_app, rev_app_distr. cbn [length rev List.app].
    split_and!.
    + f_equal. f_equal; [|lia].
      rewrite drop_insert_lt by lia.
      rewrite (take_S_r _ pos (digit_char r)) by (apply list_lookup_insert_eq; lia).
      rewrite take_insert_ge by lia. rewrite <- app_assoc. cbn [List.app].
      by replace (S pos + length ds)%nat with (pos + (length ds + 1))%nat by lia.
    + lia.
    + apply Forall_app. split; [done|]. constructor; [by apply is_digit_digit|done].
    + rewrite digits_value_snoc, Hv, char_code_digit, Hmq by done.
      pose proof (Z.div_mod (mag t) 10). lia.
    + destruct ds as [|c ds]; [|done]. cbn [List.app head]. intros [= E0].
      assert (mag q = 0) as Eq0 by (rewrite <- Hv; done).
      apply (digit_char_nonzero r); [|done]. pose proof (Z.div_mod (mag t) 10). lia.
Qed.

(** Swapping ends pairwise up to the middle reverses the first [pos] characters. *)
Definition reversed_upto (pos : nat) (b0 : list ascii) (i : nat) (b : list ascii) : Prop :=
  length b = length b0 ∧
  (∀ k, (k < pos)%nat → nth k b Ascii.zero =
     if decide (k < i ∨ pos - 1 - k < i)%nat then nth (pos - 1 - k) b0 Ascii.zero else nth k b0 Ascii.zero).

Lemma nth_insert {A} (l : list A) i k x d : (i < length l)%nat →
  nth k (<[i:=x]> l) d = if decide (k = i) then x else nth k l d.
Proof.
  intros Hi. rewrite !nth_lookup. destruct (decide (k = i)) as [->|].
  - by rewrite list_lookup_insert_eq by lia.
  - by rewrite list_lookup_insert_ne by done.
Qed.

Lemma swap_step_inv pos b0 i b : (pos <= length b0)%nat → (i < pos / 2)%nat →
  reversed_upto pos b0 i b → reversed_upto pos b0 (S i) (swap_step pos i b).
Proof.
  intros Hp Hi [Hl Hn]. pose proof (Nat.div_mod pos 2 ltac:(lia)).
  unfold swap_step. split; [by rewrite !length_insert|]. intros k Hk.
  rewrite !nth_insert by (rewrite ?length_insert; lia).
  rewrite (Hn i), (Hn (pos - 1 - i)%nat), (Hn k) by lia.
  repeat case_decide; subst; try lia; try done; try (f_equal; lia).
Qed.

Lemma reverse_loop pos b0 : (pos <= length b0)%nat →
  take pos (for_up (pos / 2) 0 (swap_step pos) b0) = rev (take pos b0).
Proof.
  intros Hp. loop_up (reversed_upto pos b0) as Hloop. destruct Hloop as [Hl Hn].
  - split; [done|]. intros k Hk. case_decide; [lia|done].
  - intros. apply swap_step_inv; [done|lia|done].
  - rewrite Nat.add_0_l in Hn. assert (El : length (take pos st) = pos) by (rewrite length_take; lia).
    assert (El0 : length (take pos b0) = pos) by (rewrite length_take; lia).
    apply nth_ext with Ascii.zero Ascii.zero; [rewrite length_rev; lia|].
    intros k Hk. rewrite rev_nth by lia. rewrite El0. rewrite El in Hk.
    rewrite !nth_lookup, !lookup_take_lt by lia. rewrite <- !nth_lookup, Hn by done.
    pose proof (Nat.div_mod pos 2 ltac:(lia)). pose proof (Nat.mod_upper_bound pos 2 ltac:(lia)).
    case_decide; f_equal; lia.
Qed.

Lemma pow10_limb n : pw n <= 10 ^ Z.of_nat (n * 20).
Proof.
  induction n as [|n IH]; [done|]. rewrite pw_S.
  replace (Z.of_nat (S n * 20)) with (20 + Z.of_nat (n * 20)) by lia. rewrite Z.pow_add_r by lia.
  pose proof (pw_pos n). assert (B <= 10 ^ 20) by (unfold B; lia). nia.
Qed.

Lemma take_pos_snoc (l : list ascii) pos c : (pos < length l)%nat → take (S pos) (<[pos:=c]> l) = take pos l ++ [c].
Proof.
  intros. rewrite (take_S_r _ pos c) by (apply list_lookup_insert_eq; lia). by rewrite take_insert_ge by lia.
Qed.

(** The characters printed for [z]: no sign for a natural number, no leading zero. *)
Definition numeral (s : list ascii) (z : Z) : Prop :=
  ∃ ds, s = (if z <? 0 then ["-"%char] else []) ++ ds ∧ all_digits ds ∧ ds ≠ [] ∧
    digits_value ds = Z.abs z ∧ (head ds = Some "0"%char → ds = ["0"%char]).

Lemma numeral_literal s z : numeral s z → literal s z.
Proof.
  intros (ds & -> & Hd & Hne & Hv & _). destruct (Z.ltb_spec z 0); simpl.
  - replace z with (- digits_value ds) by lia. by constructor.
  - replace z with (digits_value ds) by lia. by constructor.
Qed.

(** What the digit loop leaves in a fresh buffer: the digits reversed, well
    inside the [20 * num_limbs + 2] characters reserved. *)
Lemma emitted_digits x : wf x → mag x ≠ 0 →
  ∃ ds rest, emit_digits (max_digits x) (Bignum 0 (limbs x)) (replicate (max_digits x) Ascii.zero) 0
      = Some (rev ds ++ rest, length ds)
    ∧ length (rev ds ++ rest) = max_digits x ∧ (length ds <= num_limbs x * 20)%nat
    ∧ all_digits ds ∧ ds ≠ [] ∧ digits_value ds = mag x ∧ head ds ≠ Some "0"%char.
Proof.
  intros Hx Hne. destruct (abs_wf x Hx) as [Hwa Hma].
  pose proof (wf_bound x Hx). pose proof (pow10_limb (num_limbs x)).
  destruct (emit_digits_spec (max_digits x) (Bignum 0 (limbs x)) (replicate (max_digits x) Ascii.zero) 0
    (num_limbs x * 20)) as (ds & -> & Hl & Hd & Hv & Hh); [done|done|lia|unfold max_digits; lia
    |rewrite length_replicate; unfold max_digits; lia|].
  simpl. rewrite Hma in Hv. eexists ds, _. split_and!; [done| |done|done| |done|done].
  - rewrite length_app, length_rev, length_drop, length_replicate. unfold max_digits. lia.
  - intros ->. by apply Hne.
Qed.

Lemma to_string_numeral a z : a ⇓ z →
  ∃ s, eshkol_bignum_to_string a = Some s ∧ numeral s z.
Proof.
  intros Ha. pose proof (is_zero_denotes _ _ Ha) as Hz. destruct Ha as (x & -> & Hx & <-).
  unfold eshkol_bignum_to_string. rewrite Hz. destruct (Z.eqb_spec (bval x) 0) as [E|E].
  - exists ["0"%char]. split; [done|]. exists ["0"%char]. rewrite E. split_and!; try done. by constructor.
  - destruct (emitted_digits x Hx) as (ds & rest & -> & Hlen & Hl & Hd & Hne & Hv & Hh); [by rewrite <- bval_zero|].
    cbn [mbind option_bind]. rewrite sign_denotes by done.
    destruct (Z.ltb_spec (bval x) 0) as [L|L]; (eexists; split; [reflexivity|]); exists ds;
      rewrite <- (mag_abs x Hx); (split_and!; [|done|done|done|done]).
    + destruct (Z.ltb_spec (bval x) 0); [|lia].
      rewrite take_insert_ge, reverse_loop by (rewrite ?length_insert, ?Hlen; unfold max_digits; lia).
      rewrite take_pos_snoc by (rewrite Hlen; unfold max_digits; lia).
      rewrite take_app_length' by (by rewrite length_rev). by rewrite rev_app_distr, rev_involutive.
    + destruct (Z.ltb_spec (bval x) 0); [lia|].
      rewrite take_insert_ge, reverse_loop by (rewrite ?Hlen; unfold max_digits; lia).
      rewrite take_app_length' by (by rewrite length_rev). by rewrite rev_involutive.
Qed.

(** ** Exponentiation *)

Lemma shiftr1 e : Z.shiftr e 1 = e / 2.
Proof. by rewrite Z.shiftr_div_pow2. Qed.

Lemma land1 e : Z.land e 1 = e mod 2.
Proof. change 1 with (Z.ones 1) at 1. by rewrite Z.land_ones. Qed.

Lemma pow_loop_denotes fuel r b zr zb e : r ⇓ zr → b ⇓ zb → 0 <= e < 2 ^ Z.of_nat fuel →
  pow_loop (S fuel) r b e ⇓ zr * zb ^ e.
Proof.
  revert r b zr zb e. induction fuel as [|fuel IH]; intros r b zr zb e Hr Hb He.
  - change (2 ^ Z.of_nat 0) with 1 in He. replace e with 0 by lia. cbn [pow_loop Z.ltb Z.compare].
    eapply denotes_eq; [exact Hr|]. lia.
  - rewrite Nat2Z.inj_succ, Z.pow_succ_r in He by lia. set (n := S fuel) in *. cbn [pow_loop].
    destruct (Z.ltb_spec 0 e) as [L|L]; [|replace e with 0 by lia; eapply denotes_eq; [exact Hr|lia]].
    rewrite shiftr1, land1. pose proof (Z.div_mod e 2 ltac:(lia)) as Ed.
    pose proof (Z.mod_pos_bound e 2 ltac:(lia)) as Em. set (q := e / 2) in *. set (m := e mod 2) in *.
    assert (Hr' : (if negb (m =? 0) then eshkol_bignum_mul r b else r) ⇓ zr * zb ^ m).
    { destruct (Z.eqb_spec m 0) as [->|]; cbn [negb].
      - eapply denotes_eq; [exact Hr|lia].
      - replace m with 1 by lia. rewrite Z.pow_1_r. auto with bignum. }
    destruct (Z.ltb_spec 0 q) as [Lq|Lq].
    + pose proof (mul_denotes b b zb zb Hb Hb) as Hbb.
      destruct Hr' as (r' & -> & ?), Hbb as (b' & -> & ?). cbn [mbind option_bind].
      eapply denotes_eq; [apply IH; [by exists r'|by exists b'|lia]|].
      rewrite Ed, Z.pow_add_r, Z.pow_mul_r, Z.pow_2_r by lia. ring.
    + destruct Hr' as (r' & -> & ?), Hb as (b' & -> & ?). cbn [mbind option_bind].
      subst n. cbn [pow_loop]. destruct (Z.ltb_spec 0 q); [lia|].
      replace m with e in * by lia. by exists r'.
Qed.

Lemma pow_denotes a za e : a ⇓ za → is_u64 e → eshkol_bignum_pow a e ⇓ za ^ e.
Proof.
  intros Ha [H0 He]. pose proof (from_int64_denotes 1 ltac:(unfold is_i64; lia)) as H1.
  pose proof (mul_denotes _ _ _ _ Ha H1) as Hm. unfold eshkol_bignum_pow.
  destruct Ha as (x & -> & Hx & <-).
  destruct (Z.eqb_spec e 0) as [->|]; [exact H1|].
  destruct (Z.eqb_spec e 1) as [->|]; [eapply denotes_eq; [exact Hm|lia]|].
  assert (Hp : pow_loop 65 (eshkol_bignum_from_int64 1) (eshkol_bignum_mul (Some x) (eshkol_bignum_from_int64 1)) e
    ⇓ bval x ^ e).
  { eapply denotes_eq; [apply (pow_loop_denotes 64); [exact H1|exact Hm|change (Z.of_nat 64) with 64; lia]|].
    rewrite Z.mul_1_r. lia. }
  destruct H1 as (o & Eo & _), Hm as (y & Ey & _). rewrite Ey in *. rewrite Eo in *. exact Hp.
Qed.
#[export] Hint Resolve pow_denotes : bignum.

(** * The printer agrees with [eshkol_bignum_to_string]

    [eshkol_bignum_display] divides a scratch copy in place; up to twelve limbs
    it prints the same numeral as [eshkol_bignum_to_string]. *)

Definition display_inv (w0 : list Z) (n i : nat) (s : list Z * Z) : Prop :=
  length s.1 = length w0 ∧ u64s s.1 ∧ 0 <= s.2 < 10 ∧ (∀ k, (k < i)%nat → limb s.1 k = limb w0 k) ∧
  10 * (lval (take n s.1) - lval (take i s.1)) + s.2 * pw i + lval (take i w0) = lval (take n w0).

Lemma take_insert_above (l : list Z) i n x : (i < n)%nat → (i < length l)%nat →
  lval (take n (<[i:=x]> l)) = lval (take n l) + (x - limb l i) * pw i.
Proof.
  intros Hn Hi. rewrite take_insert_lt by done.
  rewrite lval_insert by (rewrite length_take; lia). by rewrite limb_take.
Qed.

Lemma display_step_inv w0 n i s : u64s w0 → (n <= length w0)%nat → (i < n)%nat →
  display_inv w0 n (S i) s → display_inv w0 n i (display_div_step i s).
Proof.
  destruct s as [w r]. intros Hw Hn Hi (Hl & Hu & Hr & Hk & Hv).
  unfold display_div_step, display_inv in *. cbn [fst snd] in *.
  pose proof (limb_u64 w i Hu) as Hx. rewrite dword_lor by (unfold is_u64 in *; lia).
  set (cur := r * B + limb w i). pose proof (Z.div_mod cur 10 ltac:(lia)) as Ed.
  pose proof (Z.mod_pos_bound cur 10 ltac:(lia)) as Em.
  assert (Hq : is_u64 (cur / 10)).
  { pose proof Hx as []. unfold is_u64, cur, B.
    split; [apply Z.div_pos|apply Z.div_lt_upper_bound]; lia. }
  rewrite u64_id by done. split_and!; [by rewrite length_insert|by apply insert_u64s|lia|lia| |].
  - intros k Hki. rewrite limb_insert_ne by lia. apply Hk. lia.
  - rewrite !lval_take_S', (Hk i) in Hv by lia.
    rewrite take_insert_above, take_insert_ge by lia. rewrite (Hk i) by lia.
    rewrite pw_S in Hv. assert (cur * pw i = (10 * (cur / 10) + cur mod 10) * pw i) as E by (by rewrite <- Ed).
    unfold cur in E at 1. rewrite (Hk i) in E by lia. lia.
Qed.

Lemma all_zero_spec w n : u64s w → all_zero w n = (lval (take n w) =? 0).
Proof.
  intros Hu. induction n as [|n IH]; [done|]. cbn [all_zero]. rewrite IH, lval_take_S'.
  pose proof (lval_take_bound w n Hu). pose proof (limb_u64 w n Hu) as []. pose proof (pw_pos n).
  destruct (Z.eqb_spec (lval (take n w)) 0), (Z.eqb_spec (limb w n) 0); cbn [andb]; symmetry;
    [apply Z.eqb_eq|apply Z.eqb_neq|apply Z.eqb_neq|apply Z.eqb_neq]; nia.
Qed.

Lemma trim_work_spec w n : (trim_work w n <= n)%nat ∧ lval (take (trim_work w n) w) = lval (take n w).
Proof.
  induction n as [|n [IH1 IH2]]; [done|]. cbn [trim_work]. destruct (Z.eqb_spec (limb w n) 0) as [E|E]; [|done].
  split; [lia|]. rewrite IH2, lval_take_S', E. lia.
Qed.

(** The buffer holds [256] characters; the digits written are those of the value. *)
Lemma display_digits_spec fuel w n buf pos k : u64s w → (n <= length w)%nat →
  lval (take n w) < 10 ^ Z.of_nat k → (k < fuel)%nat → (pos + k <= length buf)%nat →
  ∃ ds, display_digits fuel w n buf pos = Some (take pos buf ++ rev ds ++ drop (pos + length ds) buf, (pos + length ds)%nat)
    ∧ (length ds <= k)%nat ∧ all_digits ds ∧ digits_value ds = lval (take n w) ∧ head ds ≠ Some "0"%char.
Proof.
  revert w n buf pos k. induction fuel as [|fuel IH]; intros w n buf pos k Hu Hn Hm Hk Hb; [lia|].
  cbn [display_digits]. rewrite all_zero_spec by done. pose proof (lval_take_bound w n Hu) as Hpos.
  destruct (Z.eqb_spec (lval (take n w)) 0) as [E|E]; cbn [negb].
  - rewrite andb_false_r. exists []. simpl. rewrite Nat.add_0_r, take_drop, E.
    split_and!; [done|lia|constructor|done|done].
  - destruct (Nat.ltb_spec 0 n); [|destruct n; [done|lia]]. cbn [andb].
    destruct k as [|k]; [change (10 ^ Z.of_nat 0) with 1 in Hm; lia|].
    loop_down (display_inv w n) as Hloop. destruct st as [w' r]. destruct Hloop as (Hl & Hu' & Hr & _ & Hv).
    + split_and!; cbn [fst snd]; auto; lia.
    + intros i s Hi. apply display_step_inv; [done|done|lia].
    + cbn [fst snd] in *. rewrite take_0, pw_0 in Hv. cbn [lval] in Hv.
      assert (Ew : lval (take n w) = 10 * lval (take n w') + r) by (change (take 0 w) with (@nil Z) in Hv; simpl in Hv; lia).
      destruct (trim_work_spec w' n) as [Ht Hvt].
      pose proof (lval_take_bound w' n Hu').
      assert (Hdb : lval (take n w') < 10 ^ Z.of_nat k).
      { rewrite Nat2Z.inj_succ, Z.pow_succ_r in Hm by lia. lia. }
      destruct (IH w' (trim_work w' n) (<[pos := digit_char r]> buf) (S pos) k) as (ds & Ee & Hld & Had & Hvd & Hh);
        [done|lia|lia|lia|rewrite length_insert; lia|].
      exists (ds ++ [digit_char r]). rewrite Ee, length_app, rev_app_distr. cbn [length rev List.app].
      split_and!.
      * f_equal. f_equal; [|lia]. rewrite drop_insert_lt, take_pos_snoc, <- app_assoc by lia. cbn [List.app].
        by replace (S pos + length ds)%nat with (pos + (length ds + 1))%nat by lia.
      * lia.
      * apply Forall_app. split; [done|]. constructor; [by apply is_digit_digit|done].
      * rewrite digits_value_snoc, Hvd, char_code_digit by done. lia.
      * destruct ds as [|c ds]; [|done]. cbn [List.app head]. intros [= E0].
        assert (digits_value [] = 0) as E1 by done. apply (digit_char_nonzero r); [lia|done].
Qed.

Lemma print_llu_spec fuel v acc : 0 <= v < 10 ^ Z.of_nat fuel → (1 <= fuel)%nat →
  ∃ ds, print_llu fuel v acc = ds ++ acc ∧ all_digits ds ∧ ds ≠ [] ∧ digits_value ds = v ∧
    (v ≠ 0 → head ds ≠ Some "0"%char).
Proof.
  revert v acc. induction fuel as [|fuel IH]; intros v acc Hv Hf; [lia|]. cbn [print_llu].
  pose proof (Z.div_mod v 10 ltac:(lia)) as Ed. pose proof (Z.mod_pos_bound v 10 ltac:(lia)) as Em.
  destruct (Z.eqb_spec (v / 10) 0) as [E|E].
  - exists [digit_char (v mod 10)]. split_and!; [done| |done| |].
    + constructor; [by apply is_digit_digit|done].
    + unfold digits_value. cbn [fold_left]. rewrite char_code_digit by done. lia.
    + intros Hne [= E0]. apply (digit_char_nonzero (v mod 10)); [lia|done].
  - pose proof (digits_bound v fuel Hv) as Hb.
    destruct fuel as [|f]; [change (10 ^ Z.of_nat 0) with 1 in Hb; lia|].
    destruct (IH (v / 10) (digit_char (v mod 10) :: acc) Hb ltac:(lia)) as (ds & -> & Hd & Hne & Hvd & Hh).
    exists (ds ++ [digit_char (v mod 10)]). rewrite <- app_assoc. split_and!; [done| | | |].
    + apply Forall_app. split; [done|]. constructor; [by apply is_digit_digit|done].
    + by destruct ds.
    + rewrite digits_value_snoc, Hvd, char_code_digit by done. lia.
    + intros _. destruct ds; [done|]. by apply Hh.
Qed.

Lemma for_down_rev (buf : list ascii) n acc : (n <= length buf)%nat →
  for_down n (λ i acc, acc ++ [nth i buf Ascii.zero]) acc = acc ++ rev (take n buf).
Proof.
  revert acc. induction n as [|n IH]; intros acc Hn; cbn [for_down]; [by rewrite app_nil_r|].
  rewrite IH by lia. rewrite (take_S_r buf n (nth n buf Ascii.zero)).
  - by rewrite rev_app_distr, <- app_assoc.
  - rewrite nth_lookup. destruct (lookup_lt_is_Some_2 buf n ltac:(lia)) as [c ->]. done.
Qed.

Lemma display_numeral x : wf x → (num_limbs x <= 12)%nat →
  ∃ s, eshkol_bignum_display (Some x) = Some s ∧ numeral s (bval x).
Proof.
  intros Hx Hn. pose proof (is_zero_denotes (Some x) (bval x)) as Hz. unfold eshkol_bignum_display.
  rewrite Hz by (by exists x). destruct (Z.eqb_spec (bval x) 0) as [E|E].
  - exists ["0"%char]. split; [done|]. exists ["0"%char]. rewrite E. split_and!; try done. by constructor.
  - assert (Em : mag x ≠ 0) by (by rewrite <- bval_zero). pose proof (wf_bound x Hx) as Hb.
    rewrite sign_denotes by done. destruct (Nat.eqb_spec (num_limbs x) 1) as [E1|E1].
    + rewrite <- mag_one by done. rewrite E1, pw_1 in Hb. pose proof (pow10_limb 1).
      destruct (print_llu_spec 20 (mag x) []) as (ds & -> & Hd & Hne & Hv & Hh); [unfold B in *; lia|lia|].
      rewrite app_nil_r. eexists; split; [done|]. exists ds. rewrite <- (mag_abs x Hx).
      split_and!; [done|done|done|done|]. by intros ?%Hh.
    + destruct (Nat.leb_spec (max_digits x) 256); [|unfold max_digits in *; lia].
      pose proof (pow10_limb (num_limbs x)).
      destruct (display_digits_spec 256 (limbs x) (num_limbs x) (replicate 256 Ascii.zero) 0 (num_limbs x * 20))
        as (ds & -> & Hl & Hd & Hv & Hh);
        [apply Hx|done|unfold num_limbs; rewrite firstn_all; fold (mag x) (num_limbs x); lia|lia
        |rewrite length_replicate; lia|].
      cbn [mbind option_bind]. eexists. split; [done|]. exists ds. rewrite <- (mag_abs x Hx).
      unfold num_limbs in Hv. rewrite firstn_all in Hv.
      split_and!; [|done| |done|done].
      * rewrite for_down_rev by (rewrite !length_app, length_rev; lia).
        rewrite take_0. cbn [List.app]. rewrite take_app_length' by (by rewrite length_rev). by rewrite rev_involutive.
      * intros ->. by apply Em.
Qed.
