(* ===== verification/Rational.v ===== *)
(** * Rational: exact rationals (lib/core/rational.cpp)

    Two representations: a reduced [int64] pair, or, when the reduced pair does
    not fit, two bignums.  The [int64] path computes in [__int128] and falls
    back to the bignum path when the reduced result leaves [int64]; the bignum
    calls can raise, so every operation built on them returns an [outcome]. *)

From S2P Require Export BignumText.
Local Open Scope Z_scope.

Record rational := Rational {
  numerator : Z;
  denominator : Z;
  is_big : bool;
  big_num : option bignum;
  big_den : option bignum
}.

#[export] Instance rational_eq_dec : EqDecision rational.
Proof. solve_decision. Defined.

(** ** Helpers *)

Definition bn_equals_i64 (a : option bignum) (k : Z) : bool :=
  match eshkol_bignum_fits_int64 a with Some v => v =? k | None => false end.

(** [a->sign ? neg(a) : a] *)
Definition bn_magnitude (a : option bignum) : option bignum :=
  match a with
  | None => None
  | Some x => if negb (sign x =? 0) then eshkol_bignum_neg a else a
  end.

(** [if (r->sign) r->sign = 0;] *)
Definition clear_sign (a : option bignum) : option bignum :=
  match a with None => None | Some x => Some (Bignum 0 (limbs x)) end.

(** Euclid's loop.  [2 * 64 * limbs + 1] turns are enough: the remainder halves
    every second turn. *)
Fixpoint bn_gcd_loop (fuel : nat) (x y : option bignum) : outcome (option bignum) :=
  match fuel with
  | O => Ret x
  | S fuel' =>
      if eshkol_bignum_is_zero y then Ret x
      else
        r ← eshkol_bignum_mod x y;
        match r with
        | None => Ret x
        | Some _ => bn_gcd_loop fuel' y (clear_sign r)
        end
  end.

Definition bn_gcd_fuel (b : option bignum) : nat :=
  match b with None => 0 | Some y => S (128 * num_limbs y) end.

Definition bn_gcd (a b : option bignum) : outcome (option bignum) :=
  let x := bn_magnitude a in
  let y := bn_magnitude b in
  g ← bn_gcd_loop (bn_gcd_fuel y) x y;
  Ret (clear_sign g).

Definition rational_alloc_small (num denom : Z) : rational := Rational num denom false None None.

Definition rat_num_bn (r : rational) : option bignum :=
  if is_big r then big_num r else eshkol_bignum_from_int64 (numerator r).
Definition rat_den_bn (r : rational) : option bignum :=
  if is_big r then big_den r else eshkol_bignum_from_int64 (denominator r).

(** [while (b != 0) { t = b; b = a % b; a = t; }] *)
Fixpoint euclid (fuel : nat) (a b : Z) : Z :=
  match fuel with
  | O => a
  | S fuel' => if b =? 0 then a else euclid fuel' b (Z.rem a b)
  end.

Definition gcd (a b : Z) : Z :=
  let a := if a <? 0 then i64 (- a) else a in
  let b := if b <? 0 then i64 (- b) else b in
  if a =? 0 then b else if b =? 0 then a else euclid 129 a b.

Definition gcd128 (a b : Z) : Z :=
  let a := if a <? 0 then i128 (- a) else a in
  let b := if b <? 0 then i128 (- b) else b in
  euclid 257 a b.

Definition fits_int64 (v : Z) : bool := (INT64_MIN <=? v) && (v <=? INT64_MAX).

Definition rational_create_safe (num denom : Z) : option rational :=
  let '(num, denom) := if denom =? 0 then (0, 1) else (num, denom) in
  let '(num, denom) := if denom <? 0 then (i128 (- num), i128 (- denom)) else (num, denom) in
  let g := gcd128 num denom in
  let '(num, denom) := if 1 <? g then (Z.quot num g, Z.quot denom g) else (num, denom) in
  if negb (fits_int64 num) || negb (fits_int64 denom) then None
  else Some (rational_alloc_small num denom).

Definition eshkol_rational_create_bn (num denom : option bignum) : outcome rational :=
  match num, denom with
  | Some _, Some d =>
      if eshkol_bignum_is_zero denom then Ret (rational_alloc_small 0 1)
      else
        let '(num, denom) :=
          if negb (sign d =? 0) then (eshkol_bignum_neg num, eshkol_bignum_neg denom)
          else (num, denom) in
        g ← bn_gcd num denom;
        '(num, denom) ←
          (if bool_decide (is_Some g) && negb (bn_equals_i64 g 1) && negb (eshkol_bignum_is_zero g)
           then num ← eshkol_bignum_div num g; denom ← eshkol_bignum_div denom g; Ret (num, denom)
           else Ret (num, denom));
        match eshkol_bignum_fits_int64 num, eshkol_bignum_fits_int64 denom with
        | Some ni, Some di => Ret (rational_alloc_small ni di)
        | _, _ => Ret (Rational 0 1 true num denom)
        end
  | _, _ => Ret (rational_alloc_small 0 1)
  end.

Definition eshkol_rational_create (num denom : Z) : outcome rational :=
  let '(num, denom) := if denom =? 0 then (0, 1) else (num, denom) in
  if (denom =? INT64_MIN) || (num =? INT64_MIN) then
    let bn := eshkol_bignum_from_int64 num in
    let bd := eshkol_bignum_from_int64 denom in
    eshkol_rational_create_bn bn bd
  else
    let '(num, denom) := if denom <? 0 then (i64 (- num), i64 (- denom)) else (num, denom) in
    let g := gcd num denom in
    let '(num, denom) := if 1 <? g then (Z.quot num g, Z.quot denom g) else (num, denom) in
    Ret (rational_alloc_small num denom).

(** ** Arithmetic *)

Definition rat_add_sub_big (ra rb : rational) (subtract : bool) : outcome rational :=
  let an := rat_num_bn ra in
  let ad := rat_den_bn ra in
  let bn := rat_num_bn rb in
  let bd := rat_den_bn rb in
  let left := eshkol_bignum_mul an bd in
  let right := eshkol_bignum_mul bn ad in
  let num := if subtract then eshkol_bignum_sub left right else eshkol_bignum_add left right in
  let den := eshkol_bignum_mul ad bd in
  eshkol_rational_create_bn num den.

Definition rat_mul_big (ra rb : rational) : outcome rational :=
  let num := eshkol_bignum_mul (rat_num_bn ra) (rat_num_bn rb) in
  let den := eshkol_bignum_mul (rat_den_bn ra) (rat_den_bn rb) in
  eshkol_rational_create_bn num den.

Definition rat_div_big (ra rb : rational) : outcome rational :=
  let num := eshkol_bignum_mul (rat_num_bn ra) (rat_den_bn rb) in
  let den := eshkol_bignum_mul (rat_den_bn ra) (rat_num_bn rb) in
  eshkol_rational_create_bn num den.

(** [void* r = rational_create_safe(...); if (r) return r;] then the exact path. *)
Definition or_exact (r : option rational) (exact : outcome rational) : outcome rational :=
  match r with Some r => Ret r | None => exact end.

Definition eshkol_rational_add (a b : rational) : outcome rational :=
  if negb (is_big a) && negb (is_big b) then
    let num := i128 (i128 (numerator a * denominator b) + i128 (numerator b * denominator a)) in
    let denom := i128 (denominator a * denominator b) in
    or_exact (rational_create_safe num denom) (rat_add_sub_big a b false)
  else rat_add_sub_big a b false.

Definition eshkol_rational_sub (a b : rational) : outcome rational :=
  if negb (is_big a) && negb (is_big b) then
    let num := i128 (i128 (numerator a * denominator b) - i128 (numerator b * denominator a)) in
    let denom := i128 (denominator a * denominator b) in
    or_exact (rational_create_safe num denom) (rat_add_sub_big a b true)
  else rat_add_sub_big a b true.

Definition eshkol_rational_mul (a b : rational) : outcome rational :=
  if negb (is_big a) && negb (is_big b) then
    let num := i128 (numerator a * numerator b) in
    let denom := i128 (denominator a * denominator b) in
    or_exact (rational_create_safe num denom) (rat_mul_big a b)
  else rat_mul_big a b.

Definition eshkol_rational_div (a b : rational) : outcome rational :=
  let b_zero := if is_big b then eshkol_bignum_is_zero (big_num b) else numerator b =? 0 in
  if b_zero then Raised DivideByZero
  else if negb (is_big a) && negb (is_big b) then
    let num := i128 (numerator a * denominator b) in
    let denom := i128 (denominator a * numerator b) in
    or_exact (rational_create_safe num denom) (rat_div_big a b)
  else rat_div_big a b.

Definition eshkol_rational_compare (a b : rational) : Z :=
  if negb (is_big a) && negb (is_big b) then
    let lhs := i128 (numerator a * denominator b) in
    let rhs := i128 (numerator b * denominator a) in
    if lhs <? rhs then -1 else if rhs <? lhs then 1 else 0
  else
    let lhs := eshkol_bignum_mul (rat_num_bn a) (rat_den_bn b) in
    let rhs := eshkol_bignum_mul (rat_num_bn b) (rat_den_bn a) in
    eshkol_bignum_compare lhs rhs.

Definition eshkol_rational_equal (a b : rational) : bool :=
  if negb (is_big a) && negb (is_big b)
  then (numerator a =? numerator b) && (denominator a =? denominator b)
  else if negb (Bool.eqb (is_big a) (is_big b)) then false
  else (eshkol_bignum_compare (big_num a) (big_num b) =? 0)
       && (eshkol_bignum_compare (big_den a) (big_den b) =? 0).

Definition eshkol_rational_is_integer (r : rational) : bool :=
  if is_big r then bn_equals_i64 (big_den r) 1 else denominator r =? 1.

(** ** Rounding to integers *)

Definition eshkol_rational_floor (r : rational) : Z :=
  let n := numerator r in let d := denominator r in
  if (0 <=? n) || (Z.rem n d =? 0) then Z.quot n d else Z.quot n d - 1.

Definition eshkol_rational_ceil (r : rational) : Z :=
  let n := numerator r in let d := denominator r in
  if (n <=? 0) || (Z.rem n d =? 0) then Z.quot n d else Z.quot n d + 1.

Definition eshkol_rational_truncate (r : rational) : Z := Z.quot (numerator r) (denominator r).

(** [2 * rem] is computed in [int64_t]. *)
Definition eshkol_rational_round (r : rational) : Z :=
  let n := numerator r in let d := denominator r in
  let q := Z.quot n d in
  let rem := Z.rem n d in
  let rem := if rem <? 0 then - rem else rem in
  let twice_rem := i64 (2 * rem) in
  if d <? twice_rem then (if 0 <=? n then q + 1 else q - 1)
  else if twice_rem =? d then
    if negb (Z.rem q 2 =? 0) then (if 0 <=? n then q + 1 else q - 1) else q
  else q.

Definition rat_trunc_bn (r : rational) : outcome (option bignum) :=
  eshkol_bignum_div (rat_num_bn r) (rat_den_bn r).

Definition rat_floor_bn (r : rational) : outcome (option bignum) :=
  let n := rat_num_bn r in
  let d := rat_den_bn r in
  q ← eshkol_bignum_div n d;
  rem ← eshkol_bignum_mod n d;
  Ret (if eshkol_bignum_is_negative n && negb (eshkol_bignum_is_zero rem)
       then eshkol_bignum_sub q (eshkol_bignum_from_int64 1) else q).

Definition rat_ceil_bn (r : rational) : outcome (option bignum) :=
  let n := rat_num_bn r in
  let d := rat_den_bn r in
  q ← eshkol_bignum_div n d;
  rem ← eshkol_bignum_mod n d;
  Ret (if negb (eshkol_bignum_is_negative n) && negb (eshkol_bignum_is_zero rem)
       then eshkol_bignum_add q (eshkol_bignum_from_int64 1) else q).

Definition rat_round_bn (r : rational) : outcome (option bignum) :=
  let d := rat_den_bn r in
  fl ← rat_floor_bn r;
  let rem := eshkol_bignum_sub (rat_num_bn r) (eshkol_bignum_mul fl d) in
  let twice := eshkol_bignum_mul rem (eshkol_bignum_from_int64 2) in
  let cmp := eshkol_bignum_compare twice d in
  if cmp <? 0 then Ret fl
  else if 0 <? cmp then Ret (eshkol_bignum_add fl (eshkol_bignum_from_int64 1))
  else
    half ← eshkol_bignum_mod fl (eshkol_bignum_from_int64 2);
    if eshkol_bignum_is_zero half then Ret fl
    else Ret (eshkol_bignum_add fl (eshkol_bignum_from_int64 1)).
