(* ===== verification/RationalSpec.v ===== *)
(** * RationalSpec: the rational operations are exact and canonical *)

From Stdlib Require Export QArith_base.
From S2P Require Export Rational.
Local Open Scope Z_scope.

(** ** Greatest common divisors *)

Lemma euclid_gcd k fuel a b : 0 <= a → 0 <= b < 2 ^ Z.of_nat k → (2 * k < fuel)%nat →
  euclid fuel a b = Z.gcd a b.
Proof.
  revert fuel a b. induction k as [|k IH]; intros fuel a b Ha Hb Hf; destruct fuel as [|fuel]; [lia| |lia|];
    cbn [euclid].
  - change (2 ^ Z.of_nat 0) with 1 in Hb. replace b with 0 by lia. simpl. rewrite Z.gcd_0_r. lia.
  - destruct (Z.eqb_spec b 0) as [->|Hb0]; [rewrite Z.gcd_0_r; lia|].
    destruct fuel as [|fuel]; [lia|]. cbn [euclid].
    rewrite (Z.gcd_comm a b), <- (Z.gcd_rem a b), (Z.gcd_comm _ b) by done.
    pose proof (Z.rem_bound_pos a b ltac:(lia) ltac:(lia)) as Hr. set (r := Z.rem a b) in *.
    destruct (Z.eqb_spec r 0) as [->|Hr0]; [rewrite Z.gcd_0_r; lia|].
    rewrite (Z.gcd_comm b r), <- (Z.gcd_rem b r), (Z.gcd_comm _ r) by done.
    pose proof (Z.rem_bound_pos b r ltac:(lia) ltac:(lia)) as Hr2.
    rewrite Nat2Z.inj_succ, Z.pow_succ_r in Hb by lia.
    apply IH; [lia| |lia]. split; [lia|].
    rewrite Z.rem_mod_nonneg in * by lia. pose proof (Z.div_mod b r ltac:(lia)).
    assert (1 <= b / r) by (apply Z.div_le_lower_bound; lia). nia.
Qed.

Lemma magnitude_denotes a za : a ⇓ za → bn_magnitude a ⇓ Z.abs za.
Proof.
  intros Ha. pose proof (neg_denotes _ _ Ha) as Hn. destruct Ha as (x & -> & Hx & <-).
  unfold bn_magnitude. rewrite sign_denotes by done. destruct (Z.ltb_spec (bval x) 0).
  - eapply denotes_eq; [exact Hn|lia].
  - exists x. split_and!; [done|done|lia].
Qed.

Lemma clear_sign_denotes a za : a ⇓ za → clear_sign a ⇓ Z.abs za.
Proof.
  intros (x & -> & Hx & <-). destruct (abs_wf x Hx) as [Hw Hm].
  exists (Bignum 0 (limbs x)). split_and!; [done|done|]. rewrite <- (mag_abs x Hx), <- Hm.
  unfold bval. cbn [sign Z.eqb]. lia.
Qed.

(** The bignum loop runs Euclid's algorithm on the numbers denoted. *)
Lemma bn_gcd_loop_returns fuel x y zx zy : x ⇓ zx → y ⇓ zy → 0 <= zx → 0 <= zy →
  bn_gcd_loop fuel x y ⇓ᵣ euclid fuel zx zy.
Proof.
  revert x y zx zy. induction fuel as [|fuel IH]; intros x y zx zy Hx Hy Px Py; cbn [bn_gcd_loop euclid].
  - by exists x.
  - rewrite (is_zero_denotes _ _ Hy). destruct (Z.eqb_spec zy 0); [by exists x|].
    destruct (mod_returns _ _ _ _ Hx Hy ltac:(done)) as (r & -> & Hr). cbn [mbind outcome_bind].
    pose proof (Z.rem_bound_pos zx zy Px ltac:(lia)).
    pose proof (clear_sign_denotes _ _ Hr) as Hc. rewrite Z.abs_eq in Hc by lia.
    destruct Hr as (r0 & -> & _). apply IH; [done|done|lia|lia].
Qed.

Lemma bn_gcd_returns a b za zb : a ⇓ za → b ⇓ zb → bn_gcd a b ⇓ᵣ Z.gcd za zb.
Proof.
  intros Ha Hb. apply magnitude_denotes in Ha, Hb. unfold bn_gcd.
  destruct (bn_gcd_loop_returns (bn_gcd_fuel (bn_magnitude b)) _ _ _ _ Ha Hb ltac:(lia) ltac:(lia))
    as (g & -> & Hg). cbn [mbind outcome_bind]. eexists. split; [reflexivity|].
  eapply denotes_eq; [apply clear_sign_denotes, Hg|].
  destruct Hb as (y & -> & Hy & Ey). cbn [bn_gcd_fuel].
  pose proof (wf_bound y Hy) as Hw. rewrite mag_abs, Ey, Z.abs_idemp in Hw by done.
  rewrite (euclid_gcd (64 * num_limbs y)); [|lia| |lia].
  - rewrite Z.gcd_abs_l, Z.gcd_abs_r. apply Z.abs_eq, Z.gcd_nonneg.
  - unfold pw, B in Hw. rewrite <- Z.pow_mul_r in Hw by lia.
    replace (Z.of_nat (64 * num_limbs y)) with (64 * Z.of_nat (num_limbs y)) by lia. done.
Qed.

Lemma gcd_spec a b : - 2 ^ 63 < a < 2 ^ 63 → - 2 ^ 63 < b < 2 ^ 63 → gcd a b = Z.gcd a b.
Proof.
  intros Ha Hb. unfold gcd.
  assert (Habs : ∀ x, - 2 ^ 63 < x < 2 ^ 63 → (if x <? 0 then i64 (- x) else x) = Z.abs x).
  { intros x Hx. destruct (Z.ltb_spec x 0); [rewrite i64_id by (unfold is_i64; lia)|]; lia. }
  rewrite !Habs by done. rewrite <- (Z.gcd_abs_l a), <- (Z.gcd_abs_r _ b).
  destruct (Z.eqb_spec (Z.abs a) 0) as [E|]; [rewrite E; symmetry; apply Z.gcd_0_l_nonneg; lia|].
  destruct (Z.eqb_spec (Z.abs b) 0) as [E|]; [rewrite E; symmetry; apply Z.gcd_0_r_nonneg; lia|].
  apply (euclid_gcd 64); [lia| |lia]. change (Z.of_nat 64) with 64. lia.
Qed.

Lemma gcd128_spec a b : - 2 ^ 127 < a < 2 ^ 127 → - 2 ^ 127 < b < 2 ^ 127 → gcd128 a b = Z.gcd a b.
Proof.
  intros Ha Hb. unfold gcd128.
  assert (Habs : ∀ x, - 2 ^ 127 < x < 2 ^ 127 → (if x <? 0 then i128 (- x) else x) = Z.abs x).
  { intros x Hx. destruct (Z.ltb_spec x 0); [rewrite i128_id by (unfold is_i128; lia)|]; lia. }
  rewrite !Habs by done. rewrite <- (Z.gcd_abs_l a), <- (Z.gcd_abs_r _ b).
  apply (euclid_gcd 128); [lia| |lia]. change (Z.of_nat 128) with 128. lia.
Qed.

(** Dividing by the gcd leaves a reduced pair with the same value. *)
Lemma reduce_pair n d : 0 < d →
  let g := Z.gcd n d in
  0 < g ∧ Z.gcd (Z.quot n g) (Z.quot d g) = 1 ∧ 0 < Z.quot d g ∧ Z.quot n g * d = n * Z.quot d g.
Proof.
  intros Hd g. pose proof (Z.gcd_nonneg n d). assert (g ≠ 0) by (intros E; apply Z.gcd_eq_0_r in E; lia).
  destruct (Z.gcd_divide_l n d) as [n' En]. destruct (Z.gcd_divide_r n d) as [d' Ed]. fold g in En, Ed.
  assert (Z.quot n g = n') as -> by (rewrite En; apply Z.quot_mul; done).
  assert (Z.quot d g = d') as -> by (rewrite Ed; apply Z.quot_mul; done).
  split_and!; [lia| |nia|nia].
  pose proof (Z.gcd_div_gcd n d g ltac:(done) eq_refl) as E.
  rewrite En, Ed, !Z.div_mul in E by done. done.
Qed.

(** ** The numbers a rational stands for *)

Definition big_val (o : option bignum) : Z := match o with Some b => bval b | None => 0 end.
Definition rnum (r : rational) : Z := if is_big r then big_val (big_num r) else numerator r.
Definition rden (r : rational) : Z := if is_big r then big_val (big_den r) else denominator r.

Definition rval (r : rational) : Q := Qmake (rnum r) (Z.to_pos (rden r)).

(** The invariant of rational.h: reduced, positive denominator, and the [int64]
    form whenever it fits. *)
Record canonical (r : rational) : Prop := {
  can_den : 0 < rden r;
  can_gcd : Z.gcd (rnum r) (rden r) = 1;
  can_small : is_big r = false →
    is_i64 (numerator r) ∧ is_i64 (denominator r) ∧ big_num r = None ∧ big_den r = None;
  can_big : is_big r = true →
    numerator r = 0 ∧ denominator r = 1 ∧ big_num r ⇓ rnum r ∧ big_den r ⇓ rden r ∧
    ¬ (is_i64 (rnum r) ∧ is_i64 (rden r))
}.

(** [o] returns the canonical rational equal to [n / d]. *)
Definition quotient_of (o : outcome rational) (n d : Z) : Prop :=
  ∃ r, o = Ret r ∧ canonical r ∧ rnum r * d = n * rden r.

Lemma rval_cross r n d : canonical r → 0 < d → rnum r * d = n * rden r → (rval r == n # Z.to_pos d)%Q.
Proof.
  intros Hc Hd E. unfold Qeq, rval. cbn [Qnum Qden]. rewrite !Z2Pos.id; [done|apply Hc|done].
Qed.

Lemma big_val_denotes o z : o ⇓ z → big_val o = z.
Proof. by intros (b & -> & _ & <-). Qed.

(** A reduced pair is determined by its ratio, so canonical rationals with the
    same value are the same structure. *)
Lemma reduced_inj n d n' d' : 0 < d → 0 < d' → Z.gcd n d = 1 → Z.gcd n' d' = 1 →
  n * d' = n' * d → n = n' ∧ d = d'.
Proof.
  intros Hd Hd' Hg Hg' E.
  assert (d = d') as ->.
  { apply Z.divide_antisym_nonneg; [lia|lia| |].
    - apply Z.gauss with n; [exists n'; lia|by rewrite Z.gcd_comm].
    - apply Z.gauss with n'; [exists n; lia|by rewrite Z.gcd_comm]. }
  split; [|done]. apply Z.mul_reg_r with d'; lia.
Qed.

Lemma denotes_inj o o' z : o ⇓ z → o' ⇓ z → o = o'.
Proof. intros (x & -> & Hx & <-) (y & -> & Hy & E). f_equal. by apply bval_inj. Qed.

Lemma canonical_inj r s : canonical r → canonical s → rnum r * rden s = rnum s * rden r → r = s.
Proof.
  intros Hr Hs E. destruct (reduced_inj (rnum r) (rden r) (rnum s) (rden s)) as [En Ed];
    [apply Hr|apply Hs|apply Hr|apply Hs|done|].
  destruct r as [n d bg bn bd] eqn:Er, s as [n' d' bg' bn' bd'] eqn:Es.
  rewrite <- Er, <- Es in *. pose proof (can_small r Hr) as Sr. pose proof (can_small s Hs) as Ss.
  pose proof (can_big r Hr) as Br. pose proof (can_big s Hs) as Bs.
  destruct bg, bg'; rewrite Er, Es in *; cbn [is_big numerator denominator big_num big_den] in *.
  - destruct (Br eq_refl) as (-> & -> & H1 & H2 & _), (Bs eq_refl) as (-> & -> & H3 & H4 & _).
    rewrite En in H1. rewrite Ed in H2. f_equal; by eapply denotes_inj.
  - destruct (Br eq_refl) as (_ & _ & _ & _ & []). destruct (Ss eq_refl) as (? & ? & _). by rewrite En, Ed.
  - destruct (Bs eq_refl) as (_ & _ & _ & _ & []). destruct (Sr eq_refl) as (? & ? & _). by rewrite <- En, <- Ed.
  - destruct (Sr eq_refl) as (_ & _ & -> & ->), (Ss eq_refl) as (_ & _ & -> & ->).
    cbn [rnum rden is_big numerator denominator] in *. by f_equal.
Qed.

Lemma small_canonical n d : 0 < d → Z.gcd n d = 1 → is_i64 n → is_i64 d →
  canonical (rational_alloc_small n d).
Proof. intros. split; cbn; auto; done. Qed.

Lemma rat_num_denotes r : canonical r → rat_num_bn r ⇓ rnum r.
Proof.
  intros Hr. unfold rat_num_bn. destruct (is_big r) eqn:E; [by apply can_big|].
  unfold rnum. rewrite E. apply from_int64_denotes. by apply can_small.
Qed.

Lemma rat_den_denotes r : canonical r → rat_den_bn r ⇓ rden r.
Proof.
  intros Hr. unfold rat_den_bn. destruct (is_big r) eqn:E; [by apply can_big|].
  unfold rden. rewrite E. apply from_int64_denotes. by apply can_small.
Qed.

#[export] Hint Resolve rat_num_denotes rat_den_denotes : bignum.
Create HintDb rational.
#[export] Hint Resolve can_den : rational.

(** ** Constructors *)

Lemma bn_equals_i64_denotes a z k : a ⇓ z → is_i64 k → bn_equals_i64 a k = (z =? k).
Proof.
  intros Ha Hk. unfold bn_equals_i64. rewrite (fits_int64_denotes _ _ Ha).
  destruct (decide (is_i64 z)); [done|]. destruct (Z.eqb_spec z k); [subst; done|done].
Qed.

(** The last step of [eshkol_rational_create_bn]: demote or keep the bignums. *)
Lemma demote_canonical num denom n d : num ⇓ n → denom ⇓ d → 0 < d → Z.gcd n d = 1 →
  quotient_of (match eshkol_bignum_fits_int64 num, eshkol_bignum_fits_int64 denom with
        | Some ni, Some di => Ret (rational_alloc_small ni di)
        | _, _ => Ret (Rational 0 1 true num denom)
        end) n d.
Proof.
  intros Hn Hd Hpos Hg. rewrite (fits_int64_denotes _ _ Hn), (fits_int64_denotes _ _ Hd).
  assert (Hbig : ¬ (is_i64 n ∧ is_i64 d) → quotient_of (Ret (Rational 0 1 true num denom)) n d).
  { intros Hnot. eexists. split; [reflexivity|]. pose proof (big_val_denotes _ _ Hn) as En.
    pose proof (big_val_denotes _ _ Hd) as Ed.
    split; [|unfold rnum, rden; cbn; rewrite En, Ed; lia].
    split; unfold rnum, rden; cbn; rewrite ?En, ?Ed; try done. }
  destruct (decide (is_i64 n)), (decide (is_i64 d)); try (apply Hbig; tauto).
  eexists. split; [reflexivity|]. split; [by apply small_canonical|done].
Qed.

Lemma reduce_bn num denom n d : num ⇓ n → denom ⇓ d → 0 < d →
  quotient_of (g ← bn_gcd num denom;
        '(num, denom) ←
          (if bool_decide (is_Some g) && negb (bn_equals_i64 g 1) && negb (eshkol_bignum_is_zero g)
           then num ← eshkol_bignum_div num g; denom ← eshkol_bignum_div denom g; Ret (num, denom)
           else Ret (num, denom));
        match eshkol_bignum_fits_int64 num, eshkol_bignum_fits_int64 denom with
        | Some ni, Some di => Ret (rational_alloc_small ni di)
        | _, _ => Ret (Rational 0 1 true num denom)
        end) n d.
Proof.
  intros Hn Hd Hpos. destruct (bn_gcd_returns _ _ _ _ Hn Hd) as (g & -> & Hg). cbn [mbind outcome_bind].
  destruct (reduce_pair n d Hpos) as (Hgp & Hg1 & Hdp & Ecross). set (z := Z.gcd n d) in *.
  rewrite (bn_equals_i64_denotes _ _ 1 Hg ltac:(clear; unfold is_i64; lia)), (is_zero_denotes _ _ Hg).
  rewrite bool_decide_eq_true_2 by (destruct Hg as (? & -> & _); by eexists).
  destruct (Z.eqb_spec z 0); [lia|]. destruct (Z.eqb_spec z 1) as [E1|]; cbn [negb andb].
  - apply demote_canonical; [done..|]. exact E1.
  - destruct (div_returns _ _ _ _ Hn Hg ltac:(lia)) as (n' & -> & Hn').
    destruct (div_returns _ _ _ _ Hd Hg ltac:(lia)) as (d' & -> & Hd'). cbn [mbind outcome_bind].
    destruct (demote_canonical _ _ _ _ Hn' Hd' Hdp Hg1) as (r & -> & Hr & Er).
    eexists. split; [reflexivity|]. split; [done|]. clear - Er Ecross Hdp Hpos.
    apply Z.mul_reg_r with (Z.quot d z); [lia|].
    transitivity (rnum r * Z.quot d z * d); [ring|]. rewrite Er.
    transitivity (Z.quot n z * d * rden r); [ring|]. rewrite Ecross. ring.
Qed.

Lemma create_bn_quotient num denom n d : num ⇓ n → denom ⇓ d → d ≠ 0 →
  quotient_of (eshkol_rational_create_bn num denom) n d.
Proof.
  intros Hn Hd Hne. pose proof (neg_denotes _ _ Hn) as Hn'. pose proof (neg_denotes _ _ Hd) as Hd'.
  pose proof (is_zero_denotes _ _ Hd) as Hz. pose proof Hn as (x & -> & _ & _).
  pose proof Hd as (y & -> & Hy & Ey). unfold eshkol_rational_create_bn.
  rewrite Hz. destruct (Z.eqb_spec d 0); [done|].
  rewrite sign_denotes, Ey by done. destruct (Z.ltb_spec d 0).
  - destruct (reduce_bn _ _ _ _ Hn' Hd' ltac:(lia)) as (r & Er & Hr & E). exists r. split_and!; [exact Er|done|lia].
  - apply reduce_bn; [done..|lia].
Qed.

Lemma create_bn_zero num denom n : num ⇓ n → denom ⇓ 0 →
  eshkol_rational_create_bn num denom = Ret (rational_alloc_small 0 1).
Proof.
  intros (x & -> & _) Hd. pose proof (is_zero_denotes _ _ Hd) as Hz. destruct Hd as (y & -> & _).
  unfold eshkol_rational_create_bn. by rewrite Hz.
Qed.

Lemma i64_gcd_reduced n d : is_i64 n → is_i64 d → 0 < d →
  let g := Z.gcd n d in is_i64 (Z.quot n g) ∧ is_i64 (Z.quot d g).
Proof.
  intros Hn Hd Hpos g. destruct (reduce_pair n d Hpos) as (Hg & _). fold g in Hg.
  assert (Hb : ∀ x, Z.abs (Z.quot x g) <= Z.abs x).
  { intros x. rewrite <- Z.quot_abs by lia. rewrite Z.quot_div_nonneg by lia.
    apply Z.div_le_upper_bound; nia. }
  pose proof (Hb n). pose proof (Hb d). unfold is_i64 in *. pose proof (Z.quot_pos d g ltac:(lia) Hg).
  assert (Z.quot n g = - 2 ^ 63 ∨ Z.quot n g <= Z.abs n) by lia.
  destruct (Z.leb_spec 0 n); [pose proof (Z.quot_pos n g ltac:(lia) Hg); lia|].
  assert (Z.quot n g <= 0) by (rewrite <- (Z.opp_involutive n), Z.quot_opp_l by lia;
    pose proof (Z.quot_pos (- n) g ltac:(lia) Hg); lia). lia.
Qed.

Lemma create_quotient num denom : is_i64 num → is_i64 denom → denom ≠ 0 →
  quotient_of (eshkol_rational_create num denom) num denom.
Proof.
  intros Hn Hd Hne. unfold eshkol_rational_create. destruct (Z.eqb_spec denom 0); [done|].
  unfold INT64_MIN. destruct (_ || _) eqn:E.
  - apply create_bn_quotient; [by apply from_int64_denotes|by apply from_int64_denotes|done].
  - apply orb_false_elim in E as [?%Z.eqb_neq ?%Z.eqb_neq]. unfold is_i64 in Hn, Hd.
    assert (∃ n d, (if denom <? 0 then (i64 (- num), i64 (- denom)) else (num, denom)) = (n, d)
      ∧ is_i64 n ∧ is_i64 d ∧ - 2 ^ 63 < n ∧ 0 < d ∧ n * denom = num * d) as (a & d & -> & Ha & Hd' & Hlo & Hpos & Ec).
    { destruct (Z.ltb_spec denom 0).
      - rewrite !i64_id by (unfold is_i64; lia). eexists _, _. split; [reflexivity|]. unfold is_i64. lia.
      - eexists _, _. split; [reflexivity|]. unfold is_i64. lia. }
    rewrite gcd_spec by (unfold is_i64 in *; lia).
    destruct (reduce_pair a d Hpos) as (Hg & Hg1 & Hdp & Ecross).
    destruct (i64_gcd_reduced a d Ha Hd' Hpos) as [Ia Id]. set (g := Z.gcd a d) in *.
    destruct (Z.ltb_spec 1 g).
    + eexists. split; [reflexivity|]. split; [by apply small_canonical|]. unfold rnum, rden. cbn.
      apply Z.mul_reg_r with d; [lia|]. transitivity (Z.quot a g * d * denom); [ring|].
      rewrite Ecross. transitivity (a * denom * Z.quot d g); [ring|]. rewrite Ec. ring.
    + eexists. split; [reflexivity|]. split; [apply small_canonical; [done|lia|done|done]|]. exact Ec.
Qed.

Lemma fits_int64_spec v : fits_int64 v = true ↔ is_i64 v.
Proof.
  unfold fits_int64, INT64_MIN, INT64_MAX, is_i64. rewrite andb_true_iff, !Z.leb_le. lia.
Qed.

Definition in_i128 (x : Z) : Prop := - 2 ^ 127 < x < 2 ^ 127.

(** The [int128] fast path: when it answers, the answer is exact. *)
Lemma create_safe_quotient num denom r : in_i128 num → in_i128 denom → denom ≠ 0 →
  rational_create_safe num denom = Some r → canonical r ∧ rnum r * denom = num * rden r.
Proof.
  unfold in_i128. intros Hn Hd Hne. unfold rational_create_safe. destruct (Z.eqb_spec denom 0); [done|].
  assert (∃ n d, (if denom <? 0 then (i128 (- num), i128 (- denom)) else (num, denom)) = (n, d)
      ∧ - 2 ^ 127 < n < 2 ^ 127 ∧ 0 < d < 2 ^ 127 ∧ n * denom = num * d) as (a & d & -> & Ha & Hd' & Ec).
  { destruct (Z.ltb_spec denom 0).
    - rewrite !i128_id by (unfold is_i128; lia). eexists _, _. split; [reflexivity|]. lia.
    - eexists _, _. split; [reflexivity|]. lia. }
  rewrite gcd128_spec by lia. destruct (reduce_pair a d ltac:(lia)) as (Hg & Hg1 & Hdp & Ecross).
  set (g := Z.gcd a d) in *.
  assert (∃ n' d', (if 1 <? g then (Z.quot a g, Z.quot d g) else (a, d)) = (n', d')
      ∧ Z.gcd n' d' = 1 ∧ 0 < d' ∧ n' * d = a * d') as (n' & d' & -> & Hg' & Hp' & E').
  { destruct (Z.ltb_spec 1 g); eexists _, _; (split; [reflexivity|]); [done|].
    split_and!; [fold g; lia|lia|done]. }
  destruct (fits_int64 n') eqn:F1; [|done]. destruct (fits_int64 d') eqn:F2; [|done].
  cbn [negb orb]. intros [= <-]. apply fits_int64_spec in F1, F2.
  split; [by apply small_canonical|]. unfold rnum, rden. cbn.
  apply Z.mul_reg_r with d; [lia|]. transitivity (n' * d * denom); [ring|].
  rewrite E'. transitivity (a * denom * d'); [ring|]. rewrite Ec. ring.
Qed.

Lemma or_exact_quotient num denom exact n d : in_i128 num → in_i128 denom → denom ≠ 0 →
  num = n → denom = d → quotient_of exact n d →
  quotient_of (or_exact (rational_create_safe num denom) exact) n d.
Proof.
  intros Hn Hd Hne <- <- He. unfold or_exact. destruct (rational_create_safe num denom) as [r|] eqn:E; [|done].
  exists r. split; [done|]. by apply create_safe_quotient.
Qed.

(** ** Arithmetic *)

Lemma add_sub_big_quotient a b (s : bool) : canonical a → canonical b →
  quotient_of (rat_add_sub_big a b s)
    (if s then rnum a * rden b - rnum b * rden a else rnum a * rden b + rnum b * rden a) (rden a * rden b).
Proof.
  intros Ha Hb. pose proof (can_den a Ha). pose proof (can_den b Hb). unfold rat_add_sub_big.
  destruct s; (apply create_bn_quotient; [eauto 8 with bignum|eauto with bignum|nia]).
Qed.

(** Products of [int64] values stay inside [__int128]. *)
Lemma i64_mul_bound x y : is_i64 x → is_i64 y → - 2 ^ 126 <= x * y <= 2 ^ 126.
Proof. unfold is_i64. intros. change (2 ^ 126) with (2 ^ 63 * 2 ^ 63). nia. Qed.

Lemma i64_mul_den_bound x y : is_i64 x → is_i64 y → 0 < y → - 2 ^ 126 < x * y < 2 ^ 126.
Proof. unfold is_i64. intros. change (2 ^ 126) with (2 ^ 63 * 2 ^ 63). nia. Qed.

Lemma small_fields r : canonical r → is_big r = false →
  rnum r = numerator r ∧ rden r = denominator r ∧ is_i64 (numerator r) ∧ is_i64 (denominator r) ∧ 0 < denominator r.
Proof.
  intros Hr E. pose proof (can_den r Hr) as Hd. destruct (can_small r Hr E) as (? & ? & _).
  unfold rnum, rden in *. rewrite E in *. done.
Qed.

Lemma big_case (P : outcome rational → Prop) a b (f g : outcome rational) : P g →
  (is_big a = false → is_big b = false → P f) →
  P (if negb (is_big a) && negb (is_big b) then f else g).
Proof. intros Hg Hf. destruct (is_big a), (is_big b); auto. Qed.

Lemma i128_mul x y : is_i64 x → is_i64 y → i128 (x * y) = x * y.
Proof. intros Hx Hy. pose proof (i64_mul_bound x y Hx Hy). apply i128_id. unfold is_i128. lia. Qed.

(** Enter the fast path: both operands are [int64] pairs and no product wraps. *)
Ltac small_operands a b Ha Hb Hx :=
  let Ea := fresh in let Eb := fresh in
  intros Ea Eb; revert Hx;
  destruct (small_fields a Ha Ea) as (-> & -> & ? & ? & ?);
  destruct (small_fields b Hb Eb) as (-> & -> & ? & ? & ?); intros Hx;
  rewrite !i128_mul by done;
  repeat match goal with
  | H1 : is_i64 ?x, H2 : is_i64 ?y, H3 : 0 < ?y |- context [?x * ?y] =>
      lazymatch goal with
      | _ : - 2 ^ 126 < x * y < 2 ^ 126 |- _ => fail
      | _ => pose proof (i64_mul_den_bound x y H1 H2 H3)
      end
  end.

Ltac fast_path Hx := apply or_exact_quotient; [unfold in_i128; lia|unfold in_i128; lia|apply Z.neq_mul_0; split; lia|done|done|exact Hx].

Lemma add_quotient a b : canonical a → canonical b →
  quotient_of (eshkol_rational_add a b) (rnum a * rden b + rnum b * rden a) (rden a * rden b).
Proof.
  intros Ha Hb. pose proof (add_sub_big_quotient a b false Ha Hb) as Hx. cbv iota in Hx.
  unfold eshkol_rational_add. apply big_case; [done|]. small_operands a b Ha Hb Hx.
  rewrite i128_id by (unfold is_i128; lia). fast_path Hx.
Qed.

Lemma sub_quotient a b : canonical a → canonical b →
  quotient_of (eshkol_rational_sub a b) (rnum a * rden b - rnum b * rden a) (rden a * rden b).
Proof.
  intros Ha Hb. pose proof (add_sub_big_quotient a b true Ha Hb) as Hx. cbv iota in Hx.
  unfold eshkol_rational_sub. apply big_case; [done|]. small_operands a b Ha Hb Hx.
  rewrite i128_id by (unfold is_i128; lia). fast_path Hx.
Qed.

Lemma mul_quotient a b : canonical a → canonical b →
  quotient_of (eshkol_rational_mul a b) (rnum a * rnum b) (rden a * rden b).
Proof.
  intros Ha Hb. pose proof (can_den a Ha). pose proof (can_den b Hb).
  assert (Hx : quotient_of (rat_mul_big a b) (rnum a * rnum b) (rden a * rden b)).
  { apply create_bn_quotient; [eauto with bignum|eauto with bignum|nia]. }
  unfold eshkol_rational_mul. apply big_case; [done|]. small_operands a b Ha Hb Hx.
  pose proof (i64_mul_bound (numerator a) (numerator b) ltac:(done) ltac:(done)). fast_path Hx.
Qed.

Lemma rnum_zero_test r : canonical r →
  (if is_big r then eshkol_bignum_is_zero (big_num r) else numerator r =? 0) = (rnum r =? 0).
Proof.
  intros Hr. pose proof (can_big r Hr) as Hb. unfold rnum in *. destruct (is_big r); [|done].
  apply is_zero_denotes. by destruct Hb as (_ & _ & ? & _).
Qed.

Lemma div_quotient a b : canonical a → canonical b → rnum b ≠ 0 →
  quotient_of (eshkol_rational_div a b) (rnum a * rden b) (rden a * rnum b).
Proof.
  intros Ha Hb Hne. pose proof (can_den a Ha). pose proof (can_den b Hb).
  assert (Hx : quotient_of (rat_div_big a b) (rnum a * rden b) (rden a * rnum b)).
  { apply create_bn_quotient; [eauto with bignum|eauto with bignum|nia]. }
  unfold eshkol_rational_div. rewrite rnum_zero_test by done. destruct (Z.eqb_spec (rnum b) 0); [done|].
  apply big_case; [done|].
  pose proof (conj Hx Hne) as Hc. small_operands a b Ha Hb Hc. destruct Hc as [Hc ?].
  pose proof (i64_mul_bound (denominator a) (numerator b) ltac:(done) ltac:(done)). fast_path Hc.
Qed.

Lemma rational_div_by_zero a b : canonical b → rnum b = 0 → eshkol_rational_div a b = Raised DivideByZero.
Proof. intros Hb E. unfold eshkol_rational_div. by rewrite rnum_zero_test, E by done. Qed.

(** ** Comparison *)

Lemma sgn_cases x y : Z.sgn (x - y) = if x <? y then -1 else if y <? x then 1 else 0.
Proof. destruct (Z.ltb_spec x y), (Z.ltb_spec y x); lia. Qed.

Lemma compare_cross a b : canonical a → canonical b →
  eshkol_rational_compare a b = Z.sgn (rnum a * rden b - rnum b * rden a).
Proof.
  intros Ha Hb. unfold eshkol_rational_compare. destruct (is_big a) eqn:Ea.
  1: apply compare_denotes; eauto with bignum. destruct (is_big b) eqn:Eb.
  1: apply compare_denotes; eauto with bignum. cbn [negb andb].
  destruct (small_fields a Ha Ea) as (-> & -> & ? & ? & ?), (small_fields b Hb Eb) as (-> & -> & ? & ? & ?).
  rewrite !i128_mul by done. by rewrite sgn_cases.
Qed.

Lemma denotes_compare_zero o o' z z' : o ⇓ z → o' ⇓ z' → (eshkol_bignum_compare o o' =? 0) = (z =? z').
Proof.
  intros H H'. rewrite (compare_denotes _ _ _ _ H H').
  destruct (Z.eqb_spec (Z.sgn (z - z')) 0), (Z.eqb_spec z z'); lia.
Qed.

Lemma equal_fields a b : canonical a → canonical b →
  eshkol_rational_equal a b = (rnum a =? rnum b) && (rden a =? rden b).
Proof.
  intros Ha Hb. unfold eshkol_rational_equal.
  pose proof (can_small a Ha) as Sa. pose proof (can_small b Hb) as Sb.
  pose proof (can_big a Ha) as Ba. pose proof (can_big b Hb) as Bb. unfold rnum, rden in *.
  destruct (is_big a), (is_big b); cbn [negb andb Bool.eqb].
  - destruct (Ba eq_refl) as (_ & _ & Hn & Hd & _), (Bb eq_refl) as (_ & _ & Hn' & Hd' & _).
    by rewrite (denotes_compare_zero _ _ _ _ Hn Hn'), (denotes_compare_zero _ _ _ _ Hd Hd').
  - destruct (Ba eq_refl) as (_ & _ & _ & _ & Hbig), (Sb eq_refl) as (? & ? & _).
    destruct (Z.eqb_spec (big_val (big_num a)) (numerator b)) as [E1|], (Z.eqb_spec (big_val (big_den a)) (denominator b)) as [E2|];
      try done. rewrite E1, E2 in Hbig. by destruct Hbig.
  - destruct (Bb eq_refl) as (_ & _ & _ & _ & Hbig), (Sa eq_refl) as (? & ? & _).
    destruct (Z.eqb_spec (numerator a) (big_val (big_num b))) as [E1|], (Z.eqb_spec (denominator a) (big_val (big_den b))) as [E2|];
      try done. rewrite <- E1, <- E2 in Hbig. by destruct Hbig.
  - done.
Qed.

Lemma is_integer_den r : canonical r → eshkol_rational_is_integer r = (rden r =? 1).
Proof.
  intros Hr. unfold eshkol_rational_is_integer. destruct (is_big r) eqn:E.
  - apply bn_equals_i64_denotes; [by apply can_big|clear; unfold is_i64; lia].
  - unfold rden. by rewrite E.
Qed.

(** ** Rounding *)

Lemma quot_floor n d : 0 < d →
  n / d = if (0 <=? n) || (Z.rem n d =? 0) then Z.quot n d else Z.quot n d - 1.
Proof.
  intros Hd. pose proof (Z.quot_rem n d ltac:(lia)) as Eq. set (q := Z.quot n d) in *. set (r := Z.rem n d) in *.
  destruct (Z.leb_spec 0 n); cbn [orb].
  - pose proof (Z.rem_bound_pos n d ltac:(lia) Hd). symmetry. apply Z.div_unique with r; lia.
  - pose proof (Z.rem_bound_pos_neg n d Hd ltac:(lia)).
    destruct (Z.eqb_spec r 0); symmetry; [apply Z.div_unique with 0|apply Z.div_unique with (r + d)]; lia.
Qed.

(** The ceiling is [- ((- n) / d)]. *)
Lemma quot_ceil n d : 0 < d →
  - (- n / d) = if (n <=? 0) || (Z.rem n d =? 0) then Z.quot n d else Z.quot n d + 1.
Proof.
  intros Hd. rewrite (quot_floor (- n) d) by done. rewrite Z.quot_opp_l, Z.rem_opp_l by lia.
  generalize (Z.quot n d), (Z.rem n d). intros q r.
  destruct (Z.leb_spec 0 (- n)), (Z.leb_spec n 0); cbn [orb]; try lia.
  destruct (Z.eqb_spec (- r) 0), (Z.eqb_spec r 0); lia.
Qed.

Lemma quot_i64 n d : is_i64 n → 0 < d → is_i64 (Z.quot n d).
Proof.
  unfold is_i64. intros Hn Hd. pose proof (Z.quot_rem n d ltac:(lia)).
  destruct (Z.leb_spec 0 n).
  - pose proof (Z.rem_bound_pos n d ltac:(lia) Hd). nia.
  - pose proof (Z.rem_bound_pos_neg n d Hd ltac:(lia)). nia.
Qed.

(** Round half to even, as a function of numerator and denominator. *)
Definition round_even (n d : Z) : Z :=
  let q := n / d in
  let twice := 2 * (n - q * d) in
  if twice <? d then q else if d <? twice then q + 1 else if Z.even q then q else q + 1.

Lemma trunc_bn_returns r : canonical r → rat_trunc_bn r ⇓ᵣ Z.quot (rnum r) (rden r).
Proof.
  intros Hr. pose proof (can_den r Hr). apply div_returns; [auto with bignum|auto with bignum|lia].
Qed.

Lemma floor_bn_returns r : canonical r → rat_floor_bn r ⇓ᵣ rnum r / rden r.
Proof.
  intros Hr. pose proof (can_den r Hr) as Hd. pose proof (rat_num_denotes r Hr) as Hn. pose proof (rat_den_denotes r Hr) as Hdd.
  unfold rat_floor_bn. destruct (div_returns _ _ _ _ Hn Hdd ltac:(lia)) as (q & -> & Hq).
  destruct (mod_returns _ _ _ _ Hn Hdd ltac:(lia)) as (m & -> & Hm). cbn [mbind outcome_bind].
  rewrite (is_negative_denotes _ _ Hn), (is_zero_denotes _ _ Hm), quot_floor by done. eexists. split; [reflexivity|].
  rewrite Z.ltb_antisym. destruct (0 <=? rnum r), (Z.rem (rnum r) (rden r) =? 0); cbn [negb andb orb]; try exact Hq.
  apply sub_denotes; [done|]. apply from_int64_denotes. clear. unfold is_i64. lia.
Qed.

Lemma ceil_bn_returns r : canonical r → rnum r ≠ 0 → rat_ceil_bn r ⇓ᵣ - (- rnum r / rden r).
Proof.
  intros Hr Hne. pose proof (can_den r Hr) as Hd. pose proof (rat_num_denotes r Hr) as Hn. pose proof (rat_den_denotes r Hr) as Hdd.
  unfold rat_ceil_bn. destruct (div_returns _ _ _ _ Hn Hdd ltac:(lia)) as (q & -> & Hq).
  destruct (mod_returns _ _ _ _ Hn Hdd ltac:(lia)) as (m & -> & Hm). cbn [mbind outcome_bind].
  rewrite (is_negative_denotes _ _ Hn), (is_zero_denotes _ _ Hm), quot_ceil by done. eexists. split; [reflexivity|].
  destruct (Z.ltb_spec (rnum r) 0), (Z.leb_spec (rnum r) 0); try lia;
    destruct (Z.rem (rnum r) (rden r) =? 0); cbn [negb andb orb]; try exact Hq.
  apply add_denotes; [done|]. apply from_int64_denotes. clear. unfold is_i64. lia.
Qed.

Lemma small_literal k : - 4 <= k <= 4 → eshkol_bignum_from_int64 k ⇓ k.
Proof. intros. apply from_int64_denotes. unfold is_i64. lia. Qed.

Lemma rem2_even q : (Z.rem q 2 =? 0) = Z.even q.
Proof.
  rewrite Zeven_mod. destruct (Z.eqb_spec (Z.rem q 2) 0) as [E|E].
  - apply Z.rem_divide in E; [|lia]. apply Z.mod_divide in E; [|lia]. by rewrite E.
  - rewrite Z.rem_divide, <- Z.mod_divide in E by lia. by destruct (Z.eqb_spec (q mod 2) 0).
Qed.

Lemma round_bn_returns r : canonical r → rat_round_bn r ⇓ᵣ round_even (rnum r) (rden r).
Proof.
  intros Hr. pose proof (can_den r Hr) as Hd. pose proof (rat_num_denotes r Hr) as Hn. pose proof (rat_den_denotes r Hr) as Hdd.
  unfold rat_round_bn, round_even. destruct (floor_bn_returns r Hr) as (fl & -> & Hfl). cbn [mbind outcome_bind].
  set (q := rnum r / rden r) in *. pose proof (small_literal 1 ltac:(lia)) as H1. pose proof (small_literal 2 ltac:(lia)) as H2.
  assert (Htw : eshkol_bignum_mul (eshkol_bignum_sub (rat_num_bn r) (eshkol_bignum_mul fl (rat_den_bn r)))
    (eshkol_bignum_from_int64 2) ⇓ (rnum r - q * rden r) * 2) by auto with bignum.
  rewrite (compare_denotes _ _ _ _ Htw Hdd). set (tw := rnum r - q * rden r). pose proof (add_denotes _ _ _ _ Hfl H1) as Hinc.
  destruct (Z.ltb_spec (2 * tw) (rden r)), (Z.ltb_spec (rden r) (2 * tw)),
    (Z.ltb_spec (Z.sgn (tw * 2 - rden r)) 0), (Z.ltb_spec 0 (Z.sgn (tw * 2 - rden r))); try lia; [by exists fl|by eexists|].
  destruct (mod_returns _ _ _ _ Hfl H2 ltac:(lia)) as (h & -> & Hh). cbn [mbind outcome_bind].
  rewrite (is_zero_denotes _ _ Hh), rem2_even. destruct (Z.even q); by eexists.
Qed.

(** The [int64] version, while twice the remainder fits. *)
Lemma round_small r : canonical r → is_big r = false → 2 * (Z.abs (rnum r) mod rden r) < 2 ^ 63 →
  eshkol_rational_round r = round_even (rnum r) (rden r).
Proof.
  intros Hr E Hov. destruct (small_fields r Hr E) as (En & Ed & Hn & Hd & Hpos).
  rewrite En, Ed in *. unfold eshkol_rational_round, round_even. set (n := numerator r) in *. set (d := denominator r) in *.
  rewrite (quot_floor n d) by done. rewrite rem2_even. pose proof (Z.quot_rem n d ltac:(lia)) as Eq.
  assert (Er : (if Z.rem n d <? 0 then - Z.rem n d else Z.rem n d) = Z.abs n mod d).
  { rewrite <- Z.rem_mod_nonneg, Z.rem_abs_l by lia. destruct (Z.ltb_spec (Z.rem n d) 0); lia. }
  pose proof (Z.mod_pos_bound (Z.abs n) d Hpos).
  rewrite Er, i64_id by (unfold is_i64; lia). rewrite <- Er in *.
  set (q := Z.quot n d) in *. set (m := Z.rem n d) in *.
  pose proof (Z.rem_bound_pos n d) as Hp. pose proof (Z.rem_bound_pos_neg n d Hpos) as Hq. fold m in Hp, Hq.
  assert (Hpar : Z.even (q - 1) = negb (Z.even q)) by (replace (q - 1) with (Z.pred q) by lia; by rewrite Z.even_pred, Z.negb_even).
  destruct (Z.leb_spec 0 n); cbn [orb].
  - destruct (Z.ltb_spec m 0); [lia|]. replace (n - q * d) with m by lia.
    destruct (Z.ltb_spec d (2 * m)), (Z.ltb_spec (2 * m) d), (Z.eqb_spec (2 * m) d); try lia. by destruct (Z.even q).
  - destruct (Z.eqb_spec m 0) as [E0|].
    + replace (n - q * d) with 0 by lia. rewrite E0. cbn [Z.ltb Z.compare]. change (2 * 0) with 0.
      destruct (Z.ltb_spec d 0), (Z.ltb_spec 0 d), (Z.eqb_spec 0 d); lia.
    + destruct (Z.ltb_spec m 0); [|lia]. replace (n - (q - 1) * d) with (m + d) by lia. rewrite Hpar.
      destruct (Z.ltb_spec d (2 * - m)), (Z.ltb_spec (2 * (m + d)) d), (Z.eqb_spec (2 * - m) d), (Z.ltb_spec d (2 * (m + d)));
        try lia. destruct (Z.even q); cbn [negb]; lia.
Qed.

(** ** The operations as rational numbers *)

Local Open Scope Q_scope.

Lemma quotient_rval o n d : (0 < d)%Z → quotient_of o n d →
  ∃ r, o = Ret r ∧ canonical r ∧ rval r == n # Z.to_pos d.
Proof. intros Hd (r & -> & Hr & E). exists r. split_and!; [done|done|]. by apply rval_cross. Qed.

Lemma rden_pos r : canonical r → Zpos (Z.to_pos (rden r)) = rden r.
Proof. intros Hr. apply Z2Pos.id, Hr. Qed.

Lemma rden_mul_pos a b : canonical a → canonical b → (0 < rden a * rden b)%Z.
Proof. intros Ha Hb. apply Z.mul_pos_pos; [apply Ha|apply Hb]. Qed.

Lemma add_rval a b : canonical a → canonical b →
  ∃ r, eshkol_rational_add a b = Ret r ∧ canonical r ∧ rval r == rval a + rval b.
Proof.
  intros Ha Hb. pose proof (can_den a Ha). pose proof (can_den b Hb).
  destruct (quotient_rval _ _ _ (rden_mul_pos a b Ha Hb) (add_quotient a b Ha Hb)) as (r & -> & Hr & E).
  exists r. split_and!; [done|done|]. rewrite E. unfold rval, Qplus, Qeq. cbn [Qnum Qden].
  rewrite Pos2Z.inj_mul, !rden_pos, Z2Pos.id by (done || by apply rden_mul_pos). ring.
Qed.

Lemma sub_rval a b : canonical a → canonical b →
  ∃ r, eshkol_rational_sub a b = Ret r ∧ canonical r ∧ rval r == rval a - rval b.
Proof.
  intros Ha Hb. pose proof (can_den a Ha). pose proof (can_den b Hb).
  destruct (quotient_rval _ _ _ (rden_mul_pos a b Ha Hb) (sub_quotient a b Ha Hb)) as (r & -> & Hr & E).
  exists r. split_and!; [done|done|]. rewrite E. unfold rval, Qminus, Qplus, Qopp, Qeq. cbn [Qnum Qden].
  rewrite Pos2Z.inj_mul, !rden_pos, Z2Pos.id by (done || by apply rden_mul_pos). ring.
Qed.

Lemma mul_rval a b : canonical a → canonical b →
  ∃ r, eshkol_rational_mul a b = Ret r ∧ canonical r ∧ rval r == rval a * rval b.
Proof.
  intros Ha Hb. pose proof (can_den a Ha). pose proof (can_den b Hb).
  destruct (quotient_rval _ _ _ (rden_mul_pos a b Ha Hb) (mul_quotient a b Ha Hb)) as (r & -> & Hr & E).
  exists r. split_and!; [done|done|]. rewrite E. unfold rval, Qmult, Qeq. cbn [Qnum Qden].
  rewrite Pos2Z.inj_mul, !rden_pos, Z2Pos.id by (done || by apply rden_mul_pos). ring.
Qed.

Lemma rval_zero r : rval r == 0 ↔ rnum r = 0%Z.
Proof. unfold rval, Qeq. cbn [Qnum Qden]. lia. Qed.

Lemma div_rval a b : canonical a → canonical b → ¬ rval b == 0 →
  ∃ r, eshkol_rational_div a b = Ret r ∧ canonical r ∧ rval r == rval a / rval b.
Proof.
  intros Ha Hb Hne. rewrite rval_zero in Hne.
  destruct (div_quotient a b Ha Hb Hne) as (r & -> & Hr & E).
  exists r. split_and!; [done|done|]. unfold rval, Qdiv, Qmult, Qinv, Qeq. cbn [Qnum Qden].
  destruct (rnum b) as [|n|n] eqn:En; [done| |]; cbn [Qnum Qden];
    rewrite Pos2Z.inj_mul, !rden_pos by done; [exact E|].
  rewrite <- (Pos2Z.opp_pos n) in E. rewrite <- (Pos2Z.opp_pos (Z.to_pos (rden b))), rden_pos by done. lia.
Qed.

Lemma compare_rval a b : canonical a → canonical b →
  eshkol_rational_compare a b = match Qcompare (rval a) (rval b) with Lt => (-1)%Z | Eq => 0%Z | Gt => 1%Z end.
Proof.
  intros Ha Hb. rewrite compare_cross by done. unfold Qcompare, rval. cbn [Qnum Qden].
  rewrite !rden_pos by done. destruct (Z.compare_spec (rnum a * rden b) (rnum b * rden a)); lia.
Qed.

Lemma rval_inj r s : canonical r → canonical s → rval r == rval s → r = s.
Proof.
  intros Hr Hs E. apply canonical_inj; [done|done|]. unfold rval, Qeq in E. cbn [Qnum Qden] in E.
  by rewrite !rden_pos in E.
Qed.

Lemma equal_rval a b : canonical a → canonical b → eshkol_rational_equal a b = true ↔ rval a == rval b.
Proof.
  intros Ha Hb. rewrite equal_fields by done. rewrite andb_true_iff, !Z.eqb_eq. split.
  - intros [E1 E2]. unfold rval. by rewrite E1, E2.
  - intros E. by rewrite (rval_inj a b Ha Hb E).
Qed.

Lemma create_rval n d : is_i64 n → is_i64 d → (d ≠ 0)%Z →
  ∃ r, eshkol_rational_create n d = Ret r ∧ canonical r ∧ rval r == inject_Z n / inject_Z d.
Proof.
  intros Hn Hd Hne. destruct (create_quotient n d Hn Hd Hne) as (r & -> & Hr & E).
  exists r. split_and!; [done|done|]. unfold rval, Qdiv, Qmult, Qinv, Qeq, inject_Z. cbn [Qnum Qden].
  destruct d as [|p|p]; [done| |]; cbn [Qnum Qden]; rewrite Pos.mul_1_l, rden_pos by done; lia.
Qed.

Lemma create_bn_rval num denom n d : num ⇓ n → denom ⇓ d → (d ≠ 0)%Z →
  ∃ r, eshkol_rational_create_bn num denom = Ret r ∧ canonical r ∧ rval r == inject_Z n / inject_Z d.
Proof.
  intros Hn Hd Hne. destruct (create_bn_quotient num denom n d Hn Hd Hne) as (r & -> & Hr & E).
  exists r. split_and!; [done|done|]. unfold rval, Qdiv, Qmult, Qinv, Qeq, inject_Z. cbn [Qnum Qden].
  destruct d as [|p|p]; [done| |]; cbn [Qnum Qden]; rewrite Pos.mul_1_l, rden_pos by done; lia.
Qed.
