(* ===== verification/Doubles.v ===== *)
(** * Doubles: IEEE-754 binary64 as the C++ code uses it

    A [double] is a [spec_float] with the parameters of binary64: the arithmetic
    is that of the Standard Library's specification of floating point, rounding
    to nearest, ties to even.  [frexp], [ldexp], [trunc] and [fmod] are exact
    operations of the C library. *)

From Stdlib Require Export SpecFloat.
From S2P Require Export RationalSpec.
Local Open Scope Z_scope.

Definition prec : Z := 53.
Definition emax : Z := 1024.
Abbreviation double := spec_float.

Definition d_add : double → double → double := SFadd prec emax.
Definition d_sub : double → double → double := SFsub prec emax.
Definition d_mul : double → double → double := SFmul prec emax.
Definition d_div : double → double → double := SFdiv prec emax.
Definition d_lt (x y : double) : bool := SFltb x y.
Definition d_le (x y : double) : bool := SFleb x y.
Definition d_eq (x y : double) : bool := SFeqb x y.
Definition d_zero : double := S754_zero false.
Definition d_is_zero (x : double) : bool := d_eq x d_zero.

(** [(double)v] for a [w]-bit integer [v]. *)
Definition of_int (v : Z) : double := binary_normalize prec emax v 0 false.

(** [m * 2^e] with the sign of [s] when it is zero. *)
Definition of_scaled (s : bool) (m e : Z) : double := binary_normalize prec emax m e s.

Definition is_finite (x : double) : bool :=
  match x with S754_zero _ | S754_finite _ _ _ => true | _ => false end.
Definition is_nan (x : double) : bool := match x with S754_nan => true | _ => false end.

Definition signed (s : bool) (m : Z) : Z := if s then - m else m.

(** The truncation of a finite double, as an integer. *)
Definition trunc_Z (x : double) : Z :=
  match x with
  | S754_finite s m e => signed s (Z.shiftl (Zpos m) e)
  | _ => 0
  end.

Definition d_trunc (x : double) : double :=
  match x with
  | S754_finite s m e => if 0 <=? e then x else of_scaled s (trunc_Z x) 0
  | _ => x
  end.

Definition d_ceil (x : double) : double :=
  match x with
  | S754_finite s m e =>
      if 0 <=? e then x else of_scaled s (- Z.shiftr (- signed s (Zpos m)) (- e)) 0
  | _ => x
  end.

(** The remainder of the truncated division, exact, with the sign of [x]. *)
Definition d_fmod (x y : double) : double :=
  match x, y with
  | S754_nan, _ | _, S754_nan | S754_infinity _, _ | _, S754_zero _ => S754_nan
  | _, S754_infinity _ | S754_zero _, _ => x
  | S754_finite sx mx ex, S754_finite _ my ey =>
      let ez := Z.min ex ey in
      of_scaled sx (signed sx (Z.rem (Z.shiftl (Zpos mx) (ex - ez)) (Z.shiftl (Zpos my) (ey - ez)))) ez
  end.

(** ** Exact decomposition ([double_decompose_exact] of rational.cpp) *)

(** [while (mant && (mant & 1) == 0) { mant >>= 1; exp2 += 1; }] on 53 bits. *)
Fixpoint strip_zeros (fuel : nat) (mant exp2 : Z) : Z * Z :=
  match fuel with
  | O => (mant, exp2)
  | S fuel' =>
      if negb (mant =? 0) && (Z.land mant 1 =? 0)
      then strip_zeros fuel' (Z.shiftr mant 1) (exp2 + 1)
      else (mant, exp2)
  end.

(** The mantissa, the exponent and the sign flag. *)
Definition double_decompose_exact (d : double) : Z * Z * bool :=
  let neg := d_lt d d_zero in
  let '(frac, e) := SFfrexp prec emax (if neg then SFopp d else d) in
  let mant := u64 (trunc_Z (SFldexp prec emax frac 53)) in
  let '(mant, exp2) := strip_zeros 64 mant (e - 53) in
  (mant, exp2, neg).

(** ** The value of a double *)

(** [d] is [n / 2^k * 2^j]: its value as an exact fraction [dnum / dden]. *)
Definition dnum (d : double) : Z :=
  match d with S754_finite s m e => signed s (Zpos m) * 2 ^ (Z.max e 0) | _ => 0 end.
Definition dden (d : double) : Z :=
  match d with S754_finite s m e => 2 ^ (Z.max (- e) 0) | _ => 1 end.

Definition is_double (d : double) : Prop := valid_binary prec emax d = true.

Lemma digits2_log2 m : Zpos (digits2_pos m) = Z.log2 (Zpos m) + 1.
Proof.
  induction m as [m IH|m IH|]; cbn [digits2_pos]; [| |done].
  - rewrite Pos2Z.inj_succ, IH, Pos2Z.inj_xI, Z.log2_succ_double by lia. lia.
  - rewrite Pos2Z.inj_succ, IH, Pos2Z.inj_xO, Z.log2_double by lia. lia.
Qed.

Lemma digits2_bound m : 2 ^ (Zpos (digits2_pos m) - 1) <= Zpos m < 2 ^ Zpos (digits2_pos m).
Proof.
  rewrite digits2_log2. pose proof (Z.log2_spec (Zpos m) ltac:(lia)) as [H1 H2].
  replace (Z.log2 (Z.pos m) + 1 - 1) with (Z.log2 (Z.pos m)) by lia.
  by replace (Z.log2 (Z.pos m) + 1) with (Z.succ (Z.log2 (Z.pos m))) by lia.
Qed.

Lemma digits2_unique m k : 0 < k → 2 ^ (k - 1) <= Zpos m < 2 ^ k → Zpos (digits2_pos m) = k.
Proof.
  intros Hk Hb. rewrite digits2_log2. rewrite (Z.log2_unique (Zpos m) (k - 1)); [lia|lia|].
  by replace (Z.succ (k - 1)) with k by lia.
Qed.

Lemma shl_pos m d : Zpos (Pos.iter xO m d) = Zpos m * 2 ^ Zpos d.
Proof.
  rewrite <- (Z.shiftl_mul_pow2 _ (Zpos d)) by lia. unfold Z.shiftl.
  induction d as [|d IH] using Pos.peano_ind; [simpl; lia|].
  rewrite !Pos.iter_succ. rewrite Pos2Z.inj_xO, IH. done.
Qed.

(** Rounding a 53-bit integer to a double changes nothing. *)
Lemma round_53 m : 2 ^ 52 <= Zpos m < 2 ^ 53 → binary_round prec emax false m 0 = S754_finite false m 0.
Proof.
  intros Hm. unfold binary_round. rewrite (digits2_unique m 53) by lia.
  change (fexp prec emax (53 + 0)) with 0. cbn [shl_align Z.sub Z.opp Z.add].
  assert (Es : shr_fexp prec emax (Zpos m) 0 loc_Exact = (Build_shr_record (Zpos m) false false, 0)).
  { unfold shr_fexp. cbn [Zdigits2]. rewrite (digits2_unique m 53) by lia. reflexivity. }
  change (shl_align m 0 0) with (m, 0). cbv beta iota. unfold binary_round_aux. rewrite Es. cbn [shr_m loc_of_shr_record round_nearest_even]. rewrite Es. reflexivity.
Qed.

(** [frexp] followed by [ldexp(frac, 53)] gives the mantissa as an integer. *)
Lemma frexp_mantissa m e : bounded prec emax m e = true →
  ∃ m' e', SFfrexp prec emax (S754_finite false m e) = (S754_finite false m' (-53), e' + 53) ∧
    2 ^ 52 <= Zpos m' < 2 ^ 53 ∧ e' <= e ∧ Zpos m' = Zpos m * 2 ^ (e - e').
Proof.
  intros Hb. unfold bounded, canonical_mantissa in Hb. apply andb_prop in Hb as [Hc%Z.eqb_eq _].
  pose proof (digits2_bound m) as Hd. unfold SFfrexp.
  assert (Hk : Zpos (digits2_pos m) <= 53) by (unfold fexp, emin, prec, emax in Hc; lia).
  unfold prec at 1. destruct (Z.leb_spec 53 (Zpos (digits2_pos m))) as [L|L].
  - exists m, e. replace (Zpos (digits2_pos m)) with 53 in Hd by lia.
    split_and!; [done|apply Hd|apply Hd|lia|]. rewrite Z.sub_diag. lia.
  - set (d := prec - Zpos (digits2_pos m)) in *. assert (0 < d) by (unfold d, prec; lia).
    eexists _, (e - d). split; [f_equal; unfold prec; lia|]. rewrite shl_pos, Z2Pos.id by done.
    replace (e - (e - d)) with d by lia. pose proof (Z.pow_pos_nonneg 2 d ltac:(lia) ltac:(lia)).
    assert (Hp : 2 ^ Zpos (digits2_pos m) * 2 ^ d = 2 ^ 53) by (rewrite <- Z.pow_add_r by lia; f_equal; unfold d, prec; lia).
    assert (Hq : 2 ^ (Zpos (digits2_pos m) - 1) * 2 ^ d = 2 ^ 52) by (rewrite <- Z.pow_add_r by lia; f_equal; unfold d, prec; lia).
    split_and!; [rewrite <- Hq; nia|rewrite <- Hp; nia|lia|done].
Qed.

Lemma strip_zeros_spec fuel m e : 0 < m < 2 ^ Z.of_nat fuel →
  let '(m', e') := strip_zeros fuel m e in
  0 < m' ∧ Z.odd m' = true ∧ e <= e' ∧ m = m' * 2 ^ (e' - e).
Proof.
  revert m e. induction fuel as [|fuel IH]; intros m e Hm; cbn [strip_zeros].
  - change (2 ^ Z.of_nat 0) with 1 in Hm. lia.
  - rewrite land1, shiftr1. destruct (Z.eqb_spec m 0); [lia|]. cbn [negb andb].
    destruct (Z.eqb_spec (m mod 2) 0) as [E|E].
    + rewrite Nat2Z.inj_succ, Z.pow_succ_r in Hm by lia. pose proof (Z.div_mod m 2 ltac:(lia)).
      specialize (IH (m / 2) (e + 1) ltac:(lia)). destruct (strip_zeros fuel (m / 2) (e + 1)) as [m' e'].
      destruct IH as (? & ? & ? & Em). split_and!; [done|done|lia|].
      replace (e' - e) with (Z.succ (e' - (e + 1))) by lia. rewrite Z.pow_succ_r by lia. lia.
    + split_and!; [lia| |lia|rewrite Z.sub_diag; lia].
      rewrite Zodd_mod. pose proof (Z.mod_pos_bound m 2 ltac:(lia)). by replace (m mod 2) with 1 by lia.
Qed.

(** The decomposition is exact: an odd mantissa below [2^53], and the value. *)
Lemma decompose_spec s m e : is_double (S754_finite s m e) →
  let '(mant, exp2, neg) := double_decompose_exact (S754_finite s m e) in
  neg = s ∧ 0 < mant < 2 ^ 53 ∧ Z.odd mant = true ∧
  ∃ k, 0 <= k ∧ Zpos m = mant * 2 ^ k ∧ exp2 = e + k
       ∨ 0 <= k ∧ mant = Zpos m * 2 ^ k ∧ exp2 = e - k.
Proof.
  intros Hv. unfold double_decompose_exact.
  assert (d_lt (S754_finite s m e) d_zero = s) as -> by (by destruct s).
  assert ((if s then SFopp (S754_finite s m e) else S754_finite s m e) = S754_finite false m e) as -> by (by destruct s).
  destruct (frexp_mantissa m e Hv) as (m' & e' & -> & Hm' & He & Em).
  cbn [SFldexp]. change (-53 + 53) with 0. rewrite round_53 by done. change (trunc_Z (S754_finite false m' 0)) with (Zpos m').
  rewrite u64_id by (unfold is_u64; lia). replace (e' + 53 - 53) with e' by lia.
  pose proof (strip_zeros_spec 64 (Zpos m') e' ltac:(change (Z.of_nat 64) with 64; lia)) as Hs.
  destruct (strip_zeros 64 (Zpos m') e') as [mant exp2]. destruct Hs as (Hp & Ho & Hle & E).
  pose proof (Z.pow_pos_nonneg 2 (exp2 - e') ltac:(lia) ltac:(lia)).
  assert (mant <= Zpos m') by (rewrite E; nia).
  split_and!; [done|done|lia|done|].
  rewrite Em in E. destruct (Z.le_ge_cases e exp2).
  - exists (exp2 - e). left. split_and!; [lia| |lia].
    replace (exp2 - e') with ((exp2 - e) + (e - e')) in E by lia. rewrite Z.pow_add_r, Z.mul_assoc in E by lia.
    apply Z.mul_reg_r in E; [done|]. apply Z.pow_nonzero; lia.
  - exists (e - exp2). right. split_and!; [lia| |lia].
    replace (e - e') with ((e - exp2) + (exp2 - e')) in E by lia. rewrite Z.pow_add_r, Z.mul_assoc in E by lia.
    apply Z.mul_reg_r in E; [done|]. apply Z.pow_nonzero; lia.
Qed.

Lemma pow2_cross e k : 0 <= k →
  2 ^ (Z.max e 0) * 2 ^ (Z.max (- (e + k)) 0) * 2 ^ k = 2 ^ (Z.max (e + k) 0) * 2 ^ (Z.max (- e) 0).
Proof. intros. rewrite <- !Z.pow_add_r by lia. f_equal. lia. Qed.

(** The decomposition as a cross product with the value of the double. *)
Lemma decompose_value s m e : is_double (S754_finite s m e) →
  let '(mant, exp2, neg) := double_decompose_exact (S754_finite s m e) in
  neg = s ∧ 0 < mant < 2 ^ 53 ∧
  dnum (S754_finite s m e) * 2 ^ (Z.max (- exp2) 0) = signed s mant * 2 ^ (Z.max exp2 0) * dden (S754_finite s m e).
Proof.
  intros Hv. pose proof (decompose_spec s m e Hv) as H.
  destruct (double_decompose_exact (S754_finite s m e)) as [[mant exp2] neg].
  destruct H as (-> & Hm & _ & k & [(Hk & Em & ->)|(Hk & Em & ->)]); (split_and!; [done|lia|lia|]);
    unfold dnum, dden, signed; rewrite Em.
  - pose proof (pow2_cross e k Hk) as E.
    transitivity (signed s mant * (2 ^ Z.max e 0 * 2 ^ Z.max (- (e + k)) 0 * 2 ^ k)); [destruct s; simpl; ring|].
    rewrite E. unfold signed. ring.
  - pose proof (pow2_cross (e - k) k Hk) as E. replace (e - k + k) with e in E by lia.
    set (a := 2 ^ Z.max e 0) in *. set (b := 2 ^ Z.max (- (e - k)) 0) in *.
    set (c := 2 ^ Z.max (- e) 0) in *. set (f := 2 ^ Z.max (e - k) 0) in *. set (g := 2 ^ k) in *.
    destruct s; nia.
Qed.
