(* ===== verification/Tagged.v ===== *)
(** * Tagged: tagged values and the numeric dispatch of rational.cpp

    A tagged value is its payload and its flag byte.  A heap pointer leads to an
    object whose header carries the subtype. *)

From S2P Require Export Doubles.
Local Open Scope Z_scope.

Inductive heap_obj :=
| HBignum (b : bignum)
| HRational (r : rational)
| HOther (subtype : Z).

(** [VFloat32 d]: a float32 carrier and the double that
    [eshkol_value_f32_to_double_v1] promotes it to, [None] when the carrier is
    malformed.  [VImm ty bits]: the other immediate types (boolean, character, symbol, null ...). *)
Inductive payload :=
| VInt64 (v : Z)
| VDouble (d : double)
| VFloat32 (promoted : option double)
| VHeap (p : option heap_obj)
| VImm (ty bits : Z).

Record tagged := Tagged { data : payload; flags : Z }.

Definition ESHKOL_VALUE_BOOL : Z := 3.
Definition ESHKOL_VALUE_EXACT_FLAG : Z := 16.
Definition ESHKOL_VALUE_INEXACT_FLAG : Z := 32.

Definition eshkol_make_int64 (val : Z) (exact : bool) : tagged :=
  Tagged (VInt64 val) (if exact then ESHKOL_VALUE_EXACT_FLAG else 0).
Definition eshkol_make_double (val : double) : tagged :=
  Tagged (VDouble val) ESHKOL_VALUE_INEXACT_FLAG.

(** [eshkol_make_ptr] on a bignum that may be NULL, and on a rational. *)
Definition bignum_ptr (o : option bignum) : payload :=
  VHeap (match o with Some b => Some (HBignum b) | None => None end).
Definition rational_ptr (r : rational) : payload := VHeap (Some (HRational r)).

Definition reject_float32_arithmetic (v : tagged) : outcome unit :=
  match data v with VFloat32 _ => Raised TypeError | _ => Ret tt end.

Definition is_double_tagged (v : tagged) : bool :=
  match data v with VDouble _ => true | _ => false end.

(** ** Doubles from exact values *)

(** [while (v) { v >>= 1; ++bits; }] on a 64-bit limb. *)
Fixpoint count_bits (fuel : nat) (v bits : Z) : Z :=
  match fuel with
  | O => bits
  | S fuel' => if v =? 0 then bits else count_bits fuel' (Z.shiftr v 1) (bits + 1)
  end.

Fixpoint bn_bitlen_loop (l : list Z) (n : nat) : Z :=
  match n with
  | O => 0
  | S i => if negb (limb l i =? 0) then Z.of_nat i * 64 + count_bits 65 (limb l i) 0 else bn_bitlen_loop l i
  end.
Definition bn_bitlen (a : bignum) : Z := bn_bitlen_loop (limbs a) (num_limbs a).

Definition to_double_step (l : list Z) (i : nat) (s : double * double) : double * double :=
  let '(result, base) := s in
  (d_add result (d_mul (of_int (limb l i)) base), d_mul base (of_int (2 ^ 64))).

Definition eshkol_bignum_to_double (a : option bignum) : double :=
  match a with
  | None => d_zero
  | Some a =>
      let '(result, _) := for_up (num_limbs a) 0 (to_double_step (limbs a)) (d_zero, of_int 1) in
      if negb (sign a =? 0) then SFopp result else result
  end.

Definition eshkol_rational_to_double (rat : rational) : outcome double :=
  if negb (is_big rat) then Ret (d_div (of_int (numerator rat)) (of_int (denominator rat)))
  else if eshkol_bignum_is_zero (big_num rat) then Ret d_zero
  else
    match big_num rat, big_den rat with
    | Some bn, Some bd =>
        let k := 55 - (bn_bitlen bn - bn_bitlen bd) in
        let num := if 0 <? k then eshkol_bignum_shift (big_num rat) k else big_num rat in
        let den := if 0 <? k then big_den rat
                   else if k <? 0 then eshkol_bignum_shift (big_den rat) (- k) else big_den rat in
        q ← eshkol_bignum_div num den;
        Ret (SFldexp prec emax (eshkol_bignum_to_double q) (i32 (- k)))
    | _, _ => Ret d_zero
    end.

(** ** Exact values from doubles *)

Definition eshkol_double_to_rational (d : double) : outcome rational :=
  if d_is_zero d then eshkol_rational_create 0 1
  else if negb (is_finite d) then eshkol_rational_create 0 1
  else
    let '(mant, exp2, neg) := double_decompose_exact d in
    let num := if neg then - mant else mant in
    if exp2 =? 0 then eshkol_rational_create num 1
    else if 0 <? exp2 then
      if (exp2 <? 62) && (mant <? u64 (Z.shiftl 1 (62 - exp2))) then
        let whole := u64 (Z.shiftl mant exp2) in
        eshkol_rational_create (if neg then - whole else whole) 1
      else
        let bn := eshkol_bignum_from_int64 num in
        let shifted := eshkol_bignum_shift bn exp2 in
        let one := eshkol_bignum_from_int64 1 in
        eshkol_rational_create_bn shifted one
    else
      let shift := - exp2 in
      if shift <? 63 then eshkol_rational_create num (Z.shiftl 1 shift)
      else
        let bn_num := eshkol_bignum_from_int64 num in
        let bn_one := eshkol_bignum_from_int64 1 in
        let bn_den := eshkol_bignum_shift bn_one shift in
        eshkol_rational_create_bn bn_num bn_den.

Definition bignum_to_tagged_int (b : option bignum) : tagged :=
  match eshkol_bignum_fits_int64 b with
  | Some v => Tagged (VInt64 v) 0
  | None => Tagged (bignum_ptr b) ESHKOL_VALUE_EXACT_FLAG
  end.

Definition eshkol_double_to_exact_tagged (d : double) : outcome tagged :=
  if d_is_zero d then Ret (eshkol_make_int64 0 true)
  else if negb (is_finite d) then Ret (eshkol_make_int64 0 true)
  else
    let '(mant, exp2, neg) := double_decompose_exact d in
    let num := if neg then - mant else mant in
    if exp2 =? 0 then Ret (eshkol_make_int64 num true)
    else if 0 <? exp2 then
      if (exp2 <? 62) && (mant <? u64 (Z.shiftl 1 (62 - exp2))) then
        let whole := u64 (Z.shiftl mant exp2) in
        Ret (eshkol_make_int64 (if neg then - whole else whole) true)
      else
        let bn := eshkol_bignum_from_int64 num in
        let shifted := eshkol_bignum_shift bn exp2 in
        Ret (bignum_to_tagged_int shifted)
    else
      r ← eshkol_double_to_rational d;
      Ret (Tagged (rational_ptr r) 0).

(** ** Dispatch on tagged operands *)

Definition eshkol_is_rational_tagged (v : tagged) : bool :=
  match data v with VHeap (Some (HRational _)) => true | _ => false end.

(** [NULL] when the operand is not an exact number. *)
Definition tagged_exact_to_rational (v : tagged) : outcome (option rational) :=
  match data v with
  | VInt64 i => r ← eshkol_rational_create i 1; Ret (Some r)
  | VHeap (Some (HRational r)) => Ret (Some r)
  | VHeap (Some (HBignum b)) =>
      r ← eshkol_rational_create_bn (Some b) (eshkol_bignum_from_int64 1); Ret (Some r)
  | _ => Ret None
  end.

Definition rational_result_to_tagged (rat : rational) : tagged :=
  if is_big rat then
    Tagged (if bn_equals_i64 (big_den rat) 1 then bignum_ptr (big_num rat) else rational_ptr rat)
           ESHKOL_VALUE_EXACT_FLAG
  else if denominator rat =? 1 then Tagged (VInt64 (numerator rat)) 0
  else Tagged (rational_ptr rat) 0.

Definition tagged_any_to_double (v : tagged) : outcome double :=
  match data v with
  | VInt64 i => Ret (of_int i)
  | VDouble d => Ret d
  | VHeap (Some (HRational r)) => eshkol_rational_to_double r
  | VHeap (Some (HBignum b)) => Ret (eshkol_bignum_to_double (Some b))
  | _ => Ret d_zero
  end.

Definition eshkol_rational_binary_tagged (a b : tagged) (op : Z) : outcome tagged :=
  _ ← reject_float32_arithmetic a;
  _ ← reject_float32_arithmetic b;
  if is_double_tagged a || is_double_tagged b then
    da ← tagged_any_to_double a;
    db ← tagged_any_to_double b;
    let dr := if op =? 0 then d_add da db
              else if op =? 1 then d_sub da db
              else if op =? 2 then d_mul da db
              else if op =? 3 then d_div da db
              else d_zero in
    Ret (Tagged (VDouble dr) 0)
  else
    ra ← tagged_exact_to_rational a;
    rb ← tagged_exact_to_rational b;
    match ra, rb with
    | Some ra, Some rb =>
        rr ← (if op =? 0 then eshkol_rational_add ra rb
              else if op =? 1 then eshkol_rational_sub ra rb
              else if op =? 2 then eshkol_rational_mul ra rb
              else if op =? 3 then eshkol_rational_div ra rb
              else eshkol_rational_create 0 1);
        Ret (rational_result_to_tagged rr)
    | _, _ => Ret (Tagged (VInt64 0) 0)
    end.

Definition eshkol_rational_from_bignums_tagged (num denom : option bignum) : outcome tagged :=
  rr ← eshkol_rational_create_bn num denom;
  Ret (rational_result_to_tagged rr).

Definition make_operand_bignum (v : tagged) : option bignum :=
  match data v with
  | VInt64 i => eshkol_bignum_from_int64 i
  | VHeap (Some (HBignum b)) => Some b
  | _ => eshkol_bignum_from_int64 0
  end.

Definition eshkol_rational_make_tagged (num den : tagged) : outcome tagged :=
  _ ← reject_float32_arithmetic num;
  _ ← reject_float32_arithmetic den;
  eshkol_rational_from_bignums_tagged (make_operand_bignum num) (make_operand_bignum den).

(** [op] 0..4 is <, >, =, <=, >=; [c] compares like [cmp] against zero. *)
Definition compare_op (op : Z) (lt gt eq le ge : bool) : bool :=
  if op =? 0 then lt else if op =? 1 then gt else if op =? 2 then eq
  else if op =? 3 then le else if op =? 4 then ge else false.

Definition compare_int_op (op cmp : Z) : bool :=
  compare_op op (cmp <? 0) (0 <? cmp) (cmp =? 0) (cmp <=? 0) (0 <=? cmp).

Definition compare_double_op (op : Z) (x y : double) : bool :=
  compare_op op (d_lt x y) (d_lt y x) (d_eq x y) (d_le x y) (d_le y x).

Definition make_bool (b : bool) (fl : Z) : tagged := Tagged (VImm ESHKOL_VALUE_BOOL (b2z b)) fl.

Definition eshkol_rational_compare_tagged_ptr (a b : tagged) (op : Z) : outcome tagged :=
  _ ← reject_float32_arithmetic a;
  _ ← reject_float32_arithmetic b;
  if is_double_tagged a || is_double_tagged b then
    da ← tagged_any_to_double a;
    db ← tagged_any_to_double b;
    Ret (make_bool (compare_double_op op da db) 0)
  else
    ra ← tagged_exact_to_rational a;
    rb ← tagged_exact_to_rational b;
    match ra, rb with
    | Some ra, Some rb => Ret (make_bool (compare_int_op op (eshkol_rational_compare ra rb)) 0)
    | _, _ => Ret (make_bool false 0)
    end.

Definition eshkol_rational_numerator_tagged (v : tagged) : outcome tagged :=
  match data v with
  | VFloat32 None => Raised TypeError
  | VFloat32 (Some promoted) => Ret (Tagged (VDouble promoted) ESHKOL_VALUE_INEXACT_FLAG)
  | VHeap (Some (HRational r)) =>
      Ret (if is_big r then bignum_to_tagged_int (big_num r) else Tagged (VInt64 (numerator r)) 0)
  | _ => Ret v
  end.

Definition eshkol_rational_denominator_tagged (v : tagged) : outcome tagged :=
  match data v with
  | VFloat32 None => Raised TypeError
  | VHeap (Some (HRational r)) =>
      Ret (if is_big r then bignum_to_tagged_int (big_den r) else Tagged (VInt64 (denominator r)) 0)
  | _ => Ret (Tagged (VInt64 1) 0)
  end.

Definition tag_exact_i64 (v : Z) : tagged := Tagged (VInt64 v) 0.

Definition eshkol_rational_floor_tagged (r : rational) : outcome tagged :=
  if negb (is_big r) then Ret (tag_exact_i64 (eshkol_rational_floor r))
  else b ← rat_floor_bn r; Ret (bignum_to_tagged_int b).

Definition eshkol_rational_ceil_tagged (r : rational) : outcome tagged :=
  if negb (is_big r) then Ret (tag_exact_i64 (eshkol_rational_ceil r))
  else b ← rat_ceil_bn r; Ret (bignum_to_tagged_int b).

Definition eshkol_rational_truncate_tagged (r : rational) : outcome tagged :=
  if negb (is_big r) then Ret (tag_exact_i64 (eshkol_rational_truncate r))
  else b ← rat_trunc_bn r; Ret (bignum_to_tagged_int b).

Definition eshkol_rational_round_tagged (r : rational) : outcome tagged :=
  if negb (is_big r) then Ret (tag_exact_i64 (eshkol_rational_round r))
  else b ← rat_round_bn r; Ret (bignum_to_tagged_int b).

Definition eshkol_rational_to_string (rat : rational) : option (list ascii) :=
  if is_big rat then
    num_s ← eshkol_bignum_to_string (big_num rat);
    if bn_equals_i64 (big_den rat) 1 then Some num_s
    else den_s ← eshkol_bignum_to_string (big_den rat); Some (num_s ++ "/"%char :: den_s)
  else
    let lld v := (if v <? 0 then ["-"%char] else []) ++ print_llu 20 (Z.abs v) [] in
    if denominator rat =? 1 then Some (lld (numerator rat))
    else Some (lld (numerator rat) ++ "/"%char :: lld (denominator rat)).
