(* ===== verification/TaggedSpec.v ===== *)
(** * TaggedSpec: exact numbers as tagged values

    [exact_num p q]: the payload [p] is a well-formed exact number of value [q];
    [normal p] is the canonical form the runtime is meant to keep: an [int64]
    when the value is an integer that fits, a bignum when it is an integer that
    does not, a rational otherwise. *)

From S2P Require Export Tagged.
Local Open Scope Z_scope.

Definition exact_num (p : payload) (q : Q) : Prop :=
  match p with
  | VInt64 v => is_i64 v ∧ (inject_Z v == q)%Q
  | VHeap (Some (HBignum b)) => wf b ∧ (inject_Z (bval b) == q)%Q
  | VHeap (Some (HRational r)) => canonical r ∧ (rval r == q)%Q
  | _ => False
  end.

Definition normal (p : payload) : Prop :=
  match p with
  | VInt64 v => is_i64 v
  | VHeap (Some (HBignum b)) => wf b ∧ ¬ is_i64 (bval b)
  | VHeap (Some (HRational r)) => canonical r ∧ rden r ≠ 1
  | _ => False
  end.

(** [o] returns a value in canonical form equal to [q]. *)
Definition returns_num (o : outcome tagged) (q : Q) : Prop :=
  ∃ v, o = Ret v ∧ normal (data v) ∧ exact_num (data v) q.

#[export] Instance exact_num_proper p : Proper (Qeq ==> iff) (exact_num p).
Proof.
  intros q q' E. unfold exact_num. destruct p as [v|d|f|[[b|r|s]|]|t b]; try done; by rewrite E.
Qed.

#[export] Instance returns_num_proper o : Proper (Qeq ==> iff) (returns_num o).
Proof. intros q q' E. unfold returns_num. by setoid_rewrite E. Qed.

Lemma exact_not_double v q : exact_num (data v) q → is_double_tagged v = false.
Proof. unfold is_double_tagged. by destruct (data v). Qed.

Lemma exact_not_float32 v q : exact_num (data v) q → reject_float32_arithmetic v = Ret tt.
Proof. unfold reject_float32_arithmetic. by destruct (data v). Qed.

Lemma rval_integer r : canonical r → rden r = 1 → (rval r == inject_Z (rnum r))%Q.
Proof. intros Hr E. unfold rval, inject_Z. by rewrite E. Qed.

(** Demotion of a rational result. *)
Lemma result_num r : canonical r → returns_num (Ret (rational_result_to_tagged r)) (rval r).
Proof.
  intros Hr. eexists. split; [reflexivity|]. unfold rational_result_to_tagged.
  destruct (is_big r) eqn:E.
  - destruct (can_big r Hr E) as (_ & _ & Hn & Hd & Hnot).
    cbn [data]. rewrite (bn_equals_i64_denotes _ _ 1 Hd ltac:(clear; unfold is_i64; lia)).
    destruct (Z.eqb_spec (rden r) 1) as [E1|E1]; [|split; cbn; [done|split; done]].
    pose proof (rval_integer r Hr E1) as Ev. destruct Hn as (b & -> & Hb & Eb). rewrite <- Eb in *. cbn.
    split; split; [done| |done|by rewrite Ev]. intros Hi. apply Hnot. split; [done|]. rewrite E1. clear. unfold is_i64. lia.
  - destruct (small_fields r Hr E) as (En & Ed & Hn & _).
    rewrite <- Ed. destruct (Z.eqb_spec (rden r) 1) as [E1|E1]; cbn; [|split; split; done].
    split; [done|]. split; [done|]. by rewrite <- En, (rval_integer r Hr E1).
Qed.

Lemma bignum_tagged_int_num b z : b ⇓ z → returns_num (Ret (bignum_to_tagged_int b)) (inject_Z z).
Proof.
  intros Hb. eexists. split; [reflexivity|]. unfold bignum_to_tagged_int.
  rewrite (fits_int64_denotes _ _ Hb). destruct (decide (is_i64 z)); [by split|].
  destruct Hb as (x & -> & Hx & Ex). cbn. rewrite Ex. split_and!; done.
Qed.

Lemma is_i64_1 : is_i64 1.
Proof. unfold is_i64. lia. Qed.

Lemma inject_over_one z : (inject_Z z / inject_Z 1 == inject_Z z)%Q.
Proof. unfold Qdiv, Qmult, Qinv, Qeq, inject_Z. cbn [Qnum Qden]. lia. Qed.

Lemma exact_to_rational v q : exact_num (data v) q →
  ∃ r, tagged_exact_to_rational v = Ret (Some r) ∧ canonical r ∧ (rval r == q)%Q.
Proof.
  unfold exact_num, tagged_exact_to_rational. destruct (data v) as [i|d|f|[[b|r|s]|]|t b]; try done; intros [Hw E].
  - destruct (create_rval i 1 Hw is_i64_1 ltac:(lia)) as (r & -> & Hr & Er). exists r. split_and!; [done|done|].
    by rewrite Er, inject_over_one.
  - destruct (create_bn_rval (Some b) (eshkol_bignum_from_int64 1) (bval b) 1) as (r & -> & Hr & Er);
      [by exists b|apply from_int64_denotes, is_i64_1|lia|]. exists r. split_and!; [done|done|].
    by rewrite Er, inject_over_one.
  - by exists r.
Qed.

(** The four operations on exact operands, whatever their representation. *)
Definition num_op (op : Z) (x y : Q) : Q :=
  (if op =? 0 then x + y else if op =? 1 then x - y else if op =? 2 then x * y else x / y)%Q.

Lemma rational_binary_num a b x y op : exact_num (data a) x → exact_num (data b) y → 0 <= op <= 3 →
  (op = 3 → ¬ (y == 0)%Q) →
  returns_num (eshkol_rational_binary_tagged a b op) (num_op op x y).
Proof.
  intros Ha Hb Hop Hdiv. unfold eshkol_rational_binary_tagged.
  rewrite (exact_not_float32 a x Ha), (exact_not_float32 b y Hb). cbn [mbind outcome_bind].
  rewrite (exact_not_double a x Ha), (exact_not_double b y Hb). cbn [orb].
  destruct (exact_to_rational a x Ha) as (ra & -> & Hra & Ea).
  destruct (exact_to_rational b y Hb) as (rb & -> & Hrb & Eb). cbn [mbind outcome_bind].
  unfold num_op.
  assert (op = 0 ∨ op = 1 ∨ op = 2 ∨ op = 3) as [->|[->|[->|E3]]] by lia; cbn [Z.eqb Pos.eqb].
  - destruct (add_rval ra rb Hra Hrb) as (r & -> & Hr & Er). cbn [mbind outcome_bind]. apply (returns_num_proper _ (rval r)); [by rewrite Er, Ea, Eb|by apply result_num].
  - destruct (sub_rval ra rb Hra Hrb) as (r & -> & Hr & Er). cbn [mbind outcome_bind]. apply (returns_num_proper _ (rval r)); [by rewrite Er, Ea, Eb|by apply result_num].
  - destruct (mul_rval ra rb Hra Hrb) as (r & -> & Hr & Er). cbn [mbind outcome_bind]. apply (returns_num_proper _ (rval r)); [by rewrite Er, Ea, Eb|by apply result_num].
  - specialize (Hdiv E3). rewrite E3. cbn [Z.eqb Pos.eqb].
    destruct (div_rval ra rb Hra Hrb ltac:(by rewrite Eb)) as (r & -> & Hr & Er). cbn [mbind outcome_bind]. apply (returns_num_proper _ (rval r)); [by rewrite Er, Ea, Eb|by apply result_num].
Qed.

Lemma rational_divide_by_zero a b x y : exact_num (data a) x → exact_num (data b) y → (y == 0)%Q →
  eshkol_rational_binary_tagged a b 3 = Raised DivideByZero.
Proof.
  intros Ha Hb Hz. unfold eshkol_rational_binary_tagged.
  rewrite (exact_not_float32 a x Ha), (exact_not_float32 b y Hb). cbn [mbind outcome_bind].
  rewrite (exact_not_double a x Ha), (exact_not_double b y Hb). cbn [orb].
  destruct (exact_to_rational a x Ha) as (ra & -> & Hra & Ea).
  destruct (exact_to_rational b y Hb) as (rb & -> & Hrb & Eb). cbn [mbind outcome_bind Z.eqb Pos.eqb].
  rewrite (rational_div_by_zero ra rb); [done|done|]. apply rval_zero. by rewrite Eb.
Qed.

Lemma rational_compare_num a b x y op : exact_num (data a) x → exact_num (data b) y →
  eshkol_rational_compare_tagged_ptr a b op =
  Ret (make_bool (compare_int_op op (match Qcompare x y with Lt => -1 | Eq => 0 | Gt => 1 end)) 0).
Proof.
  intros Ha Hb. unfold eshkol_rational_compare_tagged_ptr.
  rewrite (exact_not_float32 a x Ha), (exact_not_float32 b y Hb). cbn [mbind outcome_bind].
  rewrite (exact_not_double a x Ha), (exact_not_double b y Hb). cbn [orb].
  destruct (exact_to_rational a x Ha) as (ra & -> & Hra & Ea).
  destruct (exact_to_rational b y Hb) as (rb & -> & Hrb & Eb). cbn [mbind outcome_bind].
  rewrite compare_rval by done. by rewrite Ea, Eb.
Qed.

(** ** [inexact->exact] *)

(** The rational value of a finite double. *)
Definition dval (d : double) : Q := Qmake (dnum d) (Z.to_pos (dden d)).

Lemma dden_pos d : 0 < dden d.
Proof. unfold dden. destruct d; try done. apply Z.pow_pos_nonneg; lia. Qed.

Lemma cross_dval d n k : 0 < k → dnum d * k = n * dden d → (inject_Z n / inject_Z k == dval d)%Q.
Proof.
  intros Hk E. pose proof (dden_pos d). unfold dval, Qdiv, Qmult, Qinv, Qeq, inject_Z. cbn [Qnum Qden].
  destruct k as [|p|p]; [done| |done]. cbn [Qnum Qden]. rewrite Pos.mul_1_l, Z2Pos.id by done. lia.
Qed.

Lemma finite_cases d : is_double d → is_finite d = true →
  (d_is_zero d = true ∧ (dval d == 0)%Q) ∨
  (d_is_zero d = false ∧ ∃ s m e, d = S754_finite s m e).
Proof.
  intros _ Hf. destruct d as [s| | |s m e]; try done; [by left|right]. split; [by destruct s|]. eauto.
Qed.

(** The size test that lets a whole double take the int64 path. *)
Lemma whole_fits mant exp2 : 0 < mant < 2 ^ 53 → 0 < exp2 →
  (exp2 <? 62) && (mant <? u64 (Z.shiftl 1 (62 - exp2))) = true →
  u64 (Z.shiftl mant exp2) = mant * 2 ^ exp2 ∧ mant * 2 ^ exp2 < 2 ^ 62.
Proof.
  intros Hm He [Hlt%Z.ltb_lt Hmx%Z.ltb_lt]%andb_prop. rewrite Z.shiftl_1_l, Z.shiftl_mul_pow2 in * by lia.
  assert (2 ^ (62 - exp2) <= 2 ^ 62) by (apply Z.pow_le_mono_r; lia).
  rewrite u64_id in Hmx by (unfold is_u64; lia).
  assert (E : 2 ^ (62 - exp2) * 2 ^ exp2 = 2 ^ 62) by (rewrite <- Z.pow_add_r by lia; f_equal; lia).
  pose proof (Z.pow_pos_nonneg 2 exp2 ltac:(lia) ltac:(lia)).
  assert (mant * 2 ^ exp2 < 2 ^ 62) by (rewrite <- E; nia). rewrite u64_id by (unfold is_u64; nia). done.
Qed.

Lemma signed_i64 (s : bool) m : 0 <= m < 2 ^ 63 → is_i64 (if s then - m else m).
Proof. unfold is_i64. destruct s; lia. Qed.

(** Exponents of doubles are far below the 38 bits of [eshkol_bignum_shift]. *)
Lemma decompose_exp s m e : is_double (S754_finite s m e) →
  let '(mant, exp2, neg) := double_decompose_exact (S754_finite s m e) in - 2 ^ 31 < exp2 < 2 ^ 31.
Proof.
  intros Hv. pose proof (decompose_spec s m e Hv) as H.
  destruct (double_decompose_exact (S754_finite s m e)) as [[mant exp2] neg].
  destruct H as (_ & Hm & _ & k & H).
  unfold is_double, valid_binary, bounded, canonical_mantissa in Hv.
  apply andb_prop in Hv as [Hc%Z.eqb_eq Hle%Z.leb_le]. unfold fexp, emin, prec, emax in *.
  assert (Hk : ∀ x y, 0 < x → 0 < y → x = y * 2 ^ k → x < 2 ^ 53 → 0 <= k → k < 53).
  { intros x y Hx Hy E Hb Hk0. destruct (Z.lt_ge_cases k 53) as [|L]; [done|].
    pose proof (Z.pow_le_mono_r 2 53 k ltac:(lia) L). nia. }
  pose proof (digits2_bound m) as Hd. assert (Zpos (digits2_pos m) <= 53) by lia.
  assert (Zpos m < 2 ^ 53) by (pose proof (Z.pow_le_mono_r 2 (Zpos (digits2_pos m)) 53 ltac:(lia) ltac:(lia)); lia).
  destruct H as [(Hk0 & Em & ->)|(Hk0 & Em & ->)].
  - pose proof (Hk (Zpos m) mant ltac:(lia) ltac:(lia) Em ltac:(lia) Hk0). lia.
  - pose proof (Hk mant (Zpos m) ltac:(lia) ltac:(lia) Em ltac:(lia) Hk0). lia.
Qed.

(** Everything the conversions need from the decomposition. *)
Record decomposed (d : double) (mant exp2 : Z) (neg : bool) : Prop := {
  dec_mant : 0 < mant < 2 ^ 53;
  dec_odd : Z.odd mant = true;
  dec_exp : - 2 ^ 31 < exp2 < 2 ^ 31;
  dec_val : dnum d * 2 ^ (Z.max (- exp2) 0) = signed neg mant * 2 ^ (Z.max exp2 0) * dden d
}.

Lemma decomposed_finite s m e : is_double (S754_finite s m e) →
  ∃ mant exp2 neg, double_decompose_exact (S754_finite s m e) = (mant, exp2, neg) ∧
    decomposed (S754_finite s m e) mant exp2 neg.
Proof.
  intros Hv. pose proof (decompose_spec s m e Hv) as H1. pose proof (decompose_exp s m e Hv) as H2.
  pose proof (decompose_value s m e Hv) as H3.
  destruct (double_decompose_exact (S754_finite s m e)) as [[mant exp2] neg].
  destruct H1 as (-> & ? & ? & _), H3 as (_ & _ & ?). eexists _, _, _. split; [done|]. by split.
Qed.

Lemma shift_whole mant exp2 (neg : bool) : 0 < mant < 2 ^ 53 → 0 < exp2 < 2 ^ 31 →
  eshkol_bignum_shift (eshkol_bignum_from_int64 (if neg then - mant else mant)) exp2
  ⇓ signed neg mant * 2 ^ exp2.
Proof.
  intros Hm He. eapply denotes_eq.
  - apply shift_left_denotes; [apply from_int64_denotes, signed_i64; lia|destruct neg; lia|lia].
  - by rewrite Z.shiftl_mul_pow2 by lia.
Qed.

Lemma create_num n d : is_i64 n → is_i64 d → d ≠ 0 →
  ∃ r, eshkol_rational_create n d = Ret r ∧ canonical r ∧ (rval r == inject_Z n / inject_Z d)%Q.
Proof. apply create_rval. Qed.

Lemma to_rational_fraction d mant exp2 neg : decomposed d mant exp2 neg → exp2 < 0 →
  d_is_zero d = false → is_finite d = true → double_decompose_exact d = (mant, exp2, neg) →
  ∃ r, eshkol_double_to_rational d = Ret r ∧ canonical r ∧ (rval r == dval d)%Q ∧ rden r ≠ 1.
Proof.
  intros [Hm Ho Hr Hv] Hneg Hz Hf Hd. unfold eshkol_double_to_rational. rewrite Hz, Hf, Hd. cbn [negb].
  destruct (Z.eqb_spec exp2 0); [lia|]. destruct (Z.ltb_spec 0 exp2); [lia|].
  pose proof (Z.pow_pos_nonneg 2 (- exp2) ltac:(lia) ltac:(lia)) as Hp.
  rewrite Z.max_l, (Z.max_r exp2), Z.pow_0_r, Z.mul_1_r in Hv by lia.
  assert (Hn : is_i64 (signed neg mant)) by (apply signed_i64; lia).
  assert (Hq : ∃ r, (if - exp2 <? 63 then eshkol_rational_create (if neg then - mant else mant) (Z.shiftl 1 (- exp2))
     else eshkol_rational_create_bn (eshkol_bignum_from_int64 (if neg then - mant else mant))
            (eshkol_bignum_shift (eshkol_bignum_from_int64 1) (- exp2))) = Ret r ∧ canonical r ∧
     rnum r * 2 ^ (- exp2) = signed neg mant * rden r).
  { destruct (Z.ltb_spec (- exp2) 63).
    - rewrite Z.shiftl_1_l. apply create_quotient; [exact Hn| |lia].
      unfold is_i64. pose proof (Z.pow_lt_mono_r 2 (- exp2) 63 ltac:(lia) ltac:(lia) ltac:(lia)). lia.
    - apply create_bn_quotient; [by apply from_int64_denotes| |lia].
      eapply denotes_eq; [apply shift_left_denotes; [apply small_literal; lia|lia|lia]|]. apply Z.shiftl_1_l. }
  destruct Hq as (r & Er & Hc & E). exists r. split_and!; [exact Er|done| |].
  - rewrite (rval_cross r _ _ Hc Hp E). rewrite <- (cross_dval d _ _ Hp Hv).
    unfold Qdiv, Qmult, Qinv, Qeq, inject_Z. cbn [Qnum Qden].
    destruct (2 ^ (- exp2)) as [|p|p]; [done| |done]. cbn. lia.
  - intros E1. rewrite E1, Z.mul_1_r in E. apply (f_equal Z.odd) in E.
    assert (Z.odd (signed neg mant) = true) as Ho' by (destruct neg; simpl; rewrite ?Z.odd_opp; done).
    rewrite Ho', Z.odd_mul, Z.odd_pow in E by lia. simpl in E. rewrite andb_false_r in E. done.
Qed.

(** [inexact->exact] of a finite double is exactly its value, in canonical form. *)
Lemma double_to_exact_num d : is_double d → is_finite d = true →
  returns_num (eshkol_double_to_exact_tagged d) (dval d).
Proof.
  intros Hv Hf. unfold eshkol_double_to_exact_tagged. rewrite Hf.
  destruct (finite_cases d Hv Hf) as [[-> Hz]|[Hz (s & m & e & E)]].
  { exists (eshkol_make_int64 0 true). split_and!; [done|cbn; unfold is_i64; lia|]. cbn. rewrite Hz. split; [|done]. unfold is_i64. lia. }
  rewrite Hz. cbn [negb]. destruct (decomposed_finite s m e) as (mant & exp2 & neg & Ed & Hdec); [by rewrite <- E|].
  rewrite <- E in *. rewrite Ed. pose proof Hdec as [Hm Ho Hr Hval].
  assert (Hwhole : 0 <= exp2 → (inject_Z (signed neg mant * 2 ^ exp2) == dval d)%Q).
  { intros L. rewrite Z.max_r, (Z.max_l exp2), Z.pow_0_r in Hval by lia. rewrite <- (cross_dval d _ 1 ltac:(lia) Hval).
    by rewrite inject_over_one. }
  destruct (Z.eqb_spec exp2 0) as [E0|E0].
  - specialize (Hwhole ltac:(lia)). rewrite E0, Z.pow_0_r, Z.mul_1_r in Hwhole.
    eexists. split; [reflexivity|]. cbn. pose proof (signed_i64 neg mant ltac:(lia)). done.
  - destruct (Z.ltb_spec 0 exp2) as [L|L].
    + specialize (Hwhole ltac:(lia)). destruct (_ && _) eqn:Hs.
      * destruct (whole_fits mant exp2 Hm L Hs) as [Ew Hb]. rewrite Ew.
        assert (Ei : (if neg then - (mant * 2 ^ exp2) else mant * 2 ^ exp2) = signed neg mant * 2 ^ exp2)
          by (destruct neg; simpl; ring).
        pose proof (Z.pow_pos_nonneg 2 exp2 ltac:(lia) ltac:(lia)).
        pose proof (signed_i64 neg (mant * 2 ^ exp2) ltac:(nia)) as Hi. rewrite Ei in *.
        eexists. split; [reflexivity|]. cbn. done.
      * eapply returns_num_proper; [symmetry; exact Hwhole|]. apply bignum_tagged_int_num, shift_whole; [done|lia].
    + destruct (to_rational_fraction d mant exp2 neg Hdec ltac:(lia) Hz Hf Ed) as (r & -> & Hc & Er & Hden).
      eexists. split; [reflexivity|]. cbn. done.
Qed.

(** ** Rounding *)

Lemma tag_i64_num z : is_i64 z → returns_num (Ret (tag_exact_i64 z)) (inject_Z z).
Proof. intros Hz. eexists. split; [reflexivity|]. done. Qed.

Lemma floor_num r : canonical r → returns_num (eshkol_rational_floor_tagged r) (inject_Z (rnum r / rden r)).
Proof.
  intros Hr. unfold eshkol_rational_floor_tagged. destruct (is_big r) eqn:E; cbn [negb].
  - destruct (floor_bn_returns r Hr) as (b & -> & Hb). by apply bignum_tagged_int_num.
  - destruct (small_fields r Hr E) as (-> & -> & Hn & Hd & Hpos). unfold eshkol_rational_floor.
    rewrite <- quot_floor by done. apply tag_i64_num. unfold is_i64 in *.
    split; [apply Z.div_le_lower_bound|apply Z.div_lt_upper_bound]; nia.
Qed.

Lemma ceil_num r : canonical r → returns_num (eshkol_rational_ceil_tagged r) (inject_Z (- (- rnum r / rden r))).
Proof.
  intros Hr. unfold eshkol_rational_ceil_tagged. destruct (is_big r) eqn:E; cbn [negb].
  - assert (rnum r ≠ 0).
    { intros E0. pose proof (can_gcd r Hr) as Hg. destruct (can_big r Hr E) as (_ & _ & _ & _ & []).
      pose proof (can_den r Hr). rewrite E0, Z.gcd_0_l_nonneg in * by lia. rewrite Hg. unfold is_i64. lia. }
    destruct (ceil_bn_returns r Hr) as (b & -> & Hb); [done|]. by apply bignum_tagged_int_num.
  - destruct (small_fields r Hr E) as (-> & -> & Hn & Hd & Hpos). unfold eshkol_rational_ceil.
    rewrite <- quot_ceil by done. apply tag_i64_num. unfold is_i64 in *.
    pose proof (Z.div_mod (- numerator r) (denominator r)). pose proof (Z.mod_pos_bound (- numerator r) (denominator r)). nia.
Qed.

Lemma truncate_num r : canonical r → returns_num (eshkol_rational_truncate_tagged r) (inject_Z (Z.quot (rnum r) (rden r))).
Proof.
  intros Hr. unfold eshkol_rational_truncate_tagged. destruct (is_big r) eqn:E; cbn [negb].
  - destruct (trunc_bn_returns r Hr) as (b & -> & Hb). by apply bignum_tagged_int_num.
  - destruct (small_fields r Hr E) as (-> & -> & Hn & Hd & Hpos). by apply tag_i64_num, quot_i64.
Qed.

Lemma round_num r : canonical r → (is_big r = false → 2 * (Z.abs (rnum r) mod rden r) < 2 ^ 63) →
  returns_num (eshkol_rational_round_tagged r) (inject_Z (round_even (rnum r) (rden r))).
Proof.
  intros Hr Hov. unfold eshkol_rational_round_tagged. destruct (is_big r) eqn:E; cbn [negb].
  - destruct (round_bn_returns r Hr) as (b & -> & Hb). by apply bignum_tagged_int_num.
  - rewrite round_small by auto. apply tag_i64_num.
    destruct (small_fields r Hr E) as (-> & -> & Hn & Hd & Hpos). unfold round_even, is_i64 in *.
    set (q := numerator r / denominator r). pose proof (Z.div_mod (numerator r) (denominator r) ltac:(lia)) as Ed.
    pose proof (Z.mod_pos_bound (numerator r) (denominator r) Hpos). fold q in Ed.
    assert (q <= Z.abs (numerator r) ∧ - Z.abs (numerator r) <= q) by nia.
    destruct (Z.ltb_spec (2 * (numerator r - q * denominator r)) (denominator r)); [nia|].
    assert (q + 1 <= 2 ^ 63 - 1) by (destruct (Z.eq_dec (denominator r) 1); nia).
    destruct (_ <? _); [nia|]. destruct (Z.even q); nia.
Qed.
