(* ===== verification/Dispatch.v ===== *)
(** * Dispatch: the tagged entry points of lib/core/bignum.cpp

    [eshkol_bignum_binary_tagged], [eshkol_gcd_tagged],
    [eshkol_bignum_compare_tagged], [eshkol_bignum_pow_tagged] and
    [eshkol_bignum_bitwise_tagged]: promotion of [int64] operands, the exact and
    inexact paths, demotion of the result.

    [misread] stands for reading an object of another subtype, or NULL, as a
    bignum struct, which [tagged_to_bignum] does because it does not look at the
    subtype; [c_pow] is the C library's [pow]. *)

From S2P Require Export TaggedSpec.
Local Open Scope Z_scope.

Section dispatch.

Context (misread : option heap_obj → bignum).
Context (c_pow : double → double → double).

(** The pointer taken as a bignum. *)
Definition as_bignum (p : option heap_obj) : bignum :=
  match p with Some (HBignum b) => b | _ => misread p end.

Definition tagged_to_bignum (v : tagged) : option bignum :=
  match data v with
  | VHeap None => None
  | VHeap p => Some (as_bignum p)
  | VInt64 i => eshkol_bignum_from_int64 i
  | _ => None
  end.

Definition eshkol_is_bignum_tagged (v : tagged) : bool :=
  match data v with VHeap (Some (HBignum _)) => true | _ => false end.

(** [data.int_val] of a value that is neither a double nor a pointer. *)
Definition int_val (v : tagged) : Z :=
  match data v with VInt64 i => i | VImm _ bits => bits | _ => 0 end.

Definition operand_to_double (v : tagged) : double :=
  match data v with
  | VDouble d => d
  | VHeap None => of_int 0
  | VHeap p => eshkol_bignum_to_double (Some (as_bignum p))
  | _ => of_int (int_val v)
  end.

(** Demote to [int64] when it fits. *)
Definition demote (r : option bignum) : tagged :=
  match r with
  | None => eshkol_make_int64 0 true
  | Some _ =>
      match eshkol_bignum_fits_int64 r with
      | Some fits => eshkol_make_int64 fits true
      | None => Tagged (bignum_ptr r) ESHKOL_VALUE_EXACT_FLAG
      end
  end.

Definition inexact_binary (ld rd : double) (op : Z) : outcome tagged :=
  if op =? 0 then Ret (eshkol_make_double (d_add ld rd))
  else if op =? 1 then Ret (eshkol_make_double (d_sub ld rd))
  else if op =? 2 then Ret (eshkol_make_double (d_mul ld rd))
  else if op =? 3 then Ret (eshkol_make_double (d_div ld rd))
  else if (op =? 4) || (op =? 5) || (op =? 6) then
    if d_is_zero rd then Raised DivideByZero
    else if op =? 5 then Ret (eshkol_make_double (d_trunc (d_div ld rd)))
    else
      let r := d_fmod ld rd in
      let r := if (op =? 4) && negb (d_is_zero r) && negb (Bool.eqb (d_lt r d_zero) (d_lt rd d_zero))
               then d_add r rd else r in
      Ret (eshkol_make_double r)
  else Ret (eshkol_make_double d_zero).

(** Floor-mod from the truncating remainder. *)
Definition bignum_modulo (a b : option bignum) : outcome (option bignum) :=
  m ← eshkol_bignum_mod a b;
  match m, b with
  | Some mb, Some bb =>
      if negb (eshkol_bignum_is_zero m) && negb (sign mb =? sign bb)
      then Ret (eshkol_bignum_add m b) else Ret m
  | _, _ => Ret m
  end.

Definition exact_binary (a b : option bignum) (op : Z) : outcome tagged :=
  if op =? 0 then Ret (demote (eshkol_bignum_add a b))
  else if op =? 1 then Ret (demote (eshkol_bignum_sub a b))
  else if op =? 2 then Ret (demote (eshkol_bignum_mul a b))
  else if op =? 3 then
    if eshkol_bignum_is_zero b then Raised DivideByZero
    else eshkol_rational_from_bignums_tagged a b
  else if op =? 4 then r ← bignum_modulo a b; Ret (demote r)
  else if op =? 5 then r ← eshkol_bignum_div a b; Ret (demote r)
  else if op =? 6 then r ← eshkol_bignum_mod a b; Ret (demote r)
  else Ret (eshkol_make_int64 0 true).

Definition eshkol_bignum_binary_tagged (left right : tagged) (op : Z) : outcome tagged :=
  _ ← reject_float32_arithmetic left;
  _ ← (if negb (op =? 7) then reject_float32_arithmetic right else Ret tt);
  if eshkol_is_rational_tagged left || eshkol_is_rational_tagged right then
    if (0 <=? op) && (op <=? 3) then eshkol_rational_binary_tagged left right op
    else if op =? 7 then eshkol_rational_binary_tagged (eshkol_make_int64 0 true) left 1
    else Ret (eshkol_make_int64 0 true)
  else if op =? 7 then
    match tagged_to_bignum left with
    | None => Ret (eshkol_make_int64 0 true)
    | a => Ret (Tagged (bignum_ptr (eshkol_bignum_neg a)) ESHKOL_VALUE_EXACT_FLAG)
    end
  else if is_double_tagged left || is_double_tagged right then
    inexact_binary (operand_to_double left) (operand_to_double right) op
  else
    match tagged_to_bignum left, tagged_to_bignum right with
    | Some a, Some b => exact_binary (Some a) (Some b) op
    | _, _ => Ret (eshkol_make_int64 0 true)
    end.

(** Euclid's loop; the same fuel as [bn_gcd]. *)
Fixpoint gcd_tagged_loop (fuel : nat) (g_a g_b : option bignum) : outcome (option bignum) :=
  match fuel with
  | O => Ret g_a
  | S fuel' =>
      if eshkol_bignum_is_zero g_b then Ret g_a
      else
        rem ← eshkol_bignum_mod g_a g_b;
        match rem with
        | None => Ret g_b
        | Some _ => gcd_tagged_loop fuel' g_b (clear_sign rem)
        end
  end.

Definition eshkol_gcd_tagged (left right : tagged) : outcome tagged :=
  _ ← reject_float32_arithmetic left;
  _ ← reject_float32_arithmetic right;
  match tagged_to_bignum left, tagged_to_bignum right with
  | Some a, Some b =>
      let g_a := bn_magnitude (Some a) in
      let g_b := bn_magnitude (Some b) in
      g ← gcd_tagged_loop (bn_gcd_fuel g_b) g_a g_b;
      Ret (demote (clear_sign g))
  | _, _ => Ret (eshkol_make_int64 0 true)
  end.

Definition is_heap (v : tagged) : bool := match data v with VHeap _ => true | _ => false end.
Definition heap_bignum (v : tagged) : bignum :=
  match data v with VHeap p => as_bignum p | _ => misread None end.

Definition eshkol_bignum_compare_tagged (left right : tagged) (op : Z) : outcome tagged :=
  _ ← reject_float32_arithmetic left;
  _ ← reject_float32_arithmetic right;
  if eshkol_is_rational_tagged left || eshkol_is_rational_tagged right then
    eshkol_rational_compare_tagged_ptr left right op
  else if is_double_tagged left || is_double_tagged right then
    let to_double v := match data v with
                       | VDouble d => d
                       | VHeap p => eshkol_bignum_to_double (Some (as_bignum p))
                       | _ => of_int (int_val v)
                       end in
    Ret (make_bool (compare_double_op op (to_double left) (to_double right)) ESHKOL_VALUE_EXACT_FLAG)
  else
    let cmp :=
      if negb (is_heap left) && negb (is_heap right) then
        b2z (int_val right <? int_val left) - b2z (int_val left <? int_val right)
      else if is_heap left && is_heap right then
        eshkol_bignum_compare (Some (heap_bignum left)) (Some (heap_bignum right))
      else if is_heap left then eshkol_bignum_compare_int64 (heap_bignum left) (int_val right)
      else - eshkol_bignum_compare_int64 (heap_bignum right) (int_val left) in
    Ret (make_bool (compare_int_op op cmp) ESHKOL_VALUE_EXACT_FLAG).

Definition is_int64_tagged (v : tagged) : bool := match data v with VInt64 _ => true | _ => false end.

(** The base as a bignum, on the exact paths. *)
Definition pow_base (base : tagged) : option bignum :=
  match data base with
  | VHeap (Some (HBignum b)) => Some b
  | _ => eshkol_bignum_from_int64 (int_val base)
  end.

Definition pow_inexact (base exponent : tagged) : tagged :=
  let ed := match data exponent with VDouble d => d | _ => of_int (int_val exponent) end in
  eshkol_make_double (c_pow (operand_to_double base) ed).

Definition eshkol_bignum_pow_tagged (base exponent : tagged) : outcome tagged :=
  _ ← reject_float32_arithmetic base;
  _ ← reject_float32_arithmetic exponent;
  let exact_base := is_int64_tagged base || eshkol_is_bignum_tagged base in
  if exact_base && is_int64_tagged exponent && (0 <=? int_val exponent) then
    Ret (demote (eshkol_bignum_pow (pow_base base) (u64 (int_val exponent))))
  else if exact_base && is_int64_tagged exponent && (int_val exponent <? 0) then
    let mag := u64 (0 - u64 (int_val exponent)) in
    match eshkol_bignum_fits_int64 (eshkol_bignum_pow (pow_base base) mag) with
    | Some denom =>
        if denom =? 0 then Raised DivideByZero
        else rat ← eshkol_rational_create 1 denom;
             Ret (Tagged (rational_ptr rat) ESHKOL_VALUE_EXACT_FLAG)
    | None => Ret (pow_inexact base exponent)
    end
  else Ret (pow_inexact base exponent).

(** [to_bignum] of the bitwise dispatch does look at the subtype. *)
Definition bitwise_operand (v : tagged) : option bignum :=
  match data v with
  | VHeap (Some (HBignum b)) => Some b
  | VInt64 i => eshkol_bignum_from_int64 i
  | _ => None
  end.

Definition eshkol_bignum_bitwise_tagged (left right : tagged) (op : Z) : outcome tagged :=
  _ ← reject_float32_arithmetic left;
  _ ← (if negb (op =? 3) && negb (op =? 5) then reject_float32_arithmetic right else Ret tt);
  let a := bitwise_operand left in
  let res :=
    if op =? 0 then eshkol_bignum_bitwise_and a (bitwise_operand right)
    else if op =? 1 then eshkol_bignum_bitwise_or a (bitwise_operand right)
    else if op =? 2 then eshkol_bignum_bitwise_xor a (bitwise_operand right)
    else if op =? 3 then eshkol_bignum_bitwise_not a
    else if op =? 4 then
      eshkol_bignum_shift a (match data right with VInt64 i => i | _ => 0 end)
    else if op =? 5 then
      match a with Some _ => eshkol_bignum_from_int64 (eshkol_bignum_popcount a) | None => None end
    else None in
  Ret (match res with
       | None => Tagged (VInt64 0) 0
       | Some _ =>
           match eshkol_bignum_fits_int64 res with
           | Some int_val => Tagged (VInt64 int_val) 0
           | None => Tagged (bignum_ptr res) 0
           end
       end).

(** ** Exact integers through the dispatch *)

(** [p] is an exact integer of value [z]: an [int64] or any well-formed bignum. *)
Definition exact_int (p : payload) (z : Z) : Prop :=
  match p with
  | VInt64 v => is_i64 v ∧ v = z
  | VHeap (Some (HBignum b)) => wf b ∧ bval b = z
  | _ => False
  end.

(** [p] is the canonical representation of the integer [z]. *)
Definition canonical_int (p : payload) (z : Z) : Prop :=
  match p with
  | VInt64 v => is_i64 v ∧ v = z
  | VHeap (Some (HBignum b)) => wf b ∧ bval b = z ∧ ¬ is_i64 z
  | _ => False
  end.

Definition returns_int (o : outcome tagged) (z : Z) : Prop :=
  ∃ v, o = Ret v ∧ canonical_int (data v) z.

Ltac int_operand v :=
  let H := fresh in intros H; revert H;
  destruct (data v) as [?|?|?|[[?|?|?]|]|? ?] eqn:?; try done; intros [? ?]; subst.

Lemma int_to_bignum v z : exact_int (data v) z → tagged_to_bignum v ⇓ z.
Proof.
  unfold exact_int, tagged_to_bignum. int_operand v; [by apply from_int64_denotes|]. by eexists.
Qed.

Lemma int_bitwise_operand v z : exact_int (data v) z → bitwise_operand v ⇓ z.
Proof.
  unfold exact_int, bitwise_operand. int_operand v; [by apply from_int64_denotes|]. by eexists.
Qed.

Lemma int_not_float32 v z : exact_int (data v) z → reject_float32_arithmetic v = Ret tt.
Proof. unfold reject_float32_arithmetic, exact_int. by destruct (data v). Qed.
Lemma int_not_rational v z : exact_int (data v) z → eshkol_is_rational_tagged v = false.
Proof. unfold eshkol_is_rational_tagged, exact_int. by destruct (data v) as [| | |[[]|]|]. Qed.
Lemma int_not_double v z : exact_int (data v) z → is_double_tagged v = false.
Proof. unfold is_double_tagged, exact_int. by destruct (data v). Qed.

Lemma demote_int r z : r ⇓ z → canonical_int (data (demote r)) z.
Proof.
  intros Hr. pose proof (fits_int64_denotes _ _ Hr) as Hf. destruct Hr as (b & -> & Hb & Eb).
  unfold demote. rewrite Hf. by destruct (decide (is_i64 z)).
Qed.

Lemma modulo_returns a b za zb : a ⇓ za → b ⇓ zb → zb ≠ 0 → bignum_modulo a b ⇓ᵣ za mod zb.
Proof.
  intros Ha Hb Hne. unfold bignum_modulo. destruct (mod_returns _ _ _ _ Ha Hb Hne) as (m & -> & Hm).
  cbn [mbind outcome_bind]. pose proof (is_zero_denotes _ _ Hm) as Hz. pose proof (add_denotes _ _ _ _ Hm Hb) as Hadd.
  pose proof Hm as (mb & -> & Hmb & Em). pose proof Hb as (bb & -> & Hbb & Eb).
  rewrite Hz. pose proof (bval_sign mb Hmb) as Sm. pose proof (bval_sign bb Hbb) as Sb. rewrite Em in Sm. rewrite Eb in Sb.
  assert (Es : (sign mb =? sign bb) = Bool.eqb (0 <=? Z.rem za zb) (0 <=? zb)).
  { rewrite <- Sm, <- Sb. destruct (wf_sign mb Hmb) as [->| ->], (wf_sign bb Hbb) as [->| ->]; done. }
  rewrite Es. pose proof (Z.quot_rem za zb Hne) as Eq. pose proof (Z.rem_sign_mul za zb Hne).
  pose proof (Z.rem_bound_abs za zb Hne) as Hab. set (r := Z.rem za zb) in *. set (q := Z.quot za zb) in *.
  destruct (Z.eqb_spec r 0) as [E0|E0]; cbn [negb andb].
  - eexists. split; [reflexivity|]. eapply denotes_eq; [exact Hm|].
    destruct (Z.lt_ge_cases 0 zb); [apply Z.mod_unique_pos with q|apply Z.mod_unique_neg with q]; lia.
  - destruct (Z.leb_spec 0 r), (Z.leb_spec 0 zb); cbn [Bool.eqb negb]; eexists; (split; [reflexivity|]).
    + eapply denotes_eq; [exact Hm|]. apply Z.mod_unique_pos with q; lia.
    + eapply denotes_eq; [exact Hadd|]. apply Z.mod_unique_neg with (q - 1); lia.
    + eapply denotes_eq; [exact Hadd|]. apply Z.mod_unique_pos with (q - 1); lia.
    + eapply denotes_eq; [exact Hm|]. apply Z.mod_unique_neg with q; lia.
Qed.

(** The integer operations by number: +, -, *, modulo, quotient, remainder. *)
Definition int_op (op x y : Z) : Z :=
  if op =? 0 then x + y else if op =? 1 then x - y else if op =? 2 then x * y
  else if op =? 4 then x mod y else if op =? 5 then Z.quot x y else Z.rem x y.

Lemma exact_path left right x y op : exact_int (data left) x → exact_int (data right) y → op ≠ 7 →
  ∃ a b, a ⇓ x ∧ b ⇓ y ∧ eshkol_bignum_binary_tagged left right op = exact_binary a b op.
Proof.
  intros Hl Hr Hop. exists (tagged_to_bignum left), (tagged_to_bignum right).
  pose proof (int_to_bignum _ _ Hl) as Ha. pose proof (int_to_bignum _ _ Hr) as Hb. split_and!; [done|done|].
  unfold eshkol_bignum_binary_tagged. rewrite (int_not_float32 _ _ Hl), (int_not_float32 _ _ Hr).
  rewrite (int_not_rational _ _ Hl), (int_not_rational _ _ Hr), (int_not_double _ _ Hl), (int_not_double _ _ Hr).
  destruct (Z.eqb_spec op 7); [done|]. cbn [mbind outcome_bind negb orb].
  by destruct Ha as (a & -> & _), Hb as (b & -> & _).
Qed.

Lemma binary_tagged_int left right x y op : exact_int (data left) x → exact_int (data right) y →
  0 <= op <= 6 → op ≠ 3 → (4 <= op → y ≠ 0) →
  returns_int (eshkol_bignum_binary_tagged left right op) (int_op op x y).
Proof.
  intros Hl Hr Hop H3 Hz. destruct (exact_path left right x y op Hl Hr ltac:(lia)) as (a & b & Ha & Hb & ->).
  assert (op = 0 ∨ op = 1 ∨ op = 2 ∨ op = 4 ∨ op = 5 ∨ op = 6) as [->|[->|[->|[->|[->| ->]]]]] by lia;
    unfold exact_binary, int_op; cbn [Z.eqb Pos.eqb].
  - eexists. split; [reflexivity|]. apply demote_int. auto with bignum.
  - eexists. split; [reflexivity|]. apply demote_int. auto with bignum.
  - eexists. split; [reflexivity|]. apply demote_int. auto with bignum.
  - destruct (modulo_returns _ _ _ _ Ha Hb ltac:(lia)) as (r & -> & Hrr). eexists. split; [reflexivity|]. by apply demote_int.
  - destruct (div_returns _ _ _ _ Ha Hb ltac:(lia)) as (r & -> & Hrr). eexists. split; [reflexivity|]. by apply demote_int.
  - destruct (mod_returns _ _ _ _ Ha Hb ltac:(lia)) as (r & -> & Hrr). eexists. split; [reflexivity|]. by apply demote_int.
Qed.

Lemma binary_tagged_div_zero left right x op : exact_int (data left) x → exact_int (data right) 0 →
  3 <= op <= 6 → eshkol_bignum_binary_tagged left right op = Raised DivideByZero.
Proof.
  intros Hl Hr Hop. destruct (exact_path left right x 0 op Hl Hr ltac:(lia)) as (a & b & Ha & Hb & ->).
  destruct (div_by_zero a b x Ha Hb) as [Ed Em]. pose proof (is_zero_denotes _ _ Hb) as Hz.
  assert (op = 3 ∨ op = 4 ∨ op = 5 ∨ op = 6) as [->|[->|[->| ->]]] by lia;
    unfold exact_binary, bignum_modulo; cbn [Z.eqb Pos.eqb]; by rewrite ?Hz, ?Ed, ?Em.
Qed.

Lemma divide_tagged_num left right x y : exact_int (data left) x → exact_int (data right) y → y ≠ 0 →
  returns_num (eshkol_bignum_binary_tagged left right 3) (inject_Z x / inject_Z y).
Proof.
  intros Hl Hr Hne. destruct (exact_path left right x y 3 Hl Hr ltac:(lia)) as (a & b & Ha & Hb & ->).
  unfold exact_binary. cbn [Z.eqb Pos.eqb]. rewrite (is_zero_denotes _ _ Hb). destruct (Z.eqb_spec y 0); [done|].
  unfold eshkol_rational_from_bignums_tagged. destruct (create_bn_rval a b x y Ha Hb Hne) as (r & -> & Hrc & E).
  cbn [mbind outcome_bind]. eapply returns_num_proper; [symmetry; exact E|]. by apply result_num.
Qed.

Lemma gcd_tagged_loop_eq fuel a b za zb : a ⇓ za → b ⇓ zb → gcd_tagged_loop fuel a b = bn_gcd_loop fuel a b.
Proof.
  revert a b za zb. induction fuel as [|fuel IH]; intros a b za zb Ha Hb; [done|]. cbn [gcd_tagged_loop bn_gcd_loop].
  rewrite (is_zero_denotes _ _ Hb). destruct (Z.eqb_spec zb 0); [done|].
  destruct (mod_returns _ _ _ _ Ha Hb ltac:(done)) as (r & -> & Hr). cbn [mbind outcome_bind].
  pose proof (clear_sign_denotes _ _ Hr) as Hc. destruct Hr as (r0 & -> & _). by eapply IH.
Qed.

Lemma gcd_tagged_int left right x y : exact_int (data left) x → exact_int (data right) y →
  returns_int (eshkol_gcd_tagged left right) (Z.gcd x y).
Proof.
  intros Hl Hr. unfold eshkol_gcd_tagged. rewrite (int_not_float32 _ _ Hl), (int_not_float32 _ _ Hr).
  cbn [mbind outcome_bind]. pose proof (int_to_bignum _ _ Hl) as Ha. pose proof (int_to_bignum _ _ Hr) as Hb.
  pose proof (bn_gcd_returns _ _ _ _ Ha Hb) as Hg. unfold bn_gcd in Hg.
  pose proof (magnitude_denotes _ _ Ha) as Hma. pose proof (magnitude_denotes _ _ Hb) as Hmb.
  destruct (tagged_to_bignum left) as [a|]; [|by destruct Ha as (? & ? & _)].
  destruct (tagged_to_bignum right) as [b|]; [|by destruct Hb as (? & ? & _)].
  rewrite (gcd_tagged_loop_eq _ _ _ _ _ Hma Hmb). destruct (bn_gcd_loop _ _ _) as [g|e].
  - destruct Hg as (g' & [= <-] & Hg). eexists. split; [reflexivity|]. by apply demote_int.
  - by destruct Hg as (? & ? & _).
Qed.

Lemma compare_tagged_int left right x y op : exact_int (data left) x → exact_int (data right) y →
  eshkol_bignum_compare_tagged left right op =
    Ret (make_bool (compare_int_op op (Z.sgn (x - y))) ESHKOL_VALUE_EXACT_FLAG).
Proof.
  intros Hl Hr. unfold eshkol_bignum_compare_tagged.
  rewrite (int_not_float32 _ _ Hl), (int_not_float32 _ _ Hr), (int_not_rational _ _ Hl), (int_not_rational _ _ Hr),
    (int_not_double _ _ Hl), (int_not_double _ _ Hr). cbn [mbind outcome_bind orb]. do 3 f_equal.
  unfold is_heap, heap_bignum, int_val, exact_int in *.
  destruct (data left) as [i| | |[[b| |]|]|]; try done; destruct Hl as [Hl <-];
  destruct (data right) as [j| | |[[c| |]|]|]; try done; destruct Hr as [Hr <-]; cbn [negb andb as_bignum].
  - destruct (Z.ltb_spec j i), (Z.ltb_spec i j); cbn [b2z]; lia.
  - rewrite compare_int64_denotes by done. rewrite <- Z.sgn_opp. f_equal. lia.
  - by apply compare_int64_denotes.
  - apply compare_denotes; by eexists.
Qed.

Lemma pow_base_int base x : exact_int (data base) x → pow_base base ⇓ x ∧
  is_int64_tagged base || eshkol_is_bignum_tagged base = true.
Proof.
  unfold exact_int, pow_base, is_int64_tagged, eshkol_is_bignum_tagged, int_val. int_operand base.
  - split; [by apply from_int64_denotes|done].
  - split; [by eexists|done].
Qed.

Lemma pow_tagged_int base e x n : exact_int (data base) x → data e = VInt64 n → is_i64 n → 0 <= n →
  returns_int (eshkol_bignum_pow_tagged base e) (x ^ n).
Proof.
  intros Hb He Hn H0. destruct (pow_base_int base x Hb) as [Hx Ex]. unfold eshkol_bignum_pow_tagged.
  rewrite (int_not_float32 _ _ Hb), Ex. unfold reject_float32_arithmetic, is_int64_tagged, int_val. rewrite !He.
  cbn [mbind outcome_bind andb]. destruct (Z.leb_spec 0 n); [|lia].
  assert (is_u64 n) by (unfold is_u64, is_i64 in *; lia). rewrite u64_id by done.
  eexists. split; [reflexivity|]. by apply demote_int, pow_denotes.
Qed.

(** Unary minus does not demote: the result is the exact negation, always as a bignum. *)
Lemma neg_tagged_int left right x : exact_int (data left) x → eshkol_is_rational_tagged right = false →
  ∃ v b, eshkol_bignum_binary_tagged left right 7 = Ret v ∧ data v = VHeap (Some (HBignum b)) ∧ wf b ∧ bval b = - x.
Proof.
  intros Hl Hr. unfold eshkol_bignum_binary_tagged.
  rewrite (int_not_float32 _ _ Hl), (int_not_rational _ _ Hl), Hr. cbn [mbind outcome_bind negb orb Z.eqb Pos.eqb].
  pose proof (int_to_bignum _ _ Hl) as Ha. pose proof (neg_denotes _ _ Ha) as (b & Eb & Hb & Ev).
  destruct Ha as (a & Ea & _). rewrite Ea in *. eexists _, b. split_and!; [reflexivity|by rewrite Eb|done|done].
Qed.

End dispatch.
