(* ===== verification/HashTable.v ===== *)
(** * HashTable: the open-addressing table (lib/core/runtime_hash_table.cpp)

    Three parallel arrays, linear probing, tombstones, growth by doubling when
    [size + tombstones] exceeds three quarters of the capacity.  The table is
    generic in its keys: [HashKey] states what it asks of [hash_tagged_value]
    and [hash_keys_equal].  Every operation runs under the global lock, so it is
    one atomic step; the arena the arrays live in is not modelled. *)

From S2P Require Export Prelude.
Local Open Scope nat_scope.

(** The contract between the table and its keys, on the keys [key_ok] admits. *)
Class HashKey (K : Type) := {
  key_hash : K → Z;
  key_eq : K → K → bool;
  key_ok : K → Prop;
  key_eq_refl k : key_ok k → key_eq k k = true;
  key_eq_sym a b : key_ok a → key_ok b → key_eq a b = true → key_eq b a = true;
  key_eq_trans a b c : key_ok a → key_ok b → key_ok c →
    key_eq a b = true → key_eq b c = true → key_eq a c = true;
  key_eq_hash a b : key_ok a → key_ok b → key_eq a b = true → key_hash a = key_hash b;
}.

Inductive entry_status := EMPTY | OCCUPIED | DELETED.

#[export] Instance entry_status_eq_dec : EqDecision entry_status.
Proof. solve_decision. Defined.

Definition HASH_TABLE_INITIAL_CAPACITY : nat := 16.

Section table.

Context {K V : Type} `{HashKey K} (zero_key : K) (zero_value : V).

Record hash_table := HashTable {
  keys : list K;
  values : list V;
  status : list entry_status;
  capacity : nat;
  size : nat;
  tombstones : nat
}.

(** Array reads. *)
Definition status_at (t : hash_table) (i : nat) : entry_status := nth i (status t) EMPTY.
Definition key_at (t : hash_table) (i : nat) : K := nth i (keys t) zero_key.
Definition value_at (t : hash_table) (i : nat) : V := nth i (values t) zero_value.

Definition arena_allocate_hash_table (initial_capacity : nat) : option hash_table :=
  if decide (initial_capacity = 0) then None
  else Some (HashTable (replicate initial_capacity zero_key) (replicate initial_capacity zero_value)
               (replicate initial_capacity EMPTY) initial_capacity 0 0).

Definition arena_hash_table_create : option hash_table :=
  arena_allocate_hash_table HASH_TABLE_INITIAL_CAPACITY.

(** [hash % capacity] *)
Definition home (k : K) (cap : nat) : nat := Z.to_nat (key_hash k mod Z.of_nat cap)%Z.

(** The probe loop, [n] turns left, at turn [i]: the slot of the key and the
    slot stored through [tombstone_slot]; [-1] is [None]. *)
Fixpoint find_loop (t : hash_table) (key : K) (index n i : nat) (first_tombstone : option nat)
    : option nat * option nat :=
  match n with
  | O => (None, first_tombstone)
  | S n' =>
      let probe_index := ((index + i) mod capacity t)%nat in
      match status_at t probe_index with
      | EMPTY => (None, first_tombstone)
      | DELETED =>
          find_loop t key index n' (S i)
            (match first_tombstone with None => Some probe_index | _ => first_tombstone end)
      | OCCUPIED =>
          if key_eq (key_at t probe_index) key then (Some probe_index, None)
          else find_loop t key index n' (S i) first_tombstone
      end
  end.

Definition find_slot (t : hash_table) (key : K) : option nat * option nat :=
  find_loop t key (home key (capacity t)) (capacity t) 0 None.

(** [while (status[index] != EMPTY) index = (index + 1) % capacity]; a table
    with an empty slot needs at most [capacity] turns. *)
Fixpoint free_slot (fuel : nat) (st : list entry_status) (cap index : nat) : nat :=
  match fuel with
  | O => index
  | S fuel' =>
      if decide (nth index st EMPTY = EMPTY) then index
      else free_slot fuel' st cap ((index + 1) mod cap)%nat
  end.

(** Write key, value and status of one slot. *)
Definition put_slot (t : hash_table) (i : nat) (k : K) (v : V) : hash_table :=
  HashTable (<[i := k]> (keys t)) (<[i := v]> (values t)) (<[i := OCCUPIED]> (status t))
            (capacity t) (size t) (tombstones t).

Definition resize_step (t : hash_table) (i : nat) (new : hash_table) : hash_table :=
  if decide (status_at t i = OCCUPIED) then
    let index := free_slot (capacity new) (status new) (capacity new) (home (key_at t i) (capacity new)) in
    put_slot new index (key_at t i) (value_at t i)
  else new.

Definition hash_table_resize (t : hash_table) (new_capacity : nat) : hash_table :=
  let new := HashTable (replicate new_capacity zero_key) (replicate new_capacity zero_value)
               (replicate new_capacity EMPTY) new_capacity (size t) 0 in
  for_up (capacity t) 0 (resize_step t) new.

(** [(double)(size + tombstones) / capacity > 0.75]; for counts below [2^50]
    the rounded quotient compares with [0.75] as the exact one does. *)
Definition overloaded (t : hash_table) : bool :=
  (3 * capacity t <? 4 * (size t + tombstones t))%nat.

Definition hash_table_set (t : hash_table) (key : K) (value : V) : hash_table :=
  let t := if overloaded t then hash_table_resize t (capacity t * 2) else t in
  let '(slot, tombstone_slot) := find_slot t key in
  match slot with
  | Some slot =>
      HashTable (keys t) (<[slot := value]> (values t)) (status t) (capacity t) (size t) (tombstones t)
  | None =>
      let '(insert_index, tombs) :=
        match tombstone_slot with
        | Some i => (i, tombstones t - 1)%nat
        | None => (free_slot (capacity t) (status t) (capacity t) (home key (capacity t)), tombstones t)
        end in
      let t := put_slot t insert_index key value in
      HashTable (keys t) (values t) (status t) (capacity t) (S (size t)) tombs
  end.

Definition hash_table_get (t : hash_table) (key : K) : option V :=
  match (find_slot t key).1 with Some slot => Some (value_at t slot) | None => None end.

Definition hash_table_has_key (t : hash_table) (key : K) : bool :=
  match (find_slot t key).1 with Some _ => true | None => false end.

Definition hash_table_remove (t : hash_table) (key : K) : hash_table * bool :=
  match (find_slot t key).1 with
  | Some slot =>
      (HashTable (keys t) (values t) (<[slot := DELETED]> (status t)) (capacity t)
                 (size t - 1) (S (tombstones t)), true)
  | None => (t, false)
  end.

Definition hash_table_clear (t : hash_table) : hash_table :=
  HashTable (keys t) (values t) (replicate (capacity t) EMPTY) (capacity t) 0 0.

Definition hash_table_count (t : hash_table) : nat := size t.

(** The lists of keys and of values, in slot order. *)
Definition collect {A} (t : hash_table) (read : nat → A) : list A :=
  if decide (size t = 0) then []
  else for_up (capacity t) 0
         (λ i acc, if decide (status_at t i = OCCUPIED) then acc ++ [read i] else acc) [].

Definition hash_table_keys (t : hash_table) : list K := collect t (key_at t).
Definition hash_table_values (t : hash_table) : list V := collect t (value_at t).

End table.

Arguments hash_table : clear implicits.
