(* ===== verification/HashTableSpec.v ===== *)
(** * HashTableSpec: the hash table implements a finite map

    [table_wf] is the invariant: the arrays have the capacity's length, stored keys
    are admissible and pairwise different, every stored key is reachable from
    its home slot without crossing an empty slot, and the two counters count.
    Every operation keeps it and acts on [hash_table_get] as on a map. *)

From S2P Require Export HashTable.
Local Open Scope nat_scope.

(** ** Counting and cyclic probing *)

Definition b2n (b : bool) : nat := if b then 1 else 0.

Fixpoint count_status (s : entry_status) (l : list entry_status) : nat :=
  match l with [] => 0 | x :: l => b2n (bool_decide (x = s)) + count_status s l end.

Lemma count_insert s l i x : i < length l →
  count_status s (<[i := x]> l) + b2n (bool_decide (nth i l EMPTY = s))
  = count_status s l + b2n (bool_decide (x = s)).
Proof.
  revert i. induction l as [|y l IH]; intros [|i] Hi; cbn [length] in Hi; [lia|lia| |].
  - change (<[0 := x]> (y :: l)) with (x :: l). cbn [count_status nth]. lia.
  - change (<[S i := x]> (y :: l)) with (y :: <[i := x]> l). cbn [count_status nth].
    specialize (IH i ltac:(lia)). lia.
Qed.

Lemma count_replicate s n : s ≠ EMPTY → count_status s (replicate n EMPTY) = 0.
Proof.
  intros Hs. induction n as [|n IH]; [done|]. cbn. rewrite IH. by rewrite bool_decide_eq_false_2 by congruence.
Qed.

Lemma count_app s l l' : count_status s (l ++ l') = count_status s l + count_status s l'.
Proof. induction l as [|x l IH]; cbn; [done|]. rewrite IH. lia. Qed.

Lemma count_take_S s l i : i < length l →
  count_status s (take (S i) l) = count_status s (take i l) + b2n (bool_decide (nth i l EMPTY = s)).
Proof.
  intros Hi.
  rewrite (take_S_r l i (nth i l EMPTY)) by (rewrite nth_lookup; destruct (lookup_lt_is_Some_2 l i Hi) as [x ->]; done).
  rewrite count_app. cbn. lia.
Qed.

Lemma count_take_le s l i : count_status s (take i l) <= count_status s l.
Proof. rewrite <- (take_drop i l) at 2. rewrite count_app. lia. Qed.

(** When the occupied and deleted slots do not fill the array, a slot is empty. *)
Lemma empty_exists l : count_status OCCUPIED l + count_status DELETED l < length l →
  ∃ i, i < length l ∧ nth i l EMPTY = EMPTY.
Proof.
  induction l as [|x l IH]; cbn; [lia|]. destruct x.
  - intros _. exists 0. split; [lia|done].
  - rewrite bool_decide_eq_true_2, bool_decide_eq_false_2 by done. cbn. intros Hl.
    destruct IH as (i & ? & ?); [lia|]. exists (S i). split; [lia|done].
  - rewrite bool_decide_eq_false_2, bool_decide_eq_true_2 by done. cbn. intros Hl.
    destruct IH as (i & ? & ?); [lia|]. exists (S i). split; [lia|done].
Qed.

(** The [d]-th slot of the probe sequence from [h]. *)
Definition probe (cap h d : nat) : nat := (h + d) mod cap.

Lemma probe_lt cap h d : 0 < cap → probe cap h d < cap.
Proof. intros. apply Nat.mod_upper_bound. lia. Qed.

Lemma probe_0 cap h : h < cap → probe cap h 0 = h.
Proof. intros. unfold probe. rewrite Nat.add_0_r. by apply Nat.mod_small. Qed.

Lemma probe_S cap h d : 0 < cap → (probe cap h d + 1) mod cap = probe cap h (S d).
Proof. intros. unfold probe. rewrite Nat.Div0.add_mod_idemp_l. f_equal. lia. Qed.

Lemma probe_reach cap h i : h < cap → i < cap → ∃ d, d < cap ∧ probe cap h d = i.
Proof.
  intros Hh Hi. unfold probe. destruct (decide (h <= i)).
  - exists (i - h). split; [lia|]. replace (h + (i - h)) with i by lia. by apply Nat.mod_small.
  - exists (i + cap - h). split; [lia|]. replace (h + (i + cap - h)) with (i + 1 * cap) by lia.
    rewrite Nat.Div0.mod_add. by apply Nat.mod_small.
Qed.

(** The probing loop of insertion stops at the first empty slot. *)
Lemma free_slot_loop fuel st cap h d e : 0 < cap → d <= e → e < d + fuel →
  nth (probe cap h e) st EMPTY = EMPTY →
  ∃ d', d <= d' <= e ∧ free_slot fuel st cap (probe cap h d) = probe cap h d' ∧
    nth (probe cap h d') st EMPTY = EMPTY ∧ ∀ c, d <= c < d' → nth (probe cap h c) st EMPTY ≠ EMPTY.
Proof.
  intros Hc. revert d. induction fuel as [|fuel IH]; intros d Hde Hf He; [lia|]. cbn [free_slot].
  case_decide as E; [exists d; split_and!; [lia|lia|done|done|lia]|].
  assert (d ≠ e) by (intros ->; done). rewrite probe_S by done.
  destruct (IH (S d)) as (d' & Hd & Er & Hd' & Hc'); [lia|lia|done|].
  exists d'. split_and!; [lia|lia|done|done|]. intros c Hcd. destruct (decide (c = d)) as [->|]; [done|].
  apply Hc'. lia.
Qed.

Lemma free_slot_spec st cap h i : h < cap → i < cap → nth i st EMPTY = EMPTY →
  ∃ d, d < cap ∧ free_slot cap st cap h = probe cap h d ∧ nth (probe cap h d) st EMPTY = EMPTY ∧
    ∀ c, c < d → nth (probe cap h c) st EMPTY ≠ EMPTY.
Proof.
  intros Hh Hi E. destruct (probe_reach cap h i Hh Hi) as (e & He & <-).
  destruct (free_slot_loop cap st cap h 0 e ltac:(lia) ltac:(lia) ltac:(lia) E) as (d & Hd & Er & Ed & Hc).
  exists d. rewrite probe_0 in Er by done.
  split_and!; [lia|done|done|]. intros c Hcd. apply Hc. lia.
Qed.

Section spec.

Context {K V : Type} `{HK : HashKey K} (zero_key : K) (zero_value : V).

Abbreviation table := (hash_table K V).
Abbreviation key_at := (key_at zero_key).
Abbreviation value_at := (value_at zero_value).
Implicit Types (t : table) (k : K) (v : V).

(** ** The invariant *)

Definition occupied t (j : nat) : Prop := j < capacity t ∧ status_at t j = OCCUPIED.

Definition path_to t k (j d : nat) : Prop :=
  d < capacity t ∧ j = probe (capacity t) (home k (capacity t)) d ∧
  ∀ c, c < d → status_at t (probe (capacity t) (home k (capacity t)) c) ≠ EMPTY.

Record wf_core t : Prop := {
  wf_cap : 0 < capacity t;
  wf_keys : length (keys t) = capacity t;
  wf_values : length (values t) = capacity t;
  wf_status : length (status t) = capacity t;
  wf_ok : ∀ j, occupied t j → key_ok (key_at t j);
  wf_unique : ∀ i j, occupied t i → occupied t j → key_eq (key_at t i) (key_at t j) = true → i = j;
  wf_path : ∀ j, occupied t j → ∃ d, path_to t (key_at t j) j d
}.

Record table_wf t : Prop := {
  wf_is_core : wf_core t;
  wf_size : size t = count_status OCCUPIED (status t);
  wf_tombs : tombstones t = count_status DELETED (status t)
}.

(** [k] is bound to [v] in some slot. *)
Definition binds t k v : Prop :=
  ∃ j, occupied t j ∧ key_eq (key_at t j) k = true ∧ value_at t j = v.
Definition bound t k : Prop := ∃ v, binds t k v.

Lemma home_lt k cap : 0 < cap → home k cap < cap.
Proof.
  intros Hc. unfold home. pose proof (Z.mod_pos_bound (key_hash k) (Z.of_nat cap) ltac:(lia)). lia.
Qed.

(** ** The probe loop *)

Definition tomb_ok t k (tomb : option nat) (m : nat) : Prop :=
  match tomb with
  | None => True
  | Some s => ∃ d, d < m ∧ s = probe (capacity t) (home k (capacity t)) d ∧ status_at t s = DELETED
  end.

Definition scanned t k (m : nat) : Prop :=
  ∀ c, c < m → let s := probe (capacity t) (home k (capacity t)) c in
    status_at t s ≠ EMPTY ∧ (status_at t s = OCCUPIED → key_eq (key_at t s) k = false).

Lemma find_loop_spec t k n i ft : 0 < capacity t → i + n = capacity t → scanned t k i → tomb_ok t k ft i →
  (∃ d, d < capacity t ∧ scanned t k d ∧
     let s := probe (capacity t) (home k (capacity t)) d in
     status_at t s = OCCUPIED ∧ key_eq (key_at t s) k = true ∧
     find_loop zero_key t k (home k (capacity t)) n i ft = (Some s, None)) ∨
  (∃ m tomb, m <= capacity t ∧ scanned t k m ∧
     (m < capacity t → status_at t (probe (capacity t) (home k (capacity t)) m) = EMPTY) ∧ tomb_ok t k tomb m ∧
     find_loop zero_key t k (home k (capacity t)) n i ft = (None, tomb)).
Proof.
  intros Hcap. revert i ft. induction n as [|n IH]; intros i ft Hin Hs Ht; cbn [find_loop].
  { right. exists i, ft. split_and!; [lia|done|lia|done|done]. }
  fold (probe (capacity t) (home k (capacity t)) i). set (s := probe _ _ i).
  assert (Hnext : ∀ ft', status_at t s ≠ EMPTY → (status_at t s = OCCUPIED → key_eq (key_at t s) k = false) →
    tomb_ok t k ft' (S i) → scanned t k (S i) ∧ tomb_ok t k ft' (S i)).
  { intros ft' H1 H2 H3. split; [|done]. intros c Hc. destruct (decide (c = i)) as [->|]; [done|apply Hs; lia]. }
  destruct (status_at t s) eqn:Es.
  - right. exists i, ft. split_and!; [lia|done|done|done|done].
  - destruct (key_eq (key_at t s) k) eqn:Ek.
    + left. exists i. split_and!; [lia|done|done|done|done].
    + destruct (Hnext ft) as [H1 H2]; [done|done| |by apply IH; [lia|..]].
      destruct ft as [f|]; [|done]. destruct Ht as (d & ? & ?). exists d. split; [lia|done].
  - destruct (Hnext (match ft with None => Some s | _ => ft end)) as [H1 H2]; [done|done| |by apply IH; [lia|..]].
    destruct ft as [f|]; [destruct Ht as (d & ? & ?); exists d; split; [lia|done]|]. exists i. split_and!; [lia|done|done].
Qed.

(** The search finds the slot of a bound key, and otherwise a position to insert at. *)
Lemma find_slot_spec t k : wf_core t → key_ok k →
  (∃ s, occupied t s ∧ key_eq (key_at t s) k = true ∧ find_slot zero_key t k = (Some s, None)) ∨
  (∃ tomb m, ¬ bound t k ∧ find_slot zero_key t k = (None, tomb) ∧ m <= capacity t ∧ tomb_ok t k tomb m ∧
     scanned t k m).
Proof.
  intros Hw Hk. pose proof (wf_cap t Hw) as Hcap.
  destruct (find_loop_spec t k (capacity t) 0 None Hcap ltac:(lia) ltac:(intros ??; lia) I)
    as [(d & Hd & _ & Hocc & Hkey & E)|(m & tomb & Hm & Hsc & Hend & Ht & E)].
  - left. eexists. split_and!; [split; [by apply probe_lt|exact Hocc]|done|exact E].
  - right. exists tomb, m. split_and!; [|exact E|done|done|done].
    intros (v & j & Hj & Hkey & _). destruct (wf_path t Hw j Hj) as (d & Hd & Ej & Hpath).
    assert (home (key_at t j) (capacity t) = home k (capacity t)) as Eh.
    { unfold home. by rewrite (key_eq_hash (key_at t j) k) by (auto; by apply wf_ok). }
    rewrite Eh in *. destruct (decide (d < m)) as [L|L].
    + destruct (Hsc d L) as [_ Hno]. rewrite <- Ej in Hno. destruct Hj as [_ Hj]. by rewrite Hno in Hkey.
    + assert (m < capacity t) as Lm by lia. specialize (Hend Lm). destruct (decide (d = m)) as [->|].
      * rewrite <- Ej in Hend. destruct Hj as [_ Hj]. congruence.
      * by apply (Hpath m); [lia|].
Qed.

Lemma binds_unique t k v v' : wf_core t → key_ok k → binds t k v → binds t k v' → v = v'.
Proof.
  intros Hw Hk (i & Hi & Ei & <-) (j & Hj & Ej & <-).
  assert (i = j) as ->; [|done]. apply (wf_unique t Hw); [done|done|].
  apply key_eq_trans with k; [by apply wf_ok|done|by apply wf_ok|done|].
  apply key_eq_sym; [by apply wf_ok|done|done].
Qed.

Lemma get_binds t k v : wf_core t → key_ok k → hash_table_get zero_key zero_value t k = Some v ↔ binds t k v.
Proof.
  intros Hw Hk. unfold hash_table_get.
  destruct (find_slot_spec t k Hw Hk) as [(s & Hs & Ek & ->)|(tomb & m & Hno & -> & _)]; cbn [fst].
  - split; [intros [= <-]; by exists s|]. intros Hb. f_equal. eapply binds_unique; [done|done| |done]. by exists s.
  - split; [done|]. intros Hb. destruct Hno. by exists v.
Qed.

Lemma get_none t k : wf_core t → key_ok k → hash_table_get zero_key zero_value t k = None ↔ ¬ bound t k.
Proof.
  intros Hw Hk. split.
  - intros E (v & Hb). apply get_binds in Hb; [|done|done]. congruence.
  - intros Hno. destruct (hash_table_get _ _ t k) as [v|] eqn:E; [|done]. destruct Hno. exists v. by apply get_binds.
Qed.

(** ** Writing one slot *)

Lemma nth_insert_eq {A} (l : list A) i x d : i < length l → nth i (<[i:=x]> l) d = x.
Proof. intros. by rewrite nth_lookup, list_lookup_insert_eq. Qed.
Lemma nth_insert_ne {A} (l : list A) i j x d : i ≠ j → nth j (<[i:=x]> l) d = nth j l d.
Proof. intros. by rewrite !nth_lookup, list_lookup_insert_ne. Qed.

Lemma put_slot_at t i k v : wf_core t → i < capacity t →
  status_at (put_slot t i k v) i = OCCUPIED ∧ key_at (put_slot t i k v) i = k ∧ value_at (put_slot t i k v) i = v.
Proof.
  intros Hw Hi. unfold status_at, HashTable.key_at, HashTable.value_at, put_slot. cbn.
  rewrite !nth_insert_eq; [done|by rewrite wf_values|by rewrite wf_keys|by rewrite wf_status].
Qed.

Lemma put_slot_ne t i k v j : i ≠ j →
  status_at (put_slot t i k v) j = status_at t j ∧ key_at (put_slot t i k v) j = key_at t j ∧
  value_at (put_slot t i k v) j = value_at t j.
Proof.
  intros Hij. unfold status_at, HashTable.key_at, HashTable.value_at, put_slot. cbn.
  by rewrite !nth_insert_ne by done.
Qed.

Lemma put_slot_core t i k v d : wf_core t → key_ok k → ¬ bound t k → path_to t k i d →
  status_at t i ≠ OCCUPIED → wf_core (put_slot t i k v).
Proof.
  intros Hw Hk Hno (Hd & Ei & Hpath) Hi. pose proof (wf_cap t Hw).
  assert (Hlt : i < capacity t) by (rewrite Ei; by apply probe_lt).
  destruct (put_slot_at t i k v Hw Hlt) as (S1 & K1 & _).
  assert (Hst : ∀ j, status_at t j ≠ EMPTY → status_at (put_slot t i k v) j ≠ EMPTY).
  { intros j Hj. destruct (decide (i = j)) as [<-|Hne]; [by rewrite S1|]. by destruct (put_slot_ne t i k v j Hne) as (-> & _). }
  assert (Hocc : ∀ j, i ≠ j → occupied (put_slot t i k v) j → occupied t j ∧ key_at (put_slot t i k v) j = key_at t j).
  { intros j Hne [Hj Ej]. destruct (put_slot_ne t i k v j Hne) as (E1 & E2 & _). rewrite E1 in Ej. by repeat split. }
  assert (Hfresh : ∀ j, occupied t j → key_eq (key_at t j) k = true → False).
  { intros j Hj E. apply Hno. exists (value_at t j), j. done. }
  split; cbn [put_slot capacity keys values status]; [done|rewrite length_insert; by apply wf_keys|rewrite length_insert; by apply wf_values
    |rewrite length_insert; by apply wf_status| | |].
  - intros j Hj. destruct (decide (i = j)) as [<-|Hne]; [by rewrite K1|].
    destruct (Hocc j Hne Hj) as [Hj' ->]. by apply wf_ok.
  - intros a b Ha Hb. destruct (decide (i = a)) as [<-|Hna], (decide (i = b)) as [<-|Hnb]; [done| | |].
    + destruct (Hocc b Hnb Hb) as [Hb' ->]. rewrite K1. intros E. destruct (Hfresh b Hb').
      apply key_eq_sym; [done|by apply wf_ok|done].
    + destruct (Hocc a Hna Ha) as [Ha' ->]. rewrite K1. intros E. by destruct (Hfresh a Ha').
    + destruct (Hocc a Hna Ha) as [Ha' ->], (Hocc b Hnb Hb) as [Hb' ->]. by apply wf_unique.
  - intros j Hj. destruct (decide (i = j)) as [<-|Hne].
    + exists d. rewrite K1. split_and!; [done|done|]. intros c Hc. by apply Hst, Hpath.
    + destruct (Hocc j Hne Hj) as [Hj' ->]. destruct (wf_path t Hw j Hj') as (e & He & Ej & Hp).
      exists e. split_and!; [done|done|]. intros c Hc. by apply Hst, Hp.
Qed.

Lemma put_slot_binds t i k v k' v' : wf_core t → i < capacity t → status_at t i ≠ OCCUPIED →
  binds (put_slot t i k v) k' v' ↔ (key_eq k k' = true ∧ v = v') ∨ binds t k' v'.
Proof.
  intros Hw Hi Hst. destruct (put_slot_at t i k v Hw Hi) as (S1 & K1 & V1). split.
  - intros (j & [Hj Ej] & Ek & Ev). destruct (decide (i = j)) as [<-|Hne]; [left; rewrite K1 in Ek; rewrite V1 in Ev; done|].
    right. exists j. destruct (put_slot_ne t i k v j Hne) as (E1 & E2 & E3). rewrite E1 in Ej. rewrite E2 in Ek. rewrite E3 in Ev.
    by repeat split.
  - intros [[E <-]|(j & [Hj Ej] & Ek & Ev)].
    + exists i. rewrite K1. by repeat split.
    + assert (Hne : i ≠ j) by (intros ->; done). exists j.
      destruct (put_slot_ne t i k v j Hne) as (E1 & E2 & E3). unfold occupied. rewrite E1, E2, E3. by repeat split.
Qed.

(** Evaluate the comparisons of status constants. *)
Ltac decide_status :=
  repeat match goal with
  | H : context [bool_decide (?a = ?b)] |- _ =>
      first [rewrite (bool_decide_eq_true_2 (a = b)) in H by done
            |rewrite (bool_decide_eq_false_2 (a = b)) in H by done]
  | |- context [bool_decide (?a = ?b)] =>
      first [rewrite (bool_decide_eq_true_2 (a = b)) by done
            |rewrite (bool_decide_eq_false_2 (a = b)) by done]
  end; cbn [b2n] in *.

Lemma put_slot_count t i k v s : wf_core t → i < capacity t →
  count_status s (status (put_slot t i k v)) + b2n (bool_decide (status_at t i = s))
  = count_status s (status t) + b2n (bool_decide (OCCUPIED = s)).
Proof. intros Hw Hi. apply count_insert. by rewrite wf_status. Qed.

(** ** Creation *)

Lemma alloc_wf n t : arena_allocate_hash_table zero_key zero_value n = Some t →
  table_wf t ∧ capacity t = n ∧ ∀ k, ¬ bound t k.
Proof.
  unfold arena_allocate_hash_table. case_decide; [done|]. intros [= <-].
  assert (Hno : ∀ j, status_at (HashTable (replicate n zero_key) (replicate n zero_value) (replicate n EMPTY) n 0 0) j ≠ OCCUPIED).
  { intros j. unfold status_at. cbn. rewrite nth_lookup. destruct (replicate n EMPTY !! j) eqn:E; [|done].
    by apply lookup_replicate in E as [-> _]. }
  split_and!; [split; [split|..]|done|].
  all: cbn; rewrite ?length_replicate, ?count_replicate by done; try done.
  - lia.
  - intros j [_ E]. by destruct (Hno j).
  - intros i j [_ E]. by destruct (Hno i).
  - intros j [_ E]. by destruct (Hno j).
  - intros k (v & j & [_ E] & _). by destruct (Hno j).
Qed.

(** ** Growing *)

Definition moved t (i : nat) (new : table) : Prop :=
  wf_core new ∧ count_status DELETED (status new) = 0 ∧
  count_status OCCUPIED (status new) = count_status OCCUPIED (take i (status t)) ∧
  (∀ j, occupied new j → ∃ a, a < i ∧ occupied t a ∧ key_at new j = key_at t a ∧ value_at new j = value_at t a) ∧
  (∀ a, a < i → occupied t a → ∃ j, occupied new j ∧ key_at new j = key_at t a ∧ value_at new j = value_at t a).

Lemma resize_step_moved t i new n : table_wf t → i < capacity t → capacity t < n → capacity new = n →
  moved t i new → moved t (S i) (resize_step zero_key zero_value t i new) ∧
    capacity (resize_step zero_key zero_value t i new) = n ∧
    size (resize_step zero_key zero_value t i new) = size new ∧
    tombstones (resize_step zero_key zero_value t i new) = tombstones new.
Proof.
  intros Hw Hi Hn Hcap (Hc & Hdel & Hocc & Hfrom & Hto). pose proof (wf_is_core t Hw) as Hwc.
  assert (Hcount : count_status OCCUPIED (take (S i) (status t)) =
    count_status OCCUPIED (take i (status t)) + b2n (bool_decide (status_at t i = OCCUPIED)))
    by (apply count_take_S; by rewrite wf_status).
  unfold resize_step. destruct (decide (status_at t i = OCCUPIED)) as [Es|Es].
  2:{ split; [|done]. split_and!; [done|done|rewrite Hocc, Hcount, bool_decide_eq_false_2 by done; cbn; lia| |].
      - intros j Hj. destruct (Hfrom j Hj) as (a & ? & ?). exists a. split; [lia|done].
      - intros a Ha Hoa. destruct (decide (a = i)) as [->|]; [by destruct Hoa|]. apply Hto; [lia|done]. }
  rewrite bool_decide_eq_true_2 in Hcount by done.
  assert (Hoi : occupied t i) by done. pose proof (wf_ok t Hwc i Hoi) as Hk. set (k := key_at t i) in *.
  destruct (empty_exists (status new)) as (e & He & Ee).
  { rewrite Hdel, Hocc, wf_status, Hcap by done.
    pose proof (count_take_le OCCUPIED (status t) (S i)).
    assert (count_status OCCUPIED (status t) <= length (status t)).
    { clear. induction (status t) as [|x l IH]; cbn; [lia|]. destruct (bool_decide _); cbn; lia. }
    rewrite wf_status in * by done. unfold b2n in Hcount. lia. }
  rewrite wf_status in He by done. pose proof (wf_cap new Hc) as Hpos.
  destruct (free_slot_spec (status new) (capacity new) (home k (capacity new)) e) as (d & Hd & -> & Hempty & Hbefore);
    [by apply home_lt|done|done|].
  set (s := probe (capacity new) (home k (capacity new)) d) in *.
  assert (Hs : s < capacity new) by (by apply probe_lt).
  assert (Hse : status_at new s = EMPTY) by done.
  assert (Hfresh : ¬ bound new k).
  { intros (v & j & Hj & Ek & _). destruct (Hfrom j Hj) as (a & Ha & Hoa & Ea & _). rewrite Ea in Ek.
    assert (a = i) by (by apply (wf_unique t Hwc)). lia. }
  assert (Hcore : wf_core (put_slot new s k (value_at t i))).
  { apply put_slot_core with d; [done|done|done| |by rewrite Hse]. by split_and!. }
  destruct (put_slot_at new s k (value_at t i) Hc Hs) as (S1 & K1 & V1).
  split; [|done]. split; [done|].
  pose proof (put_slot_count new s k (value_at t i) DELETED Hc Hs) as C1.
  pose proof (put_slot_count new s k (value_at t i) OCCUPIED Hc Hs) as C2.
  rewrite Hse in C1, C2. decide_status. cbn [b2n] in *. cbn [put_slot status] in C1, C2. split_and!; [cbn; lia|cbn; lia| |].
  - intros j Hj. destruct (decide (s = j)) as [<-|Hne]; [exists i; rewrite K1, V1; split_and!; [lia|done..]|].
    destruct (put_slot_ne new s k (value_at t i) j Hne) as (E1 & E2 & E3). rewrite E2, E3.
    destruct (Hfrom j) as (a & ? & ?); [|exists a; split; [lia|done]]. destruct Hj as [Hj Ej]. rewrite E1 in Ej. done.
  - intros a Ha Hoa. destruct (decide (a = i)) as [->|Hne]; [exists s; by split_and!|].
    destruct (Hto a) as (j & [Hj Ej] & ? & ?); [lia|done|]. assert (s ≠ j) by (intros <-; congruence).
    destruct (put_slot_ne new s k (value_at t i) j ltac:(done)) as (E1 & E2 & E3).
    exists j. unfold occupied. by rewrite E1, E2, E3.
Qed.

Lemma table_resize_spec t n : table_wf t → capacity t < n →
  let t' := hash_table_resize zero_key zero_value t n in
  table_wf t' ∧ capacity t' = n ∧ size t' = size t ∧ tombstones t' = 0 ∧ ∀ k v, binds t' k v ↔ binds t k v.
Proof.
  intros Hw Hn t'. pose proof (wf_is_core t Hw) as Hwc. subst t'. unfold hash_table_resize.
  destruct (alloc_wf n (HashTable (replicate n zero_key) (replicate n zero_value) (replicate n EMPTY) n 0 0))
    as ([Hc0 _ _] & _ & Hno).
  { unfold arena_allocate_hash_table. case_decide; [lia|done]. }
  loop_up (λ i new, moved t i new ∧ capacity new = n ∧ size new = size t ∧ tombstones new = 0) as Hloop.
  destruct Hloop as ((Hc & Hdel & Hocc & Hfrom & Hto) & Hcap & Hsize & Htomb).
  - split_and!; [|done..]. split_and!; [by destruct Hc0| | | |].
    + cbn. by apply count_replicate.
    + cbn. by rewrite count_replicate.
    + intros j [Hj Ej]. destruct (Hno (key_at (HashTable (replicate n zero_key) (replicate n zero_value) (replicate n EMPTY) n 0 0) j)).
      eexists _, j. split_and!; [done| |done]. apply key_eq_refl, (wf_ok _ Hc0). done.
    + lia.
  - intros i new Hi (Hm & Hcap & Hs & Ht).
    destruct (resize_step_moved t i new n Hw ltac:(lia) Hn Hcap Hm) as (? & ? & -> & ->). done.
  - cbn [Nat.add] in *. rewrite take_ge in Hocc by (rewrite wf_status; done).
    split_and!; [split; [done|by rewrite Hsize, Hocc, wf_size|by rewrite Htomb, Hdel]|done|done|done|].
    intros k v. split.
    + intros (j & Hj & Ek & Ev). destruct (Hfrom j Hj) as (a & _ & Hoa & E1 & E2). exists a. by rewrite <- E1, <- E2.
    + intros (a & [Ha Ea] & Ek & Ev). destruct (Hto a Ha ltac:(done)) as (j & Hj & E1 & E2). exists j. by rewrite E1, E2.
Qed.

(** ** Inserting *)

Lemma not_overloaded_room t : table_wf t → overloaded t = false →
  count_status OCCUPIED (status t) + count_status DELETED (status t) < length (status t).
Proof.
  intros Hw Ho. apply Nat.ltb_ge in Ho. pose proof (wf_cap t (wf_is_core t Hw)).
  rewrite <- wf_size, <- wf_tombs, wf_status by (done || by apply wf_is_core). lia.
Qed.

(** [hash_table_set] once the table has room. *)
Definition insert_roomy t k v : table :=
  let '(slot, tombstone_slot) := find_slot zero_key t k in
  match slot with
  | Some slot =>
      HashTable (keys t) (<[slot := v]> (values t)) (status t) (capacity t) (size t) (tombstones t)
  | None =>
      let '(insert_index, tombs) :=
        match tombstone_slot with
        | Some i => (i, tombstones t - 1)
        | None => (free_slot (capacity t) (status t) (capacity t) (home k (capacity t)), tombstones t)
        end in
      let t := put_slot t insert_index k v in
      HashTable (keys t) (values t) (status t) (capacity t) (S (size t)) tombs
  end.

Lemma update_binds t s k v : table_wf t → occupied t s → key_ok k → key_eq (key_at t s) k = true →
  let t' := HashTable (keys t) (<[s := v]> (values t)) (status t) (capacity t) (size t) (tombstones t) in
  table_wf t' ∧ ∀ k' v', key_ok k' → (binds t' k' v' ↔ if key_eq k k' then v = v' else binds t k' v').
Proof.
  intros Hw Hs Hk Ek t'. pose proof (wf_is_core t Hw) as Hwc. destruct Hw as [[] ? ?].
  split; [split; [split|..]; cbn; try done; by rewrite length_insert|].
  intros k' v' Hk'. pose proof (wf_ok t Hwc s Hs) as Hks.
  assert (Hval : ∀ j, value_at t' j = if decide (s = j) then v else value_at t j).
  { intros j. unfold HashTable.value_at, t'. cbn. case_decide as E; [subst j|by rewrite nth_insert_ne].
    rewrite nth_insert_eq; [done|]. rewrite wf_values by done. by destruct Hs. }
  destruct (key_eq k k') eqn:E.
  - split.
    + intros (j & Hj & Ej & <-). rewrite Hval. case_decide as Hd; [done|]. destruct Hd.
      apply (wf_unique t Hwc); [done|done|]. apply key_eq_trans with k; [done|done|by apply (wf_ok t Hwc)|done|].
      apply key_eq_trans with k'; [done|done|by apply (wf_ok t Hwc)|done|]. apply key_eq_sym; [by apply (wf_ok t Hwc)|done|done].
    + intros <-. exists s. rewrite Hval, decide_True by done. split_and!; [done| |done].
      by apply key_eq_trans with k.
  - assert (Hne : ∀ j, key_eq (key_at t j) k' = true → s ≠ j).
    { intros j Ej <-. rewrite <- not_true_iff_false in E. destruct E.
      apply key_eq_trans with (key_at t s); [done|done|done| |done]. by apply key_eq_sym. }
    split; intros (j & Hj & Ej & Ev); exists j; rewrite Hval, decide_False in * by (by apply Hne); done.
Qed.

Lemma insert_new_slot t k v i d tombs : table_wf t → key_ok k → ¬ bound t k → path_to t k i d →
  status_at t i ≠ OCCUPIED → tombs + b2n (bool_decide (status_at t i = DELETED)) = tombstones t →
  let t' := put_slot t i k v in
  let t'' := HashTable (keys t') (values t') (status t') (capacity t') (S (size t')) tombs in
  table_wf t'' ∧ ∀ k' v', key_ok k' → (binds t'' k' v' ↔ if key_eq k k' then v = v' else binds t k' v').
Proof.
  intros Hw Hk Hno Hpath Hst Htomb t' t''. pose proof (wf_is_core t Hw) as Hwc.
  assert (Hi : i < capacity t) by (destruct Hpath as (? & -> & _); apply probe_lt; lia).
  pose proof (put_slot_core t i k v d Hwc Hk Hno Hpath Hst) as Hc.
  pose proof (put_slot_count t i k v DELETED Hwc Hi) as C1. pose proof (put_slot_count t i k v OCCUPIED Hwc Hi) as C2.
  pose proof (wf_size t Hw) as Hsz. pose proof (wf_tombs t Hw) as Htb.
  split.
  - split; [by destruct Hc| |]; cbn [t'' t' status size tombstones put_slot] in *.
    + decide_status. lia.
    + decide_status. lia.
  - intros k' v' Hk'. change (binds t'' k' v') with (binds t' k' v').
    unfold t'. rewrite put_slot_binds by done. destruct (key_eq k k') eqn:E.
    + split; [intros [[_ ?]|(j & Hj & Ej & _)]; [done|]|intros <-; by left]. destruct Hno. exists (value_at t j), j.
      split_and!; [done| |done]. apply key_eq_trans with k'; [by apply (wf_ok t Hwc)|done|done|done|by apply key_eq_sym].
    + split; [intros [[? _]|?]; done|by right].
Qed.

Lemma insert_roomy_spec t k v : table_wf t → key_ok k → overloaded t = false →
  table_wf (insert_roomy t k v) ∧
  ∀ k' v', key_ok k' → (binds (insert_roomy t k v) k' v' ↔ if key_eq k k' then v = v' else binds t k' v').
Proof.
  intros Hw Hk Ho. pose proof (wf_is_core t Hw) as Hwc. unfold insert_roomy.
  destruct (find_slot_spec t k Hwc Hk) as [(s & Hs & Ek & ->)|(tomb & m & Hno & -> & Hm & Ht & Hsc)].
  - by apply update_binds.
  - destruct tomb as [s|].
    + destruct Ht as (d & Hd & Es & Est). apply (insert_new_slot t k v s d); [done|done|done| |by rewrite Est|].
      * split_and!; [lia|done|]. intros c Hc. apply Hsc. lia.
      * rewrite Est. decide_status.
        assert (0 < tombstones t); [|lia]. rewrite wf_tombs by done.
        assert (s < length (status t)) as Hlt by (rewrite Es, wf_status by done; apply probe_lt; lia).
        pose proof (count_take_S DELETED (status t) s Hlt) as C. unfold status_at in Est.
        rewrite Est in C. decide_status.
        pose proof (count_take_le DELETED (status t) (S s)). lia.
    + destruct (empty_exists (status t) (not_overloaded_room t Hw Ho)) as (e & He & Ee).
      rewrite wf_status in He by done. pose proof (wf_cap t Hwc).
      destruct (free_slot_spec (status t) (capacity t) (home k (capacity t)) e) as (d & Hd & Ef & Hempty & Hbefore);
        [by apply home_lt|done|done|]. rewrite Ef.
      assert (Est : status_at t (probe (capacity t) (home k (capacity t)) d) = EMPTY) by done.
      apply (insert_new_slot t k v _ d); [done|done|done|by split_and!|by rewrite Est|].
      rewrite Est. decide_status. lia.
Qed.

Lemma set_spec t k v : table_wf t → key_ok k →
  table_wf (hash_table_set zero_key zero_value t k v) ∧
  ∀ k' v', key_ok k' →
    (binds (hash_table_set zero_key zero_value t k v) k' v' ↔ if key_eq k k' then v = v' else binds t k' v').
Proof.
  intros Hw Hk. unfold hash_table_set. pose proof (wf_cap t (wf_is_core t Hw)).
  destruct (overloaded t) eqn:Ho; [|by apply insert_roomy_spec].
  destruct (table_resize_spec t (capacity t * 2) Hw ltac:(lia)) as (Hw' & Hcap & Hsz & Htb & Hb).
  set (t' := hash_table_resize zero_key zero_value t (capacity t * 2)) in *.
  assert (Ho' : overloaded t' = false).
  { apply Nat.ltb_ge. rewrite Hcap, Hsz, Htb. rewrite wf_size by done.
    pose proof (count_take_le OCCUPIED (status t) 0).
    assert (count_status OCCUPIED (status t) <= length (status t)).
    { clear. induction (status t) as [|x l IH]; cbn; [lia|]. destruct (bool_decide _); cbn; lia. }
    rewrite wf_status in * by (by apply wf_is_core). lia. }
  destruct (insert_roomy_spec t' k v Hw' Hk Ho') as [H1 H2]. split; [exact H1|].
  intros k' v' Hk'. pose proof (H2 k' v' Hk') as E. destruct (key_eq k k'); [exact E|]. by rewrite <- Hb.
Qed.

(** ** Removing *)

Lemma remove_spec t k : table_wf t → key_ok k →
  let '(t', found) := hash_table_remove zero_key t k in
  table_wf t' ∧ (found = true ↔ bound t k) ∧ (size t' + b2n found = size t) ∧
  ∀ k' v', key_ok k' → (binds t' k' v' ↔ key_eq k k' = false ∧ binds t k' v').
Proof.
  intros Hw Hk. pose proof (wf_is_core t Hw) as Hwc. unfold hash_table_remove.
  destruct (find_slot_spec t k Hwc Hk) as [(s & Hs & Ek & ->)|(tomb & m & Hno & -> & _)]; cbn [fst].
  2:{ split_and!; [done| |cbn; lia|]; [by split|]. intros k' v' Hk'. split; [|by intros []].
      intros Hb. split; [|done]. apply not_true_is_false. intros E. apply Hno.
      destruct Hb as (j & Hj & Ej & _). exists (value_at t j), j. split_and!; [done| |done].
      apply key_eq_trans with k'; [by apply (wf_ok t Hwc)|done|done|done|by apply key_eq_sym]. }
  set (t' := HashTable _ _ _ _ _ _). destruct Hs as [Hlt Hocc].
  assert (Hst : ∀ j, status_at t' j = if decide (s = j) then DELETED else status_at t j).
  { intros j. unfold status_at, t'. cbn. case_decide as E; [subst j|by rewrite nth_insert_ne].
    apply nth_insert_eq. by rewrite wf_status. }
  assert (Hoc : ∀ j, occupied t' j ↔ s ≠ j ∧ occupied t j).
  { intros j. unfold occupied. rewrite Hst. change (capacity t') with (capacity t). case_decide as E; [split; [by intros [_ ?]|by intros [? _]]|].
    split; [by intros [? ?]; split_and!|by intros [_ ?]]. }
  pose proof (count_insert DELETED (status t) s DELETED ltac:(by rewrite wf_status)) as C1.
  pose proof (count_insert OCCUPIED (status t) s DELETED ltac:(by rewrite wf_status)) as C2.
  fold (status_at t s) in C1, C2. rewrite Hocc in C1, C2. decide_status.
  pose proof (wf_size t Hw). pose proof (wf_tombs t Hw).
  split_and!.
  - split; [split; [apply Hwc|apply Hwc|apply Hwc|cbn; rewrite length_insert; apply Hwc| | |]| |].
    + intros j [_ Hj]%Hoc. by apply (wf_ok t Hwc).
    + intros a b [_ Ha]%Hoc [_ Hb]%Hoc. by apply (wf_unique t Hwc).
    + intros j [_ Hj]%Hoc. destruct (wf_path t Hwc j Hj) as (d & Hd & Ej & Hp). exists d. split_and!; [done|done|].
      intros c Hc. specialize (Hp c Hc). change (capacity t') with (capacity t). rewrite Hst. case_decide; [done|exact Hp].
    + unfold t'. cbn [size status]. lia.
    + unfold t'. cbn [tombstones status]. lia.
  - split; [intros _; exists (value_at t s), s; by split_and!|done].
  - unfold t'. cbn [size b2n]. lia.
  - intros k' v' Hk'. split.
    + intros (j & [Hne Hj]%Hoc & Ej & Ev). split; [|by exists j]. apply not_true_is_false. intros E. apply Hne.
      apply (wf_unique t Hwc); [done|done|]. apply key_eq_trans with k; [by apply (wf_ok t Hwc)|done|by apply (wf_ok t Hwc)|done|].
      apply key_eq_trans with k'; [done|done|by apply (wf_ok t Hwc)|done|]. apply key_eq_sym; [by apply (wf_ok t Hwc)|done|done].
    + intros [E (j & Hj & Ej & Ev)]. exists j. split_and!; [|done|done]. apply Hoc. split; [|done].
      intros <-. rewrite <- not_true_iff_false in E. apply E.
      apply key_eq_trans with (key_at t s); [done|by apply (wf_ok t Hwc)|done| |done].
      apply key_eq_sym; [by apply (wf_ok t Hwc)|done|done].
Qed.

Lemma clear_spec t : table_wf t → table_wf (hash_table_clear t) ∧ hash_table_count (hash_table_clear t) = 0 ∧
  ∀ k, ¬ bound (hash_table_clear t) k.
Proof.
  intros Hw. pose proof (wf_is_core t Hw) as Hwc.
  assert (Hno : ∀ j, status_at (hash_table_clear t) j ≠ OCCUPIED).
  { intros j. unfold status_at. cbn. rewrite nth_lookup. destruct (replicate _ EMPTY !! j) eqn:E; [|done].
    by apply lookup_replicate in E as [-> _]. }
  split_and!; [split; [split|..]|done|].
  all: cbn; rewrite ?length_replicate, ?count_replicate by done; try done; try apply Hwc.
  - intros j [_ E]. by destruct (Hno j).
  - intros i j [_ E]. by destruct (Hno i).
  - intros j [_ E]. by destruct (Hno j).
  - intros k (v & j & [_ E] & _). by destruct (Hno j).
Qed.

(** ** Enumeration *)

Lemma collect_inv {A} t (read : nat → A) : table_wf t →
  let l := collect t read in
  length l = size t ∧ ∀ x, x ∈ l ↔ ∃ j, occupied t j ∧ read j = x.
Proof.
  intros Hw. pose proof (wf_is_core t Hw) as Hwc. unfold collect.
  assert (Hmain : ∀ l, l = for_up (capacity t) 0 (λ i acc, if decide (status_at t i = OCCUPIED) then acc ++ [read i] else acc) [] →
    length l = size t ∧ ∀ x, x ∈ l ↔ ∃ j, occupied t j ∧ read j = x).
  { intros l ->. loop_up (λ i acc, length acc = count_status OCCUPIED (take i (status t)) ∧
      ∀ x, x ∈ acc ↔ ∃ j, j < i ∧ status_at t j = OCCUPIED ∧ read j = x) as Hloop.
    destruct Hloop as [Hl Hx].
    - split; [done|]. intros x. split; [by intros ?%elem_of_nil|]. intros (j & ? & _). lia.
    - intros i acc Hi [Hl Hx]. rewrite count_take_S by (rewrite wf_status by done; lia). fold (status_at t i).
      case_decide as E; decide_status; [rewrite length_app; cbn; split; [lia|]|split; [lia|]].
      + intros x. rewrite elem_of_app, list_elem_of_singleton, Hx. split.
        * intros [(j & ? & ?)| ->]; [exists j; split; [lia|done]|exists i; split; [lia|done]].
        * intros (j & ? & ? & ?). destruct (decide (j = i)) as [->|]; [by right|]. left. exists j. split; [lia|done].
      + intros x. rewrite Hx. split; intros (j & ? & ? & ?); exists j; (split; [|done]); [lia|].
        destruct (decide (j = i)) as [->|]; [done|lia].
    - cbn [Nat.add] in *. rewrite take_ge in Hl by (rewrite wf_status; done). split; [by rewrite Hl, wf_size|].
      intros x. rewrite Hx. unfold occupied. split; intros (j & H1); exists j; unfold occupied in *; tauto. }
  case_decide as E; [|by apply Hmain]. destruct (Hmain _ eq_refl) as [Hl Hx]. split; [done|].
  intros x. rewrite E in Hl. apply nil_length_inv in Hl. by rewrite <- Hx, Hl.
Qed.

End spec.
