(* ===== verification/KeyHash.v ===== *)
(** * KeyHash: hashing and comparing tagged values as table keys
    (lib/core/runtime_hash_table.cpp, [hash_tagged_value] and [hash_keys_equal])

    A key is the tree of its tagged values; a heap value carries the address of
    its object, because equality takes a pointer shortcut.  Floating-point
    payloads are bit patterns. *)

From S2P Require Export HashTableSpec BignumArith.
Local Open Scope Z_scope.

Definition FNV_OFFSET_BASIS : Z := 14695981039346656037.
Definition FNV_PRIME : Z := 1099511628211.

Definition ESHKOL_TYPE_NULL : Z := 0.
Definition ESHKOL_TYPE_DOUBLE : Z := 2.
Definition ESHKOL_TYPE_SYMBOL : Z := 5.
Definition ESHKOL_TYPE_HEAP_PTR : Z := 8.
Definition ESHKOL_TYPE_FLOAT32 : Z := 11.
Definition ESHKOL_TYPE_STRING_PTR : Z := 33.

(** [KImm ty bits]: any type whose payload is hashed and compared as raw bits
    (integers, booleans, characters, symbols, the default case, and null).
    [KFloat32 None] is a malformed float32 carrier; [KString] the legacy string
    pointer; the [KHeap...] constructors are the subtypes of a heap pointer. *)
Inductive key :=
| KImm (ty bits : Z)
| KDouble (bits : Z)
| KFloat32 (bits : option Z)
| KStringNull
| KString (addr : Z) (s : list Z)
| KHeapNull
| KHeapString (addr : Z) (s : list Z)
| KHeapBignum (addr : Z) (b : bignum)
| KHeapCons (addr : Z) (car cdr : key)
| KHeapVector (addr : Z) (elems : list key)
| KHeapOther (addr subtype : Z).

Definition key_type (k : key) : Z :=
  match k with
  | KImm ty _ => ty
  | KDouble _ => ESHKOL_TYPE_DOUBLE
  | KFloat32 _ => ESHKOL_TYPE_FLOAT32
  | KStringNull | KString _ _ => ESHKOL_TYPE_STRING_PTR
  | _ => ESHKOL_TYPE_HEAP_PTR
  end.

(** [hash ^= x] and [hash *= FNV_PRIME] *)
Definition mix (hash x : Z) : Z := Z.lxor hash x.
Definition mul_prime (hash : Z) : Z := u64 (hash * FNV_PRIME).

Definition fnv1a_hash_string (str : list Z) : Z :=
  fold_left (λ hash c, mul_prime (mix hash c)) str FNV_OFFSET_BASIS.

Definition fnv1a_hash_u64 (val : Z) : Z :=
  for_up 8 0 (λ i hash, mul_prime (mix hash (Z.land (Z.shiftr val (8 * Z.of_nat i)) 255))) FNV_OFFSET_BASIS.

(** The bits of a float32 with the two zeros merged. *)
Definition f32_hash_bits (bits : Z) : Z := if Z.land bits (2 ^ 31 - 1) =? 0 then 0 else bits.

Fixpoint hash_tagged_value (k : key) : Z :=
  let hash := mul_prime (mix FNV_OFFSET_BASIS (key_type k)) in
  match k with
  | KImm _ bits | KDouble bits => mix hash (fnv1a_hash_u64 bits)
  | KFloat32 None => mix hash 0x9a40f32badc0de11
  | KFloat32 (Some bits) => mix hash (fnv1a_hash_u64 (f32_hash_bits bits))
  | KString _ s | KHeapString _ s => mix hash (fnv1a_hash_string s)
  | KStringNull | KHeapNull => hash
  | KHeapBignum _ b =>
      fold_left (λ hash l, mul_prime (mix hash (fnv1a_hash_u64 l))) (limbs b) (mul_prime (mix hash (u64 (sign b))))
  | KHeapCons _ a d =>
      let hash := mul_prime (mix hash (hash_tagged_value a)) in
      mul_prime (mix hash (hash_tagged_value d))
  | KHeapVector _ l =>
      (fix go (l : list key) (hash : Z) : Z :=
         match l with [] => hash | x :: l => go l (mul_prime (mix hash (hash_tagged_value x))) end) l hash
  | KHeapOther addr _ => mix hash (fnv1a_hash_u64 addr)
  end.

(** IEEE equality on bit patterns of [w] bits whose infinity is [inf]. *)
Definition ieee_eq (w inf a b : Z) : bool :=
  let mag x := Z.land x (2 ^ (w - 1) - 1) in
  (mag a <=? inf) && (mag b <=? inf) && ((a =? b) || ((mag a =? 0) && (mag b =? 0))).
Definition double_eq : Z → Z → bool := ieee_eq 64 0x7FF0000000000000.
Definition float32_eq : Z → Z → bool := ieee_eq 32 0x7F800000.

Fixpoint eq_list (eq : Z → Z → bool) (l l' : list Z) : bool :=
  match l, l' with
  | [], [] => true
  | x :: l, y :: l' => eq x y && eq_list eq l l'
  | _, _ => false
  end.

(** [strcmp(a, b) == 0] *)
Definition strcmp_eq : list Z → list Z → bool := eq_list Z.eqb.

Fixpoint hash_keys_equal (a b : key) : bool :=
  match a, b with
  | KImm ta x, KImm tb y => (ta =? tb) && ((ta =? ESHKOL_TYPE_NULL) || (x =? y))
  | KDouble x, KDouble y => double_eq x y
  | KFloat32 (Some x), KFloat32 (Some y) => float32_eq x y
  | KString p s, KString q s' => (p =? q) || strcmp_eq s s'
  | KStringNull, KStringNull | KHeapNull, KHeapNull => true
  | KHeapString p s, KHeapString q s' => (p =? q) || strcmp_eq s s'
  | KHeapBignum p x, KHeapBignum q y => (p =? q) || (eshkol_bignum_compare (Some x) (Some y) =? 0)
  | KHeapCons p a d, KHeapCons q a' d' => (p =? q) || (hash_keys_equal a a' && hash_keys_equal d d')
  | KHeapVector p l, KHeapVector q l' =>
      (p =? q) ||
      ((length l =? length l')%nat &&
       (fix go (l l' : list key) : bool :=
          match l, l' with
          | x :: l, y :: l' => if hash_keys_equal x y then go l l' else false
          | _, _ => true
          end) l l')
  | KHeapOther p s, KHeapOther q s' => p =? q
  | _, _ => false
  end.

(** ** The contract of the table *)

Section contract.

(** The heap: at most one object lives at an address. *)
Context (heap : Z → option key).

(** The keys the table handles properly: well-formed objects of the heap, no
    NaN, no negative zero, a zero payload for null. *)
Fixpoint admissible (k : key) : Prop :=
  match k with
  | KImm ty bits => ty = ESHKOL_TYPE_NULL → bits = 0
  | KDouble bits => is_u64 bits ∧ double_eq bits bits = true ∧ bits ≠ 2 ^ 63
  | KFloat32 None => False
  | KFloat32 (Some bits) => float32_eq bits bits = true
  | KString addr _ | KHeapString addr _ | KHeapOther addr _ => heap addr = Some k
  | KStringNull | KHeapNull => True
  | KHeapBignum addr b => heap addr = Some k ∧ wf b
  | KHeapCons addr a d => heap addr = Some k ∧ admissible a ∧ admissible d
  | KHeapVector addr l =>
      heap addr = Some k ∧
      (fix go (l : list key) : Prop := match l with [] => True | x :: l => admissible x ∧ go l end) l
  end.

Lemma key_nested_ind (P : key → Prop) :
  (∀ ty b, P (KImm ty b)) → (∀ b, P (KDouble b)) → (∀ b, P (KFloat32 b)) → P KStringNull → (∀ p s, P (KString p s)) →
  P KHeapNull → (∀ p s, P (KHeapString p s)) → (∀ p b, P (KHeapBignum p b)) →
  (∀ p a d, P a → P d → P (KHeapCons p a d)) → (∀ p l, Forall P l → P (KHeapVector p l)) →
  (∀ p s, P (KHeapOther p s)) → ∀ k, P k.
Proof.
  intros H1 H2 H3 H0 H4 H5 H6 H7 H8 H9 H10.
  fix go 1. intros [ty b|b|b| |p s| |p s|p b|p a d|p l|p s];
    [apply H1|apply H2|apply H3|apply H0|apply H4|apply H5|apply H6|apply H7|apply H8; apply go|apply H9|apply H10].
  induction l as [|x l IH]; constructor; [apply go|exact IH].
Qed.

Lemma strcmp_eq_spec s s' : strcmp_eq s s' = true ↔ s = s'.
Proof.
  unfold strcmp_eq. revert s'. induction s as [|x s IH]; intros [|y s']; cbn; try done.
  rewrite andb_true_iff, Z.eqb_eq, IH. split; [by intros [-> ->]|by intros [= -> ->]].
Qed.

(** Equal admissible keys are the same tree up to the addresses of their objects. *)
Inductive same_tree : key → key → Prop :=
| SameImm ty b : same_tree (KImm ty b) (KImm ty b)
| SameDouble b : same_tree (KDouble b) (KDouble b)
| SameFloat32 b b' : f32_hash_bits b = f32_hash_bits b' → same_tree (KFloat32 (Some b)) (KFloat32 (Some b'))
| SameString p q s : same_tree (KString p s) (KString q s)
| SameStringNull : same_tree KStringNull KStringNull
| SameHeapNull : same_tree KHeapNull KHeapNull
| SameHeapString p q s : same_tree (KHeapString p s) (KHeapString q s)
| SameHeapBignum p q b : same_tree (KHeapBignum p b) (KHeapBignum q b)
| SameHeapCons p q a a' d d' : same_tree a a' → same_tree d d' → same_tree (KHeapCons p a d) (KHeapCons q a' d')
| SameHeapVector p q l l' : Forall2 same_tree l l' → same_tree (KHeapVector p l) (KHeapVector q l')
| SameHeapOther p s : same_tree (KHeapOther p s) (KHeapOther p s).

Lemma same_tree_hash a b : same_tree a b → hash_tagged_value a = hash_tagged_value b.
Proof.
  revert b. induction a as [| | | | | | | |p a d IHa IHd|p l IH|] using key_nested_ind; intros b' Hs;
    inversion Hs as [| |x y E| | | | | |? ? ? ? ? ? Ha Hd|? ? ? l' Hl|]; subst; try done.
  - cbn. by rewrite E.
  - cbn. by rewrite (IHa _ Ha), (IHd _ Hd).
  - cbn. generalize (mul_prime (mix FNV_OFFSET_BASIS ESHKOL_TYPE_HEAP_PTR)).
    clear Hs. revert l' Hl. induction IH as [|x l Hx _ IHl]; intros l' Hl; inversion Hl as [|? y ? k Hxy Hlk]; subst; [done|].
    intros h. rewrite (Hx _ Hxy). by apply IHl.
Qed.

Lemma same_tree_sym a b : same_tree a b → same_tree b a.
Proof.
  revert b. induction a as [| | | | | | | |p a d IHa IHd|p l IH|] using key_nested_ind; intros b' Hs;
    inversion Hs as [| |x y E| | | | | |? ? ? ? ? ? Ha Hd|? ? ? l' Hl|]; subst; constructor; auto.
  clear Hs. revert l' Hl. induction IH as [|x l Hx _ IHl]; intros l' Hl; inversion Hl; subst; constructor; auto.
Qed.

Lemma same_tree_trans a b c : same_tree a b → same_tree b c → same_tree a c.
Proof.
  revert b c. induction a as [| | | | | | | |p a d IHa IHd|p l IH|] using key_nested_ind; intros b' c' Hs Hs';
    inversion Hs as [| |x y E| | | | | |? ? ? ? ? ? Ha Hd|? ? ? l' Hl|]; subst;
    inversion Hs' as [| |x' y' E'| | | | | |? ? ? ? ? ? Ha' Hd'|? ? ? l'' Hl'|]; subst; constructor; eauto; [congruence|].
  clear Hs Hs'. revert l' l'' Hl Hl'.
  induction IH as [|x l Hx _ IHl]; intros l' l'' Hl Hl'; inversion Hl; subst; inversion Hl'; subst; constructor; eauto.
Qed.

Lemma vector_admissible l :
  (fix go (l : list key) : Prop := match l with [] => True | x :: l => admissible x ∧ go l end) l ↔ Forall admissible l.
Proof. induction l as [|x l IH]; [by split|]. split.
  - intros [? ?]. constructor; [done|by apply IH].
  - intros Hf. inversion Hf; subst. split; [done|by apply IH].
Qed.

Lemma same_tree_refl a : admissible a → same_tree a a.
Proof.
  induction a as [| |[b|]| | | | | |p a d IHa IHd|p l IH|] using key_nested_ind; try done; try constructor; try (by constructor).
  - cbn in *. tauto.
  - cbn in *. tauto.
  - cbn in H. rewrite vector_admissible in H. destruct H as [_ H]. clear p.
    induction IH as [|x l Hx _ IHl]; inversion H; subst; constructor; auto.
Qed.

Lemma ieee_eq_spec w inf a b : ieee_eq w inf a b = true ↔
  let mag x := Z.land x (2 ^ (w - 1) - 1) in
  mag a <= inf ∧ mag b <= inf ∧ (a = b ∨ mag a = 0 ∧ mag b = 0).
Proof.
  unfold ieee_eq. rewrite !andb_true_iff, orb_true_iff, andb_true_iff, !Z.leb_le, !Z.eqb_eq. tauto.
Qed.

Lemma zero_magnitude x : is_u64 x → Z.land x (2 ^ 63 - 1) = 0 → x = 0 ∨ x = 2 ^ 63.
Proof.
  intros Hx. change (2 ^ 63 - 1) with (Z.ones 63). rewrite Z.land_ones by lia. intros E.
  pose proof (Z.div_mod x (2 ^ 63) ltac:(lia)) as Hd. unfold is_u64 in Hx. lia.
Qed.

Lemma double_eq_bits a b : is_u64 a → is_u64 b → a ≠ 2 ^ 63 → b ≠ 2 ^ 63 → double_eq a b = true → a = b.
Proof.
  intros Ha Hb Na Nb. unfold double_eq. rewrite ieee_eq_spec. change (64 - 1) with 63. cbv zeta.
  intros (_ & _ & [?|[Ea Eb]]); [done|]. apply zero_magnitude in Ea, Eb; [|done..]. lia.
Qed.

Lemma float32_eq_hash a b : float32_eq a b = true → f32_hash_bits a = f32_hash_bits b.
Proof.
  unfold float32_eq, f32_hash_bits. rewrite ieee_eq_spec. change (32 - 1) with 31. cbv zeta.
  intros (_ & _ & [->|[-> ->]]); done.
Qed.

Lemma hash_float32_eq a b : float32_eq a a = true → float32_eq b b = true → f32_hash_bits a = f32_hash_bits b →
  float32_eq a b = true.
Proof.
  unfold float32_eq, f32_hash_bits. rewrite !ieee_eq_spec. change (32 - 1) with 31. cbv zeta.
  intros (Ha & _) (Hb & _) E. split_and!; [done|done|].
  destruct (Z.eqb_spec (Z.land a (2 ^ 31 - 1)) 0) as [Ea|Ea], (Z.eqb_spec (Z.land b (2 ^ 31 - 1)) 0) as [Eb|Eb]; [by right| | |by left].
  - subst b. by rewrite Z.land_0_l in Eb.
  - subst a. by rewrite Z.land_0_l in Ea.
Qed.

Lemma compare_zero_eq a b : wf a → wf b → (eshkol_bignum_compare (Some a) (Some b) =? 0) = true ↔ a = b.
Proof.
  intros Ha Hb. rewrite (compare_denotes (Some a) (Some b) (bval a) (bval b)) by (by eexists). rewrite Z.eqb_eq.
  split; [intros E; apply bval_inj; [done|done|lia]|intros ->; lia].
Qed.

(** The pointer shortcut is sound: one address, one object. *)
Lemma same_address a b p : admissible a → heap p = Some a → heap p = Some b → same_tree a b.
Proof. intros Ha E1 E2. rewrite E1 in E2. injection E2 as <-. by apply same_tree_refl. Qed.

Definition vector_equal := fix go (l l' : list key) : bool :=
  match l, l' with
  | x :: l, y :: l' => if hash_keys_equal x y then go l l' else false
  | _, _ => true
  end.

Lemma vector_equal_spec l l' : Forall (λ a, ∀ b, admissible a → admissible b → hash_keys_equal a b = true ↔ same_tree a b) l →
  Forall admissible l → Forall admissible l' →
  ((length l =? length l')%nat && vector_equal l l' = true ↔ Forall2 same_tree l l').
Proof.
  intros Hl. revert l'. induction Hl as [|x l Hx _ IH]; intros [|y l'] Ha Hb; cbn; try (split; [done|by inversion 1]).
  inversion Ha as [|? ? Hax Hal]; inversion Hb as [|? ? Hby Hbl]; subst. specialize (IH l' Hal Hbl).
  pose proof (Hx y Hax Hby) as E. destruct (hash_keys_equal x y).
  - rewrite IH. split; [intros ?; constructor; [by apply E|done]|by inversion 1].
  - rewrite andb_false_r. split; [done|]. inversion 1; subst. by apply E.
Qed.

Lemma equal_same_tree a b : admissible a → admissible b → hash_keys_equal a b = true ↔ same_tree a b.
Proof.
  revert b. induction a as [ty x|x|[x|]| |p s| |p s|p x|p a d IHa IHd|p l IH|p s] using key_nested_ind; intros b Ha Hb;
    destruct b as [ty' y|y|[y|]| |q s'| |q s'|q y|q a' d'|q l'|q s']; try (split; [done|by inversion 1]); try done.
  - cbn in *. rewrite andb_true_iff, orb_true_iff, !Z.eqb_eq. split.
    + intros [-> [E| ->]]; [|constructor]. rewrite (Ha E), (Hb E). constructor.
    + inversion 1; subst; auto.
  - destruct Ha as (Ux & Nx & Zx), Hb as (Uy & Ny & Zy). cbn. split.
    + intros E. apply double_eq_bits in E; [|done..]. subst. constructor.
    + by inversion 1; subst.
  - cbn in *. split; [intros; constructor; by apply float32_eq_hash|inversion 1; subst; by apply hash_float32_eq].
  - split; [constructor|done].
  - cbn. rewrite orb_true_iff, Z.eqb_eq, strcmp_eq_spec. split.
    + intros [->| ->]; [by eapply same_address|constructor].
    + inversion 1; subst; auto.
  - split; [constructor|done].
  - cbn. rewrite orb_true_iff, Z.eqb_eq, strcmp_eq_spec. split.
    + intros [->| ->]; [by eapply same_address|constructor].
    + inversion 1; subst; auto.
  - destruct Ha as [Hp Hx], Hb as [Hq Hy]. cbn -[eshkol_bignum_compare]. rewrite orb_true_iff, Z.eqb_eq, compare_zero_eq by done. split.
    + intros [->| ->]; [|constructor]. rewrite Hp in Hq. injection Hq as <-. constructor.
    + inversion 1; subst; auto.
  - pose proof Ha as (Hp & Haa & Had). pose proof Hb as (Hq & Hba & Hbd). cbn.
    rewrite orb_true_iff, Z.eqb_eq, andb_true_iff, IHa, IHd by done. split.
    + intros [->|[? ?]]; [by eapply same_address|by constructor].
    + inversion 1; subst; auto.
  - pose proof Ha as (Hp & Hal). pose proof Hb as (Hq & Hbl). cbn. fold vector_equal.
    rewrite vector_admissible in Hal, Hbl. rewrite orb_true_iff, Z.eqb_eq, vector_equal_spec by done. split.
    + intros [->|?]; [by eapply same_address|by constructor].
    + inversion 1; subst; auto.
  - cbn. rewrite Z.eqb_eq. split.
    + intros ->. by eapply same_address.
    + by inversion 1.
Qed.

(** Tagged values keep the table's contract. *)
#[export, program] Instance tagged_hash_key : HashKey key := {
  key_hash := hash_tagged_value;
  key_eq := hash_keys_equal;
  key_ok := admissible
}.
Next Obligation. intros k Hk. apply equal_same_tree; [done|done|by apply same_tree_refl]. Qed.
Next Obligation.
  intros a b Ha Hb E. apply equal_same_tree; [done|done|]. apply same_tree_sym. by apply equal_same_tree.
Qed.
Next Obligation.
  intros a b c Ha Hb Hc E1 E2. apply equal_same_tree; [done|done|].
  apply same_tree_trans with b; by apply equal_same_tree.
Qed.
Next Obligation. intros a b Ha Hb E. apply same_tree_hash. by apply equal_same_tree. Qed.

End contract.
