(* ===== verification/NumericProps.v ===== *)
(** * NumericProps: what the numeric tower computes

    The theorems about bignums (lib/core/bignum.cpp), rationals
    (lib/core/rational.cpp) and their tagged dispatch, each with a witness at
    concrete operands. *)

From S2P Require Import BignumText Dispatch.
Local Open Scope Z_scope.
Local Open Scope bignum_scope.

(** Literals used by the witnesses: a two-limb number and its negation. *)
Definition big_pos : bignum := Bignum 0 [5; 7].
Definition big_neg : bignum := Bignum 1 [5; 7].
Definition ten20 : Z := 5 + 7 * 2 ^ 64.

Lemma u64s_check l : forallb (λ x, (0 <=? x) && (x <? 2 ^ 64)) l = true → u64s l.
Proof.
  induction l as [|x l IH]; [constructor|]. cbn [forallb]. intros [[Hx%Z.leb_le Hy%Z.ltb_lt]%andb_prop Hl]%andb_prop.
  constructor; [by split|by apply IH].
Qed.

Lemma wf_one x : is_u64 x → wf (Bignum 0 [x]).
Proof. intros Hx. split; cbn; auto. Qed.

Lemma big_pos_denotes : Some big_pos ⇓ ten20.
Proof. exists big_pos. split_and!; [done| |done]. apply wf_two; auto; unfold is_u64; lia. Qed.
Lemma big_neg_denotes : Some big_neg ⇓ - ten20.
Proof. exists big_neg. split_and!; [done| |done]. apply wf_two; auto; unfold is_u64; lia. Qed.

(** ** Bignums *)

(** C1: division of well-formed bignums by a non-zero bignum (Knuth's Algorithm D
    with its normalisation, trial quotients, multiply-subtract and add-back)
    returns the truncated quotient and the remainder with the dividend's sign,
    both as well-formed bignums. *)
Theorem bignum_division_exact a b za zb : a ⇓ za → b ⇓ zb → zb ≠ 0 →
  eshkol_bignum_div a b ⇓ᵣ Z.quot za zb ∧ eshkol_bignum_mod a b ⇓ᵣ Z.rem za zb.
Proof. intros Ha Hb Hne. split; [by apply div_returns|by apply mod_returns]. Qed.

Lemma bignum_division_exact_witness :
  eshkol_bignum_div (Some big_neg) (Some (Bignum 0 [9])) ⇓ᵣ Z.quot (- ten20) 9 ∧
  eshkol_bignum_mod (Some big_neg) (Some (Bignum 0 [9])) ⇓ᵣ Z.rem (- ten20) 9.
Proof.
  apply (bignum_division_exact (Some big_neg) (Some (Bignum 0 [9])) (- ten20) 9).
  - exact big_neg_denotes.
  - exists (Bignum 0 [9]). split; [reflexivity|split; [apply wf_one; unfold is_u64; lia|reflexivity]].
  - lia.
Defined.

(** C13: for a divisor whose top limb has its high bit set, the trial quotient that
    the division estimates from the top limbs, after at most two corrections, is
    the true quotient digit or one more, and fits a limb. *)
Theorem trial_quotient_within_one un vn n j : u64s un → u64s vn → length vn = n → (2 <= n)%nat →
  2 ^ 63 <= limb vn (n - 1) → (j + n < length un)%nat → lval un < lval vn * pw (S j) →
  let q := lval un / (lval vn * pw j) in
  q <= trial_qhat un vn n j <= q + 1 ∧ 0 <= q ∧ trial_qhat un vn n j < B.
Proof. intros Hun Hvn Hl Hn Htop Hj Hlt. by apply trial_qhat_spec. Qed.

Lemma trial_quotient_within_one_witness :
  let un := [3; 0; 2 ^ 62] in let vn := [2 ^ 64 - 1; 2 ^ 63] in
  let q := lval un / (lval vn * pw 0) in
  q <= trial_qhat un vn 2 0 <= q + 1 ∧ 0 <= q ∧ trial_qhat un vn 2 0 < B.
Proof.
  apply (trial_quotient_within_one [3; 0; 2 ^ 62] [2 ^ 64 - 1; 2 ^ 63] 2 0);
    [apply u64s_check; reflexivity|apply u64s_check; reflexivity|reflexivity|lia|vm_compute; discriminate|simpl; lia|vm_compute; reflexivity].
Defined.

(** C24: addition, subtraction, multiplication and negation are exact on well-formed
    bignums of any size and return well-formed bignums. *)
Theorem bignum_ring_exact a b za zb : a ⇓ za → b ⇓ zb →
  eshkol_bignum_add a b ⇓ za + zb ∧ eshkol_bignum_sub a b ⇓ za - zb ∧
  eshkol_bignum_mul a b ⇓ za * zb ∧ eshkol_bignum_neg a ⇓ - za.
Proof. intros. split_and!; auto with bignum. Qed.

Lemma bignum_ring_exact_witness :
  eshkol_bignum_add (Some big_pos) (Some big_neg) ⇓ ten20 + - ten20 ∧
  eshkol_bignum_sub (Some big_pos) (Some big_neg) ⇓ ten20 - - ten20 ∧
  eshkol_bignum_mul (Some big_pos) (Some big_neg) ⇓ ten20 * - ten20 ∧
  eshkol_bignum_neg (Some big_pos) ⇓ - ten20.
Proof.
  exact (bignum_ring_exact (Some big_pos) (Some big_neg) ten20 (- ten20) big_pos_denotes big_neg_denotes).
Defined.

(** [eshkol_bignum_compare] is the sign of the difference, and the int64
    comparison, with its one-limb shortcuts and the INT64_MIN case, agrees. *)
Theorem bignum_compare_exact a b za zb v : a ⇓ za → b ⇓ zb → is_i64 v →
  eshkol_bignum_compare a b = Z.sgn (za - zb) ∧
  ∀ x, a = Some x → eshkol_bignum_compare_int64 x v = Z.sgn (za - v).
Proof.
  intros Ha Hb Hv. split; [by apply compare_denotes|].
  intros x ->. destruct Ha as (y & [= <-] & Hy & <-). by apply compare_int64_denotes.
Qed.


(** C36: printing a well-formed bignum and parsing the result gives the same bignum
    back, limb for limb. *)
Theorem bignum_text_roundtrip x : wf x →
  ∃ s, eshkol_bignum_to_string (Some x) = Some s ∧ eshkol_bignum_from_string s = Some x.
Proof.
  intros Hx. destruct (to_string_numeral (Some x) (bval x)) as (s & Es & Hn); [by exists x|].
  exists s. split; [done|]. apply denotes_inj with (bval x); [by apply from_string_literal, numeral_literal|by exists x].
Qed.

Lemma bignum_text_roundtrip_witness :
  ∃ s, eshkol_bignum_to_string (Some big_neg) = Some s ∧ eshkol_bignum_from_string s = Some big_neg.
Proof. apply (bignum_text_roundtrip big_neg). apply wf_two; [right; reflexivity|split; lia|split; lia|lia]. Defined.

(** The parser accepts exactly an optional sign followed by decimal digits, and
    the bignum it returns denotes that numeral. *)
Theorem bignum_from_string_spec s :
  (∀ z, literal s z → eshkol_bignum_from_string s ⇓ z) ∧
  (∀ b, eshkol_bignum_from_string s = Some b → ∃ z, literal s z ∧ wf b ∧ bval b = z).
Proof.
  split; [intros z; apply from_string_literal|]. intros b Hb.
  destruct (from_string_some s b Hb) as [z Hz]. exists z. split; [done|].
  destruct (from_string_literal s z Hz) as (b' & E & Hw & Ev). rewrite Hb in E. by injection E as <-.
Qed.

(** The decimal printer stays inside its buffer of [20 * num_limbs + 2]
    characters: digits, sign and the final NUL all fit. *)
Theorem bignum_to_string_fits x : wf x → mag x ≠ 0 →
  ∃ ds rest, emit_digits (max_digits x) (Bignum 0 (limbs x)) (replicate (max_digits x) Ascii.zero) 0
      = Some (rev ds ++ rest, length ds)
    ∧ digits_value ds = mag x ∧ head ds ≠ Some "0"%char ∧ (length ds + 2 <= max_digits x)%nat.
Proof.
  intros Hx Hne. destruct (emitted_digits x Hx Hne) as (ds & rest & E & _ & Hl & _ & _ & Hv & Hh).
  exists ds, rest. split_and!; [done|done|done|]. unfold max_digits. lia.
Qed.


(** Up to twelve limbs the stream printer writes the canonical numeral of the
    number, which reads back as it. *)
Theorem bignum_display_numeral x : wf x → (num_limbs x <= 12)%nat →
  ∃ s, eshkol_bignum_display (Some x) = Some s ∧ numeral s (bval x) ∧ eshkol_bignum_from_string s = Some x.
Proof.
  intros Hx Hn. destruct (display_numeral x Hx Hn) as (s & E & Hs). exists s. split_and!; [done|done|].
  apply denotes_inj with (bval x); [by apply from_string_literal, numeral_literal|by exists x].
Qed.


(** Up to 126 limbs, the bitwise operations are those of infinite two's
    complement. *)
Theorem bignum_bitwise_exact a b za zb : a ⇓ za → b ⇓ zb →
  (∀ x, a = Some x → num_limbs x <= 126)%nat → (∀ y, b = Some y → num_limbs y <= 126)%nat →
  eshkol_bignum_bitwise_and a b ⇓ Z.land za zb ∧ eshkol_bignum_bitwise_or a b ⇓ Z.lor za zb ∧
  eshkol_bignum_bitwise_xor a b ⇓ Z.lxor za zb ∧ eshkol_bignum_bitwise_not a ⇓ Z.lnot za.
Proof.
  intros Ha Hb La Lb. split_and!.
  - by apply (bitwise_with_denotes Z.land andb); [apply land_bitwise|..].
  - by apply (bitwise_with_denotes Z.lor orb); [apply lor_bitwise|..].
  - by apply (bitwise_with_denotes Z.lxor xorb); [apply lxor_bitwise|..].
  - by apply bitwise_not_denotes.
Qed.


(** What [eshkol_bignum_shift] computes for non-zero operands and counts below
    [2^38]: a left shift is exact, a right shift divides the magnitude (a negative
    number that loses all its bits becomes -1), and that is the floor shift the
    documentation promises exactly when the number is not negative, loses all its
    bits, or loses only zero bits. *)
Theorem bignum_shift_spec a za c : a ⇓ za → za ≠ 0 → 0 < c < 2 ^ 38 →
  eshkol_bignum_shift a c ⇓ Z.shiftl za c ∧
  eshkol_bignum_shift a (- c) ⇓ shifted_right za c ∧
  (shifted_right za c = Z.shiftr za c ↔ 0 <= za ∨ Z.abs za < 2 ^ c ∨ (2 ^ c | za)).
Proof.
  intros Ha Hne Hc. split_and!; [by apply shift_left_denotes|by apply shift_right_denotes|].
  apply shifted_right_floor. lia.
Qed.


(** A shift by zero of any well-formed non-zero bignum returns 0, not the
    number. *)
Theorem bignum_shift_by_zero a za : a ⇓ za → eshkol_bignum_shift a 0 ⇓ 0.
Proof.
  intros (x & -> & _). unfold eshkol_bignum_shift. rewrite orb_true_r. apply small_literal. lia.
Qed.


(** Repeated squaring computes the power exactly for every 64-bit exponent. *)
Theorem bignum_pow_exact a za e : a ⇓ za → is_u64 e → eshkol_bignum_pow a e ⇓ za ^ e.
Proof. apply pow_denotes. Qed.


(** ** Rationals *)

(** The two rationals of the witnesses: 1/3, and a numerator above int64. *)
Definition third : rational := rational_alloc_small 1 3.
Definition big_half : rational := Rational 0 1 true (Some big_pos) (Some (Bignum 0 [2])).

Lemma third_canonical : canonical third.
Proof. apply small_canonical; [lia|reflexivity|unfold is_i64; lia|unfold is_i64; lia]. Qed.

Lemma big_half_canonical : canonical big_half.
Proof.
  split; [reflexivity|vm_compute; reflexivity|done|]. intros _. split_and!; [done|done|apply big_pos_denotes| |].
  - exists (Bignum 0 [2]). split_and!; [done|apply wf_one; unfold is_u64; lia|done].
  - intros [[_ Hn] _]. vm_compute in Hn. done.
Qed.

(** C35: the four rational operations are exact whether the operands are int64 pairs
    (the 128-bit fast path or its fallback) or bignum pairs, and return the
    canonical form: reduced, positive denominator, int64 whenever it fits. *)
Theorem rational_arithmetic_exact a b : canonical a → canonical b →
  (∃ r, eshkol_rational_add a b = Ret r ∧ canonical r ∧ rval r == rval a + rval b)%Q ∧
  (∃ r, eshkol_rational_sub a b = Ret r ∧ canonical r ∧ rval r == rval a - rval b)%Q ∧
  (∃ r, eshkol_rational_mul a b = Ret r ∧ canonical r ∧ rval r == rval a * rval b)%Q ∧
  (if decide (rnum b = 0) then eshkol_rational_div a b = Raised DivideByZero
   else ∃ r, eshkol_rational_div a b = Ret r ∧ canonical r ∧ (rval r == rval a / rval b)%Q).
Proof.
  intros Ha Hb. split_and!; [by apply add_rval|by apply sub_rval|by apply mul_rval|]. case_decide.
  - by apply rational_div_by_zero.
  - apply div_rval; [done|done|]. by rewrite rval_zero.
Qed.

Lemma rational_arithmetic_exact_witness :
  (∃ r, eshkol_rational_add third big_half = Ret r ∧ canonical r ∧ rval r == rval third + rval big_half)%Q ∧
  (∃ r, eshkol_rational_sub third big_half = Ret r ∧ canonical r ∧ rval r == rval third - rval big_half)%Q ∧
  (∃ r, eshkol_rational_mul third big_half = Ret r ∧ canonical r ∧ rval r == rval third * rval big_half)%Q ∧
  (if decide (rnum big_half = 0) then eshkol_rational_div third big_half = Raised DivideByZero
   else ∃ r, eshkol_rational_div third big_half = Ret r ∧ canonical r ∧ (rval r == rval third / rval big_half)%Q).
Proof. exact (rational_arithmetic_exact third big_half third_canonical big_half_canonical). Defined.

(** On canonical rationals [eshkol_rational_equal] is equality of values, which
    is identity of representation, and [eshkol_rational_compare] is the order of the
    values. *)
Theorem rational_order_exact a b : canonical a → canonical b →
  (eshkol_rational_equal a b = true ↔ (rval a == rval b)%Q) ∧ ((rval a == rval b)%Q → a = b) ∧
  eshkol_rational_compare a b = match Qcompare (rval a) (rval b) with Lt => -1 | Eq => 0 | Gt => 1 end.
Proof. intros Ha Hb. split_and!; [by apply equal_rval|by apply rval_inj|by apply compare_rval]. Qed.


(** Floor, ceiling, truncation and rounding (half to even) of canonical
    rationals are exact on both representations and return integers in canonical
    form; for rounding an int64 pair, as long as twice the remainder fits int64. *)
Theorem rational_rounding_exact r : canonical r →
  returns_num (eshkol_rational_floor_tagged r) (inject_Z (rnum r / rden r)) ∧
  returns_num (eshkol_rational_ceil_tagged r) (inject_Z (- (- rnum r / rden r))) ∧
  returns_num (eshkol_rational_truncate_tagged r) (inject_Z (Z.quot (rnum r) (rden r))) ∧
  ((is_big r = false → 2 * (Z.abs (rnum r) mod rden r) < 2 ^ 63) →
   returns_num (eshkol_rational_round_tagged r) (inject_Z (round_even (rnum r) (rden r)))).
Proof. intros Hr. split_and!; [by apply floor_num|by apply ceil_num|by apply truncate_num|by apply round_num]. Qed.


(** When twice the remainder does not fit int64 the doubled remainder wraps and
    [eshkol_rational_round] rounds the wrong way: (2^63 - 2)/(2^63 - 1), just below
    one, is rounded to 0. *)
Theorem rational_round_wraps :
  let r := rational_alloc_small (2 ^ 63 - 2) (2 ^ 63 - 1) in
  canonical r ∧ eshkol_rational_round r = 0 ∧ round_even (rnum r) (rden r) = 1.
Proof.
  split_and!; [|vm_compute; reflexivity|vm_compute; reflexivity].
  apply small_canonical; [lia|vm_compute; reflexivity|unfold is_i64; lia|unfold is_i64; lia].
Qed.

(** ** The tagged dispatch *)

(** [inexact->exact] of any finite double, subnormals included, is exactly the
    value of the double, as an int64, a bignum or a reduced rational, whichever is
    canonical. *)
Theorem inexact_to_exact_is_exact d : is_double d → is_finite d = true →
  returns_num (eshkol_double_to_exact_tagged d) (dval d).
Proof. apply double_to_exact_num. Qed.

(** The smallest subnormal. *)

(** Integer arithmetic through the tagged dispatch: for operands in any
    representation, +, -, *, floor modulo (sign of the divisor), truncated quotient
    and remainder return the exact result in canonical form. *)
Theorem tagged_integer_arithmetic misread left right x y op :
  exact_int (data left) x → exact_int (data right) y → 0 <= op <= 6 → op ≠ 3 → (4 <= op → y ≠ 0) →
  returns_int (eshkol_bignum_binary_tagged misread left right op) (int_op op x y).
Proof. apply binary_tagged_int. Qed.


(** Exact division and the other integer divisions by an exact zero raise the
    divide-by-zero exception; exact division by anything else is the exact quotient,
    an integer when it is one and a reduced rational otherwise. *)
Theorem tagged_exact_division misread left right x y : exact_int (data left) x → exact_int (data right) y →
  if decide (y = 0)
  then ∀ op, 3 <= op <= 6 → eshkol_bignum_binary_tagged misread left right op = Raised DivideByZero
  else returns_num (eshkol_bignum_binary_tagged misread left right 3) (inject_Z x / inject_Z y).
Proof.
  intros Hl Hr. case_decide as E.
  - intros op Hop. rewrite E in Hr. by eapply binary_tagged_div_zero.
  - by apply divide_tagged_num.
Qed.


(** The rational dispatch is exact on any mix of int64, bignum and rational
    operands and returns the canonical representation of the result. *)
Theorem tagged_rational_arithmetic a b x y op : exact_num (data a) x → exact_num (data b) y → 0 <= op <= 3 →
  (op = 3 → ¬ (y == 0)%Q) →
  returns_num (eshkol_rational_binary_tagged a b op) (num_op op x y) ∧
  ∀ rel, eshkol_rational_compare_tagged_ptr a b rel =
    Ret (make_bool (compare_int_op rel (match Qcompare x y with Lt => -1 | Eq => 0 | Gt => 1 end)) 0).
Proof. intros. split; [by apply rational_binary_num|]. intros rel. by apply rational_compare_num. Qed.


(** Greatest common divisor, comparison and exact power through the tagged
    dispatch: the gcd is non-negative and exact, comparisons order the integers, and
    a non-negative int64 exponent gives the exact power, all in canonical form. *)
Theorem tagged_integer_functions misread c_pow left right x y : exact_int (data left) x → exact_int (data right) y →
  returns_int (eshkol_gcd_tagged misread left right) (Z.gcd x y) ∧
  (∀ op, eshkol_bignum_compare_tagged misread left right op =
    Ret (make_bool (compare_int_op op (Z.sgn (x - y))) ESHKOL_VALUE_EXACT_FLAG)) ∧
  (data right = VInt64 y → 0 <= y → returns_int (eshkol_bignum_pow_tagged misread c_pow left right) (x ^ y)).
Proof.
  intros Hl Hr. split_and!; [by apply gcd_tagged_int|intros op; by apply compare_tagged_int|].
  intros E H0. apply pow_tagged_int; [done|done| |done]. rewrite E in Hr. apply Hr.
Qed.


(** Unary minus is exact, but its result is always a bignum: the negation of an
    integer that fits int64 is not in canonical form. *)
Theorem tagged_negation_not_demoted misread left right x : exact_int (data left) x →
  eshkol_is_rational_tagged right = false → is_i64 (- x) →
  ∃ v, eshkol_bignum_binary_tagged misread left right 7 = Ret v ∧ exact_int (data v) (- x) ∧ ¬ canonical_int (data v) (- x).
Proof.
  intros Hl Hr Hi. destruct (neg_tagged_int misread left right x Hl Hr) as (v & b & E & Ed & Hb & Ev).
  exists v. split; [done|]. rewrite Ed. split; [done|]. intros (_ & _ & []). done.
Qed.

