(* ===== verification/HashProps.v ===== *)
(** * HashProps: the hash table as a finite map

    The theorems about lib/core/runtime_hash_table.cpp: the table against the
    [HashKey] interface, and the interface for tagged values. *)

From S2P Require Import KeyHash.
Local Open Scope nat_scope.

Section map.

Context {K V : Type} `{HK : HashKey K} (zero_key : K) (zero_value : V).

Abbreviation get := (hash_table_get zero_key zero_value).
Abbreviation set := (hash_table_set zero_key zero_value).

(** A lookup is determined by the bindings. *)
Lemma get_ext (t : hash_table K V) k o : table_wf zero_key t → key_ok k →
  (∀ v, o = Some v ↔ binds zero_key zero_value t k v) → get t k = o.
Proof.
  intros Hw Hk Hb. pose proof (wf_is_core _ _ Hw) as Hc. destruct o as [v|].
  - apply (get_binds zero_key zero_value); [done|done|]. by apply Hb.
  - apply (get_none zero_key zero_value); [done|done|]. intros [v Hv]. apply Hb in Hv. done.
Qed.

Lemma get_iff (t : hash_table K V) k v : table_wf zero_key t → key_ok k → get t k = Some v ↔ binds zero_key zero_value t k v.
Proof. intros Hw Hk. by apply get_binds; [apply wf_is_core|]. Qed.

Lemma has_key_get (t : hash_table K V) k : hash_table_has_key zero_key t k = bool_decide (is_Some (get t k)).
Proof. unfold hash_table_has_key, hash_table_get. by destruct (find_slot zero_key t k) as [[s|] ?]. Qed.

End map.

(** A table of integers for the witnesses. *)
Definition int_key (k : Z) : key := KImm 1 k.
Definition fresh : hash_table key Z := HashTable (replicate 4 (int_key 0)) (replicate 4 0%Z) (replicate 4 EMPTY) 4 0 0.

Lemma fresh_wf : @table_wf key Z (tagged_hash_key (λ _, None)) (int_key 0) fresh.
Proof. by apply (@alloc_wf key Z (tagged_hash_key (λ _, None)) (int_key 0) 0%Z 4). Qed.

Lemma int_key_ok k : k ≠ 0%Z → admissible (λ _, None) (int_key k).
Proof. intros Hk E. by vm_compute in E. Qed.

(** C26: setting a key keeps the invariant of the table, growing it when needed,
    and changes exactly the lookups of the keys equal to it. *)
Theorem hash_set_get {K V} `{HashKey K} (zk : K) (zv : V) t k v : table_wf zk t → key_ok k →
  table_wf zk (hash_table_set zk zv t k v) ∧
  ∀ k', key_ok k' → hash_table_get zk zv (hash_table_set zk zv t k v) k' =
    if key_eq k k' then Some v else hash_table_get zk zv t k'.
Proof.
  intros Hw Hk. destruct (set_spec zk zv t k v Hw Hk) as [Hw' Hb]. split; [done|].
  intros k' Hk'. apply get_ext; [done|done|]. intros v'. rewrite (Hb k' v' Hk').
  destruct (key_eq k k'); [split; [by intros [= ->]|by intros ->]|]. by apply get_iff.
Qed.

Lemma hash_set_get_witness :
  @table_wf key Z (tagged_hash_key (λ _, None)) (int_key 0)
    (@hash_table_set key Z (tagged_hash_key (λ _, None)) (int_key 0) 0%Z fresh (int_key 7) 42%Z) ∧
  ∀ k', admissible (λ _, None) k' →
    @hash_table_get key Z (tagged_hash_key (λ _, None)) (int_key 0) 0%Z
      (@hash_table_set key Z (tagged_hash_key (λ _, None)) (int_key 0) 0%Z fresh (int_key 7) 42%Z) k' =
    if hash_keys_equal (int_key 7) k' then Some 42%Z
    else @hash_table_get key Z (tagged_hash_key (λ _, None)) (int_key 0) 0%Z fresh k'.
Proof.
  exact (@hash_set_get key Z (tagged_hash_key (λ _, None)) (int_key 0) 0%Z fresh (int_key 7) 42%Z fresh_wf
           (int_key_ok 7 ltac:(discriminate))).
Defined.

(** C30: removing a key keeps the invariant, reports whether the key was bound,
    adjusts the count accordingly, and unbinds exactly the keys equal to it:
    the tombstone left behind never hides another key. *)
Theorem hash_remove_get {K V} `{HashKey K} (zk : K) (zv : V) t k : table_wf zk t → key_ok k →
  let '(t', found) := hash_table_remove zk t k in
  table_wf zk t' ∧ found = hash_table_has_key zk t k ∧ hash_table_count t' + b2n found = hash_table_count t ∧
  ∀ k', key_ok k' → hash_table_get zk zv t' k' = if key_eq k k' then None else hash_table_get zk zv t k'.
Proof.
  intros Hw Hk. pose proof (remove_spec zk zv t k Hw Hk) as Hr. rewrite (has_key_get zk zv).
  destruct (hash_table_remove zk t k) as [t' found].
  destruct Hr as (Hw' & Hf & Hsz & Hb). split_and!; [done| |done|].
  - apply eq_bool_prop_intro. rewrite bool_decide_spec, !Is_true_true, Hf. unfold bound.
    split; [intros [v Hv]; exists v; by apply get_iff|intros [v Hv]; exists v; by apply get_iff].
  - intros k' Hk'. apply get_ext; [done|done|]. intros v'. rewrite (Hb k' v' Hk').
    destruct (key_eq k k'); [by split; [|intros [? _]]|]. rewrite get_iff by done. split; [done|by intros [_ ?]].
Qed.

Lemma hash_remove_get_witness :
  let t := @hash_table_set key Z (tagged_hash_key (λ _, None)) (int_key 0) 0%Z fresh (int_key 7) 42%Z in
  let '(t', found) := @hash_table_remove key Z (tagged_hash_key (λ _, None)) (int_key 0) t (int_key 7) in
  @table_wf key Z (tagged_hash_key (λ _, None)) (int_key 0) t' ∧
  found = @hash_table_has_key key Z (tagged_hash_key (λ _, None)) (int_key 0) t (int_key 7) ∧
  hash_table_count t' + b2n found = hash_table_count t ∧
  ∀ k', admissible (λ _, None) k' →
    @hash_table_get key Z (tagged_hash_key (λ _, None)) (int_key 0) 0%Z t' k' =
    if hash_keys_equal (int_key 7) k' then None
    else @hash_table_get key Z (tagged_hash_key (λ _, None)) (int_key 0) 0%Z t k'.
Proof.
  apply (@hash_remove_get key Z (tagged_hash_key (λ _, None)) (int_key 0) 0%Z).
  - apply (set_spec (int_key 0) 0%Z fresh (int_key 7) 42%Z fresh_wf (int_key_ok 7 ltac:(discriminate))).
  - apply int_key_ok. discriminate.
Defined.

(** Growing the backing arrays keeps the invariant and every lookup, drops all
    tombstones and leaves the count alone. *)
Theorem hash_resize_get {K V} `{HashKey K} (zk : K) (zv : V) t n : table_wf zk t → capacity t < n →
  let t' := hash_table_resize zk zv t n in
  table_wf zk t' ∧ capacity t' = n ∧ hash_table_count t' = hash_table_count t ∧ tombstones t' = 0 ∧
  ∀ k, key_ok k → hash_table_get zk zv t' k = hash_table_get zk zv t k.
Proof.
  intros Hw Hn. destruct (table_resize_spec zk zv t n Hw Hn) as (Hw' & Hc & Hs & Ht & Hb).
  split_and!; [done|done|done|done|]. intros k Hk. apply get_ext; [done|done|].
  intros v. rewrite Hb. by apply get_iff.
Qed.


(** A fresh table and a cleared table satisfy the invariant and bind nothing;
    the key list of a table has one entry per binding, and a key is bound exactly
    when a key equal to it is listed. *)
Theorem hash_enumeration {K V} `{HashKey K} (zk : K) (zv : V) t : table_wf zk t →
  (∀ n u, arena_allocate_hash_table zk zv n = Some u → table_wf zk u ∧ ∀ k, key_ok k → hash_table_get zk zv u k = None) ∧
  (table_wf zk (hash_table_clear t) ∧ ∀ k, key_ok k → hash_table_get zk zv (hash_table_clear t) k = None) ∧
  length (hash_table_keys zk t) = hash_table_count t ∧
  (∀ k, key_ok k → hash_table_has_key zk t k = true ↔ ∃ k', k' ∈ hash_table_keys zk t ∧ key_eq k' k = true) ∧
  (∀ v, v ∈ hash_table_values zv t → ∃ k, key_ok k ∧ hash_table_get zk zv t k = Some v).
Proof.
  intros Hw. split_and!.
  - intros n u Hu. destruct (alloc_wf zk zv n u Hu) as (Hwu & _ & Hno). split; [done|]. intros k Hk.
    by apply (get_none zk zv); [apply wf_is_core|..].
  - by apply (clear_spec zk zv).
  - destruct (clear_spec zk zv t Hw) as (Hwc & _ & Hno). intros k Hk. by apply (get_none zk zv); [apply wf_is_core|..].
  - by apply (collect_inv zk).
  - intros k Hk. rewrite (has_key_get zk zv), bool_decide_eq_true. destruct (collect_inv zk t (key_at zk t) Hw) as [_ Hx].
    unfold hash_table_keys. split.
    + intros [v Hv]. apply get_iff in Hv; [|done|done]. destruct Hv as (j & Hj & Ek & _).
      exists (key_at zk t j). split; [apply Hx; by exists j|done].
    + intros (k' & Hin & Ek). apply Hx in Hin as (j & Hj & <-). exists (value_at zv t j). apply get_iff; [done|done|]. by exists j.
  - intros v Hv. destruct (collect_inv zk t (value_at zv t) Hw) as [_ Hx]. apply Hx in Hv as (j & Hj & <-).
    pose proof (wf_ok _ _ (wf_is_core _ _ Hw) j Hj). exists (key_at zk t j). split; [done|].
    apply get_iff; [done|done|]. exists j. split_and!; [done|by apply key_eq_refl|done].
Qed.


(** C38: on well-formed keys (no NaN, no negative zero) [hash_keys_equal] is equality
    of the key trees up to object addresses and float32 zeros, its pointer shortcuts
    included, and equal keys hash alike: nested pairs, vectors, strings and bignums
    are hashed structurally. *)
Theorem key_contract heap a b : admissible heap a → admissible heap b →
  (hash_keys_equal a b = true ↔ same_tree a b) ∧
  (hash_keys_equal a b = true → hash_tagged_value a = hash_tagged_value b).
Proof.
  intros Ha Hb. pose proof (equal_same_tree heap a b Ha Hb) as E. split; [done|].
  intros H. apply same_tree_hash. by apply E.
Qed.

Lemma key_contract_witness :
  let heap p := (if p =? 8 then Some (KHeapString 8 [97]) else if p =? 16 then Some (KHeapString 16 [97]) else None)%Z in
  (hash_keys_equal (KHeapString 8 [97%Z]) (KHeapString 16 [97%Z]) = true ↔
     same_tree (KHeapString 8 [97%Z]) (KHeapString 16 [97%Z])) ∧
  (hash_keys_equal (KHeapString 8 [97%Z]) (KHeapString 16 [97%Z]) = true →
     hash_tagged_value (KHeapString 8 [97%Z]) = hash_tagged_value (KHeapString 16 [97%Z])).
Proof.
  intros heap. apply (key_contract heap (KHeapString 8 [97%Z]) (KHeapString 16 [97%Z])); reflexivity.
Defined.

(** The two double zeros are equal keys with different hashes (the float32 case
    merges them before hashing, the double case does not): in a table of 256 slots a
    value stored under 0.0
    is not found under -0.0. *)
Theorem double_zero_keys_split :
  let zero := KDouble 0 in let minus_zero := KDouble (2 ^ 63) in
  hash_keys_equal zero minus_zero = true ∧ hash_tagged_value zero ≠ hash_tagged_value minus_zero ∧
  let H := tagged_hash_key (λ _, None) in
  let t := @hash_table_set key Z H (int_key 0) 0%Z
             (HashTable (replicate 256 (int_key 0)) (replicate 256 0%Z) (replicate 256 EMPTY) 256 0 0) zero 1%Z in
  @hash_table_get key Z H (int_key 0) 0%Z t zero = Some 1%Z ∧
  @hash_table_get key Z H (int_key 0) 0%Z t minus_zero = None.
Proof. split_and!; [reflexivity|vm_compute; discriminate|split; vm_compute; reflexivity]. Qed.
