(* ===== verification/Values.v ===== *)
(** * Values: runtime values as trees, and [equal?] on them
    (lib/core/runtime_deep_equal.cpp)

    Hash keys have their own encoding in [KeyHash]; here a value is the tree the
    logic engine and [eshkol_deep_equal] walk.  Heap constructors carry the
    address of the object, because several operations compare pointers. *)

From S2P Require Export Doubles BignumArith RationalSpec.
From stdpp Require Export strings gmap.
Local Open Scope Z_scope.

Definition ESHKOL_VALUE_NULL : Z := 0.
Definition ESHKOL_VALUE_INT64 : Z := 1.
Definition ESHKOL_VALUE_DOUBLE : Z := 2.
Definition TYPE_BOOL : Z := 3.
Definition ESHKOL_VALUE_CHAR : Z := 4.
Definition ESHKOL_VALUE_DUAL_NUMBER : Z := 6.
Definition ESHKOL_VALUE_COMPLEX : Z := 7.
Definition ESHKOL_VALUE_HEAP_PTR : Z := 8.
Definition ESHKOL_VALUE_LOGIC_VAR : Z := 10.
Definition ESHKOL_VALUE_FLOAT32 : Z := 11.
Definition ESHKOL_VALUE_CONS_PTR : Z := 32.
Definition ESHKOL_VALUE_STRING_PTR : Z := 33.

(** A predicate is a pointer to its text: into the interning pool, or to
    characters elsewhere. *)
Inductive pred_ptr :=
| PoolPtr (offset : Z)
| TextPtr (addr : Z).

#[export] Instance pred_ptr_eq_dec : EqDecision pred_ptr.
Proof. solve_decision. Defined.

Record pred_name := Predicate { p_ptr : pred_ptr; p_text : string }.

(** [Imm ty raw]: the types whose payload is only seen as raw bits, and the NULL
    pointers of the others.  [Cons true] and [Str true] are the legacy pointer
    types.  A tensor's [words] are its elements read as doubles; [duals] are the
    dual-number pointers of a tensor of that dtype. *)
Inductive value :=
| Imm (ty raw : Z)
| Int64 (n : Z)
| Double (d : double)
| Float32 (promoted : option double)
| LogicVar (id : Z)
| Complex (addr : Z) (real imag : double)
| Cons (legacy : bool) (addr : Z) (car cdr : value)
| Str (legacy : bool) (addr : Z) (s : string)
| Sym (addr : Z) (s : string)
| Big (addr : Z) (b : bignum)
| Rat (addr : Z) (r : rational)
| Vec (addr : Z) (elems : list value)
| Tensor (addr : Z) (dims : list Z) (words : list double) (duals : option (list Z))
| Fact (addr : Z) (pred : option pred_name) (args : list value)
| Subst (addr capacity : Z) (bindings : list (Z * value))
| Kb (addr : Z)
| Obj (addr subtype : Z).

Definition vnull : value := Imm ESHKOL_VALUE_NULL 0.

(** Induction with hypotheses for the values inside the lists. *)
Section value_induction.
Context (P : value → Prop).
Context (HImm : ∀ ty raw, P (Imm ty raw)) (HInt : ∀ n, P (Int64 n)) (HDouble : ∀ d, P (Double d)).
Context (HF32 : ∀ p, P (Float32 p)) (HVar : ∀ id, P (LogicVar id)).
Context (HComplex : ∀ a re im, P (Complex a re im)).
Context (HCons : ∀ l a x y, P x → P y → P (Cons l a x y)).
Context (HStr : ∀ l a s, P (Str l a s)) (HSym : ∀ a s, P (Sym a s)).
Context (HBig : ∀ a b, P (Big a b)) (HRat : ∀ a r, P (Rat a r)).
Context (HVec : ∀ a l, Forall P l → P (Vec a l)).
Context (HTensor : ∀ a dims w d, P (Tensor a dims w d)).
Context (HFact : ∀ a p l, Forall P l → P (Fact a p l)).
Context (HSubst : ∀ a c l, Forall (λ b, P b.2) l → P (Subst a c l)).
Context (HKb : ∀ a, P (Kb a)) (HObj : ∀ a s, P (Obj a s)).

Fixpoint value_nested_ind (v : value) : P v :=
  match v with
  | Imm ty raw => HImm ty raw
  | Int64 n => HInt n
  | Double d => HDouble d
  | Float32 p => HF32 p
  | LogicVar id => HVar id
  | Complex a re im => HComplex a re im
  | Cons l a x y => HCons l a x y (value_nested_ind x) (value_nested_ind y)
  | Str l a s => HStr l a s
  | Sym a s => HSym a s
  | Big a b => HBig a b
  | Rat a r => HRat a r
  | Vec a l => HVec a l (forall_each _ value_nested_ind l)
  | Tensor a dims w d => HTensor a dims w d
  | Fact a p l => HFact a p l (forall_each _ value_nested_ind l)
  | Subst a c l => HSubst a c l (forall_each _ (λ b, value_nested_ind b.2) l)
  | Kb a => HKb a
  | Obj a s => HObj a s
  end.
End value_induction.

(** The type byte and the payload as raw bits. *)
Definition vtype (v : value) : Z :=
  match v with
  | Imm ty _ => ty
  | Int64 _ => ESHKOL_VALUE_INT64
  | Double _ => ESHKOL_VALUE_DOUBLE
  | Float32 _ => ESHKOL_VALUE_FLOAT32
  | LogicVar _ => ESHKOL_VALUE_LOGIC_VAR
  | Complex _ _ _ => ESHKOL_VALUE_COMPLEX
  | Cons true _ _ _ => ESHKOL_VALUE_CONS_PTR
  | Str true _ _ => ESHKOL_VALUE_STRING_PTR
  | _ => ESHKOL_VALUE_HEAP_PTR
  end.

(** For [Double] and [Float32] the value is unused: both have their own comparison. *)
Definition vraw (v : value) : Z :=
  match v with
  | Imm _ raw => raw
  | Int64 n => n
  | LogicVar id => id
  | Double _ | Float32 _ => 0
  | Complex a _ _ | Cons _ a _ _ | Str _ a _ | Sym a _ | Big a _ | Rat a _ | Vec a _
  | Tensor a _ _ _ | Fact a _ _ | Subst a _ _ | Kb a | Obj a _ => a
  end.

(** ** [eshkol_deep_equal] *)

(** The lambda of that name: flag bits are only stripped below 8. *)
Definition get_base_type (t : Z) : Z := if 8 <=? t then t else Z.land t 15.

Definition is_float32 (v : value) : bool := match v with Float32 _ => true | _ => false end.
Definition float32_equal (v1 v2 : value) : bool :=
  match v1, v2 with Float32 (Some d1), Float32 (Some d2) => d_eq d1 d2 | _, _ => false end.

Definition is_empty_list (v : value) : bool :=
  let type := get_base_type (vtype v) in
  (type =? ESHKOL_VALUE_NULL) || ((type =? ESHKOL_VALUE_CONS_PTR) && (vraw v =? 0))
  || ((type =? ESHKOL_VALUE_HEAP_PTR) && (vraw v =? 0)).

(** The [switch] that ends the function. *)
Definition same_payload (v1 v2 : value) : bool :=
  (get_base_type (vtype v1) =? get_base_type (vtype v2)) &&
  match v1, v2 with
  | Double d1, Double d2 => d_eq d1 d2
  | _, _ => vraw v1 =? vraw v2
  end.

(** Every case that compares two values without looking into a container. *)
Definition atoms_equal (v1 v2 : value) : bool :=
  if is_float32 v1 || is_float32 v2 then float32_equal v1 v2
  else if is_empty_list v1 && is_empty_list v2 then true
  else if is_empty_list v1 || is_empty_list v2 then false
  else
    match v1, v2 with
    | Str _ p s, Str _ q s' => (p =? q) || String.eqb s s'
    | Sym p s, Sym q s' => (p =? q) || String.eqb s s'
    | Int64 n, Double d => d_eq (of_int n) d
    | Double d, Int64 n => d_eq d (of_int n)
    | Big _ x, Big _ y => eshkol_bignum_compare (Some x) (Some y) =? 0
    | Big _ x, Int64 n => eshkol_bignum_compare_int64 x n =? 0
    | Int64 n, Big _ x => eshkol_bignum_compare_int64 x n =? 0
    | Rat _ x, Rat _ y => eshkol_rational_equal x y
    | Complex p re im, Complex q re' im' => (p =? q) || (d_eq re re' && d_eq im im')
    | _, _ => same_payload v1 v2
    end.

Definition tensors_equal (dims : list Z) (words : list double) (dims' : list Z) (words' : list double) : bool :=
  (length dims =? length dims')%nat && (length words =? length words')%nat
  && forallb (λ p, p.1 =? p.2) (zip dims dims') && forallb (λ p, d_eq p.1 p.2) (zip words words').

(** A one-dimensional tensor against a vector, tensor element first. *)
Definition tensor_vector_equal (dims : list Z) (words : list double) (duals : option (list Z))
    (elems : list value) : bool :=
  (length dims =? 1)%nat && (length elems =? length words)%nat &&
  match duals with
  | Some ds => forallb (λ p, atoms_equal (Imm ESHKOL_VALUE_DUAL_NUMBER p.1) p.2) (zip ds elems)
  | None => forallb (λ p, atoms_equal (Double p.1) p.2) (zip words elems)
  end.

Fixpoint eshkol_deep_equal (v1 v2 : value) : bool :=
  match v1, v2 with
  | Cons _ _ a d, Cons _ _ a' d' => if eshkol_deep_equal a a' then eshkol_deep_equal d d' else false
  | Tensor p dims w _, Tensor q dims' w' _ => (p =? q) || tensors_equal dims w dims' w'
  | Tensor _ dims w ds, Vec _ l => tensor_vector_equal dims w ds l
  | Vec _ l, Tensor _ dims w ds => tensor_vector_equal dims w ds l
  | Vec p l, Vec q l' =>
      (p =? q) ||
      ((length l =? length l')%nat &&
       (fix go (l l' : list value) : bool :=
          match l, l' with
          | x :: l, y :: l' => if eshkol_deep_equal x y then go l l' else false
          | _, _ => true
          end) l l')
  | _, _ => atoms_equal v1 v2
  end.
