(* ===== verification/Logic.v ===== *)
(** * Logic: the logic engine (lib/core/logic.cpp)

    Logic variables and predicates are interned in global tables, which together
    with the heap identities and the knowledge bases make the [engine] state; an
    operation is a state transformer.  [None] is a call that has not returned
    within its fuel: [eshkol_walk] and [eshkol_unify] loop on cyclic
    substitutions.  The arena never runs out of memory here. *)

From S2P Require Export Values.
From stdpp Require Export pretty.
Local Open Scope Z_scope.

Definition LOGIC_VAR_MAX : Z := 65536.
Definition VAR_POOL_SIZE : Z := LOGIC_VAR_MAX * 64.
Definition PRED_POOL_SIZE : Z := 64 * 1024.
Definition PRED_TABLE_SIZE : Z := 1024.
Definition OCCURS_CHECK_MAX_DEPTH : Z := 1000.
Definition WALK_DEEP_MAX_DEPTH : Z := 10000.
Definition KB_INITIAL_CAPACITY : Z := 16.

Record fact := MkFact { f_addr : Z; f_pred : option pred_name; f_args : list value }.
Record substitution := MkSubst { s_addr : Z; s_capacity : Z; s_bindings : list (Z * value) }.
Record knowledge_base := MkKb { kb_capacity : Z; kb_facts : list fact }.

(** [var_names] and [pred_table] are the used prefixes of the two tables;
    [next_addr] is the identity the next heap object gets. *)
Record engine := Engine {
  var_names : list string;
  var_pool_offset : Z;
  pred_table : list pred_name;
  pred_pool_offset : Z;
  next_addr : Z;
  kbs : gmap Z knowledge_base }.

Definition fact_value (f : fact) : value := Fact (f_addr f) (f_pred f) (f_args f).
Definition subst_value (s : substitution) : value := Subst (s_addr s) (s_capacity s) (s_bindings s).

Definition logic (A : Type) : Type := engine → option (A * engine).
#[export] Instance logic_ret : MRet logic := λ A a e, Some (a, e).
#[export] Instance logic_bind : MBind logic := λ A C f m e,
  match m e with Some (a, e') => f a e' | None => None end.

Definition alloc : logic Z := λ e,
  Some (next_addr e,
        Engine (var_names e) (var_pool_offset e) (pred_table e) (pred_pool_offset e) (next_addr e + 1) (kbs e)).
Definition get_engine : logic engine := λ e, Some (e, e).
Definition no_return {A} : logic A := λ _, None.
Definition set_vars (names : list string) (offset : Z) : logic unit := λ e,
  Some ((), Engine names offset (pred_table e) (pred_pool_offset e) (next_addr e) (kbs e)).
Definition set_preds (table : list pred_name) (offset : Z) : logic unit := λ e,
  Some ((), Engine (var_names e) (var_pool_offset e) table offset (next_addr e) (kbs e)).
Definition set_kb (a : Z) (k : knowledge_base) : logic unit := λ e,
  Some ((), Engine (var_names e) (var_pool_offset e) (pred_table e) (pred_pool_offset e) (next_addr e) (<[a := k]> (kbs e))).

(** ** Interning *)

Definition strlen (s : string) : Z := Z.of_nat (String.length s).

Fixpoint index_of (name : string) (l : list string) (i : Z) : Z :=
  match l with
  | [] => UINT64_MAX
  | x :: l => if String.eqb x name then i else index_of name l (i + 1)
  end.
Definition find_var_by_name (e : engine) (name : string) : Z := index_of name (var_names e) 0.

(** The reset clears both tables and the predicate pool's offset. *)
Definition eshkol_logic_registry_reset : logic unit :=
  e ← get_engine; _ ← set_preds [] 0; set_vars [] (var_pool_offset e).

Definition eshkol_intern_predicate (name : string) (addr : Z) : logic pred_name :=
  e ← get_engine;
  match List.find (λ p, String.eqb (p_text p) name) (pred_table e) with
  | Some p => mret p
  | None =>
      let needed := strlen name + 1 in
      let offset := pred_pool_offset e in
      if PRED_TABLE_SIZE <=? Z.of_nat (length (pred_table e)) then mret (Predicate (TextPtr addr) name)
      else if PRED_POOL_SIZE <? offset + needed then mret (Predicate (TextPtr addr) name)
      else
        let p := Predicate (PoolPtr offset) name in
        _ ← set_preds (pred_table e ++ [p]) (offset + needed); mret p
  end.

(** The name as stored, and the new pool offset. *)
Definition intern_var_name (offset : Z) (name : string) : string * Z :=
  let len := if 63 <=? strlen name then 63 else strlen name in
  let needed := len + 1 in
  if VAR_POOL_SIZE <? offset + needed then ("<pool-exhausted>"%string, offset)
  else (String.substring 0 (Z.to_nat len) name, offset + needed).

Definition eshkol_make_logic_var (name : string) : logic Z :=
  e ← get_engine;
  let existing := find_var_by_name e name in
  if negb (existing =? UINT64_MAX) then mret existing
  else
    let count := Z.of_nat (length (var_names e)) in
    if LOGIC_VAR_MAX <=? count then mret UINT64_MAX
    else
      let '(stored, offset) := intern_var_name (var_pool_offset e) name in
      _ ← set_vars (var_names e ++ [stored]) offset; mret count.

Definition eshkol_logic_var_name (e : engine) (var_id : Z) : option string :=
  if Z.of_nat (length (var_names e)) <=? var_id then None else var_names e !! Z.to_nat var_id.

(** A symbol spelt [?x...] denotes a variable. *)
Definition is_logic_name (s : string) : bool :=
  match s with String c (String _ _) => Ascii.eqb c "?" | _ => false end.

Definition eshkol_logic_var_id_of (tv : value) : logic (option Z) :=
  match tv with
  | LogicVar id => mret (Some id)
  | Sym _ s => if is_logic_name s then id ← eshkol_make_logic_var s; mret (Some id) else mret None
  | _ => mret None
  end.

Definition eshkol_is_logic_var (tv : value) : bool :=
  match tv with LogicVar _ => true | Sym _ s => is_logic_name s | _ => false end.

Definition canonicalize_logic_var (tv : value) : logic value :=
  match tv with
  | LogicVar _ => mret tv
  | _ =>
      o ← eshkol_logic_var_id_of tv;
      match o with Some id => mret (LogicVar id) | None => mret tv end
  end.

(** ** Substitutions *)

Definition alloc_substitution (capacity : Z) (bindings : list (Z * value)) : logic substitution :=
  a ← alloc; mret (MkSubst a capacity bindings).

Definition eshkol_make_substitution (capacity : Z) : logic substitution :=
  alloc_substitution (if capacity =? 0 then 8 else capacity) [].

Definition extended_capacity (s : option substitution) : Z :=
  let old_bindings := match s with Some s => Z.of_nat (length (s_bindings s)) | None => 0 end in
  let new_capacity := u32 (old_bindings + 1) in
  let min_cap := match s with Some s => u32 (s_capacity s * 2) | None => 8 end in
  match s with
  | Some s => if new_capacity <=? s_capacity s then s_capacity s
              else if new_capacity <? min_cap then min_cap else new_capacity
  | None => if new_capacity <? min_cap then min_cap else new_capacity
  end.

Definition bindings_of (s : option substitution) : list (Z * value) :=
  match s with Some s => s_bindings s | None => [] end.

Definition eshkol_extend_subst (s : option substitution) (var_id : Z) (term : value) : logic substitution :=
  alloc_substitution (extended_capacity s) (bindings_of s ++ [(var_id, term)]).

Fixpoint lookup_binding (l : list (Z * value)) (var_id : Z) : option value :=
  match l with
  | [] => None
  | (id, t) :: l => if id =? var_id then Some t else lookup_binding l var_id
  end.
Definition eshkol_subst_lookup (s : option substitution) (var_id : Z) : option value :=
  lookup_binding (bindings_of s) var_id.

(** ** Walking *)

(** [while (current.type == LOGIC_VAR && subst)] with [fuel] iterations left. *)
Fixpoint follow (fuel : nat) (s : option substitution) (current : value) : option value :=
  match current with
  | LogicVar var_id =>
      match eshkol_subst_lookup s var_id with
      | None => Some current
      | Some bound => match fuel with O => None | S fuel => follow fuel s bound end
      end
  | _ => Some current
  end.

(** A chain that visits more bindings than there are has come back to one of
    them and never ends: the number of bindings is fuel enough. *)
Definition eshkol_walk (term : value) (s : option substitution) : logic value :=
  current ← canonicalize_logic_var term;
  match follow (length (bindings_of s)) s current with
  | Some w => mret w
  | None => no_return
  end.

(** [levels] counts the recursion depths up to the limit that are left. *)
Fixpoint walk_deep_impl (levels : nat) (term : value) (s : option substitution) : logic value :=
  match levels with
  | O => mret term
  | S levels =>
      walked ← eshkol_walk term s;
      match walked with
      | Fact _ p args =>
          a ← alloc;
          new_args ← mapM (λ x, walk_deep_impl levels x s) args;
          mret (Fact a p new_args)
      | _ => mret walked
      end
  end.
Definition walk_deep_levels : nat := Z.to_nat (WALK_DEEP_MAX_DEPTH + 1).
Definition eshkol_walk_deep (term : value) (s : option substitution) : logic value :=
  walk_deep_impl walk_deep_levels term s.

Fixpoint any {A} (f : A → logic bool) (l : list A) : logic bool :=
  match l with
  | [] => mret false
  | x :: l => b ← f x; if (b : bool) then mret true else any f l
  end.

Fixpoint occurs_impl (levels : nat) (var_id : Z) (term : value) (s : option substitution) : logic bool :=
  match levels with
  | O => mret false
  | S levels =>
      walked ← eshkol_walk term s;
      match walked with
      | LogicVar id => mret (id =? var_id)
      | Fact _ _ args => any (λ x, occurs_impl levels var_id x s) args
      | Cons false _ a d =>
          b ← occurs_impl levels var_id a s;
          if (b : bool) then mret true else occurs_impl levels var_id d s
      | _ => mret false
      end
  end.
Definition occurs_levels : nat := Z.to_nat (OCCURS_CHECK_MAX_DEPTH + 1).
Definition occurs (var_id : Z) (term : value) (s : option substitution) : logic bool :=
  occurs_impl occurs_levels var_id term s.

(** ** Unification *)

Definition tagged_values_equal (a b : value) : bool :=
  match a, b with
  | LogicVar x, LogicVar y => x =? y
  | _, _ => eshkol_deep_equal a b
  end.

(** Pointer comparison, then the text of two non-NULL predicates. *)
Definition pred_pointer (p : option pred_name) : option pred_ptr :=
  match p with Some p => Some (p_ptr p) | None => None end.
Definition same_predicate (p1 p2 : option pred_name) : bool :=
  bool_decide (pred_pointer p1 = pred_pointer p2) ||
  match p1, p2 with
  | Some p1, Some p2 => String.eqb (p_text p1) (p_text p2)
  | _, _ => false
  end.

(** The result is NULL on failure, and also when [subst] is NULL and nothing is bound. *)
Definition bind_variable (var_id : Z) (term : value) (s : option substitution) : logic (option substitution) :=
  o ← occurs var_id term s;
  if (o : bool) then mret None else s' ← eshkol_extend_subst s var_id term; mret (Some s').

(** [for (i < arity) { current = eshkol_unify(...); if (!current) return NULL; }] *)
Fixpoint unify_args (unify : value → value → option substitution → logic (option substitution))
    (l1 l2 : list value) (current : option substitution) : logic (option substitution) :=
  match l1, l2 with
  | x1 :: l1, x2 :: l2 =>
      next ← unify x1 x2 current;
      match next with None => mret None | Some _ => unify_args unify l1 l2 next end
  | _, _ => mret current
  end.

Fixpoint eshkol_unify (fuel : nat) (t1 t2 : value) (s : option substitution) : logic (option substitution) :=
  match fuel with
  | O => no_return
  | S fuel =>
      w1 ← eshkol_walk t1 s;
      w2 ← eshkol_walk t2 s;
      if tagged_values_equal w1 w2 then mret s
      else
        match w1, w2 with
        | LogicVar var_id, _ => bind_variable var_id w2 s
        | _, LogicVar var_id => bind_variable var_id w1 s
        | Fact _ p1 args1, Fact _ p2 args2 =>
            if negb (same_predicate p1 p2) then mret None
            else if negb (length args1 =? length args2)%nat then mret None
            else unify_args (eshkol_unify fuel) args1 args2 s
        | Cons false _ a1 d1, Cons false _ a2 d2 =>
            after_car ← eshkol_unify fuel a1 a2 s;
            match after_car with
            | None => mret None
            | Some _ => eshkol_unify fuel d1 d2 after_car
            end
        | _, _ => mret None
        end
  end.
