(* ===== verification/KnowledgeBase.v ===== *)
(** * KnowledgeBase: facts, knowledge bases, the tagged entry points and the
    printer of the logic engine (lib/core/logic.cpp, second half) *)

From S2P Require Export Logic.
Local Open Scope Z_scope.

(** ** Facts *)

Definition eshkol_make_fact (pred : option pred_name) (args : list value) : logic fact :=
  a ← alloc; mret (MkFact a pred args).

Definition is_cons_compat (v : value) : bool :=
  match v with Cons _ _ _ _ => true | _ => vtype v =? ESHKOL_VALUE_CONS_PTR end.

Definition cons_parts (v : value) : option (value * value) :=
  match v with Cons _ _ a d => Some (a, d) | _ => None end.

Definition fact_arg_from_datum (el : value) : logic value := canonicalize_logic_var el.

(** The elements of a proper list of at most 4096 cells; [n] cells are counted already. *)
Fixpoint datum_items (n : Z) (datum : value) : option (list value) :=
  match datum with
  | Cons _ _ a d =>
      if 4096 <? n + 1 then None
      else match datum_items (n + 1) d with Some l => Some (a :: l) | None => None end
  | _ => if vtype datum =? ESHKOL_VALUE_NULL then Some [] else None
  end.

(** The text of a ground symbol or string head. *)
Definition head_text (v : value) : option (string * Z) :=
  if eshkol_is_logic_var v then None
  else match v with Sym a s | Str false a s => Some (s, a) | _ => None end.

Definition split_head (items : list value) : logic (option pred_name * list value) :=
  match items with
  | car :: rest =>
      match head_text car with
      | Some (text, addr) => p ← eshkol_intern_predicate text addr; mret (Some p, rest)
      | None => mret (None, items)
      end
  | [] => mret (None, [])
  end.

Definition fact_from_datum (datum : value) : logic (option fact) :=
  if negb (is_cons_compat datum) then mret None
  else
    match datum_items 0 datum with
    | None => mret None
    | Some items =>
        '(pred, rest) ← split_head items;
        a ← alloc;
        args ← mapM fact_arg_from_datum rest;
        mret (Some (MkFact a pred args))
    end.

Definition fact_operand (v : value) : logic (option fact) :=
  match v with
  | Fact a p args => mret (Some (MkFact a p args))
  | _ => fact_from_datum v
  end.

Definition eshkol_fact_equal (a b : fact) : bool :=
  (f_addr a =? f_addr b) ||
  ((length (f_args a) =? length (f_args b))%nat && same_predicate (f_pred a) (f_pred b) &&
   forallb (λ p, tagged_values_equal p.1 p.2) (zip (f_args a) (f_args b))).

(** ** Knowledge bases *)

Definition eshkol_make_kb : logic Z :=
  a ← alloc; _ ← set_kb a (MkKb KB_INITIAL_CAPACITY []); mret a.

Definition eshkol_kb_assert (k : knowledge_base) (f : fact) : knowledge_base :=
  let capacity := if kb_capacity k <=? Z.of_nat (length (kb_facts k)) then u32 (kb_capacity k * 2) else kb_capacity k in
  MkKb capacity (kb_facts k ++ [f]).

(** The quick check on predicates: NULL matches any, otherwise pointers. *)
Definition predicates_compatible (pattern f : fact) : bool :=
  match f_pred pattern, f_pred f with
  | Some p, Some q => bool_decide (p_ptr p = p_ptr q)
  | _, _ => true
  end.

(** [for (k = num_facts; k-- > 0; )], prepending each answer. *)
Fixpoint query_scan (fuel : nat) (arity_ok : nat → nat → bool) (facts : list fact) (pattern : fact)
    (base : substitution) (k : nat) (result_list : value) : logic value :=
  match k with
  | O => mret result_list
  | S k =>
      match facts !! k with
      | None => mret result_list
      | Some f =>
          if negb (predicates_compatible pattern f) || negb (arity_ok (length (f_args pattern)) (length (f_args f)))
          then query_scan fuel arity_ok facts pattern base k result_list
          else
            o ← unify_args (eshkol_unify fuel) (f_args pattern) (f_args f) (Some base);
            match o with
            | Some s =>
                a ← alloc;
                query_scan fuel arity_ok facts pattern base k (Cons false a (subst_value s) result_list)
            | None => query_scan fuel arity_ok facts pattern base k result_list
            end
      end
  end.

Definition query_base (initial : option substitution) : logic substitution :=
  match initial with Some s => mret s | None => eshkol_make_substitution 8 end.

Definition eshkol_kb_query (fuel : nat) (k : knowledge_base) (pattern : fact) (initial : option substitution) : logic value :=
  base ← query_base initial;
  query_scan fuel Nat.eqb (kb_facts k) pattern base (length (kb_facts k)) vnull.

Definition eshkol_kb_query_prefix (fuel : nat) (k : knowledge_base) (pattern : fact) (initial : option substitution) : logic value :=
  base ← query_base initial;
  query_scan fuel Nat.leb (kb_facts k) pattern base (length (kb_facts k)) vnull.

(** ** Tagged entry points *)

Section tagged.
(** A heap pointer passed as a substitution is cast without looking at its
    subtype: what the engine reads from another object. *)
Context (misread : value → option substitution).

Definition subst_operand (v : value) : option substitution :=
  match v with
  | Subst a c l => Some (MkSubst a c l)
  | _ => if (vtype v =? ESHKOL_VALUE_HEAP_PTR) && negb (vraw v =? 0) then misread v else None
  end.

Definition vfalse : value := Imm TYPE_BOOL 0.

Definition eshkol_unify_tagged (fuel : nat) (t1 t2 subst_tv : value) : logic value :=
  unified ← eshkol_unify fuel t1 t2 (subst_operand subst_tv);
  mret (match unified with Some s => subst_value s | None => vfalse end).

Definition eshkol_walk_tagged (term subst_tv : value) : logic value :=
  eshkol_walk term (subst_operand subst_tv).
End tagged.

Definition opt_fact_value (o : option fact) : value :=
  match o with Some f => fact_value f | None => vnull end.

Definition eshkol_make_fact_tagged (pred : value) (args : list value) : logic value :=
  if (length args =? 0)%nat && is_cons_compat pred then
    o ← fact_from_datum pred; mret (opt_fact_value o)
  else
    match head_text pred with
    | Some (text, addr) =>
        p ← eshkol_intern_predicate text addr;
        norm ← mapM fact_arg_from_datum args;
        f ← eshkol_make_fact (Some p) norm; mret (fact_value f)
    | None =>
        norm ← mapM fact_arg_from_datum (pred :: args);
        f ← eshkol_make_fact None norm; mret (fact_value f)
    end.

Definition eshkol_make_kb_tagged : logic value := a ← eshkol_make_kb; mret (Kb a).

Definition get_kb (a : Z) : logic knowledge_base :=
  e ← get_engine;
  match kbs e !! a with Some k => mret k | None => no_return end.

Definition eshkol_kb_assert_tagged (kb_tv fact_tv : value) : logic unit :=
  match kb_tv with
  | Kb a =>
      o ← fact_operand fact_tv;
      match o with
      | Some f => k ← get_kb a; set_kb a (eshkol_kb_assert k f)
      | None => mret ()
      end
  | _ => mret ()
  end.

Definition query_tagged (query : knowledge_base → fact → logic value) (kb_tv pattern_tv : value) : logic value :=
  match kb_tv with
  | Kb a =>
      o ← fact_operand pattern_tv;
      match o with
      | Some pattern => k ← get_kb a; query k pattern
      | None => mret vnull
      end
  | _ => mret vnull
  end.
Definition eshkol_kb_query_tagged (fuel : nat) : value → value → logic value :=
  query_tagged (λ k pattern, eshkol_kb_query fuel k pattern None).
Definition eshkol_kb_query_prefix_tagged (fuel : nat) : value → value → logic value :=
  query_tagged (λ k pattern, eshkol_kb_query_prefix fuel k pattern None).

Definition eshkol_make_substitution_tagged : logic value :=
  s ← eshkol_make_substitution 8; mret (subst_value s).

(** ** Printing *)

Section display.
Context (e : engine).
(** [eshkol_fprint_double] and [eshkol_format_float32_bits_shared], which are elsewhere. *)
Context (print_double print_float32 : double → string).
Local Open Scope string_scope.

Definition eshkol_display_logic_var (var_id : Z) : string :=
  match eshkol_logic_var_name e var_id with
  | Some name => name
  | None => "?_" +:+ pretty var_id
  end.

Definition subtype_of (v : value) : Z :=
  match v with
  | Vec _ _ => 2 | Tensor _ _ _ _ => 3 | Big _ _ => 11 | Subst _ _ _ => 12
  | Kb _ => 15 | Rat _ _ => 19 | Obj _ st => st | _ => 0
  end%Z.

(** The [default:] cases. *)
Definition display_opaque (v : value) : string :=
  if (vtype v =? ESHKOL_VALUE_HEAP_PTR)%Z then
    (if (vraw v =? 0)%Z then "()" else "#<heap:" +:+ pretty (subtype_of v) +:+ ">")
  else "#<type:" +:+ pretty (vtype v) +:+ ">".

Fixpoint eshkol_display_logic_term (t : value) : string :=
  match t with
  | Int64 n => pretty n
  | Double d => print_double d
  | Float32 (Some d) => print_float32 d
  | Float32 None => "#<invalid-float32>"
  | LogicVar id => eshkol_display_logic_var id
  | Sym _ s | Str false _ s => s
  | Imm ty raw =>
      if (ty =? TYPE_BOOL)%Z then (if (raw =? 0)%Z then "#f" else "#t")
      else if (ty =? ESHKOL_VALUE_NULL)%Z then "()" else display_opaque t
  | Fact _ p args =>
      "(" +:+ (match p with Some p => p_text p | None => EmptyString end)
      +:+ (fix go (l : list value) (first : bool) : string :=
             match l with
             | [] => EmptyString
             | x :: l => (if first then EmptyString else " ") +:+ eshkol_display_logic_term x +:+ go l false
             end) args (match p with Some _ => false | None => true end)
      +:+ ")"
  | Cons false _ a d =>
      "(" +:+ eshkol_display_logic_term a
      +:+ (fix rest (guard : Z) (cur : value) : string :=
             match cur with
             | Cons _ _ a d =>
                 if (guard <? 4096)%Z then " " +:+ eshkol_display_logic_term a +:+ rest (guard + 1)%Z d
                 else " . " +:+ eshkol_display_logic_term cur
             | _ => if (vtype cur =? ESHKOL_VALUE_NULL)%Z then EmptyString else " . " +:+ eshkol_display_logic_term cur
             end) 1%Z d
      +:+ ")"
  | _ => display_opaque t
  end.

Definition display_binding (b : Z * value) : string :=
  eshkol_display_logic_var b.1 +:+ " -> " +:+ eshkol_display_logic_term b.2.
Definition eshkol_display_substitution (s : option substitution) : string :=
  match s with
  | None => "{}"
  | Some s => "{" +:+ String.concat ", " (map display_binding (s_bindings s)) +:+ "}"
  end.

Definition eshkol_display_fact (f : option fact) : string :=
  match f with None => "(fact)" | Some f => eshkol_display_logic_term (fact_value f) end.

Definition eshkol_display_kb (k : option knowledge_base) : string :=
  match k with
  | None => "#<knowledge-base: empty>"
  | Some k => "#<knowledge-base: " +:+ pretty (Z.of_nat (length (kb_facts k))) +:+ " facts>"
  end.
End display.
