(* ===== verification/LogicSpec.v ===== *)
(** * LogicSpec: what terms and substitutions denote

    A valuation gives every logic variable a ground tree; [inst] extends it to
    values, and a substitution stands for the set of valuations that satisfy all
    its bindings ([sat]).  The specifications of walking, of the occurs check and
    of unification are statements about these sets. *)

From S2P Require Export Logic.
Local Open Scope Z_scope.

Inductive tree :=
| TInt (n : Z)
| TImm (ty raw : Z)
| TStr (s : string)
| TSym (s : string)
| TPair (a d : tree)
| TFact (p : option string) (args : list tree).

Fixpoint tsize (t : tree) : nat :=
  match t with
  | TPair a d => S (tsize a + tsize d)
  | TFact _ l => S ((fix go l := match l with [] => 0 | x :: l => tsize x + go l end)%nat l)
  | _ => 1
  end%nat.

(** What the state of the process gives a meaning to: the objects at their
    addresses, the texts of the predicate pointers, the interned variables. *)
Record world := World { objects : Z → value; texts : pred_ptr → string; names : list string }.

(** ** Running the monad *)

Lemma logic_bind_inv {A C} (m : logic A) (f : A → logic C) e c e' :
  (m ≫= f) e = Some (c, e') → ∃ a e1, m e = Some (a, e1) ∧ f a e1 = Some (c, e').
Proof. unfold mbind, logic_bind. destruct (m e) as [[a e1]|]; naive_solver. Qed.

Lemma logic_ret_inv {A} (a a' : A) e e' : (mret a : logic A) e = Some (a', e') → a = a' ∧ e = e'.
Proof. unfold mret, logic_ret. naive_solver. Qed.

(** [lrun H as x e1 H1] opens the first step of [H]; [lret H] ends a run. *)
Ltac lrun H x e1 H1 := apply logic_bind_inv in H as (x & e1 & H1 & H).
Ltac lret H := apply logic_ret_inv in H as [? ?]; subst.

Lemma any_spec {A} (f : A → logic bool) (P : A → Prop) e l b e' :
  (∀ x b e', x ∈ l → f x e = Some (b, e') → e' = e ∧ (b = true → P x)) →
  any f l e = Some (b, e') → e' = e ∧ (b = true → Exists P l).
Proof.
  revert b e'. induction l as [|x l IH]; intros b e' Hf H; simpl in H.
  { lret H. done. }
  lrun H c e1 H1. apply Hf in H1 as [-> Hc]; [|left]. destruct c.
  - lret H. split; [done|]. intros _. left. auto.
  - apply IH in H as [-> Hb]; [|intros; eapply Hf; eauto; by right]. split; [done|]. intros. right. auto.
Qed.

Lemma tsize_arg p l x : x ∈ l → (tsize x < tsize (TFact p l))%nat.
Proof.
  simpl. induction 1 as [x l|x y l _ IH]; [lia|]. cbn beta iota. lia.
Qed.

Section spec.
Context (W : world).

Definition pred_text (p : option pred_name) : option string :=
  match p with Some p => Some (p_text p) | None => None end.
Definition var_of (s : string) : Z := index_of s (names W) 0.

Fixpoint inst (σ : Z → tree) (v : value) : tree :=
  match v with
  | LogicVar id => σ id
  | Sym _ s => if is_logic_name s then σ (var_of s) else TSym s
  | Str _ _ s => TStr s
  | Int64 n => TInt n
  | Big _ b => TInt (bval b)
  | Imm ty raw => TImm ty raw
  | Cons _ _ a d => TPair (inst σ a) (inst σ d)
  | Fact _ p l => TFact (pred_text p) (map (inst σ) l)
  | _ => TImm (-1) 0
  end.

(** Symbolic data: lists, facts, variables, symbols, strings, exact integers,
    booleans, characters and the empty list, where every object is the one at
    its address and every [?]-symbol is interned. *)
Definition pred_ok (p : option pred_name) : Prop :=
  match p with Some p => texts W (p_ptr p) = p_text p | None => True end.

Fixpoint symbolic (v : value) : Prop :=
  match v with
  | Imm ty raw => (ty = ESHKOL_VALUE_NULL ∧ raw = 0) ∨ ty = TYPE_BOOL ∨ ty = ESHKOL_VALUE_CHAR
  | Int64 n => is_i64 n
  | LogicVar _ => True
  | Sym a s => a ≠ 0 ∧ objects W a = v ∧ (is_logic_name s = true → var_of s ≠ UINT64_MAX)
  | Str false a s => a ≠ 0 ∧ objects W a = v
  | Big a b => a ≠ 0 ∧ objects W a = v ∧ wf b
  | Cons false a x y => a ≠ 0 ∧ objects W a = v ∧ symbolic x ∧ symbolic y
  | Fact a p l => a ≠ 0 ∧ objects W a = v ∧ pred_ok p ∧ (fix go l := match l with [] => True | x :: l => symbolic x ∧ go l end) l
  | _ => False
  end.

Lemma symbolic_args l :
  (fix go l := match l with [] => True | x :: l => symbolic x ∧ go l end) l ↔ Forall symbolic l.
Proof. induction l as [|x l IH]; [done|]. rewrite Forall_cons. by rewrite IH. Qed.

(** A [?]-symbol at the top has been replaced by its variable. *)
Definition canonical_top (v : value) : Prop :=
  match v with Sym _ s => is_logic_name s = false | _ => True end.

Definition subst_ok (s : option substitution) : Prop :=
  ∀ id t, eshkol_subst_lookup s id = Some t → symbolic t ∧ canonical_top t.

Definition sat (σ : Z → tree) (s : option substitution) : Prop :=
  ∀ id t, eshkol_subst_lookup s id = Some t → σ id = inst σ t.

(** ** Equality *)

#[local] Arguments eshkol_bignum_compare : simpl never.
#[local] Arguments eshkol_bignum_compare_int64 : simpl never.

Ltac value_cases v1 v2 H1 H2 :=
  destruct v1 as [?ty ?raw|?n| | |?id| |[] ?a ?x ?y|[] ?a ?s|?a ?s|?a ?b| | | |?a ?p ?l| | | ]; try done;
  destruct v2 as [?ty ?raw|?n| | |?id| |[] ?a ?x ?y|[] ?a ?s|?a ?s|?a ?b| | | |?a ?p ?l| | | ]; try done.

Lemma same_payload_eq v1 v2 : symbolic v1 → symbolic v2 → same_payload v1 v2 = true → v1 = v2.
Proof.
  intros H1 H2. unfold same_payload. intros [Ht Hr]%andb_prop.
  value_cases v1 v2 H1 H2; simpl in *; apply Z.eqb_eq in Hr;
    try (apply Z.eqb_eq in Ht); try (destruct_or! H1; destruct_or! H2; destruct_and?; subst; done);
    try (destruct_or! H1; destruct_and?; subst; done); try (destruct_or! H2; destruct_and?; subst; done);
    destruct_and?; try congruence.
Qed.

(** An empty list is [Imm 0 0] among symbolic values. *)
Lemma symbolic_empty v : symbolic v → is_empty_list v = true → v = vnull.
Proof.
  intros H. unfold is_empty_list.
  destruct v as [ty raw|n| | |id| |[] a x y|[] a s|a s|a b| | | |a p l| | | ]; try done; simpl in *;
    destruct_and?; intros; simplify_eq; repeat case_bool_decide; try lia.
  destruct_or! H; destruct_and?; subst; done.
Qed.

Lemma atoms_equal_sound v1 v2 σ : symbolic v1 → symbolic v2 → atoms_equal v1 v2 = true →
  inst σ v1 = inst σ v2.
Proof.
  intros H1 H2. unfold atoms_equal. destruct (is_float32 v1 || is_float32 v2) eqn:Ef.
  { by destruct v1, v2. }
  destruct (is_empty_list v1) eqn:E1, (is_empty_list v2) eqn:E2; simpl; try done.
  { intros _. by rewrite (symbolic_empty v1), (symbolic_empty v2). }
  intros Heq. destruct (decide (same_payload v1 v2 = true)) as [Hs|Hs].
  { by rewrite (same_payload_eq v1 v2). }
  value_cases v1 v2 H1 H2; simpl in *; destruct_and?.
  - apply Z.eqb_eq in Heq. rewrite compare_int64_denotes in Heq by done. f_equal. lia.
  - apply orb_prop in Heq as [Ha|Ha].
    + apply Z.eqb_eq in Ha. subst. assert (s = s0) by congruence. by subst.
    + apply String.eqb_eq in Ha. by subst.
  - apply orb_prop in Heq as [Ha|Ha].
    + apply Z.eqb_eq in Ha. subst. assert (s = s0) by congruence. by subst.
    + apply String.eqb_eq in Ha. by subst.
  - apply Z.eqb_eq in Heq. rewrite compare_int64_denotes in Heq by done. f_equal. lia.
  - apply Z.eqb_eq in Heq. rewrite (compare_denotes _ _ (bval b) (bval b0)) in Heq by (eexists; eauto).
    f_equal. lia.
Qed.

Lemma deep_equal_sound σ : ∀ v1 v2, symbolic v1 → symbolic v2 → eshkol_deep_equal v1 v2 = true →
  inst σ v1 = inst σ v2.
Proof.
  induction v1 as [| | | | | |l1 a1 x1 y1 IHx IHy| | | | | | | | | | ] using value_nested_ind;
    intros v2 H1 H2; try (by intros; apply atoms_equal_sound).
  - destruct v2 as [| | | | | |l2 a2 x2 y2| | | | | | | | | | ]; try (by intros; apply atoms_equal_sound).
    destruct l1, l2; try done. simpl in *. destruct_and?.
    destruct (eshkol_deep_equal x1 x2) eqn:Ex; [|done]. intros. f_equal; auto.
Qed.

(** Exact numbers, strings and symbols are never taken for the empty list. *)
Definition payload_equal (v1 v2 : value) : option bool :=
  match v1, v2 with
  | Str _ p s, Str _ q s' | Sym p s, Sym q s' => Some ((p =? q) || String.eqb s s')
  | Big _ x, Big _ y => Some (eshkol_bignum_compare (Some x) (Some y) =? 0)
  | Big _ x, Int64 n | Int64 n, Big _ x => Some (eshkol_bignum_compare_int64 x n =? 0)
  | _, _ => None
  end.
Definition nonzero_addr (v : value) : Prop :=
  match v with Int64 _ => True | Str _ a _ | Sym a _ | Big a _ => a ≠ 0 | _ => False end.

Lemma nonzero_not_empty v : nonzero_addr v → is_empty_list v = false.
Proof.
  destruct v as [| | | | | | |[]| | | | | | | | | ]; try done; simpl; intros Ha; unfold is_empty_list; simpl;
    by destruct (Z.eqb_spec addr 0).
Qed.

Lemma atoms_equal_heap v1 v2 b : nonzero_addr v1 → nonzero_addr v2 →
  payload_equal v1 v2 = Some b → atoms_equal v1 v2 = b.
Proof.
  intros H1 H2 Hp. unfold atoms_equal. rewrite !nonzero_not_empty by done.
  destruct v1, v2; try done; simpl in *; by simplify_eq.
Qed.

(** Two canonical values of which neither is a variable, and which are not two
    pairs or two facts, denote the same tree only if [equal?] says so. *)
Definition is_var (v : value) : bool := match v with LogicVar _ => true | _ => false end.
Definition both_containers (v1 v2 : value) : bool :=
  match v1, v2 with
  | Cons _ _ _ _, Cons _ _ _ _ | Fact _ _ _, Fact _ _ _ => true
  | _, _ => false
  end.

Lemma clash σ v1 v2 : symbolic v1 → symbolic v2 → canonical_top v1 → canonical_top v2 →
  is_var v1 = false → is_var v2 = false → both_containers v1 v2 = false →
  eshkol_deep_equal v1 v2 = false → inst σ v1 ≠ inst σ v2.
Proof.
  intros H1 H2 C1 C2 V1 V2 Hb.
  value_cases v1 v2 H1 H2; simpl in *; destruct_and?; try (rewrite C1); try (rewrite C2); try done;
    intros He Hi; simplify_eq; apply not_true_iff_false in He; apply He.
  - unfold atoms_equal, same_payload. simpl. destruct (is_empty_list _); [done|]. simpl. by rewrite !Z.eqb_refl.
  - unfold atoms_equal, same_payload. simpl. by rewrite Z.eqb_refl.
  - eapply atoms_equal_heap; [done..|]. simpl. by rewrite compare_int64_denotes, Z.sub_diag.
  - eapply atoms_equal_heap; [done..|]. simpl. by rewrite String.eqb_refl, orb_true_r.
  - eapply atoms_equal_heap; [done..|]. simpl. by rewrite String.eqb_refl, orb_true_r.
  - eapply atoms_equal_heap; [done..|]. simpl. by rewrite compare_int64_denotes, Z.sub_diag.
  - eapply atoms_equal_heap; [done..|]. simpl. f_equal. apply Z.eqb_eq.
    rewrite (compare_denotes _ _ (bval b) (bval b0)) by (eexists; eauto). lia.
Qed.

(** ** Walking *)

Definition interned_in (e : engine) : Prop := var_names e = names W.

Lemma make_logic_var_found e s : interned_in e → var_of s ≠ UINT64_MAX →
  eshkol_make_logic_var s e = Some (var_of s, e).
Proof.
  intros He Hs. unfold eshkol_make_logic_var, mbind, logic_bind, get_engine, find_var_by_name. rewrite He.
  fold (var_of s). by destruct (Z.eqb_spec (var_of s) UINT64_MAX).
Qed.

Lemma canonicalize_spec e v : interned_in e → symbolic v →
  ∃ c, canonicalize_logic_var v e = Some (c, e) ∧ symbolic c ∧ canonical_top c ∧ ∀ σ, inst σ c = inst σ v.
Proof.
  intros He H. destruct v as [| | | | | | | |a s| | | | | | | | ]; try (eexists; split_and!; [done|done|done|done]).
  simpl in H. destruct_and?. destruct (is_logic_name s) eqn:Es.
  - exists (LogicVar (var_of s)). split_and!; [|done|done|by simpl; rewrite Es].
    simpl. rewrite Es. unfold mbind, logic_bind. rewrite make_logic_var_found by auto. done.
  - exists (Sym a s). simpl. rewrite Es. split_and!; try done.
Qed.

Definition resolved (s : option substitution) (w : value) : Prop :=
  ∀ id, w = LogicVar id → eshkol_subst_lookup s id = None.
Definition normal (s : option substitution) (w : value) : Prop :=
  symbolic w ∧ canonical_top w ∧ resolved s w.

Lemma follow_spec s n : subst_ok s → ∀ c w, symbolic c → canonical_top c → follow n s c = Some w →
  normal s w ∧ ∀ σ, sat σ s → inst σ c = inst σ w.
Proof.
  intros Hs. induction n as [|n IH]; intros c w H1 H2 Hf; destruct c; try by simpl in Hf; simplify_eq.
  all: simpl in Hf; destruct (eshkol_subst_lookup s id) as [t|] eqn:El; simplify_eq.
  all: try (split; [split_and!; [done..|]|done]; intros ? [= <-]; done).
  destruct (Hs _ _ El). apply IH in Hf as [? Hi]; [|done..]. split; [done|].
  intros σ Hσ. simpl. rewrite (Hσ _ _ El). auto.
Qed.

Lemma walk_spec e s v w e' : interned_in e → subst_ok s → symbolic v → eshkol_walk v s e = Some (w, e') →
  e' = e ∧ normal s w ∧ ∀ σ, sat σ s → inst σ v = inst σ w.
Proof.
  intros He Hs Hv H. unfold eshkol_walk in H. lrun H c e1 Hc.
  destruct (canonicalize_spec e v He Hv) as (c' & Hc' & ? & ? & Hi). rewrite Hc' in Hc. simplify_eq.
  destruct (follow _ s c) as [w'|] eqn:Ef; [|done]. lret H.
  apply follow_spec in Ef as [? Hi2]; [|done..]. split_and!; [done|done|]. intros σ Hσ.
  rewrite <- Hi. auto.
Qed.

Lemma follow_resolved n s w : resolved s w → follow n s w = Some w.
Proof. intros Hr. destruct n, w; try done; simpl; by rewrite (Hr _ eq_refl). Qed.

Lemma walk_normal e s w : normal s w → eshkol_walk w s e = Some (w, e).
Proof.
  intros (H1 & H2 & H3). unfold eshkol_walk.
  assert (canonicalize_logic_var w e = Some (w, e)) as Hc.
  { destruct w; try done. simpl in *. by rewrite H2. }
  unfold mbind, logic_bind. by rewrite Hc, follow_resolved.
Qed.

(** ** The occurs check *)

Lemma occurs_impl_spec e s id n : interned_in e → subst_ok s → ∀ v b e', symbolic v →
  occurs_impl n id v s e = Some (b, e') →
  e' = e ∧ (b = true → ∀ σ, sat σ s → (tsize (σ id) <= tsize (inst σ v))%nat ∧
                            (normal s v → is_var v = false → (tsize (σ id) < tsize (inst σ v))%nat)).
Proof.
  intros He Hs. induction n as [|n IH]; intros v b e' Hv H; simpl in H; [by lret H|].
  lrun H w e1 Hw. assert (Hidem : normal s v → w = v) by (intros Hn; rewrite walk_normal in Hw by done; by simplify_eq).
  apply walk_spec in Hw as (-> & (Hsw & Hc & Hr) & Hi); [|done..].
  assert (Hgoal : e' = e ∧ (b = true → ∀ σ, sat σ s → (tsize (σ id) <= tsize (inst σ w))%nat ∧
                                     (is_var w = false → (tsize (σ id) < tsize (inst σ w))%nat))).
  { clear Hi Hidem. destruct w as [| | | |id'| |[] a x y| | | | | | |a p l| | | ]; try by lret H.
    - lret H. split; [done|]. intros ->%Z.eqb_eq σ Hσ. simpl. split; [lia|done].
    - lrun H c e1 H1. simpl in Hsw. destruct Hsw as (_ & _ & Hx & Hy).
      apply IH in H1 as [-> H1]; [|done]. destruct c.
      + lret H. split; [done|]. intros _ σ Hσ. destruct (H1 eq_refl σ Hσ) as [? _]. simpl. lia.
      + apply IH in H as [-> H]; [|done]. split; [done|]. intros Hb σ Hσ.
        destruct (H Hb σ Hσ) as [? _]. simpl. lia.
    - simpl in Hsw. destruct Hsw as (_ & _ & _ & Hl%symbolic_args).
      eapply any_spec with (P := λ x, ∀ σ, sat σ s → (tsize (σ id) <= tsize (inst σ x))%nat) in H as [-> H].
      + split; [done|]. intros Hb σ Hσ. apply H in Hb as (x & Hx & Hle)%Exists_exists.
        specialize (Hle σ Hσ). pose proof (tsize_arg (pred_text p) (map (inst σ) l) (inst σ x)) as Hlt.
        change (inst σ (Fact a p l)) with (TFact (pred_text p) (map (inst σ) l)).
        specialize (Hlt (list_elem_of_fmap_2 _ _ _ Hx)). lia.
      + intros x c e1 Hx H1. rewrite Forall_forall in Hl. apply IH in H1 as [-> H1]; [|auto].
        split; [done|]. intros Hc' σ Hσ. by apply H1. }
  destruct Hgoal as [-> Hgoal]. split; [done|]. intros Hb σ Hσ. rewrite Hi by done.
  destruct (Hgoal Hb σ Hσ) as [? Hlt]. split; [done|]. intros Hn Hv'. apply Hlt. by rewrite Hidem.
Qed.

(** A variable that occurs strictly inside a term denotes something smaller. *)
Lemma occurs_spec e s id w b e' : interned_in e → subst_ok s → normal s w → is_var w = false →
  occurs id w s e = Some (b, e') →
  e' = e ∧ (b = true → ∀ σ, sat σ s → σ id ≠ inst σ w).
Proof.
  intros He Hs Hn Hv H. apply occurs_impl_spec in H as [-> H]; [|done|done|apply Hn].
  split; [done|]. intros Hb σ Hσ Heq. destruct (H Hb σ Hσ) as [_ Hlt].
  specialize (Hlt Hn Hv). rewrite Heq in Hlt. lia.
Qed.
End spec.
