(* ===== verification/UnifySpec.v ===== *)
(** * UnifySpec: correctness and termination of unification *)

From S2P Require Export LogicSpec.
Local Open Scope Z_scope.

(** * unification is sound, complete and terminates *)

(** * Unification computes most general solutions *)

Lemma lookup_snoc l id w j :
  lookup_binding (l ++ [(id, w)]) j =
  match lookup_binding l j with Some t => Some t | None => if id =? j then Some w else None end.
Proof. induction l as [|[i t] l IH]; simpl; [done|]. by destruct (i =? j). Qed.

Lemma lookup_app_some l l' j t : lookup_binding l j = Some t → lookup_binding (l ++ l') j = Some t.
Proof. induction l as [|[i u] l IH]; simpl; [done|]. by destruct (i =? j). Qed.

Lemma lookup_in l j t : lookup_binding l j = Some t → (j, t) ∈ l.
Proof.
  induction l as [|[i u] l IH]; simpl; [done|].
  destruct (Z.eqb_spec i j) as [->|]; intros ?; simplify_eq; [left|right; auto].
Qed.

Section unify.
Context (W : world).

(** [solves s P r]: [r] is a most general solution of [P] among the solutions of
    [s], or NULL when there is none; nothing bound in [s] is forgotten. *)
Definition solves (s : option substitution) (P : (Z → tree) → Prop) (r : option substitution) : Prop :=
  match r with
  | None => ∀ σ, sat W σ s → ¬ P σ
  | Some _ =>
      subst_ok W r ∧ (∃ l, bindings_of r = bindings_of s ++ l) ∧ ∀ σ, sat W σ r ↔ sat W σ s ∧ P σ
  end.

Lemma solves_refl s P : subst_ok W (Some s) → (∀ σ, sat W σ (Some s) → P σ) → solves (Some s) P (Some s).
Proof.
  intros Hs HP. split_and!; [done|exists []; by rewrite app_nil_r|]. intros σ. split; [|tauto]. auto.
Qed.

Lemma solves_seq s P Q s1 r : solves s P (Some s1) → solves (Some s1) Q r → solves s (λ σ, P σ ∧ Q σ) r.
Proof.
  intros (_ & [l1 Hl1] & H1) H2. destruct r as [r|].
  - destruct H2 as (? & [l2 Hl2] & H2). split_and!; [done| |].
    + exists (l1 ++ l2). by rewrite Hl2, Hl1, app_assoc.
    + intros σ. rewrite H2, H1. tauto.
  - intros σ Hσ [HP HQ]. apply (H2 σ); [|done]. by apply H1.
Qed.

Lemma solves_ext s P Q r : (∀ σ, sat W σ s → P σ ↔ Q σ) → solves s P r → solves s Q r.
Proof.
  intros Heq. destruct r as [r|].
  - intros (? & ? & H). split_and!; [done|done|]. intros σ. rewrite H. split; intros [Hs ?]; split; try done; by apply Heq.
  - intros H σ Hσ HQ. apply (H σ Hσ). by apply Heq.
Qed.

Lemma sat_extend σ s id w r : eshkol_subst_lookup s id = None →
  bindings_of r = bindings_of s ++ [(id, w)] → sat W σ r ↔ sat W σ s ∧ σ id = inst W σ w.
Proof.
  intros Hn Hr. unfold sat, eshkol_subst_lookup in *. rewrite Hr. split.
  - intros H. split; [intros j t Hj; apply H; by apply lookup_app_some|].
    apply H. by rewrite lookup_snoc, Hn, Z.eqb_refl.
  - intros [H1 H2] j t. rewrite lookup_snoc. destruct (lookup_binding _ j) eqn:Ej; [intros [= <-]; auto|].
    destruct (Z.eqb_spec id j) as [->|]; [intros [= <-]; done|done].
Qed.

Lemma extend_ok s id w r : subst_ok W s → symbolic W w → canonical_top w →
  bindings_of r = bindings_of s ++ [(id, w)] → subst_ok W r.
Proof.
  intros Hs H1 H2 Hr j t. unfold eshkol_subst_lookup. rewrite Hr, lookup_snoc.
  destruct (lookup_binding _ j) eqn:Ej; [intros [= <-]; eapply Hs; exact Ej|].
  destruct (_ =? _); [intros [= <-]; done|done].
Qed.

Lemma extend_spec e s id w s' e' : eshkol_extend_subst s id w e = Some (s', e') →
  var_names e' = var_names e ∧ s_bindings s' = bindings_of s ++ [(id, w)].
Proof.
  intros H. unfold eshkol_extend_subst, alloc_substitution in H. lrun H a e1 Ha. lret H. injection Ha as <- <-. split; reflexivity.
Qed.

Lemma occurs_levels_S : ∃ n, occurs_levels = S n.
Proof. exists 1000%nat. by vm_compute. Qed.

Lemma occurs_other e s id id' b e' : normal W s (LogicVar id') → id' ≠ id →
  occurs id (LogicVar id') s e = Some (b, e') → e' = e ∧ b = false.
Proof.
  intros Hn Hne H. unfold occurs in H. destruct occurs_levels_S as [n Hl]. rewrite Hl in H. simpl in H.
  lrun H w e1 Hw. rewrite (walk_normal W) in Hw by done. simplify_eq. lret H.
  by destruct (Z.eqb_spec id' id).
Qed.

Lemma bind_spec e s id w r e' : interned_in W e → subst_ok W s → eshkol_subst_lookup s id = None →
  normal W s w → w ≠ LogicVar id → bind_variable id w s e = Some (r, e') →
  var_names e' = var_names e ∧ solves s (λ σ, σ id = inst W σ w) r.
Proof.
  intros He Hs Hid Hn Hne H. unfold bind_variable in H. lrun H b e1 Hb.
  assert (e1 = e ∧ (b = true → ∀ σ, sat W σ s → σ id ≠ inst W σ w)) as [-> Hocc].
  { destruct (is_var w) eqn:Ev; [|by eapply occurs_spec].
    destruct w; try done. apply occurs_other in Hb as [-> ->]; [done|done|congruence]. }
  destruct b.
  - lret H. split; [done|]. intros σ Hσ. by apply Hocc.
  - lrun H s' e2 Hx. lret H. apply extend_spec in Hx as [Hv Hl]. split; [done|].
    destruct Hn as (? & ? & _). split_and!.
    + by eapply extend_ok.
    + by exists [(id, w)].
    + intros σ. by apply sat_extend.
Qed.

(** ** Facts *)

Lemma same_predicate_text p1 p2 : pred_ok W p1 → pred_ok W p2 →
  same_predicate p1 p2 = true ↔ pred_text p1 = pred_text p2.
Proof.
  unfold same_predicate. intros H1 H2. rewrite orb_true_iff, bool_decide_eq_true.
  destruct p1 as [p1|], p2 as [p2|]; simpl in *; [|by split; [intros [|]|]..|by split; auto].
  rewrite String.eqb_eq. split; [|intros [= ?]; by right].
  intros [[= Hp]|Ht]; f_equal; [|done]. by rewrite <- H1, <- H2, Hp.
Qed.

Definition unify_sound (u : value → value → option substitution → logic (option substitution)) : Prop :=
  ∀ e s t1 t2 r e', interned_in W e → subst_ok W (Some s) → symbolic W t1 → symbolic W t2 →
  u t1 t2 (Some s) e = Some (r, e') →
  var_names e' = var_names e ∧ solves (Some s) (λ σ, inst W σ t1 = inst W σ t2) r.

(** The loop stops with the first list, so the second may be longer. *)
Lemma unify_args_spec u : unify_sound u → ∀ l1 l2 e s r e', (length l1 <= length l2)%nat →
  interned_in W e → subst_ok W (Some s) → Forall (symbolic W) l1 → Forall (symbolic W) l2 →
  unify_args u l1 l2 (Some s) e = Some (r, e') →
  var_names e' = var_names e ∧ solves (Some s) (λ σ, map (inst W σ) l1 = take (length l1) (map (inst W σ) l2)) r.
Proof.
  intros Hu. induction l1 as [|x1 l1 IH]; intros [|x2 l2] e s r e' Hlen He Hs H1 H2 H; simpl in Hlen; try lia; simpl in H.
  { lret H. split; [done|]. by apply solves_refl. }
  { lret H. split; [done|]. by apply solves_refl. }
  inversion H1; subst. inversion H2; subst. lrun H next e1 Hn.
  apply Hu in Hn as [He1 Hn]; [|done..]. destruct next as [s1|].
  - apply IH in H as [He2 H]; [|lia|unfold interned_in; congruence|apply Hn|done|done].
    split; [congruence|]. eapply solves_ext; [|by eapply solves_seq].
    intros σ _. simpl. split; [intros [-> <-]; done|intros [= -> <-]; done].
  - lret H. split; [done|]. intros σ Hσ [= Hx _]. by eapply Hn.
Qed.

(** ** The algorithm *)

Lemma not_equal_vars s id w2 : tagged_values_equal (LogicVar id) w2 = false → normal W s w2 → w2 ≠ LogicVar id.
Proof. intros H _ ->. simpl in H. by rewrite Z.eqb_refl in H. Qed.

Lemma tagged_equal_sound σ a b : symbolic W a → symbolic W b → tagged_values_equal a b = true →
  inst W σ a = inst W σ b.
Proof.
  intros Ha Hb H. destruct (decide (is_var a = true ∧ is_var b = true)) as [[H1 H2]|Hn].
  - destruct a, b; try done. simpl in *. f_equal. lia.
  - apply deep_equal_sound; [done|done|]. destruct a, b; try done.
Qed.

Lemma tagged_clash σ s a b : normal W s a → normal W s b → is_var a = false → is_var b = false →
  both_containers a b = false → tagged_values_equal a b = false → inst W σ a ≠ inst W σ b.
Proof.
  intros (Sa & Ca & _) (Sb & Cb & _) Ha Hb Hc H. apply clash; try done. destruct a; try done; by destruct b.
Qed.

Lemma solves_none s w1 w2 : (∀ σ, inst W σ w1 ≠ inst W σ w2) → solves s (λ σ, inst W σ w1 = inst W σ w2) None.
Proof. intros H σ _. apply H. Qed.

Lemma unify_pair_spec u e s a1 b1 c1 d1 a2 b2 c2 d2 r e' : unify_sound u → interned_in W e → subst_ok W (Some s) →
  symbolic W (Cons b1 a1 c1 d1) → symbolic W (Cons b2 a2 c2 d2) →
  (after_car ← u c1 c2 (Some s); match after_car with None => mret None | Some _ => u d1 d2 after_car end) e = Some (r, e') →
  var_names e' = var_names e ∧
  solves (Some s) (λ σ, inst W σ (Cons b1 a1 c1 d1) = inst W σ (Cons b2 a2 c2 d2)) r.
Proof.
  intros Hu He Hs H1 H2 H. destruct b1, b2; try done. simpl in H1, H2. destruct_and?.
  lrun H after e1 Ha. apply Hu in Ha as [He1 Ha]; [|done..]. destruct after as [s1|].
  - apply Hu in H as [He2 H]; [|unfold interned_in; congruence|apply Ha|done|done].
    split; [congruence|]. eapply solves_ext; [|by eapply solves_seq].
    intros σ _. simpl. split; [intros [-> ->]; done|intros [= -> ->]; done].
  - lret H. split; [done|]. intros σ Hσ [= Hx _]. by eapply Ha.
Qed.

Lemma unify_facts_spec u e s a1 p1 l1 a2 p2 l2 r e' : unify_sound u → interned_in W e → subst_ok W (Some s) →
  symbolic W (Fact a1 p1 l1) → symbolic W (Fact a2 p2 l2) →
  (if negb (same_predicate p1 p2) then mret None
   else if negb (length l1 =? length l2)%nat then mret None else unify_args u l1 l2 (Some s)) e = Some (r, e') →
  var_names e' = var_names e ∧ solves (Some s) (λ σ, inst W σ (Fact a1 p1 l1) = inst W σ (Fact a2 p2 l2)) r.
Proof.
  intros Hu He Hs (_ & _ & Hp1 & Hl1%symbolic_args) (_ & _ & Hp2 & Hl2%symbolic_args) H.
  pose proof (same_predicate_text p1 p2 Hp1 Hp2) as Hp.
  destruct (same_predicate p1 p2); simpl in H.
  - destruct (Nat.eqb_spec (length l1) (length l2)) as [Hlen|Hlen]; simpl in H.
    + apply (unify_args_spec u Hu) in H as [? H]; [|lia|done..]. split; [done|].
      eapply solves_ext; [|exact H]. intros σ _. simpl. rewrite take_ge by (rewrite length_map; lia). assert (pred_text p1 = pred_text p2) as -> by tauto.
      split; [intros ->; done|intros [= ->]; done].
    + lret H. split; [done|]. intros σ _ [= _ Hm]. apply Hlen. apply (f_equal length) in Hm. by rewrite !length_map in Hm.
  - lret H. split; [done|]. intros σ _ [= Hpt _]. apply Hp in Hpt. done.
Qed.

Lemma unify_spec fuel : unify_sound (eshkol_unify fuel).
Proof.
  induction fuel as [|fuel IH]; intros e s t1 t2 r e' He Hs H1 H2 H; [done|]. simpl in H.
  lrun H w1 e1 Hw1. apply (walk_spec W) in Hw1 as (-> & N1 & Hi1); [|done..].
  lrun H w2 e2 Hw2. apply (walk_spec W) in Hw2 as (-> & N2 & Hi2); [|done..].
  enough (var_names e' = var_names e ∧ solves (Some s) (λ σ, inst W σ w1 = inst W σ w2) r) as [? Hr].
  { split; [done|]. eapply solves_ext; [|exact Hr]. intros σ Hσ. simpl. by rewrite Hi1, Hi2. }
  clear Hi1 Hi2 H1 H2 t1 t2. destruct (tagged_values_equal w1 w2) eqn:Eq.
  { lret H. split; [done|]. apply solves_refl; [done|]. intros σ _. apply tagged_equal_sound; [apply N1|apply N2|done]. }
  destruct (is_var w1) eqn:V1.
  { destruct w1; try done. apply bind_spec in H; [done|done|done|by apply N1|done|by eapply not_equal_vars]. }
  destruct (is_var w2) eqn:V2.
  { assert (bind_variable (match w2 with LogicVar id => id | _ => 0 end) w1 (Some s) e = Some (r, e')) as Hb
      by (destruct w2; try done; by destruct w1 as [| | | | | |[]| | | | | | | | | | ]).
    destruct w2; try done. apply bind_spec in Hb as [? Hb]; [|done|done|by apply N2|done|by intros ->].
    split; [done|]. eapply solves_ext; [|exact Hb]. intros σ _. simpl. by split. }
  destruct (both_containers w1 w2) eqn:Ec.
  - destruct N1 as (S1 & _), N2 as (S2 & _). destruct w1; try done; destruct w2; try done.
    + destruct legacy, legacy0; try done. revert H. eapply unify_pair_spec; done.
    + by eapply unify_facts_spec.
  - assert (r = None ∧ e' = e) as [-> ->].
    { destruct w1 as [| | | | | |[]| | | | | | | | | | ]; try done;
        destruct w2 as [| | | | | |[]| | | | | | | | | | ]; try done; by lret H. }
    split; [done|]. apply solves_none. intros σ. by eapply tagged_clash.
Qed.
End unify.

(** * Acyclic substitutions, and the termination of unification

    The occurs check stops looking [OCCURS_CHECK_MAX_DEPTH] levels down, so
    acyclicity is only kept where resolved terms are shallower than that; with
    [n] variables and terms of depth [D] they are when [(n + 1) * D] is. *)

(** Nesting of pairs and facts, the measure the occurs check counts. *)
Fixpoint vdepth (v : value) : nat :=
  match v with
  | Cons _ _ a d => S (max (vdepth a) (vdepth d))
  | Fact _ _ l => S ((fix go l := match l with [] => 0 | x :: l => max (vdepth x) (go l) end)%nat l)
  | _ => 0
  end.

Lemma vdepth_arg a p l x : x ∈ l → (vdepth x < vdepth (Fact a p l))%nat.
Proof. simpl. induction 1 as [x l|x y l _ IH]; cbn beta iota; lia. Qed.

Section term.
Context (W : world).

Inductive mentions (id : Z) : value → Prop :=
| mentions_var : mentions id (LogicVar id)
| mentions_sym a s : is_logic_name s = true → var_of W s = id → mentions id (Sym a s)
| mentions_car l a x y : mentions id x → mentions id (Cons l a x y)
| mentions_cdr l a x y : mentions id y → mentions id (Cons l a x y)
| mentions_arg a p args x : x ∈ args → mentions id x → mentions id (Fact a p args).

Inductive reach (bs : list (Z * value)) (id : Z) : value → Prop :=
| reach_here v : mentions id v → reach bs id v
| reach_step v j u : mentions j v → lookup_binding bs j = Some u → reach bs id u → reach bs id v.

Definition acyclic (bs : list (Z * value)) : Prop :=
  ∀ j u, lookup_binding bs j = Some u → ¬ reach bs j u.

(** [deep bs n v]: resolving [v] completely nests at most [n] pairs and facts. *)
Inductive deep (bs : list (Z * value)) : nat → value → Prop :=
| deep_free n id : lookup_binding bs id = None → deep bs n (LogicVar id)
| deep_bound n id u : lookup_binding bs id = Some u → deep bs n u → deep bs n (LogicVar id)
| deep_sym n a s : is_logic_name s = true → deep bs n (LogicVar (var_of W s)) → deep bs n (Sym a s)
| deep_cons n l a x y : deep bs n x → deep bs n y → deep bs (S n) (Cons l a x y)
| deep_fact n a p args : (∀ x, x ∈ args → deep bs n x) → deep bs (S n) (Fact a p args)
| deep_leaf n v : vdepth v = 0%nat → (∀ id, ¬ mentions id v) → deep bs n v.

Lemma deep_mono bs n m v : deep bs n v → (n <= m)%nat → deep bs m v.
Proof.
  intros Hd. revert m. induction Hd; intros m Hle; try (destruct m as [|m]; [lia|]).
  - by apply deep_free.
  - eapply deep_bound; eauto.
  - apply deep_sym; auto.
  - apply deep_cons; auto with lia.
  - apply deep_fact; auto with lia.
  - by apply deep_leaf.
Qed.

Lemma deep_at_bound bs id n u : deep bs n (LogicVar id) → lookup_binding bs id = Some u → deep bs n u.
Proof. inversion 1; subst; intros; simplify_eq; [done|]. exfalso. naive_solver (eauto using mentions). Qed.

Lemma deep_at_sym bs a s n : is_logic_name s = true → deep bs n (Sym a s) → deep bs n (LogicVar (var_of W s)).
Proof. intros Hs. inversion 1; subst; [done|]. exfalso. naive_solver (eauto using mentions). Qed.

(** Walking keeps every property that bindings keep. *)
Lemma follow_inv (P : value → Prop) s : (∀ id u, P (LogicVar id) → eshkol_subst_lookup s id = Some u → P u) →
  ∀ n c w, follow n s c = Some w → P c → P w.
Proof.
  intros Hstep. induction n as [|n IH]; intros c w Hf Hc; destruct c; simpl in Hf; try by simplify_eq.
  all: destruct (eshkol_subst_lookup s id) eqn:El; simplify_eq; try done. eapply IH; eauto.
Qed.

Lemma walk_inv (P : value → Prop) s e v w e' :
  (∀ id u, P (LogicVar id) → eshkol_subst_lookup s id = Some u → P u) →
  (∀ a str, is_logic_name str = true → P (Sym a str) → P (LogicVar (var_of W str))) →
  interned_in W e → symbolic W v → eshkol_walk v s e = Some (w, e') → P v → P w.
Proof.
  intros H1 H2 He Hv H HP. unfold eshkol_walk in H. lrun H c e1 Hc.
  destruct (follow _ s c) as [w'|] eqn:Ef; [|done]. lret H. eapply follow_inv; [exact H1|exact Ef|].
  clear Ef. destruct v; try (by lret Hc). simpl in Hc, Hv. destruct (is_logic_name s0) eqn:Es.
  - destruct_and?. unfold mbind, logic_bind in Hc. rewrite (make_logic_var_found W) in Hc by auto.
    lret Hc. eauto.
  - by lret Hc.
Qed.

(** ** Counting the bound variables a term can reach *)

Definition bound_within (bs : list (Z * value)) (X : gset Z) (v : value) : Prop :=
  ∀ j, reach bs j v → is_Some (lookup_binding bs j) → j ∈ X.

Lemma mentions_reach bs id v : mentions id v → reach bs id v.
Proof. apply reach_here. Qed.

Lemma bound_within_step bs X id u : acyclic bs → bound_within bs X (LogicVar id) →
  lookup_binding bs id = Some u → id ∈ X ∧ bound_within bs (X ∖ {[id]}) u.
Proof.
  intros Ha Hx Hu. split; [apply Hx; [apply mentions_reach; constructor|eauto]|].
  intros j Hj Hb. apply elem_of_difference. split.
  - apply Hx; [|done]. eapply reach_step; [constructor|done|done].
  - intros ->%elem_of_singleton. by eapply Ha.
Qed.

Lemma reach_sub bs id v v' : (∀ j, mentions j v → mentions j v') → reach bs id v → reach bs id v'.
Proof. intros Hm. inversion 1; subst; [apply reach_here; auto|eapply reach_step; eauto]. Qed.

Lemma bound_within_sub bs X v v' : (∀ j, mentions j v → mentions j v') → bound_within bs X v' → bound_within bs X v.
Proof. intros Hm Hx j Hj. apply Hx. by eapply reach_sub. Qed.

Lemma size_remove (X : gset Z) id k : id ∈ X → (size X <= S k)%nat → (size (X ∖ {[id]}) <= k)%nat.
Proof.
  intros Hid Hk. rewrite size_difference by set_solver. rewrite size_singleton. lia.
Qed.

Lemma size_member (X : gset Z) id k : id ∈ X → (size X <= k)%nat → ∃ k', k = S k'.
Proof. destruct k as [|k]; [|eauto]. intros Hid Hk. assert (size X = 0%nat) by lia. apply size_empty_inv in H. set_solver. Qed.

Lemma follow_total s : acyclic (bindings_of s) → ∀ k X c, (size X <= k)%nat →
  bound_within (bindings_of s) X c → ∃ w, follow k s c = Some w.
Proof.
  intros Ha k. induction k as [|k IH]; intros X c Hk Hc; destruct c; simpl; eauto;
    destruct (eshkol_subst_lookup s id) as [u|] eqn:El; eauto;
    destruct (bound_within_step _ _ _ _ Ha Hc El) as [Hid Hu].
  - by destruct (size_member _ _ _ Hid Hk) as [? ?].
  - eapply IH; [|exact Hu]. by apply size_remove.
Qed.

Lemma deep_total bs D : acyclic bs → (∀ j u, lookup_binding bs j = Some u → (vdepth u <= D)%nat) →
  ∀ k v X, (size X <= k)%nat → bound_within bs X v → deep bs (vdepth v + D * k) v.
Proof.
  intros Ha HD k. induction k as [k IHk] using lt_wf_ind.
  assert (Hvar : ∀ id X, (size X <= k)%nat → bound_within bs X (LogicVar id) → deep bs (D * k) (LogicVar id)).
  { intros id X Hk Hx. destruct (lookup_binding bs id) as [u|] eqn:El; [|by apply deep_free].
    destruct (bound_within_step _ _ _ _ Ha Hx El) as [Hid Hu].
    destruct (size_member _ _ _ Hid Hk) as [k' ->]. eapply deep_bound; [done|].
    eapply deep_mono; [apply (IHk k' ltac:(lia) u (X ∖ {[id]})); [by apply size_remove|exact Hu]|].
    specialize (HD _ _ El). nia. }
  induction v as [| | | |id| |l a x y IHx IHy| |a s| | | | |a p l IHl| | | ] using value_nested_ind;
    intros X Hk Hx; try (apply deep_leaf; [done|by inversion 1]).
  - by eapply Hvar.
  - assert (∀ v n, (n <= max (vdepth x) (vdepth y))%nat → deep bs (n + D * k) v →
              deep bs (max (vdepth x) (vdepth y) + D * k) v) as Hm by (intros; eapply deep_mono; [done|lia]).
    simpl. apply deep_cons.
    + eapply Hm; [|apply (IHx X); [done|]]; [lia|]. eapply bound_within_sub; [|exact Hx]. intros j. by apply mentions_car.
    + eapply Hm; [|apply (IHy X); [done|]]; [lia|]. eapply bound_within_sub; [|exact Hx]. intros j. by apply mentions_cdr.
  - simpl. destruct (is_logic_name s) eqn:Es.
    + apply deep_sym; [done|]. eapply Hvar; [done|]. eapply bound_within_sub; [|exact Hx].
      inversion 1; subst. by apply mentions_sym.
    + apply deep_leaf; [done|]. inversion 1; congruence.
  - rewrite Forall_forall in IHl. change (vdepth (Fact a p l) + D * k)%nat with
      (S (pred (vdepth (Fact a p l)) + D * k)). apply deep_fact. intros x Hl.
    pose proof (vdepth_arg a p l x Hl). eapply deep_mono; [apply (IHl x Hl X); [done|]|lia].
    eapply bound_within_sub; [|exact Hx]. intros j. by apply mentions_arg.
Qed.

(** ** Walking and the occurs check return *)

Definition dom_of (bs : list (Z * value)) : gset Z := list_to_set (map fst bs).

Lemma dom_of_lookup bs j : is_Some (lookup_binding bs j) ↔ j ∈ dom_of bs.
Proof.
  unfold dom_of. induction bs as [|[i t] bs IH]; simpl; [split; [by intros [? ?]|set_solver]|].
  rewrite elem_of_union, elem_of_singleton, <- IH. destruct (Z.eqb_spec i j); naive_solver.
Qed.

Lemma dom_of_size bs : (size (dom_of bs) <= length bs)%nat.
Proof.
  unfold dom_of. induction bs as [|[i t] bs IH]; cbn [map fst length].
  - rewrite list_to_set_nil, size_empty. done.
  - rewrite list_to_set_cons, size_union_alt, size_singleton.
    pose proof (subseteq_size (list_to_set (map fst bs) ∖ {[i]}) (list_to_set (C := gset Z) (map fst bs)) ltac:(set_solver)).
    lia.
Qed.

Lemma walk_total e s v : interned_in W e → symbolic W v → acyclic (bindings_of s) →
  ∃ w, eshkol_walk v s e = Some (w, e).
Proof.
  intros He Hv Ha. destruct (canonicalize_spec W e v He Hv) as (c & Hc & _).
  destruct (follow_total s Ha (length (bindings_of s)) (dom_of (bindings_of s)) c (dom_of_size _)) as [w Hw].
  { intros j _ Hj. by apply dom_of_lookup. }
  exists w. unfold eshkol_walk, mbind, logic_bind. by rewrite Hc, Hw.
Qed.

Lemma logic_bind_eq {A C} (m : logic A) (f : A → logic C) e a e1 : m e = Some (a, e1) → (m ≫= f) e = f a e1.
Proof. intros H. unfold mbind, logic_bind. by rewrite H. Qed.

Lemma any_total {A} (f : A → logic bool) (P : A → Prop) e l :
  (∀ x, x ∈ l → ∃ b, f x e = Some (b, e) ∧ (b = false → P x)) →
  ∃ b, any f l e = Some (b, e) ∧ (b = false → ∀ x, x ∈ l → P x).
Proof.
  induction l as [|x l IH]; intros Hf; simpl.
  { exists false. split; [done|]. set_solver. }
  destruct (Hf x) as ([|] & Hx & HP); [left| |].
  - exists true. rewrite (logic_bind_eq _ _ _ _ _ Hx). done.
  - rewrite (logic_bind_eq _ _ _ _ _ Hx). destruct IH as (b & Hb & Hl); [intros; apply Hf; by right|].
    exists b. split; [done|]. intros ->. set_solver.
Qed.

Lemma reach_var bs id j u : lookup_binding bs id = None → reach bs id (LogicVar j) →
  lookup_binding bs j = Some u → reach bs id u.
Proof.
  intros Hid Hr Hj. inversion Hr as [? Hm|? k u' Hm Hu Hr']; subst; inversion Hm; subst; congruence.
Qed.

Lemma reach_free bs id j : reach bs id (LogicVar j) → lookup_binding bs j = None → id = j.
Proof. intros Hr Hj. inversion Hr as [? Hm|? k u' Hm Hu Hr']; subst; inversion Hm; subst; congruence. Qed.

Lemma reach_sym bs id a str : is_logic_name str = true → reach bs id (Sym a str) → reach bs id (LogicVar (var_of W str)).
Proof.
  intros _. apply reach_sub. intros j. inversion 1; subst. constructor.
Qed.

Lemma reach_cons bs id l a x y : reach bs id (Cons l a x y) → reach bs id x ∨ reach bs id y.
Proof.
  intros Hr. inversion Hr as [? Hm|? k u' Hm Hu Hr']; subst; inversion Hm; subst;
    eauto using reach_here, reach_step.
Qed.

Lemma reach_fact bs id a p l : reach bs id (Fact a p l) → ∃ x, x ∈ l ∧ reach bs id x.
Proof.
  intros Hr. inversion Hr as [? Hm|? k u' Hm Hu Hr']; subst; inversion Hm; subst;
    eauto using reach_here, reach_step.
Qed.

Lemma deep_cons_inv bs n l a x y : deep bs n (Cons l a x y) → ∃ m, n = S m ∧ deep bs m x ∧ deep bs m y.
Proof. inversion 1; subst; eauto; done. Qed.
Lemma deep_fact_inv bs n a p l : deep bs n (Fact a p l) → ∃ m, n = S m ∧ ∀ x, x ∈ l → deep bs m x.
Proof. inversion 1; subst; eauto; done. Qed.

Lemma occurs_impl_total e s id : interned_in W e → subst_ok W s → acyclic (bindings_of s) →
  eshkol_subst_lookup s id = None →
  ∀ n v m, (m < n)%nat → symbolic W v → deep (bindings_of s) m v →
  ∃ b, occurs_impl n id v s e = Some (b, e) ∧ (b = false → ¬ reach (bindings_of s) id v).
Proof.
  intros He Hs Ha Hid n. induction n as [|n IH]; intros v m Hm Hv Hd; [lia|]. simpl.
  destruct (walk_total e s v He Hv Ha) as [w Hw]. rewrite (logic_bind_eq _ _ _ _ _ Hw).
  assert (Hrw : reach (bindings_of s) id v → reach (bindings_of s) id w).
  { intros. eapply (walk_inv (reach (bindings_of s) id)); eauto using reach_sym. intros j u ? ?. by eapply reach_var. }
  assert (Hdw : deep (bindings_of s) m w).
  { eapply (walk_inv (deep (bindings_of s) m)); eauto using deep_at_sym. intros j u ? ?. by eapply deep_at_bound. }
  apply (walk_spec W) in Hw as (_ & (Sw & Cw & Rw) & _); [|done..].
  enough (∃ b, match w with
    | LogicVar id' => mret (id' =? id)
    | Fact _ _ args => any (λ x, occurs_impl n id x s) args
    | Cons false _ a d => b ← occurs_impl n id a s; if (b : bool) then mret true else occurs_impl n id d s
    | _ => mret false
    end e = Some (b, e) ∧ (b = false → ¬ reach (bindings_of s) id w)) as (b & Hb & Hn).
  { exists b. split; [exact Hb|]. intros Hf Hr. by apply Hn, Hrw. }
  clear Hrw Hv Hd v.
  destruct w as [| | | |j| |[] a x y| |a str| | | | |a p l| | | ]; try done;
    try (eexists; split; [done|]; intros _ Hr; inversion Hr as [? Hx|? ? ? Hx]; by inversion Hx).
  - eexists. split; [done|]. intros Hf Hr. apply reach_free in Hr as ->; [|by apply Rw].
    by rewrite Z.eqb_refl in Hf.
  - apply deep_cons_inv in Hdw as (m' & -> & Dx & Dy). simpl in Sw. destruct_and?.
    destruct (IH x m') as ([|] & Hx & Nx); [lia|done|done| |].
    + rewrite (logic_bind_eq _ _ _ _ _ Hx). by eexists.
    + rewrite (logic_bind_eq _ _ _ _ _ Hx). destruct (IH y m') as (b & Hy & Ny); [lia|done|done|].
      exists b. split; [exact Hy|]. intros -> [?|?]%reach_cons; naive_solver.
  - simpl in Cw. eexists. split; [done|]. intros _ Hr.
    inversion Hr as [? Hx|? ? ? Hx]; inversion Hx; congruence.
  - apply deep_fact_inv in Hdw as (m' & -> & Dl). destruct Sw as (_ & _ & _ & Sl%symbolic_args).
    rewrite Forall_forall in Sl.
    destruct (any_total (λ x, occurs_impl n id x s) (λ x, ¬ reach (bindings_of s) id x) e l) as (b & Hb & Hl).
    { intros x Hx. apply (IH x m'); [lia|auto|auto]. }
    exists b. split; [exact Hb|]. intros -> (x & Hx & Hr)%reach_fact. by eapply Hl.
Qed.

Lemma reach_extend bs id w j v : lookup_binding bs id = None → reach (bs ++ [(id, w)]) j v →
  reach bs j v ∨ (reach bs id v ∧ reach bs j w).
Proof.
  intros Hid. induction 1 as [v Hm|v k u Hm Hu _ IH]; [left; by apply reach_here|].
  rewrite lookup_snoc in Hu. destruct (lookup_binding bs k) as [u'|] eqn:Ek.
  - simplify_eq. destruct IH as [?|[? ?]]; [left|right; split; [|done]]; by eapply reach_step.
  - destruct (Z.eqb_spec id k) as [<-|]; simplify_eq. right. split; [by apply reach_here|]. tauto.
Qed.

(** Binding a free variable to a term that does not reach it keeps acyclicity. *)
Lemma acyclic_extend bs id w : acyclic bs → lookup_binding bs id = None → ¬ reach bs id w →
  acyclic (bs ++ [(id, w)]).
Proof.
  intros Ha Hid Hw j u Hj Hr. rewrite lookup_snoc in Hj.
  apply reach_extend in Hr; [|done]. destruct (lookup_binding bs j) as [u'|] eqn:Ej.
  - simplify_eq. destruct Hr as [Hr|[Hr1 Hr2]]; [by eapply Ha|]. apply Hw.
    clear - Hr1 Hr2 Ej Hid. induction Hr2 as [v Hm|v k t Hm Hk _ IH].
    + eapply reach_step; [done|exact Ej|done].
    + eapply reach_step; [done|exact Hk|auto].
  - destruct (Z.eqb_spec id j) as [<-|]; simplify_eq. tauto.
Qed.
End term.

(** * unification returns

    For a finite set of variables and a bound on the nesting of terms that keep
    resolved terms within the depth the occurs check looks at, [eshkol_unify]
    returns, and its result is acyclic again.  The measure is the number of free
    variables, then the depth of the resolved first term. *)

(** ** More fuel gives the same result *)

Lemma unify_args_mono (u u' : value → value → option substitution → logic (option substitution)) :
  (∀ t1 t2 s e x, u t1 t2 s e = Some x → u' t1 t2 s e = Some x) →
  ∀ l1 l2 s e x, unify_args u l1 l2 s e = Some x → unify_args u' l1 l2 s e = Some x.
Proof.
  intros Hu. induction l1 as [|x1 l1 IH]; intros [|x2 l2] s e [r e'] H; try done; simpl in *.
  lrun H next e1 Hn. rewrite (logic_bind_eq _ _ _ _ _ (Hu _ _ _ _ _ Hn)). destruct next; auto.
Qed.

Lemma unify_mono f : ∀ f' t1 t2 s e x, (f <= f')%nat →
  eshkol_unify f t1 t2 s e = Some x → eshkol_unify f' t1 t2 s e = Some x.
Proof.
  induction f as [|f IH]; intros [|f'] t1 t2 s e [r e'] Hle H; try done; [lia|]. simpl in *.
  lrun H w1 e1 H1. rewrite (logic_bind_eq _ _ _ _ _ H1).
  lrun H w2 e2 H2. rewrite (logic_bind_eq _ _ _ _ _ H2).
  assert (∀ t1 t2 s e x, eshkol_unify f t1 t2 s e = Some x → eshkol_unify f' t1 t2 s e = Some x) as Hu
    by (intros; eapply IH; [lia|done]).
  destruct (tagged_values_equal w1 w2); [done|].
  destruct w1 as [| | | | | |[] ? a1 d1| | | | | | |? p1 args1| | | ]; try done;
    destruct w2 as [| | | | | |[] ? a2 d2| | | | | | |? p2 args2| | | ]; try done.
  - lrun H after e3 H3. rewrite (logic_bind_eq _ _ _ _ _ (Hu _ _ _ _ _ H3)). destruct after; auto.
  - destruct (negb _); [done|]. destruct (negb _); [done|]. by eapply unify_args_mono.
Qed.

Section total.
Context (W : world) (V : gset Z) (D : nat).
Context (Hlimit : Z.of_nat ((size V + 1) * D) <= OCCURS_CHECK_MAX_DEPTH).

(** Symbolic terms over the variables [V], nested at most [D] deep. *)
Definition within (v : value) : Prop :=
  symbolic W v ∧ (∀ j, mentions W j v → j ∈ V) ∧ (vdepth v <= D)%nat.

Record good (s : option substitution) : Prop := {
  good_ok : subst_ok W s;
  good_acyclic : acyclic W (bindings_of s);
  good_within : ∀ j u, eshkol_subst_lookup s j = Some u → j ∈ V ∧ within u
}.

Definition free_vars (s : option substitution) : nat := size (V ∖ dom_of (bindings_of s)).

Lemma within_reach s v j : good s → within v → reach W (bindings_of s) j v → j ∈ V.
Proof.
  intros Hg Hv Hr. revert Hv. induction Hr as [v Hm|v k u Hm Hk _ IH]; intros Hv; [by apply Hv|].
  apply IH. by eapply good_within.
Qed.

Lemma within_deep s v : good s → within v → deep W (bindings_of s) (D * size V + D) v.
Proof.
  clear Hlimit. intros Hg Hv. eapply deep_mono; [eapply (deep_total W (bindings_of s) D) with (X := V)|].
  - apply Hg.
  - intros j u Hj. by apply (good_within s Hg j u).
  - done.
  - intros j Hj _. by eapply within_reach.
  - destruct Hv as (_ & _ & ?). lia.
Qed.

Lemma within_levels : (D * size V + D < occurs_levels)%nat.
Proof. unfold occurs_levels, OCCURS_CHECK_MAX_DEPTH in *. lia. Qed.

Lemma within_pair l a x y : within (Cons l a x y) → within x ∧ within y.
Proof.
  clear Hlimit. intros (Hs & Hm & Hd). destruct l; [done|]. simpl in Hs, Hd. destruct_and?.
  split; (split_and!; [done| |lia]); intros j ?; apply Hm; eauto using mentions.
Qed.

Lemma within_args a p l : within (Fact a p l) → Forall within l.
Proof.
  clear Hlimit. intros (Hs & Hm & Hd). destruct Hs as (_ & _ & _ & Hl%symbolic_args). rewrite Forall_forall in Hl.
  apply Forall_forall. intros x Hx. pose proof (vdepth_arg a p l x Hx).
  split_and!; [auto| |lia]. intros j ?. apply Hm. by eapply mentions_arg.
Qed.

Lemma walk_within s e v : interned_in W e → good s → within v →
  ∃ w, eshkol_walk v s e = Some (w, e) ∧ normal W s w ∧ within w ∧
       ∀ n, deep W (bindings_of s) n v → deep W (bindings_of s) n w.
Proof.
  clear Hlimit. intros He Hg Hv. pose proof Hv as (Sv & _ & _).
  destruct (walk_total W e s v He Sv (good_acyclic s Hg)) as [w Hw]. exists w.
  pose proof (walk_spec W e s v w e He (good_ok s Hg) Sv Hw) as (_ & Hn & _).
  assert (Hmw : within w).
  { eapply (walk_inv W within s); [| |done..].
    - intros id u _ Hu. by eapply good_within.
    - intros a str Hstr (_ & Hm & _). split_and!; [done| |simpl; lia]. inversion 1; subst.
      apply Hm. by apply mentions_sym. }
  split_and!; [done|done|done|]. intros n Hd.
  eapply (walk_inv W (deep W (bindings_of s) n) s); eauto using deep_at_sym.
  intros id u ? ?. by eapply deep_at_bound.
Qed.

(** A result of unification: the outcome is an acyclic substitution that either
    binds nothing new or has fewer free variables. *)
Definition progress (s r : option substitution) : Prop :=
  match r with
  | None => True
  | Some _ => good r ∧ (bindings_of r = bindings_of s ∨ (free_vars r < free_vars s)%nat)
  end.

Lemma free_vars_extend s r id w : id ∈ V → eshkol_subst_lookup s id = None →
  bindings_of r = bindings_of s ++ [(id, w)] → (free_vars r < free_vars s)%nat.
Proof.
  clear Hlimit. intros HV Hid Hr. unfold free_vars. apply subset_size. rewrite Hr.
  assert (dom_of (bindings_of s ++ [(id, w)]) = dom_of (bindings_of s) ∪ {[id]}) as ->.
  { apply set_eq. intros j. rewrite elem_of_union, elem_of_singleton, <- !dom_of_lookup, lookup_snoc.
    unfold eshkol_subst_lookup in Hid. destruct (lookup_binding _ j) eqn:Ej; [naive_solver|].
    destruct (Z.eqb_spec id j); naive_solver. }
  assert (id ∉ dom_of (bindings_of s)).
  { rewrite <- dom_of_lookup. unfold eshkol_subst_lookup in Hid. rewrite Hid. by intros [? ?]. }
  set_solver.
Qed.

Lemma bind_total s e id w : interned_in W e → good s → id ∈ V → eshkol_subst_lookup s id = None →
  within w → normal W s w → w ≠ LogicVar id →
  ∃ r e', bind_variable id w s e = Some (r, e') ∧ interned_in W e' ∧ progress s r.
Proof.
  intros He Hg HV Hid Hw Hn Hne. pose proof Hw as (Sw & _ & _).
  destruct (occurs_impl_total W e s id He (good_ok s Hg) (good_acyclic s Hg) Hid occurs_levels w
              (D * size V + D) within_levels Sw (within_deep s w Hg Hw)) as (b & Hb & Hr).
  unfold bind_variable. fold (occurs id w s) in Hb. rewrite (logic_bind_eq _ _ _ _ _ Hb).
  destruct b; [by eexists _, _|]. specialize (Hr eq_refl).
  eexists _, _. split; [done|]. split; [done|].
  set (r := Some (MkSubst (next_addr e) (extended_capacity s) (bindings_of s ++ [(id, w)]))).
  split; [split|right].
  - eapply (extend_ok W s id w r); [apply Hg|done|apply Hn|done].
  - apply (acyclic_extend W); [apply Hg|done|done].
  - intros j u. unfold eshkol_subst_lookup. simpl. rewrite lookup_snoc.
    destruct (lookup_binding _ j) eqn:Ej.
    + intros ?; simplify_eq. by eapply good_within.
    + destruct (Z.eqb_spec id j) as [<-|]; intros; by simplify_eq.
  - by eapply (free_vars_extend s r id w).
Qed.

Definition returns (t1 : value) (s : option substitution) : Prop :=
  ∀ t2 e, interned_in W e → within t2 →
  ∃ N r e', eshkol_unify N t1 t2 s e = Some (r, e') ∧ interned_in W e' ∧ progress s r.

Definition args_return (l1 : list value) (s : option substitution) : Prop :=
  ∀ l2 e, (length l1 <= length l2)%nat → interned_in W e → Forall within l2 →
  ∃ N r e', unify_args (eshkol_unify N) l1 l2 s e = Some (r, e') ∧ interned_in W e' ∧ progress s r.

(** What the induction provides: terms that resolve less deep, and any term once
    a variable has been bound. *)
Definition smaller (n m : nat) : Prop :=
  (∀ k x s, (k < m)%nat → good s → within x → free_vars s = n → deep W (bindings_of s) k x → returns x s) ∧
  (∀ x s, good s → within x → (free_vars s < n)%nat → returns x s).

Lemma returns_after n m k x s r : smaller n m → (k < m)%nat → free_vars s = n → within x →
  deep W (bindings_of s) k x → progress s r → r ≠ None → returns x r.
Proof.
  intros [H1 H2] Hk Hf Hx Hd Hp Hr. destruct r as [r|]; [|done]. destruct Hp as [Hg [Hb|Hlt]].
  - apply (H1 k); [done|done|done| |by rewrite Hb]. unfold free_vars in *. by rewrite Hb.
  - apply H2; [done|done|]. lia.
Qed.

Lemma progress_trans s r1 r2 : progress s r1 → r1 ≠ None → progress r1 r2 → progress s r2.
Proof.
  destruct r1 as [r1|], r2 as [r2|]; simpl; try done. unfold free_vars. simpl.
  intros [_ H1] _ [Hg H2]. split; [done|]. destruct H1 as [H1|H1], H2 as [H2|H2].
  - left. congruence.
  - right. by rewrite <- H1.
  - right. by rewrite H2.
  - right. lia.
Qed.

Lemma args_nil s : good s → args_return [] s.
Proof.
  intros Hg l2 e Hlen He _. exists 0%nat, s, e. split_and!; [done|done|].
  destruct s; simpl; auto.
Qed.

Lemma args_cons x l s : returns x s → (∀ r, progress s r → r ≠ None → args_return l r) → args_return (x :: l) s.
Proof.
  intros Hx Hl [|y l2] e Hlen He Hl2; simpl in Hlen; [lia|]. inversion_clear Hl2.
  destruct (Hx y e He) as (N1 & r & e1 & Hr & He1 & Hp); [done|].
  destruct r as [r|].
  - destruct (Hl (Some r) Hp ltac:(done) l2 e1) as (N2 & r2 & e2 & Hr2 & He2 & Hp2); [simpl in Hlen; lia|done|done|].
    exists (max N1 N2), r2, e2. simpl.
    rewrite (logic_bind_eq _ _ _ _ _ (unify_mono N1 _ _ _ _ _ _ (Nat.le_max_l N1 N2) Hr)).
    split_and!; [|done|by eapply progress_trans].
    eapply unify_args_mono; [|exact Hr2]. intros; eapply (unify_mono N2); [lia|done].
  - exists N1, None, e1. simpl. by rewrite (logic_bind_eq _ _ _ _ _ Hr).
Qed.

Lemma args_low n : (∀ x s, good s → within x → (free_vars s < n)%nat → returns x s) →
  ∀ l s, good s → Forall within l → (free_vars s < n)%nat → args_return l s.
Proof.
  intros H2. induction l as [|x l IH]; intros s Hg Hl Hf; [by apply args_nil|].
  inversion_clear Hl. apply args_cons; [by apply H2|]. intros [r|] Hp Hr; [|done].
  destruct Hp as [Hg' Hb]. apply IH; [done|done|]. unfold free_vars in *. destruct Hb as [->|?]; lia.
Qed.

Lemma args_total n m k : smaller n m → (k < m)%nat → ∀ l s, good s → free_vars s = n → Forall within l →
  (∀ x, x ∈ l → deep W (bindings_of s) k x) → args_return l s.
Proof.
  intros [H1 H2] Hk. induction l as [|x l IH]; intros s Hg Hf Hl Hd; [by apply args_nil|].
  inversion_clear Hl. apply args_cons; [apply (H1 k); auto; apply Hd; left|]. intros [r|] Hp Hr; [|done].
  destruct Hp as [Hg' [Hb|Hlt]].
  - apply IH; [done|unfold free_vars in *; by rewrite Hb|done|]. intros z Hz. rewrite Hb. apply Hd. by right.
  - eapply args_low; [exact H2|done|done|lia].
Qed.

(** The step that follows the two walks. *)
Lemma unify_fail fuel w1 w2 s e : tagged_values_equal w1 w2 = false → is_var w1 = false → is_var w2 = false →
  both_containers w1 w2 = false → symbolic W w1 → symbolic W w2 → eshkol_walk w1 s e = Some (w1, e) →
  eshkol_walk w2 s e = Some (w2, e) → eshkol_unify (S fuel) w1 w2 s e = Some (None, e).
Proof.
  intros Eq V1 V2 Hc S1 S2 H1 H2. simpl. rewrite (logic_bind_eq _ _ _ _ _ H1), (logic_bind_eq _ _ _ _ _ H2), Eq.
  destruct w1 as [| | | | | |[]| | | | | | | | | | ]; try done;
    destruct w2 as [| | | | | |[]| | | | | | | | | | ]; done.
Qed.

(** Unification sees its arguments only through their walks. *)
Lemma unify_walked fuel t1 t2 w1 w2 s e : normal W s w1 → normal W s w2 →
  eshkol_walk t1 s e = Some (w1, e) → eshkol_walk t2 s e = Some (w2, e) →
  eshkol_unify (S fuel) t1 t2 s e = eshkol_unify (S fuel) w1 w2 s e.
Proof.
  intros N1 N2 H1 H2. simpl.
  rewrite (logic_bind_eq _ _ _ _ _ H1), (logic_bind_eq _ _ _ _ _ H2).
  by rewrite (logic_bind_eq _ _ _ _ _ (walk_normal W e s w1 N1)), (logic_bind_eq _ _ _ _ _ (walk_normal W e s w2 N2)).
Qed.

Lemma pair_returns n m k s a1 x1 y1 a2 x2 y2 e : smaller n m → (k < m)%nat → good s → free_vars s = n → interned_in W e →
  within x1 → within y1 → within x2 → within y2 →
  deep W (bindings_of s) k x1 → deep W (bindings_of s) k y1 →
  normal W s (Cons false a1 x1 y1) → normal W s (Cons false a2 x2 y2) →
  ∃ N r e', eshkol_unify N (Cons false a1 x1 y1) (Cons false a2 x2 y2) s e = Some (r, e') ∧
            interned_in W e' ∧ progress s r.
Proof.
  intros Hsm Hk Hg Hf He Wx1 Wy1 Wx2 Wy2 Dx Dy N1 N2.
  destruct (proj1 Hsm k x1 s Hk Hg Wx1 Hf Dx x2 e He Wx2) as (F1 & r & e1 & Hr & He1 & Hp).
  assert (∃ F2 r2 e2, (∀ F, (max F1 F2 <= F)%nat → (match r with None => mret None | Some _ => eshkol_unify F y1 y2 r end) e1 = Some (r2, e2))
    ∧ interned_in W e2 ∧ progress s r2) as (F2 & r2 & e2 & Hr2 & He2 & Hp2).
  { destruct r as [r|]; [|by exists 0%nat, None, e1].
    destruct (returns_after n m k y1 s (Some r) Hsm Hk Hf Wy1 Dy Hp ltac:(done) y2 e1 He1 Wy2) as (F2 & r2 & e2 & Hr2 & He2 & Hp2).
    exists F2, r2, e2. split_and!; [|done|by eapply progress_trans].
    intros F HF. eapply unify_mono; [|exact Hr2]. lia. }
  destruct (tagged_values_equal (Cons false a1 x1 y1) (Cons false a2 x2 y2)) eqn:Eq.
  - exists 1%nat, s, e. split_and!; [|done|destruct s; simpl; auto]. simpl eshkol_unify.
    by rewrite (logic_bind_eq _ _ _ _ _ (walk_normal W e s _ N1)), (logic_bind_eq _ _ _ _ _ (walk_normal W e s _ N2)), Eq.
  - exists (S (max F1 F2)), r2, e2. split_and!; [|done|done]. cbn [eshkol_unify].
    rewrite (logic_bind_eq _ _ _ _ _ (walk_normal W e s _ N1)), (logic_bind_eq _ _ _ _ _ (walk_normal W e s _ N2)), Eq.
    rewrite (logic_bind_eq _ _ _ _ _ (unify_mono F1 _ _ _ _ _ _ (Nat.le_max_l F1 F2) Hr)). by apply Hr2.
Qed.

Lemma facts_return n m k s a1 p1 l1 a2 p2 l2 e : smaller n m → (k < m)%nat → good s → free_vars s = n → interned_in W e →
  Forall within l1 → Forall within l2 → (∀ x, x ∈ l1 → deep W (bindings_of s) k x) →
  normal W s (Fact a1 p1 l1) → normal W s (Fact a2 p2 l2) →
  ∃ N r e', eshkol_unify N (Fact a1 p1 l1) (Fact a2 p2 l2) s e = Some (r, e') ∧ interned_in W e' ∧ progress s r.
Proof.
  intros Hsm Hk Hg Hf He Wl1 Wl2 Dl N1 N2.
  assert (∃ F r e', (if tagged_values_equal (Fact a1 p1 l1) (Fact a2 p2 l2) then mret s
     else if negb (same_predicate p1 p2) then mret None
     else if negb (length l1 =? length l2)%nat then mret None
     else unify_args (eshkol_unify F) l1 l2 s) e = Some (r, e') ∧ interned_in W e' ∧ progress s r) as (F & r & e' & Hr & ? & ?).
  { destruct (tagged_values_equal _ _); [exists 0%nat, s, e; split_and!; [done|done|destruct s; simpl; auto]|].
    destruct (negb _); [by exists 0%nat, None, e|]. destruct (Nat.eqb_spec (length l1) (length l2)) as [Hl|Hl]; simpl.
    - eapply (args_total n m k); try done. lia.
    - by exists 0%nat, None, e. }
  exists (S F), r, e'. split_and!; [|done|done]. cbn [eshkol_unify].
  by rewrite (logic_bind_eq _ _ _ _ _ (walk_normal W e s _ N1)), (logic_bind_eq _ _ _ _ _ (walk_normal W e s _ N2)).
Qed.

Lemma smaller_step n m : smaller n m → ∀ x s, good s → within x → free_vars s = n →
  deep W (bindings_of s) m x → returns x s.
Proof.
  intros Hsm t1 s Hg H1 Hf Hd t2 e He H2.
  destruct (walk_within s e t1 He Hg H1) as (w1 & Hw1 & N1 & W1 & D1).
  destruct (walk_within s e t2 He Hg H2) as (w2 & Hw2 & N2 & W2 & _). apply D1 in Hd. clear D1.
  enough (∃ N r e', eshkol_unify N w1 w2 s e = Some (r, e') ∧ interned_in W e' ∧ progress s r) as (N & r & e' & Hr & ? & ?).
  { destruct N as [|N]; [done|]. exists (S N), r, e'. split_and!; [|done|done].
    by rewrite (unify_walked N t1 t2 w1 w2). }
  clear Hw1 Hw2 H1 H2 t1 t2.
  destruct (tagged_values_equal w1 w2) eqn:Eq.
  { exists 1%nat, s, e. split_and!; [|done|destruct s; simpl; auto]. cbn [eshkol_unify].
    by rewrite (logic_bind_eq _ _ _ _ _ (walk_normal W e s _ N1)), (logic_bind_eq _ _ _ _ _ (walk_normal W e s _ N2)), Eq. }
  destruct (is_var w1) eqn:V1.
  { destruct w1; try done.
    destruct (bind_total s e id w2 He Hg) as (r & e' & Hr & ? & ?);
      [apply W1; constructor|by apply N1|done|done|by eapply not_equal_vars|].
    exists 1%nat, r, e'. split_and!; [|done|done]. cbn [eshkol_unify].
    by rewrite (logic_bind_eq _ _ _ _ _ (walk_normal W e s _ N1)), (logic_bind_eq _ _ _ _ _ (walk_normal W e s _ N2)), Eq. }
  destruct (is_var w2) eqn:V2.
  { destruct w2; try done.
    destruct (bind_total s e id w1 He Hg) as (r & e' & Hr & ? & ?);
      [apply W2; constructor|by apply N2|done|done|by intros ->|].
    exists 1%nat, r, e'. split_and!; [|done|done]. cbn [eshkol_unify].
    rewrite (logic_bind_eq _ _ _ _ _ (walk_normal W e s _ N1)), (logic_bind_eq _ _ _ _ _ (walk_normal W e s _ N2)), Eq.
    by destruct w1 as [| | | | | |[]| | | | | | | | | | ]. }
  destruct (both_containers w1 w2) eqn:Ec.
  - pose proof (proj1 N1) as S1. pose proof (proj1 N2) as S2. destruct w1; try done; destruct w2; try done.
    + destruct legacy, legacy0; try done. apply deep_cons_inv in Hd as (k & -> & ? & ?).
      apply within_pair in W1 as [? ?]. apply within_pair in W2 as [? ?]. by eapply (pair_returns n (S k) k); [done|lia|..].
    + apply deep_fact_inv in Hd as (k & -> & ?). apply within_args in W1. apply within_args in W2.
      by eapply (facts_return n (S k) k); [done|lia|..].
  - exists 1%nat, None, e. split_and!; [|done|done].
    apply unify_fail; try done; [apply N1|apply N2|by apply (walk_normal W)..].
Qed.

Lemma smaller_all n : ∀ m, smaller n m.
Proof.
  induction n as [n IHn] using lt_wf_ind.
  assert (Hlow : ∀ x s, good s → within x → (free_vars s < n)%nat → returns x s).
  { intros x s Hg Hx Hf. apply (proj1 (IHn _ Hf (S (D * size V + D))) (D * size V + D)%nat); [lia|done|done|done|].
    by apply within_deep. }
  induction m as [|m IHm]; split; try done; intros k x s Hk Hg Hx Hf Hd; [lia|].
  apply (smaller_step n m); [done..|]. eapply deep_mono; [done|lia].
Qed.

Theorem unify_total s t1 t2 e : interned_in W e → good s → within t1 → within t2 →
  ∃ N r e', (∀ fuel, (N <= fuel)%nat → eshkol_unify fuel t1 t2 s e = Some (r, e')) ∧ progress s r.
Proof.
  intros He Hg H1 H2.
  destruct (proj1 (smaller_all (free_vars s) (S (D * size V + D))) _ t1 s (Nat.lt_succ_diag_r _) Hg H1 eq_refl
              (within_deep s t1 Hg H1) t2 e He H2)
    as (N & r & e' & Hr & _ & Hp).
  exists N, r, e'. split; [|done]. intros fuel Hfuel. by eapply unify_mono.
Qed.
End total.
