(* ===== verification/LogicProps.v ===== *)
(** * LogicProps: queries and datum lists, and the properties of the logic engine *)

From S2P Require Export UnifySpec KnowledgeBase.
Local Open Scope Z_scope.

(** * Queries, deep walking, interning and datum lists *)

(** ** Result lists *)

(** [prepended l tail r]: [r] is the list of the values [l], ending in [tail]. *)
Inductive prepended : list value → value → value → Prop :=
| prepended_nil tail : prepended [] tail tail
| prepended_cons a x l tail r : prepended l tail r → prepended (x :: l) tail (Cons false a x r).

Lemma prepended_snoc l a x tail r : prepended l (Cons false a x tail) r → prepended (l ++ [x]) tail r.
Proof.
  intros H. remember (Cons false a x tail) as t eqn:Et. induction H; subst; simpl.
  - apply prepended_cons, prepended_nil.
  - apply prepended_cons. auto.
Qed.

Section kb.
Context (W : world).

(** The answer to a pattern that one fact gives: a most general solution of the
    equations between the arguments, where the predicates and arities allow it. *)
Definition args_agree (pattern f : fact) (σ : Z → tree) : Prop :=
  map (inst W σ) (f_args pattern) = take (length (f_args pattern)) (map (inst W σ) (f_args f)).

Definition candidate (arity_ok : nat → nat → bool) (pattern f : fact) : bool :=
  predicates_compatible pattern f && arity_ok (length (f_args pattern)) (length (f_args f)).

Definition answer (arity_ok : nat → nat → bool) (base : substitution) (pattern f : fact) (o : option substitution) : Prop :=
  if candidate arity_ok pattern f then solves W (Some base) (args_agree pattern f) o else o = None.

Definition some_values (os : list (option substitution)) : list value := map subst_value (omap id os).

Lemma candidate_negb ok pattern f :
  negb (predicates_compatible pattern f) || negb (ok (length (f_args pattern)) (length (f_args f))) =
  negb (candidate ok pattern f).
Proof. unfold candidate. by rewrite negb_andb. Qed.

Context (V : gset Z) (D : nat).
Context (Hlimit : Z.of_nat ((size V + 1) * D) <= OCCURS_CHECK_MAX_DEPTH).
Context (ok : nat → nat → bool) (Hok : ∀ n m, ok n m = true → (n <= m)%nat).
Context (base : substitution) (Hbase : good W V D (Some base)).
Context (pattern : fact) (Hpattern : Forall (within W V D) (f_args pattern)).

Lemma within_symbolic l : Forall (within W V D) l → Forall (symbolic W) l.
Proof. rewrite !Forall_forall. intros H x Hx. by apply H. Qed.

Lemma args_total_top l s : good W V D s → Forall (within W V D) l → args_return W V D l s.
Proof.
  intros Hg Hl. pose proof (smaller_all W V D Hlimit (S (free_vars V s)) 0) as [_ H].
  eapply (args_low W V D Hlimit _ H); [done|done|]. lia.
Qed.

Lemma scan_total facts k : Forall (λ f, Forall (within W V D) (f_args f)) facts → (k <= length facts)%nat →
  ∀ acc e, interned_in W e →
  ∃ N res e' os, (∀ fuel, (N <= fuel)%nat → query_scan fuel ok facts pattern base k acc e = Some (res, e')) ∧
    prepended (some_values os) acc res ∧ Forall2 (answer ok base pattern) (take k facts) os.
Proof.
  intros Hfacts. induction k as [|k IH]; intros Hk acc e He.
  { exists 0%nat, acc, e, []. split_and!; [done|constructor|constructor]. }
  destruct (lookup_lt_is_Some_2 facts k ltac:(lia)) as [f Hf].
  pose proof (Forall_lookup_1 _ _ _ _ Hfacts Hf) as Hargs.
  assert (Hsnoc : ∀ os o, Forall2 (answer ok base pattern) (take k facts) os → answer ok base pattern f o →
                  Forall2 (answer ok base pattern) (take (S k) facts) (os ++ [o])).
  { intros os o Hos Ho. rewrite (take_S_r _ _ _ Hf). apply Forall2_app; [done|by constructor]. }
  destruct (candidate ok pattern f) eqn:Ec.
  - assert (Hlen : (length (f_args pattern) <= length (f_args f))%nat).
    { apply andb_prop in Ec as [_ Ec]. by apply Hok. }
    destruct (args_total_top (f_args pattern) (Some base) Hbase Hpattern (f_args f) e Hlen He Hargs)
      as (N1 & o & e1 & Ho & He1 & _).
    assert (Hans : answer ok base pattern f o).
    { unfold answer. rewrite Ec. eapply (unify_args_spec W _ (unify_spec W N1)); [exact Hlen|exact He|apply Hbase|..|exact Ho];
        by apply within_symbolic. }
    set (acc' := match o with Some s => Cons false (next_addr e1) (subst_value s) acc | None => acc end).
    set (e2 := match o with Some s => Engine (var_names e1) (var_pool_offset e1) (pred_table e1)
                 (pred_pool_offset e1) (next_addr e1 + 1) (kbs e1) | None => e1 end).
    destruct (IH ltac:(lia) acc' e2) as (N2 & res & e' & os & Hrun & Hpre & Hos); [by destruct o|].
    exists (max N1 N2), res, e', (os ++ [o]). split_and!; [|..|by apply Hsnoc].
    + intros fuel Hfuel. cbn [query_scan]. rewrite Hf, candidate_negb, Ec. cbn [negb].
      erewrite logic_bind_eq; [|eapply unify_args_mono; [|exact Ho]; intros; eapply (unify_mono N1); [lia|done]].
      destruct o; apply Hrun; lia.
    + unfold some_values in *. rewrite omap_app, map_app. destruct o as [s|]; simpl.
      * by eapply prepended_snoc.
      * by rewrite app_nil_r.
  - destruct (IH ltac:(lia) acc e He) as (N2 & res & e' & os & Hrun & Hpre & Hos).
    exists N2, res, e', (os ++ [None]). split_and!; [|..|apply Hsnoc; [done|unfold answer; by rewrite Ec]].
    + intros fuel Hfuel. cbn [query_scan]. rewrite Hf, candidate_negb, Ec. cbn [negb]. by apply Hrun.
    + unfold some_values in *. rewrite omap_app, map_app. simpl. by rewrite app_nil_r.
Qed.
End kb.

(** ** Deep walking *)

Section deep_walk.
Context (W : world) (V : gset Z) (D : nat).
Context (Hlimit : Z.of_nat ((size V + 1) * D) <= OCCURS_CHECK_MAX_DEPTH).

(** No bound variable is left in argument position. *)
Inductive facts_resolved (s : option substitution) : value → Prop :=
| resolved_var id : eshkol_subst_lookup s id = None → facts_resolved s (LogicVar id)
| resolved_fact a p l : Forall (facts_resolved s) l → facts_resolved s (Fact a p l)
| resolved_other v : is_var v = false → (∀ a p l, v ≠ Fact a p l) → facts_resolved s v.

Lemma mapM_spec {A C} (f : A → logic C) (P : A → C → Prop) l : ∀ e,
  interned_in W e →
  (∀ x e, x ∈ l → interned_in W e → ∃ y e', f x e = Some (y, e') ∧ interned_in W e' ∧ P x y) →
  ∃ l' e', mapM f l e = Some (l', e') ∧ interned_in W e' ∧ Forall2 P l l'.
Proof.
  induction l as [|x l IH]; intros e He Hf; simpl; [by exists [], e|].
  destruct (Hf x e) as (y & e1 & Hy & He1 & HP); [left|done|].
  rewrite (logic_bind_eq _ _ _ _ _ Hy).
  destruct (IH e1 He1) as (l' & e2 & Hl & He2 & HF); [intros; apply Hf; [by right|done]|].
  rewrite (logic_bind_eq _ _ _ _ _ Hl). exists (y :: l'), e2. by split_and!; [| |constructor].
Qed.

Lemma walk_deep_impl_spec s : good W V D s → ∀ n v m e, (m < n)%nat → interned_in W e → within W V D v →
  deep W (bindings_of s) m v →
  ∃ w e', walk_deep_impl n v s e = Some (w, e') ∧ interned_in W e' ∧
    facts_resolved s w ∧ ∀ σ, sat W σ s → inst W σ w = inst W σ v.
Proof.
  intros Hg n. induction n as [|n IH]; intros v m e Hm He Hv Hd; [lia|]. simpl.
  destruct (walk_within W V D s e v He Hg Hv) as (w & Hw & Nw & Ww & Dw). apply Dw in Hd.
  rewrite (logic_bind_eq _ _ _ _ _ Hw).
  apply (walk_spec W) in Hw as (_ & _ & Hi); [|done|apply Hg|apply Hv].
  assert (Hleaf : is_var w = false → (∀ a p l, w ≠ Fact a p l) →
    ∃ w0 e', (mret w : logic value) e = Some (w0, e') ∧ interned_in W e' ∧ facts_resolved s w0 ∧
      ∀ σ, sat W σ s → inst W σ w0 = inst W σ v).
  { intros. exists w, e. split_and!; [done|done|by apply resolved_other|]. intros; symmetry; auto. }
  destruct w as [| | | |id| | | | | | | | |a p l| | | ]; try (by apply Hleaf).
  - exists (LogicVar id), e. split_and!; [done|done|constructor; by apply Nw|]. intros; symmetry; auto.
  - clear Hleaf. apply deep_fact_inv in Hd as (m' & -> & Hd). apply within_args in Ww. rewrite Forall_forall in Ww.
    set (e0 := Engine (var_names e) (var_pool_offset e) (pred_table e) (pred_pool_offset e) (next_addr e + 1) (kbs e)).
    rewrite (logic_bind_eq alloc _ e (next_addr e) e0) by done.
    destruct (mapM_spec (λ x, walk_deep_impl n x s)
      (λ x y, facts_resolved s y ∧ ∀ σ, sat W σ s → inst W σ y = inst W σ x) l e0) as (l' & e' & Hl & He' & HF).
    { done. }
    { intros x e1 Hx He1. apply (IH x m' e1); [lia|done|auto|auto]. }
    rewrite (logic_bind_eq _ _ _ _ _ Hl). exists (Fact (next_addr e) p l'), e'. split_and!; [done|done|..].
    + constructor. clear - HF. induction HF as [|x y l l' [? ?] HF IH]; constructor; auto.
    + intros σ Hσ. rewrite Hi by done. simpl. f_equal. clear - HF Hσ.
      induction HF as [|x y l l' [? Hxy] HF IH]; simpl; [done|]. by rewrite Hxy, IH.
Qed.

Lemma walk_deep_levels_enough : (occurs_levels <= walk_deep_levels)%nat.
Proof. unfold occurs_levels, walk_deep_levels, OCCURS_CHECK_MAX_DEPTH, WALK_DEEP_MAX_DEPTH. lia. Qed.

Lemma walk_deep_spec s v e : good W V D s → interned_in W e → within W V D v →
  ∃ w e', eshkol_walk_deep v s e = Some (w, e') ∧ facts_resolved s w ∧
    ∀ σ, sat W σ s → inst W σ w = inst W σ v.
Proof.
  intros Hg He Hv.
  destruct (walk_deep_impl_spec s Hg walk_deep_levels v (D * size V + D) e) as (w & e' & H1 & _ & H2 & H3); try done.
  - pose proof (within_levels V D Hlimit). pose proof walk_deep_levels_enough. lia.
  - by apply (within_deep W V D).
  - by exists w, e'.
Qed.
End deep_walk.

(** * Variable and predicate names, datum lists, growing arrays *)

(** ** Strings *)

Lemma substring_all s : String.substring 0 (String.length s) s = s.
Proof. induction s as [|c s IH]; simpl; [done|]. by rewrite IH. Qed.

Lemma substring_length n s : (String.length (String.substring 0 n s) <= n)%nat.
Proof. revert s. induction n as [|n IH]; intros [|c s]; simpl; try lia. specialize (IH s). lia. Qed.

(** ** Logic variables *)

Record var_registry_ok (e : engine) : Prop := {
  vars_count : Z.of_nat (length (var_names e)) <= LOGIC_VAR_MAX;
  vars_pool : 0 <= var_pool_offset e <= 64 * Z.of_nat (length (var_names e));
  vars_short : Forall (λ s, strlen s <= 63) (var_names e)
}.

Lemma index_of_spec s l i : 0 <= i → i + Z.of_nat (length l) <= LOGIC_VAR_MAX →
  (∃ k, (k < length l)%nat ∧ l !! k = Some s ∧ index_of s l i = i + Z.of_nat k) ∨
  (s ∉ l ∧ index_of s l i = UINT64_MAX).
Proof.
  revert i. induction l as [|x l IH]; intros i Hi Hl; simpl.
  { right. split; [set_solver|done]. }
  simpl in Hl. destruct (String.eqb_spec x s) as [->|Hx].
  - left. exists 0%nat. split_and!; [lia|done|lia].
  - destruct (IH (i + 1)) as [(k & Hk & Hs & Ht)|[Hn Ht]]; [lia|lia| |].
    + left. exists (S k). split_and!; [lia|done|lia].
    + right. split; [set_solver|done].
Qed.

Lemma find_spec e s : var_registry_ok e →
  (∃ k, (k < length (var_names e))%nat ∧ var_names e !! k = Some s ∧ find_var_by_name e s = Z.of_nat k) ∨
  (s ∉ var_names e ∧ find_var_by_name e s = UINT64_MAX).
Proof. intros [H _ _]. unfold find_var_by_name. apply (index_of_spec s (var_names e) 0); lia. Qed.

Lemma index_of_app s l l' i : s ∈ l → index_of s (l ++ l') i = index_of s l i.
Proof.
  revert i. induction l as [|x l IH]; intros i H; [set_solver|]. simpl.
  destruct (String.eqb_spec x s); [done|]. apply IH. set_solver.
Qed.

Lemma index_of_new s l i : s ∉ l → index_of s (l ++ [s]) i = i + Z.of_nat (length l).
Proof.
  revert i. induction l as [|x l IH]; intros i H; simpl; [rewrite String.eqb_refl; lia|].
  destruct (String.eqb_spec x s); [set_solver|]. rewrite IH by set_solver. lia.
Qed.

Lemma make_logic_var_old e s k : var_registry_ok e → find_var_by_name e s = Z.of_nat k → (k < length (var_names e))%nat →
  eshkol_make_logic_var s e = Some (Z.of_nat k, e).
Proof.
  intros [Hc _ _] Hf Hk. unfold eshkol_make_logic_var, mbind, logic_bind, get_engine. rewrite Hf.
  unfold LOGIC_VAR_MAX, UINT64_MAX in *. by destruct (Z.eqb_spec (Z.of_nat k) (2 ^ 64 - 1)); [lia|].
Qed.

(** Registering a name that fits a pool slot. *)
Lemma make_logic_var_new e s : var_registry_ok e → find_var_by_name e s = UINT64_MAX →
  Z.of_nat (length (var_names e)) < LOGIC_VAR_MAX →
  ∃ e', eshkol_make_logic_var s e = Some (Z.of_nat (length (var_names e)), e') ∧
    var_names e' = var_names e ++ [String.substring 0 (Z.to_nat (Z.min 63 (strlen s))) s] ∧ var_registry_ok e'.
Proof.
  intros [H1 H2 H3] Hf Hroom. unfold eshkol_make_logic_var, mbind, logic_bind, get_engine. rewrite Hf, Z.eqb_refl.
  cbn [negb]. destruct (Z.leb_spec LOGIC_VAR_MAX (Z.of_nat (length (var_names e)))); [lia|].
  unfold intern_var_name. assert (0 <= strlen s) by (unfold strlen; lia).
  replace (if 63 <=? strlen s then 63 else strlen s) with (Z.min 63 (strlen s)) by (destruct (Z.leb_spec 63 (strlen s)); lia).
  destruct (Z.ltb_spec VAR_POOL_SIZE (var_pool_offset e + (Z.min 63 (strlen s) + 1))).
  { unfold VAR_POOL_SIZE in *. lia. }
  eexists. split; [reflexivity|]. split; [reflexivity|]. constructor; simpl; rewrite ?length_app; simpl.
  - lia.
  - lia.
  - apply Forall_app. split; [done|]. constructor; [|done].
    pose proof (substring_length (Z.to_nat (Z.min 63 (strlen s))) s). unfold strlen at 1. lia.
Qed.

Lemma make_logic_var_spec e s : var_registry_ok e → strlen s <= 63 →
  Z.of_nat (length (var_names e)) < LOGIC_VAR_MAX →
  ∃ id e', eshkol_make_logic_var s e = Some (id, e') ∧ var_registry_ok e' ∧
    eshkol_logic_var_name e' id = Some s ∧ find_var_by_name e' s = id ∧ id ≠ UINT64_MAX ∧
    (∀ s', s' ∈ var_names e → find_var_by_name e' s' = find_var_by_name e s').
Proof.
  intros Hok Hs Hroom. pose proof (vars_count e Hok) as Hc.
  assert (Hname : ∀ e k, var_names e !! k = Some s → eshkol_logic_var_name e (Z.of_nat k) = Some s).
  { intros e0 k Hk. unfold eshkol_logic_var_name. pose proof (lookup_lt_Some _ _ _ Hk).
    destruct (Z.leb_spec (Z.of_nat (length (var_names e0))) (Z.of_nat k)); [lia|]. by rewrite Nat2Z.id. }
  destruct (find_spec e s Hok) as [(k & Hk & Hl & Hf)|[Hn Hf]].
  - exists (Z.of_nat k), e. split_and!; [by apply make_logic_var_old|done|by apply Hname|done| |done].
    unfold LOGIC_VAR_MAX, UINT64_MAX in *. lia.
  - destruct (make_logic_var_new e s Hok Hf Hroom) as (e' & Hm & Hv & Hok').
    assert (Hsub : String.substring 0 (Z.to_nat (Z.min 63 (strlen s))) s = s).
    { replace (Z.to_nat (Z.min 63 (strlen s))) with (String.length s) by (unfold strlen in *; lia). apply substring_all. }
    rewrite Hsub in Hv.
    exists (Z.of_nat (length (var_names e))), e'. split_and!; [done|done|..].
    + apply Hname. rewrite Hv. by rewrite lookup_app_r, Nat.sub_diag.
    + unfold find_var_by_name. rewrite Hv, index_of_new by done. lia.
    + unfold LOGIC_VAR_MAX, UINT64_MAX in *. lia.
    + intros s' Hs'. unfold find_var_by_name. rewrite Hv. by apply index_of_app.
Qed.

(** Distinct names have distinct variables. *)
Lemma make_logic_var_distinct e s s' id id' e' : var_registry_ok e → eshkol_logic_var_name e id = Some s →
  s' ≠ s → eshkol_make_logic_var s' e = Some (id', e') → id' ≠ id.
Proof.
  intros Hok Hn Hne Hm ->. unfold eshkol_logic_var_name in Hn.
  destruct (Z.leb_spec (Z.of_nat (length (var_names e))) id); [done|].
  unfold eshkol_make_logic_var, mbind, logic_bind, get_engine in Hm.
  pose proof (vars_count e Hok). unfold LOGIC_VAR_MAX, UINT64_MAX in *.
  destruct (find_spec e s' Hok) as [(k & Hk & Hl & Hf)|[_ Hf]]; rewrite Hf in Hm.
  - destruct (Z.eqb_spec (Z.of_nat k) (2 ^ 64 - 1)); simpl in Hm; [lia|]. lret Hm.
    rewrite Nat2Z.id in Hn. congruence.
  - unfold UINT64_MAX in Hm. rewrite Z.eqb_refl in Hm. simpl in Hm. destruct (_ <=? _).
    + lret Hm. lia.
    + destruct (intern_var_name _ _). unfold set_vars in Hm. injection Hm. lia.
Qed.

(** ** Predicates *)

Record pred_table_ok (e : engine) : Prop := {
  preds_texts : NoDup (map p_text (pred_table e));
  preds_pool : Forall (λ p, ∃ o, p_ptr p = PoolPtr o ∧ o < pred_pool_offset e) (pred_table e);
  preds_ptrs : NoDup (map p_ptr (pred_table e))
}.

Lemma find_text s (l : list pred_name) :
  match List.find (λ p, String.eqb (p_text p) s) l with
  | Some p => p ∈ l ∧ p_text p = s
  | None => s ∉ map p_text l
  end.
Proof.
  induction l as [|p l IH]; simpl; [set_solver|].
  destruct (String.eqb_spec (p_text p) s) as [<-|Hn]; [split; [left|done]|].
  destruct (List.find _ l); [destruct IH; split; [by right|done]|]. set_solver.
Qed.

Lemma NoDup_map_inj {A C} (f : A → C) l x y : NoDup (map f l) → x ∈ l → y ∈ l → f x = f y → x = y.
Proof.
  induction l as [|z l IH]; intros Hn Hx Hy Hf; [set_solver|]. inversion Hn as [|? ? Hz Hn']; subst.
  assert (∀ u, u ∈ l → f u ∈ map f l) as Hin by (intros; by apply list_elem_of_fmap_2).
  apply elem_of_cons in Hx as [->|Hx]; apply elem_of_cons in Hy as [->|Hy]; auto.
  - exfalso. apply Hz. rewrite Hf. auto.
  - exfalso. apply Hz. rewrite <- Hf. auto.
Qed.

Lemma find_unique s p l : NoDup (map p_text l) → p ∈ l → p_text p = s →
  List.find (λ p, String.eqb (p_text p) s) l = Some p.
Proof.
  intros Hn Hp Hs. pose proof (find_text s l) as Hf. destruct (List.find _ l) as [q|].
  - destruct Hf as [Hq Ht]. f_equal. apply (NoDup_map_inj p_text l); [done|done|done|congruence].
  - exfalso. apply Hf. subst. by apply list_elem_of_fmap_2.
Qed.

Lemma intern_text s a e p e' : eshkol_intern_predicate s a e = Some (p, e') → p_text p = s ∧ var_names e' = var_names e.
Proof.
  unfold eshkol_intern_predicate, mbind, logic_bind, get_engine. pose proof (find_text s (pred_table e)) as Hf.
  destruct (List.find _ _).
  - intros H. lret H. by destruct Hf.
  - destruct (_ <=? _); [intros H; by lret H|]. destruct (_ <? _); [intros H; by lret H|].
    unfold set_preds. intros [= <- <-]. done.
Qed.

(** While the tables have room, interned pointers are equal exactly when the texts are. *)
Lemma intern_predicate_spec s a e : pred_table_ok e →
  Z.of_nat (length (pred_table e)) < PRED_TABLE_SIZE → pred_pool_offset e + strlen s + 1 <= PRED_POOL_SIZE →
  ∃ p e', eshkol_intern_predicate s a e = Some (p, e') ∧ pred_table_ok e' ∧ p ∈ pred_table e' ∧
    (∀ a', eshkol_intern_predicate s a' e' = Some (p, e')) ∧ (∀ q, q ∈ pred_table e → q ∈ pred_table e').
Proof.
  intros [H1 H2 H3] Hroom Hpool.
  assert (Hagain : ∀ e' p, NoDup (map p_text (pred_table e')) → p ∈ pred_table e' → p_text p = s →
            ∀ a', eshkol_intern_predicate s a' e' = Some (p, e')).
  { intros e' p Hn Hp Hs a'. unfold eshkol_intern_predicate, mbind, logic_bind, get_engine. by rewrite (find_unique s p). }
  pose proof (find_text s (pred_table e)) as Hf.
  destruct (List.find _ _) as [p|] eqn:Ef.
  - destruct Hf as [Hp Hs]. exists p, e. split_and!; [by apply Hagain|by constructor|done|by apply Hagain|done].
  - set (p := Predicate (PoolPtr (pred_pool_offset e)) s).
    set (e' := Engine (var_names e) (var_pool_offset e) (pred_table e ++ [p]) (pred_pool_offset e + (strlen s + 1)) (next_addr e) (kbs e)).
    assert (Hok : pred_table_ok e').
    { assert (0 <= strlen s) by (unfold strlen; lia). constructor; simpl.
      - rewrite map_app. apply NoDup_app. split_and!; [done| |by apply NoDup_singleton].
        simpl. set_solver.
      - apply Forall_app. split; [|constructor; [|done]; eexists; split; [done|lia]].
        eapply Forall_impl; [exact H2|]. intros q (o & Ho & ?). exists o. split; [done|lia].
      - rewrite map_app. apply NoDup_app. split_and!; [done| |by apply NoDup_singleton].
        intros x (q & -> & Hq)%list_elem_of_fmap. rewrite Forall_forall in H2.
        destruct (H2 q Hq) as (o & -> & ?). simpl. intros Hx%list_elem_of_singleton. simplify_eq. lia. }
    exists p, e'. split_and!; [|done|simpl; set_solver|apply Hagain; [apply Hok|simpl; set_solver|done]|simpl; set_solver].
    unfold eshkol_intern_predicate, mbind, logic_bind, get_engine. rewrite Ef.
    destruct (Z.leb_spec PRED_TABLE_SIZE (Z.of_nat (length (pred_table e)))); [lia|].
    destruct (Z.ltb_spec PRED_POOL_SIZE (pred_pool_offset e + (strlen s + 1))); [lia|]. done.
Qed.

(** ** Datum lists *)

Inductive list_value : list value → value → Prop :=
| list_value_nil : list_value [] vnull
| list_value_cons legacy a x l d : list_value l d → list_value (x :: l) (Cons legacy a x d).

Lemma datum_items_list l v : list_value l v → ∀ n, 0 <= n →
  datum_items n v = if n + Z.of_nat (length l) <=? 4096 then Some l else if (length l =? 0)%nat then Some [] else None.
Proof.
  induction 1 as [|legacy a x l d _ IH]; intros n Hn.
  - simpl. by destruct (_ <=? _).
  - cbn [datum_items length]. rewrite (IH (n + 1)) by lia.
    destruct (Z.ltb_spec 4096 (n + 1)), (Z.leb_spec (n + Z.of_nat (S (length l))) 4096),
      (Z.leb_spec (n + 1 + Z.of_nat (length l)) 4096); try lia; simpl; try done.
    destruct (Nat.eqb_spec (length l) 0); [lia|done].
Qed.

Section datum.
Context (W : world).

Lemma canonicalize_args l e : interned_in W e → Forall (symbolic W) l →
  ∃ l', mapM fact_arg_from_datum l e = Some (l', e) ∧
    Forall2 (λ x y, canonical_top y ∧ ∀ σ, inst W σ y = inst W σ x) l l'.
Proof.
  intros He. induction 1 as [|x l Hx _ (l' & Hl & HF)]; simpl; [by exists []|].
  destruct (canonicalize_spec W e x He Hx) as (c & Hc & _ & Ct & Ci).
  unfold fact_arg_from_datum at 1. rewrite (logic_bind_eq _ _ _ _ _ Hc), (logic_bind_eq _ _ _ _ _ Hl).
  exists (c :: l'). split; [done|]. by constructor.
Qed.

(** The predicate and the arguments a non-empty list of elements stands for. *)
Definition datum_head (items : list value) : option string * list value :=
  match items with
  | car :: rest => match head_text car with Some (text, _) => (Some text, rest) | None => (None, items) end
  | [] => (None, [])
  end.

Lemma split_head_spec items e : interned_in W e →
  ∃ p e', split_head items e = Some ((p, (datum_head items).2), e') ∧ pred_text p = (datum_head items).1 ∧ interned_in W e'.
Proof.
  intros He. destruct items as [|car rest]; [by exists None, e|]. simpl.
  destruct (head_text car) as [[text addr]|]; [|by exists None, e].
  destruct (eshkol_intern_predicate text addr e) as [[p e']|] eqn:Ep.
  - rewrite (logic_bind_eq _ _ _ _ _ Ep). apply intern_text in Ep as [Ht Hv].
    exists (Some p), e'. split_and!; [done|by simpl; rewrite Ht|unfold interned_in in *; congruence].
  - exfalso. revert Ep. unfold eshkol_intern_predicate, mbind, logic_bind, get_engine.
    destruct (List.find _ _); [done|]. destruct (_ <=? _); [done|]. by destruct (_ <? _).
Qed.

Lemma fact_from_list items v e : list_value items v → items ≠ [] → Z.of_nat (length items) <= 4096 →
  Forall (symbolic W) items → interned_in W e →
  ∃ f e', fact_from_datum v e = Some (Some f, e') ∧ pred_text (f_pred f) = (datum_head items).1 ∧
    Forall2 (λ x y, canonical_top y ∧ ∀ σ, inst W σ y = inst W σ x) (datum_head items).2 (f_args f).
Proof.
  intros Hl Hne Hlen Hs He. unfold fact_from_datum.
  assert (is_cons_compat v = true) as -> by (inversion Hl; subst; done). simpl.
  rewrite (datum_items_list items v Hl 0) by lia. destruct (Z.leb_spec (0 + Z.of_nat (length items)) 4096); [|lia].
  destruct (split_head_spec items e He) as (p & e1 & Hp & Ht & He1). rewrite (logic_bind_eq _ _ _ _ _ Hp).
  set (e2 := Engine (var_names e1) (var_pool_offset e1) (pred_table e1) (pred_pool_offset e1) (next_addr e1 + 1) (kbs e1)).
  rewrite (logic_bind_eq alloc _ e1 (next_addr e1) e2) by done.
  assert (Hrest : Forall (symbolic W) (datum_head items).2).
  { destruct items as [|car rest]; [done|]. simpl. destruct (head_text car) as [[??]|]; [by inversion Hs|done]. }
  destruct (canonicalize_args _ e2 He1 Hrest) as (l' & Hl' & HF). rewrite (logic_bind_eq _ _ _ _ _ Hl').
  by eexists _, _.
Qed.

Lemma fact_from_long items v e : list_value items v → 4096 < Z.of_nat (length items) →
  fact_from_datum v e = Some (None, e).
Proof.
  intros Hl Hlen. unfold fact_from_datum.
  assert (is_cons_compat v = true) as -> by (inversion Hl; subst; simpl in *; done || lia). simpl.
  rewrite (datum_items_list items v Hl 0) by lia. destruct (Z.leb_spec (0 + Z.of_nat (length items)) 4096); [lia|].
  destruct (Nat.eqb_spec (length items) 0); [lia|done].
Qed.
End datum.

(** * The properties of the logic engine

    Unification, queries, deep walking, interning, datum lists and growth, then
    the places where the engine departs from what its comments promise. *)

(** ** A small world for the witnesses: [?x] and [?y] are variables 0 and 1 *)

Definition empty_engine : engine := Engine ["?x"; "?y"]%string 6 [] 0 100 ∅.
Definition sample_pair (a : Z) (x y : value) : value := Cons false a x y.
Definition sample_objects (a : Z) : value :=
  if a =? 1 then Cons false 1 (LogicVar 0) (Int64 2) else if a =? 2 then Cons false 2 (Int64 1) (LogicVar 1) else vnull.
Definition sample_world : world := World sample_objects (λ _, EmptyString) ["?x"; "?y"]%string.
Definition pair1 : value := sample_objects 1.
Definition pair2 : value := sample_objects 2.
Definition no_bindings : substitution := MkSubst 50 8 [].

Lemma sample_symbolic : symbolic sample_world pair1 ∧ symbolic sample_world pair2.
Proof. repeat split; done. Qed.

Lemma sample_subst_ok : subst_ok sample_world (Some no_bindings).
Proof. by intros ? ?. Qed.

Lemma sample_within : within sample_world {[0; 1]} 1 pair1 ∧ within sample_world {[0; 1]} 1 pair2.
Proof.
  split; (split_and!; [apply sample_symbolic| |simpl; lia]); intros j Hj; unfold pair1, pair2, sample_objects in Hj;
    simpl in Hj; inversion Hj as [| |? ? ? ? H|? ? ? ? H|]; subst; inversion H; subst; set_solver.
Qed.

Lemma sample_good : good sample_world {[0; 1]} 1 (Some no_bindings).
Proof. split; [apply sample_subst_ok|by intros ? ?|by intros ? ?]. Qed.

Lemma sample_limit : Z.of_nat ((size ({[0; 1]} : gset Z) + 1) * 1) <= OCCURS_CHECK_MAX_DEPTH.
Proof. by vm_compute. Qed.

(** ** Unification *)

(** C9: unification of symbolic terms is sound, complete and most general.  If
    [eshkol_unify] returns a substitution, its solutions are exactly the solutions
    of the one it was given that make the two terms denote the same tree, and the
    old bindings are a prefix of the new; if it returns NULL, the terms have no
    common instance under the given bindings. *)
Theorem unify_most_general W fuel t1 t2 s e r e' : interned_in W e → subst_ok W (Some s) →
  symbolic W t1 → symbolic W t2 → eshkol_unify fuel t1 t2 (Some s) e = Some (r, e') →
  match r with
  | Some s' => subst_ok W r ∧ (∃ l, s_bindings s' = s_bindings s ++ l) ∧
               ∀ σ, sat W σ r ↔ sat W σ (Some s) ∧ inst W σ t1 = inst W σ t2
  | None => ∀ σ, sat W σ (Some s) → inst W σ t1 ≠ inst W σ t2
  end.
Proof.
  intros He Hs H1 H2 H. apply (unify_spec W fuel) in H as [_ H]; [|done..]. by destruct r.
Qed.

Lemma unify_most_general_witness :
  let run := eshkol_unify 5 pair1 pair2 (Some no_bindings) empty_engine in
  ∃ s' e', run = Some (Some s', e') ∧ s_bindings s' = [(0, Int64 1); (1, Int64 2)] ∧
  ∀ σ, sat sample_world σ (Some s') ↔
    sat sample_world σ (Some no_bindings) ∧ inst sample_world σ pair1 = inst sample_world σ pair2.
Proof.
  eexists _, _. split; [reflexivity|]. split; [reflexivity|].
  exact (proj2 (proj2 (unify_most_general sample_world 5 pair1 pair2 no_bindings empty_engine _ _ eq_refl
    sample_subst_ok (proj1 sample_symbolic) (proj2 sample_symbolic) eq_refl))).
Defined.

(** C18: unification returns.  Over a finite set [V] of variables and terms nested
    at most [D] deep, with [(|V| + 1) * D] within the depth the occurs check looks
    at, [eshkol_unify] applied to an acyclic substitution returns, whatever the
    fuel beyond some bound, and the substitution it returns is acyclic again. *)
Theorem unify_returns W V D s t1 t2 e : Z.of_nat ((size V + 1) * D) <= OCCURS_CHECK_MAX_DEPTH →
  interned_in W e → good W V D (Some s) → within W V D t1 → within W V D t2 →
  ∃ N r e', (∀ fuel, (N <= fuel)%nat → eshkol_unify fuel t1 t2 (Some s) e = Some (r, e')) ∧
    match r with Some s' => good W V D (Some s') | None => True end.
Proof.
  intros HD He Hg H1 H2. destruct (unify_total W V D HD (Some s) t1 t2 e He Hg H1 H2) as (N & r & e' & Hr & Hp).
  exists N, r, e'. split; [done|]. destruct r; [apply Hp|done].
Qed.

Lemma unify_returns_witness :
  ∃ N r e', (∀ fuel, (N <= fuel)%nat → eshkol_unify fuel pair1 pair2 (Some no_bindings) empty_engine = Some (r, e')) ∧
    match r with Some s' => good sample_world {[0; 1]} 1 (Some s') | None => True end.
Proof.
  exact (unify_returns sample_world {[0; 1]} 1 no_bindings pair1 pair2 empty_engine sample_limit eq_refl sample_good
    (proj1 sample_within) (proj2 sample_within)).
Defined.

(** C34: a query returns, and its result is the list, in insertion order, of one
    most general solution per fact whose predicate and arity fit the pattern and
    whose arguments have a common instance with the pattern's; every other fact
    contributes nothing.  [ok] is the arity test: equality for [eshkol_kb_query],
    at most for [eshkol_kb_query_prefix]. *)
Theorem kb_query_answers W V D k pattern base e : Z.of_nat ((size V + 1) * D) <= OCCURS_CHECK_MAX_DEPTH →
  interned_in W e → good W V D (Some base) → Forall (within W V D) (f_args pattern) →
  Forall (λ f, Forall (within W V D) (f_args f)) (kb_facts k) →
  (∃ N res e' os, (∀ fuel, (N <= fuel)%nat → eshkol_kb_query fuel k pattern (Some base) e = Some (res, e')) ∧
    prepended (some_values os) vnull res ∧ Forall2 (answer W Nat.eqb base pattern) (kb_facts k) os) ∧
  (∃ N res e' os, (∀ fuel, (N <= fuel)%nat → eshkol_kb_query_prefix fuel k pattern (Some base) e = Some (res, e')) ∧
    prepended (some_values os) vnull res ∧ Forall2 (answer W Nat.leb base pattern) (kb_facts k) os).
Proof.
  intros HD He Hg Hp Hf. split.
  - destruct (scan_total W V D HD Nat.eqb (λ n m H, ltac:(apply Nat.eqb_eq in H; lia)) base Hg pattern Hp
      (kb_facts k) (length (kb_facts k)) Hf (le_n _) vnull e He) as (N & res & e' & os & Hr & H1 & H2).
    rewrite take_ge in H2 by done. by exists N, res, e', os.
  - destruct (scan_total W V D HD Nat.leb (λ n m H, ltac:(apply Nat.leb_le in H; lia)) base Hg pattern Hp
      (kb_facts k) (length (kb_facts k)) Hf (le_n _) vnull e He) as (N & res & e' & os & Hr & H1 & H2).
    rewrite take_ge in H2 by done. by exists N, res, e', os.
Qed.

Definition sample_kb : knowledge_base := MkKb 16 [MkFact 60 None [pair2]; MkFact 61 None []].

Lemma sample_args_within : Forall (within sample_world {[0; 1]} 1) [pair1] ∧
  Forall (λ f, Forall (within sample_world {[0; 1]} 1) (f_args f)) (kb_facts sample_kb).
Proof.
  destruct sample_within. split; [by constructor; [|constructor]|].
  constructor; [by constructor; [|constructor]|]. constructor; constructor.
Qed.

Lemma kb_query_answers_witness :
  ∃ N res e' os, (∀ fuel, (N <= fuel)%nat →
    eshkol_kb_query fuel sample_kb (MkFact 62 None [pair1]) (Some no_bindings) empty_engine = Some (res, e')) ∧
    prepended (some_values os) vnull res ∧
    Forall2 (answer sample_world Nat.eqb no_bindings (MkFact 62 None [pair1])) (kb_facts sample_kb) os.
Proof.
  exact (proj1 (kb_query_answers sample_world {[0; 1]} 1 sample_kb (MkFact 62 None [pair1]) no_bindings empty_engine
    sample_limit eq_refl sample_good (proj1 sample_args_within) (proj2 sample_args_within))).
Defined.

(** Deep walking returns a term with the same instances in which no variable
    that is itself the term or an argument of a fact of it is still bound. *)
Theorem walk_deep_resolves W V D s v e : Z.of_nat ((size V + 1) * D) <= OCCURS_CHECK_MAX_DEPTH →
  good W V D s → interned_in W e → within W V D v →
  ∃ w e', eshkol_walk_deep v s e = Some (w, e') ∧ facts_resolved s w ∧
    ∀ σ, sat W σ s → inst W σ w = inst W σ v.
Proof. intros HD. by apply walk_deep_spec. Qed.


(** ** Equality *)

(** Lists of exact numbers, strings, symbols, booleans and characters: symbolic
    values without variables and facts. *)
Fixpoint plain_data (v : value) : Prop :=
  match v with
  | LogicVar _ | Fact _ _ _ => False
  | Sym _ s => is_logic_name s = false
  | Cons _ _ a d => plain_data a ∧ plain_data d
  | _ => True
  end.

Lemma equal_complete W σ : ∀ v1 v2, symbolic W v1 → symbolic W v2 → plain_data v1 → plain_data v2 →
  inst W σ v1 = inst W σ v2 → eshkol_deep_equal v1 v2 = true.
Proof.
  assert (Hatom : ∀ v1 v2, symbolic W v1 → symbolic W v2 → plain_data v1 → plain_data v2 →
    both_containers v1 v2 = false → inst W σ v1 = inst W σ v2 → eshkol_deep_equal v1 v2 = true).
  { intros v1 v2 S1 S2 P1 P2 Hc Hi. destruct (eshkol_deep_equal v1 v2) eqn:E; [done|].
    exfalso. by eapply (clash W σ v1 v2); try done; [destruct v1|destruct v2|destruct v1|destruct v2]. }
  induction v1 as [| | | | | |l1 a1 x1 y1 IHx IHy| | | | | | |a1 p1 args1 _| | | ] using value_nested_ind;
    intros v2 S1 S2 P1 P2 Hi; try (by apply Hatom); try done.
  destruct v2 as [| | | | | |l2 a2 x2 y2| | | | | | | | | | ]; try (by apply Hatom).
  destruct l1, l2; try done. simpl in *. destruct_and?. simplify_eq. rewrite IHx by done. auto.
Qed.

(** On exact data [equal?] is equality of the denoted trees: two lists of exact
    numbers, strings, symbols, booleans and characters are [equal?] exactly when
    they have the same structure and their leaves the same value, wherever they
    are stored. *)
Theorem equal_decides_data W v1 v2 : symbolic W v1 → symbolic W v2 → plain_data v1 → plain_data v2 →
  eshkol_deep_equal v1 v2 = true ↔ ∀ σ, inst W σ v1 = inst W σ v2.
Proof.
  intros S1 S2 P1 P2. split.
  - intros H σ. by apply deep_equal_sound.
  - intros H. apply (equal_complete W (λ _, TInt 0)); auto.
Qed.

Definition data_objects (a : Z) : value :=
  if a =? 1 then Cons false 1 (Int64 2) vnull else if a =? 2 then Cons false 2 (Int64 2) vnull else vnull.


(** ** Interning *)

(** A variable name of at most 63 characters is interned: it gets an id from
    which the name can be read back, asking again gives the same id and changes
    nothing, ids given before stay, and no other name gets the id. *)
Theorem logic_var_interning e s : var_registry_ok e → strlen s <= 63 →
  Z.of_nat (length (var_names e)) < LOGIC_VAR_MAX →
  ∃ id e', eshkol_make_logic_var s e = Some (id, e') ∧ var_registry_ok e' ∧
    eshkol_logic_var_name e' id = Some s ∧ eshkol_make_logic_var s e' = Some (id, e') ∧
    (∀ s', s' ∈ var_names e → find_var_by_name e' s' = find_var_by_name e s') ∧
    (∀ s' id' e'', s' ≠ s → eshkol_make_logic_var s' e' = Some (id', e'') → id' ≠ id).
Proof.
  intros Hok Hs Hroom. destruct (make_logic_var_spec e s Hok Hs Hroom) as (id & e' & Hm & Hok' & Hn & Hf & Hne & Hold).
  exists id, e'. split_and!; [done|done|done| |done|].
  - destruct (find_spec e' s Hok') as [(k & Hk & _ & Hk')|[_ ?]]; [|congruence].
    rewrite Hk' in Hf. subst id. by apply make_logic_var_old.
  - intros s' id' e'' Hne' Hm'. by eapply make_logic_var_distinct.
Qed.


(** While the predicate table has room, interning a text twice gives the same
    pointer, earlier pointers stay, and two interned pointers are equal exactly
    when their texts are: the pointer comparison of queries decides equality. *)
Theorem predicate_interning s a e : pred_table_ok e →
  Z.of_nat (length (pred_table e)) < PRED_TABLE_SIZE → pred_pool_offset e + strlen s + 1 <= PRED_POOL_SIZE →
  ∃ p e', eshkol_intern_predicate s a e = Some (p, e') ∧ pred_table_ok e' ∧ p_text p = s ∧
    (∀ a', eshkol_intern_predicate s a' e' = Some (p, e')) ∧
    (∀ q, q ∈ pred_table e → q ∈ pred_table e') ∧
    (∀ q q', q ∈ pred_table e' → q' ∈ pred_table e' → p_ptr q = p_ptr q' ↔ p_text q = p_text q').
Proof.
  intros Hok H1 H2. destruct (intern_predicate_spec s a e Hok H1 H2) as (p & e' & Hi & Hok' & Hp & Hagain & Hold).
  exists p, e'. split_and!; [done|done|by eapply intern_text|done|done|].
  intros q q' Hq Hq'. split; intros He; [f_equal|f_equal].
  - apply (NoDup_map_inj p_ptr (pred_table e')); auto. apply Hok'.
  - apply (NoDup_map_inj p_text (pred_table e')); auto. apply Hok'.
Qed.


(** A proper list of 1 to 4096 symbolic elements becomes a fact: a ground
    symbol or string head is its predicate and the rest its arguments, any other
    head leaves the predicate unset and every element is an argument; arguments
    denote what the elements did, with [?]-symbols turned into variables.  A
    longer list becomes no fact. *)
Theorem datum_becomes_fact W items v e : list_value items v → items ≠ [] → Forall (symbolic W) items → interned_in W e →
  if Z.of_nat (length items) <=? 4096
  then ∃ f e', fact_from_datum v e = Some (Some f, e') ∧ pred_text (f_pred f) = (datum_head items).1 ∧
         Forall2 (λ x y, canonical_top y ∧ ∀ σ, inst W σ y = inst W σ x) (datum_head items).2 (f_args f)
  else fact_from_datum v e = Some (None, e).
Proof.
  intros Hl Hne Hs He. destruct (Z.leb_spec (Z.of_nat (length items)) 4096).
  - by eapply fact_from_list.
  - by eapply fact_from_long.
Qed.


(** The arrays of a substitution and of a knowledge base always have room for
    their elements: extending and asserting append one element within the
    capacity of the result, and looking the new binding up finds it unless the
    variable was bound before. *)
Theorem growth_keeps_room s id term e k f :
  Z.of_nat (length (bindings_of s)) + 1 < 2 ^ 32 →
  Z.of_nat (length (kb_facts k)) <= kb_capacity k → 0 < kb_capacity k < 2 ^ 31 →
  (∃ s' e', eshkol_extend_subst s id term e = Some (s', e') ∧
    s_bindings s' = bindings_of s ++ [(id, term)] ∧ Z.of_nat (length (s_bindings s')) <= s_capacity s' ∧
    ∀ j, eshkol_subst_lookup (Some s') j =
         match eshkol_subst_lookup s j with Some t => Some t | None => if id =? j then Some term else None end) ∧
  kb_facts (eshkol_kb_assert k f) = kb_facts k ++ [f] ∧
  Z.of_nat (length (kb_facts (eshkol_kb_assert k f))) <= kb_capacity (eshkol_kb_assert k f).
Proof.
  intros Hs Hk Hc. split.
  - eexists _, _. split; [reflexivity|]. split; [reflexivity|]. split.
    + simpl. rewrite length_app. simpl. unfold extended_capacity. destruct s as [s|]; simpl in *.
      * rewrite (u32_id (Z.of_nat (length (s_bindings s)) + 1)) by lia.
        destruct (Z.leb_spec (Z.of_nat (length (s_bindings s)) + 1) (s_capacity s)); [lia|]. case_match; lia.
      * by vm_compute.
    + intros j. apply lookup_snoc.
  - split; [done|]. simpl. rewrite length_app. simpl. destruct (Z.leb_spec (kb_capacity k) (Z.of_nat (length (kb_facts k)))); [|lia].
    rewrite u32_id by lia. lia.
Qed.


(** ** Where the engine departs from its contract *)

(** A list of [n] cells around a term. *)
Fixpoint buried (n : nat) (t : value) : value :=
  match n with O => t | S n => Cons false 1 vnull (buried n t) end.

Lemma walk_plain e s v : is_var v = false → (∀ a str, v ≠ Sym a str) → eshkol_walk v s e = Some (v, e).
Proof.
  intros Hv Hs. unfold eshkol_walk.
  rewrite (logic_bind_eq _ _ e v e) by (destruct v as [| | | | | | | |a str| | | | | | | | ]; try done; by destruct (Hs a str)).
  destruct (length (bindings_of s)); by destruct v.
Qed.

Lemma occurs_leaf n id s e : occurs_impl n id vnull s e = Some (false, e).
Proof. destruct n; [done|]. cbn [occurs_impl]. by rewrite (logic_bind_eq _ _ _ _ _ (walk_plain e s vnull eq_refl ltac:(done))). Qed.

Lemma occurs_buried e s id n k : (n <= k)%nat → occurs_impl n id (buried k (LogicVar id)) s e = Some (false, e).
Proof.
  revert k. induction n as [|n IH]; intros [|k] Hk; try done; [lia|]. cbn [occurs_impl buried].
  rewrite (logic_bind_eq _ _ _ _ _ (walk_plain e s (Cons false 1 vnull (buried k (LogicVar id))) eq_refl ltac:(done))).
  rewrite (logic_bind_eq _ _ _ _ _ (occurs_leaf n id s e)). apply IH. lia.
Qed.

(** The occurs check does not see a variable behind more than 1000 cells.
    Unifying [?x] with a list that ends in [?x] after that many cells succeeds and
    returns a substitution that no valuation satisfies. *)
Theorem occurs_check_blind_beyond_limit W n e : OCCURS_CHECK_MAX_DEPTH < Z.of_nat n →
  ∃ s' e', eshkol_unify 1 (LogicVar 0) (buried n (LogicVar 0)) (Some no_bindings) e = Some (Some s', e') ∧
    ∀ σ, ¬ sat W σ (Some s').
Proof.
  intros Hn. destruct n as [|n]; [unfold OCCURS_CHECK_MAX_DEPTH in *; lia|].
  set (t := buried (S n) (LogicVar 0)).
  eexists _, _. split.
  - cbn [eshkol_unify]. rewrite (logic_bind_eq _ _ e (LogicVar 0) e) by done.
    rewrite (logic_bind_eq _ _ e t e) by done. change (tagged_values_equal (LogicVar 0) t) with false. cbn beta iota.
    unfold bind_variable. rewrite (logic_bind_eq _ _ e false e); [reflexivity|].
    apply occurs_buried. unfold occurs_levels. lia.
  - intros σ Hσ. specialize (Hσ 0 t eq_refl).
    assert (Hsize : ∀ m : nat, (tsize (σ 0%Z) <= tsize (inst W σ (buried m (LogicVar 0%Z))))%nat) by (induction m; simpl in *; lia).
    specialize (Hsize n). apply (f_equal tsize) in Hσ. simpl in Hσ. lia.
Qed.


(** A name longer than 63 characters is stored truncated and so never found
    again: each occurrence of such a variable is a different variable. *)
Theorem long_names_never_found e s : var_registry_ok e → 63 < strlen s →
  Z.of_nat (length (var_names e)) + 1 < LOGIC_VAR_MAX →
  ∃ id1 e1 id2 e2, eshkol_make_logic_var s e = Some (id1, e1) ∧ eshkol_make_logic_var s e1 = Some (id2, e2) ∧ id1 ≠ id2.
Proof.
  intros Hok Hs Hroom.
  assert (Hnot : ∀ e, var_registry_ok e → find_var_by_name e s = UINT64_MAX).
  { intros e0 H0. destruct (find_spec e0 s H0) as [(k & _ & Hk & _)|[_ ?]]; [|done].
    pose proof (Forall_lookup_1 _ _ _ _ (vars_short e0 H0) Hk). simpl in *. lia. }
  destruct (make_logic_var_new e s Hok (Hnot e Hok) ltac:(lia)) as (e1 & H1 & Hv & Hok1).
  destruct (make_logic_var_new e1 s Hok1 (Hnot e1 Hok1)) as (e2 & H2 & _); [rewrite Hv, length_app; simpl; lia|].
  exists (Z.of_nat (length (var_names e))), e1, (Z.of_nat (length (var_names e1))), e2.
  split_and!; [done|done|]. rewrite Hv, length_app. simpl. lia.
Qed.

Fixpoint letters (n : nat) : string := match n with O => EmptyString | S n => String "a" (letters n) end.


(** Unifying equal terms under the NULL (empty) substitution returns NULL, which
    the tagged entry point reports as failure. *)
Lemma unify_equal_under_null n e misread :
  eshkol_unify_tagged misread 1 (Int64 n) (Int64 n) vnull e = Some (vfalse, e).
Proof.
  unfold eshkol_unify_tagged. rewrite (logic_bind_eq _ _ e None e); [done|]. cbn [eshkol_unify].
  rewrite !(logic_bind_eq _ _ e (Int64 n) e) by done. simpl.
  unfold atoms_equal. simpl. unfold same_payload. simpl. by rewrite Z.eqb_refl.
Qed.

(** [equal?] on numbers is not transitive. *)
Lemma deep_equal_not_transitive :
  eshkol_deep_equal (Int64 (2 ^ 53 + 1)) (Double (of_int (2 ^ 53))) = true ∧
  eshkol_deep_equal (Double (of_int (2 ^ 53))) (Int64 (2 ^ 53)) = true ∧
  eshkol_deep_equal (Int64 (2 ^ 53 + 1)) (Int64 (2 ^ 53)) = false.
Proof. by vm_compute. Qed.

(** Deep walking does not enter pairs: a bound variable in a list stays. *)
Lemma walk_deep_skips_pairs e :
  eshkol_walk_deep (Cons false 1 (LogicVar 0) vnull) (Some (MkSubst 2 8 [(0, Int64 5)])) e =
  Some (Cons false 1 (LogicVar 0) vnull, e).
Proof.
  unfold eshkol_walk_deep. assert (∃ n, walk_deep_levels = S n) as [n ->] by (exists 10000%nat; by vm_compute). done.
Qed.
