(* ===== verification/Bytes.v ===== *)
(** * Bytes: objects as the bytes that represent them

    Little-endian integers, the bit pattern of a binary64 number, C strings. *)

From S2P Require Export Values.
Local Open Scope Z_scope.

Abbreviation bytes := (list Z).

(** ** Little-endian integers *)

Fixpoint le_bytes (n : nat) (x : Z) : bytes :=
  match n with O => [] | S n => x mod 256 :: le_bytes n (x / 256) end.

Fixpoint le_value (bs : bytes) : Z :=
  match bs with [] => 0 | b :: bs => b + 256 * le_value bs end.

Lemma length_le_bytes n x : length (le_bytes n x) = n.
Proof. revert x. induction n as [|n IH]; intros x; simpl; [done|]. by rewrite IH. Qed.

Lemma le_value_bytes n x : 0 <= x < 2 ^ (8 * Z.of_nat n) → le_value (le_bytes n x) = x.
Proof.
  revert x. induction n as [|n IH]; intros x Hx; cbn [le_bytes le_value].
  { change (8 * Z.of_nat 0) with 0 in Hx. lia. }
  replace (8 * Z.of_nat (S n)) with (8 + 8 * Z.of_nat n) in Hx by lia.
  rewrite Z.pow_add_r in Hx by lia. rewrite IH.
  - pose proof (Z.div_mod x 256 ltac:(lia)). lia.
  - split; [apply Z.div_pos; lia|]. apply Z.div_lt_upper_bound; lia.
Qed.

(** ** Doubles: sign, biased exponent and fraction *)

Definition sign_bit (s : bool) : Z := if s then 2 ^ 63 else 0.

Definition double_bits (d : double) : Z :=
  match d with
  | S754_zero s => sign_bit s
  | S754_infinity s => sign_bit s + 2047 * 2 ^ 52
  | S754_nan => 2047 * 2 ^ 52 + 2 ^ 51
  | S754_finite s m e =>
      if Zpos m <? 2 ^ 52 then sign_bit s + Zpos m
      else sign_bit s + (e + 1075) * 2 ^ 52 + (Zpos m - 2 ^ 52)
  end.

Definition bits_double (x : Z) : double :=
  let s := 1 <=? x / 2 ^ 63 in
  let ex := x / 2 ^ 52 mod 2048 in
  let frac := x mod 2 ^ 52 in
  if ex =? 0 then (if frac =? 0 then S754_zero s else S754_finite s (Z.to_pos frac) (-1074))
  else if ex =? 2047 then (if frac =? 0 then S754_infinity s else S754_nan)
  else S754_finite s (Z.to_pos (2 ^ 52 + frac)) (ex - 1075).

(** The fields of a pattern put together from its fields. *)
Lemma bits_fields s ex frac : 0 <= ex < 2048 → 0 <= frac < 2 ^ 52 →
  let x := sign_bit s + ex * 2 ^ 52 + frac in
  is_u64 x ∧ (1 <=? x / 2 ^ 63) = s ∧ x / 2 ^ 52 mod 2048 = ex ∧ x mod 2 ^ 52 = frac.
Proof.
  intros He Hf x. set (q := (if s then 2048 else 0) + ex).
  assert (Ex : x = q * 2 ^ 52 + frac) by (unfold x, q, sign_bit; destruct s; lia).
  assert (Eq : x / 2 ^ 52 = q) by (rewrite Ex, Z.add_comm, Z.div_add by lia; rewrite Z.div_small by lia; lia).
  assert (Em : x mod 2 ^ 52 = frac) by (rewrite Ex, Z.add_comm, Z.mod_add by lia; by apply Z.mod_small).
  assert (E63 : x / 2 ^ 63 = if s then 1 else 0).
  { symmetry. apply Z.div_unique with (ex * 2 ^ 52 + frac); [lia|]. unfold x, sign_bit. destruct s; lia. }
  split_and!; [unfold is_u64; rewrite Ex; unfold q; destruct s; lia|by rewrite E63; destruct s| |done].
  rewrite Eq. unfold q. destruct s; [|by apply Z.mod_small].
  replace (2048 + ex) with (ex + 1 * 2048) by lia. rewrite Z.mod_add by lia. by apply Z.mod_small.
Qed.

(** A finite double has a 53-bit mantissa, below [2^52] only at the least exponent. *)
Lemma finite_fields s m e : is_double (S754_finite s m e) →
  Zpos m < 2 ^ 53 ∧ -1074 <= e <= 971 ∧ (Zpos m < 2 ^ 52 → e = -1074).
Proof.
  intros Hv. change (bounded prec emax m e = true) in Hv. unfold bounded, canonical_mantissa in Hv.
  apply andb_prop in Hv as [Hc%Z.eqb_eq Hu%Z.leb_le]. pose proof (digits2_bound m) as Hd.
  unfold fexp, emin, prec, emax in *.
  assert (H53 : Zpos (digits2_pos m) <= 53) by lia. split_and!; [|lia|lia|].
  - eapply Z.lt_le_trans; [apply Hd|]. apply Z.pow_le_mono_r; lia.
  - intros Hm. destruct (Z.eq_dec (Zpos (digits2_pos m)) 53) as [E|]; [|lia].
    rewrite E in Hd. change (53 - 1) with 52 in Hd. lia.
Qed.

Lemma double_bits_range d : is_double d → is_u64 (double_bits d).
Proof.
  intros Hv. destruct d as [s|s| |s m e]; [by destruct s|by destruct s|done|].
  destruct (finite_fields s m e Hv) as (H1 & H2 & H3). unfold double_bits.
  destruct (Z.ltb_spec (Zpos m) (2 ^ 52)).
  - pose proof (bits_fields s 0 (Zpos m) ltac:(lia) ltac:(lia)) as [Hr _]. by rewrite Z.mul_0_l, Z.add_0_r in Hr.
  - exact (proj1 (bits_fields s (e + 1075) (Zpos m - 2 ^ 52) ltac:(lia) ltac:(lia))).
Qed.

Lemma bits_double_bits d : is_double d → bits_double (double_bits d) = d.
Proof.
  intros Hv. destruct d as [s|s| |s m e]; [by destruct s|by destruct s|done|].
  destruct (finite_fields s m e Hv) as (H1 & H2 & H3). unfold double_bits, bits_double.
  destruct (Z.ltb_spec (Zpos m) (2 ^ 52)) as [L|L].
  - destruct (bits_fields s 0 (Zpos m) ltac:(lia) ltac:(lia)) as (_ & Es & Ee & Ef).
    rewrite Z.mul_0_l, Z.add_0_r in *. rewrite Es, Ee, Ef, H3 by done. done.
  - destruct (bits_fields s (e + 1075) (Zpos m - 2 ^ 52) ltac:(lia) ltac:(lia)) as (_ & -> & -> & ->).
    destruct (Z.eqb_spec (e + 1075) 0); [lia|]. destruct (Z.eqb_spec (e + 1075) 2047); [lia|].
    replace (2 ^ 52 + (Zpos m - 2 ^ 52)) with (Zpos m) by lia. f_equal. lia.
Qed.

(** ** Characters and C strings *)

Definition byte_of (c : ascii) : Z := Z.of_N (N_of_ascii c).
Definition char_of (b : Z) : ascii := ascii_of_N (Z.to_N b).
Definition text_bytes (s : string) : bytes := map byte_of (String.list_ascii_of_string s).

(** The text at a pointer: the bytes before the first NUL. *)
Fixpoint c_text (bs : bytes) : string :=
  match bs with
  | [] => EmptyString
  | b :: bs => if b =? 0 then EmptyString else String (char_of b) (c_text bs)
  end.

Definition no_nul (s : string) : bool := forallb (λ b, negb (b =? 0)) (text_bytes s).

Lemma byte_of_range c : 0 <= byte_of c < 256.
Proof. unfold byte_of. pose proof (N_ascii_bounded c). lia. Qed.

Lemma char_of_byte c : char_of (byte_of c) = c.
Proof. unfold char_of, byte_of. by rewrite N2Z.id, ascii_N_embedding. Qed.

Lemma length_text_bytes s : Z.of_nat (length (text_bytes s)) = Z.of_nat (String.length s).
Proof. unfold text_bytes. rewrite length_map. f_equal. induction s as [|c s IH]; simpl; [done|]. by rewrite IH. Qed.

Lemma c_text_bytes s : no_nul s = true → c_text (text_bytes s) = s.
Proof.
  unfold no_nul, text_bytes. induction s as [|c s IH]; simpl; [done|].
  destruct (byte_of c =? 0); simpl; [done|]. intros H. by rewrite char_of_byte, IH.
Qed.

Lemma map_char_of_bytes l : map char_of (map byte_of l) = l.
Proof. induction l as [|c l IH]; simpl; [done|]. by rewrite char_of_byte, IH. Qed.
