(* ===== verification/Bytecode.v ===== *)
(** * Bytecode: ESKB files (lib/backend/eskb_format.h, eskb_writer.c, eskb_reader.c)

    The container of compiled bytecode: LEB128 numbers, the checksum, the writer, the
    reader, and the checks of lib/backend/eshkol_vm.c on a loaded module.  A C array is a
    list; an access outside it is [Fault].  The answers of [malloc] are a list, and all
    calls after it succeed. *)

From S2P Require Export Bytes.
Local Open Scope Z_scope.

Definition ESKB_MAGIC : Z := 0x45534B42.
Definition ESKB_VERSION : Z := 2.
Definition ESKB_SECTION_CONST : Z := 0.
Definition ESKB_SECTION_CODE : Z := 1.
Definition ESKB_SECTION_META : Z := 2.
Definition ESKB_CONST_NIL : Z := 0.
Definition ESKB_CONST_INT64 : Z := 1.
Definition ESKB_CONST_F64 : Z := 2.
Definition ESKB_CONST_BOOL : Z := 3.
Definition ESKB_CONST_STRING : Z := 6.
Definition ESKB_FLAG_LITTLE_ENDIAN : Z := 1.
Definition sizeof_EskbHeader : Z := 16.
Definition ESHKOL_VM_MAX_CODE : Z := 1000000.
Definition INT_MAX : Z := 2 ^ 31 - 1.
Definition UINT32_MAX : Z := 2 ^ 32 - 1.
Definition PTRDIFF_MAX : Z := 2 ^ 63 - 1.

(** [l[i]]. *)
Definition at_index {A} (l : list A) (i : Z) : option A := if i <? 0 then None else l !! Z.to_nat i.

(** ** LEB128 *)

(** [n] further bytes at most. *)
Fixpoint write_leb128_loop (n : nat) (val : Z) : bytes :=
  let byte := Z.land val 0x7F in
  let val := Z.shiftr val 7 in
  if val =? 0 then [byte] else Z.lor byte 0x80 :: match n with O => [] | S n => write_leb128_loop n val end.
Definition eskb_write_leb128 (val : Z) : bytes := write_leb128_loop 9 val.

Inductive leb := LebRead (n out : Z) | LebBad | LebFault.
(** [k] is [10 - n], [lim] the [int] of the length of the buffer. *)
Fixpoint read_leb128_loop (k : nat) (buf : bytes) (lim n out : Z) : leb :=
  match k with
  | O => LebBad
  | S k =>
      if n <? lim then
        match at_index buf n with
        | None => LebFault
        | Some byte =>
            let out := Z.lor out (u64 (Z.shiftl (Z.land byte 0x7F) (7 * n))) in
            if Z.land byte 0x80 =? 0 then LebRead (n + 1) out else read_leb128_loop k buf lim (n + 1) out
        end
      else LebBad
  end.
Definition eskb_read_leb128 (buf : bytes) (buf_len : Z) : leb := read_leb128_loop 10 buf (i32 buf_len) 0 0.

(** ** The checksum *)

Definition crc_bit (crc : Z) : Z := Z.lxor (Z.shiftr crc 1) (Z.land 0xEDB88320 (u32 (- Z.land crc 1))).
Definition crc_byte (crc b : Z) : Z := Nat.iter 8 crc_bit (Z.lxor crc b).
Definition eskb_crc32 (data : bytes) : Z := u32 (Z.lnot (foldl crc_byte 0xFFFFFFFF data)).

(** ** Buffers of the writer *)

Record EskbBuffer := Buffer { b_data : bytes; b_cap : Z }.
Definition b_len (b : EskbBuffer) : Z := Z.of_nat (length (b_data b)).
Definition eskb_buf_init : EskbBuffer := Buffer [] 0.

(** A call that may allocate; [None] is a fault. *)
Definition AllocM (A : Type) : Type := list bool → option (A * list bool).
#[export] Instance alloc_ret : MRet AllocM := λ A a l, Some (a, l).
#[export] Instance alloc_bind : MBind AllocM := λ A B f m l, match m l with Some (a, l) => f a l | None => None end.
Definition alloc_fault {A} : AllocM A := λ _, None.

(** More than [PTRDIFF_MAX] bytes are never given. *)
Definition malloc (n : Z) : AllocM bool := λ l,
  if PTRDIFF_MAX <? n then Some (false, l) else match l with [] => Some (true, []) | a :: l => Some (a, l) end.

Fixpoint grow_cap (n : nat) (new_cap need : Z) : option Z :=
  if new_cap <? need then match n with O => None | S n => grow_cap n (u64 (new_cap * 2)) need end else Some new_cap.

Definition eskb_buf_ensure (b : EskbBuffer) (extra : Z) : AllocM (bool * EskbBuffer) :=
  let need := u64 (b_len b + extra) in
  if need <=? b_cap b then mret (true, b)
  else
    match grow_cap 64 (if b_cap b =? 0 then 4096 else u64 (b_cap b * 2)) need with
    | None => alloc_fault
    | Some new_cap => ok ← malloc new_cap; if (ok : bool) then mret (true, Buffer (b_data b) new_cap) else mret (false, b)
    end.

Definition eskb_buf_write (b : EskbBuffer) (src : bytes) : AllocM (bool * EskbBuffer) :=
  r ← eskb_buf_ensure b (Z.of_nat (length src));
  let '(ok, b) := (r : bool * EskbBuffer) in
  if ok then mret (true, Buffer (b_data b ++ src) (b_cap b)) else mret (false, b).

Definition eskb_buf_write_u8 (b : EskbBuffer) (v : Z) : AllocM (bool * EskbBuffer) := eskb_buf_write b [v].
Definition eskb_buf_write_leb128 (b : EskbBuffer) (v : Z) : AllocM (bool * EskbBuffer) := eskb_buf_write b (eskb_write_leb128 v).
Definition eskb_buf_write_i64 (b : EskbBuffer) (v : Z) : AllocM (bool * EskbBuffer) := eskb_buf_write b (le_bytes 8 v).
Definition eskb_buf_write_f64 (b : EskbBuffer) (bits : Z) : AllocM (bool * EskbBuffer) := eskb_buf_write b (le_bytes 8 bits).

(** [a], and [k] where it succeeds. *)
Definition then_write (a : AllocM (bool * EskbBuffer)) (k : EskbBuffer → AllocM (bool * EskbBuffer)) : AllocM (bool * EskbBuffer) :=
  r ← a; let '(ok, b) := (r : bool * EskbBuffer) in if ok then k b else mret (false, b).

Definition eskb_buf_write_string (b : EskbBuffer) (s : bytes) : AllocM (bool * EskbBuffer) :=
  then_write (eskb_buf_write_leb128 b (Z.of_nat (length s))) (λ b, eskb_buf_write b s).

(** The answer is dropped. *)
Definition write_anyway (m : AllocM (bool * EskbBuffer)) : AllocM EskbBuffer := r ← m; mret (r.2 : EskbBuffer).

(** ** The writer (lib/backend/eskb_writer.c) *)

Record EskbInstr := Instr { i_op : Z; i_operand : Z }.
(** [c_as] is the word of the union, [c_str] the array of 256 bytes. *)
Record EskbConst := Const { c_type : Z; c_as : Z; c_str : bytes; c_str_len : Z }.
(** A name is the bytes before its NUL. *)
Record EskbFunctionDef := FunctionDef {
  fn_name : option bytes; fn_params : Z; fn_locals : Z; fn_upvalues : Z;
  fn_code : option (list EskbInstr); fn_code_len : Z; fn_code_base : Z }.

Definition is_code_target (op : Z) : bool := (op =? 28) || (op =? 29) || (op =? 30) || (op =? 57).

Definition zigzag (operand : Z) : Z := Z.lxor (u64 (Z.shiftl operand 1)) (u64 (Z.shiftr operand 63)).
Definition eskb_write_instruction (b : EskbBuffer) (op operand : Z) : AllocM (bool * EskbBuffer) :=
  then_write (eskb_buf_write_u8 b op) (λ b, eskb_buf_write_leb128 b (zigzag operand)).

Definition operand_to_write (fn : EskbFunctionDef) (i : EskbInstr) : option Z :=
  if negb (fn_code_base fn =? 0) && is_code_target (i_op i) then
    if (i_operand i <? fn_code_base fn) || (fn_code_base fn + fn_code_len fn <=? i_operand i) then None
    else Some (i_operand i - fn_code_base fn)
  else Some (i_operand i).

Fixpoint write_code (k : nat) (i : Z) (fn : EskbFunctionDef) (code : list EskbInstr) (b : EskbBuffer) : AllocM (bool * EskbBuffer) :=
  match k with
  | O => mret (true, b)
  | S k =>
      match at_index code i with
      | None => alloc_fault
      | Some ins =>
          match operand_to_write fn ins with
          | None => mret (false, b)
          | Some operand => then_write (eskb_write_instruction b (i_op ins) operand) (write_code k (i + 1) fn code)
          end
      end
  end.

Definition eskb_write_function (b : EskbBuffer) (fn : EskbFunctionDef) : AllocM (bool * EskbBuffer) :=
  match fn_name fn, fn_code fn with
  | Some ((_ :: _) as name), Some code =>
      if fn_code_len fn <=? 0 then mret (false, b)
      else if 255 <? Z.of_nat (length name) then mret (false, b)
      else
        then_write (eskb_buf_write_string b name) (λ b,
        then_write (eskb_buf_write_u8 b (fn_params fn)) (λ b,
        then_write (eskb_buf_write_leb128 b (fn_locals fn)) (λ b,
        then_write (eskb_buf_write_leb128 b (fn_upvalues fn)) (λ b,
        then_write (eskb_buf_write_leb128 b (fn_code_len fn)) (write_code (Z.to_nat (fn_code_len fn)) 0 fn code)))))
  | _, _ => mret (false, b)
  end.

Definition supported (t : Z) : bool :=
  (t =? ESKB_CONST_NIL) || (t =? ESKB_CONST_INT64) || (t =? ESKB_CONST_F64) || (t =? ESKB_CONST_BOOL) || (t =? ESKB_CONST_STRING).

(** The constants before [n]; [None] where the array is shorter. *)
Fixpoint constants_supported (n : nat) (l : list EskbConst) : option bool :=
  match n, l with
  | O, _ => Some true
  | S _, [] => None
  | S n, c :: l => if supported (c_type c) then constants_supported n l else Some false
  end.

Definition write_constant (b : EskbBuffer) (c : EskbConst) : AllocM EskbBuffer :=
  b ← write_anyway (eskb_buf_write_u8 b (c_type c));
  let t := c_type c in
  if t =? ESKB_CONST_NIL then mret b
  else if t =? ESKB_CONST_INT64 then write_anyway (eskb_buf_write_i64 b (c_as c))
  else if t =? ESKB_CONST_F64 then write_anyway (eskb_buf_write_f64 b (c_as c))
  else if t =? ESKB_CONST_BOOL then write_anyway (eskb_buf_write_u8 b (if u32 (c_as c) =? 0 then 0 else 1))
  else if (c_str_len c <? 0) || (Z.of_nat (length (c_str c)) <? c_str_len c) then alloc_fault
  else write_anyway (eskb_buf_write_string b (take (Z.to_nat (c_str_len c)) (c_str c))).

Fixpoint write_constants (n : nat) (l : list EskbConst) (b : EskbBuffer) : AllocM EskbBuffer :=
  match n, l with
  | O, _ => mret b
  | S _, [] => alloc_fault
  | S n, c :: l => b ← write_constant b c; write_constants n l b
  end.

Fixpoint write_functions (n : nat) (l : list EskbFunctionDef) (b : EskbBuffer) : AllocM (bool * EskbBuffer) :=
  match n, l with
  | O, _ => mret (true, b)
  | S _, [] => alloc_fault
  | S n, f :: l => then_write (eskb_write_function b f) (write_functions n l)
  end.

(** The status and the file that is there afterwards, of which [room] bytes fitted;
    [opened] is the answer of [fopen]. *)
Definition eskb_write_file_with_functions (opened : bool) (room : nat) (constants : option (list EskbConst)) (n_constants : Z)
    (functions : option (list EskbFunctionDef)) (n_functions : Z) (source_file : option bytes) : AllocM (Z * option bytes) :=
  match constants, functions with
  | Some constants, Some functions =>
      if (n_constants <? 0) || (n_functions <=? 0) then mret (-1, None)
      else
        match constants_supported (Z.to_nat n_constants) constants with
        | None => alloc_fault
        | Some false => mret (-1, None)
        | Some true =>
            const_buf ← write_anyway (eskb_buf_write_leb128 eskb_buf_init n_constants);
            const_buf ← write_constants (Z.to_nat n_constants) constants const_buf;
            r ← then_write (eskb_buf_write_leb128 eskb_buf_init n_functions) (write_functions (Z.to_nat n_functions) functions);
            let '(ok, code_buf) := (r : bool * EskbBuffer) in
            if negb ok then mret (-1, None)
            else
              meta_buf ← (match source_file with
                          | Some s => write_anyway (eskb_buf_write_string eskb_buf_init s) | None => mret eskb_buf_init end);
              payload ← write_anyway (eskb_buf_write_leb128 eskb_buf_init (match source_file with Some _ => 3 | None => 2 end));
              payload ← write_anyway (eskb_buf_write_u8 payload ESKB_SECTION_CONST);
              payload ← write_anyway (eskb_buf_write_leb128 payload (b_len const_buf));
              payload ← write_anyway (eskb_buf_write_u8 payload ESKB_SECTION_CODE);
              payload ← write_anyway (eskb_buf_write_leb128 payload (b_len code_buf));
              payload ← (match source_file with
                         | Some _ =>
                             payload ← write_anyway (eskb_buf_write_u8 payload ESKB_SECTION_META);
                             write_anyway (eskb_buf_write_leb128 payload (b_len meta_buf))
                         | None => mret payload end);
              payload ← write_anyway (eskb_buf_write payload (b_data const_buf));
              payload ← write_anyway (eskb_buf_write payload (b_data code_buf));
              payload ← (match source_file with Some _ => write_anyway (eskb_buf_write payload (b_data meta_buf)) | None => mret payload end);
              let hdr := le_bytes 4 ESKB_MAGIC ++ le_bytes 4 ESKB_VERSION ++ le_bytes 4 ESKB_FLAG_LITTLE_ENDIAN ++
                         le_bytes 4 (eskb_crc32 (b_data payload)) in
              if opened then mret (0, Some (take room (hdr ++ b_data payload))) else mret (-1, None)
        end
  | _, _ => mret (-1, None)
  end.

Definition main_name : bytes := map byte_of ["m"; "a"; "i"; "n"]%char.
Definition eskb_write_file (opened : bool) (room : nat) (code : option (list EskbInstr)) (code_len : Z)
    (constants : option (list EskbConst)) (n_constants : Z) (source_file : option bytes) : AllocM (Z * option bytes) :=
  eskb_write_file_with_functions opened room constants n_constants (Some [FunctionDef (Some main_name) 0 0 0 code code_len 0]) 1 source_file.

(** ** The reader (lib/backend/eskb_reader.c) *)

(** [data] is all that lies behind the pointer, of which the reader owns [r_len] bytes. *)
Record EskbReader := Reader { r_data : bytes; r_len : Z; r_pos : Z }.

Inductive loaded (A : Type) := Loaded (a : A) (r : EskbReader) (mallocs : list bool) | Rejected | Fault.
Arguments Loaded {A}. Arguments Rejected {A}. Arguments Fault {A}.

Definition ReadM (A : Type) : Type := EskbReader → list bool → loaded A.
#[export] Instance readm_ret : MRet ReadM := λ A a r l, Loaded a r l.
#[export] Instance readm_bind : MBind ReadM := λ A B f m r l,
  match m r l with Loaded a r l => f a r l | Rejected => Rejected | Fault => Fault end.
Definition reject {A} : ReadM A := λ _ _, Rejected.
Definition of_access {A} (o : option A) : ReadM A := λ r l, match o with Some a => Loaded a r l | None => Fault end.
Definition check (b : bool) : ReadM unit := if b then mret tt else reject.
Definition advance (n : Z) (r : EskbReader) : EskbReader := Reader (r_data r) (r_len r) (u64 (r_pos r + n)).
Definition allocate (n : Z) : ReadM unit := λ r l, match malloc n l with Some (true, l) => Loaded tt r l | _ => Rejected end.

Definition eskb_read_u8 : ReadM Z := λ r l,
  if r_len r <=? r_pos r then Rejected
  else match at_index (r_data r) (r_pos r) with Some b => Loaded b (advance 1 r) l | None => Fault end.

Definition eskb_read_bytes (n : Z) : ReadM bytes := λ r l,
  if r_len r <? u64 (r_pos r + n) then Rejected
  else
    let bs := take (Z.to_nat n) (drop (Z.to_nat (r_pos r)) (r_data r)) in
    if Z.of_nat (length bs) =? n then Loaded bs (advance n r) l else Fault.

Definition eskb_read_leb : ReadM Z := λ r l,
  if r_len r <=? r_pos r then Rejected
  else
    match eskb_read_leb128 (drop (Z.to_nat (r_pos r)) (r_data r)) (r_len r - r_pos r) with
    | LebRead n out => Loaded out (advance n r) l
    | LebBad => Rejected
    | LebFault => Fault
    end.

Definition eskb_read_f64 : ReadM Z := bs ← eskb_read_bytes 8; mret (le_value bs).
Definition eskb_read_i64 : ReadM Z := bs ← eskb_read_bytes 8; mret (i64 (le_value bs)).

Definition eskb_read_string (max_len : Z) : ReadM bytes :=
  slen ← eskb_read_leb; check (slen <=? max_len - 1) ;; eskb_read_bytes slen.

Definition eskb_read_string_alloc : ReadM bytes :=
  slen ← eskb_read_leb; check (slen <=? UINT64_MAX - 1) ;; allocate (slen + 1) ;; eskb_read_bytes slen.

Definition eskb_read_instruction : ReadM (Z * Z) :=
  op ← eskb_read_u8; zigzag ← eskb_read_leb;
  check (zigzag <=? UINT32_MAX) ;;
  let decoded := Z.shiftr zigzag 1 in
  let decoded := if Z.land zigzag 1 =? 0 then decoded else - decoded - 1 in
  check ((- 2 ^ 31 <=? decoded) && (decoded <=? INT_MAX)) ;;
  mret (op, decoded).

Record EskbFunction := Function { f_name : option bytes; f_params : Z; f_locals : Z; f_upvalues : Z; f_code_offset : Z; f_code_len : Z }.
Definition no_function : EskbFunction := Function None 0 0 0 0 0.

(** A pointer is [None] where it is NULL; a double is its bits. *)
Record EskbModule := Module {
  opcodes : option (list Z); operands : option (list Z); code_len : Z;
  const_types : option (list Z); const_ints : list Z; const_floats : list Z; const_strings : list (option bytes); n_constants : Z;
  functions : option (list EskbFunction); n_functions : Z;
  source_file : bytes; has_debug : bool }.
Definition no_module : EskbModule := Module None None 0 None [] [] [] 0 None 0 [] false.

Definition with_code (o p : list Z) (n : Z) (m : EskbModule) : EskbModule :=
  Module (Some o) (Some p) n (const_types m) (const_ints m) (const_floats m) (const_strings m) (n_constants m)
    (functions m) (n_functions m) (source_file m) (has_debug m).
Definition with_constants (t : list Z) (i f : list Z) (s : list (option bytes)) (n : Z) (m : EskbModule) : EskbModule :=
  Module (opcodes m) (operands m) (code_len m) (Some t) i f s n (functions m) (n_functions m) (source_file m) (has_debug m).
Definition with_functions (l : list EskbFunction) (n : Z) (m : EskbModule) : EskbModule :=
  Module (opcodes m) (operands m) (code_len m) (const_types m) (const_ints m) (const_floats m) (const_strings m) (n_constants m)
    (Some l) n (source_file m) (has_debug m).
Definition with_source (s : bytes) (m : EskbModule) : EskbModule :=
  Module (opcodes m) (operands m) (code_len m) (const_types m) (const_ints m) (const_floats m) (const_strings m) (n_constants m)
    (functions m) (n_functions m) s true.

(** [l[i] = v]. *)
Definition store_at {A} (l : list A) (i : Z) (v : A) : ReadM (list A) :=
  if (0 <=? i) && (i <? Z.of_nat (length l)) then mret (<[Z.to_nat i := v]> l) else of_access None.

Definition calloc {A} (count size : Z) (zero : A) : ReadM (list A) := allocate (count * size) ;; mret (replicate (Z.to_nat count) zero).
(** What is new is not initialised. *)
Definition realloc (l : option (list Z)) (count size : Z) : ReadM (list Z) :=
  allocate (count * size) ;;
  let l := default [] l in
  mret (take (Z.to_nat count) l ++ replicate (Z.to_nat count - length l) 0).

Definition read_constant (i : Z) (m : EskbModule) : ReadM EskbModule :=
  ctype ← eskb_read_u8;
  types ← of_access (const_types m);
  types ← store_at types i ctype;
  if ctype =? ESKB_CONST_NIL then mret (with_constants types (const_ints m) (const_floats m) (const_strings m) (n_constants m) m)
  else if ctype =? ESKB_CONST_INT64 then
    v ← eskb_read_i64; ints ← store_at (const_ints m) i v;
    mret (with_constants types ints (const_floats m) (const_strings m) (n_constants m) m)
  else if ctype =? ESKB_CONST_F64 then
    v ← eskb_read_f64; floats ← store_at (const_floats m) i v;
    mret (with_constants types (const_ints m) floats (const_strings m) (n_constants m) m)
  else if ctype =? ESKB_CONST_BOOL then
    v ← eskb_read_u8; ints ← store_at (const_ints m) i v;
    mret (with_constants types ints (const_floats m) (const_strings m) (n_constants m) m)
  else if ctype =? ESKB_CONST_STRING then
    s ← eskb_read_string_alloc; strings ← store_at (const_strings m) i (Some s);
    ints ← store_at (const_ints m) i (Z.of_nat (length s));
    mret (with_constants types ints (const_floats m) strings (n_constants m) m)
  else reject.

Fixpoint read_constants (k : nat) (i : Z) (m : EskbModule) : ReadM EskbModule :=
  match k with O => mret m | S k => m ← read_constant i m; read_constants k (i + 1) m end.

(** [sr.pos != sr.len] is an error. *)
Definition section_end : ReadM unit := λ r l, if r_pos r =? r_len r then Loaded tt r l else Rejected.

Definition read_const_section (m : EskbModule) : ReadM EskbModule :=
  nc ← eskb_read_leb;
  check (nc <=? INT_MAX) ;;
  check (match const_types m with None => true | Some _ => false end) ;;
  let count := if nc =? 0 then 1 else nc in
  types ← calloc count 1 0; ints ← calloc count 8 0; floats ← calloc count 8 0; strings ← calloc count 8 None;
  m ← read_constants (Z.to_nat nc) 0 (with_constants types ints floats strings nc m);
  section_end ;; mret m.

(** [strcmp(a, b) == 0]. *)
Definition same_c_string (a b : bytes) : bool := bool_decide (c_text a = c_text b).

Fixpoint name_is_new (k : nat) (prev : Z) (fs : list EskbFunction) (name : bytes) : ReadM unit :=
  match k with
  | O => mret tt
  | S k =>
      f ← of_access (at_index fs prev); other ← of_access (f_name f);
      if same_c_string other name then reject else name_is_new k (prev + 1) fs name
  end.

Fixpoint read_code (k : nat) (i cl code_offset : Z) (m : EskbModule) : ReadM EskbModule :=
  match k with
  | O => mret m
  | S k =>
      ins ← eskb_read_instruction;
      let '(op, operand) := (ins : Z * Z) in
      ops ← of_access (opcodes m); ops ← store_at ops (code_offset + i) op;
      check (negb (is_code_target op) || ((0 <=? operand) && (operand <? cl))) ;;
      args ← of_access (operands m);
      args ← store_at args (code_offset + i) (if is_code_target op then operand + code_offset else operand);
      read_code k (i + 1) cl code_offset (with_code ops args (code_len m) m)
  end.

Definition read_function (fi : Z) (m : EskbModule) : ReadM EskbModule :=
  name ← eskb_read_string_alloc;
  check (negb (length name =? 0)%nat && (Z.of_nat (length name) <=? 255)) ;;
  fs ← of_access (functions m);
  name_is_new (Z.to_nat fi) 0 fs name ;;
  np ← eskb_read_u8;
  nl ← eskb_read_leb; check (nl <=? INT_MAX) ;;
  nuv ← eskb_read_leb; check (nuv <=? INT_MAX) ;;
  cl ← eskb_read_leb; check ((cl <=? ESHKOL_VM_MAX_CODE) && (cl <=? INT_MAX)) ;;
  check (code_len m <=? INT_MAX - cl) ;;
  let code_offset := code_len m in
  let new_code_len := code_len m + cl in
  check (new_code_len <=? ESHKOL_VM_MAX_CODE) ;;
  let count := if new_code_len =? 0 then 1 else new_code_len in
  ops ← realloc (opcodes m) count 1;
  args ← realloc (operands m) count 4;
  fs ← store_at fs fi (Function (Some name) np nl nuv code_offset cl);
  m ← read_code (Z.to_nat cl) 0 cl code_offset (with_functions fs (n_functions m) (with_code ops args (code_len m) m));
  ops ← of_access (opcodes m); args ← of_access (operands m);
  mret (with_code ops args new_code_len m).

Fixpoint read_functions (k : nat) (fi : Z) (m : EskbModule) : ReadM EskbModule :=
  match k with O => mret m | S k => m ← read_function fi m; read_functions k (fi + 1) m end.

Definition read_code_section (m : EskbModule) : ReadM EskbModule :=
  nf ← eskb_read_leb;
  check ((nf <=? 4096) && (nf <=? INT_MAX)) ;;
  check (match opcodes m, functions m with None, None => true | _, _ => false end) ;;
  fs ← calloc (if nf =? 0 then 1 else nf) 40 no_function;
  m ← read_functions (Z.to_nat nf) 0 (with_functions fs nf m);
  section_end ;; mret m.

Definition read_meta_section (m : EskbModule) : ReadM EskbModule :=
  check (negb (has_debug m)) ;;
  s ← eskb_read_string 256;
  section_end ;; mret (with_source s m).

Fixpoint read_descriptors (k : nat) : ReadM (list (Z * Z)) :=
  match k with
  | O => mret []
  | S k => sid ← eskb_read_u8; ssize ← eskb_read_leb; check (ssize <=? UINT32_MAX) ;; l ← read_descriptors k; mret ((sid, ssize) :: l)
  end.

(** Identifier, size and offset of each section, and where the last one ends. *)
Fixpoint lay_sections (payload_len offset : Z) (l : list (Z * Z)) : option (list (Z * Z * Z) * Z) :=
  match l with
  | [] => Some ([], offset)
  | (sid, size) :: l =>
      if u64 (payload_len - offset) <? size then None
      else '(l, e) ← lay_sections payload_len (offset + size) l; Some ((sid, size, offset) :: l, e)
  end.

(** The sections fill the payload, from where the table ends. *)
Definition locate_sections (payload_len : Z) (descs : list (Z * Z)) : ReadM (list (Z * Z * Z)) := λ r l,
  match lay_sections payload_len (r_pos r) descs with
  | Some (sections, e) => if e =? payload_len then Loaded sections r l else Rejected
  | None => Rejected
  end.

(** [m] with a reader of its own. *)
Definition with_reader {A} (r : EskbReader) (m : ReadM A) : ReadM A := λ r0 l,
  match m r l with Loaded a _ l => Loaded a r0 l | Rejected => Rejected | Fault => Fault end.

Fixpoint read_sections (payload : bytes) (l : list (Z * Z * Z)) (m : EskbModule) : ReadM EskbModule :=
  match l with
  | [] => mret m
  | (sid, size, offset) :: l =>
      m ← with_reader (Reader (drop (Z.to_nat offset) payload) size 0)
            (if sid =? ESKB_SECTION_CONST then read_const_section m
             else if sid =? ESKB_SECTION_CODE then read_code_section m
             else if sid =? ESKB_SECTION_META then read_meta_section m
             else mret m);
      read_sections payload l m
  end.

Definition eskb_parse_payload (payload : bytes) (payload_len : Z) (m : EskbModule) : ReadM EskbModule :=
  with_reader (Reader payload payload_len 0) (
    n_sections ← eskb_read_leb;
    check (n_sections <=? 16) ;;
    descs ← read_descriptors (Z.to_nat n_sections);
    sections ← locate_sections payload_len descs;
    read_sections payload sections m).

(** The status and the module, which is cleared where loading fails. *)
Definition eskb_load_memory (file : bytes) (mallocs : list bool) : option (Z * EskbModule) :=
  if Z.of_nat (length file) <? sizeof_EskbHeader then Some (-1, no_module)
  else
    let field i := le_value (take 4 (drop (4 * i) file)) in
    if negb (field 0%nat =? ESKB_MAGIC) then Some (-1, no_module)
    else if negb (field 1%nat =? ESKB_VERSION) then Some (-1, no_module)
    else
      let payload := drop (Z.to_nat sizeof_EskbHeader) file in
      if negb (eskb_crc32 payload =? field 3%nat) then Some (-1, no_module)
      else
        match eskb_parse_payload payload (Z.of_nat (length payload)) no_module (Reader [] 0 0) mallocs with
        | Loaded m _ _ => Some (0, m)
        | Rejected => Some (-1, no_module)
        | Fault => None
        end.

(** [file] is [None] where it cannot be opened. *)
Definition eskb_load_file (file : option bytes) (mallocs : list bool) : option (Z * EskbModule) :=
  match file with
  | None => Some (-1, no_module)
  | Some file =>
      if Z.of_nat (length file) <? sizeof_EskbHeader then Some (-1, no_module)
      else match malloc (Z.of_nat (length file)) mallocs with Some (true, l) => eskb_load_memory file l | _ => Some (-1, no_module) end
  end.

(** ** The checks on a loaded module (lib/backend/eshkol_vm.c) *)

Definition ESHKOL_VM_STACK_SIZE : Z := 262144.
Definition ESHKOL_VM_MAX_CONSTS_CEILING : Z := 4194304.
Definition ESHKOL_VM_MAX_CLOSURE_UPVALUES : Z := INT_MAX.
Definition ESHKOL_VM_HOST_NATIVE_BASE : Z := 100000.
Definition OP_CONST : Z := 1.
Definition OP_CLOSURE : Z := 24.
Definition OP_CALL : Z := 25.
Definition OP_TAIL_CALL : Z := 26.
Definition OP_NATIVE_CALL : Z := 37.
Definition OP_LANGUAGE_COVERAGE : Z := 64.
Definition OP_LANGUAGE_COVERAGE_CALL : Z := 65.
Definition OP_CLOSURE_LONG : Z := 67.
Definition OP_CLOSURE_COUNT : Z := 68.
Definition OP_COUNT : Z := 69.

Definition ESHKOL_VM_IS_PACKED_LITERAL_FID (fid : Z) : bool :=
  let packs := (1024 * 1024 + 7) / 8 in
  ((2000000000 <=? fid) && (fid <? 2000000000 + packs + 1)) || ((2100000000 <=? fid) && (fid <? 2100000000 + packs + 1)).

Definition eshkol_vm_validate_stack_operand (operand : Z) : bool := (0 <=? operand) && (operand <? ESHKOL_VM_STACK_SIZE).

(** [name && name[0]]. *)
Definition is_named (name : option bytes) : bool := match name with Some (c :: _) => negb (c =? 0) | _ => false end.

Definition op_at (m : EskbModule) (pc : Z) : option Z := l ← opcodes m; at_index l pc.
Definition operand_at (m : EskbModule) (pc : Z) : option Z := l ← operands m; at_index l pc.

Section checks.
(** The native id of each entry of the table of builtins. *)
Context (BUILTINS : list Z).

(** What the [switch] says of one instruction, and whether the next is its second half. *)
Definition validate_instruction (m : EskbModule) (pc : Z) : option (bool * bool) :=
  op ← op_at m pc; operand ← operand_at m pc;
  let next_in := pc + 1 <? code_len m in
  let is_int i := match const_types m with None => Some true | Some l => t ← at_index l i; Some (t =? ESKB_CONST_INT64) end in
  if OP_COUNT <=? op then Some (false, false)
  else if op =? OP_CONST then Some ((0 <=? operand) && (operand <? n_constants m), false)
  else if op =? OP_CLOSURE then
    if operand <? 0 then Some (false, false)
    else
      let const_idx := Z.land operand 0xFFFF in
      let n_upvalues := Z.land (Z.shiftr operand 16) 0xFF in
      if (const_idx <? 0) || (n_constants m <=? const_idx) then Some (false, false)
      else ok ← is_int const_idx; Some (ok && (0 <=? n_upvalues) && (n_upvalues <=? ESHKOL_VM_MAX_CLOSURE_UPVALUES), false)
  else if op =? OP_CLOSURE_LONG then
    if (operand <? 0) || (n_constants m <=? operand) then Some (false, false)
    else
      ok ← is_int operand;
      if negb ok || negb next_in then Some (false, false)
      else
        op' ← op_at m (pc + 1); operand' ← operand_at m (pc + 1);
        Some ((op' =? OP_CLOSURE_COUNT) && (0 <=? operand'), true)
  else if op =? OP_CLOSURE_COUNT then Some (false, false)
  else if existsb (Z.eqb op) [20; 21] then Some (eshkol_vm_validate_stack_operand operand, false)
  else if existsb (Z.eqb op) [22; 23; 54] then Some (0 <=? operand, false)
  else if existsb (Z.eqb op) [OP_CALL; OP_TAIL_CALL; 39; 53; 60] then Some (eshkol_vm_validate_stack_operand operand, false)
  else if is_code_target op then Some ((0 <=? operand) && (operand <? code_len m), false)
  else if op =? OP_NATIVE_CALL then Some (0 <=? operand, false)
  else if op =? OP_LANGUAGE_COVERAGE then
    if (operand <? 0) || (Z.of_nat (length BUILTINS) <=? operand) || negb next_in then Some (false, false)
    else
      op' ← op_at m (pc + 1);
      if negb (op' =? OP_NATIVE_CALL) then Some (false, false)
      else operand' ← operand_at m (pc + 1); id ← at_index BUILTINS operand; Some (operand' =? id, false)
  else if op =? OP_LANGUAGE_COVERAGE_CALL then
    if (operand <? 0) || negb next_in then Some (false, false)
    else op' ← op_at m (pc + 1); Some ((op' =? OP_CALL) || (op' =? OP_TAIL_CALL), false)
  else Some (true, false).

Fixpoint validate_code (k : nat) (pc : Z) (m : EskbModule) : option bool :=
  match k with
  | O => Some true
  | S k =>
      if code_len m <=? pc then Some true
      else
        '(ok, skip) ← validate_instruction m pc;
        if (ok : bool) then validate_code k (if (skip : bool) then pc + 2 else pc + 1) m else Some false
  end.

(** [l] are the functions after [f]. *)
Definition validate_function (m : EskbModule) (f : EskbFunction) (l : list EskbFunction) : bool :=
  is_named (f_name f) && (0 <? f_code_len f) &&
  (0 <=? f_locals f) && (f_locals f <=? ESHKOL_VM_STACK_SIZE) &&
  (0 <=? f_upvalues f) && (f_upvalues f <=? ESHKOL_VM_MAX_CLOSURE_UPVALUES) &&
  (0 <=? f_code_offset f) && (f_code_offset f <? code_len m) && (f_code_len f <=? code_len m - f_code_offset f) &&
  forallb (λ o, match f_name f, f_name o with Some a, Some b => negb (same_c_string a b) | _, _ => true end) l.

Fixpoint validate_functions (m : EskbModule) (n : nat) (l : list EskbFunction) : option bool :=
  match n, l with
  | O, _ => Some true
  | S _, [] => None
  | S n, f :: l => if validate_function m f (take n l) then validate_functions m n l else Some false
  end.

Definition eshkol_vm_validate_module_profile (m : EskbModule) : option bool :=
  if (n_constants m <? 0) || (ESHKOL_VM_MAX_CONSTS_CEILING <? n_constants m) then Some false
  else if (code_len m <=? 0) || (ESHKOL_VM_MAX_CODE <? code_len m) then Some false
  else
    match functions m, opcodes m, operands m with
    | Some fs, Some _, Some _ =>
        if n_functions m <=? 0 then Some false
        else
          ok ← validate_functions m (Z.to_nat (n_functions m)) fs;
          if (ok : bool) then validate_code (Z.to_nat (code_len m)) 0 m else Some false
    | _, _, _ => Some false
    end.

Record EshkolVmFunctionRequirement := Requirement { q_name : option bytes; q_params : Z; q_max_locals : Z; q_max_code_len : Z; q_require_no_upvalues : Z }.
Record EshkolVmLoadOptions := LoadOptions {
  native_policy : Z; reject_string_constants : bool; reject_desktop_native_calls : bool;
  required_functions : list (option bytes); required_function_metadata : list EshkolVmFunctionRequirement }.

Definition module_functions (m : EskbModule) : list EskbFunction := take (Z.to_nat (n_functions m)) (default [] (functions m)).
Definition eshkol_vm_find_module_function (m : EskbModule) (name : option bytes) : option EskbFunction :=
  List.find (λ f, match f_name f, name with Some n, Some name => same_c_string n name | _, _ => false end) (module_functions m).

Definition meets (m : EskbModule) (q : EshkolVmFunctionRequirement) : bool :=
  is_named (q_name q) && (-1 <=? q_params q) && (-1 <=? q_max_locals q) && (-1 <=? q_max_code_len q) &&
  ((q_require_no_upvalues q =? 0) || (q_require_no_upvalues q =? 1)) &&
  match eshkol_vm_find_module_function m (q_name q) with
  | None => false
  | Some f =>
      negb ((0 <=? q_params q) && negb (f_params f =? q_params q)) &&
      negb ((0 <=? q_max_locals q) && (q_max_locals q <? f_locals f)) &&
      negb ((0 <=? q_max_code_len q) && (q_max_code_len q <? f_code_len f)) &&
      negb ((q_require_no_upvalues q =? 1) && negb (f_upvalues f =? 0))
  end.

Definition eshkol_vm_validate_function_requirements (m : EskbModule) (o : EshkolVmLoadOptions) : bool :=
  (Z.of_nat (length (required_functions o)) <=? n_functions m) &&
  forallb (λ name, is_named name && match eshkol_vm_find_module_function m name with Some _ => true | None => false end) (required_functions o) &&
  (Z.of_nat (length (required_function_metadata o)) <=? n_functions m) &&
  forallb (meets m) (required_function_metadata o).

Definition desktop_call (op operand : Z) : bool :=
  (op =? OP_NATIVE_CALL) && ((operand <? ESHKOL_VM_HOST_NATIVE_BASE) || ESHKOL_VM_IS_PACKED_LITERAL_FID operand).

Fixpoint no_desktop_calls (k : nat) (pc : Z) (m : EskbModule) : option bool :=
  match k with
  | O => Some true
  | S k => op ← op_at m pc; operand ← operand_at m pc; if desktop_call op operand then Some false else no_desktop_calls k (pc + 1) m
  end.

Definition eshkol_vm_validate_load_policy (m : EskbModule) (o : EshkolVmLoadOptions) : option bool :=
  if negb (eshkol_vm_validate_function_requirements m o) then Some false
  else if negb (reject_desktop_native_calls o) then Some true
  else no_desktop_calls (Z.to_nat (code_len m)) 0 m.

(** The module that a machine is made for, if any: what
    [eshkol_vm_load_chunk_with_options] does before it makes the machine. *)
Definition eshkol_vm_load_module (buffer : bytes) (o : EshkolVmLoadOptions) (mallocs : list bool) : option (option EskbModule) :=
  if negb ((native_policy o =? 0) || (native_policy o =? 1)) then Some None
  else
    match buffer with
    | [] => Some None
    | _ =>
        '(status, m) ← eskb_load_memory buffer mallocs;
        if negb (status =? 0) then Some None
        else
          ok ← eshkol_vm_validate_module_profile m;
          if negb ok then Some None
          else ok ← eshkol_vm_validate_load_policy m o; Some (if (ok : bool) then Some m else None)
    end.
End checks.
