(* ===== verification/BytecodeSpec.v ===== *)
(** * BytecodeSpec: the encodings of ESKB files *)

From S2P Require Export Bytecode.
From S2P Require Import Limbs.
Local Open Scope Z_scope.

(** ** LEB128 *)

Lemma low_septet x : Z.land x 0x7F = x mod 2 ^ 7.
Proof. change 0x7F with (Z.ones 7). by apply Z.land_ones. Qed.

Lemma septet_bits x : 0 <= x < 2 ^ 7 →
  Z.land x 0x80 = 0 ∧ Z.lor x 0x80 = x + 2 ^ 7 ∧ Z.land (x + 2 ^ 7) 0x80 = 2 ^ 7 ∧ (x + 2 ^ 7) mod 2 ^ 7 = x.
Proof.
  intros Hx. assert (E : Z.lor x 0x80 = x + 2 ^ 7).
  { rewrite Z.lor_comm. change 0x80 with (1 * 2 ^ 7). rewrite lor_mul_pow2_add by lia. lia. }
  assert (E0 : Z.land x 0x80 = 0).
  { rewrite Z.land_comm. change 0x80 with (1 * 2 ^ 7). apply land_mul_pow2_small; lia. }
  split; [done|]. split; [done|]. split.
  - rewrite <- E, Z.land_lor_distr_l, E0. done.
  - change (2 ^ 7) with (1 * 2 ^ 7) at 1. rewrite Z.mod_add by lia. by apply Z.mod_small.
Qed.

(** The encoding with its length: seven bits a byte. *)
Lemma write_leb_step n val : 0 <= val →
  write_leb128_loop n val =
    if val <? 2 ^ 7 then [val] else (val mod 2 ^ 7 + 2 ^ 7) :: match n with O => [] | S n => write_leb128_loop n (val / 2 ^ 7) end.
Proof.
  intros Hv. pose proof (Z.mod_pos_bound val (2 ^ 7)). destruct (septet_bits (val mod 2 ^ 7)) as (_ & E & _); [lia|].
  assert (U : write_leb128_loop n val = if Z.shiftr val 7 =? 0 then [Z.land val 0x7F]
    else Z.lor (Z.land val 0x7F) 0x80 :: match n with O => [] | S n => write_leb128_loop n (Z.shiftr val 7) end) by by destruct n.
  rewrite U, low_septet, Z.shiftr_div_pow2, E by lia. destruct (Z.ltb_spec val (2 ^ 7)) as [Hlt|Hge].
  - rewrite Z.div_small, Z.mod_small by lia. done.
  - rewrite (proj2 (Z.eqb_neq _ _)); [done|]. pose proof (Z.div_le_lower_bound val (2 ^ 7) 1). lia.
Qed.

Lemma at_index_drop {A} (l : list A) n : 0 <= n → at_index l n = head (drop (Z.to_nat n) l).
Proof. intros Hn. unfold at_index. rewrite (proj2 (Z.ltb_ge _ _)) by lia. by rewrite head_lookup, lookup_drop, Nat.add_0_r. Qed.

Lemma read_leb_ok j k val n out buf post lim : 0 <= val < 2 ^ (7 * (Z.of_nat j + 1)) → 0 <= n → Z.of_nat k = 10 - n →
  0 <= out < 2 ^ (7 * n) → val * 2 ^ (7 * n) < 2 ^ 64 → n <= 9 →
  drop (Z.to_nat n) buf = write_leb128_loop j val ++ post → n + Z.of_nat (length (write_leb128_loop j val)) <= lim →
  read_leb128_loop k buf lim n out = LebRead (n + Z.of_nat (length (write_leb128_loop j val))) (out + val * 2 ^ (7 * n)).
Proof.
  revert k val n out. induction j as [j IH] using lt_wf_ind. intros k val n out Hv Hn Hk Ho Hb Hn9 Hd Hl.
  destruct k as [|k]; [lia|]. cbn [read_leb128_loop]. rewrite at_index_drop, Hd by lia. rewrite write_leb_step in * by lia.
  assert (Hor : ∀ x, 0 <= x → x * 2 ^ (7 * n) < 2 ^ 64 → Z.lor out (u64 (Z.shiftl x (7 * n))) = out + x * 2 ^ (7 * n)).
  { intros x Hx Hx64. rewrite Z.shiftl_mul_pow2 by lia. rewrite u64_id by (unfold is_u64; split; [apply Z.mul_nonneg_nonneg; lia|lia]).
    rewrite Z.lor_comm, lor_mul_pow2_add by lia. lia. }
  destruct (Z.ltb_spec val (2 ^ 7)) as [Hlt|Hge].
  - cbn [length] in *. rewrite (proj2 (Z.ltb_lt _ _)) by lia. cbn [app head]. rewrite low_septet, Z.mod_small by lia. rewrite Hor by lia.
    destruct (septet_bits val) as (-> & _); [lia|]. simpl. done.
  - set (rest := match j with O => [] | S j => write_leb128_loop j (val / 2 ^ 7) end) in *. cbn [length] in *.
    rewrite (proj2 (Z.ltb_lt _ _)) by lia. cbn [app head] in *. pose proof (Z.mod_pos_bound val (2 ^ 7)) as Hm.
    destruct (septet_bits (val mod 2 ^ 7)) as (_ & _ & E1 & E2); [lia|]. rewrite low_septet, E2, E1. cbn [Z.eqb].
    pose proof (Z.div_mod val (2 ^ 7)) as Hdm. assert (0 < 2 ^ (7 * n)) as Hp by (apply Z.pow_pos_nonneg; lia).
    rewrite Hor by nia. change (2 ^ 7 =? 0) with false. cbv iota.
    assert (Hn8 : n <= 8).
    { destruct (Z.le_gt_cases n 8); [done|]. assert (n = 9) as -> by lia. change (7 * 9) with 63 in *. lia. }
    assert (Hpow : 2 ^ (7 * (n + 1)) = 2 ^ (7 * n) * 2 ^ 7) by (rewrite <- Z.pow_add_r by lia; f_equal; lia).
    destruct j as [|j].
    { change (7 * (Z.of_nat 0 + 1)) with 7 in Hv. lia. }
    subst rest. rewrite (IH j ltac:(lia) k (val / 2 ^ 7)); try lia.
    + f_equal; lia.
    + split; [apply Z.div_pos; lia|]. apply Z.div_lt_upper_bound; [lia|].
      rewrite <- Z.pow_add_r by lia. replace (7 + 7 * (Z.of_nat j + 1)) with (7 * (Z.of_nat (S j) + 1)) by lia. lia.
    + rewrite Hpow. nia.
    + replace (Z.to_nat (n + 1)) with (Z.to_nat n + 1)%nat by lia. by rewrite <- drop_drop, Hd.
Qed.

(** ** The zigzag encoding *)

Lemma zigzag_value v : - 2 ^ 31 <= v < 2 ^ 31 → zigzag v = if v <? 0 then - 2 * v - 1 else 2 * v.
Proof.
  intros Hv. unfold zigzag. rewrite Z.shiftl_mul_pow2, Z.shiftr_div_pow2 by lia. change (2 ^ 1) with 2. unfold u64.
  destruct (Z.ltb_spec v 0).
  - replace (v / 2 ^ 63) with (-1) by (apply Z.div_unique with (v + 2 ^ 63); lia).
    replace ((v * 2) mod 2 ^ 64) with (v * 2 + 2 ^ 64) by (apply Z.mod_unique with (-1); lia). change (-1 mod 2 ^ 64) with (Z.ones 64).
    assert (Hn : Z.lxor (v * 2 + 2 ^ 64) (Z.ones 64) = Z.lnot (v * 2 + 2 ^ 64) mod 2 ^ 64).
    { rewrite <- Z.land_ones by lia. apply Z.bits_inj'. intros k Hk. rewrite Z.lxor_spec, Z.land_spec, Z.lnot_spec by lia.
      destruct (Z.lt_ge_cases k 64); [rewrite Z.ones_spec_low by lia; by destruct (Z.testbit _ k)|].
      rewrite Z.ones_spec_high by lia. rewrite andb_false_r, xorb_false_r. rewrite <- (Z.mod_small (v * 2 + 2 ^ 64) (2 ^ 64)) by lia.
      by apply Z.mod_pow2_bits_high. }
    rewrite Hn. unfold Z.lnot. symmetry. apply Z.mod_unique with (-1); lia.
  - replace (v / 2 ^ 63) with 0 by (symmetry; apply Z.div_small; lia). rewrite Z.mod_0_l, Z.lxor_0_r by lia. rewrite Z.mod_small; lia.
Qed.

Lemma unzigzag v : - 2 ^ 31 <= v < 2 ^ 31 →
  0 <= zigzag v <= UINT32_MAX ∧ (if Z.land (zigzag v) 1 =? 0 then Z.shiftr (zigzag v) 1 else - Z.shiftr (zigzag v) 1 - 1) = v.
Proof.
  intros Hv. rewrite zigzag_value by done. unfold UINT32_MAX.
  assert (Hl : ∀ x, Z.land x 1 = x mod 2) by (intros x; change 1 with (Z.ones 1); by rewrite Z.land_ones).
  rewrite Hl, Z.shiftr_div_pow2 by lia. change (2 ^ 1) with 2. destruct (Z.ltb_spec v 0); (split; [lia|]).
  - replace ((-2 * v - 1) mod 2) with 1 by (apply Z.mod_unique with (- v - 1); lia).
    replace ((-2 * v - 1) / 2) with (- v - 1) by (apply Z.div_unique with 1; lia). simpl. lia.
  - rewrite Z.mul_comm, Z.mod_mul, Z.div_mul by lia. done.
Qed.

(** ** The checksum *)

Definition is_u32 (x : Z) : Prop := 0 <= x < 2 ^ 32.

Lemma lxor_bound a b n : 0 <= n → 0 <= a < 2 ^ n → 0 <= b < 2 ^ n → 0 <= Z.lxor a b < 2 ^ n.
Proof.
  intros Hn Ha Hb. rewrite <- (Z.mod_small a (2 ^ n)), <- (Z.mod_small b (2 ^ n)) by done.
  assert (E : Z.lxor (a mod 2 ^ n) (b mod 2 ^ n) = Z.lxor a b mod 2 ^ n).
  { rewrite <- !Z.land_ones by lia. apply Z.bits_inj'. intros k Hk. rewrite !Z.lxor_spec, !Z.land_spec, Z.lxor_spec.
    by destruct (Z.testbit a k), (Z.testbit b k), (Z.testbit (Z.ones n) k). }
  rewrite E. apply Z.mod_pos_bound. apply Z.pow_pos_nonneg; lia.
Qed.

Lemma lor_bound a b n : 0 <= n → 0 <= a < 2 ^ n → 0 <= b < 2 ^ n → 0 <= Z.lor a b < 2 ^ n.
Proof.
  intros Hn Ha Hb. rewrite <- (Z.mod_small a (2 ^ n)), <- (Z.mod_small b (2 ^ n)) by done.
  rewrite <- !Z.land_ones, <- Z.land_lor_distr_l, Z.land_ones by lia. apply Z.mod_pos_bound. apply Z.pow_pos_nonneg; lia.
Qed.

(** One step halves and adds the polynomial where a bit drops out; the polynomial has its
    top bit set, so the step can be undone. *)
Lemma crc_bit_value x : is_u32 x → crc_bit x = if x mod 2 =? 0 then x / 2 else Z.lxor (x / 2) 0xEDB88320.
Proof.
  intros Hx. unfold crc_bit. rewrite Z.shiftr_div_pow2 by lia. change (2 ^ 1) with 2.
  assert (E : Z.land x 1 = x mod 2) by (change 1 with (Z.ones 1); by rewrite Z.land_ones). rewrite E.
  pose proof (Z.mod_pos_bound x 2). destruct (Z.eqb_spec (x mod 2) 0) as [->|Hn].
  - change (Z.land 0xEDB88320 (u32 (- 0))) with 0. by rewrite Z.lxor_0_r.
  - replace (x mod 2) with 1 by lia. done.
Qed.

Lemma crc_bit_range x : is_u32 x → is_u32 (crc_bit x).
Proof.
  intros Hx. rewrite crc_bit_value by done. unfold is_u32 in *.
  assert (0 <= x / 2 < 2 ^ 32) by (split; [apply Z.div_pos; lia|apply Z.div_lt_upper_bound; lia]).
  destruct (_ =? 0); [done|]. apply lxor_bound; lia.
Qed.

Definition crc_unbit (y : Z) : Z := if Z.testbit y 31 then 2 * Z.lxor y 0xEDB88320 + 1 else 2 * y.

Lemma crc_bit_undone x : is_u32 x → crc_unbit (crc_bit x) = x.
Proof.
  intros Hx. rewrite crc_bit_value by done. unfold crc_unbit, is_u32 in *. pose proof (Z.div_mod x 2). pose proof (Z.mod_pos_bound x 2).
  assert (Hh : 0 <= x / 2 < 2 ^ 31) by (split; [apply Z.div_pos; lia|apply Z.div_lt_upper_bound; lia]).
  assert (Hb : Z.testbit (x / 2) 31 = false).
  { rewrite <- (Z.mod_small (x / 2) (2 ^ 31)) by done. by apply Z.mod_pow2_bits_high. }
  destruct (Z.eqb_spec (x mod 2) 0).
  - rewrite Hb. lia.
  - rewrite Z.lxor_spec, Hb. change (Z.testbit 0xEDB88320 31) with true. cbn [xorb]. rewrite Z.lxor_assoc, Z.lxor_nilpotent, Z.lxor_0_r. lia.
Qed.

Lemma crc_bits_inj n x y : is_u32 x → is_u32 y →
  is_u32 (Nat.iter n crc_bit x) ∧ (Nat.iter n crc_bit x = Nat.iter n crc_bit y → x = y).
Proof.
  revert x y. induction n as [|n IH]; intros x y Hx Hy; [done|]. rewrite !Nat.iter_succ_r.
  destruct (IH (crc_bit x) (crc_bit y)) as [H1 H2]; [by apply crc_bit_range..|]. split; [done|]. intros E.
  apply (f_equal crc_unbit) in H2; [|done]. by rewrite !crc_bit_undone in H2.
Qed.

Definition is_byte (b : Z) : Prop := 0 <= b < 256.

Lemma crc_byte_range c b : is_u32 c → is_byte b → is_u32 (crc_byte c b).
Proof.
  unfold is_byte. intros Hc Hb. assert (H : is_u32 (Z.lxor c b)) by (apply lxor_bound; unfold is_u32 in *; lia).
  apply (crc_bits_inj 8 _ _ H H).
Qed.

Lemma lxor_inj_r a b c : Z.lxor a b = Z.lxor a c → b = c.
Proof. intros E. apply (f_equal (Z.lxor a)) in E. by rewrite <- !Z.lxor_assoc, Z.lxor_nilpotent, !Z.lxor_0_l in E. Qed.

Lemma crc_byte_inj c c' b b' : is_u32 c → is_u32 c' → is_byte b → is_byte b' → crc_byte c b = crc_byte c' b' → Z.lxor c b = Z.lxor c' b'.
Proof. unfold is_byte. intros Hc Hc' Hb Hb'. apply crc_bits_inj; apply lxor_bound; unfold is_u32 in *; lia. Qed.

Lemma crc_run_range l c : is_u32 c → Forall is_byte l → is_u32 (foldl crc_byte c l).
Proof. intros Hc Hl. revert c Hc. induction Hl as [|b l Hb _ IH]; intros c Hc; [done|]. apply IH. by apply crc_byte_range. Qed.

Lemma crc_run_inj l c c' : is_u32 c → is_u32 c' → Forall is_byte l → foldl crc_byte c l = foldl crc_byte c' l → c = c'.
Proof.
  intros Hc Hc' Hl. revert c c' Hc Hc'. induction Hl as [|b l Hb _ IH]; intros c c' Hc Hc' E; [done|].
  apply IH in E; [|by apply crc_byte_range..]. apply crc_byte_inj in E; [|done..]. rewrite !(Z.lxor_comm _ b) in E. by apply lxor_inj_r in E.
Qed.

Lemma crc32_run l : Forall is_byte l → eskb_crc32 l = 2 ^ 32 - 1 - foldl crc_byte 0xFFFFFFFF l.
Proof.
  intros Hl. assert (H : is_u32 (foldl crc_byte 0xFFFFFFFF l)) by by apply crc_run_range. unfold eskb_crc32, u32, Z.lnot, is_u32 in *.
  symmetry. apply Z.mod_unique with (-1); lia.
Qed.

(** Two payloads that differ in one byte have different checksums. *)
Lemma crc32_one_byte pre b b' post : Forall is_byte pre → is_byte b → is_byte b' → Forall is_byte post → b ≠ b' →
  eskb_crc32 (pre ++ b :: post) ≠ eskb_crc32 (pre ++ b' :: post).
Proof.
  intros Hpre Hb Hb' Hpost Hne E. rewrite !crc32_run in E by (apply Forall_app; split; [done|by constructor]).
  rewrite !foldl_app in E. cbn [foldl] in E. set (c := foldl crc_byte 0xFFFFFFFF pre) in *.
  assert (Hc : is_u32 c) by by apply crc_run_range.
  assert (E' : crc_byte c b = crc_byte c b') by (apply (crc_run_inj post); [by apply crc_byte_range..|done|lia]).
  apply crc_byte_inj in E'; [|done..]. by apply lxor_inj_r in E'.
Qed.

(** ** Writing *)

Definition buffer_ok (b : EskbBuffer) : Prop := 0 <= b_cap b <= 2 ^ 32.

(** [f] appends [bs], as long as every [malloc] succeeds and the buffer stays below 2 GiB. *)
Definition writes (f : EskbBuffer → AllocM (bool * EskbBuffer)) (bs : bytes) : Prop := ∀ b, buffer_ok b → b_len b + Z.of_nat (length bs) < 2 ^ 31 →
  ∃ cap, f b [] = Some (true, Buffer (b_data b ++ bs) cap, []) ∧ 0 <= cap <= 2 ^ 32.

Lemma grow_cap_ok n c need : 0 < c <= 2 ^ 32 → need < 2 ^ 31 → need <= c * 2 ^ Z.of_nat n → ∃ c', grow_cap n c need = Some c' ∧ need <= c' ∧ 0 <= c' <= 2 ^ 32.
Proof.
  revert c. induction n as [|n IH]; intros c Hc Hn Hp.
  - change (2 ^ Z.of_nat 0) with 1 in Hp. cbn [grow_cap]. rewrite (proj2 (Z.ltb_ge _ _)) by lia. exists c. split; [done|lia].
  - cbn [grow_cap]. destruct (Z.ltb_spec c need); [|exists c; split; [done|lia]]. rewrite u64_id by (unfold is_u64; lia).
    rewrite Nat2Z.inj_succ, Z.pow_succ_r in Hp by lia. apply IH; [lia|done|]. rewrite <- Z.mul_assoc. lia.
Qed.

Lemma writes_bytes bs : writes (λ b, eskb_buf_write b bs) bs.
Proof.
  intros b Hb Hl. unfold buffer_ok in Hb. unfold eskb_buf_write, eskb_buf_ensure, b_len in *. rewrite u64_id by (unfold is_u64; lia).
  destruct (Z.leb_spec (Z.of_nat (length (b_data b)) + Z.of_nat (length bs)) (b_cap b)); [exists (b_cap b); split; [done|lia]|].
  remember (_ + _) as need eqn:En. assert (∃ c', grow_cap 64 (if b_cap b =? 0 then 4096 else u64 (b_cap b * 2)) need = Some c' ∧ need <= c' ∧ 0 <= c' <= 2 ^ 32) as (c' & -> & _ & Hc).
  { apply grow_cap_ok; [|lia|change (2 ^ Z.of_nat 64) with (2 ^ 64)]; (destruct (Z.eqb_spec (b_cap b) 0); [lia|rewrite u64_id by (unfold is_u64; lia); lia]). }
  unfold mbind, alloc_bind, malloc, PTRDIFF_MAX. rewrite (proj2 (Z.ltb_ge _ _)) by lia. by exists c'.
Qed.

Lemma writes_ok : writes (λ b, mret (true, b)) [].
Proof. intros b Hb _. exists (b_cap b). split; [|done]. unfold mret, alloc_ret. rewrite app_nil_r. by destruct b. Qed.

Lemma writes_then f g bs cs : writes f bs → writes g cs → writes (λ b, then_write (f b) g) (bs ++ cs).
Proof.
  intros Hf Hg b Hb Hl. unfold b_len in *. rewrite length_app in Hl. destruct (Hf b Hb) as (cap & E & Hc); [unfold b_len; lia|].
  unfold then_write, mbind, alloc_bind. rewrite E. destruct (Hg (Buffer (b_data b ++ bs) cap)) as (cap' & E' & Hc'); [done|unfold b_len; simpl; rewrite length_app; lia|].
  exists cap'. rewrite E'. simpl. by rewrite app_assoc.
Qed.

(** The same where the answer is dropped. *)
Definition appends (f : EskbBuffer → AllocM EskbBuffer) (bs : bytes) : Prop := ∀ b, buffer_ok b → b_len b + Z.of_nat (length bs) < 2 ^ 31 →
  ∃ cap, f b [] = Some (Buffer (b_data b ++ bs) cap, []) ∧ 0 <= cap <= 2 ^ 32.

Lemma appends_write f bs : writes f bs → appends (λ b, write_anyway (f b)) bs.
Proof. intros Hf b Hb Hl. destruct (Hf b Hb Hl) as (cap & E & Hc). exists cap. split; [|done]. unfold write_anyway, mbind, alloc_bind. by rewrite E. Qed.

Lemma appends_ret : appends mret [].
Proof. intros b Hb _. exists (b_cap b). split; [|done]. unfold mret, alloc_ret. rewrite app_nil_r. by destruct b. Qed.

Lemma appends_run {A} f bs (b : EskbBuffer) (k : EskbBuffer → AllocM A) res : appends f bs → buffer_ok b → b_len b + Z.of_nat (length bs) < 2 ^ 31 →
  (∀ cap, 0 <= cap <= 2 ^ 32 → k (Buffer (b_data b ++ bs) cap) [] = res) → (x ← f b; k x) [] = res.
Proof. intros Hf Hb Hl Hk. destruct (Hf b Hb Hl) as (cap & E & Hc). unfold mbind, alloc_bind. rewrite E. by apply Hk. Qed.

Lemma appends_bind f g bs cs : appends f bs → appends g cs → appends (λ b, x ← f b; g x) (bs ++ cs).
Proof.
  intros Hf Hg b Hb Hl. rewrite length_app in Hl. destruct (Hf b Hb) as (cap & E & Hc); [lia|].
  destruct (Hg (Buffer (b_data b ++ bs) cap)) as (cap' & E' & Hc'); [done|unfold b_len in *; simpl; rewrite length_app; lia|].
  exists cap'. unfold mbind, alloc_bind. rewrite E, E'. simpl. by rewrite app_assoc.
Qed.

(** *** The encodings *)

Definition leb_of (v : Z) : bytes := eskb_write_leb128 v.
Definition string_of (s : bytes) : bytes := leb_of (Z.of_nat (length s)) ++ s.
Definition instruction_of (op operand : Z) : bytes := op :: leb_of (zigzag operand).
(** Jumps are relative to the function. *)
Definition relative (fn : EskbFunctionDef) (i : EskbInstr) : Z := if is_code_target (i_op i) then i_operand i - fn_code_base fn else i_operand i.
Definition code_of (fn : EskbFunctionDef) (code : list EskbInstr) : bytes := concat (map (λ i, instruction_of (i_op i) (relative fn i)) code).
Definition instrs (fn : EskbFunctionDef) : list EskbInstr := default [] (fn_code fn).
Definition name_of (fn : EskbFunctionDef) : bytes := default [] (fn_name fn).
Definition function_of (fn : EskbFunctionDef) : bytes :=
  string_of (name_of fn) ++ [fn_params fn] ++ leb_of (fn_locals fn) ++ leb_of (fn_upvalues fn) ++ leb_of (fn_code_len fn) ++ code_of fn (instrs fn).
Definition text_of (c : EskbConst) : bytes := take (Z.to_nat (c_str_len c)) (c_str c).
Definition constant_of (c : EskbConst) : bytes :=
  let t := c_type c in
  t :: (if t =? ESKB_CONST_NIL then [] else if t =? ESKB_CONST_INT64 then le_bytes 8 (c_as c) else if t =? ESKB_CONST_F64 then le_bytes 8 (c_as c)
        else if t =? ESKB_CONST_BOOL then [if u32 (c_as c) =? 0 then 0 else 1] else string_of (text_of c)).
Definition constants_of (cs : list EskbConst) : bytes := leb_of (Z.of_nat (length cs)) ++ concat (map constant_of cs).
Definition functions_of (fs : list EskbFunctionDef) : bytes := leb_of (Z.of_nat (length fs)) ++ concat (map function_of fs).
Definition sections_of (cs : list EskbConst) (fs : list EskbFunctionDef) (src : option bytes) : list (Z * bytes) :=
  [(ESKB_SECTION_CONST, constants_of cs); (ESKB_SECTION_CODE, functions_of fs)] ++
  match src with Some s => [(ESKB_SECTION_META, string_of s)] | None => [] end.
Definition descriptor_of (s : Z * bytes) : bytes := s.1 :: leb_of (Z.of_nat (length s.2)).
Definition payload_of (secs : list (Z * bytes)) : bytes := leb_of (Z.of_nat (length secs)) ++ concat (map descriptor_of secs) ++ concat (map snd secs).
Definition header_of (payload : bytes) : bytes := le_bytes 4 ESKB_MAGIC ++ le_bytes 4 ESKB_VERSION ++ le_bytes 4 ESKB_FLAG_LITTLE_ENDIAN ++ le_bytes 4 (eskb_crc32 payload).
Definition file_of (cs : list EskbConst) (fs : list EskbFunctionDef) (src : option bytes) : bytes :=
  let payload := payload_of (sections_of cs fs src) in header_of payload ++ payload.

(** *** What can be written and read again *)

Record constant_writable (c : EskbConst) : Prop := {
  cw_supported : supported (c_type c) = true;
  cw_word : is_u64 (c_as c);
  cw_text : c_type c = ESKB_CONST_STRING → 0 <= c_str_len c <= Z.of_nat (length (c_str c)) ∧ c_str_len c <= INT_MAX }.
Record function_writable (fn : EskbFunctionDef) : Prop := {
  fw_name : ∃ s, fn_name fn = Some s ∧ 0 < Z.of_nat (length s) <= 255;
  fw_code : ∃ code, fn_code fn = Some code ∧ 0 < fn_code_len fn ∧ fn_code_len fn = Z.of_nat (length code);
  fw_locals : 0 <= fn_locals fn <= INT_MAX;
  fw_upvalues : 0 <= fn_upvalues fn <= INT_MAX;
  fw_operands : Forall (λ i, - 2 ^ 31 <= i_operand i < 2 ^ 31) (instrs fn);
  fw_jumps : Forall (λ i, is_code_target (i_op i) = true → fn_code_base fn <= i_operand i < fn_code_base fn + fn_code_len fn) (instrs fn) }.

(** *** The writer *)

Lemma writes_leb v : writes (λ b, eskb_buf_write_leb128 b v) (leb_of v).
Proof. apply writes_bytes. Qed.

Lemma writes_string s : writes (λ b, eskb_buf_write_string b s) (string_of s).
Proof. apply writes_then; apply writes_bytes. Qed.

Lemma relative_written fn i : (is_code_target (i_op i) = true → fn_code_base fn <= i_operand i < fn_code_base fn + fn_code_len fn) →
  operand_to_write fn i = Some (relative fn i).
Proof.
  unfold operand_to_write, relative. intros Hj. destruct (is_code_target (i_op i)); [|by rewrite andb_false_r]. specialize (Hj eq_refl).
  destruct (Z.eqb_spec (fn_code_base fn) 0) as [E|]; simpl; [by rewrite E, Z.sub_0_r|]. by rewrite (proj2 (Z.ltb_ge _ _)), (proj2 (Z.leb_gt _ _)) by lia.
Qed.

Lemma writes_code fn before code : Forall (λ i, is_code_target (i_op i) = true → fn_code_base fn <= i_operand i < fn_code_base fn + fn_code_len fn) code →
  writes (write_code (length code) (Z.of_nat (length before)) fn (before ++ code)) (code_of fn code).
Proof.
  intros Hj. revert before. induction Hj as [|i code Hi _ IH]; intros before; [apply writes_ok|]. cbn [write_code length].
  unfold at_index. rewrite (proj2 (Z.ltb_ge _ _)), Nat2Z.id, list_lookup_middle by lia. rewrite relative_written by done.
  apply (writes_then _ _ (instruction_of (i_op i) (relative fn i))); [apply (writes_then _ _ [i_op i]); apply writes_bytes|]. specialize (IH (before ++ [i])). rewrite length_app, <- app_assoc in IH. cbn [length app] in IH.
  by replace (Z.of_nat (length before) + 1) with (Z.of_nat (length before + 1)) by lia.
Qed.

Lemma writes_function fn : function_writable fn → writes (λ b, eskb_write_function b fn) (function_of fn).
Proof.
  intros [(s & Es & Hs) (code & Ec & Hl & El) _ _ _ Hj]. unfold eskb_write_function, function_of, instrs, name_of in *. rewrite Es, Ec in *. cbn [default] in *.
  destruct s as [|c s]; [simpl in Hs; lia|]. rewrite (proj2 (Z.leb_gt _ _)), (proj2 (Z.ltb_ge _ _)) by lia.
  do 5 (apply writes_then; [apply writes_string || apply writes_bytes|]).
  pose proof (writes_code fn [] code Hj) as Hc. replace (Z.to_nat (fn_code_len fn)) with (length code) by lia. exact Hc.
Qed.

Lemma writes_functions fs : Forall function_writable fs → writes (write_functions (length fs) fs) (concat (map function_of fs)).
Proof.
  induction 1 as [|f fs Hf _ IH]; [apply writes_ok|]. cbn [write_functions length map concat]. apply writes_then; [by apply writes_function|done].
Qed.

Lemma appends_constant c : constant_writable c → appends (λ b, write_constant b c) (constant_of c).
Proof.
  intros [Ht _ Hs]. unfold write_constant, constant_of. change (?t :: ?l) with ([t] ++ l).
  apply (appends_bind (λ b, write_anyway (eskb_buf_write_u8 b (c_type c))) _ [c_type c]); [apply appends_write, writes_bytes|].
  destruct (c_type c =? ESKB_CONST_NIL) eqn:E0; [apply appends_ret|]. destruct (c_type c =? ESKB_CONST_INT64) eqn:E1; [apply appends_write, writes_bytes|].
  destruct (c_type c =? ESKB_CONST_F64) eqn:E2; [apply appends_write, writes_bytes|]. destruct (c_type c =? ESKB_CONST_BOOL) eqn:E3; [apply appends_write, writes_bytes|].
  unfold supported in Ht. rewrite E0, E1, E2, E3 in Ht. apply Z.eqb_eq, Hs in Ht.
  rewrite (proj2 (Z.ltb_ge (c_str_len c) 0)), (proj2 (Z.ltb_ge _ _)) by lia. apply appends_write, writes_string.
Qed.

Lemma appends_constants cs : Forall constant_writable cs → appends (write_constants (length cs) cs) (concat (map constant_of cs)).
Proof. induction 1 as [|c cs Hc _ IH]; [apply appends_ret|]. apply (appends_bind (λ b, write_constant b c)); [by apply appends_constant|done]. Qed.

Lemma constants_supported_ok cs : Forall constant_writable cs → constants_supported (length cs) cs = Some true.
Proof. induction 1 as [|c cs [E _ _] _ IH]; [done|]. cbn [constants_supported length]. by rewrite E. Qed.

(** Makes the next write, which [H] describes. *)
Ltac append_with H :=
  eapply (appends_run _ _ _ _ _ H); [unfold buffer_ok; simpl; lia|unfold b_len; cbn [b_data eskb_buf_init]; repeat (rewrite ?length_app; cbn [length]); lia|];
  let cap := fresh "cap" in let Hc := fresh "Hcap" in intros cap Hc; cbn [b_data eskb_buf_init app].

Lemma write_file_ok room cs fs src : Forall constant_writable cs → Forall function_writable fs → fs ≠ [] →
  Z.of_nat (length (payload_of (sections_of cs fs src))) < 2 ^ 31 →
  eskb_write_file_with_functions true room (Some cs) (Z.of_nat (length cs)) (Some fs) (Z.of_nat (length fs)) src [] =
    Some (0, Some (take room (file_of cs fs src)), []).
Proof.
  intros Hcs Hfs Hne Hl. assert (0 < Z.of_nat (length fs)) by (destruct fs; [done|simpl; lia]).
  unfold eskb_write_file_with_functions. rewrite (proj2 (Z.ltb_ge _ _)), (proj2 (Z.leb_gt _ _)) by lia.
  cbn [orb]. cbv iota. rewrite !Nat2Z.id, constants_supported_ok by done. cbv beta iota.
  assert (Hc : (length (constants_of cs) + length (functions_of fs) <= length (payload_of (sections_of cs fs src)))%nat).
  { unfold payload_of, sections_of. cbn [map concat app snd]. rewrite !length_app. lia. }
  pose proof Hc as Hc0. unfold constants_of, functions_of in Hc0. rewrite !length_app in Hc0.
  append_with (appends_write _ _ (writes_leb (Z.of_nat (length cs)))). append_with (appends_constants cs Hcs).
  destruct (writes_then _ _ _ _ (writes_leb (Z.of_nat (length fs))) (writes_functions fs Hfs) eskb_buf_init) as (cap' & E & Hc').
  { unfold buffer_ok. simpl. lia. }
  { unfold b_len. simpl. rewrite length_app. lia. }
  unfold mbind at 1, alloc_bind at 1. rewrite E. clear E. cbn [negb b_data app eskb_buf_init].
  fold (constants_of cs) (functions_of fs). unfold file_of, payload_of, sections_of in *. clear Hc0.
  generalize dependent (constants_of cs). generalize dependent (functions_of fs). intros F C Hl Hc. cbn [b_data] in *. unfold b_len. cbn [b_data].
  destruct src as [s|]; cbn [map concat app length fst snd] in *; unfold descriptor_of in *; cbn [fst snd app] in *; rewrite ?app_nil_r in *; repeat (rewrite ?length_app in Hl; cbn [length] in Hl).
  - change (Z.of_nat 3) with 3 in *.
    append_with (appends_write _ _ (writes_string s)). append_with (appends_write _ _ (writes_leb 3)).
    append_with (appends_write _ _ (writes_bytes [ESKB_SECTION_CONST])). append_with (appends_write _ _ (writes_leb (Z.of_nat (length C)))).
    append_with (appends_write _ _ (writes_bytes [ESKB_SECTION_CODE])). append_with (appends_write _ _ (writes_leb (Z.of_nat (length F)))).
    append_with (appends_bind _ _ _ _ (appends_write _ _ (writes_bytes [ESKB_SECTION_META])) (appends_write _ _ (writes_leb (Z.of_nat (length (string_of s)))))).
    append_with (appends_write _ _ (writes_bytes C)). append_with (appends_write _ _ (writes_bytes F)). append_with (appends_write _ _ (writes_bytes (string_of s))).
    unfold mret, alloc_ret, header_of. by do 6 (rewrite <- ?app_assoc; cbn [app]).
  - change (Z.of_nat 2) with 2 in *. append_with appends_ret. append_with (appends_write _ _ (writes_leb 2)).
    append_with (appends_write _ _ (writes_bytes [ESKB_SECTION_CONST])). append_with (appends_write _ _ (writes_leb (Z.of_nat (length C)))).
    append_with (appends_write _ _ (writes_bytes [ESKB_SECTION_CODE])). append_with (appends_write _ _ (writes_leb (Z.of_nat (length F)))).
    append_with appends_ret. append_with (appends_write _ _ (writes_bytes C)). append_with (appends_write _ _ (writes_bytes F)). append_with appends_ret.
    unfold mret, alloc_ret, header_of. rewrite !app_nil_r. by do 6 (rewrite <- ?app_assoc; cbn [app]).
Qed.

(** ** Reading *)

(** [m] reads [bs] from anywhere in a buffer below 2 GiB, all allocations succeeding, and gives [v];
    [reads_all] is for a reader whose bytes end there. *)
Definition reads {A} (m : ReadM A) (bs : bytes) (v : A) : Prop := ∀ pre post len,
  Z.of_nat (length pre) + Z.of_nat (length bs) <= len → len < 2 ^ 31 →
  m (Reader (pre ++ bs ++ post) len (Z.of_nat (length pre))) [] =
    Loaded v (Reader (pre ++ bs ++ post) len (Z.of_nat (length pre) + Z.of_nat (length bs))) [].
Definition reads_all {A} (m : ReadM A) (bs : bytes) (v : A) : Prop := ∀ pre post,
  let len := Z.of_nat (length pre) + Z.of_nat (length bs) in len < 2 ^ 31 →
  m (Reader (pre ++ bs ++ post) len (Z.of_nat (length pre))) [] = Loaded v (Reader (pre ++ bs ++ post) len len) [].

Lemma reads_ret {A} (v : A) : reads (mret v) [] v.
Proof. intros pre post len _ _. unfold mret, readm_ret. by rewrite Z.add_0_r. Qed.

Lemma reads_step {A B} (m : ReadM A) (f : A → ReadM B) bs v pre post len : reads m bs v → Z.of_nat (length pre) + Z.of_nat (length bs) <= len → len < 2 ^ 31 →
  (m ≫= f) (Reader (pre ++ bs ++ post) len (Z.of_nat (length pre))) [] = f v (Reader ((pre ++ bs) ++ post) len (Z.of_nat (length (pre ++ bs)))) [].
Proof. intros Hm Hl Hlen. unfold mbind, readm_bind. rewrite Hm by done. by rewrite length_app, Nat2Z.inj_add, <- app_assoc. Qed.

Lemma reads_bind {A B} (m : ReadM A) (f : A → ReadM B) bs cs v w : reads m bs v → reads (f v) cs w → reads (m ≫= f) (bs ++ cs) w.
Proof.
  intros Hm Hf pre post len Hl Hlen. rewrite length_app in Hl. rewrite <- app_assoc, (reads_step m f bs v) by (done || lia).
  rewrite Hf by (rewrite ?length_app; lia). rewrite <- !app_assoc, !length_app. do 2 f_equal. lia.
Qed.

Lemma reads_all_bind {A B} (m : ReadM A) (f : A → ReadM B) bs cs v w : reads m bs v → reads_all (f v) cs w → reads_all (m ≫= f) (bs ++ cs) w.
Proof.
  intros Hm Hf pre post len Hl. unfold len in *. rewrite length_app in *. rewrite <- app_assoc, (reads_step m f bs v) by (done || lia).
  pose proof (Hf (pre ++ bs) post) as E. rewrite length_app in *. replace (Z.of_nat (length pre) + Z.of_nat (length bs + length cs)) with
    (Z.of_nat (length pre + length bs) + Z.of_nat (length cs)) in * by lia. rewrite E by done. by rewrite <- app_assoc.
Qed.

(** Steps that read nothing. *)
Lemma reads_free {A B} (m : ReadM A) (f : A → ReadM B) cs v w : reads m [] v → reads (f v) cs w → reads (m ≫= f) cs w.
Proof. apply (reads_bind m f []). Qed.
Lemma reads_all_free {A B} (m : ReadM A) (f : A → ReadM B) cs v w : reads m [] v → reads_all (f v) cs w → reads_all (m ≫= f) cs w.
Proof. apply (reads_all_bind m f []). Qed.

Lemma reads_all_end {A} (v : A) : reads_all (section_end ;; mret v) [] v.
Proof. intros pre post len Hl. unfold mbind, readm_bind, section_end, mret, readm_ret, len. simpl. by rewrite Z.add_0_r, Z.eqb_refl. Qed.

Lemma reads_check b : b = true → reads (check b) [] tt.
Proof. intros ->. apply reads_ret. Qed.

Lemma reads_access {A} (o : option A) v : o = Some v → reads (of_access o) [] v.
Proof. intros ->. apply reads_ret. Qed.

Lemma reads_allocate n : n <= PTRDIFF_MAX → reads (allocate n) [] tt.
Proof. intros Hn pre post len _ _. unfold allocate, malloc. rewrite (proj2 (Z.ltb_ge _ _)) by done. simpl. by rewrite Z.add_0_r. Qed.

Lemma reads_u8 b : reads eskb_read_u8 [b] b.
Proof.
  intros pre post len Hl Hlen. cbn [length] in Hl. unfold eskb_read_u8, advance, at_index. cbn [r_len r_pos r_data].
  rewrite (proj2 (Z.leb_gt _ _)), (proj2 (Z.ltb_ge _ _)), Nat2Z.id by lia. cbn [app]. rewrite list_lookup_middle by done. rewrite u64_id by (unfold is_u64; lia). done.
Qed.

Lemma reads_bytes bs : reads (eskb_read_bytes (Z.of_nat (length bs))) bs bs.
Proof.
  intros pre post len Hl Hlen. unfold eskb_read_bytes, advance. cbn [r_len r_pos r_data]. rewrite u64_id by (unfold is_u64; lia).
  rewrite (proj2 (Z.ltb_ge _ _)), !Nat2Z.id, drop_app_length, take_app_length, Z.eqb_refl by lia. done.
Qed.

Lemma length_leb_of v : 0 <= v → (0 < length (leb_of v))%nat.
Proof. intros Hv. unfold leb_of, eskb_write_leb128. rewrite write_leb_step by done. destruct (_ <? _); cbn [length]; lia. Qed.

Lemma reads_leb v : is_u64 v → reads eskb_read_leb (leb_of v) v.
Proof.
  intros Hv pre post len Hl Hlen. pose proof (length_leb_of v (proj1 Hv)). unfold is_u64 in Hv. unfold eskb_read_leb, advance, eskb_read_leb128. cbn [r_len r_pos r_data].
  rewrite (proj2 (Z.leb_gt _ _)), Nat2Z.id, drop_app_length, i32_id by lia.
  assert (Hv' : 0 <= v < 2 ^ (7 * (Z.of_nat 9 + 1))) by (change (2 ^ (7 * (Z.of_nat 9 + 1))) with (2 ^ 70); lia).
  rewrite (read_leb_ok 9 10 v 0 0 _ post); [|exact Hv'|lia|lia|split; [lia|reflexivity]|change (2 ^ (7 * 0)) with 1; lia|lia|reflexivity|unfold leb_of, eskb_write_leb128 in *; lia].
  change (2 ^ (7 * 0)) with 1. rewrite u64_id by (unfold is_u64, leb_of, eskb_write_leb128 in *; lia). by rewrite Z.mul_1_r.
Qed.

Lemma reads_string_alloc s : Z.of_nat (length s) < 2 ^ 31 → reads eskb_read_string_alloc (string_of s) s.
Proof.
  intros Hs. apply (reads_bind _ _ (leb_of (Z.of_nat (length s)))) with (v := Z.of_nat (length s)); [apply reads_leb; unfold is_u64; lia|].
  eapply reads_free; [apply reads_check, Z.leb_le; unfold UINT64_MAX; lia|]. eapply reads_free; [apply reads_allocate; unfold PTRDIFF_MAX; lia|]. apply reads_bytes.
Qed.

Lemma reads_string max_len s : Z.of_nat (length s) < max_len <= 2 ^ 31 → reads (eskb_read_string max_len) (string_of s) s.
Proof.
  intros Hs. apply (reads_bind _ _ (leb_of (Z.of_nat (length s)))) with (v := Z.of_nat (length s)); [apply reads_leb; unfold is_u64; lia|].
  eapply reads_free; [apply reads_check, Z.leb_le; lia|]. apply reads_bytes.
Qed.

Lemma reads_instruction op operand : - 2 ^ 31 <= operand < 2 ^ 31 → reads eskb_read_instruction (instruction_of op operand) (op, operand).
Proof.
  intros Ho. destruct (unzigzag operand Ho) as [Hz E]. apply (reads_bind _ _ [op]) with (v := op); [apply reads_u8|].
  rewrite <- (app_nil_r (leb_of _)). eapply reads_bind; [apply reads_leb; unfold is_u64, UINT32_MAX in *; lia|].
  cbv zeta. rewrite E. eapply reads_free; [apply reads_check, Z.leb_le; lia|].
  eapply reads_free; [apply reads_check, andb_true_intro; split; apply Z.leb_le; unfold INT_MAX; lia|]. apply reads_ret.
Qed.

(** *** Arrays that are filled from the front *)

Lemma reads_store {A} (l : list A) k zero i v : i = Z.of_nat (length l) →
  reads (store_at (l ++ replicate (S k) zero) i v) [] ((l ++ [v]) ++ replicate k zero).
Proof.
  intros ->. unfold store_at. rewrite (proj2 (Z.leb_le _ _)), (proj2 (Z.ltb_lt _ _)), Nat2Z.id by (rewrite ?length_app, ?length_replicate; lia). simpl.
  rewrite insert_app_r_alt, Nat.sub_diag by lia. simpl. rewrite <- app_assoc. apply reads_ret.
Qed.

Lemma replicate_shift {A} (l : list A) k zero : l ++ replicate (S k) zero = (l ++ [zero]) ++ replicate k zero.
Proof. by rewrite <- app_assoc. Qed.

Lemma reads_calloc {A} count size (zero : A) : count * size <= PTRDIFF_MAX → reads (calloc count size zero) [] (replicate (Z.to_nat count) zero).
Proof. intros Hs. eapply reads_free; [by apply reads_allocate|apply reads_ret]. Qed.

(** *** Constants *)

Definition loaded_int (c : EskbConst) : Z :=
  let t := c_type c in
  if t =? ESKB_CONST_INT64 then i64 (c_as c) else if t =? ESKB_CONST_BOOL then (if u32 (c_as c) =? 0 then 0 else 1)
  else if t =? ESKB_CONST_STRING then Z.of_nat (length (text_of c)) else 0.
Definition loaded_float (c : EskbConst) : Z := if c_type c =? ESKB_CONST_F64 then c_as c else 0.
Definition loaded_string (c : EskbConst) : option bytes := if c_type c =? ESKB_CONST_STRING then Some (text_of c) else None.

(** The constants [cs] and [k] more entries that are not read yet. *)
Definition with_read (cs : list EskbConst) (k : nat) (n : Z) (m : EskbModule) : EskbModule :=
  with_constants (map c_type cs ++ replicate k 0) (map loaded_int cs ++ replicate k 0) (map loaded_float cs ++ replicate k 0)
    (map loaded_string cs ++ replicate k None) n m.

Lemma reads_word v : reads (eskb_read_bytes 8) (le_bytes 8 v) (le_bytes 8 v).
Proof. exact (reads_bytes (le_bytes 8 v)). Qed.

Lemma reads_i64 v : is_u64 v → reads eskb_read_i64 (le_bytes 8 v) (i64 v).
Proof. intros Hv. rewrite <- (app_nil_r (le_bytes 8 v)). eapply reads_bind; [apply reads_word|]. rewrite le_value_bytes by done. apply reads_ret. Qed.

Lemma reads_f64 v : is_u64 v → reads eskb_read_f64 (le_bytes 8 v) v.
Proof. intros Hv. rewrite <- (app_nil_r (le_bytes 8 v)). eapply reads_bind; [apply reads_word|]. rewrite le_value_bytes by done. apply reads_ret. Qed.

Lemma reads_constant cs c k n m : constant_writable c →
  reads (read_constant (Z.of_nat (length cs)) (with_read cs (S k) n m)) (constant_of c) (with_read (cs ++ [c]) k n m).
Proof.
  intros [Ht Hw Hs]. unfold read_constant, constant_of. apply (reads_bind _ _ [c_type c]) with (v := c_type c); [apply reads_u8|].
  eapply reads_free; [by apply reads_access|]. eapply reads_free; [apply reads_store; by rewrite length_map|].
  cbn [with_read with_constants const_types const_ints const_floats const_strings n_constants].
  assert (Hend : ∀ ints floats strings, ints = (map loaded_int cs ++ [loaded_int c]) ++ replicate k 0 →
    floats = (map loaded_float cs ++ [loaded_float c]) ++ replicate k 0 → strings = (map loaded_string cs ++ [loaded_string c]) ++ replicate k None →
    reads (mret (with_constants ((map c_type cs ++ [c_type c]) ++ replicate k 0) ints floats strings n m)) [] (with_read (cs ++ [c]) k n m)).
  { intros ? ? ? -> -> ->. unfold with_read. rewrite !map_app. apply reads_ret. }
  unfold loaded_int, loaded_float, loaded_string in Hend. assert (Hst : ∀ A (l : list EskbConst) (f : EskbConst → A) zero v,
    l = cs → reads (store_at (map f l ++ replicate (S k) zero) (Z.of_nat (length cs)) v) [] ((map f l ++ [v]) ++ replicate k zero)).
  { intros A l f zero v ->. apply reads_store. by rewrite length_map. }
  unfold supported in Ht. destruct (Z.eqb_spec (c_type c) ESKB_CONST_NIL) as [E|N0].
  { rewrite E in *. apply Hend; apply replicate_shift. }
  destruct (Z.eqb_spec (c_type c) ESKB_CONST_INT64) as [E|N1].
  { rewrite E in *. rewrite <- (app_nil_r (le_bytes 8 _)). eapply reads_bind; [by apply reads_i64|].
    eapply reads_free; [by apply Hst|]. apply Hend; [done|apply replicate_shift..]. }
  destruct (Z.eqb_spec (c_type c) ESKB_CONST_F64) as [E|N2].
  { rewrite E in *. rewrite <- (app_nil_r (le_bytes 8 _)). eapply reads_bind; [by apply reads_f64|].
    eapply reads_free; [by apply Hst|]. apply Hend; [apply replicate_shift|done|apply replicate_shift]. }
  destruct (Z.eqb_spec (c_type c) ESKB_CONST_BOOL) as [E|N3].
  { rewrite E in *. apply (reads_bind _ _ [_] [] (if u32 (c_as c) =? 0 then 0 else 1)); [apply reads_u8|].
    eapply reads_free; [by apply Hst|]. apply Hend; [done|apply replicate_shift..]. }
  cbn [orb] in Ht. rewrite Ht in *. apply Z.eqb_eq in Ht. destruct (Hs Ht) as [Hl1 Hl2]. unfold INT_MAX in Hl2.
  assert (El : Z.of_nat (length (text_of c)) < 2 ^ 31) by (unfold text_of; rewrite length_take; lia).
  rewrite <- (app_nil_r (string_of _)). eapply reads_bind; [by apply reads_string_alloc|]. eapply reads_free; [by apply Hst|]. eapply reads_free; [by apply Hst|].
  apply Hend; [done|apply replicate_shift|done].
Qed.

Lemma reads_constants cs cs' k n m : Forall constant_writable cs' →
  reads (read_constants (length cs') (Z.of_nat (length cs)) (with_read cs (length cs' + k) n m)) (concat (map constant_of cs')) (with_read (cs ++ cs') k n m).
Proof.
  intros Hc. revert cs. induction Hc as [|c cs' Hc _ IH]; intros cs; [rewrite app_nil_r; apply reads_ret|]. cbn [read_constants length map concat].
  eapply reads_bind; [by apply reads_constant|]. specialize (IH (cs ++ [c])). rewrite length_app, <- app_assoc in IH. cbn [length app] in IH.
  by replace (Z.of_nat (length cs) + 1) with (Z.of_nat (length cs + 1)) by lia.
Qed.

Lemma reads_const_section cs m : Forall constant_writable cs → Z.of_nat (length cs) <= INT_MAX → const_types m = None →
  reads_all (read_const_section m) (constants_of cs) (with_read cs (if decide (cs = []) then 1 else 0) (Z.of_nat (length cs)) m).
Proof.
  intros Hc Hn Em. unfold read_const_section, constants_of. unfold INT_MAX in Hn. eapply reads_all_bind; [apply reads_leb; unfold is_u64; lia|].
  eapply reads_all_free; [apply reads_check, Z.leb_le; done|]. eapply reads_all_free; [apply reads_check; by rewrite Em|].
  set (count := if Z.of_nat (length cs) =? 0 then 1 else Z.of_nat (length cs)).
  assert (Hcount : Z.to_nat count = (length cs + if decide (cs = []) then 1 else 0)%nat).
  { unfold count. destruct cs; [done|]. rewrite (proj2 (Z.eqb_neq _ _)), decide_False by (simpl; (done || lia)). lia. }
  assert (0 <= count <= 2 ^ 31) by (unfold count; destruct (_ =? _); lia).
  do 4 (eapply reads_all_free; [apply reads_calloc; unfold PTRDIFF_MAX; lia|]). rewrite Hcount, Nat2Z.id.
  rewrite <- (app_nil_r (concat _)). eapply reads_all_bind; [exact (reads_constants [] cs _ _ m Hc)|apply reads_all_end].
Qed.

(** *** Code *)

(** The operand in a function at [off]. *)
Definition placed_operand (fn : EskbFunctionDef) (off : Z) (i : EskbInstr) : Z := if is_code_target (i_op i) then relative fn i + off else i_operand i.

Definition code_ok (fn : EskbFunctionDef) (code : list EskbInstr) : Prop :=
  Forall (λ i, - 2 ^ 31 <= relative fn i < 2 ^ 31 ∧ (is_code_target (i_op i) = true → 0 <= relative fn i < fn_code_len fn)) code.

Lemma reads_code fn off i m ops args code : code_ok fn code → opcodes m = Some (ops ++ replicate (length code) 0) →
  operands m = Some (args ++ replicate (length code) 0) → off + i = Z.of_nat (length ops) → length args = length ops →
  reads (read_code (length code) i (fn_code_len fn) off m) (code_of fn code)
    (with_code (ops ++ map i_op code) (args ++ map (placed_operand fn off) code) (code_len m) m).
Proof.
  intros Hc. revert i m ops args. induction Hc as [|ins code [Hr Hj] _ IH]; intros i m ops args Eo Ea Hi Hl.
  - rewrite !app_nil_r in *. replace (with_code ops args (code_len m) m) with m by (destruct m; simpl in *; by subst). apply reads_ret.
  - cbn [read_code length map]. apply (reads_bind _ _ (instruction_of (i_op ins) (relative fn ins)) _ (i_op ins, relative fn ins)); [by apply reads_instruction|].
    eapply reads_free; [by apply reads_access|]. eapply reads_free; [by apply reads_store|].
    eapply reads_free; [apply reads_check|].
    { destruct (is_code_target (i_op ins)); [|done]. destruct (Hj eq_refl). simpl. apply andb_true_intro. rewrite Z.leb_le, Z.ltb_lt. lia. }
    eapply reads_free; [by apply reads_access|]. eapply reads_free; [apply reads_store; lia|].
    replace (if is_code_target (i_op ins) then relative fn ins + off else relative fn ins) with (placed_operand fn off ins)
      by (unfold placed_operand, relative; by destruct (is_code_target _)).
    specialize (IH (i + 1) (with_code ((ops ++ [i_op ins]) ++ replicate (length code) 0) ((args ++ [placed_operand fn off ins]) ++ replicate (length code) 0) (code_len m) m)
      _ _ eq_refl eq_refl). rewrite !length_app in IH. cbn [length] in IH. rewrite <- !app_assoc in *. apply IH; lia.
Qed.

Definition placed (off : Z) (fn : EskbFunctionDef) : EskbFunction := Function (fn_name fn) (fn_params fn) (fn_locals fn) (fn_upvalues fn) off (fn_code_len fn).
Definition total_code (fs : list EskbFunctionDef) : Z := foldr (λ fn n, fn_code_len fn + n) 0 fs.
Fixpoint placed_functions (off : Z) (fs : list EskbFunctionDef) : list EskbFunction :=
  match fs with [] => [] | fn :: fs => placed off fn :: placed_functions (off + fn_code_len fn) fs end.
Definition placed_opcodes (fs : list EskbFunctionDef) : list Z := concat (map (λ fn, map i_op (instrs fn)) fs).
Fixpoint placed_operands (off : Z) (fs : list EskbFunctionDef) : list Z :=
  match fs with [] => [] | fn :: fs => map (placed_operand fn off) (instrs fn) ++ placed_operands (off + fn_code_len fn) fs end.

(** The functions [fs] and [k] more entries that are not read yet. *)
Definition with_functions_read (fs : list EskbFunctionDef) (k : nat) (n : Z) (m : EskbModule) : EskbModule :=
  let m := with_functions (placed_functions 0 fs ++ replicate k no_function) n m in
  match fs with [] => m | _ => with_code (placed_opcodes fs) (placed_operands 0 fs) (total_code fs) m end.

Lemma total_code_app fs fn : total_code (fs ++ [fn]) = total_code fs + fn_code_len fn.
Proof. induction fs as [|g fs IH]; simpl; [lia|]. rewrite IH. lia. Qed.

Lemma placed_functions_app off fs fn : placed_functions off (fs ++ [fn]) = placed_functions off fs ++ [placed (off + total_code fs) fn].
Proof. revert off. induction fs as [|g fs IH]; intros off; simpl; [by rewrite Z.add_0_r|]. rewrite IH. by rewrite Z.add_assoc. Qed.

Lemma placed_operands_app off fs fn : placed_operands off (fs ++ [fn]) = placed_operands off fs ++ map (placed_operand fn (off + total_code fs)) (instrs fn).
Proof. revert off. induction fs as [|g fs IH]; intros off; simpl; [by rewrite Z.add_0_r, app_nil_r|]. rewrite IH, <- app_assoc. by rewrite Z.add_assoc. Qed.

Lemma placed_opcodes_app fs fn : placed_opcodes (fs ++ [fn]) = placed_opcodes fs ++ map i_op (instrs fn).
Proof. unfold placed_opcodes. rewrite map_app, concat_app. simpl. by rewrite app_nil_r. Qed.

Lemma length_placed_functions off fs : length (placed_functions off fs) = length fs.
Proof. revert off. induction fs as [|g fs IH]; intros off; simpl; [done|]. by rewrite IH. Qed.

Lemma length_placed fs : Forall function_writable fs →
  Z.of_nat (length (placed_opcodes fs)) = total_code fs ∧ ∀ off, length (placed_operands off fs) = length (placed_opcodes fs).
Proof.
  induction 1 as [|fn fs [_ (code & Ec & H1 & H2) _ _ _ _] _ [IH1 IH2]]; [done|].
  change (total_code (fn :: fs)) with (fn_code_len fn + total_code fs). change (placed_opcodes (fn :: fs)) with (map i_op (instrs fn) ++ placed_opcodes fs).
  assert (El : fn_code_len fn = Z.of_nat (length (instrs fn))) by (unfold instrs; by rewrite Ec).
  rewrite length_app, length_map. split; [lia|]. intros off. cbn [placed_operands]. by rewrite length_app, length_map, IH2.
Qed.

Lemma total_code_nonneg fs : Forall function_writable fs → 0 <= total_code fs.
Proof. induction 1 as [|fn fs [_ (code & Ec & H1 & H2) _ _ _ _] _ IH]; simpl; lia. Qed.

Lemma function_code_ok fn : function_writable fn → fn_code_len fn <= ESHKOL_VM_MAX_CODE → code_ok fn (instrs fn).
Proof.
  intros [_ _ _ _ Ho Hj] Hm. unfold code_ok. rewrite Forall_forall in *. intros i Hi. specialize (Ho i Hi). specialize (Hj i Hi). simpl in *.
  unfold relative, ESHKOL_VM_MAX_CODE in *. destruct (is_code_target (i_op i)); [|done]. specialize (Hj eq_refl). lia.
Qed.

Lemma reads_name_is_new before after rest name : Forall (λ f, ∃ s, f_name f = Some s ∧ c_text s ≠ c_text name) after →
  reads (name_is_new (length after) (Z.of_nat (length before)) (before ++ after ++ rest) name) [] tt.
Proof.
  intros Ha. revert before. induction Ha as [|f after (s & Es & Hs) _ IH]; intros before; [apply reads_ret|]. cbn [name_is_new length app].
  eapply reads_free; [apply reads_access; unfold at_index; rewrite (proj2 (Z.ltb_ge _ _)), Nat2Z.id by lia; by apply list_lookup_middle|].
  eapply reads_free; [by apply reads_access|]. unfold same_c_string. rewrite bool_decide_false by done.
  specialize (IH (before ++ [f])). rewrite length_app, <- app_assoc in IH. cbn [length app] in IH. by replace (Z.of_nat (length before) + 1) with (Z.of_nat (length before + 1)) by lia.
Qed.

Lemma reads_realloc l j size count : Z.of_nat (length (default [] l) + j) = count → count * size <= PTRDIFF_MAX →
  reads (realloc l count size) [] (default [] l ++ replicate j 0).
Proof.
  intros Hj Hs. eapply reads_free; [by apply reads_allocate|]. cbv zeta. rewrite take_ge by lia.
  replace (Z.to_nat count - length (default [] l))%nat with j by lia. apply reads_ret.
Qed.

(** A module without code. *)
Definition no_code (m : EskbModule) : Prop := functions m = None ∧ opcodes m = None ∧ operands m = None ∧ code_len m = 0.

Lemma with_functions_read_fields fs k n m : no_code m →
  functions (with_functions_read fs k n m) = Some (placed_functions 0 fs ++ replicate k no_function) ∧
  default [] (opcodes (with_functions_read fs k n m)) = placed_opcodes fs ∧ default [] (operands (with_functions_read fs k n m)) = placed_operands 0 fs ∧
  code_len (with_functions_read fs k n m) = total_code fs ∧ n_functions (with_functions_read fs k n m) = n.
Proof. intros (_ & Eo & Ea & El). destruct fs; simpl; [by rewrite Eo, Ea, El|done]. Qed.

Lemma with_functions_read_next fs fn k k' n m ops args len :
  with_code (placed_opcodes (fs ++ [fn])) (placed_operands 0 (fs ++ [fn])) (total_code (fs ++ [fn]))
    (with_functions (placed_functions 0 (fs ++ [fn]) ++ replicate k no_function) n (with_code ops args len (with_functions_read fs k' n m))) =
  with_functions_read (fs ++ [fn]) k n m.
Proof. by destruct fs. Qed.

Lemma placed_names off fs name : Forall function_writable fs → Forall (λ g, c_text (name_of g) ≠ c_text name) fs →
  Forall (λ f, ∃ s, f_name f = Some s ∧ c_text s ≠ c_text name) (placed_functions off fs).
Proof.
  intros Hf Hn. revert off. induction Hn as [|g fs Hg _ IH]; intros off; [constructor|]. inversion_clear Hf as [|? ? [(s & Es & _) _ _ _ _ _] Hf'].
  constructor; [|by apply IH]. exists s. unfold name_of in Hg. rewrite Es in Hg. done.
Qed.

Lemma reads_function fs fn k n m : no_code m → Forall function_writable fs → function_writable fn →
  Forall (λ g, c_text (name_of g) ≠ c_text (name_of fn)) fs → total_code fs + fn_code_len fn <= ESHKOL_VM_MAX_CODE →
  reads (read_function (Z.of_nat (length fs)) (with_functions_read fs (S k) n m)) (function_of fn) (with_functions_read (fs ++ [fn]) k n m).
Proof.
  intros Hm Hfs Hfn Hnames Hmax. pose proof (total_code_nonneg fs Hfs) as H0. destruct (length_placed fs Hfs) as [Lo La]. specialize (La 0).
  destruct (with_functions_read_fields fs (S k) n m Hm) as (Ef & Eo & Ea & El & En). pose proof Hfn as [(s & Es & Hs) (code & Ec & Hc & Hlc) Hloc Hup _ _].
  assert (Ei : fn_code_len fn = Z.of_nat (length (instrs fn))) by (unfold instrs; by rewrite Ec).
  unfold ESHKOL_VM_MAX_CODE, INT_MAX in *. unfold read_function, function_of, name_of in *. rewrite Es in *. cbn [default] in *.
  apply reads_bind with (v := s); [apply reads_string_alloc; lia|]. 
  eapply reads_free; [apply reads_check, andb_true_intro; split; [destruct s; simpl in *; (done || lia)|apply Z.leb_le; lia]|].
  eapply reads_free; [by apply reads_access|]. rewrite Nat2Z.id.
  eapply reads_free; [rewrite <- (length_placed_functions 0 fs); apply (reads_name_is_new [] (placed_functions 0 fs)); by apply placed_names|].
  apply (reads_bind _ _ [fn_params fn]) with (v := fn_params fn); [apply reads_u8|].
  apply reads_bind with (v := fn_locals fn); [apply reads_leb; unfold is_u64; lia|]. eapply reads_free; [apply reads_check, Z.leb_le; unfold INT_MAX; lia|].
  apply reads_bind with (v := fn_upvalues fn); [apply reads_leb; unfold is_u64; lia|]. eapply reads_free; [apply reads_check, Z.leb_le; unfold INT_MAX; lia|].
  apply reads_bind with (v := fn_code_len fn); [apply reads_leb; unfold is_u64; lia|].
  eapply reads_free; [apply reads_check, andb_true_intro; split; apply Z.leb_le; unfold ESHKOL_VM_MAX_CODE, INT_MAX; lia|]. rewrite El.
  eapply reads_free; [apply reads_check, Z.leb_le; unfold INT_MAX; lia|]. eapply reads_free; [apply reads_check, Z.leb_le; unfold ESHKOL_VM_MAX_CODE; lia|]. cbv zeta.
  rewrite (proj2 (Z.eqb_neq _ _)) by lia.
  eapply reads_free; [apply (reads_realloc _ (length (instrs fn))); [rewrite Eo; lia|unfold PTRDIFF_MAX; lia]|].
  eapply reads_free; [apply (reads_realloc _ (length (instrs fn))); [rewrite Ea; lia|unfold PTRDIFF_MAX; lia]|].
  rewrite Eo, Ea. eapply reads_free; [apply reads_store; by rewrite length_placed_functions|].
  rewrite <- (app_nil_r (code_of _ _)). eapply reads_bind.
  { replace (Z.to_nat (fn_code_len fn)) with (length (instrs fn)) by lia.
    eapply (reads_code fn (total_code fs) 0 _ (placed_opcodes fs) (placed_operands 0 fs)); [apply function_code_ok; (done || unfold ESHKOL_VM_MAX_CODE; lia)|reflexivity|reflexivity|lia|lia]. }
  eapply reads_free; [by apply reads_access|]. eapply reads_free; [by apply reads_access|]. rewrite En.
  rewrite <- (with_functions_read_next fs fn k (S k) n m (placed_opcodes fs) (placed_operands 0 fs) 0).
  rewrite placed_opcodes_app, placed_operands_app, total_code_app, placed_functions_app, !Z.add_0_l. unfold placed. rewrite Es. apply reads_ret.
Qed.

Lemma reads_functions fs fs' k n m : no_code m → Forall function_writable fs → Forall function_writable fs' →
  NoDup (map (λ g, c_text (name_of g)) (fs ++ fs')) → total_code (fs ++ fs') <= ESHKOL_VM_MAX_CODE →
  reads (read_functions (length fs') (Z.of_nat (length fs)) (with_functions_read fs (length fs' + k) n m)) (concat (map function_of fs')) (with_functions_read (fs ++ fs') k n m).
Proof.
  intros Hm Hfs Hfs'. revert fs Hfs. induction Hfs' as [|fn fs' Hfn Hfs' IH]; intros fs Hfs Hnd Hmax; [rewrite app_nil_r; apply reads_ret|].
  cbn [read_functions length map concat]. assert (Ht : ∀ l, total_code (l ++ fn :: fs') = total_code l + fn_code_len fn + total_code fs').
  { induction l as [|g l IHl]; simpl; [lia|]. rewrite IHl. lia. }
  pose proof (total_code_nonneg fs' Hfs'). rewrite Ht in Hmax. eapply reads_bind; [apply reads_function; try done; [|lia]|].
  - rewrite map_app in Hnd. cbn [map] in Hnd. apply list.NoDup_app in Hnd as (_ & Hd & _). rewrite Forall_forall. intros g Hg E.
    apply (Hd (c_text (name_of g))); [apply list_elem_of_In, (List.in_map (λ g, c_text (name_of g))), Hg|]. rewrite E. by left.
  - specialize (IH (fs ++ [fn])). rewrite length_app, <- app_assoc in IH. cbn [length app] in IH.
    replace (Z.of_nat (length fs) + 1) with (Z.of_nat (length fs + 1)) by lia. apply IH; [apply Forall_app; by split; [|constructor]|done|rewrite Ht; lia].
Qed.

Lemma reads_code_section fs m : no_code m → Forall function_writable fs → fs ≠ [] → Z.of_nat (length fs) <= 4096 →
  NoDup (map (λ g, c_text (name_of g)) fs) → total_code fs <= ESHKOL_VM_MAX_CODE →
  reads_all (read_code_section m) (functions_of fs) (with_functions_read fs 0 (Z.of_nat (length fs)) m).
Proof.
  intros Hm Hfs Hne Hn Hnd Hmax. assert (0 < Z.of_nat (length fs)) by (destruct fs; [done|simpl; lia]). unfold read_code_section, functions_of.
  eapply reads_all_bind; [apply reads_leb; unfold is_u64; lia|]. eapply reads_all_free; [apply reads_check, andb_true_intro; split; apply Z.leb_le; unfold INT_MAX; lia|].
  pose proof Hm as (Ef & Eo & _). eapply reads_all_free; [apply reads_check; by rewrite Eo, Ef|]. rewrite (proj2 (Z.eqb_neq _ _)) by lia.
  eapply reads_all_free; [apply reads_calloc; unfold PTRDIFF_MAX; lia|]. rewrite Nat2Z.id.
  rewrite <- (app_nil_r (concat _)). eapply reads_all_bind; [|apply reads_all_end].
  pose proof (reads_functions [] fs 0 (Z.of_nat (length fs)) m Hm ltac:(constructor) Hfs Hnd Hmax) as Hr. by rewrite Nat.add_0_r in Hr.
Qed.

Lemma reads_meta_section s m : Z.of_nat (length s) <= 255 → has_debug m = false → reads_all (read_meta_section m) (string_of s) (with_source s m).
Proof.
  intros Hs Hd. unfold read_meta_section. eapply reads_all_free; [apply reads_check; by rewrite Hd|]. rewrite <- (app_nil_r (string_of s)).
  eapply reads_all_bind; [apply reads_string; lia|apply reads_all_end].
Qed.

(** *** The payload and the file *)

Lemma reads_descriptors secs : Forall (λ s : Z * bytes, Z.of_nat (length s.2) <= UINT32_MAX) secs →
  reads (read_descriptors (length secs)) (concat (map descriptor_of secs)) (map (λ s, (s.1, Z.of_nat (length s.2))) secs).
Proof.
  induction 1 as [|[sid bs] secs Hs _ IH]; [apply reads_ret|]. cbn [read_descriptors length map concat]. unfold UINT32_MAX in Hs.
  apply (reads_bind _ _ [sid]) with (v := sid); [apply reads_u8|]. eapply reads_bind; [apply reads_leb; unfold is_u64; simpl in *; lia|].
  eapply reads_free; [apply reads_check, Z.leb_le; done|]. rewrite <- (app_nil_r (concat _)). eapply reads_bind; [done|apply reads_ret].
Qed.

(** What a section does to the module. *)
Definition read_section (sid : Z) (m : EskbModule) : ReadM EskbModule :=
  if sid =? ESKB_SECTION_CONST then read_const_section m else if sid =? ESKB_SECTION_CODE then read_code_section m
  else if sid =? ESKB_SECTION_META then read_meta_section m else mret m.
Fixpoint sections_read (secs : list (Z * bytes)) (m m' : EskbModule) : Prop :=
  match secs with [] => m = m' | s :: secs => ∃ m1, reads_all (read_section s.1 m) s.2 m1 ∧ sections_read secs m1 m' end.

Lemma read_sections_ok secs pre m m' r : let payload := pre ++ concat (map snd secs) in
  Z.of_nat (length payload) < 2 ^ 31 → sections_read secs m m' →
  ∃ l, lay_sections (Z.of_nat (length payload)) (Z.of_nat (length pre)) (map (λ s, (s.1, Z.of_nat (length s.2))) secs) = Some (l, Z.of_nat (length payload)) ∧
    read_sections payload l m r [] = Loaded m' r [].
Proof.
  revert pre m. induction secs as [|[sid bs] secs IH]; intros pre m payload Hl Hs.
  - exists []. simpl in *. subst. unfold payload. simpl. by rewrite app_nil_r.
  - destruct Hs as (m1 & Hr & Hs). simpl in Hr. destruct (IH (pre ++ bs) m1) as (l & El & Er); [by rewrite <- app_assoc|done|].
    rewrite <- app_assoc in El, Er. change (pre ++ bs ++ concat (map snd secs)) with payload in *.
    assert (El' : (length pre + length bs <= length payload)%nat) by (unfold payload; simpl; rewrite !length_app; lia).
    exists ((sid, Z.of_nat (length bs), Z.of_nat (length pre)) :: l). cbn [map lay_sections fst snd]. rewrite u64_id by (unfold is_u64; lia).
    rewrite (proj2 (Z.ltb_ge _ _)) by lia. rewrite length_app, Nat2Z.inj_add in El. rewrite El. split; [done|].
    cbn [read_sections]. unfold mbind, readm_bind, with_reader. rewrite Nat2Z.id. unfold payload at 1. rewrite drop_app_length. cbn [map concat snd].
    fold (read_section sid m). pose proof (Hr [] (concat (map snd secs))) as E. cbn [app length] in E. change (Z.of_nat 0) with 0 in E. rewrite !Z.add_0_l in E. rewrite E by lia. exact Er.
Qed.

Lemma parse_payload_ok secs m m' r : Z.of_nat (length secs) <= 16 → Z.of_nat (length (payload_of secs)) < 2 ^ 31 → sections_read secs m m' →
  eskb_parse_payload (payload_of secs) (Z.of_nat (length (payload_of secs))) m r [] = Loaded m' r [].
Proof.
  intros Hn Hl Hs. unfold eskb_parse_payload, with_reader. set (t1 := leb_of (Z.of_nat (length secs))). set (t2 := concat (map descriptor_of secs)).
  assert (Hsizes : Forall (λ s : Z * bytes, Z.of_nat (length s.2) <= UINT32_MAX) secs).
  { apply Forall_forall. intros s Hin. apply List.in_split in Hin as (l1 & l2 & ->). unfold payload_of in Hl. rewrite !length_app, (map_app snd), concat_app, length_app in Hl.
    cbn [map concat] in Hl. rewrite length_app in Hl. unfold UINT32_MAX. lia. }
  assert (Ep : payload_of secs = (t1 ++ t2) ++ concat (map snd secs)) by (unfold payload_of; by rewrite <- app_assoc).
  destruct (read_sections_ok secs (t1 ++ t2) m m' (Reader (payload_of secs) (Z.of_nat (length (payload_of secs))) (Z.of_nat (length (t1 ++ t2)))))
    as (l & El & Er); [by rewrite <- Ep|done|]. rewrite <- Ep in El, Er. set (len := Z.of_nat (length (payload_of secs))) in *.
  assert (Hlen : Z.of_nat (length t1) + Z.of_nat (length t2) <= len) by (unfold len; rewrite Ep, !length_app; lia).
  pose proof (reads_leb (Z.of_nat (length secs))) as H1. fold t1 in H1. specialize (H1 ltac:(unfold is_u64; lia)).
  pose proof (reads_step _ (λ n, check (n <=? 16) ;; descs ← read_descriptors (Z.to_nat n); sections ← locate_sections len descs; read_sections (payload_of secs) sections m)
    t1 _ [] (t2 ++ concat (map snd secs)) len H1) as E. cbn [app length] in E. change (Z.of_nat 0) with 0 in E.
  assert (Ep' : payload_of secs = t1 ++ t2 ++ concat (map snd secs)) by (by rewrite Ep, <- app_assoc). rewrite <- Ep' in E. rewrite E by lia. clear E.
  unfold check. rewrite (proj2 (Z.leb_le _ _)) by done. unfold mbind at 1, readm_bind at 1, mret, readm_ret. rewrite Nat2Z.id.
  pose proof (reads_step _ (λ descs, sections ← locate_sections len descs; read_sections (payload_of secs) sections m) t2 _ t1 (concat (map snd secs)) len (reads_descriptors secs Hsizes)) as E.
  fold t2 in E. rewrite <- Ep', <- Ep in E. rewrite E by lia. unfold mbind, readm_bind, locate_sections. cbn [r_pos]. rewrite El, Z.eqb_refl, Er. done.
Qed.

Record writable (cs : list EskbConst) (fs : list EskbFunctionDef) (src : option bytes) : Prop := {
  w_constants : Forall constant_writable cs;
  w_functions : Forall function_writable fs;
  w_count : 0 < Z.of_nat (length fs) <= 4096;
  w_names : NoDup (map (λ fn, c_text (name_of fn)) fs);
  w_total : total_code fs <= ESHKOL_VM_MAX_CODE;
  w_source : Z.of_nat (length (default [] src)) <= 255;
  w_size : Z.of_nat (length (payload_of (sections_of cs fs src))) < 2 ^ 31 }.

(** What is loaded: the code of the functions one after the other, with jumps to places
    in the whole code; the arrays of no constants have one entry. *)
Definition module_of (cs : list EskbConst) (fs : list EskbFunctionDef) (src : option bytes) : EskbModule :=
  let pad {A} (zero : A) := match cs with [] => [zero] | _ => [] end in
  Module (Some (placed_opcodes fs)) (Some (placed_operands 0 fs)) (total_code fs)
    (Some (map c_type cs ++ pad 0)) (map loaded_int cs ++ pad 0) (map loaded_float cs ++ pad 0) (map loaded_string cs ++ pad None) (Z.of_nat (length cs))
    (Some (placed_functions 0 fs)) (Z.of_nat (length fs)) (default [] src) (match src with Some _ => true | None => false end).

Lemma length_constants_of cs : (length cs <= length (constants_of cs))%nat.
Proof.
  unfold constants_of. rewrite length_app. apply Nat.le_trans with (length (concat (map constant_of cs))); [|lia].
  induction cs as [|c cs IH]; [done|]. cbn [map concat length]. rewrite length_app. unfold constant_of at 1. cbn [length]. lia.
Qed.

Lemma parse_written cs fs src r : writable cs fs src → let payload := payload_of (sections_of cs fs src) in
  eskb_parse_payload payload (Z.of_nat (length payload)) no_module r [] = Loaded (module_of cs fs src) r [].
Proof.
  intros [Hc Hf Hn Hnames Ht Hs Hsize] payload.
  assert (Hcs : Z.of_nat (length cs) <= INT_MAX).
  { pose proof (length_constants_of cs). unfold payload_of, sections_of in Hsize. cbn [map concat app snd] in Hsize. rewrite !length_app in Hsize. unfold INT_MAX. lia. }
  assert (Hne : fs ≠ []) by (intros ->; simpl in Hn; lia). apply parse_payload_ok; [destruct src; simpl; lia|done|].
  set (m1 := with_read cs (if decide (cs = []) then 1 else 0)%nat (Z.of_nat (length cs)) no_module).
  assert (R1 : reads_all (read_section ESKB_SECTION_CONST no_module) (constants_of cs) m1) by by apply reads_const_section.
  assert (R2 : reads_all (read_section ESKB_SECTION_CODE m1) (functions_of fs) (with_functions_read fs 0 (Z.of_nat (length fs)) m1)) by (apply reads_code_section; (done || lia)).
  exists m1. split; [exact R1|]. exists (with_functions_read fs 0 (Z.of_nat (length fs)) m1). split; [exact R2|].
  assert (Em : module_of cs fs src = match src with Some s => with_source s (with_functions_read fs 0 (Z.of_nat (length fs)) m1)
                                     | None => with_functions_read fs 0 (Z.of_nat (length fs)) m1 end).
  { unfold m1, module_of, with_functions_read, with_read. destruct src, fs as [|fn fs], cs; try done; cbn [with_functions replicate]; by rewrite !app_nil_r. }
  rewrite Em. destruct src as [s|]; [|done]. eexists. split; [|reflexivity].
  apply (reads_meta_section s); [done|]. by destruct fs.
Qed.

Lemma load_written cs fs src : writable cs fs src → eskb_load_memory (file_of cs fs src) [] = Some (0, module_of cs fs src).
Proof.
  intros Hw. unfold file_of. set (payload := payload_of _).
  assert (Hcrc : 0 <= eskb_crc32 payload < 2 ^ 32) by apply Z.mod_pos_bound, eq_refl. unfold eskb_load_memory, header_of. rewrite !length_app, !length_le_bytes.
  rewrite (proj2 (Z.ltb_ge _ _)) by (unfold sizeof_EskbHeader; lia). change (Z.to_nat sizeof_EskbHeader) with 16%nat. rewrite <- !app_assoc.
  assert (Hd : ∀ a b c d p : bytes, length a = 4%nat → length b = 4%nat → length c = 4%nat → length d = 4%nat →
    take 4 (drop (4 * 0) (a ++ b ++ c ++ d ++ p)) = a ∧ take 4 (drop (4 * 1) (a ++ b ++ c ++ d ++ p)) = b ∧
    take 4 (drop (4 * 3) (a ++ b ++ c ++ d ++ p)) = d ∧ drop 16 (a ++ b ++ c ++ d ++ p) = p).
  { intros a b c d p Ha Hb Hc Hd'. do 5 (destruct a as [|? a]; try done). do 5 (destruct b as [|? b]; try done).
    do 5 (destruct c as [|? c]; try done). do 5 (destruct d as [|? d]; try done). }
  destruct (Hd (le_bytes 4 ESKB_MAGIC) (le_bytes 4 ESKB_VERSION) (le_bytes 4 ESKB_FLAG_LITTLE_ENDIAN) (le_bytes 4 (eskb_crc32 payload)) payload) as (-> & -> & -> & ->); [done..|].
  rewrite !le_value_bytes by (done || exact Hcrc). rewrite !Z.eqb_refl. cbn [negb]. unfold payload. by rewrite parse_written.
Qed.
