(* ===== verification/BytecodeProps.v ===== *)
(** * BytecodeProps: any ESKB file loads safely, and what is written loads again *)

From S2P Require Export BytecodeSpec.
Local Open Scope Z_scope.

(** * The reader of ESKB files stays inside its buffers *)

Definition is_i32 (x : Z) : Prop := - 2 ^ 31 <= x < 2 ^ 31.

(** ** Safe reads *)

(** A reader inside its data. *)
Definition reader_ok (r : EskbReader) : Prop :=
  0 <= r_pos r <= r_len r ∧ r_len r <= Z.of_nat (length (r_data r)) < 2 ^ 63 ∧ Forall is_byte (r_data r).

(** [m] does not fault in such a reader of length [len], and what it gives satisfies [Q]. *)
Definition safe (len : Z) {A} (m : ReadM A) (Q : A → Prop) : Prop := ∀ r l, reader_ok r → r_len r = len →
  match m r l with Loaded a r' _ => Q a ∧ reader_ok r' ∧ r_len r' = len | Rejected => True | Fault => False end.

Section safe.
Context {len : Z}.

Lemma safe_ret {A} (a : A) (Q : A → Prop) : Q a → safe len (mret a) Q.
Proof. by intros HQ r l Hr Hl. Qed.

Lemma safe_reject {A} (Q : A → Prop) : safe len reject Q.
Proof. by intros r l. Qed.

Lemma safe_bind {A B} (m : ReadM A) (f : A → ReadM B) P Q : safe len m P → (∀ a, P a → safe len (f a) Q) → safe len (m ≫= f) Q.
Proof. intros Hm Hf r l Hr Hl. specialize (Hm r l Hr Hl). unfold mbind, readm_bind. destruct (m r l); [|done..]. destruct Hm as (?&?&?). by apply Hf. Qed.

Lemma safe_mono {A} (m : ReadM A) (P Q : A → Prop) : safe len m P → (∀ a, P a → Q a) → safe len m Q.
Proof. intros Hm HPQ r l Hr Hl. specialize (Hm r l Hr Hl). destruct (m r l); naive_solver. Qed.

Lemma safe_check b : safe len (check b) (λ _, b = true).
Proof. destruct b; [by apply safe_ret|apply safe_reject]. Qed.

Lemma safe_access {A} (o : option A) (Q : A → Prop) : (∃ a, o = Some a ∧ Q a) → safe len (of_access o) Q.
Proof. by intros (a & -> & HQ) r l Hr Hl. Qed.

Lemma safe_allocate n : safe len (allocate n) (λ _, n <= PTRDIFF_MAX).
Proof.
  intros r l Hr Hl. unfold allocate, malloc. destruct (Z.ltb_spec PTRDIFF_MAX n); [done|].
  destruct l as [|[] l]; [by split_and!; [lia|..]|by split_and!; [lia|..]|done].
Qed.

Lemma advance_ok n r : reader_ok r → 0 <= n → r_pos r + n <= r_len r → reader_ok (advance n r) ∧ r_len (advance n r) = r_len r.
Proof. intros (Hp & Hd & Hb) Hn Hl. unfold advance, reader_ok. simpl. rewrite u64_id by (unfold is_u64; lia). split_and!; (lia || done). Qed.

Lemma safe_read_u8 : safe len eskb_read_u8 is_byte.
Proof.
  intros r l Hr Hl. unfold eskb_read_u8. destruct (Z.leb_spec (r_len r) (r_pos r)); [done|]. destruct (Hr) as (Hp & Hd & Hb).
  unfold at_index. rewrite (proj2 (Z.ltb_ge _ _)) by lia. destruct (lookup_lt_is_Some_2 (r_data r) (Z.to_nat (r_pos r))) as [b E]; [lia|].
  rewrite E. split; [by eapply Forall_lookup_1|]. rewrite <- Hl. apply advance_ok; (lia || done).
Qed.

Lemma safe_read_bytes n : 0 <= n < 2 ^ 63 → safe len (eskb_read_bytes n) (λ bs, Z.of_nat (length bs) = n ∧ Forall is_byte bs).
Proof.
  intros Hn r l Hr Hl. unfold eskb_read_bytes. destruct (Hr) as (Hp & Hd & Hb). rewrite u64_id by (unfold is_u64; lia).
  destruct (Z.ltb_spec (r_len r) (r_pos r + n)); [done|].
  assert (El : Z.of_nat (length (take (Z.to_nat n) (drop (Z.to_nat (r_pos r)) (r_data r)))) = n) by (rewrite length_take, length_drop; lia).
  rewrite El, Z.eqb_refl. split; [split; [done|]; by apply Forall_take, Forall_drop|]. rewrite <- Hl. apply advance_ok; (lia || done).
Qed.

Lemma read_leb_safe k buf lim n out : Forall is_byte buf → 0 <= n → lim <= Z.of_nat (length buf) → is_u64 out →
  match read_leb128_loop k buf lim n out with LebRead n' out => n <= n' <= lim ∧ is_u64 out | LebBad => True | LebFault => False end.
Proof.
  intros Hb. revert n out. induction k as [|k IH]; intros n out Hn Hl Ho; [done|]. cbn [read_leb128_loop]. destruct (Z.ltb_spec n lim); [|done].
  unfold at_index. rewrite (proj2 (Z.ltb_ge _ _)) by lia. destruct (lookup_lt_is_Some_2 buf (Z.to_nat n)) as [b E]; [lia|]. rewrite E.
  assert (Hor : is_u64 (Z.lor out (u64 (Z.shiftl (Z.land b 127) (7 * n))))) by (apply (lor_bound _ _ 64); [lia|done|apply u64_range]).
  destruct (_ =? 0); [split; [lia|done]|]. specialize (IH (n + 1) _ ltac:(lia) Hl Hor).
  destruct (read_leb128_loop _ _ _ _ _); [|done..]. destruct IH. split; [lia|done].
Qed.

Lemma safe_read_leb : safe len eskb_read_leb is_u64.
Proof.
  intros r l Hr Hl. unfold eskb_read_leb. destruct (Z.leb_spec (r_len r) (r_pos r)); [done|]. destruct (Hr) as (Hp & Hd & Hb).
  assert (Hi : i32 (r_len r - r_pos r) <= r_len r - r_pos r).
  { unfold i32. pose proof (Z.mod_le (r_len r - r_pos r + 2 ^ 31) (2 ^ 32)). lia. }
  pose proof (read_leb_safe 10 (drop (Z.to_nat (r_pos r)) (r_data r)) (i32 (r_len r - r_pos r)) 0 0) as Hs. unfold eskb_read_leb128.
  destruct (read_leb128_loop _ _ _ _ _); [|done|apply Hs; try done; [by apply Forall_drop|rewrite length_drop; lia]].
  destruct Hs as [Hn Ho]; [by apply Forall_drop|done|rewrite length_drop; lia|done|]. split; [done|]. rewrite <- Hl. apply advance_ok; (lia || done).
Qed.

Lemma safe_read_i64 : safe len eskb_read_i64 (λ _, True).
Proof. eapply safe_bind; [apply safe_read_bytes; lia|]. intros bs _. by apply safe_ret. Qed.

Lemma safe_read_f64 : safe len eskb_read_f64 (λ _, True).
Proof. eapply safe_bind; [apply safe_read_bytes; lia|]. intros bs _. by apply safe_ret. Qed.

Lemma safe_read_string max_len : max_len <= 2 ^ 63 → safe len (eskb_read_string max_len) (λ s, Z.of_nat (length s) <= max_len - 1).
Proof.
  intros Hm. eapply safe_bind; [apply safe_read_leb|]. intros slen [Hs _]. eapply safe_bind; [apply safe_check|].
  intros _ Hc%Z.leb_le. eapply safe_mono; [apply safe_read_bytes; lia|]. intros s [E _]. lia.
Qed.

Lemma safe_read_string_alloc : safe len eskb_read_string_alloc (λ s, Z.of_nat (length s) < 2 ^ 63).
Proof.
  eapply safe_bind; [apply safe_read_leb|]. intros slen [Hs _]. eapply safe_bind; [apply safe_check|]. intros _ _.
  eapply safe_bind; [apply safe_allocate|]. unfold PTRDIFF_MAX. intros _ Hp. eapply safe_mono; [apply safe_read_bytes; lia|]. intros s [E _]. lia.
Qed.

Lemma safe_read_instruction : safe len eskb_read_instruction (λ i, is_byte i.1 ∧ is_i32 i.2).
Proof.
  eapply safe_bind; [apply safe_read_u8|]. intros op Hop. eapply safe_bind; [apply safe_read_leb|]. intros z _.
  eapply safe_bind; [apply safe_check|]. intros _ _. eapply safe_bind; [apply safe_check|].
  intros _ [H1%Z.leb_le H2%Z.leb_le]%andb_prop. apply safe_ret. split; [done|]. unfold is_i32, INT_MAX in *. simpl. lia.
Qed.

Lemma safe_store {A} (l : list A) i v : 0 <= i < Z.of_nat (length l) → safe len (store_at l i v) (λ l', l' = <[Z.to_nat i := v]> l).
Proof. intros Hi. unfold store_at. rewrite (proj2 (Z.leb_le _ _)), (proj2 (Z.ltb_lt _ _)) by lia. by apply safe_ret. Qed.

Lemma safe_calloc {A} count size (zero : A) : safe len (calloc count size zero) (λ l, l = replicate (Z.to_nat count) zero).
Proof. eapply safe_bind; [apply safe_allocate|]. intros _ _. by apply safe_ret. Qed.

Lemma safe_realloc l count size : safe len (realloc l count size)
  (λ l', l' = take (Z.to_nat count) (default [] l) ++ replicate (Z.to_nat count - length (default [] l)) 0).
Proof. eapply safe_bind; [apply safe_allocate|]. intros _ _. by apply safe_ret. Qed.
End safe.

(** Steps of a reader: bind a read whose lemma is given. *)
Ltac read_with H := eapply safe_bind; [apply H|].

(** ** Well-formed modules *)

Lemma at_index_nat {A} (l : list A) i : 0 <= i → at_index l i = l !! Z.to_nat i.
Proof. intros Hi. unfold at_index. by rewrite (proj2 (Z.ltb_ge _ _)) by lia. Qed.

Lemma at_index_is_Some {A} (l : list A) i : 0 <= i < Z.of_nat (length l) → is_Some (at_index l i).
Proof. intros Hi. rewrite at_index_nat by lia. apply lookup_lt_is_Some_2. lia. Qed.

Lemma at_index_store {A} (l : list A) i j v : 0 <= i < Z.of_nat (length l) → at_index (<[Z.to_nat i := v]> l) j = if j =? i then Some v else at_index l j.
Proof.
  intros Hi. destruct (Z.ltb_spec j 0) as [Hj|Hj].
  - rewrite (proj2 (Z.eqb_neq _ _)) by lia. unfold at_index. by rewrite (proj2 (Z.ltb_lt _ _)) by lia.
  - rewrite !at_index_nat by lia. destruct (Z.eqb_spec j i) as [->|Hne].
    + apply list_lookup_insert_eq. lia.
    + apply list_lookup_insert_ne. lia.
Qed.

Lemma at_index_prefix {A} (l l' : list A) n j : take n l = take n l' → j < Z.of_nat n → at_index l j = at_index l' j.
Proof.
  intros E Hj. unfold at_index. destruct (Z.ltb_spec j 0); [done|].
  rewrite <- (lookup_take_lt l n), <- (lookup_take_lt l' n) by lia. by rewrite E.
Qed.

(** The size of the arrays for [n] elements. *)
Definition count_for (n : Z) : Z := if n =? 0 then 1 else n.

(** The first [k] constants are read. *)
Definition constant_read (m : EskbModule) (types : list Z) (i : Z) : Prop := ∃ t, at_index types i = Some t ∧ supported t = true ∧
  (t = ESKB_CONST_STRING → ∃ s, at_index (const_strings m) i = Some (Some s) ∧ at_index (const_ints m) i = Some (Z.of_nat (length s))).
Definition constants_upto (k : Z) (m : EskbModule) (types : list Z) : Prop :=
  0 <= n_constants m <= INT_MAX ∧ Z.of_nat (length types) = count_for (n_constants m) ∧
  length (const_ints m) = length types ∧ length (const_floats m) = length types ∧ length (const_strings m) = length types ∧
  ∀ i, 0 <= i < k → constant_read m types i.
Definition constants_wf (m : EskbModule) : Prop :=
  match const_types m with None => n_constants m = 0 | Some types => constants_upto (n_constants m) m types end.

(** A jump goes to [lo..hi). *)
Definition jump_ok (ops args : list Z) (lo hi i : Z) : Prop :=
  ∀ op, at_index ops i = Some op → is_code_target op = true → ∃ t, at_index args i = Some t ∧ lo <= t < hi.
Record function_wf (ops args : list Z) (f : EskbFunction) : Prop := {
  wf_name : ∃ s, f_name f = Some s ∧ 0 < Z.of_nat (length s) <= 255;
  wf_params : is_byte (f_params f);
  wf_locals : 0 <= f_locals f <= INT_MAX;
  wf_upvalues : 0 <= f_upvalues f <= INT_MAX;
  wf_jumps : ∀ i, f_code_offset f <= i < f_code_offset f + f_code_len f → jump_ok ops args (f_code_offset f) (f_code_offset f + f_code_len f) i }.
(** The functions lie one after the other. *)
Fixpoint laid (off : Z) (fs : list EskbFunction) (e : Z) : Prop :=
  match fs with [] => off = e | f :: fs => f_code_offset f = off ∧ 0 <= f_code_len f ∧ laid (off + f_code_len f) fs e end.
(** The functions [fs] are read. *)
Record code_read (fs : list EskbFunction) (ops args : list Z) (e : Z) : Prop := {
  wf_end : 0 <= e <= ESHKOL_VM_MAX_CODE;
  wf_laid : laid 0 fs e;
  wf_names : NoDup (map (λ f, c_text <$> f_name f) fs);
  wf_functions : Forall (function_wf ops args) fs;
  wf_ops : Forall is_byte ops;
  wf_args : Forall is_i32 args;
  wf_ops_length : Z.of_nat (length ops) = if decide (fs = []) then 0 else count_for e;
  wf_args_length : length args = length ops }.
Definition code_wf (m : EskbModule) : Prop :=
  match functions m with
  | None => n_functions m = 0 ∧ opcodes m = None ∧ operands m = None ∧ code_len m = 0
  | Some fs =>
      0 <= n_functions m <= 4096 ∧ Z.of_nat (length fs) = count_for (n_functions m) ∧
      (opcodes m = None ↔ n_functions m = 0) ∧ (operands m = None ↔ n_functions m = 0) ∧
      code_read (take (Z.to_nat (n_functions m)) fs) (default [] (opcodes m)) (default [] (operands m)) (code_len m)
  end.
Definition module_wf (m : EskbModule) : Prop := constants_wf m ∧ code_wf m ∧ Z.of_nat (length (source_file m)) <= 255.

(** ** Constants *)

(** All but the constants. *)
Definition not_constants (m : EskbModule) := (opcodes m, operands m, code_len m, functions m, n_functions m, source_file m, has_debug m).
(** All but the code. *)
Definition not_code (m : EskbModule) := (const_types m, const_ints m, const_floats m, const_strings m, n_constants m, source_file m, has_debug m).

Lemma code_wf_frame m m' : not_constants m' = not_constants m → code_wf m → code_wf m'.
Proof. destruct m, m'. unfold not_constants, code_wf. simpl. by intros [= -> -> -> -> -> -> ->]. Qed.

Lemma constants_wf_frame m m' : not_code m' = not_code m → constants_wf m → constants_wf m'.
Proof. destruct m, m'. unfold not_code, constants_wf, constants_upto, constant_read. simpl. by intros [= -> -> -> -> -> -> ->]. Qed.

Lemma constants_upto_next i m types t ints floats strings :
  constants_upto i m types → 0 <= i < n_constants m → supported t = true →
  length ints = length types → length floats = length types → length strings = length types →
  (∀ j, j < i → at_index ints j = at_index (const_ints m) j ∧ at_index strings j = at_index (const_strings m) j) →
  (t = ESKB_CONST_STRING → ∃ s, at_index strings i = Some (Some s) ∧ at_index ints i = Some (Z.of_nat (length s))) →
  let types' := <[Z.to_nat i := t]> types in
  constants_upto (i + 1) (with_constants types' ints floats strings (n_constants m) m) types'.
Proof.
  intros (Hn & Hl & _ & _ & _ & Hr) Hi Ht Hil Hfl Hsl Hj Hstr types'. subst types'. unfold constants_upto, constant_read. simpl.
  rewrite !length_insert. split_and!; try (done || lia). intros j Hji. rewrite at_index_store by (unfold count_for in Hl; destruct (_ =? 0) eqn:E; lia).
  destruct (Z.eqb_spec j i) as [->|Hne]; [by exists t|]. destruct (Hj j ltac:(lia)) as [-> ->]. apply Hr. lia.
Qed.

Lemma safe_read_constant len i m types : const_types m = Some types → constants_upto i m types → 0 <= i < n_constants m →
  safe len (read_constant i m) (λ m', ∃ types', const_types m' = Some types' ∧ constants_upto (i + 1) m' types' ∧
    n_constants m' = n_constants m ∧ not_constants m' = not_constants m).
Proof.
  intros Et Hc Hi. pose proof Hc as (Hn & Hl & Hil & Hfl & Hsl & _). unfold count_for in Hl. rewrite (proj2 (Z.eqb_neq _ _)) in Hl by lia.
  assert (Hkeep : ∀ A (l : list A) v j, i < Z.of_nat (length l) → j < i → at_index (<[Z.to_nat i := v]> l) j = at_index l j).
  { intros A l v j Hil' Hj. rewrite at_index_store by lia. by rewrite (proj2 (Z.eqb_neq _ _)) by lia. }
  unfold read_constant. read_with @safe_read_u8. intros t Ht. rewrite Et. eapply safe_bind; [apply (safe_access _ (λ l, l = types)); by exists types|].
  intros ? ->. read_with (safe_store (len := len) types i t ltac:(lia)). intros ? ->.
  assert (Hend : ∀ ints floats strings, supported t = true → length ints = length types → length floats = length types → length strings = length types →
    (∀ j, j < i → at_index ints j = at_index (const_ints m) j ∧ at_index strings j = at_index (const_strings m) j) →
    (t = ESKB_CONST_STRING → ∃ s, at_index strings i = Some (Some s) ∧ at_index ints i = Some (Z.of_nat (length s))) →
    safe len (mret (with_constants (<[Z.to_nat i := t]> types) ints floats strings (n_constants m) m))
      (λ m', ∃ types', const_types m' = Some types' ∧ constants_upto (i + 1) m' types' ∧ n_constants m' = n_constants m ∧ not_constants m' = not_constants m)).
  { intros ints floats strings Hs H1 H2 H3 H4 H5. apply safe_ret. eexists. split; [done|]. split; [|done]. by apply constants_upto_next. }
  destruct (Z.eqb_spec t ESKB_CONST_NIL) as [->|_]; [by apply Hend|].
  destruct (Z.eqb_spec t ESKB_CONST_INT64) as [->|_].
  { read_with @safe_read_i64. intros v _. read_with @safe_store; [lia|]. intros ? ->. apply Hend; try done; [by rewrite length_insert|].
    intros j Hj. split; [apply Hkeep; lia|done]. }
  destruct (Z.eqb_spec t ESKB_CONST_F64) as [->|_].
  { read_with @safe_read_f64. intros v _. read_with @safe_store; [lia|]. intros ? ->. apply Hend; try done. by rewrite length_insert. }
  destruct (Z.eqb_spec t ESKB_CONST_BOOL) as [->|_].
  { read_with @safe_read_u8. intros v _. read_with @safe_store; [lia|]. intros ? ->. apply Hend; try done; [by rewrite length_insert|].
    intros j Hj. split; [apply Hkeep; lia|done]. }
  destruct (Z.eqb_spec t ESKB_CONST_STRING) as [->|_]; [|apply safe_reject].
  read_with @safe_read_string_alloc. intros s _. read_with @safe_store; [lia|]. intros ? ->. read_with @safe_store; [lia|]. intros ? ->.
  apply Hend; try done; [by rewrite length_insert..| |].
  - intros j Hj. split; apply Hkeep; lia.
  - intros _. exists s. by rewrite !at_index_store, !Z.eqb_refl by lia.
Qed.

Lemma safe_read_constants len k i m types : const_types m = Some types → constants_upto i m types → 0 <= i → i + Z.of_nat k = n_constants m →
  safe len (read_constants k i m) (λ m', constants_wf m' ∧ not_constants m' = not_constants m).
Proof.
  revert i m types. induction k as [|k IH]; intros i m types Et Hc Hi Hk; cbn [read_constants].
  - apply safe_ret. unfold constants_wf. rewrite Et. split; [|done]. by replace (n_constants m) with i by lia.
  - eapply safe_bind; [apply (safe_read_constant len i m types); (done || lia)|]. intros m' (types' & Et' & Hc' & En & Ef).
    eapply safe_mono; [apply (IH (i + 1) m' types'); (done || lia)|]. intros m'' [H1 H2]. split; [done|congruence].
Qed.

Lemma safe_section_end len : safe len section_end (λ _, True).
Proof. intros r l Hr Hl. unfold section_end. by destruct (_ =? _). Qed.

Lemma safe_const_section len m : safe len (read_const_section m) (λ m', constants_wf m' ∧ not_constants m' = not_constants m).
Proof.
  unfold read_const_section. read_with @safe_read_leb. intros nc [Hnc _]. read_with @safe_check. intros _ Hm%Z.leb_le.
  read_with @safe_check. intros _ _. do 4 (read_with @safe_calloc; intros ? ->).
  eapply safe_bind; [eapply (safe_read_constants len _ 0); [reflexivity| |lia|simpl; lia]|].
  { unfold constants_upto. simpl. rewrite !length_replicate. split; [lia|]. split; [unfold count_for; destruct (nc =? 0) eqn:E; lia|].
    repeat split; try done. intros i Hi. lia. }
  intros m' Hm'. read_with @safe_section_end. intros _ _. by apply safe_ret.
Qed.

(** ** Code *)

Lemma safe_name_is_new len k prev fs name : (∀ f, f ∈ take k (drop (Z.to_nat prev) fs) → ∃ s, f_name f = Some s) → 0 <= prev → prev + Z.of_nat k <= Z.of_nat (length fs) →
  safe len (name_is_new k prev fs name) (λ _, Forall (λ f, c_text <$> f_name f ≠ Some (c_text name)) (take k (drop (Z.to_nat prev) fs))).
Proof.
  revert prev. induction k as [|k IH]; intros prev Hf Hp Hl; cbn [name_is_new]; [by apply safe_ret|].
  destruct (at_index_is_Some fs prev) as [f Ef]; [lia|]. pose proof Ef as Ef'. rewrite at_index_nat in Ef' by lia.
  rewrite (drop_S _ _ _ Ef') in *. cbn [take] in *. destruct (Hf f) as [s Es]; [by left|].
  eapply safe_bind; [apply (safe_access _ (eq f)); by exists f|]. intros ? <-. eapply safe_bind; [apply (safe_access _ (eq s)); by exists s|]. intros ? <-.
  unfold same_c_string. destruct (bool_decide_reflect (c_text s = c_text name)) as [|Hne]; [apply safe_reject|].
  replace (S (Z.to_nat prev)) with (Z.to_nat (prev + 1)) in * by lia. eapply safe_mono; [apply IH; [|lia..]|].
  - intros g Hg. apply (Hf g). by right.
  - intros ? Hall. constructor; [|done]. rewrite Es. simpl. congruence.
Qed.

Lemma is_code_target_ok op lo cl operand : negb (is_code_target op) || ((0 <=? operand) && (operand <? cl)) = true →
  is_code_target op = true → lo <= operand + lo < lo + cl.
Proof. intros H E. rewrite E in H. simpl in H. apply andb_prop in H as [?%Z.leb_le ?%Z.ltb_lt]. lia. Qed.

(** The instructions of a function from [i] on: what is before them is kept. *)
Lemma safe_read_code len k i cl off m ops args : opcodes m = Some ops → operands m = Some args → length args = length ops →
  0 <= i → 0 <= off → i + Z.of_nat k = cl → off + cl <= Z.of_nat (length ops) → off + cl <= ESHKOL_VM_MAX_CODE → Forall is_byte ops → Forall is_i32 args →
  safe len (read_code k i cl off m) (λ m', ∃ ops' args', m' = with_code ops' args' (code_len m) m ∧
    length ops' = length ops ∧ length args' = length ops ∧ Forall is_byte ops' ∧ Forall is_i32 args' ∧
    take (Z.to_nat (off + i)) ops' = take (Z.to_nat (off + i)) ops ∧ take (Z.to_nat (off + i)) args' = take (Z.to_nat (off + i)) args ∧
    ∀ j, off + i <= j < off + cl → jump_ok ops' args' off (off + cl) j).
Proof.
  revert i m ops args. induction k as [|k IH]; intros i m ops args Eo Ea Hla Hi Ho Hk Hl Hmax Hbo Hba; cbn [read_code].
  { apply safe_ret. exists ops, args. split; [destruct m; simpl in *; by subst|]. split_and!; try done. intros j Hj. lia. }
  read_with @safe_read_instruction. intros [op operand] [Hop Hoperand]. simpl in Hop, Hoperand.
  rewrite Eo. eapply safe_bind; [apply (safe_access _ (eq ops)); by exists ops|]. intros ? <-. read_with @safe_store; [lia|]. intros ? ->.
  read_with @safe_check. intros ? Hc. pose proof (is_code_target_ok op off cl operand Hc) as Ht. rewrite Ea. eapply safe_bind; [apply (safe_access _ (eq args)); by exists args|]. intros ? <-.
  read_with @safe_store; [lia|]. intros ? ->. set (v := if is_code_target op then operand + off else operand).
  assert (Hv : is_i32 v).
  { unfold v. destruct (is_code_target op); [|done]. specialize (Ht eq_refl). unfold is_i32, ESHKOL_VM_MAX_CODE in *. lia. }
  eapply safe_mono; [apply (IH (i + 1) _ (<[Z.to_nat (off + i) := op]> ops) (<[Z.to_nat (off + i) := v]> args)); [reflexivity..| | | | | | | |]; rewrite ?length_insert; (lia || by apply Forall_insert)|].
  intros m' (ops' & args' & -> & L1 & L2 & B1 & B2 & T1 & T2 & HJ). exists ops', args'. rewrite length_insert in *.
  assert (Hpre : ∀ l l' (x : Z), take (Z.to_nat (off + (i + 1))) l' = take (Z.to_nat (off + (i + 1))) (<[Z.to_nat (off + i) := x]> l) →
    take (Z.to_nat (off + i)) l' = take (Z.to_nat (off + i)) l).
  { intros l l' x E. apply (f_equal (take (Z.to_nat (off + i)))) in E. rewrite !take_take, Nat.min_l in E by lia. rewrite E. apply take_insert_ge. lia. }
  split_and!; try done; [by eapply Hpre|by eapply Hpre|]. intros j Hj. destruct (Z.eq_dec j (off + i)) as [->|]; [|apply HJ; lia].
  intros op' E1 E2. rewrite (at_index_prefix _ _ _ _ T1), at_index_store, Z.eqb_refl in E1 by lia. injection E1 as <-. exists v.
  rewrite (at_index_prefix _ _ _ _ T2), at_index_store, Z.eqb_refl by lia. split; [done|]. unfold v. rewrite E2. auto.
Qed.

Lemma laid_app off fs f e : laid off (fs ++ [f]) e ↔ laid off fs (f_code_offset f) ∧ 0 <= f_code_len f ∧ f_code_offset f + f_code_len f = e.
Proof. revert off. induction fs as [|g fs IH]; intros off; simpl; [naive_solver lia|]. rewrite IH. naive_solver. Qed.

Lemma laid_below off fs e f : laid off fs e → f ∈ fs → off <= f_code_offset f ∧ 0 <= f_code_len f ∧ f_code_offset f + f_code_len f <= e.
Proof.
  assert (Hm : ∀ off fs e, laid off fs e → off <= e).
  { clear. intros off fs. revert off. induction fs as [|g fs IH]; intros off e; simpl; [lia|]. intros (_ & H1 & H2%IH). lia. }
  revert off. induction fs as [|g fs IH]; intros off; simpl; [by intros _ ?%elem_of_nil|].
  intros (E & H1 & H2) [->|Hf]%elem_of_cons; [apply Hm in H2; lia|]. specialize (IH _ H2 Hf). lia.
Qed.

(** What is read stays well formed where the arrays keep what is below the end. *)
Lemma function_wf_prefix fs ops args e ops' args' f : laid 0 fs e → f ∈ fs → function_wf ops args f →
  take (Z.to_nat e) ops' = take (Z.to_nat e) ops → take (Z.to_nat e) args' = take (Z.to_nat e) args → function_wf ops' args' f.
Proof.
  intros Hl Hf [N P L U J] T1 T2. pose proof (laid_below _ _ _ _ Hl Hf). split; try done. intros i Hi op E1 E2.
  rewrite (at_index_prefix _ _ _ _ T1) in E1 by lia. destruct (J i Hi op E1 E2) as (t & Et & Ht). exists t. split; [|done].
  by rewrite (at_index_prefix _ _ _ _ T2) by lia.
Qed.

(** The functions before [fi] are read. *)
Definition code_upto (fi : Z) (m : EskbModule) : Prop := ∃ fs, functions m = Some fs ∧
  0 <= fi <= n_functions m ∧ n_functions m <= 4096 ∧ Z.of_nat (length fs) = count_for (n_functions m) ∧
  (opcodes m = None ↔ fi = 0) ∧ (operands m = None ↔ fi = 0) ∧
  code_read (take (Z.to_nat fi) fs) (default [] (opcodes m)) (default [] (operands m)) (code_len m).

Lemma realloc_keeps (l : list Z) e new l' : Z.of_nat e <= Z.of_nat (length l) <= count_for new →
  l' = take (Z.to_nat (count_for new)) l ++ replicate (Z.to_nat (count_for new) - length l) 0 →
  Z.of_nat (length l') = count_for new ∧ take e l' = take e l ∧ (∀ P : Z → Prop, P 0 → Forall P l → Forall P l').
Proof.
  intros Hl ->. split_and!.
  - rewrite length_app, length_replicate, length_take. lia.
  - rewrite (take_ge l) by lia. by rewrite take_app_le by lia.
  - intros P H0 HP. apply Forall_app. split; [by apply Forall_take|by apply Forall_replicate].
Qed.

Lemma code_read_arrays fs ops args e : code_read fs ops args e → e <= Z.of_nat (length ops) <= count_for e.
Proof.
  intros [He Hl _ _ _ _ Hn _]. unfold count_for in *. destruct (decide (fs = [])) as [->|]; [|destruct (Z.eqb_spec e 0); lia].
  simpl in Hl. subst. simpl. lia.
Qed.

Lemma code_read_next fs ops args e f ops' args' cl : code_read fs ops args e → 0 <= cl → e + cl <= ESHKOL_VM_MAX_CODE →
  f_code_offset f = e → f_code_len f = cl → Forall (λ g, c_text <$> f_name g ≠ c_text <$> f_name f) fs → function_wf ops' args' f →
  Forall is_byte ops' → Forall is_i32 args' → Z.of_nat (length ops') = count_for (e + cl) → length args' = length ops' →
  take (Z.to_nat e) ops' = take (Z.to_nat e) ops → take (Z.to_nat e) args' = take (Z.to_nat e) args →
  code_read (fs ++ [f]) ops' args' (e + cl).
Proof.
  intros [He Hl Hnd Hf Hbo Hba _ _] Hcl Hmax Eo El Hnew Hwf Hbo' Hba' L1 L2 T1 T2. split; try (done || lia).
  - apply laid_app. rewrite Eo, El. done.
  - rewrite map_app. apply NoDup_app. split; [done|]. split; [|apply NoDup_singleton]. intros x Hx ->%list_elem_of_singleton.
    apply list_elem_of_fmap in Hx as (g & Eg & Hg). rewrite Forall_forall in Hnew. by apply (Hnew g Hg).
  - apply Forall_app. split; [|by constructor]. rewrite Forall_forall in *. intros g Hg. eapply (function_wf_prefix fs ops args e); eauto.
  - rewrite decide_False by (by destruct fs). done.
Qed.

Lemma safe_read_function len fi m : code_upto fi m → fi < n_functions m →
  safe len (read_function fi m) (λ m', code_upto (fi + 1) m' ∧ n_functions m' = n_functions m ∧ not_code m' = not_code m).
Proof.
  intros (fs & Ef & Hfi & Hmax & Hlf & Hop & Harg & Hr) Hlt. unfold count_for in Hlf. rewrite (proj2 (Z.eqb_neq _ _)) in Hlf by lia.
  pose proof (code_read_arrays _ _ _ _ Hr) as Hlo. pose proof Hr as [He _ _ Hfun Hbo Hba _ Hla]. unfold read_function.
  read_with @safe_read_string_alloc. intros name _. read_with @safe_check. intros _ [Hn1 Hn2%Z.leb_le]%andb_prop.
  rewrite Ef. eapply safe_bind; [apply (safe_access _ (eq fs)); by exists fs|]. intros ? <-. eapply safe_bind; [apply safe_name_is_new; [|lia..]|].
  { intros f Hf. rewrite Forall_forall in Hfun. by destruct (Hfun f Hf) as [(s & -> & _) _ _ _ _]; eauto. }
  intros ? Hnew. read_with @safe_read_u8. intros np Hnp. read_with @safe_read_leb. intros nl [Hnl _]. read_with @safe_check. intros ? Hnl'%Z.leb_le.
  read_with @safe_read_leb. intros nuv [Hnuv _]. read_with @safe_check. intros ? Hnuv'%Z.leb_le.
  read_with @safe_read_leb. intros cl [Hcl _]. read_with @safe_check. intros _ _. read_with @safe_check. intros _ _.
  read_with @safe_check. intros ? Hnc%Z.leb_le. change (if code_len m + cl =? 0 then 1 else code_len m + cl) with (count_for (code_len m + cl)).
  assert (Hgrow : count_for (code_len m) <= count_for (code_len m + cl)) by (unfold count_for; destruct (_ =? 0) eqn:?, (_ + _ =? 0) eqn:?; lia).
  read_with @safe_realloc. intros ops Eops. read_with @safe_realloc. intros args Eargs.
  apply (realloc_keeps _ (Z.to_nat (code_len m))) in Eops as (L1 & T1 & B1); [|lia]. apply (realloc_keeps _ (Z.to_nat (code_len m))) in Eargs as (L2 & T2 & B2); [|lia].
  read_with @safe_store; [lia|]. intros ? ->. set (f := Function _ _ _ _ _ _).
  eapply safe_bind; [eapply (safe_read_code len _ 0 cl (code_len m) _ ops args); try reflexivity; try lia|].
  { unfold count_for in L1. destruct (Z.eqb_spec (code_len m + cl) 0); lia. }
  { apply B1; [done|apply Hbo]. }
  { by apply B2. }
  intros m' (ops' & args' & -> & L3 & L4 & Bo' & Ba' & T3 & T4 & HJ). rewrite Z.add_0_r in *.
  eapply safe_bind; [apply (safe_access _ (eq ops')); by exists ops'|]. intros ? <-. eapply safe_bind; [apply (safe_access _ (eq args')); by exists args'|]. intros ? <-.
  apply safe_ret. split; [|done]. eexists. split; [reflexivity|]. simpl. rewrite length_insert. unfold count_for. rewrite (proj2 (Z.eqb_neq _ _)) by lia.
  split_and!; try (done || lia || by split; (done || lia)).
  replace (Z.to_nat (fi + 1)) with (S (Z.to_nat fi)) by lia. rewrite (take_S_r _ _ f) by (apply list_lookup_insert_eq; lia). rewrite take_insert_ge by lia.
  apply (code_read_next _ _ _ _ f _ _ _ Hr); [lia|lia|done|done| | |done|done|congruence..].
  - by rewrite drop_0 in Hnew.
  - split; [|done|unfold f; simpl; lia..|exact HJ]. exists name. split; [done|]. destruct name; simpl in *; [done|lia].
Qed.

Lemma safe_read_functions len k fi m : code_upto fi m → fi + Z.of_nat k = n_functions m →
  safe len (read_functions k fi m) (λ m', code_upto (n_functions m') m' ∧ not_code m' = not_code m).
Proof.
  revert fi m. induction k as [|k IH]; intros fi m Hu Hk; cbn [read_functions].
  - apply safe_ret. split; [|done]. by replace (n_functions m) with fi by lia.
  - eapply safe_bind; [apply safe_read_function; [done|lia]|]. intros m' (Hu' & En & Ef).
    eapply safe_mono; [apply (IH _ _ Hu'); lia|]. intros m'' [H1 H2]. split; [done|congruence].
Qed.

(** Whatever the module is, what is read is the code. *)
Lemma safe_code_section len m : code_wf m → safe len (read_code_section m) (λ m', code_wf m' ∧ not_code m' = not_code m).
Proof.
  intros Hm. unfold read_code_section. read_with @safe_read_leb. intros nf [Hnf _].
  read_with @safe_check. intros ? [Hmax%Z.leb_le _]%andb_prop. read_with @safe_check. intros ? Hnew.
  destruct (opcodes m) eqn:Eo, (functions m) eqn:Ef; try done. unfold code_wf in Hm. rewrite Ef in Hm. destruct Hm as (En & _ & Ea & El).
  read_with @safe_calloc. intros ? ->. eapply safe_bind; [apply (safe_read_functions len _ 0); [|simpl; lia]|].
  - eexists. split; [reflexivity|]. simpl. rewrite length_replicate, Eo, Ea, El. change (if nf =? 0 then 1 else nf) with (count_for nf).
    assert (0 < count_for nf) by (unfold count_for; destruct (Z.eqb_spec nf 0); lia). split_and!; try (done || lia).
    split; (done || constructor || lia).
  - intros m' [(fs & Efs & H1 & H2 & H3 & H4 & H5 & H6) Hf]. read_with @safe_section_end. intros _ _. apply safe_ret. split; [|done].
    unfold code_wf. rewrite Efs. split_and!; (done || lia).
Qed.

Lemma safe_section len m sid : module_wf m →
  safe len (if sid =? ESKB_SECTION_CONST then read_const_section m else if sid =? ESKB_SECTION_CODE then read_code_section m
            else if sid =? ESKB_SECTION_META then read_meta_section m else mret m) module_wf.
Proof.
  intros (Hc & Hk & Hs). destruct (_ =? _); [|destruct (_ =? _); [|destruct (_ =? _); [|by apply safe_ret]]].
  - eapply safe_mono; [apply safe_const_section|]. intros m' [H1 H2]. split; [done|]. split; [by eapply code_wf_frame|].
    unfold not_constants in H2. by injection H2 as _ _ _ _ _ -> _.
  - eapply safe_mono; [by apply safe_code_section|]. intros m' [H1 H2]. split; [by eapply constants_wf_frame|]. split; [done|].
    unfold not_code in H2. by injection H2 as _ _ _ _ _ -> _.
  - unfold read_meta_section. read_with @safe_check. intros _ _. read_with @safe_read_string; [done|]. intros s Hs'.
    read_with @safe_section_end. intros _ _. apply safe_ret. split; [done|]. split; [done|]. simpl in *. lia.
Qed.

(** ** Sections *)

Lemma safe_descriptors len k : safe len (read_descriptors k) (Forall (λ d, 0 <= d.2 <= UINT32_MAX)).
Proof.
  induction k as [|k IH]; cbn [read_descriptors]; [by apply safe_ret|]. read_with @safe_read_u8. intros sid _. read_with @safe_read_leb. intros size [Hs _].
  read_with @safe_check. intros _ Hm%Z.leb_le. read_with IH. intros l Hl. apply safe_ret. by constructor.
Qed.

(** Identifier, size and offset of a section inside [len] bytes. *)
Definition section_in (len : Z) (s : Z * Z * Z) : Prop := 0 <= s.1.2 ∧ 0 <= s.2 ∧ s.2 + s.1.2 <= len.

Lemma lay_sections_in len off descs l e : Forall (λ d, 0 <= d.2 <= UINT32_MAX) descs → 0 <= off <= len → len < 2 ^ 63 →
  lay_sections len off descs = Some (l, e) → Forall (section_in len) l ∧ off <= e <= len.
Proof.
  intros Hd. revert off l e. induction Hd as [|[sid size] descs Hs _ IH]; intros off l e Ho Hl E; cbn [lay_sections] in E; [injection E as <- <-; split; [constructor|lia]|].
  rewrite u64_id in E by (unfold is_u64; lia). simpl in Hs. destruct (Z.ltb_spec (len - off) size); [done|].
  destruct (lay_sections len (off + size) descs) as [[l' e']|] eqn:E'; [|done]. injection E as <- <-.
  destruct (IH (off + size) _ _ ltac:(lia) Hl E'). split; [|lia]. constructor; [|done]. unfold section_in. simpl. lia.
Qed.

Lemma safe_locate len descs : Forall (λ d, 0 <= d.2 <= UINT32_MAX) descs → safe len (locate_sections len descs) (Forall (section_in len)).
Proof.
  intros Hd r l Hr Hl. unfold locate_sections. destruct Hr as (Hp & Hlen & Hb). destruct (lay_sections _ _ _) as [[sections e]|] eqn:E; [|done].
  destruct (_ =? _); [|done]. split; [|by split]. eapply lay_sections_in; [done| | |exact E]; lia.
Qed.

Lemma safe_with_reader {A} len r (m : ReadM A) Q : reader_ok r → safe (r_len r) m Q → safe len (with_reader r m) Q.
Proof. intros Hr Hm r0 l Hr0 Hl. unfold with_reader. specialize (Hm r l Hr eq_refl). destruct (m r l); [|done..]. by destruct Hm. Qed.

Lemma safe_sections len payload l m : Forall is_byte payload → Z.of_nat (length payload) < 2 ^ 63 →
  Forall (section_in (Z.of_nat (length payload))) l → module_wf m → safe len (read_sections payload l m) module_wf.
Proof.
  intros Hb Hp Hl. revert m. induction Hl as [|[[sid size] offset] l (H1 & H2 & H3) _ IH]; intros m Hm; cbn [read_sections]; [by apply safe_ret|].
  simpl in *. eapply safe_bind; [|apply IH]. apply safe_with_reader; [|by apply safe_section].
  unfold reader_ok. simpl. rewrite length_drop. split_and!; try lia. by apply Forall_drop.
Qed.

Lemma safe_parse len payload m : Forall is_byte payload → Z.of_nat (length payload) < 2 ^ 63 → module_wf m →
  safe len (eskb_parse_payload payload (Z.of_nat (length payload)) m) module_wf.
Proof.
  intros Hb Hp Hm. unfold eskb_parse_payload. apply safe_with_reader; [unfold reader_ok; simpl; split_and!; (done || lia)|]. simpl.
  read_with @safe_read_leb. intros n _. read_with @safe_check. intros _ _. read_with safe_descriptors. intros descs Hd.
  read_with safe_locate; [done|]. intros l Hl. by apply safe_sections.
Qed.

Lemma no_module_wf : module_wf no_module.
Proof. by repeat split. Qed.

(** The file is loaded, or rejected with the module cleared. *)
Lemma load_memory_safe file mallocs : Forall is_byte file → Z.of_nat (length file) < 2 ^ 63 →
  eskb_load_memory file mallocs = Some (-1, no_module) ∨ ∃ m, eskb_load_memory file mallocs = Some (0, m) ∧ module_wf m.
Proof.
  intros Hb Hl. unfold eskb_load_memory. do 4 (destruct (_ : bool); [by left|]).
  pose proof (safe_parse 0 (drop (Z.to_nat sizeof_EskbHeader) file) no_module) as Hs.
  specialize (Hs ltac:(by apply Forall_drop) ltac:(rewrite length_drop; lia) no_module_wf (Reader [] 0 0) mallocs).
  destruct (eskb_parse_payload _ _ _ _ _) as [m| |]; [|by left|destruct Hs; [unfold reader_ok; simpl; split_and!; (done || lia)|done]].
  right. exists m. split; [done|]. apply Hs; [unfold reader_ok; simpl; split_and!; (done || lia)|done].
Qed.

(** ** What a machine is made for *)

Section checks.
Context (BUILTINS : list Z).

Definition is_int64_constant (m : EskbModule) (i : Z) : Prop :=
  0 <= i < n_constants m ∧ ∃ types, const_types m = Some types ∧ at_index types i = Some ESKB_CONST_INT64.

(** The instruction at [pc] and its operand are there, and what the operand names is, too. *)
Record instruction_ok (m : EskbModule) (pc op operand : Z) : Prop := {
  ok_op : op_at m pc = Some op;
  ok_operand : operand_at m pc = Some operand;
  ok_known : 0 <= op < OP_COUNT;
  ok_const : op = OP_CONST → 0 <= operand < n_constants m;
  ok_closure : op = OP_CLOSURE → is_int64_constant m (Z.land operand 0xFFFF);
  ok_long : op = OP_CLOSURE_LONG → is_int64_constant m operand ∧ op_at m (pc + 1) = Some OP_CLOSURE_COUNT ∧ ∃ n, operand_at m (pc + 1) = Some n ∧ 0 <= n;
  ok_count : op = OP_CLOSURE_COUNT → op_at m (pc - 1) = Some OP_CLOSURE_LONG;
  ok_slot : op ∈ [20; 21; OP_CALL; OP_TAIL_CALL; 39; 53; 60] → 0 <= operand < ESHKOL_VM_STACK_SIZE;
  ok_upvalue : op ∈ [22; 23; 54; OP_NATIVE_CALL] → 0 <= operand;
  ok_jump : is_code_target op = true → 0 <= operand < code_len m;
  ok_coverage : op = OP_LANGUAGE_COVERAGE → ∃ id, at_index BUILTINS operand = Some id ∧ op_at m (pc + 1) = Some OP_NATIVE_CALL ∧ operand_at m (pc + 1) = Some id }.

Lemma existsb_eqb x l : existsb (Z.eqb x) l = true ↔ x ∈ l.
Proof. rewrite existsb_exists. setoid_rewrite Z.eqb_eq. setoid_rewrite list_elem_of_In. naive_solver. Qed.

Lemma is_code_target_iff op : is_code_target op = true ↔ op ∈ [28; 29; 30; 57].
Proof. rewrite <- existsb_eqb. unfold is_code_target. simpl. by rewrite orb_false_r, <- !orb_assoc. Qed.

Context (m : EskbModule) (ops args : list Z).
Context (Hops : opcodes m = Some ops) (Hargs : operands m = Some args).
Context (Hlo : Z.of_nat (length ops) = code_len m) (Hla : Z.of_nat (length args) = code_len m).
Context (Hbytes : Forall is_byte ops).
Context (Hcs : constants_wf m).

Lemma fetch pc : 0 <= pc < code_len m → ∃ op operand, op_at m pc = Some op ∧ operand_at m pc = Some operand ∧ 0 <= op.
Proof.
  intros Hpc. unfold op_at, operand_at. rewrite Hops, Hargs. simpl.
  destruct (at_index_is_Some ops pc) as [op Eo]; [lia|]. destruct (at_index_is_Some args pc) as [operand Ea]; [lia|].
  exists op, operand. split; [done|]. split; [done|]. rewrite at_index_nat in Eo by lia. eapply Forall_lookup_1 in Eo; [|done]. unfold is_byte in Eo. lia.
Qed.

Lemma is_int_checked i : 0 <= i < n_constants m →
  ∃ b, (match const_types m with None => Some true | Some l => t ← at_index l i; Some (t =? ESKB_CONST_INT64) end) = Some b ∧ (b = true → is_int64_constant m i).
Proof.
  intros Hi. unfold constants_wf in Hcs. unfold is_int64_constant. destruct (const_types m) as [l|]; [|lia]. destruct Hcs as (_ & _ & _ & _ & _ & Hr).
  destruct (Hr i Hi) as (t & Et & _). rewrite Et. eexists. split; [reflexivity|]. intros ->%Z.eqb_eq. split; [done|]. by exists l.
Qed.

(** A checked instruction: what other opcodes ask for does not concern it. *)
Ltac only_its_own :=
  split; try done; try (let H := fresh in intros H; first [congruence | try apply existsb_eqb in H; vm_compute in H; discriminate H]).

(** The check of one instruction neither faults nor lets a bad one pass. *)
Lemma validate_instruction_ok pc : 0 <= pc < code_len m →
  ∃ ok skip, validate_instruction BUILTINS m pc = Some (ok, skip) ∧
    (ok = true → ∃ op operand, instruction_ok m pc op operand ∧ op ≠ OP_CLOSURE_COUNT ∧
      (skip = true → op = OP_CLOSURE_LONG ∧ ∃ n, instruction_ok m (pc + 1) OP_CLOSURE_COUNT n)).
Proof.
  intros Hpc. destruct (fetch pc Hpc) as (op & operand & Eo & Ea & Hop). unfold validate_instruction. rewrite Eo, Ea. cbn [mbind option_bind].
  assert (Hnext : ∀ b : bool, (b || negb (pc + 1 <? code_len m)) = false → ∃ op' operand', op_at m (pc + 1) = Some op' ∧ operand_at m (pc + 1) = Some operand').
  { intros b [_ Hn%negb_false_iff%Z.ltb_lt]%orb_false_iff. destruct (fetch (pc + 1)) as (? & ? & ? & ? & ?); [lia|eauto]. }
  destruct (Z.leb_spec OP_COUNT op); [by exists false, false|].
  destruct (Z.eqb_spec op OP_CONST) as [->|N1].
  { eexists _, false. split; [done|]. intros [?%Z.leb_le ?%Z.ltb_lt]%andb_prop. exists OP_CONST, operand. split; [|done]. only_its_own. }
  destruct (Z.eqb_spec op OP_CLOSURE) as [->|N2].
  { destruct (operand <? 0); [by exists false, false|]. destruct (_ || _) eqn:Er; [by exists false, false|].
    apply orb_false_iff in Er as [?%Z.ltb_ge ?%Z.leb_gt].
    destruct (is_int_checked (Z.land operand 0xFFFF) ltac:(lia)) as (b & Eb & Hb).
    rewrite Eb. eexists _, false. split; [done|]. intros [[?%Hb _]%andb_prop _]%andb_prop. exists OP_CLOSURE, operand. split; [|done]. only_its_own. }
  destruct (Z.eqb_spec op OP_CLOSURE_LONG) as [->|N3].
  { destruct (_ || _) eqn:Er; [by exists false, false|]. apply orb_false_iff in Er as [?%Z.ltb_ge ?%Z.leb_gt].
    destruct (is_int_checked operand ltac:(lia)) as (b & Eb & Hb). rewrite Eb. simpl. destruct (negb b || _) eqn:En; [by exists false, false|].
    destruct (Hnext _ En) as (op' & operand' & Eo' & Ea'). rewrite Eo', Ea'. simpl. eexists _, true. split; [done|].
    intros [->%Z.eqb_eq ?%Z.leb_le]%andb_prop. apply orb_false_iff in En as [->%negb_false_iff _]. exists OP_CLOSURE_LONG, operand.
    split; [only_its_own; split; [by apply Hb|eauto]|]. split; [done|]. intros _. split; [done|]. exists operand'.
    only_its_own. intros _. by replace (pc + 1 - 1) with pc by lia. }
  destruct (Z.eqb_spec op OP_CLOSURE_COUNT) as [->|N4]; [by exists false, false|].
  destruct (existsb (Z.eqb op) [20; 21]) eqn:L1.
  { apply existsb_eqb in L1. eexists _, false. split; [done|]. intros [?%Z.leb_le ?%Z.ltb_lt]%andb_prop. exists op, operand. split; [|done].
    repeat (apply elem_of_cons in L1 as [->|L1]; [only_its_own|]). by apply not_elem_of_nil in L1. }
  destruct (existsb (Z.eqb op) [22; 23; 54]) eqn:L2.
  { apply existsb_eqb in L2. eexists _, false. split; [done|]. intros ?%Z.leb_le. exists op, operand. split; [|done].
    repeat (apply elem_of_cons in L2 as [->|L2]; [only_its_own|]). by apply not_elem_of_nil in L2. }
  destruct (existsb (Z.eqb op) [OP_CALL; OP_TAIL_CALL; 39; 53; 60]) eqn:L3.
  { apply existsb_eqb in L3. eexists _, false. split; [done|]. intros [?%Z.leb_le ?%Z.ltb_lt]%andb_prop. exists op, operand. split; [|done].
    repeat (apply elem_of_cons in L3 as [->|L3]; [only_its_own|]). by apply not_elem_of_nil in L3. }
  destruct (is_code_target op) eqn:L4.
  { pose proof L4 as L4'. apply is_code_target_iff in L4'. eexists _, false. split; [done|]. intros [?%Z.leb_le ?%Z.ltb_lt]%andb_prop. exists op, operand.
    split; [|done]. repeat (apply elem_of_cons in L4' as [->|L4']; [only_its_own|]). by apply not_elem_of_nil in L4'. }
  destruct (Z.eqb_spec op OP_NATIVE_CALL) as [->|N5].
  { eexists _, false. split; [done|]. intros ?%Z.leb_le. exists OP_NATIVE_CALL, operand. split; [|done]. only_its_own. }
  destruct (Z.eqb_spec op OP_LANGUAGE_COVERAGE) as [->|N6].
  { destruct (_ || _) eqn:En; [by exists false, false|]. destruct (Hnext _ En) as (op' & operand' & Eo' & Ea'). rewrite Eo'. simpl.
    destruct (Z.eqb_spec op' OP_NATIVE_CALL) as [->|]; [|by exists false, false]. simpl. rewrite Ea'. simpl.
    apply orb_false_iff in En as [[?%Z.ltb_ge ?%Z.leb_gt]%orb_false_iff _]. destruct (at_index_is_Some BUILTINS operand ltac:(lia)) as [id Ei].
    rewrite Ei. simpl. eexists _, false. split; [done|]. intros ->%Z.eqb_eq. exists OP_LANGUAGE_COVERAGE, operand. split; [|done]. only_its_own. eauto. }
  destruct (Z.eqb_spec op OP_LANGUAGE_COVERAGE_CALL) as [->|N7].
  { destruct (_ || _) eqn:En; [by exists false, false|]. destruct (Hnext _ En) as (op' & operand' & Eo' & _). rewrite Eo'. simpl.
    eexists _, false. split; [done|]. intros _. exists OP_LANGUAGE_COVERAGE_CALL, operand. split; [|done]. only_its_own. }
  eexists _, false. split; [done|]. intros _. exists op, operand. split; [|done]. only_its_own.
  all: intros Hin; rewrite <- existsb_eqb in Hin; simpl in *; rewrite ?orb_false_iff, ?Z.eqb_neq in *; rewrite ?orb_true_iff, ?Z.eqb_eq in Hin; naive_solver.
Qed.

(** Each instruction that is reached, or the second half of one. *)
Lemma validate_code_ok k pc : 0 <= pc → code_len m <= pc + Z.of_nat k →
  ∃ ok, validate_code BUILTINS k pc m = Some ok ∧ (ok = true → ∀ i, pc <= i < code_len m → ∃ op operand, instruction_ok m i op operand).
Proof.
  revert pc. induction k as [|k IH]; intros pc Hpc Hk; cbn [validate_code]; [exists true; split; [done|]; intros _ i Hi; lia|].
  destruct (Z.leb_spec (code_len m) pc); [exists true; split; [done|]; intros _ i Hi; lia|].
  destruct (validate_instruction_ok pc) as (ok & skip & -> & Hok); [lia|]. simpl. destruct ok; [|by exists false].
  destruct Hok as (op & operand & H1 & _ & H2); [done|]. destruct (IH (if skip then pc + 2 else pc + 1)) as (ok & -> & Hrest); [by destruct skip; lia..|].
  exists ok. split; [done|]. intros ->. specialize (Hrest eq_refl). intros i Hi. destruct (Z.eq_dec i pc) as [->|]; [eauto|].
  destruct skip; [|apply Hrest; lia]. destruct (H2 eq_refl) as (_ & n' & H3). destruct (Z.eq_dec i (pc + 1)) as [->|]; [eauto|apply Hrest; lia].
Qed.

Lemma no_desktop_calls_ok k pc : 0 <= pc → pc + Z.of_nat k = code_len m →
  ∃ ok, no_desktop_calls k pc m = Some ok ∧
    (ok = true → ∀ i op operand, pc <= i → op_at m i = Some op → operand_at m i = Some operand → desktop_call op operand = false).
Proof.
  revert pc. induction k as [|k IH]; intros pc Hpc Hk; cbn [no_desktop_calls].
  - exists true. split; [done|]. intros _ i op operand Hi Eo. unfold op_at in Eo. rewrite Hops in Eo. simpl in Eo.
    rewrite at_index_nat in Eo by lia. apply lookup_lt_Some in Eo. lia.
  - destruct (fetch pc) as (op & operand & Eo & Ea & _); [lia|]. rewrite Eo, Ea. simpl. destruct (desktop_call op operand) eqn:Ed; [by exists false|].
    destruct (IH (pc + 1)) as (ok & -> & Hok); [lia..|]. exists ok. split; [done|]. intros -> i op' operand' Hi Eo' Ea'.
    destruct (Z.eq_dec i pc) as [->|]; [congruence|]. eapply (Hok eq_refl i); (done || lia).
Qed.
End checks.

(** A module that passes has code, functions that fit the stack, sound instructions and
    what the options ask for. *)
Record loadable (BUILTINS : list Z) (o : EshkolVmLoadOptions) (m : EskbModule) : Prop := {
  ld_code : 0 < code_len m;
  ld_functions : 0 < n_functions m;
  ld_function : ∀ f, f ∈ module_functions m → 0 < f_code_len f ∧ f_locals f <= ESHKOL_VM_STACK_SIZE;
  ld_instructions : ∀ i, 0 <= i < code_len m → ∃ op operand, instruction_ok BUILTINS m i op operand;
  ld_required : ∀ name, name ∈ required_functions o → ∃ f n s, f ∈ module_functions m ∧ f_name f = Some n ∧ name = Some s ∧ c_text n = c_text s;
  ld_metadata : ∀ q, q ∈ required_function_metadata o → meets m q = true;
  ld_calls : reject_desktop_native_calls o = true → ∀ i op operand, 0 <= i → op_at m i = Some op → operand_at m i = Some operand → desktop_call op operand = false }.

Lemma validate_functions_ok m n l : (n <= length l)%nat →
  ∃ ok, validate_functions m n l = Some ok ∧ (ok = true → ∀ f, f ∈ take n l → 0 < f_code_len f ∧ f_locals f <= ESHKOL_VM_STACK_SIZE).
Proof.
  revert l. induction n as [|n IH]; intros l Hl; [exists true; split; [by destruct l|by intros _ f ?%elem_of_nil]|].
  destruct l as [|f l]; simpl in Hl; [lia|]. cbn [validate_functions]. destruct (validate_function m f (take n l)) eqn:Ef; [|by exists false].
  destruct (IH l) as (ok & -> & Hok); [lia|]. exists ok. split; [done|]. intros -> g. cbn [take]. intros [->|Hg]%elem_of_cons; [|by apply Hok].
  unfold validate_function in Ef. rewrite !andb_true_iff, !Z.leb_le, !Z.ltb_lt in Ef. naive_solver.
Qed.

Lemma code_arrays m : code_wf m → 0 < code_len m → 0 < n_functions m →
  ∃ fs ops args, functions m = Some fs ∧ Z.of_nat (length fs) = n_functions m ∧ opcodes m = Some ops ∧ operands m = Some args ∧
    Z.of_nat (length ops) = code_len m ∧ Z.of_nat (length args) = code_len m ∧ Forall is_byte ops.
Proof.
  intros Hk Hl Hn. unfold code_wf in Hk. destruct (functions m) as [fs|]; [|lia]. destruct Hk as (_ & Hfs & Ho & Ha & [_ _ _ _ Hb _ Hlo Hla]).
  destruct (opcodes m) as [ops|]; [|destruct (proj1 Ho); (done || lia)]. destruct (operands m) as [args|]; [|destruct (proj1 Ha); (done || lia)].
  simpl in *. unfold count_for in *. rewrite (proj2 (Z.eqb_neq _ _)) in Hfs by lia. rewrite decide_False in Hlo.
  2:{ intros E%(f_equal length). rewrite length_take in E. simpl in E. lia. }
  rewrite (proj2 (Z.eqb_neq _ _)) in Hlo by lia. exists fs, ops, args. split_and!; (done || lia).
Qed.

Lemma validate_profile_ok BUILTINS m : module_wf m →
  ∃ ok, eshkol_vm_validate_module_profile BUILTINS m = Some ok ∧ (ok = true → 0 < code_len m ∧ 0 < n_functions m ∧
    (∀ f, f ∈ module_functions m → 0 < f_code_len f ∧ f_locals f <= ESHKOL_VM_STACK_SIZE) ∧
    ∀ i, 0 <= i < code_len m → ∃ op operand, instruction_ok BUILTINS m i op operand).
Proof.
  intros (Hc & Hk & _). unfold eshkol_vm_validate_module_profile. destruct (_ || _); [by exists false|].
  destruct (_ || _) eqn:El; [by exists false|]. apply orb_false_iff in El as [Hlen%Z.leb_gt _].
  destruct (Z.leb_spec (n_functions m) 0) as [|Hn]; [destruct (functions m), (opcodes m), (operands m); by exists false|].
  destruct (code_arrays m Hk Hlen Hn) as (fs & ops & args & Ef & Hfs & Eo & Ea & Hlo & Hla & Hb). rewrite Ef, Eo, Ea.
  destruct (validate_functions_ok m (Z.to_nat (n_functions m)) fs) as (ok & -> & Hok); [lia|]. simpl. destruct ok; [|by exists false].
  destruct (validate_code_ok BUILTINS m ops args Eo Ea Hlo Hla Hb Hc (Z.to_nat (code_len m)) 0) as (ok & -> & Hcode); [lia..|].
  exists ok. split; [done|]. intros ->. split; [done|]. split; [done|]. split; [|by apply Hcode]. unfold module_functions. rewrite Ef. by apply Hok.
Qed.

Lemma validate_policy_ok m o : module_wf m → 0 < code_len m → 0 < n_functions m →
  ∃ ok, eshkol_vm_validate_load_policy m o = Some ok ∧ (ok = true →
    (∀ name, name ∈ required_functions o → ∃ f n s, f ∈ module_functions m ∧ f_name f = Some n ∧ name = Some s ∧ c_text n = c_text s) ∧
    (∀ q, q ∈ required_function_metadata o → meets m q = true) ∧
    (reject_desktop_native_calls o = true → ∀ i op operand, 0 <= i → op_at m i = Some op → operand_at m i = Some operand → desktop_call op operand = false)).
Proof.
  intros (Hc & Hk & _) Hlen Hn. unfold eshkol_vm_validate_load_policy. destruct (eshkol_vm_validate_function_requirements m o) eqn:Er; [|by exists false].
  unfold eshkol_vm_validate_function_requirements in Er. apply andb_prop in Er as [[[_ Hr]%andb_prop _]%andb_prop Hq].
  rewrite forallb_forall in Hr, Hq. setoid_rewrite <- list_elem_of_In in Hr. setoid_rewrite <- list_elem_of_In in Hq.
  assert (Hnames : ∀ name, name ∈ required_functions o → ∃ f n s, f ∈ module_functions m ∧ f_name f = Some n ∧ name = Some s ∧ c_text n = c_text s).
  { intros name [_ Hf]%Hr%andb_prop. unfold eshkol_vm_find_module_function in Hf. destruct (List.find _ _) as [f|] eqn:Ef; [|done].
    apply List.find_some in Ef as [Hin%list_elem_of_In Heq]. destruct (f_name f) as [n|] eqn:En, name as [s|]; try done.
    exists f, n, s. unfold same_c_string in Heq. apply bool_decide_eq_true in Heq. done. }
  destruct (reject_desktop_native_calls o); simpl; [|by exists true].
  destruct (code_arrays m Hk Hlen Hn) as (fs & ops & args & _ & _ & Eo & Ea & Hlo & Hla & Hb).
  destruct (no_desktop_calls_ok m ops args Eo Ea Hlo Hla Hb (Z.to_nat (code_len m)) 0) as (ok & E & Hok); [lia..|].
  exists ok. split; [done|]. intros ->. by specialize (Hok eq_refl).
Qed.

(** Loading for a machine: every check returns. *)
Lemma load_module_ok BUILTINS file o mallocs : Forall is_byte file → Z.of_nat (length file) < 2 ^ 63 →
  eshkol_vm_load_module BUILTINS file o mallocs = Some None ∨
  ∃ m, eshkol_vm_load_module BUILTINS file o mallocs = Some (Some m) ∧ eskb_load_memory file mallocs = Some (0, m) ∧ module_wf m ∧ loadable BUILTINS o m.
Proof.
  intros Hb Hl. unfold eshkol_vm_load_module. destruct (negb _); [by left|]. destruct file as [|b file]; [by left|].
  destruct (load_memory_safe (b :: file) mallocs Hb Hl) as [->|(m & -> & Hm)]; [by left|]. cbn [mbind option_bind Z.eqb negb].
  destruct (validate_profile_ok BUILTINS m Hm) as (ok & -> & Hok). cbn [mbind option_bind]. destruct ok; [|by left].
  destruct Hok as (H1 & H2 & H3 & H4); [done|]. destruct (validate_policy_ok m o Hm H1 H2) as (ok & -> & Hp). cbn [mbind option_bind negb].
  destruct ok; [|by left]. destruct Hp as (H5 & H6 & H7); [done|]. right. exists m. by split_and!.
Qed.

(** * What loading an ESKB file guarantees *)

(** ** What is written loads *)

(** C11: Whatever constants, functions and source name of an ESKB file there are, within
    the limits of the format, writing them succeeds and the file that is written loads:
    every constant comes back with its type and value, and the code is that of the
    functions one after the other, each under its name and with its parameters, with jumps
    that lead to the same instruction of the same function.  The limits are names of 1 to
    255 bytes that differ, at most 4096 functions and 1,000,000 instructions, jumps inside
    their function, and a payload below 2 GiB. *)
Theorem eskb_file_roundtrip cs fs src room : writable cs fs src → (length (file_of cs fs src) <= room)%nat →
  let file := file_of cs fs src in
  eskb_write_file_with_functions true room (Some cs) (Z.of_nat (length cs)) (Some fs) (Z.of_nat (length fs)) src [] = Some (0, Some file, []) ∧
  eskb_load_file (Some file) [] = Some (0, module_of cs fs src).
Proof.
  intros Hw Hroom file. pose proof Hw as [Hc Hf Hn _ _ _ Hs]. split.
  - rewrite write_file_ok; [by rewrite take_ge|done..| |done]. intros ->. simpl in Hn. lia.
  - assert (El : length file = (16 + length (payload_of (sections_of cs fs src)))%nat).
    { unfold file, file_of, header_of. rewrite !length_app, !length_le_bytes. lia. }
    unfold eskb_load_file, sizeof_EskbHeader, malloc, PTRDIFF_MAX. rewrite !(proj2 (Z.ltb_ge _ _)) by lia. by apply load_written.
Qed.

(** ** Safety *)


(** ** Corruption *)

Definition field (i : nat) (file : bytes) : Z := le_value (take 4 (drop (4 * i) file)).
Definition intact (file : bytes) : Prop :=
  sizeof_EskbHeader <= Z.of_nat (length file) ∧ field 0 file = ESKB_MAGIC ∧ field 1 file = ESKB_VERSION ∧ eskb_crc32 (drop 16 file) = field 3 file.

Lemma load_intact file mallocs :
  (∀ m, eskb_load_memory file mallocs = Some (0, m) → intact file) ∧ (¬ intact file → eskb_load_memory file mallocs = Some (-1, no_module)).
Proof.
  unfold eskb_load_memory. fold (field 0 file) (field 1 file) (field 3 file). change (Z.to_nat sizeof_EskbHeader) with 16%nat. unfold intact.
  destruct (Z.ltb_spec (Z.of_nat (length file)) sizeof_EskbHeader); [by split|].
  destruct (Z.eqb_spec (field 0 file) ESKB_MAGIC); [|by split]. destruct (Z.eqb_spec (field 1 file) ESKB_VERSION); [|by split].
  destruct (Z.eqb_spec (eskb_crc32 (drop 16 file)) (field 3 file)); [|by split]. split; [done|]. intros []. done.
Qed.

Lemma le_value_inj l l' : Forall is_byte l → Forall is_byte l' → length l = length l' → le_value l = le_value l' → l = l'.
Proof.
  intros Hl. revert l'. induction Hl as [|b l Hb _ IH]; intros l' Hl' El E; destruct l' as [|b' l']; try done.
  inversion_clear Hl' as [|? ? Hb' Hl'']. unfold is_byte in *. simpl in *. assert (b = b') as -> by lia. f_equal. apply IH; (done || lia).
Qed.

(** Changing a byte changes the field that it is in, and no other one. *)
Lemma field_insert i k file b b0 : file !! i = Some b0 → Forall is_byte file → is_byte b → b ≠ b0 →
  if decide (4 * k <= i < 4 * k + 4)%nat then field k (<[i := b]> file) ≠ field k file else field k (<[i := b]> file) = field k file.
Proof.
  intros Ei Hb Hbb Hne. unfold field. destruct (decide _) as [Hi|Hi].
  - intros E. apply le_value_inj in E.
    + apply (f_equal (λ l, l !! (i - 4 * k)%nat)) in E. rewrite !lookup_take_lt, !lookup_drop in E by lia.
      replace (4 * k + (i - 4 * k))%nat with i in E by lia. rewrite list_lookup_insert_eq, Ei in E by (by eapply lookup_lt_Some). congruence.
    + by apply Forall_take, Forall_drop, Forall_insert.
    + by apply Forall_take, Forall_drop.
    + by rewrite !length_take, !length_drop, length_insert.
  - f_equal. apply list_eq. intros j. destruct (decide (j < 4)%nat); [|by rewrite !lookup_take_ge by lia].
    rewrite !lookup_take_lt, !lookup_drop by lia. apply list_lookup_insert_ne. lia.
Qed.

(** C32: If an ESKB file loads, then after any one of its bytes outside the flags word is
    replaced by another it is rejected, whichever allocations succeed. *)
Theorem eskb_corruption_detected file m mallocs i b0 b mallocs' : eskb_load_memory file mallocs = Some (0, m) → Forall is_byte file →
  file !! i = Some b0 → is_byte b → b ≠ b0 → (i < 8 ∨ 12 <= i)%nat → eskb_load_memory (<[i := b]> file) mallocs' = Some (-1, no_module).
Proof.
  intros Hm Hf Ei Hb Hne Hi. apply load_intact in Hm as (Hl & H0 & H1 & Hc). apply load_intact. intros (_ & H0' & H1' & Hc').
  pose proof (λ k, field_insert i k file b b0 Ei Hf Hb Hne) as Hk. pose proof (Hk 0%nat) as K0. pose proof (Hk 1%nat) as K1. pose proof (Hk 3%nat) as K3.
  destruct (decide (i < 16)%nat) as [Hlt|Hge].
  - rewrite drop_insert_lt in Hc' by lia. repeat destruct (decide _); (congruence || lia).
  - rewrite decide_False in K3 by lia. rewrite drop_insert_ge in Hc' by lia.
    destruct (lookup_lt_is_Some_2 (drop 16 file) (i - 16)) as [x Ex]; [rewrite length_drop; apply lookup_lt_Some in Ei; lia|].
    pose proof Ex as Ex'. rewrite lookup_drop in Ex'. replace (16 + (i - 16))%nat with i in Ex' by lia. rewrite Ei in Ex'. injection Ex' as <-.
    rewrite insert_take_drop in Hc' by (by eapply lookup_lt_Some). rewrite <- (take_drop_middle _ _ _ Ex) in Hc. rewrite K3, <- Hc in Hc'.
    revert Hc'. apply crc32_one_byte; try done; [by apply Forall_take, Forall_drop|eapply Forall_lookup_1; [exact Hf|done]|by apply Forall_drop, Forall_drop].
Qed.

(** ** Witnesses *)

Definition sample_constants : list EskbConst := [Const 1 12345678901 [] 0; Const 6 0 [65; 66; 67] 2; Const 3 1 [] 0; Const 0 0 [] 0].
Definition sample_functions : list EskbFunctionDef :=
  [FunctionDef (Some main_name) 0 3 0 (Some [Instr 1 0; Instr 1 1; Instr 29 4; Instr 30 1; Instr 36 0]) 5 0;
   FunctionDef (Some [102]) 2 300 0 (Some [Instr 29 4; Instr 30 3]) 2 3].
Definition sample_file : bytes := Eval vm_compute in file_of sample_constants sample_functions (Some [97; 98]).

Lemma sample_eskb_writable : writable sample_constants sample_functions (Some [97; 98]).
Proof.
  split.
  - repeat constructor; unfold is_u64; simpl; (done || lia || (intros _; unfold INT_MAX; lia)).
  - constructor; [|constructor; [|constructor]]; (split; [eexists; split; [reflexivity|]|eexists; split; [reflexivity|]|..]);
      try (unfold INT_MAX; simpl; lia); repeat constructor; simpl; (lia || done || (intros; lia)).
  - simpl. lia.
  - apply (bool_decide_unpack _). vm_compute. exact I.
  - vm_compute. discriminate.
  - simpl. lia.
  - vm_compute. reflexivity.
Qed.

Lemma sample_bytes : Forall is_byte sample_file.
Proof. apply Forall_forall. intros x Hx. apply list_elem_of_In in Hx. unfold is_byte. revert x Hx. apply List.Forall_forall. unfold sample_file. repeat constructor; lia. Qed.

Lemma eskb_file_roundtrip_witness : eskb_load_file (Some sample_file) [] = Some (0, module_of sample_constants sample_functions (Some [97; 98])).
Proof. apply (eskb_file_roundtrip sample_constants sample_functions (Some [97; 98]) 1000 sample_eskb_writable). vm_compute. lia. Defined.


Lemma eskb_corruption_detected_witness : eskb_load_memory (<[20%nat := 99]> sample_file) [] = Some (-1, no_module).
Proof.
  apply (eskb_corruption_detected sample_file (module_of sample_constants sample_functions (Some [97; 98])) [] 20 (default 0 (sample_file !! 20%nat)) 99 []).
  - vm_compute. reflexivity.
  - exact sample_bytes.
  - reflexivity.
  - unfold is_byte. lia.
  - vm_compute. discriminate.
  - right. vm_compute. lia.
Defined.

(** ** Where the code departs from its comments or from what it means to do *)

(** The assembler passes no constants (eshkol_asm.c), and the writer refuses that: it never writes a file. *)
Example asm_writes_nothing opened room code n src l : eskb_write_file opened room code n None 0 src l = Some (-1, None, l).
Proof. reflexivity. Qed.

(** What the writer reports, and what loading the file gives. *)
Definition then_loaded (w : option (Z * option bytes * list bool)) : option (Z * option (Z * EskbModule)) :=
  match w with Some (status, file, _) => Some (status, eskb_load_file file []) | None => None end.

(** Two functions of one name are written and never load: so it is with a program that
    defines a procedure [main], since its code as a whole has that name, too. *)
Example same_names_written :
  let main := FunctionDef (Some main_name) 0 0 0 (Some [Instr 36 0]) 1 0 in
  then_loaded (eskb_write_file_with_functions true 1000 (Some []) 0 (Some [main; main]) 2 None []) = Some (0, Some (-1, no_module)).
Proof. vm_compute. reflexivity. Qed.

(** A disk that is full, or an allocation that fails, leaves a file that does not load, and the writer reports success. *)
Example short_write_succeeds : then_loaded (eskb_write_file true 20 (Some [Instr 36 0]) 1 (Some []) 0 None []) = Some (0, Some (-1, no_module)).
Proof. vm_compute. reflexivity. Qed.
Example failed_allocation_succeeds : then_loaded (eskb_write_file true 1000 (Some [Instr 36 0]) 1 (Some []) 0 None [false]) = Some (0, Some (-1, no_module)).
Proof. vm_compute. reflexivity. Qed.

(** A source name of 256 bytes is written and does not load. *)
Example long_source_written :
  then_loaded (eskb_write_file true 1000 (Some [Instr 36 0]) 1 (Some []) 0 (Some (replicate 256 97)) []) = Some (0, Some (-1, no_module)).
Proof. vm_compute. reflexivity. Qed.

(** The flags are neither looked at nor covered by the checksum: a file that says big-endian loads as little-endian. *)
Example flags_ignored : eskb_load_memory (<[8%nat := 0]> sample_file) [] = eskb_load_memory sample_file [].
Proof. vm_compute. reflexivity. Qed.

(** Ten bytes that spell [2 ^ 70 - 1] are read, as [2 ^ 64 - 1]: overflow is not an error. *)
Example leb128_overflow_read : eskb_read_leb128 (replicate 9 255 ++ [127]) 10 = LebRead 10 UINT64_MAX.
Proof. vm_compute. reflexivity. Qed.
