(* ===== verification/Persist.v ===== *)
(** * Persist: saving and loading knowledge bases (lib/core/kb_persistence.cpp)

    The ESKB v2 format: a header, then per fact its predicate text, its arity and
    its arguments.  A file being written is the bytes it holds and the number of
    bytes the device still takes; a file being read is the bytes left.  The host
    is little-endian. *)

From S2P Require Export Bytes KnowledgeBase.
Local Open Scope Z_scope.

Definition ESKB_MAGIC : Z := 0x45534B42.
Definition ESKB_VERSION : Z := 2.
Definition HEAP_SUBTYPE_STRING : Z := 1.
Definition HEAP_SUBTYPE_SYMBOL : Z := 10.
Definition HEAP_SUBTYPE_BIGNUM : Z := 11.

(** ** Writing *)

Record out_file := OutFile { written : bytes; room : Z }.

Definition writer : Type := out_file → bool * out_file.

(** A short [fwrite] leaves what fitted. *)
Definition fwrite (bs : bytes) : writer := λ f,
  if Z.of_nat (length bs) <=? room f then (true, OutFile (written f ++ bs) (room f - Z.of_nat (length bs)))
  else (false, OutFile (written f ++ take (Z.to_nat (room f)) bs) 0).

Definition write_ok : writer := λ f, (true, f).
Definition write_fail : writer := λ f, (false, f).

(** [a && b]. *)
Definition and_then (a b : writer) : writer := λ f,
  let '(ok, f') := a f in if ok then b f' else (false, f').
Infix "&&&" := and_then (at level 40, left associativity) : eskb_scope.
Delimit Scope eskb_scope with eskb.
Local Open Scope eskb_scope.

Definition write_u8 (v : Z) : writer := fwrite (le_bytes 1 v).
Definition write_u32 (v : Z) : writer := fwrite (le_bytes 4 v).
Definition write_u64 (v : Z) : writer := fwrite (le_bytes 8 v).
Definition write_bytes (bs : bytes) : writer := match bs with [] => write_ok | _ => fwrite bs end.

(** ** Looking for float32 values before the destination is opened *)

Inductive persistence_scan_result := SCAN_CLEAR | SCAN_FLOAT32 | SCAN_INVALID.

(** [visited] is the used prefix of the fixed array: the objects the walk is
    inside of.  The header of an object is never NULL. *)
Fixpoint tagged_persistence_scan (value : value) (visited : list Z) (depth : Z) : persistence_scan_result :=
  if vtype value =? ESHKOL_VALUE_FLOAT32 then SCAN_FLOAT32
  else if negb (vtype value =? ESHKOL_VALUE_HEAP_PTR) || (vraw value =? 0) then SCAN_CLEAR
  else if 64 <=? depth then SCAN_INVALID
  else if existsb (Z.eqb (vraw value)) visited then SCAN_INVALID
  else if 256 <=? Z.of_nat (length visited) then SCAN_INVALID
  else
    let visited := visited ++ [vraw value] in
    match value with
    | Cons _ _ a d =>
        match tagged_persistence_scan a visited (depth + 1) with
        | SCAN_CLEAR => tagged_persistence_scan d visited (depth + 1)
        | result => result
        end
    | Fact _ _ args =>
        if 4096 <? Z.of_nat (length args) then SCAN_INVALID
        else
          (fix go (args : list Values.value) : persistence_scan_result :=
             match args with
             | [] => SCAN_CLEAR
             | x :: args =>
                 match tagged_persistence_scan x visited (depth + 1) with
                 | SCAN_CLEAR => go args
                 | result => result
                 end
             end) args
    | _ => SCAN_CLEAR
    end.

(** The first answer that is not [SCAN_CLEAR] over the arguments of all facts. *)
Fixpoint preflight (args : list value) : persistence_scan_result :=
  match args with
  | [] => SCAN_CLEAR
  | x :: args => match tagged_persistence_scan x [] 0 with SCAN_CLEAR => preflight args | result => result end
  end.

(** ** Arguments *)

Definition immediate_type (type : Z) : bool :=
  (type =? ESHKOL_VALUE_NULL) || (type =? ESHKOL_VALUE_INT64) || (type =? ESHKOL_VALUE_DOUBLE)
  || (type =? TYPE_BOOL) || (type =? ESHKOL_VALUE_CHAR) || (type =? ESHKOL_VALUE_LOGIC_VAR).

(** [data.raw_val]. *)
Definition raw_val (v : value) : Z :=
  match v with
  | Double d => double_bits d
  | _ => u64 (vraw v)
  end.

Definition heap_subtype (v : value) : Z :=
  match v with
  | Cons _ _ _ _ => 0 | Str _ _ _ => HEAP_SUBTYPE_STRING | Sym _ _ => HEAP_SUBTYPE_SYMBOL
  | Big _ _ => HEAP_SUBTYPE_BIGNUM | Fact _ _ _ => 13 | _ => subtype_of v
  end.

Definition write_text (s : string) : writer :=
  if 0x7FFFFFFF <? strlen s then write_fail else write_u32 (strlen s) &&& write_bytes (text_bytes s).

Section flags.
(** The flag byte of a tagged value, which [value] does not keep. *)
Context (flags : value → Z).

Definition write_arg (arg : value) : writer :=
  let type := vtype arg in
  write_u8 type &&& write_u8 (flags arg) &&&
  if type =? ESHKOL_VALUE_FLOAT32 then write_fail
  else if immediate_type type then write_u64 (raw_val arg)
  else if type =? ESHKOL_VALUE_HEAP_PTR then
    if vraw arg =? 0 then write_u8 255 &&& write_u32 0
    else
      write_u8 (heap_subtype arg) &&&
      match arg with
      | Str _ _ s | Sym _ s => write_text s
      | Big _ b =>
          match eshkol_bignum_to_string (Some b) with
          | Some str =>
              write_u32 (u32 (Z.of_nat (length str))) &&& write_bytes (map byte_of str)
          | None => write_fail
          end
      | _ => write_fail
      end
  else write_fail.

Fixpoint write_args (args : list value) : writer :=
  match args with [] => write_ok | x :: args => write_arg x &&& write_args args end.

Definition predicate_text (p : option pred_name) : string :=
  match p with Some p => p_text p | None => EmptyString end.

Definition write_fact (f : fact) : writer :=
  let name := predicate_text (f_pred f) in
  write_u32 (u32 (strlen name)) &&& write_bytes (text_bytes name)
  &&& write_u32 (u32 (Z.of_nat (length (f_args f)))) &&& write_args (f_args f).

Fixpoint write_facts (facts : list fact) : writer :=
  match facts with [] => write_ok | f :: facts => write_fact f &&& write_facts facts end.

Definition write_kb (facts : list fact) : writer :=
  write_u32 ESKB_MAGIC &&& write_u32 ESKB_VERSION &&& write_u32 (u32 (Z.of_nat (length facts)))
  &&& write_u32 0 &&& write_facts facts.

(** What the file system answers to [fopen] and [fclose], and the bytes it takes. *)
Record destination := Destination { opens : bool; capacity : Z; closes : bool }.

Definition is_path (v : value) : bool :=
  match v with Str false a _ => negb (a =? 0) | _ => false end.

(** The result and what becomes of the destination: [None] if it is not opened. *)
Definition save_facts (dest : destination) (facts : list fact) : bool * option bytes :=
  match preflight (flat_map f_args facts) with
  | SCAN_CLEAR =>
      if opens dest then
        let '(ok, f) := write_kb facts (OutFile [] (capacity dest)) in
        (ok && closes dest, Some (written f))
      else (false, None)
  | _ => (false, None)
  end.

Definition eshkol_kb_save_tagged (dest : destination) (path_tv kb_tv : value) : logic (value * option bytes) :=
  if negb (is_path path_tv) then mret (vfalse, None)
  else
    match kb_tv with
    | Kb a =>
        if a =? 0 then mret (vfalse, None)
        else
          kb ← get_kb a;
          let '(ok, file) := save_facts dest (kb_facts kb) in
          mret (Imm TYPE_BOOL (b2z ok), file)
    | _ => mret (vfalse, None)
    end.
End flags.

(** ** Reading

    A reader takes the bytes left; [None] is the [false] of the code.  What it
    allocates or interns before it fails stays. *)

Definition reader (A : Type) : Type := bytes → logic (option A * bytes).
#[export] Instance reader_ret : MRet reader := λ A a f, mret (Some a, f).
#[export] Instance reader_bind : MBind reader := λ A C k m f,
  '(o, f') ← m f; match o with Some a => k a f' | None => mret (None, f') end.

Definition read_fail {A} : reader A := λ f, mret (None, f).
Definition effect {A} (m : logic A) : reader A := λ f, a ← m; mret (Some a, f).

(** A short [fread] takes what is left. *)
Definition fread (n : nat) : reader bytes := λ f,
  if (n <=? length f)%nat then mret (Some (take n f), drop n f) else mret (None, []).

Definition read_u8 : reader Z := bs ← fread 1; mret (le_value bs).
Definition read_u32 : reader Z := bs ← fread 4; mret (le_value bs).
Definition read_u64 : reader Z := bs ← fread 8; mret (le_value bs).
Definition read_bytes (n : Z) : reader bytes := if n =? 0 then mret [] else fread (Z.to_nat n).

(** The argument with payload [raw], and [read_arg], which also returns the flags. *)
Definition immediate (type raw : Z) : value :=
  if type =? ESHKOL_VALUE_INT64 then Int64 (i64 raw)
  else if type =? ESHKOL_VALUE_DOUBLE then Double (bits_double raw)
  else if type =? ESHKOL_VALUE_LOGIC_VAR then LogicVar raw
  else Imm type raw.

Definition read_heap_arg : reader value :=
  subtype ← read_u8;
  if subtype =? 255 then _ ← read_u32; mret (Imm ESHKOL_VALUE_HEAP_PTR 0)
  else
    len ← read_u32;
    if 16 * 1024 * 1024 <? len then read_fail
    else if subtype =? HEAP_SUBTYPE_STRING then
      buf ← effect alloc; bs ← read_bytes len; mret (Str false buf (c_text bs))
    else if subtype =? HEAP_SUBTYPE_SYMBOL then
      buf ← effect alloc; bs ← read_bytes len; mret (Sym buf (c_text bs))
    else if subtype =? HEAP_SUBTYPE_BIGNUM then
      bs ← read_bytes len;
      match eshkol_bignum_from_string (map char_of bs) with
      | Some bn => a ← effect alloc; mret (Big a bn)
      | None => read_fail
      end
    else read_fail.

Definition read_arg : reader (value * Z) :=
  type ← read_u8; flags ← read_u8;
  if type =? ESHKOL_VALUE_FLOAT32 then read_fail
  else if immediate_type type then raw ← read_u64; mret (immediate type raw, flags)
  else if type =? ESHKOL_VALUE_HEAP_PTR then v ← read_heap_arg; mret (v, flags)
  else read_fail.

Fixpoint read_args (n : nat) : reader (list value) :=
  match n with
  | O => mret []
  | S n => x ← read_arg; args ← read_args n; mret (x.1 :: args)
  end.

(** One iteration: a fact, the end of the loop, or the end of the load. *)
Inductive fact_step := FactRead (f : fact) | LoopBreak | LoadAbort.

(** [m], or [step] where a read of [m] fails. *)
Definition otherwise (m : reader fact_step) (step : fact_step) : reader fact_step := λ f,
  '(o, f') ← m f; mret (Some (default step o), f').

Section load.
(** The address of [name_buf], the buffer on the stack the names are read into. *)
Context (name_buf : Z).

Definition read_fact_args (name : string) (arity : Z) : reader fact_step :=
  otherwise
    (fact ← effect alloc;
     interned ← effect (eshkol_intern_predicate name name_buf);
     args ← read_args (Z.to_nat arity);
     mret (FactRead (MkFact fact (Some interned) args))) LoadAbort.

Definition read_fact : reader fact_step :=
  otherwise
    (name_len ← read_u32;
     if 255 <? name_len then mret LoadAbort
     else
       name ← read_bytes name_len;
       arity ← read_u32;
       if 4096 <? arity then mret LoadAbort
       else read_fact_args (c_text name) arity) LoopBreak.

(** The loop over the facts; [None] aborts the load. *)
Fixpoint read_facts (num_facts : nat) (kb : knowledge_base) (f : bytes) : logic (option knowledge_base) :=
  match num_facts with
  | O => mret (Some kb)
  | S n =>
      '(o, f') ← read_fact f;
      match default LoopBreak o with
      | FactRead fact => read_facts n (eshkol_kb_assert kb fact) f'
      | LoopBreak => mret (Some kb)
      | LoadAbort => mret None
      end
  end.

(** The header: [None] unless the magic number and the version are right. *)
Definition read_header : reader Z :=
  magic ← read_u32;
  if negb (magic =? ESKB_MAGIC) then read_fail
  else
    version ← read_u32; num_facts ← read_u32; _ ← read_u32;
    if negb (version =? ESKB_VERSION) then read_fail else mret num_facts.

Definition load_file (f : bytes) : logic value :=
  '(o, f') ← read_header f;
  match o with
  | None => mret vnull
  | Some num_facts =>
      kb ← eshkol_make_kb;
      k ← get_kb kb;
      r ← read_facts (Z.to_nat num_facts) k f';
      match r with
      | Some k' => _ ← set_kb kb k'; mret (Kb kb)
      | None => mret vnull
      end
  end.

(** [contents] is what [fopen] and the reads find at the path, [None] if it does not open. *)
Definition eshkol_kb_load_tagged (contents : option bytes) (path_tv : value) : logic value :=
  if is_path path_tv then match contents with Some f => load_file f | None => mret vnull end
  else mret vnull.
End load.
