(* ===== verification/PersistSpec.v ===== *)
(** * PersistSpec: what the ESKB format encodes, and that reading inverts writing

    [fact_bytes] is the encoding of a fact; [emits] says that a writer puts down
    these bytes and no others, [gets] that a reader takes them. *)

From S2P Require Export Persist LogicProps.
Local Open Scope Z_scope.
Local Open Scope eskb_scope.

#[local] Opaque le_bytes.
#[local] Arguments eshkol_bignum_to_string : simpl never.

(** ** Writers *)

(** All of [bs] when it fits, else what fits of it. *)
Definition emits (w : writer) (bs : bytes) : Prop := ∀ f, 0 <= room f →
  w f = if Z.of_nat (length bs) <=? room f then (true, OutFile (written f ++ bs) (room f - Z.of_nat (length bs)))
        else (false, OutFile (written f ++ take (Z.to_nat (room f)) bs) 0).

Lemma emits_fwrite bs : emits (fwrite bs) bs.
Proof. intros f Hf. reflexivity. Qed.

Lemma emits_nothing : emits write_ok [].
Proof.
  intros [w r] Hf. cbn [room written] in *. change (Z.of_nat (length [])) with 0.
  destruct (Z.leb_spec 0 r); [|lia]. by rewrite app_nil_r, Z.sub_0_r.
Qed.

Lemma emits_bytes bs : emits (write_bytes bs) bs.
Proof. destruct bs; [apply emits_nothing|apply emits_fwrite]. Qed.

Lemma emits_and a b bs bs' : emits a bs → emits b bs' → emits (a &&& b) (bs ++ bs').
Proof.
  intros Ha Hb [w r] Hf. simpl in Hf. unfold and_then. rewrite Ha by done. rewrite length_app, Nat2Z.inj_add. simpl.
  destruct (Z.leb_spec (Z.of_nat (length bs)) r) as [L|L].
  - rewrite Hb by (simpl; lia). simpl.
    destruct (Z.leb_spec (Z.of_nat (length bs')) (r - Z.of_nat (length bs)));
      destruct (Z.leb_spec (Z.of_nat (length bs) + Z.of_nat (length bs')) r); try lia.
    + rewrite <- app_assoc. do 2 f_equal. lia.
    + rewrite <- app_assoc, take_app_ge by lia. do 5 f_equal. lia.
  - destruct (Z.leb_spec (Z.of_nat (length bs) + Z.of_nat (length bs')) r); [lia|].
    by rewrite take_app_le by lia.
Qed.

(** ** Readers *)

(** [m] takes exactly [bs] and returns [a], without effect. *)
Definition gets {A} (m : reader A) (bs : bytes) (a : A) : Prop := ∀ f e, m (bs ++ f) e = Some ((Some a, f), e).

Lemma bind_gets {A C} (m : reader A) (k : A → reader C) bs a f e : gets m bs a → (m ≫= k) (bs ++ f) e = k a f e.
Proof. intros Hm. unfold mbind, reader_bind, mbind, logic_bind. by rewrite Hm. Qed.

Lemma bind_effect {A C} (m : logic A) (k : A → reader C) a f e e' : m e = Some (a, e') →
  (effect m ≫= k) f e = k a f e'.
Proof. intros Hm. unfold mbind, reader_bind, effect, mbind, logic_bind. by rewrite Hm. Qed.

Lemma gets_fread bs : gets (fread (length bs)) bs bs.
Proof.
  intros f e. unfold fread. rewrite length_app. destruct (Nat.leb_spec (length bs) (length bs + length f)); [|lia].
  by rewrite take_app_length, drop_app_length.
Qed.

Lemma gets_word n x : 0 <= x < 2 ^ (8 * Z.of_nat n) → gets (bs ← fread n; mret (le_value bs)) (le_bytes n x) x.
Proof.
  intros Hx f e. pose proof (gets_fread (le_bytes n x)) as Hg. rewrite length_le_bytes in Hg.
  rewrite (bind_gets _ _ _ _ _ _ Hg). by rewrite le_value_bytes.
Qed.

Lemma gets_u8 x : 0 <= x < 256 → gets read_u8 (le_bytes 1 x) x.
Proof. intros. by apply (gets_word 1). Qed.
Lemma gets_u32 x : 0 <= x < 2 ^ 32 → gets read_u32 (le_bytes 4 x) x.
Proof. intros. by apply (gets_word 4). Qed.
Lemma gets_u64 x : is_u64 x → gets read_u64 (le_bytes 8 x) x.
Proof. intros. by apply (gets_word 8). Qed.

Lemma gets_bytes bs : gets (read_bytes (Z.of_nat (length bs))) bs bs.
Proof.
  intros f e. unfold read_bytes. destruct bs as [|b bs]; [done|].
  destruct (Z.eqb_spec (Z.of_nat (length (b :: bs))) 0) as [E|_]; [simpl in E; lia|].
  rewrite Nat2Z.id. apply gets_fread.
Qed.

Lemma u32_small x : 0 <= x <= 2 ^ 31 → u32 x = x.
Proof. intros. apply u32_id. lia. Qed.

(** ** What can be saved *)

Definition text_limit : Z := 16 * 1024 * 1024.

(** The arguments the format carries over: of every other argument either the
    save or the load answers failure. *)
Definition persistable (v : value) : Prop :=
  match v with
  | Imm ty raw =>
      ((ty = ESHKOL_VALUE_NULL ∨ ty = TYPE_BOOL ∨ ty = ESHKOL_VALUE_CHAR) ∧ is_u64 raw) ∨
      (ty = ESHKOL_VALUE_HEAP_PTR ∧ raw = 0)
  | Int64 n => is_i64 n
  | Double d => is_double d
  | LogicVar id => is_u64 id
  | Str false a s | Sym a s => a ≠ 0 ∧ strlen s <= text_limit ∧ no_nul s = true
  | Big a b => a ≠ 0 ∧ wf b ∧ ∀ str, eshkol_bignum_to_string (Some b) = Some str → Z.of_nat (length str) <= text_limit
  | _ => False
  end.

Definition persistable_fact (f : fact) : Prop :=
  (∃ p, f_pred f = Some p ∧ strlen (p_text p) <= 255 ∧ no_nul (p_text p) = true)
  ∧ Z.of_nat (length (f_args f)) <= 4096 ∧ Forall persistable (f_args f).

(** A value with the address of its object put aside. *)
Definition unaddressed (v : value) : value :=
  match v with
  | Str l _ s => Str l 0 s
  | Sym _ s => Sym 0 s
  | Big _ b => Big 0 b
  | _ => v
  end.

Lemma scan_persistable v : persistable v → tagged_persistence_scan v [] 0 = SCAN_CLEAR.
Proof.
  destruct v; try done; simpl.
  - intros [[[->|[->| ->]] _]|[-> ->]]; done.
  - destruct legacy; [done|]. intros [Ha _]. by destruct (Z.eqb_spec addr 0).
  - intros [Ha _]. by destruct (Z.eqb_spec addr 0).
  - intros [Ha _]. by destruct (Z.eqb_spec addr 0).
Qed.

Lemma preflight_persistable facts : Forall persistable_fact facts → preflight (flat_map f_args facts) = SCAN_CLEAR.
Proof.
  intros Hf. assert (Forall persistable (flat_map f_args facts)) as H.
  { induction Hf as [|f facts (_ & _ & Ha) _ IH]; simpl; [done|]. by apply Forall_app. }
  induction H as [|x l Hx _ IH]; simpl; [done|]. by rewrite scan_persistable.
Qed.

(** ** Arguments *)

Section flags.
Context (flags : value → Z) (Hflags : ∀ v, 0 <= flags v < 256).

Definition text_field (bs : bytes) : bytes := le_bytes 4 (Z.of_nat (length bs)) ++ bs.
Definition bignum_text (b : bignum) : bytes :=
  match eshkol_bignum_to_string (Some b) with Some str => map byte_of str | None => [] end.

Definition payload_bytes (v : value) : bytes :=
  match v with
  | Str _ _ s => le_bytes 1 HEAP_SUBTYPE_STRING ++ text_field (text_bytes s)
  | Sym _ s => le_bytes 1 HEAP_SUBTYPE_SYMBOL ++ text_field (text_bytes s)
  | Big _ b => le_bytes 1 HEAP_SUBTYPE_BIGNUM ++ text_field (bignum_text b)
  | Imm ty _ => if ty =? ESHKOL_VALUE_HEAP_PTR then le_bytes 1 255 ++ le_bytes 4 0 else le_bytes 8 (raw_val v)
  | _ => le_bytes 8 (raw_val v)
  end.

Definition arg_bytes (v : value) : bytes := (le_bytes 1 (vtype v) ++ le_bytes 1 (flags v)) ++ payload_bytes v.

Lemma emits_text s : strlen s <= text_limit → emits (write_text s) (text_field (text_bytes s)).
Proof.
  unfold write_text, text_field, text_limit. intros Hs. destruct (Z.ltb_spec 0x7FFFFFFF (strlen s)); [lia|].
  apply emits_and; [|apply emits_bytes]. rewrite length_text_bytes. apply emits_fwrite.
Qed.

Lemma bignum_text_some b : wf b → ∃ str, eshkol_bignum_to_string (Some b) = Some str ∧
  eshkol_bignum_from_string str = Some b.
Proof.
  intros Hb. destruct (to_string_numeral (Some b) (bval b)) as (str & Hs & Hn); [by exists b|].
  exists str. split; [done|]. apply (denotes_inj _ _ (bval b)); [|by exists b].
  by apply from_string_literal, numeral_literal.
Qed.

Lemma emits_arg v : persistable v → emits (write_arg flags v) (arg_bytes v).
Proof.
  intros Hv. unfold write_arg, arg_bytes. apply emits_and; [apply emits_and; apply emits_fwrite|].
  destruct v; simpl in Hv; try contradiction.
  - destruct Hv as [[[->|[->| ->]] _]|[-> ->]]; simpl; [apply emits_fwrite..|].
    apply emits_and; apply emits_fwrite.
  - apply emits_fwrite.
  - apply emits_fwrite.
  - apply emits_fwrite.
  - destruct legacy; [done|]. destruct Hv as (Ha & Hl & _). simpl. destruct (Z.eqb_spec addr 0); [done|].
    apply emits_and; [apply emits_fwrite|by apply emits_text].
  - destruct Hv as (Ha & Hl & _). simpl. destruct (Z.eqb_spec addr 0); [done|].
    apply emits_and; [apply emits_fwrite|by apply emits_text].
  - destruct Hv as (Ha & Hw & Hl). simpl. destruct (Z.eqb_spec addr 0); [done|].
    apply emits_and; [apply emits_fwrite|]. unfold bignum_text. destruct (bignum_text_some b Hw) as (str & Hs & _).
    specialize (Hl str Hs). rewrite Hs. unfold text_field, text_limit in *. rewrite length_map, u32_small by lia.
    apply emits_and; [apply emits_fwrite|apply emits_bytes].
Qed.

(** Allocation only moves the next address. *)
Definition only_allocates (e e' : engine) : Prop :=
  ∃ a, e' = Engine (var_names e) (var_pool_offset e) (pred_table e) (pred_pool_offset e) a (kbs e).

Lemma only_allocates_refl e : only_allocates e e.
Proof. exists (next_addr e). by destruct e. Qed.

Lemma only_allocates_trans e1 e2 e3 : only_allocates e1 e2 → only_allocates e2 e3 → only_allocates e1 e3.
Proof. intros [a ->] [b ->]. by exists b. Qed.

Lemma alloc_only e : ∃ a e', alloc e = Some (a, e') ∧ only_allocates e e'.
Proof. do 2 eexists. split; [reflexivity|]. by eexists. Qed.

(** Reading a text field with the limit check before it. *)
Lemma bind_text {C} bs (k : Z → reader C) f e : Z.of_nat (length bs) <= text_limit →
  (len ← read_u32; if 16 * 1024 * 1024 <? len then read_fail else k len) (text_field bs ++ f) e
  = k (Z.of_nat (length bs)) (bs ++ f) e.
Proof.
  unfold text_limit, text_field. intros Hl. rewrite <- app_assoc, (bind_gets _ _ _ _ _ _ (gets_u32 (Z.of_nat (length bs)) ltac:(lia))).
  by destruct (Z.ltb_spec (16 * 1024 * 1024) (Z.of_nat (length bs))); [lia|].
Qed.

Lemma gets_heap_arg v f e : persistable v → vtype v = ESHKOL_VALUE_HEAP_PTR →
  ∃ w e', read_heap_arg (payload_bytes v ++ f) e = Some ((Some w, f), e') ∧ unaddressed w = unaddressed v ∧ only_allocates e e'.
Proof.
  intros Hv Ht. unfold read_heap_arg. destruct (alloc_only e) as (a & e' & Ha & He).
  destruct v; try contradiction; try discriminate; simpl in Hv.
  - destruct Hv as [[[->|[->| ->]] _]|[-> ->]]; try discriminate. cbn [payload_bytes]. rewrite Z.eqb_refl.
    rewrite <- app_assoc, (bind_gets _ _ _ _ _ _ (gets_u8 255 ltac:(lia))). cbn [Z.eqb Pos.eqb].
    rewrite (bind_gets _ _ _ _ _ _ (gets_u32 0 ltac:(lia))). eexists _, e. split_and!; [done|done|apply only_allocates_refl].
  - destruct legacy; [contradiction|]. destruct Hv as (_ & Hl & Hn). cbn [payload_bytes].
    rewrite <- app_assoc, (bind_gets _ _ _ _ _ _ (gets_u8 HEAP_SUBTYPE_STRING ltac:(done))).
    change (HEAP_SUBTYPE_STRING =? 255) with false. cbv beta iota.
    rewrite bind_text by (by rewrite length_text_bytes). cbn. rewrite (bind_effect _ _ _ _ _ _ Ha).
    rewrite (bind_gets _ _ _ _ _ _ (gets_bytes _)), c_text_bytes by done. by eexists _, e'.
  - destruct Hv as (_ & Hl & Hn). cbn [payload_bytes].
    rewrite <- app_assoc, (bind_gets _ _ _ _ _ _ (gets_u8 HEAP_SUBTYPE_SYMBOL ltac:(done))).
    change (HEAP_SUBTYPE_SYMBOL =? 255) with false. cbv beta iota.
    rewrite bind_text by (by rewrite length_text_bytes). cbn. rewrite (bind_effect _ _ _ _ _ _ Ha).
    rewrite (bind_gets _ _ _ _ _ _ (gets_bytes _)), c_text_bytes by done. by eexists _, e'.
  - destruct Hv as (_ & Hw & Hl). destruct (bignum_text_some b Hw) as (str & Hs & Hr). cbn [payload_bytes].
    unfold bignum_text. rewrite Hs.
    rewrite <- app_assoc, (bind_gets _ _ _ _ _ _ (gets_u8 HEAP_SUBTYPE_BIGNUM ltac:(done))).
    change (HEAP_SUBTYPE_BIGNUM =? 255) with false. cbv beta iota.
    rewrite bind_text by (rewrite length_map; by apply Hl). cbn.
    rewrite (bind_gets _ _ _ _ _ _ (gets_bytes _)), map_char_of_bytes, Hr, (bind_effect _ _ _ _ _ _ Ha). by eexists _, e'.
Qed.

Lemma immediate_raw v : persistable v → immediate_type (vtype v) = true →
  immediate (vtype v) (raw_val v) = v ∧ is_u64 (raw_val v) ∧ payload_bytes v = le_bytes 8 (raw_val v).
Proof.
  destruct v; simpl; try contradiction; try discriminate; intros Hv Hi.
  - destruct Hv as [[Ht Hr]|[-> _]]; [|discriminate]. rewrite u64_id by done.
    by destruct Ht as [->|[->| ->]].
  - split_and!; [|apply u64_range|done]. unfold immediate. cbn. f_equal. unfold i64, u64, is_i64 in *.
    rewrite Zplus_mod_idemp_l, Z.mod_small; lia.
  - split_and!; [|by apply double_bits_range|done]. unfold immediate. cbn. by rewrite bits_double_bits.
  - rewrite u64_id by done. done.
  - by destruct legacy.
Qed.

Lemma gets_arg v f e : persistable v →
  ∃ w e', read_arg (arg_bytes v ++ f) e = Some ((Some (w, flags v), f), e') ∧ unaddressed w = unaddressed v ∧ only_allocates e e'.
Proof.
  intros Hv. unfold read_arg, arg_bytes. rewrite <- !app_assoc.
  assert (Ht : immediate_type (vtype v) = true ∨ vtype v = ESHKOL_VALUE_HEAP_PTR ∧ immediate_type (vtype v) = false).
  { destruct v; simpl in Hv; try contradiction; simpl; auto; [|by destruct legacy; auto].
    destruct Hv as [[[->|[->| ->]] _]|[-> _]]; auto. }
  assert (Hr : 0 <= vtype v < 256 ∧ (vtype v =? ESHKOL_VALUE_FLOAT32) = false).
  { destruct Ht as [Ht|[-> _]]; [|split; [unfold ESHKOL_VALUE_HEAP_PTR; lia|done]]. revert Ht. unfold immediate_type.
    rewrite !orb_true_iff, !Z.eqb_eq. intros Ht. split; [|apply Z.eqb_neq];
    unfold ESHKOL_VALUE_NULL, ESHKOL_VALUE_INT64, ESHKOL_VALUE_DOUBLE, TYPE_BOOL, ESHKOL_VALUE_CHAR, ESHKOL_VALUE_LOGIC_VAR, ESHKOL_VALUE_FLOAT32 in *; lia. }
  rewrite (bind_gets _ _ _ _ _ _ (gets_u8 _ (proj1 Hr))), (bind_gets _ _ _ _ _ _ (gets_u8 _ (Hflags v))), (proj2 Hr).
  destruct Ht as [Ht|[Ht Hi]].
  - destruct (immediate_raw v Hv Ht) as (Hw & Hu & ->). rewrite Ht, (bind_gets _ _ _ _ _ _ (gets_u64 _ Hu)), Hw.
    eexists _, e. split_and!; [done|done|apply only_allocates_refl].
  - rewrite Hi, Ht, Z.eqb_refl. destruct (gets_heap_arg v f e Hv Ht) as (w & e' & Hg & Hw & He).
    exists w, e'. split_and!; [|done|done]. unfold mbind at 1, reader_bind, mbind, logic_bind. by rewrite Hg.
Qed.

Lemma emits_args l : Forall persistable l → emits (write_args flags l) (flat_map arg_bytes l).
Proof. induction 1 as [|x l Hx _ IH]; simpl; [apply emits_nothing|]. apply emits_and; [by apply emits_arg|done]. Qed.

Lemma bind_gets' {A C} (m : reader A) (k : A → reader C) a f f' e e' : m f e = Some ((Some a, f'), e') →
  (m ≫= k) f e = k a f' e'.
Proof. intros Hm. unfold mbind, reader_bind, mbind, logic_bind. by rewrite Hm. Qed.

Lemma gets_args l : Forall persistable l → ∀ f e,
  ∃ ws e', read_args (length l) (flat_map arg_bytes l ++ f) e = Some ((Some ws, f), e') ∧
    map unaddressed ws = map unaddressed l ∧ only_allocates e e'.
Proof.
  induction 1 as [|x l Hx _ IH]; intros f e; cbn [read_args length flat_map].
  { exists [], e. split_and!; [done|done|apply only_allocates_refl]. }
  rewrite <- app_assoc. destruct (gets_arg x (flat_map arg_bytes l ++ f) e Hx) as (w & e1 & Hg & Hw & H1).
  destruct (IH f e1) as (ws & e2 & Hgs & Hws & H2).
  rewrite (bind_gets' _ _ _ _ _ _ _ Hg), (bind_gets' _ _ _ _ _ _ _ Hgs).
  exists (w :: ws), e2. split_and!; [done|simpl; by rewrite Hw, Hws|by eapply only_allocates_trans].
Qed.

(** ** Facts *)

Definition fact_name (f : fact) : string := predicate_text (f_pred f).

Definition fact_bytes (f : fact) : bytes :=
  ((le_bytes 4 (strlen (fact_name f)) ++ text_bytes (fact_name f)) ++ le_bytes 4 (Z.of_nat (length (f_args f))))
  ++ flat_map arg_bytes (f_args f).

Definition kb_bytes (facts : list fact) : bytes :=
  (((le_bytes 4 ESKB_MAGIC ++ le_bytes 4 ESKB_VERSION) ++ le_bytes 4 (Z.of_nat (length facts))) ++ le_bytes 4 0)
  ++ flat_map fact_bytes facts.

Lemma persistable_name f : persistable_fact f → 0 <= strlen (fact_name f) <= 255 ∧ no_nul (fact_name f) = true.
Proof.
  intros ((p & Hp & Hl & Hn) & _). unfold fact_name. rewrite Hp. simpl. split; [|done].
  split; [unfold strlen; lia|done].
Qed.

Lemma emits_fact f : persistable_fact f → emits (write_fact flags f) (fact_bytes f).
Proof.
  intros Hf. pose proof (persistable_name f Hf) as [Hn _]. destruct Hf as (_ & Ha & Hl). unfold write_fact, fact_bytes.
  fold (fact_name f). rewrite !u32_small by lia.
  repeat apply emits_and; [apply emits_fwrite|apply emits_bytes|apply emits_fwrite|by apply emits_args].
Qed.

Lemma emits_facts facts : Forall persistable_fact facts → emits (write_facts flags facts) (flat_map fact_bytes facts).
Proof. induction 1 as [|f facts Hf _ IH]; simpl; [apply emits_nothing|]. apply emits_and; [by apply emits_fact|done]. Qed.

Lemma emits_kb facts : Forall persistable_fact facts → Z.of_nat (length facts) < 2 ^ 32 →
  emits (write_kb flags facts) (kb_bytes facts).
Proof.
  intros Hf Hl. unfold write_kb, kb_bytes. rewrite (u32_id (Z.of_nat _)) by lia.
  repeat apply emits_and; [apply emits_fwrite..|by apply emits_facts].
Qed.

(** ** Interning the predicates of a file *)

Definition pool_need (names : list string) : Z := foldr (λ s n, strlen s + 1 + n) 0 names.

Definition room_for (e : engine) (names : list string) : Prop :=
  Z.of_nat (length (pred_table e)) + Z.of_nat (length names) <= PRED_TABLE_SIZE ∧
  pred_pool_offset e + pool_need names <= PRED_POOL_SIZE.

(** The engine after reading facts with these predicates. *)
Record pred_growth (e e' : engine) (names : list string) : Prop := {
  pg_ok : pred_table_ok e';
  pg_table : Z.of_nat (length (pred_table e')) <= Z.of_nat (length (pred_table e)) + Z.of_nat (length names);
  pg_pool : pred_pool_offset e' <= pred_pool_offset e + pool_need names;
  pg_old : ∀ q, q ∈ pred_table e → q ∈ pred_table e';
  pg_kbs : kbs e' = kbs e;
  pg_vars : var_names e' = var_names e
}.

Lemma pool_need_nonneg names : 0 <= pool_need names.
Proof. induction names as [|s l IH]; simpl; [lia|]. unfold strlen. lia. Qed.

Lemma growth_refl e : pred_table_ok e → pred_growth e e [].
Proof. intros H. constructor; simpl; auto; lia. Qed.

Lemma growth_trans e1 e2 e3 l1 l2 : pred_growth e1 e2 l1 → pred_growth e2 e3 l2 → pred_growth e1 e3 (l1 ++ l2).
Proof.
  intros [A1 A2 A3 A4 A5 A6] [B1 B2 B3 B4 B5 B6].
  assert (pool_need (l1 ++ l2) = pool_need l1 + pool_need l2) as E.
  { clear. induction l1; simpl; lia. }
  constructor; rewrite ?length_app, ?E; [done|lia|lia|auto|congruence|congruence].
Qed.

Lemma growth_alloc e e' : pred_table_ok e → only_allocates e e' → pred_growth e e' [].
Proof. intros [H1 H2 H3] [a ->]. constructor; simpl; auto; [|lia|lia]. by constructor. Qed.

Lemma intern_growth s a e : pred_table_ok e → room_for e [s] →
  ∃ p e', eshkol_intern_predicate s a e = Some (p, e') ∧ pred_growth e e' [s] ∧ p ∈ pred_table e' ∧ p_text p = s.
Proof.
  intros Hok [Hr Hp]. simpl in *. destruct (intern_predicate_spec s a e Hok) as (p & e' & Hi & Hok' & Hin & _ & Hold); [lia|lia|].
  exists p, e'. split_and!; [done| |done|by eapply intern_text].
  revert Hi. unfold eshkol_intern_predicate, mbind, logic_bind, get_engine. assert (0 <= strlen s) by (unfold strlen; lia).
  destruct (List.find _ _).
  { intros H'. lret H'. constructor; simpl; auto; lia. }
  destruct (_ <=? _); [intros H'; lret H'; constructor; simpl; auto; lia|].
  destruct (_ <? _); [intros H'; lret H'; constructor; simpl; auto; lia|].
  unfold set_preds. intros [= <- <-]. constructor; simpl in *; auto; rewrite ?length_app; simpl; lia.
Qed.

(** [g] is [f] read back: the same predicate text, now interned, and the same
    arguments up to the addresses of their objects. *)
Definition read_back (e : engine) (f g : fact) : Prop :=
  ∃ p q, f_pred f = Some p ∧ f_pred g = Some q ∧ p_text q = p_text p ∧ q ∈ pred_table e ∧
    map unaddressed (f_args g) = map unaddressed (f_args f).

Lemma read_back_growth e e' l f g : pred_growth e e' l → read_back e f g → read_back e' f g.
Proof. intros Hg (p & q & H1 & H2 & H3 & H4 & H5). exists p, q. split_and!; try done. by apply (pg_old _ _ _ Hg). Qed.

Context (name_buf : Z).

Lemma gets_fact fa f e : persistable_fact fa → pred_table_ok e → room_for e [fact_name fa] →
  ∃ g e', read_fact name_buf (fact_bytes fa ++ f) e = Some ((Some (FactRead g), f), e') ∧
    read_back e' fa g ∧ pred_growth e e' [fact_name fa].
Proof.
  intros Hf Hok Hroom. pose proof (persistable_name fa Hf) as [Hn Hz]. destruct Hf as ((p & Hp & _) & Ha & Hl).
  destruct (alloc_only e) as (a & e1 & Ea & H1). pose proof (growth_alloc _ _ Hok H1) as G1.
  assert (Hr1 : room_for e1 [fact_name fa]) by (destruct H1 as [? ->]; exact Hroom).
  destruct (intern_growth (fact_name fa) name_buf e1 (pg_ok _ _ _ G1) Hr1) as (q & e2 & Ei & G2 & Hq & Ht).
  destruct (gets_args (f_args fa) Hl f e2) as (ws & e3 & Er & Hw & H3).
  pose proof (growth_alloc _ _ (pg_ok _ _ _ G2) H3) as G3.
  exists (MkFact a (Some q) ws), e3. split_and!.
  - unfold read_fact, otherwise, fact_bytes. rewrite (logic_bind_eq _ _ _ (Some (FactRead (MkFact a (Some q) ws)), f) e3); [done|].
    rewrite <- !app_assoc.
    rewrite (bind_gets _ _ _ _ _ _ (gets_u32 (strlen (fact_name fa)) ltac:(lia))).
    destruct (Z.ltb_spec 255 (strlen (fact_name fa))); [lia|].
    pose proof (gets_bytes (text_bytes (fact_name fa))) as Hg. rewrite length_text_bytes in Hg.
    rewrite (bind_gets _ _ _ _ _ _ Hg), (bind_gets _ _ _ _ _ _ (gets_u32 (Z.of_nat (length (f_args fa))) ltac:(lia))).
    destruct (Z.ltb_spec 4096 (Z.of_nat (length (f_args fa)))); [lia|]. rewrite c_text_bytes by done.
    unfold read_fact_args, otherwise. rewrite (logic_bind_eq _ _ _ (Some (FactRead (MkFact a (Some q) ws)), f) e3); [done|].
    rewrite (bind_effect _ _ _ _ _ _ Ea), (bind_effect _ _ _ _ _ _ Ei), Nat2Z.id.
    by rewrite (bind_gets' _ _ _ _ _ _ _ Er).
  - exists p, q. split_and!; [done|done|rewrite Ht; unfold fact_name; by rewrite Hp| |done].
    by apply (pg_old _ _ _ G3).
  - apply (growth_trans _ _ _ [] [fact_name fa] G1). apply (growth_trans _ _ _ [fact_name fa] [] G2 G3).
Qed.

Lemma room_after e e' l l' : pred_growth e e' l → room_for e (l ++ l') → room_for e' l'.
Proof.
  intros [_ A2 A3 _ _ _] [B1 B2]. assert (pool_need (l ++ l') = pool_need l + pool_need l') as E.
  { clear. induction l; simpl; lia. }
  rewrite length_app in B1. rewrite E in B2. unfold room_for. lia.
Qed.

Lemma room_first e s l : room_for e (s :: l) → room_for e [s].
Proof. intros [B1 B2]. pose proof (pool_need_nonneg l). unfold room_for in *. simpl in *. lia. Qed.

Lemma gets_facts facts : Forall persistable_fact facts → ∀ kb f e, pred_table_ok e → room_for e (map fact_name facts) →
  ∃ k' e' gs, read_facts name_buf (length facts) kb (flat_map fact_bytes facts ++ f) e = Some (Some k', e') ∧
    kb_facts k' = kb_facts kb ++ gs ∧ Forall2 (read_back e') facts gs ∧ pred_growth e e' (map fact_name facts).
Proof.
  induction 1 as [|fa facts Hf _ IH]; intros kb f e Hok Hroom; cbn [read_facts length flat_map map].
  { exists kb, e, []. split_and!; [done|by rewrite app_nil_r|done|by apply growth_refl]. }
  rewrite <- app_assoc. destruct (gets_fact fa (flat_map fact_bytes facts ++ f) e Hf Hok (room_first _ _ _ Hroom))
    as (g & e1 & Hg & Hb & G1).
  destruct (IH (eshkol_kb_assert kb g) f e1 (pg_ok _ _ _ G1) (room_after _ _ [_] _ G1 Hroom)) as (k' & e' & gs & Hr & Hk & Hbs & G2).
  exists k', e', (g :: gs). split_and!.
  - by rewrite (logic_bind_eq _ _ _ _ _ Hg).
  - rewrite Hk. simpl. by rewrite <- app_assoc.
  - constructor; [by eapply read_back_growth|done].
  - apply (growth_trans _ _ _ [fact_name fa] _ G1 G2).
Qed.

Lemma gets_header n : 0 <= n < 2 ^ 32 →
  gets read_header (((le_bytes 4 ESKB_MAGIC ++ le_bytes 4 ESKB_VERSION) ++ le_bytes 4 n) ++ le_bytes 4 0) n.
Proof.
  intros Hn f e. unfold read_header. rewrite <- !app_assoc.
  rewrite (bind_gets _ _ _ _ _ _ (gets_u32 ESKB_MAGIC ltac:(done))), Z.eqb_refl. cbn [negb].
  rewrite (bind_gets _ _ _ _ _ _ (gets_u32 ESKB_VERSION ltac:(done))), (bind_gets _ _ _ _ _ _ (gets_u32 n Hn)).
  by rewrite (bind_gets _ _ _ _ _ _ (gets_u32 0 ltac:(done))).
Qed.

(** Loading what was saved. *)
Lemma load_saved facts e : Forall persistable_fact facts → Z.of_nat (length facts) < 2 ^ 32 →
  pred_table_ok e → room_for e (map fact_name facts) →
  ∃ a k' e', load_file name_buf (kb_bytes facts) e = Some (Kb a, e') ∧ kbs e' !! a = Some k' ∧
    Forall2 (read_back e') facts (kb_facts k') ∧ pred_table_ok e' ∧ var_names e' = var_names e.
Proof.
  intros Hf Hl Hok Hroom. unfold load_file, kb_bytes.
  set (e1 := Engine (var_names e) (var_pool_offset e) (pred_table e) (pred_pool_offset e) (next_addr e + 1)
               (<[next_addr e := MkKb KB_INITIAL_CAPACITY []]> (kbs e))).
  assert (Hok1 : pred_table_ok e1) by (destruct Hok; by constructor).
  destruct (gets_facts facts Hf (MkKb KB_INITIAL_CAPACITY []) [] e1 Hok1 Hroom) as (k' & e' & gs & Hr & Hk & Hbs & G).
  exists (next_addr e), k', (Engine (var_names e') (var_pool_offset e') (pred_table e') (pred_pool_offset e') (next_addr e')
               (<[next_addr e := k']> (kbs e'))).
  split_and!.
  - rewrite (logic_bind_eq _ _ _ _ _ (gets_header (Z.of_nat (length facts)) ltac:(lia) _ _)). cbv beta iota.
    rewrite (logic_bind_eq _ _ e (next_addr e) e1) by done.
    rewrite (logic_bind_eq _ _ e1 (MkKb KB_INITIAL_CAPACITY []) e1).
    2: { unfold get_kb, mbind, logic_bind, get_engine. simpl. by rewrite lookup_insert_eq. }
    rewrite Nat2Z.id, <- (app_nil_r (flat_map _ _)). by rewrite (logic_bind_eq _ _ _ _ _ Hr).
  - simpl. by rewrite lookup_insert_eq.
  - rewrite Hk. simpl. eapply Forall2_impl; [exact Hbs|]. intros x y (p & q & H). exists p, q. exact H.
  - destruct (pg_ok _ _ _ G). by constructor.
  - apply (pg_vars _ _ _ G).
Qed.
End flags.
