(* ===== verification/PersistProps.v ===== *)
(** * PersistProps: saved knowledge bases load again, and any file loads safely *)

From S2P Require Export PersistSpec.
Local Open Scope Z_scope.

(** * Loading files nobody wrote

    Every reader returns on every input; what a reader takes from a file it takes
    from every longer one; and the facts that come out respect the limits. *)

Create HintDb readers.

(** Introduces a variable without unfolding the goal. *)
Ltac open_binder := match goal with |- ∀ _, _ => intros ? end.

(** Goes through a reader with the rules [on_bind] and [on_if] of a predicate. *)
Ltac through_reader on_bind on_if :=
  repeat first [solve [auto with readers] | apply on_bind | apply on_if | open_binder
               | match goal with |- context [match ?o with Some _ => _ | None => _ end] => destruct o end].

(** ** Readers that return, and leave the knowledge bases alone *)

Definition tables_kept (e e' : engine) : Prop := kbs e' = kbs e ∧ var_names e' = var_names e.

Definition returning {A} (m : reader A) : Prop := ∀ f e, ∃ r e', m f e = Some (r, e') ∧ tables_kept e e'.

Lemma returning_bind {A C} (m : reader A) (k : A → reader C) : returning m → (∀ a, returning (k a)) → returning (m ≫= k).
Proof.
  intros Hm Hk f e. destruct (Hm f e) as ([[a|] f1] & e1 & E1 & K1).
  - destruct (Hk a f1 e1) as (r & e2 & E2 & K2). exists r, e2.
    split; [by rewrite (bind_gets' _ _ _ _ _ _ _ E1)|]. unfold tables_kept in *. intuition congruence.
  - exists (None, f1), e1. split; [|done]. unfold mbind, reader_bind, mbind, logic_bind. by rewrite E1.
Qed.

Lemma returning_ret {A} (a : A) : returning (mret a).
Proof. intros f e. by exists (Some a, f), e. Qed.
Lemma returning_fail {A} : returning (@read_fail A).
Proof. intros f e. by exists (None, f), e. Qed.
Lemma returning_fread n : returning (fread n).
Proof. intros f e. unfold fread. destruct (_ <=? _)%nat; eexists _, e; by split. Qed.
Lemma returning_alloc : returning (effect alloc).
Proof. intros f e. eexists _, _. split; [reflexivity|]. by split. Qed.
Lemma returning_intern s a : returning (effect (eshkol_intern_predicate s a)).
Proof.
  intros f e. unfold effect, eshkol_intern_predicate, mbind, logic_bind, get_engine.
  destruct (List.find _ _); [eexists _, _; by split|]. destruct (_ <=? _); [eexists _, _; by split|].
  destruct (_ <? _); eexists _, _; by split.
Qed.
Lemma returning_if {A} (b : bool) (m m' : reader A) : returning m → returning m' → returning (if b then m else m').
Proof. by destruct b. Qed.

#[export] Hint Resolve returning_bind returning_ret returning_fail returning_fread returning_alloc returning_intern returning_if : readers.

Lemma returning_u8 : returning read_u8.
Proof. unfold read_u8. auto with readers. Qed.
Lemma returning_u32 : returning read_u32.
Proof. unfold read_u32. auto with readers. Qed.
Lemma returning_u64 : returning read_u64.
Proof. unfold read_u64. auto with readers. Qed.
Lemma returning_bytes n : returning (read_bytes n).
Proof. unfold read_bytes. auto with readers. Qed.
#[export] Hint Resolve returning_u8 returning_u32 returning_u64 returning_bytes : readers.

Lemma returning_heap_arg : returning read_heap_arg.
Proof.
  unfold read_heap_arg. through_reader (@returning_bind) (@returning_if).
Qed.
#[export] Hint Resolve returning_heap_arg : readers.

Lemma returning_arg : returning read_arg.
Proof. unfold read_arg. through_reader (@returning_bind) (@returning_if). Qed.
#[export] Hint Resolve returning_arg : readers.

Lemma returning_args n : returning (read_args n).
Proof. induction n; cbn [read_args]; auto with readers. Qed.
#[export] Hint Resolve returning_args : readers.

(** ** Readers on longer files *)

(** A result satisfying [P] does not depend on what follows the bytes taken. *)
Definition stable {A} (P : A → Prop) (m : reader A) : Prop := ∀ f e a f' e',
  m f e = Some ((Some a, f'), e') → P a → ∀ g, m (f ++ g) e = Some ((Some a, f' ++ g), e').

Lemma reader_bind_inv {A C} (m : reader A) (k : A → reader C) f e c f' e' :
  (m ≫= k) f e = Some ((Some c, f'), e') →
  ∃ a f1 e1, m f e = Some ((Some a, f1), e1) ∧ k a f1 e1 = Some ((Some c, f'), e').
Proof.
  unfold mbind, reader_bind, mbind, logic_bind. destruct (m f e) as [[[[a|] f1] e1]|]; intros H; try done.
  by exists a, f1, e1.
Qed.

Lemma stable_bind {A C} (m : reader A) (k : A → reader C) P :
  stable (λ _, True) m → (∀ a, stable P (k a)) → stable P (m ≫= k).
Proof.
  intros Hm Hk f e c f' e' H Hc g. apply reader_bind_inv in H as (a & f1 & e1 & H1 & H2).
  rewrite (bind_gets' _ _ _ _ _ _ _ (Hm _ _ _ _ _ H1 I g)). by apply Hk.
Qed.

Lemma stable_ret {A} (a : A) P : stable P (mret a).
Proof. intros f e a' f' e' [= -> -> ->] _ g. done. Qed.
Lemma stable_fail {A} P : stable P (@read_fail A).
Proof. intros f e a' f' e' H. done. Qed.
Lemma stable_fread n P : stable P (fread n).
Proof.
  intros f e a f' e'. unfold fread. destruct (Nat.leb_spec n (length f)) as [L|L]; [|done].
  intros [= <- <- <-] _ g. rewrite length_app. destruct (Nat.leb_spec n (length f + length g)); [|lia].
  by rewrite take_app_le, drop_app_le by lia.
Qed.
Lemma stable_effect {A} (m : logic A) P : stable P (effect m).
Proof.
  intros f e a f' e' H _ g. unfold effect, mbind, logic_bind in *. destruct (m e) as [[a1 e1]|]; [|done].
  by injection H as -> -> ->.
Qed.
Lemma stable_if {A} (b : bool) (m m' : reader A) P : stable P m → stable P m' → stable P (if b then m else m').
Proof. by destruct b. Qed.

#[export] Hint Resolve stable_bind stable_ret stable_fail stable_fread stable_effect stable_if : readers.

Lemma stable_u8 P : stable P read_u8.
Proof. unfold read_u8. auto with readers. Qed.
Lemma stable_u32 P : stable P read_u32.
Proof. unfold read_u32. auto with readers. Qed.
Lemma stable_u64 P : stable P read_u64.
Proof. unfold read_u64. auto with readers. Qed.
Lemma stable_bytes n P : stable P (read_bytes n).
Proof. unfold read_bytes. auto with readers. Qed.
#[export] Hint Resolve stable_u8 stable_u32 stable_u64 stable_bytes : readers.

Lemma stable_heap_arg P : stable P read_heap_arg.
Proof.
  unfold read_heap_arg. through_reader (@stable_bind) (@stable_if).
Qed.
#[export] Hint Resolve stable_heap_arg : readers.

Lemma stable_arg P : stable P read_arg.
Proof. unfold read_arg. through_reader (@stable_bind) (@stable_if). Qed.
#[export] Hint Resolve stable_arg : readers.

Lemma stable_args n P : stable P (read_args n).
Proof. revert P. induction n; intros P; cbn [read_args]; auto with readers. Qed.
#[export] Hint Resolve stable_args : readers.

Lemma stable_header : stable (λ _, True) read_header.
Proof. unfold read_header. through_reader (@stable_bind) (@stable_if). Qed.

(** ** Facts *)

Definition is_fact (s : fact_step) : Prop := ∃ g, s = FactRead g.

Lemma returning_otherwise m s : returning m → returning (otherwise m s).
Proof.
  intros Hm f e. destruct (Hm f e) as ([o f1] & e1 & E1 & K1). eexists _, e1. split; [|done].
  unfold otherwise. by rewrite (logic_bind_eq _ _ _ _ _ E1).
Qed.

Lemma stable_otherwise m s : ¬ is_fact s → stable is_fact m → stable is_fact (otherwise m s).
Proof.
  intros Hs Hm f e a f' e' H Ha g. unfold otherwise in *. apply logic_bind_inv in H as ([o f1] & e1 & H1 & H).
  injection H as <- <- <-. destruct o as [a'|]; [|done]. simpl in *. by rewrite (logic_bind_eq _ _ _ _ _ (Hm _ _ _ _ _ H1 Ha g)).
Qed.

Lemma returning_fact buf : returning (read_fact buf).
Proof.
  assert (∀ s n, returning (read_fact_args buf s n)) by (intros; apply returning_otherwise; auto 6 with readers).
  apply returning_otherwise. through_reader (@returning_bind) (@returning_if).
Qed.

Lemma stable_fact buf : stable is_fact (read_fact buf).
Proof.
  assert (∀ s n, stable is_fact (read_fact_args buf s n)).
  { intros. apply stable_otherwise; [by intros [? ?]|]. auto 6 with readers. }
  apply stable_otherwise; [by intros [? ?]|]. through_reader (@stable_bind) (@stable_if).
Qed.

(** The loop returns, leaves the other knowledge bases alone and only adds facts. *)
Lemma read_facts_returns buf n : ∀ kb f e, ∃ r e', read_facts buf n kb f e = Some (r, e') ∧ tables_kept e e' ∧
  match r with Some k' => ∃ gs, kb_facts k' = kb_facts kb ++ gs ∧ (length gs <= n)%nat | None => True end.
Proof.
  induction n as [|n IH]; intros kb f e; cbn [read_facts].
  { exists (Some kb), e. split_and!; [done|done|exists []; rewrite app_nil_r; done]. }
  destruct (returning_fact buf f e) as ([o f1] & e1 & E1 & K1). rewrite (logic_bind_eq _ _ _ _ _ E1).
  destruct (default LoopBreak o) as [g| |].
  - destruct (IH (eshkol_kb_assert kb g) f1 e1) as (r & e2 & E2 & K2 & Hr). exists r, e2.
    split_and!; [done|unfold tables_kept in *; intuition congruence|]. destruct r as [k'|]; [|done].
    destruct Hr as (gs & -> & Hl). exists (g :: gs). simpl. rewrite <- app_assoc. split; [done|lia].
  - exists (Some kb), e1. split_and!; [done|done|]. exists []. rewrite app_nil_r. split; [done|simpl; lia].
  - exists None, e1. done.
Qed.

(** Of a file cut short the loop gives a prefix of the facts, or aborts. *)
Lemma read_facts_prefix buf n : ∀ kb f g e k1 k2 e1 e2,
  read_facts buf n kb f e = Some (Some k1, e1) → read_facts buf n kb (f ++ g) e = Some (Some k2, e2) →
  kb_facts k1 `prefix_of` kb_facts k2.
Proof.
  induction n as [|n IH]; intros kb f g e k1 k2 e1 e2 H1 H2; cbn [read_facts] in *.
  { injection H1 as -> _. by injection H2 as -> _. }
  assert (Hpre : kb_facts kb `prefix_of` kb_facts k2).
  { destruct (read_facts_returns buf (S n) kb (f ++ g) e) as (r & e' & E & _ & Hr). cbn [read_facts] in E.
    rewrite E in H2. injection H2 as -> _. destruct Hr as (gs & -> & _). by apply prefix_app_r. }
  destruct (returning_fact buf f e) as ([o f1] & e' & E & _). rewrite (logic_bind_eq _ _ _ _ _ E) in H1.
  destruct (default LoopBreak o) as [fa| |] eqn:Eo; [|by injection H1 as -> _|done].
  assert (o = Some (FactRead fa)) as -> by (destruct o; simpl in Eo; congruence).
  rewrite (logic_bind_eq _ _ _ _ _ (stable_fact buf _ _ _ _ _ E (ex_intro _ fa eq_refl) g)) in H2. simpl in H2. eauto.
Qed.

(** ** Sizes *)

(** [m] takes at least [k] bytes, from the front of the file. *)
Definition takes {A} (k : nat) (m : reader A) : Prop := ∀ f e a f' e',
  m f e = Some ((Some a, f'), e') → ∃ p, f = p ++ f' ∧ (k <= length p)%nat.

Lemma takes_weaken {A} j k (m : reader A) : (j <= k)%nat → takes k m → takes j m.
Proof. intros Hj Hm f e a f' e' H. apply Hm in H as (p & -> & Hp). exists p. split; [done|lia]. Qed.

Lemma takes_bind {A C} j k (m : reader A) (c : A → reader C) : takes j m → (∀ a, takes k (c a)) → takes (j + k) (m ≫= c).
Proof.
  intros Hm Hc f e a f' e' (b & f1 & e1 & (p & -> & Hp)%Hm & (q & -> & Hq)%Hc)%reader_bind_inv.
  exists (p ++ q). rewrite <- app_assoc, length_app. split; [done|lia].
Qed.

Lemma takes_then {A C} (m : reader A) (c : A → reader C) : takes 0 m → (∀ a, takes 0 (c a)) → takes 0 (m ≫= c).
Proof. apply (takes_bind 0 0). Qed.

Lemma takes_ret {A} (a : A) : takes 0 (mret a).
Proof. intros f e a' f' e' [= _ -> _]. by exists []. Qed.
Lemma takes_fail {A} k : takes k (@read_fail A).
Proof. intros f e a' f' e' [=]. Qed.
Lemma takes_fread n : takes n (fread n).
Proof.
  intros f e a f' e'. unfold fread. destruct (Nat.leb_spec n (length f)); [|done]. intros [= _ <- _].
  exists (take n f). rewrite take_drop, length_take. split; [done|lia].
Qed.
Lemma takes_fread_0 n : takes 0 (fread n).
Proof. apply (takes_weaken 0 n); [lia|apply takes_fread]. Qed.
Lemma takes_effect {A} (m : logic A) : takes 0 (effect m).
Proof. intros f e a f' e' H. apply logic_bind_inv in H as (x & e1 & _ & H). injection H as _ -> _. by exists []. Qed.
Lemma takes_if {A} k (b : bool) (m m' : reader A) : takes k m → takes k m' → takes k (if b then m else m').
Proof. by destruct b. Qed.
#[export] Hint Resolve takes_then takes_ret takes_fail takes_fread_0 takes_effect takes_if : readers.

Lemma takes_u8 : takes 0 read_u8.
Proof. unfold read_u8. auto with readers. Qed.
Lemma takes_u32 : takes 4 read_u32.
Proof. apply (takes_bind 4 0); [apply takes_fread|]. intros; apply takes_ret. Qed.
Lemma takes_u32_0 : takes 0 read_u32.
Proof. apply (takes_weaken 0 4); [lia|apply takes_u32]. Qed.
Lemma takes_u64 : takes 0 read_u64.
Proof. unfold read_u64. auto with readers. Qed.
Lemma takes_bytes n : takes 0 (read_bytes n).
Proof. unfold read_bytes. auto with readers. Qed.
#[export] Hint Resolve takes_u8 takes_u32_0 takes_u64 takes_bytes : readers.

Lemma takes_heap_arg : takes 0 read_heap_arg.
Proof. unfold read_heap_arg. through_reader (@takes_then) (@takes_if). Qed.
#[export] Hint Resolve takes_heap_arg : readers.
Lemma takes_arg : takes 0 read_arg.
Proof. unfold read_arg. through_reader (@takes_then) (@takes_if). Qed.
#[export] Hint Resolve takes_arg : readers.
Lemma takes_args n : takes 0 (read_args n).
Proof. induction n; cbn [read_args]; auto with readers. Qed.

Lemma read_args_length n : ∀ f e l f' e', read_args n f e = Some ((Some l, f'), e') → length l = n.
Proof.
  induction n as [|n IH]; intros f e l f' e' H; cbn [read_args] in H; [by injection H as <- _ _|].
  apply reader_bind_inv in H as (x & f1 & e1 & _ & (args & f2 & e2 & H & [= <- _ _])%reader_bind_inv).
  simpl. by rewrite (IH _ _ _ _ _ H).
Qed.

Lemma read_bytes_length n f e bs f' e' : read_bytes n f e = Some ((Some bs, f'), e') → 0 <= n → Z.of_nat (length bs) = n.
Proof.
  unfold read_bytes, fread. destruct (Z.eqb_spec n 0) as [->|]; [by intros [= <- _ _]|].
  destruct (Nat.leb_spec (Z.to_nat n) (length f)); [|done]. intros [= <- _ _] Hn. rewrite length_take. lia.
Qed.

Lemma c_text_length bs : strlen (c_text bs) <= Z.of_nat (length bs).
Proof. unfold strlen. induction bs as [|b bs IH]; simpl; [lia|]. destruct (b =? 0); simpl; lia. Qed.

(** What the loader lets in. *)
Definition fact_within (g : fact) : Prop :=
  (length (f_args g) <= 4096)%nat ∧ ∃ q, f_pred g = Some q ∧ strlen (p_text q) <= 255.

Lemma read_u32_nonneg f e n f' e' : read_u32 f e = Some ((Some n, f'), e') → Forall (λ b, 0 <= b) f → 0 <= n.
Proof.
  intros (bs & ? & ? & H & [= <- _ _])%reader_bind_inv Hf. unfold fread in H. destruct (_ <=? _)%nat; [|done].
  injection H as <- _ _. assert (Forall (λ b, 0 <= b) (take 4 f)) as Ht by (by apply Forall_take). clear -Ht.
  induction Ht; cbn [le_value]; lia.
Qed.

Lemma read_fact_args_within buf s arity f e f' e' g :
  read_fact_args buf s arity f e = Some ((Some (FactRead g), f'), e') → arity <= 4096 →
  (length (f_args g) <= 4096)%nat ∧ (∃ q, f_pred g = Some q ∧ p_text q = s) ∧ ∃ p, f = p ++ f'.
Proof.
  intros H Ha. apply logic_bind_inv in H as ([o f1] & e1 & H & [= Ho -> ->]). destruct o as [st|]; [|done]. simpl in Ho. subst st.
  apply reader_bind_inv in H as (a & f2 & e2 & E1 & H). apply takes_effect in E1 as (p & -> & _).
  apply reader_bind_inv in H as (q & f3 & e3 & E2 & H). assert (Hq : p_text q = s).
  { apply logic_bind_inv in E2 as (x & ? & E2 & [= -> _ _]). by eapply intern_text. }
  apply takes_effect in E2 as (p2 & -> & _). apply reader_bind_inv in H as (args & f4 & e4 & E3 & [= <- -> ->]).
  pose proof (read_args_length _ _ _ _ _ _ E3) as Hl. apply takes_args in E3 as (p3 & -> & _). simpl.
  split_and!; [lia|by exists q|]. exists (p ++ p2 ++ p3). by rewrite <- !app_assoc.
Qed.

Lemma read_fact_within buf f e f' e' g : read_fact buf f e = Some ((Some (FactRead g), f'), e') →
  Forall (λ b, 0 <= b) f → fact_within g ∧ ∃ p, f = p ++ f' ∧ (8 <= length p)%nat.
Proof.
  intros H Hf. apply logic_bind_inv in H as ([o f1] & e1 & H & [= Ho -> ->]). destruct o as [st|]; [|done]. simpl in Ho. subst st.
  apply reader_bind_inv in H as (n & f2 & e2 & E1 & H). pose proof (read_u32_nonneg _ _ _ _ _ E1 Hf) as Hn.
  apply takes_u32 in E1 as (p1 & -> & L1). destruct (Z.ltb_spec 255 n); [done|].
  apply reader_bind_inv in H as (bs & f3 & e3 & E2 & H). pose proof (read_bytes_length _ _ _ _ _ _ E2 Hn) as Hl.
  apply takes_bytes in E2 as (p2 & -> & _). apply reader_bind_inv in H as (arity & f4 & e4 & E3 & H).
  apply takes_u32 in E3 as (p3 & -> & L3). destruct (Z.ltb_spec 4096 arity); [done|].
  apply read_fact_args_within in H as (Hargs & (q & Hq & Ht) & p4 & ->); [|done]. split.
  - split; [done|]. exists q. split; [done|]. rewrite Ht. pose proof (c_text_length bs). lia.
  - exists (p1 ++ p2 ++ p3 ++ p4). rewrite !length_app, <- !app_assoc. split; [done|lia].
Qed.

Lemma read_facts_within buf n : ∀ kb f e k' e', read_facts buf n kb f e = Some (Some k', e') →
  Forall (λ b, 0 <= b) f → ∃ gs, kb_facts k' = kb_facts kb ++ gs ∧ Forall fact_within gs ∧ (8 * length gs <= length f)%nat.
Proof.
  induction n as [|n IH]; intros kb f e k' e' H Hf; cbn [read_facts] in H.
  { injection H as -> _. exists []. rewrite app_nil_r. split_and!; [done|done|simpl; lia]. }
  apply logic_bind_inv in H as ([o f1] & e1 & H1 & H). destruct (default LoopBreak o) as [g| |] eqn:Eo; [| |done].
  - assert (o = Some (FactRead g)) as -> by (destruct o; simpl in Eo; congruence).
    destruct (read_fact_within _ _ _ _ _ _ H1 Hf) as [Hg (p & -> & Hp)]. apply Forall_app in Hf as [_ Hf].
    destruct (IH _ _ _ _ _ H Hf) as (gs & Hk & Hgs & Hb). exists (g :: gs). rewrite Hk, length_app. simpl. rewrite <- app_assoc.
    split_and!; [done|by constructor|lia].
  - injection H as -> _. exists []. rewrite app_nil_r. split_and!; [done|done|simpl; lia].
Qed.

(** ** Whole files *)

(** The load of a file in the order of its steps: the header, then the loop over a
    fresh knowledge base. *)
Definition with_new_kb (e : engine) : engine :=
  Engine (var_names e) (var_pool_offset e) (pred_table e) (pred_pool_offset e) (next_addr e + 1)
    (<[next_addr e := MkKb KB_INITIAL_CAPACITY []]> (kbs e)).

Inductive load_run (buf : Z) (f : bytes) (e : engine) : value → engine → Prop :=
| run_header f' : read_header f e = Some ((None, f'), e) → load_run buf f e vnull e
| run_abort n f' e' :
    read_header f e = Some ((Some n, f'), e) →
    read_facts buf (Z.to_nat n) (MkKb KB_INITIAL_CAPACITY []) f' (with_new_kb e) = Some (None, e') → load_run buf f e vnull e'
| run_loaded n f' k e' e'' :
    read_header f e = Some ((Some n, f'), e) →
    read_facts buf (Z.to_nat n) (MkKb KB_INITIAL_CAPACITY []) f' (with_new_kb e) = Some (Some k, e') →
    set_kb (next_addr e) k e' = Some ((), e'') → load_run buf f e (Kb (next_addr e)) e''.

(** The header allocates nothing. *)
Definition inert {A} (m : reader A) : Prop := ∀ f e, ∃ r, m f e = Some (r, e).

Lemma inert_bind {A C} (m : reader A) (k : A → reader C) : inert m → (∀ a, inert (k a)) → inert (m ≫= k).
Proof.
  intros Hm Hk f e. destruct (Hm f e) as [[[a|] f1] H1].
  - destruct (Hk a f1 e) as [r H2]. exists r. by rewrite (bind_gets' _ _ _ _ _ _ _ H1).
  - exists (None, f1). unfold mbind, reader_bind, mbind, logic_bind. by rewrite H1.
Qed.

Lemma inert_if {A} (b : bool) (m m' : reader A) : inert m → inert m' → inert (if b then m else m').
Proof. by destruct b. Qed.

Lemma inert_u32 : inert read_u32.
Proof.
  apply inert_bind; [|by eexists]. intros f e. unfold fread. destruct (_ <=? _)%nat; by eexists.
Qed.

Lemma header_pure : inert read_header.
Proof.
  unfold read_header. repeat first [apply inert_u32 | apply inert_bind | apply inert_if | open_binder]; by eexists.
Qed.

Lemma header_takes f e n f' e' : read_header f e = Some ((Some n, f'), e') → ∃ p, f = p ++ f' ∧ (0 <= length p)%nat.
Proof.
  assert (takes 0 read_header) as H; [|apply H]. unfold read_header. through_reader (@takes_then) (@takes_if).
Qed.

Lemma read_u32_front f e n f' e' : read_u32 f e = Some ((Some n, f'), e') → n = le_value (take 4 f) ∧ f' = drop 4 f.
Proof.
  intros (bs & f1 & e1 & H & [= <- <- _])%reader_bind_inv. unfold fread in H. destruct (_ <=? _)%nat; [|done].
  by injection H as <- <- _.
Qed.

(** A header that reads has the right magic number and version. *)
Lemma header_checked f e n f' : read_header f e = Some ((Some n, f'), e) →
  ¬ (le_value (take 4 f) ≠ ESKB_MAGIC ∨ le_value (take 4 (drop 4 f)) ≠ ESKB_VERSION).
Proof.
  intros (m & f1 & e1 & [-> ->]%read_u32_front & H)%reader_bind_inv.
  destruct (Z.eqb_spec (le_value (take 4 f)) ESKB_MAGIC) as [Em|]; [|done].
  apply reader_bind_inv in H as (v & f2 & e2 & [-> ->]%read_u32_front & H).
  apply reader_bind_inv in H as (c & f3 & e3 & _ & H). apply reader_bind_inv in H as (r & f4 & e4 & _ & H).
  destruct (Z.eqb_spec (le_value (take 4 (drop 4 f))) ESKB_VERSION) as [Ev|]; [|done]. intros [?|?]; done.
Qed.

Lemma load_runs buf f e : ∃ v e', load_file buf f e = Some (v, e') ∧ load_run buf f e v e'.
Proof.
  destruct (header_pure f e) as [[[n|] f'] Hh].
  - destruct (read_facts_returns buf (Z.to_nat n) (MkKb KB_INITIAL_CAPACITY []) f' (with_new_kb e)) as (r & e' & Hr & _ & _).
    assert (Hl : load_file buf f e = match r with
      | Some k' => (_ ← set_kb (next_addr e) k'; mret (Kb (next_addr e))) e' | None => Some (vnull, e') end).
    { unfold load_file. rewrite (logic_bind_eq _ _ _ _ _ Hh). cbv beta iota.
      rewrite (logic_bind_eq _ _ e (next_addr e) (with_new_kb e)) by done.
      rewrite (logic_bind_eq _ _ _ (MkKb KB_INITIAL_CAPACITY []) (with_new_kb e)).
      2: { unfold get_kb, mbind, logic_bind, get_engine. simpl. by rewrite lookup_insert_eq. }
      rewrite (logic_bind_eq _ _ _ _ _ Hr). by destruct r. }
    rewrite Hl. destruct r as [k|].
    + eexists _, _. split; [reflexivity|]. by eapply run_loaded.
    + eexists _, _. split; [reflexivity|]. by eapply run_abort.
  - exists vnull, e. split; [|by eapply run_header]. unfold load_file. by rewrite (logic_bind_eq _ _ _ _ _ Hh).
Qed.

Lemma load_run_inv buf f e v e' : load_file buf f e = Some (v, e') → load_run buf f e v e'.
Proof. intros H. destruct (load_runs buf f e) as (v1 & e1 & H1 & Hr). congruence. Qed.

(** * The properties of saved knowledge bases

    What is saved loads again, whole or cut short; any file loads safely; a save
    of a float32 leaves the file alone.  Then where the format loses something. *)

(** ** Sample knowledge bases *)

Definition no_flags (v : value) : Z := 0.
Definition sample_path : value := Str false 4096 "facts.eskb".
Definition good_disk : destination := Destination true 1000000 true.
Definition no_preds (k : knowledge_base) : engine := Engine ["?x"; "?y"]%string 6 [] 0 100 {[ 7 := k ]}.
Definition parent : pred_name := Predicate (PoolPtr 0) "parent".
Definition sample_fact : fact :=
  MkFact 50 (Some parent) [Sym 51 "bob"; Int64 (-3); Double (S754_finite true 6755399441055744 (-52)); Big 52 (Bignum 1 [5; 7]); vnull].
Definition family : knowledge_base := MkKb 16 [sample_fact; MkFact 60 (Some parent) [Str false 61 "a b"; LogicVar 1]].

Lemma sample_name : ∃ p, Some parent = Some p ∧ strlen (p_text p) <= 255 ∧ no_nul (p_text p) = true.
Proof. exists parent. split_and!; [reflexivity|vm_compute; discriminate|reflexivity]. Qed.

Lemma sample_text (a : Z) s : (a =? 0) = false → (strlen s <=? 255) && no_nul s = true →
  a ≠ 0 ∧ strlen s <= text_limit ∧ no_nul s = true.
Proof. intros Ha%Z.eqb_neq [Hl%Z.leb_le Hn]%andb_prop. unfold text_limit. split_and!; [done|lia|done]. Qed.

Lemma sample_bignum : wf (Bignum 1 [5; 7]) ∧
  ∀ str, eshkol_bignum_to_string (Some (Bignum 1 [5; 7])) = Some str → Z.of_nat (length str) <= text_limit.
Proof.
  split; [apply wf_two; auto; unfold is_u64; lia|]. intros str Hs.
  assert (eshkol_bignum_to_string (Some (Bignum 1 [5; 7])) = Some (String.list_ascii_of_string "-129127208515966861317")) as E
    by (vm_compute; reflexivity).
  rewrite E in Hs. injection Hs as <-. unfold text_limit. simpl. lia.
Qed.

Lemma family_persistable : Forall persistable_fact (kb_facts family).
Proof.
  repeat apply List.Forall_cons; [..|apply List.Forall_nil]; (split; [exact sample_name|split; [simpl; lia|]]);
    repeat apply List.Forall_cons; try apply List.Forall_nil; cbn [persistable].
  - by apply sample_text.
  - unfold is_i64. lia.
  - reflexivity.
  - split; [lia|exact sample_bignum].
  - left. split; [by left|]. unfold is_u64. lia.
  - by apply sample_text.
  - unfold is_u64. lia.
Qed.

Lemma fresh_preds_ok k : pred_table_ok (no_preds k).
Proof. constructor; simpl; constructor. Qed.

(** ** Properties *)



(** A file cut short never invents or reorders anything: if a file loads,
    what is left of it loads as a prefix of its facts, or not at all. *)
Theorem kb_load_truncated name_buf f g path e b k e1 :
  eshkol_kb_load_tagged name_buf (Some (f ++ g)) path e = Some (Kb b, e1) → kbs e1 !! b = Some k →
  ∃ v e2, eshkol_kb_load_tagged name_buf (Some f) path e = Some (v, e2) ∧
    (v = vnull ∨ v = Kb b ∧ ∃ k2, kbs e2 !! b = Some k2 ∧ kb_facts k2 `prefix_of` kb_facts k).
Proof.
  unfold eshkol_kb_load_tagged. destruct (is_path path).
  2: { intros [=]. }
  intros H Hk. destruct (load_runs name_buf f e) as (v & e2 & Hl & Hr). exists v, e2. split; [done|].
  destruct Hr as [|n f' e' Hh Hn|n f' k2 e' e'' Hh Hn Hs]; [by left|by left|]. right.
  apply load_run_inv in H.
  pose proof (stable_header _ _ _ _ _ Hh I g) as Hh'. inversion H as [| |n0 f0 k0 e0 e3 Hh0 Hn0 Hs0]; subst.
  rewrite Hh' in Hh0. injection Hh0 as <- <-. split; [done|].
  injection Hs as <-. injection Hs0 as <-. simpl in Hk |- *. rewrite lookup_insert_eq in Hk. injection Hk as ->.
  exists k2. rewrite lookup_insert_eq. split; [done|]. by eapply read_facts_prefix.
Qed.


(** C40: loading any sequence of bytes returns.  The result is the empty list, or a
    fresh knowledge base whose facts number at most an eighth of the bytes and each
    have an interned predicate of at most 255 characters and at most 4096
    arguments; a wrong magic number or version gives the empty list and changes
    nothing; every other knowledge base and the variable table are left alone. *)
Theorem kb_load_any_file name_buf f path e : Forall (λ b, 0 <= b) f →
  ∃ v e', eshkol_kb_load_tagged name_buf (Some f) path e = Some (v, e') ∧
    var_names e' = var_names e ∧ (∀ b, b ≠ next_addr e → kbs e' !! b = kbs e !! b) ∧
    (v = vnull ∨ v = Kb (next_addr e) ∧ ∃ k, kbs e' !! next_addr e = Some k ∧
       Forall fact_within (kb_facts k) ∧ (8 * length (kb_facts k) <= length f)%nat) ∧
    (le_value (take 4 f) ≠ ESKB_MAGIC ∨ le_value (take 4 (drop 4 f)) ≠ ESKB_VERSION → v = vnull ∧ e' = e).
Proof.
  intros Hf. unfold eshkol_kb_load_tagged. destruct (is_path path).
  2: { exists vnull, e. split_and!; [done|done|done|by left|done]. }
  destruct (load_runs name_buf f e) as (v & e' & Hl & Hr). exists v, e'. split; [done|].
  destruct Hr as [f' Hh|n f' e' Hh Hn|n f' k e' e'' Hh Hn Hs].
  - split_and!; [done|done|by left|done].
  - destruct (read_facts_returns name_buf (Z.to_nat n) (MkKb KB_INITIAL_CAPACITY []) f' (with_new_kb e)) as (r & e1 & E1 & [K1 K2] & _).
    rewrite E1 in Hn. injection Hn as -> ->. split_and!; [done| |by left|].
    + intros b Hb. rewrite K1. simpl. by rewrite lookup_insert_ne.
    + intros Hbad. by destruct (header_checked _ _ _ _ Hh Hbad).
  - destruct (read_facts_returns name_buf (Z.to_nat n) (MkKb KB_INITIAL_CAPACITY []) f' (with_new_kb e)) as (r & e1 & E1 & [K1 K2] & _).
    rewrite E1 in Hn. injection Hn as -> ->. injection Hs as <-. simpl. split_and!; [done| | |].
    + intros b Hb. rewrite K1. simpl. by rewrite !lookup_insert_ne.
    + right. split; [done|]. exists k. rewrite lookup_insert_eq. split; [done|].
      destruct (header_takes _ _ _ _ _ Hh) as (p & -> & _). apply Forall_app in Hf as [_ Hf].
      destruct (read_facts_within _ _ _ _ _ _ _ E1 Hf) as (gs & -> & Hgs & Hb). simpl. split; [done|]. rewrite length_app. lia.
    + intros Hbad. by destruct (header_checked _ _ _ _ Hh Hbad).
Qed.

Lemma kb_load_any_file_witness :
  ∃ v e', eshkol_kb_load_tagged 9 (Some (le_bytes 4 ESKB_MAGIC ++ le_bytes 4 1)) sample_path (no_preds family) = Some (v, e') ∧
    v = vnull ∧ e' = no_preds family.
Proof.
  destruct (kb_load_any_file 9 (le_bytes 4 ESKB_MAGIC ++ le_bytes 4 1) sample_path (no_preds family)) as (v & e' & Hl & _ & _ & _ & Hv).
  { vm_compute. repeat constructor; discriminate. }
  exists v, e'. split; [exact Hl|]. apply Hv. right. vm_compute. discriminate.
Defined.

(** A float32 somewhere below pairs and facts. *)
Inductive float32_inside : value → Prop :=
| inside_here p : float32_inside (Float32 p)
| inside_car a x y : a ≠ 0 → float32_inside x → float32_inside (Cons false a x y)
| inside_cdr a x y : a ≠ 0 → float32_inside y → float32_inside (Cons false a x y)
| inside_fact a p l x : a ≠ 0 → x ∈ l → float32_inside x → float32_inside (Fact a p l).

Lemma scan_float32 v : float32_inside v → ∀ visited depth, tagged_persistence_scan v visited depth ≠ SCAN_CLEAR.
Proof.
  induction 1 as [p|a x y Ha _ IH|a x y Ha _ IH|a p l x Ha Hx _ IH]; intros visited depth; [done|..];
    simpl; destruct (Z.eqb_spec a 0); try done; cbn [negb orb]; destruct (_ <=? _); try done;
    destruct (existsb _ _); try done; destruct (_ <=? _); try done.
  - by destruct (tagged_persistence_scan x _ _) eqn:E; [apply IH in E|..].
  - by destruct (tagged_persistence_scan x _ _); [apply IH|..].
  - destruct (4096 <? _); [done|]. induction Hx as [x l|x y l Hx IHl]; simpl.
    + by destruct (tagged_persistence_scan x _ _) eqn:E; [apply IH in E|..].
    + by destruct (tagged_persistence_scan y _ _); [apply IHl|..].
Qed.

(** A save of a knowledge base that holds a float32 at any depth of pairs and
    facts answers #f, and the destination is not even opened. *)
Theorem save_refuses_float32 flags dest path a k e f x : is_path path = true → a ≠ 0 → kbs e !! a = Some k →
  f ∈ kb_facts k → x ∈ f_args f → float32_inside x →
  eshkol_kb_save_tagged flags dest path (Kb a) e = Some ((vfalse, None), e).
Proof.
  intros Hp Ha Hk Hf Hx Hin. unfold eshkol_kb_save_tagged. rewrite Hp. cbn [negb]. destruct (Z.eqb_spec a 0); [done|].
  rewrite (logic_bind_eq _ _ e k e) by (unfold get_kb, mbind, logic_bind, get_engine; by rewrite Hk).
  assert (Hpre : preflight (flat_map f_args (kb_facts k)) ≠ SCAN_CLEAR).
  { assert (x ∈ flat_map f_args (kb_facts k)) as Hm.
    { apply list_elem_of_In, in_flat_map. exists f. split; by apply list_elem_of_In. }
    induction Hm as [x l|x y l Hm IH]; simpl.
    - by destruct (tagged_persistence_scan x [] 0) eqn:E; [apply scan_float32 in E|..].
    - by destruct (tagged_persistence_scan y [] 0); [apply IH|..]. }
  unfold save_facts. by destruct (preflight _).
Qed.

Definition nested_float32 : value := Cons false 70 (Int64 1) (Cons false 71 (Float32 (Some d_zero)) vnull).


(** ** What the format loses *)

Definition saved (k : knowledge_base) : option (value * option bytes) :=
  fst <$> eshkol_kb_save_tagged no_flags good_disk sample_path (Kb 7) (no_preds k).
Definition loaded (file : bytes) (e : engine) : option (value * option knowledge_base) :=
  match eshkol_kb_load_tagged 9 (Some file) sample_path e with
  | Some (Kb a, e') => Some (Kb a, kbs e' !! a)
  | Some (v, _) => Some (v, None)
  | None => None
  end.

(** A float32 inside a vector is found only once the file has been truncated. *)
Lemma vector_float32_truncates :
  ∃ bs, saved (MkKb 16 [MkFact 60 (Some parent) [Vec 70 [Float32 (Some d_zero)]]]) = Some (vfalse, Some bs) ∧ length bs = 33%nat.
Proof. eexists. vm_compute. done. Qed.

(** The save answers #t for a predicate name the load refuses. *)
Lemma long_predicate_saved_not_loaded :
  ∃ name file, strlen name = 256 ∧ saved (MkKb 16 [MkFact 60 (Some (Predicate (PoolPtr 0) name)) []]) = Some (Imm TYPE_BOOL 1, Some file)
    ∧ loaded file (no_preds (MkKb 16 [])) = Some (vnull, None).
Proof.
  exists (String.string_of_list_ascii (replicate 256 "a"%char)). eexists. split; [reflexivity|].
  split; [vm_compute; reflexivity..].
Qed.

(** A fact without a predicate, which every query considers, comes back with the
    empty name as its predicate, which only that name matches. *)
Lemma null_predicate_becomes_empty :
  ∃ file k, saved (MkKb 16 [MkFact 60 None [LogicVar 0]]) = Some (Imm TYPE_BOOL 1, Some file)
    ∧ loaded file (no_preds (MkKb 16 [])) = Some (Kb 100, Some k)
    ∧ map f_pred (kb_facts k) = [Some (Predicate (PoolPtr 0) EmptyString)].
Proof. eexists _, _. split_and!; [vm_compute; reflexivity..]. Qed.

(** Variables are saved by number: in a process that met the names in another
    order, [?y] comes back as [?x]. *)
Lemma variables_change_names :
  ∃ file k, saved (MkKb 16 [MkFact 60 (Some parent) [LogicVar 1]]) = Some (Imm TYPE_BOOL 1, Some file)
    ∧ loaded file (Engine ["?y"; "?x"]%string 6 [] 0 100 ∅) = Some (Kb 100, Some k)
    ∧ map f_args (kb_facts k) = [[LogicVar 1]]
    ∧ eshkol_logic_var_name (no_preds k) 1 = Some "?y"%string
    ∧ eshkol_logic_var_name (Engine ["?y"; "?x"]%string 6 [] 0 100 ∅) 1 = Some "?x"%string.
Proof. eexists _, _. split_and!; [vm_compute; reflexivity..]. Qed.

(** When the predicate pool is full the loaded fact keeps the address of the
    loader's own buffer. *)
Lemma full_table_keeps_stack_buffer :
  ∃ file k, saved (MkKb 16 [MkFact 60 (Some parent) []]) = Some (Imm TYPE_BOOL 1, Some file)
    ∧ loaded file (Engine [] 0 [] PRED_POOL_SIZE 100 ∅) = Some (Kb 100, Some k)
    ∧ map f_pred (kb_facts k) = [Some (Predicate (TextPtr 9) "parent")].
Proof. eexists _, _. split_and!; [vm_compute; reflexivity..]. Qed.
