(* ===== verification/TypeEnv.v ===== *)
(** * TypeEnv: the type environment (lib/types/hott_types.cpp)

    Types are numeric ids; the environment holds the nodes of the builtin and
    user types, and the caches that give ids to function, pair and sum types and
    remember subtype answers.  Operations are functions of the environment; the
    queries also return the subtype cache they leave behind. *)

From S2P Require Export Prelude.
From stdpp Require Export strings gmap pretty.
Local Open Scope Z_scope.

Inductive universe := U0 | U1 | U2 | UOmega.
Inductive runtime_rep :=
| RInt8 | RInt16 | RInt32 | RInt64 | RUInt8 | RUInt16 | RUInt32 | RUInt64
| RFloat32 | RFloat64 | RPointer | RTaggedValue | RStruct | RErased.

(** Two [TypeId]s are compared by [tid] alone. *)
Record type_id := TypeId { tid : Z; tlevel : universe; tflags : Z }.
Definition tid_eq (a b : type_id) : bool := tid a =? tid b.

Definition TYPE_FLAG_EXACT : Z := 1.
Definition TYPE_FLAG_LINEAR : Z := 2.
Definition TYPE_FLAG_PROOF : Z := 4.

Record type_node := TypeNode {
  n_id : type_id;
  n_name : string;
  n_super : option type_id;
  n_subtypes : list type_id;
  n_params : list string;
  n_rep : runtime_rep;
  n_family : bool;
  n_user : bool }.

Record pi_type := PiType { pi_params : list type_id; pi_return : type_id; pi_variadic : bool }.

Inductive ct_simple := SNat (n : Z) | SUnknown.

(** A [std::map] with integer keys that the code iterates over: its entries in key order. *)
Definition omap_find {A} (k : Z) (l : list (Z * A)) : option A :=
  match List.find (λ p, p.1 =? k) l with Some p => Some p.2 | None => None end.
Fixpoint omap_set {A} (k : Z) (v : A) (l : list (Z * A)) : list (Z * A) :=
  match l with
  | [] => [(k, v)]
  | (i, x) :: l' => if k <? i then (k, v) :: l else if k =? i then (k, v) :: l' else (i, x) :: omap_set k v l'
  end.

Abbreviation cache := (gmap (Z * Z) bool).

Record type_env := TypeEnv {
  types : gmap Z type_node;
  name_to_id : gmap string type_id;
  next_user_id : Z;
  subtype_cache : cache;
  functions : list (Z * pi_type);
  next_function_type_id : Z;
  pairs : list (Z * (type_id * type_id));
  next_pair_type_id : Z;
  sums : list (Z * list type_id);
  next_sum_type_id : Z;
  dimensions : gmap Z (list ct_simple) }.

Definition u16 (x : Z) : Z := x mod 2 ^ 16.

Definition set_types (E : type_env) (t : gmap Z type_node) : type_env :=
  TypeEnv t (name_to_id E) (next_user_id E) (subtype_cache E) (functions E) (next_function_type_id E)
    (pairs E) (next_pair_type_id E) (sums E) (next_sum_type_id E) (dimensions E).
Definition set_names (E : type_env) (n : gmap string type_id) : type_env :=
  TypeEnv (types E) n (next_user_id E) (subtype_cache E) (functions E) (next_function_type_id E)
    (pairs E) (next_pair_type_id E) (sums E) (next_sum_type_id E) (dimensions E).
Definition set_next_user (E : type_env) (n : Z) : type_env :=
  TypeEnv (types E) (name_to_id E) n (subtype_cache E) (functions E) (next_function_type_id E)
    (pairs E) (next_pair_type_id E) (sums E) (next_sum_type_id E) (dimensions E).
Definition set_cache (E : type_env) (c : cache) : type_env :=
  TypeEnv (types E) (name_to_id E) (next_user_id E) c (functions E) (next_function_type_id E)
    (pairs E) (next_pair_type_id E) (sums E) (next_sum_type_id E) (dimensions E).
Definition set_functions (E : type_env) (f : list (Z * pi_type)) (n : Z) : type_env :=
  TypeEnv (types E) (name_to_id E) (next_user_id E) (subtype_cache E) f n
    (pairs E) (next_pair_type_id E) (sums E) (next_sum_type_id E) (dimensions E).
Definition set_pairs (E : type_env) (p : list (Z * (type_id * type_id))) (n : Z) : type_env :=
  TypeEnv (types E) (name_to_id E) (next_user_id E) (subtype_cache E) (functions E) (next_function_type_id E)
    p n (sums E) (next_sum_type_id E) (dimensions E).
Definition set_sums (E : type_env) (s : list (Z * list type_id)) (n : Z) : type_env :=
  TypeEnv (types E) (name_to_id E) (next_user_id E) (subtype_cache E) (functions E) (next_function_type_id E)
    (pairs E) (next_pair_type_id E) s n (dimensions E).
Definition set_dimensions (E : type_env) (d : gmap Z (list ct_simple)) : type_env :=
  TypeEnv (types E) (name_to_id E) (next_user_id E) (subtype_cache E) (functions E) (next_function_type_id E)
    (pairs E) (next_pair_type_id E) (sums E) (next_sum_type_id E) d.

(** ** Builtin ids *)

Module BuiltinTypes.
Definition Invalid := TypeId 0 U0 0.
Definition TypeU0 := TypeId 1 U0 0.
Definition TypeU1 := TypeId 2 U1 0.
Definition TypeU2 := TypeId 3 U2 0.
Definition Value := TypeId 10 U0 0.
Definition Number := TypeId 11 U0 0.
Definition Integer := TypeId 12 U0 TYPE_FLAG_EXACT.
Definition Int64 := TypeId 13 U0 TYPE_FLAG_EXACT.
Definition Natural := TypeId 14 U0 TYPE_FLAG_EXACT.
Definition Real := TypeId 15 U0 0.
Definition Float64 := TypeId 16 U0 0.
Definition Float32 := TypeId 17 U0 0.
Definition Complex := TypeId 18 U0 0.
Definition Complex64 := TypeId 19 U0 0.
Definition Text := TypeId 20 U0 0.
Definition String := TypeId 21 U0 0.
Definition Char := TypeId 22 U0 TYPE_FLAG_EXACT.
Definition Complex128 := TypeId 23 U0 0.
Definition BigInt := TypeId 24 U0 TYPE_FLAG_EXACT.
Definition Boolean := TypeId 25 U0 TYPE_FLAG_EXACT.
Definition Null := TypeId 26 U0 0.
Definition Symbol := TypeId 27 U0 0.
Definition Int8 := TypeId 28 U0 TYPE_FLAG_EXACT.
Definition Int16 := TypeId 29 U0 TYPE_FLAG_EXACT.
Definition Int32 := TypeId 30 U0 TYPE_FLAG_EXACT.
Definition ISize := TypeId 31 U0 TYPE_FLAG_EXACT.
Definition UInt8 := TypeId 32 U0 TYPE_FLAG_EXACT.
Definition UInt16 := TypeId 33 U0 TYPE_FLAG_EXACT.
Definition UInt32 := TypeId 34 U0 TYPE_FLAG_EXACT.
Definition UInt64 := TypeId 35 U0 TYPE_FLAG_EXACT.
Definition USize := TypeId 36 U0 TYPE_FLAG_EXACT.
Definition Rational := TypeId 37 U0 TYPE_FLAG_EXACT.
Definition List := TypeId 100 U1 0.
Definition Vector := TypeId 101 U1 0.
Definition Pair := TypeId 102 U1 0.
Definition Function := TypeId 103 U1 0.
Definition Tensor := TypeId 104 U1 0.
Definition Closure := TypeId 105 U1 0.
Definition DualNumber := TypeId 106 U1 0.
Definition ADNode := TypeId 107 U1 0.
Definition HashTable := TypeId 108 U1 0.
Definition Pointer := TypeId 109 U1 0.
Definition Handle := TypeId 110 U1 TYPE_FLAG_LINEAR.
Definition Buffer := TypeId 111 U1 0.
Definition Stream := TypeId 112 U1 TYPE_FLAG_LINEAR.
Definition Qubit := TypeId 113 U0 TYPE_FLAG_LINEAR.
Definition Eq := TypeId 200 U2 TYPE_FLAG_PROOF.
Definition LessThan := TypeId 201 U2 TYPE_FLAG_PROOF.
Definition Bounded := TypeId 202 U2 TYPE_FLAG_PROOF.
Definition Subtype := TypeId 203 U2 TYPE_FLAG_PROOF.
End BuiltinTypes.
Import BuiltinTypes.

(** ** Registration *)

Definition getTypeNode (E : type_env) (id : type_id) : option type_node := types E !! tid id.

Definition addSubtype (E : type_env) (supertype subtype : type_id) : type_env :=
  match types E !! tid supertype with
  | Some n =>
      set_types E (<[tid supertype := TypeNode (n_id n) (n_name n) (n_super n) (n_subtypes n ++ [subtype])
                                        (n_params n) (n_rep n) (n_family n) (n_user n)]> (types E))
  | None => E
  end.

Definition add_node (E : type_env) (n : type_node) : type_env :=
  set_names (set_types E (<[tid (n_id n) := n]> (types E))) (<[n_name n := n_id n]> (name_to_id E)).

Definition link_super (E : type_env) (supertype : option type_id) (t : type_id) : type_env :=
  match supertype with Some s => addSubtype E s t | None => E end.

Definition registerBuiltinType (t : type_id) (name : string) (level : universe) (flags : Z) (rep : runtime_rep)
    (supertype : option type_id) (E : type_env) : type_env :=
  let type := TypeId (tid t) level flags in
  link_super (add_node E (TypeNode type name supertype [] [] rep false false)) supertype type.

Definition registerTypeFamily (t : type_id) (name : string) (level : universe) (params : list string)
    (rep : runtime_rep) (E : type_env) : type_env :=
  add_node E (TypeNode (TypeId (tid t) level 0) name None [] params rep true false).

Definition registerUserType (name : string) (level : universe) (flags : Z) (supertype : option type_id)
    (E : type_env) : type_id * type_env :=
  let type := TypeId (next_user_id E) level flags in
  let E := set_next_user E (u16 (next_user_id E + 1)) in
  (type, link_super (add_node E (TypeNode type name supertype [] [] RTaggedValue false true)) supertype type).

(** [types_[id].id.flags |= flag]: only the node's copy of the id changes. *)
Definition or_flag (t : type_id) (flag : Z) (E : type_env) : type_env :=
  match types E !! tid t with
  | Some n =>
      set_types E (<[tid t := TypeNode (TypeId (tid (n_id n)) (tlevel (n_id n)) (Z.lor (tflags (n_id n)) flag))
        (n_name n) (n_super n) (n_subtypes n) (n_params n) (n_rep n) (n_family n) (n_user n)]> (types E))
  | None => E
  end.

(** ** Tracked pair, sum and function types *)

Definition getPairElementTypes (E : type_env) (id : type_id) : option (type_id * type_id) := omap_find (tid id) (pairs E).
Definition isTrackedPairType (E : type_env) (id : type_id) : bool := bool_decide (is_Some (getPairElementTypes E id)).
Definition getSumMembers (E : type_env) (id : type_id) : option (list type_id) := omap_find (tid id) (sums E).
Definition isSumType (E : type_env) (id : type_id) : bool := bool_decide (is_Some (getSumMembers E id)).
Definition codegenReprOf (E : type_env) (id : type_id) : type_id := if isSumType E id then Pair else id.

Definition makePairType (car_type cdr_type : type_id) (E : type_env) : type_id * type_env :=
  match List.find (λ e, tid_eq e.2.1 car_type && tid_eq e.2.2 cdr_type) (pairs E) with
  | Some e => (TypeId e.1 U1 0, E)
  | None =>
      let id := next_pair_type_id E in
      (TypeId id U1 0, set_pairs E (omap_set id (car_type, cdr_type) (pairs E)) (u16 (id + 1)))
  end.

(** The recursive lambda [flatten]: [depth] levels of nesting, of which sums have one. *)
Fixpoint flatten (depth : nat) (E : type_env) (ms arms : list type_id) : list type_id :=
  match depth with
  | O => arms
  | S depth =>
      fold_left (λ arms m,
        match getSumMembers E m with
        | Some nested => flatten depth E nested arms
        | None => if existsb (λ a, tid_eq a m) arms then arms else arms ++ [m]
        end) ms arms
  end.

Definition same_arms (arms entry : list type_id) : bool :=
  (length entry =? length arms)%nat && forallb (λ a, existsb (λ b, tid_eq a b) entry) arms.

Definition makeSumType (members : list type_id) (E : type_env) : type_id * type_env :=
  match flatten 2 E members [] with
  | [] => (Value, E)
  | [arm] => (arm, E)
  | arms =>
      match List.find (λ e, same_arms arms e.2) (sums E) with
      | Some e => (TypeId e.1 U1 0, E)
      | None =>
          let id := next_sum_type_id E in
          (TypeId id U1 0, set_sums E (omap_set id arms (sums E)) (u16 (id + 1)))
      end
  end.

Fixpoint same_types (l l' : list type_id) : bool :=
  match l, l' with
  | [], [] => true
  | x :: l, y :: l' => tid_eq x y && same_types l l'
  | _, _ => false
  end.

Definition makeFunctionType (param_types : list type_id) (return_type : type_id) (is_variadic : bool)
    (E : type_env) : type_id * type_env :=
  match List.find (λ e, tid_eq (pi_return e.2) return_type && Bool.eqb (pi_variadic e.2) is_variadic
                        && same_types (pi_params e.2) param_types) (functions E) with
  | Some e => (TypeId e.1 U0 0, E)
  | None =>
      let id := next_function_type_id E in
      (TypeId id U0 0, set_functions E (omap_set id (PiType param_types return_type is_variadic) (functions E)) (u16 (id + 1)))
  end.
Definition makeSimpleFunctionType (input output : type_id) : type_env → type_id * type_env :=
  makeFunctionType [input] output false.

Definition getFunctionType (E : type_env) (id : type_id) : option pi_type := omap_find (tid id) (functions E).
Definition isFunctionType (E : type_env) (id : type_id) : bool :=
  tid_eq id Function || bool_decide (is_Some (getFunctionType E id)).
Definition getFunctionReturnType (E : type_env) (id : type_id) : type_id :=
  match getFunctionType E id with Some pi => pi_return pi | None => Value end.
Definition getFunctionParamTypes (E : type_env) (id : type_id) : list type_id :=
  match getFunctionType E id with Some pi => pi_params pi | None => [] end.

(** ** Subtyping *)

(** The query monad: the cache is state, [None] is fuel that ran out. *)
Definition query (A : Type) : Type := cache → option (A * cache).
#[export] Instance query_ret : MRet query := λ A a c, Some (a, c).
#[export] Instance query_bind : MBind query := λ A C f m c,
  match m c with Some (a, c') => f a c' | None => None end.
Definition read_cache (k : Z * Z) : query (option bool) := λ c, Some (c !! k, c).
Definition write_cache (k : Z * Z) (b : bool) : query unit := λ c, Some ((), <[k := b]> c).
Definition lift {A} (o : option A) : query A := λ c, match o with Some a => Some (a, c) | None => None end.

Fixpoint any_arm (f : type_id → query bool) (arms : list type_id) : query bool :=
  match arms with
  | [] => mret false
  | arm :: arms => b ← f arm; if (b : bool) then mret true else any_arm f arms
  end.
Fixpoint all_arms (f : type_id → query bool) (arms : list type_id) : query bool :=
  match arms with
  | [] => mret true
  | arm :: arms => b ← f arm; if (b : bool) then all_arms f arms else mret false
  end.

(** [while (node->supertype.has_value())] with [fuel] nodes left to visit. *)
Fixpoint reaches_super (fuel : nat) (E : type_env) (node : type_node) (super : type_id) : option bool :=
  match n_super node with
  | None => Some false
  | Some s =>
      if tid_eq s super then Some true
      else
        match getTypeNode E s with
        | None => Some false
        | Some node' => match fuel with O => None | S fuel => reaches_super fuel E node' super end
        end
  end.

(** Supertypes have smaller ids, so the id bounds the length of the chain. *)
Definition chain_fuel (t : type_id) : nat := Z.to_nat (tid t).

Definition isSubtypeUncached (rec : type_id → type_id → query bool) (E : type_env) (sub super : type_id) : query bool :=
  if tid_eq sub super then mret true
  else
    let super_members := getSumMembers E super in
    hit ← match super_members with Some arms => any_arm (rec sub) arms | None => mret false end;
    if (hit : bool) then mret true
    else
      match getSumMembers E sub with
      | Some arms => all_arms (λ arm, rec arm super) arms
      | None =>
          match super_members with
          | Some _ => mret false
          | None =>
              if isTrackedPairType E sub then if tid_eq super Pair then mret true else rec Pair super
              else
                match getTypeNode E sub with
                | None => mret false
                | Some node => lift (reaches_super (chain_fuel sub) E node super)
                end
          end
      end.

Fixpoint isSubtype_rec (fuel : nat) (E : type_env) (sub super : type_id) : query bool :=
  match fuel with
  | O => λ _, None
  | S fuel =>
      o ← read_cache (tid sub, tid super);
      match o with
      | Some b => mret b
      | None =>
          result ← isSubtypeUncached (isSubtype_rec fuel E) E sub super;
          _ ← write_cache (tid sub, tid super) result; mret result
      end
  end.

(** A sum has no sum among its arms and [Pair] is no tracked pair: four calls nest. *)
Definition isSubtype : type_env → type_id → type_id → query bool := isSubtype_rec 4.

Definition isNumericType (E : type_env) (id : type_id) : query bool := isSubtype E id Number.
Definition orM (a b : query bool) : query bool := x ← a; if (x : bool) then mret true else b.
Definition andM (a b : query bool) : query bool := x ← a; if (x : bool) then b else mret false.
Definition isCollectionType (E : type_env) (id : type_id) : query bool :=
  orM (orM (isSubtype E id List) (isSubtype E id Vector)) (isSubtype E id Tensor).

Fixpoint super_chain (fuel : nat) (E : type_env) (node : option type_node) : option (list type_id) :=
  match node with
  | None => Some []
  | Some n =>
      match n_super n with
      | None => Some []
      | Some s =>
          match fuel with
          | O => None
          | S fuel => match super_chain fuel E (getTypeNode E s) with Some l => Some (s :: l) | None => None end
          end
      end
  end.

Definition plain_chain (E : type_env) (type : type_id) : option (list type_id) :=
  match super_chain (S (chain_fuel type)) E (getTypeNode E type) with Some l => Some (type :: l) | None => None end.
Definition getSupertypeChain (E : type_env) (type : type_id) : option (list type_id) :=
  if isTrackedPairType E type
  then match plain_chain E Pair with Some l => Some (type :: l) | None => None end
  else plain_chain E type.

Definition first_common (chain_a chain_b : list type_id) : option type_id :=
  List.find (λ t, existsb (tid_eq t) chain_b) chain_a.

Definition leastCommonSupertype (E : type_env) (a b : type_id) : option (option type_id) :=
  if tid_eq a b then Some (Some a)
  else
    match getSupertypeChain E a, getSupertypeChain E b with
    | Some ca, Some cb => Some (first_common ca cb)
    | _, _ => None
    end.

Definition is_complex (t : type_id) : bool := tid_eq t Complex || tid_eq t Complex64 || tid_eq t Complex128.
Definition when (b : bool) (q : query bool) : query bool := if b then q else mret false.

Definition promoteForArithmetic (E : type_env) (a b : type_id) : query type_id :=
  if tid_eq a b then mret a
  else if tid_eq a Value then mret b
  else if tid_eq b Value then mret a
  else
    num_a ← when (tid_eq a Number) (orM (isSubtype E b Integer) (isSubtype E b Real));
    if (num_a : bool) then mret b else
    num_b ← when (tid_eq b Number) (orM (isSubtype E a Integer) (isSubtype E a Real));
    if (num_b : bool) then mret a else
    if is_complex a || is_complex b then mret Complex else
    big_int ← orM (when (tid_eq a BigInt) (isSubtype E b Integer)) (when (tid_eq b BigInt) (isSubtype E a Integer));
    if (big_int : bool) then mret BigInt else
    big_real ← orM (when (tid_eq a BigInt) (isSubtype E b Real)) (when (tid_eq b BigInt) (isSubtype E a Real));
    if (big_real : bool) then mret Float64 else
    mixed ← orM (andM (isSubtype E a Integer) (isSubtype E b Real)) (andM (isSubtype E a Real) (isSubtype E b Integer));
    if (mixed : bool) then mret Float64 else
    ints ← andM (isSubtype E a Integer) (isSubtype E b Integer);
    if (ints : bool) then mret Int64 else
    reals ← andM (isSubtype E a Real) (isSubtype E b Real);
    if (reals : bool) then mret Float64 else
    o ← lift (leastCommonSupertype E a b);
    mret (match o with Some t => t | None => Number end).

Definition areEquivalent (a b : type_id) : bool := tid_eq a b.
