(* ===== verification/BuiltinEnv.v ===== *)
(** * BuiltinEnv: the builtin types, their names and their runtime tags
    (lib/types/hott_types.cpp) *)

From S2P Require Export TypeEnv.
From Stdlib Require Import Ascii.
Import BuiltinTypes.
Local Open Scope Z_scope.

Definition empty_env : type_env := TypeEnv ∅ ∅ 1000 ∅ [] 500 [] 300 [] 60000 ∅.

(** The [hott_type_kind_t] values the spelling table uses. *)
Inductive hott_kind :=
| K_INTEGER | K_REAL | K_NUMBER | K_BOOLEAN | K_STRING | K_CHAR | K_SYMBOL | K_NULL | K_ANY | K_NOTHING | K_VAR.

Record spelling := Spelling { sp_name : string; sp_kind : hott_kind; sp_id : type_id }.

Definition builtinTypeSpellings : list spelling := ([
  Spelling "number" K_NUMBER Number;
  Spelling "integer" K_INTEGER Int64;
  Spelling "int" K_INTEGER Int64;
  Spelling "i8" K_VAR Int8;
  Spelling "int8" K_VAR Int8;
  Spelling "i16" K_VAR Int16;
  Spelling "int16" K_VAR Int16;
  Spelling "i32" K_VAR Int32;
  Spelling "int32" K_VAR Int32;
  Spelling "i64" K_INTEGER Int64;
  Spelling "int64" K_INTEGER Int64;
  Spelling "isize" K_VAR ISize;
  Spelling "u8" K_VAR UInt8;
  Spelling "uint8" K_VAR UInt8;
  Spelling "u16" K_VAR UInt16;
  Spelling "uint16" K_VAR UInt16;
  Spelling "u32" K_VAR UInt32;
  Spelling "uint32" K_VAR UInt32;
  Spelling "u64" K_VAR UInt64;
  Spelling "uint64" K_VAR UInt64;
  Spelling "usize" K_VAR USize;
  Spelling "natural" K_VAR Natural;
  Spelling "nat" K_VAR Natural;
  Spelling "bigint" K_VAR BigInt;
  Spelling "rational" K_VAR Rational;
  Spelling "real" K_REAL Real;
  Spelling "float" K_REAL Float64;
  Spelling "double" K_REAL Float64;
  Spelling "float64" K_REAL Float64;
  Spelling "float32" K_VAR Float32;
  Spelling "complex" K_VAR Complex;
  Spelling "string" K_STRING String;
  Spelling "str" K_STRING String;
  Spelling "char" K_CHAR Char;
  Spelling "character" K_CHAR Char;
  Spelling "symbol" K_SYMBOL Symbol;
  Spelling "boolean" K_BOOLEAN Boolean;
  Spelling "bool" K_BOOLEAN Boolean;
  Spelling "null" K_NULL Null;
  Spelling "nil" K_NULL Null;
  Spelling "any" K_ANY Value;
  Spelling "value" K_ANY Value;
  Spelling "nothing" K_NOTHING Invalid;
  Spelling "never" K_NOTHING Invalid;
  Spelling "list" K_VAR List;
  Spelling "vector" K_VAR Vector;
  Spelling "tensor" K_VAR Tensor;
  Spelling "pair" K_VAR Pair;
  Spelling "procedure" K_VAR Function;
  Spelling "closure" K_VAR Closure;
  Spelling "hash-table" K_VAR HashTable;
  Spelling "hashtable" K_VAR HashTable;
  Spelling "ptr" K_VAR Pointer;
  Spelling "pointer" K_VAR Pointer;
  Spelling "dual" K_VAR DualNumber;
  Spelling "dual-number" K_VAR DualNumber;
  Spelling "ad-node" K_VAR ADNode;
  Spelling "adnode" K_VAR ADNode;
  Spelling "handle" K_VAR Handle;
  Spelling "buffer" K_VAR Buffer;
  Spelling "stream" K_VAR Stream;
  Spelling "qubit" K_VAR Qubit])%string.

(** The registrations, in the order of the code. *)
Definition builtin_registrations : list (type_env → type_env) := ([
  registerBuiltinType TypeU0 "Type0" U1 0 RErased None;
  registerBuiltinType TypeU1 "Type1" U2 0 RErased None;
  registerBuiltinType TypeU2 "Type2" UOmega 0 RErased None;
  registerBuiltinType Value "Value" U0 0 RTaggedValue None;
  registerBuiltinType Number "Number" U0 0 RTaggedValue (Some Value);
  registerBuiltinType Integer "Integer" U0 TYPE_FLAG_EXACT RInt64 (Some Number);
  registerBuiltinType Int8 "Int8" U0 TYPE_FLAG_EXACT RInt8 (Some Integer);
  registerBuiltinType Int16 "Int16" U0 TYPE_FLAG_EXACT RInt16 (Some Integer);
  registerBuiltinType Int32 "Int32" U0 TYPE_FLAG_EXACT RInt32 (Some Integer);
  registerBuiltinType Int64 "Int64" U0 TYPE_FLAG_EXACT RInt64 (Some Integer);
  registerBuiltinType ISize "ISize" U0 TYPE_FLAG_EXACT RInt64 (Some Integer);
  registerBuiltinType Natural "Natural" U0 TYPE_FLAG_EXACT RUInt64 (Some Integer);
  registerBuiltinType UInt8 "UInt8" U0 TYPE_FLAG_EXACT RUInt8 (Some Integer);
  registerBuiltinType UInt16 "UInt16" U0 TYPE_FLAG_EXACT RUInt16 (Some Integer);
  registerBuiltinType UInt32 "UInt32" U0 TYPE_FLAG_EXACT RUInt32 (Some Integer);
  registerBuiltinType UInt64 "UInt64" U0 TYPE_FLAG_EXACT RUInt64 (Some Integer);
  registerBuiltinType USize "USize" U0 TYPE_FLAG_EXACT RUInt64 (Some Integer);
  registerBuiltinType BigInt "BigInt" U0 TYPE_FLAG_EXACT RPointer (Some Integer);
  registerBuiltinType Rational "Rational" U0 TYPE_FLAG_EXACT RPointer (Some Number);
  registerBuiltinType Real "Real" U0 0 RFloat64 (Some Number);
  registerBuiltinType Float64 "Float64" U0 0 RFloat64 (Some Real);
  registerBuiltinType Float32 "Float32" U0 0 RFloat32 (Some Real);
  registerBuiltinType Complex "Complex" U0 0 RStruct (Some Number);
  registerBuiltinType Complex64 "Complex64" U0 0 RStruct (Some Complex);
  registerBuiltinType Complex128 "Complex128" U0 0 RStruct (Some Complex);
  registerBuiltinType Text "Text" U0 0 RPointer (Some Value);
  registerBuiltinType String "String" U0 0 RPointer (Some Text);
  registerBuiltinType Char "Char" U0 TYPE_FLAG_EXACT RInt64 (Some Text);
  registerBuiltinType Boolean "Boolean" U0 TYPE_FLAG_EXACT RInt64 (Some Value);
  registerBuiltinType Null "Null" U0 0 RInt64 (Some Value);
  registerBuiltinType Symbol "Symbol" U0 0 RPointer (Some Value);
  registerTypeFamily List "List" U1 ["a"] RPointer;
  registerTypeFamily Vector "Vector" U1 ["a"] RPointer;
  registerTypeFamily Pair "Pair" U1 ["a"; "b"] RPointer;
  registerTypeFamily Function "->" U1 ["a"; "b"] RPointer;
  registerTypeFamily Tensor "Tensor" U1 ["a"; "shape"] RPointer;
  registerTypeFamily Pointer "Ptr" U1 ["a"] RPointer;
  registerTypeFamily Closure "Closure" U1 ["a"; "b"] RPointer;
  registerTypeFamily DualNumber "Dual" U1 ["a"] RStruct;
  registerTypeFamily ADNode "ADNode" U1 ["a"] RPointer;
  registerTypeFamily HashTable "HashTable" U1 ["k"; "v"] RPointer;
  registerTypeFamily Handle "Handle" U1 ["k"] RPointer;
  or_flag Handle TYPE_FLAG_LINEAR;
  registerTypeFamily Buffer "Buffer" U1 ["a"; "n"] RPointer;
  registerTypeFamily Stream "Stream" U1 ["a"] RPointer;
  or_flag Stream TYPE_FLAG_LINEAR;
  registerBuiltinType Qubit "Qubit" U0 TYPE_FLAG_LINEAR RInt64 None;
  registerBuiltinType Eq "Eq" U2 TYPE_FLAG_PROOF RErased None;
  registerBuiltinType LessThan "<" U2 TYPE_FLAG_PROOF RErased None;
  registerBuiltinType Bounded "Bounded" U2 TYPE_FLAG_PROOF RErased None;
  registerBuiltinType Subtype "<:" U2 TYPE_FLAG_PROOF RErased None])%string.

Definition add_spelling (E : type_env) (s : spelling) : type_env :=
  if tid_eq (sp_id s) Invalid then E else set_names E (<[sp_name s := sp_id s]> (name_to_id E)).

Definition initializeBuiltinTypes (E : type_env) : type_env :=
  let E := fold_left (λ E register, register E) builtin_registrations E in
  fold_left add_spelling builtinTypeSpellings E.

(** The constructor [TypeEnvironment()]. *)
Definition builtin_env : type_env := initializeBuiltinTypes empty_env.

(** ** Names *)

Definition tolower (c : ascii) : ascii :=
  let n := N_of_ascii c in if (65 <=? n)%N && (n <=? 90)%N then ascii_of_N (n + 32) else c.
Fixpoint lower (s : string) : string :=
  match s with EmptyString => EmptyString | String.String c s => String.String (tolower c) (lower s) end.

(** A [std::map] built by assignment keeps the last entry of a name. *)
Definition lookupBuiltinTypeSpelling (name : string) : option spelling :=
  List.find (λ s, String.eqb (sp_name s) (lower name)) (rev builtinTypeSpellings).
Definition isBuiltinTypeName (name : string) : bool := bool_decide (is_Some (lookupBuiltinTypeSpelling name)).

Definition lookupType (E : type_env) (name : string) : option type_id :=
  match name_to_id E !! name with
  | Some t => Some t
  | None => name_to_id E !! lower name
  end.

Definition node_name (E : type_env) (id : type_id) : string :=
  match getTypeNode E id with Some n => n_name n | None => "unknown" end.

(** Names of sums and pairs are built from the names of their parts; [fuel] bounds
    the nesting of pairs. *)
Fixpoint getTypeName (fuel : nat) (E : type_env) (id : type_id) : option string :=
  match fuel with
  | O => None
  | S fuel =>
      match getSumMembers E id with
      | Some members =>
          names ← mapM (getTypeName fuel E) members;
          Some ("(+" +:+ fold_right (λ n r, " " +:+ n +:+ r) EmptyString names +:+ ")")%string
      | None =>
          match getPairElementTypes E id with
          | Some (a, d) =>
              na ← getTypeName fuel E a; nd ← getTypeName fuel E d;
              Some ("Pair<" +:+ na +:+ ", " +:+ nd +:+ ">")%string
          | None => Some (node_name E id)
          end
      end
  end.

Fixpoint comma_separated (names : list string) : string :=
  match names with
  | [] => EmptyString
  | [n] => n
  | n :: names => (n +:+ ", " +:+ comma_separated names)%string
  end.

Definition getFunctionTypeName (fuel : nat) (E : type_env) (id : type_id) : option string :=
  match getFunctionType E id with
  | None => Some "Function"%string
  | Some pi =>
      names ← mapM (getTypeName fuel E) (pi_params pi);
      ret ← getTypeName fuel E (pi_return pi);
      Some (match names with
            | [n] => n
            | _ => ("(" +:+ comma_separated names +:+ ")")%string
            end +:+ " -> " +:+ ret)%string
  end.

Definition universeToString (u : universe) : list Z :=
  [84; 121; 112; 101] ++
  match u with U0 => [226; 130; 128] | U1 => [226; 130; 129] | U2 => [226; 130; 130] | UOmega => [207; 137] end.

Definition runtimeRepToString (r : runtime_rep) : string :=
  (match r with
  | RInt8 => "int8" | RInt16 => "int16" | RInt32 => "int32" | RInt64 => "int64"
  | RUInt8 => "uint8" | RUInt16 => "uint16" | RUInt32 => "uint32" | RUInt64 => "uint64"
  | RFloat32 => "float32" | RFloat64 => "float64" | RPointer => "ptr" | RTaggedValue => "tagged"
  | RStruct => "struct" | RErased => "erased"
  end)%string.

(** ** Runtime representations *)

Definition getRuntimeRep (E : type_env) (id : type_id) : runtime_rep :=
  match getTypeNode E id with Some n => n_rep n | None => RTaggedValue end.

Definition fromRuntimeType (runtime_type : Z) : type_id :=
  let base_type := if 8 <=? runtime_type then runtime_type else Z.land runtime_type 15 in
  match base_type with
  | 0 => Null | 1 => Int64 | 2 => Float64 | 11 => Float32 | 4 => Char | 3 => Boolean
  | 5 => Symbol | 6 => DualNumber | 32 => List | 33 => String | 34 => Vector | 35 => Tensor
  | 36 => HashTable | 38 => Closure | 40 => ADNode
  | _ => Value
  end.

Definition one_of (id : type_id) (l : list type_id) : bool := existsb (tid_eq id) l.

Definition toRuntimeType (id : type_id) : Z :=
  if tid_eq id Null then 0
  else if one_of id [Int8; Int16; Int32; Int64; ISize; Integer; Natural; UInt8; UInt16; UInt32; UInt64; USize] then 1
  else if tid_eq id Float32 then 11
  else if one_of id [Float64; Real] then 2
  else if tid_eq id List then 32
  else if tid_eq id String then 33
  else if tid_eq id Char then 4
  else if tid_eq id Boolean then 3
  else if tid_eq id Vector then 34
  else if tid_eq id Tensor then 35
  else if tid_eq id Symbol then 5
  else if one_of id [Closure; Function] then 38
  else if tid_eq id DualNumber then 6
  else if tid_eq id ADNode then 40
  else if tid_eq id HashTable then 36
  else 0.

(** ** Parameterized types and dimensions *)

Record parameterized := Parameterized { base_type : type_id; type_args : list type_id; value_args : list ct_simple }.

(** The instantiation cache maps a type to its own base and is never read. *)
Definition instantiateType (base : type_id) (args : list type_id) : parameterized := Parameterized base args [].
Definition makeListType (t : type_id) : parameterized := instantiateType List [t].
Definition makeVectorType (t : type_id) : parameterized := instantiateType Vector [t].
Definition makePointerType (t : type_id) : parameterized := instantiateType Pointer [t].
Definition makeHashTableType (k v : type_id) : parameterized := instantiateType HashTable [k; v].
Definition makeVectorTypeWithDim (t : type_id) (dimension : Z) : parameterized :=
  Parameterized Vector [t] [SNat dimension].
Definition makeTensorTypeWithDims (t : type_id) (dims : list Z) : parameterized :=
  Parameterized Tensor [t] (map SNat dims).
Definition isTypeFamily (E : type_env) (id : type_id) : bool :=
  match getTypeNode E id with Some n => n_family n | None => false end.
Definition getElementType (p : parameterized) : type_id := match type_args p with [] => Value | t :: _ => t end.

Definition storeDimensionInfo (E : type_env) (id : type_id) (dims : list ct_simple) : type_env :=
  set_dimensions E (<[tid id := dims]> (dimensions E)).
Definition getDimensionInfo (E : type_env) (id : type_id) : option (list ct_simple) := dimensions E !! tid id.

(** The loop of [inferListElementType] from the second element on. *)
Fixpoint common_type (E : type_env) (common : type_id) (l : list type_id) : option type_id :=
  match l with
  | [] => Some common
  | t :: l =>
      if tid_eq t common then common_type E common l
      else
        match leastCommonSupertype E common t with
        | None => None
        | Some (Some lcs) => common_type E lcs l
        | Some None => Some Value
        end
  end.
Definition inferListElementType (E : type_env) (element_types : list type_id) : option type_id :=
  match element_types with [] => Some Value | t :: l => common_type E t l end.
