(* ===== verification/TypeEnvSpec.v ===== *)
(** * TypeEnvSpec: the subtype relation the environment decides

    [is_sub] is defined on the registered graph alone; the reachable environments
    are those that registrations, type constructions and queries lead to.  In all
    of them the cache is right and [isSubtype] decides [is_sub]. *)

From S2P Require Export BuiltinEnv.
From stdpp Require Import relations.
Import BuiltinTypes.
Local Open Scope Z_scope.

(** ** The order *)

(** One step up: a tracked pair to [Pair], any other type to its supertype. *)
Definition step (E : type_env) (a b : Z) : Prop :=
  match omap_find a (pairs E) with
  | Some _ => b = tid Pair
  | None => ∃ n s, types E !! a = Some n ∧ n_super n = Some s ∧ tid s = b
  end.
Definition le (E : type_env) : Z → Z → Prop := rtc (step E).

Definition arms (E : type_env) (a : Z) : list Z :=
  match omap_find a (sums E) with Some l => map tid l | None => [a] end.

(** A sum is below what is above all its arms, and above what is below one of its arms. *)
Definition is_sub (E : type_env) (a b : Z) : Prop :=
  ∀ x, x ∈ arms E a → ∃ y, y ∈ arms E b ∧ le E x y.

Lemma is_sub_refl E a : is_sub E a a.
Proof. intros x Hx. exists x. split; [done|]. apply rtc_refl. Qed.

Lemma is_sub_trans E a b c : is_sub E a b → is_sub E b c → is_sub E a c.
Proof.
  intros H1 H2 x Hx. destruct (H1 x Hx) as (y & Hy & Hxy). destruct (H2 y Hy) as (z & Hz & Hyz).
  exists z. split; [done|]. by etrans.
Qed.

#[export] Instance is_sub_preorder E : PreOrder (is_sub E).
Proof. split; [intros a; apply is_sub_refl|intros a b c; apply is_sub_trans]. Qed.

Lemma step_det E a b b' : step E a b → step E a b' → b = b'.
Proof. unfold step. destruct (omap_find a (pairs E)); [congruence|]. naive_solver. Qed.

(** ** Well-formed environments *)

Definition known (E : type_env) (a : Z) : Prop :=
  is_Some (types E !! a) ∨ is_Some (omap_find a (pairs E)) ∨ is_Some (omap_find a (sums E)) ∨
  is_Some (omap_find a (functions E)).

Definition keys {A} (l : list (Z * A)) : list Z := map fst l.

Record env_wf (E : type_env) : Prop := {
  wf_super : ∀ a n s, types E !! a = Some n → n_super n = Some s → tid s < a ∧ is_Some (types E !! tid s);
  wf_pair : is_Some (types E !! tid Pair);
  wf_types : ∀ a, is_Some (types E !! a) → 0 < a < 300 ∨ 1000 <= a < next_user_id E;
  wf_pairs : ∀ a, is_Some (omap_find a (pairs E)) → 300 <= a < next_pair_type_id E;
  wf_functions : ∀ a, is_Some (omap_find a (functions E)) → 500 <= a < next_function_type_id E;
  wf_sums : ∀ a l, omap_find a (sums E) = Some l → 60000 <= a < next_sum_type_id E ∧
              Forall (λ m, omap_find (tid m) (sums E) = None ∧ known E (tid m)) l;
  wf_user_range : 1000 <= next_user_id E <= 60000;
  wf_pair_range : 300 <= next_pair_type_id E <= 500;
  wf_function_range : 500 <= next_function_type_id E <= 1000;
  wf_sum_range : 60000 <= next_sum_type_id E < 2 ^ 16;
  wf_pair_keys : NoDup (keys (pairs E));
  wf_function_keys : NoDup (keys (functions E));
  wf_sum_keys : NoDup (keys (sums E))
}.

Definition cache_ok (E : type_env) (c : cache) : Prop :=
  ∀ a b r, c !! (a, b) = Some r → known E a ∧ known E b ∧ (r = true ↔ is_sub E a b).

Section decide.
Context (E : type_env) (HE : env_wf E).

Definition sound {A} (Q : A → Prop) (q : query A) : Prop :=
  ∀ c, cache_ok E c → ∃ a c', q c = Some (a, c') ∧ cache_ok E c' ∧ Q a.

Lemma sound_ret {A} (Q : A → Prop) (a : A) : Q a → sound Q (mret a).
Proof. intros H c Hc. by exists a, c. Qed.

Lemma sound_bind {A C} (P : A → Prop) (Q : C → Prop) (q : query A) (f : A → query C) :
  sound P q → (∀ a, P a → sound Q (f a)) → sound Q (q ≫= f).
Proof.
  intros Hq Hf c Hc. destruct (Hq c Hc) as (a & c1 & H1 & Hc1 & Ha).
  unfold mbind, query_bind. rewrite H1. by apply Hf.
Qed.

Lemma sound_impl {A} (P Q : A → Prop) (q : query A) : (∀ a, P a → Q a) → sound P q → sound Q q.
Proof. intros H Hq c Hc. destruct (Hq c Hc) as (a & c' & ? & ? & ?). exists a, c'. auto. Qed.

(** [decides P q]: the boolean query [q] returns the truth of [P]. *)
Definition decides (P : Prop) (q : query bool) : Prop := sound (λ r, r = true ↔ P) q.

Lemma decides_any f (P : type_id → Prop) l : (∀ x, x ∈ l → decides (P x) (f x)) → decides (∃ x, x ∈ l ∧ P x) (any_arm f l).
Proof.
  induction l as [|x l IH]; intros Hf; simpl.
  { apply sound_ret. split; [done|]. intros (y & Hy & _). set_solver. }
  eapply sound_bind; [apply Hf; left|]. intros [|] Hx.
  - apply sound_ret. split; [|done]. intros _. exists x. split; [left|]. tauto.
  - eapply sound_impl; [|apply IH; intros; apply Hf; by right].
    intros r Hr. rewrite Hr. split; intros (y & Hy & ?); exists y; split; try done; [by right|].
    apply elem_of_cons in Hy as [->|]; [|done]. exfalso. destruct Hx as [_ Hx]. specialize (Hx H). done.
Qed.

Lemma decides_all f (P : type_id → Prop) l : (∀ x, x ∈ l → decides (P x) (f x)) → decides (∀ x, x ∈ l → P x) (all_arms f l).
Proof.
  induction l as [|x l IH]; intros Hf; simpl.
  { apply sound_ret. split; [|done]. intros _ y Hy. set_solver. }
  eapply sound_bind; [apply Hf; left|]. intros [|] Hx.
  - eapply sound_impl; [|apply IH; intros; apply Hf; by right].
    intros r Hr. rewrite Hr. split; [|by intros H y Hy; apply H; right].
    intros H y [->|]%elem_of_cons; [tauto|auto].
  - apply sound_ret. split; [done|]. intros H. apply Hx. apply H. left.
Qed.

(** ** Walking up the supertypes *)

Lemma not_pair_type a : is_Some (types E !! a) → omap_find a (pairs E) = None.
Proof.
  intros Ht. destruct (omap_find a (pairs E)) eqn:Ep; [|done].
  pose proof (wf_types E HE a Ht). pose proof (wf_pairs E HE a ltac:(eauto)).
  pose proof (wf_pair_range E HE). lia.
Qed.

Lemma step_node a n s : types E !! a = Some n → n_super n = Some s → step E a (tid s).
Proof. intros Ha Hs. unfold step. rewrite not_pair_type by eauto. by exists n, s. Qed.

Lemma step_node_inv a n b : types E !! a = Some n → step E a b → ∃ s, n_super n = Some s ∧ tid s = b.
Proof. intros Ha. unfold step. rewrite not_pair_type by eauto. naive_solver. Qed.

Lemma reaches_super_spec fuel a n super : types E !! a = Some n → a <= Z.of_nat fuel → 
  ∃ r, reaches_super fuel E n super = Some r ∧ (r = true ↔ tc (step E) a (tid super)).
Proof.
  revert a n. induction fuel as [|fuel IH]; intros a n Ha Hf; simpl.
  { pose proof (wf_types E HE a ltac:(eauto)). lia. }
  destruct (n_super n) as [s|] eqn:Es.
  - pose proof (step_node a n s Ha Es) as Hstep. destruct (wf_super E HE a n s Ha Es) as [Hlt [n' Hn']].
    unfold tid_eq. destruct (Z.eqb_spec (tid s) (tid super)) as [Heq|Hne].
    + exists true. split; [done|]. split; [|done]. intros _. rewrite <- Heq. by apply tc_once.
    + unfold getTypeNode. rewrite Hn'. destruct (IH (tid s) n' Hn' ltac:(lia)) as (r & Hr & Hiff).
      exists r. split; [done|]. rewrite Hiff. split; [by intros; eapply tc_l|].
      intros Htc. inversion Htc as [? ? H1|? b ? H1 H2]; subst; rewrite <- (step_det E a _ _ Hstep H1) in *; done.
  - exists false. split; [done|]. split; [done|]. intros Htc.
    assert (∃ b, step E a b) as [b Hb] by (inversion Htc; eauto).
    apply (step_node_inv a n b Ha) in Hb as (s & ? & _). congruence.
Qed.

(** ** The measure: how deep the calls nest *)

Definition sum_rank (a : Z) : nat :=
  match omap_find a (sums E) with
  | Some _ => 2
  | None => match omap_find a (pairs E) with Some _ => 1 | None => 0 end
  end.
Definition super_rank (b : Z) : nat := match omap_find b (sums E) with Some _ => 1 | None => 0 end.

Lemma not_sum_type a : is_Some (types E !! a) → omap_find a (sums E) = None.
Proof.
  intros Ht. destruct (omap_find a (sums E)) eqn:Es; [|done].
  pose proof (wf_types E HE a Ht). destruct (wf_sums E HE a _ Es). pose proof (wf_user_range E HE). lia.
Qed.

Lemma not_sum_pair a : is_Some (omap_find a (pairs E)) → omap_find a (sums E) = None.
Proof.
  intros Hp. destruct (omap_find a (sums E)) eqn:Es; [|done].
  pose proof (wf_pairs E HE a Hp). destruct (wf_sums E HE a _ Es). pose proof (wf_pair_range E HE). lia.
Qed.

Lemma known_pair : known E (tid Pair).
Proof. left. apply HE. Qed.

Lemma arms_single a : omap_find a (sums E) = None → arms E a = [a].
Proof. unfold arms. by intros ->. Qed.

(** The relation on sums, arm by arm. *)
Lemma is_sub_single a b : omap_find a (sums E) = None → omap_find b (sums E) = None → is_sub E a b ↔ le E a b.
Proof.
  intros Ha Hb. unfold is_sub. rewrite !arms_single by done. split.
  - intros H. destruct (H a) as (y & ->%list_elem_of_singleton & ?); [left|done].
  - intros H x ->%list_elem_of_singleton. exists b. split; [left|done].
Qed.

Lemma sum_arm a l m : omap_find a (sums E) = Some l → m ∈ l →
  omap_find (tid m) (sums E) = None ∧ known E (tid m) ∧ tid m ∈ arms E a.
Proof.
  intros Ha Hm. destruct (wf_sums E HE _ _ Ha) as [_ Hl]. rewrite Forall_forall in Hl.
  destruct (Hl m Hm). unfold arms. rewrite Ha. auto using list_elem_of_fmap_2.
Qed.

Lemma in_arms a l x : omap_find a (sums E) = Some l → x ∈ arms E a → ∃ m, m ∈ l ∧ x = tid m.
Proof. unfold arms. intros -> (m & -> & Hm)%list_elem_of_fmap. by exists m. Qed.

Lemma is_sub_sum_l a b l : omap_find a (sums E) = Some l → is_sub E a b ↔ ∀ m, m ∈ l → is_sub E (tid m) b.
Proof.
  intros Ha. split.
  - intros H m Hm x Hx. destruct (sum_arm a l m Ha Hm) as (Hn & _ & Hin).
    rewrite arms_single in Hx by done. apply list_elem_of_singleton in Hx as ->. by apply H.
  - intros H x Hx. destruct (in_arms a l x Ha Hx) as (m & Hm & ->).
    apply (H m Hm). rewrite arms_single by (by destruct (sum_arm a l m Ha Hm)). left.
Qed.

Lemma is_sub_sum_arm a b l m : omap_find b (sums E) = Some l → m ∈ l → is_sub E a (tid m) → is_sub E a b.
Proof.
  intros Hb Hm H x Hx. destruct (sum_arm b l m Hb Hm) as (Hn & _ & Hin).
  destruct (H x Hx) as (y & Hy & Hxy). rewrite arms_single in Hy by done.
  apply list_elem_of_singleton in Hy as ->. by exists (tid m).
Qed.

Lemma is_sub_sum_r a b l : omap_find a (sums E) = None → omap_find b (sums E) = Some l →
  is_sub E a b ↔ ∃ m, m ∈ l ∧ is_sub E a (tid m).
Proof.
  intros Ha Hb. split; [|intros (m & Hm & H); by eapply is_sub_sum_arm].
  intros H. destruct (H a) as (y & Hy & Hle); [rewrite arms_single by done; left|].
  destruct (in_arms b l y Hb Hy) as (m & Hm & ->). exists m. split; [done|].
  apply is_sub_single; [done| |done]. by destruct (sum_arm b l m Hb Hm).
Qed.

Lemma pair_step a b : is_Some (omap_find a (pairs E)) → a ≠ b → le E a b ↔ le E (tid Pair) b.
Proof.
  intros [pr Hp] Hne. assert (Hstep : step E a (tid Pair)) by (unfold step; by rewrite Hp).
  split; [|intros; by eapply rtc_l]. intros Hle. inversion Hle as [|? c ? H1 H2]; subst; [done|].
  by rewrite <- (step_det E _ _ _ Hstep H1) in H2.
Qed.

Lemma decides_iff (P Q : Prop) q : (P ↔ Q) → decides P q → decides Q q.
Proof. intros H. apply sound_impl. intros r Hr. by rewrite Hr. Qed.

Lemma decides_true (P : Prop) : P → decides P (mret true).
Proof. intros HP. by apply sound_ret. Qed.

Lemma decides_false (P : Prop) : ¬ P → decides P (mret false).
Proof. intros HP. by apply sound_ret. Qed.

(** The calls one question makes go down in rank. *)
Definition smaller_decided (rec : type_id → type_id → query bool) (sub super : type_id) : Prop :=
  ∀ a b, known E (tid a) → known E (tid b) →
    (sum_rank (tid a) + super_rank (tid b) < sum_rank (tid sub) + super_rank (tid super))%nat →
    decides (is_sub E (tid a) (tid b)) (rec a b).

Section uncached.
Context (rec : type_id → type_id → query bool) (sub super : type_id).
Context (Ks : known E (tid sub)) (Kp : known E (tid super)).
Context (Hrec : smaller_decided rec sub super).

Lemma sub_sum_decided l : omap_find (tid sub) (sums E) = Some l →
  decides (is_sub E (tid sub) (tid super)) (all_arms (λ arm, rec arm super) l).
Proof.
  intros Hl. eapply decides_iff; [symmetry; by apply is_sub_sum_l|]. apply decides_all.
  intros m Hm. destruct (sum_arm _ _ _ Hl Hm) as (Hn & Hk & _). apply Hrec; [done|done|].
  unfold sum_rank. rewrite Hl, Hn. destruct (omap_find (tid m) (pairs E)); lia.
Qed.

Lemma super_sum_decided l : omap_find (tid super) (sums E) = Some l →
  decides (∃ m, m ∈ l ∧ is_sub E (tid sub) (tid m)) (any_arm (rec sub) l).
Proof.
  intros Hl. apply (decides_any (rec sub) (λ arm, is_sub E (tid sub) (tid arm))).
  intros m Hm. destruct (sum_arm _ _ _ Hl Hm) as (Hn & Hk & _). apply Hrec; [done|done|].
  unfold super_rank. rewrite Hl, Hn. lia.
Qed.

Lemma pair_decided : omap_find (tid sub) (sums E) = None → omap_find (tid super) (sums E) = None →
  tid sub ≠ tid super → is_Some (omap_find (tid sub) (pairs E)) →
  decides (is_sub E (tid sub) (tid super)) (if tid_eq super Pair then mret true else rec Pair super).
Proof.
  intros Esub Esup Hne Hpair. pose proof (wf_pair E HE) as HP. unfold tid_eq.
  destruct (Z.eqb_spec (tid super) (tid Pair)) as [Hp|Hp].
  - apply decides_true. apply is_sub_single; [done..|]. apply pair_step; [done..|]. by rewrite Hp.
  - eapply decides_iff; [|apply (Hrec Pair super); [apply known_pair|done|]].
    + rewrite !is_sub_single by (done || by apply not_sum_type). symmetry. by apply pair_step.
    + unfold sum_rank. rewrite Esub. destruct Hpair as [pr ->].
      rewrite not_sum_type, not_pair_type by done. lia.
Qed.

Lemma node_decided : omap_find (tid sub) (sums E) = None → omap_find (tid super) (sums E) = None →
  tid sub ≠ tid super → omap_find (tid sub) (pairs E) = None →
  decides (is_sub E (tid sub) (tid super))
    match getTypeNode E sub with
    | None => mret false
    | Some node => lift (reaches_super (chain_fuel sub) E node super)
    end.
Proof.
  intros Esub Esup Hne Hpair. eapply decides_iff; [symmetry; by apply is_sub_single|].
  unfold getTypeNode. destruct (types E !! tid sub) as [n|] eqn:Et.
  - destruct (reaches_super_spec (chain_fuel sub) (tid sub) n super Et) as (r & Hr & Hiff).
    { unfold chain_fuel. lia. }
    intros c Hc. exists r, c. unfold lift. rewrite Hr. split; [done|]. split; [done|].
    rewrite Hiff. split; [apply tc_rtc|]. intros Hle. apply rtc_tc in Hle as [?|?]; done.
  - apply decides_false. intros Hle. inversion Hle as [|? b ? H1 H2]; subst; [done|].
    unfold step in H1. rewrite Hpair, Et in H1. naive_solver.
Qed.

(** Uncached subtyping decides the relation. *)
Lemma uncached_spec : decides (is_sub E (tid sub) (tid super)) (isSubtypeUncached rec E sub super).
Proof.
  unfold isSubtypeUncached, getSumMembers, isTrackedPairType, getPairElementTypes.
  unfold tid_eq at 1. destruct (Z.eqb_spec (tid sub) (tid super)) as [Heq|Hne].
  { apply decides_true. by rewrite Heq. }
  destruct (omap_find (tid super) (sums E)) as [lp|] eqn:Esup.
  - eapply sound_bind; [by apply super_sum_decided|]. intros [|] Hhit.
    + apply decides_true. destruct Hhit as [Hhit _]. destruct (Hhit eq_refl) as (m & Hm & Hs).
      by eapply is_sub_sum_arm.
    + destruct (omap_find (tid sub) (sums E)) as [ls|] eqn:Esub; [by apply sub_sum_decided|].
      apply decides_false. rewrite is_sub_sum_r by done. intros H. by apply Hhit in H.
  - eapply (sound_bind (λ r, r = false)); [by apply sound_ret|]. intros ? ->.
    destruct (omap_find (tid sub) (sums E)) as [ls|] eqn:Esub; [by apply sub_sum_decided|].
    destruct (omap_find (tid sub) (pairs E)) as [pr|] eqn:Epair.
    + rewrite bool_decide_true by eauto. apply pair_decided; eauto.
    + rewrite bool_decide_false by (by intros [? ?]). by apply node_decided.
Qed.
End uncached.

Lemma isSubtype_rec_spec fuel : ∀ sub super, known E (tid sub) → known E (tid super) →
  (sum_rank (tid sub) + super_rank (tid super) < fuel)%nat →
  decides (is_sub E (tid sub) (tid super)) (isSubtype_rec fuel E sub super).
Proof.
  induction fuel as [|fuel IH]; intros sub super Ks Kp Hf; [lia|]. simpl.
  intros c Hc. unfold mbind, query_bind, read_cache.
  destruct (c !! (tid sub, tid super)) as [b|] eqn:Ec.
  { exists b, c. split; [done|]. split; [done|]. by apply Hc in Ec as (_ & _ & ?). }
  assert (Hrec : smaller_decided (isSubtype_rec fuel E) sub super) by (intros a b Ka Kb Hlt; apply IH; [done|done|lia]).
  destruct (uncached_spec _ sub super Ks Kp Hrec c Hc) as (r & c1 & Hr & Hc1 & Hiff).
  rewrite Hr. exists r. eexists. split; [reflexivity|]. split; [|done].
  intros a b r'. destruct (decide ((tid sub, tid super) = (a, b))) as [[= <- <-]|Hne].
  - rewrite lookup_insert_eq. intros [= <-]. done.
  - rewrite lookup_insert_ne by done. apply Hc1.
Qed.

Theorem isSubtype_decides sub super : known E (tid sub) → known E (tid super) →
  decides (is_sub E (tid sub) (tid super)) (isSubtype E sub super).
Proof.
  intros Ks Kp. apply isSubtype_rec_spec; [done|done|].
  unfold sum_rank, super_rank. destruct (omap_find (tid sub) (sums E)), (omap_find (tid sub) (pairs E)), (omap_find (tid super) (sums E)); lia.
Qed.
End decide.
