(* ===== verification/TypeEnvReach.v ===== *)
(** * TypeEnvReach: the subtype search, and the laws of the builtin environment *)

From S2P Require Export TypeEnvSpec.
Import BuiltinTypes.
Local Open Scope Z_scope.

(** * The environments a program builds, and their invariant

    Every environment reached from the builtin one by registrations, type
    constructions within the reserved id ranges, and subtype queries is well formed
    and its cache tells the truth. *)

(** ** Ordered maps *)

Lemma omap_find_set {A} k (v : A) l j : omap_find j (omap_set k v l) = if decide (j = k) then Some v else omap_find j l.
Proof.
  unfold omap_find. induction l as [|[i x] l IH]; cbn [omap_set List.find fst].
  - destruct (decide (j = k)) as [->|Hne]; [by rewrite Z.eqb_refl|].
    by rewrite (proj2 (Z.eqb_neq k j)) by done.
  - destruct (Z.ltb_spec k i); [|destruct (Z.eqb_spec k i) as [->|Hki]]; cbn [List.find fst].
    + destruct (decide (j = k)) as [->|Hne]; [by rewrite Z.eqb_refl|].
      by rewrite (proj2 (Z.eqb_neq k j)) by done.
    + destruct (decide (j = i)) as [->|Hne]; [by rewrite Z.eqb_refl|].
      by rewrite (proj2 (Z.eqb_neq i j)) by done.
    + destruct (Z.eqb_spec i j) as [->|Hij]; [|exact IH].
      by rewrite decide_False by done.
Qed.

Lemma omap_find_None {A} k (l : list (Z * A)) : omap_find k l = None ↔ k ∉ keys l.
Proof.
  unfold omap_find, keys. induction l as [|[i x] l IH]; cbn [List.find fst map].
  - split; [|done]. intros _ H. by apply elem_of_nil in H.
  - rewrite not_elem_of_cons. destruct (Z.eqb_spec i k) as [->|Hne]; naive_solver.
Qed.

Lemma keys_set {A} k (v : A) l : omap_find k l = None → keys (omap_set k v l) ≡ₚ k :: keys l.
Proof.
  rewrite omap_find_None. unfold keys. induction l as [|[i x] l IH]; cbn [omap_set map fst]; [done|].
  rewrite not_elem_of_cons. intros [Hne Hl].
  destruct (Z.ltb_spec k i); [done|]. rewrite (proj2 (Z.eqb_neq k i)) by done. cbn [map fst].
  rewrite IH by done. apply perm_swap.
Qed.

Lemma NoDup_keys_set {A} k (v : A) l : omap_find k l = None → NoDup (keys l) → NoDup (keys (omap_set k v l)).
Proof. intros Hn Hd. rewrite keys_set by done. apply NoDup_cons. split; [by apply omap_find_None|done]. Qed.

Lemma omap_find_elem {A} k (v : A) l : NoDup (keys l) → (k, v) ∈ l → omap_find k l = Some v.
Proof.
  unfold omap_find, keys. induction l as [|[i x] l IH]; cbn [List.find map fst].
  { by intros _ ?%elem_of_nil. }
  intros [Hi Hd]%NoDup_cons [[= -> ->]|Hin]%elem_of_cons; [by rewrite Z.eqb_refl|].
  destruct (Z.eqb_spec i k) as [->|Hne]; [|by apply IH].
  contradict Hi. apply (list_elem_of_fmap_2 fst _ _ Hin).
Qed.

Lemma omap_find_In {A} k (v : A) l : omap_find k l = Some v → (k, v) ∈ l.
Proof.
  unfold omap_find. destruct (List.find _ l) as [[i x]|] eqn:Ef; [|done]. intros [= <-].
  apply List.find_some in Ef as [Hin Heq]. cbn in Heq. apply Z.eqb_eq in Heq as ->.
  by apply list_elem_of_In.
Qed.

(** ** What an extension keeps *)

Definition super_of (E : type_env) (a : Z) : option (option type_id) := n_super <$> types E !! a.

Lemma super_of_known E a : is_Some (super_of E a) ↔ is_Some (types E !! a).
Proof. unfold super_of. destruct (types E !! a); cbn; split; intros [? [=]]; eauto. Qed.

Lemma step_super E a b : step E a b ↔
  match omap_find a (pairs E) with
  | Some _ => b = tid Pair
  | None => ∃ s, super_of E a = Some (Some s) ∧ tid s = b
  end.
Proof.
  unfold step, super_of. destruct (omap_find a (pairs E)); [done|].
  split.
  - intros (n & s & Ha & Hs & Hb). exists s. rewrite Ha. cbn. by rewrite Hs.
  - intros (s & Hs & Hb). destruct (types E !! a) as [n|] eqn:Ha; [|done]. cbn in Hs.
    injection Hs as Hs. by exists n, s.
Qed.

Record extends (E E' : type_env) : Prop := {
  ext_known : ∀ a, known E a → known E' a;
  ext_step : ∀ a b, known E a → step E a b ↔ step E' a b;
  ext_sums : ∀ a, known E a → omap_find a (sums E') = omap_find a (sums E)
}.

Lemma known_step E a b : env_wf E → step E a b → known E b.
Proof.
  intros HE. unfold step. destruct (omap_find a (pairs E)).
  - intros ->. left. apply HE.
  - intros (n & s & Ha & Hs & <-). left. by destruct (wf_super E HE a n s Ha Hs).
Qed.

Lemma ext_le E E' a b : env_wf E → extends E E' → known E a → le E a b ↔ le E' a b.
Proof.
  intros HE HX Ka. split.
  - intros H. induction H as [|x y z Hxy H IH]; [apply rtc_refl|].
    eapply rtc_l; [by apply HX|]. apply IH. by eapply known_step.
  - intros H. induction H as [|x y z Hxy H IH]; [apply rtc_refl|].
    apply HX in Hxy; [|done]. eapply rtc_l; [done|]. apply IH. by eapply known_step.
Qed.

Lemma known_arms E a x : env_wf E → known E a → x ∈ arms E a → known E x.
Proof.
  intros HE Ka. unfold arms. destruct (omap_find a (sums E)) as [l|] eqn:El.
  - destruct (wf_sums E HE _ _ El) as [_ Hl]. rewrite Forall_forall in Hl.
    intros (m & -> & Hm)%list_elem_of_fmap. by apply Hl.
  - by intros ->%list_elem_of_singleton.
Qed.

Lemma ext_is_sub E E' a b : env_wf E → extends E E' → known E a → known E b → is_sub E a b ↔ is_sub E' a b.
Proof.
  intros HE HX Ka Kb. unfold is_sub.
  assert (Harms : ∀ c, known E c → arms E' c = arms E c) by (intros c Kc; unfold arms; by rewrite (ext_sums E E' HX c Kc)).
  rewrite !Harms by done.
  assert (Hle : ∀ x y, x ∈ arms E a → le E x y ↔ le E' x y).
  { intros x y Hx. apply ext_le; [done|done|]. by apply (known_arms E a). }
  split; intros H x Hx; destruct (H x Hx) as (y & Hy & Hxy); exists y; split; try done; by apply Hle.
Qed.

Lemma ext_cache E E' c : env_wf E → extends E E' → cache_ok E c → cache_ok E' c.
Proof.
  intros HE HX Hc a b r Hr. destruct (Hc a b r Hr) as (Ka & Kb & Hiff).
  split; [by apply HX|]. split; [by apply HX|]. by rewrite Hiff, ext_is_sub.
Qed.

Definition env_inv (E : type_env) : Prop := env_wf E ∧ cache_ok E (subtype_cache E).

Lemma inv_extend E E' : env_inv E → env_wf E' → extends E E' → subtype_cache E' = subtype_cache E → env_inv E'.
Proof. intros [HE Hc] HE' HX Hs. split; [done|]. rewrite Hs. by apply (ext_cache E). Qed.

Lemma extends_refl E : extends E E.
Proof. by split. Qed.

(** ** Registering a user type *)

Lemma addSubtype_frame E s t :
  name_to_id (addSubtype E s t) = name_to_id E ∧ next_user_id (addSubtype E s t) = next_user_id E ∧
  subtype_cache (addSubtype E s t) = subtype_cache E ∧ pairs (addSubtype E s t) = pairs E ∧
  sums (addSubtype E s t) = sums E ∧ functions (addSubtype E s t) = functions E ∧
  next_pair_type_id (addSubtype E s t) = next_pair_type_id E ∧
  next_sum_type_id (addSubtype E s t) = next_sum_type_id E ∧
  next_function_type_id (addSubtype E s t) = next_function_type_id E.
Proof. unfold addSubtype. by destruct (types E !! tid s). Qed.

Lemma addSubtype_super E s t a : super_of (addSubtype E s t) a = super_of E a.
Proof.
  unfold addSubtype, super_of. destruct (types E !! tid s) as [n|] eqn:En; [|done]. cbn [types set_types].
  destruct (decide (a = tid s)) as [->|Hne]; [|by rewrite lookup_insert_ne].
  by rewrite lookup_insert_eq, En.
Qed.

(** Well-formedness through the observations that matter. *)
Lemma wf_of_super E E' :
  env_wf E →
  pairs E' = pairs E → sums E' = sums E → functions E' = functions E →
  next_pair_type_id E' = next_pair_type_id E → next_sum_type_id E' = next_sum_type_id E →
  next_function_type_id E' = next_function_type_id E →
  1000 <= next_user_id E' <= 60000 → next_user_id E <= next_user_id E' →
  (∀ a, is_Some (super_of E a) → super_of E' a = super_of E a) →
  (∀ a o, super_of E' a = Some o → super_of E a = Some o ∨
     (1000 <= a < next_user_id E' ∧ ∀ s, o = Some s → tid s < a ∧ is_Some (types E !! tid s))) →
  env_wf E'.
Proof.
  intros HE Hp Hs Hf Hnp Hns Hnf Hu Hle Hold Hnew.
  assert (Hmono : ∀ a, is_Some (types E !! a) → is_Some (types E' !! a)).
  { intros a Ha. apply super_of_known. rewrite Hold; by apply super_of_known. }
  split; rewrite ?Hp, ?Hs, ?Hf, ?Hnp, ?Hns, ?Hnf; try apply HE; try done.
  - intros a n s Ha Hn. assert (Hsup : super_of E' a = Some (Some s)) by (unfold super_of; rewrite Ha; cbn; by rewrite Hn).
    destruct (Hnew a _ Hsup) as [Ho|[Hr Hs']]; [|destruct (Hs' s eq_refl); auto].
    unfold super_of in Ho. destruct (types E !! a) as [n0|] eqn:Ea; [|done]. injection Ho as Ho.
    destruct (wf_super E HE a n0 s Ea Ho). auto.
  - by apply Hmono, HE.
  - intros a Ha. apply super_of_known in Ha as [o Ho]. destruct (Hnew a o Ho) as [Hold'|[? _]]; [|by right].
    destruct (wf_types E HE a) as [?|?]; [by apply super_of_known|by left|right; lia].
  - intros a l Ha. destruct (wf_sums E HE a l Ha) as [Hr Hl]. split; [done|].
    eapply Forall_impl; [exact Hl|]. intros m [Hm Hk]. split; [done|].
    unfold known in *. rewrite Hp, Hs, Hf. naive_solver.
Qed.

Lemma link_super_frame E o t :
  next_user_id (link_super E o t) = next_user_id E ∧
  subtype_cache (link_super E o t) = subtype_cache E ∧ pairs (link_super E o t) = pairs E ∧
  sums (link_super E o t) = sums E ∧ functions (link_super E o t) = functions E ∧
  next_pair_type_id (link_super E o t) = next_pair_type_id E ∧
  next_sum_type_id (link_super E o t) = next_sum_type_id E ∧
  next_function_type_id (link_super E o t) = next_function_type_id E ∧
  (∀ a, super_of (link_super E o t) a = super_of E a).
Proof.
  destruct o as [s|]; [|done]. cbn [link_super]. pose proof (addSubtype_frame E s t).
  repeat split; try tauto. intros a. apply addSubtype_super.
Qed.

Definition good_super (E : type_env) (o : option type_id) : Prop := ∀ s, o = Some s → is_Some (types E !! tid s).

Lemma registerUserType_super E name level flags o a :
  super_of (registerUserType name level flags o E).2 a = if decide (a = next_user_id E) then Some o else super_of E a.
Proof.
  unfold registerUserType. cbn [snd].
  match goal with |- super_of (link_super ?E1 o ?t) a = _ => destruct (link_super_frame E1 o t) as (_&_&_&_&_&_&_&_&H); rewrite H end.
  unfold super_of, add_node. cbn. destruct (decide (a = next_user_id E)) as [->|Hne].
  - by rewrite lookup_insert_eq.
  - by rewrite lookup_insert_ne.
Qed.

Lemma registerUserType_frame E name level flags o : let E' := (registerUserType name level flags o E).2 in
  next_user_id E' = u16 (next_user_id E + 1) ∧ subtype_cache E' = subtype_cache E ∧ pairs E' = pairs E ∧ sums E' = sums E ∧
  functions E' = functions E ∧ next_pair_type_id E' = next_pair_type_id E ∧
  next_sum_type_id E' = next_sum_type_id E ∧ next_function_type_id E' = next_function_type_id E.
Proof.
  cbv zeta. unfold registerUserType. cbn [snd].
  match goal with |- context [link_super ?E1 o ?t] => pose proof (link_super_frame E1 o t) end. tauto.
Qed.

(** An id outside the ranges in use is not known. *)
Ltac fresh_id HE :=
  pose proof (wf_user_range _ HE); pose proof (wf_pair_range _ HE); pose proof (wf_function_range _ HE);
  intros [Ht|[Hp|[[l Hs]|Hf]]];
  [apply (wf_types _ HE) in Ht|apply (wf_pairs _ HE) in Hp|apply (wf_sums _ HE) in Hs|apply (wf_functions _ HE) in Hf]; lia.

Lemma next_user_free E : env_wf E → next_user_id E < 60000 → ¬ known E (next_user_id E) ∧ super_of E (next_user_id E) = None.
Proof.
  intros HE Hroom. assert (Hk : ¬ known E (next_user_id E)) by fresh_id HE.
  split; [done|]. apply eq_None_not_Some. rewrite super_of_known. intros Ht. apply Hk. by left.
Qed.

Lemma registerUserType_inv E name level flags o : env_inv E → good_super E o → next_user_id E < 60000 →
  let E' := (registerUserType name level flags o E).2 in env_inv E' ∧ extends E E'.
Proof.
  intros HI Ho Hroom E'. pose proof HI as [HE _].
  destruct (registerUserType_frame E name level flags o) as (Hnu & Hc & Hp & Hs & Hf & Hnp & Hns & Hnf). fold E' in Hnu, Hc, Hp, Hs, Hf, Hnp, Hns, Hnf.
  assert (Hsup : ∀ a, super_of E' a = if decide (a = next_user_id E) then Some o else super_of E a) by apply registerUserType_super.
  destruct (next_user_free E HE Hroom) as [Hfree Hnone]. pose proof (wf_user_range E HE).
  assert (Hu : next_user_id E' = next_user_id E + 1) by (rewrite Hnu; unfold u16; apply Z.mod_small; lia).
  assert (Hold : ∀ a, is_Some (super_of E a) → super_of E' a = super_of E a).
  { intros a [x Ha]. rewrite Hsup. destruct (decide (a = next_user_id E)) as [->|]; congruence. }
  assert (HX : extends E E').
  { split.
    - intros a. unfold known. rewrite Hp, Hs, Hf, <- !super_of_known. intros [Ha|?]; [|tauto]. left. by rewrite Hold.
    - intros a b Ka. rewrite !step_super, Hp. destruct (omap_find a (pairs E)); [done|].
      rewrite Hsup, decide_False; [done|]. by intros ->.
    - intros a _. by rewrite Hs. }
  split; [|done]. apply (inv_extend E); try done.
  apply (wf_of_super E); try done; try lia.
  intros a x. rewrite Hsup. destruct (decide (a = next_user_id E)) as [->|]; [|by left].
  intros [= ->]. right. split; [lia|]. intros s Hx. pose proof (Ho s Hx) as Hk. split; [|done].
  apply (wf_types E HE) in Hk. lia.
Qed.

(** ** Constructing pair, function and sum types *)

Lemma next_pair_free E : env_wf E → next_pair_type_id E < 500 → ¬ known E (next_pair_type_id E).
Proof. intros HE Hroom. fresh_id HE. Qed.

Lemma next_function_free E : env_wf E → next_function_type_id E < 1000 → ¬ known E (next_function_type_id E).
Proof. intros HE Hroom. fresh_id HE. Qed.

Lemma next_sum_free E : env_wf E → ¬ known E (next_sum_type_id E).
Proof. intros HE. pose proof (wf_sum_range E HE). fresh_id HE. Qed.

Lemma not_known E a : ¬ known E a →
  types E !! a = None ∧ omap_find a (pairs E) = None ∧ omap_find a (sums E) = None ∧ omap_find a (functions E) = None.
Proof.
  unfold known. intros H. rewrite !eq_None_not_Some. repeat split; intros ?; apply H; tauto.
Qed.

Lemma not_is_Some_pair E a : ¬ known E a → omap_find a (pairs E) = None.
Proof. intros H. by destruct (not_known E a H) as (_ & ? & _). Qed.

Lemma is_Some_set {A} k (v : A) l a : is_Some (omap_find a (omap_set k v l)) ↔ a = k ∨ is_Some (omap_find a l).
Proof.
  rewrite omap_find_set. destruct (decide (a = k)) as [->|Hne]; [|naive_solver].
  split; [by left|]. by eexists.
Qed.

Lemma known_set_pairs E k v n a : known (set_pairs E (omap_set k v (pairs E)) n) a ↔ a = k ∨ known E a.
Proof. unfold known. cbn [types pairs sums functions set_pairs]. rewrite is_Some_set. tauto. Qed.
Lemma known_set_sums E k v n a : known (set_sums E (omap_set k v (sums E)) n) a ↔ a = k ∨ known E a.
Proof. unfold known. cbn [types pairs sums functions set_sums]. rewrite is_Some_set. tauto. Qed.
Lemma known_set_functions E k v n a : known (set_functions E (omap_set k v (functions E)) n) a ↔ a = k ∨ known E a.
Proof. unfold known. cbn [types pairs sums functions set_functions]. rewrite is_Some_set. tauto. Qed.

Lemma set_pairs_inv E v : env_inv E → next_pair_type_id E < 500 →
  let E' := set_pairs E (omap_set (next_pair_type_id E) v (pairs E)) (u16 (next_pair_type_id E + 1)) in
  env_inv E' ∧ extends E E'.
Proof.
  intros HI Hroom E'. pose proof HI as [HE _]. pose proof (next_pair_free E HE Hroom) as Hfree.
  destruct (not_known _ _ Hfree) as (Hft & Hfp & Hfs & Hff). pose proof (wf_pair_range E HE).
  assert (Hu : u16 (next_pair_type_id E + 1) = next_pair_type_id E + 1) by (apply Z.mod_small; lia).
  assert (HX : extends E E').
  { split.
    - intros a Ka. apply known_set_pairs. by right.
    - intros a b Ka. unfold step. cbn [pairs types set_pairs E']. rewrite omap_find_set.
      by rewrite decide_False by (by intros ->).
    - done. }
  split; [|done]. apply (inv_extend E); try done.
  split; cbn [types pairs sums functions next_user_id next_pair_type_id next_function_type_id next_sum_type_id set_pairs E']; try apply HE.
  - intros a. rewrite is_Some_set. intros [->|Ha]; [lia|]. apply (wf_pairs E HE) in Ha. lia.
  - intros a l Hl. destruct (wf_sums E HE a l Hl) as [? Hm]. split; [done|].
    eapply Forall_impl; [exact Hm|]. intros m [? ?]. split; [done|]. by apply HX.
  - lia.
  - apply NoDup_keys_set; [done|apply HE].
Qed.

Lemma set_functions_inv E v : env_inv E → next_function_type_id E < 1000 →
  let E' := set_functions E (omap_set (next_function_type_id E) v (functions E)) (u16 (next_function_type_id E + 1)) in
  env_inv E' ∧ extends E E'.
Proof.
  intros HI Hroom E'. pose proof HI as [HE _]. pose proof (next_function_free E HE Hroom) as Hfree.
  destruct (not_known _ _ Hfree) as (Hft & Hfp & Hfs & Hff). pose proof (wf_function_range E HE).
  assert (Hu : u16 (next_function_type_id E + 1) = next_function_type_id E + 1) by (apply Z.mod_small; lia).
  assert (HX : extends E E').
  { split; [|done|done]. intros a Ka. apply known_set_functions. by right. }
  split; [|done]. apply (inv_extend E); try done.
  split; cbn [types pairs sums functions next_user_id next_pair_type_id next_function_type_id next_sum_type_id set_functions E']; try apply HE.
  - intros a. rewrite is_Some_set. intros [->|Ha]; [lia|]. apply (wf_functions E HE) in Ha. lia.
  - intros a l Hl. destruct (wf_sums E HE a l Hl) as [? Hm]. split; [done|].
    eapply Forall_impl; [exact Hm|]. intros m [? ?]. split; [done|]. by apply HX.
  - lia.
  - apply NoDup_keys_set; [done|apply HE].
Qed.

Lemma set_sums_inv E arms : env_inv E → next_sum_type_id E < 2 ^ 16 - 1 →
  Forall (λ m, omap_find (tid m) (sums E) = None ∧ known E (tid m)) arms →
  let E' := set_sums E (omap_set (next_sum_type_id E) arms (sums E)) (u16 (next_sum_type_id E + 1)) in
  env_inv E' ∧ extends E E'.
Proof.
  intros HI Hroom Harms E'. pose proof HI as [HE _]. pose proof (next_sum_free E HE) as Hfree.
  destruct (not_known _ _ Hfree) as (Hft & Hfp & Hfs & Hff). pose proof (wf_sum_range E HE).
  assert (Hu : u16 (next_sum_type_id E + 1) = next_sum_type_id E + 1) by (apply Z.mod_small; lia).
  assert (HX : extends E E').
  { split; [|done|].
    - intros a Ka. apply known_set_sums. by right.
    - intros a Ka. cbn [sums set_sums E']. rewrite omap_find_set. by rewrite decide_False by (by intros ->). }
  split; [|done]. apply (inv_extend E); try done.
  split; cbn [types pairs sums functions next_user_id next_pair_type_id next_function_type_id next_sum_type_id set_sums E']; try apply HE.
  - assert (Hmono : ∀ l, Forall (λ m, omap_find (tid m) (sums E) = None ∧ known E (tid m)) l →
        Forall (λ m, omap_find (tid m) (sums E') = None ∧ known E' (tid m)) l).
    { intros l Hl. eapply Forall_impl; [exact Hl|]. intros m [? Hk]. split; [|by apply HX].
      by rewrite (ext_sums E E' HX). }
    intros a l Hl. rewrite omap_find_set in Hl. destruct (decide (a = next_sum_type_id E)) as [->|Hne].
    + injection Hl as <-. split; [lia|]. by apply Hmono.
    + destruct (wf_sums E HE a l Hl). split; [lia|]. by apply Hmono.
  - lia.
  - apply NoDup_keys_set; [done|apply HE].
Qed.

(** ** Flattening the members of a sum *)

Record adds (l : list Z) (acc res : list type_id) : Prop := {
  adds_elem : ∀ x, x ∈ map tid res ↔ x ∈ map tid acc ∨ x ∈ l;
  adds_nodup : NoDup (map tid acc) → NoDup (map tid res)
}.

Lemma adds_nil acc : adds [] acc acc.
Proof. split; [|done]. intros x. rewrite elem_of_nil. tauto. Qed.

Lemma adds_trans l1 l2 acc mid res : adds l1 acc mid → adds l2 mid res → adds (l1 ++ l2) acc res.
Proof.
  intros [He1 Hn1] [He2 Hn2]. split; [|by auto].
  intros x. rewrite elem_of_app, He2, He1. tauto.
Qed.

Lemma has_tid (m : type_id) l : existsb (λ a, tid_eq a m) l = true ↔ tid m ∈ map tid l.
Proof.
  rewrite existsb_exists. unfold tid_eq. split.
  - intros (a & Ha & Heq%Z.eqb_eq). rewrite <- Heq. apply list_elem_of_fmap_2. by apply list_elem_of_In.
  - intros (a & Heq & Ha)%list_elem_of_fmap. exists a. split; [by apply list_elem_of_In|]. by apply Z.eqb_eq.
Qed.

Lemma adds_one m acc : adds [tid m] acc (if existsb (λ a, tid_eq a m) acc then acc else acc ++ [m]).
Proof.
  destruct (existsb _ acc) eqn:Eh.
  - apply has_tid in Eh. split; [|done]. intros x. rewrite list_elem_of_singleton.
    split; [by left|]. by intros [? | ->].
  - assert (Hm : tid m ∉ map tid acc) by (intros H; apply has_tid in H; congruence). split.
    + intros x. rewrite map_app, elem_of_app. cbn [map]. by rewrite list_elem_of_singleton.
    + intros Hd. rewrite map_app. apply NoDup_app. split; [done|]. split; [|apply NoDup_singleton].
      intros x Hx ->%list_elem_of_singleton. done.
Qed.

Lemma flatten_cons d E m ms acc : flatten (S d) E (m :: ms) acc =
  flatten (S d) E ms (match getSumMembers E m with
                      | Some nested => flatten d E nested acc
                      | None => if existsb (λ a, tid_eq a m) acc then acc else acc ++ [m]
                      end).
Proof. done. Qed.

Lemma flatten_1 E ms acc : Forall (λ m, omap_find (tid m) (sums E) = None) ms → adds (map tid ms) acc (flatten 1 E ms acc).
Proof.
  revert acc. induction ms as [|m ms IH]; intros acc Hms; [apply adds_nil|].
  apply Forall_cons in Hms as [Hm Hms].
  change (map tid (m :: ms)) with ([tid m] ++ map tid ms). rewrite flatten_cons. unfold getSumMembers. rewrite Hm.
  eapply adds_trans; [apply adds_one|by apply IH].
Qed.

Definition all_arms_of (E : type_env) (ms : list type_id) : list Z := concat (map (λ m, arms E (tid m)) ms).

Lemma flatten_2 E ms acc : env_wf E → adds (all_arms_of E ms) acc (flatten 2 E ms acc).
Proof.
  intros HE. revert acc. induction ms as [|m ms IH]; intros acc; [apply adds_nil|].
  change (all_arms_of E (m :: ms)) with (arms E (tid m) ++ all_arms_of E ms).
  rewrite flatten_cons. eapply adds_trans; [|apply IH]. unfold getSumMembers, arms.
  destruct (omap_find (tid m) (sums E)) as [l|] eqn:El; [|apply adds_one].
  apply flatten_1. destruct (wf_sums E HE _ _ El) as [_ Hl].
  eapply Forall_impl; [exact Hl|]. by intros ? [? _].
Qed.

Lemma all_arms_elem E ms x : x ∈ all_arms_of E ms ↔ ∃ m, m ∈ ms ∧ x ∈ arms E (tid m).
Proof.
  unfold all_arms_of. induction ms as [|m ms IH]; cbn [map concat].
  - split; [by intros ?%elem_of_nil|]. by intros (m & ?%elem_of_nil & _).
  - rewrite elem_of_app, IH. setoid_rewrite elem_of_cons. naive_solver.
Qed.

(** The arms of a sum of known types. *)
Lemma flatten_good E ms : env_wf E → Forall (λ m, known E (tid m)) ms →
  Forall (λ m, omap_find (tid m) (sums E) = None ∧ known E (tid m)) (flatten 2 E ms []).
Proof.
  intros HE Hk. rewrite Forall_forall in Hk. apply Forall_forall. intros m Hm.
  apply (list_elem_of_fmap_2 tid) in Hm. apply (adds_elem _ _ _ (flatten_2 E ms [] HE)) in Hm as [?%elem_of_nil|Hm]; [done|].
  apply all_arms_elem in Hm as (m' & Hm' & Hx). split; [|eapply known_arms; eauto].
  unfold arms in Hx. destruct (omap_find (tid m') (sums E)) as [l|] eqn:El.
  - apply list_elem_of_fmap in Hx as (m0 & -> & Hm0). by destruct (sum_arm E HE _ _ _ El Hm0).
  - by apply list_elem_of_singleton in Hx as ->.
Qed.

(** ** Environments reached *)

Inductive env_step : type_env → type_env → Prop :=
| step_user E name level flags o : good_super E o → next_user_id E < 60000 →
    env_step E (registerUserType name level flags o E).2
| step_pair E a d : next_pair_type_id E < 500 → env_step E (makePairType a d E).2
| step_sum E ms : Forall (λ m, known E (tid m)) ms → next_sum_type_id E < 2 ^ 16 - 1 → env_step E (makeSumType ms E).2
| step_function E ps r v : next_function_type_id E < 1000 → env_step E (makeFunctionType ps r v E).2
| step_dimensions E t dims : env_step E (storeDimensionInfo E t dims)
| step_query E sub super r c : known E (tid sub) → known E (tid super) →
    isSubtype E sub super (subtype_cache E) = Some (r, c) → env_step E (set_cache E c).

Definition reachable (E : type_env) : Prop := rtc env_step builtin_env E.

Lemma makePairType_inv E a d : env_inv E → next_pair_type_id E < 500 →
  env_inv (makePairType a d E).2 ∧ extends E (makePairType a d E).2.
Proof.
  intros HI Hroom. unfold makePairType. destruct (List.find _ (pairs E)) as [e|]; cbn [snd]; [by split|].
  by apply set_pairs_inv.
Qed.

Lemma makeFunctionType_inv E ps r v : env_inv E → next_function_type_id E < 1000 →
  env_inv (makeFunctionType ps r v E).2 ∧ extends E (makeFunctionType ps r v E).2.
Proof.
  intros HI Hroom. unfold makeFunctionType. destruct (List.find _ (functions E)) as [e|]; cbn [snd]; [by split|].
  by apply set_functions_inv.
Qed.

Lemma makeSumType_inv E ms : env_inv E → Forall (λ m, known E (tid m)) ms → next_sum_type_id E < 2 ^ 16 - 1 →
  env_inv (makeSumType ms E).2 ∧ extends E (makeSumType ms E).2.
Proof.
  intros HI Hk Hroom. pose proof (flatten_good E ms (proj1 HI) Hk) as Hg. unfold makeSumType.
  destruct (flatten 2 E ms []) as [|a1 [|a2 l]]; [by split..|].
  destruct (List.find _ (sums E)) as [e|]; cbn [snd]; [by split|]. by apply set_sums_inv.
Qed.

Lemma env_step_inv E E' : env_inv E → env_step E E' → env_inv E' ∧ extends E E'.
Proof.
  intros HI Hs. destruct Hs.
  - by apply registerUserType_inv.
  - by apply makePairType_inv.
  - by apply makeSumType_inv.
  - by apply makeFunctionType_inv.
  - destruct HI as [HE Hc]. split; [|done]. split; [|done]. destruct HE. by split.
  - destruct HI as [HE Hc].
    destruct (isSubtype_decides E HE sub super H H0 _ Hc) as (r' & c' & Hq & Hc' & _).
    rewrite Hq in H1. injection H1 as -> ->. split; [|done]. split; [|done]. destruct HE. by split.
Qed.

(** * The builtin environment, common supertypes and canonical ids *)

(** ** The builtin environment is well formed *)

Definition super_ok (p : Z * type_node) : bool :=
  (0 <? p.1) && (p.1 <? 300) &&
  match n_super p.2 with
  | Some s => (tid s <? p.1) && bool_decide (is_Some (types builtin_env !! tid s))
  | None => true
  end.

Lemma builtin_supers : forallb super_ok (map_to_list (types builtin_env)) = true.
Proof. by vm_compute. Qed.

Lemma builtin_super_ok a n : types builtin_env !! a = Some n → super_ok (a, n) = true.
Proof.
  intros Ha%elem_of_map_to_list%list_elem_of_In. pose proof builtin_supers as H.
  rewrite forallb_forall in H. by apply H.
Qed.

Lemma builtin_tables : pairs builtin_env = [] ∧ sums builtin_env = [] ∧ functions builtin_env = [] ∧
  next_user_id builtin_env = 1000 ∧ next_pair_type_id builtin_env = 300 ∧
  next_function_type_id builtin_env = 500 ∧ next_sum_type_id builtin_env = 60000 ∧ subtype_cache builtin_env = ∅.
Proof. by vm_compute. Qed.

Lemma builtin_pair : is_Some (types builtin_env !! tid Pair).
Proof. vm_compute. by eexists. Qed.

Lemma builtin_wf : env_wf builtin_env.
Proof.
  destruct builtin_tables as (Hp & Hs & Hf & Hu & Hnp & Hnf & Hns & _).
  split; rewrite ?Hp, ?Hs, ?Hf, ?Hu, ?Hnp, ?Hnf, ?Hns.
  - intros a n s Ha Hn. apply builtin_super_ok in Ha. unfold super_ok in Ha. cbn [fst snd] in Ha. rewrite Hn in Ha.
    apply andb_true_iff in Ha as [_ [Hlt Hk]%andb_true_iff]. apply bool_decide_eq_true in Hk. split; [lia|done].
  - apply builtin_pair.
  - intros a [n Ha]. apply builtin_super_ok in Ha. unfold super_ok in Ha. cbn [fst snd] in Ha.
    apply andb_true_iff in Ha as [Ha _]. lia.
  - by intros a [? [=]].
  - by intros a [? [=]].
  - by intros a l [=].
  - lia.
  - lia.
  - lia.
  - lia.
  - apply NoDup_nil_2.
  - apply NoDup_nil_2.
  - apply NoDup_nil_2.
Qed.

Lemma builtin_inv : env_inv builtin_env.
Proof.
  split; [apply builtin_wf|]. intros a b r. destruct builtin_tables as (_&_&_&_&_&_&_&->).
  by rewrite lookup_empty.
Qed.

Lemma steps_inv E E' : env_inv E → rtc env_step E E' → env_inv E' ∧ (∀ a, known E a → known E' a).
Proof.
  intros HI H. induction H as [|E1 E2 E3 H12 H23 IH]; [by split|].
  destruct (env_step_inv _ _ HI H12) as [HI2 HX]. destruct (IH HI2) as [HI3 Hk].
  split; [done|]. intros a Ka. by apply Hk, HX.
Qed.

Lemma steps_is_sub E E' a b : env_inv E → rtc env_step E E' → known E a → known E b → is_sub E a b ↔ is_sub E' a b.
Proof.
  intros HI H. induction H as [|E1 E2 E3 H12 H23 IH]; intros Ka Kb; [done|].
  destruct (env_step_inv _ _ HI H12) as [HI2 HX].
  rewrite (ext_is_sub E1 E2 a b (proj1 HI) HX Ka Kb). apply IH; [done|by apply HX..].
Qed.

Lemma reachable_inv E : reachable E → env_inv E.
Proof. intros H. by apply (steps_inv _ _ builtin_inv). Qed.

(** ** Supertype chains *)

Section chains.
Context (E : type_env) (HE : env_wf E).

(** [chain a l]: the ids above [a], nearest first. *)
Inductive chain : Z → list Z → Prop :=
| chain_top a : (∀ b, ¬ step E a b) → chain a [a]
| chain_up a b l : step E a b → chain b l → chain a (a :: l).

Lemma chain_le a l x : chain a l → x ∈ l ↔ le E a x.
Proof.
  intros H. revert x. induction H as [a Ht|a b l Hs Hc IH]; intros x.
  - rewrite list_elem_of_singleton. split; [intros ->; apply rtc_refl|].
    intros Hl. inversion Hl as [|? b ? H1 H2]; subst; [done|]. by apply Ht in H1.
  - rewrite elem_of_cons, IH. split.
    + intros [->|Hl]; [apply rtc_refl|by eapply rtc_l].
    + intros Hl. inversion Hl as [|? c ? H1 H2]; subst; [by left|right]. by rewrite (step_det E a b c).
Qed.

(** The first id of the chain of [a] that has a property is below all the others. *)
Lemma chain_find a l (P : Z → bool) t : chain a l → List.find P l = Some t →
  P t = true ∧ le E a t ∧ ∀ u, le E a u → P u = true → le E t u.
Proof.
  intros H. induction H as [a Ht|a b l Hs Hc IH]; cbn [List.find]; intros Hf.
  - destruct (P a) eqn:Pa; [injection Hf as <-|done]. split; [done|]. split; [apply rtc_refl|done].
  - destruct (P a) eqn:Pa; [injection Hf as <-; split; [done|]; split; [apply rtc_refl|done]|].
    destruct (IH Hf) as (Pt & Hl & Hmin). split; [done|]. split; [by eapply rtc_l|].
    intros u Hu Pu. apply Hmin; [|done]. inversion Hu as [|? c ? H1 H2]; subst; [congruence|].
    by rewrite (step_det E a b c).
Qed.

Lemma step_None a : types E !! a = None → omap_find a (pairs E) = None → ∀ b, ¬ step E a b.
Proof. intros Ha Hp b. unfold step. rewrite Hp, Ha. naive_solver. Qed.

Lemma super_chain_spec fuel a n : types E !! a = Some n → a < Z.of_nat fuel →
  ∃ l, super_chain fuel E (Some n) = Some l ∧ chain a (a :: map tid l).
Proof.
  revert a n. induction fuel as [|fuel IH]; intros a n Ha Hf.
  { pose proof (wf_types E HE a ltac:(eauto)). lia. }
  cbn [super_chain]. destruct (n_super n) as [s|] eqn:Es.
  - destruct (wf_super E HE a n s Ha Es) as [Hlt [n' Hn']]. unfold getTypeNode. rewrite Hn'.
    destruct (IH (tid s) n' Hn' ltac:(lia)) as (l & -> & Hc). exists (s :: l). split; [done|].
    eapply chain_up; [by eapply step_node|exact Hc].
  - exists []. split; [done|]. apply chain_top. intros b Hb.
    apply (step_node_inv E HE a n b Ha) in Hb as (s & ? & _). congruence.
Qed.

Lemma plain_chain_spec t : omap_find (tid t) (pairs E) = None →
  ∃ l, plain_chain E t = Some l ∧ chain (tid t) (map tid l).
Proof.
  intros Hp. unfold plain_chain, getTypeNode. destruct (types E !! tid t) as [n|] eqn:Et.
  - destruct (super_chain_spec (S (chain_fuel t)) (tid t) n Et) as (l & -> & Hc).
    { unfold chain_fuel. lia. } by exists (t :: l).
  - exists [t]. split; [done|]. apply chain_top. by apply step_None.
Qed.

Lemma getSupertypeChain_spec t : ∃ l, getSupertypeChain E t = Some l ∧ chain (tid t) (map tid l).
Proof.
  unfold getSupertypeChain, isTrackedPairType, getPairElementTypes.
  destruct (omap_find (tid t) (pairs E)) as [pr|] eqn:Ep.
  - rewrite bool_decide_true by eauto. destruct (plain_chain_spec Pair) as (l & -> & Hc).
    { apply not_pair_type; [done|apply HE]. }
    exists (t :: l). split; [done|]. eapply chain_up; [|exact Hc]. unfold step. by rewrite Ep.
  - rewrite bool_decide_false by (by intros [? ?]). by apply plain_chain_spec.
Qed.

Lemma first_common_ids ca cb :
  tid <$> first_common ca cb = List.find (λ x, bool_decide (x ∈ map tid cb)) (map tid ca).
Proof.
  unfold first_common. induction ca as [|t ca IH]; cbn [List.find map]; [done|].
  assert (Hb : existsb (tid_eq t) cb = bool_decide (tid t ∈ map tid cb)).
  { apply eq_bool_prop_intro. rewrite bool_decide_spec. rewrite <- has_tid.
    rewrite Is_true_true. rewrite !existsb_exists. unfold tid_eq. setoid_rewrite Z.eqb_eq. naive_solver. }
  rewrite Hb. by destruct (bool_decide _).
Qed.

(** The least common supertype is the least common supertype. *)
Lemma lcs_spec a b : ∃ o, leastCommonSupertype E a b = Some o ∧
  match o with
  | Some t => le E (tid a) (tid t) ∧ le E (tid b) (tid t) ∧
              ∀ u, le E (tid a) u → le E (tid b) u → le E (tid t) u
  | None => ¬ ∃ u, le E (tid a) u ∧ le E (tid b) u
  end.
Proof.
  unfold leastCommonSupertype, tid_eq at 1. destruct (Z.eqb_spec (tid a) (tid b)) as [Heq|Hne].
  { exists (Some a). split; [done|]. rewrite <- Heq. split; [apply rtc_refl|]. split; [apply rtc_refl|done]. }
  destruct (getSupertypeChain_spec a) as (ca & -> & Ha). destruct (getSupertypeChain_spec b) as (cb & -> & Hb).
  eexists. split; [reflexivity|]. pose proof (first_common_ids ca cb) as Hf.
  destruct (first_common ca cb) as [t|]; cbn in Hf; symmetry in Hf.
  - destruct (chain_find _ _ _ _ Ha Hf) as (Pt & Hl & Hmin). apply bool_decide_eq_true in Pt.
    split; [done|]. split; [by apply (chain_le _ _ _ Hb)|]. intros u Hau Hbu. apply Hmin; [done|].
    apply bool_decide_eq_true. by apply (chain_le _ _ _ Hb).
  - intros (u & Hau & Hbu). apply (chain_le _ _ _ Ha) in Hau. apply (chain_le _ _ _ Hb) in Hbu.
    apply list_elem_of_In in Hau. pose proof (List.find_none _ _ Hf u Hau) as Hn.
    by apply bool_decide_eq_false in Hn.
Qed.

(** ** The order is antisymmetric below sums *)

Lemma step_lt a b : step E a b → b < a.
Proof.
  unfold step. destruct (omap_find a (pairs E)) eqn:Ep.
  - intros ->. pose proof (wf_pairs E HE a ltac:(eauto)). change (tid Pair) with 102. lia.
  - intros (n & s & Ha & Hs & <-). by destruct (wf_super E HE a n s Ha Hs).
Qed.

Lemma le_ids a b : le E a b → b <= a.
Proof. intros H. induction H as [|x y z Hs H IH]; [done|]. apply step_lt in Hs. lia. Qed.

Lemma is_sub_antisym a b : omap_find a (sums E) = None → omap_find b (sums E) = None →
  is_sub E a b → is_sub E b a → a = b.
Proof. intros Ha Hb. rewrite !is_sub_single by done. intros ?%le_ids ?%le_ids. lia. Qed.
End chains.
