(* ===== verification/TypeArith.v ===== *)
(** * TypeArith: canonical type ids, and arithmetic promotion over the subtype relation *)

From S2P Require Export TypeEnvReach.
Import BuiltinTypes.
Local Open Scope Z_scope.

(** * constructed types have one id each

    The tables of pair, function and sum types give one id to every tuple of
    component types, and keep it. *)

(** ** Tables without duplicates *)

Lemma omap_set_perm {A} k (v : A) l : omap_find k l = None → omap_set k v l ≡ₚ (k, v) :: l.
Proof.
  rewrite omap_find_None. unfold keys. induction l as [|[i x] l IH]; cbn [omap_set map fst]; [done|].
  rewrite not_elem_of_cons. intros [Hne Hl].
  destruct (Z.ltb_spec k i); [done|]. rewrite (proj2 (Z.eqb_neq k i)) by done.
  rewrite IH by done. apply perm_swap.
Qed.

Lemma NoDup_map_eq {A C} (g : A → C) (l : list A) x y : NoDup (map g l) → x ∈ l → y ∈ l → g x = g y → x = y.
Proof.
  induction l as [|z l IH]; cbn [map]; [by intros _ ?%elem_of_nil|].
  intros [Hz Hd]%NoDup_cons [->|Hx]%elem_of_cons [->|Hy]%elem_of_cons Heq; [done| | |by apply IH].
  - contradict Hz. rewrite Heq. by apply list_elem_of_fmap_2.
  - contradict Hz. rewrite <- Heq. by apply list_elem_of_fmap_2.
Qed.

Section canonical.
Context {V K : Type} (f : V → K).

(** [f v] is what the table identifies: one id, one key. *)
Record canonical (l : list (Z * V)) : Prop := {
  can_keys : NoDup (keys l);
  can_vals : NoDup (map (λ e, f e.2) l)
}.

Lemma canonical_unique i j v w l : canonical l → omap_find i l = Some v → omap_find j l = Some w → f v = f w → i = j.
Proof.
  intros [_ Hd] Hi%omap_find_In Hj%omap_find_In Hf.
  assert (Heq : (i, v) = (j, w)) by (by apply (NoDup_map_eq (λ e, f e.2) l)). congruence.
Qed.

Context (test : Z * V → bool) (v : V).

Lemma find_canonical l e : canonical l → (∀ e, e ∈ l → test e = true ↔ f e.2 = f v) →
  List.find test l = Some e → omap_find e.1 l = Some e.2 ∧ f e.2 = f v.
Proof.
  intros Hc Ht [Hin He]%List.find_some. apply list_elem_of_In in Hin. split; [|by apply Ht].
  apply omap_find_elem; [apply Hc|by destruct e].
Qed.

Lemma insert_canonical l next : canonical l → (∀ e, e ∈ l → test e = true ↔ f e.2 = f v) →
  List.find test l = None → omap_find next l = None → canonical (omap_set next v l).
Proof.
  intros Hc Ht Hf Hn. split; [by apply NoDup_keys_set; [|apply Hc]|].
  rewrite (omap_set_perm next v l Hn). cbn [map]. apply NoDup_cons. split; [|apply Hc].
  intros (e & Heq & Hin)%list_elem_of_fmap. symmetry in Heq. apply (Ht e Hin) in Heq.
  apply list_elem_of_In in Hin. by rewrite (List.find_none _ _ Hf e Hin) in Heq.
Qed.
End canonical.

(** ** The three tables *)

Definition pair_key (p : type_id * type_id) : Z * Z := (tid p.1, tid p.2).
Definition function_key (pi : pi_type) : list Z * Z * bool := (map tid (pi_params pi), tid (pi_return pi), pi_variadic pi).
Definition sum_key (l : list type_id) : gset Z := list_to_set (map tid l).

Record canon (E : type_env) : Prop := {
  canon_pairs : canonical pair_key (pairs E);
  canon_functions : canonical function_key (functions E);
  canon_sums : canonical sum_key (sums E);
  canon_arms : ∀ e, e ∈ sums E → NoDup (map tid e.2) ∧ (2 <= length e.2)%nat
}.

Lemma pair_test a d (e : Z * (type_id * type_id)) :
  tid_eq e.2.1 a && tid_eq e.2.2 d = true ↔ pair_key e.2 = pair_key (a, d).
Proof.
  unfold tid_eq, pair_key. rewrite andb_true_iff, !Z.eqb_eq. cbn [fst snd]. split; [by intros [-> ->]|by intros [= -> ->]].
Qed.

Lemma same_types_spec l l' : same_types l l' = true ↔ map tid l = map tid l'.
Proof.
  revert l'. induction l as [|x l IH]; intros [|y l']; cbn [same_types map]; [done|done|done|].
  rewrite andb_true_iff, IH. unfold tid_eq. rewrite Z.eqb_eq. split; [by intros [-> ->]|by intros [= -> ->]].
Qed.

Lemma function_test ps r v (e : Z * pi_type) :
  tid_eq (pi_return e.2) r && Bool.eqb (pi_variadic e.2) v && same_types (pi_params e.2) ps = true ↔
  function_key e.2 = function_key (PiType ps r v).
Proof.
  unfold tid_eq, function_key. cbn [pi_params pi_return pi_variadic].
  rewrite !andb_true_iff, Z.eqb_eq, Bool.eqb_true_iff, same_types_spec.
  split; [by intros [[-> ->] ->]|by intros [= -> -> ->]].
Qed.

Lemma same_arms_spec (l entry : list type_id) : NoDup (map tid l) → NoDup (map tid entry) →
  same_arms l entry = true ↔ sum_key entry = sum_key l.
Proof.
  intros Hl He. unfold same_arms, sum_key. rewrite andb_true_iff, Nat.eqb_eq, forallb_forall. split.
  - intros [Hlen Hall]. assert (Hsub : map tid l ⊆ map tid entry).
    { intros x (a & -> & Ha)%list_elem_of_fmap. apply list_elem_of_In in Ha. apply Hall in Ha.
      apply existsb_exists in Ha as (b & Hb & Heq%Z.eqb_eq). rewrite Heq. apply list_elem_of_fmap_2. by apply list_elem_of_In. }
    assert (Hp : map tid l ≡ₚ map tid entry).
    { apply submseteq_length_Permutation; [by apply NoDup_submseteq|]. rewrite !length_map. lia. }
    apply set_eq. intros x. rewrite !elem_of_list_to_set. by rewrite Hp.
  - intros Heq. assert (Hp : map tid entry ≡ₚ map tid l).
    { apply NoDup_Permutation; [done|done|]. intros x. rewrite <- !(elem_of_list_to_set (C := gset Z)). by rewrite Heq. }
    split; [apply Permutation_length in Hp; by rewrite !length_map in Hp|].
    intros a Ha. apply existsb_exists. assert (Hin : tid a ∈ map tid entry).
    { rewrite Hp. apply list_elem_of_fmap_2. by apply list_elem_of_In. }
    apply list_elem_of_fmap in Hin as (b & Hb & Hin). exists b. split; [by apply list_elem_of_In|]. by apply Z.eqb_eq.
Qed.

(** ** Every reachable environment keeps them *)

Lemma flatten_NoDup E ms : env_wf E → NoDup (map tid (flatten 2 E ms [])).
Proof. intros HE. apply (adds_nodup _ _ _ (flatten_2 E ms [] HE)). apply NoDup_nil_2. Qed.

Lemma makePairType_canon E a d : env_wf E → canon E → next_pair_type_id E < 500 → canon (makePairType a d E).2.
Proof.
  intros HE [Hp Hf Hs Ha] Hroom. unfold makePairType. destruct (List.find _ (pairs E)) as [e|] eqn:Ef; [done|].
  split; try done. cbn [pairs set_pairs snd]. eapply insert_canonical; [done| |done|].
  - intros e _. apply pair_test.
  - by apply not_is_Some_pair, next_pair_free.
Qed.

Lemma makeFunctionType_canon E ps r v : env_wf E → canon E → next_function_type_id E < 1000 → canon (makeFunctionType ps r v E).2.
Proof.
  intros HE [Hp Hf Hs Ha] Hroom. unfold makeFunctionType. destruct (List.find _ (functions E)) as [e|] eqn:Ef; [done|].
  split; try done. cbn [functions set_functions snd]. eapply insert_canonical; [done| |done|].
  - intros e _. apply function_test.
  - by destruct (not_known _ _ (next_function_free E HE Hroom)) as (_&_&_&?).
Qed.

Lemma sum_test E (l : list type_id) : canon E → NoDup (map tid l) →
  ∀ e, e ∈ sums E → same_arms l e.2 = true ↔ sum_key e.2 = sum_key l.
Proof. intros HC Hl e He. apply same_arms_spec; [done|]. by apply (canon_arms E HC). Qed.

Lemma makeSumType_canon E ms : env_wf E → canon E → canon (makeSumType ms E).2.
Proof.
  intros HE HC. pose proof (flatten_NoDup E ms HE) as Hd. unfold makeSumType.
  destruct (flatten 2 E ms []) as [|a1 [|a2 l]]; [done..|].
  destruct (List.find _ (sums E)) as [e|] eqn:Ef; [done|].
  pose proof HC as [Hp Hf Hs Ha]. assert (Hn : omap_find (next_sum_type_id E) (sums E) = None)
    by (by destruct (not_known _ _ (next_sum_free E HE)) as (_&_&?&_)).
  split; try done; cbn [sums set_sums snd].
  - eapply insert_canonical; [done| |done|done]. by apply sum_test.
  - intros e. rewrite (omap_set_perm (next_sum_type_id E) _ (sums E) Hn). intros [->|He]%elem_of_cons; [|by apply Ha].
    split; [done|]. cbn. lia.
Qed.

Lemma env_step_canon E E' : env_inv E → canon E → env_step E E' → canon E'.
Proof.
  intros [HE Hc] HC Hs. destruct Hs.
  - destruct (registerUserType_frame E name level flags o) as (_ & _ & Hp & Hs & Hf & _). destruct HC.
    split; by rewrite ?Hp, ?Hs, ?Hf.
  - by apply makePairType_canon.
  - by apply makeSumType_canon.
  - by apply makeFunctionType_canon.
  - by destruct HC.
  - by destruct HC.
Qed.

Lemma steps_canon E E' : env_inv E → canon E → rtc env_step E E' → canon E'.
Proof.
  intros HI HC H. induction H as [|E1 E2 E3 H12 H23 IH]; [done|].
  apply IH; [by apply (env_step_inv E1)|by apply (env_step_canon E1)].
Qed.

Lemma builtin_canon : canon builtin_env.
Proof.
  destruct builtin_tables as (Hp & Hs & Hf & _).
  split; rewrite ?Hp, ?Hs, ?Hf; [split; apply NoDup_nil_2..|].
  intros e He. inversion He.
Qed.

Lemma reachable_canon E : reachable E → canon E.
Proof. intros H. by apply (steps_canon _ _ builtin_inv builtin_canon). Qed.

(** ** Entries are never changed *)

Lemma find_set_other {A} k (v w : A) l i : omap_find k l = None → omap_find i l = Some w → omap_find i (omap_set k v l) = Some w.
Proof. intros Hk Hi. rewrite omap_find_set. destruct (decide (i = k)) as [->|]; congruence. Qed.

Record keeps (E E' : type_env) : Prop := {
  keep_pairs : ∀ i v, omap_find i (pairs E) = Some v → omap_find i (pairs E') = Some v;
  keep_functions : ∀ i v, omap_find i (functions E) = Some v → omap_find i (functions E') = Some v;
  keep_sums : ∀ i v, omap_find i (sums E) = Some v → omap_find i (sums E') = Some v
}.

#[export] Instance keeps_preorder : PreOrder keeps.
Proof.
  split; [intros E; by split|]. intros E1 E2 E3 [] []. split; auto.
Qed.

Lemma env_step_keeps E E' : env_inv E → env_step E E' → keeps E E'.
Proof.
  intros [HE Hc] Hs. destruct Hs.
  - destruct (registerUserType_frame E name level flags o) as (_ & _ & Hp & Hs & Hf & _).
    split; by rewrite ?Hp, ?Hs, ?Hf.
  - unfold makePairType. destruct (List.find _ (pairs E)); [done|]. split; [|done|done]. intros i v.
    apply find_set_other. by apply not_is_Some_pair, next_pair_free.
  - unfold makeSumType. destruct (flatten 2 E ms []) as [|a1 [|a2 l]]; [done..|].
    destruct (List.find _ (sums E)); [done|]. split; [done|done|]. intros i v.
    apply find_set_other. by destruct (not_known _ _ (next_sum_free E HE)) as (_&_&?&_).
  - unfold makeFunctionType. destruct (List.find _ (functions E)); [done|]. split; [done| |done]. intros i w.
    apply find_set_other. by destruct (not_known _ _ (next_function_free E HE H)) as (_&_&_&?).
  - done.
  - done.
Qed.

Lemma steps_keeps E E' : env_inv E → rtc env_step E E' → keeps E E'.
Proof.
  intros HI H. induction H as [|E1 E2 E3 H12 H23 IH]; [done|].
  etrans; [by apply env_step_keeps|]. apply IH. by apply (env_step_inv E1).
Qed.

(** What each constructor leaves behind. *)
Lemma makePairType_entry E a d : env_wf E → canon E →
  ∃ v, omap_find (tid (makePairType a d E).1) (pairs (makePairType a d E).2) = Some v ∧ pair_key v = pair_key (a, d).
Proof.
  intros HE HC. unfold makePairType. destruct (List.find _ (pairs E)) as [e|] eqn:Ef; cbn [fst snd tid].
  - exists e.2. eapply find_canonical; [apply HC| |done]. intros e' _. apply pair_test.
  - exists (a, d). cbn [pairs set_pairs]. by rewrite omap_find_set, decide_True by done.
Qed.

Lemma makeFunctionType_entry E ps r v : env_wf E → canon E →
  ∃ w, omap_find (tid (makeFunctionType ps r v E).1) (functions (makeFunctionType ps r v E).2) = Some w ∧
       function_key w = function_key (PiType ps r v).
Proof.
  intros HE HC. unfold makeFunctionType. destruct (List.find _ (functions E)) as [e|] eqn:Ef; cbn [fst snd tid].
  - exists e.2. eapply find_canonical; [apply HC| |done]. intros e' _. apply function_test.
  - exists (PiType ps r v). cbn [functions set_functions]. by rewrite omap_find_set, decide_True by done.
Qed.

(** ** Sums are joins *)

Lemma sum_key_elem l l' x : sum_key l = sum_key l' → x ∈ map tid l ↔ x ∈ map tid l'.
Proof. intros Hk. rewrite <- !(elem_of_list_to_set (C := gset Z)). unfold sum_key in Hk. by rewrite Hk. Qed.

Lemma sum_arms_canon E a l : canon E → omap_find a (sums E) = Some l → NoDup (map tid l) ∧ (2 <= length l)%nat.
Proof. intros HC Ha%omap_find_In. by apply (canon_arms E HC (a, l)). Qed.

Lemma arms_NoDup E a : canon E → NoDup (arms E a).
Proof.
  intros HC. unfold arms. destruct (omap_find a (sums E)) as [l|] eqn:El; [|apply NoDup_singleton].
  by apply (sum_arms_canon E a l).
Qed.

Lemma arms_nonempty E a : canon E → ∃ x, x ∈ arms E a.
Proof.
  intros HC. unfold arms. destruct (omap_find a (sums E)) as [l|] eqn:El; [|exists a; left].
  destruct (sum_arms_canon E a l HC El) as [_ Hlen]. destruct l as [|m l]; [cbn in Hlen; lia|].
  exists (tid m). left.
Qed.

(** The arms determine the id. *)
Lemma arms_inj E a b : canon E → (∀ x, x ∈ arms E a ↔ x ∈ arms E b) → a = b.
Proof.
  intros HC Hx. assert (Hp : arms E a ≡ₚ arms E b) by (apply NoDup_Permutation; auto using arms_NoDup).
  unfold arms in Hp. destruct (omap_find a (sums E)) as [la|] eqn:Ea, (omap_find b (sums E)) as [lb|] eqn:Eb.
  - eapply (canonical_unique sum_key); [apply HC|done|done|].
    apply set_eq. intros x. unfold sum_key. rewrite !elem_of_list_to_set. by rewrite Hp.
  - destruct (sum_arms_canon E a la HC Ea) as [_ Hlen]. apply Permutation_length in Hp.
    rewrite length_map in Hp. cbn in Hp. lia.
  - destruct (sum_arms_canon E b lb HC Eb) as [_ Hlen]. apply Permutation_length in Hp.
    rewrite length_map in Hp. cbn in Hp. lia.
  - by apply Permutation_singleton_inj in Hp.
Qed.

Lemma makeSumType_arms E ms : env_inv E → canon E → Forall (λ m, known E (tid m)) ms → ms ≠ [] →
  ∀ x, x ∈ arms (makeSumType ms E).2 (tid (makeSumType ms E).1) ↔ x ∈ all_arms_of E ms.
Proof.
  intros [HE _] HC Hk Hne x. pose proof (flatten_good E ms HE Hk) as Hg. pose proof (flatten_NoDup E ms HE) as Hd.
  assert (Helem : x ∈ map tid (flatten 2 E ms []) ↔ x ∈ all_arms_of E ms).
  { rewrite (adds_elem _ _ _ (flatten_2 E ms [] HE)). cbn [map]. rewrite elem_of_nil. tauto. }
  rewrite <- Helem. unfold makeSumType. destruct (flatten 2 E ms []) as [|a1 [|a2 l]] eqn:Efl.
  - exfalso. destruct ms as [|m ms]; [done|]. destruct (arms_nonempty E (tid m) HC) as [y Hy].
    assert (H : y ∈ map tid (flatten 2 E (m :: ms) [])).
    { apply (adds_elem _ _ _ (flatten_2 E (m :: ms) [] HE)). right. apply all_arms_elem. exists m. split; [left|done]. }
    rewrite Efl in H. by apply elem_of_nil in H.
  - apply Forall_cons in Hg as [[Hn _] _]. cbn [fst snd]. by rewrite arms_single.
  - destruct (List.find _ (sums E)) as [e|] eqn:Ef; cbn [fst snd tid].
    + destruct (find_canonical sum_key _ (a1 :: a2 :: l) _ e (canon_sums E HC) (sum_test E _ HC Hd) Ef) as [Hfind Hkey].
      unfold arms. rewrite Hfind. by apply sum_key_elem.
    + unfold arms. cbn [sums set_sums]. by rewrite omap_find_set, decide_True by done.
Qed.

(** A sum whose arms have an id already is that id. *)
Lemma makeSumType_again E ms a : env_wf E → canon E → (∀ x, x ∈ arms E a ↔ x ∈ all_arms_of E ms) →
  (makeSumType ms E).2 = E.
Proof.
  intros HE HC Ha. pose proof (flatten_NoDup E ms HE) as Hd.
  assert (Helem : ∀ x, x ∈ map tid (flatten 2 E ms []) ↔ x ∈ arms E a).
  { intros x. rewrite Ha, (adds_elem _ _ _ (flatten_2 E ms [] HE)). cbn [map]. rewrite elem_of_nil. tauto. }
  unfold makeSumType. destruct (flatten 2 E ms []) as [|a1 [|a2 l]]; [done..|].
  destruct (List.find _ (sums E)) as [e|] eqn:Ef; [done|exfalso].
  assert (Hp : map tid (a1 :: a2 :: l) ≡ₚ arms E a) by (apply NoDup_Permutation; [done|by apply arms_NoDup|done]).
  unfold arms in Hp. destruct (omap_find a (sums E)) as [la|] eqn:Ea.
  - pose proof (omap_find_In _ _ _ Ea) as Hin. apply list_elem_of_In in Hin.
    pose proof (List.find_none _ _ Ef (a, la) Hin) as Hn. cbn [snd] in Hn.
    assert (Ht : same_arms (a1 :: a2 :: l) la = true); [|congruence].
    apply same_arms_spec; [done|by apply (sum_arms_canon E a la)|].
    apply set_eq. intros x. unfold sum_key. rewrite !elem_of_list_to_set. by rewrite Hp.
  - apply Permutation_length in Hp. rewrite length_map in Hp. cbn in Hp. lia.
Qed.

(** ** Interning, later *)

Lemma pairs_canonical_later E a d p E1 E2 b e :
  env_inv E → canon E → next_pair_type_id E < 500 → makePairType a d E = (p, E1) →
  rtc env_step E1 E2 → next_pair_type_id E2 < 500 →
  (∃ a' d', getPairElementTypes E2 p = Some (a', d') ∧ tid a' = tid a ∧ tid d' = tid d) ∧
  (tid (makePairType b e E2).1 = tid p ↔ tid b = tid a ∧ tid e = tid d).
Proof.
  intros HI HC Hp He1 Hs Hp2. destruct (makePairType_entry E a d (proj1 HI) HC) as (x & Hx & Kx).
  pose proof (makePairType_inv E a d HI Hp) as [HI1 _]. pose proof (makePairType_canon E a d (proj1 HI) HC Hp) as HC1.
  rewrite He1 in Hx, HI1, HC1. cbn [fst snd] in Hx, HI1, HC1.
  pose proof (proj1 (steps_inv E1 E2 HI1 Hs)) as HI2. pose proof (steps_canon E1 E2 HI1 HC1 Hs) as HC2.
  apply (keep_pairs E1 E2 (steps_keeps E1 E2 HI1 Hs)) in Hx.
  split; [destruct x as [a' d']; injection Kx as Ka Kd; by exists a', d'|].
  destruct (makePairType_entry E2 b e (proj1 HI2) HC2) as (y & Hy & Ky).
  pose proof (makePairType_canon E2 b e (proj1 HI2) HC2 Hp2) as HC3.
  apply (keep_pairs E2 _ (env_step_keeps _ _ HI2 (step_pair E2 b e Hp2))) in Hx.
  split.
  - intros Heq. rewrite Heq, Hx in Hy. injection Hy as <-. rewrite Kx in Ky. by injection Ky.
  - intros [Hb He]. eapply (canonical_unique pair_key); [apply HC3|exact Hy|exact Hx|].
    rewrite Ky, Kx. unfold pair_key. cbn [fst snd]. by rewrite Hb, He.
Qed.

Lemma functions_canonical_later E ps r v f E1 E2 qs q w :
  env_inv E → canon E → next_function_type_id E < 1000 → makeFunctionType ps r v E = (f, E1) →
  rtc env_step E1 E2 → next_function_type_id E2 < 1000 →
  (tid (getFunctionReturnType E2 f) = tid r ∧ map tid (getFunctionParamTypes E2 f) = map tid ps) ∧
  (tid (makeFunctionType qs q w E2).1 = tid f ↔ map tid qs = map tid ps ∧ tid q = tid r ∧ w = v).
Proof.
  intros HI HC Hf He1 Hs Hf2. destruct (makeFunctionType_entry E ps r v (proj1 HI) HC) as (x & Hx & Kx).
  pose proof (makeFunctionType_inv E ps r v HI Hf) as [HI1 _]. pose proof (makeFunctionType_canon E ps r v (proj1 HI) HC Hf) as HC1.
  rewrite He1 in Hx, HI1, HC1. cbn [fst snd] in Hx, HI1, HC1.
  pose proof (proj1 (steps_inv E1 E2 HI1 Hs)) as HI2. pose proof (steps_canon E1 E2 HI1 HC1 Hs) as HC2.
  apply (keep_functions E1 E2 (steps_keeps E1 E2 HI1 Hs)) in Hx.
  split; [unfold getFunctionReturnType, getFunctionParamTypes, getFunctionType; rewrite Hx; by injection Kx|].
  destruct (makeFunctionType_entry E2 qs q w (proj1 HI2) HC2) as (y & Hy & Ky).
  pose proof (makeFunctionType_canon E2 qs q w (proj1 HI2) HC2 Hf2) as HC3.
  apply (keep_functions E2 _ (env_step_keeps _ _ HI2 (step_function E2 qs q w Hf2))) in Hx.
  split.
  - intros Heq. rewrite Heq, Hx in Hy. injection Hy as <-. rewrite Kx in Ky. by injection Ky.
  - intros (Hq & Hr & Hv). eapply (canonical_unique function_key); [apply HC3|exact Hy|exact Hx|].
    rewrite Ky, Kx. unfold function_key. cbn [pi_params pi_return pi_variadic]. by rewrite Hq, Hr, Hv.
Qed.

(** * arithmetic promotion as a function of the subtype relation *)

Section arith.
Context (E : type_env) (HE : env_wf E).

(** The answers, with the cache put aside. *)
Definition sub_b (a b : type_id) : bool := match isSubtype E a b ∅ with Some (r, _) => r | None => false end.

Lemma empty_cache_ok : cache_ok E ∅.
Proof. intros a b r. by rewrite lookup_empty. Qed.

Lemma sub_b_spec a b : known E (tid a) → known E (tid b) → sub_b a b = true ↔ is_sub E (tid a) (tid b).
Proof.
  intros Ka Kb. destruct (isSubtype_decides E HE a b Ka Kb ∅ empty_cache_ok) as (r & c & Hq & _ & Hr).
  unfold sub_b. by rewrite Hq.
Qed.

(** [answers x q]: the query [q] returns [x], whatever the cache holds. *)
Definition answers {A} (x : A) (q : query A) : Prop := sound E (λ r, r = x) q.

Lemma answers_sub a b : known E (tid a) → known E (tid b) → answers (sub_b a b) (isSubtype E a b).
Proof.
  intros Ka Kb. eapply sound_impl; [|by apply isSubtype_decides].
  intros r Hr. apply eq_bool_prop_intro. rewrite !Is_true_true. by rewrite Hr, sub_b_spec.
Qed.

Lemma answers_ret {A} (x : A) : answers x (mret x).
Proof. by apply sound_ret. Qed.

Lemma answers_or x y p q : answers x p → answers y q → answers (x || y) (orM p q).
Proof. intros Hp Hq. eapply sound_bind; [exact Hp|]. intros ? ->. destruct x; [apply answers_ret|exact Hq]. Qed.

Lemma answers_and x y p q : answers x p → answers y q → answers (x && y) (andM p q).
Proof. intros Hp Hq. eapply sound_bind; [exact Hp|]. intros ? ->. destruct x; [exact Hq|apply answers_ret]. Qed.

Lemma answers_when b x q : answers x q → answers (b && x) (when b q).
Proof. intros Hq. destruct b; [exact Hq|apply answers_ret]. Qed.

Lemma answers_if {A} b (x y : A) (q : query bool) (p r : query A) : answers b q → answers x p → answers y r →
  answers (if b then x else y) (q ≫= λ c : bool, if c then p else r).
Proof. intros Hq Hp Hr. eapply sound_bind; [exact Hq|]. intros ? ->. by destruct b. Qed.

Definition lcs (a b : type_id) : type_id :=
  match leastCommonSupertype E a b with Some (Some t) => t | _ => Number end.

Definition int_b (a : type_id) : bool := sub_b a Integer.
Definition real_b (a : type_id) : bool := sub_b a Real.

(** The decision tree of the promotion. *)
Definition promote (a b : type_id) : type_id :=
  if tid_eq a b then a
  else if tid_eq a Value then b
  else if tid_eq b Value then a
  else if tid_eq a Number && (int_b b || real_b b) then b
  else if tid_eq b Number && (int_b a || real_b a) then a
  else if is_complex a || is_complex b then Complex
  else if (tid_eq a BigInt && int_b b) || (tid_eq b BigInt && int_b a) then BigInt
  else if (tid_eq a BigInt && real_b b) || (tid_eq b BigInt && real_b a) then Float64
  else if (int_b a && real_b b) || (real_b a && int_b b) then Float64
  else if int_b a && int_b b then Int64
  else if real_b a && real_b b then Float64
  else lcs a b.

Context (Kint : known E (tid Integer)) (Kreal : known E (tid Real)).

Lemma answers_int a : known E (tid a) → answers (int_b a) (isSubtype E a Integer).
Proof. intros Ka. exact (answers_sub a Integer Ka Kint). Qed.

Lemma answers_real a : known E (tid a) → answers (real_b a) (isSubtype E a Real).
Proof. intros Ka. exact (answers_sub a Real Ka Kreal). Qed.

Lemma promote_answers a b : known E (tid a) → known E (tid b) → answers (promote a b) (promoteForArithmetic E a b).
Proof.
  intros Ka Kb. pose proof (answers_int a Ka) as Ia. pose proof (answers_int b Kb) as Ib.
  pose proof (answers_real a Ka) as Ra. pose proof (answers_real b Kb) as Rb.
  unfold promoteForArithmetic, promote.
  destruct (tid_eq a b); [apply answers_ret|].
  destruct (tid_eq a Value); [apply answers_ret|]. destruct (tid_eq b Value); [apply answers_ret|].
  apply answers_if; [|apply answers_ret|].
  { apply answers_when, answers_or; assumption. }
  apply answers_if; [|apply answers_ret|].
  { apply answers_when, answers_or; assumption. }
  destruct (is_complex a || is_complex b); [apply answers_ret|].
  apply answers_if; [|apply answers_ret|].
  { apply answers_or; apply answers_when; assumption. }
  apply answers_if; [|apply answers_ret|].
  { apply answers_or; apply answers_when; assumption. }
  apply answers_if; [|apply answers_ret|].
  { apply answers_or; apply answers_and; assumption. }
  apply answers_if; [|apply answers_ret|].
  { apply answers_and; assumption. }
  apply answers_if; [|apply answers_ret|].
  { apply answers_and; assumption. }
  unfold lcs. destruct (lcs_spec E HE a b) as (o & -> & _).
  intros c Hc. exists (match o with Some t => t | None => Number end), c. by destruct o.
Qed.

(** ** What the promotion promises *)

Lemma step_plain a b : step E a b → omap_find b (sums E) = None.
Proof.
  unfold step. destruct (omap_find a (pairs E)).
  - intros ->. apply not_sum_type; [done|apply HE].
  - intros (n & s & Ha & Hs & <-). apply not_sum_type; [done|]. by destruct (wf_super E HE a n s Ha Hs).
Qed.

Lemma le_plain a b : omap_find a (sums E) = None → le E a b → omap_find b (sums E) = None.
Proof. intros Ha H. revert Ha. induction H as [|x y z Hs H IH]; intros Ha; [done|]. apply IH. by eapply step_plain. Qed.

Lemma le_antisym a b : le E a b → le E b a → a = b.
Proof. intros H1%(le_ids E HE) H2%(le_ids E HE). lia. Qed.

Lemma lcs_comm a b : tid (lcs a b) = tid (lcs b a).
Proof.
  unfold lcs. destruct (lcs_spec E HE a b) as (o & -> & Ho), (lcs_spec E HE b a) as (o' & -> & Ho').
  destruct o as [t|], o' as [t'|]; [|exfalso; naive_solver..|done].
  destruct Ho as (H1 & H2 & H3), Ho' as (H1' & H2' & H3'). apply le_antisym; auto.
Qed.

Lemma promote_comm a b : tid (promote a b) = tid (promote b a).
Proof.
  unfold promote, tid_eq. rewrite (Z.eqb_sym (tid b) (tid a)).
  destruct (Z.eqb_spec (tid a) (tid b)) as [|Hne]; [done|].
  destruct (Z.eqb_spec (tid a) (tid Value)), (Z.eqb_spec (tid b) (tid Value)); try (exfalso; congruence); try done.
  destruct (Z.eqb_spec (tid a) (tid Number)), (Z.eqb_spec (tid b) (tid Number)); try (exfalso; congruence); cbn [andb].
  all: destruct (is_complex a), (is_complex b); cbn [orb]; try done.
  all: destruct (int_b a), (int_b b), (real_b a), (real_b b), (tid a =? tid BigInt), (tid b =? tid BigInt);
    cbn [andb orb]; try done; apply lcs_comm.
Qed.
End arith.

#[local] Opaque builtin_env sub_b.

(** ** The builtin tower, in every reachable environment *)

Lemma builtin_sub E a b : reachable E → known builtin_env (tid a) → known builtin_env (tid b) →
  is_sub E (tid a) (tid b) ↔ sub_b builtin_env a b = true.
Proof.
  intros HR Ka Kb. rewrite (sub_b_spec _ builtin_wf a b Ka Kb).
  symmetry. by apply (steps_is_sub builtin_env E _ _ builtin_inv HR).
Qed.

Lemma builtin_no E a b : reachable E → known builtin_env (tid a) → known builtin_env (tid b) →
  sub_b builtin_env a b = false → ¬ is_sub E (tid a) (tid b).
Proof. intros HR Ka Kb Hf Hs. apply (builtin_sub E a b HR Ka Kb) in Hs. congruence. Qed.

Lemma known_reachable E t : reachable E → known builtin_env t → known E t.
Proof. intros HR. apply (steps_inv _ _ builtin_inv HR). Qed.

Definition registered (t : type_id) : bool := match types builtin_env !! tid t with Some _ => true | None => false end.

Lemma registered_known t : registered t = true → known builtin_env (tid t).
Proof. unfold registered. destruct (types builtin_env !! tid t) as [n|] eqn:Et; [|done]. intros _. left. rewrite Et. by eexists. Qed.

(** Neither arithmetic branch of the tower holds a special type, nor its sibling. *)
Definition specials : list type_id := [Value; Number; Complex; Complex64; Complex128].
Definition special (t : type_id) : bool := existsb (tid_eq t) specials.

Lemma specials_outside :
  forallb (λ s, registered s && negb (sub_b builtin_env s Integer) && negb (sub_b builtin_env s Real)) specials = true.
Proof. by vm_compute. Qed.

Lemma arithmetic_registered : forallb registered [Integer; Real; Number; Complex; BigInt; Float64; Int64] = true.
Proof. by vm_compute. Qed.

Lemma arithmetic_below_Number : forallb (λ s, sub_b builtin_env s Number) [Integer; Real; Complex; BigInt; Float64; Int64] = true.
Proof. by vm_compute. Qed.

Lemma branches_apart : sub_b builtin_env Integer Real = false ∧ sub_b builtin_env Real Integer = false.
Proof. by vm_compute. Qed.

Lemma bigint_outside_real : sub_b builtin_env BigInt Real = false.
Proof. by vm_compute. Qed.

Section tower.
Context (E : type_env) (HR : reachable E).

Lemma known_arithmetic t : t ∈ [Integer; Real; Number; Complex; BigInt; Float64; Int64] → known builtin_env (tid t).
Proof.
  intros Ht%list_elem_of_In. apply registered_known. pose proof arithmetic_registered as H.
  rewrite forallb_forall in H. by apply H.
Qed.

Lemma below_Number t : t ∈ [Integer; Real; Complex; BigInt; Float64; Int64] → is_sub E (tid t) (tid Number).
Proof.
  intros Ht. pose proof arithmetic_below_Number as H. rewrite forallb_forall in H.
  apply builtin_sub; [done| | |by apply H, list_elem_of_In].
  - apply known_arithmetic. revert Ht. rewrite !elem_of_cons, elem_of_nil. tauto.
  - apply known_arithmetic. right; right; left.
Qed.

Lemma tower_not_special a : is_sub E (tid a) (tid Integer) ∨ is_sub E (tid a) (tid Real) → special a = false.
Proof.
  intros H. destruct (special a) eqn:Hs; [exfalso|done].
  apply existsb_exists in Hs as (s & Hin & Heq%Z.eqb_eq). rewrite Heq in H.
  pose proof specials_outside as Hall. rewrite forallb_forall in Hall. specialize (Hall s Hin).
  rewrite !andb_true_iff, !negb_true_iff in Hall. destruct Hall as [[Hreg Hi] Hr].
  apply registered_known in Hreg. destruct H as [H|H]; revert H; (apply builtin_no; [done|done| |done]);
    apply known_arithmetic; [left|right; left].
Qed.

Lemma not_special a : special a = false → tid_eq a Value = false ∧ tid_eq a Number = false ∧ is_complex a = false.
Proof. unfold special, specials, is_complex. cbn [existsb]. rewrite !orb_false_iff. tauto. Qed.

(** Integer and Real have nothing in common. *)
Lemma chain_total a b c : le E a b → le E a c → le E b c ∨ le E c b.
Proof.
  intros H. revert c. induction H as [|x y z Hs H IH]; intros c Hc; [by left|].
  inversion Hc as [|? w ? H1 H2]; subst; [right; by eapply rtc_l|].
  apply IH. by rewrite (step_det E x y w).
Qed.

Lemma tower_apart a : omap_find (tid a) (sums E) = None → is_sub E (tid a) (tid Integer) → ¬ is_sub E (tid a) (tid Real).
Proof.
  destruct (reachable_inv E HR) as [HE _]. intros Ha.
  assert (Hp : ∀ t, t ∈ [Integer; Real] → omap_find (tid t) (sums E) = None).
  { intros t Ht. apply eq_None_not_Some. intros [l Hl]. destruct (wf_sums E HE _ _ Hl) as [Hr _].
    revert Hr. repeat (apply elem_of_cons in Ht as [->|Ht]; [cbn; lia|]). by apply elem_of_nil in Ht. }
  rewrite !is_sub_single by (done || apply Hp; rewrite !elem_of_cons; tauto).
  intros Hi Hr. destruct branches_apart as [Hir Hri].
  destruct (chain_total _ _ _ Hi Hr) as [H|H]; apply is_sub_single in H; try (apply Hp; rewrite !elem_of_cons; tauto);
    revert H; apply builtin_no; try assumption; apply known_arithmetic; rewrite !elem_of_cons; tauto.
Qed.

(** ** Promotion in a reachable environment *)

Lemma not_sum_find t : isSumType E t = false ↔ omap_find (tid t) (sums E) = None.
Proof. unfold isSumType, getSumMembers. by rewrite bool_decide_eq_false, eq_None_not_Some. Qed.

Lemma known_number t : t ∈ [Integer; Real; Number; Complex; BigInt; Float64; Int64] → known E (tid t).
Proof. intros Ht. by apply known_reachable, known_arithmetic. Qed.

Lemma promote_reachable a b : known E (tid a) → known E (tid b) → answers E (promote E a b) (promoteForArithmetic E a b).
Proof.
  intros Ka Kb. apply promote_answers; [apply (reachable_inv E HR)|apply known_number..|done|done]; rewrite !elem_of_cons; tauto.
Qed.

Lemma int_b_spec a : known E (tid a) → int_b E a = true ↔ is_sub E (tid a) (tid Integer).
Proof. intros Ka. apply sub_b_spec; [apply (reachable_inv E HR)|done|apply known_number; left]. Qed.

Lemma real_b_spec a : known E (tid a) → real_b E a = true ↔ is_sub E (tid a) (tid Real).
Proof. intros Ka. apply sub_b_spec; [apply (reachable_inv E HR)|done|apply known_number; right; left]. Qed.

Lemma tid_eq_false a b : tid a ≠ tid b → tid_eq a b = false.
Proof. intros. by apply Z.eqb_neq. Qed.

Lemma lcs_numeric a b : omap_find (tid a) (sums E) = None → omap_find (tid b) (sums E) = None →
  is_sub E (tid a) (tid Number) → is_sub E (tid b) (tid Number) → is_sub E (tid (lcs E a b)) (tid Number).
Proof.
  destruct (reachable_inv E HR) as [HE _]. intros Pa Pb Na Nb.
  assert (Pn : omap_find (tid Number) (sums E) = None).
  { apply eq_None_not_Some. intros [l Hl]. destruct (wf_sums E HE _ _ Hl) as [Hr _]. cbn in Hr. lia. }
  apply is_sub_single in Na, Nb; [|done..]. unfold lcs.
  destruct (lcs_spec E HE a b) as (o & -> & Ho). destruct o as [t|].
  - destruct Ho as (H1 & _ & H3). apply is_sub_single; [by apply (le_plain E HE (tid a))|done|]. by apply H3.
  - reflexivity.
Qed.

Lemma promote_numeric a b : omap_find (tid a) (sums E) = None → omap_find (tid b) (sums E) = None →
  is_sub E (tid a) (tid Number) → is_sub E (tid b) (tid Number) → is_sub E (tid (promote E a b)) (tid Number).
Proof.
  intros Pa Pb Na Nb. unfold promote.
  repeat match goal with |- context [if ?c then _ else _] => destruct c; [first [assumption|apply below_Number; rewrite !elem_of_cons; tauto]|] end.
  by apply lcs_numeric.
Qed.

Lemma real_b_integer a : known E (tid a) → omap_find (tid a) (sums E) = None → is_sub E (tid a) (tid Integer) → real_b E a = false.
Proof.
  intros Ka Pa Ia. apply not_true_is_false. rewrite real_b_spec by done. by apply tower_apart.
Qed.

Lemma int_b_real a : known E (tid a) → omap_find (tid a) (sums E) = None → is_sub E (tid a) (tid Real) → int_b E a = false.
Proof.
  intros Ka Pa Ra. apply not_true_is_false. rewrite int_b_spec by done. intros Ia. by apply (tower_apart a).
Qed.

Lemma promote_integers a b : known E (tid a) → known E (tid b) →
  omap_find (tid a) (sums E) = None → omap_find (tid b) (sums E) = None → tid a ≠ tid b →
  is_sub E (tid a) (tid Integer) → is_sub E (tid b) (tid Integer) →
  promote E a b = if tid_eq a BigInt || tid_eq b BigInt then BigInt else Int64.
Proof.
  intros Ka Kb Pa Pb Hne Ia Ib. unfold promote. rewrite tid_eq_false by done.
  destruct (not_special a (tower_not_special a (or_introl Ia))) as (-> & -> & ->).
  destruct (not_special b (tower_not_special b (or_introl Ib))) as (-> & -> & ->).
  rewrite (real_b_integer a), (real_b_integer b) by done.
  apply int_b_spec in Ia, Ib; [|done..]. rewrite Ia, Ib. cbn [andb orb]. rewrite !andb_true_r, !andb_false_r.
  by destruct (tid_eq a BigInt || tid_eq b BigInt).
Qed.

Lemma bigint_not_real b : is_sub E (tid b) (tid Real) → tid_eq b BigInt = false.
Proof.
  intros Rb. destruct (tid_eq b BigInt) eqn:Hb; [exfalso|done]. apply Z.eqb_eq in Hb. rewrite Hb in Rb.
  revert Rb. apply builtin_no; [done|apply known_arithmetic; rewrite !elem_of_cons; tauto..|].
  apply bigint_outside_real.
Qed.

Lemma promote_reals a b : known E (tid a) → known E (tid b) →
  omap_find (tid a) (sums E) = None → omap_find (tid b) (sums E) = None → tid a ≠ tid b →
  is_sub E (tid a) (tid Real) → is_sub E (tid b) (tid Integer) ∨ is_sub E (tid b) (tid Real) → promote E a b = Float64.
Proof.
  intros Ka Kb Pa Pb Hne Ra Hb. unfold promote. rewrite tid_eq_false by done.
  destruct (not_special a (tower_not_special a (or_intror Ra))) as (-> & -> & ->).
  destruct (not_special b (tower_not_special b Hb)) as (-> & -> & ->).
  rewrite (bigint_not_real a Ra), (int_b_real a Ka Pa Ra).
  destruct Hb as [Ib|Rb].
  - rewrite (real_b_integer b Kb Pb Ib). apply int_b_spec in Ib; [|done]. apply real_b_spec in Ra; [|done].
    rewrite Ib, Ra. cbn [andb orb]. rewrite !andb_false_r. by destruct (tid_eq b BigInt).
  - rewrite (bigint_not_real b Rb), (int_b_real b Kb Pb Rb). apply real_b_spec in Ra, Rb; [|done..].
    rewrite Rb, Ra. done.
Qed.
End tower.
