(* ===== verification/TypeProps.v ===== *)
(** * TypeProps: the theorems of the type environment *)

From S2P Require Export TypeArith.
Import BuiltinTypes.
Local Open Scope Z_scope.

(** Kept opaque here: unification would otherwise run the registrations. *)
#[local] Opaque builtin_env.


(** Subtyping is a preorder, and two types that are no sums are subtypes of each
    other only when they are the same. *)
Theorem subtype_order E : reachable E →
  (∀ a, is_sub E a a) ∧ (∀ a b c, is_sub E a b → is_sub E b c → is_sub E a c) ∧
  (∀ a b, isSumType E a = false → isSumType E b = false → is_sub E (tid a) (tid b) → is_sub E (tid b) (tid a) → tid a = tid b).
Proof.
  intros HR. split; [intros a; reflexivity|]. split; [intros a b c; by transitivity b|].
  intros a b Ha Hb. unfold isSumType, getSumMembers in Ha, Hb.
  apply bool_decide_eq_false in Ha, Hb. apply eq_None_not_Some in Ha, Hb.
  apply is_sub_antisym; [apply (reachable_inv E HR)|done|done].
Qed.

(** [leastCommonSupertype] returns the least type above both of two types that are no
    sums, and nothing exactly when no type is above both. *)
Theorem least_common_supertype E a b : reachable E → isSumType E a = false → isSumType E b = false →
  ∃ o, leastCommonSupertype E a b = Some o ∧
  match o with
  | Some t => is_sub E (tid a) (tid t) ∧ is_sub E (tid b) (tid t) ∧
              ∀ u, isSumType E u = false → is_sub E (tid a) (tid u) → is_sub E (tid b) (tid u) → is_sub E (tid t) (tid u)
  | None => ∀ u, isSumType E u = false → is_sub E (tid a) (tid u) → ¬ is_sub E (tid b) (tid u)
  end.
Proof.
  intros HR Ha Hb. destruct (reachable_inv E HR) as [HE _].
  assert (Hplain : ∀ t, isSumType E t = false ↔ omap_find (tid t) (sums E) = None).
  { intros t. unfold isSumType, getSumMembers. by rewrite bool_decide_eq_false, eq_None_not_Some. }
  apply Hplain in Ha, Hb. destruct (lcs_spec E HE a b) as (o & Ho & Hs).
  exists o. split; [done|]. destruct o as [t|].
  - destruct Hs as (H1 & H2 & H3). assert (Ht : omap_find (tid t) (sums E) = None) by (by apply (le_plain E HE (tid a))).
    split; [by apply is_sub_single|]. split; [by apply is_sub_single|]. intros u Hu%Hplain Hau Hbu.
    apply is_sub_single in Hau, Hbu; [|done..]. apply is_sub_single; [done|done|]. by apply H3.
  - intros u Hu%Hplain Hau Hbu. apply is_sub_single in Hau, Hbu; [|done..]. apply Hs. by exists (tid u).
Qed.

(** A sum type is the join of its members: above each of them and below everything
    that is above all of them, whatever the order, repetition or nesting of the members. *)
Theorem sum_type_is_join E ms s E' :
  reachable E → Forall (λ m, known E (tid m)) ms → ms ≠ [] → next_sum_type_id E < 2 ^ 16 - 1 →
  makeSumType ms E = (s, E') →
  (∀ m, m ∈ ms → is_sub E' (tid m) (tid s)) ∧
  (∀ b, (∀ m, m ∈ ms → is_sub E' (tid m) b) → is_sub E' (tid s) b) ∧
  (∀ ms', Forall (λ m, known E (tid m)) ms' → (∀ x, x ∈ all_arms_of E ms' ↔ x ∈ all_arms_of E ms) →
     tid (makeSumType ms' E').1 = tid s).
Proof.
  intros HR Hk Hne Hroom HE'. pose proof (reachable_inv E HR) as HI. pose proof (reachable_canon E HR) as HC.
  destruct (makeSumType_inv E ms HI Hk Hroom) as [HI' HX]. pose proof (makeSumType_arms E ms HI HC Hk Hne) as Harms.
  pose proof (env_step_canon E _ HI HC (step_sum E ms Hk Hroom)) as HC'.
  rewrite HE' in HI', HX, Harms, HC'. cbn [fst snd] in HI', HX, Harms, HC'.
  assert (Hkeep : ∀ l, Forall (λ m, known E (tid m)) l → ∀ x, x ∈ all_arms_of E' l ↔ x ∈ all_arms_of E l).
  { intros l Hl x. rewrite !all_arms_elem. rewrite Forall_forall in Hl. unfold arms.
    split; intros (m & Hm & Hx); exists m; split; try done; revert Hx; by rewrite (ext_sums E E' HX _ (Hl m Hm)). }
  split; [|split].
  - intros m Hm x Hx. exists x. split; [|apply rtc_refl]. apply Harms, (Hkeep ms Hk), all_arms_elem. by exists m.
  - intros b Hb x Hx. apply Harms, (Hkeep ms Hk), all_arms_elem in Hx as (m & Hm & Hx). by apply (Hb m Hm).
  - intros ms' Hk' Hsame. destruct (decide (ms' = [])) as [->|Hne'].
    { exfalso. destruct ms as [|m ms]; [done|]. destruct (arms_nonempty E (tid m) HC) as [x Hx].
      apply (elem_of_nil x). apply Hsame. apply all_arms_elem. exists m. split; [left|done]. }
    assert (Hagain : ∀ x, x ∈ arms E' (tid s) ↔ x ∈ all_arms_of E' ms') by (intros x; by rewrite Harms, <- Hsame, Hkeep).
    assert (Hk'' : Forall (λ m, known E' (tid m)) ms') by (eapply Forall_impl; [exact Hk'|]; intros m; apply HX).
    pose proof (makeSumType_arms E' ms' HI' HC' Hk'' Hne') as Harms'.
    rewrite (makeSumType_again E' ms' (tid s) (proj1 HI') HC' Hagain) in Harms'.
    apply (arms_inj E' _ _ HC'). intros x. by rewrite Harms', Hagain.
Qed.

(** Pair and function types are interned: the id gives back the component types, and a
    later construction yields the same id exactly when it has the same components. *)
Theorem constructed_types_canonical E a d ps r v :
  reachable E → next_pair_type_id E < 500 → next_function_type_id E < 1000 →
  (let '(p, E1) := makePairType a d E in
   ∀ E2 b e, rtc env_step E1 E2 → next_pair_type_id E2 < 500 →
   (∃ a' d', getPairElementTypes E2 p = Some (a', d') ∧ tid a' = tid a ∧ tid d' = tid d) ∧
   (tid (makePairType b e E2).1 = tid p ↔ tid b = tid a ∧ tid e = tid d)) ∧
  (let '(f, E1) := makeFunctionType ps r v E in
   ∀ E2 qs q w, rtc env_step E1 E2 → next_function_type_id E2 < 1000 →
   (tid (getFunctionReturnType E2 f) = tid r ∧ map tid (getFunctionParamTypes E2 f) = map tid ps) ∧
   (tid (makeFunctionType qs q w E2).1 = tid f ↔ map tid qs = map tid ps ∧ tid q = tid r ∧ w = v)).
Proof.
  intros HR Hp Hf. pose proof (reachable_inv E HR) as HI. pose proof (reachable_canon E HR) as HC. split.
  - destruct (makePairType a d E) as [p E1] eqn:He. intros E2 b e Hs Hp2. by eapply pairs_canonical_later.
  - destruct (makeFunctionType ps r v E) as [f E1] eqn:He. intros E2 qs q w Hs Hf2. by eapply functions_canonical_later.
Qed.

(** C39: arithmetic promotion of numeric types that are no sums returns, does not depend on
    the order of its operands and stays numeric; integers promote to Int64 (to BigInt when
    one is BigInt), and an inexact real with an integer or another real gives Float64. *)
Theorem numeric_promotion E a b :
  reachable E → known E (tid a) → known E (tid b) → isSumType E a = false → isSumType E b = false →
  is_sub E (tid a) (tid Number) → is_sub E (tid b) (tid Number) →
  ∃ t t' c c', promoteForArithmetic E a b (subtype_cache E) = Some (t, c) ∧
    promoteForArithmetic E b a (subtype_cache E) = Some (t', c') ∧ tid t = tid t' ∧ is_sub E (tid t) (tid Number) ∧
    (tid a ≠ tid b →
      (is_sub E (tid a) (tid Integer) → is_sub E (tid b) (tid Integer) →
         t = if tid_eq a BigInt || tid_eq b BigInt then BigInt else Int64) ∧
      (is_sub E (tid a) (tid Real) → is_sub E (tid b) (tid Integer) ∨ is_sub E (tid b) (tid Real) → t = Float64)).
Proof.
  intros HR Ka Kb Pa Pb Na Nb. pose proof (reachable_inv E HR) as HI. destruct HI as [HE Hc].
  apply not_sum_find in Pa, Pb.
  destruct (promote_reachable E HR a b Ka Kb _ Hc) as (t & c & Hq & _ & ->).
  destruct (promote_reachable E HR b a Kb Ka _ Hc) as (t' & c' & Hq' & _ & ->).
  exists (promote E a b), (promote E b a), c, c'. split; [done|]. split; [done|].
  split; [by apply promote_comm|]. split; [by apply promote_numeric|]. intros Hne.
  split; [by apply promote_integers|by apply promote_reals].
Qed.

(** ** Witnesses *)

(** A program that declares a unit type below Float64, conses and uses a sum. *)
Definition celsius : type_id := TypeId 1000 U0 0.
Definition int_or_string : type_id := TypeId 60000 U1 0.
Definition demo_env : type_env :=
  (makeSumType [Int64; String] (makePairType Int64 celsius (registerUserType "Celsius"%string U0 0 (Some Float64) builtin_env).2).2).2.

Definition demo_types : list Z := [10; 11; 12; 13; 16; 21; 1000].

Lemma demo_types_check : forallb (λ t, match types demo_env !! t with Some _ => true | None => false end) demo_types = true.
Proof. by vm_compute. Qed.

Lemma demo_tables : pairs demo_env = [(300, (Int64, celsius))] ∧ sums demo_env = [(60000, [Int64; String])].
Proof. by vm_compute. Qed.

Lemma demo_reachable : reachable demo_env.
Proof.
  unfold demo_env. eapply rtc_l; [|eapply rtc_l; [|apply rtc_once]].
  - apply (step_user builtin_env "Celsius"%string U0 0 (Some Float64)); [|vm_compute; reflexivity].
    intros s [= <-]. vm_compute. by eexists.
  - apply step_pair. vm_compute. reflexivity.
  - apply step_sum; [|vm_compute; reflexivity]. repeat (apply Forall_cons; split; [left; vm_compute; by eexists|]). apply Forall_nil_2.
Qed.

#[local] Opaque demo_env.

Lemma demo_known t : t ∈ demo_types → known demo_env t.
Proof.
  intros Hin%list_elem_of_In. pose proof demo_types_check as H. rewrite forallb_forall in H. specialize (H t Hin).
  left. destruct (types demo_env !! t) as [n|]; [by exists n|done].
Qed.

Lemma demo_plain t : tid t < 60000 → isSumType demo_env t = false.
Proof.
  intros Hlt. apply not_sum_find. destruct demo_tables as (_ & ->). unfold omap_find. cbn [List.find fst].
  rewrite (proj2 (Z.eqb_neq 60000 (tid t))) by lia. done.
Qed.

Lemma demo_sub a b : known demo_env (tid a) → known demo_env (tid b) → sub_b demo_env a b = true → is_sub demo_env (tid a) (tid b).
Proof. intros Ka Kb. by apply sub_b_spec; [apply (reachable_inv _ demo_reachable)|..]. Qed.

Ltac demo := first [exact demo_reachable | apply demo_known; unfold demo_types; rewrite !elem_of_cons; tauto | apply demo_plain; reflexivity].





Lemma demo_pair : makePairType Int64 celsius demo_env = (TypeId 300 U1 0, demo_env).
Proof. unfold makePairType. destruct demo_tables as (-> & _). reflexivity. Qed.

Lemma demo_room : next_pair_type_id demo_env < 500 ∧ next_function_type_id demo_env < 1000.
Proof. vm_compute. by split. Qed.


Lemma numeric_promotion_witness : ∃ t t' c c',
  promoteForArithmetic demo_env celsius Int64 (subtype_cache demo_env) = Some (t, c) ∧
  promoteForArithmetic demo_env Int64 celsius (subtype_cache demo_env) = Some (t', c') ∧ tid t = tid t' ∧
  is_sub demo_env (tid t) 11 ∧
  ((is_sub demo_env 1000 12 → is_sub demo_env 13 12 → t = if tid_eq celsius BigInt || tid_eq Int64 BigInt then BigInt else Int64) ∧
   (is_sub demo_env 1000 15 → is_sub demo_env 13 12 ∨ is_sub demo_env 13 15 → t = Float64)).
Proof.
  assert (Hc : is_sub demo_env (tid celsius) (tid Number)) by (apply demo_sub; [demo|demo|vm_compute; reflexivity]).
  assert (Hi : is_sub demo_env (tid Int64) (tid Number)) by (apply demo_sub; [demo|demo|vm_compute; reflexivity]).
  destruct (numeric_promotion demo_env celsius Int64 ltac:(demo) ltac:(demo) ltac:(demo) ltac:(demo) ltac:(demo) Hc Hi)
    as (t & t' & c & c' & H1 & H2 & H3 & H4 & H5).
  exists t, t', c, c'. split; [exact H1|]. split; [exact H2|]. split; [exact H3|]. split; [exact H4|].
  apply H5. discriminate.
Defined.

(** ** Findings *)

(** Each nested cons takes a pair id; the 201st takes the first function id. *)
Fixpoint nested_pairs (n : nat) (t : type_id) (E : type_env) : type_id * type_env :=
  match n with
  | O => (t, E)
  | S n => let '(t, E) := makePairType Int64 t E in nested_pairs n t E
  end.

Lemma pair_ids_run_into_functions :
  let '(p, E1) := nested_pairs 201 Int64 builtin_env in
  let '(f, E2) := makeFunctionType [Int64] String false E1 in
  tid p = 500 ∧ tid f = 500 ∧ getFunctionReturnType E2 p = String ∧ isTrackedPairType E2 f = true.
Proof. by vm_compute. Qed.

(** A type family has no supertype: the root type is not above it, so a list and a number
    have no common supertype. *)
Lemma families_are_not_values :
  sub_b builtin_env List Value = false ∧ sub_b builtin_env Vector Value = false ∧
  leastCommonSupertype builtin_env List Int64 = Some None.
Proof. by vm_compute. Qed.
