(* ===== verification/Heap.v ===== *)
(** * Heap: what the runtime knows of the process heap
    (heap tracking of lib/core/resource_limits.cpp, calls of the C library)

    A runtime call acts on the tracked usage and on the bytes of memory, and can
    end the process.  The answers of [malloc] are arguments of the operations
    that ask for memory. *)

From S2P Require Export Prelude.
From stdpp Require Export list.
Local Open Scope Z_scope.

Inductive limit_error := LIMIT_OK | LIMIT_HEAP_SOFT | LIMIT_HEAP_HARD.

(** The fields of [eshkol_resource_limits_t] that heap tracking reads. *)
Record limits := Limits {
  max_heap_bytes : Z;
  heap_soft_limit_bytes : Z;
  enforce_hard_limits : bool;
  enable_warnings : bool;
  active_heap : bool }.

Record process := Process {
  heap_usage : Z;
  peak_heap_usage : Z;
  soft_limit_warned : bool;
  last_error : limit_error;
  interrupt_requested : bool;
  bytes : Z → Z }.

Definition set_usage (p : process) (u : Z) : process :=
  Process u (peak_heap_usage p) (soft_limit_warned p) (last_error p) (interrupt_requested p) (bytes p).
Definition update_peak (p : process) (current : Z) : process :=
  Process (heap_usage p) (Z.max (peak_heap_usage p) current) (soft_limit_warned p) (last_error p) (interrupt_requested p) (bytes p).
Definition set_last_error (p : process) (e : limit_error) : process :=
  Process (heap_usage p) (peak_heap_usage p) (soft_limit_warned p) e (interrupt_requested p) (bytes p).
Definition request_interrupt (p : process) : process :=
  Process (heap_usage p) (peak_heap_usage p) (soft_limit_warned p) (last_error p) true (bytes p).
Definition set_warned (p : process) : process :=
  Process (heap_usage p) (peak_heap_usage p) true (last_error p) (interrupt_requested p) (bytes p).
Definition set_bytes (p : process) (m : Z → Z) : process :=
  Process (heap_usage p) (peak_heap_usage p) (soft_limit_warned p) (last_error p) (interrupt_requested p) m.

(** ** Calls *)

(** [Exit]: the process ended; [Crash]: a null pointer was followed. *)
Inductive result (A : Type) :=
| Done (a : A) (p : process)
| Exit (p : process)
| Crash.
Arguments Done {A} a p.
Arguments Exit {A} p.
Arguments Crash {A}.

Definition call (A : Type) : Type := process → result A.
#[export] Instance call_ret : MRet call := λ A a p, Done a p.
#[export] Instance call_bind : MBind call := λ A C f m p,
  match m p with Done a p' => f a p' | Exit p' => Exit p' | Crash => Crash end.
Definition modify (f : process → process) : call unit := λ p, Done () (f p).
Definition crash {A} : call A := λ _, Crash.

(** [memset(base, c, len)]. *)
Definition memset (base c len : Z) : call unit :=
  modify (λ p, set_bytes p (λ a, if (base <=? a) && (a <? base + len) then c else bytes p a)).

(** ** Heap tracking *)

Section limits.
Context (L : limits).

(** Over the ceiling: the error is recorded, and the usage is left alone. *)
Definition over_limit (p : process) : process :=
  let p := set_last_error p LIMIT_HEAP_HARD in
  if enforce_hard_limits L then request_interrupt p else p.

Definition soft_limit_check (current : Z) (p : process) : process :=
  if enable_warnings L && (0 <? max_heap_bytes L) && (heap_soft_limit_bytes L <=? current) && negb (soft_limit_warned p)
  then set_last_error (set_warned p) LIMIT_HEAP_SOFT
  else p.

Definition eshkol_track_allocation (n : Z) : call bool := λ p,
  if n =? 0 then Done true p
  else if UINT64_MAX - heap_usage p <? n then Done false (over_limit p)
  else
    let current := heap_usage p + n in
    if (0 <? max_heap_bytes L) && (max_heap_bytes L <? current) then Done false (over_limit p)
    else Done true (soft_limit_check current (update_peak (set_usage p current) current)).

Definition eshkol_track_deallocation (n : Z) : call unit := λ p,
  if n =? 0 then Done () p
  else Done () (set_usage p (if heap_usage p <=? n then 0 else heap_usage p - n)).

Definition eshkol_limit_is_active : bool := active_heap L.

Definition eshkol_limit_enforce (e : limit_error) : call unit := λ p,
  let p := set_last_error p e in
  if negb (enforce_hard_limits L) then Done () p else Exit (request_interrupt p).
End limits.
