(* ===== verification/Arena.v ===== *)
(** * Arena: the bump allocator of the runtime (lib/core/runtime_arena_core.cpp)

    An arena is a chain of blocks, newest first, and a stack of scope marks.
    Memory is handed out from the newest block; a scope pop rewinds the chain to
    its mark, a commit forgets the mark, and a pinned region's blocks can be
    adopted by the arena around it. *)

From S2P Require Export Heap.
Local Open Scope Z_scope.

Definition SIZE_MAX : Z := UINT64_MAX.
Definition DEFAULT_ALIGNMENT : Z := 8.

(** [addr] is the address of the block structure, which scope marks compare. *)
Record block := Block { addr : Z; memory : Z; size : Z; used : Z }.
Record scope := Scope { sblock : Z; sused : Z }.

(** [chain] is [current_block] with its [next] links; a null mutex never occurs
    in a thread-safe arena. *)
Record arena := Arena {
  chain : list block;
  adopted_blocks : list block;
  scopes : list scope;
  default_block_size : Z;
  total_allocated : Z;
  thread_safe : bool;
  bounded : bool }.

Definition set_used (b : block) (u : Z) : block := Block (addr b) (memory b) (size b) u.
Definition set_chain (a : arena) (c : list block) (total : Z) : arena :=
  Arena c (adopted_blocks a) (scopes a) (default_block_size a) total (thread_safe a) (bounded a).
Definition set_scopes (a : arena) (s : list scope) : arena :=
  Arena (chain a) (adopted_blocks a) s (default_block_size a) (total_allocated a) (thread_safe a) (bounded a).
Definition set_adopted (a : arena) (l : list block) (total : Z) : arena :=
  Arena (chain a) l (scopes a) (default_block_size a) total (thread_safe a) (bounded a).
Definition set_bounded (a : arena) (b : bool) : arena :=
  Arena (chain a) (adopted_blocks a) (scopes a) (default_block_size a) (total_allocated a) (thread_safe a) b.
Definition set_thread_safe (a : arena) : arena :=
  Arena (chain a) (adopted_blocks a) (scopes a) (default_block_size a) (total_allocated a) true false.

(** ** Alignment *)

Definition not64 (x : Z) : Z := Z.lxor x UINT64_MAX.
Definition align_size (size alignment : Z) : Z :=
  Z.land (u64 (u64 (size + alignment) - 1)) (not64 (u64 (alignment - 1))).
Definition align_block_offset (b : block) (used alignment : Z) : Z :=
  let raw_addr := u64 (memory b + used) in
  let aligned_addr := Z.land (u64 (u64 (raw_addr + alignment) - 1)) (not64 (u64 (alignment - 1))) in
  u64 (aligned_addr - memory b).

Section runtime.
Context (L : limits) (poison : bool) (worker : bool).

(** The two answers of [malloc] a new block needs: its structure and its memory. *)
Record answers := Answers { ans_struct : option Z; ans_memory : option Z }.

(** ** Blocks *)

Definition create_arena_block (size : Z) (ans : answers) : call (option block) :=
  ok ← eshkol_track_allocation L size;
  _ ← (if negb ok && eshkol_limit_is_active L then eshkol_limit_enforce L LIMIT_HEAP_HARD else mret tt);
  match ans_struct ans with
  | None => _ ← eshkol_track_deallocation size; mret None
  | Some id =>
      match ans_memory ans with
      | None => _ ← eshkol_track_deallocation size; mret None
      | Some mem => mret (Some (Block id mem size 0))
      end
  end.

Definition free_arena_block (b : block) : call unit := eshkol_track_deallocation (size b).

Fixpoint free_blocks (l : list block) : call unit :=
  match l with
  | [] => mret tt
  | b :: l => _ ← free_arena_block b; free_blocks l
  end.

(** The destroy loop: live bytes are poisoned before the block is freed. *)
Fixpoint destroy_blocks (l : list block) : call unit :=
  match l with
  | [] => mret tt
  | b :: l =>
      _ ← (if poison && (0 <? used b) then memset (memory b) 203 (used b) else mret tt);
      _ ← free_arena_block b; destroy_blocks l
  end.

(** ** Creation and destruction *)

Definition arena_create (default_block_size : Z) (ans_arena : bool) (ans : answers) : call (option arena) :=
  let default_block_size := if default_block_size <? 1024 then 1024 else default_block_size in
  if negb ans_arena then mret None
  else
    ob ← create_arena_block default_block_size ans;
    match ob with
    | None => mret None
    | Some b => mret (Some (Arena [b] [] [] default_block_size default_block_size false false))
    end.

Definition arena_create_bounded (capacity : Z) (ans_arena : bool) (ans : answers) : call (option arena) :=
  let capacity := if capacity <? 1024 then 1024 else capacity in
  oa ← arena_create capacity ans_arena ans;
  mret (match oa with None => None | Some a => Some (set_bounded a true) end).

Definition arena_destroy (oa : option arena) : call unit :=
  match oa with
  | None => mret tt
  | Some a => _ ← destroy_blocks (chain a); destroy_blocks (adopted_blocks a)
  end.

Definition arena_create_threadsafe (default_block_size : Z) (ans_arena : bool) (ans : answers) (ans_mutex : bool) : call (option arena) :=
  oa ← arena_create default_block_size ans_arena ans;
  match oa with
  | None => mret None
  | Some a =>
      if negb ans_mutex then _ ← arena_destroy (Some a); mret None
      else mret (Some (set_thread_safe a))
  end.

(** ** Allocation *)

(** The request, rounded: [None] when the alignment or the size is refused. *)
Definition rounded_request (size alignment : Z) : option (Z * Z) :=
  let alignment := if alignment =? 0 then DEFAULT_ALIGNMENT else alignment in
  if negb (Z.land alignment (u64 (alignment - 1)) =? 0) then None
  else if SIZE_MAX - (alignment - 1) <? size then None
  else
    let aligned_size := align_size size alignment in
    if SIZE_MAX - (alignment - 1) <? aligned_size then None else Some (aligned_size, alignment).

Definition new_block_size (a : arena) (aligned_size alignment : Z) : Z :=
  let min_block_size := u64 (aligned_size + alignment - 1) in
  if default_block_size a <? min_block_size then min_block_size else default_block_size a.

Definition arena_allocate_aligned_impl (size alignment : Z) (ans : answers) (a : arena) : call (option Z * arena) :=
  if size =? 0 then mret (None, a)
  else
    match rounded_request size alignment with
    | None => mret (None, a)
    | Some (aligned_size, alignment) =>
        match chain a with
        | [] => crash
        | b :: rest =>
            let current_used := align_block_offset b (used b) alignment in
            if (Arena.size b <? current_used) || (Arena.size b - current_used <? aligned_size) then
              if bounded a then mret (None, a)
              else if SIZE_MAX - total_allocated a <? new_block_size a aligned_size alignment then mret (None, a)
              else
                onb ← create_arena_block (new_block_size a aligned_size alignment) ans;
                match onb with
                | None => mret (None, a)
                | Some nb =>
                    let current_used := align_block_offset nb 0 alignment in
                    mret (Some (u64 (memory nb + current_used)),
                          set_chain a (set_used nb (u64 (current_used + aligned_size)) :: b :: rest)
                            (u64 (total_allocated a + new_block_size a aligned_size alignment)))
                end
            else mret (Some (u64 (memory b + current_used)),
                       set_chain a (set_used b (u64 (current_used + aligned_size)) :: rest) (total_allocated a))
        end
    end.

(** A null arena: nothing is done. *)
Definition on_arena {A} (dflt : A) (f : arena → call (A * arena)) (oa : option arena) : call (A * option arena) :=
  match oa with
  | None => mret (dflt, None)
  | Some a => r ← f a; mret (r.1, Some r.2)
  end.

Definition arena_allocate_aligned (size alignment : Z) (ans : answers) : option arena → call (option Z * option arena) :=
  on_arena None (arena_allocate_aligned_impl size alignment ans).

(** Same allocator; the flag only silences the log. *)
Definition eshkol_region_allocate_quiet (size alignment : Z) (ans : answers) : option arena → call (option Z * option arena) :=
  on_arena None (arena_allocate_aligned_impl size alignment ans).

Definition arena_allocate (size : Z) (ans : answers) : option arena → call (option Z * option arena) :=
  arena_allocate_aligned size DEFAULT_ALIGNMENT ans.

Definition arena_allocate_zeroed (size : Z) (ans : answers) (oa : option arena) : call (option Z * option arena) :=
  r ← arena_allocate size ans oa;
  match r.1 with
  | None => mret r
  | Some ptr => _ ← memset ptr 0 size; mret r
  end.

Definition arena_allocate_cons_cell (ans : answers) : option arena → call (option Z * option arena) :=
  arena_allocate_aligned 16 8 ans.

Definition arena_allocate_list_node (element_size count : Z) (ans : answers) (oa : option arena) : call (option Z * option arena) :=
  if negb (count =? 0) && (Z.quot SIZE_MAX count <? element_size) then mret (None, oa)
  else arena_allocate (u64 (element_size * count)) ans oa.

(** ** Scopes *)

Definition arena_scope_ops_are_commit_only (a : arena) : bool := thread_safe a && worker.

Definition push_scope (ans_scope : bool) (a : arena) : call (unit * arena) :=
  if arena_scope_ops_are_commit_only a then mret (tt, a)
  else if negb ans_scope then mret (tt, a)
  else
    match chain a with
    | [] => crash
    | b :: _ => mret (tt, set_scopes a (Scope (addr b) (used b) :: scopes a))
    end.
Definition arena_push_scope (ans_scope : bool) : option arena → call (unit * option arena) := on_arena tt (push_scope ans_scope).

(** [for (b = current_block; b && b != scope->block; b = b->next)]: the blocks
    after the mark, and the chain from the mark on. *)
Fixpoint split_at (sid : Z) (c : list block) : list block * list block :=
  match c with
  | [] => ([], [])
  | b :: c' => if addr b =? sid then ([], c) else let '(young, old) := split_at sid c' in (b :: young, old)
  end.

Fixpoint poison_blocks (l : list block) : call unit :=
  match l with
  | [] => mret tt
  | b :: l => _ ← memset (memory b) 203 (used b); poison_blocks l
  end.

Definition poison_scope (s : scope) (c : list block) : call unit :=
  _ ← match c with
      | b :: _ => if addr b =? sblock s then memset (memory b + sused s) 203 (if sused s <? used b then used b - sused s else 0) else mret tt
      | [] => mret tt
      end;
  poison_blocks (split_at (sblock s) c).1.

Definition sizes (l : list block) : Z := foldr (λ b n, size b + n) 0 l.

(** [total_allocated -= block->size] for each freed block; a mark whose block is
    not in the chain would be written through after its block was freed. *)
Definition pop_scope (a : arena) : call (unit * arena) :=
  if arena_scope_ops_are_commit_only a then mret (tt, a)
  else
    match scopes a with
    | [] => mret (tt, a)
    | s :: parent =>
        _ ← (if poison then poison_scope s (chain a) else mret tt);
        let '(young, old) := split_at (sblock s) (chain a) in
        _ ← free_blocks young;
        match old with
        | [] => crash
        | b :: old =>
            mret (tt, set_scopes (set_chain a (set_used b (sused s) :: old) (u64 (total_allocated a - sizes young))) parent)
        end
    end.
Definition arena_pop_scope : option arena → call (unit * option arena) := on_arena tt pop_scope.

Definition commit_scope (a : arena) : call (unit * arena) :=
  if arena_scope_ops_are_commit_only a then mret (tt, a)
  else
    match scopes a with
    | [] => mret (tt, a)
    | s :: parent => mret (tt, set_scopes a parent)
    end.
Definition arena_commit_scope : option arena → call (unit * option arena) := on_arena tt commit_scope.

Definition in_block (b : block) (lo : Z) (p : Z) : bool := (memory b + lo <=? p) && (p <? memory b + used b).

Fixpoint span_contains (s : scope) (c : list block) (p : Z) : bool :=
  match c with
  | [] => false
  | b :: c =>
      if addr b =? sblock s then in_block b (sused s) p
      else if in_block b 0 p then true else span_contains s c p
  end.

Definition arena_top_scope_contains (oa : option arena) (p : Z) : bool :=
  match oa with
  | None => false
  | Some a => match scopes a with [] => false | s :: _ => if p =? 0 then false else span_contains s (chain a) p end
  end.

Definition arena_contains (oa : option arena) (p : Z) : bool :=
  match oa with
  | None => false
  | Some a => if p =? 0 then false else existsb (λ b, in_block b 0 p) (chain a)
  end.

(** A tagged value: its type byte and the pointer its data would be. *)
Record carried := Carried { vtype : Z; vptr : Z }.

Definition immediate_tag (t : Z) : bool := (t <=? 4) || (t =? 11) || (t =? 255).

Definition escapes (a : arena) (v : carried) : bool :=
  if immediate_tag (vtype v) then false
  else negb (vptr v =? 0) && arena_top_scope_contains (Some a) (vptr v).

Definition iter_scope_end (vals : list carried) (a : arena) : call (unit * arena) :=
  if arena_scope_ops_are_commit_only a then mret (tt, a)
  else
    match scopes a with
    | [] => mret (tt, a)
    | _ => if existsb (escapes a) vals then commit_scope a else pop_scope a
    end.
Definition eshkol_arena_iter_scope_end (vals : list carried) : option arena → call (unit * option arena) :=
  on_arena tt (iter_scope_end vals).

(** ** Reset and adoption *)

Definition arena_reset (oa : option arena) : call (unit * option arena) :=
  on_arena tt (λ a,
    _ ← free_blocks (adopted_blocks a);
    let a := set_adopted a [] (u64 (total_allocated a - sizes (adopted_blocks a))) in
    let young := removelast (chain a) in
    _ ← free_blocks young;
    let c := match rev (chain a) with first_block :: _ => [set_used first_block 0] | [] => [] end in
    mret (tt, set_scopes (set_chain a c (u64 (total_allocated a - sizes young))) [])) oa.

(** [same]: the two pointers are equal. The source keeps its other fields. *)
Definition arena_adopt_blocks (same : bool) (dst src : option arena) : Z * option arena * option arena :=
  match dst, src with
  | Some d, Some s =>
      if same then (0, dst, src)
      else
        let moved_chain := chain s ++ adopted_blocks s in
        let s' := set_adopted (set_chain s [] (total_allocated s)) [] (total_allocated s) in
        match moved_chain with
        | [] => (0, dst, Some s')
        | _ =>
            let moved := u64 (sizes moved_chain) in
            (moved, Some (set_adopted d (moved_chain ++ adopted_blocks d) (u64 (total_allocated d + moved))), Some s')
        end
  | _, _ => (0, dst, src)
  end.

(** ** Statistics *)

Definition arena_get_used_memory (oa : option arena) : Z :=
  match oa with None => 0 | Some a => foldl (λ n b, u64 (n + used b)) 0 (chain a) end.
Definition arena_get_total_memory (oa : option arena) : Z :=
  match oa with None => 0 | Some a => total_allocated a end.
Definition arena_get_block_count (oa : option arena) : Z :=
  match oa with None => 0 | Some a => Z.of_nat (length (chain a)) end.
End runtime.
