(* ===== verification/ArenaSpec.v ===== *)
(** * ArenaSpec: live allocations, the invariant of an arena, and its steps *)

From S2P Require Export Arena.
Local Open Scope Z_scope.

(** * Rounding sizes and addresses to a power of two *)

Lemma pow2_of_land x : 0 < x → Z.land x (x - 1) = 0 → x = 2 ^ Z.log2 x.
Proof.
  intros Hx Hl. destruct (Z.log2_spec x Hx) as [Hlo Hhi].
  destruct (Z.eq_dec x (2 ^ Z.log2 x)) as [|Hne]; [done|exfalso].
  assert (Hb : Z.testbit (Z.land x (x - 1)) (Z.log2 x) = true); [|rewrite Hl in Hb; by rewrite Z.bits_0 in Hb].
  rewrite Z.land_spec, Z.bit_log2 by done. cbn [andb].
  assert (Hlog : Z.log2 (x - 1) = Z.log2 x) by (apply Z.log2_unique; [apply Z.log2_nonneg|lia]).
  rewrite <- Hlog at 1. apply Z.bit_log2. pose proof (Z.pow_pos_nonneg 2 (Z.log2 x)). pose proof (Z.log2_nonneg x). lia.
Qed.

Lemma land_not64 y m : 0 <= y < 2 ^ 64 → Z.land y (not64 m) = Z.ldiff y m.
Proof.
  intros Hy. apply Z.bits_inj'. intros i Hi. unfold not64, UINT64_MAX.
  rewrite Z.land_spec, Z.ldiff_spec, Z.lxor_spec. replace (2 ^ 64 - 1) with (Z.ones 64) by reflexivity.
  destruct (Z.lt_ge_cases i 64) as [Hlt|Hge].
  - rewrite Z.ones_spec_low by lia. by destruct (Z.testbit y i), (Z.testbit m i).
  - destruct (Z.eq_dec y 0) as [->|Hne]; [by rewrite Z.bits_0|].
    rewrite (Z.bits_above_log2 y i); [done|lia|]. assert (Z.log2 y < 64) by (apply Z.log2_lt_pow2; lia). lia.
Qed.

(** [align_down x al] is the multiple of [al] at or below [x]. *)
Definition align_down (x al : Z) : Z := x / al * al.

Lemma land_align_down y k : 0 <= y < 2 ^ 64 → 0 <= k → Z.land y (not64 (2 ^ k - 1)) = align_down y (2 ^ k).
Proof.
  intros Hy Hk. rewrite land_not64 by done. replace (2 ^ k - 1) with (Z.ones k) by (rewrite Z.ones_equiv; lia).
  rewrite Z.ldiff_ones_r by lia. by rewrite Z.shiftl_mul_pow2, Z.shiftr_div_pow2 by lia.
Qed.

Lemma align_down_bounds x al : 0 < al → x - al < align_down x al <= x ∧ (al | align_down x al).
Proof.
  intros. unfold align_down. pose proof (Z.div_mod x al). pose proof (Z.mod_pos_bound x al).
  split; [nia|]. apply Z.divide_factor_r.
Qed.

(** An alignment the code accepts: a power of two of the machine. *)
Definition alignment_ok (al : Z) : Prop := 0 < al < 2 ^ 64 ∧ al = 2 ^ Z.log2 al.

Lemma land_alignment y al : 0 <= y < 2 ^ 64 → alignment_ok al → Z.land y (not64 (al - 1)) = align_down y al.
Proof. intros Hy [_ Hp]. rewrite Hp. apply land_align_down; [done|apply Z.log2_nonneg]. Qed.

Lemma align_size_spec size al : alignment_ok al → 0 <= size → size + al - 1 < 2 ^ 64 →
  size <= align_size size al < size + al ∧ (al | align_size size al).
Proof.
  intros Hok Hs Hlt. pose proof Hok as [Hal _]. unfold align_size.
  assert (H1 : u64 (u64 (size + al) - 1) = size + al - 1).
  { unfold u64. rewrite Zminus_mod_idemp_l. apply Z.mod_small. lia. }
  assert (H2 : u64 (al - 1) = al - 1) by (apply u64_id; unfold is_u64; lia).
  rewrite H1, H2, land_alignment by (done || lia). destruct (align_down_bounds (size + al - 1) al) as [Hd Hdiv]; [lia|]. split; [lia|done].
Qed.

(** A block inside the address space; the end of a C object is a valid pointer. *)
Record block_ok (b : block) : Prop := {
  block_memory : 0 < memory b;
  block_end : memory b + size b < 2 ^ 64;
  block_used : 0 <= used b <= size b
}.

Lemma align_block_offset_spec b u al : block_ok b → 0 <= u <= size b → alignment_ok al →
  size b < align_block_offset b u al ∨
  (u <= align_block_offset b u al < u + al ∧ (al | memory b + align_block_offset b u al)).
Proof.
  intros Hb Hu Hok. pose proof Hok as [Hal _]. destruct Hb as [Hm He _]. unfold align_block_offset.
  assert (Hraw : u64 (memory b + u) = memory b + u) by (apply u64_id; unfold is_u64; lia).
  assert (H2 : u64 (al - 1) = al - 1) by (apply u64_id; unfold is_u64; lia).
  assert (H1 : u64 (u64 (u64 (memory b + u) + al) - 1) = u64 (memory b + u + al - 1)).
  { rewrite Hraw. unfold u64. by rewrite Zminus_mod_idemp_l. }
  rewrite H1, H2. pose proof (u64_range (memory b + u + al - 1)) as Hr. unfold is_u64 in Hr.
  rewrite land_alignment by done.
  destruct (Z.lt_ge_cases (memory b + u + al - 1) (2 ^ 64)) as [Hlt|Hge].
  - right. rewrite (u64_id (memory b + u + al - 1)) by (unfold is_u64; lia).
    destruct (align_down_bounds (memory b + u + al - 1) al) as [Hd Hdiv]; [lia|].
    rewrite u64_id by (unfold is_u64; lia). split; [lia|].
    replace (memory b + (align_down (memory b + u + al - 1) al - memory b)) with (align_down (memory b + u + al - 1) al) by lia.
    done.
  - left. assert (Hw : u64 (memory b + u + al - 1) = memory b + u + al - 1 - 2 ^ 64).
    { unfold u64. symmetry. apply (Z.mod_unique _ _ 1); lia. }
    rewrite Hw. unfold align_down. rewrite Z.div_small by lia. rewrite Z.mul_0_l, Z.sub_0_l.
    assert (Hn : u64 (- memory b) = 2 ^ 64 - memory b) by (unfold u64; symmetry; apply (Z.mod_unique _ _ (-1)); lia).
    rewrite Hn. lia.
Qed.

Lemma rounded_request_spec size al as' al' : 0 < size < 2 ^ 64 → 0 <= al < 2 ^ 64 →
  rounded_request size al = Some (as', al') →
  alignment_ok al' ∧ (al ≠ 0 → al' = al) ∧ (al = 0 → al' = DEFAULT_ALIGNMENT) ∧ size <= as' ∧ (al' | as') ∧ as' + al' - 1 < 2 ^ 64.
Proof.
  intros Hs Hal. unfold rounded_request. set (a := if al =? 0 then DEFAULT_ALIGNMENT else al).
  assert (Ha : 0 < a < 2 ^ 64) by (subst a; unfold DEFAULT_ALIGNMENT; destruct (Z.eqb_spec al 0); lia).
  destruct (Z.eqb_spec (Z.land a (u64 (a - 1))) 0) as [Hl|]; cbn [negb]; [|done].
  rewrite (u64_id (a - 1)) in Hl by (unfold is_u64; lia).
  assert (Hok : alignment_ok a) by (split; [done|]; apply pow2_of_land; lia).
  unfold SIZE_MAX, UINT64_MAX. destruct (Z.ltb_spec (2 ^ 64 - 1 - (a - 1)) size) as [|Hsz]; [done|].
  destruct (align_size_spec size a Hok) as [Hb Hd]; [lia|lia|].
  destruct (Z.ltb_spec (2 ^ 64 - 1 - (a - 1)) (align_size size a)) as [|Hsz']; [done|].
  intros [= <- <-]. split; [done|].
  subst a. unfold DEFAULT_ALIGNMENT in *. destruct (Z.eqb_spec al 0); repeat split; try done; try lia.
Qed.

(** A block with room for the padding holds its first aligned offset. *)
Lemma align_new_block_bound b al : block_ok b → alignment_ok al → al - 1 <= size b → align_block_offset b 0 al <= size b.
Proof.
  intros Hb Hok Hsz. pose proof Hok as [Hal _]. pose proof Hb as [Hm He _]. unfold align_block_offset.
  rewrite Z.add_0_r, (u64_id (memory b)), (u64_id (al - 1)) by (unfold is_u64; lia).
  assert (H1 : u64 (u64 (memory b + al) - 1) = memory b + al - 1).
  { unfold u64. rewrite Zminus_mod_idemp_l. apply Z.mod_small. lia. }
  rewrite H1, land_alignment by (done || lia). destruct (align_down_bounds (memory b + al - 1) al) as [Hd _]; [lia|].
  rewrite u64_id by (unfold is_u64; lia). lia.
Qed.

(** * Live allocations and the invariant of an arena

    The ghost state records, for every scope mark, the chain as it was when the
    mark was pushed and the allocations made since.  The invariant says that
    rewinding to a mark gives back that chain, and that every live allocation lies
    in the bytes its scope owns. *)

(** ** Address sets *)

Definition addresses := Z → Prop.
Definition inside (c : list block) : addresses := λ x, ∃ b, b ∈ c ∧ memory b <= x < memory b + used b.
Definition owned (c : list block) : addresses := λ x, ∃ b, b ∈ c ∧ memory b <= x < memory b + size b.

Record alloc := Alloc { a_ptr : Z; a_len : Z }.
Definition extent (x : alloc) : addresses := λ z, a_ptr x <= z < a_ptr x + a_len x.
Definition within (S : addresses) (x : alloc) : Prop := ∀ z, extent x z → S z.
Definition apart (x y : alloc) : Prop := ∀ z, extent x z → ¬ extent y z.

Fixpoint pairwise {A} (R : A → A → Prop) (l : list A) : Prop :=
  match l with [] => True | x :: l => Forall (R x) l ∧ pairwise R l end.

Lemma pairwise_app {A} (R : A → A → Prop) l1 l2 :
  pairwise R l1 → pairwise R l2 → (∀ x y, x ∈ l1 → y ∈ l2 → R x y) → pairwise R (l1 ++ l2).
Proof.
  induction l1 as [|x l1 IH]; cbn [pairwise app]; intros H1 H2 H; [done|]. destruct H1 as [Hx H1]. split.
  - apply Forall_app. split; [done|]. apply Forall_forall. intros y Hy. apply H; [left|done].
  - apply IH; [done|done|]. intros y z Hy Hz. apply H; [by right|done].
Qed.

Lemma pairwise_app_inv {A} (R : A → A → Prop) l1 l2 :
  pairwise R (l1 ++ l2) → pairwise R l1 ∧ pairwise R l2 ∧ ∀ x y, x ∈ l1 → y ∈ l2 → R x y.
Proof.
  induction l1 as [|x l1 IH]; cbn [pairwise app].
  { intros H. split; [done|]. split; [done|]. by intros ? ? ?%elem_of_nil. }
  intros [Hx H]. destruct (IH H) as (H1 & H2 & H12). apply Forall_app in Hx as [Hx1 Hx2].
  split; [done|]. split; [done|]. intros y z [->|Hy]%elem_of_cons Hz; [|by apply H12].
  rewrite Forall_forall in Hx2. by apply Hx2.
Qed.

Lemma apart_sym x y : apart x y → apart y x.
Proof. intros H z Hy Hx. by apply (H z). Qed.

Lemma within_apart S x y : within S x → (∀ z, S z → ¬ extent y z) → apart x y.
Proof. intros Hx Hy z Hz. apply Hy. by apply Hx. Qed.

(** ** Blocks in the address space *)

(** Different structures, and memory that does not overlap. *)
Definition blocks_apart (b c : block) : Prop :=
  addr b ≠ addr c ∧ (memory b + size b <= memory c ∨ memory c + size c <= memory b).

Record blocks_ok (l : list block) : Prop := {
  blocks_each : Forall block_ok l;
  blocks_pairwise : pairwise blocks_apart l
}.

Lemma blocks_apart_sym b c : blocks_apart b c → blocks_apart c b.
Proof. unfold blocks_apart. intuition congruence || tauto. Qed.

Lemma blocks_ok_cons b l : blocks_ok (b :: l) ↔ block_ok b ∧ Forall (blocks_apart b) l ∧ blocks_ok l.
Proof.
  split.
  - intros [[Hb Hl]%Forall_cons [Hp Hq]]. by split_and!.
  - intros (Hb & Hp & [Hl Hq]). split; [by apply Forall_cons|by split].
Qed.

Lemma blocks_ok_app l1 l2 : blocks_ok (l1 ++ l2) ↔
  blocks_ok l1 ∧ blocks_ok l2 ∧ ∀ b c, b ∈ l1 → c ∈ l2 → blocks_apart b c.
Proof.
  split.
  - intros [[H1 H2]%Forall_app Hp]. apply pairwise_app_inv in Hp as (P1 & P2 & P12). by split_and!.
  - intros ([H1 P1] & [H2 P2] & P12). split; [by apply Forall_app|by apply pairwise_app].
Qed.

(** Rewinding or bumping a block keeps what the invariant asks of it. *)
Lemma blocks_ok_used b u l : 0 <= u <= size b → blocks_ok (b :: l) → blocks_ok (set_used b u :: l).
Proof. rewrite !blocks_ok_cons. intros Hu ([Hm He Hus] & Hp & Hl). split_and!; [by split|done|done]. Qed.

Lemma inside_owned c x : Forall block_ok c → inside c x → owned c x.
Proof.
  rewrite Forall_forall. intros Hc (b & Hb & Hx). destruct (Hc b Hb). exists b. split; [done|lia].
Qed.

Lemma inside_cons b c x : inside (b :: c) x ↔ memory b <= x < memory b + used b ∨ inside c x.
Proof. unfold inside. setoid_rewrite elem_of_cons. naive_solver. Qed.

Lemma inside_nil x : ¬ inside [] x.
Proof. by intros (b & ?%elem_of_nil & _). Qed.

Lemma inside_app c1 c2 x : inside (c1 ++ c2) x ↔ inside c1 x ∨ inside c2 x.
Proof. unfold inside. setoid_rewrite elem_of_app. naive_solver. Qed.

Lemma owned_cons b c x : owned (b :: c) x ↔ memory b <= x < memory b + size b ∨ owned c x.
Proof. unfold owned. setoid_rewrite elem_of_cons. naive_solver. Qed.

Lemma owned_apart b l x : Forall (blocks_apart b) l → owned l x → ¬ memory b <= x < memory b + size b.
Proof. rewrite Forall_forall. intros H (c & Hc & Hx). destruct (H c Hc) as [_ ?]. lia. Qed.

(** ** The ghost state *)

Record frame := Frame { saved : list block; fresh : list alloc }.
Record ghost := Ghost { frames : list frame; base : list alloc; promoted : list alloc }.

Definition live (g : ghost) : list alloc := concat (map fresh (frames g)) ++ base g ++ promoted g.

Definition since (c c0 : list block) : addresses := λ x, inside c x ∧ ¬ inside c0 x.

(** The chain, the marks and the frames, innermost first. *)
Inductive frames_ok : list block → list scope → list frame → list alloc → Prop :=
| frames_base c l : Forall (within (inside c)) l → pairwise apart l → frames_ok c [] [] l
| frames_mark c s ss f fs l young b old :
    c = young ++ b :: old → addr b = sblock s → 0 <= sused s <= used b →
    saved f = set_used b (sused s) :: old →
    Forall (within (since c (saved f))) (fresh f) → pairwise apart (fresh f) →
    frames_ok (saved f) ss fs l → frames_ok c (s :: ss) (f :: fs) l.

Record arena_ok (a : arena) (g : ghost) : Prop := {
  ok_blocks : blocks_ok (chain a ++ adopted_blocks a);
  ok_chain : chain a ≠ [];
  ok_frames : frames_ok (chain a) (scopes a) (frames g) (base g);
  ok_promoted : Forall (within (inside (adopted_blocks a))) (promoted g);
  ok_promoted_apart : pairwise apart (promoted g);
  ok_total : total_allocated a = u64 (sizes (chain a ++ adopted_blocks a));
  ok_default : 0 < default_block_size a < 2 ^ 64
}.

(** ** Rewound chains *)

Section rewind.
Context (young old : list block) (b : block) (s : scope).
Context (Hok : blocks_ok (young ++ b :: old)) (Hs : addr b = sblock s) (Hu : 0 <= sused s <= used b).

Lemma rewind_blocks_ok : blocks_ok (set_used b (sused s) :: old).
Proof.
  apply blocks_ok_app in Hok as (_ & Hb & _). apply blocks_ok_used; [|done].
  apply blocks_ok_cons in Hb as ([] & _). lia.
Qed.

Lemma rewind_inside x : inside (set_used b (sused s) :: old) x → inside (young ++ b :: old) x.
Proof. rewrite inside_app, !inside_cons. cbn [memory used set_used]. intros [?|?]; [right; left; lia|by right; right]. Qed.

Lemma split_at_mark : split_at (sblock s) (young ++ b :: old) = (young, b :: old).
Proof.
  clear Hu. rewrite <- Hs. clear Hs. induction young as [|y young' IH]; cbn [app split_at].
  - by rewrite Z.eqb_refl.
  - cbn [app] in Hok. apply blocks_ok_cons in Hok as (_ & Hp & Hl). rewrite IH by done.
    apply Forall_app in Hp as [_ Hp]. apply Forall_cons in Hp as [[Hne _] _].
    by rewrite (proj2 (Z.eqb_neq (addr y) (addr b))).
Qed.

(** The test of [arena_top_scope_contains] is membership in the span since the mark. *)
Lemma span_contains_spec x :
  span_contains s (young ++ b :: old) x = true ↔ since (young ++ b :: old) (set_used b (sused s) :: old) x.
Proof.
  unfold since. rewrite !inside_app, !inside_cons. cbn [memory used set_used].
  induction young as [|y young' IH]; cbn [app span_contains].
  - rewrite (proj2 (Z.eqb_eq (addr b) (sblock s)) Hs). unfold in_block. rewrite andb_true_iff, Z.leb_le, Z.ltb_lt.
    cbn [app] in Hok. apply blocks_ok_cons in Hok as (Hb & Hp & [Hold _]).
    split; [|intros [[Hnil|[?|?]] Hn]; [by apply inside_nil in Hnil|lia|tauto]].
    intros Hx. split; [right; left; lia|]. intros [?|Hin]; [lia|].
    apply (owned_apart b old x Hp); [by apply inside_owned|]. destruct Hb. lia.
  - cbn [app] in Hok. apply blocks_ok_cons in Hok as (Hy & Hp & Hl). specialize (IH Hl).
    pose proof Hp as Hp'. apply Forall_app in Hp as [_ [[Hne Hap] Hold]%Forall_cons].
    rewrite (proj2 (Z.eqb_neq (addr y) (sblock s))) by congruence.
    rewrite inside_cons. destruct (in_block y 0 x) eqn:Hin; unfold in_block in Hin.
    + split; [intros _|done]. apply andb_true_iff in Hin as [Hlo%Z.leb_le Hhi%Z.ltb_lt]. rewrite Z.add_0_r in Hlo.
      split; [left; left; lia|]. destruct Hy as [_ _ Hyu].
      apply blocks_ok_app in Hl as (_ & Hbo & _). apply blocks_ok_cons in Hbo as ([_ _ Hbu] & _ & [Hold' _]).
      intros [?|Ho]; [lia|]. apply (owned_apart y old x Hold); [by apply inside_owned|lia].
    + rewrite IH. apply andb_false_iff in Hin. rewrite Z.leb_gt, Z.ltb_ge, Z.add_0_r in Hin.
      split; [tauto|]. intros [[[?|?]|?] ?]; [lia|tauto|tauto].
Qed.
End rewind.

(** * What each arena operation does to the live allocations *)

(** ** Ghost updates *)

Definition add_live (x : alloc) (g : ghost) : ghost :=
  match frames g with
  | [] => Ghost [] (x :: base g) (promoted g)
  | f :: fs => Ghost (Frame (saved f) (x :: fresh f) :: fs) (base g) (promoted g)
  end.
Definition push_frame (c : list block) (g : ghost) : ghost := Ghost (Frame c [] :: frames g) (base g) (promoted g).
Definition pop_frame (g : ghost) : ghost := Ghost (tail (frames g)) (base g) (promoted g).
Definition merge_frame (g : ghost) : ghost :=
  match frames g with
  | [] => g
  | [f] => Ghost [] (fresh f ++ base g) (promoted g)
  | f :: f' :: fs => Ghost (Frame (saved f') (fresh f ++ fresh f') :: fs) (base g) (promoted g)
  end.
Definition promote (gs g : ghost) : ghost := Ghost (frames g) (base g) (live gs ++ promoted g).

(** ** Frames under growth, push and commit *)

Lemma within_mono (S T : addresses) x : (∀ z, S z → T z) → within S x → within T x.
Proof. intros H Hx z Hz. by apply H, Hx. Qed.

Lemma Forall_within_mono (S T : addresses) l : (∀ z, S z → T z) → Forall (within S) l → Forall (within T) l.
Proof. intros H Hl. eapply Forall_impl; [exact Hl|]. intros x. by apply within_mono. Qed.

Lemma frames_live c ss fs l : frames_ok c ss fs l → blocks_ok c →
  Forall (within (inside c)) (concat (map fresh fs) ++ l) ∧ pairwise apart (concat (map fresh fs) ++ l).
Proof.
  induction 1 as [c l Hl Hp|c s ss f fs l young b old -> Hs Hu Hf Hin Hp H IH]; intros Hok; [done|].
  rewrite Hf in *. destruct (IH (rewind_blocks_ok young old b s Hok Hu)) as [IH1 IH2]. cbn [map concat].
  rewrite <- app_assoc. split.
  - apply Forall_app. split.
    + eapply Forall_within_mono; [|exact Hin]. by intros z [? _].
    + eapply Forall_within_mono; [|exact IH1]. intros z. apply (rewind_inside young old b s Hu).
  - apply pairwise_app; [done|done|]. intros x y Hx Hy. rewrite Forall_forall in Hin, IH1.
    eapply within_apart; [by apply Hin|]. intros z [_ Hn] Hz. apply Hn. by apply (IH1 y Hy).
Qed.

(** The chains an allocation can lead to. *)
Inductive grows : list block → list block → Prop :=
| grow_used b u rest : used b <= u → grows (b :: rest) (set_used b u :: rest)
| grow_new nb c : grows c (nb :: c).

Lemma grows_inside c c' x : grows c c' → inside c x → inside c' x.
Proof.
  intros [b u rest Hu|nb c0]; rewrite !inside_cons; cbn [memory used set_used]; [|tauto]. intros [?|?]; [left; lia|tauto].
Qed.

Lemma frames_grow c c' ss fs l : grows c c' → frames_ok c ss fs l → frames_ok c' ss fs l.
Proof.
  intros Hg H. destruct H as [c l Hl Hp|c s ss f fs l young b old -> Hs Hu Hf Hin Hp H].
  - apply frames_base; [|done]. eapply Forall_within_mono; [|exact Hl]. intros z. by apply grows_inside.
  - assert (Hin' : Forall (within (since c' (saved f))) (fresh f)).
    { eapply Forall_within_mono; [|exact Hin]. intros z [? ?]. split; [by eapply grows_inside|done]. }
    inversion Hg as [b0 u rest Hle Heq|nb c0]; subst.
    + destruct young as [|y young]; injection Heq as -> ->.
      * eapply (frames_mark _ _ _ _ _ _ [] (set_used b u) old); try done. cbn [used set_used]. lia.
      * by eapply (frames_mark _ _ _ _ _ _ (set_used y u :: young) b old).
    + by eapply (frames_mark _ _ _ _ _ _ (nb :: young) b old).
Qed.

Lemma frames_add c c' ss x g : grows c c' → within (since c' c) x → blocks_ok c →
  frames_ok c ss (frames g) (base g) → frames_ok c' ss (frames (add_live x g)) (base (add_live x g)).
Proof.
  intros Hg Hx Hok H. apply (frames_grow c c') in H as H'; [|done]. destruct g as [fs l pr]. cbn [frames base] in *.
  destruct H as [c l Hl Hp|c s ss f fs l young b old Hc Hs Hu Hf Hin Hp H]; cbn [add_live frames base].
  - inversion H' as [? ? Hl' Hp'|]; subst. apply frames_base; [apply Forall_cons; split; [|done]|split; [|done]].
    + eapply within_mono; [|exact Hx]. by intros z [? _].
    + eapply Forall_impl; [exact Hl|]. intros y Hy. eapply within_apart; [exact Hx|]. intros z [_ Hn] Hz. apply Hn. by apply Hy.
  - inversion H' as [|? ? ? ? ? ? young' b' old' Hc' Hs' Hu' Hf' Hin' Hp' H0]; subst c'.
    eapply (frames_mark _ _ _ _ _ _ young' b' old'); try done; cbn [saved fresh].
    + apply Forall_cons. split; [|done]. eapply within_mono; [|exact Hx]. intros z [? Hn]. split; [done|].
      intros Hz. apply Hn. rewrite Hc, Hf in *. by apply (rewind_inside young old b s Hu).
    + split; [|done]. eapply Forall_impl; [exact Hin|]. intros y Hy. eapply within_apart; [exact Hx|].
      intros z [_ Hn] Hz. apply Hn. by apply (Hy z Hz).
Qed.

Lemma frames_push b rest ss g : block_ok b → frames_ok (b :: rest) ss (frames g) (base g) →
  frames_ok (b :: rest) (Scope (addr b) (used b) :: ss) (frames (push_frame (b :: rest) g)) (base (push_frame (b :: rest) g)).
Proof.
  intros [_ _ Hu] H. cbn [push_frame frames base].
  eapply (frames_mark _ _ _ _ _ _ [] b rest); cbn [sblock sused saved fresh]; try done; [lia|by destruct b].
Qed.

Lemma frames_merge c s ss g : frames_ok c (s :: ss) (frames g) (base g) → 
  frames_ok c ss (frames (merge_frame g)) (base (merge_frame g)).
Proof.
  destruct g as [fs0 l0 pr]. cbn [frames base]. intros H.
  inversion H as [|? ? ? f fs l young b old Hc Hs Hu Hf Hin Hp Hrest]; subst c fs0 ss s l0.
  assert (Hsub : ∀ z, inside (saved f) z → inside (young ++ b :: old) z) by (intros z; rewrite Hf; by apply rewind_inside).
  assert (Hcross : ∀ (ys : list alloc), Forall (within (inside (saved f))) ys → ∀ x y, x ∈ fresh f → y ∈ ys → apart x y).
  { intros ys Hys x y Hx Hy. rewrite Forall_forall in Hin, Hys. eapply within_apart; [by apply Hin|].
    intros z [_ Hn] Hz. apply Hn. by apply (Hys y Hy). }
  inversion Hrest as [c1 l1 Hl Hpl|c1 s2 ss2 f2 fs2 l2 young1 b1 old1 Hc1 Hs2 Hu2 Hf2 Hin2 Hp2 Hrest2]; subst; cbn [merge_frame frames base].
  - apply frames_base.
    + apply Forall_app. split; [eapply Forall_within_mono; [|exact Hin]; by intros z [? _]|].
      by eapply Forall_within_mono; [|exact Hl].
    + apply pairwise_app; [done|done|]. by apply Hcross.
  - assert (Hsub2 : ∀ z, inside (saved f2) z → inside (saved f) z) by (intros z; rewrite Hc1, Hf2; by apply rewind_inside).
    assert (Hfresh : Forall (within (since (young ++ b :: old) (saved f2))) (fresh f ++ fresh f2)).
    { apply Forall_app. split.
      - eapply Forall_within_mono; [|exact Hin]. intros z [? Hn]. split; [done|]. intros ?. by apply Hn, Hsub2.
      - eapply Forall_within_mono; [|exact Hin2]. intros z [? Hn]. split; [by apply Hsub|done]. }
    assert (Hpair : pairwise apart (fresh f ++ fresh f2)).
    { apply pairwise_app; [done|done|]. apply Hcross. eapply Forall_within_mono; [|exact Hin2]. by intros z [? _]. }
    rewrite Hf in Hc1. destruct young1 as [|y1 young1]; injection Hc1 as Hb1 Ho1.
    + subst b1 old1. cbn [used addr set_used] in *. eapply (frames_mark _ _ _ _ _ _ young b old); try done. lia.
    + subst old. eapply (frames_mark _ _ _ _ _ _ (young ++ b :: young1) b1 old1); try done. by rewrite <- app_assoc.
Qed.
