(* ===== verification/ArenaOps.v ===== *)
(** * ArenaOps: the operations of an arena keep its invariant *)

From S2P Require Export ArenaSpec.
Local Open Scope Z_scope.

(** * The arena operations keep the invariant

    For each operation: it returns (or the heap ceiling ends the process), the
    invariant holds of what it leaves, and the bytes of live allocations are
    untouched. *)

(** ** Calls *)

(** [m] returns a value satisfying [Q] and a process satisfying [R] of the one it
    started from, or ends the process; it never follows a null pointer. *)
Definition returns {A} (R : process → process → Prop) (Q : A → Prop) (m : call A) : Prop :=
  ∀ p, match m p with Done a p' => Q a ∧ R p p' | Exit _ => True | Crash => False end.

Definition same_bytes (p p' : process) : Prop := bytes p' = bytes p.
(** Bytes change only inside [S]. *)
Definition writes (S : addresses) (p p' : process) : Prop := ∀ z, ¬ S z → bytes p' z = bytes p z.

#[export] Instance same_bytes_trans : Transitive same_bytes.
Proof. intros p q r. unfold same_bytes. congruence. Qed.
#[export] Instance writes_trans S : Transitive (writes S).
Proof. intros p q r H1 H2 z Hz. rewrite H2, H1 by done. done. Qed.

Lemma same_writes S p p' : same_bytes p p' → writes S p p'.
Proof. intros H z _. by rewrite H. Qed.

Lemma returns_ret {A} R (Q : A → Prop) a : (∀ p, R p p) → Q a → returns R Q (mret a).
Proof. intros HR HQ p. by split. Qed.

Lemma returns_bind {A C} R `{!Transitive R} (P : A → Prop) (Q : C → Prop) m (f : A → call C) :
  returns R P m → (∀ a, P a → returns R Q (f a)) → returns R Q (m ≫= f).
Proof.
  intros Hm Hf p. unfold mbind, call_bind. specialize (Hm p). destruct (m p) as [a p'|p'|]; [|done..].
  destruct Hm as [Ha Hp]. specialize (Hf a Ha p'). destruct (f a p') as [c p''|p''|]; [|done..].
  destruct Hf as [? ?]. split; [done|]. by transitivity p'.
Qed.

Lemma returns_impl {A} (R R' : process → process → Prop) (P Q : A → Prop) m :
  (∀ p p', R p p' → R' p p') → (∀ a, P a → Q a) → returns R P m → returns R' Q m.
Proof. intros HR HQ Hm p. specialize (Hm p). destruct (m p); [|done..]. destruct Hm; split; auto. Qed.

Lemma same_refl p : same_bytes p p.
Proof. done. Qed.
Lemma writes_refl S p : writes S p p.
Proof. done. Qed.

Section ops.
Context (L : limits) (poison : bool).

Lemma returns_track n : returns same_bytes (λ _, True) (eshkol_track_allocation L n).
Proof.
  intros p. unfold eshkol_track_allocation, over_limit, soft_limit_check.
  repeat case_match; simplify_eq; cbn; repeat case_match; done.
Qed.

Lemma returns_dealloc n : returns same_bytes (λ _, True) (eshkol_track_deallocation n).
Proof. intros p. unfold eshkol_track_deallocation. by destruct (n =? 0). Qed.

Lemma returns_enforce e : returns same_bytes (λ _, True) (eshkol_limit_enforce L e).
Proof. intros p. unfold eshkol_limit_enforce. by destruct (negb _). Qed.

Lemma returns_memset base c n : returns (writes (λ z, base <= z < base + n)) (λ _, True) (memset base c n).
Proof.
  intros p. cbn. split; [done|]. intros z Hz. cbn [bytes set_bytes].
  destruct (Z.leb_spec base z), (Z.ltb_spec z (base + n)); cbn [andb]; try done. exfalso. apply Hz. lia.
Qed.

Definition block_answer (n : Z) (ans : answers) (ob : option block) : Prop :=
  match ob with
  | Some b => ∃ i m, ans = Answers (Some i) (Some m) ∧ b = Block i m n 0
  | None => ans_struct ans = None ∨ ans_memory ans = None
  end.

Lemma returns_create n ans : returns same_bytes (block_answer n ans) (create_arena_block L n ans).
Proof.
  unfold create_arena_block. eapply returns_bind; [tc_solve|apply returns_track|]. intros ok _.
  eapply (returns_bind _ (λ _, True)).
  { destruct (negb ok && eshkol_limit_is_active L); [apply returns_enforce|by apply returns_ret]. }
  intros _ _. destruct ans as [[i|] [m|]]; cbn [ans_struct ans_memory].
  - apply returns_ret; [done|]. by exists i, m.
  - eapply returns_bind; [tc_solve|apply returns_dealloc|]. intros _ _. apply returns_ret; [done|by right].
  - eapply returns_bind; [tc_solve|apply returns_dealloc|]. intros _ _. apply returns_ret; [done|by left].
  - eapply returns_bind; [tc_solve|apply returns_dealloc|]. intros _ _. apply returns_ret; [done|by left].
Qed.

Lemma returns_free l : returns same_bytes (λ _, True) (free_blocks l).
Proof.
  induction l as [|b l IH]; cbn [free_blocks]; [by apply returns_ret|].
  eapply returns_bind; [tc_solve|apply returns_dealloc|]. done.
Qed.

Lemma returns_poison_blocks l : returns (writes (inside l)) (λ _, True) (poison_blocks l).
Proof.
  induction l as [|b l IH]; cbn [poison_blocks]; [by apply returns_ret|].
  eapply returns_bind; [tc_solve| |].
  - eapply returns_impl; [| |apply returns_memset]; [|done].
    intros p p' H z Hz. apply H. intros ?. apply Hz. apply inside_cons. by left.
  - intros _ _. eapply returns_impl; [| |exact IH]; [|done].
    intros p p' H z Hz. apply H. intros ?. apply Hz. apply inside_cons. by right.
Qed.

(** Popping a scope poisons nothing that was there when it was pushed. *)
Lemma returns_poison_scope s young b old : blocks_ok (young ++ b :: old) → addr b = sblock s → 0 <= sused s <= used b →
  returns (writes (since (young ++ b :: old) (set_used b (sused s) :: old))) (λ _, True) (poison_scope s (young ++ b :: old)).
Proof.
  intros Hok Hs Hu. unfold poison_scope. rewrite (split_at_mark young old b s Hok Hs). cbn [fst].
  assert (Hspan : ∀ z, since (young ++ b :: old) (set_used b (sused s) :: old) z ↔ span_contains s (young ++ b :: old) z = true).
  { intros z. symmetry. by apply span_contains_spec. }
  eapply returns_bind; [tc_solve| |].
  - destruct young as [|y young']; cbn [app].
    + rewrite (proj2 (Z.eqb_eq (addr b) (sblock s)) Hs). eapply returns_impl; [| |apply returns_memset]; [|done].
      intros p p' H z Hz. apply H. intros Hr. apply Hz. apply Hspan. cbn [app span_contains].
      rewrite (proj2 (Z.eqb_eq (addr b) (sblock s)) Hs). unfold in_block.
      destruct (Z.ltb_spec (sused s) (used b)); [|lia]. apply andb_true_iff. rewrite Z.leb_le, Z.ltb_lt. lia.
    + cbn [app] in Hok. apply blocks_ok_cons in Hok as (_ & Hp & _). apply Forall_app in Hp as [_ [[Hne _] _]%Forall_cons].
      rewrite (proj2 (Z.eqb_neq (addr y) (sblock s))) by congruence. by apply returns_ret.
  - intros _ _. eapply returns_impl; [| |apply returns_poison_blocks]; [|done].
    intros p p' H z Hz. apply H. intros Hi. apply Hz. split; [apply inside_app; by left|].
    rewrite inside_cons. cbn [memory used set_used]. apply blocks_ok_app in Hok as (Hy & Hb & Hyb).
    apply blocks_ok_cons in Hb as ([_ _ Hbu] & _ & [Hold _]).
    destruct Hi as (y & Hyin & Hzy). destruct Hy as [Hy _]. rewrite Forall_forall in Hy. destruct (Hy y Hyin) as [_ _ Hyu].
    intros [?|(c & Hc & Hzc)].
    + destruct (Hyb y b Hyin ltac:(left)) as [_ ?]. lia.
    + destruct (Hyb y c Hyin ltac:(by right)) as [_ ?]. rewrite Forall_forall in Hold. destruct (Hold c Hc). lia.
Qed.

(** ** Allocation *)

(** What the C library promises of the memory it returns: it is in the address
    space and apart from what the arena already holds. *)
Definition malloc_ok (a : arena) (ans : answers) (n : Z) : Prop :=
  ∀ i m, ans = Answers (Some i) (Some m) →
    block_ok (Block i m n 0) ∧ Forall (blocks_apart (Block i m n 0)) (chain a ++ adopted_blocks a).

Definition answers_ok (a : arena) (ans : answers) (size al : Z) : Prop :=
  ∀ as' al', rounded_request size al = Some (as', al') → malloc_ok a ans (new_block_size a as' al').

Definition aligned (al ptr : Z) : Prop := ((if Z.eqb al 0 then DEFAULT_ALIGNMENT else al) | ptr).

(** The rounded request does not fit in the newest block. *)
Definition full (a : arena) (as' al' : Z) : Prop :=
  ∃ b rest, chain a = b :: rest ∧
    (Arena.size b < align_block_offset b (used b) al' ∨ Arena.size b - align_block_offset b (used b) al' < as').

(** Why a request is refused. *)
Definition refused (a : arena) (size al : Z) (ans : answers) : Prop :=
  size = 0 ∨ rounded_request size al = None ∨
  ∃ as' al', rounded_request size al = Some (as', al') ∧ full a as' al' ∧
    (bounded a = true ∨ SIZE_MAX - total_allocated a < new_block_size a as' al' ∨ ans_struct ans = None ∨ ans_memory ans = None).

(** The outcome of a request: refused, with the arena unchanged, or a new live allocation. *)
Definition allocated (a : arena) (g : ghost) (size al : Z) (ans : answers) (r : option Z * arena) : Prop :=
  match r.1 with
  | None => r.2 = a ∧ refused a size al ans
  | Some ptr => arena_ok r.2 (add_live (Alloc ptr size) g) ∧ 0 < ptr ∧ aligned al ptr ∧
                within (since (chain r.2) (chain a)) (Alloc ptr size) ∧ adopted_blocks r.2 = adopted_blocks a ∧
                scopes r.2 = scopes a
  end.

Lemma sizes_app l1 l2 : sizes (l1 ++ l2) = sizes l1 + sizes l2.
Proof. unfold sizes. induction l1 as [|b l1 IH]; cbn [app foldr]; [lia|]. rewrite IH. lia. Qed.

Lemma add_live_promoted x g : promoted (add_live x g) = promoted g.
Proof. unfold add_live. by destruct (frames g). Qed.

(** Bumping the newest block. *)
Lemma bump_ok a g b rest cu n size : arena_ok a g → chain a = b :: rest →
  used b <= cu → 0 < size <= n → cu + n <= Arena.size b →
  let a' := set_chain a (set_used b (cu + n) :: rest) (total_allocated a) in
  arena_ok a' (add_live (Alloc (memory b + cu) size) g) ∧
  within (since (chain a') (chain a)) (Alloc (memory b + cu) size).
Proof.
  intros [Hb Hc Hf Hp Hpa Ht Hd] Hch Hcu Hn Hfit a'. rewrite Hch in *.
  pose proof Hb as Hb0. cbn [app] in Hb0. apply blocks_ok_cons in Hb0 as ([Hm He Hu] & Hap & Hrest).
  assert (Hw : within (since (set_used b (cu + n) :: rest) (b :: rest)) (Alloc (memory b + cu) size)).
  { intros z Hz. unfold extent in Hz. cbn [a_ptr a_len] in Hz. split.
    - apply inside_cons. left. cbn [memory used set_used]. lia.
    - rewrite inside_cons. intros [?|Hi]; [lia|]. apply Forall_app in Hap as [Hap _].
      apply blocks_ok_app in Hrest as ([Hr _] & _). apply (owned_apart b rest z Hap); [by apply inside_owned|lia]. }
  split; [|done]. split; cbn [chain adopted_blocks scopes total_allocated default_block_size set_chain a'].
  - cbn [app]. apply blocks_ok_used; [lia|done].
  - done.
  - eapply frames_add; [by apply grow_used; lia|exact Hw| |exact Hf].
    cbn [app] in Hb. apply (blocks_ok_app (b :: rest)) in Hb. tauto.
  - by rewrite add_live_promoted.
  - by rewrite add_live_promoted.
  - rewrite Ht. done.
  - done.
Qed.

(** Starting a new block. *)
Lemma new_block_ok a g i m N cu n size : arena_ok a g → block_ok (Block i m N 0) →
  Forall (blocks_apart (Block i m N 0)) (chain a ++ adopted_blocks a) →
  0 <= cu → 0 < size <= n → cu + n <= N →
  let a' := set_chain a (Block i m N (cu + n) :: chain a) (u64 (total_allocated a + N)) in
  arena_ok a' (add_live (Alloc (m + cu) size) g) ∧ within (since (chain a') (chain a)) (Alloc (m + cu) size).
Proof.
  intros [Hb Hc Hf Hp Hpa Ht Hd] Hnb Hap Hcu Hn Hfit a'. pose proof Hnb as [Hm He _]. cbn [memory Arena.size] in Hm, He.
  assert (Hw : within (since (Block i m N (cu + n) :: chain a) (chain a)) (Alloc (m + cu) size)).
  { intros z Hz. unfold extent in Hz. cbn [a_ptr a_len] in Hz. split.
    - apply inside_cons. left. cbn [memory used]. lia.
    - intros Hi. apply Forall_app in Hap as [Hap _]. apply blocks_ok_app in Hb as ([Hr _] & _).
      apply (owned_apart (Block i m N 0) (chain a) z Hap); [by apply inside_owned|cbn [memory Arena.size]; lia]. }
  split; [|done]. split; cbn [chain adopted_blocks scopes total_allocated default_block_size set_chain a'].
  - cbn [app]. apply (blocks_ok_used (Block i m N 0) (cu + n)); [cbn [Arena.size]; lia|]. by apply blocks_ok_cons.
  - done.
  - eapply frames_add; [apply grow_new|exact Hw| |exact Hf]. by apply blocks_ok_app in Hb as (? & _).
  - by rewrite add_live_promoted.
  - by rewrite add_live_promoted.
  - rewrite Ht. cbn [app sizes foldr Arena.size]. unfold u64. rewrite Zplus_mod_idemp_l. f_equal. unfold sizes. lia.
  - done.
Qed.

Lemma allocate_spec size al ans a g : arena_ok a g → 0 <= size < 2 ^ 64 → 0 <= al < 2 ^ 64 → answers_ok a ans size al →
  returns same_bytes (allocated a g size al ans) (arena_allocate_aligned_impl L size al ans a).
Proof.
  intros Ha Hs Hal Hans. unfold arena_allocate_aligned_impl.
  destruct (Z.eqb_spec size 0) as [|Hne]; [apply returns_ret; [done|]; split; [done|by left]|].
  destruct (rounded_request size al) as [[as' al']|] eqn:Hr; [|apply returns_ret; [done|]; split; [done|by right; left]].
  pose proof (Hans _ _ Hr) as Hm. destruct (rounded_request_spec size al as' al' ltac:(lia) Hal Hr) as (Hok & H1 & H2 & Hle & Hdiv & Hov).
  assert (Haligned : ∀ ptr, (al' | ptr) → aligned al ptr).
  { intros ptr Hd. unfold aligned. destruct (Z.eqb_spec al 0) as [->|Hal0]; [by rewrite <- H2|by rewrite <- H1]. }
  pose proof Hok as [Hal' _]. destruct (chain a) as [|b rest] eqn:Hch; [by destruct (ok_chain a g Ha)|].
  pose proof (ok_blocks a g Ha) as Hb. rewrite Hch in Hb. cbn [app] in Hb. apply blocks_ok_cons in Hb as (Hb & _).
  pose proof Hb as [Hbm Hbe Hbu].
  pose proof (align_block_offset_spec b (used b) al' Hb Hbu Hok) as Hoff. set (cu := align_block_offset b (used b) al') in *.
  destruct ((Arena.size b <? cu) || (Arena.size b - cu <? as')) eqn:Hfull.
  - assert (Hrefuse : (bounded a = true ∨ SIZE_MAX - total_allocated a < new_block_size a as' al' ∨ ans_struct ans = None ∨ ans_memory ans = None) → refused a size al ans).
    { intros Hwhy. right; right. exists as', al'. split; [done|]. split; [|done]. exists b, rest. split; [done|].
      apply orb_true_iff in Hfull as [Hf%Z.ltb_lt|Hf%Z.ltb_lt]; tauto. }
    destruct (bounded a) eqn:Hbd; [apply returns_ret; [done|]; split; [done|]; tauto|].
    destruct (Z.ltb_spec (SIZE_MAX - total_allocated a) (new_block_size a as' al')); [apply returns_ret; [done|]; split; [done|]; tauto|].
    eapply returns_bind; [tc_solve|apply returns_create|]. intros [nb|] Hnb;
      [|apply returns_ret; [done|]; split; [done|]; apply Hrefuse; right; right; exact Hnb].
    destruct Hnb as (i & m & -> & ->). destruct (Hm i m eq_refl) as [Hnok Hap]. apply returns_ret; [done|].
    pose proof Hnok as [Hnm Hne' _]. cbn [memory Arena.size] in Hnm, Hne'.
    assert (HN : as' + al' - 1 <= new_block_size a as' al').
    { unfold new_block_size. rewrite (u64_id (as' + al' - 1)) by (unfold is_u64; lia). destruct (Z.ltb_spec (default_block_size a) (as' + al' - 1)); lia. }
    assert (Hz : 0 <= 0 <= Arena.size (Block i m (new_block_size a as' al') 0)) by (cbn [Arena.size]; lia).
    destruct (align_block_offset_spec (Block i m (new_block_size a as' al') 0) 0 al' Hnok Hz Hok) as [Hbad|[Hcu Hd]].
    { exfalso. revert Hbad. cbn [Arena.size]. apply Z.le_ngt. apply align_new_block_bound; cbn [memory Arena.size]; try done; lia. }
    cbn [memory] in Hd, Hcu |- *. set (ncu := align_block_offset _ 0 al') in *.
    rewrite (u64_id (m + ncu)), (u64_id (ncu + as')) by (unfold is_u64; lia).
    destruct (new_block_ok a g i m (new_block_size a as' al') ncu as' size Ha Hnok Hap) as [Hok' Hw]; [lia..|].
    unfold allocated. cbn [fst snd]. rewrite <- Hch.
    split; [exact Hok'|]. split; [lia|]. split; [by apply Haligned|]. split; [exact Hw|done].
  - apply orb_false_iff in Hfull as [Hf1%Z.ltb_ge Hf2%Z.ltb_ge]. destruct Hoff as [|[Hcu Hd]]; [lia|].
    apply returns_ret; [done|]. rewrite (u64_id (memory b + cu)), (u64_id (cu + as')) by (unfold is_u64; lia).
    destruct (bump_ok a g b rest cu as' size Ha Hch) as [Hok' Hw]; [lia..|].
    unfold allocated. cbn [fst snd].
    split; [exact Hok'|]. split; [lia|]. split; [by apply Haligned|]. split; [exact Hw|done].
Qed.
End ops.

(** * Scopes, reset and adoption keep the invariant *)

(** What the arena holds: the used bytes of the chain and of the adopted blocks. *)
Definition held (a : arena) : addresses := λ x, inside (chain a ++ adopted_blocks a) x.

Lemma live_ok a g : arena_ok a g → Forall (within (held a)) (live g) ∧ pairwise apart (live g).
Proof.
  intros [Hb Hc Hf Hp Hpa Ht Hd]. pose proof Hb as Hb'. apply blocks_ok_app in Hb' as (Hbc & [Hba _] & Hbca).
  destruct (frames_live _ _ _ _ Hf Hbc) as [Hl Hpl]. unfold live. rewrite app_assoc. split.
  - apply Forall_app. split; (eapply Forall_within_mono; [|eassumption]); intros z Hz; apply inside_app; tauto.
  - apply pairwise_app; [done|done|]. intros x y Hx Hy. rewrite Forall_forall in Hl, Hp.
    eapply within_apart; [by apply Hl|]. intros z Hzx Hzy. apply (Hp y Hy) in Hzy as (c & Hcin & Hzc).
    destruct Hzx as (b & Hbin & Hzb). destruct (Hbca b c Hbin Hcin) as [_ Hap].
    rewrite Forall_forall in Hba. destruct (Hba c Hcin) as [_ _ ?]. destruct Hbc as [Hbc _].
    rewrite Forall_forall in Hbc. destruct (Hbc b Hbin) as [_ _ ?]. lia.
Qed.

Lemma live_add x g : live (add_live x g) ≡ₚ x :: live g.
Proof. unfold live, add_live. destruct (frames g) as [|f fs]; cbn; [done|]. done. Qed.

Lemma live_merge g : live (merge_frame g) ≡ₚ live g.
Proof.
  unfold live, merge_frame. destruct g as [fs b p]. cbn [frames]. destruct fs as [|f [|f' fs]]; cbn [frames base promoted map concat fresh app].
  - done.
  - by rewrite app_nil_r, <- app_assoc.
  - by rewrite <- !app_assoc.
Qed.

Lemma live_push c g : live (push_frame c g) = live g.
Proof. done. Qed.

Section scopes.
Context (poison : bool).

(** The frames before the innermost mark. *)
Definition outer (g : ghost) : list alloc := live (pop_frame g).

Definition commit_only (worker : bool) (a : arena) : bool := arena_scope_ops_are_commit_only worker a.

Lemma push_spec worker a g : arena_ok a g →
  returns same_bytes (λ r, chain r.2 = chain a ∧ total_allocated r.2 = total_allocated a ∧ 
    arena_ok r.2 (if commit_only worker a then g else push_frame (chain a) g)) (push_scope worker true a).
Proof.
  intros Ha. pose proof Ha as [Hb Hc Hf Hp Hpa Ht Hd]. unfold push_scope, commit_only.
  destruct (arena_scope_ops_are_commit_only worker a); [by apply returns_ret|]. cbn [negb].
  destruct (chain a) as [|b rest] eqn:Hch; [done|]. apply returns_ret; [done|]. cbn [snd chain set_scopes total_allocated].
  split; [done|]. split; [done|]. split; cbn [chain adopted_blocks scopes total_allocated default_block_size set_scopes]; rewrite ?Hch; try done.
  apply frames_push; [|done]. cbn [app] in Hb. by apply blocks_ok_cons in Hb as (? & _).
Qed.

(** A pop gives back the chain the matching push saw, and the invariant of the outer frames. *)
Lemma pop_spec worker a g f : commit_only worker a = false → arena_ok a g → hd_error (frames g) = Some f →
  returns (writes (since (chain a) (saved f)))
    (λ r, chain r.2 = saved f ∧ adopted_blocks r.2 = adopted_blocks a ∧ arena_ok r.2 (pop_frame g)) (pop_scope poison worker a).
Proof.
  intros Hco [Hb Hc Hf Hp Hpa Ht Hd] Hfr. unfold pop_scope. unfold commit_only in Hco. rewrite Hco.
  destruct g as [fs l pr]. cbn [frames base promoted] in *. destruct fs as [|f0 fs]; [done|]. injection Hfr as ->.
  destruct (scopes a) as [|s ss] eqn:Hsc; [inversion Hf|].
  inversion Hf as [|c s1 ss1 f1 fs1 l1 young b old Hch Hs Hu Hsv Hin Hfp Hrest]; subst f1 fs1 l1 c s1 ss1.
  apply blocks_ok_app in Hb as Hb'. destruct Hb' as (Hbc & Hba & Hbca). rewrite Hch in *.
  eapply (returns_bind _ (λ _, True)); [|intros _ _].
  { destruct poison; [|apply returns_ret; [intros ?; apply writes_refl|exact I]]. rewrite Hsv. by apply returns_poison_scope. }
  rewrite (split_at_mark young old b s Hbc Hs).
  eapply (returns_bind _ (λ _, True)).
  { eapply returns_impl; [| |apply returns_free]; [|done]. intros p p'. apply same_writes. }
  intros _ _. apply returns_ret; [intros ?; apply writes_refl|].
  cbn [snd chain set_scopes set_chain adopted_blocks]. split; [done|]. split; [done|].
  pose proof (rewind_blocks_ok young old b s Hbc Hu) as Hrw.
  split; cbn [chain adopted_blocks scopes total_allocated default_block_size set_scopes set_chain frames base promoted pop_frame tail]; try done.
  - apply blocks_ok_app. split; [done|]. split; [done|].
    intros x y [->|Hx]%elem_of_cons Hy.
    + apply (Hbca b y); [apply elem_of_app; right; by left|done].
    + apply (Hbca x y); [apply elem_of_app; right; by right|done].
  - by rewrite <- Hsv.
  - rewrite Ht, <- !app_assoc, !sizes_app. unfold u64. rewrite Zminus_mod_idemp_l. f_equal.
    cbn [app]. unfold sizes. cbn [foldr Arena.size set_used]. lia.
Qed.

Lemma pop_nothing worker a : commit_only worker a = true ∨ scopes a = [] →
  returns same_bytes (λ r, r.2 = a) (pop_scope poison worker a).
Proof.
  unfold pop_scope, commit_only. intros [->|Hs]; [by apply returns_ret|].
  destruct (arena_scope_ops_are_commit_only worker a); [by apply returns_ret|]. rewrite Hs. by apply returns_ret.
Qed.

Lemma commit_spec worker a g : arena_ok a g →
  returns same_bytes (λ r, chain r.2 = chain a ∧ arena_ok r.2 (if commit_only worker a then g else merge_frame g)) (commit_scope worker a).
Proof.
  intros Ha. pose proof Ha as [Hb Hc Hf Hp Hpa Ht Hd]. unfold commit_scope, commit_only.
  destruct (arena_scope_ops_are_commit_only worker a); [by apply returns_ret|].
  destruct (scopes a) as [|s ss] eqn:Hsc.
  - apply returns_ret; [done|]. split; [done|]. destruct (frames g) eqn:Hfr; [|inversion Hf]. unfold merge_frame. by rewrite Hfr.
  - apply returns_ret; [done|]. cbn [snd chain set_scopes]. split; [done|].
    apply frames_merge in Hf as Hm.
    split; cbn [chain adopted_blocks scopes total_allocated default_block_size set_scopes]; try done.
    + by unfold merge_frame; destruct (frames g) as [|? [|? ?]].
    + by unfold merge_frame; destruct (frames g) as [|? [|? ?]].
Qed.

(** ** Reset *)

Lemma rev_last {A} (l : list A) : l ≠ [] → ∃ x, l = removelast l ++ [x] ∧ hd_error (rev l) = Some x.
Proof.
  destruct l as [|x l] using rev_ind; [done|]. intros _. exists x.
  by rewrite removelast_last, rev_app_distr.
Qed.

Lemma reset_spec a g : arena_ok a g →
  returns same_bytes (λ r, ∃ a', r.2 = Some a' ∧ arena_ok a' (Ghost [] [] []) ∧ (∀ z, ¬ held a' z) ∧ (length (chain a') = 1)%nat) (arena_reset (Some a)).
Proof.
  intros [Hb Hc Hf Hp Hpa Ht Hd]. unfold arena_reset, on_arena.
  eapply (returns_bind _ (λ r, arena_ok r.2 (Ghost [] [] []) ∧ (∀ z, ¬ held r.2 z) ∧ (length (chain r.2) = 1)%nat)).
  2: { intros r (? & ? & ?). apply returns_ret; [done|]. by exists r.2. }
  eapply returns_bind; [tc_solve|apply returns_free|intros _ _].
  eapply returns_bind; [tc_solve|apply returns_free|intros _ _]. apply returns_ret; [done|].
  cbn [chain set_adopted]. destruct (rev_last (chain a) Hc) as (first & Hl & Hr).
  destruct (rev (chain a)) as [|x r] eqn:Hrev; [done|]. injection Hr as ->.
  apply blocks_ok_app in Hb as (Hbc & _ & _). rewrite Hl in Hbc. apply blocks_ok_app in Hbc as (_ & Hfirst & _).
  cbn [snd chain set_scopes set_chain set_adopted]. split; [|split; [|done]].
  - split; cbn [chain adopted_blocks scopes total_allocated default_block_size set_scopes set_chain set_adopted frames base promoted]; try done.
    + rewrite app_nil_r. apply blocks_ok_used; [|done]. apply blocks_ok_cons in Hfirst as ([] & _). lia.
    + by apply frames_base.
    + rewrite Ht, app_nil_r, !sizes_app. rewrite Hl at 1. rewrite sizes_app. unfold u64.
      rewrite Zminus_mod_idemp_l, <- Z.sub_add_distr, Zminus_mod_idemp_l. f_equal. unfold sizes. cbn [foldr Arena.size set_used]. lia.
  - unfold held. cbn [chain adopted_blocks set_scopes set_chain set_adopted]. rewrite app_nil_r.
    intros z (b & ->%list_elem_of_singleton & Hz). cbn [memory used set_used] in Hz. lia.
Qed.

(** ** Adoption *)

Lemma adopt_spec d gd s gs : arena_ok d gd → arena_ok s gs →
  (∀ b c, b ∈ chain d ++ adopted_blocks d → c ∈ chain s ++ adopted_blocks s → blocks_apart b c) →
  ∃ moved d' s', arena_adopt_blocks false (Some d) (Some s) = (moved, Some d', Some s') ∧
    arena_ok d' (promote gs gd) ∧ chain d' = chain d ∧ chain s' = [] ∧ adopted_blocks s' = [] ∧
    moved = u64 (sizes (chain s ++ adopted_blocks s)).
Proof.
  intros Hd Hs Hap. pose proof Hd as [Hb Hc Hf Hp Hpa Ht Hdf]. pose proof Hs as [Hb' Hc' Hf' Hp' Hpa' Ht' Hdf'].
  unfold arena_adopt_blocks. destruct (chain s ++ adopted_blocks s) as [|m ms] eqn:Hmv.
  { apply app_eq_nil in Hmv as [? _]. done. }
  rewrite <- Hmv in *. do 3 eexists. split; [reflexivity|]. split; [|done].
  destruct (live_ok s gs Hs) as [Hls Hlsp]. destruct (live_ok d gd Hd) as [Hld Hldp].
  split; cbn [chain adopted_blocks scopes total_allocated default_block_size set_adopted frames base promoted promote]; try done.
  - rewrite app_assoc. apply blocks_ok_app in Hb as (Hbc & Hba & Hbca).
    assert (Hcs : blocks_ok (chain d ++ (chain s ++ adopted_blocks s))).
    { apply blocks_ok_app. split; [done|]. split; [done|]. intros x y Hx Hy. apply Hap; [apply elem_of_app; by left|done]. }
    apply blocks_ok_app. split; [done|]. split; [done|]. intros x y [Hx|Hx]%elem_of_app Hy; [by apply Hbca|].
    apply blocks_apart_sym, Hap; [apply elem_of_app; by right|done].
  - apply Forall_app. split; (eapply Forall_within_mono; [|eassumption]); intros z Hz; apply inside_app; tauto.
  - apply pairwise_app; [done|done|]. intros x y Hx Hy. rewrite Forall_forall in Hls, Hp.
    eapply within_apart; [by apply Hls|]. intros z (b & Hbin & Hzb) Hzy. apply (Hp y Hy) in Hzy as (c & Hcin & Hzc).
    destruct (Hap c b ltac:(apply elem_of_app; by right) Hbin) as [_ Hbc].
    destruct Hb as [Hb _], Hb' as [Hb' _]. rewrite Forall_forall in Hb, Hb'.
    destruct (Hb c ltac:(apply elem_of_app; by right)) as [_ _ ?]. destruct (Hb' b Hbin) as [_ _ ?]. lia.
  - rewrite Ht, !sizes_app. unfold u64. rewrite Zplus_mod_idemp_l, Zplus_mod_idemp_r. f_equal. lia.
Qed.
End scopes.
