(* ===== verification/ArenaProps.v ===== *)
(** * ArenaProps: the arena as a state machine, and its theorems *)

From stdpp Require Export relations.
From S2P Require Export ArenaOps.
Local Open Scope Z_scope.

(** ** The state machine

    A runtime step is one call, by the main thread or by a pool worker; between
    calls the program writes into memory. *)

Record arena_state := ArenaState { st_arena : arena; st_ghost : ghost; st_process : process }.

Section machine.
Context (L : limits) (poison : bool).

Definition popped (worker : bool) (a : arena) (g : ghost) : ghost := if commit_only worker a then g else pop_frame g.
Definition committed (worker : bool) (a : arena) (g : ghost) : ghost := if commit_only worker a then g else merge_frame g.
Definition iter_ended (worker : bool) (vals : list carried) (a : arena) (g : ghost) : ghost :=
  if existsb (escapes a) vals then committed worker a g else popped worker a g.

Inductive runtime_step : arena_state → arena_state → Prop :=
| step_allocate size al ans a g p r a' p' : 0 <= size < 2 ^ 64 → 0 <= al < 2 ^ 64 → answers_ok a ans size al →
    arena_allocate_aligned_impl L size al ans a p = Done (r, a') p' →
    runtime_step (ArenaState a g p) (ArenaState a' (match r with Some ptr => add_live (Alloc ptr size) g | None => g end) p')
| step_push worker a g p a' p' : push_scope worker true a p = Done (tt, a') p' →
    runtime_step (ArenaState a g p) (ArenaState a' (if commit_only worker a then g else push_frame (chain a) g) p')
| step_pop worker a g p a' p' : pop_scope poison worker a p = Done (tt, a') p' →
    runtime_step (ArenaState a g p) (ArenaState a' (popped worker a g) p')
| step_commit worker a g p a' p' : commit_scope worker a p = Done (tt, a') p' →
    runtime_step (ArenaState a g p) (ArenaState a' (committed worker a g) p')
| step_iter_end worker vals a g p a' p' : iter_scope_end poison worker vals a p = Done (tt, a') p' →
    runtime_step (ArenaState a g p) (ArenaState a' (iter_ended worker vals a g) p')
| step_reset a g p a' p' : arena_reset (Some a) p = Done (tt, Some a') p' →
    runtime_step (ArenaState a g p) (ArenaState a' (Ghost [] [] []) p')
| step_adopt a g p s gs moved a' s' : arena_ok s gs →
    (∀ b c, b ∈ chain a ++ adopted_blocks a → c ∈ chain s ++ adopted_blocks s → blocks_apart b c) →
    arena_adopt_blocks false (Some a) (Some s) = (moved, Some a', Some s') →
    runtime_step (ArenaState a g p) (ArenaState a' (promote gs g) p).

Definition program_write (st st' : arena_state) : Prop :=
  ∃ m, st' = ArenaState (st_arena st) (st_ghost st) (set_bytes (st_process st) m).

Definition arena_step (st st' : arena_state) : Prop := runtime_step st st' ∨ program_write st st'.

(** The arenas the three constructors return. *)
Inductive arena_start : arena_state → Prop :=
| start_plain n ok i m p a p' : 0 <= n < 2 ^ 64 → block_ok (Block i m (Z.max n 1024) 0) →
    arena_create L n ok (Answers (Some i) (Some m)) p = Done (Some a) p' → arena_start (ArenaState a (Ghost [] [] []) p')
| start_bounded n ok i m p a p' : 0 <= n < 2 ^ 64 → block_ok (Block i m (Z.max n 1024) 0) →
    arena_create_bounded L n ok (Answers (Some i) (Some m)) p = Done (Some a) p' → arena_start (ArenaState a (Ghost [] [] []) p')
| start_threadsafe n ok i m mutex p a p' : 0 <= n < 2 ^ 64 → block_ok (Block i m (Z.max n 1024) 0) →
    arena_create_threadsafe L poison n ok (Answers (Some i) (Some m)) mutex p = Done (Some a) p' →
    arena_start (ArenaState a (Ghost [] [] []) p').

Definition reachable_arena (st : arena_state) : Prop := ∃ st0, arena_start st0 ∧ rtc arena_step st0 st.
Definition state_ok (st : arena_state) : Prop := arena_ok (st_arena st) (st_ghost st).

(** ** The invariant *)

Lemma returns_Done {A} R (Q : A → Prop) (m : call A) p r p' : returns R Q m → m p = Done r p' → Q r ∧ R p p'.
Proof. intros H Hm. specialize (H p). by rewrite Hm in H. Qed.

Lemma returns_not_Crash {A} R (Q : A → Prop) (m : call A) p : returns R Q m → m p ≠ Crash.
Proof. intros H Hm. specialize (H p). by rewrite Hm in H. Qed.

Lemma fresh_arena_ok i m n b ts bd : block_ok (Block i m n 0) → b = Block i m n 0 → 0 < n →
  arena_ok (Arena [b] [] [] n n ts bd) (Ghost [] [] []).
Proof.
  intros Hb -> Hn. pose proof Hb as [Hm He _]. cbn [memory Arena.size] in *. split; cbn; try done.
  - split; [by apply Forall_singleton|by split].
  - by apply frames_base.
  - unfold u64. rewrite Z.mod_small; lia.
  - lia.
Qed.

Lemma create_spec n ok i m : 0 <= n < 2 ^ 64 → block_ok (Block i m (Z.max n 1024) 0) →
  returns same_bytes (λ oa, match oa with Some a => arena_ok a (Ghost [] [] []) ∧ a = Arena [Block i m (Z.max n 1024) 0] [] [] (Z.max n 1024) (Z.max n 1024) false false | None => True end)
    (arena_create L n ok (Answers (Some i) (Some m))).
Proof.
  intros Hn Hb. unfold arena_create. assert (Hmax : (if n <? 1024 then 1024 else n) = Z.max n 1024) by (destruct (Z.ltb_spec n 1024); lia).
  rewrite Hmax. destruct (negb ok); [by apply returns_ret|].
  eapply returns_bind; [tc_solve|apply returns_create|]. intros [b|] Hans; [|by apply returns_ret].
  destruct Hans as (i' & m' & [= <- <-] & ->). apply returns_ret; [done|]. split; [|done]. exact (fresh_arena_ok i m (Z.max n 1024) _ _ _ Hb eq_refl ltac:(lia)).
Qed.

Lemma start_ok st : arena_start st → state_ok st.
Proof.
  intros [n ok i m p a p' Hn Hb Hc|n ok i m p a p' Hn Hb Hc|n ok i m mutex p a p' Hn Hb Hc]; unfold state_ok; cbn [st_arena st_ghost].
  - by destruct (returns_Done _ _ _ _ _ _ (create_spec n ok i m Hn Hb) Hc) as [[? _] _].
  - unfold arena_create_bounded in Hc. assert (Hmax : (if n <? 1024 then 1024 else n) = Z.max n 1024) by (destruct (Z.ltb_spec n 1024); lia).
    rewrite Hmax in Hc. pose proof (create_spec (Z.max n 1024) ok i m ltac:(lia)) as Hs.
    rewrite Z.max_l in Hs by lia. specialize (Hs Hb p). unfold mbind, call_bind in Hc.
    destruct (arena_create L (Z.max n 1024) ok _ p) as [[a0|] p0|p0|]; [|done..].
    destruct Hs as [[_ ->] _]. injection Hc as <- <-. exact (fresh_arena_ok i m (Z.max n 1024) _ _ _ Hb eq_refl ltac:(lia)).
  - unfold arena_create_threadsafe in Hc. pose proof (create_spec n ok i m Hn Hb p) as Hs. unfold mbind at 1, call_bind at 1 in Hc.
    destruct (arena_create L n ok _ p) as [[a0|] p0|p0|]; [|done..]. destruct Hs as [[_ ->] _].
    destruct mutex; cbn [negb] in Hc; [injection Hc as <- <-; exact (fresh_arena_ok i m (Z.max n 1024) _ _ _ Hb eq_refl ltac:(lia))|].
    unfold mbind, call_bind in Hc. by destruct (arena_destroy _ _ _).
Qed.

Lemma chain_adopted_apart a g z : arena_ok a g → inside (chain a) z → ¬ inside (adopted_blocks a) z.
Proof.
  intros [Hb _ _ _ _ _ _] (b & Hbin & Hzb) (c & Hcin & Hzc). apply blocks_ok_app in Hb as ([Hb _] & [Hc _] & Hbc).
  rewrite Forall_forall in Hb, Hc. destruct (Hb b Hbin) as [_ _ ?], (Hc c Hcin) as [_ _ ?].
  destruct (Hbc b c Hbin Hcin) as [_ ?]. lia.
Qed.

(** A new allocation overlaps nothing live. *)
Lemma fresh_apart a a' g g' x y : arena_ok a g → arena_ok a' g' → within (since (chain a') (chain a)) x →
  adopted_blocks a' = adopted_blocks a → y ∈ live g → apart x y.
Proof.
  intros Ha Ha' Hx Had Hy. destruct (live_ok a g Ha) as [Hl _]. rewrite Forall_forall in Hl. specialize (Hl y Hy).
  eapply within_apart; [exact Hx|]. intros z [Hin Hn] Hzy. apply Hl in Hzy. unfold held in Hzy.
  apply inside_app in Hzy as [?|Hz]; [done|]. apply (chain_adopted_apart a' g' z Ha' Hin). by rewrite Had.
Qed.

Lemma popped_nothing worker a g : arena_ok a g → commit_only worker a = true ∨ frames g = [] → popped worker a g = g.
Proof. unfold popped. intros _ [->|Hf]; [done|]. destruct (commit_only worker a); [done|]. destruct g as [fs b p]. cbn in Hf. by subst. Qed.

Lemma scopes_frames a g : arena_ok a g → (scopes a = [] ↔ frames g = []).
Proof. intros [_ _ Hf _ _ _ _]. by inversion Hf. Qed.

(** What a pop poisons, the arena no longer holds. *)
Lemma popped_not_held worker a g f a' p p' z : arena_ok a g → commit_only worker a = false → hd_error (frames g) = Some f →
  pop_scope poison worker a p = Done (tt, a') p' → since (chain a) (saved f) z → ¬ held a' z.
Proof.
  intros Ha Hco Hf Hp [Hin Hn]. destruct (returns_Done _ _ _ _ _ _ (pop_spec poison worker a g f Hco Ha Hf) Hp) as [(Hc & Hadp & _) _].
  cbn [snd] in Hc, Hadp. unfold held. rewrite Hc, Hadp, inside_app. intros [?|Hz]; [done|].
  by apply (chain_adopted_apart a g z Ha).
Qed.

(** A pop, whatever it finds. *)
Lemma pop_any worker a g : arena_ok a g →
  returns (writes (λ z, ∃ f, commit_only worker a = false ∧ hd_error (frames g) = Some f ∧ since (chain a) (saved f) z))
    (λ r, arena_ok r.2 (popped worker a g)) (pop_scope poison worker a).
Proof.
  intros Ha. destruct (commit_only worker a) eqn:Hco; [|destruct (frames g) as [|f fs] eqn:Hf].
  - eapply returns_impl; [| |apply pop_nothing; by left]; [intros p p'; apply same_writes|].
    intros [[] a'] ->. by rewrite popped_nothing by auto.
  - eapply returns_impl; [| |apply pop_nothing; right; by apply (scopes_frames a g Ha)]; [intros p p'; apply same_writes|].
    intros [[] a'] ->. by rewrite popped_nothing by auto.
  - assert (Hhd : hd_error (frames g) = Some f) by (by rewrite Hf).
    eapply returns_impl; [| |apply (pop_spec poison worker a g f Hco Ha Hhd)].
    + intros p p' H z Hz. apply H. intros Hs. apply Hz. exists f. split; [done|]. by split.
    + intros r (_ & _ & Hok). unfold popped. by rewrite Hco.
Qed.

Lemma iter_end_any worker vals a g : arena_ok a g →
  returns (writes (λ z, ∃ f, existsb (escapes a) vals = false ∧ commit_only worker a = false ∧ hd_error (frames g) = Some f ∧ since (chain a) (saved f) z))
    (λ r, arena_ok r.2 (iter_ended worker vals a g)) (iter_scope_end poison worker vals a).
Proof.
  intros Ha. unfold iter_scope_end, iter_ended, popped, committed. fold (commit_only worker a). destruct (commit_only worker a) eqn:Hco.
  { apply returns_ret; [intros ?; apply writes_refl|]. by destruct (existsb _ _). }
  destruct (scopes a) as [|s ss] eqn:Hsc.
  - apply returns_ret; [intros ?; apply writes_refl|]. apply (scopes_frames a g Ha) in Hsc.
    destruct g as [fs b p]. cbn in Hsc. subst. by destruct (existsb _ _).
  - destruct (existsb (escapes a) vals) eqn:He.
    + eapply returns_impl; [| |apply (commit_spec worker a g Ha)]; [intros p p'; apply same_writes|].
      intros r [_ Hok]. by rewrite Hco in Hok.
    + eapply returns_impl; [| |apply (pop_any worker a g Ha)].
      * intros p p' H z Hz. apply H. intros (f & ? & ? & ?). apply Hz. by exists f.
      * intros r Hok. unfold popped in Hok. by rewrite Hco in Hok.
Qed.

Lemma step_ok st st' : state_ok st → arena_step st st' → state_ok st'.
Proof.
  unfold state_ok. intros Ha [Hs|[m ->]]; [|done]. destruct Hs as [size al ans a g p r a' p' H1 H2 H3 H4|worker a g p a' p' H|worker a g p a' p' H|worker a g p a' p' H|worker vals a g p a' p' H|a g p a' p' H|a g p s gs moved a' s' H1 H2 H3];
    cbn [st_arena st_ghost] in *.
  - destruct (returns_Done _ _ _ _ _ _ (allocate_spec L size al ans a g Ha H1 H2 H3) H4) as [Hr _].
    unfold allocated in Hr. cbn [fst snd] in Hr. destruct r as [ptr|]; [tauto|]. destruct Hr as [-> _]. done.
  - destruct (returns_Done _ _ _ _ _ _ (push_spec worker a g Ha) H) as [(_ & _ & Hok) _]. exact Hok.
  - by destruct (returns_Done _ _ _ _ _ _ (pop_any worker a g Ha) H).
  - destruct (returns_Done _ _ _ _ _ _ (commit_spec worker a g Ha) H) as [[_ Hok] _]. exact Hok.
  - by destruct (returns_Done _ _ _ _ _ _ (iter_end_any worker vals a g Ha) H).
  - destruct (returns_Done _ _ _ _ _ _ (reset_spec a g Ha) H) as [(a0 & [= <-] & Hok & _) _]. exact Hok.
  - destruct (adopt_spec a g s gs Ha H1 H2) as (mv & d' & s0 & Heq & Hok & _). rewrite H3 in Heq. by injection Heq as _ <- _.
Qed.

(** Bytes that are still held after a call are the bytes there were before it. *)
Lemma runtime_step_bytes st st' : state_ok st → runtime_step st st' →
  ∀ z, held (st_arena st') z → bytes (st_process st') z = bytes (st_process st) z.
Proof.
  unfold state_ok. intros Ha Hs z Hz. pose proof Hs as Hs0.
  destruct Hs as [size al ans a g p r a' p' H1 H2 H3 H4|worker a g p a' p' H|worker a g p a' p' H|worker a g p a' p' H|worker vals a g p a' p' H|a g p a' p' H|a g p s gs moved a' s' H1 H2 H3];
    cbn [st_arena st_ghost st_process] in *.
  - destruct (returns_Done _ _ _ _ _ _ (allocate_spec L size al ans a g Ha H1 H2 H3) H4) as [_ Hb]. by rewrite Hb.
  - destruct (returns_Done _ _ _ _ _ _ (push_spec worker a g Ha) H) as [_ Hb]. by rewrite Hb.
  - destruct (returns_Done _ _ _ _ _ _ (pop_any worker a g Ha) H) as [_ Hb]. apply Hb.
    intros (f & Hco & Hf & Hsince). exact (popped_not_held worker a g f a' p p' z Ha Hco Hf H Hsince Hz).
  - destruct (returns_Done _ _ _ _ _ _ (commit_spec worker a g Ha) H) as [_ Hb]. by rewrite Hb.
  - destruct (returns_Done _ _ _ _ _ _ (iter_end_any worker vals a g Ha) H) as [_ Hb]. apply Hb.
    intros (f & He & Hco & Hf & Hsince). refine (popped_not_held worker a g f a' p p' z Ha Hco Hf _ Hsince Hz).
    revert H. unfold iter_scope_end. fold (commit_only worker a). rewrite Hco, He. destruct (scopes a) eqn:Hsc; [|done].
    apply (scopes_frames a g Ha) in Hsc. by rewrite Hsc in Hf.
  - destruct (returns_Done _ _ _ _ _ _ (reset_spec a g Ha) H) as [_ Hb]. by rewrite Hb.
  - done.
Qed.

Lemma steps_ok st st' : state_ok st → rtc arena_step st st' → state_ok st'.
Proof. intros Hok H. induction H as [|x y z Hxy H IH]; [done|]. apply IH. by eapply step_ok. Qed.

Lemma reachable_ok st : reachable_arena st → state_ok st.
Proof. intros (st0 & Hs & H). eapply steps_ok; [|exact H]. by apply start_ok. Qed.

(** ** Inside a scope *)

(** A step that leaves at least [n] marks. *)
Definition inner_step (n : nat) (st st' : arena_state) : Prop :=
  arena_step st st' ∧ (n <= length (frames (st_ghost st')))%nat.

(** [g] is [g0] with the mark [c] and frames above it. *)
Definition above (c : list block) (g0 g : ghost) : Prop :=
  ∃ inner xs more, frames g = inner ++ Frame c xs :: frames g0 ∧ base g = base g0 ∧ promoted g = more ++ promoted g0.

Lemma above_add c g0 g x : above c g0 g → above c g0 (add_live x g).
Proof.
  intros (inner & xs & more & Hf & Hb & Hp). unfold add_live. rewrite Hf. destruct inner as [|f inner]; cbn [app].
  - by exists [], (x :: xs), more.
  - by exists (Frame (saved f) (x :: fresh f) :: inner), xs, more.
Qed.

Lemma above_push c g0 g c' : above c g0 g → above c g0 (push_frame c' g).
Proof. intros (inner & xs & more & Hf & Hb & Hp). exists (Frame c' [] :: inner), xs, more. cbn [push_frame frames]. by rewrite Hf. Qed.

Lemma above_pop c g0 g : above c g0 g → (S (length (frames g0)) <= length (frames (pop_frame g)))%nat → above c g0 (pop_frame g).
Proof.
  intros (inner & xs & more & Hf & Hb & Hp) Hlen. cbn [pop_frame frames] in Hlen. rewrite Hf in Hlen.
  destruct inner as [|f inner]; cbn [app tail] in Hlen; [lia|].
  exists inner, xs, more. cbn [pop_frame frames]. by rewrite Hf.
Qed.

Lemma above_merge c g0 g : above c g0 g → (S (length (frames g0)) <= length (frames (merge_frame g)))%nat → above c g0 (merge_frame g).
Proof.
  intros (inner & xs & more & Hf & Hb & Hp) Hlen. unfold merge_frame in *. rewrite Hf in *.
  destruct inner as [|f [|f' inner]]; cbn [app] in *.
  - destruct (frames g0) as [|f0 fs0]; cbn in Hlen; lia.
  - by exists [], (fresh f ++ xs), more.
  - by exists (Frame (saved f') (fresh f ++ fresh f') :: inner), xs, more.
Qed.

Lemma inner_step_above c g0 st st' : inner_step (S (length (frames g0))) st st' →
  above c g0 (st_ghost st) → above c g0 (st_ghost st').
Proof.
  intros [[Hs|[m ->]] Hlen] Hab; [|done].
  destruct Hs as [size al ans a g p r a' p' H1 H2 H3 H4|worker a g p a' p' H|worker a g p a' p' H|worker a g p a' p' H|worker vals a g p a' p' H|a g p a' p' H|a g p s gs moved a' s' H1 H2 H3];
    cbn [st_ghost] in *.
  - destruct r; [by apply above_add|done].
  - destruct (commit_only worker a); [done|by apply above_push].
  - unfold popped in *. destruct (commit_only worker a); [done|by apply above_pop].
  - unfold committed in *. destruct (commit_only worker a); [done|by apply above_merge].
  - unfold iter_ended, popped, committed in *. destruct (existsb _ _), (commit_only worker a); try done; first [by apply above_merge|by apply above_pop].
  - cbn in Hlen. lia.
  - destruct Hab as (inner & xs & more & Hf & Hb & Hp). exists inner, xs, (live gs ++ more).
    cbn [promote frames base promoted]. by rewrite Hf, Hb, Hp, app_assoc.
Qed.

Lemma inner_steps_above c g0 st st' : rtc (inner_step (S (length (frames g0)))) st st' →
  above c g0 (st_ghost st) → above c g0 (st_ghost st').
Proof. intros H. induction H as [|x y z Hxy H IH]; [done|]. intros Hab. apply IH. by eapply inner_step_above. Qed.

Lemma inner_steps_ok n st st' : rtc (inner_step n) st st' → state_ok st → state_ok st'.
Proof. intros H. induction H as [|x y z [Hxy _] H IH]; [done|]. intros Hok. apply IH. by eapply step_ok. Qed.
End machine.

(** ** Escaping values *)

Lemma escapes_span a g f v : arena_ok a g → hd_error (frames g) = Some f → escapes a v = true → since (chain a) (saved f) (vptr v).
Proof.
  intros [Hb _ Hfr _ _ _ _] Hf. unfold escapes, arena_top_scope_contains. destruct (immediate_tag (vtype v)); [done|].
  destruct (vptr v =? 0); [done|]. cbn [negb andb].
  inversion Hfr as [|c s ss f1 fs1 l1 young b old Hch Hs Hu Hsv Hin Hfp Hrest Hc0 Hsc Hf0 Hl0]; [done|].
  apply blocks_ok_app in Hb as (Hbc & _ & _). rewrite Hch in Hbc.
  rewrite <- Hf0 in Hf. injection Hf as <-. rewrite Hch, Hsv. by apply span_contains_spec.
Qed.

Lemma not_escaping_survives a g v x : arena_ok a g → escapes a v = false → immediate_tag (vtype v) = false → vptr v ≠ 0 →
  x ∈ live g → extent x (vptr v) → x ∈ live (pop_frame g).
Proof.
  intros Ha He Htag Hnz Hx Hext. pose proof Ha as [Hb _ Hfr _ _ _ _].
  unfold escapes, arena_top_scope_contains in He. rewrite Htag, (proj2 (Z.eqb_neq _ _) Hnz) in He. cbn [negb andb] in He.
  destruct g as [fs l pr]. cbn [frames base] in Hfr. unfold live, pop_frame in *. cbn [frames base promoted] in *.
  destruct fs as [|f fs]; [done|]. cbn [map concat tail] in *. rewrite <- app_assoc in Hx. apply elem_of_app in Hx as [Hx|?]; [exfalso|done].
  destruct (scopes a) as [|s ss] eqn:Hsc; [inversion Hfr|].
  inversion Hfr as [|c s1 ss1 f1 fs1 l1 young b old Hch Hs Hu Hsv Hin Hfp Hrest]; subst f1 fs1 l1 c s1 ss1.
  rewrite Hch in *. apply blocks_ok_app in Hb as (Hbc & _ & _).
  rewrite Forall_forall in Hin. specialize (Hin x Hx _ Hext). rewrite Hsv in Hin.
  apply (span_contains_spec young old b s Hbc Hs Hu) in Hin. congruence.
Qed.


(** ** The theorems *)

(** C2: memory safety of the arena: in every state a program reaches, the live allocations
    do not overlap and lie in the used bytes of blocks the arena holds, and no call of the
    runtime follows a dangling mark or, poisoning included, changes a byte of an allocation
    that is live after it. *)
Theorem arena_live_safe L poison st : reachable_arena L poison st →
  pairwise apart (live (st_ghost st)) ∧ Forall (within (held (st_arena st))) (live (st_ghost st)) ∧
  (∀ worker vals, push_scope worker true (st_arena st) (st_process st) ≠ Crash ∧
     pop_scope poison worker (st_arena st) (st_process st) ≠ Crash ∧
     iter_scope_end poison worker vals (st_arena st) (st_process st) ≠ Crash) ∧
  ∀ st' x z, runtime_step L poison st st' → x ∈ live (st_ghost st') → extent x z →
    bytes (st_process st') z = bytes (st_process st) z.
Proof.
  intros HR. pose proof (reachable_ok L poison st HR) as Ha. destruct (live_ok _ _ Ha) as [Hl Hp].
  split; [done|]. split; [done|]. split.
  { intros worker vals. split_and!; eapply returns_not_Crash;
      [by apply (push_spec worker _ _ Ha)|by apply (pop_any poison worker _ _ Ha)|by apply (iter_end_any poison worker vals _ _ Ha)]. }
  intros st' x z Hs Hx Hz.
  apply (runtime_step_bytes L poison st st' Ha Hs).
  pose proof (step_ok L poison st st' Ha (or_introl Hs)) as Hok. destruct (live_ok _ _ Hok) as [Hl' _].
  rewrite Forall_forall in Hl'. by apply (Hl' x Hx).
Qed.

(** C16: an allocation request returns or the heap ceiling ends the process; the pointer it
    returns is aligned, non-null and overlaps nothing live, and a refused request leaves the
    arena as it was and has one of the reasons the code gives. *)
Theorem arena_request L poison st size al ans :
  reachable_arena L poison st → 0 <= size < 2 ^ 64 → 0 <= al < 2 ^ 64 → answers_ok (st_arena st) ans size al →
  match arena_allocate_aligned L size al ans (Some (st_arena st)) (st_process st) with
  | Done (Some ptr, Some a') p' =>
      0 < ptr ∧ aligned al ptr ∧ within (held a') (Alloc ptr size) ∧
      (∀ x, x ∈ live (st_ghost st) → apart (Alloc ptr size) x)
  | Done (None, Some a') p' => a' = st_arena st ∧ refused (st_arena st) size al ans
  | Done (_, None) _ => False
  | Exit _ => True
  | Crash => False
  end.
Proof.
  intros HR Hs Hal Hans. pose proof (reachable_ok L poison st HR) as Ha.
  pose proof (allocate_spec L size al ans _ _ Ha Hs Hal Hans (st_process st)) as H.
  unfold arena_allocate_aligned, on_arena, mbind, call_bind.
  destruct (arena_allocate_aligned_impl L size al ans (st_arena st) (st_process st)) as [[r a'] p'|p'|]; [|done..].
  destruct H as [H _]. unfold allocated in H. cbn [fst snd] in H. cbn. destruct r as [ptr|]; [|done].
  destruct H as (Hok & Hpos & Hd & Hw & Had & _). destruct (live_ok _ _ Hok) as [Hl Hp].
  split; [done|]. split; [done|]. rewrite Forall_forall in Hl.
  split; [apply Hl; rewrite live_add; left|]. intros x Hx. by eapply (fresh_apart (st_arena st) a' (st_ghost st)).
Qed.

(** C25: whatever happens between a push and its pop (nested scopes, new blocks, commits,
    adoptions, pool workers, writes), the pop gives back exactly the chain the push saw, and
    every allocation older than the push is still live. *)
Theorem scope_pop_reclaims L poison st0 st2 p1 p3 a1 a3 :
  reachable_arena L poison st0 →
  push_scope false true (st_arena st0) (st_process st0) = Done (tt, a1) p1 →
  rtc (inner_step L poison (S (length (frames (st_ghost st0)))))
    (ArenaState a1 (push_frame (chain (st_arena st0)) (st_ghost st0)) p1) st2 →
  length (frames (st_ghost st2)) = S (length (frames (st_ghost st0))) →
  pop_scope poison false (st_arena st2) (st_process st2) = Done (tt, a3) p3 →
  chain a3 = chain (st_arena st0) ∧ arena_get_used_memory (Some a3) = arena_get_used_memory (Some (st_arena st0)) ∧
  ∀ x, x ∈ live (st_ghost st0) → x ∈ live (pop_frame (st_ghost st2)).
Proof.
  intros HR Hpush Hinner Hlen Hpop. pose proof (reachable_ok L poison st0 HR) as Ha.
  assert (Hok1 : state_ok (ArenaState a1 (push_frame (chain (st_arena st0)) (st_ghost st0)) p1)).
  { destruct (returns_Done _ _ _ _ _ _ (push_spec false _ _ Ha) Hpush) as [(_ & _ & Hok) _].
    unfold commit_only, arena_scope_ops_are_commit_only in Hok. by rewrite andb_false_r in Hok. }
  assert (Hab : above (chain (st_arena st0)) (st_ghost st0) (st_ghost st2)).
  { apply (inner_steps_above L poison (chain (st_arena st0)) (st_ghost st0) _ _ Hinner). exists [], [], []. by split_and!. }
  assert (Hok2 : state_ok st2) by (by eapply inner_steps_ok).
  destruct Hab as (inner & xs & more & Hf & Hb & Hpr). destruct inner as [|f inner].
  2: { rewrite Hf, length_app in Hlen. cbn in Hlen. lia. }
  assert (Hco : commit_only false (st_arena st2) = false) by (unfold commit_only, arena_scope_ops_are_commit_only; by rewrite andb_false_r).
  destruct (returns_Done _ _ _ _ _ _ (pop_spec poison false _ _ (Frame (chain (st_arena st0)) xs) Hco Hok2 ltac:(by rewrite Hf)) Hpop) as [(Hc & _ & _) _].
  cbn [snd saved] in Hc. split; [done|]. split; [cbn; by rewrite Hc|].
  intros x. unfold live, pop_frame. cbn [frames base promoted]. rewrite Hf, Hb, Hpr. cbn [app tail]. set_solver.
Qed.

(** Ending a loop iteration is safe: a value carried out of it that may hold a pointer
    into a live allocation keeps that allocation live; and when no carried value points into
    the iteration, the arena is back to where the iteration began. *)
Theorem iter_scope_end_safe L poison st worker vals a' p' :
  reachable_arena L poison st → iter_scope_end poison worker vals (st_arena st) (st_process st) = Done (tt, a') p' →
  (∀ v x, v ∈ vals → immediate_tag (vtype v) = false → vptr v ≠ 0 → x ∈ live (st_ghost st) → extent x (vptr v) →
     x ∈ live (iter_ended worker vals (st_arena st) (st_ghost st))) ∧
  (∀ f, commit_only worker (st_arena st) = false → hd_error (frames (st_ghost st)) = Some f →
     (∀ v, v ∈ vals → immediate_tag (vtype v) = true ∨ ¬ since (chain (st_arena st)) (saved f) (vptr v)) → chain a' = saved f).
Proof.
  intros HR Hend. pose proof (reachable_ok L poison st HR) as Ha. split.
  - intros v x Hv Htag Hnz Hx Hext. unfold iter_ended. destruct (existsb (escapes (st_arena st)) vals) eqn:He.
    + unfold committed. destruct (commit_only _ _); [done|]. by rewrite live_merge.
    + unfold popped. destruct (commit_only _ _) eqn:Hco; [done|].
      apply (not_escaping_survives (st_arena st) (st_ghost st) v x Ha); try done.
      rewrite <- not_true_iff_false in He |- *. intros Hesc. apply He. apply existsb_exists. exists v.
      split; [by apply list_elem_of_In|done].
  - intros f Hco Hf Hvals. assert (He : existsb (escapes (st_arena st)) vals = false).
    { apply not_true_iff_false. intros (v & Hv & Hesc)%existsb_exists. apply list_elem_of_In in Hv.
      destruct (Hvals v Hv) as [Htag|Hn]; [unfold escapes in Hesc; by rewrite Htag in Hesc|].
      apply Hn. by apply (escapes_span (st_arena st) (st_ghost st) f v Ha Hf). }
    revert Hend. unfold iter_scope_end. fold (commit_only worker (st_arena st)). rewrite Hco, He.
    destruct (scopes (st_arena st)) eqn:Hsc; [apply (scopes_frames _ _ Ha) in Hsc; by rewrite Hsc in Hf|].
    intros Hpop. by destruct (returns_Done _ _ _ _ _ _ (pop_spec poison worker _ _ f Hco Ha Hf) Hpop) as [(? & _) _].
Qed.

(** ** Witnesses: one block, an allocation, a scope with an allocation in it *)

Definition no_limits : limits := Limits 0 0 true true false.
Definition start_process : process := Process 0 0 false LIMIT_OK false (λ _, 0).
Definition demo_block (u : Z) : block := Block 16 65536 2048 u.
Definition demo_arena (u : Z) (ss : list scope) : arena := Arena [demo_block u] [] ss 2048 2048 false false.
Definition demo_process : process := Process 2048 2048 false LIMIT_OK false (λ _, 0).
Definition no_memory : answers := Answers None None.

Definition demo0 : arena_state := ArenaState (demo_arena 0 []) (Ghost [] [] []) demo_process.
Definition demo1 : arena_state := ArenaState (demo_arena 104 []) (Ghost [] [Alloc 65536 100] []) demo_process.
Definition demo2 : arena_state :=
  ArenaState (demo_arena 104 [Scope 16 104]) (Ghost [Frame [demo_block 104] []] [Alloc 65536 100] []) demo_process.
Definition demo3 : arena_state :=
  ArenaState (demo_arena 160 [Scope 16 104]) (Ghost [Frame [demo_block 104] [Alloc 65648 40]] [Alloc 65536 100] []) demo_process.

Lemma no_memory_ok a size al : answers_ok a no_memory size al.
Proof. intros ? ? _ i m [=]. Qed.

Lemma demo1_reachable poison : reachable_arena no_limits poison demo1.
Proof.
  exists demo0. split.
  - apply (start_plain no_limits poison 2048 true 16 65536 start_process _ demo_process); [lia|split; cbn; lia|reflexivity].
  - apply rtc_once. left.
    apply (step_allocate no_limits poison 100 8 no_memory (demo_arena 0 []) (Ghost [] [] []) demo_process (Some 65536) (demo_arena 104 []) demo_process);
      [lia|lia|apply no_memory_ok|reflexivity].
Qed.

Lemma demo2_step poison : runtime_step no_limits poison demo1 demo2.
Proof. apply (step_push no_limits poison false (demo_arena 104 []) (Ghost [] [Alloc 65536 100] []) demo_process). reflexivity. Qed.

Lemma demo3_step poison : runtime_step no_limits poison demo2 demo3.
Proof.
  apply (step_allocate no_limits poison 40 16 no_memory (demo_arena 104 [Scope 16 104]) (Ghost [Frame [demo_block 104] []] [Alloc 65536 100] [])
    demo_process (Some 65648) (demo_arena 160 [Scope 16 104]) demo_process);
    [lia|lia|apply no_memory_ok|reflexivity].
Qed.

Lemma demo3_reachable poison : reachable_arena no_limits poison demo3.
Proof.
  destruct (demo1_reachable poison) as (st & Hs & H). exists st. split; [done|].
  eapply rtc_r; [eapply rtc_r; [exact H|]|]; left; [exact (demo2_step poison)|exact (demo3_step poison)].
Qed.

Lemma arena_live_safe_witness :
  pairwise apart [Alloc 65648 40; Alloc 65536 100] ∧ Forall (within (held (demo_arena 160 [Scope 16 104]))) [Alloc 65648 40; Alloc 65536 100].
Proof. destruct (arena_live_safe no_limits true demo3 (demo3_reachable true)) as (H1 & H2 & _). split; [exact H1|exact H2]. Defined.

Lemma arena_request_witness :
  arena_allocate_aligned no_limits 24 32 no_memory (Some (demo_arena 160 [Scope 16 104])) demo_process =
    Done (Some 65696, Some (demo_arena 192 [Scope 16 104])) demo_process ∧ aligned 32 65696 ∧ apart (Alloc 65696 24) (Alloc 65648 40).
Proof.
  pose proof (arena_request no_limits true demo3 24 32 no_memory (demo3_reachable true) ltac:(lia) ltac:(lia) (no_memory_ok _ _ _)) as H.
  assert (Heq : arena_allocate_aligned no_limits 24 32 no_memory (Some (st_arena demo3)) (st_process demo3) =
    Done (Some 65696, Some (demo_arena 192 [Scope 16 104])) demo_process) by reflexivity.
  rewrite Heq in H. destruct H as (_ & Hal & _ & Hap). split; [exact Heq|]. split; [exact Hal|]. apply Hap. left.
Defined.

Definition demo_popped : arena := demo_arena 104 [].

Lemma scope_pop_reclaims_witness : pop_scope false false (st_arena demo3) (st_process demo3) = Done (tt, demo_popped) demo_process ∧
  chain demo_popped = chain (demo_arena 104 []) ∧ Alloc 65536 100 ∈ live (pop_frame (st_ghost demo3)).
Proof.
  assert (Hpop : pop_scope false false (st_arena demo3) (st_process demo3) = Done (tt, demo_popped) demo_process) by reflexivity.
  assert (Hinner : rtc (inner_step no_limits false 1) demo2 demo3) by (apply rtc_once; split; [left; exact (demo3_step false)|cbn; lia]).
  destruct (scope_pop_reclaims no_limits false demo1 demo3 demo_process demo_process _ demo_popped (demo1_reachable false) eq_refl Hinner eq_refl Hpop)
    as (Hc & _ & Hl).
  split; [exact Hpop|]. split; [exact Hc|]. apply Hl. left.
Defined.


(** ** Findings *)

(** A push whose mark cannot be allocated pushes nothing, and the matching pop rewinds the
    enclosing scope: here the allocation at 65648, made before the push, is given up. *)
Lemma failed_push_unbalances :
  ∃ a p, push_scope false false (st_arena demo3) (st_process demo3) = Done (tt, st_arena demo3) (st_process demo3) ∧
    pop_scope false false (st_arena demo3) (st_process demo3) = Done (tt, a) p ∧ arena_contains (Some a) 65648 = false.
Proof. do 2 eexists. split_and!; reflexivity. Qed.

(** Over an advisory ceiling a block is handed out but not counted, yet subtracted when it
    is freed: the usage falls below what the process holds. *)
Definition advisory : limits := Limits 3000 2400 false true true.
Lemma usage_undercounts :
  ∃ b p p', create_arena_block advisory 2048 (Answers (Some 32) (Some 131072)) demo_process = Done (Some b) p ∧
    heap_usage p = 2048 ∧ free_arena_block b p = Done tt p' ∧ heap_usage p' = 0.
Proof. do 3 eexists. split_and!; reflexivity. Qed.
