(* ===== verification/Dependent.v ===== *)
(** * Dependent: compile-time values, dependent types and dimension checks
    (lib/types/dependent.cpp)

    Constant folding computes in [int64_t] and [double]: an [option] around a
    result is [None] where the C++ has undefined behaviour (overflow of a signed
    operation, conversion of a double outside the target type). *)

From S2P Require Export TypeEnv Doubles.
Local Open Scope Z_scope.

(** ** Expressions, as far as folding looks at them *)

Inductive op_code := ADD_OP | SUB_OP | MUL_OP | DIV_OP | OTHER_OP.

(** [AstOther] is every node of another type. *)
Inductive ast :=
| AstInt64 (v : Z) | AstInt32 (v : Z) | AstInt16 (v : Z) | AstInt8 (v : Z)
| AstUint64 (v : Z) | AstUint32 (v : Z) | AstUint16 (v : Z) | AstUint8 (v : Z)
| AstDouble (d : double)
| AstOp (op : op_code) (variables : list ast)
| AstOther.

(** ** Constants *)

(** The integer a float constant caches is never read. *)
Inductive const_value := ConstInt (int_val : Z) | ConstFloat (float_val : double) | ConstNone.

Definition isValid (c : const_value) : bool := match c with ConstNone => false | _ => true end.
Definition asDouble (c : const_value) : double :=
  match c with ConstInt v => of_int v | ConstFloat d => d | ConstNone => d_zero end.

(** A signed 64-bit result, undefined when it overflows. *)
Definition checked (z : Z) : option Z := if (- 2 ^ 63 <=? z) && (z <? 2 ^ 63) then Some z else None.

Definition const_op (int_op : Z → Z → Z) (float_op : double → double → double) (a b : const_value) : option const_value :=
  match a, b with
  | ConstNone, _ | _, ConstNone => Some ConstNone
  | ConstInt x, ConstInt y => z ← checked (int_op x y); Some (ConstInt z)
  | _, _ => Some (ConstFloat (float_op (asDouble a) (asDouble b)))
  end.

Definition const_add : const_value → const_value → option const_value := const_op Z.add d_add.
Definition const_sub : const_value → const_value → option const_value := const_op Z.sub d_sub.
Definition const_mul : const_value → const_value → option const_value := const_op Z.mul d_mul.
Definition const_div (a b : const_value) : option const_value :=
  if negb (isValid a) || negb (isValid b) then Some ConstNone
  else if match b with ConstFloat d => d_is_zero d | ConstInt z => z =? 0 | ConstNone => false end then Some ConstNone
  else const_op Z.quot d_div a b.

(** The loop over the operands after the first: [check] is the test after a division. *)
Definition fold_operands (eval : ast → option const_value) (combine : const_value → const_value → option const_value)
    (check : bool) : list ast → const_value → option const_value :=
  fix go (rest : list ast) (result : const_value) : option const_value :=
    match rest with
    | [] => Some result
    | x :: rest =>
        operand ← eval x;
        if negb (isValid operand) then Some ConstNone
        else
          result ← combine result operand;
          if check && negb (isValid result) then Some ConstNone else go rest result
    end.

Definition fold_op (eval : ast → option const_value) (combine : const_value → const_value → option const_value)
    (check : bool) (variables : list ast) : option const_value :=
  match variables with
  | a :: rest =>
      if (length rest =? 0)%nat then Some ConstNone
      else
        result ← eval a;
        if negb (isValid result) then Some ConstNone else fold_operands eval combine check rest result
  | [] => Some ConstNone
  end.

Fixpoint evaluateConstExpr (expr : ast) : option const_value :=
  match expr with
  | AstInt64 v | AstInt32 v | AstInt16 v | AstInt8 v => Some (ConstInt v)
  | AstUint64 v => Some (ConstInt (i64 v))
  | AstUint32 v | AstUint16 v | AstUint8 v => Some (ConstInt v)
  | AstDouble d => Some (ConstFloat d)
  | AstOp ADD_OP vs => fold_op evaluateConstExpr const_add false vs
  | AstOp SUB_OP vs => fold_op evaluateConstExpr const_sub false vs
  | AstOp MUL_OP vs => fold_op evaluateConstExpr const_mul false vs
  | AstOp DIV_OP vs => fold_op evaluateConstExpr const_div true vs
  | AstOp OTHER_OP _ => Some ConstNone
  | AstOther => Some ConstNone
  end.

(** ** Compile-time values *)

Inductive ct_value := CTNat (n : Z) | CTBool (b : bool) | CTExpr (e : ast) | CTUnknown.

(** [(uint64_t)fval] for [fval >= 0]. *)
Definition double_to_u64 (d : double) : option Z :=
  if is_finite d && (trunc_Z d <? 2 ^ 64) then Some (trunc_Z d) else None.

Definition tryEvalNat (v : ct_value) : option (option Z) :=
  match v with
  | CTNat n => Some (Some n)
  | CTExpr e =>
      result ← evaluateConstExpr e;
      match result with
      | ConstInt n => Some (if 0 <=? n then Some n else None)
      | ConstFloat fval =>
          if d_le d_zero fval then
            n ← double_to_u64 fval;
            Some (if d_eq fval (of_int n) then Some n else None)
          else Some None
      | ConstNone => Some None
      end
  | CTBool _ | CTUnknown => Some None
  end.

Definition tryEvalFloat (v : ct_value) : option (option double) :=
  match v with
  | CTNat n => Some (Some (of_int n))
  | CTExpr e =>
      result ← evaluateConstExpr e;
      Some (if isValid result then Some (asDouble result) else None)
  | CTBool _ | CTUnknown => Some None
  end.

Definition tryEvalBool (v : ct_value) : option bool := match v with CTBool b => Some b | _ => None end.

Inductive compare_result := CmpTrue | CmpFalse | CmpUnknown.
Definition compare_of (b : bool) : compare_result := if b then CmpTrue else CmpFalse.

Definition ct_lessThan (a b : ct_value) : option compare_result :=
  lhs ← tryEvalNat a; rhs ← tryEvalNat b;
  Some (match lhs, rhs with Some x, Some y => compare_of (x <? y) | _, _ => CmpUnknown end).

(** Values of different kinds, and two expressions, are never compared. *)
Definition ct_equals (a b : ct_value) : compare_result :=
  match a, b with
  | CTNat x, CTNat y => compare_of (x =? y)
  | CTBool x, CTBool y => compare_of (Bool.eqb x y)
  | _, _ => CmpUnknown
  end.

Definition ct_arith (op : Z → Z → Z) (a b : ct_value) : option ct_value :=
  lhs ← tryEvalNat a; rhs ← tryEvalNat b;
  Some (match lhs, rhs with Some x, Some y => CTNat (u64 (op x y)) | _, _ => CTUnknown end).
Definition ct_add : ct_value → ct_value → option ct_value := ct_arith Z.add.
Definition ct_mul : ct_value → ct_value → option ct_value := ct_arith Z.mul.

Local Open Scope string_scope.

Definition ct_toString (v : ct_value) : string :=
  match v with
  | CTNat n => pretty n
  | CTBool b => if b then "#t" else "#f"
  | CTExpr _ => "<expr>"
  | CTUnknown => "?"
  end.

(** ** Dependent types *)

Record dependent_type := DependentType {
  base : type_id;
  type_indices : list type_id;
  value_indices : list ct_value }.

Definition isSimple (t : dependent_type) : bool := match value_indices t with [] => true | _ => false end.
Definition isKnown (v : ct_value) : bool := match v with CTUnknown => false | _ => true end.
Definition allValuesKnown (t : dependent_type) : bool := forallb isKnown (value_indices t).
Definition getDimension (t : dependent_type) (idx : nat) : option (option Z) :=
  match value_indices t !! idx with Some v => tryEvalNat v | None => Some None end.

Definition type_text (t : type_id) : string := "Type#" +:+ pretty (tid t).

Definition toString (t : dependent_type) : string :=
  type_text (base t) +:+
  match (map type_text (type_indices t) ++ map ct_toString (value_indices t))%list with
  | [] => EmptyString
  | parts => "<" +:+ String.concat ", " parts +:+ ">"
  end.

Definition proved_equal (a b : ct_value) : bool := match ct_equals a b with CmpTrue => true | _ => false end.

(** Two lists of the same length, compared element by element. *)
Fixpoint same_each {A} (eq : A → A → bool) (l l' : list A) : bool :=
  match l, l' with
  | [], [] => true
  | x :: l, y :: l' => eq x y && same_each eq l l'
  | _, _ => false
  end.

Definition dep_equals (t other : dependent_type) : bool :=
  tid_eq (base t) (base other) && same_each tid_eq (type_indices t) (type_indices other)
  && same_each proved_equal (value_indices t) (value_indices other).

(** The type indices, once the lengths agree: equal, or subtypes. *)
Fixpoint indices_subtype (E : type_env) (l l' : list type_id) : query bool :=
  match l, l' with
  | x :: l, y :: l' =>
      ok ← (if tid_eq x y then mret true else isSubtype E x y);
      if (ok : bool) then indices_subtype E l l' else mret false
  | _, _ => mret true
  end.

Definition isSubtypeOf (E : type_env) (t other : dependent_type) : query bool :=
  ok ← isSubtype E (base t) (base other);
  if negb ok then mret false
  else if negb (length (type_indices t) =? length (type_indices other))%nat then mret false
  else
    ok ← indices_subtype E (type_indices t) (type_indices other);
    if negb ok then mret false
    else mret (same_each proved_equal (value_indices t) (value_indices other)).

(** ** Dimension checks *)

Record check_result := CheckResult { valid : bool; error_message : string }.
Definition success : check_result := CheckResult true EmptyString.
Definition failure (msg : string) : check_result := CheckResult false msg.

(** [" in " << context], when there is one. *)
Definition in_context (context : string) : string :=
  match context with EmptyString => EmptyString | _ => " in " +:+ context end.

Definition checkBounds (idx bound : ct_value) (context : string) : option check_result :=
  idx_val ← tryEvalNat idx; bound_val ← tryEvalNat bound;
  Some (match idx_val, bound_val with
        | Some i, Some b =>
            if (b <=? i)%Z then
              failure ("Index " +:+ pretty i +:+ " out of bounds (< " +:+ pretty b +:+ ")" +:+ in_context context)
            else success
        | Some i, None =>
            failure ("Cannot statically verify index " +:+ pretty i +:+ " against unknown bound" +:+ in_context context)
        | None, _ => failure ("Cannot statically verify index bound" +:+ in_context context +:+ " (proof required)")
        end).

Definition checkDimensionsEqual (dim1 dim2 : ct_value) (context : string) : check_result :=
  match ct_equals dim1 dim2 with
  | CmpTrue => success
  | CmpFalse => failure ("Dimension mismatch: " +:+ ct_toString dim1 +:+ " != " +:+ ct_toString dim2 +:+ in_context context)
  | CmpUnknown =>
      failure ("Cannot statically verify dimension equality: " +:+ ct_toString dim1 +:+ " =? " +:+ ct_toString dim2
               +:+ in_context context +:+ " (proof required)")
  end.

Definition context_or (context other : string) : string := match context with EmptyString => other | _ => context end.

Definition checkMatMulDimensions (left right : dependent_type) (context : string) : check_result :=
  match value_indices left, value_indices right with
  | _ :: left_cols :: _, right_rows :: _ :: _ =>
      checkDimensionsEqual left_cols right_rows (context_or context "matrix multiplication")
  | _, _ => failure "Matrix multiplication requires 2D matrices"
  end.

Definition checkDotProductDimensions (left right : dependent_type) (context : string) : check_result :=
  match value_indices left, value_indices right with
  | left_dim :: _, right_dim :: _ => checkDimensionsEqual left_dim right_dim (context_or context "dot product")
  | _, _ => failure "Dot product requires vectors with known dimensions"
  end.
