(* ===== verification/DependentProps.v ===== *)
(** * DependentProps: the meaning of dimension expressions, and the properties of dependent types *)

From S2P Require Export Dependent TypeArith TypeProps.
Local Open Scope Z_scope.
Import BuiltinTypes.

(** * What folding computes, and what the checks prove *)

(** ** Induction on expressions *)

Section ast_induction.
Context (P : ast → Prop) (Hop : ∀ op vs, Forall P vs → P (AstOp op vs)).
Context (Hleaf : ∀ e, (∀ op vs, e ≠ AstOp op vs) → P e).

Fixpoint ast_nested_ind (e : ast) : P e :=
  match e with
  | AstOp op vs => Hop op vs (forall_each P ast_nested_ind vs)
  | e => ltac:(by apply Hleaf)
  end.
End ast_induction.

(** ** Folding against unbounded integers *)

Definition int_op (op : op_code) : option (Z → Z → Z) :=
  match op with ADD_OP => Some Z.add | SUB_OP => Some Z.sub | MUL_OP => Some Z.mul | _ => None end.

(** The integer an expression of integer literals, [+], [-] and [*] denotes. *)
Fixpoint int_value (e : ast) : option Z :=
  match e with
  | AstInt64 v | AstInt32 v | AstInt16 v | AstInt8 v
  | AstUint64 v | AstUint32 v | AstUint16 v | AstUint8 v => Some v
  | AstOp op (a :: rest) =>
      if (length rest =? 0)%nat then None
      else
        f ← int_op op; x ← int_value a;
        (fix go (rest : list ast) (x : Z) : option Z :=
           match rest with [] => Some x | y :: rest => v ← int_value y; go rest (f x v) end) rest x
  | _ => None
  end.

Definition in_int64 (z : Z) : bool := (- 2 ^ 63 <=? z) && (z <? 2 ^ 63).

(** Every literal and every result on the way fits 64 bits. *)
Fixpoint no_overflow (e : ast) : bool :=
  match e with
  | AstInt64 v | AstInt32 v | AstInt16 v | AstInt8 v
  | AstUint64 v | AstUint32 v | AstUint16 v | AstUint8 v => in_int64 v
  | AstOp op (a :: rest) =>
      no_overflow a &&
      (fix go (rest : list ast) (x : Z) : bool :=
         match rest with
         | [] => true
         | y :: rest =>
             let z := default Z.add (int_op op) x (default 0 (int_value y)) in
             no_overflow y && in_int64 z && go rest z
         end) rest (default 0 (int_value a))
  | _ => true
  end.

(** Literals of the widths the parser gives them. *)
Fixpoint literals_fit (e : ast) : bool :=
  match e with
  | AstInt64 v | AstInt32 v | AstInt16 v | AstInt8 v
  | AstUint64 v | AstUint32 v | AstUint16 v | AstUint8 v => in_int64 v
  | AstOp _ vs => forallb literals_fit vs
  | _ => true
  end.

Lemma in_int64_iff z : in_int64 z = true ↔ is_i64 z.
Proof. unfold in_int64, is_i64. rewrite andb_true_iff, Z.leb_le, Z.ltb_lt. done. Qed.

Lemma checked_spec z : checked z = if in_int64 z then Some z else None.
Proof. done. Qed.

(** The three operators on integers. *)
Lemma const_int_op op f combine : int_op op = Some f →
  (op = ADD_OP → combine = const_add) → (op = SUB_OP → combine = const_sub) → (op = MUL_OP → combine = const_mul) →
  ∀ x y, combine (ConstInt x) (ConstInt y) = if in_int64 (f x y) then Some (ConstInt (f x y)) else None.
Proof.
  intros Hf H1 H2 H3 x y. destruct op; simpl in Hf; try done; injection Hf as <-;
    [rewrite H1 by done|rewrite H2 by done|rewrite H3 by done]; unfold const_add, const_sub, const_mul, const_op;
    rewrite checked_spec; by destruct (in_int64 _).
Qed.

Definition folds_exactly (e : ast) : Prop := ∀ n, int_value e = Some n → literals_fit e = true →
  evaluateConstExpr e = if no_overflow e then Some (ConstInt n) else None.

Lemma fold_operands_exact f combine vs : 
  (∀ x y, combine (ConstInt x) (ConstInt y) = if in_int64 (f x y) then Some (ConstInt (f x y)) else None) →
  Forall folds_exactly vs → forallb literals_fit vs = true → ∀ x n,
  (fix go (rest : list ast) (x : Z) : option Z :=
     match rest with [] => Some x | y :: rest => v ← int_value y; go rest (f x v) end) vs x = Some n →
  fold_operands evaluateConstExpr combine false vs (ConstInt x) =
  if (fix go (rest : list ast) (x : Z) : bool :=
        match rest with
        | [] => true
        | y :: rest => let z := f x (default 0 (int_value y)) in no_overflow y && in_int64 z && go rest z
        end) vs x then Some (ConstInt n) else None.
Proof.
  intros Hc. induction 1 as [|y vs Hy _ IH]; intros Hlit x n Hn; [by injection Hn as ->|].
  simpl in Hlit. apply andb_prop in Hlit as [Hl1 Hl2]. destruct (int_value y) as [v|] eqn:Ev; [|done]. simpl in Hn.
  simpl. rewrite (Hy v Ev Hl1). simpl. destruct (no_overflow y); [|done]. simpl. rewrite Hc.
  destruct (in_int64 (f x v)); [|done]. simpl. by apply IH.
Qed.

Lemma folding_exact e : folds_exactly e.
Proof.
  induction e as [op vs IH|e He] using ast_nested_ind.
  - intros n Hn Hlit. destruct vs as [|a rest]; [done|]. simpl in Hn. destruct (length rest =? 0)%nat eqn:El; [done|].
    destruct (int_op op) as [f|] eqn:Ef; [|done]. simpl in Hn. destruct (int_value a) as [x|] eqn:Ea; [|done]. simpl in Hn.
    simpl in Hlit. apply andb_prop in Hlit as [Hl1 Hl2]. inversion IH as [|? ? IHa IHr]; subst.
    set (combine := match op with ADD_OP => const_add | SUB_OP => const_sub | _ => const_mul end).
    assert (Hev : evaluateConstExpr (AstOp op (a :: rest)) = fold_op evaluateConstExpr combine false (a :: rest)) by (by destruct op).
    rewrite Hev. unfold fold_op. rewrite El, (IHa x Ea Hl1). cbn [no_overflow]. rewrite Ef, Ea. simpl.
    destruct (no_overflow a); [|done]. simpl. apply (fold_operands_exact f); [|done|done|done].
    apply (const_int_op op); [done|..]; intros ->; done.
  - intros n Hn Hlit. destruct e; try done; try (by exfalso; eapply He); simpl in Hn, Hlit |- *; injection Hn as <-; rewrite Hlit; try done.
    f_equal. f_equal. apply i64_id. by apply in_int64_iff.
Qed.

(** ** Dependent types *)

Lemma same_each_spec {A} (eq : A → A → bool) (R : A → A → Prop) l l' :
  (∀ x y, eq x y = true ↔ R x y) → same_each eq l l' = true ↔ Forall2 R l l'.
Proof.
  intros He. revert l'. induction l as [|x l IH]; intros [|y l']; simpl; [by split|split; [done|inversion 1]..|].
  rewrite andb_true_iff, He, IH. split; [intros []; by constructor|inversion 1; done].
Qed.

(** The same natural number or the same boolean. *)
Definition same_dim (a b : ct_value) : Prop :=
  (∃ n, a = CTNat n ∧ b = CTNat n) ∨ (∃ c, a = CTBool c ∧ b = CTBool c).

Lemma proved_equal_spec a b : proved_equal a b = true ↔ same_dim a b.
Proof.
  unfold proved_equal, same_dim. destruct a as [n|c| |], b as [m|d| |]; simpl; try (split; [done|naive_solver]).
  - destruct (Z.eqb_spec n m); simpl; naive_solver.
  - destruct (Bool.eqb_spec c d); simpl; naive_solver.
Qed.

(** The relation [DependentType::isSubtypeOf] means to decide. *)
Definition dep_sub (E : type_env) (t u : dependent_type) : Prop :=
  is_sub E (tid (base t)) (tid (base u)) ∧
  Forall2 (λ x y, is_sub E (tid x) (tid y)) (type_indices t) (type_indices u) ∧
  Forall2 same_dim (value_indices t) (value_indices u).

Definition dep_known (E : type_env) (t : dependent_type) : Prop :=
  known E (tid (base t)) ∧ Forall (λ x, known E (tid x)) (type_indices t).

Lemma same_dim_trans a b c : same_dim a b → same_dim b c → same_dim a c.
Proof. intros [(n & -> & ->)|(d & -> & ->)] [(m & [= <-] & ->)|(d' & [= <-] & ->)]; [left|right]; eauto. Qed.

Lemma dep_sub_trans E t u v : dep_sub E t u → dep_sub E u v → dep_sub E t v.
Proof.
  intros (H1 & H2 & H3) (K1 & K2 & K3). split_and!; [by eapply is_sub_trans| |].
  - eapply Forall2_trans; [|exact H2|exact K2]. intros x y z. apply is_sub_trans.
  - eapply Forall2_trans; [|exact H3|exact K3]. intros x y z. apply same_dim_trans.
Qed.

Section subtype.
Context (E : type_env) (HE : env_wf E).

Lemma indices_decided l l' : length l = length l' → Forall (λ x, known E (tid x)) l → Forall (λ x, known E (tid x)) l' →
  decides E (Forall2 (λ x y, is_sub E (tid x) (tid y)) l l') (indices_subtype E l l').
Proof.
  revert l'. induction l as [|x l IH]; intros [|y l'] Hl Hk Hk'; try discriminate; simpl.
  { by apply sound_ret. }
  inversion Hk; inversion Hk'; subst. eapply (sound_bind _ (λ ok, ok = true ↔ is_sub E (tid x) (tid y))).
  - unfold tid_eq. destruct (Z.eqb_spec (tid x) (tid y)) as [Heq|]; [|by apply isSubtype_decides].
    apply sound_ret. split; [|done]. intros _. rewrite Heq. apply is_sub_refl.
  - intros [|] Hx.
    + eapply sound_impl; [|apply IH; [by injection Hl|done|done]]. intros r Hr. rewrite Hr.
      split; [intros; constructor; tauto|inversion 1; done].
    + apply sound_ret. split; [done|]. inversion 1; subst. tauto.
Qed.

Lemma dep_sub_decided t u : dep_known E t → dep_known E u → decides E (dep_sub E t u) (isSubtypeOf E t u).
Proof.
  intros [Kt It] [Ku Iu]. unfold isSubtypeOf. eapply sound_bind; [by apply isSubtype_decides|]. intros [|] Hb; simpl.
  2: { apply sound_ret. split; [done|]. intros [H _]. tauto. }
  destruct (Nat.eqb_spec (length (type_indices t)) (length (type_indices u))) as [Hl|Hl]; simpl.
  2: { apply sound_ret. split; [done|]. intros (_ & H & _). by apply Forall2_length in H. }
  eapply sound_bind; [by apply indices_decided|]. intros [|] Hi; simpl.
  2: { apply sound_ret. split; [done|]. intros (_ & H & _). tauto. }
  apply sound_ret. rewrite (same_each_spec _ same_dim) by apply proved_equal_spec.
  split; [intros; split_and!; tauto|by intros (_ & _ & ?)].
Qed.
End subtype.

Lemma dep_equals_sub E t u : dep_equals t u = true → dep_sub E t u.
Proof.
  unfold dep_equals. rewrite !andb_true_iff, (same_each_spec _ same_dim) by apply proved_equal_spec.
  intros [[Hb Hi] Hv]. unfold tid_eq in Hb. apply Z.eqb_eq in Hb. split_and!; [rewrite Hb; apply is_sub_refl| |done].
  apply (same_each_spec tid_eq (λ x y, tid x = tid y)) in Hi.
  - eapply Forall2_impl; [exact Hi|]. intros x y ->. apply is_sub_refl.
  - intros x y. unfold tid_eq. apply Z.eqb_eq.
Qed.

(** ** Indices and dimensions *)

(** The number a compile-time value stands for, when it is an integer expression
    that folds. *)
Definition ct_int (v : ct_value) : option Z :=
  match v with
  | CTNat n => if 0 <=? n then Some n else None
  | CTExpr e => if literals_fit e && no_overflow e then int_value e else None
  | _ => None
  end.

Lemma try_eval_int v n : ct_int v = Some n → tryEvalNat v = Some (if 0 <=? n then Some n else None).
Proof.
  destruct v as [m| |e|]; simpl; try done.
  - destruct (Z.leb_spec 0 m); [|done]. intros [= ->]. by destruct (Z.leb_spec 0 n); [|lia].
  - destruct (literals_fit e) eqn:Hl; [|done]. destruct (no_overflow e) eqn:Ho; [|done]. simpl. intros Hn.
    by rewrite (folding_exact e n Hn Hl), Ho.
Qed.

(** * The theorems about dependent types and dimension checks *)

#[local] Opaque builtin_env demo_env.

(** ** Samples *)

(** Two times the sum of 1 and 2, seven halves, and vectors of given dimensions. *)
Definition six : ast := AstOp MUL_OP [AstInt64 2; AstOp ADD_OP [AstInt64 1; AstInt64 2]].
Definition seven_halves : ast := AstOp DIV_OP [AstInt64 7; AstInt64 2].
Definition vector_of (t : type_id) (dims : list ct_value) : dependent_type := DependentType Vector [t] dims.

(** ** Properties *)

(** Folding an expression of integer literals, sums, differences and products
    gives exactly its value, and is undefined exactly when a literal or a result on
    the way leaves 64 bits. *)
Theorem constant_folding_exact e n : int_value e = Some n → literals_fit e = true →
  evaluateConstExpr e = if no_overflow e then Some (ConstInt n) else None.
Proof. apply folding_exact. Qed.


(** In every environment a program builds, [DependentType::isSubtypeOf] returns and
    decides the relation that compares base types and type indices by subtyping and
    dimensions by provable equality; structural equality implies it, and the relation
    is transitive. *)
Theorem dependent_subtype E t u : reachable E → dep_known E t → dep_known E u →
  ∃ r c, isSubtypeOf E t u (subtype_cache E) = Some (r, c) ∧ (r = true ↔ dep_sub E t u) ∧
    (dep_equals t u = true → r = true) ∧ (∀ v, r = true → dep_sub E u v → dep_sub E t v).
Proof.
  intros HR Kt Ku. destruct (reachable_inv E HR) as [HE Hc].
  destruct (dep_sub_decided E HE t u Kt Ku _ Hc) as (r & c & Hq & _ & Hr). exists r, c.
  split_and!; [done|done|intros H; by apply Hr, dep_equals_sub|]. intros v H. apply dep_sub_trans. by apply Hr.
Qed.


(** C37: the static checks prove what they claim.  A bounds check that passes has an
    index below its bound, and for natural numbers and integer expressions that fold
    it passes exactly when [0 <= index < bound]; every refusal carries a message.  The
    matrix and dot-product checks pass exactly when the dimensions they compare are
    there and provably equal. *)
Theorem dimension_checks idx bound left right context :
  (∀ r, checkBounds idx bound context = Some r → valid r = true →
     ∃ i b, tryEvalNat idx = Some (Some i) ∧ tryEvalNat bound = Some (Some b) ∧ i < b) ∧
  (∀ i b, ct_int idx = Some i → ct_int bound = Some b →
     ∃ r, checkBounds idx bound context = Some r ∧ (valid r = true ↔ 0 <= i < b) ∧
       (valid r = false → error_message r ≠ EmptyString)) ∧
  (valid (checkMatMulDimensions left right context) = true ↔
     ∃ m n n' p ls rs, value_indices left = m :: n :: ls ∧ value_indices right = n' :: p :: rs ∧ same_dim n n') ∧
  (valid (checkDotProductDimensions left right context) = true ↔
     ∃ n n' ls rs, value_indices left = n :: ls ∧ value_indices right = n' :: rs ∧ same_dim n n').
Proof.
  assert (Heq : ∀ a b c, valid (checkDimensionsEqual a b c) = true ↔ same_dim a b).
  { intros a b c. rewrite <- proved_equal_spec. unfold checkDimensionsEqual, proved_equal. by destruct (ct_equals a b). }
  split_and!.
  - intros r Hr Hv. unfold checkBounds in Hr. destruct (tryEvalNat idx) as [[i|]|]; [| |done];
      (destruct (tryEvalNat bound) as [[b|]|]; [| |done]); simpl in Hr; injection Hr as <-; try done.
    destruct (Z.leb_spec b i); [done|]. by exists i, b.
  - intros i b Hi Hb. unfold checkBounds. rewrite (try_eval_int _ _ Hi), (try_eval_int _ _ Hb). simpl. eexists. split; [reflexivity|].
    destruct (Z.leb_spec 0 i); [destruct (Z.leb_spec 0 b); [destruct (Z.leb_spec b i)|]|]; simpl; (split; [split; [done|lia]|done]).
  - unfold checkMatMulDimensions. destruct (value_indices left) as [|m [|n ls]]; [split; [done|naive_solver]..|].
    destruct (value_indices right) as [|n' [|p rs]]; [split; [done|naive_solver]..|]. rewrite Heq. naive_solver.
  - unfold checkDotProductDimensions. destruct (value_indices left) as [|n ls]; [split; [done|naive_solver]|].
    destruct (value_indices right) as [|n' rs]; [split; [done|naive_solver]|]. rewrite Heq. naive_solver.
Qed.

Lemma dimension_checks_witness :
  ∃ r, checkBounds (CTExpr six) (CTNat 7) "row" = Some r ∧ valid r = true.
Proof.
  destruct (dimension_checks (CTExpr six) (CTNat 7) (vector_of Int64 []) (vector_of Int64 []) "row") as (_ & H & _).
  destruct (H 6 7 eq_refl eq_refl) as (r & Hr & Hv & _). exists r. split; [exact Hr|]. apply Hv. split; [discriminate|reflexivity].
Defined.

(** ** Findings *)

(** A quotient that is no integer is a known dimension all the same. *)
Lemma folded_division_truncates : tryEvalNat (CTExpr seven_halves) = Some (Some 3) ∧
  (∃ r, checkBounds (CTNat 2) (CTExpr seven_halves) EmptyString = Some r ∧ valid r = true).
Proof. split; [reflexivity|]. eexists. split; reflexivity. Qed.

(** Sums of dimensions wrap. *)
Lemma dimension_sum_wraps : ct_add (CTNat UINT64_MAX) (CTNat 3) = Some (CTNat 2).
Proof. reflexivity. Qed.
