(* ===== verification/TensorIndex.v ===== *)
(** * TensorIndex: tensor shapes, strides and indices *)

From S2P Require Export Values.
Local Open Scope Z_scope.

(** * Index arguments and row-major offsets
    (lib/core/runtime_tensor_index.cpp)

    An index argument is a scalar or a list of scalars.  Offsets are [int64_t];
    a pointer that may be NULL is an [option].  The conversion of a double that
    does not fit is the hardware's, [INT64_MIN]. *)

(** A heap pointer to a cons cell. *)
Definition heap_cons (v : value) : option (value * value) :=
  match v with Cons false a car cdr => if a =? 0 then None else Some (car, cdr) | _ => None end.

(** [(int64_t)d]. *)
Definition double_to_i64 (d : double) : Z :=
  if is_finite d && (- 2 ^ 63 <=? trunc_Z d) && (trunc_Z d <? 2 ^ 63) then trunc_Z d else INT64_MIN.

Definition tagged_to_int64 (v : value) : outcome Z :=
  match v with
  | Double d => Ret (double_to_i64 d)
  | _ => if get_base_type (vtype v) =? ESHKOL_VALUE_FLOAT32 then Raised TypeError else Ret (i64 (vraw v))
  end.

Definition eshkol_unwrap_list_index (tv_in : option value) : outcome Z :=
  match tv_in with
  | None => Ret 0
  | Some tv => match heap_cons tv with Some (car, _) => tagged_to_int64 car | None => tagged_to_int64 tv end
  end.

(** [dims[k]]. *)
Definition dim (dims : list Z) (k : nat) : Z := nth k dims 0.

(** The walk along the list, [count] indices read already: the offset and the count. *)
Fixpoint index_walk (dims : list Z) (ndim : Z) (current : value) (count : nat) (linear : Z) : outcome (Z * nat) :=
  match current with
  | Cons false a car cdr =>
      if a =? 0 then Ret (linear, count)
      else if ndim <=? Z.of_nat count then Ret (linear, count)
      else
        value ← tagged_to_int64 car;
        let linear := if (count =? 0)%nat then value else i64 (i64 (linear * dim dims count) + value) in
        index_walk dims ndim cdr (S count) linear
  | _ => Ret (linear, count)
  end.

(** [for (k = from; k < ndim; k++) linear *= dims[k]]. *)
Definition scale_from (dims : list Z) (ndim : Z) (from : nat) (linear : Z) : Z :=
  for_up (Z.to_nat ndim - from) from (λ k linear, i64 (linear * dim dims k)) linear.

Definition eshkol_tensor_linear_from_index_arg (tv_in : option value) (dims : list Z) (ndim : Z) : outcome Z :=
  match tv_in with
  | None => Ret 0
  | Some tv =>
      match heap_cons tv with
      | Some _ => '(linear, count) ← index_walk dims ndim tv 0 0; Ret (scale_from dims ndim count linear)
      | None => tagged_to_int64 tv
      end
  end.

Definition eshkol_tensor_slice_offset_from_index_arg (tv_in : option value) (dims : option (list Z)) (ndim : Z) : outcome Z :=
  match tv_in with
  | None => Ret 0
  | Some tv =>
      match heap_cons tv with
      | Some _ => eshkol_tensor_linear_from_index_arg tv_in (default [] dims) ndim
      | None =>
          linear ← tagged_to_int64 tv;
          match dims with
          | Some dims => if ndim <=? 1 then Ret linear else Ret (scale_from dims ndim 1 linear)
          | None => Ret linear
          end
      end
  end.

Definition eshkol_vref_unwrap_index (vec_tv_in idx_tv_in : option value) : outcome Z :=
  match vec_tv_in, idx_tv_in with
  | Some vec, Some _ =>
      match vec with
      | Tensor a dims _ _ =>
          if a =? 0 then eshkol_unwrap_list_index idx_tv_in
          else eshkol_tensor_linear_from_index_arg idx_tv_in dims (Z.of_nat (length dims))
      | _ => eshkol_unwrap_list_index idx_tv_in
      end
  | _, _ => eshkol_unwrap_list_index idx_tv_in
  end.

Fixpoint cons_count (current : value) (count : Z) : Z :=
  match current with
  | Cons false a _ cdr => if a =? 0 then count else cons_count cdr (count + 1)
  | _ => count
  end.

Definition eshkol_tensor_index_arg_count (tv_in : option value) : Z :=
  match tv_in with
  | None => 1
  | Some tv =>
      match heap_cons tv with
      | Some _ => let count := cons_count tv 0 in if 0 <? count then count else 1
      | None => 1
      end
  end.

(** ** Row-major offsets *)

Definition prod (ds : list Z) : Z := foldr Z.mul 1 ds.

(** The offset of the block the indices select: each index times the size of what
    lies under it. *)
Fixpoint offset (dims idx : list Z) : Z :=
  match dims, idx with
  | d :: dims, i :: idx => i * prod dims + offset dims idx
  | _, _ => 0
  end.

(** One index per leading dimension, each inside it. *)
Inductive in_range : list Z → list Z → Prop :=
| in_range_done dims : in_range dims []
| in_range_next d dims i idx : 0 <= i < d → in_range dims idx → in_range (d :: dims) (i :: idx).

(** The list argument with these indices. *)
Inductive index_list : list Z → value → Prop :=
| index_list_nil : index_list [] vnull
| index_list_cons a i idx v : a ≠ 0 → is_i64 i → index_list idx v → index_list (i :: idx) (Cons false a (Int64 i) v).

(** The dimensions of a tensor whose elements can be counted in 64 bits. *)
Definition dims_ok (dims : list Z) : Prop := Forall (λ d, 0 < d) dims ∧ prod dims < 2 ^ 63.

Lemma prod_nonneg ds : Forall (λ d, 0 <= d) ds → 0 <= prod ds.
Proof. induction 1; simpl; nia. Qed.

Lemma prod_app l l' : prod (l ++ l') = prod l * prod l'.
Proof. induction l as [|x l IH]; simpl; [lia|]. rewrite IH. lia. Qed.

(** A selected block lies inside the tensor. *)
Lemma offset_bound dims idx : Forall (λ d, 0 <= d) dims → in_range dims idx →
  0 <= offset dims idx ∧ offset dims idx + prod (drop (length idx) dims) <= prod dims.
Proof.
  intros Hd Hr. induction Hr as [dims|d dims i idx Hi Hr IH].
  - rewrite drop_0. destruct dims; simpl; lia.
  - inversion Hd as [|? ? H1 H2]; subst. specialize (IH H2). pose proof (prod_nonneg dims H2). simpl. nia.
Qed.

Lemma drop_prod_pos dims idx : in_range dims idx → 0 < prod (drop (length idx) dims) → Forall (λ d, 0 <= d) dims → 0 < prod dims.
Proof. intros Hr Hp Hd. pose proof (offset_bound dims idx Hd Hr). lia. Qed.

(** Two blocks of the same depth that overlap are the same. *)
Lemma offset_inj dims : ∀ idx idx', Forall (λ d, 0 <= d) dims → in_range dims idx → in_range dims idx' →
  length idx = length idx' → 0 < prod (drop (length idx) dims) →
  offset dims idx = offset dims idx' → idx = idx'.
Proof.
  induction dims as [|d dims IH]; intros idx idx' Hd H1 H2 Hl Hp E.
  - inversion H1; inversion H2; subst; done.
  - inversion Hd as [|? ? Hd1 Hd2]; subst.
    inversion H1 as [|? ? i l Hi Hr]; subst; inversion H2 as [|? ? j k Hj Hs]; subst; try done. simpl in *.
    pose proof (drop_prod_pos _ _ Hr Hp Hd2) as Hpos.
    pose proof (offset_bound dims l Hd2 Hr) as [B1 B2]. pose proof (offset_bound dims k Hd2 Hs) as [B3 B4].
    assert (Hlk : length l = length k) by lia. rewrite <- Hlk in B4.
    assert (i = j) as -> by nia. f_equal. apply IH; try done. nia.
Qed.

Lemma pos_nonneg ds : Forall (λ d, 0 < d) ds → Forall (λ d, 0 <= d) ds.
Proof. intros H. eapply Forall_impl; [exact H|]. intros; simpl in *; lia. Qed.

Lemma prod_pos ds : Forall (λ d, 0 < d) ds → 1 <= prod ds.
Proof. induction 1; simpl; nia. Qed.

(** ** The walk computes it by Horner's rule *)

Fixpoint horner (lin : Z) (ds idx : list Z) : Z :=
  match ds, idx with d :: ds, i :: idx => horner (lin * d + i) ds idx | _, _ => lin end.

Lemma horner_offset ds idx : in_range ds idx → ∀ lin,
  horner lin ds idx * prod (drop (length idx) ds) = lin * prod ds + offset ds idx.
Proof.
  induction 1 as [ds|d ds i idx Hi Hr IH]; intros lin; simpl.
  - rewrite drop_0. destruct ds; simpl; lia.
  - rewrite IH. lia.
Qed.

Lemma heap_cons_index i idx v : index_list (i :: idx) v → is_Some (heap_cons v).
Proof. inversion 1; subst. simpl. destruct (Z.eqb_spec a 0); [done|]. by eexists. Qed.

Section walk.
Context (dims : list Z) (Hdims : dims_ok dims).

Lemma index_walk_spec idx v : index_list idx v → ∀ pre ds lin, dims = pre ++ ds → in_range ds idx →
  0 <= lin < prod pre →
  index_walk dims (Z.of_nat (length dims)) v (length pre) lin = Ret (horner lin ds idx, (length pre + length idx)%nat)
  ∧ 0 <= horner lin ds idx < prod (pre ++ take (length idx) ds).
Proof.
  induction 1 as [|a i idx v Ha Hi Hl IH]; intros pre ds lin E Hr Hlin.
  - inversion Hr; subst. cbn [index_walk vnull length horner]. rewrite take_0, app_nil_r, Nat.add_0_r.
    by destruct ds.
  - inversion Hr as [|d ds' ? ? Hid Hr']; subst. destruct Hdims as [Hpos Hbig]. cbn [index_walk].
    destruct (Z.eqb_spec a 0); [done|]. rewrite length_app. cbn [length].
    destruct (Z.leb_spec (Z.of_nat (length pre + S (length ds'))) (Z.of_nat (length pre))); [lia|].
    cbn [tagged_to_int64 vtype vraw get_base_type]. change (get_base_type ESHKOL_VALUE_INT64 =? ESHKOL_VALUE_FLOAT32) with false.
    cbv iota. cbn [mbind outcome_bind]. rewrite (i64_id i) by done.
    apply Forall_app in Hpos as [Hp1 Hp2]. inversion Hp2 as [|? ? Hd Hp3]; subst.
    pose proof (prod_pos _ Hp1). pose proof (prod_pos _ Hp3). rewrite prod_app in Hbig. simpl in Hbig.
    assert (Hdim : dim (pre ++ d :: ds') (length pre) = d).
    { unfold dim. by rewrite app_nth2, Nat.sub_diag by lia. }
    assert (Hb : 0 <= lin * d + i < prod pre * d) by nia.
    assert (Hs : prod pre * d < 2 ^ 63) by nia.
    replace (if (length pre =? 0)%nat then i else i64 (i64 (lin * dim (pre ++ d :: ds') (length pre)) + i)) with (lin * d + i).
    2: { rewrite Hdim. destruct (Nat.eqb_spec (length pre) 0) as [El|].
         - destruct pre; [|done]. simpl in Hlin. nia.
         - rewrite (i64_id (lin * d)) by (unfold is_i64; nia). by rewrite i64_id by (unfold is_i64; nia). }
    assert (Epre : pre ++ d :: ds' = (pre ++ [d]) ++ ds') by (by rewrite <- app_assoc).
    destruct (IH (pre ++ [d]) ds' (lin * d + i)) as [IH1 IH2]; [done|done| |].
    { rewrite prod_app. simpl. lia. }
    rewrite !length_app in IH1. cbn [length] in IH1. rewrite Nat.add_1_r in IH1.
    split; [etransitivity; [exact IH1|]; cbn [horner]; do 2 f_equal; lia|].
    cbn [horner length take]. by rewrite <- app_assoc in IH2.
Qed.

Lemma scale_spec c lin : (c <= length dims)%nat → 0 <= lin <= prod (take c dims) →
  scale_from dims (Z.of_nat (length dims)) c lin = lin * prod (drop c dims).
Proof.
  intros Hc Hlin. unfold scale_from. rewrite Nat2Z.id. destruct Hdims as [Hpos Hbig].
  pose proof (for_up_ind (λ k s, s = lin * prod (take (k - c) (drop c dims)))
    (length dims - c) c (λ k linear, i64 (linear * dim dims k)) lin) as H.
  rewrite H; [|by rewrite Nat.sub_diag, take_0; simpl; lia|].
  - replace (c + (length dims - c) - c)%nat with (length dims - c)%nat by lia. by rewrite take_ge by (rewrite length_drop; lia).
  - intros k s Hk ->. destruct (lookup_lt_is_Some_2 dims k) as [d Hd]; [lia|].
    assert (Ed : dim dims k = d) by (unfold dim; by apply nth_lookup_Some).
    replace (S k - c)%nat with (S (k - c)) by lia.
    rewrite (take_S_r _ (k - c) d) by (rewrite lookup_drop; by replace (c + (k - c))%nat with k by lia).
    rewrite prod_app, Ed. simpl. rewrite Z.mul_1_r, Z.mul_assoc. apply i64_id.
    assert (Eprod : prod dims = prod (take c dims) * (prod (take (k - c) (drop c dims)) * (d * prod (drop (S k) dims)))).
    { rewrite <- (take_drop c dims) at 1. rewrite prod_app. f_equal.
      rewrite <- (take_drop (k - c) (drop c dims)) at 1. rewrite prod_app. f_equal. rewrite drop_drop.
      replace (c + (k - c))%nat with k by lia. by rewrite (drop_S _ d k Hd). }
    assert (H1 : 1 <= prod (take (k - c) (drop c dims))) by (apply prod_pos, Forall_take, Forall_drop; done).
    assert (H2 : 1 <= prod (drop (S k) dims)) by (by apply prod_pos, Forall_drop).
    assert (H3 : 0 < d) by (rewrite Forall_lookup in Hpos; by apply (Hpos k)).
    assert (H4 : 1 <= prod (take c dims)) by (by apply prod_pos, Forall_take).
    unfold is_i64. split; [nia|].
    assert (lin * prod (take (k - c) (drop c dims)) * d <= prod (take c dims) * prod (take (k - c) (drop c dims)) * d) by nia.
    assert (prod (take c dims) * prod (take (k - c) (drop c dims)) * d <= prod dims) by (rewrite Eprod; nia).
    lia.
Qed.
End walk.

(** * Index arguments address the element they spell *)

(** For a list of indices, one per leading dimension and each inside it, the
    offset is the row-major one: the selected element or block lies inside the tensor,
    different indices select disjoint places, the index count is the list's length,
    and [tensor-get] gives a bare scalar the offset of the one-element list. *)
Theorem tensor_index_offset dims idx v : dims_ok dims → idx ≠ [] → in_range dims idx → index_list idx v →
  let ndim := Z.of_nat (length dims) in
  eshkol_tensor_linear_from_index_arg (Some v) dims ndim = Ret (offset dims idx) ∧
  eshkol_tensor_slice_offset_from_index_arg (Some v) (Some dims) ndim = Ret (offset dims idx) ∧
  eshkol_tensor_index_arg_count (Some v) = Z.of_nat (length idx) ∧
  0 <= offset dims idx ∧ offset dims idx + prod (drop (length idx) dims) <= prod dims ∧
  (∀ idx', in_range dims idx' → length idx' = length idx → offset dims idx' = offset dims idx → idx' = idx) ∧
  (∀ i, idx = [i] → eshkol_tensor_slice_offset_from_index_arg (Some (Int64 i)) (Some dims) ndim = Ret (offset dims idx)).
Proof.
  intros Hd Hne Hr Hl ndim. pose proof Hd as [Hpos Hbig]. pose proof (pos_nonneg _ Hpos) as Hnn.
  destruct (offset_bound dims idx Hnn Hr) as [B1 B2].
  assert (Hcons : is_Some (heap_cons v)) by (destruct idx; [done|by eapply heap_cons_index]).
  destruct Hcons as [p Hp].
  assert (Hlen : (length idx <= length dims)%nat) by (clear -Hr; induction Hr; simpl; lia).
  assert (Hlin : eshkol_tensor_linear_from_index_arg (Some v) dims ndim = Ret (offset dims idx)).
  { unfold eshkol_tensor_linear_from_index_arg. rewrite Hp.
    destruct (index_walk_spec dims Hd idx v Hl [] dims 0 eq_refl Hr) as [Hw Hb]; [simpl; lia|].
    cbn [length] in Hw. unfold ndim. rewrite Hw. cbn [mbind outcome_bind]. cbn [length Nat.add] in *.
    rewrite (scale_spec dims Hd) by (simpl in Hb; lia). by rewrite horner_offset. }
  split_and!; [done| | |done|done| |].
  - unfold eshkol_tensor_slice_offset_from_index_arg. by rewrite Hp.
  - unfold eshkol_tensor_index_arg_count. rewrite Hp.
    assert (Hc : ∀ n, cons_count v n = n + Z.of_nat (length idx)).
    { clear -Hl. induction Hl as [|a i idx v Ha Hi Hl IH]; intros n; simpl; [lia|].
      destruct (Z.eqb_spec a 0); [done|]. rewrite IH. lia. }
    rewrite Hc. destruct idx; [done|]. cbn [length]. destruct (Z.ltb_spec 0 (0 + Z.of_nat (S (length idx)))); lia.
  - intros idx' Hr' Hlen' E. apply (offset_inj dims); try done. rewrite Hlen'.
    pose proof (prod_pos (drop (length idx) dims) (Forall_drop _ _ _ Hpos)). lia.
  - intros i ->. inversion Hr as [|d ds ? ? Hi Hr0]; subst. inversion Hl as [|a ? ? w Ha H64 Hl0]; subst.
    unfold eshkol_tensor_slice_offset_from_index_arg. cbn [heap_cons tagged_to_int64 vtype vraw].
    change (get_base_type ESHKOL_VALUE_INT64 =? ESHKOL_VALUE_FLOAT32) with false. cbv iota. cbn [mbind outcome_bind].
    rewrite (i64_id i) by done. cbn [offset]. inversion Hpos; subst.
    assert (E0 : offset ds [] = 0) by (by destruct ds). rewrite E0, Z.add_0_r. unfold ndim.
    destruct (Z.leb_spec (Z.of_nat (length (d :: ds))) 1) as [L|L].
    + destruct ds; [|simpl in L; lia]. simpl. by rewrite Z.mul_1_r.
    + rewrite (scale_spec (d :: ds) (conj Hpos Hbig)); [done|simpl; lia|simpl; lia].
Qed.
