(* ===== verification/CText.v ===== *)
(** * CText: characters and numbers as the C library reads and prints them

    Bytes are [Z]s below 256.  [strtoll] in any radix, [strtod] in the C locale
    with its rounding to nearest, ties to even, and the decimal conversions of
    [printf]. *)

From S2P Require Export Bytes.
Local Open Scope Z_scope.

(** ** Character codes *)

Abbreviation C_TAB := 9.
Abbreviation C_NEWLINE := 10.
Abbreviation C_RETURN := 13.
Abbreviation C_SPACE := 32.
Abbreviation C_DQUOTE := 34.
Abbreviation C_HASH := 35.
Abbreviation C_QUOTE := 39.
Abbreviation C_LPAREN := 40.
Abbreviation C_RPAREN := 41.
Abbreviation C_PLUS := 43.
Abbreviation C_MINUS := 45.
Abbreviation C_DOT := 46.
Abbreviation C_SLASH := 47.
Abbreviation C_ZERO := 48.
Abbreviation C_COLON := 58.
Abbreviation C_SEMICOLON := 59.
Abbreviation C_AT := 64.
Abbreviation C_BACKSLASH := 92.
Abbreviation C_BAR := 124.

Definition in_range (a b c : Z) : bool := (a <=? c) && (c <=? b).
Definition isdigit (c : Z) : bool := in_range 48 57 c.
Definition isspace (c : Z) : bool := in_range 9 13 c || (c =? 32).
Definition islower (c : Z) : bool := in_range 97 122 c.
Definition isupper (c : Z) : bool := in_range 65 90 c.
Definition tolower (c : Z) : Z := if isupper c then c + 32 else c.

(** The value of a digit, in any radix up to 36. *)
Definition digit_value (c : Z) : option Z :=
  if isdigit c then Some (c - 48)
  else if islower c then Some (c - 87)
  else if isupper c then Some (c - 55)
  else None.
Definition is_digit_in (radix c : Z) : bool :=
  match digit_value c with Some v => v <? radix | None => false end.

(** The bytes of a literal. *)
Definition lit (s : string) : bytes := text_bytes s.

(** The longest prefix whose bytes satisfy [p], and the rest. *)
Fixpoint span (p : Z → bool) (l : bytes) : bytes * bytes :=
  match l with
  | c :: l' => if p c then let '(a, b) := span p l' in (c :: a, b) else ([], l)
  | [] => ([], [])
  end.

Definition push_digit_value (radix v c : Z) : Z := v * radix + default 0 (digit_value c).
Definition base_value (radix : Z) (ds : bytes) : Z := fold_left (push_digit_value radix) ds 0.

(** [*p == x], and the text after it. *)
Definition eat (x : Z) (p : bytes) : option bytes :=
  match p with c :: p => if c =? x then Some p else None | [] => None end.

(** An optional sign: whether it is a minus, its length and the rest. *)
Definition c_sign (s : bytes) : bool * nat * bytes :=
  match s with
  | c :: r => if c =? C_MINUS then (true, 1%nat, r) else if c =? C_PLUS then (false, 1%nat, r) else (false, 0%nat, s)
  | [] => (false, 0%nat, s)
  end.

Definition clamp64 (z : Z) : Z := Z.max INT64_MIN (Z.min INT64_MAX z).

(** ** Integers *)

(** The prefix [0x], if a digit follows. *)
Definition hex_prefix (s : bytes) : bool :=
  match s with z :: x :: c :: _ => (z =? 48) && (tolower x =? 120) && is_digit_in 16 c | _ => false end.

(** The value, the number of bytes taken, and whether [errno] is [ERANGE]. *)
Definition strtoll (s : bytes) (radix : Z) : Z * nat * bool :=
  let '(ws, r) := span isspace s in
  let '(neg, k, r) := c_sign r in
  let h := if (radix =? 16) && hex_prefix r then 2%nat else 0%nat in
  let '(ds, _) := span (is_digit_in radix) (drop h r) in
  match ds with
  | [] => (0, 0%nat, false)
  | _ =>
      let z := signed neg (base_value radix ds) in
      (clamp64 z, (length ws + k + h + length ds)%nat, negb (clamp64 z =? z))
  end.

(** ** Rounding *)

(** [n / d] to the nearest integer, ties to even. *)
Definition rounded_quotient (n d : Z) : Z :=
  let q := n / d in
  let r := n mod d in
  if (d <? 2 * r) || ((2 * r =? d) && Z.odd q) then q + 1 else q.

(** [n / d] to the nearest double: [t] is its exponent over the least one. *)
Definition round_ratio (s : bool) (n d : Z) : double :=
  let N := n * 2 ^ 1074 in
  let t := Z.max (Z.log2 (N / d) - 52) 0 in
  let m := rounded_quotient N (d * 2 ^ t) in
  let '(m, t) := if m =? 2 ^ 53 then (2 ^ 52, t + 1) else (m, t) in
  if m =? 0 then S754_zero s
  else if 2045 <? t then S754_infinity s
  else S754_finite s (Z.to_pos m) (t - 1074).

(** [m * b^e] to the nearest double. *)
Definition round_power (s : bool) (m b e : Z) : double :=
  if 0 <=? e then round_ratio s (m * b ^ e) 1 else round_ratio s m (b ^ (- e)).

(** ** Doubles *)

(** [e] or [p], a sign and digits: the exponent and its length, none if incomplete. *)
Definition exponent (marker : Z) (s : bytes) : Z * nat :=
  match s with
  | c :: r =>
      if tolower c =? marker then
        let '(neg, k, r) := c_sign r in
        let '(ds, _) := span isdigit r in
        match ds with [] => (0, 0%nat) | _ => (signed neg (base_value 10 ds), (1 + k + length ds)%nat) end
      else (0, 0%nat)
  | [] => (0, 0%nat)
  end.

(** Digits with an optional point: all of them, how many after the point, the length. *)
Definition mantissa (digit : Z → bool) (s : bytes) : bytes * nat * nat :=
  let '(a, r) := span digit s in
  match eat C_DOT r with
  | Some r' =>
      let '(b, _) := span digit r' in
      match a ++ b with [] => ([], 0%nat, 0%nat) | ds => (ds, length b, (length a + 1 + length b)%nat) end
  | None => (a, 0%nat, length a)
  end.

Definition decimal_float (neg : bool) (s : bytes) : double * nat :=
  let '(ds, frac, n) := mantissa isdigit s in
  match ds with
  | [] => (S754_zero neg, 0%nat)
  | _ =>
      let '(e, k) := exponent 101 (drop n s) in
      (round_power neg (base_value 10 ds) 10 (e - Z.of_nat frac), (n + k)%nat)
  end.

Definition hex_float (neg : bool) (s : bytes) : double * nat :=
  let '(ds, frac, n) := mantissa (is_digit_in 16) s in
  match ds with
  | [] => (S754_zero neg, 0%nat)
  | _ =>
      let '(e, k) := exponent 112 (drop n s) in
      (round_power neg (base_value 16 ds) 2 (e - 4 * Z.of_nat frac), (n + k)%nat)
  end.

Definition starts_ci (word s : bytes) : bool := bool_decide (map tolower (take (length word) s) = word).

(** The [n-char-sequence] after [nan], parentheses included. *)
Definition nan_payload (s : bytes) : nat :=
  match eat C_LPAREN s with
  | Some r =>
      let '(cs, r') := span (λ c, isdigit c || islower c || isupper c || (c =? 95)) r in
      match eat C_RPAREN r' with Some _ => (length cs + 2)%nat | None => 0%nat end
  | None => 0%nat
  end.

(** The value and the number of bytes taken. *)
Definition strtod (s : bytes) : double * nat :=
  let '(ws, r) := span isspace s in
  let '(neg, k, r) := c_sign r in
  let '(d, n) :=
    if starts_ci (lit "infinity") r then (S754_infinity neg, 8%nat)
    else if starts_ci (lit "inf") r then (S754_infinity neg, 3%nat)
    else if starts_ci (lit "nan") r then (S754_nan, (3 + nan_payload (drop 3 r))%nat)
    else if hex_prefix r then let '(d, n) := hex_float neg (drop 2 r) in (d, (2 + n)%nat)
    else decimal_float neg r in
  match n with O => (d_zero, 0%nat) | _ => (d, (length ws + k + n)%nat) end.

(** ** [printf] *)

(** A minus sign where the number is negative. *)
Definition minus_text (negative : bool) : bytes := if negative then [C_MINUS] else [].

Definition digit_of (v : Z) : Z := 48 + v.

(** [%llu]: the digits from the last one. *)
Fixpoint decimal_rev (fuel : nat) (z : Z) : bytes :=
  match fuel with
  | O => []
  | S fuel => digit_of (z mod 10) :: (if z <? 10 then [] else decimal_rev fuel (z / 10))
  end.
Definition print_nat (z : Z) : bytes := rev (decimal_rev (S (Z.to_nat (Z.log2 z))) z).

(** [%lld]. *)
Definition print_int (z : Z) : bytes := minus_text (z <? 0) ++ print_nat (Z.abs z).

(** The last [n] digits. *)
Fixpoint print_digits (n : nat) (z : Z) : bytes :=
  match n with O => [] | S n => print_digits n (z / 10) ++ [digit_of (z mod 10)] end.

(** [%x] and [%X], [a] being the code of the digit ten. *)
Definition hex_digit (a v : Z) : Z := if v <? 10 then 48 + v else a + (v - 10).
Fixpoint hex_rev (a : Z) (fuel : nat) (z : Z) : bytes :=
  match fuel with
  | O => []
  | S fuel => hex_digit a (z mod 16) :: (if z <? 16 then [] else hex_rev a fuel (z / 16))
  end.
Definition print_hex (a z : Z) : bytes := rev (hex_rev a (S (Z.to_nat (Z.log2 z))) z).

(** The exponent of [%e]: a sign and at least two digits. *)
Definition print_exponent (k : Z) : bytes :=
  (if k <? 0 then C_MINUS else C_PLUS) :: (if Z.abs k <? 10 then [C_ZERO] else []) ++ print_nat (Z.abs k).

(** [n / d] as [n' / d' * 10^k] with [d' <= n' < 10 d']. *)
Fixpoint leading_digit (fuel : nat) (n d k : Z) : Z * Z * Z :=
  match fuel with
  | O => (n, d, k)
  | S fuel =>
      if n <? d then leading_digit fuel (10 * n) d (k - 1)
      else if 10 * d <=? n then leading_digit fuel n (10 * d) (k + 1)
      else (n, d, k)
  end.

(** The [p + 1] digits of [%.*e] as an integer, and the exponent. *)
Definition e_digits (p : nat) (n d : Z) : Z * Z :=
  let '(n, d, k) := leading_digit 400 n d 0 in
  let D := rounded_quotient (n * 10 ^ Z.of_nat p) d in
  if D =? 10 ^ (Z.of_nat p + 1) then (10 ^ Z.of_nat p, k + 1) else (D, k).

(** [%.*e] of a finite double. *)
Definition print_e (p : nat) (v : double) : bytes :=
  match v with
  | S754_finite s m e =>
      let '(D, k) := e_digits p (Zpos m * 2 ^ Z.max e 0) (2 ^ Z.max (- e) 0) in
      let ds := print_digits (S p) D in
      minus_text s ++ take 1 ds ++ (match p with O => [] | _ => C_DOT :: drop 1 ds end)
      ++ [101] ++ print_exponent k
  | _ => []
  end.

(** ** UTF-8 *)

Definition utf8_bytes (cp : Z) : bytes :=
  if cp <? 0x80 then [cp]
  else if cp <? 0x800 then [Z.lor 0xC0 (Z.shiftr cp 6); Z.lor 0x80 (Z.land cp 0x3F)]
  else if cp <? 0x10000 then
    [Z.lor 0xE0 (Z.shiftr cp 12); Z.lor 0x80 (Z.land (Z.shiftr cp 6) 0x3F); Z.lor 0x80 (Z.land cp 0x3F)]
  else
    [Z.lor 0xF0 (Z.shiftr cp 18); Z.lor 0x80 (Z.land (Z.shiftr cp 12) 0x3F);
     Z.lor 0x80 (Z.land (Z.shiftr cp 6) 0x3F); Z.lor 0x80 (Z.land cp 0x3F)].
