(* ===== verification/CTextSpec.v ===== *)
(** * CTextSpec: rounding and the C library's text of numbers *)

From S2P Require Export CText.
Local Open Scope Z_scope.

(** * Rounding a ratio to the nearest double

    The result depends on the value of the ratio only, and a ratio closer to a
    double than half the gap to its neighbours is rounded to it. *)

Lemma rounded_quotient_scale k n d : 0 < k → 0 < d → rounded_quotient (k * n) (k * d) = rounded_quotient n d.
Proof.
  intros Hk Hd. unfold rounded_quotient. rewrite Z.div_mul_cancel_l, Z.mul_mod_distr_l by lia.
  assert ((k * d <? 2 * (k * (n mod d))) = (d <? 2 * (n mod d))) as ->.
  { destruct (Z.ltb_spec d (2 * (n mod d))), (Z.ltb_spec (k * d) (2 * (k * (n mod d)))); nia. }
  assert ((2 * (k * (n mod d)) =? k * d) = (2 * (n mod d) =? d)) as ->.
  { destruct (Z.eqb_spec (2 * (n mod d)) d), (Z.eqb_spec (2 * (k * (n mod d))) (k * d)); nia. }
  done.
Qed.

(** Closer than one half. *)
Lemma rounded_quotient_near n d m : 0 < d → d * (2 * m - 1) < 2 * n < d * (2 * m + 1) → rounded_quotient n d = m.
Proof.
  intros Hd H. unfold rounded_quotient. pose proof (Z.div_mod n d ltac:(lia)) as E.
  pose proof (Z.mod_pos_bound n d Hd) as Hr. set (q := n / d) in *. set (r := n mod d) in *.
  assert (q = m ∧ 2 * r < d ∨ q = m - 1 ∧ d < 2 * r) as [[-> ?]|[-> ?]].
  { assert (m - 1 <= q <= m) by nia. destruct (Z.eq_dec q m); [left|right]; nia. }
  - destruct (Z.ltb_spec d (2 * r)); [lia|]. destruct (Z.eqb_spec (2 * r) d); [lia|]. done.
  - destruct (Z.ltb_spec d (2 * r)); [|lia]. cbn [orb]. lia.
Qed.

(** Never further than one half. *)
Lemma rounded_quotient_bounds n d : 0 < d →
  d * (2 * rounded_quotient n d - 1) <= 2 * n <= d * (2 * rounded_quotient n d + 1).
Proof.
  intros Hd. unfold rounded_quotient. pose proof (Z.div_mod n d ltac:(lia)) as E.
  pose proof (Z.mod_pos_bound n d Hd) as Hr. set (q := n / d) in *. set (r := n mod d) in *.
  destruct (Z.ltb_spec d (2 * r)); cbn [orb]; [nia|].
  destruct (Z.eqb_spec (2 * r) d); cbn [andb]; [destruct (Z.odd q); nia|nia].
Qed.

(** ** The value decides *)

Lemma round_ratio_scale s k n d : 0 < k → 0 < d → round_ratio s (k * n) (k * d) = round_ratio s n d.
Proof.
  intros Hk Hd. unfold round_ratio. rewrite <- Z.mul_assoc, Z.div_mul_cancel_l by lia.
  rewrite <- Z.mul_assoc, rounded_quotient_scale; [done|done|].
  set (t := Z.max _ 0). pose proof (Z.pow_pos_nonneg 2 t ltac:(lia) ltac:(lia)). nia.
Qed.

Lemma round_ratio_eq s n d n' d' : 0 < d → 0 < d' → n * d' = n' * d → round_ratio s n d = round_ratio s n' d'.
Proof.
  intros Hd Hd' E. rewrite <- (round_ratio_scale s d' n d), <- (round_ratio_scale s d n' d') by done.
  by rewrite (Z.mul_comm d' n), (Z.mul_comm d n'), E, (Z.mul_comm d' d).
Qed.

(** [m * b^j] times [b^e] is [m] times [b^(e + j)]. *)
Lemma round_power_shift s m b j e : 1 < b → 0 <= j → round_power s (m * b ^ j) b e = round_power s m b (e + j).
Proof.
  intros Hb Hj. unfold round_power.
  assert (Hp : ∀ i, 0 <= i → 0 < b ^ i) by (intros; apply Z.pow_pos_nonneg; lia).
  destruct (Z.leb_spec 0 e), (Z.leb_spec 0 (e + j)); [|lia| |].
  - rewrite <- Z.mul_assoc, <- Z.pow_add_r by lia. do 3 f_equal. lia.
  - apply round_ratio_eq; [apply Hp; lia|lia|]. rewrite Z.mul_1_r, <- Z.mul_assoc, <- Z.pow_add_r by lia.
    do 2 f_equal. lia.
  - apply round_ratio_eq; [apply Hp; lia|apply Hp; lia|]. rewrite <- Z.mul_assoc, <- Z.pow_add_r by lia.
    do 2 f_equal. lia.
Qed.

(** ** The nearest double *)

(** [2^k <= N / d < 2^(k + 1)], the quotient not computed. *)
Lemma log2_quotient N d k : 0 < d → 0 <= k → d * 2 ^ k <= N < d * 2 ^ (k + 1) → Z.log2 (N / d) = k.
Proof.
  intros Hd Hk [H1 H2]. apply Z.log2_unique; [done|]. split.
  - apply Z.div_le_lower_bound; lia.
  - apply Z.div_lt_upper_bound; [done|]. by replace (Z.succ k) with (k + 1) by lia.
Qed.

Lemma log2_quotient_small N d k : 0 < d → 0 <= k → 0 <= N < d * 2 ^ (k + 1) → Z.log2 (N / d) <= k.
Proof.
  intros Hd Hk [H1 H2]. destruct (Z.eq_dec (N / d) 0) as [->|Hne]; [done|].
  pose proof (Z.div_pos N d H1 Hd). apply Z.lt_succ_r, Z.log2_lt_pow2; [lia|].
  apply Z.div_lt_upper_bound; [done|]. by replace (Z.succ k) with (k + 1) by lia.
Qed.

(** The last step: the mantissa found at the exponent [t]. *)
Lemma round_ratio_at s n d t m : 0 < d → Z.max (Z.log2 (n * 2 ^ 1074 / d) - 52) 0 = t →
  rounded_quotient (n * 2 ^ 1074) (d * 2 ^ t) = m →
  round_ratio s n d =
    let '(m, t) := if m =? 2 ^ 53 then (2 ^ 52, t + 1) else (m, t) in
    if m =? 0 then S754_zero s
    else if 2045 <? t then S754_infinity s
    else S754_finite s (Z.to_pos m) (t - 1074).
Proof. intros Hd <- <-. reflexivity. Qed.

(** A ratio within half the gap above and below [M * 2^T / 2^1074]; below the
    least mantissa the gap is half as wide. *)
Lemma round_ratio_near s n d M T : 0 < d → 0 <= n →
  0 < M < 2 ^ 53 → 0 <= T <= 2045 → (T = 0 ∨ 2 ^ 52 <= M) →
  let N := n * 2 ^ 1074 in
  d * 2 ^ T * (2 * M - 1) < 2 * N < d * 2 ^ T * (2 * M + 1) →
  (M = 2 ^ 52 → 0 < T → d * 2 ^ T * (4 * M - 1) < 4 * N) →
  round_ratio s n d = S754_finite s (Z.to_pos M) (T - 1074).
Proof.
  intros Hd Hn HM HT Hnorm N Hnear Hleast. pose proof (Z.pow_pos_nonneg 2 T ltac:(lia) ltac:(lia)) as HP.
  set (P := 2 ^ T) in *. assert (HdP : 0 < d * P) by nia.
  destruct (decide (M = 2 ^ 52 ∧ 0 < T ∧ N < d * P * M)) as [(EM & HT0 & Hlow)|Hhigh].
  - assert (EP : P = 2 * 2 ^ (T - 1)) by (unfold P; rewrite <- Z.pow_succ_r by lia; f_equal; lia).
    set (P' := 2 ^ (T - 1)) in *. assert (0 < P') by lia.
    specialize (Hleast EM HT0).
    rewrite (round_ratio_at s n d (T - 1) (2 ^ 53) Hd).
    + change (2 ^ 53 =? 2 ^ 53) with true. cbv iota. change (2 ^ 52 =? 0) with false. cbv iota.
      replace (T - 1 + 1) with T by lia. destruct (Z.ltb_spec 2045 T); [lia|]. by rewrite EM.
    + fold N. rewrite (log2_quotient N d (T + 51) Hd ltac:(lia)); [lia|].
      replace (T + 51) with (T - 1 + 52) at 1 by lia. replace (T + 51 + 1) with (T + 52) by lia.
      rewrite !Z.pow_add_r by lia. fold P P'. change (2 ^ 52) with 4503599627370496 in *. nia.
    + fold N P'. apply rounded_quotient_near; [nia|]. change (2 ^ 53) with 9007199254740992.
      change (2 ^ 52) with 4503599627370496 in *. nia.
  - assert (HN : T = 0 ∨ d * P * 2 ^ 52 <= N).
    { destruct (Z.eq_dec T 0) as [|HT0]; [by left|]. right. destruct Hnorm as [|Hnorm]; [done|].
      destruct (Z.eq_dec M (2 ^ 52)) as [EM|NM]; [rewrite <- EM; apply Z.nlt_ge; intros ?; apply Hhigh; lia|].
      nia. }
    assert (HN' : N < d * P * 2 ^ 53) by nia.
    rewrite (round_ratio_at s n d T M Hd).
    + destruct (Z.eqb_spec M (2 ^ 53)); [lia|]. destruct (Z.eqb_spec M 0); [lia|].
      destruct (Z.ltb_spec 2045 T); [lia|]. done.
    + fold N. destruct HN as [->|HN].
      * pose proof (log2_quotient_small N d 52 Hd ltac:(lia)) as Hl. change (52 + 1) with 53 in Hl.
        change P with 1 in HN'. specialize (Hl ltac:(unfold N; nia)). lia.
      * rewrite (log2_quotient N d (T + 52) Hd ltac:(lia)); [lia|].
        replace (T + 52 + 1) with (T + 53) by lia. rewrite !Z.pow_add_r by lia. fold P. nia.
    + fold N P. apply rounded_quotient_near; nia.
Qed.

(** One part in [2 * 10^16] is within half a gap. *)
Lemma round_ratio_close s m e n d : is_double (S754_finite s m e) → 0 < d → 0 <= n →
  let x := d * (Zpos m * 2 ^ (e + 1074)) in
  2 * 10 ^ 16 * Z.abs (n * 2 ^ 1074 - x) <= x →
  round_ratio s n d = S754_finite s m e.
Proof.
  intros Hv Hd Hn x Hx. destruct (finite_fields s m e Hv) as (H1 & H2 & H3).
  pose proof (Z.pow_pos_nonneg 2 (e + 1074) ltac:(lia) ltac:(lia)) as HP.
  rewrite (round_ratio_near s n d (Zpos m) (e + 1074) Hd Hn); [by rewrite Z.add_simpl_r|lia|lia|lia|..];
    set (P := 2 ^ (e + 1074)) in *; set (N := n * 2 ^ 1074) in *; unfold x in Hx;
    replace (d * (Zpos m * P)) with (d * P * Zpos m) in Hx by ring;
    assert (HU : 0 < d * P) by nia; set (U := d * P) in *;
    change (2 * 10 ^ 16) with 20000000000000000 in Hx; change (2 ^ 53) with 9007199254740992 in *;
    change (2 ^ 52) with 4503599627370496 in *.
  - nia.
  - intros EM _. rewrite EM in *. nia.
Qed.

(** * Reading back what is printed *)

(** ** Spans of digits *)

(** The next byte, if any, does not satisfy [p]. *)
Definition stops (p : Z → bool) (l : bytes) : Prop := match l with [] => True | c :: _ => p c = false end.

Lemma span_app p a b : Forall (λ c, p c = true) a → stops p b → span p (a ++ b) = (a, b).
Proof.
  intros Ha Hb. induction Ha as [|c a Hc _ IH]; simpl.
  - destruct b as [|c b]; [done|]. simpl in *. by rewrite Hb.
  - by rewrite Hc, IH.
Qed.

Lemma span_all p a : Forall (λ c, p c = true) a → span p a = (a, []).
Proof. intros Ha. rewrite <- (app_nil_r a) at 1. by apply span_app. Qed.

Lemma span_none p b : stops p b → span p b = ([], b).
Proof. apply (span_app p []). constructor. Qed.

Lemma length_pos {A} (x : list A) : x ≠ [] → ∃ a l, x = a :: l.
Proof. destruct x; [done|]. eauto. Qed.

Abbreviation digits := (Forall (λ c, isdigit c = true)).

Lemma in_range_spec a b c : in_range a b c = true ↔ a <= c <= b.
Proof. unfold in_range. rewrite andb_true_iff, !Z.leb_le. done. Qed.

Lemma isdigit_spec c : isdigit c = true ↔ 48 <= c <= 57.
Proof. apply in_range_spec. Qed.

Lemma digit_value_digit c : isdigit c = true → default 0 (digit_value c) = c - 48.
Proof. unfold digit_value. by intros ->. Qed.

Lemma is_digit_in_10 c : is_digit_in 10 c = isdigit c.
Proof.
  unfold is_digit_in, digit_value, isdigit, islower, isupper, in_range.
  destruct (Z.leb_spec 48 c), (Z.leb_spec c 57), (Z.leb_spec 97 c), (Z.leb_spec c 122), (Z.leb_spec 65 c), (Z.leb_spec c 90);
    cbn [andb]; try lia; try done; first [apply Z.ltb_lt; lia|apply Z.ltb_ge; lia].
Qed.

Lemma digits_in_10 ds : digits ds → Forall (λ c, is_digit_in 10 c = true) ds.
Proof. intros H. eapply Forall_impl; [exact H|]. intros c. by rewrite is_digit_in_10. Qed.

Lemma isdigit_digit_of v : 0 <= v < 10 → isdigit (digit_of v) = true.
Proof. intros. apply isdigit_spec. unfold digit_of. lia. Qed.

(** ** Values *)

Lemma base_value_from b v ds : fold_left (push_digit_value b) ds v = v * b ^ Z.of_nat (length ds) + base_value b ds.
Proof.
  unfold base_value. revert v. induction ds as [|c ds IH]; intros v; cbn [fold_left length].
  - change (Z.of_nat 0) with 0. rewrite Z.pow_0_r. lia.
  - rewrite (IH (push_digit_value b v c)), (IH (push_digit_value b 0 c)). unfold push_digit_value.
    rewrite Nat2Z.inj_succ, Z.pow_succ_r by lia. ring.
Qed.

Lemma base_value_app b x y : base_value b (x ++ y) = base_value b x * b ^ Z.of_nat (length y) + base_value b y.
Proof. unfold base_value at 1. rewrite fold_left_app. apply base_value_from. Qed.

Lemma base_value_cons b c ds : base_value b (c :: ds) = default 0 (digit_value c) * b ^ Z.of_nat (length ds) + base_value b ds.
Proof. change (c :: ds) with ([c] ++ ds). rewrite base_value_app. done. Qed.

Lemma base_value_zeros b n : base_value b (replicate n C_ZERO) = 0.
Proof. induction n as [|n IH]; [done|]. cbn [replicate]. rewrite base_value_cons, IH. done. Qed.

Lemma base_value_nonneg ds : digits ds → 0 <= base_value 10 ds.
Proof.
  induction 1 as [|c ds Hc _ IH]; [done|]. rewrite base_value_cons, (digit_value_digit c Hc).
  apply isdigit_spec in Hc. pose proof (Z.pow_pos_nonneg 10 (Z.of_nat (length ds)) ltac:(lia) ltac:(lia)). nia.
Qed.

Lemma base_value_snoc ds v : 0 <= v < 10 → base_value 10 (ds ++ [digit_of v]) = base_value 10 ds * 10 + v.
Proof.
  intros Hv. rewrite base_value_app. change (10 ^ Z.of_nat (length [digit_of v])) with 10. f_equal.
  rewrite base_value_cons, (digit_value_digit _ (isdigit_digit_of v Hv)). unfold digit_of, base_value. simpl. lia.
Qed.

Lemma base_value_digit v : 0 <= v < 10 → base_value 10 [digit_of v] = v.
Proof. intros Hv. rewrite (base_value_snoc [] v Hv : base_value 10 [digit_of v] = _). done. Qed.

Lemma decimal_rev_spec fuel z : 0 <= z < 10 ^ Z.of_nat (S fuel) →
  let ds := rev (decimal_rev (S fuel) z) in
  digits ds ∧ base_value 10 ds = z ∧ ds ≠ [] ∧ ∀ n, z < 10 ^ Z.of_nat (S n) → (length ds <= S n)%nat.
Proof.
  revert z. induction fuel as [|fuel IH]; intros z Hz ds; unfold ds; clear ds.
  - change (10 ^ Z.of_nat 1) with 10 in Hz. cbn [decimal_rev]. destruct (Z.ltb_spec z 10); [|lia]. cbn [rev app].
    rewrite Z.mod_small by lia. split_and!; [|by rewrite base_value_digit by lia|done|simpl; lia].
    constructor; [by apply isdigit_digit_of|constructor].
  - pose proof (Z.mod_pos_bound z 10 ltac:(lia)) as Hm. pose proof (Z.div_mod z 10 ltac:(lia)) as E.
    remember (S fuel) as f eqn:Ef. cbn [decimal_rev]. subst f. destruct (Z.ltb_spec z 10).
    + cbn [rev app]. split_and!; [|rewrite base_value_digit by lia; apply Z.mod_small; lia|done|simpl; lia].
      constructor; [by apply isdigit_digit_of|constructor].
    + rewrite Nat2Z.inj_succ, Z.pow_succ_r in Hz by lia.
      destruct (IH (z / 10)) as (H1 & H2 & H3 & H4).
      { split; [apply Z.div_pos; lia|apply Z.div_lt_upper_bound; lia]. }
      cbn [rev]. split_and!.
      * apply Forall_app_2; [done|]. constructor; [by apply isdigit_digit_of|constructor].
      * rewrite base_value_snoc, H2 by done. lia.
      * intros E'. by apply app_eq_nil in E' as [? ?].
      * intros n Hn. rewrite length_app. cbn [length]. destruct n as [|n].
        { change (10 ^ Z.of_nat 1) with 10 in Hn. lia. }
        rewrite Nat2Z.inj_succ, Z.pow_succ_r in Hn by lia.
        specialize (H4 n ltac:(apply Z.div_lt_upper_bound; lia)). lia.
Qed.

Lemma print_nat_spec z : 0 <= z →
  digits (print_nat z) ∧ base_value 10 (print_nat z) = z ∧ print_nat z ≠ []
  ∧ ∀ n, z < 10 ^ Z.of_nat (S n) → (length (print_nat z) <= S n)%nat.
Proof.
  intros Hz. unfold print_nat. apply decimal_rev_spec. split; [done|].
  rewrite Nat2Z.inj_succ, Z2Nat.id by apply Z.log2_nonneg. destruct (Z.eq_dec z 0) as [->|]; [done|].
  eapply Z.lt_le_trans; [apply (Z.log2_spec z); lia|]. apply Z.pow_le_mono_l. pose proof (Z.log2_nonneg z). lia.
Qed.

Lemma print_digits_spec n z : 0 <= z < 10 ^ Z.of_nat n →
  digits (print_digits n z) ∧ base_value 10 (print_digits n z) = z ∧ length (print_digits n z) = n.
Proof.
  revert z. induction n as [|n IH]; intros z Hz.
  - change (10 ^ Z.of_nat 0) with 1 in Hz. split_and!; [constructor|unfold base_value; simpl; lia|done].
  - rewrite Nat2Z.inj_succ, Z.pow_succ_r in Hz by lia. pose proof (Z.mod_pos_bound z 10 ltac:(lia)) as Hm.
    destruct (IH (z / 10)) as (H1 & H2 & H3).
    { split; [apply Z.div_pos; lia|apply Z.div_lt_upper_bound; lia]. }
    cbn [print_digits]. split_and!.
    + apply Forall_app_2; [done|]. constructor; [by apply isdigit_digit_of|constructor].
    + rewrite base_value_snoc, H2 by done. pose proof (Z.div_mod z 10 ltac:(lia)). lia.
    + rewrite length_app, H3. simpl. lia.
Qed.

(** ** Integers *)

Lemma isspace_digit c : isdigit c = true → isspace c = false.
Proof.
  rewrite isdigit_spec. intros. unfold isspace, in_range. destruct (Z.leb_spec c 13); [lia|].
  rewrite andb_false_r. cbn [orb]. apply Z.eqb_neq. lia.
Qed.

Lemma eat_cons x l : eat x (x :: l) = Some l.
Proof. unfold eat. by rewrite Z.eqb_refl. Qed.

Lemma eat_digit x c l : isdigit c = true → isdigit x = false → eat x (c :: l) = None.
Proof. intros Hc Hx. unfold eat. destruct (Z.eqb_spec c x) as [->|]; [congruence|done]. Qed.

(** The text of an optional sign. *)
Definition sign_text (sg : bytes) (neg : bool) : Prop :=
  sg = [] ∧ neg = false ∨ sg = [C_MINUS] ∧ neg = true ∨ sg = [C_PLUS] ∧ neg = false.

Lemma minus_sign neg : sign_text (minus_text neg) neg.
Proof. destruct neg; unfold sign_text; eauto. Qed.

Lemma c_sign_digits sg neg ds r : sign_text sg neg → digits ds → ds ≠ [] →
  span isspace (sg ++ ds ++ r) = ([], sg ++ ds ++ r) ∧ c_sign (sg ++ ds ++ r) = (neg, length sg, ds ++ r).
Proof.
  intros Hsg Hds (c & l & ->)%length_pos. apply Forall_cons in Hds as [Hc _].
  destruct Hsg as [[-> ->]|[[-> ->]|[-> ->]]]; [|done|done].
  cbn [app]. split; [apply span_none; simpl; by apply isspace_digit|].
  apply isdigit_spec in Hc. unfold c_sign. destruct (Z.eqb_spec c C_MINUS); [lia|]. destruct (Z.eqb_spec c C_PLUS); [lia|]. done.
Qed.

Lemma strtoll_digits sg neg ds r : sign_text sg neg → digits ds → ds ≠ [] → stops isdigit r →
  strtoll (sg ++ ds ++ r) 10 =
    (clamp64 (signed neg (base_value 10 ds)), (length sg + length ds)%nat,
     negb (clamp64 (signed neg (base_value 10 ds)) =? signed neg (base_value 10 ds))).
Proof.
  intros Hsg Hds Hne Hr. unfold strtoll. destruct (c_sign_digits sg neg ds r Hsg Hds Hne) as [-> ->].
  change ((10 =? 16) && hex_prefix (ds ++ r)) with false. cbv iota. rewrite drop_0, span_app; [|by apply digits_in_10|].
  - apply length_pos in Hne as (c & l & ->). f_equal. f_equal. simpl. lia.
  - destruct r as [|c r]; [done|]. simpl in *. by rewrite is_digit_in_10.
Qed.

Lemma print_int_minus z : ∃ ds, print_int z = minus_text (z <? 0) ++ ds ∧ digits ds ∧ ds ≠ []
  ∧ signed (z <? 0) (base_value 10 ds) = z ∧ ∀ n, Z.abs z < 10 ^ Z.of_nat (S n) → (length ds <= S n)%nat.
Proof.
  destruct (print_nat_spec (Z.abs z) ltac:(lia)) as (H1 & H2 & H3 & H4). exists (print_nat (Z.abs z)).
  split_and!; [done|done|done| |done]. rewrite H2. destruct (Z.ltb_spec z 0); simpl; lia.
Qed.

Lemma clamp64_id z : is_i64 z → clamp64 z = z.
Proof. unfold clamp64, is_i64, INT64_MAX, INT64_MIN. lia. Qed.

Lemma strtoll_print_int z r : is_i64 z → stops isdigit r → strtoll (print_int z ++ r) 10 = (z, length (print_int z), false).
Proof.
  intros Hz Hr. destruct (print_int_minus z) as (ds & -> & H1 & H2 & H3 & _). rewrite <- app_assoc.
  rewrite (strtoll_digits _ (z <? 0)) by (done || apply minus_sign). by rewrite H3, clamp64_id, Z.eqb_refl, length_app.
Qed.
