(* ===== verification/DoubleText.v ===== *)
(** * DoubleText: doubles as text (inc/eshkol/core/dtoa_shortest.h,
    inc/eshkol/core/float32_format.h, [eshkol_format_double] of
    lib/core/runtime_display_hosted.cpp)

    The buffers are the bytes before the terminating NUL; [cap] is the caller's
    capacity. *)

From S2P Require Export CText.
Local Open Scope Z_scope.

(** [snprintf(buf, cap, ...)]. *)
Definition fit (cap : Z) (text : bytes) : bytes := take (Z.to_nat (cap - 1)) text.

(** ** Minimal significant digits

    [n] precisions are left to try, [sciraw] is the last rendering. *)
Fixpoint shortest_sci (n prec : nat) (v : double) (sciraw : bytes) : bytes :=
  match n with
  | O => sciraw
  | S n =>
      let sciraw := print_e prec v in
      if d_eq (fst (strtod sciraw)) v then sciraw else shortest_sci n (S prec) v sciraw
  end.

(** ** Decomposition into sign, digits and decimal exponent *)

(** [while (nd > 1 && digits[nd - 1] == '0') nd--]. *)
Fixpoint strip_nd (digits : bytes) (nd : nat) : nat :=
  match nd with
  | S (S _ as nd') => if nth nd' digits 0 =? C_ZERO then strip_nd digits nd' else nd
  | _ => nd
  end.

Definition is_e (c : Z) : bool := (c =? 101) || (c =? 69).

(** The digits of a mantissa text and what follows them. *)
Definition sci_digits (p : bytes) : bytes * bytes :=
  match eat C_DOT (drop 1 p) with
  | Some p' => let '(frac, p') := span (λ c, negb (is_e c)) p' in (take 1 p ++ frac, p')
  | None => (take 1 p, drop 1 p)
  end.

Definition decompose_sci (sciraw : bytes) : bool * bytes * Z :=
  let '(negative, p) := match eat C_MINUS sciraw with Some p => (true, p) | None => (false, sciraw) end in
  let '(digits, p) := sci_digits p in
  let exp10 := match p with c :: p => if is_e c then fst (fst (strtoll p 10)) else 0 | [] => 0 end in
  (negative, take (strip_nd digits (length digits)) digits, exp10).

(** ** The two candidate renderings *)

Definition fixed_text (negative : bool) (digits : bytes) (point_pos : Z) : bytes :=
  let nd := Z.of_nat (length digits) in
  minus_text negative ++
  if point_pos <=? 0 then [C_ZERO; C_DOT] ++ replicate (Z.to_nat (- point_pos)) C_ZERO ++ digits
  else if nd <=? point_pos then digits ++ replicate (Z.to_nat (point_pos - nd)) C_ZERO
  else take (Z.to_nat point_pos) digits ++ [C_DOT] ++ drop (Z.to_nat point_pos) digits.

(** [while (e) { eb[en++] = '0' + e % 10; e /= 10; }] *)
Fixpoint exponent_loop (fuel : nat) (e : Z) : bytes :=
  match fuel with
  | O => []
  | S fuel => if e =? 0 then [] else digit_of (e mod 10) :: exponent_loop fuel (e / 10)
  end.

(** The digits of the exponent from the last one, two at least. *)
Definition exponent_rev (e : Z) : bytes :=
  let eb := if e =? 0 then [C_ZERO] else exponent_loop 8 e in
  eb ++ replicate (2 - length eb) C_ZERO.

Definition sci_text (negative : bool) (digits : bytes) (exp10 : Z) : bytes :=
  minus_text negative ++ take 1 digits
  ++ (if 1 <? Z.of_nat (length digits) then C_DOT :: drop 1 digits else [])
  ++ [101] ++ [if exp10 <? 0 then C_MINUS else C_PLUS] ++ rev (exponent_rev (Z.abs exp10)).

Definition eshkol_dtoa_shortest (cap : Z) (v : double) : bytes :=
  if cap =? 0 then []
  else
    match v with
    | S754_nan => fit cap (lit "+nan.0")
    | S754_infinity s => fit cap (lit (if s then "-inf.0" else "+inf.0"))
    | S754_zero s => fit cap (lit (if s then "-0.0" else "0"))
    | S754_finite _ _ _ =>
        let '(negative, digits, exp10) := decompose_sci (shortest_sci 17 0 v []) in
        let fixed := fixed_text negative digits (exp10 + 1) in
        let sci := sci_text negative digits exp10 in
        fit cap (if (length fixed <=? length sci)%nat then fixed else sci)
    end.

Definition eshkol_format_double (n : Z) (v : double) : bytes := eshkol_dtoa_shortest n v.

(** [eshkol_fprint_double]: the text written to the file. *)
Definition eshkol_fprint_double (v : double) : bytes := eshkol_format_double 64 v.

(** ** Single precision, from its value as a double *)

Definition has_marker (tmp : bytes) : bool := existsb (λ c, (c =? C_DOT) || is_e c) tmp.

Definition eshkol_format_float32_bits_shared (cap : Z) (widened : double) : bytes :=
  match widened with
  | S754_zero s => fit cap (lit (if s then "-0.0" else "0.0"))
  | _ =>
      let tmp := eshkol_dtoa_shortest 64 widened in
      let tmp :=
        if is_finite widened && negb (has_marker tmp) && (Z.of_nat (length tmp) + 2 <? 64)
        then tmp ++ [C_DOT; C_ZERO] else tmp in
      fit cap tmp
  end.
