(* ===== verification/DoubleTextSpec.v ===== *)
(** * DoubleTextSpec: [strtod], [%.*e] and the shortest text of a double *)

From S2P Require Export CTextSpec DoubleText.
Local Open Scope Z_scope.

(** * [strtod] on decimal literals, and [%.*e]

    A literal is digits, an optional point with digits and an optional exponent.
    [%.*e] with seventeen digits is within half a gap of the number, so it reads
    back. *)

(** ** Literals *)

Definition point_text (frac : option bytes) : bytes := match frac with Some b => C_DOT :: b | None => [] end.

Definition exp_text (ex : option (bool * bytes)) : bytes :=
  match ex with Some (neg, e) => 101 :: (if neg then C_MINUS else C_PLUS) :: e | None => [] end.
Definition exp_value (ex : option (bool * bytes)) : Z :=
  match ex with Some (neg, e) => signed neg (base_value 10 e) | None => 0 end.

Definition decimal_text (neg : bool) (a : bytes) (frac : option bytes) (ex : option (bool * bytes)) : bytes :=
  minus_text neg ++ a ++ point_text frac ++ exp_text ex.

Record decimal_ok (a : bytes) (frac : option bytes) (ex : option (bool * bytes)) : Prop := {
  dec_int : digits a;
  dec_int_ne : a ≠ [];
  dec_frac : digits (default [] frac);
  dec_exp : match ex with Some (_, e) => digits e ∧ e ≠ [] | None => True end
}.

Lemma tolower_digit c : isdigit c = true → tolower c = c.
Proof.
  rewrite isdigit_spec. intros. unfold tolower, isupper, in_range. destruct (Z.leb_spec 65 c); [lia|]. done.
Qed.

Lemma starts_ci_digit c l word : isdigit c = true → 58 <= hd 0 word → starts_ci word (c :: l) = false.
Proof.
  intros Hc Hw. apply bool_decide_eq_false_2. destruct word as [|w word]; [simpl in Hw; lia|].
  cbn [length take map hd] in *. rewrite (tolower_digit c Hc). apply isdigit_spec in Hc. intros [=]. lia.
Qed.

(** What follows the integer digits starts with a point or an [e]. *)
Lemma tail_stops frac ex : stops (λ c, isdigit c || (tolower c =? 120)) (point_text frac ++ exp_text ex).
Proof. by destruct frac, ex as [[[] ?]|]. Qed.

Lemma hex_prefix_digits a r : digits a → stops (λ c, isdigit c || (tolower c =? 120)) r → hex_prefix (a ++ r) = false.
Proof.
  intros Ha Hr.
  assert (∀ x l, isdigit x = true → hex_prefix (48 :: x :: l) = false) as Hd.
  { intros x l Hx. destruct l; [done|]. cbn. rewrite (tolower_digit x Hx). apply isdigit_spec in Hx.
    destruct (Z.eqb_spec x 120); [lia|done]. }
  assert (∀ x l, tolower x =? 120 = false → hex_prefix (48 :: x :: l) = false) as Hx.
  { intros x l Hx. destruct l; [done|]. cbn. by rewrite Hx. }
  assert (∀ c l, c ≠ 48 → hex_prefix (c :: l) = false) as Hn.
  { intros c l Hc. destruct l as [|x [|y l]]; [done|done|]. unfold hex_prefix. destruct (Z.eqb_spec c 48); [lia|done]. }
  destruct a as [|c [|x a]].
  - destruct r as [|c r]; [done|]. simpl in Hr. apply orb_false_elim in Hr as [Hr _]. apply Hn.
    intros ->. done.
  - destruct (Z.eq_dec c 48) as [->|Hc]; [|by apply Hn]. destruct r as [|x r]; [done|].
    simpl in Hr. apply orb_false_elim in Hr as [_ Hr]. by apply Hx.
  - apply Forall_cons in Ha as [_ Ha]. apply Forall_cons in Ha as [Hx' _].
    destruct (Z.eq_dec c 48) as [->|Hc]; [by apply Hd|by apply Hn].
Qed.

Lemma exponent_literal ex : (match ex with Some (_, e) => digits e ∧ e ≠ [] | None => True end) →
  exponent 101 (exp_text ex) = (exp_value ex, length (exp_text ex)).
Proof.
  destruct ex as [[neg e]|]; [|done]. intros [He Hne]. cbn [exp_text exp_value]. unfold exponent.
  change (tolower 101 =? 101) with true. cbv iota.
  assert (c_sign ((if neg then C_MINUS else C_PLUS) :: e) = (neg, 1%nat, e)) as -> by (by destruct neg).
  rewrite (span_all _ _ He). apply length_pos in Hne as (c & l & ->). done.
Qed.

Lemma mantissa_literal a frac ex : decimal_ok a frac ex →
  mantissa isdigit (a ++ point_text frac ++ exp_text ex) =
    (a ++ default [] frac, length (default [] frac), (length a + length (point_text frac))%nat).
Proof.
  intros [Ha Hne Hf _]. unfold mantissa. pose proof (tail_stops frac ex) as Ht.
  rewrite span_app; [|done|by destruct frac, ex as [[[] ?]|]]. destruct frac as [b|]; cbn [point_text app default].
  - rewrite eat_cons, span_app; [|done|by destruct ex as [[[] ?]|]]. apply length_pos in Hne as (c & l & ->).
    cbn [app length id]. f_equal. simpl. lia.
  - assert (eat C_DOT (exp_text ex) = None) as -> by (by destruct ex as [[n e]|]).
    cbn [length]. by rewrite app_nil_r, Nat.add_0_r.
Qed.

Lemma strtod_literal neg a frac ex : decimal_ok a frac ex →
  strtod (decimal_text neg a frac ex) =
    (round_power neg (base_value 10 (a ++ default [] frac)) 10 (exp_value ex - Z.of_nat (length (default [] frac))),
     length (decimal_text neg a frac ex)).
Proof.
  intros Hok. pose proof Hok as [Ha Hne Hf He]. unfold strtod, decimal_text.
  destruct (c_sign_digits (minus_text neg) neg a (point_text frac ++ exp_text ex) (minus_sign neg) Ha Hne) as [-> ->].
  destruct (length_pos _ Hne) as (c & l & Ea). pose proof Ha as Hc. rewrite Ea in Hc. apply Forall_cons in Hc as [Hc _].
  assert (∀ w, 58 <= hd 0 w → starts_ci w (a ++ point_text frac ++ exp_text ex) = false) as Hci.
  { intros w Hw. rewrite Ea. by apply starts_ci_digit. }
  rewrite !Hci by (vm_compute; congruence). rewrite (hex_prefix_digits a _ Ha (tail_stops frac ex)).
  unfold decimal_float. rewrite (mantissa_literal a frac ex Hok).
  assert (drop (length a + length (point_text frac)) (a ++ point_text frac ++ exp_text ex) = exp_text ex) as ->.
  { by rewrite app_assoc, <- length_app, drop_app_length. }
  rewrite (exponent_literal ex He). rewrite Ea at 1. cbn [app].
  assert ((length a + length (point_text frac) + length (exp_text ex))%nat
    = S (length l + length (point_text frac) + length (exp_text ex))) as -> by (rewrite Ea; simpl; lia).
  f_equal. rewrite !length_app, Ea. simpl. lia.
Qed.

(** ** The decimal exponent *)

Lemma pow10_pos j : 0 <= j → 0 < 10 ^ j.
Proof. intros. apply Z.pow_pos_nonneg; lia. Qed.

Lemma leading_digit_here fuel n d k : d <= n < 10 * d → leading_digit fuel n d k = (n, d, k).
Proof.
  intros H. destruct fuel as [|fuel]; [done|]. cbn [leading_digit].
  destruct (Z.ltb_spec n d); [lia|]. destruct (Z.leb_spec (10 * d) n); [lia|done].
Qed.

Lemma leading_digit_up fuel n d k : 0 < n < d → d <= n * 10 ^ Z.of_nat fuel →
  ∃ j, 0 <= j ∧ leading_digit fuel n d k = (n * 10 ^ j, d, k - j) ∧ d <= n * 10 ^ j < 10 * d.
Proof.
  revert n k. induction fuel as [|fuel IH]; intros n k Hn Hf.
  { change (10 ^ Z.of_nat 0) with 1 in Hf. lia. }
  cbn [leading_digit]. destruct (Z.ltb_spec n d); [|lia].
  rewrite Nat2Z.inj_succ, Z.pow_succ_r in Hf by lia.
  destruct (Z.lt_ge_cases (10 * n) d) as [L|L].
  - destruct (IH (10 * n) (k - 1) ltac:(lia) ltac:(nia)) as (j & Hj & -> & Hb). exists (j + 1).
    rewrite Z.pow_add_r by lia. change (10 ^ 1) with 10. split; [lia|].
    replace (n * (10 ^ j * 10)) with (10 * n * 10 ^ j) by ring. split; [f_equal; lia|done].
  - exists 1. rewrite leading_digit_here by lia. change (10 ^ 1) with 10. split; [lia|]. split; [f_equal; f_equal; lia|lia].
Qed.

Lemma leading_digit_down fuel n d k : 0 < d <= n → n < d * 10 ^ (Z.of_nat fuel + 1) →
  ∃ j, 0 <= j ∧ leading_digit fuel n d k = (n, d * 10 ^ j, k + j) ∧ d * 10 ^ j <= n < 10 * (d * 10 ^ j).
Proof.
  revert d k. induction fuel as [|fuel IH]; intros d k Hn Hf.
  { change (10 ^ (Z.of_nat 0 + 1)) with 10 in Hf. exists 0. rewrite leading_digit_here by lia.
    change (10 ^ 0) with 1. split_and!; [lia|f_equal; [f_equal|]; lia|lia|lia]. }
  rewrite Nat2Z.inj_succ, Z.add_succ_l, Z.pow_succ_r in Hf by lia.
  destruct (Z.lt_ge_cases n (10 * d)) as [L|L].
  { exists 0. rewrite leading_digit_here by lia. change (10 ^ 0) with 1.
    split_and!; [lia|f_equal; [f_equal|]; lia|lia|lia]. }
  cbn [leading_digit]. destruct (Z.ltb_spec n d); [lia|]. destruct (Z.leb_spec (10 * d) n); [|lia].
  destruct (IH (10 * d) (k + 1) ltac:(lia) ltac:(nia)) as (j & Hj & -> & Hb). exists (j + 1).
  rewrite Z.pow_add_r by lia. change (10 ^ 1) with 10. split; [lia|].
  replace (d * (10 ^ j * 10)) with (10 * d * 10 ^ j) by ring. split; [f_equal; lia|done].
Qed.

(** A number as [f * 10^k] with [1 <= f < 10]. *)
Lemma leading_digit_spec n d : 0 < n < 2 ^ 1024 → 0 < d <= 2 ^ 1074 →
  ∃ n' d' k, leading_digit 400 n d 0 = (n', d', k) ∧ 0 < d' <= n' ∧ n' < 10 * d'
    ∧ -324 <= k <= 308 ∧ n' * d * 10 ^ Z.max k 0 = n * d' * 10 ^ Z.max (- k) 0.
Proof.
  intros Hn Hd. assert (H400 : 2 ^ 1074 <= 10 ^ 400) by (by vm_compute).
  destruct (Z.lt_ge_cases n d) as [L|L].
  - destruct (leading_digit_up 400 n d 0 ltac:(lia)) as (j & Hj & -> & Hb).
    { change (10 ^ Z.of_nat 400) with (10 ^ 400). nia. }
    pose proof (pow10_pos j Hj). exists (n * 10 ^ j), d, (0 - j). split; [done|]. split; [lia|]. split; [lia|]. split.
    + split; [|lia]. destruct (Z.le_gt_cases j 324) as [|Hj']; [lia|].
      assert (H324 : 10 * 2 ^ 1074 <= 10 ^ 325) by (by vm_compute).
      pose proof (Z.pow_le_mono_r 10 325 j ltac:(lia) ltac:(lia)). nia.
    + replace (Z.max (0 - j) 0) with 0 by lia. replace (Z.max (- (0 - j)) 0) with j by lia. rewrite Z.pow_0_r. ring.
  - destruct (leading_digit_down 400 n d 0 ltac:(lia)) as (j & Hj & -> & Hb).
    { change (Z.of_nat 400 + 1) with 401.
      assert (2 ^ 1024 <= 10 ^ 401) by (by vm_compute). nia. }
    pose proof (pow10_pos j Hj). exists n, (d * 10 ^ j), (0 + j). split; [done|]. split; [nia|]. split; [lia|]. split.
    + split; [lia|]. destruct (Z.le_gt_cases j 308) as [|Hj']; [lia|].
      assert (H309 : 2 ^ 1024 <= 10 ^ 309) by (by vm_compute).
      pose proof (Z.pow_le_mono_r 10 309 j ltac:(lia) ltac:(lia)). nia.
    + replace (Z.max (0 + j) 0) with j by lia. replace (Z.max (- (0 + j)) 0) with 0 by lia. rewrite Z.pow_0_r. ring.
Qed.

(** ** [%.*e] *)

Lemma round_power_ratio s D e X Y : 0 < X → 0 < Y → X * 10 ^ Z.max (- e) 0 = Y * 10 ^ Z.max e 0 →
  round_power s D 10 e = round_ratio s (D * X) Y.
Proof.
  intros HX HY E. unfold round_power. destruct (Z.leb_spec 0 e).
  - rewrite Z.max_r, Z.max_l in E by lia. rewrite Z.pow_0_r in E. apply round_ratio_eq; [lia|done|]. nia.
  - rewrite Z.max_l, (Z.max_r e) in E by lia. rewrite Z.pow_0_r in E. apply round_ratio_eq; [apply pow10_pos; lia|done|]. nia.
Qed.

(** The digits are those of the nearest decimal: [n'] and [d'] are the number
    scaled to one digit before the point. *)
Lemma e_digits_spec p n d : 0 < n < 2 ^ 1024 → 0 < d <= 2 ^ 1074 →
  let '(D, k) := e_digits p n d in
  10 ^ Z.of_nat p <= D < 10 ^ (Z.of_nat p + 1) ∧ -324 <= k <= 309 ∧
  ∃ n' d' D0, 0 < d' <= n' ∧ Z.abs (2 * (D0 * d' - n' * 10 ^ Z.of_nat p)) <= d' ∧
    ∀ s, round_power s D 10 (k - Z.of_nat p) = round_ratio s (D0 * (d' * n)) (d * n' * 10 ^ Z.of_nat p).
Proof.
  intros Hn Hd. unfold e_digits. destruct (leading_digit_spec n d Hn Hd) as (n' & d' & k & -> & Hd' & Hn' & Hk & E).
  set (q := Z.of_nat p) in *. pose proof (pow10_pos q ltac:(lia)) as Hq.
  pose proof (rounded_quotient_bounds (n' * 10 ^ q) d' ltac:(lia)) as Hr. set (D0 := rounded_quotient _ d') in *.
  assert (H1 : 10 ^ q <= D0) by nia.
  assert (H2 : D0 <= 10 ^ q * 10) by nia.
  assert (Hround : ∀ s, round_power s D0 10 (k - q) = round_ratio s (D0 * (d' * n)) (d * n' * 10 ^ q)).
  { intros s. apply round_power_ratio; [nia|nia|].
    pose proof (pow10_pos (Z.max (- k) 0) ltac:(lia)) as Hb.
    apply (Z.mul_reg_r _ _ (10 ^ Z.max (- k) 0)); [lia|].
    transitivity ((n * d' * 10 ^ Z.max (- k) 0) * 10 ^ Z.max (- (k - q)) 0); [ring|]. rewrite <- E.
    transitivity (n' * d * (10 ^ Z.max k 0 * 10 ^ Z.max (- (k - q)) 0)); [ring|].
    transitivity (n' * d * (10 ^ q * 10 ^ Z.max (k - q) 0 * 10 ^ Z.max (- k) 0)); [|ring].
    f_equal. rewrite <- !Z.pow_add_r by lia. f_equal. lia. }
  assert (Hnear : Z.abs (2 * (D0 * d' - n' * 10 ^ q)) <= d') by nia.
  rewrite Z.pow_add_r by lia. change (10 ^ 1) with 10. destruct (Z.eqb_spec D0 (10 ^ q * 10)) as [Ec|Ec].
  - split; [lia|]. split; [lia|]. exists n', d', D0. split; [done|]. split; [done|]. intros s. rewrite <- Hround, Ec.
    pose proof (round_power_shift s (10 ^ q) 10 1 (k - q) ltac:(lia) ltac:(lia)) as Es.
    change (10 ^ 1) with 10 in Es. rewrite Es. f_equal. lia.
  - split; [lia|]. split; [lia|]. by exists n', d', D0.
Qed.

Lemma print_exponent_text k : Z.abs k < 1000 →
  ∃ e, print_exponent k = (if k <? 0 then C_MINUS else C_PLUS) :: e ∧ digits e ∧ e ≠ []
    ∧ signed (k <? 0) (base_value 10 e) = k ∧ (length e <= 3)%nat.
Proof.
  intros Hk. destruct (print_nat_spec (Z.abs k) ltac:(lia)) as (H1 & H2 & H3 & H4). unfold print_exponent.
  destruct (Z.ltb_spec (Z.abs k) 10) as [L|L].
  - exists (C_ZERO :: print_nat (Z.abs k)). split; [done|]. split; [by constructor|]. split; [done|]. split.
    + rewrite base_value_cons, H2. change (default 0 (digit_value C_ZERO)) with 0. destruct (Z.ltb_spec k 0); simpl; lia.
    + pose proof (H4 0%nat ltac:(simpl; lia)). simpl. lia.
  - exists (print_nat (Z.abs k)). split; [done|]. split; [done|]. split; [done|]. split.
    + rewrite H2. destruct (Z.ltb_spec k 0); simpl; lia.
    + apply (H4 2%nat). simpl. lia.
Qed.

Lemma print_digits_head p D : 0 <= D < 10 ^ Z.of_nat (S p) →
  ∃ c ds, print_digits (S p) D = c :: ds ∧ isdigit c = true ∧ digits ds ∧ length ds = p.
Proof.
  intros HD. destruct (print_digits_spec (S p) D HD) as (H1 & _ & H3).
  destruct (print_digits (S p) D) as [|c ds]; [done|]. apply Forall_cons in H1 as [? ?]. exists c, ds.
  split_and!; [done|done|done|by injection H3].
Qed.

(** The exact value of a finite double as a ratio. *)
Lemma finite_ratio s m e : is_double (S754_finite s m e) →
  0 < Zpos m * 2 ^ Z.max e 0 < 2 ^ 1024 ∧ 0 < 2 ^ Z.max (- e) 0 <= 2 ^ 1074.
Proof.
  intros Hv. destruct (finite_fields s m e Hv) as (H1 & H2 & _).
  pose proof (Z.pow_pos_nonneg 2 (Z.max e 0) ltac:(lia) ltac:(lia)).
  assert (2 ^ Z.max e 0 <= 2 ^ 971) by (apply Z.pow_le_mono_r; lia).
  assert (2 ^ Z.max (- e) 0 <= 2 ^ 1074) by (apply Z.pow_le_mono_r; lia).
  pose proof (Z.pow_pos_nonneg 2 (Z.max (- e) 0) ltac:(lia) ltac:(lia)).
  change (2 ^ 1024) with (2 ^ 53 * 2 ^ 971). nia.
Qed.

(** The text of [%.*e], as a literal. *)
Lemma print_e_text p s m e : is_double (S754_finite s m e) →
  ∃ c ds ex D k, print_e p (S754_finite s m e) = decimal_text s [c] (match p with O => None | _ => Some ds end) (Some (k <? 0, ex))
    ∧ isdigit c = true ∧ digits ds ∧ length ds = p ∧ digits ex ∧ ex ≠ [] ∧ signed (k <? 0) (base_value 10 ex) = k
    ∧ -324 <= k <= 309 ∧ base_value 10 (c :: ds) = D ∧ 10 ^ Z.of_nat p <= D
    ∧ e_digits p (Zpos m * 2 ^ Z.max e 0) (2 ^ Z.max (- e) 0) = (D, k).
Proof.
  intros Hv. destruct (finite_ratio s m e Hv) as [Hn Hd]. pose proof (e_digits_spec p _ _ Hn Hd) as Hs.
  unfold print_e. destruct (e_digits p _ _) as [D k]. destruct Hs as (HD & Hk & _).
  assert (HD' : 0 <= D < 10 ^ Z.of_nat (S p)).
  { rewrite Nat2Z.inj_succ. pose proof (pow10_pos (Z.of_nat p) ltac:(lia)). unfold Z.succ. lia. }
  destruct (print_digits_head p D HD') as (c & ds & E & Hc & Hds & Hl).
  destruct (print_digits_spec (S p) D HD') as (_ & Hb & _). rewrite E in *.
  destruct (print_exponent_text k ltac:(lia)) as (ex & -> & He & Hne & Hx & _).
  exists c, ds, ex, D, k. split_and!; try done; try lia. destruct p; by destruct s.
Qed.

Lemma strtod_print_e p s m e : is_double (S754_finite s m e) →
  ∃ D k, e_digits p (Zpos m * 2 ^ Z.max e 0) (2 ^ Z.max (- e) 0) = (D, k) ∧
    fst (strtod (print_e p (S754_finite s m e))) = round_power s D 10 (k - Z.of_nat p).
Proof.
  intros Hv. destruct (print_e_text p s m e Hv) as (c & ds & ex & D & k & -> & Hc & Hds & Hl & He & Hne & Hk & _ & Hb & _ & E).
  exists D, k. split; [done|]. rewrite strtod_literal.
  - cbn [fst exp_value]. rewrite Hk, <- Hb, <- Hl. by destruct p, ds.
  - split; [by constructor|done| |done]. by destruct p.
Qed.

(** Seventeen digits are enough. *)
Lemma seventeen_digits s m e : is_double (S754_finite s m e) →
  fst (strtod (print_e 16 (S754_finite s m e))) = S754_finite s m e.
Proof.
  intros Hv. destruct (strtod_print_e 16 s m e Hv) as (D & k & E & ->).
  destruct (finite_ratio s m e Hv) as [Hn Hd]. destruct (finite_fields s m e Hv) as (H1 & H2 & _).
  pose proof (e_digits_spec 16 _ _ Hn Hd) as Hs. rewrite E in Hs.
  destruct Hs as (_ & _ & n' & d' & D0 & Hd' & Hnear & ->).
  set (n := Zpos m * 2 ^ Z.max e 0) in *. set (d := 2 ^ Z.max (- e) 0) in *.
  assert (Ex : d * (Zpos m * 2 ^ (e + 1074)) = n * 2 ^ 1074).
  { unfold d, n. transitivity (Zpos m * (2 ^ Z.max (- e) 0 * 2 ^ (e + 1074))); [ring|].
    rewrite <- Z.mul_assoc, <- !Z.pow_add_r by lia. do 2 f_equal. lia. }
  change (Z.of_nat 16) with 16 in *. pose proof (pow10_pos 16 ltac:(lia)) as H16.
  apply round_ratio_close; [done|nia|apply Z.mul_nonneg_nonneg; [|nia]|].
  { assert (0 <= D0 * d') by nia. nia. }
  replace (d * n' * 10 ^ 16 * (Zpos m * 2 ^ (e + 1074))) with (n' * 10 ^ 16 * (n * 2 ^ 1074)) by (rewrite <- Ex; ring).
  replace (D0 * (d' * n) * 2 ^ 1074 - n' * 10 ^ 16 * (n * 2 ^ 1074)) with ((D0 * d' - n' * 10 ^ 16) * (n * 2 ^ 1074)) by ring.
  assert (HN : 0 < n * 2 ^ 1074) by lia. set (N := n * 2 ^ 1074) in *. rewrite Z.abs_mul, (Z.abs_eq N) by lia. nia.
Qed.

(** * A double's text reads back as the same double *)

(** [==] on finite doubles other than zero is identity. *)
Lemma same_double s m e w : d_eq w (S754_finite s m e) = true → w = S754_finite s m e.
Proof.
  destruct w as [s'|s'| |s' m' e']; try (by destruct s, s'); [by destruct s|].
  unfold d_eq, SFeqb, SFcompare. change (Pos.compare_cont Eq m' m) with (Pos.compare m' m).
  destruct s, s'; try done; destruct (Z.compare_spec e' e) as [->| |]; try done;
    destruct (Pos.compare_spec m' m) as [->| |]; done.
Qed.

Lemma shortest_sci_reads_back n prec s m e sciraw : is_double (S754_finite s m e) → (n + prec = 17)%nat → (0 < n)%nat →
  ∃ p, (p <= 16)%nat ∧ shortest_sci n prec (S754_finite s m e) sciraw = print_e p (S754_finite s m e)
    ∧ fst (strtod (print_e p (S754_finite s m e))) = S754_finite s m e
    ∧ ∀ p', (prec <= p' < p)%nat → fst (strtod (print_e p' (S754_finite s m e))) ≠ S754_finite s m e.
Proof.
  intros Hv. revert prec sciraw. induction n as [|n IH]; intros prec sciraw Hn Hpos; [lia|]. cbn [shortest_sci].
  destruct (d_eq _ _) eqn:E.
  - exists prec. split; [lia|]. split; [done|]. split; [by apply same_double|lia].
  - destruct n as [|n].
    + replace prec with 16%nat in * by lia. exists 16%nat. split; [lia|]. split; [done|]. split; [by apply seventeen_digits|lia].
    + destruct (IH (S prec) (print_e prec (S754_finite s m e)) ltac:(lia) ltac:(lia)) as (p & Hp & Es & Er & Hmin).
      exists p. split; [done|]. split; [done|]. split; [done|]. intros p' Hp'.
      destruct (decide (p' = prec)) as [->|]; [|apply Hmin; lia]. intros Heq. rewrite Heq in E.
      unfold d_eq, SFeqb, SFcompare in E. change (Pos.compare_cont Eq m m) with (Pos.compare m m) in E.
      rewrite Z.compare_refl, Pos.compare_refl in E. by destruct s.
Qed.

(** ** Decomposition *)

Lemma strip_nd_spec ds nd : (0 < nd <= length ds)%nat →
  ∃ j, (0 < strip_nd ds nd)%nat ∧ nd = (strip_nd ds nd + j)%nat ∧ take nd ds = take (strip_nd ds nd) ds ++ replicate j C_ZERO.
Proof.
  induction nd as [|nd IH]; intros Hnd; [lia|]. destruct nd as [|nd].
  { exists 0%nat. cbn [strip_nd]. split; [lia|]. split; [lia|]. by rewrite app_nil_r. }
  change (strip_nd ds (S (S nd))) with (if nth (S nd) ds 0 =? C_ZERO then strip_nd ds (S nd) else S (S nd)).
  destruct (Z.eqb_spec (nth (S nd) ds 0) C_ZERO) as [E|E].
  - destruct (IH ltac:(lia)) as (j & Hp & En & Et). exists (S j). split; [done|]. split; [lia|].
    destruct (lookup_lt_is_Some_2 ds (S nd) ltac:(lia)) as [x Hx].
    rewrite (take_S_r _ _ _ Hx), Et, <- app_assoc. f_equal.
    rewrite (nth_lookup_Some _ _ _ _ Hx) in E. subst x. by rewrite <- replicate_S_end.
  - exists 0%nat. split; [lia|]. split; [lia|]. by rewrite app_nil_r.
Qed.

Definition stripped (ds : bytes) : bytes := take (strip_nd ds (length ds)) ds.

Lemma stripped_spec ds : ds ≠ [] → ∃ j, stripped ds ≠ [] ∧ ds = stripped ds ++ replicate j C_ZERO.
Proof.
  intros Hne. assert (Hl : (0 < length ds)%nat) by (destruct ds; simpl; [done|lia]).
  destruct (strip_nd_spec ds (length ds) ltac:(lia)) as (j & Hp & En & Et). exists j. rewrite firstn_all in Et.
  split; [|done]. unfold stripped. destruct ds as [|c ds]; [done|].
  destruct (strip_nd (c :: ds) (length (c :: ds))); [lia|done].
Qed.

Lemma decompose_print_e p s m e : is_double (S754_finite s m e) →
  ∃ c ds D k, decompose_sci (print_e p (S754_finite s m e)) = (s, stripped (c :: ds), k)
    ∧ digits (c :: ds) ∧ length ds = p ∧ base_value 10 (c :: ds) = D ∧ -324 <= k <= 309
    ∧ fst (strtod (print_e p (S754_finite s m e))) = round_power s D 10 (k - Z.of_nat p).
Proof.
  intros Hv. destruct (strtod_print_e p s m e Hv) as (D' & k' & E' & Hr).
  destruct (print_e_text p s m e Hv) as (c & ds & ex & D & k & Et & Hc & Hds & Hl & He & Hne & Hk & Hkr & Hb & _ & E).
  rewrite E in E'. injection E' as <- <-. exists c, ds, D, k. split; [|split_and!; [by constructor|done|done|lia|lia|done]].
  rewrite Et. unfold decompose_sci, decimal_text.
  assert (∀ l, eat C_MINUS (minus_text s ++ [c] ++ l) = if s then Some ([c] ++ l) else None) as ->.
  { intros l. destruct s; [done|]. apply isdigit_spec in Hc. cbn. destruct (Z.eqb_spec c 45); [lia|done]. }
  set (tail := point_text _ ++ _).
  assert (Hd : sci_digits ([c] ++ tail) = (c :: ds, exp_text (Some (k <? 0, ex)))).
  { unfold sci_digits, tail. cbn [app]. rewrite skipn_cons, skipn_O, firstn_cons, firstn_O. destruct p as [|p].
    - by destruct ds.
    - cbn [point_text app]. rewrite eat_cons, span_app; [done| |done]. eapply Forall_impl; [exact Hds|].
      intros x Hx%isdigit_spec. unfold is_e. destruct (Z.eqb_spec x 101), (Z.eqb_spec x 69); try lia; done. }
  assert (Hx : fst (fst (strtoll ((if k <? 0 then C_MINUS else C_PLUS) :: ex) 10)) = k).
  { assert (Hsg : sign_text [if k <? 0 then C_MINUS else C_PLUS] (k <? 0)) by (destruct (k <? 0); unfold sign_text; eauto).
    pose proof (strtoll_digits _ _ ex [] Hsg He Hne I) as Hs. rewrite app_nil_r, Hk in Hs. cbn [app] in Hs.
    rewrite Hs. cbn [fst]. apply clamp64_id. unfold is_i64. lia. }
  cbn [app] in Hd. destruct s; cbn [minus_text app]; rewrite Hd; cbn [exp_text]; change (is_e 101) with true; cbv iota; rewrite Hx; done.
Qed.

(** ** The two renderings as literals *)

Lemma exponent_rev_spec e : 0 <= e < 1000 →
  let ds := rev (exponent_rev e) in digits ds ∧ ds ≠ [] ∧ base_value 10 ds = e ∧ (length ds <= 3)%nat.
Proof.
  intros He ds.
  assert (Hall : forallb (λ n, let ds := rev (exponent_rev (Z.of_nat n)) in
    forallb isdigit ds && (0 <? length ds)%nat && (base_value 10 ds =? Z.of_nat n) && (length ds <=? 3)%nat) (seq 0 1000) = true)
    by (vm_compute; reflexivity).
  rewrite forallb_forall in Hall. specialize (Hall (Z.to_nat e)). cbv zeta in Hall. rewrite Z2Nat.id in Hall by lia.
  fold ds in Hall. rewrite !andb_true_iff in Hall. destruct Hall as (((H1 & H2) & H3) & H4); [apply in_seq; lia|].
  split; [|split; [|split; [by apply Z.eqb_eq|by apply Nat.leb_le]]].
  - apply Forall_forall. intros x Hx. rewrite forallb_forall in H1. apply H1. by apply list_elem_of_In.
  - intros E. rewrite E in H2. done.
Qed.

Lemma digits_zeros n : digits (replicate n C_ZERO).
Proof. apply Forall_replicate. done. Qed.

Lemma fixed_text_literal s ds pp : digits ds → ds ≠ [] →
  ∃ a frac, fixed_text s ds pp = decimal_text s a frac None ∧ decimal_ok a frac None ∧
    round_power s (base_value 10 (a ++ default [] frac)) 10 (0 - Z.of_nat (length (default [] frac)))
    = round_power s (base_value 10 ds) 10 (pp - Z.of_nat (length ds)).
Proof.
  intros Hds Hne. unfold fixed_text, decimal_text. cbn [exp_text].
  destruct (Z.leb_spec pp 0) as [L|L]; [|destruct (Z.leb_spec (Z.of_nat (length ds)) pp) as [L'|L']].
  - exists [C_ZERO], (Some (replicate (Z.to_nat (- pp)) C_ZERO ++ ds)). cbn [point_text default]. rewrite app_nil_r.
    split; [done|]. split; [split; [by constructor|done|apply Forall_app_2; [apply digits_zeros|done]|done]|].
    unfold id. f_equal.
    + rewrite app_assoc, base_value_app. change ([C_ZERO] ++ replicate (Z.to_nat (- pp)) C_ZERO) with (replicate (S (Z.to_nat (- pp))) C_ZERO).
      rewrite base_value_zeros. lia.
    + rewrite length_app, length_replicate. lia.
  - exists (ds ++ replicate (Z.to_nat (pp - Z.of_nat (length ds))) C_ZERO), None. cbn [point_text default length].
    rewrite !app_nil_r. split; [done|]. split.
    { split; [apply Forall_app_2; [done|apply digits_zeros]| |constructor|done]. intros E. by apply app_eq_nil in E as [? _]. }
    rewrite base_value_app, base_value_zeros, length_replicate, Z2Nat.id, Z.add_0_r by lia.
    rewrite round_power_shift by lia. f_equal; lia.
  - exists (take (Z.to_nat pp) ds), (Some (drop (Z.to_nat pp) ds)). cbn [point_text default]. rewrite app_nil_r. unfold id.
    split; [done|]. split.
    { split; [by apply Forall_take| |by apply Forall_drop|done].
      destruct ds as [|c ds]; [done|]. destruct (Z.to_nat pp) eqn:E; [lia|done]. }
    rewrite take_drop, length_drop. f_equal. lia.
Qed.

Lemma sci_text_literal s ds k : digits ds → ds ≠ [] → Z.abs k < 1000 →
  ∃ a frac ex, sci_text s ds k = decimal_text s a frac ex ∧ decimal_ok a frac ex ∧
    round_power s (base_value 10 (a ++ default [] frac)) 10 (exp_value ex - Z.of_nat (length (default [] frac)))
    = round_power s (base_value 10 ds) 10 (k + 1 - Z.of_nat (length ds))
    ∧ (length (sci_text s ds k) <= 7 + length ds)%nat.
Proof.
  intros Hds Hne Hk. destruct (exponent_rev_spec (Z.abs k) ltac:(lia)) as (He & Hxne & Hx & Hxl).
  destruct (length_pos _ Hne) as (c & l & ->). apply Forall_cons in Hds as [Hc Hl].
  assert (Hsg : signed (k <? 0) (base_value 10 (rev (exponent_rev (Z.abs k)))) = k).
  { rewrite Hx. destruct (Z.ltb_spec k 0); simpl; lia. }
  unfold sci_text, decimal_text. set (e := rev _) in *. clearbody e.
  exists [c], (if 1 <? Z.of_nat (length (c :: l)) then Some l else None), (Some (k <? 0, e)).
  rewrite firstn_cons, firstn_O, skipn_cons, skipn_O. cbn [exp_value]. rewrite Hsg.
  assert (Hm : (length (minus_text s) <= 1)%nat) by (destruct s; simpl; lia).
  destruct (Z.ltb_spec 1 (Z.of_nat (length (c :: l)))) as [L|L]; cbn [point_text exp_text default]; unfold id.
  - split; [done|]. split; [by split; [constructor| | |]|]. split; [f_equal; simpl; lia|].
    rewrite !length_app. simpl. lia.
  - assert (l = []) as -> by (destruct l; [done|simpl in L; lia]).
    split; [done|]. split; [by split; [constructor| | |]|]. split; [f_equal; simpl; lia|].
    rewrite !length_app. simpl. lia.
Qed.

(** ** The text of a double *)

Lemma dtoa_literal cap s m e : is_double (S754_finite s m e) → 25 <= cap →
  ∃ a frac ex, eshkol_dtoa_shortest cap (S754_finite s m e) = decimal_text s a frac ex ∧ decimal_ok a frac ex
    ∧ (length (decimal_text s a frac ex) <= 24)%nat
    ∧ round_power s (base_value 10 (a ++ default [] frac)) 10 (exp_value ex - Z.of_nat (length (default [] frac)))
      = S754_finite s m e.
Proof.
  intros Hv Hcap. unfold eshkol_dtoa_shortest. destruct (Z.eqb_spec cap 0); [lia|].
  destruct (shortest_sci_reads_back 17 0 s m e [] Hv ltac:(lia) ltac:(lia)) as (p & Hp & -> & Hread & _).
  destruct (decompose_print_e p s m e Hv) as (c & ds & D & k & -> & Hds & Hl & HD & Hk & Hval).
  destruct (stripped_spec (c :: ds) ltac:(done)) as (j & Hsne & Es).
  set (st := stripped (c :: ds)) in *.
  assert (Hst : digits st) by (rewrite Es in Hds; by apply Forall_app in Hds as [? _]).
  assert (Hlen : (length st + j = S p)%nat).
  { rewrite <- Hl, <- (length_replicate j C_ZERO), <- length_app, <- Es. done. }
  assert (Hvalue : round_power s (base_value 10 st) 10 (k + 1 - Z.of_nat (length st)) = S754_finite s m e).
  { rewrite <- Hread, Hval, <- HD, Es, base_value_app, base_value_zeros, Z.add_0_r, length_replicate.
    rewrite round_power_shift by lia. f_equal. lia. }
  destruct (fixed_text_literal s st (k + 1) Hst Hsne) as (a & frac & Ef & Hok & Hfix).
  destruct (sci_text_literal s st k Hst Hsne ltac:(lia)) as (a' & frac' & ex & Esc & Hok' & Hsci & Hsl).
  assert (Hfit : ∀ t : bytes, (length t <= 24)%nat → fit cap t = t) by (intros t Ht; apply take_ge; lia).
  destruct (Nat.leb_spec (length (fixed_text s st (k + 1))) (length (sci_text s st k))).
  - exists a, frac, None. rewrite Hfit, <- Ef by lia. split; [done|]. split; [done|]. split; [lia|].
    change (exp_value None) with 0. by rewrite Hfix.
  - exists a', frac', ex. rewrite Hfit, <- Esc by lia. split; [done|]. split; [done|]. split; [lia|]. by rewrite Hsci.
Qed.

Lemma dtoa_reads_back cap v : is_finite v = true → is_double v → 25 <= cap →
  strtod (eshkol_dtoa_shortest cap v) = (v, length (eshkol_dtoa_shortest cap v))
  ∧ (length (eshkol_dtoa_shortest cap v) <= 24)%nat.
Proof.
  intros Hf Hv Hcap. destruct v as [s|s| |s m e]; [|done|done|].
  - unfold eshkol_dtoa_shortest. destruct (Z.eqb_spec cap 0); [lia|].
    assert (fit cap (lit (if s then "-0.0" else "0")) = lit (if s then "-0.0" else "0")) as ->.
    { apply take_ge. destruct s; vm_compute length; lia. }
    destruct s; vm_compute; split; done || lia.
  - destruct (dtoa_literal cap s m e Hv Hcap) as (a & frac & ex & -> & Hok & Hl & Hr).
    split; [|done]. by rewrite strtod_literal, Hr.
Qed.

(** ** Single precision *)

Lemma digits_no_marker l : digits l → has_marker l = false.
Proof.
  induction 1 as [|c l Hc _ IH]; [done|]. unfold has_marker. cbn [existsb]. fold (has_marker l). rewrite IH.
  apply isdigit_spec in Hc. unfold is_e.
  destruct (Z.eqb_spec c C_DOT), (Z.eqb_spec c 101), (Z.eqb_spec c 69); try lia; done.
Qed.

Lemma has_marker_app l r : has_marker (l ++ r) = has_marker l || has_marker r.
Proof. unfold has_marker. apply existsb_app. Qed.

Lemma literal_marker s a frac ex : decimal_ok a frac ex →
  has_marker (decimal_text s a frac ex) = false ↔ frac = None ∧ ex = None.
Proof.
  intros [Ha _ _ _]. unfold decimal_text. rewrite !has_marker_app, (digits_no_marker a Ha).
  assert (has_marker (minus_text s) = false) as -> by (by destruct s).
  destruct frac as [b|], ex as [[n e]|]; cbn; split; try done; by intros [? ?].
Qed.

(** A finite binary32 number keeps an inexact marker and reads back as the number it widens to. *)
Lemma float32_reads_back cap d : is_finite d = true → is_double d → 27 <= cap →
  fst (strtod (eshkol_format_float32_bits_shared cap d)) = d
  ∧ has_marker (eshkol_format_float32_bits_shared cap d) = true.
Proof.
  intros Hf Hv Hcap. assert (Hfit : ∀ t : bytes, (length t <= 26)%nat → fit cap t = t) by (intros t Ht; apply take_ge; lia).
  destruct d as [s|s| |s m e]; [|done|done|].
  { unfold eshkol_format_float32_bits_shared. rewrite Hfit by (destruct s; vm_compute length; lia). by destruct s. }
  unfold eshkol_format_float32_bits_shared. destruct (dtoa_literal 64 s m e Hv ltac:(lia)) as (a & frac & ex & -> & Hok & Hl & Hr).
  destruct (has_marker (decimal_text s a frac ex)) eqn:Hm; cbn [is_finite negb andb].
  - rewrite Hfit by lia. split; [|done]. by rewrite strtod_literal.
  - destruct (Z.ltb_spec (Z.of_nat (length (decimal_text s a frac ex)) + 2) 64); [|lia].
    rewrite Hfit by (rewrite length_app; simpl; lia). apply literal_marker in Hm as [-> ->]; [|done].
    destruct Hok as [Ha Hne _ _].
    assert (Hok' : decimal_ok a (Some [C_ZERO]) None) by (by split; [..|constructor|]).
    assert (decimal_text s a None None ++ [C_DOT; C_ZERO] = decimal_text s a (Some [C_ZERO]) None) as ->.
    { unfold decimal_text, point_text, exp_text. by rewrite !app_nil_r, <- app_assoc. }
    rewrite strtod_literal by done. cbn [fst]. split.
    + rewrite <- Hr. cbn [default exp_value length]. rewrite app_nil_r. unfold id.
      change [C_ZERO] with [digit_of 0]. rewrite base_value_snoc by lia. rewrite Z.add_0_r.
      pose proof (round_power_shift s (base_value 10 a) 10 1 (0 - Z.of_nat (length [digit_of 0])) ltac:(lia) ltac:(lia)) as E.
      by change (10 ^ 1) with 10 in E.
    + apply not_false_iff_true. rewrite literal_marker by done. by intros [? ?].
Qed.
