(* ===== verification/StringToNumber.v ===== *)
(** * StringToNumber: [string->number] (lib/core/bignum.cpp)

    A C string is the list of its bytes before the NUL; its end is the end of
    the list. *)

From S2P Require Export CText Tagged.
Local Open Scope Z_scope.

Definition false_val : tagged := Tagged (VImm ESHKOL_VALUE_BOOL 0) 0.
Definition is_blank (c : Z) : bool := (c =? C_SPACE) || (c =? C_TAB).
(** Skip spaces and tabs. *)
Definition skip_blanks (p : bytes) : bytes := snd (span is_blank p).
Definition at_end (p : bytes) : bool := match p with [] => true | _ => false end.

Definition eshkol_s2n_infnan (s : bytes) : option double :=
  let '(negative, r) := match eat C_PLUS s with Some r => (Some false, r)
    | None => match eat C_MINUS s with Some r => (Some true, r) | None => (None, []) end end in
  match negative with
  | None => None
  | Some negative =>
      let magnitude :=
        if bool_decide (take 5 r = lit "inf.0") then Some (S754_infinity negative)
        else if bool_decide (take 5 r = lit "nan.0") then Some S754_nan
        else None in
      match magnitude with
      | None => None
      | Some out => if at_end (skip_blanks (drop 5 r)) then Some out else None
      end
  end.

(** What the scan for syntax markers finds: a character that is in no number, the
    text before and after a slash, a float, or digits only. *)
Inductive syntax := NotANumber | RationalAt (before after : bytes) | FloatSyntax | IntegerSyntax.

Fixpoint scan_syntax (before p : bytes) : syntax :=
  match p with
  | [] => IntegerSyntax
  | c :: p' =>
      if c =? C_SLASH then RationalAt before p'
      else if (c =? C_DOT) || (c =? 101) || (c =? 69) then FloatSyntax
      else if negb (isdigit c) then NotANumber
      else scan_syntax (before ++ [c]) p'
  end.

Definition rational_tagged (num denom : Z) : outcome tagged :=
  rat ← eshkol_rational_create num denom; Ret (Tagged (rational_ptr rat) ESHKOL_VALUE_EXACT_FLAG).

Definition eshkol_s2n_decimal (start : bytes) : outcome tagged :=
  let '(sg, p) := match start with c :: p => if (c =? C_MINUS) || (c =? C_PLUS) then ([c], p) else ([], start) | [] => ([], []) end in
  if negb (match p with c :: _ => isdigit c || (c =? C_DOT) | [] => false end) then Ret false_val
  else
    match scan_syntax sg p with
    | NotANumber => Ret false_val
    | RationalAt before after =>
        let '(num, n, erange) := strtoll start 10 in
        if (n =? length before)%nat && negb erange then
          let '(denom, n, erange) := strtoll after 10 in
          if at_end (drop n after) && negb erange && negb (denom =? 0) then rational_tagged num denom
          else Ret false_val
        else Ret false_val
    | FloatSyntax =>
        let '(val, n) := strtod start in
        if negb (at_end (skip_blanks (drop n start))) || (n =? 0)%nat then Ret false_val
        else Ret (eshkol_make_double val)
    | IntegerSyntax =>
        let '(val, n, erange) := strtoll start 10 in
        if negb erange && negb (n =? 0)%nat && at_end (skip_blanks (drop n start)) then Ret (eshkol_make_int64 val true)
        else if erange then
          match eshkol_bignum_from_string (map char_of start) with
          | Some bn => Ret (Tagged (bignum_ptr (Some bn)) ESHKOL_VALUE_EXACT_FLAG)
          | None => Ret false_val
          end
        else Ret false_val
    end.

Definition eshkol_s2n_radix_int (start : bytes) (radix : Z) : outcome tagged :=
  match eat C_SLASH (snd (span (λ c, negb (c =? C_SLASH)) start)) with
  | Some after =>
      let before := fst (span (λ c, negb (c =? C_SLASH)) start) in
      let '(num, n, erange) := strtoll start radix in
      if negb (n =? length before)%nat || (n =? 0)%nat || erange then Ret false_val
      else
        let '(denom, n, erange) := strtoll after radix in
        if (n =? 0)%nat || negb (at_end (skip_blanks (drop n after))) || erange || (denom =? 0) then Ret false_val
        else rational_tagged num denom
  | None =>
      let '(val, n, erange) := strtoll start radix in
      if (n =? 0)%nat || negb (at_end (skip_blanks (drop n start))) || erange then Ret false_val
      else Ret (eshkol_make_int64 val true)
  end.

(** The radix a prefix gives, in lower case. *)
Definition radix_of (c : Z) : option Z :=
  let c := Z.lor c 32 in
  if c =? 98 then Some 2 else if c =? 111 then Some 8 else if c =? 100 then Some 10
  else if c =? 120 then Some 16 else None.

Definition eshkol_string_to_number_radix_tagged (str : option bytes) (radix : Z) : outcome tagged :=
  match str with
  | None => Ret false_val
  | Some str =>
      let start := skip_blanks str in
      if at_end start then Ret false_val
      else
        let prefixed :=
          match eat C_HASH start with
          | Some (c :: start) =>
              match radix_of c with
              | Some radix => if at_end start then None else Some (start, radix)
              | None => None
              end
          | _ => Some (start, radix)
          end in
        match prefixed with
        | None => Ret false_val
        | Some (start, radix) =>
            if (radix <? 2) || (36 <? radix) then Ret false_val
            else
              match eshkol_s2n_infnan start with
              | Some infnan => Ret (eshkol_make_double infnan)
              | None => if radix =? 10 then eshkol_s2n_decimal start else eshkol_s2n_radix_int start radix
              end
        end
  end.

Definition eshkol_string_to_number_tagged (str : option bytes) : outcome tagged :=
  eshkol_string_to_number_radix_tagged str 10.
