(* ===== verification/NumTextProps.v ===== *)
(** * NumTextProps: the text of numbers, parsed and printed *)

From S2P Require Export StringToNumber DoubleTextSpec TaggedSpec.
Local Open Scope Z_scope.

(** * [string->number] on the text of numbers *)

(** ** Digits as characters *)

Lemma char_code_of c : 0 <= c < 256 → char_code (char_of c) = c.
Proof. intros. unfold char_code, char_of. rewrite N_ascii_embedding; lia. Qed.

Lemma digits_as_chars ds : digits ds → all_digits (map char_of ds) ∧ digits_value (map char_of ds) = base_value 10 ds.
Proof.
  induction 1 as [|c ds Hc Hds [IH1 IH2]]; [by split; [constructor|]|]. cbn [map].
  pose proof Hc as Hr. apply isdigit_spec in Hr. split.
  - constructor; [|done]. unfold is_digit_char. rewrite char_code_of by lia.
    apply andb_true_iff. split; apply Z.leb_le; lia.
  - rewrite digits_value_cons, base_value_cons, IH2, length_map, char_code_of, (digit_value_digit c Hc) by lia. done.
Qed.

Lemma literal_bytes sg neg ds : sign_text sg neg → digits ds → ds ≠ [] →
  literal (map char_of (sg ++ ds)) (signed neg (base_value 10 ds)).
Proof.
  intros Hsg Hds Hne. destruct (digits_as_chars ds Hds) as [Ha Hv]. rewrite map_app.
  assert (map char_of ds ≠ []) by (by destruct ds).
  destruct Hsg as [[-> ->]|[[-> ->]|[-> ->]]]; cbn [map app signed]; rewrite <- Hv; by constructor.
Qed.

(** ** Dispatch *)

Lemma scan_digits b ds r : digits ds → scan_syntax b (ds ++ r) = scan_syntax (b ++ ds) r.
Proof.
  intros Hds. revert b. induction Hds as [|c ds Hc _ IH]; intros b; [by rewrite app_nil_r|].
  cbn [app scan_syntax]. rewrite Hc. apply isdigit_spec in Hc.
  destruct (Z.eqb_spec c C_SLASH); [lia|]. destruct (Z.eqb_spec c C_DOT); [lia|].
  destruct (Z.eqb_spec c 101); [lia|]. destruct (Z.eqb_spec c 69); [lia|]. cbn [orb negb]. by rewrite IH, <- app_assoc.
Qed.

(** A text that starts with digits after an optional sign reaches the decimal parser. *)
Lemma s2n_decimal_text sg neg ds r : sign_text sg neg → digits ds → ds ≠ [] →
  eshkol_string_to_number_tagged (Some (sg ++ ds ++ r)) = eshkol_s2n_decimal (sg ++ ds ++ r).
Proof.
  intros Hsg Hds (c & l & ->)%length_pos. apply Forall_cons_1 in Hds as [Hc _]. apply isdigit_spec in Hc.
  assert (Hblank : is_blank c = false).
  { unfold is_blank. destruct (Z.eqb_spec c C_SPACE), (Z.eqb_spec c C_TAB); try lia; done. }
  assert (Hinf : ∀ l' s, bool_decide (take 5 (c :: l') = lit (String "i" s)) = false
                  ∧ bool_decide (take 5 (c :: l') = lit (String "n" s)) = false).
  { intros l' s. split; apply bool_decide_eq_false_2; cbn [take lit text_bytes String.list_ascii_of_string map]; intros [= E _]; vm_compute in E; lia. }
  unfold eshkol_string_to_number_tagged, eshkol_string_to_number_radix_tagged, skip_blanks.
  destruct Hsg as [[-> ->]|[[-> ->]|[-> ->]]]; cbn [app].
  - assert (span is_blank (c :: l ++ r) = ([], c :: l ++ r)) as -> by (by apply span_none).
    cbn [snd at_end]. assert (∀ x, x < 48 → eat x (c :: l ++ r) = None) as He.
    { intros x Hx. unfold eat. destruct (Z.eqb_spec c x); [lia|done]. }
    unfold eshkol_s2n_infnan. rewrite !He by lia. done.
  - assert (span is_blank (C_MINUS :: c :: l ++ r) = ([], C_MINUS :: c :: l ++ r)) as -> by (by apply span_none).
    cbn [snd at_end]. unfold eshkol_s2n_infnan. change (eat C_HASH (C_MINUS :: c :: l ++ r)) with (@None bytes). cbv beta iota.
    change (eat C_PLUS (C_MINUS :: c :: l ++ r)) with (@None bytes). rewrite eat_cons. cbv beta iota.
    by rewrite (proj1 (Hinf _ _)), (proj2 (Hinf _ _)).
  - assert (span is_blank (C_PLUS :: c :: l ++ r) = ([], C_PLUS :: c :: l ++ r)) as -> by (by apply span_none).
    cbn [snd at_end]. unfold eshkol_s2n_infnan. change (eat C_HASH (C_PLUS :: c :: l ++ r)) with (@None bytes). cbv beta iota.
    rewrite eat_cons. cbv beta iota. by rewrite (proj1 (Hinf _ _)), (proj2 (Hinf _ _)).
Qed.

(** The decimal parser after the sign and the digits. *)
Lemma s2n_decimal_scan sg neg ds r : sign_text sg neg → digits ds → ds ≠ [] →
  eshkol_s2n_decimal (sg ++ ds ++ r) =
    match scan_syntax (sg ++ ds) r with
    | NotANumber => Ret false_val
    | RationalAt before after =>
        let '(num, n, erange) := strtoll (sg ++ ds ++ r) 10 in
        if (n =? length before)%nat && negb erange then
          let '(denom, n, erange) := strtoll after 10 in
          if at_end (drop n after) && negb erange && negb (denom =? 0) then rational_tagged num denom
          else Ret false_val
        else Ret false_val
    | FloatSyntax =>
        let '(val, n) := strtod (sg ++ ds ++ r) in
        if negb (at_end (skip_blanks (drop n (sg ++ ds ++ r)))) || (n =? 0)%nat then Ret false_val
        else Ret (eshkol_make_double val)
    | IntegerSyntax =>
        let '(val, n, erange) := strtoll (sg ++ ds ++ r) 10 in
        if negb erange && negb (n =? 0)%nat && at_end (skip_blanks (drop n (sg ++ ds ++ r))) then Ret (eshkol_make_int64 val true)
        else if erange then
          match eshkol_bignum_from_string (map char_of (sg ++ ds ++ r)) with
          | Some bn => Ret (Tagged (bignum_ptr (Some bn)) ESHKOL_VALUE_EXACT_FLAG)
          | None => Ret false_val
          end
        else Ret false_val
    end.
Proof.
  intros Hsg Hds Hne. rewrite <- (scan_digits sg ds r Hds). destruct (length_pos _ Hne) as (c & l & E).
  pose proof Hds as Hc. rewrite E in Hc. apply Forall_cons_1 in Hc as [Hc _].
  assert (Hsplit : (match sg ++ ds ++ r with c :: p => if (c =? C_MINUS) || (c =? C_PLUS) then ([c], p) else ([], sg ++ ds ++ r) | [] => ([], []) end) = (sg, ds ++ r)).
  { destruct Hsg as [[-> ->]|[[-> ->]|[-> ->]]]; [|done|done]. rewrite E. cbn [app]. apply isdigit_spec in Hc.
    destruct (Z.eqb_spec c C_MINUS); [lia|]. destruct (Z.eqb_spec c C_PLUS); [lia|]. done. }
  unfold eshkol_s2n_decimal. rewrite Hsplit. rewrite E at 1. cbn [app]. rewrite Hc. done.
Qed.

(** ** Integers *)

Lemma s2n_integer sg neg ds : sign_text sg neg → digits ds → ds ≠ [] →
  returns_num (eshkol_string_to_number_tagged (Some (sg ++ ds))) (inject_Z (signed neg (base_value 10 ds))).
Proof.
  intros Hsg Hds Hne. pose proof (s2n_decimal_text sg neg ds [] Hsg Hds Hne) as E1.
  pose proof (s2n_decimal_scan sg neg ds [] Hsg Hds Hne) as E2. pose proof (strtoll_digits sg neg ds [] Hsg Hds Hne I) as E3.
  rewrite app_nil_r in E1, E2, E3. rewrite E1, E2, E3. clear E1 E2 E3. cbn [scan_syntax].
  set (z := signed neg (base_value 10 ds)).
  assert (Hlen : (length sg + length ds =? 0)%nat = false) by (destruct ds; [done|apply Nat.eqb_neq; simpl; lia]).
  assert (Hend : at_end (skip_blanks (drop (length sg + length ds) (sg ++ ds))) = true).
  { by rewrite <- length_app, drop_all. }
  rewrite Hlen, Hend. destruct (Z.eqb_spec (clamp64 z) z) as [E|E]; cbn [negb andb].
  - rewrite E. eexists. split; [reflexivity|]. cbn.
    assert (is_i64 z) by (rewrite <- E; unfold is_i64, clamp64, INT64_MIN, INT64_MAX; lia). done.
  - destruct (from_string_literal _ _ (literal_bytes sg neg ds Hsg Hds Hne)) as (b & -> & Hb & Eb). fold z in Eb.
    eexists. split; [reflexivity|]. cbn. rewrite Eb. split; [|done]. split; [done|]. intros Hz. by apply E, clamp64_id.
Qed.

(** ** Rationals *)

Lemma s2n_rational sg neg ds sg' neg' ds' : sign_text sg neg → digits ds → ds ≠ [] →
  sign_text sg' neg' → digits ds' → ds' ≠ [] →
  is_i64 (signed neg (base_value 10 ds)) → is_i64 (signed neg' (base_value 10 ds')) → signed neg' (base_value 10 ds') ≠ 0 →
  ∃ r, eshkol_string_to_number_tagged (Some (sg ++ ds ++ C_SLASH :: sg' ++ ds')) = Ret (Tagged (rational_ptr r) ESHKOL_VALUE_EXACT_FLAG)
    ∧ canonical r ∧ (rval r == inject_Z (signed neg (base_value 10 ds)) / inject_Z (signed neg' (base_value 10 ds')))%Q.
Proof.
  intros Hsg Hds Hne Hsg' Hds' Hne' Hi Hi' Hz.
  rewrite (s2n_decimal_text sg neg ds _ Hsg Hds Hne), (s2n_decimal_scan sg neg ds _ Hsg Hds Hne).
  cbn [scan_syntax]. rewrite Z.eqb_refl, (strtoll_digits sg neg ds _ Hsg Hds Hne) by done.
  rewrite length_app, Nat.eqb_refl, clamp64_id, Z.eqb_refl by done. cbn [negb andb].
  pose proof (strtoll_digits sg' neg' ds' [] Hsg' Hds' Hne' I) as E. rewrite app_nil_r in E. rewrite E.
  rewrite <- length_app, drop_all, clamp64_id, Z.eqb_refl by done. cbn [at_end negb andb].
  destruct (Z.eqb_spec (signed neg' (base_value 10 ds')) 0); [done|]. cbn [negb]. unfold rational_tagged.
  destruct (create_num _ _ Hi Hi' Hz) as (r & -> & Hc & Hr). by exists r.
Qed.

(** ** Doubles *)

Lemma s2n_float s a frac ex : decimal_ok a frac ex → (frac ≠ None ∨ ex ≠ None) →
  eshkol_string_to_number_tagged (Some (decimal_text s a frac ex)) =
    Ret (eshkol_make_double (round_power s (base_value 10 (a ++ default [] frac)) 10 (exp_value ex - Z.of_nat (length (default [] frac))))).
Proof.
  intros Hok Hmark. pose proof (strtod_literal s a frac ex Hok) as E. unfold decimal_text in *.
  pose proof Hok as [Ha Hne _ _].
  rewrite (s2n_decimal_text _ s a _ (minus_sign s) Ha Hne), (s2n_decimal_scan _ s a _ (minus_sign s) Ha Hne).
  assert (scan_syntax (minus_text s ++ a) (point_text frac ++ exp_text ex) = FloatSyntax) as ->.
  { destruct frac as [b|]; [done|]. destruct ex as [[n e]|]; [done|]. by destruct Hmark. }
  rewrite E, drop_all. cbn [skip_blanks at_end negb orb].
  assert ((length (minus_text s ++ a ++ point_text frac ++ exp_text ex) =? 0)%nat = false) as ->; [|done].
  apply Nat.eqb_neq. rewrite !length_app. destruct a; [done|]. simpl. lia.
Qed.

(** The text of any double gives the double back, or an exact integer that rounds
    to it when the text has no point and no exponent. *)
Lemma s2n_double cap v : is_double v → 25 <= cap →
  ∃ r, eshkol_string_to_number_tagged (Some (eshkol_dtoa_shortest cap v)) = Ret r ∧
    (data r = VDouble v ∨
     has_marker (eshkol_dtoa_shortest cap v) = false ∧
     ∃ s z, 0 <= z ∧ normal (data r) ∧ exact_num (data r) (inject_Z (signed s z)) ∧ round_ratio s z 1 = v).
Proof.
  intros Hv Hcap.
  assert (Hfit : ∀ t : bytes, (length t <= 24)%nat → fit cap t = t) by (intros t Ht; apply take_ge; lia).
  destruct v as [s|s| |s m e].
  - unfold eshkol_dtoa_shortest. destruct (Z.eqb_spec cap 0); [lia|]. rewrite Hfit by (destruct s; vm_compute length; lia).
    destruct s; (eexists; split; [vm_compute; reflexivity|]); [by left|]. right. split; [done|]. exists false, 0.
    split_and!; [lia|split; lia|by split; [split; lia|]|by vm_compute].
  - unfold eshkol_dtoa_shortest. destruct (Z.eqb_spec cap 0); [lia|]. rewrite Hfit by (destruct s; vm_compute length; lia).
    destruct s; (eexists; split; [vm_compute; reflexivity|by left]).
  - unfold eshkol_dtoa_shortest. destruct (Z.eqb_spec cap 0); [lia|]. rewrite Hfit by (vm_compute length; lia).
    eexists; split; [vm_compute; reflexivity|by left].
  - destruct (dtoa_literal cap s m e Hv Hcap) as (a & frac & ex & -> & Hok & _ & Hr).
    destruct (decide (frac = None ∧ ex = None)) as [[-> ->]|Hn].
    + destruct Hok as [Ha Hne _ _]. unfold decimal_text, point_text, exp_text. rewrite !app_nil_r.
      destruct (s2n_integer _ s a (minus_sign s) Ha Hne) as (r & Er & Hnorm & Hnum). exists r. split; [done|]. right.
      cbn [default length exp_value] in Hr. rewrite app_nil_r in Hr.
      split; [|exists s, (base_value 10 a); split_and!; [by apply base_value_nonneg|done|done|]].
      * rewrite has_marker_app, (digits_no_marker a Ha). by destruct s.
      * rewrite <- Hr. unfold round_power. by rewrite Z.mul_1_r.
    + eexists. split; [apply s2n_float; [done|]|by left; rewrite Hr].
      destruct frac, ex; [by left|by left|by right|]. by destruct Hn.
Qed.

(** * Numbers and their text *)

(** C31: the text [display], [write] and [number->string] print for a finite
    double is at most 24 characters long, so it fits every buffer it is printed
    to, and [strtod] reads it back, to its last character, as the same double,
    the sign of zero included; the text of a binary32 number has an inexact
    marker and reads back as the double it widens to. *)
Theorem double_text_roundtrip v : is_finite v = true → is_double v →
  (∀ cap, 25 <= cap →
    strtod (eshkol_format_double cap v) = (v, length (eshkol_format_double cap v))
    ∧ (length (eshkol_format_double cap v) <= 24)%nat)
  ∧ (∀ cap, 27 <= cap →
    fst (strtod (eshkol_format_float32_bits_shared cap v)) = v
    ∧ has_marker (eshkol_format_float32_bits_shared cap v) = true).
Proof. intros Hf Hv. split; intros cap Hcap; [by apply dtoa_reads_back|by apply float32_reads_back]. Qed.

(** The double nearest to one tenth. *)
Definition tenth : double := S754_finite false 7205759403792794 (-56).

Lemma double_text_roundtrip_witness :
  eshkol_fprint_double tenth = lit "0.1" ∧ strtod (eshkol_format_double 64 tenth) = (tenth, 3%nat).
Proof.
  split; [vm_compute; reflexivity|].
  destruct (double_text_roundtrip tenth eq_refl eq_refl) as [H _].
  destruct (H 64 ltac:(lia)) as [E _]. rewrite E. vm_compute. reflexivity.
Defined.



(** ** Where reading and printing part *)

(** A ratio that is an integer stays a rational with denominator one. *)
Lemma integer_ratio_not_demoted :
  ∃ r, eshkol_string_to_number_tagged (Some (lit "4/2")) = Ret (Tagged (rational_ptr r) ESHKOL_VALUE_EXACT_FLAG) ∧ denominator r = 1.
Proof. eexists. split; [vm_compute; reflexivity|done]. Qed.

(** [2^70] prints as an integer with the shortest digits, which is another integer. *)
Lemma large_integral_double_changes_value :
  eshkol_fprint_double (of_int (2 ^ 70)) = lit "1180591620717411300000" ∧
  ∃ r, eshkol_string_to_number_tagged (Some (lit "1180591620717411300000")) = Ret r
    ∧ exact_num (data r) (inject_Z 1180591620717411300000) ∧ 1180591620717411300000 ≠ 2 ^ 70.
Proof.
  split; [vm_compute; reflexivity|].
  destruct (s2n_integer [] false (lit "1180591620717411300000")) as (r & E & _ & Hr);
    [by left|by repeat constructor|done|]. exists r. by split_and!.
Qed.

(** Trailing blanks are skipped after a float and refused after an integer. *)
Lemma trailing_blank_only_after_float :
  eshkol_string_to_number_tagged (Some (lit "12 ")) = Ret false_val ∧
  eshkol_string_to_number_tagged (Some (lit "1.5 ")) = Ret (eshkol_make_double (S754_finite false 6755399441055744 (-52))).
Proof. split; vm_compute; reflexivity. Qed.

(** An integer literal of another radix beyond [int64] is no number. *)
Lemma radix_literal_limited : eshkol_string_to_number_tagged (Some (lit "#xFFFFFFFFFFFFFFFF")) = Ret false_val.
Proof. vm_compute. reflexivity. Qed.
