(* ===== verification/Writer.v ===== *)
(** * Writer: [display] and [write] (lib/core/runtime_display_hosted.cpp,
    inc/eshkol/core/symbol_syntax.h, [eshkol_rational_display] of
    lib/core/rational.cpp)

    The result is the bytes sent to the port.  A [char*] read by [strlen] ends at
    its first NUL. *)

From S2P Require Export KnowledgeBase DoubleText.
Local Open Scope Z_scope.

Definition C_TILDE : Z := 126.
Definition bytes_text (l : bytes) : string := String.string_of_list_ascii (map char_of l).
(** The bytes of the C string at the start of [s]. *)
Definition c_bytes (s : string) : bytes := text_bytes (c_text (text_bytes s)).
Definition escape (c : Z) : bytes := [C_BACKSLASH; c].

(** ** Strings *)

Definition write_escaped_char (c : Z) : bytes :=
  if c =? C_DQUOTE then escape C_DQUOTE
  else if c =? C_BACKSLASH then escape C_BACKSLASH
  else if c =? 7 then escape 97
  else if c =? 8 then escape 98
  else if c =? C_TAB then escape 116
  else if c =? C_NEWLINE then escape 110
  else if c =? C_RETURN then escape 114
  else if (c <? 0x20) || (c =? 0x7f) then escape 120 ++ print_hex 97 c ++ [C_SEMICOLON]
  else [c].

Definition write_escaped_string (data : bytes) : bytes :=
  [C_DQUOTE] ++ concat (map write_escaped_char data) ++ [C_DQUOTE].

(** ** Symbols: the identifier grammar *)

Definition eshkol_symbol_is_letter (c : Z) : bool := islower c || isupper c || (0x80 <=? c).
Definition eshkol_symbol_is_special_initial (c : Z) : bool := bool_decide (c ∈ lit "!$%&*/<=>?^_~").
Definition eshkol_symbol_is_initial (c : Z) : bool := eshkol_symbol_is_letter c || eshkol_symbol_is_special_initial c.
Definition eshkol_symbol_is_digit (c : Z) : bool := isdigit c.
Definition eshkol_symbol_is_subsequent (c : Z) : bool :=
  eshkol_symbol_is_initial c || eshkol_symbol_is_digit c || (c =? C_PLUS) || (c =? C_MINUS) || (c =? C_DOT) || (c =? C_AT).
Definition eshkol_symbol_is_sign_subsequent (c : Z) : bool :=
  eshkol_symbol_is_initial c || (c =? C_PLUS) || (c =? C_MINUS) || (c =? C_AT).
Definition eshkol_symbol_is_dot_subsequent (c : Z) : bool := eshkol_symbol_is_sign_subsequent c || (c =? C_DOT).

Definition eshkol_symbol_all_subsequent (name : bytes) (from : nat) : bool :=
  forallb eshkol_symbol_is_subsequent (drop from name).

Definition char_at (name : bytes) (i : nat) : Z := nth i name 0.

(** The productions, after the reserved spellings and the colon. *)
Definition grammar_needs_bars (name : bytes) : bool :=
  let n := length name in
  let c0 := char_at name 0 in
  if eshkol_symbol_is_initial c0 then negb (eshkol_symbol_all_subsequent name 1)
  else if (c0 =? C_PLUS) || (c0 =? C_MINUS) then
    if (n =? 1)%nat then false
    else if char_at name 1 =? C_DOT then
      if (n <? 3)%nat || negb (eshkol_symbol_is_dot_subsequent (char_at name 2)) then true
      else negb (eshkol_symbol_all_subsequent name 3)
    else if negb (eshkol_symbol_is_sign_subsequent (char_at name 1)) then true
    else negb (eshkol_symbol_all_subsequent name 2)
  else if c0 =? C_DOT then
    if (n <? 2)%nat || negb (eshkol_symbol_is_dot_subsequent (char_at name 1)) then true
    else negb (eshkol_symbol_all_subsequent name 2)
  else true.

Definition eshkol_symbol_needs_bars (name : bytes) : bool :=
  let len := length name in
  if (len =? 0)%nat then true
  else if (len =? 2)%nat && (char_at name 0 =? C_MINUS) && (char_at name 1 =? 62) then true
  else if (len =? 6)%nat && ((char_at name 0 =? C_PLUS) || (char_at name 0 =? C_MINUS))
          && (bool_decide (drop 1 name = lit "inf.0") || bool_decide (drop 1 name = lit "nan.0")) then true
  else if (char_at name 0 =? C_COLON) && (len =? 1)%nat then true
  else
    let name := if char_at name 0 =? C_COLON then drop 1 name else name in
    if existsb (λ c, c =? C_COLON) name then true else grammar_needs_bars name.

(** ** Symbols: escapes *)

Definition eshkol_symbol_mnemonic_escape (c : Z) : Z :=
  if c =? 7 then 97 else if c =? 8 then 98 else if c =? C_TAB then 116
  else if c =? C_NEWLINE then 110 else if c =? C_RETURN then 114 else 0.

Definition eshkol_symbol_element_needs_escape (c : Z) : bool :=
  (c =? C_BAR) || (c =? C_BACKSLASH) || (c <? 0x20) || (c =? 0x7f).

Definition escape_element (c : Z) : bytes :=
  if c =? C_BAR then escape C_BAR
  else if negb (eshkol_symbol_element_needs_escape c) then [c]
  else
    let mnemonic := eshkol_symbol_mnemonic_escape c in
    if negb (mnemonic =? 0) then escape mnemonic
    else escape 120 ++ [hex_digit 97 (Z.land (Z.shiftr c 4) 0xf); hex_digit 97 (Z.land c 0xf); C_SEMICOLON].

Definition eshkol_symbol_escape_body (name : bytes) : bytes := concat (map escape_element name).

(** The size of the buffer, computed first. *)
Definition escaped_element_len (c : Z) : nat :=
  if c =? C_BAR then 2
  else if eshkol_symbol_element_needs_escape c then (if negb (eshkol_symbol_mnemonic_escape c =? 0) then 2 else 5)
  else 1.
Definition eshkol_symbol_escaped_body_len (name : bytes) : nat := sum_list (map escaped_element_len name).

Definition write_symbol_name (name : bytes) : bytes :=
  if negb (eshkol_symbol_needs_bars name) then name
  else [C_BAR] ++ eshkol_symbol_escape_body name ++ [C_BAR].

(** ** Characters *)

Definition display_char (quote_strings : bool) (codepoint : Z) : bytes :=
  if negb quote_strings then utf8_bytes codepoint
  else if codepoint =? C_SPACE then lit "#\space"
  else if codepoint =? C_NEWLINE then lit "#\newline"
  else if codepoint =? C_TAB then lit "#\tab"
  else if codepoint =? C_RETURN then lit "#\return"
  else if codepoint =? 0 then lit "#\null"
  else if (codepoint <? 128) && (32 <=? codepoint) then lit "#\" ++ [codepoint]
  else lit "#\x" ++ print_hex 65 codepoint.

(** ** Strings of code points *)

Definition utf8_length (cp : Z) : nat :=
  if cp <? 0x80 then 1 else if cp <? 0x800 then 2 else if cp <? 0x10000 then 3 else if cp <? 0x110000 then 4 else 3.
Definition eshkol_utf8_encode_one (cp : Z) : bytes :=
  if cp <? 0x110000 then utf8_bytes cp else [0xEF; 0xBF; 0xBD].

(** The byte count of the allocation, and the bytes written to it. *)
Definition eshkol_string_from_codepoints (codepoints : list Z) : nat * bytes :=
  (sum_list (map (λ c, utf8_length (u32 c)) codepoints), concat (map (λ c, eshkol_utf8_encode_one (u32 c)) codepoints)).

(** ** Numbers *)

Definition bignum_bytes (b : option bignum) : bytes :=
  match eshkol_bignum_display b with Some l => map byte_of l | None => [] end.

Definition eshkol_rational_display (rat : rational) : bytes :=
  if is_big rat then
    bignum_bytes (big_num rat)
    ++ (if negb (bn_equals_i64 (big_den rat) 1) then [C_SLASH] ++ bignum_bytes (big_den rat) else [])
  else if denominator rat =? 1 then print_int (numerator rat)
  else print_int (numerator rat) ++ [C_SLASH] ++ print_int (denominator rat).

Definition display_complex (re im : double) : bytes :=
  if d_eq im d_zero then eshkol_format_double 64 re
  else
    (if negb (d_eq re d_zero) then eshkol_format_double 64 re else [])
    ++ (if d_eq im (of_int 1) then lit "+i"
        else if d_eq im (of_int (-1)) then lit "-i"
        else
          let ibuf := eshkol_format_double 64 im in
          (if negb ((char_at ibuf 0 =? C_PLUS) || (char_at ibuf 0 =? C_MINUS)) then [C_PLUS] else [])
          ++ ibuf ++ [105]).

(** ** Tensors *)

Definition element_text (elements : list double) (i : Z) : bytes := eshkol_fprint_double (nth (Z.to_nat i) elements d_zero).

(** [for (i = 0; i < n; i++) { if (i > 0) " "; item(i); }] *)
Definition spaced (items : list bytes) : bytes :=
  match items with [] => [] | x :: l => x ++ concat (map (λ y, C_SPACE :: y) l) end.
Definition parenthesized (items : list bytes) : bytes := [C_LPAREN] ++ spaced items ++ [C_RPAREN].

Fixpoint display_tensor_recursive (elements : list double) (dims : list Z) (offset : Z) : bytes :=
  match dims with
  | [] => lit "#()"
  | [dim_size] => parenthesized (map (λ i, element_text elements (offset + Z.of_nat i)) (seq 0 (Z.to_nat dim_size)))
  | dim_size :: inner =>
      let stride := foldr (λ d s, u64 (d * s)) 1 inner in
      parenthesized (map (λ i, display_tensor_recursive elements inner (offset + Z.of_nat i * stride)) (seq 0 (Z.to_nat dim_size)))
  end.

Definition display_tensor (dims : list Z) (elements : list double) : bytes :=
  if (length dims =? 0)%nat || (length elements =? 0)%nat then lit "#()"
  else [C_HASH] ++ display_tensor_recursive elements dims 0.

(** ** Values *)

Definition ESHKOL_VALUE_INPUT_PORT : Z := 48.
Definition ESHKOL_VALUE_OUTPUT_PORT : Z := 96.
Definition ESHKOL_VALUE_VECTOR_PTR : Z := 34.
Definition ESHKOL_VALUE_TENSOR_PTR : Z := 35.
Definition ESHKOL_VALUE_AD_NODE_PTR : Z := 40.

(** The heap objects printed as a fixed text. *)
Definition heap_label (subtype : Z) : option bytes :=
  option_map lit
    (match subtype with
     | 4 => Some "#<values>" | 5 => Some "#<hash>" | 6 => Some "#<exception>" | 7 => Some "#<record>"
     | 8 => Some "#<bytevector>" | 9 => Some "#<port>" | 18 => Some "#<promise>" | 20 => Some "#<prng>"
     | 21 => Some "#<dnc>" | 22 => Some "#<sdnc>" | 23 => Some "#<taylor>" | 24 => Some "#<parameter>"
     | _ => None
     end)%string.

(** The members of [heap_subtype_t] that [heap_label] does not name. *)
Definition printed_elsewhere (subtype : Z) : bool := bool_decide (subtype ∈ [0; 1; 2; 3; 10; 11; 12; 13; 15; 16; 17; 19; 25]).

Record display_opts := DisplayOpts { max_depth : Z; quote_strings : bool; show_types : bool }.
Definition eshkol_display_default_opts : display_opts := DisplayOpts 100 false false.

Section writer.
Context (e : engine).
(** [fileno], -1 on NULL, and the objects whose payload a [value] does not carry: dual numbers,
    callables, hash tables behind a legacy pointer, factor graphs, workspaces, 128-bit integers. *)
Context (fileno : Z → Z) (print_foreign : Z → Z → bytes).
Context (opts : display_opts).

Definition double_text (d : double) : string := bytes_text (eshkol_fprint_double d).
Definition float32_text (d : double) : string := bytes_text (eshkol_format_float32_bits_shared 64 d).

Definition print_string (l : bytes) : bytes := if quote_strings opts then write_escaped_string l else l.
Definition print_symbol (l : bytes) : bytes := if quote_strings opts then write_symbol_name l else l.

(** [Imm]: the immediate types, the NULL pointers and the types without a structure of their own. *)
Definition display_imm (full_type raw : Z) : bytes :=
  let base_type := get_base_type full_type in
  if full_type =? ESHKOL_VALUE_INPUT_PORT then lit "#<input-port fd:" ++ print_int (fileno raw) ++ lit ">"
  else if full_type =? ESHKOL_VALUE_OUTPUT_PORT then lit "#<output-port fd:" ++ print_int (fileno raw) ++ lit ">"
  else if base_type =? ESHKOL_VALUE_NULL then lit "()"
  else if (base_type =? ESHKOL_VALUE_HEAP_PTR) && (raw =? 0) then lit "()"
  else if (base_type =? ESHKOL_VALUE_CONS_PTR) && (raw =? 0) then lit "()"
  else if base_type =? TYPE_BOOL then lit (if negb (raw =? 0) then "#t" else "#f")
  else if base_type =? ESHKOL_VALUE_CHAR then display_char (quote_strings opts) (u32 raw)
  else if base_type =? ESHKOL_VALUE_AD_NODE_PTR then lit "#<ad-node>"
  else if (base_type =? ESHKOL_VALUE_VECTOR_PTR) && (raw =? 0) then lit "#()"
  else if (base_type =? ESHKOL_VALUE_TENSOR_PTR) && (raw =? 0) then lit "#()"
  else if (base_type =? ESHKOL_VALUE_COMPLEX) && (raw =? 0) then lit "0"
  else if (base_type =? ESHKOL_VALUE_DUAL_NUMBER) && (raw =? 0) then lit "(dual 0 0)"
  else if bool_decide (base_type ∈ [5; 6; 8; 9; 33; 34; 35; 36; 38; 39]) then print_foreign full_type raw
  else if show_types opts then lit "#<unknown-type-" ++ print_int base_type ++ lit ":0x" ++ print_hex 97 (u64 raw) ++ lit ">"
  else lit "#<unknown>".

(** The loop of [eshkol_display_list] over the cells, [show] printing at its depth. *)
Definition display_cells (show : value → bytes) : value → bool → bytes :=
  fix cells (cur : value) (first : bool) {struct cur} : bytes :=
    match cur with
    | Cons _ _ car cdr =>
        (if first then [] else [C_SPACE]) ++ show car
        ++ (match cdr with
            | Cons _ _ _ _ => cells cdr false
            | _ => if is_empty_list cdr then [] else lit " . " ++ show cdr
            end)
    | _ => []
    end.

(** [d] is [current_depth]. *)
Fixpoint eshkol_display_value_opts (d : Z) (v : value) {struct v} : bytes :=
  if max_depth opts <? d then lit "..."
  else
    match v with
    | Imm ty raw => display_imm ty raw
    | Int64 n => print_int n
    | Double x => eshkol_fprint_double x
    | Float32 (Some x) => eshkol_format_float32_bits_shared 64 x
    | Float32 None => lit "#<invalid-float32>"
    | LogicVar id => text_bytes (eshkol_display_logic_var e id)
    | Complex _ re im => display_complex re im
    | Str false _ s => print_string (text_bytes s)
    | Str true _ s => print_string (c_bytes s)
    | Sym _ s => print_symbol (c_bytes s)
    | Big _ b => bignum_bytes (Some b)
    | Rat _ r => eshkol_rational_display r
    | Tensor _ dims words _ => display_tensor dims words
    | Fact _ _ _ => text_bytes (eshkol_display_logic_term e double_text float32_text v)
    | Subst _ _ bindings => text_bytes (eshkol_display_substitution e double_text float32_text (Some (MkSubst 0 0 bindings)))
    | Kb a => text_bytes (eshkol_display_kb (kbs e !! a))
    | Obj a subtype =>
        match heap_label subtype with
        | Some label => label
        | None =>
            if printed_elsewhere subtype then print_foreign ESHKOL_VALUE_HEAP_PTR a
            else lit "#<heap:" ++ print_int subtype ++ lit ">"
        end
    | Vec _ l =>
        if 10000 <? Z.of_nat (length l) then lit "#<invalid-vector>"
        else [C_HASH] ++ parenthesized (map (eshkol_display_value_opts d) l)
    | Cons _ _ _ _ =>
        if max_depth opts <? d then lit "(...)"
        else
          [C_LPAREN] ++ display_cells (eshkol_display_value_opts (d + 1)) v true ++ [C_RPAREN]
    end.
End writer.

(** [display] and [write]. *)
Definition eshkol_display_value (e : engine) (fileno : Z → Z) (print_foreign : Z → Z → bytes) (v : value) : bytes :=
  eshkol_display_value_opts e fileno print_foreign eshkol_display_default_opts 0 v.
Definition eshkol_write_value (e : engine) (fileno : Z → Z) (print_foreign : Z → Z → bytes) (v : value) : bytes :=
  eshkol_display_value_opts e fileno print_foreign (DisplayOpts 100 true false) 0 v.
