(* ===== verification/Reader.v ===== *)
(** * Reader: [read] (lib/core/runtime_reader_hosted.cpp, string_escape.h and
    symbol_syntax.h of inc/eshkol/core, [eshkol_intern_symbol_lookup] of
    lib/core/symbol_intern.cpp)

    The input of a port is the list of bytes not yet read; [ungetc] puts a byte
    back in front of it, twice in a row after a dot.  The end of the input is
    [None].  Allocation does not fail and diagnostics are not modelled. *)

From S2P Require Export Writer.
Local Open Scope Z_scope.

(** [symbols] is the interning table, [heap_next] the identity of the next object. *)
Record reader := Reader { input : bytes; heap_next : Z; symbols : gmap string Z }.

Definition rd (A : Type) : Type := reader → option (A * reader).
#[export] Instance rd_ret : MRet rd := λ A a st, Some (a, st).
#[export] Instance rd_bind : MBind rd := λ A C f m st,
  match m st with Some (a, st') => f a st' | None => None end.

(** A step on the input alone. *)
Definition on_input {A} (f : bytes → A * bytes) : rd A := λ st,
  let '(a, l) := f (input st) in Some (a, Reader l (heap_next st) (symbols st)).
Definition allocate : rd Z := λ st, Some (heap_next st, Reader (input st) (heap_next st + 1) (symbols st)).

Definition fgetc : rd (option Z) := on_input (λ l, match l with c :: l => (Some c, l) | [] => (None, []) end).
Definition ungetc (c : option Z) : rd unit := on_input (λ l, (tt, match c with Some c => c :: l | None => l end)).

(** ** Characters *)

Definition is_in (set : bytes) (c : Z) : bool := bool_decide (c ∈ set).
Definition is_ws (c : Z) : bool := is_in [C_SPACE; C_TAB; C_NEWLINE; C_RETURN] c.

Fixpoint skip_whitespace (in_comment : bool) (l : bytes) : option Z * bytes :=
  match l with
  | [] => (None, [])
  | ch :: l =>
      if in_comment then skip_whitespace (negb (ch =? C_NEWLINE)) l
      else if ch =? C_SEMICOLON then skip_whitespace true l
      else if negb (is_ws ch) then (Some ch, l)
      else skip_whitespace false l
  end.
Definition read_skip_whitespace : rd (option Z) := on_input (skip_whitespace false).

(** At most [n] bytes that satisfy [p]. *)
Fixpoint span_n (p : Z → bool) (n : nat) (l : bytes) : bytes * bytes :=
  match n, l with
  | S n, c :: l' => if p c then let '(a, b) := span_n p n l' in (c :: a, b) else ([], l)
  | _, _ => ([], l)
  end.

Definition is_octal (c : Z) : bool := in_range 48 55 c.
Definition is_hex (c : Z) : bool := is_digit_in 16 c.

(** ** Values *)

Definition make_eof_tagged : value := Imm 255 0.
Definition make_reader_depth_error : value := Imm 255 0.
Definition make_bool_tagged (b : bool) : value := Imm TYPE_BOOL (b2z b).
Definition make_char_tagged (ch : Z) : value := Imm ESHKOL_VALUE_CHAR (i32 ch).
Definition make_string_tagged (s : bytes) : rd value := a ← allocate; mret (Str false a (bytes_text s)).
Definition make_cons_tagged (car cdr : value) : rd value := a ← allocate; mret (Cons false a car cdr).

Definition eshkol_intern_symbol_lookup (name : string) : rd Z := λ st,
  match symbols st !! name with
  | Some a => Some (a, st)
  | None => Some (heap_next st, Reader (input st) (heap_next st + 1) (<[name := heap_next st]> (symbols st)))
  end.

Definition make_symbol_tagged (name : bytes) : rd value :=
  let name := if existsb (λ c, c =? 0) name then lit "|invalid-symbol|" else name in
  a ← eshkol_intern_symbol_lookup (bytes_text name); mret (Sym a (bytes_text name)).

(** ** String escapes *)

Inductive escape_status := EscapeMalformed | EscapeIncomplete | EscapeOk.

Definition eshkol_string_escape_append_utf8 (cp : Z) : option bytes :=
  if (0x10FFFF <? cp) || in_range 0xD800 0xDFFF cp then None else Some (utf8_bytes cp).

Definition simple_escape (esc : Z) : option Z :=
  if esc =? 97 then Some 7 else if esc =? 98 then Some 8 else if esc =? 116 then Some 9
  else if esc =? 110 then Some 10 else if esc =? 114 then Some 13 else if esc =? 118 then Some 11
  else if esc =? 102 then Some 12 else if esc =? 101 then Some 27
  else if esc =? C_BACKSLASH then Some C_BACKSLASH else if esc =? C_DQUOTE then Some C_DQUOTE
  else if esc =? C_BAR then Some C_BAR else None.

(** The bytes an escape stands for and how many of [source] it takes. *)
Definition eshkol_decode_string_escape (source : bytes) : escape_status * bytes * nat :=
  match source with
  | slash :: rest =>
      if negb (slash =? C_BACKSLASH) then (EscapeMalformed, [], 0%nat)
      else
        match rest with
        | [] => (EscapeIncomplete, [], 0%nat)
        | esc :: body =>
            match simple_escape esc with
            | Some c => (EscapeOk, [c], 2%nat)
            | None =>
                if is_octal esc then
                  let '(more, _) := span_n is_octal 2 body in
                  let v := base_value 8 (esc :: more) in
                  if 0xFF <? v then (EscapeMalformed, [], 0%nat) else (EscapeOk, [v], (2 + length more)%nat)
                else if (esc =? 120) || (esc =? 88) then
                  let '(ds, after) := span_n is_hex 8 body in
                  match ds, eat C_SEMICOLON after with
                  | _ :: _, Some _ =>
                      match eshkol_string_escape_append_utf8 (base_value 16 ds) with
                      | Some out => (EscapeOk, out, (3 + length ds)%nat)
                      | None => (EscapeMalformed, [], 0%nat)
                      end
                  | _, _ => (EscapeMalformed, [], 0%nat)
                  end
                else if esc =? 117 then
                  if (length body <? 4)%nat then (EscapeIncomplete, [], 0%nat)
                  else if negb (forallb is_hex (take 4 body)) then (EscapeMalformed, [], 0%nat)
                  else
                    match eshkol_string_escape_append_utf8 (base_value 16 (take 4 body)) with
                    | Some out => (EscapeOk, out, 6%nat)
                    | None => (EscapeMalformed, [], 0%nat)
                    end
                else if is_in [C_SPACE; C_TAB] esc then
                  let blanks l := length (fst (span (is_in [C_SPACE; C_TAB]) l)) in
                  let i := (1 + blanks rest)%nat in
                  match eat C_NEWLINE (drop i source), eat C_RETURN (drop i source) with
                  | Some l, _ => (EscapeOk, [], (i + 1 + blanks l)%nat)
                  | None, Some l =>
                      let n := match eat C_NEWLINE l with Some _ => 1%nat | None => 0%nat end in
                      (EscapeOk, [], (i + 1 + n + blanks (drop n l))%nat)
                  | None, None => (EscapeOk, [esc], 2%nat)
                  end
                else if esc =? C_NEWLINE then (EscapeOk, [], 2%nat)
                else if esc =? C_RETURN then
                  (EscapeOk, [], match eat C_NEWLINE body with Some _ => 3%nat | None => 2%nat end)
                else (EscapeMalformed, [], 0%nat)
            end
        end
  | [] => (EscapeMalformed, [], 0%nat)
  end.

(** The bytes collected after the backslash and the first byte [c], 16 at most in all. *)
Definition collect_escape (c : Z) (l : bytes) : bytes * bytes :=
  let raw := [C_BACKSLASH; c] in
  if (c =? 120) || (c =? 88) then
    let '(ds, l) := span_n is_hex 13 l in
    if (length ds =? 13)%nat then (raw ++ ds, l)
    else match eat C_SEMICOLON l with Some l => (raw ++ ds ++ [C_SEMICOLON], l) | None => (raw ++ ds, l) end
  else if c =? 117 then (raw ++ take 4 l, drop 4 l)
  else if is_octal c then let '(ds, l) := span_n is_octal 2 l in (raw ++ ds, l)
  else if is_in [C_SPACE; C_TAB] c then
    let '(blanks, l) := span_n (is_in [C_SPACE; C_TAB]) 13 l in
    if (length blanks =? 13)%nat then (raw ++ blanks, match last blanks with Some b => b :: l | None => l end)
    else
      let raw := raw ++ blanks in
      let finish raw l := let '(blanks, l) := span_n (is_in [C_SPACE; C_TAB]) (15 - length raw) l in (raw ++ blanks, l) in
      match eat C_NEWLINE l, eat C_RETURN l with
      | Some l, _ => finish (raw ++ [C_NEWLINE]) l
      | _, Some l =>
          match eat C_NEWLINE l with
          | Some l => finish (raw ++ [C_RETURN; C_NEWLINE]) l
          | None => finish (raw ++ [C_RETURN]) l
          end
      | None, None => (raw, l)
      end
  else if c =? C_RETURN then
    match eat C_NEWLINE l with Some l => (raw ++ [C_NEWLINE], l) | None => (raw, l) end
  else (raw, l).

Definition read_hosted_string_escape (l : bytes) : escape_status * bytes * bytes :=
  match l with
  | [] => (EscapeIncomplete, [], [])
  | c :: l =>
      let '(raw, l) := collect_escape c l in
      let '(status, out, _) := eshkol_decode_string_escape raw in
      (status, out, l)
  end.

(** ** Atoms

    The loops take a byte each turn, so their fuel is the length of the input. *)

(** The contents of a string literal, [None] after a diagnostic, and the input left. *)
Fixpoint string_loop (fuel : nat) (buf : bytes) (l : bytes) : option (option bytes * bytes) :=
  match fuel with
  | O => None
  | S fuel =>
      match l with
      | [] => Some (Some buf, [])
      | ch :: l =>
          if ch =? C_DQUOTE then Some (Some buf, l)
          else
            let '(status, decoded, l) :=
              if ch =? C_BACKSLASH then read_hosted_string_escape l else (EscapeOk, [ch], l) in
            match status with
            | EscapeOk =>
                if 1024 * 1024 <? Z.of_nat (length buf + length decoded) then Some (None, l)
                else string_loop fuel (buf ++ decoded) l
            | _ => Some (None, l)
            end
      end
  end.

(** A loop over the input as a reader action. *)
Definition looping {A} (f : nat → bytes → option (A * bytes)) : rd A := λ st,
  match f (S (length (input st))) (input st) with
  | Some (a, l) => Some (a, Reader l (heap_next st) (symbols st))
  | None => None
  end.

Definition read_atom_string_literal : rd value :=
  contents ← looping (λ fuel, string_loop fuel []);
  match contents with Some buf => make_string_tagged buf | None => mret vnull end.

(** The hexadecimal escape of a symbol: the code point, [None] when malformed. *)
Definition symbol_hex_escape (l : bytes) : option Z * bytes :=
  let '(ds, l) := span_n is_hex 8 l in
  if (length ds =? 8)%nat then (None, l)
  else
    match ds, eat C_SEMICOLON l with
    | _ :: _, Some l => (Some (base_value 16 ds), l)
    | _, _ => (None, tl l)
    end.

Definition eshkol_symbol_utf8_encode (cp : Z) : bytes := if cp <=? 0x10FFFF then utf8_bytes cp else [].

Definition eshkol_symbol_escape_value (c : Z) : option Z :=
  if c =? 97 then Some 7 else if c =? 98 then Some 8 else if c =? 116 then Some 9
  else if c =? 110 then Some 10 else if c =? 114 then Some 13
  else if c =? C_BAR then Some C_BAR else if c =? C_BACKSLASH then Some C_BACKSLASH else None.

(** [push]: the buffer holds 4095 bytes, the rest is dropped. *)
Definition push_bytes (buf more : bytes) : bytes := take (Z.to_nat 4095) (buf ++ more).

Fixpoint bar_loop (fuel : nat) (buf : bytes) (l : bytes) : option (option bytes * bytes) :=
  match fuel with
  | O => None
  | S fuel =>
      match l with
      | [] => Some (None, [])
      | ch :: l =>
          if ch =? C_BAR then Some (Some buf, l)
          else if negb (ch =? C_BACKSLASH) then bar_loop fuel (push_bytes buf [ch]) l
          else
            match l with
            | [] => Some (None, [])
            | esc :: l =>
                if (esc =? 120) || (esc =? 88) then
                  let '(cp, l) := symbol_hex_escape l in
                  match cp with
                  | None => Some (None, l)
                  | Some cp =>
                      match eshkol_symbol_utf8_encode cp with
                      | [] => Some (None, l)
                      | utf8 => bar_loop fuel (push_bytes buf utf8) l
                      end
                  end
                else
                  match eshkol_symbol_escape_value esc with
                  | None => Some (None, l)
                  | Some decoded => bar_loop fuel (push_bytes buf [decoded]) l
                  end
            end
      end
  end.

Definition read_atom_vertical_line_symbol : rd value :=
  name ← looping (λ fuel, bar_loop fuel []);
  match name with Some buf => make_symbol_tagged buf | None => mret make_eof_tagged end.

(** Bytes that end a token. *)
Definition ends_name (c : Z) : bool := is_in [C_SPACE; C_NEWLINE; C_RPAREN; C_LPAREN] c.
Definition ends_literal (c : Z) : bool := is_in [C_SPACE; C_NEWLINE; C_RETURN; C_TAB; C_RPAREN; C_LPAREN] c.
Definition ends_hash (c : Z) : bool := ends_literal c || (c =? C_DQUOTE).
Definition ends_token (c : Z) : bool := ends_hash c || (c =? C_SEMICOLON).

(** [fgetc] until [stop], [n] bytes at most; the byte that stops is put back. *)
Definition gather (stop : Z → bool) (n : nat) : rd bytes := on_input (span_n (λ c, negb (stop c)) n).
Definition gather_all (stop : Z → bool) : rd bytes := on_input (span (λ c, negb (stop c))).

(** The next byte when the literal goes on, [None] at its end. *)
Definition literal_goes_on : rd (option Z) := on_input (λ l,
  match l with c :: l' => if ends_literal c then (None, l) else (Some c, l') | [] => (None, []) end).

(** A text read by [strcmp]: the bytes before the first NUL. *)
Definition c_string (l : bytes) : bytes := fst (span (λ c, negb (c =? 0)) l).

Definition char_name (name : bytes) : option Z :=
  if bool_decide (c_string name = lit "space") then Some C_SPACE
  else if bool_decide (c_string name = lit "newline") then Some C_NEWLINE
  else if bool_decide (c_string name = lit "tab") then Some C_TAB
  else if bool_decide (c_string name = lit "return") then Some C_RETURN
  else if bool_decide (c_string name = lit "null") then Some 0
  else if char_at name 0 =? 120 then Some (i32 (fst (fst (strtoll (drop 1 name) 16))))
  else None.

Definition read_char_literal : rd value :=
  c1 ← fgetc;
  match c1 with
  | None => mret make_eof_tagged
  | Some c1 =>
      c2 ← literal_goes_on;
      match c2 with
      | None => mret (make_char_tagged c1)
      | Some c2 =>
          more ← gather ends_name 29;
          mret (make_char_tagged (default c1 (char_name (c1 :: c2 :: more))))
      end
  end.

(** [#t] and [#f]: true when the literal ends at once; otherwise the rest of the name is read. *)
Definition read_bool_literal (b : bool) (rest : rd bytes) : rd value :=
  next ← literal_goes_on;
  match next with
  | None => mret (make_bool_tagged b)
  | Some _ => ungetc next ;; rest ;; mret (make_bool_tagged b)
  end.

Definition is_char (ch : option Z) (c : Z) : bool := match ch with Some x => x =? c | None => false end.

Definition read_atom_hash_non_vector (ch : option Z) : rd value :=
  if is_char ch 116 then read_bool_literal true (gather ends_name 14)
  else if is_char ch 102 then read_bool_literal false (gather_all ends_name)
  else if is_char ch C_BACKSLASH then read_char_literal
  else
    more ← gather ends_hash 253;
    make_symbol_tagged (C_HASH :: default 255 ch :: more).

(** ** Numbers and symbols *)

Definition make_rational (num den : Z) : rd value :=
  match eshkol_rational_create num den with
  | Ret rat =>
      if denominator rat =? 1 then mret (Int64 (numerator rat)) else a ← allocate; mret (Rat a rat)
  | Raised _ => mret vnull
  end.

(** [strchr(buf, '/')] and the two numbers around it. *)
Definition rational_parts (buf : bytes) : option (Z * Z) :=
  let '(before, after) := span (λ c, negb (c =? C_SLASH)) (c_string buf) in
  match before, eat C_SLASH after with
  | _ :: _, Some after =>
      if (length before =? length buf - 1)%nat then None
      else
        let '(num, n, _) := strtoll before 10 in
        let '(den, k, _) := strtoll after 10 in
        if (n =? length before)%nat && (k =? length after)%nat && negb (den =? 0) then Some (num, den) else None
  | _, _ => None
  end.

Definition token_value (buf : bytes) : rd value :=
  let '(ival, n, _) := strtoll buf 10 in
  if (n =? length buf)%nat then mret (Int64 ival)
  else
    let '(dval, n) := strtod buf in
    if (n =? length buf)%nat then mret (Double dval)
    else
      match rational_parts buf with
      | Some (num, den) => make_rational num den
      | None => make_symbol_tagged buf
      end.

Definition read_atom_number_or_symbol (first_char : Z) : rd value :=
  more ← gather ends_token 254; token_value (first_char :: more).

(** ** Data *)

Definition is_sentinel (v : value) : bool := vtype v =? 255.

(** The elements consed onto the tail, from the right. *)
Fixpoint conses (elems : list value) (tail : value) : rd value :=
  match elems with
  | [] => mret tail
  | x :: l => r ← conses l tail; make_cons_tagged x r
  end.

Definition make_vector (elems : list value) : rd value := a ← allocate; mret (Vec a elems).

Definition ESHKOL_READ_MAX_DEPTH : Z := 4096.

(** [depth] is [g_reader_depth]; the loops of [read_list] and [read_vector] are
    [list_loop] and [vector_loop], [elems] the elements read. *)
Fixpoint read_datum (fuel : nat) (depth : Z) (first_char : option Z) {struct fuel} : rd value :=
  match fuel with
  | O => λ _, None
  | S fuel =>
      match first_char with
      | None => mret make_eof_tagged
      | Some c =>
          if ESHKOL_READ_MAX_DEPTH <=? depth then mret make_reader_depth_error
          else if c =? C_QUOTE then
            ch ← read_skip_whitespace;
            quoted ← read_datum fuel (depth + 1) ch;
            quote_sym ← make_symbol_tagged (lit "quote");
            inner ← make_cons_tagged quoted vnull;
            make_cons_tagged quote_sym inner
          else if c =? C_LPAREN then list_loop fuel (depth + 1) []
          else if c =? C_DQUOTE then read_atom_string_literal
          else if c =? C_BAR then read_atom_vertical_line_symbol
          else if c =? C_HASH then
            ch ← fgetc;
            if is_char ch C_LPAREN then vector_loop fuel (depth + 1) [] else read_atom_hash_non_vector ch
          else read_atom_number_or_symbol c
      end
  end
with list_loop (fuel : nat) (depth : Z) (elems : list value) {struct fuel} : rd value :=
  match fuel with
  | O => λ _, None
  | S fuel =>
      ch ← read_skip_whitespace;
      match ch with
      | None => conses elems make_eof_tagged
      | Some c =>
          if c =? C_RPAREN then conses elems vnull
          else
            car ← read_datum fuel depth ch;
            if is_sentinel car then conses elems car
            else
              ch ← read_skip_whitespace;
              if is_char ch C_DOT then
                next ← fgetc;
                if (match next with Some n => is_ws n | None => false end) then
                  ch2 ← read_skip_whitespace;
                  cdr ← read_datum fuel depth ch2;
                  _ ← read_skip_whitespace;
                  conses (elems ++ [car]) cdr
                else ungetc next ;; ungetc (Some C_DOT) ;; list_loop fuel depth (elems ++ [car])
              else ungetc ch ;; list_loop fuel depth (elems ++ [car])
      end
  end
with vector_loop (fuel : nat) (depth : Z) (elems : list value) {struct fuel} : rd value :=
  match fuel with
  | O => λ _, None
  | S fuel =>
      ch ← read_skip_whitespace;
      match ch with
      | None => mret make_eof_tagged
      | Some c =>
          if c =? C_RPAREN then make_vector elems
          else
            elem ← read_datum fuel depth ch;
            if is_sentinel elem then mret elem else vector_loop fuel depth (elems ++ [elem])
      end
  end.

(** Two steps of fuel for each byte of the input are enough. *)
Definition eshkol_read_sexpr : rd value := λ st,
  (ch ← read_skip_whitespace; read_datum (2 * length (input st) + 2) 0 ch) st.
