(* ===== verification/ReaderSafe.v ===== *)
(** * ReaderSafe: the reader returns on any input

    What is left is a suffix of the input, the interning table only grows, and
    every symbol of the result is the table's. *)

From S2P Require Export Reader.
Local Open Scope Z_scope.

(** ** States and values *)

(** Interned addresses are in use and belong to one name. *)
Record table_ok (st : reader) : Prop := {
  table_used : ∀ s a, symbols st !! s = Some a → a < heap_next st;
  table_inj : ∀ s s' a, symbols st !! s = Some a → symbols st !! s' = Some a → s = s'
}.

Record extends (st st' : reader) : Prop := {
  ext_next : heap_next st <= heap_next st';
  ext_symbols : symbols st ⊆ symbols st';
  ext_table : table_ok st → table_ok st'
}.

#[export] Instance extends_refl : Reflexive extends.
Proof. intros st. split; [lia|done|done]. Qed.
#[export] Instance extends_trans : Transitive extends.
Proof. intros a b c [H1 H2 H3] [H4 H5 H6]. split; [lia|by etransitivity|auto]. Qed.

(** Every symbol of [v] is the one of the table. *)
Fixpoint interned (tbl : gmap string Z) (v : value) : Prop :=
  match v with
  | Sym a s => tbl !! s = Some a
  | Cons _ _ x y => interned tbl x ∧ interned tbl y
  | Vec _ l => (fix go (l : list value) : Prop := match l with [] => True | x :: l => interned tbl x ∧ go l end) l
  | _ => True
  end.

Lemma interned_vec tbl a l : interned tbl (Vec a l) ↔ Forall (interned tbl) l.
Proof.
  cbn. induction l as [|x l IH]; [by split|]. rewrite list.Forall_cons. by rewrite IH.
Qed.

Lemma interned_mono tbl tbl' v : tbl ⊆ tbl' → interned tbl v → interned tbl' v.
Proof.
  intros Hsub. induction v as [| | | | | |l a x y IHx IHy| |a s| | |a l IH| | | | |] using value_nested_ind; try done.
  - cbn. intros [? ?]. auto.
  - cbn. intros H. eapply lookup_weaken; [exact H|exact Hsub].
  - rewrite !interned_vec. intros H. induction IH; [constructor|]. apply list.Forall_cons in H as [? ?]. constructor; auto.
Qed.

(** ** Actions *)

(** [m] returns from [st] with a result and a state in [Q]. *)
Definition yields {A} (m : rd A) (st : reader) (Q : A → reader → Prop) : Prop :=
  ∃ a st', m st = Some (a, st') ∧ extends st st' ∧ Q a st'.

Lemma yields_ret {A} (a : A) st (Q : A → reader → Prop) : Q a st → yields (mret a) st Q.
Proof. intros H. exists a, st. by split_and!. Qed.

Lemma yields_bind {A C} (m : rd A) (f : A → rd C) st (P : A → reader → Prop) (Q : C → reader → Prop) :
  yields m st P → (∀ a st', extends st st' → P a st' → yields (f a) st' Q) → yields (m ≫= f) st Q.
Proof.
  intros (a & st' & E & He & HP) Hf. destruct (Hf a st' He HP) as (c & st'' & E' & He' & HQ).
  exists c, st''. split; [|split; [by etransitivity|done]]. unfold mbind, rd_bind. by rewrite E.
Qed.

Lemma yields_impl {A} (m : rd A) st (P Q : A → reader → Prop) :
  yields m st P → (∀ a st', extends st st' → P a st' → Q a st') → yields m st Q.
Proof. intros (a & st' & E & He & HP) H. exists a, st'. split_and!; auto. Qed.

Lemma extends_input st l : extends st (Reader l (heap_next st) (symbols st)).
Proof. split; [cbn; lia|done|]. intros [H1 H2]. split; [exact H1|exact H2]. Qed.

Lemma yields_input {A} (f : bytes → A * bytes) st (Q : A → reader → Prop) :
  (let '(a, l) := f (input st) in Q a (Reader l (heap_next st) (symbols st))) → yields (on_input f) st Q.
Proof.
  intros H. unfold yields, on_input. destruct (f (input st)) as [a l]. exists a, (Reader l (heap_next st) (symbols st)).
  split; [done|]. split; [apply extends_input|done].
Qed.

Lemma yields_allocate st : yields allocate st (λ a st', input st' = input st ∧ symbols st' = symbols st).
Proof.
  exists (heap_next st), (Reader (input st) (heap_next st + 1) (symbols st)). split; [done|]. split; [|done].
  split; [cbn; lia|done|]. intros [H1 H2]. split; [intros s a Hs; specialize (H1 s a Hs); cbn; lia|exact H2].
Qed.

Lemma yields_symbol name st : yields (make_symbol_tagged name) st (λ v st', input st' = input st ∧ interned (symbols st') v
  ∧ ∃ a s, v = Sym a s ∧ s = bytes_text (if existsb (λ c, c =? 0) name then lit "|invalid-symbol|" else name)).
Proof.
  unfold make_symbol_tagged. set (text := bytes_text (if existsb (λ c, c =? 0) name then lit "|invalid-symbol|" else name)).
  eapply (yields_bind _ _ _ (λ a st', input st' = input st ∧ symbols st' !! text = Some a)).
  - unfold eshkol_intern_symbol_lookup, yields. destruct (symbols st !! text) as [a|] eqn:E.
    + exists a, st. by split_and!.
    + eexists _, _. split; [reflexivity|]. cbn [input symbols]. split; [|split; [done|by rewrite lookup_insert_eq]].
      split; [cbn; lia|by apply insert_subseteq|]. intros [H1 H2]. split; cbn [symbols heap_next].
      * intros s a Hs. apply lookup_insert_Some in Hs as [[_ <-]|[_ Hs]]; [lia|]. specialize (H1 s a Hs). lia.
      * intros s s' a Hs Hs'. apply lookup_insert_Some in Hs as [[<- <-]|[_ Hs]], Hs' as [[<- Ea]|[_ Hs']]; [done| | |by eapply H2].
        -- specialize (H1 _ _ Hs'). lia.
        -- subst. specialize (H1 _ _ Hs). lia.
  - intros a st' _ [Ei Es]. apply yields_ret. split; [done|]. split; [done|]. by exists a, text.
Qed.

(** ** What the loops leave *)

Lemma suffix_tail {A} (l l' : list A) x : l `suffix_of` l' → l `suffix_of` x :: l'.
Proof. apply suffix_cons_r. Qed.

Lemma suffix_drop {A} n (l : list A) : drop n l `suffix_of` l.
Proof. exists (take n l). by rewrite take_drop. Qed.

Lemma suffix_tl {A} (l : list A) : tl l `suffix_of` l.
Proof. destruct l; [done|]. by apply suffix_tail. Qed.

#[local] Hint Resolve suffix_tail suffix_drop suffix_tl : suffixes.

Lemma eat_suffix x l l' : eat x l = Some l' → l' `suffix_of` l.
Proof. unfold eat. destruct l as [|c l]; [done|]. destruct (_ =? _); [|done]. intros [= <-]. by apply suffix_tail. Qed.

Lemma span_suffix p l : (span p l).2 `suffix_of` l.
Proof.
  induction l as [|c l IH]; [done|]. cbn. destruct (p c); [|done]. destruct (span p l) as [a b]. by apply suffix_tail.
Qed.

Lemma span_n_split p n l : l = (span_n p n l).1 ++ (span_n p n l).2 ∧ (length (span_n p n l).1 <= n)%nat.
Proof.
  revert l. induction n as [|n IH]; intros [|c l]; cbn; try (split; [done|simpl; lia]).
  destruct (p c); [|split; [done|simpl; lia]]. destruct (IH l) as [E Hl]. destruct (span_n p n l) as [a b]. cbn in *.
  split; [by rewrite E at 1|lia].
Qed.

Lemma span_n_suffix p n l : (span_n p n l).2 `suffix_of` l.
Proof. destruct (span_n_split p n l) as [E _]. eexists. exact E. Qed.

(** The input with a byte put back. *)
Definition pushed (c : option Z) (l : bytes) : bytes := match c with Some c => c :: l | None => l end.

Lemma pushed_suffix c l l0 : pushed c l `suffix_of` l0 →
  l `suffix_of` l0 ∧ (length l + (if c then 1 else 0) <= length l0)%nat.
Proof.
  intros Hs. pose proof (suffix_length _ _ Hs) as Hl. destruct c as [c|]; cbn [pushed] in *; [|split; [done|lia]].
  split; [|simpl in Hl; lia]. etransitivity; [|exact Hs]. by apply suffix_cons_r.
Qed.

Lemma skip_whitespace_suffix b l : let '(ch, l') := skip_whitespace b l in
  pushed ch l' `suffix_of` l ∧ (ch = None → l' = []).
Proof.
  revert b. induction l as [|c l IH]; intros b; [done|]. cbn [skip_whitespace].
  assert (Hs : ∀ b, let '(ch, l') := skip_whitespace b l in pushed ch l' `suffix_of` c :: l ∧ (ch = None → l' = [])).
  { intros b'. specialize (IH b'). destruct (skip_whitespace b' l) as [ch l']. destruct IH as [? ?].
    split; [by apply suffix_tail|done]. }
  destruct b; [apply Hs|]. destruct (_ =? _); [apply Hs|]. destruct (negb _); [|apply Hs]. done.
Qed.

Lemma collect_escape_suffix c l : (collect_escape c l).2 `suffix_of` l.
Proof.
  unfold collect_escape. destruct (_ || _).
  { pose proof (span_n_suffix is_hex 13 l) as H. destruct (span_n _ _ _) as [ds l']. cbn [snd] in H.
    destruct (_ =? _)%nat; [done|]. destruct (eat _ l') as [l''|] eqn:E; [|done]. apply eat_suffix in E. by etransitivity. }
  destruct (_ =? _); [cbn; auto with suffixes|]. destruct (is_octal c).
  { pose proof (span_n_suffix is_octal 2 l) as H. by destruct (span_n _ _ _). }
  destruct (is_in _ c).
  - pose proof (span_n_suffix (is_in [C_SPACE; C_TAB]) 13 l) as H.
    destruct (span_n_split (is_in [C_SPACE; C_TAB]) 13 l) as [E _].
    destruct (span_n _ _ _) as [blanks l']. cbn [fst snd] in *. destruct (_ =? _)%nat.
    + destruct (last blanks) as [b|] eqn:Eb; [|done]. apply last_Some in Eb as [bs ->]. exists bs. by rewrite E, <- app_assoc.
    + assert (Hf : ∀ n m, m `suffix_of` l' → (span_n (is_in [C_SPACE; C_TAB]) n m).2 `suffix_of` l).
      { intros n m Hm. etransitivity; [apply span_n_suffix|]. by etransitivity. }
      destruct (eat C_NEWLINE l') as [l1|] eqn:E1; [|destruct (eat C_RETURN l') as [l2|] eqn:E2; [destruct (eat C_NEWLINE l2) as [l3|] eqn:E3|done]].
      * apply eat_suffix in E1. specialize (Hf (15 - length ((([C_BACKSLASH; c] ++ blanks) ++ [C_NEWLINE])))%nat _ E1). by destruct (span_n _ _ l1).
      * apply eat_suffix in E2, E3. assert (E4 : l3 `suffix_of` l') by (by etransitivity).
        specialize (Hf (15 - length ((([C_BACKSLASH; c] ++ blanks) ++ [C_RETURN; C_NEWLINE])))%nat _ E4). by destruct (span_n _ _ l3).
      * apply eat_suffix in E2. specialize (Hf (15 - length ((([C_BACKSLASH; c] ++ blanks) ++ [C_RETURN])))%nat _ E2). by destruct (span_n _ _ l2).
  - destruct (_ =? _); [|done]. destruct (eat _ l) as [l'|] eqn:E; [|done]. by apply eat_suffix in E.
Qed.

Lemma read_hosted_suffix l : (read_hosted_string_escape l).2 `suffix_of` l.
Proof.
  destruct l as [|c l]; [done|]. cbn [read_hosted_string_escape]. pose proof (collect_escape_suffix c l) as H.
  destruct (collect_escape c l) as [raw l']. destruct (eshkol_decode_string_escape raw) as [[s o] n]. by apply suffix_tail.
Qed.

Lemma string_loop_total fuel buf l : (length l < fuel)%nat → ∃ r l', string_loop fuel buf l = Some (r, l') ∧ l' `suffix_of` l.
Proof.
  revert buf l. induction fuel as [|fuel IH]; intros buf l Hf; [lia|]. destruct l as [|c l]; cbn [string_loop]; [by eexists _, _|].
  simpl in Hf. destruct (_ =? _); [eexists _, _; split; [reflexivity|by apply suffix_tail]|].
  assert (Hs : (if c =? C_BACKSLASH then read_hosted_string_escape l else (EscapeOk, [c], l)).2 `suffix_of` l)
    by (destruct (_ =? _); [apply read_hosted_suffix|done]).
  destruct (if c =? C_BACKSLASH then read_hosted_string_escape l else (EscapeOk, [c], l)) as [[status decoded] l1]. cbn [snd] in Hs.
  assert (Hl : ∀ r : option bytes, ∃ r0 l', Some (r, l1) = Some (r0, l') ∧ l' `suffix_of` c :: l).
  { intros r. eexists _, _. split; [reflexivity|by apply suffix_tail]. }
  destruct status; [apply Hl|apply Hl|]. destruct (_ <? _); [apply Hl|].
  destruct (IH (buf ++ decoded) l1) as (r & l' & E & Hs'). { apply suffix_length in Hs. lia. }
  exists r, l'. split; [done|]. apply suffix_tail. by etransitivity.
Qed.

Lemma symbol_hex_escape_suffix l : (symbol_hex_escape l).2 `suffix_of` l.
Proof.
  unfold symbol_hex_escape. pose proof (span_n_suffix is_hex 8 l) as H. destruct (span_n _ _ _) as [ds l1]. cbn [snd] in H.
  destruct (_ =? _)%nat; [done|]. destruct ds as [|d ds]; [cbn; etransitivity; [apply suffix_tl|done]|].
  destruct (eat _ l1) as [l2|] eqn:E; cbn; [apply eat_suffix in E; by etransitivity|etransitivity; [apply suffix_tl|done]].
Qed.

Lemma bar_loop_total fuel buf l : (length l < fuel)%nat → ∃ r l', bar_loop fuel buf l = Some (r, l') ∧ l' `suffix_of` l.
Proof.
  revert buf l. induction fuel as [|fuel IH]; intros buf l Hf; [lia|]. destruct l as [|c l]; cbn [bar_loop]; [by eexists _, _|].
  simpl in Hf.
  assert (Hrec : ∀ buf l1, l1 `suffix_of` l → ∃ r l', bar_loop fuel buf l1 = Some (r, l') ∧ l' `suffix_of` c :: l).
  { intros buf' l1 Hs. destruct (IH buf' l1) as (r & l' & E & Hs'). { apply suffix_length in Hs. lia. }
    exists r, l'. split; [done|]. apply suffix_tail. by etransitivity. }
  assert (Hstop : ∀ (r : option bytes) l1, l1 `suffix_of` l → ∃ r0 l', Some (r, l1) = Some (r0, l') ∧ l' `suffix_of` c :: l).
  { intros r l1 Hs. eexists _, _. split; [reflexivity|by apply suffix_tail]. }
  destruct (_ =? _); [by apply Hstop|]. destruct (negb _); [by apply Hrec|].
  destruct l as [|esc l]; [by apply Hstop|]. destruct (_ || _).
  - pose proof (symbol_hex_escape_suffix l) as Hs. destruct (symbol_hex_escape l) as [[cp|] l1]; cbn [snd] in Hs.
    + destruct (eshkol_symbol_utf8_encode cp); [apply Hstop|apply Hrec]; by apply suffix_tail.
    + apply Hstop. by apply suffix_tail.
  - destruct (eshkol_symbol_escape_value esc); [apply Hrec|apply Hstop]; by apply suffix_tail.
Qed.

(** ** Atoms *)

Definition reads (st : reader) (v : value) (st' : reader) : Prop :=
  input st' `suffix_of` input st ∧ interned (symbols st') v.

Lemma yields_looping {A} (f : nat → bytes → option (A * bytes)) st :
  (∀ l, ∃ r l', f (S (length l)) l = Some (r, l') ∧ l' `suffix_of` l) →
  yields (looping f) st (λ _ st', input st' `suffix_of` input st).
Proof.
  intros Hf. destruct (Hf (input st)) as (r & l' & E & Hs). exists r, (Reader l' (heap_next st) (symbols st)).
  unfold looping. rewrite E. split; [done|]. split; [apply extends_input|done].
Qed.

Lemma yields_string s st : yields (make_string_tagged s) st (λ v st', input st' = input st ∧ v = Str false (heap_next st) (bytes_text s)).
Proof.
  exists (Str false (heap_next st) (bytes_text s)), (Reader (input st) (heap_next st + 1) (symbols st)). split; [done|]. split; [|done].
  split; [cbn; lia|done|]. intros [H1 H2]. split; [intros s' a Hs; specialize (H1 s' a Hs); cbn; lia|exact H2].
Qed.

Lemma string_literal_reads st : yields read_atom_string_literal st (reads st).
Proof.
  eapply yields_bind; [apply yields_looping; intros l; apply string_loop_total; lia|].
  intros [buf|] st' _ Hs; [|by apply yields_ret].
  eapply yields_impl; [apply yields_string|]. intros v st'' _ [E ->]. split; [by rewrite E|done].
Qed.

Lemma symbol_reads name st st0 : input st `suffix_of` input st0 → yields (make_symbol_tagged name) st (reads st0).
Proof. intros Hs. eapply yields_impl; [apply yields_symbol|]. intros v st' _ (E & Hi & _). split; [by rewrite E|done]. Qed.

Lemma bar_symbol_reads st : yields read_atom_vertical_line_symbol st (reads st).
Proof.
  eapply yields_bind; [apply yields_looping; intros l; apply bar_loop_total; lia|].
  intros [buf|] st' _ Hs; [by apply symbol_reads|by apply yields_ret].
Qed.

Lemma yields_collect stop n st : yields (gather stop n) st (λ _ st', input st' `suffix_of` input st).
Proof.
  apply yields_input. pose proof (span_n_suffix (λ c, negb (stop c)) n (input st)) as H. by destruct (span_n _ _ _).
Qed.

Lemma yields_collect_all stop st : yields (gather_all stop) st (λ _ st', input st' `suffix_of` input st).
Proof.
  apply yields_input. pose proof (span_suffix (λ c, negb (stop c)) (input st)) as H. by destruct (span _ _).
Qed.

(** The byte is taken exactly when the literal goes on. *)
Lemma yields_literal_goes_on st : yields literal_goes_on st (λ c st',
  match c with Some c => input st = c :: input st' | None => input st' = input st end).
Proof. apply yields_input. destruct (input st) as [|c l]; [done|]. by destruct (ends_literal c). Qed.

Lemma yields_fgetc st : yields fgetc st (λ c st', input st = pushed c (input st') ∧ (c = None → input st' = [])).
Proof. apply yields_input. by destruct (input st). Qed.

Lemma yields_ungetc c st : yields (ungetc c) st (λ _ st', input st' = pushed c (input st)).
Proof. by apply yields_input. Qed.

Lemma yields_skip st : yields read_skip_whitespace st (λ ch st',
  pushed ch (input st') `suffix_of` input st ∧ (ch = None → input st' = [])).
Proof.
  apply yields_input. pose proof (skip_whitespace_suffix false (input st)) as H. by destruct (skip_whitespace false (input st)).
Qed.

Lemma char_literal_reads st : yields read_char_literal st (reads st).
Proof.
  eapply yields_bind; [apply yields_fgetc|]. intros [c1|] st1 _ [E1 _]; cbn [pushed] in E1; [|apply yields_ret; unfold reads; by rewrite E1].
  eapply yields_bind; [apply yields_literal_goes_on|]. intros [c2|] st2 _ E2.
  - eapply yields_bind; [apply yields_collect|]. intros more st3 _ E3. apply yields_ret. split; [|done].
    etransitivity; [exact E3|]. rewrite E1, E2. by do 2 apply suffix_tail.
  - apply yields_ret. split; [|done]. rewrite E2, E1. by apply suffix_tail.
Qed.

Lemma bool_literal_reads b (rest : rd bytes) st : (∀ st, yields rest st (λ _ st', input st' `suffix_of` input st)) →
  yields (read_bool_literal b rest) st (reads st).
Proof.
  intros Hrest. eapply yields_bind; [apply yields_literal_goes_on|]. intros [c|] st1 _ E1; [|apply yields_ret; unfold reads; by rewrite E1].
  eapply yields_bind; [apply yields_ungetc|]. intros [] st2 _ E2.
  eapply yields_bind; [apply Hrest|]. intros more st3 _ E3. apply yields_ret. split; [|done]. cbn [pushed] in E2. by rewrite E1, <- E2.
Qed.

Lemma hash_reads ch st : yields (read_atom_hash_non_vector ch) st (reads st).
Proof.
  unfold read_atom_hash_non_vector. destruct (is_char ch 116); [apply bool_literal_reads; apply yields_collect|].
  destruct (is_char ch 102); [apply bool_literal_reads; apply yields_collect_all|].
  destruct (is_char ch C_BACKSLASH); [apply char_literal_reads|].
  eapply yields_bind; [apply yields_collect|]. intros more st1 _ Hs. by apply symbol_reads.
Qed.

Lemma token_reads buf st : yields (token_value buf) st (λ v st', input st' = input st ∧ interned (symbols st') v).
Proof.
  unfold token_value. destruct (strtoll buf 10) as [[ival n] er]. destruct (_ =? _)%nat; [by apply yields_ret|].
  destruct (strtod buf) as [dval k]. destruct (_ =? _)%nat; [by apply yields_ret|].
  destruct (rational_parts buf) as [[num den]|].
  - unfold make_rational. destruct (eshkol_rational_create num den) as [rat|]; [|by apply yields_ret].
    destruct (_ =? _); [by apply yields_ret|]. eapply yields_bind; [apply yields_allocate|]. intros a st' _ [E _]. by apply yields_ret.
  - eapply yields_impl; [apply yields_symbol|]. intros v st' _ (E & Hi & _). done.
Qed.

Lemma number_or_symbol_reads c st : yields (read_atom_number_or_symbol c) st (reads st).
Proof.
  eapply yields_bind; [apply yields_collect|]. intros more st1 _ Hs.
  eapply yields_impl; [apply token_reads|]. intros v st2 _ [E Hi]. split; [by rewrite E|done].
Qed.

(** ** Data *)

Lemma yields_cons x y st : interned (symbols st) x → interned (symbols st) y →
  yields (make_cons_tagged x y) st (λ v st', input st' = input st ∧ interned (symbols st') v).
Proof.
  intros Hx Hy. eapply yields_bind; [apply yields_allocate|]. intros a st' _ [E Es]. apply yields_ret.
  split; [done|]. rewrite Es. done.
Qed.

Lemma yields_conses elems tail st : Forall (interned (symbols st)) elems → interned (symbols st) tail →
  yields (conses elems tail) st (λ v st', input st' = input st ∧ interned (symbols st') v).
Proof.
  intros He Ht. induction He as [|x l Hx _ IH]; [by apply yields_ret|]. cbn [conses].
  eapply yields_bind; [exact IH|]. intros r st' Hext [E Hr].
  eapply yields_impl; [apply yields_cons; [|done]|].
  - eapply interned_mono; [apply ext_symbols, Hext|done].
  - intros v st'' _ [E' Hv]. split; [by rewrite E'|done].
Qed.

Lemma interned_extends st st' l : extends st st' → Forall (interned (symbols st)) l → Forall (interned (symbols st')) l.
Proof. intros He H. eapply list.Forall_impl; [exact H|]. intros v. apply interned_mono, He. Qed.

Lemma suffix_le {A} (l l' : list A) : l `suffix_of` l' → (length l <= length l')%nat.
Proof. apply suffix_length. Qed.

(** Fuel for a datum whose first byte is read already. *)
Definition datum_fuel (first : option Z) (st : reader) : nat :=
  match first with Some _ => 2 * length (input st) + 2 | None => 1 end.

Section data.
Context (fuel : nat).
Context (IHdatum : ∀ depth first st, (datum_fuel first st <= fuel)%nat → yields (read_datum fuel depth first) st (reads st)).
Context (IHlist : ∀ depth elems st, (2 * length (input st) + 1 <= fuel)%nat → Forall (interned (symbols st)) elems →
  yields (list_loop fuel depth elems) st (reads st)).
Context (IHvector : ∀ depth elems st, (2 * length (input st) + 1 <= fuel)%nat → Forall (interned (symbols st)) elems →
  yields (vector_loop fuel depth elems) st (reads st)).

Lemma reads_from st st1 v st2 : input st1 `suffix_of` input st → reads st1 v st2 → reads st v st2.
Proof. intros Hs [H1 H2]. split; [by etransitivity|done]. Qed.

Lemma datum_step depth first st : (datum_fuel first st <= S fuel)%nat → yields (read_datum (S fuel) depth first) st (reads st).
Proof.
  intros Hf. cbn [read_datum]. destruct first as [c|]; [|by apply yields_ret]. cbn [datum_fuel] in Hf.
  destruct (_ <=? _); [by apply yields_ret|]. destruct (_ =? _).
  { eapply yields_bind; [apply yields_skip|]. intros ch st1 _ [[Hs Hl]%pushed_suffix _].
    eapply yields_bind; [apply IHdatum; destruct ch; cbn [datum_fuel]; lia|]. intros q st2 _ [Hs2 Hq].
    eapply yields_bind; [apply yields_symbol|]. intros sy st3 Hx3 (E3 & Hsy & _).
    eapply yields_bind; [apply yields_cons; [eapply interned_mono; [apply ext_symbols, Hx3|done]|done]|]. intros inner st4 Hx4 [E4 Hi].
    eapply yields_impl; [apply yields_cons; [eapply interned_mono; [apply ext_symbols, Hx4|done]|done]|].
    intros v st5 _ [E5 Hv]. split; [|done]. rewrite E5, E4, E3. by etransitivity. }
  destruct (_ =? _); [apply IHlist; [lia|constructor]|].
  destruct (_ =? _); [apply string_literal_reads|]. destruct (_ =? _); [apply bar_symbol_reads|].
  destruct (_ =? _); [|apply number_or_symbol_reads].
  eapply yields_bind; [apply yields_fgetc|]. intros ch st1 _ [E1 _].
  assert (Hs : pushed ch (input st1) `suffix_of` input st) by (by rewrite E1). apply pushed_suffix in Hs as [Hs Hl].
  destruct (is_char ch C_LPAREN) eqn:Ep.
  - eapply yields_impl; [apply IHvector; [lia|constructor]|]. intros v st2 _ Hv. eapply reads_from; [exact Hs|exact Hv].
  - eapply yields_impl; [apply hash_reads|]. intros v st2 _ Hv. eapply reads_from; [exact Hs|exact Hv].
Qed.

(** Leaving a loop. *)
Lemma finish_list elems tail st st0 : input st `suffix_of` input st0 → Forall (interned (symbols st)) elems →
  interned (symbols st) tail → yields (conses elems tail) st (reads st0).
Proof.
  intros Hs He Ht. eapply yields_impl; [by apply yields_conses|]. intros v st' _ [E Hv]. split; [by rewrite E|done].
Qed.

Lemma list_step depth elems st : (2 * length (input st) + 1 <= S fuel)%nat → Forall (interned (symbols st)) elems →
  yields (list_loop (S fuel) depth elems) st (reads st).
Proof.
  intros Hf He. cbn [list_loop]. eapply yields_bind; [apply yields_skip|]. intros ch st1 Hx1 [[Hs1 Hl1]%pushed_suffix _].
  pose proof (interned_extends _ _ _ Hx1 He) as He1.
  destruct ch as [c|]; [|by apply finish_list]. destruct (_ =? _); [by apply finish_list|].
  eapply yields_bind; [apply IHdatum; cbn [datum_fuel]; lia|]. intros car st2 Hx2 [Hs2 Hc2].
  pose proof (interned_extends _ _ _ Hx2 He1) as He2. pose proof (suffix_le _ _ Hs2) as Hl2.
  assert (Hs02 : input st2 `suffix_of` input st) by (by etransitivity).
  destruct (is_sentinel car); [by apply finish_list|].
  eapply yields_bind; [apply yields_skip|]. intros ch2 st3 Hx3 [Hp3 _]. pose proof (pushed_suffix _ _ _ Hp3) as [Hs3 Hl3].
  pose proof (interned_extends _ _ _ Hx3 He2) as He3. pose proof (suffix_le _ _ Hs3) as Hl3'.
  assert (Hs03 : input st3 `suffix_of` input st) by (by etransitivity).
  assert (Hcar : ∀ st', extends st3 st' → Forall (interned (symbols st')) (elems ++ [car])).
  { intros st' Hx. apply (interned_extends _ _ _ Hx). apply Forall_app_2; [done|]. constructor; [|constructor].
    eapply interned_mono; [apply ext_symbols, Hx3|done]. }
  assert (Hnext : ∀ st', extends st3 st' → input st' `suffix_of` input st2 →
    yields (list_loop fuel depth (elems ++ [car])) st' (reads st)).
  { intros st' Hx Hs. pose proof (suffix_le _ _ Hs). eapply yields_impl; [apply IHlist; [lia|by apply Hcar]|].
    intros v st'' _ Hv. eapply reads_from; [|exact Hv]. by etransitivity. }
  pose proof (suffix_le _ _ Hs2).
  destruct (is_char ch2 C_DOT) eqn:Edot.
  - assert (ch2 = Some C_DOT) as -> by (destruct ch2 as [dot|]; [|done]; by apply Z.eqb_eq in Edot as ->).
    eapply yields_bind; [apply yields_fgetc|]. intros next st4 Hx4 [E4 _].
    assert (Hp4 : pushed next (input st4) `suffix_of` input st3) by (by rewrite E4).
    apply pushed_suffix in Hp4 as [Hs4 Hl4].
    destruct (match next with Some n => is_ws n | None => false end).
    + eapply yields_bind; [apply yields_skip|]. intros ch3 st5 Hx5 [[Hs5 Hl5]%pushed_suffix _].
      eapply yields_bind; [apply IHdatum; destruct ch3; cbn [datum_fuel]; lia|]. intros cdr st6 Hx6 [Hs6 Hc6].
      eapply yields_bind; [apply yields_skip|]. intros ch7 st7 Hx7 [[Hs7 _]%pushed_suffix _].
      apply finish_list; [by repeat (etransitivity; [eassumption|])| |eapply interned_mono; [apply ext_symbols, Hx7|done]].
      apply Hcar. by repeat (etransitivity; [eassumption|]).
    + eapply yields_bind; [apply yields_ungetc|]. intros [] st5 Hx5 E5.
      eapply yields_bind; [apply yields_ungetc|]. intros [] st6 Hx6 E6.
      apply Hnext; [by repeat (etransitivity; [eassumption|])|]. by rewrite E6, E5, <- E4.
  - eapply yields_bind; [apply yields_ungetc|]. intros [] st4 Hx4 E4. apply Hnext; [done|]. by rewrite E4.
Qed.

Lemma vector_step depth elems st : (2 * length (input st) + 1 <= S fuel)%nat → Forall (interned (symbols st)) elems →
  yields (vector_loop (S fuel) depth elems) st (reads st).
Proof.
  intros Hf He. cbn [vector_loop]. eapply yields_bind; [apply yields_skip|]. intros ch st1 Hx1 [[Hs1 Hl1]%pushed_suffix _].
  pose proof (interned_extends _ _ _ Hx1 He) as He1. destruct ch as [c|]; [|by apply yields_ret]. destruct (_ =? _).
  - eapply yields_bind; [apply yields_allocate|]. intros a st2 _ [E2 Es2]. apply yields_ret. split; [by rewrite E2|].
    rewrite interned_vec, Es2. done.
  - eapply yields_bind; [apply IHdatum; cbn [datum_fuel]; lia|]. intros x st2 Hx2 [Hs2 Hc2].
    assert (Hs02 : input st2 `suffix_of` input st) by (by etransitivity).
    destruct (is_sentinel x); [by apply yields_ret|]. pose proof (suffix_le _ _ Hs2).
    eapply yields_impl; [apply IHvector; [lia|]|intros v st3 _; by apply reads_from].
    apply Forall_app_2; [by apply (interned_extends _ _ _ Hx2)|by constructor].
Qed.
End data.

Lemma reader_total fuel :
  (∀ depth first st, (datum_fuel first st <= fuel)%nat → yields (read_datum fuel depth first) st (reads st)) ∧
  (∀ depth elems st, (2 * length (input st) + 1 <= fuel)%nat → Forall (interned (symbols st)) elems →
    yields (list_loop fuel depth elems) st (reads st)) ∧
  (∀ depth elems st, (2 * length (input st) + 1 <= fuel)%nat → Forall (interned (symbols st)) elems →
    yields (vector_loop fuel depth elems) st (reads st)).
Proof.
  induction fuel as [|fuel (IH1 & IH2 & IH3)].
  - split_and!; [intros depth [c|] st; cbn [datum_fuel]; lia|lia|lia].
  - split_and!; intros; [by apply datum_step|by apply list_step|by apply vector_step].
Qed.

(** A read consumes at least a byte, unless nothing is left. *)
Lemma read_sexpr_total st : yields eshkol_read_sexpr st (λ v st', reads st v st' ∧
  ((length (input st') < length (input st))%nat ∨ input st = [] ∧ v = make_eof_tagged)).
Proof.
  unfold eshkol_read_sexpr. change (yields (ch ← read_skip_whitespace; read_datum (2 * length (input st) + 2) 0 ch) st
    (λ v st', reads st v st' ∧ ((length (input st') < length (input st))%nat ∨ input st = [] ∧ v = make_eof_tagged))).
  eapply yields_bind; [apply yields_skip|]. intros ch st1 _ [[Hs1 Hl1]%pushed_suffix Hn].
  destruct ch as [c|].
  - eapply yields_impl; [apply reader_total; cbn [datum_fuel]; lia|]. intros v st2 _ [Hs2 Hv].
    pose proof (suffix_le _ _ Hs2). split; [split; [by etransitivity|done]|left; lia].
  - replace (2 * length (input st) + 2)%nat with (S (2 * length (input st) + 1)) by lia. cbn [read_datum]. apply yields_ret.
    split; [done|]. rewrite (Hn eq_refl). destruct (input st); [by right|left; simpl; lia].
Qed.
