(* ===== verification/TokenSpec.v ===== *)
(** * TokenSpec: tokens, symbols, strings and characters read back *)

From S2P Require Export ReaderSafe NumTextProps.
Local Open Scope Z_scope.

(** * The text of an atom reads back as the atom

    Numbers, symbols, characters and strings, each followed by a byte that ends
    any token. *)

(** What may follow a datum: the end of the input, a blank, a newline or a parenthesis. *)
Definition delimited (rest : bytes) : Prop := match rest with [] => True | c :: _ => ends_name c = true end.

Lemma is_in_spec l c : is_in l c = true ↔ c ∈ l.
Proof. unfold is_in. apply bool_decide_eq_true. Qed.

Lemma not_is_in l c : Forall (λ x, x ≠ c) l → is_in l c = false.
Proof.
  intros H. apply bool_decide_eq_false_2. intros Hc. by apply (proj1 (list.Forall_forall _ _) H c Hc).
Qed.

Ltac not_in := apply not_is_in; repeat (constructor; [lia|]); constructor.

Lemma delimited_ends rest : delimited rest →
  stops (λ c, negb (ends_name c)) rest ∧ stops (λ c, negb (ends_literal c)) rest ∧ stops (λ c, negb (ends_token c)) rest.
Proof.
  destruct rest as [|c rest]; [done|]. cbn. intros H. pose proof H as Hin. apply is_in_spec in Hin.
  assert (ends_literal c = true) as Hl by (apply is_in_spec; set_solver).
  unfold ends_token, ends_hash. by rewrite H, Hl.
Qed.

Lemma span_n_app p n a b : Forall (λ c, p c = true) a → (length a <= n)%nat → stops p b → span_n p n (a ++ b) = (a, b).
Proof.
  intros Ha. revert n. induction Ha as [|c a Hc _ IH]; intros n Hn Hb.
  - destruct n, b as [|c b]; try done. cbn in *. by rewrite Hb.
  - simpl in Hn. destruct n as [|n]; [lia|]. cbn. rewrite Hc, IH by (done || lia). done.
Qed.

(** ** Tokens *)

(** A byte of a token, not NUL. *)
Definition token_byte (c : Z) : bool := negb (ends_token c) && negb (c =? 0).

(** [c] starts a token: it is nothing that starts another datum. *)
Definition starts_token (c : Z) : bool := negb (is_in [C_QUOTE; C_LPAREN; C_DQUOTE; C_BAR; C_HASH] c).

Lemma token_bytes_collect t rest n st : Forall (λ c, token_byte c = true) t → (length t <= n)%nat → delimited rest →
  input st = t ++ rest → yields (gather ends_token n) st (λ more st', more = t ∧ input st' = rest).
Proof.
  intros Ht Hn Hr E. apply yields_input. rewrite E, span_n_app; [done| |done|apply delimited_ends, Hr].
  eapply list.Forall_impl; [exact Ht|]. intros c. unfold token_byte. destruct (ends_token c); [done|done].
Qed.

(** A token is read whole and given to [token_value]. *)
Lemma token_read fuel D c t rest st (Q : value → Prop) :
  D < ESHKOL_READ_MAX_DEPTH → starts_token c = true → Forall (λ c, token_byte c = true) t → (length t <= 254)%nat →
  delimited rest → input st = t ++ rest →
  (∀ st', yields (token_value (c :: t)) st' (λ v st'', input st'' = input st' ∧ Q v)) →
  yields (read_datum (S fuel) D (Some c)) st (λ v st', input st' = rest ∧ Q v).
Proof.
  intros HD Hc Ht Hl Hr E HQ. cbn [read_datum]. destruct (Z.leb_spec ESHKOL_READ_MAX_DEPTH D); [lia|].
  assert (∀ x, x ∈ [C_QUOTE; C_LPAREN; C_DQUOTE; C_BAR; C_HASH] → (c =? x) = false) as Hne.
  { intros x Hx. apply Z.eqb_neq. intros ->. unfold starts_token in Hc. apply is_in_spec in Hx. by rewrite Hx in Hc. }
  rewrite !Hne by set_solver. eapply yields_bind; [by eapply token_bytes_collect|].
  intros more st1 _ [-> E1]. eapply yields_impl; [apply HQ|]. intros v st2 _ [E2 Hv]. split; [by rewrite E2|done].
Qed.

(** ** Numbers *)

Lemma token_byte_digit c : isdigit c = true → token_byte c = true.
Proof.
  intros Hc%isdigit_spec. unfold token_byte, ends_token, ends_hash, ends_literal.
  assert (is_in [C_SPACE; C_NEWLINE; C_RETURN; C_TAB; C_RPAREN; C_LPAREN] c = false) as -> by not_in.
  destruct (Z.eqb_spec c C_DQUOTE), (Z.eqb_spec c C_SEMICOLON), (Z.eqb_spec c 0); try lia; done.
Qed.

Lemma digits_token ds : digits ds → Forall (λ c, token_byte c = true) ds.
Proof. intros H. eapply list.Forall_impl; [exact H|]. apply token_byte_digit. Qed.

Lemma literal_token s a frac ex : decimal_ok a frac ex → Forall (λ c, token_byte c = true) (decimal_text s a frac ex).
Proof.
  intros [Ha _ Hf He]. unfold decimal_text. repeat apply Forall_app_2.
  - destruct s; by repeat constructor.
  - by apply digits_token.
  - destruct frac as [b|]; [|constructor]. constructor; [done|]. by apply digits_token.
  - destruct ex as [[n e]|]; [|constructor]. destruct He as [He _]. constructor; [done|]. constructor; [by destruct n|]. by apply digits_token.
Qed.

Lemma int_token n : Forall (λ c, token_byte c = true) (print_int n).
Proof.
  destruct (print_int_minus n) as (ds & -> & H & _). apply Forall_app_2; [destruct (n <? 0); by repeat constructor|by apply digits_token].
Qed.

(** The first byte of a number. *)
Lemma number_start neg ds r : digits ds → ds ≠ [] → ∃ c t, minus_text neg ++ ds ++ r = c :: t ∧ (isdigit c = true ∨ c = C_MINUS).
Proof.
  intros Hds Hne. destruct neg; [by eexists _, _; split; [reflexivity|right]|]. apply length_pos in Hne as (c & l & ->).
  apply list.Forall_cons in Hds as [Hc _]. eexists _, _. split; [reflexivity|by left].
Qed.

Lemma number_starts_token c : isdigit c = true ∨ c = C_MINUS → starts_token c = true ∧ c ≠ C_DOT ∧ c ≠ C_RPAREN ∧ is_ws c = false ∧ c ≠ C_SEMICOLON.
Proof.
  intros [Hc%isdigit_spec| ->]; [|by vm_compute]. unfold starts_token, is_ws.
  assert (is_in [C_QUOTE; C_LPAREN; C_DQUOTE; C_BAR; C_HASH] c = false) as -> by not_in.
  assert (is_in [C_SPACE; C_TAB; C_NEWLINE; C_RETURN] c = false) as -> by not_in.
  split_and!; done || lia.
Qed.

Lemma token_int n st : is_i64 n → yields (token_value (print_int n)) st (λ v st', input st' = input st ∧ v = Int64 n).
Proof.
  intros Hn. unfold token_value. pose proof (strtoll_print_int n [] Hn I) as E. rewrite app_nil_r in E. rewrite E, Nat.eqb_refl.
  by apply yields_ret.
Qed.

(** [strtoll] stops before the end of a literal that is not an integer. *)
Lemma strtoll_stops_early sg neg ds r : sign_text sg neg → digits ds → ds ≠ [] → stops isdigit r → r ≠ [] →
  (snd (fst (strtoll (sg ++ ds ++ r) 10)) =? length (sg ++ ds ++ r))%nat = false.
Proof.
  intros Hsg Hds Hne Hr Hr'. rewrite (strtoll_digits sg neg) by done. cbn [fst snd]. apply Nat.eqb_neq.
  rewrite !length_app. destruct r; [done|]. simpl. lia.
Qed.

Lemma token_double s a frac ex st : decimal_ok a frac ex → (frac ≠ None ∨ ex ≠ None) →
  yields (token_value (decimal_text s a frac ex)) st (λ v st', input st' = input st ∧
    v = Double (round_power s (base_value 10 (a ++ default [] frac)) 10 (exp_value ex - Z.of_nat (length (default [] frac))))).
Proof.
  intros Hok Hmark. unfold token_value. pose proof Hok as [Ha Hne _ _].
  pose proof (strtoll_stops_early (minus_text s) s a (point_text frac ++ exp_text ex) (minus_sign s) Ha Hne) as E.
  change (minus_text s ++ a ++ point_text frac ++ exp_text ex) with (decimal_text s a frac ex) in E.
  destruct (strtoll (decimal_text s a frac ex) 10) as [[i n] er]. cbn [fst snd] in E. rewrite E.
  - rewrite (strtod_literal s a frac ex Hok), Nat.eqb_refl. by apply yields_ret.
  - destruct frac, ex as [[[] ?]|]; done.
  - destruct frac; [done|]. destruct ex as [[n' e]|]; [done|]. by destruct Hmark.
Qed.

(** ** Rationals *)

Lemma c_string_id l : Forall (λ c, c ≠ 0) l → c_string l = l.
Proof.
  intros H. unfold c_string. rewrite span_all; [done|]. eapply list.Forall_impl; [exact H|]. intros c Hc.
  by destruct (Z.eqb_spec c 0).
Qed.

Lemma token_nonzero t : Forall (λ c, token_byte c = true) t → Forall (λ c, c ≠ 0) t.
Proof.
  intros H. eapply list.Forall_impl; [exact H|]. intros c Hc ->. by vm_compute in Hc.
Qed.

Lemma strtod_before_slash neg ds r : digits ds → ds ≠ [] →
  snd (strtod (minus_text neg ++ ds ++ C_SLASH :: r)) = length (minus_text neg ++ ds).
Proof.
  intros Ha Hne. unfold strtod. destruct (c_sign_digits (minus_text neg) neg ds (C_SLASH :: r) (minus_sign neg) Ha Hne) as [-> ->].
  destruct (length_pos _ Hne) as (c & l & Ea). pose proof Ha as Hc. rewrite Ea in Hc. apply list.Forall_cons in Hc as [Hc _].
  assert (∀ w, 58 <= hd 0 w → starts_ci w (ds ++ C_SLASH :: r) = false) as Hci.
  { intros w Hw. rewrite Ea. by apply starts_ci_digit. }
  rewrite !Hci by (vm_compute; congruence). rewrite hex_prefix_digits by done.
  unfold decimal_float, mantissa. rewrite span_app by done. change (eat C_DOT (C_SLASH :: r)) with (@None bytes). cbv iota.
  rewrite drop_app_length. change (exponent 101 (C_SLASH :: r)) with (0, 0%nat). rewrite Ea. cbv iota.
  rewrite Nat.add_0_r. cbn [snd length]. rewrite !length_app. simpl. lia.
Qed.

(** The text of a number up to its slash. *)
Lemma not_slash neg ds : digits ds → Forall (λ c, negb (c =? C_SLASH) = true) (minus_text neg ++ ds).
Proof.
  intros H. apply Forall_app_2; [destruct neg; by repeat constructor|]. eapply list.Forall_impl; [exact H|].
  intros c Hc%isdigit_spec. destruct (Z.eqb_spec c C_SLASH); [lia|done].
Qed.

Lemma token_rational r st : canonical r → is_big r = false → rden r ≠ 1 →
  yields (token_value (eshkol_rational_display r)) st (λ v st', input st' = input st ∧ ∃ a, v = Rat a r).
Proof.
  intros Hc Hb Hd1. destruct (small_fields r Hc Hb) as (En & Ed & Hn & Hd & Hpos).
  unfold eshkol_rational_display. rewrite Hb. destruct (Z.eqb_spec (denominator r) 1); [congruence|].
  destruct (print_int_minus (numerator r)) as (ds & E1 & Hds & Hne & Hv & _).
  destruct (print_int_minus (denominator r)) as (ds' & E2 & Hds' & Hne' & Hv' & _).
  assert ((denominator r <? 0) = false) as E0 by (apply Z.ltb_ge; lia). rewrite E0 in *. cbn [minus_text app] in E2.
  set (neg := numerator r <? 0) in *.
  assert (Hi : is_i64 (numerator r)) by done. assert (Hi' : is_i64 (denominator r)) by done.
  assert (Et : print_int (numerator r) ++ [C_SLASH] ++ print_int (denominator r) = minus_text neg ++ ds ++ C_SLASH :: ds').
  { rewrite E1, E2. by rewrite <- app_assoc. }
  pose proof (strtoll_print_int (numerator r) [] Hi I) as S1. rewrite app_nil_r in S1.
  pose proof (strtoll_print_int (denominator r) [] Hi' I) as S2. rewrite app_nil_r in S2.
  unfold token_value. rewrite Et.
  pose proof (strtoll_stops_early (minus_text neg) neg ds (C_SLASH :: ds') (minus_sign neg) Hds Hne ltac:(done) ltac:(done)) as E.
  destruct (strtoll (minus_text neg ++ ds ++ C_SLASH :: ds') 10) as [[i n'] er]. cbn [fst snd] in E. rewrite E. clear E.
  pose proof (strtod_before_slash neg ds ds' Hds Hne) as E. destruct (strtod _) as [dv k]. cbn [snd] in E. subst k.
  assert ((length (minus_text neg ++ ds) =? length (minus_text neg ++ ds ++ C_SLASH :: ds'))%nat = false) as ->.
  { apply Nat.eqb_neq. rewrite !length_app. simpl. lia. }
  assert (rational_parts (minus_text neg ++ ds ++ C_SLASH :: ds') = Some (numerator r, denominator r)) as ->.
  { unfold rational_parts. rewrite c_string_id.
    2:{ apply token_nonzero. rewrite app_assoc. apply Forall_app_2; [|constructor; [done|by apply digits_token]].
        rewrite <- E1. apply int_token. }
    rewrite app_assoc, span_app; [|by apply not_slash|done]. rewrite eat_cons, <- E1, <- E2.
    destruct (print_int (numerator r)) as [|b bs] eqn:Eb; [destruct neg, ds; done|]. rewrite <- Eb in *.
    assert ((length (print_int (numerator r)) =? length (print_int (numerator r) ++ C_SLASH :: print_int (denominator r)) - 1)%nat = false) as ->.
    { apply Nat.eqb_neq. rewrite length_app, E2. destruct ds'; [done|]. simpl. lia. }
    rewrite S1, S2, !Nat.eqb_refl. destruct (Z.eqb_spec (denominator r) 0); [lia|done]. }
  unfold make_rational. destruct (create_num (numerator r) (denominator r)) as (r' & -> & Hc' & Hr'); [done|done|lia|].
  assert (r' = r) as ->.
  { apply rval_inj; [done|done|]. rewrite Hr'. unfold rval. rewrite En, Ed. unfold Qdiv, Qmult, Qinv, Qeq, inject_Z. cbn [Qnum Qden].
    clear - Hpos. destruct (denominator r) as [|p|p]; [lia| |lia]. cbn. lia. }
  destruct (Z.eqb_spec (denominator r) 1); [congruence|]. eapply yields_bind; [apply yields_allocate|].
  intros a st' _ [Ei _]. apply yields_ret. eauto.
Qed.

(** * Symbols, strings and characters read back

    [write] wraps in bars every name the reader would not take bare, except the
    six spellings of infinities and NaNs that [strtod] knows. *)

(** ** Bytes, by cases *)

Abbreviation are_bytes := (Forall (λ c, 0 <= c < 256)).

Lemma byte_check (f : Z → bool) : forallb (λ n, f (Z.of_nat n)) (seq 0 256) = true → ∀ c, 0 <= c < 256 → f c = true.
Proof.
  intros H c Hc. rewrite forallb_forall in H. specialize (H (Z.to_nat c)). rewrite Z2Nat.id in H by lia.
  apply H, in_seq. lia.
Qed.

Lemma text_are_bytes s : are_bytes (text_bytes s).
Proof.
  unfold text_bytes. induction (String.list_ascii_of_string s) as [|c l IH]; constructor; [apply byte_of_range|done].
Qed.

Lemma map_byte_of_char l : are_bytes l → map byte_of (map char_of l) = l.
Proof.
  induction 1 as [|c l Hc _ IH]; [done|]. cbn [map]. rewrite IH. f_equal. unfold byte_of, char_of.
  rewrite N_ascii_embedding by lia. lia.
Qed.

Lemma bytes_text_bytes s : bytes_text (text_bytes s) = s.
Proof.
  unfold bytes_text, text_bytes. rewrite map_char_of_bytes. induction s as [|c s IH]; [done|]. cbn. by rewrite IH.
Qed.

Lemma c_bytes_no_nul s : no_nul s = true → c_bytes s = text_bytes s.
Proof. intros H. unfold c_bytes. by rewrite c_text_bytes. Qed.

(** What the grammar says of a byte, checked on all 256. *)
Definition implies (a b : bool) : bool := negb a || b.

Lemma implies_true a b : implies a b = true → a = true → b = true.
Proof. by destruct a. Qed.

Lemma subsequent_token c : 0 <= c < 256 → eshkol_symbol_is_subsequent c = true → token_byte c = true.
Proof.
  intros Hc. apply implies_true. revert c Hc. apply byte_check. vm_compute. reflexivity.
Qed.

(** A byte that starts a bare symbol other than a sign, a dot or a colon. *)
Definition plain_start (c : Z) : bool :=
  negb (isdigit c) && negb (isspace c) && negb (is_in [C_PLUS; C_MINUS; C_DOT; C_RPAREN; C_SEMICOLON] c)
  && starts_token c && negb (is_ws c) && token_byte c.

Lemma initial_start c : 0 <= c < 256 → eshkol_symbol_is_initial c = true → plain_start c = true.
Proof. intros Hc. apply implies_true. revert c Hc. apply byte_check. vm_compute. reflexivity. Qed.

Lemma dot_subsequent_spec c : 0 <= c < 256 → eshkol_symbol_is_dot_subsequent c = true →
  isdigit c = false ∧ is_ws c = false ∧ token_byte c = true.
Proof.
  intros Hc H. assert (negb (isdigit c) && negb (is_ws c) && token_byte c = true) as Hp.
  { revert H. apply implies_true. revert c Hc. apply byte_check. vm_compute. reflexivity. }
  destruct (isdigit c), (is_ws c), (token_byte c); done.
Qed.

Lemma sign_subsequent_spec c : 0 <= c < 256 → eshkol_symbol_is_sign_subsequent c = true →
  isdigit c = false ∧ c ≠ C_DOT ∧ token_byte c = true.
Proof.
  intros Hc H. assert (negb (isdigit c) && negb (c =? C_DOT) && token_byte c = true) as Hp.
  { revert H. apply implies_true. revert c Hc. apply byte_check. vm_compute. reflexivity. }
  destruct (Z.eqb_spec c C_DOT), (isdigit c), (token_byte c); done.
Qed.

(** ** Names that are no numbers *)

(** The first byte after the sign starts no number. *)
Record no_number (name : bytes) : Prop := {
  nn_tokens : Forall (λ c, token_byte c = true) name;
  nn_sign : ∃ sg neg r, name = sg ++ r ∧ sign_text sg neg ∧ stops isdigit r ∧
    (sg = [] → stops (λ c, isspace c || (c =? C_PLUS) || (c =? C_MINUS)) r) ∧
    (∀ r', eat C_DOT r = Some r' → stops isdigit r')
}.

Lemma no_number_sign name sg neg r : name = sg ++ r → sign_text sg neg →
  (sg = [] → stops (λ c, isspace c || (c =? C_PLUS) || (c =? C_MINUS)) r) →
  span isspace name = ([], name) ∧ c_sign name = (neg, length sg, r).
Proof.
  intros -> Hsg Hstart. destruct Hsg as [[-> ->]|[[-> ->]|[-> ->]]]; [|done|done]. specialize (Hstart eq_refl).
  cbn [app]. destruct r as [|c r]; [done|]. cbn [stops] in Hstart. apply orb_false_elim in Hstart as [[Hs Hp]%orb_false_elim Hm].
  split; [by apply span_none|]. unfold c_sign. by rewrite Hm, Hp.
Qed.

Lemma no_number_strtoll name sg neg r : name = sg ++ r → sign_text sg neg → stops isdigit r →
  (sg = [] → stops (λ c, isspace c || (c =? C_PLUS) || (c =? C_MINUS)) r) → strtoll name 10 = (0, 0%nat, false).
Proof.
  intros E Hsg Hd Hstart. destruct (no_number_sign name sg neg r E Hsg Hstart) as [E1 E2]. unfold strtoll. rewrite E1, E2.
  change ((10 =? 16) && hex_prefix r) with false. cbv iota. rewrite drop_0, span_none; [done|].
  destruct r as [|c r]; [done|]. cbn in *. by rewrite is_digit_in_10.
Qed.

(** The spellings [strtod] takes for an infinity or a NaN. *)
Definition float_word (name : bytes) : bool :=
  let '(_, _, r) := c_sign name in
  bool_decide (map tolower r ∈ [lit "inf"; lit "infinity"; lit "nan"]).

Lemma starts_ci_length word s : starts_ci word s = true → (length word <= length s)%nat.
Proof.
  unfold starts_ci. intros E%bool_decide_eq_true. apply (f_equal length) in E. rewrite length_map, length_take in E. lia.
Qed.

(** A word that is not the whole name is not taken whole. *)
Lemma starts_ci_part word s : starts_ci word s = true → map tolower s ≠ word → length word ≠ length s.
Proof.
  unfold starts_ci. intros E%bool_decide_eq_true Hne El. apply Hne. rewrite El, take_ge in E by lia. done.
Qed.

Lemma no_paren name sg r : Forall (λ c, token_byte c = true) name → name = sg ++ r → eat C_LPAREN (drop 3 r) = None.
Proof.
  intros Ht ->. apply list.Forall_app in Ht as [_ Ht]. apply (Forall_drop _ 3) in Ht. destruct (drop 3 r) as [|c l]; [done|].
  apply list.Forall_cons in Ht as [Hc _]. unfold eat. destruct (Z.eqb_spec c C_LPAREN) as [->|]; [by vm_compute in Hc|done].
Qed.

Lemma no_number_strtod name : no_number name → name ≠ [] → float_word name = false →
  (snd (strtod name) =? length name)%nat = false.
Proof.
  intros [Ht (sg & neg & r & E & Hsg & Hd & Hstart & Hdot)] Hne Hw. apply Nat.eqb_neq.
  destruct (no_number_sign name sg neg r E Hsg Hstart) as [E1 E2]. unfold float_word in Hw. rewrite E2 in Hw.
  apply bool_decide_eq_false in Hw. unfold strtod. rewrite E1, E2.
  assert (El : length name = (length sg + length r)%nat) by (by rewrite E, length_app).
  destruct (starts_ci (lit "infinity") r) eqn:S1.
  { apply starts_ci_part in S1; [|intros Heq; apply Hw; rewrite Heq; apply list_elem_of_In; vm_compute; tauto]. change (length (lit "infinity")) with 8%nat in S1. simpl. lia. }
  destruct (starts_ci (lit "inf") r) eqn:S2.
  { apply starts_ci_part in S2; [|intros Heq; apply Hw; rewrite Heq; apply list_elem_of_In; vm_compute; tauto]. change (length (lit "inf")) with 3%nat in S2. simpl. lia. }
  destruct (starts_ci (lit "nan") r) eqn:S3.
  { apply starts_ci_part in S3; [|intros Heq; apply Hw; rewrite Heq; apply list_elem_of_In; vm_compute; tauto]. change (length (lit "nan")) with 3%nat in S3.
    unfold nan_payload. rewrite (no_paren name sg r Ht E). simpl. lia. }
  assert (hex_prefix r = false) as ->.
  { destruct r as [|c [|x [|y r]]]; try done. cbn [stops] in Hd. unfold hex_prefix.
    destruct (Z.eqb_spec c 48) as [->|]; [done|done]. }
  unfold decimal_float, mantissa. rewrite (span_none _ _ Hd). destruct (eat C_DOT r) as [r'|] eqn:Er.
  - rewrite (span_none _ _ (Hdot r' eq_refl)). cbn. destruct name; [done|]. simpl. lia.
  - cbn. destruct name; [done|]. simpl. lia.
Qed.

Lemma no_number_parts name : no_number name → rational_parts name = None.
Proof.
  intros [Ht (sg & neg & r & E & Hsg & Hd & Hstart & Hdot)]. unfold rational_parts.
  rewrite (c_string_id name) by (by apply token_nonzero).
  assert (Hspan : span (λ c, negb (c =? C_SLASH)) name = (sg ++ (span (λ c, negb (c =? C_SLASH)) r).1, (span (λ c, negb (c =? C_SLASH)) r).2)).
  { rewrite E. destruct Hsg as [[-> _]|[[-> _]|[-> _]]]; cbn [app]; [by destruct (span _ r)| |]; cbn; by destruct (span _ r). }
  rewrite Hspan. destruct (sg ++ (span (λ c, negb (c =? C_SLASH)) r).1) as [|b bs] eqn:Eb; [done|].
  destruct (eat C_SLASH _) as [after|]; [|done]. destruct (_ =? _)%nat; [done|].
  assert (Hhead : ∀ p, stops p r → stops p (span (λ c, negb (c =? C_SLASH)) r).1).
  { intros p Hp. destruct r as [|c r']; [done|]. cbn in *. destruct (negb _); [|done]. by destruct (span _ r'). }
  rewrite (no_number_strtoll (b :: bs) sg neg (span (λ c, negb (c =? C_SLASH)) r).1); [|by rewrite Eb|done|by apply Hhead|].
  - destruct (strtoll after 10) as [[den k] er]. done.
  - intros Hs. by apply Hhead, Hstart.
Qed.

Lemma token_symbol name st : no_number name → name ≠ [] → float_word name = false →
  yields (token_value name) st (λ v st', input st' = input st ∧ ∃ a, v = Sym a (bytes_text name)).
Proof.
  intros Hn Hne Hw. pose proof Hn as [Ht (sg & neg & r & E & Hsg & Hd & Hstart & _)]. unfold token_value.
  rewrite (no_number_strtoll name sg neg r E Hsg Hd Hstart).
  destruct (Nat.eqb_spec 0 (length name)); [by destruct name|]. pose proof (no_number_strtod name Hn Hne Hw) as Hs.
  destruct (strtod name) as [d k]. cbn [snd] in Hs. rewrite Hs, (no_number_parts name Hn).
  eapply yields_impl; [apply yields_symbol|]. intros v st' _ (Ei & _ & a & s & -> & ->). split; [done|]. exists a.
  assert (existsb (λ c, c =? 0) name = false) as ->; [|done].
  apply not_true_iff_false. rewrite existsb_exists. intros (x & Hx & ->%Z.eqb_eq).
  apply list_elem_of_In in Hx. by apply (proj1 (list.Forall_forall _ _) (token_nonzero _ Ht) _ Hx).
Qed.

(** ** The identifier grammar *)

(** [c :: t] starts a datum wherever [read] looks for one. *)
Definition starts_datum (c : Z) (t : bytes) : Prop :=
  is_ws c = false ∧ c ≠ C_SEMICOLON ∧ c ≠ C_RPAREN ∧
  (c = C_DOT → match t with n :: _ => is_ws n = false | [] => False end).

Definition bare (name : bytes) : Prop :=
  no_number name ∧ ∃ c t, name = c :: t ∧ starts_token c = true ∧ starts_datum c t.

Lemma plain_start_spec c : plain_start c = true →
  isdigit c = false ∧ (isspace c || (c =? C_PLUS) || (c =? C_MINUS)) = false ∧ c ≠ C_DOT ∧ starts_token c = true
  ∧ token_byte c = true ∧ ∀ t, starts_datum c t.
Proof.
  unfold plain_start. rewrite !andb_true_iff, !negb_true_iff. intros (((((Hd & Hs) & Hin) & Hst) & Hw) & Ht).
  assert (∀ x, x ∈ [C_PLUS; C_MINUS; C_DOT; C_RPAREN; C_SEMICOLON] → c ≠ x) as Hne.
  { intros x Hx ->. apply is_in_spec in Hx. congruence. }
  rewrite Hd, Hs. split; [done|]. split.
  { destruct (Z.eqb_spec c C_PLUS); [exfalso; by apply (Hne C_PLUS); [set_solver|]|].
    destruct (Z.eqb_spec c C_MINUS); [exfalso; by apply (Hne C_MINUS); [set_solver|]|]. done. }
  split; [apply Hne; set_solver|]. split; [done|]. split; [done|]. intros t.
  split; [done|]. split; [apply Hne; set_solver|]. split; [apply Hne; set_solver|].
  intros E. exfalso. by apply (Hne C_DOT); [set_solver|].
Qed.

Lemma all_subsequent_tokens name n : are_bytes name → eshkol_symbol_all_subsequent name n = true →
  Forall (λ c, token_byte c = true) (drop n name).
Proof.
  intros Hb. unfold eshkol_symbol_all_subsequent. rewrite forallb_forall. intros H.
  apply list.Forall_forall. intros c Hc. apply subsequent_token.
  - apply (proj1 (list.Forall_forall _ _) Hb). apply list_elem_of_lookup in Hc as [i Hi]. rewrite lookup_drop in Hi.
    by apply list_elem_of_lookup_2 in Hi.
  - apply H. by apply list_elem_of_In.
Qed.

Lemma plain_bare c t : plain_start c = true → Forall (λ c, token_byte c = true) t → bare (c :: t).
Proof.
  intros Hp Ht. apply plain_start_spec in Hp as (Hd & Hs & Hdot & Hst & Htok & Hsd). split.
  - split; [by constructor|]. exists [], false, (c :: t). split; [done|]. split; [by left|]. split; [done|]. split; [done|].
    intros r'. unfold eat. destruct (Z.eqb_spec c C_DOT); [done|done].
  - exists c, t. by split_and!.
Qed.

(** A sign, or a dot, and the rest of a peculiar identifier. *)
Lemma sign_bare c r : c = C_PLUS ∨ c = C_MINUS → Forall (λ c, token_byte c = true) r → stops isdigit r →
  (∀ r', eat C_DOT r = Some r' → stops isdigit r') → bare (c :: r).
Proof.
  intros Hc Hr Hd Hdot. split.
  - split; [constructor; [by destruct Hc as [-> | ->]|done]|]. exists [c], (c =? C_MINUS), r. split; [done|]. split.
    { destruct Hc as [-> | ->]; [right; by right|right; by left]. }
    split; [done|]. split; [done|]. done.
  - exists c, r. split; [done|]. destruct Hc as [-> | ->]; (split; [done|]); by split_and!.
Qed.

Lemma dot_bare n r : isdigit n = false → is_ws n = false → Forall (λ c, token_byte c = true) (n :: r) → bare (C_DOT :: n :: r).
Proof.
  intros Hn Hw Hr. split.
  - split; [by constructor|]. exists [], false, (C_DOT :: n :: r). split; [done|]. split; [by left|]. split; [done|]. split; [done|].
    intros r' [= <-]. done.
  - exists C_DOT, (n :: r). split; [done|]. split; [done|]. by split_and!.
Qed.

Lemma grammar_bare name : are_bytes name → name ≠ [] → grammar_needs_bars name = false → bare name.
Proof.
  intros Hb Hne. destruct name as [|c name]; [done|]. pose proof Hb as Hb'. apply list.Forall_cons in Hb' as [Hc Hb1].
  unfold grammar_needs_bars. change (char_at (c :: name) 0) with c. destruct (eshkol_symbol_is_initial c) eqn:Hi.
  { intros Ha%negb_false_iff. apply all_subsequent_tokens in Ha; [|done]. apply plain_bare; [by apply initial_start|done]. }
  destruct (_ || _) eqn:Hs.
  - assert (c = C_PLUS ∨ c = C_MINUS) as Hc' by (apply orb_true_iff in Hs as [?%Z.eqb_eq|?%Z.eqb_eq]; auto).
    destruct name as [|x name]; [intros _; by apply sign_bare|]. change (char_at (c :: x :: name) 1) with x.
    pose proof Hb1 as Hx. apply list.Forall_cons in Hx as [Hx Hb2]. cbn [length Nat.eqb].
    destruct (Z.eqb_spec x C_DOT) as [->|Hxd].
    + destruct name as [|y name]; [done|]. change (char_at (c :: C_DOT :: y :: name) 2) with y.
      destruct (eshkol_symbol_is_dot_subsequent y) eqn:Hy; [|done]. intros Ha%negb_false_iff.
      apply all_subsequent_tokens in Ha; [|done]. apply list.Forall_cons in Hb2 as [Hyb _].
      apply dot_subsequent_spec in Hy as (Hyd & _ & Hyt); [|done].
      apply sign_bare; [done| |done|by intros r' [= <-]]. constructor; [done|]. by constructor.
    + destruct (eshkol_symbol_is_sign_subsequent x) eqn:Hss; [|done]. intros Ha%negb_false_iff.
      apply all_subsequent_tokens in Ha; [|done]. apply sign_subsequent_spec in Hss as (Hxd' & _ & Hxt); [|done].
      apply sign_bare; [done|by constructor|done|]. intros r'. unfold eat. destruct (Z.eqb_spec x C_DOT); [done|done].
  - destruct (Z.eqb_spec c C_DOT) as [->|]; [|done]. destruct name as [|x name]; [done|].
    change (char_at (C_DOT :: x :: name) 1) with x. destruct (eshkol_symbol_is_dot_subsequent x) eqn:Hx; [|done].
    intros Ha%negb_false_iff. apply all_subsequent_tokens in Ha; [|done]. apply list.Forall_cons in Hb1 as [Hxb _].
    apply dot_subsequent_spec in Hx as (Hxd & Hxw & Hxt); [|done]. apply dot_bare; [done|done|by constructor].
Qed.

Lemma needs_bars_bare name : are_bytes name → eshkol_symbol_needs_bars name = false → bare name.
Proof.
  intros Hb. unfold eshkol_symbol_needs_bars. destruct name as [|c name]; [done|]. cbn [length Nat.eqb].
  change (char_at (c :: name) 0) with c. destruct (_ && _ && _); [done|]. destruct (_ && _ && _); [done|].
  destruct (Z.eqb_spec c C_COLON) as [->|Hc]; cbn [andb].
  - destruct name as [|x name]; [done|]. cbn [length Nat.eqb drop].
    destruct (existsb _ _); [done|]. intros Hg. apply list.Forall_cons in Hb as [_ Hb].
    destruct (grammar_bare (x :: name) Hb ltac:(done) Hg) as [[Ht _] _]. by apply plain_bare.
  - destruct (existsb _ _); [done|]. by apply grammar_bare.
Qed.

(** * Escaped strings, barred symbols and characters read back *)

(** ** String literals *)

(** The bytes [write] leaves as they are. *)
Definition string_plain (c : Z) : bool :=
  negb (is_in [C_DQUOTE; C_BACKSLASH; 7; 8; C_TAB; C_NEWLINE; C_RETURN] c) && negb ((c <? 0x20) || (c =? 0x7f)).

Lemma string_plain_spec c : string_plain c = true → write_escaped_char c = [c] ∧ c ≠ C_DQUOTE ∧ c ≠ C_BACKSLASH.
Proof.
  unfold string_plain. rewrite andb_true_iff, !negb_true_iff. intros [Hin Hc].
  assert (∀ x, x ∈ [C_DQUOTE; C_BACKSLASH; 7; 8; C_TAB; C_NEWLINE; C_RETURN] → (c =? x) = false) as Hne.
  { intros x Hx. apply Z.eqb_neq. intros ->. apply is_in_spec in Hx. congruence. }
  unfold write_escaped_char. rewrite !Hne by set_solver. rewrite Hc. split; [done|].
  split; apply Z.eqb_neq, Hne; set_solver.
Qed.

(** The other bytes, one by one. *)
Lemma string_escaped_spec c l : 0 <= c < 256 → string_plain c = false →
  ∃ e, write_escaped_char c ++ l = C_BACKSLASH :: e ∧ read_hosted_string_escape e = (EscapeOk, [c], l).
Proof.
  intros Hc Hp.
  assert (c ∈ map Z.of_nat (seq 0 32) ++ [C_DQUOTE; C_BACKSLASH; 0x7f]) as Hin.
  { apply list_elem_of_In. revert Hp. rewrite <- negb_true_iff.
    assert (implies (negb (string_plain c)) (is_in (map Z.of_nat (seq 0 32) ++ [C_DQUOTE; C_BACKSLASH; 0x7f]) c) = true) as Hi.
    { revert c Hc. apply byte_check. vm_compute. reflexivity. }
    intros Hn. apply (implies_true _ _ Hi), is_in_spec, list_elem_of_In in Hn. done. }
  clear Hc Hp. apply list_elem_of_In in Hin. cbn in Hin.
  repeat (destruct Hin as [<-|Hin]; [eexists; split; [reflexivity|reflexivity]|]). done.
Qed.

Lemma string_body_reads fuel buf data rest : are_bytes data → Z.of_nat (length buf + length data) <= 1024 * 1024 →
  (length (concat (map write_escaped_char data) ++ C_DQUOTE :: rest) < fuel)%nat →
  string_loop fuel buf (concat (map write_escaped_char data) ++ C_DQUOTE :: rest) = Some (Some (buf ++ data), rest).
Proof.
  intros Hd. revert fuel buf. induction Hd as [|c data Hc _ IH]; intros fuel buf Hl Hf.
  - destruct fuel as [|fuel]; [lia|]. cbn. by rewrite app_nil_r.
  - cbn [map concat] in *. rewrite <- app_assoc in *. destruct fuel as [|fuel]; [lia|].
    destruct (string_plain c) eqn:Hp.
    + apply string_plain_spec in Hp as (E & Hq & Hb). rewrite E in *. cbn [app string_loop] in *. simpl in Hf, Hl.
      destruct (Z.eqb_spec c C_DQUOTE); [done|]. destruct (Z.eqb_spec c C_BACKSLASH); [done|].
      destruct (Z.ltb_spec (1024 * 1024) (Z.of_nat (length buf + length [c]))); [simpl in *; lia|].
      rewrite IH; [by rewrite <- app_assoc|rewrite length_app; simpl; lia|lia].
    + destruct (string_escaped_spec c (concat (map write_escaped_char data) ++ C_DQUOTE :: rest) Hc Hp) as (e & E & Er).
      pose proof (read_hosted_suffix e) as Hs. rewrite Er in Hs. cbn [snd] in Hs. apply suffix_length in Hs.
      rewrite E in *. cbn [string_loop]. change (C_BACKSLASH =? C_DQUOTE) with false. change (C_BACKSLASH =? C_BACKSLASH) with true.
      cbv iota. rewrite Er. cbn [length] in Hl.
      destruct (Z.ltb_spec (1024 * 1024) (Z.of_nat (length buf + length [c]))); [simpl in *; lia|].
      simpl in Hf. rewrite IH; [by rewrite <- app_assoc|rewrite length_app; simpl; lia|lia].
Qed.

Lemma string_reads_back fuel D s rest st : Z.of_nat (String.length s) <= 1024 * 1024 → D < ESHKOL_READ_MAX_DEPTH →
  C_DQUOTE :: input st = write_escaped_string (text_bytes s) ++ rest →
  yields (read_datum (S fuel) D (Some C_DQUOTE)) st (λ v st', input st' = rest ∧ ∃ a, v = Str false a s).
Proof.
  intros Hl HD E. cbn [read_datum]. destruct (Z.leb_spec ESHKOL_READ_MAX_DEPTH D); [lia|].
  change (C_DQUOTE =? C_QUOTE) with false. change (C_DQUOTE =? C_LPAREN) with false. change (C_DQUOTE =? C_DQUOTE) with true.
  cbv iota. unfold write_escaped_string in E. rewrite <- !app_assoc in E. injection E as E. cbn [app] in E.
  eapply (yields_bind _ _ _ (λ r st', r = Some (text_bytes s) ∧ input st' = rest)).
  - exists (Some (text_bytes s)), (Reader rest (heap_next st) (symbols st)). unfold looping.
    rewrite E, (string_body_reads _ [] (text_bytes s) rest); [|apply text_are_bytes| |lia].
    + split; [done|]. split; [apply extends_input|done].
    + pose proof (length_text_bytes s). simpl. lia.
  - intros r st' _ [-> Er]. eapply yields_impl; [apply yields_string|]. intros v st'' _ [Ei ->].
    split; [by rewrite Ei|]. eexists. by rewrite bytes_text_bytes.
Qed.

(** ** Barred symbols *)

Lemma push_bytes_room buf c : (length buf < Z.to_nat 4095)%nat → push_bytes buf [c] = buf ++ [c].
Proof. intros H. apply take_ge. rewrite length_app. simpl length. lia. Qed.

(** Reading the escape of one byte, NUL excluded. *)
Lemma bar_element_reads fuel buf c l : 0 < c < 256 → (length buf < Z.to_nat 4095)%nat →
  bar_loop (S fuel) buf (escape_element c ++ l) = bar_loop fuel (buf ++ [c]) l.
Proof.
  intros Hc Hl. rewrite <- (push_bytes_room buf c Hl).
  destruct (eshkol_symbol_element_needs_escape c) eqn:He.
  - assert (c ∈ map Z.of_nat (seq 1 31) ++ [C_BAR; C_BACKSLASH; 0x7f]) as Hin.
    { assert (implies (eshkol_symbol_element_needs_escape c && negb (c =? 0)) (is_in (map Z.of_nat (seq 1 31) ++ [C_BAR; C_BACKSLASH; 0x7f]) c) = true) as Hi.
      { assert (0 <= c < 256) as Hc' by lia. clear Hc He Hl; revert c Hc'; apply byte_check. vm_compute. reflexivity. }
      apply is_in_spec, (implies_true _ _ Hi). rewrite He. destruct (Z.eqb_spec c 0); [lia|done]. }
    clear Hc Hl He. apply list_elem_of_In in Hin. cbn in Hin.
    repeat (destruct Hin as [<-|Hin]; [reflexivity|]). done.
  - assert (escape_element c = [c]) as ->.
    { unfold escape_element. rewrite He. destruct (Z.eqb_spec c C_BAR) as [->|]; [done|done]. }
    assert (c ≠ C_BAR ∧ c ≠ C_BACKSLASH) as [Hb Hs] by (split; intros ->; done).
    cbn [app bar_loop]. destruct (Z.eqb_spec c C_BAR); [done|]. destruct (Z.eqb_spec c C_BACKSLASH); [done|]. done.
Qed.

Lemma bar_body_reads fuel buf name rest : Forall (λ c, 0 < c < 256) name → Z.of_nat (length buf + length name) <= 4095 →
  (length name < fuel)%nat →
  bar_loop fuel buf (eshkol_symbol_escape_body name ++ C_BAR :: rest) = Some (Some (buf ++ name), rest).
Proof.
  intros Hn. revert fuel buf. induction Hn as [|c name Hc _ IH]; intros fuel buf Hl Hf.
  - destruct fuel as [|fuel]; [simpl in Hf; lia|]. cbn. by rewrite app_nil_r.
  - destruct fuel as [|fuel]; [lia|]. simpl in Hl, Hf. unfold eshkol_symbol_escape_body. cbn [map concat]. rewrite <- app_assoc.
    rewrite bar_element_reads by lia. fold (eshkol_symbol_escape_body name).
    rewrite IH; [by rewrite <- app_assoc|rewrite length_app; simpl; lia|lia].
Qed.

Lemma escaped_body_length name : (length name <= length (eshkol_symbol_escape_body name))%nat.
Proof.
  unfold eshkol_symbol_escape_body. induction name as [|c name IH]; [done|]. cbn [map concat length]. rewrite length_app.
  assert (1 <= length (escape_element c))%nat; [|lia]. unfold escape_element. by repeat case_match; cbn; lia.
Qed.

(** The buffer the body is written to has the size computed for it. *)
Lemma escaped_body_fits name : length (eshkol_symbol_escape_body name) = eshkol_symbol_escaped_body_len name.
Proof.
  unfold eshkol_symbol_escape_body, eshkol_symbol_escaped_body_len.
  induction name as [|c name IH]; [done|]. cbn [map concat]. rewrite length_app, IH. cbn [sum_list]. f_equal.
  unfold escape_element, escaped_element_len. destruct (c =? C_BAR); [done|].
  destruct (eshkol_symbol_element_needs_escape c); [|done]. cbn [negb]. by destruct (negb _).
Qed.

Lemma positive_bytes s : no_nul s = true → Forall (λ c, 0 < c < 256) (text_bytes s).
Proof.
  intros H. pose proof (text_are_bytes s) as Hb. unfold no_nul in H. rewrite forallb_forall in H.
  apply list.Forall_forall. intros c Hc. assert (0 <= c < 256) by exact (proj1 (list.Forall_forall _ _) Hb c Hc).
  specialize (H c (proj1 (list_elem_of_In _ _) Hc)). apply negb_true_iff, Z.eqb_neq in H. lia.
Qed.

Lemma yields_symbol_named name st : Forall (λ c, c ≠ 0) name →
  yields (make_symbol_tagged name) st (λ v st', input st' = input st ∧ ∃ a, v = Sym a (bytes_text name)).
Proof.
  intros Hn. eapply yields_impl; [apply yields_symbol|]. intros v st' _ (E & _ & a & s & -> & ->). split; [done|]. exists a.
  assert (existsb (λ c, c =? 0) name = false) as ->; [|done].
  apply not_true_iff_false. rewrite existsb_exists. intros (x & Hx & ->%Z.eqb_eq).
  apply list_elem_of_In in Hx. by apply (proj1 (list.Forall_forall _ _) Hn _ Hx).
Qed.

(** The names [write] spells so that [read] takes them back. *)
Definition symbol_ok (s : string) : Prop :=
  no_nul s = true ∧
  if eshkol_symbol_needs_bars (text_bytes s) then Z.of_nat (String.length s) <= 4095
  else Z.of_nat (String.length s) <= 255 ∧ float_word (text_bytes s) = false.

Lemma symbol_reads_back fuel D s rest st c t : symbol_ok s → D < ESHKOL_READ_MAX_DEPTH → delimited rest →
  write_symbol_name (text_bytes s) = c :: t → input st = t ++ rest →
  yields (read_datum (S fuel) D (Some c)) st (λ v st', input st' = rest ∧ ∃ a, v = Sym a s) ∧ starts_datum c t.
Proof.
  intros [Hn Hok] HD Hr Et E. pose proof (positive_bytes s Hn) as Hp. pose proof (length_text_bytes s) as Hlen.
  assert (Hnz : Forall (λ c, c ≠ 0) (text_bytes s)) by (eapply list.Forall_impl; [exact Hp|]; intros x Hx; cbv beta in *; lia).
  unfold write_symbol_name in Et. destruct (eshkol_symbol_needs_bars (text_bytes s)) eqn:Hb; cbn [negb] in Et.
  - injection Et as <- <-. split; [|by split_and!]. cbn [read_datum]. destruct (Z.leb_spec ESHKOL_READ_MAX_DEPTH D); [lia|].
    change (C_BAR =? C_QUOTE) with false. change (C_BAR =? C_LPAREN) with false. change (C_BAR =? C_DQUOTE) with false.
    change (C_BAR =? C_BAR) with true. cbv iota. rewrite <- app_assoc in E.
    eapply (yields_bind _ _ _ (λ r st', r = Some (text_bytes s) ∧ input st' = rest)).
    + exists (Some (text_bytes s)), (Reader rest (heap_next st) (symbols st)). unfold looping. rewrite E.
      cbn [app]. rewrite (bar_body_reads _ [] (text_bytes s) rest Hp).
      * split; [done|]. split; [apply extends_input|done].
      * simpl. lia.
      * pose proof (escaped_body_length (text_bytes s)). rewrite length_app. lia.
    + intros r st' _ [-> Er]. eapply yields_impl; [by apply yields_symbol_named|]. intros v st'' _ (Ei & a & ->).
      split; [by rewrite Ei|]. exists a. by rewrite bytes_text_bytes.
  - destruct (needs_bars_bare _ (text_are_bytes s) Hb) as [Hnn (c' & t' & Et' & Hst & Hsd)]. rewrite Et in Et'. injection Et' as <- <-.
    split; [|done]. destruct Hok as [Hl Hw].
    assert (Htok : Forall (λ c, token_byte c = true) t) by (pose proof (nn_tokens _ Hnn) as Ht; rewrite Et in Ht; by apply list.Forall_cons in Ht as [_ ?]).
    eapply yields_impl.
    + apply (token_read fuel D c t rest st (λ v, ∃ a, v = Sym a s) HD Hst Htok); [rewrite Et in Hlen; simpl in Hlen; lia|done|done|].
      intros st'. rewrite <- Et. eapply yields_impl; [apply token_symbol; [done|by rewrite Et|done]|].
      intros v st'' _ (Ei & a & ->). split; [done|]. exists a. by rewrite bytes_text_bytes.
    + intros v st' _ H. exact H.
Qed.

(** ** Hexadecimal text *)

Definition hex_byte (c : Z) : bool := isdigit c || in_range 65 70 c.

Lemma hex_digit_spec v : 0 <= v < 16 → hex_byte (hex_digit 65 v) = true ∧ digit_value (hex_digit 65 v) = Some v.
Proof.
  intros Hv. assert (v ∈ map Z.of_nat (seq 0 16)) as Hin.
  { apply list_elem_of_In, in_map_iff. exists (Z.to_nat v). split; [lia|]. apply in_seq. lia. }
  apply list_elem_of_In in Hin. cbn in Hin. repeat (destruct Hin as [<-|Hin]; [by vm_compute|]). done.
Qed.

Lemma hex_rev_spec fuel z : 0 <= z < 16 ^ Z.of_nat (S fuel) →
  let ds := rev (hex_rev 65 (S fuel) z) in
  Forall (λ c, hex_byte c = true) ds ∧ base_value 16 ds = z ∧ ds ≠ [] ∧ ∀ n, z < 16 ^ Z.of_nat (S n) → (length ds <= S n)%nat.
Proof.
  assert (Hone : ∀ ds v, 0 <= v < 16 → base_value 16 (ds ++ [hex_digit 65 v]) = base_value 16 ds * 16 + v).
  { intros ds v Hv. rewrite base_value_app. change (16 ^ Z.of_nat (length [hex_digit 65 v])) with 16. f_equal.
    unfold base_value, push_digit_value. cbn [fold_left]. rewrite (proj2 (hex_digit_spec v Hv)). done. }
  revert z. induction fuel as [|fuel IH]; intros z Hz ds; unfold ds; clear ds.
  - change (16 ^ Z.of_nat 1) with 16 in Hz. cbn [hex_rev]. destruct (Z.ltb_spec z 16); [|lia]. cbn [rev app].
    rewrite Z.mod_small by lia. split_and!; [|exact (Hone [] z ltac:(lia))|done|simpl; lia].
    constructor; [apply hex_digit_spec; lia|constructor].
  - pose proof (Z.mod_pos_bound z 16 ltac:(lia)) as Hm. pose proof (Z.div_mod z 16 ltac:(lia)) as E.
    remember (S fuel) as f eqn:Ef. cbn [hex_rev]. subst f. destruct (Z.ltb_spec z 16).
    + cbn [rev app]. rewrite Z.mod_small by lia. split_and!; [|exact (Hone [] z ltac:(lia))|done|simpl; lia].
      constructor; [apply hex_digit_spec; lia|constructor].
    + rewrite Nat2Z.inj_succ, Z.pow_succ_r in Hz by lia.
      destruct (IH (z / 16)) as (H1 & H2 & H3 & H4).
      { split; [apply Z.div_pos; lia|apply Z.div_lt_upper_bound; lia]. }
      cbn [rev]. split_and!.
      * apply Forall_app_2; [done|]. constructor; [apply hex_digit_spec; lia|constructor].
      * rewrite Hone, H2 by done. lia.
      * intros E'. by apply app_eq_nil in E' as [? ?].
      * intros n Hn. rewrite length_app. cbn [length]. destruct n as [|n].
        { change (16 ^ Z.of_nat 1) with 16 in Hn. lia. }
        rewrite Nat2Z.inj_succ, Z.pow_succ_r in Hn by lia.
        specialize (H4 n ltac:(apply Z.div_lt_upper_bound; lia)). lia.
Qed.

Lemma print_hex_spec z : 0 <= z < 2 ^ 32 →
  Forall (λ c, hex_byte c = true) (print_hex 65 z) ∧ base_value 16 (print_hex 65 z) = z ∧ print_hex 65 z ≠ []
  ∧ (length (print_hex 65 z) <= 8)%nat.
Proof.
  intros Hz. unfold print_hex. destruct (hex_rev_spec (Z.to_nat (Z.log2 z)) z) as (H1 & H2 & H3 & H4).
  - split; [lia|]. rewrite Nat2Z.inj_succ, Z2Nat.id by apply Z.log2_nonneg. destruct (Z.eq_dec z 0) as [->|]; [done|].
    eapply Z.lt_le_trans; [apply (Z.log2_spec z); lia|]. apply Z.pow_le_mono_l. pose proof (Z.log2_nonneg z). lia.
  - split_and!; [done|done|done|]. apply (H4 7%nat). change (16 ^ Z.of_nat 8) with (2 ^ 32). lia.
Qed.

Lemma hex_byte_spec c : hex_byte c = true →
  is_digit_in 16 c = true ∧ isspace c = false ∧ c ≠ C_PLUS ∧ c ≠ C_MINUS ∧ tolower c ≠ 120
  ∧ ends_literal c = false ∧ ends_name c = false ∧ c ≠ 0.
Proof.
  intros H. assert (0 <= c < 256) as Hc.
  { unfold hex_byte in H. apply orb_true_iff in H as [H%isdigit_spec|H%in_range_spec]; lia. }
  assert (is_digit_in 16 c && negb (isspace c) && negb (c =? C_PLUS) && negb (c =? C_MINUS) && negb (tolower c =? 120)
    && negb (ends_literal c) && negb (ends_name c) && negb (c =? 0) = true) as Ha.
  { revert H. apply implies_true. revert c Hc. apply byte_check. vm_compute. reflexivity. }
  rewrite !andb_true_iff, !negb_true_iff, !Z.eqb_neq in Ha. tauto.
Qed.

Lemma strtoll_hex ds : Forall (λ c, hex_byte c = true) ds → ds ≠ [] → is_i64 (base_value 16 ds) →
  fst (fst (strtoll ds 16)) = base_value 16 ds.
Proof.
  intros Hds Hne Hi. destruct (length_pos _ Hne) as (c & l & E). pose proof Hds as Hc. rewrite E in Hc.
  apply list.Forall_cons in Hc as [Hc Hl]. apply hex_byte_spec in Hc as (_ & Hs & Hp & Hm & _ & _).
  unfold strtoll. assert (span isspace ds = ([], ds)) as -> by (rewrite E; by apply span_none).
  assert (c_sign ds = (false, 0%nat, ds)) as ->.
  { rewrite E. unfold c_sign. destruct (Z.eqb_spec c C_MINUS); [done|]. destruct (Z.eqb_spec c C_PLUS); [done|]. done. }
  assert (hex_prefix ds = false) as Hx.
  { rewrite E. destruct l as [|x [|y l]]; try done. apply list.Forall_cons in Hl as [Hx _].
    apply hex_byte_spec in Hx as (_ & _ & _ & _ & Hx & _). unfold hex_prefix. apply Z.eqb_neq in Hx. rewrite Hx.
    by rewrite andb_false_r. }
  rewrite Hx, andb_false_r. cbv iota. rewrite drop_0, span_all.
  - rewrite E at 1. cbn [fst signed]. apply clamp64_id. exact Hi.
  - eapply list.Forall_impl; [exact Hds|]. intros d Hd. by apply hex_byte_spec in Hd as [? _].
Qed.

(** ** Literals after a hash *)

Lemma hash_read fuel D st c l (Q : value → reader → Prop) : D < ESHKOL_READ_MAX_DEPTH → input st = c :: l → c ≠ C_LPAREN →
  (∀ st', input st' = l → yields (read_atom_hash_non_vector (Some c)) st' Q) →
  yields (read_datum (S fuel) D (Some C_HASH)) st Q.
Proof.
  intros HD E Hc HQ. cbn [read_datum]. destruct (Z.leb_spec ESHKOL_READ_MAX_DEPTH D); [lia|].
  change (C_HASH =? C_QUOTE) with false. change (C_HASH =? C_LPAREN) with false. change (C_HASH =? C_DQUOTE) with false.
  change (C_HASH =? C_BAR) with false. change (C_HASH =? C_HASH) with true. cbv iota.
  eapply (yields_bind _ _ _ (λ (ch : option Z) (st' : reader), ch = Some c ∧ input st' = l)); [apply yields_input; by rewrite E|].
  intros ch st' _ [-> E']. cbn [is_char]. destruct (Z.eqb_spec c C_LPAREN); [done|]. by apply HQ.
Qed.

(** The literal ends where a delimiter follows. *)
Lemma literal_ends rest st : delimited rest → input st = rest →
  yields literal_goes_on st (λ (c : option Z) (st' : reader), c = None ∧ input st' = rest).
Proof.
  intros Hr E. apply yields_input. rewrite E. destruct (delimited_ends rest Hr) as (_ & Hl & _).
  destruct rest as [|c rest]; [done|]. cbn [stops] in Hl. apply negb_false_iff in Hl. by rewrite Hl.
Qed.

Lemma literal_goes c l st : ends_literal c = false → input st = c :: l →
  yields literal_goes_on st (λ (x : option Z) (st' : reader), x = Some c ∧ input st' = l).
Proof. intros Hc E. apply yields_input. by rewrite E, Hc. Qed.

Lemma bool_reads_back fuel D (b : bool) rest st : D < ESHKOL_READ_MAX_DEPTH → delimited rest → input st = (if b then 116 else 102) :: rest →
  yields (read_datum (S fuel) D (Some C_HASH)) st (λ v st', input st' = rest ∧ v = Imm TYPE_BOOL (b2z b)).
Proof.
  intros HD Hr E. eapply hash_read; [done|exact E|by destruct b|]. intros st' E'.
  destruct b; (eapply yields_bind; [by apply literal_ends|]; intros c st'' _ [-> E'']; by apply yields_ret).
Qed.

(** Reading [c1], [c2] and [more] after the backslash. *)
Lemma char_name_reads fuel D c1 c2 more rest st : D < ESHKOL_READ_MAX_DEPTH → delimited rest →
  ends_literal c2 = false → Forall (λ c, ends_name c = false) more → (length more <= 29)%nat →
  input st = C_BACKSLASH :: c1 :: c2 :: more ++ rest →
  yields (read_datum (S fuel) D (Some C_HASH)) st
    (λ v st', input st' = rest ∧ v = make_char_tagged (default c1 (char_name (c1 :: c2 :: more)))).
Proof.
  intros HD Hr Hc2 Hm Hl E. eapply hash_read; [done|exact E|done|]. intros st1 E1.
  change (yields read_char_literal st1 (λ v st', input st' = rest ∧ v = make_char_tagged (default c1 (char_name (c1 :: c2 :: more))))).
  eapply (yields_bind _ _ _ (λ (c : option Z) (st' : reader), c = Some c1 ∧ input st' = c2 :: more ++ rest)); [apply yields_input; by rewrite E1|].
  intros c st2 _ [-> E2]. eapply yields_bind; [by apply (literal_goes c2 (more ++ rest))|]. intros x st3 _ [-> E3].
  eapply (yields_bind _ _ _ (λ (m : bytes) (st' : reader), m = more ∧ input st' = rest)).
  - apply yields_input. rewrite E3, span_n_app; [done| |done|apply delimited_ends, Hr].
    eapply list.Forall_impl; [exact Hm|]. intros c Hc. by rewrite Hc.
  - intros m st4 _ [-> E4]. by apply yields_ret.
Qed.

Lemma char_reads_back fuel D raw rest st : 0 <= raw < 2 ^ 31 → D < ESHKOL_READ_MAX_DEPTH → delimited rest →
  C_HASH :: input st = display_char true raw ++ rest →
  yields (read_datum (S fuel) D (Some C_HASH)) st (λ v st', input st' = rest ∧ v = Imm ESHKOL_VALUE_CHAR raw).
Proof.
  intros Hraw HD Hr E. unfold display_char in E. cbn [negb] in E.
  assert (Hnamed : ∀ c1 c2 more, ends_literal c2 = false → Forall (λ c, ends_name c = false) more → (length more <= 29)%nat →
    char_name (c1 :: c2 :: more) = Some raw → C_HASH :: input st = (C_HASH :: C_BACKSLASH :: c1 :: c2 :: more) ++ rest →
    yields (read_datum (S fuel) D (Some C_HASH)) st (λ v st', input st' = rest ∧ v = Imm ESHKOL_VALUE_CHAR raw)).
  { intros c1 c2 more H1 H2 H3 H4 [= H5]. eapply yields_impl; [by apply (char_name_reads fuel D c1 c2 more rest)|].
    intros v st' _ [Ei ->]. split; [done|]. rewrite H4. unfold make_char_tagged. cbn [default]. unfold id. rewrite i32_id by lia. done. }
  destruct (Z.eqb_spec raw C_SPACE) as [->|]; [by apply (Hnamed 115 112 (lit "ace")); [|repeat constructor|vm_compute; lia| |]|].
  destruct (Z.eqb_spec raw C_NEWLINE) as [->|]; [by apply (Hnamed 110 101 (lit "wline")); [|repeat constructor|vm_compute; lia| |]|].
  destruct (Z.eqb_spec raw C_TAB) as [->|]; [by apply (Hnamed 116 97 (lit "b")); [|repeat constructor|vm_compute; lia| |]|].
  destruct (Z.eqb_spec raw C_RETURN) as [->|]; [by apply (Hnamed 114 101 (lit "turn")); [|repeat constructor|vm_compute; lia| |]|].
  destruct (Z.eqb_spec raw 0) as [->|]; [by apply (Hnamed 110 117 (lit "ll")); [|repeat constructor|vm_compute; lia| |]|].
  destruct (_ && _) eqn:Hp.
  - apply andb_true_iff in Hp as [Hp1%Z.ltb_lt Hp2%Z.leb_le]. injection E as E.
    eapply hash_read; [done|exact E|done|]. intros st1 E1.
    change (yields read_char_literal st1 (λ v st', input st' = rest ∧ v = Imm ESHKOL_VALUE_CHAR raw)).
    eapply (yields_bind _ _ _ (λ (c : option Z) (st' : reader), c = Some raw ∧ input st' = rest)); [apply yields_input; by rewrite E1|].
    intros c st2 _ [-> E2]. eapply yields_bind; [by apply literal_ends|]. intros x st3 _ [-> E3]. apply yields_ret.
    split; [done|]. unfold make_char_tagged. by rewrite i32_id by lia.
  - destruct (print_hex_spec raw ltac:(lia)) as (Hh & Hv & Hne & Hl).
    destruct (print_hex 65 raw) as [|h hs] eqn:Eh; [done|]. pose proof Hh as Hh'. apply list.Forall_cons in Hh' as [Hh1 Hhs].
    apply (Hnamed 120 h hs).
    + by apply hex_byte_spec in Hh1 as (_ & _ & _ & _ & _ & ? & _).
    + eapply list.Forall_impl; [exact Hhs|]. intros c Hc. by apply hex_byte_spec in Hc as (_ & _ & _ & _ & _ & _ & ? & _).
    + simpl in Hl. lia.
    + unfold char_name. rewrite c_string_id.
      2:{ constructor; [lia|]. eapply list.Forall_impl; [exact Hh|]. intros c Hc. by apply hex_byte_spec in Hc as (_ & _ & _ & _ & _ & _ & _ & ?). }
      do 5 (rewrite bool_decide_eq_false_2 by (intros E'; discriminate E')).
      change (char_at (120 :: h :: hs) 0 =? 120) with true. cbv iota. cbn [drop].
      change (drop 1 (120 :: h :: hs)) with (h :: hs). rewrite strtoll_hex; [|done|done|rewrite Hv; unfold is_i64; lia].
      rewrite Hv, i32_id by lia. done.
    + exact E.
Qed.
