(* ===== verification/ReadWriteSpec.v ===== *)
(** * ReadWriteSpec: [read] after [write]

    The values [write] prints so that [read] rebuilds them, by induction on the
    value.  Addresses are erased: reading allocates new objects. *)

From S2P Require Export TokenSpec.
Local Open Scope Z_scope.

(** A value without the identity of its objects. *)
Fixpoint unaddressed (v : value) : value :=
  match v with
  | Cons _ _ x y => Cons false 0 (unaddressed x) (unaddressed y)
  | Str _ _ s => Str false 0 s
  | Sym _ s => Sym 0 s
  | Rat _ r => Rat 0 r
  | Vec _ l => Vec 0 (map unaddressed l)
  | v => v
  end.

(** The atoms that are read back. *)
Definition atom_ok (v : value) : Prop :=
  match v with
  | Imm ty raw =>
      (ty = ESHKOL_VALUE_NULL ∧ raw = 0) ∨ (ty = TYPE_BOOL ∧ (raw = 0 ∨ raw = 1)) ∨ (ty = ESHKOL_VALUE_CHAR ∧ 0 <= raw < 2 ^ 31)
  | Int64 n => is_i64 n
  | Double d => is_finite d = true ∧ is_double d ∧ has_marker (eshkol_fprint_double d) = true
  | Str false _ s => Z.of_nat (String.length s) <= 1024 * 1024
  | Sym _ s => symbol_ok s
  | Rat _ r => canonical r ∧ is_big r = false ∧ rden r ≠ 1
  | _ => False
  end.

(** [d] is the depth of the writer and [D] the one of the reader. *)
Fixpoint writable (d D : Z) (v : value) {struct v} : Prop :=
  d <= 100 ∧ D < ESHKOL_READ_MAX_DEPTH ∧
  match v with
  | Cons _ _ _ _ =>
      (fix cells (cur : value) {struct cur} : Prop :=
         match cur with
         | Cons _ _ car cdr =>
             writable (d + 1) (D + 1) car ∧
             match cdr with
             | Cons _ _ _ _ => cells cdr
             | _ => cdr = vnull ∨ (is_empty_list cdr = false ∧ writable (d + 1) (D + 1) cdr)
             end
         | _ => False
         end) v
  | Vec _ l =>
      Z.of_nat (length l) <= 10000 ∧
      (fix all (l : list value) : Prop := match l with [] => True | x :: l => writable d (D + 1) x ∧ all l end) l
  | v => atom_ok v
  end.

(** The cells of a list: its elements, and the tail of the last one. *)
Fixpoint cells_ok (d D : Z) (cur : value) : Prop :=
  match cur with
  | Cons _ _ car cdr =>
      writable d D car ∧
      match cdr with Cons _ _ _ _ => cells_ok d D cdr | _ => cdr = vnull ∨ (is_empty_list cdr = false ∧ writable d D cdr) end
  | _ => False
  end.

Lemma writable_cons d D l a x y : writable d D (Cons l a x y) ↔
  d <= 100 ∧ D < ESHKOL_READ_MAX_DEPTH ∧ cells_ok (d + 1) (D + 1) (Cons l a x y).
Proof.
  cbn [writable cells_ok]. apply and_iff_compat_l, and_iff_compat_l, and_iff_compat_l.
  induction y as [| | | | | |l' a' x' _ y' IH| | | | | | | | | |]; try done.
  cbn [cells_ok]. by apply and_iff_compat_l.
Qed.

Lemma writable_vec d D a l : writable d D (Vec a l) ↔
  d <= 100 ∧ D < ESHKOL_READ_MAX_DEPTH ∧ Z.of_nat (length l) <= 10000 ∧ Forall (writable d (D + 1)) l.
Proof.
  cbn [writable]. do 3 apply and_iff_compat_l. induction l as [|x l IH]; [by split|]. by rewrite list.Forall_cons, IH.
Qed.

(** ** A text that comes back *)

(** [read], given the first byte of [t] and the rest as input, rebuilds [v]
    and leaves what follows. *)
Definition comes_back (t : bytes) (D : Z) (v : value) : Prop :=
  ∃ c l, t = c :: l ∧ starts_datum c l ∧
    ∀ fuel rest st, delimited rest → input st = l ++ rest → (2 * length (input st) + 2 <= fuel)%nat →
      yields (read_datum fuel D (Some c)) st (λ v' st', input st' = rest ∧ unaddressed v' = unaddressed v).

Lemma token_comes_back c l D v : D < ESHKOL_READ_MAX_DEPTH → starts_token c = true → starts_datum c l →
  Forall (λ c, token_byte c = true) l → (length l <= 254)%nat →
  (∀ st', yields (token_value (c :: l)) st' (λ v' st'', input st'' = input st' ∧ unaddressed v' = unaddressed v)) →
  comes_back (c :: l) D v.
Proof.
  intros HD Hc Hs Hl Hn Hv. exists c, l. split; [done|]. split; [done|]. intros [|fuel] rest st Hr E Hf; [lia|].
  by eapply (token_read fuel D c l rest st (λ v', unaddressed v' = unaddressed v)).
Qed.

Lemma number_comes_back neg ds r D v : D < ESHKOL_READ_MAX_DEPTH → digits ds → ds ≠ [] →
  Forall (λ c, token_byte c = true) (minus_text neg ++ ds ++ r) → (length (minus_text neg ++ ds ++ r) <= 255)%nat →
  (∀ st', yields (token_value (minus_text neg ++ ds ++ r)) st' (λ v' st'', input st'' = input st' ∧ unaddressed v' = unaddressed v)) →
  comes_back (minus_text neg ++ ds ++ r) D v.
Proof.
  intros HD Hds Hne Hb Hl Hv. destruct (number_start neg ds r Hds Hne) as (c & l & E & Hc). rewrite E in *.
  destruct (number_starts_token c Hc) as (H1 & H2 & H3 & H4 & H5). apply list.Forall_cons in Hb as [_ Hb]. simpl in Hl.
  apply token_comes_back; [done|done| |done|lia|done]. by split_and!.
Qed.

Lemma int_length n : is_i64 n → (length (print_int n) <= 20)%nat.
Proof.
  intros Hn. destruct (print_int_minus n) as (ds & -> & _ & _ & _ & H). rewrite length_app.
  specialize (H 18%nat). assert (Z.abs n < 10 ^ Z.of_nat 19) as Ha by (revert Hn; clear; unfold is_i64; lia).
  specialize (H Ha). destruct (n <? 0); simpl; lia.
Qed.

Lemma int_comes_back n D : is_i64 n → D < ESHKOL_READ_MAX_DEPTH → comes_back (print_int n) D (Int64 n).
Proof.
  intros Hn HD. pose proof (int_length n Hn) as Hl. pose proof (int_token n) as Ht.
  assert (Hv : ∀ st', yields (token_value (print_int n)) st' (λ v' st'', input st'' = input st' ∧ unaddressed v' = Int64 n)).
  { intros st'. eapply yields_impl; [by apply token_int|]. by intros v' st'' _ [? ->]. }
  destruct (print_int_minus n) as (ds & E & Hds & Hne & _). rewrite <- (app_nil_r ds) in E. rewrite E in *.
  apply number_comes_back; [done|done|done|done|lia|done].
Qed.

Lemma double_comes_back x D : is_finite x = true → is_double x → has_marker (eshkol_fprint_double x) = true →
  D < ESHKOL_READ_MAX_DEPTH → comes_back (eshkol_fprint_double x) D (Double x).
Proof.
  intros Hf Hx Hm HD. unfold eshkol_fprint_double, eshkol_format_double in *.
  assert (∃ s a frac ex, eshkol_dtoa_shortest 64 x = decimal_text s a frac ex ∧ decimal_ok a frac ex
    ∧ (length (decimal_text s a frac ex) <= 24)%nat
    ∧ round_power s (base_value 10 (a ++ default [] frac)) 10 (exp_value ex - Z.of_nat (length (default [] frac))) = x)
    as (s & a & frac & ex & E & Hok & Hl & Hr).
  { destruct x as [s|s| |s m e]; [|done|done|].
    - destruct s; [|by vm_compute in Hm].
      exists true, [C_ZERO], (Some [C_ZERO]), None. vm_compute. split_and!; try done; [|lia]. split; try done; by repeat constructor.
    - destruct (dtoa_literal 64 s m e Hx ltac:(lia)) as (a & frac & ex & H). by exists s, a, frac, ex. }
  rewrite E in *.
  assert (Hmark : frac ≠ None ∨ ex ≠ None).
  { destruct frac; [by left|]. destruct ex; [by right|]. exfalso.
    destruct (literal_marker s a None None Hok) as [_ H]. rewrite H in Hm by done. done. }
  pose proof (literal_token s a frac ex Hok) as Ht. pose proof Hok as [Ha Hne _ _].
  apply number_comes_back; [done|done|done|done|change (length (decimal_text s a frac ex) <= 255)%nat; lia|].
  intros st'. eapply yields_impl; [by apply (token_double s a frac ex)|].
  intros v' st'' _ [Ei ->]. by rewrite Hr.
Qed.

Lemma rational_comes_back a r D : canonical r → is_big r = false → rden r ≠ 1 → D < ESHKOL_READ_MAX_DEPTH →
  comes_back (eshkol_rational_display r) D (Rat a r).
Proof.
  intros Hc Hb Hd HD.
  assert (Hv : ∀ st', yields (token_value (eshkol_rational_display r)) st' (λ v' st'', input st'' = input st' ∧ unaddressed v' = Rat 0 r)).
  { intros st'. eapply yields_impl; [by apply token_rational|]. by intros v' st'' _ (? & a' & ->). }
  destruct (small_fields r Hc Hb) as (_ & Ed & Hn & Hdi & Hp). unfold eshkol_rational_display in *. rewrite Hb in *.
  destruct (Z.eqb_spec (denominator r) 1); [congruence|].
  pose proof (int_length _ Hn) as L1. pose proof (int_length _ Hdi) as L2.
  pose proof (int_token (numerator r)) as T1. pose proof (int_token (denominator r)) as T2.
  destruct (print_int_minus (numerator r)) as (ds & E & Hds & Hne & _). rewrite E in *. rewrite <- app_assoc in *.
  apply number_comes_back; [done|done|done| | |done].
  - rewrite app_assoc. apply Forall_app_2; [done|]. by constructor.
  - rewrite app_assoc, length_app. simpl. lia.
Qed.

Lemma hash_starts l : starts_datum C_HASH l.
Proof. by split_and!. Qed.

Lemma null_comes_back D : D < ESHKOL_READ_MAX_DEPTH → comes_back (lit "()") D vnull.
Proof.
  intros HD. exists C_LPAREN, [C_RPAREN]. split; [done|]. split; [by split_and!|]. intros fuel rest st Hr E Hf.
  destruct fuel as [|[|fuel]]; [lia|lia|]. cbn [read_datum]. destruct (Z.leb_spec ESHKOL_READ_MAX_DEPTH D); [lia|].
  change (C_LPAREN =? C_QUOTE) with false. change (C_LPAREN =? C_LPAREN) with true. cbv iota. cbn [list_loop].
  eapply (yields_bind _ _ _ (λ (ch : option Z) (st' : reader), ch = Some C_RPAREN ∧ input st' = rest)).
  - apply yields_input. by rewrite E.
  - intros ch st' _ [-> E']. by apply yields_ret.
Qed.

Lemma bool_comes_back (b : bool) D : D < ESHKOL_READ_MAX_DEPTH → comes_back (lit (if b then "#t" else "#f")) D (Imm TYPE_BOOL (b2z b)).
Proof.
  intros HD. exists C_HASH, [if b then 116 else 102]. split; [by destruct b|]. split; [apply hash_starts|].
  intros [|fuel] rest st Hr E Hf; [lia|]. eapply yields_impl; [by apply (bool_reads_back fuel D b rest)|].
  by intros v' st' _ [? ->].
Qed.

Lemma char_comes_back raw D : 0 <= raw < 2 ^ 31 → D < ESHKOL_READ_MAX_DEPTH →
  comes_back (display_char true raw) D (Imm ESHKOL_VALUE_CHAR raw).
Proof.
  intros Hr HD. assert (∃ l, display_char true raw = C_HASH :: l) as [l El].
  { unfold display_char. cbn [negb]. repeat case_match; eexists; reflexivity. }
  exists C_HASH, l. split; [done|]. split; [apply hash_starts|]. intros [|fuel] rest st Hd E Hf; [lia|].
  eapply yields_impl; [apply (char_reads_back fuel D raw rest); [done|done|done|by rewrite El, E]|].
  by intros v' st' _ [? ->].
Qed.

Lemma string_comes_back a s D : Z.of_nat (String.length s) <= 1024 * 1024 → D < ESHKOL_READ_MAX_DEPTH →
  comes_back (write_escaped_string (text_bytes s)) D (Str false a s).
Proof.
  intros Hs HD. eexists C_DQUOTE, _. split; [reflexivity|]. split; [by split_and!|]. intros [|fuel] rest st Hd E Hf; [lia|].
  eapply yields_impl; [apply (string_reads_back fuel D s rest); [done|done|by rewrite E]|].
  by intros v' st' _ (? & a' & ->).
Qed.

Lemma symbol_comes_back a s D : symbol_ok s → D < ESHKOL_READ_MAX_DEPTH →
  comes_back (write_symbol_name (c_bytes s)) D (Sym a s).
Proof.
  intros Hs HD. rewrite c_bytes_no_nul by apply Hs.
  destruct (write_symbol_name (text_bytes s)) as [|c l] eqn:E.
  { exfalso. destruct (text_bytes s) as [|x t] eqn:Et; [by vm_compute in E|]. unfold write_symbol_name in E.
    by destruct (negb _). }
  exists c, l. split; [done|].
  split; [apply (symbol_reads_back 0 D s [] (Reader l 0 ∅) c l Hs HD I E); by rewrite app_nil_r|].
  intros [|fuel] rest st Hd Ei Hf; [lia|].
  eapply yields_impl; [by apply (symbol_reads_back fuel D s rest st c l)|].
  by intros v' st' _ (? & a' & ->).
Qed.

(** ** Containers *)

Definition list_of (elems : list value) (tail : value) : value := foldr (Cons false 0) tail elems.

Lemma conses_unaddressed elems tail st :
  yields (conses elems tail) st (λ v st', input st' = input st ∧ unaddressed v = list_of (map unaddressed elems) (unaddressed tail)).
Proof.
  induction elems as [|x l IH]; [by apply yields_ret|]. cbn [conses].
  eapply yields_bind; [exact IH|]. intros r st1 _ [E1 Hr].
  eapply yields_bind; [apply yields_allocate|]. intros a st2 _ [E2 _]. apply yields_ret. cbn. rewrite Hr. split; [congruence|done].
Qed.

(** Blanks before a datum, and before a closing parenthesis. *)
Lemma skip_to c l st : is_ws c = false → c ≠ C_SEMICOLON → input st = c :: l ∨ input st = C_SPACE :: c :: l →
  yields read_skip_whitespace st (λ ch st', ch = Some c ∧ input st' = l).
Proof.
  intros Hw Hs E. apply yields_input.
  assert (Hc : skip_whitespace false (c :: l) = (Some c, l)).
  { cbn [skip_whitespace]. destruct (Z.eqb_spec c C_SEMICOLON); [done|]. by rewrite Hw. }
  destruct E as [-> | ->]; [by rewrite Hc|].
  change (skip_whitespace false (C_SPACE :: c :: l)) with (skip_whitespace false (c :: l)). by rewrite Hc.
Qed.

Lemma sentinel_unaddressed v : is_sentinel (unaddressed v) = is_sentinel v.
Proof. unfold is_sentinel. by destruct v as [| | | | | |[]|[]| | | | | | | | |]. Qed.

Lemma writable_no_sentinel d D v : writable d D v → is_sentinel v = false.
Proof.
  intros H. destruct v as [ty raw| | | | | |[]|[]| | | | | | | | |]; try done.
  destruct H as (_ & _ & [[-> _]|[[-> _]|[-> _]]]); done.
Qed.

(** A datum that comes back, read where the loops read one. *)
Lemma element_reads t D v fuel rest st c l : comes_back t D v → t = c :: l → delimited rest →
  input st = l ++ rest → (2 * length (input st) + 2 <= fuel)%nat → is_sentinel v = false →
  yields (read_datum fuel D (Some c)) st (λ v' st', input st' = rest ∧ unaddressed v' = unaddressed v ∧ is_sentinel v' = false).
Proof.
  intros (c' & l' & -> & _ & H) [= -> ->] Hr E Hf Hs. eapply yields_impl; [by apply (H fuel rest)|].
  intros v' st' _ [Ei Hv]. split_and!; [done|done|]. rewrite <- sentinel_unaddressed, Hv, sentinel_unaddressed. exact Hs.
Qed.

Lemma starts_app c l r : starts_datum c l → starts_datum c (l ++ r).
Proof. intros (H1 & H2 & H3 & H4). split_and!; [done|done|done|]. intros E. specialize (H4 E). by destruct l. Qed.

(** *** Lists *)

(** The elements left to read, then the closing parenthesis. *)
Definition cells_back (t : bytes) (D : Z) (cur : value) : Prop :=
  ∃ c l, t = c :: l ∧ starts_datum c l ∧
    ∀ fuel elems rest st, input st = c :: l ++ C_RPAREN :: rest → (2 * length (input st) + 1 <= fuel)%nat →
      yields (list_loop fuel D elems) st (λ v st', input st' = rest ∧
        unaddressed v = list_of (map unaddressed elems) (unaddressed cur)).

Lemma list_of_snoc elems x tail : list_of (map unaddressed (elems ++ [x])) tail =
  list_of (map unaddressed elems) (Cons false 0 (unaddressed x) tail).
Proof. unfold list_of. by rewrite map_app, foldr_app. Qed.

Lemma delimited_paren rest : delimited (C_RPAREN :: rest).
Proof. reflexivity. Qed.
Lemma delimited_space rest : delimited (C_SPACE :: rest).
Proof. reflexivity. Qed.

(** The parenthesis ends the list. *)
Lemma list_ends fuel D elems rest st : input st = C_RPAREN :: rest → (1 <= fuel)%nat →
  yields (list_loop fuel D elems) st (λ v st', input st' = rest ∧ unaddressed v = list_of (map unaddressed elems) vnull).
Proof.
  intros E Hf. destruct fuel as [|fuel]; [lia|]. cbn [list_loop].
  eapply yields_bind; [apply (skip_to C_RPAREN rest); [done|done|by left]|]. intros ch st1 _ [-> E1].
  change (C_RPAREN =? C_RPAREN) with true. cbv iota. eapply yields_impl; [apply conses_unaddressed|].
  intros v st2 _ [Ei Hv]. split; [congruence|done].
Qed.

(** The step of [list_loop] after an element. *)
Definition after_element (fuel : nat) (D : Z) (elems : list value) : rd value :=
  ch ← read_skip_whitespace;
  if is_char ch C_DOT then
    next ← fgetc;
    if (match next with Some n => is_ws n | None => false end) then
      ch2 ← read_skip_whitespace; cdr ← read_datum fuel D ch2; _ ← read_skip_whitespace; conses elems cdr
    else ungetc next ;; ungetc (Some C_DOT) ;; list_loop fuel D elems
  else ungetc ch ;; list_loop fuel D elems.

Lemma after_null fuel D elems rest st : input st = C_RPAREN :: rest → (1 <= fuel)%nat →
  yields (after_element fuel D elems) st (λ v st', input st' = rest ∧ unaddressed v = list_of (map unaddressed elems) vnull).
Proof.
  intros E Hf. eapply yields_bind; [apply (skip_to C_RPAREN rest); [done|done|by left]|]. intros ch st1 _ [-> E1].
  cbn [is_char]. change (C_RPAREN =? C_DOT) with false. cbv iota.
  eapply yields_bind; [apply yields_ungetc|]. intros [] st2 _ E2. apply list_ends; [|done]. rewrite E2, E1. done.
Qed.

Lemma after_next fuel D elems rest st c l cur : cells_back (c :: l) D cur → input st = C_SPACE :: c :: l ++ C_RPAREN :: rest →
  (2 * length (input st) <= fuel)%nat →
  yields (after_element fuel D elems) st (λ v st', input st' = rest ∧
    unaddressed v = list_of (map unaddressed elems) (unaddressed cur)).
Proof.
  intros (c' & l' & [= <- <-] & (Hw & Hsc & _ & Hdot) & H) E Hf.
  eapply yields_bind; [apply (skip_to c (l ++ C_RPAREN :: rest)); [done|done|by right]|]. intros ch st1 _ [-> E1].
  assert (Hl : (2 * length (c :: l ++ C_RPAREN :: rest) + 1 <= fuel)%nat) by (rewrite E in Hf; simpl in *; lia).
  cbn [is_char]. destruct (Z.eqb_spec c C_DOT) as [->|Hc].
  - specialize (Hdot eq_refl). destruct l as [|n l]; [done|].
    eapply yields_bind; [apply yields_fgetc|]. intros next st2 _ [E2 Hn]. rewrite E1 in E2.
    destruct next as [n'|]; [|by rewrite (Hn eq_refl) in E2].
    injection E2 as <- E2. rewrite Hdot.
    eapply yields_bind; [apply yields_ungetc|]. intros [] st3 _ E3. cbn [pushed] in E3.
    eapply yields_bind; [apply yields_ungetc|]. intros [] st4 _ E4. cbn [pushed] in E4.
    assert (input st4 = C_DOT :: (n :: l) ++ C_RPAREN :: rest) as E5 by (rewrite E4, E3, <- E2; done).
    apply H; [exact E5|by rewrite E5].
  - eapply yields_bind; [apply yields_ungetc|]. intros [] st2 _ E2. cbn [pushed] in E2. rewrite E1 in E2.
    apply H; [exact E2|by rewrite E2].
Qed.

Lemma after_tail fuel D elems rest st t tail : comes_back t D tail → is_sentinel tail = false →
  input st = lit " . " ++ t ++ C_RPAREN :: rest → (2 * length (input st) <= fuel)%nat →
  yields (after_element fuel D elems) st (λ v st', input st' = rest ∧
    unaddressed v = list_of (map unaddressed elems) (unaddressed tail)).
Proof.
  intros Ht Hs E Hf. pose proof Ht as (c & l & -> & (Hw & Hsc & _) & _).
  eapply yields_bind; [apply (skip_to C_DOT (C_SPACE :: (c :: l) ++ C_RPAREN :: rest)); [done|done|by right]|]. intros ch st1 _ [-> E1].
  change (is_char (Some C_DOT) C_DOT) with true. cbv iota.
  eapply yields_bind; [apply yields_fgetc|]. intros next st2 _ [E2 Hn]. rewrite E1 in E2.
  destruct next as [n|]; [|by rewrite (Hn eq_refl) in E2]. injection E2 as <- E2. change (is_ws C_SPACE) with true. cbv iota.
  eapply yields_bind; [apply (skip_to c (l ++ C_RPAREN :: rest)); [done|done|by left]|]. intros ch st3 _ [-> E3].
  eapply yields_bind; [apply (element_reads (c :: l) D tail _ (C_RPAREN :: rest) _ c l); [done|done|done|done| |done]|].
  { rewrite E3. rewrite E in Hf. simpl in *. rewrite length_app in *. simpl in *. lia. }
  intros cdr st4 _ (E4 & Hc & _).
  eapply yields_bind; [apply (skip_to C_RPAREN rest); [done|done|by left]|]. intros ch st5 _ [_ E5].
  eapply yields_impl; [apply conses_unaddressed|]. intros v st6 _ [E6 Hv]. rewrite E6, E5, Hv, Hc. done.
Qed.

(** One turn of the loop. *)
Lemma list_turn t D x sep fuel elems rest st c l (Q : value → reader → Prop) :
  comes_back t D x → is_sentinel x = false → t = c :: l → delimited (sep ++ rest) →
  input st = c :: l ++ sep ++ rest → (2 * length (input st) + 1 <= fuel)%nat →
  (∀ fuel' x' st', unaddressed x' = unaddressed x → input st' = sep ++ rest → (2 * length (input st') + 2 <= fuel')%nat →
    yields (after_element fuel' D (elems ++ [x'])) st' Q) →
  yields (list_loop fuel D elems) st Q.
Proof.
  intros Hx Hsx -> Hd E Hf HQ. pose proof Hx as (c' & l' & [= <- <-] & (Hw & Hsc & Hp & _) & _).
  destruct fuel as [|fuel]; [lia|]. cbn [list_loop].
  eapply yields_bind; [apply (skip_to c (l ++ sep ++ rest)); [done|done|by left]|]. intros ch st1 _ [-> E1].
  destruct (Z.eqb_spec c C_RPAREN); [done|]. rewrite E in Hf. cbn [length] in Hf.
  eapply yields_bind; [apply (element_reads (c :: l) D x _ (sep ++ rest) _ c l); [done|done|done|done|rewrite E1, length_app; rewrite length_app in Hf; lia|done]|].
  intros x' st2 _ (E2 & Hx' & Hs). rewrite Hs. apply HQ; [done|done|]. rewrite E2. rewrite length_app in Hf. lia.
Qed.

(** *** Vectors *)

Lemma spaced_cons t ts : spaced (t :: ts) = t ++ concat (map (λ y, C_SPACE :: y) ts).
Proof. reflexivity. Qed.

Lemma delimited_concat (ts : list bytes) rest : delimited (concat (map (λ y, C_SPACE :: y) ts) ++ C_RPAREN :: rest).
Proof. by destruct ts. Qed.

Lemma vector_ends fuel D elems rest st : input st = C_RPAREN :: rest → (1 <= fuel)%nat →
  yields (vector_loop fuel D elems) st (λ v st', input st' = rest ∧ unaddressed v = Vec 0 (map unaddressed elems)).
Proof.
  intros E Hf. destruct fuel as [|fuel]; [lia|]. cbn [vector_loop].
  eapply yields_bind; [apply (skip_to C_RPAREN rest); [done|done|by left]|]. intros ch st1 _ [-> E1].
  change (C_RPAREN =? C_RPAREN) with true. cbv iota. eapply yields_bind; [apply yields_allocate|].
  intros a st2 _ [E2 _]. apply yields_ret. split; [congruence|done].
Qed.

(** The elements left, each after a blank but the first. *)
Lemma vector_reads D l ts : Forall2 (λ x t, comes_back t D x ∧ is_sentinel x = false) l ts →
  ∀ fuel elems rest st (blank : bytes), blank = [] ∨ blank = [C_SPACE] ∧ l ≠ [] →
    input st = blank ++ spaced ts ++ C_RPAREN :: rest → (2 * length (input st) + 1 <= fuel)%nat →
    yields (vector_loop fuel D elems) st (λ v st', input st' = rest ∧ unaddressed v = Vec 0 (map unaddressed (elems ++ l))).
Proof.
  induction 1 as [|x t l ts [Hx Hs] Hts IH]; intros fuel elems rest st blank Hb E Hf.
  - destruct Hb as [->|[_ ?]]; [|done]. rewrite app_nil_r. apply vector_ends; [done|lia].
  - pose proof Hx as (c & u & -> & (Hw & Hsc & Hp & _) & _). rewrite spaced_cons, <- app_assoc in E.
    destruct fuel as [|fuel]; [lia|]. cbn [vector_loop].
    set (more := concat (map (λ y, C_SPACE :: y) ts) ++ C_RPAREN :: rest) in *.
    eapply yields_bind; [apply (skip_to c (u ++ more)); [done|done|destruct Hb as [->|[-> _]]; [by left|by right]]|].
    intros ch st1 _ [-> E1]. destruct (Z.eqb_spec c C_RPAREN); [done|].
    assert (Hl : (2 * S (length (u ++ more)) <= fuel)%nat).
    { rewrite E, !length_app in Hf. rewrite length_app. simpl in Hf. lia. }
    eapply yields_bind; [apply (element_reads (c :: u) D x _ more _ c u); [done|done|apply delimited_concat|done|rewrite E1; lia|done]|].
    intros x' st2 _ (E2 & Hx' & Hs'). rewrite Hs'.
    assert (Hv : map unaddressed (elems ++ x :: l) = map unaddressed ((elems ++ [x']) ++ l)).
    { rewrite <- app_assoc, !map_app. cbn. by rewrite Hx'. }
    rewrite Hv. rewrite length_app in Hl.
    apply (IH fuel (elems ++ [x']) rest st2 (match ts with [] => [] | _ => [C_SPACE] end)).
    + destruct Hts; [by left|by right].
    + rewrite E2. unfold more. destruct ts as [|t' ts]; [done|]. cbn [map concat]. by rewrite spaced_cons, <- !app_assoc.
    + rewrite E2. lia.
Qed.

(** ** What [write] prints *)

Section writer_text.
Context (e : engine) (fileno : Z → Z) (print_foreign : Z → Z → bytes).
Notation text := (eshkol_display_value_opts e fileno print_foreign (DisplayOpts 100 true false)).

(** The cells of a list between its parentheses. *)
Fixpoint cells_text (d : Z) (cur : value) : bytes :=
  match cur with
  | Cons _ _ car cdr =>
      text d car ++
      match cdr with
      | Cons _ _ _ _ => C_SPACE :: cells_text d cdr
      | _ => if is_empty_list cdr then [] else lit " . " ++ text d cdr
      end
  | _ => []
  end.

Lemma display_cells_text d v first : display_cells (text d) v first =
  match v with Cons _ _ _ _ => (if first : bool then [] else [C_SPACE]) ++ cells_text d v | _ => [] end.
Proof.
  revert first. induction v as [| | | | | |l a x _ y IH| | | | | | | | | |] using value_ind; intros first; try done.
  cbn [display_cells cells_text]. f_equal. f_equal. destruct y; try done.
Qed.

Lemma list_text d l a x y : d <= 100 →
  text d (Cons l a x y) = [C_LPAREN] ++ cells_text (d + 1) (Cons l a x y) ++ [C_RPAREN].
Proof.
  intros Hd. cbn [eshkol_display_value_opts max_depth]. destruct (Z.ltb_spec 100 d); [lia|].
  by rewrite display_cells_text.
Qed.

Lemma vector_text d a l : d <= 100 → Z.of_nat (length l) <= 10000 →
  text d (Vec a l) = [C_HASH; C_LPAREN] ++ spaced (map (text d) l) ++ [C_RPAREN].
Proof.
  intros Hd Hl. cbn [eshkol_display_value_opts max_depth]. destruct (Z.ltb_spec 100 d); [lia|].
  destruct (Z.ltb_spec 10000 (Z.of_nat (length l))); [lia|]. done.
Qed.

Lemma atom_comes_back d D v : writable d D v → match v with Cons _ _ _ _ | Vec _ _ => True | _ => comes_back (text d v) D v end.
Proof.
  intros Hv. destruct v as [ty raw|n|x| | | |l a x y|[] a s|a s| |a r|a l| | | | |]; try done;
    destruct Hv as (Hd & HD & Hv); cbn [eshkol_display_value_opts max_depth]; destruct (Z.ltb_spec 100 d); try lia; cbn [atom_ok] in Hv; try done.
  - destruct Hv as [[-> ->]|[[-> Hr]|[-> Hr]]].
    + by apply null_comes_back.
    + destruct Hr as [-> | ->]; [apply (bool_comes_back false D HD)|apply (bool_comes_back true D HD)].
    + assert (u32 raw = raw) as E by (unfold u32; apply Z.mod_small; lia).
      change (comes_back (display_char true (u32 raw)) D (Imm ESHKOL_VALUE_CHAR raw)). rewrite E. by apply char_comes_back.
  - by apply int_comes_back.
  - destruct Hv as (? & ? & ?). by apply double_comes_back.
  - by apply string_comes_back.
  - by apply symbol_comes_back.
  - destruct Hv as (? & ? & ?). by apply rational_comes_back.
Qed.

(** A list's cells, from what is known of its first element and of the rest. *)
Lemma cells_come_back d D leg a x y : cells_ok d D (Cons leg a x y) →
  comes_back (text d x) D x → (writable d D y → comes_back (text d y) D y) →
  (cells_ok d D y → cells_back (cells_text d y) D y) →
  cells_back (cells_text d (Cons leg a x y)) D (Cons leg a x y).
Proof.
  intros [Hx Hy] Bx By Cy. pose proof (writable_no_sentinel _ _ _ Hx) as Hsx.
  pose proof Bx as (c & l & Et & Hst & _).
  assert (∃ sep, cells_text d (Cons leg a x y) = c :: l ++ sep ∧ (∀ rest, delimited (sep ++ C_RPAREN :: rest)) ∧
    ∀ fuel elems rest st, input st = sep ++ C_RPAREN :: rest → (2 * length (input st) + 2 <= fuel)%nat →
      yields (after_element fuel D elems) st (λ v st', input st' = rest ∧ unaddressed v = list_of (map unaddressed elems) (unaddressed y)))
    as (sep & E & Hd & Hafter).
  { assert (Hlast : y = vnull ∨ (writable d D y ∧ is_empty_list y = false ∧ cells_text d (Cons leg a x y) = text d x ++ lit " . " ++ text d y)
      ∨ cells_ok d D y ∧ cells_text d (Cons leg a x y) = text d x ++ C_SPACE :: cells_text d y).
    { clear - Hy. cbn [cells_text]. destruct y; try (right; by right);
        (destruct Hy as [->|[He Hy]]; [by left|]; right; left; split; [done|]; split; [done|]; by rewrite He). }
    destruct Hlast as [->|[(Hw & He & Etxt)|[Hc Etxt]]].
    - exists []. cbn [cells_text app]. rewrite Et. split; [done|]. split; [done|].
      intros fuel elems rest st E Hf. apply after_null; [done|lia].
    - exists (lit " . " ++ text d y). rewrite Etxt, Et. split; [done|]. split; [done|].
      intros fuel elems rest st E Hf. rewrite <- app_assoc in E. eapply after_tail; [by apply By|by eapply writable_no_sentinel|done|lia].
    - destruct (Cy Hc) as (c' & l' & Ec & Hrest). exists (C_SPACE :: c' :: l'). rewrite Etxt, Et, Ec. split; [done|]. split; [done|].
      intros fuel elems rest st E Hf. eapply after_next; [rewrite <- Ec; by apply Cy|exact E|lia]. }
  exists c, (l ++ sep). split; [done|]. split; [by apply starts_app|].
  intros fuel elems rest st Ei Hf. rewrite <- app_assoc in Ei.
  eapply (list_turn (text d x) D x sep fuel elems (C_RPAREN :: rest)); [done|done|done|apply Hd|done|done|].
  intros fuel' x' st' Hx' Ei' Hf'. eapply yields_impl; [by apply Hafter|].
  intros v st'' _ [? Hv]. split; [done|]. by rewrite Hv, list_of_snoc, Hx'.
Qed.

Lemma value_comes_back v : ∀ d D,
  (writable d D v → comes_back (text d v) D v) ∧ (cells_ok d D v → cells_back (cells_text d v) D v).
Proof.
  induction v as [| | | | | |leg a x y IHx IHy| | | | |a l IH| | | | |] using value_nested_ind; intros dw D;
    try (split; [intros Hv; exact (atom_comes_back dw D _ Hv)|done]).
  - assert (Hcells : ∀ d D, cells_ok d D (Cons leg a x y) → cells_back (cells_text d (Cons leg a x y)) D (Cons leg a x y)).
    { intros d' D' Hc. apply cells_come_back; [done|apply IHx, Hc|apply IHy|apply IHy]. }
    split; [|apply Hcells]. intros (Hd & HD & Hc)%writable_cons.
    destruct (Hcells _ _ Hc) as (c & t & Et & _ & H). rewrite list_text, Et by done.
    exists C_LPAREN, ((c :: t) ++ [C_RPAREN]). split; [done|]. split; [by split_and!|].
    intros [|fuel] rest st Hr E Hf; [lia|]. cbn [read_datum]. destruct (Z.leb_spec ESHKOL_READ_MAX_DEPTH D); [lia|].
    change (C_LPAREN =? C_QUOTE) with false. change (C_LPAREN =? C_LPAREN) with true. cbv iota.
    eapply yields_impl; [apply (H fuel [] rest); [by rewrite E, <- app_assoc|lia]|done].
  - split; [|done]. intros (Hd & HD & Hl & Hall)%writable_vec. rewrite vector_text by done.
    eexists C_HASH, _. split; [reflexivity|]. split; [apply hash_starts|].
    intros [|fuel] rest st Hr E Hf; [lia|]. cbn [read_datum]. destruct (Z.leb_spec ESHKOL_READ_MAX_DEPTH D); [lia|].
    change (C_HASH =? C_QUOTE) with false. change (C_HASH =? C_LPAREN) with false. change (C_HASH =? C_DQUOTE) with false.
    change (C_HASH =? C_BAR) with false. change (C_HASH =? C_HASH) with true. cbv iota.
    eapply yields_bind; [apply yields_fgetc|]. intros ch st1 _ [E1 Hn]. rewrite E in E1.
    destruct ch as [p|]; [|by rewrite (Hn eq_refl) in E1]. injection E1 as <- E1.
    change (is_char (Some C_LPAREN) C_LPAREN) with true. cbv iota.
    apply (vector_reads (D + 1) l (map (text dw) l)) with (blank := []); [|by left|rewrite <- E1, <- app_assoc; done|].
    + clear - IH Hall. induction IH as [|x l Hx _ IH]; [constructor|].
      apply list.Forall_cons in Hall as [Hwx Hall]. constructor; [|by apply IH].
      split; [by apply Hx|by eapply writable_no_sentinel].
    + rewrite <- E1. rewrite E in Hf. simpl in Hf. lia.
Qed.
End writer_text.
