(* ===== verification/ReaderProps.v ===== *)
(** * ReaderProps: the properties of [read] and [write]

    What is written reads back, and reading any port returns, makes progress and
    interns its symbols.  Then the values and texts on which they part. *)

From S2P Require Export ReadWriteSpec.
Local Open Scope Z_scope.

(** Reading the whole port: a read each time something is left. *)
Fixpoint read_all (times : nat) (st : reader) : option (list value * reader) :=
  match times with
  | O => Some ([], st)
  | S n =>
      if bool_decide (input st = []) then Some ([], st)
      else
        match eshkol_read_sexpr st with
        | Some (v, st) => match read_all n st with Some (vs, st) => Some (v :: vs, st) | None => None end
        | None => None
        end
  end.

(** A port at its start, before any symbol is interned. *)
Definition port (text : bytes) : reader := Reader text 1000 ∅.

Lemma port_ok text : table_ok (port text).
Proof. split; cbn [port symbols]; intros *; by rewrite lookup_empty. Qed.

(** ** Properties *)


(** A list with a vector, a string, a character, a rational and a barred symbol. *)
Definition sample : value :=
  Cons false 1 (Sym 2 "list->vec") (Cons true 3 (Vec 4 [Int64 (-7); Double (S754_finite true 6755399441055744 (-52)); vnull])
    (Cons false 5 (Str false 6 "a\b") (Cons false 7 (Imm ESHKOL_VALUE_CHAR 955) (Rat 8 (rational_alloc_small (-3) 4))))).

Lemma sample_canonical : canonical (rational_alloc_small (-3) 4).
Proof. by split; [|vm_compute|intros _; split_and!; unfold is_i64; simpl; lia || done|]. Qed.

Lemma sample_writable : writable 0 0 sample.
Proof.
  assert (Hc := sample_canonical). unfold sample. unfold writable, atom_ok. repeat (split || done || lia).
  right. by split_and!.
Qed.

Definition quiet : engine := Engine [] 0 [] 0 100 ∅.
Definition sample_text : bytes := eshkol_write_value quiet (λ _, -1) (λ _ _, []) sample.


(** C28: [read] returns on every input, well formed or not: what it leaves is a
    suffix of the input, shorter unless nothing was left, when it gives the
    end-of-file object, so a caller that reads until the port is empty stops after
    at most as many reads as there were bytes; and the symbols of the result are
    the interning table's, in which an address belongs to one name. *)
Theorem reader_drains_port st : table_ok st →
  (∃ v st', eshkol_read_sexpr st = Some (v, st') ∧ input st' `suffix_of` input st
    ∧ ((length (input st') < length (input st))%nat ∨ input st = [] ∧ v = make_eof_tagged)
    ∧ interned (symbols st') v ∧ symbols st ⊆ symbols st' ∧ table_ok st')
  ∧ ∃ vs st', read_all (length (input st)) st = Some (vs, st') ∧ input st' = []
    ∧ (length vs <= length (input st))%nat ∧ Forall (interned (symbols st')) vs ∧ symbols st ⊆ symbols st' ∧ table_ok st'.
Proof.
  intros Hok. split.
  - destruct (read_sexpr_total st) as (v & st' & E & [_ Hsub Ht] & [Hs Hi] & Hl). exists v, st'. by split_and!; [| | | | |apply Ht].
  - remember (length (input st)) as n eqn:En. assert (length (input st) <= n)%nat as Hn by lia. clear En.
    revert st Hok Hn. induction n as [|n IH]; intros st Hok Hn.
    { exists [], st. destruct (input st) eqn:E; [|simpl in Hn; lia]. by split_and!; [| |simpl; lia| | |]. }
    cbn [read_all]. case_bool_decide as He; [exists [], st; by split_and!; [| |simpl; lia| | |]|].
    destruct (read_sexpr_total st) as (v & st1 & E & [_ Hsub Ht] & [Hs Hi] & Hl). rewrite E.
    destruct Hl as [Hl|[? _]]; [|done].
    destruct (IH st1 (Ht Hok) ltac:(lia)) as (vs & st2 & E2 & Hin & Hlen & Hall & Hsub2 & Hok2). rewrite E2.
    exists (v :: vs), st2. split_and!; [done|done|simpl; lia| |by etransitivity|done]. constructor; [|done].
    by eapply interned_mono.
Qed.

Lemma reader_drains_port_witness :
  ∃ vs st', read_all 14 (port (lit "(a . #t) b ) |")) = Some (vs, st') ∧ input st' = [] ∧ Forall (interned (symbols st')) vs.
Proof.
  destruct (reader_drains_port (port (lit "(a . #t) b ) |")) (port_ok _)) as [_ (vs & st' & E & Hin & _ & Hall & _)].
  exists vs, st'. split_and!; [exact E|exact Hin|exact Hall].
Defined.

(** ** Where they part *)

Definition datum (text : bytes) : option value := option_map (λ r, unaddressed r.1) (eshkol_read_sexpr (port text)).
Definition rewritten (v : value) : option value := datum (eshkol_write_value quiet (λ _, -1) (λ _ _, []) v).

(** Symbols whose bare spelling [strtod] takes for a number. *)
Lemma float_words_not_barred :
  rewritten (Sym 1 "nan") = Some (Double S754_nan) ∧ rewritten (Sym 1 "infinity") = Some (Double (S754_infinity false)).
Proof. split; vm_compute; reflexivity. Qed.

(** The infinities and the NaN print as symbols of the reader. *)
Lemma infinities_read_as_symbols : rewritten (Double (S754_infinity false)) = Some (Sym 0 "+inf.0").
Proof. vm_compute. reflexivity. Qed.

(** An integer beyond [int64] is read as the nearest bound. *)
Lemma large_integers_clamped :
  rewritten (Big 1 (Bignum 0 [0; 1])) = Some (Int64 (2 ^ 63 - 1)) ∧ rewritten (Double (of_int (2 ^ 70))) = Some (Int64 (2 ^ 63 - 1)).
Proof. split; vm_compute; reflexivity. Qed.

(** A tail of more than one datum loses the first byte of the second. *)
Lemma tail_loses_a_byte :
  ∃ v st', eshkol_read_sexpr (port (lit "(a . b cd)")) = Some (v, st') ∧ input st' = lit "d)".
Proof. eexists _, _. split; [vm_compute; reflexivity|reflexivity]. Qed.

(** A name or a tab, or a carriage return, after it: the name is not recognised. *)
Lemma char_name_ends_at_blank_only :
  datum (lit "#\space" ++ [C_TAB]) = Some (Imm ESHKOL_VALUE_CHAR 115) ∧ datum (lit "#\space ") = Some (Imm ESHKOL_VALUE_CHAR C_SPACE).
Proof. split; vm_compute; reflexivity. Qed.

(** A backslash before two blanks that no newline follows. *)
Lemma escaped_blanks_lost : datum ([C_DQUOTE] ++ lit "\  b" ++ [C_DQUOTE]) = Some (Str false 0 " b").
Proof. vm_compute. reflexivity. Qed.

(** Beyond 100 levels the writer prints an ellipsis, which reads as a symbol. *)
Lemma deep_lists_cut : rewritten (Nat.iter 102 (λ v, Cons false 1 v vnull) vnull) ≠ Some (unaddressed (Nat.iter 102 (λ v, Cons false 1 v vnull) vnull)).
Proof. vm_compute. discriminate. Qed.

(** The sentinel of the depth limit is the end-of-file object, inside a list the tail. *)
Lemma unterminated_list_accepted : datum (lit "(a b") = Some (Cons false 0 (Sym 0 "a") (Cons false 0 (Sym 0 "b") make_eof_tagged)).
Proof. vm_compute. reflexivity. Qed.

(** An unterminated string literal is a string. *)
Lemma unterminated_string_accepted : datum (C_DQUOTE :: lit "abc") = Some (Str false 0 "abc").
Proof. vm_compute. reflexivity. Qed.
