(* ===== verification/WorkDeque.v ===== *)
(** * WorkDeque: the work-stealing deque and its epochs
    (inc/eshkol/backend/work_stealing_deque.h)

    The owner pushes and pops at the bottom, thieves take from the top.  A step
    is one access to a shared variable by one thread, in any order: the fences of
    the code are taken to give sequential consistency.  Slots are written by the
    owner only, so its loads of a slot go with the step before.  Items and arrays
    are addresses; the 64-bit positions are not wrapped, which takes [2^63] pushes.

    Reading an array that was deleted is [UseAfterFree]. *)

From stdpp Require Export gmap.
From S2P Require Export Prelude.
Local Open Scope Z_scope.

(** ** Epochs *)

Definition EPOCH_INACTIVE : Z := UINT64_MAX.
Definition MAX_THREADS : nat := 256.

Record epoch_manager := EpochManager {
  global_epoch_ : Z;
  retire_epoch_ : Z;
  thread_epochs_ : list Z
}.

Definition new_epoch_manager : epoch_manager := EpochManager 0 0 (replicate MAX_THREADS EPOCH_INACTIVE).

Definition set_thread_epoch (m : epoch_manager) (slot : nat) (e : Z) : epoch_manager :=
  EpochManager (global_epoch_ m) (retire_epoch_ m) (<[slot := e]> (thread_epochs_ m)).

(** The first slot that holds [EPOCH_INACTIVE], [MAX_THREADS] when there is none. *)
Definition registerThread (m : epoch_manager) : nat * epoch_manager :=
  match list_find (λ e, e = EPOCH_INACTIVE) (thread_epochs_ m) with
  | Some (i, _) => (i, set_thread_epoch m i (global_epoch_ m))
  | None => (MAX_THREADS, m)
  end.

Definition unregisterThread (m : epoch_manager) (slot : nat) : epoch_manager := set_thread_epoch m slot EPOCH_INACTIVE.
Definition enterCritical (m : epoch_manager) (slot : nat) : epoch_manager := set_thread_epoch m slot (global_epoch_ m).
Definition exitCritical (m : epoch_manager) (slot : nat) : epoch_manager := set_thread_epoch m slot EPOCH_INACTIVE.

(** The scan of the slots and the two updates, taken as one step. *)
Definition tryAdvanceEpoch (m : epoch_manager) : epoch_manager :=
  let min_epoch := foldl (λ mn te, if negb (te =? EPOCH_INACTIVE) && (te <? mn) then te else mn) (global_epoch_ m) (thread_epochs_ m) in
  let retire := if retire_epoch_ m + 2 <? min_epoch then min_epoch - 2 else retire_epoch_ m in
  EpochManager (u64 (global_epoch_ m + 1)) retire (thread_epochs_ m).

Definition currentEpoch (m : epoch_manager) : Z := global_epoch_ m.
Definition safeToReclaimEpoch (m : epoch_manager) : Z := retire_epoch_ m.

(** ** Circular arrays *)

(** [buffer_] holds the slots that were written, the others are null. *)
Record circular_array := CircularArray { log_size_ : Z; retire_epoch : Z; buffer_ : gmap Z Z }.

Definition new_array (log_size epoch : Z) : circular_array := CircularArray log_size epoch ∅.
Definition mask_ (a : circular_array) : Z := Z.shiftl 1 (log_size_ a) - 1.
Definition capacity (a : circular_array) : Z := mask_ a + 1.
Definition slot_of (a : circular_array) (i : Z) : Z := Z.land i (mask_ a).
Definition array_get (a : circular_array) (i : Z) : Z := default 0 (buffer_ a !! slot_of a i).
Definition array_put (a : circular_array) (i item : Z) : circular_array :=
  CircularArray (log_size_ a) (retire_epoch a) (<[slot_of a i := item]> (buffer_ a)).

(** [for (i = top; i < bottom; ++i) new_array->put(i, get(i))]. *)
Fixpoint copy_slots (n : nat) (i : Z) (a b : circular_array) : circular_array :=
  match n with O => b | S n => copy_slots n (i + 1) a (array_put b i (array_get a i)) end.
Definition grow (a : circular_array) (bottom top epoch : Z) : circular_array :=
  copy_slots (Z.to_nat (bottom - top)) top a (new_array (log_size_ a + 1) epoch).

(** ** The deque and the threads at work on it *)

(** What the owner is about to do; [x] is the item pushed. *)
Inductive owner_pc :=
| OwnerIdle
| PushBottom (x : Z)
| PushTop (x b : Z)
| PushArray (x b t : Z)
| PushStore (x b old new : Z)
| PushRetire (x b old new : Z)
| PushPut (x b a : Z)
| PushPublish (x b : Z)
| PopBottom
| PopArray (b : Z)
| PopStore (b a : Z)
| PopTop (b a : Z)
| PopCas (b item : Z)
| PopRestore (b : Z).

Inductive thief_pc :=
| StealTop
| StealBottom (t : Z)
| StealArray (t : Z)
| StealGet (t a : Z)
| StealCas (t item : Z).

Record deque := Deque {
  top_ : Z;
  bottom_ : Z;
  array_ : Z;
  arrays : gmap Z circular_array;
  next_array : Z;
  retired_arrays_ : list Z;
  epoch_mgr_ : epoch_manager;
  owner : owner_pc;
  thieves : gmap nat thief_pc
}.

Definition set_owner (s : deque) (o : owner_pc) : deque :=
  Deque (top_ s) (bottom_ s) (array_ s) (arrays s) (next_array s) (retired_arrays_ s) (epoch_mgr_ s) o (thieves s).
Definition set_top (s : deque) (t : Z) : deque :=
  Deque t (bottom_ s) (array_ s) (arrays s) (next_array s) (retired_arrays_ s) (epoch_mgr_ s) (owner s) (thieves s).
Definition set_bottom (s : deque) (b : Z) : deque :=
  Deque (top_ s) b (array_ s) (arrays s) (next_array s) (retired_arrays_ s) (epoch_mgr_ s) (owner s) (thieves s).
Definition set_array (s : deque) (a : Z) : deque :=
  Deque (top_ s) (bottom_ s) a (arrays s) (next_array s) (retired_arrays_ s) (epoch_mgr_ s) (owner s) (thieves s).
Definition set_arrays (s : deque) (m : gmap Z circular_array) : deque :=
  Deque (top_ s) (bottom_ s) (array_ s) m (next_array s) (retired_arrays_ s) (epoch_mgr_ s) (owner s) (thieves s).
Definition set_retired (s : deque) (l : list Z) : deque :=
  Deque (top_ s) (bottom_ s) (array_ s) (arrays s) (next_array s) l (epoch_mgr_ s) (owner s) (thieves s).
Definition set_epochs (s : deque) (m : epoch_manager) : deque :=
  Deque (top_ s) (bottom_ s) (array_ s) (arrays s) (next_array s) (retired_arrays_ s) m (owner s) (thieves s).
Definition set_thieves (s : deque) (m : gmap nat thief_pc) : deque :=
  Deque (top_ s) (bottom_ s) (array_ s) (arrays s) (next_array s) (retired_arrays_ s) (epoch_mgr_ s) (owner s) m.

(** [new CircularArray], at the next address. *)
Definition alloc_array (s : deque) (a : circular_array) : deque :=
  Deque (top_ s) (bottom_ s) (array_ s) (<[next_array s := a]> (arrays s)) (next_array s + 1) (retired_arrays_ s)
        (epoch_mgr_ s) (owner s) (thieves s).

Definition new_deque (log_initial_size : Z) : deque :=
  Deque 0 0 1 {[1 := new_array log_initial_size 0]} 2 [] new_epoch_manager OwnerIdle ∅.

(** The test of [reclaimRetired] on one array. *)
Definition reclaimable (s : deque) (id : Z) : bool :=
  match arrays s !! id with Some a => retire_epoch a <? safeToReclaimEpoch (epoch_mgr_ s) | None => false end.

Definition reclaimRetired (s : deque) : deque :=
  set_retired
    (set_arrays s (foldr (λ id m, if reclaimable s id then delete id m else m) (arrays s) (retired_arrays_ s)))
    (filter (λ id, reclaimable s id = false) (retired_arrays_ s)).

Definition retireArray (s : deque) (arr : Z) : deque :=
  let s := set_retired s (retired_arrays_ s ++ [arr]) in
  if (8 <? Z.of_nat (length (retired_arrays_ s))) then reclaimRetired s else s.

(** ** Steps *)

(** What a call does to the deque, at the step that decides it. *)
Inductive event := Pushed (x : Z) | Popped (x : option Z) | Stolen (thief : nat) (x : Z).

Inductive step_result := Step (s : deque) (evs : list event) | UseAfterFree.

(** A load through the array at address [id]. *)
Definition with_array (s : deque) (id : Z) (f : circular_array → step_result) : option step_result :=
  Some (match arrays s !! id with Some a => f a | None => UseAfterFree end).

Definition push_begin (s : deque) (x : Z) : option step_result :=
  match owner s with OwnerIdle => Some (Step (set_owner s (PushBottom x)) []) | _ => None end.
Definition pop_begin (s : deque) : option step_result :=
  match owner s with OwnerIdle => Some (Step (set_owner s PopBottom) []) | _ => None end.

(** The steps of [push]. *)
Definition push_step (s : deque) : option step_result :=
  match owner s with
  | PushBottom x => Some (Step (set_owner s (PushTop x (bottom_ s))) [])
  | PushTop x b => Some (Step (set_owner s (PushArray x b (top_ s))) [])
  | PushArray x b t =>
      with_array s (array_ s) (λ a,
        if capacity a - 1 <=? b - t then
          Step (set_owner (alloc_array s (grow a b t (currentEpoch (epoch_mgr_ s)))) (PushStore x b (array_ s) (next_array s))) []
        else Step (set_owner s (PushPut x b (array_ s))) [])
  | PushStore x b old new => Some (Step (set_owner (set_array s new) (PushRetire x b old new)) [])
  | PushRetire x b old new => Some (Step (set_owner (retireArray s old) (PushPut x b new)) [])
  | PushPut x b id =>
      with_array s id (λ a, Step (set_owner (set_arrays s (<[id := array_put a b x]> (arrays s))) (PushPublish x b)) [])
  | PushPublish x b => Some (Step (set_owner (set_bottom s (b + 1)) OwnerIdle) [Pushed x])
  | _ => None
  end.

(** The steps of [pop]. *)
Definition pop_step (s : deque) : option step_result :=
  match owner s with
  | PopBottom => Some (Step (set_owner s (PopArray (bottom_ s - 1))) [])
  | PopArray b => Some (Step (set_owner s (PopStore b (array_ s))) [])
  | PopStore b a => Some (Step (set_owner (set_bottom s b) (PopTop b a)) [])
  | PopTop b id =>
      let t := top_ s in
      if t <=? b then
        with_array s id (λ a,
          let item := array_get a b in
          if t =? b then Step (set_owner s (PopCas b item)) []
          else Step (set_owner s OwnerIdle) [Popped (Some item)])
      else Some (Step (set_owner s (PopRestore b)) [Popped None])
  | PopCas b item =>
      if top_ s =? b then Some (Step (set_owner (set_top s (b + 1)) (PopRestore b)) [Popped (Some item)])
      else Some (Step (set_owner s (PopRestore b)) [Popped None])
  | PopRestore b => Some (Step (set_owner (set_bottom s (b + 1)) OwnerIdle) [])
  | _ => None
  end.

Definition set_thief (s : deque) (tid : nat) (p : thief_pc) : deque := set_thieves s (<[tid := p]> (thieves s)).
Definition end_thief (s : deque) (tid : nat) : deque := set_thieves s (delete tid (thieves s)).

Definition steal_begin (s : deque) (tid : nat) : option step_result :=
  match thieves s !! tid with None => Some (Step (set_thief s tid StealTop) []) | Some _ => None end.

(** The steps of [steal]. *)
Definition steal_step (s : deque) (tid : nat) : option step_result :=
  match thieves s !! tid with
  | Some StealTop => Some (Step (set_thief s tid (StealBottom (top_ s))) [])
  | Some (StealBottom t) =>
      Some (Step (if t <? bottom_ s then set_thief s tid (StealArray t) else end_thief s tid) [])
  | Some (StealArray t) => Some (Step (set_thief s tid (StealGet t (array_ s))) [])
  | Some (StealGet t id) => with_array s id (λ a, Step (set_thief s tid (StealCas t (array_get a t))) [])
  | Some (StealCas t item) =>
      if top_ s =? t then Some (Step (end_thief (set_top s (t + 1)) tid) [Stolen tid item])
      else Some (Step (end_thief s tid) [])
  | None => None
  end.

Inductive action :=
| Push (x : Z) | Pop | OwnerStep
| Steal (tid : nat) | ThiefStep (tid : nat)
| Enter (slot : nat) | Exit (slot : nat) | Advance | Reclaim.

Definition exec (s : deque) (act : action) : option step_result :=
  match act with
  | Push x => push_begin s x
  | Pop => pop_begin s
  | OwnerStep => match push_step s with Some r => Some r | None => pop_step s end
  | Steal tid => steal_begin s tid
  | ThiefStep tid => steal_step s tid
  | Enter slot => Some (Step (set_epochs s (enterCritical (epoch_mgr_ s) slot)) [])
  | Exit slot => Some (Step (set_epochs s (exitCritical (epoch_mgr_ s) slot)) [])
  | Advance => Some (Step (set_epochs s (tryAdvanceEpoch (epoch_mgr_ s))) [])
  | Reclaim => match owner s with OwnerIdle => Some (Step (reclaimRetired s) []) | _ => None end
  end.

(** A run: the actions in order, while none is impossible and none reads a deleted array. *)
Fixpoint run (s : deque) (acts : list action) : option (deque * list event) :=
  match acts with
  | [] => Some (s, [])
  | act :: acts =>
      match exec s act with
      | Some (Step s evs) => match run s acts with Some (s, evs') => Some (s, evs ++ evs') | None => None end
      | _ => None
      end
  end.

Definition empty (s : deque) : bool := bottom_ s <=? top_ s.
Definition size (s : deque) : Z := let n := bottom_ s - top_ s in if 0 <? n then n else 0.
