(* ===== verification/WorkDequeProps.v ===== *)
(** * WorkDequeProps: the invariant of the deque and its properties *)

From S2P Require Export WorkDeque.
Local Open Scope Z_scope.

(** * The deque is a double-ended queue

    [live] is the list the deque holds at a moment between two steps.  Each step
    acts on it as the event it emits says, whatever the interleaving, as long as
    no deleted array is read. *)

#[local] Arguments capacity : simpl never.
#[local] Arguments array_get : simpl never.
#[local] Arguments array_put : simpl never.

(** ** The abstract queue *)

Definition spec_step (l : list Z) (e : event) : option (list Z) :=
  match e with
  | Pushed x => Some (l ++ [x])
  | Popped None => match l with [] => Some [] | _ => None end
  | Popped (Some x) =>
      match list.last l with Some y => if y =? x then Some (take (length l - 1) l) else None | None => None end
  | Stolen _ x => match l with y :: l => if y =? x then Some l else None | [] => None end
  end.

Fixpoint spec_run (l : list Z) (evs : list event) : option (list Z) :=
  match evs with [] => Some l | e :: evs => match spec_step l e with Some l => spec_run l evs | None => None end end.

Lemma spec_run_app l evs evs' l' : spec_run l evs = Some l' → spec_run l (evs ++ evs') = spec_run l' evs'.
Proof.
  revert l. induction evs as [|e evs IH]; intros l; [by intros [= ->]|].
  cbn [app spec_run]. destruct (spec_step l e); [apply IH|done].
Qed.

Definition pushed_of (e : event) : list Z := match e with Pushed x => [x] | _ => [] end.
Definition taken_of (e : event) : list Z := match e with Popped (Some x) => [x] | Stolen _ x => [x] | _ => [] end.

Lemma last_split (l : list Z) x : list.last l = Some x → l = take (length l - 1) l ++ [x].
Proof.
  intros H. apply last_Some in H as [l' ->]. rewrite length_app. cbn [length].
  replace (length l' + 1 - 1)%nat with (length l') by lia. by rewrite take_app_length.
Qed.

(** Nothing is lost and nothing is taken twice. *)
Lemma spec_run_balance evs l l' : spec_run l evs = Some l' →
  l ++ concat (map pushed_of evs) ≡ₚ concat (map taken_of evs) ++ l'.
Proof.
  revert l. induction evs as [|e evs IH]; intros l; cbn [spec_run map concat]; [intros [= ->]; by rewrite app_nil_r|].
  destruct e as [x|[x|]|tid x]; cbn [spec_step pushed_of taken_of app].
  - intros H%IH. rewrite <- H. by rewrite <- app_assoc.
  - destruct (list.last l) as [y|] eqn:El; [|done]. destruct (Z.eqb_spec y x) as [->|]; [|done]. intros H%IH.
    rewrite (last_split l x El). rewrite <- H. by rewrite <- Permutation_middle, app_nil_r.
  - destruct l; [|done]. apply IH.
  - destruct l as [|y l]; [done|]. destruct (Z.eqb_spec y x) as [->|]; [|done]. intros H%IH. cbn [app]. by rewrite H.
Qed.

(** ** Slots *)

Definition wf_array (a : circular_array) : Prop := 0 <= log_size_ a.

Lemma slot_of_mod a i : wf_array a → slot_of a i = i mod 2 ^ log_size_ a.
Proof.
  intros H. unfold slot_of, mask_. rewrite Z.shiftl_1_l. rewrite <- Z.land_ones by exact H.
  f_equal. rewrite Z.ones_equiv. lia.
Qed.

Lemma capacity_pow a : wf_array a → capacity a = 2 ^ log_size_ a.
Proof. intros H. unfold capacity, mask_. rewrite Z.shiftl_1_l. lia. Qed.

Lemma slot_of_inj a i j : wf_array a → Z.abs (i - j) < capacity a → slot_of a i = slot_of a j → i = j.
Proof.
  intros Hw Hd. rewrite !slot_of_mod, capacity_pow in * by done. intros E.
  assert (0 < 2 ^ log_size_ a) as Hp by (apply Z.pow_pos_nonneg; [lia|exact Hw]).
  assert ((i - j) mod 2 ^ log_size_ a = 0) as Hm by (rewrite Zminus_mod, E, Z.sub_diag; apply Z.mod_0_l; lia).
  apply Z.mod_divide in Hm as [k Hk]; [|lia].
  assert (k = 0) by nia. nia.
Qed.

Lemma get_put a i x : array_get (array_put a i x) i = x.
Proof. unfold array_get, array_put, slot_of, mask_. cbn [buffer_ log_size_]. by rewrite lookup_insert_eq. Qed.

Lemma get_put_ne a i j x : wf_array a → i ≠ j → Z.abs (i - j) < capacity a → array_get (array_put a i x) j = array_get a j.
Proof.
  intros Hw Hne Hd. unfold array_get. change (slot_of (array_put a i x) j) with (slot_of a j). unfold array_put. cbn [buffer_].
  rewrite lookup_insert_ne; [done|]. intros E%(slot_of_inj a i j); done.
Qed.

Lemma copy_slots_spec a n i b : wf_array b → Z.of_nat n <= capacity b →
  let b' := copy_slots n i a b in
  log_size_ b' = log_size_ b ∧ (∀ j, i <= j < i + Z.of_nat n → array_get b' j = array_get a j)
  ∧ (∀ j, i + Z.of_nat n - capacity b <= j < i → array_get b' j = array_get b j).
Proof.
  revert i b. induction n as [|n IH]; intros i b Hw Hn; cbn [copy_slots]; [split_and!; [done|lia|done]|].
  set (b1 := array_put b i (array_get a i)).
  assert (Hw1 : wf_array b1) by exact Hw. assert (Hc1 : capacity b1 = capacity b) by done.
  destruct (IH (i + 1) b1 Hw1 ltac:(lia)) as (Hl & Hin & Hout). split_and!; [exact Hl| |].
  - intros j Hj. destruct (Z.eq_dec j i) as [->|]; [|apply Hin; lia].
    rewrite Hout by lia. apply get_put.
  - intros j Hj. rewrite Hout by lia. apply get_put_ne; [done|lia|lia].
Qed.

Lemma grow_spec a bottom top e : wf_array a → top <= bottom → bottom - top <= capacity a →
  let a' := grow a bottom top e in
  wf_array a' ∧ capacity a' = 2 * capacity a ∧ ∀ j, top <= j < bottom → array_get a' j = array_get a j.
Proof.
  intros Hw Ht Hc. set (b := new_array (log_size_ a + 1) e). pose proof (capacity_pow a Hw) as Ec.
  assert (Hwb : wf_array b) by (unfold wf_array in *; cbn; lia).
  assert (Ecb : capacity b = 2 * capacity a).
  { rewrite Ec, capacity_pow by done. cbn [b new_array log_size_]. unfold wf_array in Hw. rewrite Z.pow_add_r by lia. lia. }
  destruct (copy_slots_spec a (Z.to_nat (bottom - top)) top b Hwb ltac:(lia)) as (Hl & Hin & _).
  fold (grow a bottom top e) in *. cbv zeta in *.
  change (copy_slots (Z.to_nat (bottom - top)) top a b) with (grow a bottom top e) in *. split_and!.
  - unfold wf_array in *. rewrite Hl. exact Hwb.
  - rewrite <- Ecb. unfold capacity, mask_. by rewrite Hl.
  - intros j Hj. apply Hin. lia.
Qed.

(** ** Segments of a function *)

Definition segment (f : Z → Z) (t b : Z) : list Z := map (λ k, f (t + Z.of_nat k)) (seq 0 (Z.to_nat (b - t))).

Lemma segment_nil f t b : b <= t → segment f t b = [].
Proof. intros H. unfold segment. by replace (Z.to_nat (b - t)) with 0%nat by lia. Qed.

Lemma segment_cons f t b : t < b → segment f t b = f t :: segment f (t + 1) b.
Proof.
  intros H. unfold segment. replace (Z.to_nat (b - t)) with (S (Z.to_nat (b - (t + 1)))) by lia.
  cbn [seq map]. f_equal; [f_equal; lia|]. rewrite <- seq_shift, map_map. apply map_ext. intros k. f_equal. lia.
Qed.

Lemma segment_snoc f t b : t <= b → segment f t (b + 1) = segment f t b ++ [f b].
Proof.
  intros H. unfold segment. replace (Z.to_nat (b + 1 - t)) with (Z.to_nat (b - t) + 1)%nat by lia.
  rewrite seq_app, map_app. cbn [seq map]. do 3 f_equal. lia.
Qed.

Lemma segment_ext f g t b : (∀ i, t <= i < b → f i = g i) → segment f t b = segment g t b.
Proof. intros H. unfold segment. apply map_ext_in. intros k Hk%in_seq. apply H. lia. Qed.

(** ** The invariant *)

(** Where the queue ends: between the store of a pop and its decision the last element still counts. *)
Definition end_ (s : deque) : Z :=
  match owner s with PopTop _ _ | PopCas _ _ | PopRestore _ => bottom_ s + 1 | _ => bottom_ s end.

Definition live (s : deque) (a : circular_array) : list Z := segment (array_get a) (top_ s) (end_ s).

Definition owner_ok (s : deque) (a : circular_array) : Prop :=
  match owner s with
  | OwnerIdle | PushBottom _ | PopBottom => True
  | PushTop x b => b = bottom_ s
  | PushArray x b t => b = bottom_ s ∧ t <= top_ s ∧ b - t <= capacity a - 1
  | PushStore x b old new =>
      b = bottom_ s ∧ old = array_ s ∧ new ≠ array_ s ∧ new ∉ retired_arrays_ s ∧ new < next_array s ∧
      ∃ a', arrays s !! new = Some a' ∧ wf_array a' ∧ b - top_ s <= capacity a' - 2 ∧
        ∀ j, top_ s <= j < b → array_get a' j = array_get a j
  | PushRetire x b old new => b = bottom_ s ∧ new = array_ s ∧ old ≠ array_ s ∧ old < next_array s ∧ b - top_ s <= capacity a - 2
  | PushPut x b id => b = bottom_ s ∧ id = array_ s ∧ b - top_ s <= capacity a - 2
  | PushPublish x b => b = bottom_ s ∧ array_get a b = x ∧ b - top_ s <= capacity a - 2
  | PopArray b => bottom_ s = b + 1
  | PopStore b id => bottom_ s = b + 1 ∧ id = array_ s
  | PopTop b id => bottom_ s = b ∧ id = array_ s
  | PopCas b item => bottom_ s = b ∧ array_get a b = item ∧ b <= top_ s
  | PopRestore b => bottom_ s = b ∧ top_ s = b + 1
  end.

(** What a thief has read still stands if the top has not moved. *)
Definition thief_ok (s : deque) (a : circular_array) (p : thief_pc) : Prop :=
  match p with
  | StealTop => True
  | StealBottom t => t <= top_ s
  | StealArray t => t <= top_ s ∧ (t = top_ s → t < end_ s)
  | StealGet t id => t <= top_ s ∧ id < next_array s ∧
      (t = top_ s → t < end_ s ∧ ∀ arr, arrays s !! id = Some arr → array_get arr t = array_get a t)
  | StealCas t item => t <= top_ s ∧ (t = top_ s → t < end_ s ∧ item = array_get a t)
  end.

Record inv (s : deque) (a : circular_array) : Prop := {
  inv_array : arrays s !! array_ s = Some a;
  inv_wf : wf_array a;
  inv_order : 0 <= top_ s <= end_ s;
  inv_room : end_ s - top_ s <= capacity a - 1;
  inv_fresh : ∀ id arr, arrays s !! id = Some arr → id < next_array s;
  inv_retired : array_ s ∉ retired_arrays_ s;
  inv_retired_fresh : ∀ id, id ∈ retired_arrays_ s → id < next_array s;
  inv_owner : owner_ok s a;
  inv_thieves : ∀ tid p, thieves s !! tid = Some p → thief_ok s a p
}.

Lemma new_deque_inv n : 0 <= n → inv (new_deque n) (new_array n 0).
Proof.
  intros Hn. assert (wf_array (new_array n 0)) as Hw by exact Hn. split; cbn.
  - by rewrite lookup_singleton_eq.
  - done.
  - lia.
  - rewrite capacity_pow by done. cbn. pose proof (Z.pow_pos_nonneg 2 n). lia.
  - intros id arr [<- _]%lookup_singleton_Some. lia.
  - apply not_elem_of_nil.
  - by intros id ?%elem_of_nil.
  - done.
  - intros tid p. by rewrite lookup_empty.
Qed.

(** ** Every step keeps it *)

Lemma thief_ok_mono s a s' a' p : thief_ok s a p →
  top_ s = top_ s' → end_ s <= end_ s' ∨ top_ s < end_ s' → next_array s <= next_array s' →
  (∀ id arr, id < next_array s → arrays s' !! id = Some arr → arrays s !! id = Some arr ∨ array_get arr (top_ s) = array_get a (top_ s)) →
  array_get a' (top_ s) = array_get a (top_ s) → thief_ok s' a' p.
Proof.
  intros H Et He Hn Ha Hg. destruct p; cbn [thief_ok] in *; rewrite <- ?Et; try done.
  - destruct H as [H1 H2]. split; [done|]. intros E. specialize (H2 E). lia.
  - destruct H as (H1 & H2 & H3). split; [done|]. split; [lia|]. intros ->. destruct (H3 eq_refl) as [H4 H5].
    split; [lia|]. intros arr Harr. rewrite Hg. destruct (Ha _ _ H2 Harr) as [Harr'|Harr']; [by apply H5|done].
  - destruct H as [H1 H2]. split; [done|]. intros ->. destruct (H2 eq_refl) as [H3 ->]. split; [lia|done].
Qed.

(** Deleting retired arrays. *)
Lemma reclaim_spec s : let s' := reclaimRetired s in
  (∀ id arr, arrays s' !! id = Some arr → arrays s !! id = Some arr)
  ∧ (∀ id, id ∉ retired_arrays_ s → arrays s' !! id = arrays s !! id)
  ∧ (∀ id, id ∈ retired_arrays_ s' → id ∈ retired_arrays_ s).
Proof.
  cbn [arrays retired_arrays_ reclaimRetired set_retired set_arrays]. generalize (reclaimable s) as gone, (retired_arrays_ s) as l.
  intros gone l. split_and!.
  - induction l as [|i l IH]; cbn [foldr]; [done|]. intros id arr. destruct (gone i); [|apply IH].
    intros [_ H]%lookup_delete_Some. by apply IH.
  - induction l as [|i l IH]; cbn [foldr]; [done|]. intros id [Hne Hl]%not_elem_of_cons. destruct (gone i); [|by apply IH].
    rewrite lookup_delete_ne by done. by apply IH.
  - intros id [_ H]%list_elem_of_filter. exact H.
Qed.

Lemma retire_spec s old : let s' := retireArray s old in
  (∀ id arr, arrays s' !! id = Some arr → arrays s !! id = Some arr)
  ∧ (∀ id, id ∉ retired_arrays_ s → id ≠ old → arrays s' !! id = arrays s !! id)
  ∧ (∀ id, id ∈ retired_arrays_ s' → id ∈ retired_arrays_ s ∨ id = old)
  ∧ top_ s' = top_ s ∧ bottom_ s' = bottom_ s ∧ array_ s' = array_ s ∧ next_array s' = next_array s ∧ thieves s' = thieves s ∧ owner s' = owner s.
Proof.
  unfold retireArray. set (s1 := set_retired s (retired_arrays_ s ++ [old])). destruct (8 <? _).
  - destruct (reclaim_spec s1) as (H1 & H2 & H3). split_and!; try done.
    + intros id Hr Hne. apply H2. cbn. rewrite elem_of_app, list_elem_of_singleton. tauto.
    + intros id Hid%H3. cbn in Hid. rewrite elem_of_app, list_elem_of_singleton in Hid. tauto.
  - split_and!; try done. intros id Hid. cbn in Hid. rewrite elem_of_app, list_elem_of_singleton in Hid. tauto.
Qed.

Lemma epochs_inv s a m : inv s a → inv (set_epochs s m) a ∧ live (set_epochs s m) a = live s a.
Proof. intros [H1 H2 H3 H4 H5 H6 H7 H8 H9]. split; [|done]. split; try done. Qed.

Lemma reclaim_inv s a : owner s = OwnerIdle → inv s a → inv (reclaimRetired s) a ∧ live (reclaimRetired s) a = live s a.
Proof.
  intros Ho [H1 H2 H3 H4 H5 H6 H7 H8 H9]. destruct (reclaim_spec s) as (R1 & R2 & R3). split; [|done].
  assert (Ea : array_ (reclaimRetired s) = array_ s) by done. split; try done.
  - rewrite Ea, R2 by done. exact H1.
  - intros id arr Hid%R1. by eapply H5.
  - rewrite Ea. intros Hr%R3. done.
  - intros id Hid%R3. by apply H7.
  - unfold owner_ok. change (owner (reclaimRetired s)) with (owner s). by rewrite Ho.
  - intros tid p Hp. eapply thief_ok_mono; [by apply (H9 tid)|done|by left|done| |done]. intros id arr _ Harr. left. by apply R1.
Qed.

Definition pops (o : owner_pc) : bool := match o with PopTop _ _ | PopCas _ _ | PopRestore _ => true | _ => false end.

Definition kept (s : deque) (a : circular_array) (evs : list event) (s' : deque) : Prop :=
  ∃ a', inv s' a' ∧ spec_run (live s a) evs = Some (live s' a').

(** Steps that only move the owner. *)
Lemma kept_set_owner s a o : inv s a → pops o = pops (owner s) → owner_ok (set_owner s o) a → kept s a [] (set_owner s o).
Proof.
  intros [H1 H2 H3 H4 H5 H6 H7 H8 H9] Hp Ho.
  assert (end_ (set_owner s o) = end_ s) as He.
  { unfold end_. cbn [owner set_owner bottom_]. by destruct o, (owner s). }
  exists a. split; [|cbn [spec_run]; unfold live; by rewrite He].
  split; cbn [arrays array_ top_ next_array retired_arrays_ thieves set_owner]; try done; try (by rewrite He).
  intros tid p Hp'. specialize (H9 tid p Hp'). eapply thief_ok_mono; [exact H9|done|left; by rewrite He|done|by left|done].
Qed.

(** Steps of the owner that change the shared state and leave the queue's start. *)
Lemma kept_owner s a evs s' a' : inv s a → arrays s' !! array_ s' = Some a' → wf_array a' →
  top_ s' = top_ s → top_ s <= end_ s' → end_ s' - top_ s <= capacity a' - 1 →
  (∀ id arr, arrays s' !! id = Some arr → id < next_array s') →
  array_ s' ∉ retired_arrays_ s' → (∀ id, id ∈ retired_arrays_ s' → id < next_array s') → owner_ok s' a' →
  thieves s' = thieves s → end_ s <= end_ s' ∨ top_ s < end_ s' → next_array s <= next_array s' →
  (top_ s < end_ s → array_get a' (top_ s) = array_get a (top_ s)) →
  (∀ id arr, top_ s < end_ s → id < next_array s → arrays s' !! id = Some arr →
    arrays s !! id = Some arr ∨ array_get arr (top_ s) = array_get a (top_ s)) →
  spec_run (live s a) evs = Some (live s' a') → kept s a evs s'.
Proof.
  intros [H1 H2 H3 H4 H5 H6 H7 H8 H9] I1 I2 Et I3 I4 I5 I6 I7 I8 Eth He Hn Hg Ha Hr. exists a'. split; [|exact Hr].
  split; try done; rewrite ?Et; try lia. rewrite Eth. intros tid p Hp. specialize (H9 tid p Hp).
  assert (Hcase : top_ s < end_ s ∨ end_ s <= top_ s) by lia. destruct Hcase as [Hlt|Hge].
  - eapply thief_ok_mono; [exact H9|done|exact He|exact Hn| |by apply Hg]. intros id arr. by apply Ha.
  - destruct p; cbn [thief_ok] in *; rewrite ?Et; try done.
    + destruct H9 as [H91 H92]. split; [done|]. intros E. specialize (H92 E). lia.
    + destruct H9 as (H91 & H92 & H93). split; [done|]. split; [lia|]. intros E. destruct (H93 E). lia.
    + destruct H9 as [H91 H92]. split; [done|]. intros E. destruct (H92 E). lia.
Qed.

Lemma push_step_kept s a s' evs : inv s a → push_step s = Some (Step s' evs) → kept s a evs s'.
Proof.
  intros Hi. pose proof Hi as [H1 H2 H3 H4 H5 H6 H7 H8 H9]. unfold push_step, owner_ok in *.
  destruct (owner s) as [|x|x b|x b t|x b old new|x b old new|x b id|x b| | | | | |] eqn:Eo; try done.
  - intros [= <- <-]. apply kept_set_owner; [done|by rewrite Eo|done].
  - subst b. intros [= <- <-]. apply kept_set_owner; [done|by rewrite Eo|]. cbn.
    unfold end_ in H4. rewrite Eo in H4. split_and!; [done|lia|lia].
  - destruct H8 as (-> & Ht & Hroom). unfold with_array. rewrite H1.
    assert (Ee : end_ s = bottom_ s) by (unfold end_; by rewrite Eo).
    destruct (Z.leb_spec (capacity a - 1) (bottom_ s - t)) as [Hfull|Hfree]; intros [= <- <-].
    + set (a' := grow a (bottom_ s) t (currentEpoch (epoch_mgr_ s))).
      destruct (grow_spec a (bottom_ s) t (currentEpoch (epoch_mgr_ s)) H2 ltac:(lia) ltac:(lia)) as (Hw & Hc & Hg). fold a' in Hw, Hc, Hg.
      assert (array_ s < next_array s) by (by eapply H5).
      apply (kept_owner s a [] _ a); cbn [arrays array_ top_ next_array retired_arrays_ thieves set_owner alloc_array]; try done.
      * rewrite lookup_insert_ne by lia. done.
      * unfold end_. cbn. rewrite Ee in H3. lia.
      * unfold end_. cbn. rewrite Ee in H4. lia.
      * intros id arr. destruct (Z.eq_dec id (next_array s)) as [->|]; [lia|]. rewrite lookup_insert_ne by done. intros ?%H5. lia.
      * intros id ?%H7. lia.
      * unfold owner_ok. cbn. split_and!; [done|done|lia|intros Hin%H7; lia|lia|]. exists a'. rewrite lookup_insert_eq.
        split_and!; [done|done|lia|intros j Hj; apply Hg; lia].
      * left. unfold end_ at 2. cbn. lia.
      * lia.
      * intros id arr _ Hid. rewrite lookup_insert_ne by lia. by left.
      * unfold live, end_. cbn. by rewrite Eo.
    + apply kept_set_owner; [done|by rewrite Eo|]. cbn. rewrite Ee in H3. split_and!; [done|done|lia].
  - destruct H8 as (-> & -> & Hne & Hnr & Hnf & a' & Ea' & Hw & Hc & Hg). intros [= <- <-].
    assert (Ee : end_ s = bottom_ s) by (unfold end_; by rewrite Eo). rewrite Ee in *.
    apply (kept_owner s a [] _ a'); cbn [arrays array_ top_ next_array retired_arrays_ thieves set_owner set_array]; try done.
    + unfold end_. cbn. lia.
    + unfold end_. cbn. lia.
    + unfold owner_ok. cbn. split_and!; [done|done|done|by eapply H5|lia].
    + left. unfold end_. cbn. rewrite Eo. lia.
    + rewrite Ee. intros Hlt. apply Hg. lia.
    + intros id arr _ _ Harr. by left.
    + unfold live, end_. cbn. rewrite Eo. f_equal. apply segment_ext. intros i Hi'. symmetry. apply Hg. lia.
  - destruct H8 as (-> & -> & Hne & Hof & Hroom). intros [= <- <-].
    destruct (retire_spec s old) as (R1 & R2 & R3 & E1 & E2 & E3 & E4 & E5 & E6).
    assert (Ee : end_ s = bottom_ s) by (unfold end_; by rewrite Eo). rewrite Ee in *.
    assert (Hend : ∀ o, pops o = false → end_ (set_owner (retireArray s old) o) = bottom_ s).
    { intros o Hpo. unfold end_. cbn [owner set_owner bottom_]. rewrite E2. by destruct o. }
    apply (kept_owner s a [] _ a); cbn [arrays array_ top_ next_array retired_arrays_ thieves set_owner]; try done; rewrite ?E3, ?E4, ?Hend; try done.
    + rewrite R2 by done. exact H1.
    + lia.
    + intros id arr Hid%R1. by eapply H5.
    + intros [Hin|Hin]%R3; [done|]. by apply Hne.
    + intros id [Hin%H7|Hin]%R3; [done|lia].
    + unfold owner_ok. cbn. rewrite E1, E2, E3. split_and!; done.
    + left. lia.
    + intros id arr _ _ Harr%R1. by left.
    + unfold live. rewrite Hend, Ee by done. cbn [top_ set_owner]. by rewrite E1.
  - destruct H8 as (-> & -> & Hroom). unfold with_array. rewrite H1. intros [= <- <-].
    assert (Ee : end_ s = bottom_ s) by (unfold end_; by rewrite Eo). rewrite Ee in *.
    assert (Hput : ∀ j, top_ s <= j < bottom_ s → array_get (array_put a (bottom_ s) x) j = array_get a j).
    { intros j Hj. apply get_put_ne; [done|lia|lia]. }
    apply (kept_owner s a [] _ (array_put a (bottom_ s) x)); cbn [arrays array_ top_ next_array retired_arrays_ thieves set_owner set_arrays]; try done.
    + by rewrite lookup_insert_eq.
    + unfold end_. cbn. lia.
    + intros id arr. destruct (Z.eq_dec id (array_ s)) as [->|]; [intros _; by eapply H5|]. rewrite lookup_insert_ne by done. apply H5.
    + unfold owner_ok. cbn. split_and!; [done|apply get_put|]. change (capacity (array_put a (bottom_ s) x)) with (capacity a). lia.
    + left. unfold end_. cbn. by rewrite Eo.
    + rewrite Ee. intros Hlt. apply Hput. lia.
    + rewrite Ee. intros id arr Hlt _. destruct (Z.eq_dec id (array_ s)) as [->|]; [|rewrite lookup_insert_ne by done; by left].
      rewrite lookup_insert_eq. intros [= <-]. right. apply Hput. lia.
    + unfold live, end_. cbn. rewrite Eo. f_equal. symmetry. by apply segment_ext.
  - destruct H8 as (-> & Hx & Hroom). intros [= <- <-].
    assert (Ee : end_ s = bottom_ s) by (unfold end_; by rewrite Eo). rewrite Ee in *.
    apply (kept_owner s a [Pushed x] _ a); cbn [arrays array_ top_ next_array retired_arrays_ thieves set_owner set_bottom]; try done.
    + unfold end_. cbn. lia.
    + unfold end_. cbn. lia.
    + left. unfold end_. cbn. rewrite Eo. lia.
    + intros id arr _ _ Harr. by left.
    + unfold live, end_. cbn. rewrite Eo. rewrite segment_snoc by lia. by rewrite Hx.
Qed.

(** What is left of [kept_owner] when the arrays are untouched is the queue itself. *)
Ltac owner_moves s a evs Eo :=
  apply (kept_owner s a evs _ a); cbn [arrays array_ top_ next_array retired_arrays_ thieves set_owner set_bottom];
  try done; try (unfold end_, owner_ok; cbn; rewrite ?Eo; lia); try (intros; by left).

(** Steps that take the first element: the top moves, the end stays. *)
Lemma kept_take s a s' x evs : inv s a → top_ s < end_ s → x = array_get a (top_ s) →
  top_ s' = top_ s + 1 → end_ s' = end_ s → array_ s' = array_ s → arrays s' = arrays s → next_array s' = next_array s →
  retired_arrays_ s' = retired_arrays_ s → (∀ tid p, thieves s' !! tid = Some p → thieves s !! tid = Some p) → owner_ok s' a →
  spec_run (x :: segment (array_get a) (top_ s + 1) (end_ s)) evs = Some (segment (array_get a) (top_ s + 1) (end_ s)) →
  kept s a evs s'.
Proof.
  intros [H1 H2 H3 H4 H5 H6 H7 H8 H9] Hlt -> Et Ee Ea Es En Er Eth Ho Hr. exists a. split.
  - split; rewrite ?Et, ?Ee, ?Ea, ?Es, ?En, ?Er; try done; try lia. intros tid p Hp%Eth. specialize (H9 tid p Hp).
    destruct p; cbn [thief_ok] in *; rewrite ?Et, ?Ee, ?Es, ?En; try done; try lia.
  - unfold live. rewrite (segment_cons _ (top_ s) (end_ s)) by lia. by rewrite Hr, Et, Ee.
Qed.

Lemma pop_step_kept s a s' evs : inv s a → pop_step s = Some (Step s' evs) → kept s a evs s'.
Proof.
  intros Hi. pose proof Hi as [H1 H2 H3 H4 H5 H6 H7 H8 H9]. unfold pop_step, owner_ok in *.
  destruct (owner s) as [| | | | | | | | |b|b id|b id|b item|b] eqn:Eo; try done.
  - intros [= <- <-]. apply kept_set_owner; [done|by rewrite Eo|]. cbn. lia.
  - intros [= <- <-]. apply kept_set_owner; [done|by rewrite Eo|done].
  - destruct H8 as [Hb ->]. intros [= <- <-]. assert (Ee : end_ s = bottom_ s) by (unfold end_; by rewrite Eo).
    owner_moves s a (@nil event) Eo. unfold live. by rewrite Ee, Hb.
  - destruct H8 as [Hb ->]. assert (Ee : end_ s = bottom_ s + 1) by (unfold end_; by rewrite Eo). unfold with_array. rewrite H1.
    destruct (Z.leb_spec (top_ s) b) as [Hle|Hgt].
    + destruct (Z.eqb_spec (top_ s) b) as [Heq|Hne]; intros [= <- <-].
      * apply kept_set_owner; [done|by rewrite Eo|]. cbn. split_and!; [done|done|lia].
      * owner_moves s a [Popped (Some (array_get a b))] Eo.
        unfold live. rewrite Ee, Hb, segment_snoc by lia. unfold end_. cbn. rewrite Hb, last_snoc, Z.eqb_refl, length_app. cbn [length].
        rewrite Nat.add_sub, take_app_length. done.
    + intros [= <- <-]. owner_moves s a [Popped None] Eo. unfold live. rewrite Ee. unfold end_. cbn. rewrite !segment_nil by lia. done.
  - destruct H8 as (Hb & <- & Ht). assert (Ee : end_ s = bottom_ s + 1) by (unfold end_; by rewrite Eo).
    destruct (Z.eqb_spec (top_ s) b) as [Heq|Hne]; intros [= <- <-].
    + apply (kept_take s a _ (array_get a b)); cbn; try done; try lia; try congruence;
        try (unfold end_, owner_ok; cbn; rewrite ?Eo; lia).
      rewrite segment_nil by lia. cbn [list.last]. by rewrite Z.eqb_refl.
    + owner_moves s a [Popped None] Eo. unfold live. rewrite Ee. unfold end_. cbn. rewrite !segment_nil by lia. done.
  - destruct H8 as (Hb & Ht). assert (Ee : end_ s = bottom_ s + 1) by (unfold end_; by rewrite Eo). intros [= <- <-].
    owner_moves s a (@nil event) Eo. unfold live. rewrite Ee. unfold end_. cbn. by rewrite Hb.
Qed.

(** Steps of a thief that change its own state only. *)
Lemma kept_set_thief s a tid p : inv s a → thief_ok s a p → kept s a [] (set_thief s tid p).
Proof.
  intros [H1 H2 H3 H4 H5 H6 H7 H8 H9] Hp. exists a. split; [|done]. split; try done.
  intros tid' p'. cbn. destruct (decide (tid = tid')) as [->|Hne].
  - rewrite lookup_insert_eq. intros [= <-]. by destruct p.
  - rewrite lookup_insert_ne by done. intros Hp'. specialize (H9 _ _ Hp'). by destruct p'.
Qed.

Lemma kept_end_thief s a tid : inv s a → kept s a [] (end_thief s tid).
Proof.
  intros [H1 H2 H3 H4 H5 H6 H7 H8 H9]. exists a. split; [|done]. split; try done.
  cbn. intros tid' p' [_ Hp']%lookup_delete_Some. specialize (H9 _ _ Hp'). by destruct p'.
Qed.

Lemma steal_step_kept s a tid s' evs : inv s a → steal_step s tid = Some (Step s' evs) → kept s a evs s'.
Proof.
  intros Hi. pose proof Hi as [H1 H2 H3 H4 H5 H6 H7 H8 H9]. unfold steal_step.
  destruct (thieves s !! tid) as [p|] eqn:Ep; [|done]. specialize (H9 tid p Ep). destruct p as [|t|t|t id|t item]; cbn [thief_ok] in H9.
  - intros [= <- <-]. apply kept_set_thief; [done|]. cbn. lia.
  - intros [= <- <-]. destruct (Z.ltb_spec t (bottom_ s)); [|by apply kept_end_thief]. apply kept_set_thief; [done|]. cbn. split; [done|].
    intros ->. unfold end_. destruct (owner s); lia.
  - intros [= <- <-]. destruct H9 as [Ht He]. apply kept_set_thief; [done|]. cbn. split; [done|]. split; [by eapply H5|]. intros E. split; [by apply He|].
    intros arr. rewrite H1. by intros [= ->].
  - destruct H9 as (Ht & _ & He). unfold with_array. destruct (arrays s !! id) as [arr|] eqn:Ea; [|done]. intros [= <- <-].
    apply kept_set_thief; [done|]. cbn. split; [done|]. intros E. destruct (He E) as [Hlt Hg]. split; [done|]. by apply Hg.
  - destruct H9 as [Ht He]. destruct (Z.eqb_spec (top_ s) t) as [E|Hne]; intros [= <- <-]; [|by apply kept_end_thief].
    destruct (He (eq_sym E)) as [Hlt Hitem]. subst t.
    apply (kept_take s a _ item); cbn; try done.
    + by intros tid' p' [_ ?]%lookup_delete_Some.
    + unfold owner_ok, end_ in *. cbn. destruct (owner s); cbn; try done; try lia.
      destruct H8 as (-> & -> & Hn & Hr & Hf & a' & Ea' & Hw & Hc & Hg). split_and!; try done. exists a'. split_and!; [done|done|lia|].
      intros j Hj. apply Hg. lia.
    + by rewrite Z.eqb_refl.
Qed.

Lemma exec_kept s a act s' evs : inv s a → exec s act = Some (Step s' evs) → kept s a evs s'.
Proof.
  intros Hi. destruct act as [x| | |tid|tid|slot|slot| |]; cbn [exec].
  - unfold push_begin. destruct (owner s) eqn:Eo; try done. intros [= <- <-]. by apply kept_set_owner; [|rewrite Eo|].
  - unfold pop_begin. destruct (owner s) eqn:Eo; try done. intros [= <- <-]. by apply kept_set_owner; [|rewrite Eo|].
  - destruct (push_step s) as [r|] eqn:Er; [intros [= ->]; by apply push_step_kept|]. by apply pop_step_kept.
  - unfold steal_begin. destruct (thieves s !! tid); [done|]. intros [= <- <-]. by apply kept_set_thief.
  - by apply steal_step_kept.
  - intros [= <- <-]. exists a. destruct (epochs_inv s a (enterCritical (epoch_mgr_ s) slot) Hi) as [H1 H2]. by rewrite <- H2.
  - intros [= <- <-]. exists a. destruct (epochs_inv s a (exitCritical (epoch_mgr_ s) slot) Hi) as [H1 H2]. by rewrite <- H2.
  - intros [= <- <-]. exists a. destruct (epochs_inv s a (tryAdvanceEpoch (epoch_mgr_ s)) Hi) as [H1 H2]. by rewrite <- H2.
  - destruct (owner s) eqn:Eo; try done. intros [= <- <-]. exists a. destruct (reclaim_inv s a Eo Hi) as [H1 H2]. by rewrite <- H2.
Qed.

Lemma run_kept acts s a s' evs : inv s a → run s acts = Some (s', evs) → kept s a evs s'.
Proof.
  revert s a evs. induction acts as [|act acts IH]; intros s a evs Hi; cbn [run]; [intros [= <- <-]; by exists a|].
  destruct (exec s act) as [[s1 evs1|]|] eqn:E1; [|done|done]. destruct (run s1 acts) as [[s2 evs2]|] eqn:E2; [|done].
  intros [= <- <-]. destruct (exec_kept s a act s1 evs1 Hi E1) as (a1 & Hi1 & R1).
  destruct (IH s1 a1 evs2 Hi1 E2) as (a2 & Hi2 & R2). exists a2. split; [done|]. by rewrite (spec_run_app _ _ _ _ R1).
Qed.

(** The owner never waits and never reads a deleted array. *)
Lemma owner_never_stuck s a : inv s a → owner s ≠ OwnerIdle → ∃ s' evs, exec s OwnerStep = Some (Step s' evs).
Proof.
  intros [H1 _ _ _ _ _ _ H8 _] Hn. unfold exec, push_step, pop_step, owner_ok, with_array in *.
  destruct (owner s) as [|x|x b|x b t|x b old new|x b old new|x b id|x b| |b|b id|b id|b item|b]; try done; try by eexists _, _.
  - rewrite H1. case_match; by eexists _, _.
  - destruct H8 as (_ & -> & _). rewrite H1. by eexists _, _.
  - destruct H8 as (_ & ->). rewrite H1. case_match; [case_match|]; by eexists _, _.
  - case_match; by eexists _, _.
Qed.

(** How many steps of its own the owner has left. *)
Definition owner_left (o : owner_pc) : nat :=
  match o with
  | OwnerIdle => 0 | PushBottom _ => 7 | PushTop _ _ => 6 | PushArray _ _ _ => 5 | PushStore _ _ _ _ => 4
  | PushRetire _ _ _ _ => 3 | PushPut _ _ _ => 2 | PushPublish _ _ => 1
  | PopBottom => 6 | PopArray _ => 5 | PopStore _ _ => 4 | PopTop _ _ => 3 | PopCas _ _ => 2 | PopRestore _ => 1
  end.

Lemma owner_progress s s' evs : exec s OwnerStep = Some (Step s' evs) → (owner_left (owner s') < owner_left (owner s))%nat.
Proof.
  unfold exec, push_step, pop_step, with_array.
  destruct (owner s) as [|x|x b|x b t|x b old new|x b old new|x b id|x b| |b|b id|b id|b item|b]; try done;
    try (intros [= <- <-]; cbn; lia); repeat case_match; try done; try (intros [= <- <-]; cbn; lia);
    try (match goal with H : Step _ _ = Step _ _ |- _ => injection H as <- <- end; cbn; lia).
  all: intros [= ]; subst; cbn; lia.
Qed.

(** * The theorems about the work-stealing deque *)

Lemma live_size s a : inv s a → owner s = OwnerIdle → Z.of_nat (length (live s a)) = size s ∧ (empty s = true ↔ live s a = []).
Proof.
  intros Hi Ho. pose proof (inv_order s a Hi) as Hord. unfold live, end_, size, empty, segment in *. rewrite Ho in *.
  rewrite length_map, length_seq. split; [destruct (0 <? bottom_ s - top_ s) eqn:?; lia|].
  rewrite Z.leb_le. split.
  - intros H. by replace (Z.to_nat (bottom_ s - top_ s)) with 0%nat by lia.
  - intros H%(f_equal length). rewrite length_map, length_seq in H. cbn in H. lia.
Qed.

Lemma owner_runs k s a : inv s a → (owner_left (owner s) <= k)%nat →
  ∃ j s' evs, (j <= k)%nat ∧ run s (replicate j OwnerStep) = Some (s', evs) ∧ owner s' = OwnerIdle.
Proof.
  revert s a. induction k as [|k IH]; intros s a Hi Hk.
  - exists 0%nat, s, []. split_and!; [done|done|]. destruct (owner s); cbn in Hk; try lia. done.
  - destruct (decide (owner_left (owner s) = 0)%nat) as [E|Hn].
    { exists 0%nat, s, []. split_and!; [lia|done|]. destruct (owner s); cbn in E; try lia. done. }
    destruct (owner_never_stuck s a Hi) as (s1 & evs1 & E1); [by intros E; rewrite E in Hn|].
    destruct (exec_kept s a OwnerStep s1 evs1 Hi E1) as (a1 & Hi1 & _). pose proof (owner_progress s s1 evs1 E1).
    destruct (IH s1 a1 Hi1 ltac:(lia)) as (j & s2 & evs2 & Hj & E2 & Ho).
    exists (S j), s2, (evs1 ++ evs2). split_and!; [lia| |done]. cbn [replicate run]. by rewrite E1, E2.
Qed.

(** C14: the work-stealing deque is linearizable: in any interleaving of the steps
    of its owner, any number of thieves and the epoch manager that reads no deleted
    array, the pushes, pops and steals, taken at the steps that decide them, are
    those of a double-ended queue (a pop answers that the queue is empty only when
    it is); so every item pushed is taken once or still in the deque, and between
    the owner's calls [size] and [empty] are exact. *)
Theorem deque_linearizable n acts s evs : 0 <= n → run (new_deque n) acts = Some (s, evs) →
  ∃ a, arrays s !! array_ s = Some a ∧ spec_run [] evs = Some (live s a)
  ∧ concat (map pushed_of evs) ≡ₚ concat (map taken_of evs) ++ live s a
  ∧ (owner s = OwnerIdle → Z.of_nat (length (live s a)) = size s ∧ (empty s = true ↔ live s a = [])).
Proof.
  intros Hn Hr. destruct (run_kept acts _ _ s evs (new_deque_inv n Hn) Hr) as (a & Hi & Hs).
  assert (live (new_deque n) (new_array n 0) = []) as E0 by done. rewrite E0 in Hs.
  exists a. split_and!; [apply Hi|done|exact (spec_run_balance evs [] _ Hs)|]. by apply live_size.
Qed.

(** Thief 0 reads the first array while the second push replaces it, and takes 5;
    thief 1 loses the race for 6 to the owner. *)
Definition race : list action :=
  [Push 5] ++ replicate 5 OwnerStep ++ [Steal 0; ThiefStep 0; ThiefStep 0; ThiefStep 0; Push 6] ++ replicate 7 OwnerStep
  ++ [ThiefStep 0; ThiefStep 0; Steal 1; ThiefStep 1; ThiefStep 1; Pop] ++ replicate 5 OwnerStep
  ++ [ThiefStep 1; ThiefStep 1; OwnerStep; ThiefStep 1; Push 7] ++ replicate 5 OwnerStep.

Lemma deque_linearizable_witness : ∃ s evs,
  run (new_deque 1) race = Some (s, evs)
  ∧ evs = [Pushed 5; Pushed 6; Stolen 0 5; Popped (Some 6); Pushed 7] ∧ array_ s = 2
  ∧ ∃ a, arrays s !! array_ s = Some a ∧ spec_run [] evs = Some (live s a)
    ∧ concat (map pushed_of evs) ≡ₚ concat (map taken_of evs) ++ live s a
    ∧ (owner s = OwnerIdle → Z.of_nat (length (live s a)) = size s ∧ (empty s = true ↔ live s a = [])).
Proof.
  destruct (run (new_deque 1) race) as [[s evs]|] eqn:E; [|vm_compute in E; discriminate].
  exists s, evs. split; [reflexivity|]. split; [|split].
  - vm_compute in E. injection E as _ <-. reflexivity.
  - vm_compute in E. injection E as <- _. reflexivity.
  - apply (deque_linearizable 1 race s evs); [lia|exact E].
Defined.

(** The owner of a work-stealing deque is wait-free and memory-safe: at every
    reachable moment its call ends within seven steps of its own, whatever the
    thieves have done, and the only step that can read a deleted array is a
    thief's, of an array the deque no longer uses. *)
Theorem deque_owner_wait_free n acts s evs : 0 <= n → run (new_deque n) acts = Some (s, evs) →
  (∃ j s' evs', (j <= 7)%nat ∧ run s (replicate j OwnerStep) = Some (s', evs') ∧ owner s' = OwnerIdle)
  ∧ ∀ act, exec s act = Some UseAfterFree →
      ∃ tid t id, act = ThiefStep tid ∧ thieves s !! tid = Some (StealGet t id) ∧ id ≠ array_ s ∧ arrays s !! id = None.
Proof.
  intros Hn Hr. destruct (run_kept acts _ _ s evs (new_deque_inv n Hn) Hr) as (a & Hi & _). split.
  - apply (owner_runs 7 s a Hi). destruct (owner s); cbn; lia.
  - intros act E. destruct act as [x| | |tid|tid|slot|slot| |]; cbn [exec] in E; try done.
    + unfold push_begin in E. by destruct (owner s).
    + unfold pop_begin in E. by destruct (owner s).
    + destruct (owner s) eqn:Eo; [unfold push_step, pop_step in E; by rewrite Eo in E| ..];
        (destruct (owner_never_stuck s a Hi) as (s1 & evs1 & E1); [by rewrite Eo|]; unfold exec in E1; congruence).
    + unfold steal_begin in E. by destruct (thieves s !! tid).
    + unfold steal_step, with_array in E. destruct (thieves s !! tid) as [p|] eqn:Ep; [|done].
      destruct p as [|t|t|t id|t item]; try done; [|by case_match].
      destruct (arrays s !! id) eqn:Ea; [done|]. exists tid, t, id. split_and!; try done.
      intros ->. rewrite (inv_array s a Hi) in Ea. done.
    + by destruct (owner s).
Qed.


(** ** The epochs do not protect a thief

    An array carries the epoch of its creation, not of its retirement: an old
    array that is replaced is deleted at the next reclamation, while a thief that
    has announced the current epoch reads it. *)
Definition unsafe : list action :=
  [Advance; Advance; Advance; Push 5] ++ replicate 5 OwnerStep ++ [Enter 0; Steal 0; ThiefStep 0; ThiefStep 0; ThiefStep 0; Advance; Push 6]
  ++ replicate 7 OwnerStep ++ [Reclaim].

Lemma epoch_unsafe : ∃ s evs, run (new_deque 1) unsafe = Some (s, evs)
  ∧ thread_epochs_ (epoch_mgr_ s) !! 0%nat = Some 3 ∧ thieves s !! 0%nat = Some (StealGet 0 1)
  ∧ exec s (ThiefStep 0) = Some UseAfterFree.
Proof.
  destruct (run (new_deque 1) unsafe) as [[s evs]|] eqn:E; [|vm_compute in E; discriminate].
  exists s, evs. split; [reflexivity|]. vm_compute in E. injection E as <- _. by vm_compute.
Qed.

(** A worker between two critical sections looks unregistered: another gets its slot. *)
Lemma slot_shared : let '(slot1, m) := registerThread new_epoch_manager in
  let m := exitCritical (enterCritical m slot1) slot1 in (registerThread m).1 = slot1.
Proof. by vm_compute. Qed.
