(* ===== verification/ThreadPool.v ===== *)
(** * ThreadPool: the thread pool (lib/backend/thread_pool.cpp)

    A step is one critical section, one access to an atomic, or one operation on
    a worker's deque; a deque is the list it holds ([WorkDequeProps]), whose steals
    may fail when another thread takes the same element.  Steps of the submitting
    threads, the workers and the thread that destroys the pool interleave freely.
    [queue_mutex] is held by the workers of [holds_lock]; a thread asleep on a
    condition variable moves when it is notified, or woken for no reason.

    A future has the identity of its task.  Times, the counters they fill and the
    back-off of an idle worker are not modelled; a call of a task returns or throws. *)

From stdpp Require Export gmap.
From S2P Require Export Prelude.
Local Open Scope Z_scope.

Record task := Task { task_id : Z; fn : Z; arg : Z; has_future : bool }.
Record future := Future { result : Z; completed : bool }.

(** Where a worker is in [work_stealing_worker_func] or [legacy_worker_func]. *)
Inductive worker :=
| LoopTop
| QueueSleep
| WaitTask
| PauseLock
| PauseBlock
| PauseSleep
| TryPop
| TrySteal (attempts : nat)
| TryExternal
| Hold (t : task)
| Running (t : task)
| Returned (t : task) (r : Z)
| Counted (t : task) (r : Z)
| Inactive (t : task) (r : Z)
| Exited.

(** A submission between its check of [stop] and its push, and between the push
    and the count; [from] is the worker that calls, [None] for another thread. *)
Inductive submission :=
| Accepted (from : option nat) (t : task)
| PushedTask (from : option nat) (t : task).

Record pool := Pool {
  use_work_stealing : bool;
  max_queue_size : Z;
  legacy_queue : list task;
  deques : list (list task);
  stop : bool;
  paused : bool;
  tasks_submitted : Z;
  tasks_completed : Z;
  active_workers : Z;
  peak_queue_depth : Z;
  workers : list worker;
  submissions : gmap nat submission;
  futures : gmap Z future;
  next_task : Z;
  joined : bool;
  (* history *)
  executed : list task;
  finished : list task;
  discarded : list task;
  refused : list task
}.

Section updates.
Context (p : pool).
Definition set_queue (q : list task) : pool :=
  Pool (use_work_stealing p) (max_queue_size p) q (deques p) (stop p) (paused p) (tasks_submitted p) (tasks_completed p) (active_workers p)
    (peak_queue_depth p) (workers p) (submissions p) (futures p) (next_task p) (joined p) (executed p) (finished p) (discarded p) (refused p).
Definition set_deques (d : list (list task)) : pool :=
  Pool (use_work_stealing p) (max_queue_size p) (legacy_queue p) d (stop p) (paused p) (tasks_submitted p) (tasks_completed p) (active_workers p)
    (peak_queue_depth p) (workers p) (submissions p) (futures p) (next_task p) (joined p) (executed p) (finished p) (discarded p) (refused p).
Definition set_flags (s pa : bool) : pool :=
  Pool (use_work_stealing p) (max_queue_size p) (legacy_queue p) (deques p) s pa (tasks_submitted p) (tasks_completed p) (active_workers p)
    (peak_queue_depth p) (workers p) (submissions p) (futures p) (next_task p) (joined p) (executed p) (finished p) (discarded p) (refused p).
Definition set_counters (submitted done active peak : Z) : pool :=
  Pool (use_work_stealing p) (max_queue_size p) (legacy_queue p) (deques p) (stop p) (paused p) submitted done active
    peak (workers p) (submissions p) (futures p) (next_task p) (joined p) (executed p) (finished p) (discarded p) (refused p).
Definition set_workers (l : list worker) : pool :=
  Pool (use_work_stealing p) (max_queue_size p) (legacy_queue p) (deques p) (stop p) (paused p) (tasks_submitted p) (tasks_completed p) (active_workers p)
    (peak_queue_depth p) l (submissions p) (futures p) (next_task p) (joined p) (executed p) (finished p) (discarded p) (refused p).
Definition set_worker (w : nat) (pc : worker) : pool := set_workers (<[w := pc]> (workers p)).
Definition set_submissions (m : gmap nat submission) (f : gmap Z future) (n : Z) : pool :=
  Pool (use_work_stealing p) (max_queue_size p) (legacy_queue p) (deques p) (stop p) (paused p) (tasks_submitted p) (tasks_completed p) (active_workers p)
    (peak_queue_depth p) (workers p) m f n (joined p) (executed p) (finished p) (discarded p) (refused p).
Definition set_futures (f : gmap Z future) : pool := set_submissions (submissions p) f (next_task p).
Definition set_joined : pool :=
  Pool (use_work_stealing p) (max_queue_size p) (legacy_queue p) (deques p) (stop p) (paused p) (tasks_submitted p) (tasks_completed p) (active_workers p)
    (peak_queue_depth p) (workers p) (submissions p) (futures p) (next_task p) true (executed p) (finished p) (discarded p) (refused p).
Definition set_history (e f d r : list task) : pool :=
  Pool (use_work_stealing p) (max_queue_size p) (legacy_queue p) (deques p) (stop p) (paused p) (tasks_submitted p) (tasks_completed p) (active_workers p)
    (peak_queue_depth p) (workers p) (submissions p) (futures p) (next_task p) (joined p) e f d r.
End updates.

(** [thread_pool_create]: [num_threads] threads start at the top of their loops. *)
Definition thread_pool_create (stealing : bool) (num_threads : nat) (task_queue_capacity : Z) : pool :=
  Pool stealing task_queue_capacity [] (if stealing then replicate num_threads [] else []) false false 0 0 0 0
    (replicate num_threads LoopTop) ∅ ∅ 0 false [] [] [] [].

Definition num_threads (p : pool) : nat := length (workers p).

(** ** The lock and the condition variables *)

Definition holds_lock (pc : worker) : bool := match pc with WaitTask | PauseBlock => true | _ => false end.
Definition lock_free (p : pool) : bool := forallb (λ pc, negb (holds_lock pc)) (workers p).

Definition on_queue_cv (pc : worker) : bool := match pc with QueueSleep => true | _ => false end.
Definition wake_queue (pc : worker) : worker := match pc with QueueSleep => LoopTop | _ => pc end.
Definition wake_pause (pc : worker) : worker := match pc with PauseSleep => PauseLock | _ => pc end.

(** [queue_cv.notify_one()]: [w] is the thread it wakes, when one sleeps. *)
Definition queue_cv_notify_one (p : pool) (w : nat) : option pool :=
  match workers p !! w with
  | Some QueueSleep => Some (set_worker p w LoopTop)
  | _ => if existsb on_queue_cv (workers p) then None else Some p
  end.
Definition queue_cv_notify_all (p : pool) : pool := set_workers p (map wake_queue (workers p)).
Definition pause_cv_notify_all (p : pool) : pool := set_workers p (map wake_pause (workers p)).

(** ** Submission *)

Definition thread_pool_legacy_queue_full_locked (p : pool) : bool :=
  (0 <? max_queue_size p) && (max_queue_size p <=? Z.of_nat (length (legacy_queue p))).

Definition thread_pool_note_queue_depth (p : pool) (depth : Z) : pool :=
  set_counters p (tasks_submitted p) (tasks_completed p) (active_workers p) (Z.max (peak_queue_depth p) depth).

Definition count_submitted (p : pool) : pool :=
  set_counters p (tasks_submitted p + 1) (tasks_completed p) (active_workers p) (peak_queue_depth p).

(** The worker [from] is running a task, so it may call. *)
Definition may_call (p : pool) (from : option nat) : bool :=
  match from with
  | None => true
  | Some w => match workers p !! w with Some (Running _) => true | _ => false end
  end.

(** [thread_pool_submit] and [thread_pool_submit_detached] up to the push: [c] names the call. *)
Definition thread_pool_submit (p : pool) (c : nat) (from : option nat) (fn arg : Z) (with_future : bool) : option pool :=
  match submissions p !! c with
  | Some _ => None
  | None =>
      if negb (may_call p from) then None
      else if stop p then Some p
      else
        let t := Task (next_task p) fn arg with_future in
        Some (set_submissions p (<[c := Accepted from t]> (submissions p))
          (if with_future then <[next_task p := Future 0 false]> (futures p) else futures p) (next_task p + 1))
  end.

(** The push to the shared queue under its lock, which wakes [wake] in legacy mode. *)
Definition queue_push (p : pool) (c wake : nat) (from : option nat) (t : task) : option pool :=
  if negb (lock_free p) then None
  else if thread_pool_legacy_queue_full_locked p then
    Some (set_history (set_submissions p (delete c (submissions p)) (if has_future t then delete (task_id t) (futures p) else futures p) (next_task p))
      (executed p) (finished p) (discarded p) (t :: refused p))
  else
    let p := set_queue p (legacy_queue p ++ [t]) in
    let p := thread_pool_note_queue_depth p (Z.of_nat (length (legacy_queue p))) in
    if use_work_stealing p then Some (set_submissions p (<[c := PushedTask from t]> (submissions p)) (futures p) (next_task p))
    else queue_cv_notify_one (set_submissions (count_submitted p) (delete c (submissions p)) (futures p) (next_task p)) wake.

(** The push to the caller's own deque. *)
Definition deque_push (p : pool) (c w : nat) (t : task) : option pool :=
  match deques p !! w with
  | Some d => Some (set_submissions (set_deques p (<[w := d ++ [t]]> (deques p))) (<[c := PushedTask (Some w) t]> (submissions p)) (futures p) (next_task p))
  | None => None
  end.

Definition submit_push (p : pool) (c wake : nat) : option pool :=
  match submissions p !! c with
  | Some (Accepted from t) =>
      match use_work_stealing p, from with
      | true, Some w => deque_push p c w t
      | _, _ => queue_push p c wake from t
      end
  | _ => None
  end.

(** [tasks_submitted.fetch_add(1)] after a push in work-stealing mode. *)
Definition submit_count (p : pool) (c : nat) : option pool :=
  match submissions p !! c with
  | Some (PushedTask _ t) => Some (set_submissions (count_submitted p) (delete c (submissions p)) (futures p) (next_task p))
  | _ => None
  end.

(** ** Workers *)

Section steps.
(** [task->fn(task->arg)]: its result, [None] when it throws. *)
Context (call : Z → Z → option Z).

Definition outcome_of (t : task) : Z := default 0 (call (fn t) (arg t)).

(** What a step does, [Freed] when it uses the pool or a future that was deleted. *)
Inductive pool_outcome := Next (p : pool) | Freed.
Definition next (o : option pool) : option pool_outcome := option_map Next o.

(** The future of [t] is completed with [r]. *)
Definition complete_future (p : pool) (t : task) (r : Z) : pool_outcome :=
  if has_future t then
    match futures p !! task_id t with
    | Some _ => Next (set_futures p (<[task_id t := Future r true]> (futures p)))
    | None => Freed
    end
  else Next p.

(** Executing a task, from the moment it is taken. *)
Definition execute_step (p : pool) (w : nat) (pc : worker) : option pool_outcome :=
  match pc with
  | Hold t => Some (Next (set_worker (set_counters p (tasks_submitted p) (tasks_completed p) (active_workers p + 1) (peak_queue_depth p)) w (Running t)))
  | Running t =>
      Some (Next (set_worker (set_history p (executed p ++ [t]) (finished p) (discarded p) (refused p)) w (Returned t (outcome_of t))))
  | Returned t r => Some (Next (set_worker (set_counters p (tasks_submitted p) (tasks_completed p + 1) (active_workers p) (peak_queue_depth p)) w (Counted t r)))
  | Counted t r => Some (Next (set_worker (set_counters p (tasks_submitted p) (tasks_completed p) (active_workers p - 1) (peak_queue_depth p)) w (Inactive t r)))
  | Inactive t r =>
      match complete_future p t r with
      | Next p => Some (Next (set_worker (set_history p (executed p) (t :: finished p) (discarded p) (refused p)) w LoopTop))
      | Freed => Some Freed
      end
  | _ => None
  end.

(** [calling w]: a submission made by the task of [w] is under way. *)
Definition is_from (w : nat) (s : submission) : bool :=
  match s with Accepted from _ | PushedTask from _ => bool_decide (from = Some w) end.
Definition calling (p : pool) (w : nat) : bool := existsb (λ cs, is_from w cs.2) (map_to_list (submissions p)).

Definition set_deque (p : pool) (w : nat) (d : list task) : pool := set_deques p (<[w := d]> (deques p)).

(** [victim] is the random choice of this attempt, [lost] whether another thread won the race. *)
Definition work_stealing_step (p : pool) (w victim : nat) (lost : bool) (pc : worker) : option pool_outcome :=
  match pc with
  | LoopTop => next (Some (set_worker p w (if stop p then Exited else if paused p then PauseLock else TryPop)))
  | PauseLock =>
      if negb (lock_free p) then None
      else next (Some (set_worker p w (if stop p then Exited else if paused p then PauseBlock else TryPop)))
  | PauseBlock => next (Some (set_worker p w PauseSleep))
  | TryPop =>
      match deques p !! w with
      | Some d =>
          match list.last d with
          | Some t => next (Some (set_worker (set_deque p w (take (length d - 1) d)) w (Hold t)))
          | None => next (Some (set_worker p w (TrySteal (num_threads p))))
          end
      | None => None
      end
  | TrySteal O => next (Some (set_worker p w TryExternal))
  | TrySteal (S attempts) =>
      if (victim =? w)%nat then next (Some (set_worker p w (TrySteal attempts)))
      else
        match deques p !! victim with
        | Some (t :: d) =>
            if lost then next (Some (set_worker p w (TrySteal attempts)))
            else next (Some (set_worker (set_deque p victim d) w (Hold t)))
        | Some [] => next (Some (set_worker p w (TrySteal attempts)))
        | None => None
        end
  | TryExternal =>
      if negb (lock_free p) then None
      else
        match legacy_queue p with
        | t :: q => next (Some (if paused p then set_worker p w LoopTop else set_worker (set_queue p q) w (Hold t)))
        | [] => next (Some (set_worker p w LoopTop))
        end
  | _ => execute_step p w pc
  end.

(** The wait on [queue_cv], then, with the lock, the wait for the end of a pause and the choice. *)
Definition legacy_step (p : pool) (w : nat) (pc : worker) : option pool_outcome :=
  match pc with
  | LoopTop =>
      if negb (lock_free p) then None
      else
        let ready := stop p || (negb (paused p) && negb (bool_decide (legacy_queue p = []))) in
        next (Some (set_worker p w (if ready then WaitTask else QueueSleep)))
  | WaitTask =>
      if paused p && negb (stop p) then next (Some (set_worker p w PauseBlock))
      else
        match legacy_queue p with
        | t :: q => next (Some (set_worker (set_queue p q) w (Hold t)))
        | [] => next (Some (set_worker p w (if stop p then Exited else LoopTop)))
        end
  | PauseBlock => next (Some (set_worker p w PauseSleep))
  | PauseLock => if negb (lock_free p) then None else next (Some (set_worker p w WaitTask))
  | _ => execute_step p w pc
  end.

Definition worker_step (p : pool) (w victim : nat) (lost : bool) : option pool_outcome :=
  match workers p !! w with
  | Some pc =>
      if calling p w then None
      else if use_work_stealing p then work_stealing_step p w victim lost pc else legacy_step p w pc
  | None => None
  end.

(** A wait ends without a notification. *)
Definition spurious_wakeup (p : pool) (w : nat) : option pool :=
  match workers p !! w with
  | Some QueueSleep => Some (set_worker p w LoopTop)
  | Some PauseSleep => Some (set_worker p w PauseLock)
  | _ => None
  end.

(** ** Control *)

Definition thread_pool_pause (p : pool) : pool := set_flags p (stop p) true.
Definition thread_pool_resume (p : pool) : pool := pause_cv_notify_all (set_flags p (stop p) false).

(** [thread_pool_destroy] up to the joins. *)
Definition destroy_begin (p : pool) : option pool :=
  if lock_free p then Some (pause_cv_notify_all (queue_cv_notify_all (set_flags p true false))) else None.

Definition is_exited (pc : worker) : bool := match pc with Exited => true | _ => false end.

(** A task that is left is deleted, its future completed without a result. *)
Definition discard (p : pool) (t : task) : pool_outcome :=
  let p := set_history p (executed p) (finished p) (t :: discarded p) (refused p) in
  if has_future t then
    match futures p !! task_id t with
    | Some f => Next (set_futures p (<[task_id t := Future (result f) true]> (futures p)))
    | None => Freed
    end
  else Next p.

Fixpoint discard_all (p : pool) (l : list task) : pool_outcome :=
  match l with
  | [] => Next p
  | t :: l => match discard p t with Next p => discard_all p l | Freed => Freed end
  end.

(** The rest, once every worker has been joined: a deque is emptied from the bottom. *)
Definition destroy_end (p : pool) : option pool_outcome :=
  if stop p && forallb is_exited (workers p) then
    let left := (if use_work_stealing p then concat (map (@rev task) (deques p)) else []) ++ legacy_queue p in
    let p := set_queue (set_deques p (map (λ _, []) (deques p))) [] in
    Some (match discard_all p left with Next p => Next (set_joined p) | Freed => Freed end)
  else None.

(** ** Futures *)

(** The result, once completed; [None] while the call waits. *)
Definition future_get (p : pool) (f : Z) : option Z :=
  match futures p !! f with Some f => if completed f then Some (result f) else None | None => None end.

Definition future_is_ready (p : pool) (f : Z) : bool :=
  match futures p !! f with Some f => completed f | None => false end.

Definition future_release (p : pool) (f : Z) : pool_outcome :=
  match futures p !! f with Some _ => Next (set_futures p (delete f (futures p))) | None => Freed end.

(** What [thread_pool_wait_idle] adds up before it looks at the active workers. *)
Definition pending (p : pool) : Z :=
  (if use_work_stealing p then Z.of_nat (sum_list (map (@length task) (deques p))) else 0) + Z.of_nat (length (legacy_queue p)).
Definition thread_pool_wait_idle_exit (p : pool) : bool := (pending p =? 0) && (active_workers p =? 0).

(** ** Runs *)

Inductive pool_action :=
| Submit (c : nat) (from : option nat) (fn arg : Z) (with_future : bool)
| SubmitPush (c wake : nat)
| SubmitCount (c : nat)
| WorkerStep (w victim : nat) (lost : bool)
| Wakeup (w : nat)
| Pause | Resume
| DestroyBegin | DestroyEnd
| Release (f : Z).

Definition pool_exec (p : pool) (a : pool_action) : option pool_outcome :=
  match a with
  | Release f => Some (future_release p f)
  | _ =>
      if joined p then Some Freed
      else
        match a with
        | Submit c from fn arg b => next (thread_pool_submit p c from fn arg b)
        | SubmitPush c wake => next (submit_push p c wake)
        | SubmitCount c => next (submit_count p c)
        | WorkerStep w victim lost => worker_step p w victim lost
        | Wakeup w => next (spurious_wakeup p w)
        | Pause => Some (Next (thread_pool_pause p))
        | Resume => Some (Next (thread_pool_resume p))
        | DestroyBegin => next (destroy_begin p)
        | _ => destroy_end p
        end
  end.

(** What a client may do: release a future once it is ready, stop before it destroys. *)
Definition client_ok (p : pool) (a : pool_action) : bool :=
  match a with Release f => future_is_ready p f | _ => true end.

Fixpoint pool_run (p : pool) (acts : list pool_action) : option pool :=
  match acts with
  | [] => Some p
  | a :: acts => match pool_exec p a with Some (Next p) => pool_run p acts | _ => None end
  end.

(** The states a careful client can bring the pool to. *)
Inductive pool_reachable (p0 : pool) : pool → Prop :=
| reach_start : pool_reachable p0 p0
| reach_step p a p' : pool_reachable p0 p → client_ok p a = true → pool_exec p a = Some (Next p') → pool_reachable p0 p'.
End steps.
