(* ===== verification/ThreadPoolInv.v ===== *)
(** * ThreadPoolInv: the invariant of the pool and its steps *)

From stdpp Require Export gmap.
From S2P Require Export Prelude ThreadPool.
Local Open Scope Z_scope.

(** * counting, and what the steps of the pool keep *)

(** * Sums over lists and maps, and permutations by counting *)

(** The sum of [f] over a list, and over the values of a map. *)
Definition lsum {A} (f : A → nat) (l : list A) : nat := sum_list (map f l).
Definition msum {A} (f : A → nat) (m : gmap nat A) : nat := lsum (λ cs, f cs.2) (map_to_list m).

Section lists.
Context {A : Type} (f : A → nat).

Lemma lsum_nil : lsum f [] = 0%nat.
Proof. done. Qed.
Lemma lsum_cons x l : lsum f (x :: l) = (f x + lsum f l)%nat.
Proof. done. Qed.
Lemma lsum_app l l' : lsum f (l ++ l') = (lsum f l + lsum f l')%nat.
Proof. induction l as [|x l IH]; cbn [app]; rewrite ?lsum_cons; [done|rewrite IH; lia]. Qed.
Lemma lsum_perm l l' : l ≡ₚ l' → lsum f l = lsum f l'.
Proof. unfold lsum. induction 1; cbn in *; lia. Qed.
Lemma lsum_rev l : lsum f (rev l) = lsum f l.
Proof. apply lsum_perm. symmetry. apply Permutation_rev. Qed.
Lemma lsum_replicate n x : f x = 0%nat → lsum f (replicate n x) = 0%nat.
Proof. intros H. induction n as [|n IH]; [done|]. cbn [replicate]. rewrite lsum_cons. lia. Qed.
Lemma lsum_zero l : Forall (λ x, f x = 0%nat) l → lsum f l = 0%nat.
Proof. induction 1 as [|x l Hx _ IH]; [done|]. rewrite lsum_cons. lia. Qed.
Lemma lsum_elem l x : x ∈ l → (f x <= lsum f l)%nat.
Proof. induction 1 as [x l|x y l _ IH]; rewrite lsum_cons; lia. Qed.
Lemma lsum_pos l : (0 < lsum f l)%nat → ∃ x, x ∈ l ∧ (0 < f x)%nat.
Proof.
  induction l as [|y l IH]; [cbn; lia|]. rewrite lsum_cons. intros H. destruct (decide (0 < f y)%nat) as [Hy|Hy].
  - exists y. split; [apply list_elem_of_here|done].
  - destruct IH as (x & Hx & Hf); [lia|]. exists x. split; [by apply list_elem_of_further|done].
Qed.

(** Changing one element of a list changes its sum by that element. *)
Lemma lsum_insert l i x y : l !! i = Some x → (lsum f (<[i:=y]> l) + f x = lsum f l + f y)%nat.
Proof.
  revert i. induction l as [|z l IH]; intros i; [done|]. destruct i as [|i].
  - intros [= ->]. change (<[0%nat:=y]> (x :: l)) with (y :: l). rewrite !lsum_cons. lia.
  - intros H. change (<[S i:=y]> (z :: l)) with (z :: <[i:=y]> l). rewrite !lsum_cons. specialize (IH i H). lia.
Qed.

Lemma lsum_last l x : list.last l = Some x → (lsum f (take (length l - 1) l) + f x = lsum f l)%nat.
Proof.
  intros H. apply last_Some in H as [l' ->]. rewrite length_app. cbn [length].
  replace (length l' + 1 - 1)%nat with (length l') by lia. rewrite take_app_length, lsum_app, lsum_cons, lsum_nil. lia.
Qed.
End lists.

Lemma lsum_ext {A} (f g : A → nat) l : (∀ x, f x = g x) → lsum f l = lsum g l.
Proof. intros H. unfold lsum. f_equal. by apply map_ext. Qed.
Lemma lsum_plus {A} (f g : A → nat) l : lsum (λ x, (f x + g x)%nat) l = (lsum f l + lsum g l)%nat.
Proof. induction l as [|x l IH]; [done|]. rewrite !lsum_cons. lia. Qed.
Lemma lsum_one {A} (l : list A) : lsum (λ _, 1%nat) l = length l.
Proof. induction l as [|x l IH]; [done|]. rewrite lsum_cons. cbn [length]. lia. Qed.
Lemma lsum_map {A B} (f : B → nat) (h : A → B) l : lsum f (map h l) = lsum (λ x, f (h x)) l.
Proof. unfold lsum. by rewrite map_map. Qed.
Lemma lsum_concat {A} (f : A → nat) ls : lsum f (concat ls) = lsum (lsum f) ls.
Proof. induction ls as [|l ls IH]; [done|]. cbn [concat]. rewrite lsum_app, lsum_cons. lia. Qed.

Section maps.
Context {A : Type} (f : A → nat).

Lemma msum_empty : msum f ∅ = 0%nat.
Proof. unfold msum. by rewrite map_to_list_empty. Qed.
Lemma msum_insert m i x : m !! i = None → msum f (<[i:=x]> m) = (f x + msum f m)%nat.
Proof. intros H. unfold msum. rewrite (lsum_perm _ _ _ (map_to_list_insert m i x H)). by rewrite lsum_cons. Qed.
Lemma msum_delete m i x : m !! i = Some x → (msum f (delete i m) + f x = msum f m)%nat.
Proof. intros H. unfold msum. rewrite <- (lsum_perm _ _ _ (map_to_list_delete m i x H)). rewrite lsum_cons. cbn. lia. Qed.
Lemma msum_replace m i x y : m !! i = Some x → (msum f (<[i:=y]> m) + f x = msum f m + f y)%nat.
Proof.
  intros H. rewrite <- insert_delete_eq, msum_insert by apply lookup_delete_eq. pose proof (msum_delete m i x H). lia.
Qed.
Lemma msum_elem m i x : m !! i = Some x → (f x <= msum f m)%nat.
Proof. intros H. pose proof (msum_delete m i x H). lia. Qed.
Lemma msum_pos m : (0 < msum f m)%nat → ∃ i x, m !! i = Some x ∧ (0 < f x)%nat.
Proof. intros ((i & x) & H%elem_of_map_to_list & Hf)%lsum_pos. by exists i, x. Qed.
End maps.

(** Lists with the same occurrences are permutations of each other. *)
Definition occurrences (i : Z) (l : list Z) : nat := lsum (λ j, if (j =? i)%Z then 1%nat else 0%nat) l.

Lemma permutation_by_counting l l' : (∀ i, occurrences i l = occurrences i l') → l ≡ₚ l'.
Proof.
  revert l'. induction l as [|x l IH]; intros l' H.
  - destruct l' as [|y l']; [done|]. specialize (H y). unfold occurrences in H. rewrite lsum_nil, lsum_cons, Z.eqb_refl in H. lia.
  - assert (x ∈ l') as Hx.
    { specialize (H x). unfold occurrences in H. rewrite lsum_cons, Z.eqb_refl in H.
      destruct (lsum_pos (λ j, if (j =? x)%Z then 1%nat else 0%nat) l') as (y & Hy & Hp); [lia|]. destruct (Z.eqb_spec y x) as [->|]; [done|lia]. }
    apply list_elem_of_split in Hx as (l1 & l2 & ->). rewrite <- Permutation_middle. constructor. apply IH. intros i. specialize (H i).
    unfold occurrences in *. rewrite lsum_cons, lsum_app, lsum_cons in H. rewrite lsum_app. lia.
Qed.

Lemma occurrences_range i n : occurrences i (map Z.of_nat (seq 0 n)) = if bool_decide (0 <= i < Z.of_nat n)%Z then 1%nat else 0%nat.
Proof.
  unfold occurrences. induction n as [|n IH]; [rewrite bool_decide_eq_false_2 by lia; done|].
  rewrite seq_S, map_app, lsum_app, IH. cbn [map]. rewrite lsum_cons, lsum_nil. cbn [plus].
  destruct (Z.eqb_spec (Z.of_nat n) i) as [E|E]; repeat case_bool_decide; lia.
Qed.

(** * Where every task of the pool is

    The accounts of the pool: every task is in exactly one place, the history and
    the counters agree with where the workers are.  Each is an equation between
    sums over the parts of the state, for any weight of the tasks. *)

(** ** Places *)

(** The task a worker holds, and the one whose function has returned. *)
Definition held (pc : worker) : list task :=
  match pc with Hold t | Running t | Returned t _ | Counted t _ | Inactive t _ => [t] | _ => [] end.
Definition ran (pc : worker) : list task :=
  match pc with Returned t _ | Counted t _ | Inactive t _ => [t] | _ => [] end.
Definition is_active (pc : worker) : nat := match pc with Running _ | Returned _ _ | Counted _ _ => 1 | _ => 0 end.
Definition is_counted (pc : worker) : nat := match pc with Counted _ _ | Inactive _ _ => 1 | _ => 0 end.
Definition waiting (s : submission) : list task := match s with Accepted _ t => [t] | PushedTask _ _ => [] end.
Definition uncounted (s : submission) : nat := match s with Accepted _ _ => 0 | PushedTask _ _ => 1 end.

Definition waiting_tasks (p : pool) : list task := concat (map (λ cs, waiting cs.2) (map_to_list (submissions p))).
Definition queued_tasks (p : pool) : list task := legacy_queue p ++ concat (deques p).
Definition held_tasks (p : pool) : list task := concat (map held (workers p)).

(** Every task there has been. *)
Definition all_tasks (p : pool) : list task :=
  waiting_tasks p ++ queued_tasks p ++ held_tasks p ++ finished p ++ discarded p ++ refused p.

(** The weight of the tasks that are on their way to the pool, and in it. *)
Definition waiting_weight (g : task → nat) (p : pool) : nat := msum (λ s, lsum g (waiting s)) (submissions p).
Definition inside_weight (g : task → nat) (p : pool) : nat :=
  (lsum g (legacy_queue p) + lsum (lsum g) (deques p) + lsum (λ pc, lsum g (held pc)) (workers p))%nat.
Definition entered_weight (g : task → nat) (p : pool) : nat :=
  (inside_weight g p + lsum g (finished p) + lsum g (discarded p))%nat.
Definition weight (g : task → nat) (p : pool) : nat := (waiting_weight g p + entered_weight g p + lsum g (refused p))%nat.

Lemma weight_all g p : lsum g (all_tasks p) = weight g p.
Proof.
  unfold weight, entered_weight, inside_weight, waiting_weight, all_tasks, waiting_tasks, queued_tasks, held_tasks, msum.
  rewrite !lsum_app, !lsum_concat, !lsum_map. cbn. lia.
Qed.

Definition has_id (i : Z) (t : task) : nat := if task_id t =? i then 1%nat else 0%nat.

Record accounts (p : pool) : Prop := {
  acc_next : 0 <= next_task p;
  acc_ids : ∀ i, weight (has_id i) p = if bool_decide (0 <= i < next_task p) then 1%nat else 0%nat;
  acc_executed : ∀ g, lsum g (executed p) = (lsum g (finished p) + lsum (λ pc, lsum g (ran pc)) (workers p))%nat;
  acc_active : active_workers p = Z.of_nat (lsum is_active (workers p));
  acc_completed : tasks_completed p = Z.of_nat (length (finished p) + lsum is_counted (workers p));
  acc_submitted : tasks_submitted p + Z.of_nat (msum uncounted (submissions p)) = Z.of_nat (entered_weight (λ _, 1%nat) p)
}.

(** ** Steps that keep the accounts *)

(** The sums after a worker has moved. *)
Lemma worker_moved p w pc pc' : workers p !! w = Some pc →
  (∀ g, lsum (λ pc, lsum g (held pc)) (<[w:=pc']> (workers p)) + lsum g (held pc) = lsum (λ pc, lsum g (held pc)) (workers p) + lsum g (held pc'))%nat
  ∧ (∀ g, lsum (λ pc, lsum g (ran pc)) (<[w:=pc']> (workers p)) + lsum g (ran pc) = lsum (λ pc, lsum g (ran pc)) (workers p) + lsum g (ran pc'))%nat
  ∧ (lsum is_active (<[w:=pc']> (workers p)) + is_active pc = lsum is_active (workers p) + is_active pc')%nat
  ∧ (lsum is_counted (<[w:=pc']> (workers p)) + is_counted pc = lsum is_counted (workers p) + is_counted pc')%nat.
Proof.
  intros H. split_and!.
  - intros g. exact (lsum_insert (λ pc, lsum g (held pc)) _ _ _ _ H).
  - intros g. exact (lsum_insert (λ pc, lsum g (ran pc)) _ _ _ _ H).
  - exact (lsum_insert is_active _ _ _ _ H).
  - exact (lsum_insert is_counted _ _ _ _ H).
Qed.

#[local] Arguments lsum : simpl never.
#[local] Arguments msum : simpl never.

(** Closes the equations of [accounts] once the moved sums are in the context. *)
Ltac balance :=
  unfold weight, entered_weight, inside_weight, waiting_weight in *;
  cbn [legacy_queue deques workers submissions finished discarded refused executed active_workers tasks_completed tasks_submitted next_task
       set_queue set_deques set_deque set_flags set_counters set_workers set_worker set_submissions set_futures set_joined set_history
       count_submitted thread_pool_note_queue_depth held ran is_active is_counted waiting uncounted length] in *;
  rewrite ?lsum_app, ?lsum_cons, ?lsum_nil in *.

(** A worker has moved: every account follows from the sums. *)
Ltac moved_to M1 M2 H2 H3 :=
  split; balance;
  [ done
  | let i := fresh "i" in intros i; specialize (M1 (has_id i)); specialize (H2 i); balance; lia
  | let g := fresh "g" in intros g; specialize (M2 g); specialize (H3 g); balance; lia
  | lia
  | lia
  | specialize (M1 (λ _, 1%nat)); balance; lia ].
Ltac moved p w pc' Hw H2 H3 :=
  let M1 := fresh "M" in let M2 := fresh "M" in let M3 := fresh "M" in let M4 := fresh "M" in
  destruct (worker_moved p w _ pc' Hw) as (M1 & M2 & M3 & M4); moved_to M1 M2 H2 H3.

Lemma accounts_worker p w pc pc' : accounts p → workers p !! w = Some pc → held pc' = held pc → ran pc' = ran pc →
  is_active pc' = is_active pc → is_counted pc' = is_counted pc → accounts (set_worker p w pc').
Proof.
  intros [H1 H2 H3 H4 H5 H6] Hw E1 E2 E3 E4. destruct (worker_moved p w pc pc' Hw) as (M1 & M2 & M3 & M4).
  rewrite E1 in M1. rewrite E2 in M2. moved_to M1 M2 H2 H3.
Qed.

Definition is_idle (pc : worker) : Prop := held pc = [] ∧ is_active pc = 0%nat ∧ is_counted pc = 0%nat.

Lemma accounts_idle p w pc pc' : accounts p → workers p !! w = Some pc → is_idle pc → is_idle pc' → accounts (set_worker p w pc').
Proof.
  intros Ha Hw (E1 & E2 & E3) (E1' & E2' & E3'). apply (accounts_worker p w pc); [done|done|congruence| |congruence|congruence].
  destruct pc, pc'; try done.
Qed.

(** A worker takes [t] from the queue or a deque. *)
Lemma accounts_take p w pc t q d : accounts p → workers p !! w = Some pc → is_idle pc →
  (∀ g, lsum g q + lsum (lsum g) d + g t = lsum g (legacy_queue p) + lsum (lsum g) (deques p))%nat →
  accounts (set_worker (set_queue (set_deques p d) q) w (Hold t)).
Proof.
  intros [H1 H2 H3 H4 H5 H6] Hw (E1 & E2 & E3) Hq. destruct (worker_moved p w pc (Hold t) Hw) as (M1 & M2 & M3 & M4).
  assert (Er : ran pc = []) by (by destruct pc). split; balance; [done|intros i|intros g|..].
  - specialize (M1 (has_id i)). rewrite E1 in M1. specialize (H2 i). specialize (Hq (has_id i)). balance. lia.
  - specialize (M2 g). rewrite Er in M2. specialize (H3 g). balance. lia.
  - lia.
  - lia.
  - specialize (M1 (λ _, 1%nat)). rewrite E1 in M1. specialize (Hq (λ _, 1%nat)). balance. lia.
Qed.

Lemma accounts_set_futures p f : accounts p → accounts (set_futures p f).
Proof. by intros [H1 H2 H3 H4 H5 H6]; split. Qed.
Lemma accounts_set_flags p s pa : accounts p → accounts (set_flags p s pa).
Proof. by intros [H1 H2 H3 H4 H5 H6]; split. Qed.

Lemma complete_future_fields p t r p' : complete_future p t r = Next p' → ∃ f, p' = set_futures p f.
Proof.
  unfold complete_future. destruct (has_future t); [|intros [= <-]; exists (futures p); by destruct p].
  destruct (futures p !! task_id t); [|done]. intros [= <-]. by eexists.
Qed.

Section calls.
Context (call : Z → Z → option Z).

Lemma accounts_execute p w pc p' : accounts p → workers p !! w = Some pc →
  execute_step call p w pc = Some (Next p') → accounts p'.
Proof.
  intros Ha Hw. pose proof Ha as [H1 H2 H3 H4 H5 H6]. unfold execute_step. destruct pc as [| | | | | | | | |t|t|t r|t r|t r|]; try done.
  - intros [= <-]. moved p w (Running t) Hw H2 H3.
  - intros [= <-]. moved p w (Returned t (outcome_of call t)) Hw H2 H3.
  - intros [= <-]. moved p w (Counted t r) Hw H2 H3.
  - intros [= <-]. moved p w (Inactive t r) Hw H2 H3.
  - destruct (complete_future p t r) as [p1|] eqn:Ec; [|done]. intros [= <-]. apply complete_future_fields in Ec as [f ->].
    moved p w LoopTop Hw H2 H3.
Qed.

Lemma next_inv o r : next o = Some r → ∃ p', o = Some p' ∧ r = Next p'.
Proof. destruct o as [p'|]; [intros [= <-]; by exists p'|done]. Qed.

(** ** What a worker's step does *)

(** The states of the two modes, and those of a worker that waits for the end of a pause or for a task. *)
Definition of_mode (stealing : bool) (pc : worker) : bool :=
  match pc with QueueSleep | WaitTask => negb stealing | TryPop | TrySteal _ | TryExternal => stealing | _ => true end.
Definition asleep (pc : worker) : bool := match pc with QueueSleep | PauseBlock | PauseSleep => true | _ => false end.

(** A move between two tasks: the lock is taken when it is free, and no worker goes to sleep in a pool that stops. *)
Record moves_idle (p : pool) (pc pc' : worker) : Prop := {
  mv_from : is_idle pc;
  mv_to : is_idle pc';
  mv_mode : of_mode (use_work_stealing p) pc' = true;
  mv_lock : holds_lock pc' = true → holds_lock pc = true ∨ lock_free p = true;
  mv_sleep : stop p = true → asleep pc' = true → asleep pc = true;
  mv_exit : is_exited pc' = true → stop p = true
}.

Inductive worker_move (p : pool) (w : nat) (pc : worker) : pool → Prop :=
| move_idle pc' : moves_idle p pc pc' → worker_move p w pc (set_worker p w pc')
| move_take t q d : is_idle pc →
    (∀ g, lsum g q + lsum (lsum g) d + g t = lsum g (legacy_queue p) + lsum (lsum g) (deques p))%nat →
    (length q <= length (legacy_queue p))%nat → length d = length (deques p) →
    worker_move p w pc (set_worker (set_queue (set_deques p d) q) w (Hold t))
| move_run p' : execute_step call p w pc = Some (Next p') → worker_move p w pc p'.

Lemma work_stealing_step_move p w victim lost pc p' : use_work_stealing p = true →
  work_stealing_step call p w victim lost pc = Some (Next p') → worker_move p w pc p'.
Proof.
  intros Hm. unfold work_stealing_step.
  destruct pc as [| | | | | | |n| |t|t|t r|t r|t r|]; try (intros E; by apply move_run).
  - intros [= <-]. apply move_idle. destruct (stop p) eqn:Es, (paused p); (split; [done|done|done|by left|by rewrite ?Es|done]).
  - destruct (lock_free p) eqn:El; [|done]. intros [= <-]. apply move_idle.
    destruct (stop p) eqn:Es, (paused p); (split; [done|done|done|by right|by rewrite ?Es|done]).
  - intros [= <-]. apply move_idle. by split.
  - destruct (deques p !! w) as [d|] eqn:Ed; [|done]. destruct (list.last d) as [t|] eqn:El; intros [= <-].
    + refine (move_take p w TryPop t (legacy_queue p) (<[w:=take (length d - 1) d]> (deques p)) _ _ _ _); [done| |done|by rewrite length_insert].
      intros g. pose proof (lsum_insert (lsum g) _ _ _ (take (length d - 1) d) Ed). pose proof (lsum_last g d t El). lia.
    + apply move_idle. by split.
  - assert (Hgo : ∀ pc', pc' = TryExternal ∨ (∃ n, pc' = TrySteal n) → worker_move p w (TrySteal n) (set_worker p w pc')).
    { intros pc' Hpc. apply move_idle. destruct Hpc as [->|[m ->]]; (split; [done|done|by rewrite Hm|done|done|done]). }
    destruct n as [|n]; [intros [= <-]; apply Hgo; by left|].
    destruct (victim =? w)%nat; [intros [= <-]; apply Hgo; right; by exists n|].
    destruct (deques p !! victim) as [[|t d]|] eqn:Ed; [intros [= <-]; apply Hgo; right; by exists n| |done].
    destruct lost; intros [= <-]; [apply Hgo; right; by exists n|].
    refine (move_take p w (TrySteal (S n)) t (legacy_queue p) (<[victim:=d]> (deques p)) _ _ _ _); [done| |done|by rewrite length_insert].
    intros g. pose proof (lsum_insert (lsum g) _ _ _ d Ed). rewrite lsum_cons in *. lia.
  - destruct (lock_free p); [|done]. assert (Hgo : worker_move p w TryExternal (set_worker p w LoopTop)) by (by apply move_idle).
    destruct (legacy_queue p) as [|t q] eqn:Eq; cbn [negb]; [by intros [= <-]|]. destruct (paused p); intros [= <-]; [done|].
    refine (move_take p w TryExternal t q (deques p) _ _ _ _); [done| |by rewrite Eq; cbn; lia|done]. intros g. rewrite Eq, lsum_cons. lia.
Qed.

Lemma legacy_step_move p w pc p' : use_work_stealing p = false → legacy_step call p w pc = Some (Next p') → worker_move p w pc p'.
Proof.
  intros Hm. unfold legacy_step.
  destruct pc as [| | | | | | |n| |t|t|t r|t r|t r|]; try (intros E; by apply move_run).
  - destruct (lock_free p) eqn:El; [|done]. intros [= <-]. apply move_idle. destruct (stop p) eqn:Es; cbn [orb].
    + by split; [..|right| |]; rewrite ?Hm.
    + destruct (negb (paused p) && _); (split; [done|done|by rewrite Hm|by right|by rewrite Es|done]).
  - destruct (paused p && negb (stop p)) eqn:Ep.
    { intros [= <-]. apply move_idle. split; try done; [by left|]. destruct (stop p); [by destruct (paused p)|done]. }
    destruct (legacy_queue p) as [|t q] eqn:Eq; intros [= <-].
    + apply move_idle. destruct (stop p) eqn:Es; (split; [done|done|done|by left|done|done]).
    + refine (move_take p w WaitTask t q (deques p) _ _ _ _); [done| |by rewrite Eq; cbn; lia|done]. intros g. rewrite Eq, lsum_cons. lia.
  - destruct (lock_free p) eqn:El; [|done]. intros [= <-]. apply move_idle. split; try done; [by rewrite Hm|by right].
  - intros [= <-]. by apply move_idle.
Qed.

Lemma worker_step_move p w victim lost p' : worker_step call p w victim lost = Some (Next p') →
  ∃ pc, workers p !! w = Some pc ∧ calling p w = false ∧ worker_move p w pc p'.
Proof.
  unfold worker_step. destruct (workers p !! w) as [pc|] eqn:Ew; [|done]. destruct (calling p w) eqn:Ec; [done|]. intros H.
  exists pc. split_and!; [done|done|]. destruct (use_work_stealing p) eqn:Em; [by eapply work_stealing_step_move|by eapply legacy_step_move].
Qed.

Lemma spurious_wakeup_move p w p' : spurious_wakeup p w = Some p' →
  ∃ pc, workers p !! w = Some pc ∧ (∀ t, pc ≠ Running t) ∧ worker_move p w pc p'.
Proof.
  unfold spurious_wakeup. destruct (workers p !! w) as [pc|] eqn:Ew; [|done].
  destruct pc; try done; intros [= <-]; eexists; (split; [done|split; [done|by apply move_idle]]).
Qed.

Lemma accounts_worker_move p w pc p' : accounts p → workers p !! w = Some pc → worker_move p w pc p' → accounts p'.
Proof.
  intros Ha Hw [pc' Hi|t q d Hi Hq _ _|p1 He].
  - destruct Hi. by apply (accounts_idle p w pc).
  - by apply (accounts_take p w pc).
  - by eapply accounts_execute.
Qed.

(** ** Submissions *)

Lemma accounts_submit p c from fn arg b p' : accounts p → thread_pool_submit p c from fn arg b = Some p' → accounts p'.
Proof.
  intros [H1 H2 H3 H4 H5 H6]. unfold thread_pool_submit. destruct (submissions p !! c) eqn:Ec; [done|].
  destruct (may_call p from); [|done]. destruct (stop p); intros [= <-]; [done|]. split; balance; try done; [lia|intros i|].
  - specialize (H2 i). rewrite msum_insert by done. cbn [waiting]. rewrite lsum_cons, lsum_nil. unfold has_id at 1. cbn [task_id].
    destruct (Z.eqb_spec (next_task p) i); repeat case_bool_decide; lia.
  - rewrite msum_insert by done. cbn [uncounted]. lia.
Qed.

Lemma accounts_notify_one p w p' : accounts p → queue_cv_notify_one p w = Some p' → accounts p'.
Proof.
  intros Ha. unfold queue_cv_notify_one. destruct (workers p !! w) as [pc|] eqn:Ew;
    [destruct pc|]; try (destruct (existsb _ _); [done|intros [= <-]; done]). intros [= <-]. by apply (accounts_idle p w QueueSleep).
Qed.

(** A submission pushes its task, is refused, or is counted. *)
Lemma submission_moved p c s s' : submissions p !! c = Some s →
  (∀ g, msum (λ s, lsum g (waiting s)) (<[c:=s']> (submissions p)) + lsum g (waiting s) = msum (λ s, lsum g (waiting s)) (submissions p) + lsum g (waiting s'))%nat
  ∧ (∀ g, msum (λ s, lsum g (waiting s)) (delete c (submissions p)) + lsum g (waiting s) = msum (λ s, lsum g (waiting s)) (submissions p))%nat
  ∧ (msum uncounted (<[c:=s']> (submissions p)) + uncounted s = msum uncounted (submissions p) + uncounted s')%nat
  ∧ (msum uncounted (delete c (submissions p)) + uncounted s = msum uncounted (submissions p))%nat.
Proof.
  intros H. split_and!.
  - intros g. exact (msum_replace (λ s, lsum g (waiting s)) _ _ _ _ H).
  - intros g. exact (msum_delete (λ s, lsum g (waiting s)) _ _ _ H).
  - exact (msum_replace uncounted _ _ _ _ H).
  - exact (msum_delete uncounted _ _ _ H).
Qed.

Lemma accounts_queue_push p c wake from t p' : accounts p → submissions p !! c = Some (Accepted from t) →
  queue_push p c wake from t = Some p' → accounts p'.
Proof.
  intros [H1 H2 H3 H4 H5 H6] Ec. unfold queue_push. destruct (submission_moved p c _ (PushedTask from t) Ec) as (M1 & M2 & M3 & M4).
  destruct (lock_free p); [|done]. destruct (thread_pool_legacy_queue_full_locked p); [|destruct (use_work_stealing _)].
  - intros [= <-]. split; balance; try done; [intros i; specialize (M2 (has_id i)); specialize (H2 i); balance; lia|lia].
  - intros [= <-]. split; balance; try done; [intros i; specialize (M1 (has_id i)); specialize (H2 i); balance; lia|lia].
  - apply accounts_notify_one. split; balance; try done; [intros i; specialize (M2 (has_id i)); specialize (H2 i); balance; lia|lia].
Qed.

Lemma accounts_deque_push p c w t p' : accounts p → submissions p !! c = Some (Accepted (Some w) t) → deque_push p c w t = Some p' → accounts p'.
Proof.
  intros [H1 H2 H3 H4 H5 H6] Ec. unfold deque_push. destruct (submission_moved p c _ (PushedTask (Some w) t) Ec) as (M1 & _ & M3 & _).
  destruct (deques p !! w) as [d|] eqn:Ed; [|done]. intros [= <-].
  assert (Md : ∀ g, (lsum (lsum g) (<[w:=d ++ [t]]> (deques p)) = lsum (lsum g) (deques p) + g t)%nat).
  { intros g. pose proof (lsum_insert (lsum g) _ _ _ (d ++ [t]) Ed) as M. rewrite lsum_app, lsum_cons, lsum_nil in M. lia. }
  split; balance; try done; rewrite ?Md; [intros i; specialize (M1 (has_id i)); specialize (H2 i); balance; rewrite Md; lia|lia].
Qed.

Lemma accounts_submit_push p c wake p' : accounts p → submit_push p c wake = Some p' → accounts p'.
Proof.
  intros Ha. unfold submit_push. destruct (submissions p !! c) as [[from t|from t]|] eqn:Ec; [|done|done].
  destruct (use_work_stealing p), from as [w|]; try (by eapply accounts_queue_push). by eapply accounts_deque_push.
Qed.

Lemma accounts_submit_count p c p' : accounts p → submit_count p c = Some p' → accounts p'.
Proof.
  intros [H1 H2 H3 H4 H5 H6]. unfold submit_count. destruct (submissions p !! c) as [[from t|from t]|] eqn:Ec; [done| |done]. intros [= <-].
  destruct (submission_moved p c _ (PushedTask from t) Ec) as (M1 & M2 & M3 & M4).
  split; balance; try done; [intros i; specialize (M2 (has_id i)); specialize (H2 i); balance; lia|lia].
Qed.

(** ** Waking up, and the end *)

Lemma accounts_map_workers p h : accounts p → (∀ pc, held (h pc) = held pc ∧ ran (h pc) = ran pc ∧ is_active (h pc) = is_active pc ∧ is_counted (h pc) = is_counted pc) →
  accounts (set_workers p (map h (workers p))).
Proof.
  intros [H1 H2 H3 H4 H5 H6] Hh.
  assert (Eh : ∀ g, lsum (λ pc, lsum g (held pc)) (map h (workers p)) = lsum (λ pc, lsum g (held pc)) (workers p)).
  { intros g. rewrite lsum_map. apply lsum_ext. intros pc. by rewrite (proj1 (Hh pc)). }
  assert (Er : ∀ g, lsum (λ pc, lsum g (ran pc)) (map h (workers p)) = lsum (λ pc, lsum g (ran pc)) (workers p)).
  { intros g. rewrite lsum_map. apply lsum_ext. intros pc. by rewrite (proj1 (proj2 (Hh pc))). }
  split; balance; try done; rewrite ?Eh; try done.
  - intros i. specialize (H2 i). balance. by rewrite Eh.
  - intros g. by rewrite Er.
  - rewrite lsum_map, (lsum_ext _ is_active); [done|]. intros pc. apply Hh.
  - rewrite lsum_map, (lsum_ext _ is_counted); [done|]. intros pc. apply Hh.
Qed.


Lemma discard_fields p t p' : discard p t = Next p' →
  ∃ f, p' = set_futures (set_history p (executed p) (finished p) (t :: discarded p) (refused p)) f.
Proof.
  unfold discard. destruct (has_future t); [|intros [= <-]; by exists (futures p)].
  cbn [futures set_history]. destruct (futures p !! task_id t); [|done]. intros [= <-]. by eexists.
Qed.

Lemma discard_all_fields l p p' : discard_all p l = Next p' →
  ∃ f, p' = set_futures (set_history p (executed p) (finished p) (rev l ++ discarded p) (refused p)) f.
Proof.
  revert p. induction l as [|t l IH]; intros p; cbn [discard_all rev].
  - intros [= <-]. exists (futures p). by destruct p.
  - destruct (discard p t) as [p1|] eqn:Ed; [|done]. apply discard_fields in Ed as [f ->]. intros [f' ->]%IH. exists f'.
    by rewrite <- app_assoc.
Qed.

(** What [thread_pool_destroy] finds left. *)
Definition left_over (p : pool) : list task :=
  (if use_work_stealing p then concat (map (@rev task) (deques p)) else []) ++ legacy_queue p.

Lemma left_over_weight g p : (use_work_stealing p = false → deques p = []) →
  lsum g (left_over p) = (lsum g (legacy_queue p) + lsum (lsum g) (deques p))%nat.
Proof.
  intros Hd. unfold left_over. rewrite lsum_app. destruct (use_work_stealing p); [|rewrite (Hd eq_refl), !lsum_nil; lia].
  rewrite lsum_concat, lsum_map, (lsum_ext _ (lsum g)); [lia|]. intros d. apply lsum_rev.
Qed.

Lemma accounts_destroy_end p p' : accounts p → (use_work_stealing p = false → deques p = []) →
  destroy_end p = Some (Next p') → accounts p'.
Proof.
  intros [H1 H2 H3 H4 H5 H6] Hd. unfold destroy_end. destruct (stop p && forallb is_exited (workers p)); [|done].
  fold (left_over p). destruct (discard_all _ (left_over p)) as [p1|] eqn:E1; [|done]. intros [= <-].
  apply discard_all_fields in E1 as [f ->]. pose proof (λ g, left_over_weight g p Hd) as Hw.
  assert (Hz : ∀ g : task → nat, lsum (lsum g) (map (λ _, []) (deques p)) = 0%nat).
  { intros g. apply lsum_zero. by apply Forall_map, Forall_forall. }
  split; balance; try done.
  - intros i. specialize (H2 i). rewrite ?lsum_app, lsum_rev, Hw, Hz, ?lsum_nil. lia.
  - rewrite ?lsum_app, lsum_rev, Hw, Hz, ?lsum_nil. lia.
Qed.
End calls.

(** * the futures, the lock and the shutdown of the pool

    [results]: a future is open exactly while its task is on its way, and holds
    the outcome of its task afterwards.  [control]: the lock is held once, no
    worker sleeps in a pool that stops, a worker that exits leaves nothing
    behind.  Both hold in every state a careful client can reach. *)

#[local] Arguments lsum : simpl never.
#[local] Arguments msum : simpl never.

(** ** The futures *)

Definition pending_weight (g : task → nat) (p : pool) : nat := (waiting_weight g p + inside_weight g p)%nat.
Definition wants (i : Z) (t : task) : nat := if has_future t && (task_id t =? i) then 1%nat else 0%nat.
Definition is_open (f : option future) : nat := match f with Some (Future _ false) => 1%nat | _ => 0%nat end.

Section calls.
Context (call : Z → Z → option Z).

Definition ret_ok (pc : worker) : Prop :=
  match pc with Returned t r | Counted t r | Inactive t r => r = outcome_of call t | _ => True end.

(** What a completed future holds. *)
Definition answered (p : pool) (i r : Z) : Prop :=
  ∃ t, has_future t = true ∧ task_id t = i ∧ ((t ∈ finished p ∧ r = outcome_of call t) ∨ (t ∈ discarded p ∧ r = 0)).

(** [l] are tasks about to be discarded. *)
Record results_with (l : list task) (p : pool) : Prop := {
  res_open : ∀ i, (pending_weight (wants i) p + lsum (wants i) l)%nat = is_open (futures p !! i);
  res_blank : ∀ i r, futures p !! i = Some (Future r false) → r = 0;
  res_done : ∀ i r, futures p !! i = Some (Future r true) → answered p i r;
  res_next : ∀ i f, futures p !! i = Some f → i < next_task p;
  res_ret : ∀ w pc, workers p !! w = Some pc → ret_ok pc
}.
Definition results : pool → Prop := results_with [].

Lemma results_frame l p p' : results_with l p → (∀ g, pending_weight g p' = pending_weight g p) →
  futures p' = futures p → next_task p' = next_task p → finished p' = finished p → discarded p' = discarded p →
  (∀ w pc, workers p' !! w = Some pc → ret_ok pc ∨ workers p !! w = Some pc) → results_with l p'.
Proof.
  intros [H1 H2 H3 H4 H5] Hg Ef En Efi Ed Hw. split; rewrite ?Ef, ?En; try done.
  - intros i. rewrite Hg. apply H1.
  - intros i r Hi. destruct (H3 i r Hi) as (t & Ht). exists t. by rewrite Efi, Ed.
  - intros w pc [Hpc|Hpc]%Hw; [done|by eapply H5].
Qed.

Lemma insert_worker_inv (l : list worker) w pc' w' pc : <[w:=pc']> l !! w' = Some pc → pc = pc' ∨ l !! w' = Some pc.
Proof.
  destruct (decide (w = w')) as [<-|Hne]; [|rewrite list_lookup_insert_ne by done; by right].
  destruct (decide (w < length l)%nat); [rewrite list_lookup_insert_eq by done; intros [= <-]; by left|].
  rewrite list_insert_ge by lia. by right.
Qed.

(** The weight on its way after a worker has moved. *)
Lemma pending_worker g p w pc pc' : workers p !! w = Some pc →
  (pending_weight g (set_worker p w pc') + lsum g (held pc) = pending_weight g p + lsum g (held pc'))%nat.
Proof. intros H. destruct (worker_moved p w pc pc' H) as (M & _). specialize (M g). unfold pending_weight. balance. lia. Qed.

Lemma wants_task t : wants (task_id t) t = if has_future t then 1%nat else 0%nat.
Proof. unfold wants. rewrite Z.eqb_refl. by destruct (has_future t). Qed.

Lemma wants_ne i t : task_id t ≠ i → wants i t = 0%nat.
Proof. intros H. unfold wants. by rewrite (proj2 (Z.eqb_neq _ _) H), andb_false_r. Qed.
Lemma wants_none i t : has_future t = false → wants i t = 0%nat.
Proof. intros H. unfold wants. by rewrite H. Qed.

(** A worker still holds the task, so its future is open. *)
Lemma results_held p w pc t : results p → workers p !! w = Some pc → held pc = [t] → has_future t = true →
  futures p !! task_id t = Some (Future 0 false).
Proof.
  intros [H1 H2 _ _ _] Hw Hh Hf. specialize (H1 (task_id t)). pose proof (pending_worker (wants (task_id t)) p w pc LoopTop Hw) as M.
  rewrite Hh in M. cbn [held] in M. rewrite lsum_nil in H1. rewrite lsum_cons, !lsum_nil, wants_task, Hf in M.
  destruct (futures p !! task_id t) as [[r [|]]|] eqn:Ef; cbn [is_open] in H1; try lia. by rewrite (H2 _ _ Ef).
Qed.

Lemma results_execute p w pc p' : results p → workers p !! w = Some pc → execute_step call p w pc = Some (Next p') → results p'.
Proof.
  intros Hr Hw. assert (Hret := res_ret [] p Hr w pc Hw).
  assert (Hstep : ∀ q pc', held pc' = held pc → ret_ok pc' → workers q = workers p → deques q = deques p → legacy_queue q = legacy_queue p →
    submissions q = submissions p → futures q = futures p → next_task q = next_task p → finished q = finished p → discarded q = discarded p →
    results (set_worker q w pc')).
  { intros q pc' Eh Hok Ew Eq Ed Es Ef En Efi Edi. eapply (results_frame [] p); try done.
    - intros g. pose proof (pending_worker g p w pc pc' Hw) as M. rewrite Eh in M. unfold pending_weight in *. balance. rewrite Ew, Ed, Eq, Es. lia.
    - cbn. rewrite Ew. intros w' pc1 [->|Hpc]%insert_worker_inv; [by left|by right]. }
  unfold execute_step. destruct pc as [| | | | | | | | |t|t|t r|t r|t r|]; try done; try (intros [= <-]; by apply Hstep).
  unfold complete_future. destruct (has_future t) eqn:Hf.
  - rewrite (results_held p w _ t Hr Hw eq_refl Hf). intros [= <-]. destruct Hr as [H1 H2 H3 H4 H5].
    pose proof (H1 (task_id t)) as H1t. pose proof (λ i, pending_worker (wants i) p w _ LoopTop Hw) as M.
    assert (Hfut := results_held p w _ t (Build_results_with [] p H1 H2 H3 H4 H5) Hw eq_refl Hf).
    split; cbn [futures next_task finished discarded workers set_worker set_workers set_history set_futures set_submissions].
    + intros i. specialize (M i). specialize (H1 i). unfold pending_weight in *. balance.
      destruct (decide (task_id t = i)) as [<-|Hne]; [rewrite lookup_insert_eq|rewrite lookup_insert_ne by done].
      * rewrite Hfut in H1. rewrite wants_task, Hf in M. cbn [is_open] in *. lia.
      * rewrite <- H1. rewrite (wants_ne i t Hne) in M. lia.
    + intros i r'. destruct (decide (task_id t = i)) as [<-|Hne]; [by rewrite lookup_insert_eq|rewrite lookup_insert_ne by done; apply H2].
    + intros i r'. destruct (decide (task_id t = i)) as [<-|Hne].
      * rewrite lookup_insert_eq. intros [= <-]. exists t. split_and!; [done|done|]. left. split; [apply list_elem_of_here|done].
      * rewrite lookup_insert_ne by done. intros (t' & Ht1 & Ht2 & Ht3)%H3. exists t'. split_and!; [done|done|].
        destruct Ht3 as [[Hin Hout]|]; [left; split; [by apply list_elem_of_further|done]|by right].
    + intros i f. destruct (decide (task_id t = i)) as [<-|Hne]; [intros _; by eapply H4|rewrite lookup_insert_ne by done; apply H4].
    + intros w' pc' [->|Hpc]%insert_worker_inv; [done|by eapply H5].
  - intros [= <-]. destruct Hr as [H1 H2 H3 H4 H5]. pose proof (λ i, pending_worker (wants i) p w _ LoopTop Hw) as M.
    split; cbn [futures next_task finished discarded workers set_worker set_workers set_history set_futures set_submissions]; try done.
    + intros i. specialize (M i). specialize (H1 i). rewrite <- H1. unfold pending_weight in *. balance.
      rewrite (wants_none i t Hf) in M. lia.
    + intros i r' (t' & Ht1 & Ht2 & Ht3)%H3. exists t'. split_and!; [done|done|].
      destruct Ht3 as [[Hin Hout]|]; [left; split; [by apply list_elem_of_further|done]|by right].
    + intros w' pc' [->|Hpc]%insert_worker_inv; [done|by eapply H5].
Qed.

Lemma results_worker_move p w pc p' : results p → workers p !! w = Some pc → worker_move call p w pc p' → results p'.
Proof.
  intros Hr Hw [pc' [Hfrom Hto _ _ _ _]|t q d [Hi _] Hq _ _|p1 He].
  - eapply results_frame; [exact Hr| |done..|].
    + intros g. pose proof (pending_worker g p w pc pc' Hw) as M. destruct Hfrom as [E1 _], Hto as [E2 _]. rewrite E1, E2 in M. lia.
    + cbn. intros w' pc1 [->|Hpc]%insert_worker_inv; [left; by destruct pc', Hto|by right].
  - eapply results_frame; [exact Hr| |done..|].
    + intros g. pose proof (pending_worker g p w pc (Hold t) Hw) as M. rewrite Hi in M. specialize (Hq g). unfold pending_weight in *. balance. lia.
    + cbn. intros w' pc1 [->|Hpc]%insert_worker_inv; [by left|by right].
  - by eapply results_execute.
Qed.

(** A worker never touches a deleted future. *)
Lemma worker_step_safe p w victim lost : results p → worker_step call p w victim lost ≠ Some Freed.
Proof.
  intros Hr. unfold worker_step. destruct (workers p !! w) as [pc|] eqn:Hw; [|done]. destruct (calling p w); [done|].
  assert (He : execute_step call p w pc ≠ Some Freed).
  { unfold execute_step. destruct pc; try done. unfold complete_future. destruct (has_future t) eqn:Hf; [|done].
    by rewrite (results_held p w _ t Hr Hw eq_refl Hf). }
  unfold work_stealing_step, legacy_step, next, option_map. intros E. repeat case_match; done.
Qed.

Lemma results_submit p c from fn arg b p' : results p → thread_pool_submit p c from fn arg b = Some p' → results p'.
Proof.
  intros [H1 H2 H3 H4 H5]. unfold thread_pool_submit. destruct (submissions p !! c) eqn:Ec; [done|].
  destruct (may_call p from); [|done]. destruct (stop p); intros [= <-]; [done|].
  assert (Hfresh : futures p !! next_task p = None).
  { destruct (futures p !! next_task p) as [f|] eqn:Ef; [|done]. specialize (H4 _ _ Ef). lia. }
  set (t := Task (next_task p) fn arg b).
  assert (Hp : ∀ i, pending_weight (wants i) (set_submissions p (<[c:=Accepted from t]> (submissions p)) (futures p) (next_task p)) = (wants i t + pending_weight (wants i) p)%nat).
  { intros i. unfold pending_weight. balance. rewrite msum_insert by done. cbn [waiting]. rewrite lsum_cons, lsum_nil. lia. }
  split; cbn [futures next_task set_submissions finished discarded workers]; [intros i; specialize (Hp i); specialize (H1 i)|..].
  - unfold pending_weight in *. balance. rewrite Hp. destruct b.
    + destruct (decide (next_task p = i)) as [<-|Hne]; [rewrite lookup_insert_eq|rewrite lookup_insert_ne by done].
      * rewrite Hfresh in H1. change (next_task p) with (task_id t) at 1. rewrite wants_task. cbn in *. lia.
      * rewrite (wants_ne i t Hne). lia.
    + rewrite (wants_none i t) by done. lia.
  - intros i r. destruct b; [|apply H2]. destruct (decide (next_task p = i)) as [<-|Hne]; [rewrite lookup_insert_eq; by intros [= <-]|].
    rewrite lookup_insert_ne by done. apply H2.
  - intros i r. destruct b; [|apply H3]. destruct (decide (next_task p = i)) as [<-|Hne]; [by rewrite lookup_insert_eq|].
    rewrite lookup_insert_ne by done. apply H3.
  - intros i f. destruct b; [|intros ?%H4; lia]. destruct (decide (next_task p = i)) as [<-|Hne]; [lia|].
    rewrite lookup_insert_ne by done. intros ?%H4. lia.
  - exact H5.
Qed.

Lemma results_notify_one l p w p' : results_with l p → queue_cv_notify_one p w = Some p' → results_with l p'.
Proof.
  intros Hr. unfold queue_cv_notify_one. destruct (workers p !! w) as [pc|] eqn:Ew;
    [destruct pc|]; try (destruct (existsb _ _); [done|intros [= <-]; done]). intros [= <-].
  eapply results_frame; [exact Hr| |done..|].
  - intros g. pose proof (pending_worker g p w QueueSleep LoopTop Ew) as M. cbn [held] in M. lia.
  - cbn. intros w' pc1 [->|Hpc]%insert_worker_inv; [by left|by right].
Qed.

Lemma results_queue_push p c wake from t p' : results p → submissions p !! c = Some (Accepted from t) →
  queue_push p c wake from t = Some p' → results p'.
Proof.
  intros Hr Ec. unfold queue_push. destruct (submission_moved p c _ (PushedTask from t) Ec) as (M1 & M2 & _).
  destruct (lock_free p); [|done]. destruct (thread_pool_legacy_queue_full_locked p); [|destruct (use_work_stealing _)].
  - intros [= <-]. destruct Hr as [H1 H2 H3 H4 H5].
    assert (Hlk : ∀ i f, (if has_future t then delete (task_id t) (futures p) else futures p) !! i = Some f → futures p !! i = Some f).
    { intros i f. destruct (has_future t); [|done]. by intros [_ ?]%lookup_delete_Some. }
    split; cbn [futures next_task set_submissions set_history finished discarded workers]; try done.
    + intros i. specialize (M2 (wants i)). specialize (H1 i). unfold pending_weight in *. balance.
      destruct (has_future t) eqn:Hf; [|rewrite (wants_none i t Hf) in M2; lia].
      destruct (decide (task_id t = i)) as [<-|Hne]; [rewrite lookup_delete_eq|rewrite lookup_delete_ne by done; rewrite (wants_ne i t Hne) in M2; lia].
      rewrite wants_task, Hf in M2. cbn [is_open]. destruct (futures p !! task_id t) as [[r [|]]|]; cbn [is_open] in H1; lia.
    + intros i r ?%Hlk. by apply (H2 i r).
    + intros i r ?%Hlk. by apply (H3 i r).
    + intros i f ?%Hlk. by apply (H4 i f).
  - intros [= <-]. eapply results_frame; [exact Hr| |done..|by right]. intros g. specialize (M1 g). unfold pending_weight. balance. lia.
  - apply results_notify_one. eapply results_frame; [exact Hr| |done..|by right]. intros g. specialize (M2 g). unfold pending_weight. balance. lia.
Qed.

Lemma results_submit_push p c wake p' : results p → submit_push p c wake = Some p' → results p'.
Proof.
  intros Hr. unfold submit_push. destruct (submissions p !! c) as [[from t|from t]|] eqn:Ec; [|done|done].
  destruct (use_work_stealing p), from as [w|]; try (by eapply results_queue_push).
  unfold deque_push. destruct (submission_moved p c _ (PushedTask (Some w) t) Ec) as (M1 & _).
  destruct (deques p !! w) as [d|] eqn:Ed; [|done]. intros [= <-]. eapply results_frame; [exact Hr| |done..|by right].
  intros g. specialize (M1 g). pose proof (lsum_insert (lsum g) _ _ _ (d ++ [t]) Ed) as M. unfold pending_weight. balance. lia.
Qed.

Lemma results_submit_count p c p' : results p → submit_count p c = Some p' → results p'.
Proof.
  intros Hr. unfold submit_count. destruct (submissions p !! c) as [[from t|from t]|] eqn:Ec; [done| |done]. intros [= <-].
  destruct (submission_moved p c _ (PushedTask from t) Ec) as (_ & M2 & _). eapply results_frame; [exact Hr| |done..|by right].
  intros g. specialize (M2 g). unfold pending_weight. balance. lia.
Qed.

Lemma results_map_workers l p h : results_with l p → (∀ pc, held (h pc) = held pc ∧ (h pc = pc ∨ ret_ok (h pc))) →
  results_with l (set_workers p (map h (workers p))).
Proof.
  intros Hr Hh. eapply results_frame; [exact Hr| |done..|].
  - intros g. unfold pending_weight. balance. rewrite lsum_map, (lsum_ext _ (λ pc, lsum g (held pc))); [done|]. intros pc. by rewrite (proj1 (Hh pc)).
  - cbn. intros w pc. rewrite list_lookup_fmap. destruct (workers p !! w) as [pc1|]; [|done]. intros [= <-].
    destruct (proj2 (Hh pc1)) as [->|]; [by right|by left].
Qed.

Lemma results_release p f p' : results p → future_is_ready p f = true → future_release p f = Next p' → results p'.
Proof.
  intros [H1 H2 H3 H4 H5]. unfold future_is_ready, future_release. destruct (futures p !! f) as [[r b]|] eqn:Ef; [|done].
  cbn [completed]. intros -> [= <-].
  assert (Hlk : ∀ i fu, delete f (futures p) !! i = Some fu → futures p !! i = Some fu) by (by intros i fu [_ ?]%lookup_delete_Some).
  split; cbn [futures next_task set_futures set_submissions finished discarded workers]; try done.
  - intros i. specialize (H1 i). unfold pending_weight in *. balance. rewrite H1.
    destruct (decide (f = i)) as [<-|]; [by rewrite lookup_delete_eq, Ef|by rewrite lookup_delete_ne].
  - intros i r' ?%Hlk. by apply (H2 i r').
  - intros i r' ?%Hlk. by apply (H3 i r').
  - intros i fu ?%Hlk. by apply (H4 i fu).
Qed.

(** Discarding is never of a future that was deleted. *)
Lemma results_discard t l p : results_with (t :: l) p → ∃ p', discard p t = Next p' ∧ results_with l p'.
Proof.
  intros [H1 H2 H3 H4 H5]. unfold discard. cbn [futures set_history result].
  assert (Hd : ∀ i r, answered p i r → answered (set_history p (executed p) (finished p) (t :: discarded p) (refused p)) i r).
  { intros i r (t' & Ht1 & Ht2 & Ht3). exists t'. split_and!; [done|done|].
    destruct Ht3 as [|[Hin ->]]; [by left|right; split; [by apply list_elem_of_further|done]]. }
  destruct (has_future t) eqn:Hf.
  - assert (Hfut : futures p !! task_id t = Some (Future 0 false)).
    { specialize (H1 (task_id t)). rewrite lsum_cons, wants_task, Hf in H1.
      destruct (futures p !! task_id t) as [[r [|]]|] eqn:Ef; cbn [is_open] in H1; try lia. by rewrite (H2 _ _ Ef). }
    rewrite Hfut. cbn [result]. eexists. split; [done|].
    split; cbn [futures next_task set_futures set_submissions set_history workers].
    + intros i. specialize (H1 i). rewrite lsum_cons in H1. unfold pending_weight in *. balance.
      destruct (decide (task_id t = i)) as [<-|Hne]; [rewrite lookup_insert_eq|rewrite lookup_insert_ne by done].
      * rewrite wants_task, Hf, Hfut in H1. cbn [is_open] in *. lia.
      * rewrite (wants_ne i t Hne) in H1. lia.
    + intros i r. destruct (decide (task_id t = i)) as [<-|Hne]; [by rewrite lookup_insert_eq|rewrite lookup_insert_ne by done; apply H2].
    + intros i r. destruct (decide (task_id t = i)) as [<-|Hne].
      * rewrite lookup_insert_eq. intros [= <-]. exists t. split_and!; [done|done|]. right. split; [apply list_elem_of_here|done].
      * rewrite lookup_insert_ne by done. intros ?%H3%Hd. done.
    + intros i f. destruct (decide (task_id t = i)) as [<-|Hne]; [intros _; by eapply H4|rewrite lookup_insert_ne by done; apply H4].
    + exact H5.
  - eexists. split; [done|]. split; cbn [futures next_task set_history workers]; try done.
    + intros i. specialize (H1 i). rewrite lsum_cons, (wants_none i t Hf) in H1. exact H1.
    + intros i r ?%H3%Hd. done.
Qed.

Lemma results_discard_all l p : results_with l p → ∃ p', discard_all p l = Next p' ∧ results p'.
Proof.
  revert p. induction l as [|t l IH]; intros p Hr; cbn [discard_all]; [by exists p|].
  destruct (results_discard t l p Hr) as (p1 & -> & Hr1). by apply IH.
Qed.

Lemma results_destroy_end p : results p → (use_work_stealing p = false → deques p = []) →
  stop p = true → forallb is_exited (workers p) = true → ∃ p', destroy_end p = Some (Next p') ∧ results p'.
Proof.
  intros Hr Hd Hs He. unfold destroy_end. rewrite Hs, He. cbn [andb]. fold (left_over p).
  destruct (results_discard_all (left_over p) (set_queue (set_deques p (map (λ _, []) (deques p))) [])) as (p' & -> & Hr').
  - destruct Hr as [H1 H2 H3 H4 H5]. split; try done. intros i. specialize (H1 i). rewrite (left_over_weight _ p Hd).
    assert (Hz : lsum (lsum (wants i)) (map (λ _, []) (deques p)) = 0%nat) by (apply lsum_zero; by apply Forall_map, Forall_forall).
    unfold pending_weight in *. balance. cbn [futures set_queue set_deques]. lia.
  - exists (set_joined p'). split; [done|]. by destruct Hr' as [H1 H2 H3 H4 H5].
Qed.
End calls.

(** ** The lock, the modes and the shutdown *)

Definition lock_count (pc : worker) : nat := if holds_lock pc then 1%nat else 0%nat.
Definition from_of (s : submission) : option nat := match s with Accepted from _ | PushedTask from _ => from end.

Record control (p : pool) : Prop := {
  ctl_deques : length (deques p) = if use_work_stealing p then num_threads p else 0%nat;
  ctl_lock : (lsum lock_count (workers p) <= 1)%nat;
  ctl_queue : 0 < max_queue_size p → Z.of_nat (length (legacy_queue p)) <= max_queue_size p;
  ctl_peak : Z.of_nat (length (legacy_queue p)) <= peak_queue_depth p;
  ctl_mode : ∀ w pc, workers p !! w = Some pc → of_mode (use_work_stealing p) pc = true;
  ctl_stop : stop p = true → ∀ w pc, workers p !! w = Some pc → asleep pc = false;
  ctl_exit : ∀ w, workers p !! w = Some Exited → stop p = true;
  ctl_from : ∀ c s w, submissions p !! c = Some s → from_of s = Some w → ∃ t, workers p !! w = Some (Running t);
  ctl_joined : joined p = true → legacy_queue p = [] ∧ concat (deques p) = [] ∧ forallb is_exited (workers p) = true;
  ctl_discarded : joined p = false → discarded p = []
}.

Lemma calling_spec p w c s : calling p w = false → submissions p !! c = Some s → from_of s ≠ Some w.
Proof.
  intros Hc Hs Hf. enough (calling p w = true) by congruence. unfold calling. apply existsb_exists. exists (c, s).
  split; [by apply list_elem_of_In, elem_of_map_to_list|]. by destruct s; cbn in *; apply bool_decide_eq_true_2.
Qed.

Lemma calling_running p w : control p → calling p w = true → ∃ t, workers p !! w = Some (Running t).
Proof.
  intros Hc Ec. unfold calling in Ec. apply existsb_exists in Ec as ((c & s) & Hin & Hfrom). apply list_elem_of_In, elem_of_map_to_list in Hin.
  apply (ctl_from p Hc c s w Hin). destruct s; cbn in Hfrom; by apply bool_decide_eq_true_1 in Hfrom.
Qed.

Lemma lock_free_count p : lock_free p = true → lsum lock_count (workers p) = 0%nat.
Proof.
  intros H. apply lsum_zero, list.Forall_forall. intros pc Hpc. unfold lock_free in H. rewrite forallb_forall in H.
  specialize (H pc (proj1 (list_elem_of_In _ _) Hpc)). unfold lock_count. by destruct (holds_lock pc).
Qed.

(** A worker moves, and what the others see of the pool is the same. *)
Lemma control_set_worker p q w pc pc' : control p → joined p = false → workers p !! w = Some pc →
  use_work_stealing q = use_work_stealing p → max_queue_size q = max_queue_size p → stop q = stop p → joined q = joined p →
  discarded q = discarded p → peak_queue_depth q = peak_queue_depth p → submissions q = submissions p → workers q = workers p →
  length (deques q) = length (deques p) → (length (legacy_queue q) <= length (legacy_queue p))%nat →
  of_mode (use_work_stealing p) pc' = true → (holds_lock pc' = true → holds_lock pc = true ∨ lock_free p = true) →
  (stop p = true → asleep pc' = true → asleep pc = true) → (is_exited pc' = true → stop p = true) →
  calling p w = false → control (set_worker q w pc').
Proof.
  intros [H1 H2 H3 H4 H5 H6 H7 H8 H9 H10] Hj Hw Em Ex Es Ej Edi Ep Esu Ew Ed Eq Hm Hl Ha He Hc.
  split; cbn [deques use_work_stealing workers set_worker set_workers legacy_queue max_queue_size peak_queue_depth stop submissions joined discarded];
    rewrite ?Em, ?Ex, ?Es, ?Ej, ?Edi, ?Ep, ?Esu, ?Ew, ?Ed; try done; try lia.
  - rewrite H1. unfold num_threads. cbn. by rewrite Ew, length_insert.
  - pose proof (lsum_insert lock_count (workers p) w pc pc' Hw) as M. unfold lock_count in M at 2 4.
    destruct (holds_lock pc') eqn:El; [|destruct (holds_lock pc); lia]. destruct (Hl eq_refl) as [E|Hf]; [rewrite E in M; lia|].
    pose proof (lock_free_count p Hf). lia.
  - intros w' pc1 [->|Hpc]%insert_worker_inv; [done|by eapply H5].
  - intros Hs w' pc1 [->|Hpc]%insert_worker_inv; [|by eapply H6]. destruct (asleep pc') eqn:E; [|done].
    specialize (H6 Hs w pc Hw). by rewrite Ha in H6.
  - intros w' [E|Hpc]%insert_worker_inv; [apply He; by rewrite <- E|by eapply H7].
  - intros c s w' Hs Hf. destruct (decide (w = w')) as [->|]; [by destruct (calling_spec p w' c s Hc Hs)|].
    rewrite list_lookup_insert_ne by done. by apply (H8 c s).
  - by rewrite Hj.
Qed.

Section steps.
Context (call : Z → Z → option Z).

Lemma control_execute p w pc p' : control p → joined p = false → workers p !! w = Some pc → calling p w = false →
  execute_step call p w pc = Some (Next p') → control p'.
Proof.
  intros Hc Hj Hw Hcall. unfold execute_step. destruct pc as [| | | | | | | | |t|t|t r|t r|t r|]; try done;
    try (intros [= <-]; by eapply control_set_worker).
  destruct (complete_future p t r) as [p1|] eqn:E; [|done]. intros [= <-]. apply complete_future_fields in E as [f ->].
  by eapply (control_set_worker p).
Qed.

Lemma control_worker_move p w pc p' : control p → joined p = false → workers p !! w = Some pc → calling p w = false →
  worker_move call p w pc p' → control p'.
Proof.
  intros Hc Hj Hw Hcall [pc' [M1 M2 M3 M4 M5 M6]|t q d Hi Hq Hlq Hld|p1 He].
  - by eapply control_set_worker.
  - by eapply (control_set_worker p).
  - by eapply control_execute.
Qed.
End steps.

Lemma control_map_workers p h : control p → joined p = false → (∀ pc, of_mode (use_work_stealing p) pc = true → of_mode (use_work_stealing p) (h pc) = true) →
  (∀ pc, lock_count (h pc) = lock_count pc) → (∀ pc, asleep pc = false → asleep (h pc) = false) →
  (∀ pc, h pc = Exited → pc = Exited) → (∀ t, h (Running t) = Running t) → control (set_workers p (map h (workers p))).
Proof.
  intros [H1 H2 H3 H4 H5 H6 H7 H8 H9 H10] Hj Hm Hl Ha He Hr.
  assert (Hlk : ∀ w pc, map h (workers p) !! w = Some pc → ∃ pc1, workers p !! w = Some pc1 ∧ pc = h pc1).
  { intros w pc. rewrite list_lookup_fmap. destruct (workers p !! w) as [pc1|]; [|done]. intros [= <-]. by exists pc1. }
  split; cbn [deques use_work_stealing workers set_workers legacy_queue max_queue_size peak_queue_depth stop submissions joined discarded]; try done.
  - rewrite H1. unfold num_threads. cbn. by rewrite length_map.
  - rewrite lsum_map, (lsum_ext _ lock_count); done.
  - intros w pc (pc1 & Hpc & ->)%Hlk. apply Hm. by eapply H5.
  - intros Hs w pc (pc1 & Hpc & ->)%Hlk. apply Ha. by eapply H6.
  - intros w (pc1 & Hpc & E)%Hlk. symmetry in E. apply He in E as ->. by eapply H7.
  - intros c s w Hs Hf. destruct (H8 c s w Hs Hf) as [t Ht]. exists t. by rewrite list_lookup_fmap, Ht, <- (Hr t) at 1; cbn; rewrite ?Hr.
  - by rewrite Hj.
Qed.

(** Changes that leave the workers and the control alone. *)
Lemma control_frame p q : control p → use_work_stealing q = use_work_stealing p → max_queue_size q = max_queue_size p →
  stop q = stop p → joined q = joined p → discarded q = discarded p → workers q = workers p → deques q = deques p →
  (0 < max_queue_size p → Z.of_nat (length (legacy_queue q)) <= max_queue_size p) → Z.of_nat (length (legacy_queue q)) <= peak_queue_depth q →
  (joined p = true → legacy_queue q = legacy_queue p) →
  (∀ c s w, submissions q !! c = Some s → from_of s = Some w → ∃ t, workers p !! w = Some (Running t)) → control q.
Proof.
  intros [H1 H2 H3 H4 H5 H6 H7 H8 H9 H10] Em Ex Es Ej Edi Ew Ed Hq Hp Hj Hf.
  split; unfold num_threads in *; rewrite ?Em, ?Ex, ?Es, ?Ej, ?Edi, ?Ew, ?Ed; try done. intros Hjo. rewrite (Hj Hjo). by apply H9.
Qed.

Lemma control_submit p c from fn arg b p' : control p → thread_pool_submit p c from fn arg b = Some p' → control p'.
Proof.
  intros Hc. unfold thread_pool_submit. destruct (submissions p !! c) eqn:Ec; [done|].
  destruct (may_call p from) eqn:Em; [|done]. destruct (stop p); intros [= <-]; [done|]. pose proof Hc as [H1 H2 H3 H4 H5 H6 H7 H8 H9 H10].
  apply (control_frame p); try done. cbn. intros c' s w. destruct (decide (c = c')) as [<-|Hne].
  - rewrite lookup_insert_eq. intros [= <-]. cbn [from_of]. intros ->. unfold may_call in Em.
    destruct (workers p !! w) as [[]|] eqn:Ew; try done. by eexists.
  - rewrite lookup_insert_ne by done. apply H8.
Qed.

Lemma control_notify_one p w p' : control p → joined p = false → queue_cv_notify_one p w = Some p' → control p'.
Proof.
  intros Hc Hj. unfold queue_cv_notify_one. destruct (workers p !! w) as [pc|] eqn:Ew;
    [destruct pc|]; try (destruct (existsb _ _); [done|intros [= <-]; done]). intros [= <-].
  eapply (control_set_worker p); try done. destruct (calling p w) eqn:Ec; [|done]. destruct (calling_running p w Hc Ec) as [t Ht]. congruence.
Qed.

Lemma control_submit_push p c wake p' : control p → joined p = false → submit_push p c wake = Some p' → control p'.
Proof.
  intros Hc Hj. pose proof Hc as [H1 H2 H3 H4 H5 H6 H7 H8 H9 H10]. unfold submit_push.
  destruct (submissions p !! c) as [[from t|from t]|] eqn:Ec; [|done|done].
  assert (Hins : ∀ c' s w, <[c:=PushedTask from t]> (submissions p) !! c' = Some s → from_of s = Some w → ∃ t, workers p !! w = Some (Running t)).
  { intros c' s w. destruct (decide (c = c')) as [<-|Hne]; [|rewrite lookup_insert_ne by done; apply H8].
    rewrite lookup_insert_eq. intros [= <-]. apply (H8 c _ w Ec). }
  assert (Hdel : ∀ c' s w, delete c (submissions p) !! c' = Some s → from_of s = Some w → ∃ t, workers p !! w = Some (Running t)).
  { intros c' s w [_ Hs]%lookup_delete_Some. by apply (H8 c'). }
  assert (Hq : queue_push p c wake from t = Some p' → control p').
  { unfold queue_push. destruct (lock_free p); [|done]. destruct (thread_pool_legacy_queue_full_locked p) eqn:Efull; [intros [= <-]; by apply (control_frame p)|].
    assert (Hroom : 0 < max_queue_size p → Z.of_nat (length (legacy_queue p ++ [t])) <= max_queue_size p).
    { intros Hm. unfold thread_pool_legacy_queue_full_locked in Efull. rewrite length_app. cbn. destruct (0 <? max_queue_size p) eqn:?; cbn in Efull; lia. }
    destruct (use_work_stealing _); [intros [= <-]|apply control_notify_one]; try done;
      (apply (control_frame p); cbn; [done..|by intros Hm%Hroom|lia|congruence|done]). }
  destruct (use_work_stealing p) eqn:Em, from as [w|]; try done. unfold deque_push. destruct (deques p !! w) as [d|] eqn:Ed; [|done]. intros [= <-].
  split; cbn; try done; [by rewrite length_insert, H1, Em|by rewrite Em|by rewrite Hj].
Qed.

Lemma control_submit_count p c p' : control p → submit_count p c = Some p' → control p'.
Proof.
  intros Hc. pose proof Hc as [H1 H2 H3 H4 H5 H6 H7 H8 H9 H10]. unfold submit_count.
  destruct (submissions p !! c) as [[from t|from t]|] eqn:Ec; [done| |done]. intros [= <-]. apply (control_frame p); try done.
  cbn. intros c' s w [_ Hs]%lookup_delete_Some. by apply (H8 c').
Qed.

Lemma control_resume p : control p → joined p = false → control (thread_pool_resume p).
Proof. intros Hc Hj. apply control_map_workers; [by destruct Hc|done|..]; by intros []. Qed.

Lemma control_destroy_begin p p' : control p → joined p = false → destroy_begin p = Some p' → control p'.
Proof.
  intros [H1 H2 H3 H4 H5 H6 H7 H8 H9 H10] Hj. unfold destroy_begin. destruct (lock_free p) eqn:El; [|done]. intros [= <-].
  pose proof (lock_free_count p El) as Hl. unfold pause_cv_notify_all, queue_cv_notify_all. cbn [workers set_workers set_flags]. rewrite map_map.
  set (h := λ pc, wake_pause (wake_queue pc)).
  assert (Hlk : ∀ w pc, map h (workers p) !! w = Some pc → ∃ pc1, workers p !! w = Some pc1 ∧ pc = h pc1).
  { intros w pc. rewrite list_lookup_fmap. destruct (workers p !! w) as [pc1|]; [|done]. intros [= <-]. by exists pc1. }
  split; cbn [deques use_work_stealing workers set_workers set_flags legacy_queue max_queue_size peak_queue_depth stop submissions joined discarded]; try done.
  - rewrite H1. unfold num_threads. cbn. by rewrite length_map.
  - rewrite lsum_map, (lsum_ext _ lock_count); [lia|]. by intros [].
  - intros w pc (pc1 & Hpc & ->)%Hlk. specialize (H5 w pc1 Hpc). by destruct pc1.
  - intros _ w pc (pc1 & Hpc & ->)%Hlk. destruct pc1; try done. exfalso.
    pose proof (lsum_elem lock_count _ _ (list_elem_of_lookup_2 _ _ _ Hpc)) as Hle. cbn in Hle. lia.
  - intros c s w Hs Hf. destruct (H8 c s w Hs Hf) as [t Ht]. exists t. by rewrite list_lookup_fmap, Ht.
  - by rewrite Hj.
Qed.

Lemma control_destroy_end p p' : control p → destroy_end p = Some (Next p') → control p'.
Proof.
  intros [H1 H2 H3 H4 H5 H6 H7 H8 H9 H10]. unfold destroy_end. destruct (stop p && forallb is_exited (workers p)) eqn:E; [|done].
  apply andb_true_iff in E as [Es Ee]. fold (left_over p). destruct (discard_all _ _) as [p1|] eqn:Ed; [|done]. intros [= <-].
  apply discard_all_fields in Ed as [f ->]. split; cbn; try done.
  - by rewrite length_map.
  - intros Hm. lia.
  - pose proof (Zle_0_nat (length (legacy_queue p))). lia.
  - intros _. split_and!; [done| |done]. clear. induction (deques p) as [|d ds IH]; [done|exact IH].
Qed.

(** ** Every reachable state *)

Record pool_inv (call : Z → Z → option Z) (p : pool) : Prop := {
  inv_accounts : accounts p;
  inv_results : results call p;
  inv_control : control p
}.

Lemma create_inv call stealing n cap : pool_inv call (thread_pool_create stealing n cap).
Proof.
  assert (Hl : ∀ f : worker → nat, f LoopTop = 0%nat → lsum f (replicate n LoopTop) = 0%nat) by (intros; by apply lsum_replicate).
  assert (Hd : ∀ f : list task → nat, f [] = 0%nat → lsum f (deques (thread_pool_create stealing n cap)) = 0%nat).
  { intros f Hf. cbn. destruct stealing; [by apply lsum_replicate|done]. }
  assert (Hw : ∀ g, weight g (thread_pool_create stealing n cap) = 0%nat).
  { intros g. unfold weight, entered_weight, inside_weight, waiting_weight. rewrite Hd by done. cbn. rewrite msum_empty, Hl by done. done. }
  assert (Hrep : ∀ w pc, replicate n LoopTop !! w = Some pc → pc = LoopTop) by (by intros w pc [-> _]%lookup_replicate_1).
  split; split; try done.
  - intros i. rewrite Hw. cbn. by rewrite bool_decide_eq_false_2 by lia.
  - intros g. cbn. by rewrite Hl.
  - cbn. by rewrite Hl.
  - cbn. by rewrite Hl.
  - cbn [tasks_submitted submissions thread_pool_create]. rewrite msum_empty. pose proof (Hw (λ _, 1%nat)) as H. unfold weight in H. lia.
  - intros i. unfold pending_weight. specialize (Hw (wants i)). unfold weight, entered_weight in Hw. cbn [futures thread_pool_create].
    rewrite lookup_empty, lsum_nil. cbn [is_open]. lia.
  - intros w pc ->%Hrep. done.
  - cbn. destruct stealing; [|done]. unfold num_threads. cbn. by rewrite !length_replicate.
  - cbn. rewrite Hl by done. lia.
  - cbn. lia.
  - intros w pc ->%Hrep. done.
  - intros w E%Hrep. done.
Qed.

Section reachable.
Context (call : Z → Z → option Z).

(** No use of a deleted pool or future, and the invariant. *)
Lemma pool_exec_inv p a r : pool_inv call p → client_ok p a = true → pool_exec call p a = Some r →
  match r with Next p' => pool_inv call p' | Freed => joined p = true ∧ ∀ f, a ≠ Release f end.
Proof.
  intros [Ha Hr Hc] Hok. unfold pool_exec. assert (Hcase : (∃ f, a = Release f) ∨ ∀ f, a ≠ Release f).
  { destruct a; try (by right). left. by eexists. }
  destruct Hcase as [[f ->]|Hnr].
  { intros [= <-]. destruct (future_release p f) as [p'|] eqn:Ef.
    - split; [|by eapply results_release|]; unfold future_release in Ef; destruct (futures p !! f); [|done| |done];
        injection Ef as <-; [by apply accounts_set_futures|by destruct Hc].
    - cbn [client_ok] in Hok. unfold future_is_ready, future_release in *. by destruct (futures p !! f). }
  destruct (joined p) eqn:Hj.
  { destruct a; try (intros [= <-]; done). by destruct (Hnr f). }
  destruct a as [c from fn arg b|c wake|c|w victim lost|w| | | | |f]; [..|by destruct (Hnr f)].
  - intros (p' & E & ->)%next_inv. split; [by eapply accounts_submit|by eapply results_submit|by eapply control_submit].
  - intros (p' & E & ->)%next_inv. split; [by eapply accounts_submit_push|by eapply results_submit_push|by eapply control_submit_push].
  - intros (p' & E & ->)%next_inv. split; [by eapply accounts_submit_count|by eapply results_submit_count|by eapply control_submit_count].
  - intros E. destruct r as [p'|]; [split; apply worker_step_move in E as (pc & Hw & Hcall & Hm);
      [by eapply accounts_worker_move|by eapply results_worker_move|by eapply control_worker_move]|].
    exfalso. by eapply worker_step_safe.
  - intros (p' & E & ->)%next_inv. apply (spurious_wakeup_move call) in E as (pc & Hw & Hn & Hm).
    assert (calling p w = false) as Hcall.
    { destruct (calling p w) eqn:Ec; [|done]. destruct (calling_running p w Hc Ec) as [t Ht]. rewrite Hw in Ht. injection Ht as ->. by destruct (Hn t). }
    split; [by eapply accounts_worker_move|by eapply results_worker_move|by eapply control_worker_move].
  - intros [= <-]. split; [by apply accounts_set_flags|by destruct Hr|by destruct Hc].
  - intros [= <-]. split; [|apply results_map_workers; [by destruct Hr|intros []; by split; [|left + right]]|by apply control_resume].
    apply accounts_map_workers; [by apply accounts_set_flags|by intros []].
  - intros (p' & E & ->)%next_inv. pose proof E as E'. unfold destroy_begin in E'. destruct (lock_free p); [|done]. injection E' as <-.
    split; [| |by eapply control_destroy_begin].
    + apply accounts_map_workers; [|by intros []]. apply accounts_map_workers; [by apply accounts_set_flags|by intros []].
    + apply results_map_workers; [|intros []; by split; [|left + right]].
      apply results_map_workers; [by destruct Hr|intros []; by split; [|left + right]].
  - intros E. assert (Hd : use_work_stealing p = false → deques p = []).
    { intros Em. pose proof (ctl_deques p Hc) as Hl. rewrite Em in Hl. by apply nil_length_inv. }
    pose proof E as E'. unfold destroy_end in E'. destruct (stop p && forallb is_exited (workers p)) eqn:Ese; [|done]. clear E'.
    apply andb_true_iff in Ese as [Es Ee]. destruct (results_destroy_end call p Hr Hd Es Ee) as (p' & E2 & Hr').
    rewrite E in E2. injection E2 as ->. split; [by eapply accounts_destroy_end|done|by eapply control_destroy_end].
Qed.

Lemma pool_reachable_inv p0 p : pool_inv call p0 → pool_reachable call p0 p → pool_inv call p.
Proof. intros H0. induction 1 as [|p a p' _ IH Hok He]; [done|]. exact (pool_exec_inv p a _ IH Hok He). Qed.
End reachable.
