(* ===== verification/ThreadPoolProps.v ===== *)
(** * ThreadPoolProps: the progress of the pool and its properties *)

From S2P Require Export ThreadPoolInv.
From S2P Require Import ThreadPool ThreadPoolInv.
Local Open Scope Z_scope.

(** * The shutdown of the pool ends

    In a pool that stops, every step of a worker and of a submission under way
    makes [remaining] smaller, and one of them can be made until every worker has
    exited and no submission is left. *)

#[local] Arguments lsum : simpl never.
#[local] Arguments msum : simpl never.

(** ** What is left to do *)

Definition rank (n : nat) (pc : worker) : nat :=
  match pc with
  | Exited => 0 | WaitTask => 1 | LoopTop | PauseLock => 2 | QueueSleep | PauseSleep => 3 | PauseBlock => 4
  | TryExternal => 3 | TrySteal k => 4 + k | TryPop => 5 + n
  | Inactive _ _ => 3 | Counted _ _ => 4 | Returned _ _ => 5 | Running _ => 6 | Hold _ => 7
  end.
Definition submission_rank (s : submission) : nat := match s with Accepted _ _ => 12 | PushedTask _ _ => 1 end.

Definition remaining (p : pool) : nat :=
  (lsum (rank (num_threads p)) (workers p) + 10 * (length (legacy_queue p) + lsum length (deques p)) + msum submission_rank (submissions p))%nat.

(** The steps of the pool itself. *)
Definition internal (a : pool_action) : bool :=
  match a with WorkerStep _ _ _ | SubmitPush _ _ | SubmitCount _ => true | _ => false end.

Lemma rank_moved p w pc pc' : workers p !! w = Some pc →
  (lsum (rank (num_threads p)) (<[w:=pc']> (workers p)) + rank (num_threads p) pc = lsum (rank (num_threads p)) (workers p) + rank (num_threads p) pc')%nat.
Proof. intros H. exact (lsum_insert _ _ _ _ _ H). Qed.

Ltac shrinks := unfold remaining, num_threads in *;
  cbn [legacy_queue deques workers submissions set_queue set_deques set_deque set_counters set_workers set_worker set_submissions set_futures set_history
       count_submitted thread_pool_note_queue_depth rank submission_rank length] in *;
  rewrite ?length_insert, ?length_app in *; cbn [length] in *.

Section calls.
Context (call : Z → Z → option Z).

(** A worker that takes a task takes it from the queue or a deque. *)
Lemma remaining_take p w pc t q d : workers p !! w = Some pc →
  (length q + lsum length d + 1 = length (legacy_queue p) + lsum length (deques p))%nat →
  (remaining (set_worker (set_queue (set_deques p d) q) w (Hold t)) < remaining p)%nat.
Proof. intros Hw Hq. pose proof (rank_moved p w pc (Hold t) Hw) as M. shrinks. lia. Qed.

Lemma remaining_set_worker p w pc pc' : workers p !! w = Some pc → (rank (num_threads p) pc' < rank (num_threads p) pc)%nat →
  (remaining (set_worker p w pc') < remaining p)%nat.
Proof. intros Hw Hr. pose proof (rank_moved p w pc pc' Hw) as M. shrinks. lia. Qed.

Lemma remaining_execute p w pc p' : workers p !! w = Some pc → execute_step call p w pc = Some (Next p') → (remaining p' < remaining p)%nat.
Proof.
  intros Hw. unfold execute_step. destruct pc as [| | | | | | | | |t|t|t r|t r|t r|]; try done.
  - intros [= <-]. pose proof (rank_moved p w _ (Running t) Hw) as M. shrinks. lia.
  - intros [= <-]. pose proof (rank_moved p w _ (Returned t (outcome_of call t)) Hw) as M. shrinks. lia.
  - intros [= <-]. pose proof (rank_moved p w _ (Counted t r) Hw) as M. shrinks. lia.
  - intros [= <-]. pose proof (rank_moved p w _ (Inactive t r) Hw) as M. shrinks. lia.
  - destruct (complete_future p t r) as [p1|] eqn:E; [|done]. intros [= <-]. apply complete_future_fields in E as [f ->].
  pose proof (rank_moved p w _ LoopTop Hw) as M. shrinks. lia.
Qed.

Lemma remaining_work_stealing_step p w victim lost pc p' : stop p = true → asleep pc = false → workers p !! w = Some pc →
  work_stealing_step call p w victim lost pc = Some (Next p') → (remaining p' < remaining p)%nat.
Proof.
  intros Hs Ha Hw. unfold work_stealing_step. rewrite Hs.
  destruct pc as [| | | | | | |n| |t|t|t r|t r|t r|]; try done; try (by apply remaining_execute).
  - intros [= <-]. apply (remaining_set_worker p w LoopTop); [done|cbn; lia].
  - destruct (lock_free p); [|done]. intros [= <-]. apply (remaining_set_worker p w PauseLock); [done|cbn; lia].
  - destruct (deques p !! w) as [d|] eqn:Ed; [|done]. destruct (list.last d) as [t|] eqn:El; intros [= <-].
    + refine (remaining_take p w TryPop t (legacy_queue p) (<[w:=take (length d - 1) d]> (deques p)) Hw _).
      pose proof (lsum_insert length _ _ _ (take (length d - 1) d) Ed). pose proof (lsum_last (λ _, 1%nat) d t El) as M. rewrite !lsum_one in M. lia.
    + apply (remaining_set_worker p w TryPop); [done|cbn; lia].
  - destruct n as [|n]; [intros [= <-]; apply (remaining_set_worker p w (TrySteal 0)); [done|cbn; lia]|].
    assert (Hgo : (remaining (set_worker p w (TrySteal n)) < remaining p)%nat) by (apply (remaining_set_worker p w (TrySteal (S n))); [done|cbn; lia]).
    destruct (victim =? w)%nat; [by intros [= <-]|].
    destruct (deques p !! victim) as [[|t d]|] eqn:Ed; [by intros [= <-]| |done]. destruct lost; [by intros [= <-]|]. intros [= <-].
    refine (remaining_take p w (TrySteal (S n)) t (legacy_queue p) (<[victim:=d]> (deques p)) Hw _).
    pose proof (lsum_insert length _ _ _ d Ed). cbn [length] in *. lia.
  - destruct (lock_free p); [|done]. assert (Hgo : (remaining (set_worker p w LoopTop) < remaining p)%nat) by (apply (remaining_set_worker p w TryExternal); [done|cbn; lia]).
    destruct (legacy_queue p) as [|t q] eqn:Eq; cbn [negb]; [by intros [= <-]|]. destruct (paused p); [by intros [= <-]|]. intros [= <-].
    refine (remaining_take p w TryExternal t q (deques p) Hw _). rewrite Eq. cbn. lia.
Qed.

Lemma remaining_legacy_step p w pc p' : stop p = true → asleep pc = false → workers p !! w = Some pc →
  legacy_step call p w pc = Some (Next p') → (remaining p' < remaining p)%nat.
Proof.
  intros Hs Ha Hw. unfold legacy_step. rewrite Hs.
  destruct pc as [| | | | | | |n| |t|t|t r|t r|t r|]; try done; try (by apply remaining_execute).
  - destruct (lock_free p); [|done]. intros [= <-]. apply (remaining_set_worker p w LoopTop); [done|cbn; lia].
  - rewrite andb_false_r. destruct (legacy_queue p) as [|t q] eqn:Eq; intros [= <-].
    + apply (remaining_set_worker p w WaitTask); [done|cbn; lia].
    + refine (remaining_take p w WaitTask t q (deques p) Hw _). rewrite Eq. cbn. lia.
  - destruct (lock_free p); [|done]. intros [= <-]. apply (remaining_set_worker p w PauseLock); [done|cbn; lia].
Qed.

Lemma no_queue_sleeper p : control p → stop p = true → existsb on_queue_cv (workers p) = false.
Proof.
  intros Hc Hs. destruct (existsb on_queue_cv (workers p)) eqn:E; [|done]. apply existsb_exists in E as (pc & Hin & Hpc).
  apply list_elem_of_In, list_elem_of_lookup in Hin as [w Hw]. pose proof (ctl_stop p Hc Hs w pc Hw). by destruct pc.
Qed.

Lemma stopped_notify p q w : control p → stop p = true → workers q = workers p → queue_cv_notify_one q w = Some q.
Proof.
  intros Hc Hs Ew. unfold queue_cv_notify_one. rewrite Ew, (no_queue_sleeper p Hc Hs). destruct (workers p !! w) as [pc|] eqn:E; [|done].
  pose proof (ctl_stop p Hc Hs w pc E). by destruct pc.
Qed.

Lemma submission_rank_moved p c s s' : submissions p !! c = Some s →
  (msum submission_rank (<[c:=s']> (submissions p)) + submission_rank s = msum submission_rank (submissions p) + submission_rank s')%nat
  ∧ (msum submission_rank (delete c (submissions p)) + submission_rank s = msum submission_rank (submissions p))%nat.
Proof. intros H. split; [exact (msum_replace _ _ _ _ _ H)|exact (msum_delete _ _ _ _ H)]. Qed.

Lemma remaining_submit_push p c wake p' : control p → stop p = true → submit_push p c wake = Some p' → (remaining p' < remaining p)%nat.
Proof.
  intros Hc Hs. unfold submit_push. destruct (submissions p !! c) as [[from t|from t]|] eqn:Ec; [|done|done].
  assert (Hq : queue_push p c wake from t = Some p' → (remaining p' < remaining p)%nat).
  { destruct (submission_rank_moved p c _ (PushedTask from t) Ec) as [M1 M2].
    unfold queue_push. destruct (lock_free p); [|done]. destruct (thread_pool_legacy_queue_full_locked p); [intros [= <-]; shrinks; lia|].
    destruct (use_work_stealing _); [intros [= <-]; shrinks; lia|]. rewrite (stopped_notify p) by done. intros [= <-]. shrinks. lia. }
  destruct (use_work_stealing p), from as [w|]; try done. unfold deque_push. destruct (deques p !! w) as [d|] eqn:Ed; [|done]. intros [= <-].
  destruct (submission_rank_moved p c _ (PushedTask (Some w) t) Ec) as [M1 _]. pose proof (lsum_insert length _ _ _ (d ++ [t]) Ed). shrinks. lia.
Qed.

(** Every internal step makes it smaller. *)
Lemma internal_shrinks p a p' : control p → stop p = true → internal a = true → pool_exec call p a = Some (Next p') → (remaining p' < remaining p)%nat.
Proof.
  intros Hc Hs Hi. destruct a as [c from fn arg b|c wake|c|w victim lost|w| | | | |f]; try done; cbn [pool_exec]; (destruct (joined p); [done|]).
  - intros (p1 & E & [= ->])%next_inv. by eapply remaining_submit_push.
  - intros (p1 & E & [= ->])%next_inv. unfold submit_count in E. destruct (submissions p !! c) as [[from t|from t]|] eqn:Ec; try done.
    injection E as <-. destruct (submission_rank_moved p c _ (PushedTask from t) Ec) as [_ M]. shrinks. lia.
  - unfold worker_step. destruct (workers p !! w) as [pc|] eqn:Hw; [|done]. destruct (calling p w); [done|].
    pose proof (ctl_stop p Hc Hs w pc Hw) as Ha. destruct (use_work_stealing p); [by apply remaining_work_stealing_step|by apply remaining_legacy_step].
Qed.

Lemma internal_stop p a p' : stop p = true → joined p = false → internal a = true → pool_exec call p a = Some (Next p') →
  stop p' = true ∧ joined p' = false.
Proof.
  intros Hs Hj Hi. destruct a as [c from fn arg b|c wake|c|w victim lost|w| | | | |f]; try done; cbn [pool_exec]; rewrite Hj.
  - intros (p1 & E & [= ->])%next_inv. unfold submit_push, queue_push, deque_push, queue_cv_notify_one in E.
    repeat case_match; try done; by injection E as <-.
  - intros (p1 & E & [= ->])%next_inv. unfold submit_count in E. repeat case_match; try done; by injection E as <-.
  - intros (pc & Hw & _ & [pc' _|t q d _ _ _ _|p1 He])%worker_step_move; [done|done|]. unfold execute_step in He.
    destruct pc; try done; try (by injection He as <-). destruct (complete_future p t r) as [p2|] eqn:Ec; [|done].
    apply complete_future_fields in Ec as [f ->]. by injection He as <-.
Qed.

(** ** Some step can be made *)

(** The worker that holds the lock can move. *)
Lemma lock_holder_moves p : control p → stop p = true → lock_free p = false → ∃ w p', worker_step call p w 0 false = Some (Next p').
Proof.
  intros Hc Hs Hl. unfold lock_free in Hl. assert (∃ w pc, workers p !! w = Some pc ∧ holds_lock pc = true) as (w & pc & Hw & Hh).
  { clear -Hl. induction (workers p) as [|pc l IH]; [done|]. cbn in Hl. destruct (holds_lock pc) eqn:E; [by exists 0%nat, pc|].
    destruct (IH Hl) as (w & pc' & H). by exists (S w), pc'. }
  assert (calling p w = false) as Hcall.
  { destruct (calling p w) eqn:E; [|done]. destruct (calling_running p w Hc E) as [t Ht]. rewrite Hw in Ht. by injection Ht as ->. }
  exists w. unfold worker_step. rewrite Hw, Hcall. pose proof (ctl_mode p Hc w pc Hw). pose proof (ctl_stop p Hc Hs w pc Hw).
  destruct pc; try done. cbn in *. destruct (use_work_stealing p); [done|]. cbn [legacy_step]. rewrite Hs, andb_false_r.
  destruct (legacy_queue p); by eexists.
Qed.

Lemma execute_moves p w pc t : results call p → workers p !! w = Some pc → held pc = [t] → ∃ p', execute_step call p w pc = Some (Next p').
Proof.
  intros Hr Hw Hh. destruct pc as [| | | | | | | | |t'|t'|t' r|t' r|t' r|]; try done; cbn [execute_step]; try (by eexists).
  injection Hh as ->. unfold complete_future. destruct (has_future t) eqn:Hf; [|by eexists].
  rewrite (results_held call p w _ t Hr Hw eq_refl Hf). by eexists.
Qed.

(** With the lock free, every worker that has not exited can move. *)
Lemma worker_moves p w pc : control p → results call p → stop p = true → lock_free p = true → workers p !! w = Some pc → is_exited pc = false →
  calling p w = false → ∃ p', worker_step call p w w false = Some (Next p').
Proof.
  intros Hc Hr Hs Hl Hw Hx Hcall. unfold worker_step. rewrite Hw, Hcall.
  pose proof (ctl_mode p Hc w pc Hw) as Hm. pose proof (ctl_stop p Hc Hs w pc Hw) as Ha.
  assert (Hlt : (w < num_threads p)%nat) by (by eapply lookup_lt_Some).
  destruct (use_work_stealing p) eqn:Em.
  - assert (is_Some (deques p !! w)) as [d Hd] by (apply lookup_lt_is_Some; pose proof (ctl_deques p Hc) as H; rewrite Em in H; lia).
    destruct pc as [| | | | | | |n| |t|t|t r|t r|t r|]; try done; cbn [work_stealing_step next option_map]; rewrite ?Hl; cbn [negb];
      try (by eexists); try (by eapply execute_moves).
    + rewrite Hd. destruct (list.last d); by eexists.
    + destruct n; [by eexists|]. rewrite Nat.eqb_refl. by eexists.
    + destruct (legacy_queue p); by eexists.
  - destruct pc as [| | | | | | |n| |t|t|t r|t r|t r|]; try done; cbn [legacy_step next option_map]; rewrite ?Hl; cbn [negb];
      try (by eexists); try (by eapply execute_moves). rewrite Hs, andb_false_r. destruct (legacy_queue p); by eexists.
Qed.

Lemma submission_moves p c s : control p → stop p = true → joined p = false → submissions p !! c = Some s → lock_free p = true →
  ∃ a p', internal a = true ∧ pool_exec call p a = Some (Next p').
Proof.
  intros Hc Hs Hj Hsub Hl. destruct s as [from t|from t].
  - exists (SubmitPush c 0). cbn [internal pool_exec]. rewrite Hj. unfold submit_push. rewrite Hsub.
    assert (Hq : ∃ p', queue_push p c 0 from t = Some p').
    { unfold queue_push. rewrite Hl. cbn [negb]. destruct (thread_pool_legacy_queue_full_locked p); [by eexists|]. destruct (use_work_stealing _); [by eexists|].
      rewrite (stopped_notify p) by done. by eexists. }
    destruct Hq as [p' Hq]. destruct (use_work_stealing p) eqn:Em, from as [w|]; try (exists p'; by rewrite Hq).
    destruct (ctl_from p Hc c _ w Hsub eq_refl) as [t' Ht].
    assert (is_Some (deques p !! w)) as [d Hd].
    { apply lookup_lt_is_Some. rewrite (ctl_deques p Hc), Em. by eapply lookup_lt_Some. }
    unfold deque_push. rewrite Hd. by eexists.
  - exists (SubmitCount c). cbn [internal pool_exec]. rewrite Hj. unfold submit_count. rewrite Hsub. by eexists.
Qed.

Lemma shutdown_moves p : control p → results call p → stop p = true → joined p = false →
  (forallb is_exited (workers p) = true ∧ submissions p = ∅) ∨ ∃ a p', internal a = true ∧ pool_exec call p a = Some (Next p').
Proof.
  intros Hc Hr Hs Hj.
  assert (Hworker : ∀ w v p', worker_step call p w v false = Some (Next p') → ∃ a p', internal a = true ∧ pool_exec call p a = Some (Next p')).
  { intros w v p' E. exists (WorkerStep w v false), p'. cbn [internal pool_exec]. by rewrite Hj. }
  destruct (lock_free p) eqn:Hl; [|right; destruct (lock_holder_moves p Hc Hs Hl) as (w & p' & E); by eapply Hworker].
  destruct (map_choose_or_empty (submissions p)) as [(c & s & Hsub)|Hempty]; [right; by eapply submission_moves|].
  destruct (forallb is_exited (workers p)) eqn:Ex; [by left|right].
  assert (∃ w pc, workers p !! w = Some pc ∧ is_exited pc = false) as (w & pc & Hw & Hx).
  { clear -Ex. induction (workers p) as [|pc l IH]; [done|]. cbn in Ex. destruct (is_exited pc) eqn:E; [|by exists 0%nat, pc].
    destruct (IH Ex) as (w & pc' & H). by exists (S w), pc'. }
  assert (calling p w = false) as Hcall by (unfold calling; rewrite Hempty; by rewrite map_to_list_empty).
  destruct (worker_moves p w pc Hc Hr Hs Hl Hw Hx Hcall) as [p' E]. by eapply Hworker.
Qed.

Lemma internal_ok p a : internal a = true → client_ok p a = true.
Proof. by destruct a. Qed.

(** From a pool that stops, internal steps lead to the end. *)
Lemma shutdown_run n p : (remaining p <= n)%nat → pool_inv call p → stop p = true → joined p = false →
  ∃ acts p', forallb internal acts = true ∧ pool_run call p acts = Some p' ∧ pool_inv call p' ∧ stop p' = true ∧ joined p' = false
    ∧ forallb is_exited (workers p') = true ∧ submissions p' = ∅.
Proof.
  revert p. induction n as [|n IH]; intros p Hn Hi Hs Hj; destruct (shutdown_moves p (inv_control _ p Hi) (inv_results _ p Hi) Hs Hj) as [[Hx Hsub]|(a & p1 & Ha & E)];
    try (exists [], p; split_and!; done).
  - pose proof (internal_shrinks p a p1 (inv_control _ p Hi) Hs Ha E). lia.
  - pose proof (internal_shrinks p a p1 (inv_control _ p Hi) Hs Ha E). destruct (internal_stop p a p1 Hs Hj Ha E) as [Hs1 Hj1].
    pose proof (pool_exec_inv call p a _ Hi (internal_ok p a Ha) E) as Hi1.
    destruct (IH p1 ltac:(lia) Hi1 Hs1 Hj1) as (acts & p2 & Hacts & E2 & Hrest). exists (a :: acts), p2. cbn [forallb pool_run]. by rewrite Ha, E.
Qed.

(** And no run of them is longer than what remains. *)
Lemma internal_run_bounded acts p p' : pool_inv call p → stop p = true → joined p = false → forallb internal acts = true →
  pool_run call p acts = Some p' → (length acts + remaining p' <= remaining p)%nat.
Proof.
  revert p. induction acts as [|a acts IH]; intros p Hi Hs Hj; cbn [forallb pool_run length]; [intros _ [= ->]; lia|].
  intros [Ha Hacts]%andb_true_iff. destruct (pool_exec call p a) as [[p1|]|] eqn:E; [|done|done].
  pose proof (internal_shrinks p a p1 (inv_control _ p Hi) Hs Ha E). destruct (internal_stop p a p1 Hs Hj Ha E) as [Hs1 Hj1].
  pose proof (pool_exec_inv call p a _ Hi (internal_ok p a Ha) E) as Hi1. intros H1%(IH p1); [lia|done..].
Qed.

Lemma pool_run_app acts acts' p p' : pool_run call p acts = Some p' → pool_run call p (acts ++ acts') = pool_run call p' acts'.
Proof.
  revert p. induction acts as [|a acts IH]; intros p; cbn [pool_run app]; [by intros [= ->]|].
  destruct (pool_exec call p a) as [[p1|]|]; [apply IH|done|done].
Qed.

(** A destroyed pool holds nothing. *)
Lemma destroyed_empty p p' : pool_inv call p → pool_inv call p' → pool_exec call p DestroyEnd = Some (Next p') → submissions p = ∅ →
  waiting_tasks p' = [] ∧ queued_tasks p' = [] ∧ held_tasks p' = [].
Proof.
  intros Hi Hi' E Hsub. cbn [pool_exec] in E. destruct (joined p); [done|]. unfold destroy_end in E. destruct (stop p && _); [|done].
  fold (left_over p) in E. destruct (discard_all _ _) as [p1|] eqn:Ed; [|done]. injection E as <-.
  apply discard_all_fields in Ed as [f Ep]. assert (Es : submissions p1 = ∅) by (by rewrite Ep).
  destruct (ctl_joined _ (inv_control _ _ Hi') eq_refl) as (Hq & Hd & Hx). split_and!.
  - unfold waiting_tasks. cbn [submissions set_joined]. by rewrite Es, map_to_list_empty.
  - unfold queued_tasks. by rewrite Hq, Hd.
  - unfold held_tasks. rewrite forallb_forall in Hx. revert Hx. generalize (workers (set_joined p1)) as l.
    induction l as [|pc l IH]; intros Hx; [done|]. cbn [map concat]. rewrite IH by (intros x Hin; apply Hx; by right).
    specialize (Hx pc (or_introl eq_refl)). by destruct pc.
Qed.
End calls.

(** * The theorems about the thread pool *)

Lemma occurrences_ids i l : occurrences i (map task_id l) = lsum (has_id i) l.
Proof. unfold occurrences. by rewrite lsum_map. Qed.

Lemma all_ids p : accounts p → map task_id (all_tasks p) ≡ₚ map Z.of_nat (seq 0 (Z.to_nat (next_task p))).
Proof.
  intros Ha. apply permutation_by_counting. intros i. rewrite occurrences_ids, occurrences_range, weight_all, (acc_ids p Ha).
  pose proof (acc_next p Ha). repeat case_bool_decide; lia.
Qed.

Lemma ids_nodup p : accounts p → NoDup (map task_id (all_tasks p)).
Proof. intros Ha. rewrite (all_ids p Ha). apply NoDup_fmap_2; [apply _|apply NoDup_seq]. Qed.

Lemma executed_ids p : accounts p → map task_id (executed p) ≡ₚ map task_id (finished p ++ concat (map ran (workers p))).
Proof.
  intros Ha. apply permutation_by_counting. intros i. rewrite !occurrences_ids, lsum_app, lsum_concat, lsum_map. apply (acc_executed p Ha).
Qed.

Lemma ran_held l : map task_id (concat (map ran l)) `sublist_of` map task_id (concat (map held l)).
Proof.
  induction l as [|pc l IH]; [done|]. cbn [map concat]. rewrite !map_app. apply sublist_app; [|exact IH].
  destruct pc; cbn; try done; apply sublist_nil_l.
Qed.

Lemma executed_nodup p : accounts p → NoDup (map task_id (executed p)).
Proof.
  intros Ha. rewrite (executed_ids p Ha). pose proof (ids_nodup p Ha) as Hn. unfold all_tasks, held_tasks in Hn. rewrite map_app.
  rewrite !map_app in Hn. apply list.NoDup_app in Hn as (_ & _ & Hn). apply list.NoDup_app in Hn as (_ & _ & Hn).
  rewrite app_assoc in Hn. apply list.NoDup_app in Hn as (Hn & _ & _). rewrite Permutation_app_comm.
  eapply sublist_NoDup; [exact Hn|]. apply sublist_app; [apply ran_held|done].
Qed.

(** C17: no task is lost and none runs twice: in every state a client can bring the
    pool to, each task that was ever submitted is in exactly one place (on its way,
    queued, held by a worker, finished, discarded or refused), every task is
    executed at most once, [active_workers] is the number of workers between their
    two updates of it, [tasks_completed] and [tasks_submitted] count what finished
    and what was pushed, and the shared queue is within its capacity. *)
Theorem pool_tasks_once call stealing n cap p : pool_reachable call (thread_pool_create stealing n cap) p →
  map task_id (all_tasks p) ≡ₚ map Z.of_nat (seq 0 (Z.to_nat (next_task p)))
  ∧ NoDup (map task_id (executed p))
  ∧ map task_id (executed p) ≡ₚ map task_id (finished p ++ concat (map ran (workers p)))
  ∧ active_workers p = Z.of_nat (lsum is_active (workers p))
  ∧ tasks_completed p = Z.of_nat (length (finished p) + lsum is_counted (workers p))
  ∧ tasks_submitted p + Z.of_nat (msum uncounted (submissions p))
      = Z.of_nat (length (queued_tasks p) + length (held_tasks p) + length (finished p) + length (discarded p))
  ∧ (0 < max_queue_size p → Z.of_nat (length (legacy_queue p)) <= max_queue_size p).
Proof.
  intros Hr. destruct (pool_reachable_inv call _ p (create_inv call stealing n cap) Hr) as [Ha _ Hc].
  split_and!; [by apply all_ids|by apply executed_nodup|by apply executed_ids|apply Ha|apply Ha| |apply Hc].
  rewrite (acc_submitted p Ha). unfold entered_weight, inside_weight, queued_tasks, held_tasks.
  rewrite <- !lsum_one, lsum_app, !lsum_concat, lsum_map. lia.
Qed.

(** [square] fails on 3. *)
Definition square (f x : Z) : option Z := if x =? 3 then None else Some (x * x).

Fixpoint reach_run (acts : list pool_action) (p : pool) : option pool :=
  match acts with
  | [] => Some p
  | a :: acts =>
      if client_ok p a then match pool_exec square p a with Some (Next p) => reach_run acts p | _ => None end else None
  end.

Lemma reach_run_reachable acts p0 p p' : pool_reachable square p0 p → reach_run acts p = Some p' → pool_reachable square p0 p'.
Proof.
  revert p. induction acts as [|a acts IH]; intros p Hp; cbn [reach_run]; [by intros [= <-]|].
  destruct (client_ok p a) eqn:Ea; [|done]. destruct (pool_exec square p a) as [[p1|]|] eqn:E; [|done|done].
  intros H. apply (IH p1); [|done]. by eapply reach_step.
Qed.

(** Two workers: 0 runs a task that submits another to its own deque, 1 steals that one. *)
Definition shared_run : list pool_action :=
  [Submit 0 None 0 5 true; SubmitPush 0 0; SubmitCount 0] ++ [WorkerStep 0 0 false; WorkerStep 0 0 false; WorkerStep 0 0 false;
   WorkerStep 0 1 false; WorkerStep 0 0 false; WorkerStep 0 0 false; WorkerStep 0 0 false]
  ++ [Submit 1 (Some 0%nat) 0 3 true; SubmitPush 1 0; WorkerStep 1 0 false; WorkerStep 1 0 false; WorkerStep 1 0 false; SubmitCount 1;
      WorkerStep 0 0 false; WorkerStep 1 0 false; WorkerStep 0 0 false; WorkerStep 1 0 false; WorkerStep 1 0 false; WorkerStep 0 0 false;
      WorkerStep 1 0 false; WorkerStep 1 0 false; WorkerStep 0 0 false].

Lemma pool_tasks_once_witness : ∃ p, reach_run shared_run (thread_pool_create true 2 10) = Some p
  ∧ map task_id (executed p) = [0; 1] ∧ map task_id (all_tasks p) = [0; 1] ∧ NoDup (map task_id (executed p)).
Proof.
  destruct (reach_run shared_run (thread_pool_create true 2 10)) as [p|] eqn:E; [|vm_compute in E; discriminate].
  exists p. split; [reflexivity|]. split; [|split].
  - vm_compute in E. injection E as <-. reflexivity.
  - vm_compute in E. injection E as <-. reflexivity.
  - apply (pool_tasks_once square true 2 10). eapply reach_run_reachable; [apply reach_start|exact E].
Defined.

(** A future answers with the outcome of its own task: as long as futures are
    released only once they are ready, [future_get] returns the value of the task
    it was made for (null when the task threw, or was discarded by the destruction
    of the pool), an unreleased future is open exactly while its task is submitted,
    queued or held, and no step reads a deleted future, or the pool before it is
    destroyed. *)
Theorem pool_futures call stealing n cap p : pool_reachable call (thread_pool_create stealing n cap) p →
  (∀ f r, future_get p f = Some r → ∃ t, has_future t = true ∧ task_id t = f
     ∧ ((t ∈ finished p ∧ r = outcome_of call t) ∨ (t ∈ discarded p ∧ r = 0)))
  ∧ (∀ i, lsum (wants i) (waiting_tasks p ++ queued_tasks p ++ held_tasks p) = is_open (futures p !! i))
  ∧ (∀ a, client_ok p a = true → pool_exec call p a = Some Freed → joined p = true ∧ ∀ f, a ≠ Release f).
Proof.
  intros Hr. pose proof (pool_reachable_inv call _ p (create_inv call stealing n cap) Hr) as Hi. split_and!.
  - intros f r. unfold future_get. destruct (futures p !! f) as [[r' [|]]|] eqn:Ef; try done. cbn. intros [= <-].
    exact (res_done call [] p (inv_results _ _ Hi) f r' Ef).
  - intros i. rewrite <- (res_open call [] p (inv_results _ _ Hi) i). unfold pending_weight, waiting_weight, inside_weight, waiting_tasks, queued_tasks, held_tasks, msum.
    rewrite !lsum_app, !lsum_concat, !lsum_map, lsum_nil. cbn. lia.
  - intros a Ha E. exact (pool_exec_inv call p a Freed Hi Ha E).
Qed.



(** One legacy worker runs a task while a second one is queued and a third is on its way. *)
Definition stopping_run : list pool_action :=
  [Submit 0 None 0 5 true; SubmitPush 0 0; WorkerStep 0 0 false; WorkerStep 0 0 false; WorkerStep 0 0 false;
   Submit 1 None 0 6 true; SubmitPush 1 0; Submit 2 None 0 7 true; DestroyBegin].


(** ** What a client may not rely on *)

(** [thread_pool_wait_idle] returns while a worker holds a task it has not begun. *)
Lemma wait_idle_early : ∃ p, reach_run ([Submit 0 None 0 5 true; SubmitPush 0 0; SubmitCount 0] ++ replicate 5 (WorkerStep 0 0 false)) (thread_pool_create true 1 10) = Some p
  ∧ thread_pool_wait_idle_exit p = true ∧ executed p = [] ∧ future_is_ready p 0 = false.
Proof. eexists. split; [vm_compute; reflexivity|]. by vm_compute. Qed.

(** A legacy worker that was woken for a task submitted during a pause sleeps on
    [queue_cv]; [thread_pool_resume] notifies [pause_cv] only, and the task stays
    where it is until another one is submitted. *)
Definition lost_task : list pool_action :=
  [WorkerStep 0 0 false; Pause; Submit 0 None 0 5 true; SubmitPush 0 0; WorkerStep 0 0 false; Resume].

Lemma resume_loses_task : ∃ p, reach_run lost_task (thread_pool_create false 1 10) = Some p
  ∧ paused p = false ∧ stop p = false ∧ length (legacy_queue p) = 1%nat ∧ submissions p = ∅
  ∧ ∀ w v lost, worker_step square p w v lost = None.
Proof.
  eexists. split; [vm_compute; reflexivity|]. split_and!; try reflexivity. intros [|w] v lost; reflexivity.
Qed.

(** A worker about to wait for the end of a pause misses the notification of a
    resume that takes no lock, and sleeps in a pool that is not paused. *)
Definition lost_worker : list pool_action :=
  [Pause; WorkerStep 0 0 false; WorkerStep 0 0 false; Resume; WorkerStep 0 0 false; Submit 0 None 0 5 true; SubmitPush 0 0; SubmitCount 0].

Lemma resume_loses_worker : ∃ p, reach_run lost_worker (thread_pool_create true 1 10) = Some p
  ∧ paused p = false ∧ stop p = false ∧ length (legacy_queue p) = 1%nat ∧ submissions p = ∅
  ∧ ∀ w v lost, worker_step square p w v lost = None.
Proof.
  eexists. split; [vm_compute; reflexivity|]. split_and!; try reflexivity. intros [|w] v lost; reflexivity.
Qed.

(** A submission that saw [stop] unset pushes to a pool that has been deleted. *)
Lemma submit_races_destroy : ∃ p, reach_run [Submit 0 None 0 5 true; DestroyBegin; WorkerStep 0 0 false; WorkerStep 0 0 false; DestroyEnd] (thread_pool_create false 1 10) = Some p
  ∧ future_is_ready p 0 = false ∧ pool_exec square p (SubmitPush 0 0) = Some Freed.
Proof. eexists. split; [vm_compute; reflexivity|]. by vm_compute. Qed.

(** A future released before its task has run is written to by the worker. *)
Lemma release_too_early : ∃ p, pool_run square (thread_pool_create true 1 10)
    ([Submit 0 None 0 5 true; SubmitPush 0 0; SubmitCount 0; Release 0] ++ replicate 9 (WorkerStep 0 0 false)) = Some p
  ∧ pool_exec square p (WorkerStep 0 0 false) = Some Freed.
Proof. eexists. split; [vm_compute; reflexivity|]. by vm_compute. Qed.
