(* ===== verification/Objects.v ===== *)
(** * Objects: objects in memory, arenas and regions
    (inc/eshkol/eshkol.h, lib/core/arena_memory.h)

    Memory is a map from addresses to blocks; a block is the words of one object,
    with its header, or of one buffer without a header, and belongs to an arena.
    An address inside a block is not an address of the map.  A word keeps its kind:
    a tagged value, a pointer, an arena or a number of some width. *)

From stdpp Require Export gmap.
From S2P Require Export Prelude.
Local Open Scope Z_scope.

(** ** Tags (eshkol_value_type_t, heap_subtype_t, callable_subtype_t) *)

Definition ESHKOL_VALUE_INT64 : Z := 1.
Definition ESHKOL_VALUE_DUAL_NUMBER : Z := 6.
Definition ESHKOL_VALUE_COMPLEX : Z := 7.
Definition ESHKOL_VALUE_HEAP_PTR : Z := 8.
Definition ESHKOL_VALUE_CALLABLE : Z := 9.
Definition ESHKOL_VALUE_HANDLE : Z := 16.
Definition ESHKOL_VALUE_EVENT : Z := 19.
Definition ESHKOL_PORT_ANY_FLAG : Z := 80.

(** [ESHKOL_IS_ANY_HEAP_TYPE], [ESHKOL_IS_ANY_CALLABLE_TYPE], with the deprecated tags. *)
Definition ESHKOL_IS_ANY_HEAP_TYPE (type : Z) : bool := (type =? ESHKOL_VALUE_HEAP_PTR) || ((32 <=? type) && (type <=? 37)).
Definition ESHKOL_IS_ANY_CALLABLE_TYPE (type : Z) : bool := (type =? ESHKOL_VALUE_CALLABLE) || ((38 <=? type) && (type <=? 40)).
Definition ESHKOL_IS_ANY_PTR_TYPE (type : Z) : bool := ESHKOL_IS_ANY_HEAP_TYPE type || ESHKOL_IS_ANY_CALLABLE_TYPE type.

Definition HEAP_SUBTYPE_STRING : Z := 1.
Definition HEAP_SUBTYPE_BYTEVECTOR : Z := 8.
Definition HEAP_SUBTYPE_SYMBOL : Z := 10.
Definition HEAP_SUBTYPE_BIGNUM : Z := 11.
Definition HEAP_SUBTYPE_PRNG : Z := 20.
Definition HEAP_SUBTYPE_DNC : Z := 21.
Definition HEAP_SUBTYPE_SDNC : Z := 22.
Definition HEAP_SUBTYPE_PARAMETER : Z := 24.
Definition HEAP_SUBTYPE_I128 : Z := 25.
Definition CALLABLE_SUBTYPE_AD_NODE : Z := 2.

(** ** Memory *)

Inductive word :=
| Tag (type flags data : Z)
| Ptr (p : Z)
| Home (arena : Z)
| Num (width n : Z).

#[export] Instance word_eq_dec : EqDecision word.
Proof. solve_decision. Defined.

(** [header] is the subtype and the size in bytes of an object, [None] for a raw buffer. *)
Record block := Block { header : option (Z * Z); arena_of : Z; words : list word }.

Abbreviation heap := (gmap Z block).

Definition width (w : word) : Z := match w with Tag _ _ _ => 16 | Ptr _ | Home _ => 8 | Num k _ => k end.
Definition bytes (l : list word) : Z := foldr (λ w n, width w + n) 0 l.

(** The words of the first [size] bytes; [None] where [size] cuts a word or passes the end. *)
Fixpoint prefix (size : Z) (l : list word) : option (list word) :=
  if size =? 0 then Some []
  else
    match l with
    | [] => None
    | w :: l => if width w <=? size then (match prefix (size - width w) l with Some l => Some (w :: l) | None => None end) else None
    end.

(** ** Regions *)

(** The size in bytes is [fw_size]; [fw_object] tells an object from a raw buffer. *)
Record fwd_entry := EvacForward { fw_data : Z; fw_size : Z; fw_object : bool }.
Abbreviation fwd_map_t := (gmap Z fwd_entry).

Record region := Region {
  r_id : Z;
  r_arena : Z;
  escape_base : Z;
  fwd_map : fwd_map_t;
  fwd_target : Z;
  escape_count : Z;
  entry_saved_arena : option Z;
  pinned : bool;
  handle_owned : bool
}.

(** The index of the innermost region with arena [a], -1 when there is none; the
    stack lists the outermost region first. *)
Fixpoint arena_index (stack : list region) (i a : Z) : Z :=
  match stack with
  | [] => -1
  | r :: stack => let j := arena_index stack (i + 1) a in if 0 <=? j then j else if r_arena r =? a then i else -1
  end.

Definition region_index_owning (h : heap) (stack : list region) (p : Z) : Z :=
  match h !! p with Some b => arena_index stack 0 (arena_of b) | None => -1 end.
