(* ===== verification/Evac.v ===== *)
(** * Evac: promotion out of a region (lib/core/runtime_regions.cpp)

    A value that outlives a region is copied out of it with all it reaches in the
    region: [evac_value] copies an object or finds its copy, [evac_walk] rewrites
    the words of the copies that are still to do, and [region_evacuate_batch] is
    the transaction around them.  [Crash] is a read of what is not there or of a
    word of another kind; the arena grants [budget] allocations, any number when
    it is [None].  Two raw ranges that overlap are not expressible here, so
    [evac_check_overlap] has no counterpart. *)

From S2P Require Export Objects.
Local Open Scope Z_scope.

Inductive evac_kind :=
| EVAC_LEAF | EVAC_CONS | EVAC_VECTOR | EVAC_MULTIVALUE | EVAC_HASH | EVAC_TENSOR | EVAC_EXCEPTION | EVAC_CLOSURE
| EVAC_SUBSTITUTION | EVAC_FACT | EVAC_KNOWLEDGE_BASE | EVAC_FACTOR_GRAPH | EVAC_WORKSPACE | EVAC_PROMISE | EVAC_PRIMITIVE
| EVAC_RATIONAL | EVAC_TAYLOR.

Record evac_state := EvacState {
  st_heap : heap;
  next_addr : Z;
  budget : option nat;
  fwd : fwd_map_t;
  worklist : list (Z * evac_kind);
  spans : list Z;
  copies : Z
}.

Inductive evac_result (A : Type) := Done (a : A) (st : evac_state) | Failed (status : Z) (st : evac_state) | Crash.
Arguments Done {A}. Arguments Failed {A}. Arguments Crash {A}.

Definition EvacM (A : Type) : Type := evac_state → evac_result A.
#[export] Instance evac_ret : MRet EvacM := λ A a st, Done a st.
#[export] Instance evac_bind : MBind EvacM := λ A B f m st,
  match m st with Done a st => f a st | Failed s st => Failed s st | Crash => Crash end.
Definition promotion_fail {A} (status : Z) : EvacM A := λ st, Failed status st.
Definition crash {A} : EvacM A := λ _, Crash.

(** [for (i = 0; i < n; i++) f(i)]. *)
Fixpoint each (n i : nat) (f : nat → EvacM unit) : EvacM unit :=
  match n with O => mret tt | S n => f i ;; each n (S i) f end.

(** ** Reading and writing *)

Definition block_at (p : Z) : EvacM block := λ st, match st_heap st !! p with Some b => Done b st | None => Crash end.
Definition load (p : Z) (i : nat) : EvacM word := b ← block_at p; match words b !! i with Some w => mret w | None => crash end.
Definition load_num (p : Z) (i : nat) : EvacM Z := w ← load p i; match w with Num _ n => mret n | _ => crash end.
Definition load_ptr (p : Z) (i : nat) : EvacM Z := w ← load p i; match w with Ptr q => mret q | _ => crash end.

Definition set_word (b : block) (i : nat) (w : word) : block := Block (header b) (arena_of b) (<[i := w]> (words b)).

Definition evac_size (count width prefix : Z) : EvacM Z :=
  if (UINT64_MAX - prefix) / width <? count then promotion_fail 3 else mret (prefix + count * width).

(** A slot of a copy is written; any other slot must already hold the value. *)
Definition evac_assign (p : Z) (i : nat) (w : word) : EvacM unit :=
  cur ← load p i;
  if decide (cur = w) then mret tt
  else λ st,
    if decide (p ∈ spans st) then
      match st_heap st !! p with
      | Some b => Done tt (EvacState (<[p := set_word b i w]> (st_heap st)) (next_addr st) (budget st) (fwd st) (worklist st) (spans st) (copies st))
      | None => Crash
      end
    else Failed 2 st.

(** ** Tags and kinds *)

Definition is_port (type : Z) : bool :=
  negb (Z.land type ESHKOL_PORT_ANY_FLAG =? 0) && (Z.land type ESHKOL_VALUE_HEAP_PTR =? ESHKOL_VALUE_HEAP_PTR).

Definition region_headerless_payload_size (type : Z) : Z :=
  let t := Z.land type (255 - 48) in
  if (t =? ESHKOL_VALUE_DUAL_NUMBER) || (t =? ESHKOL_VALUE_COMPLEX) then 16 else 0.

Definition region_linear_resource (type : Z) : bool := (ESHKOL_VALUE_HANDLE <=? type) && (type <=? ESHKOL_VALUE_EVENT).

Definition region_value_carries_pointer (type : Z) : bool :=
  ESHKOL_IS_ANY_PTR_TYPE type || is_port type || negb (region_headerless_payload_size type =? 0) || region_linear_resource type.

(** The kind of a heap subtype, [None] for one that is not declared. *)
Definition heap_kind (sub : Z) : option evac_kind :=
  match sub with
  | 0 => Some EVAC_CONS | 2 => Some EVAC_VECTOR | 7 => Some EVAC_VECTOR | 4 => Some EVAC_MULTIVALUE | 5 => Some EVAC_HASH
  | 3 => Some EVAC_TENSOR | 6 => Some EVAC_EXCEPTION | 12 => Some EVAC_SUBSTITUTION | 13 => Some EVAC_FACT
  | 15 => Some EVAC_KNOWLEDGE_BASE | 16 => Some EVAC_FACTOR_GRAPH | 17 => Some EVAC_WORKSPACE | 18 => Some EVAC_PROMISE
  | 19 => Some EVAC_RATIONAL | 23 => Some EVAC_TAYLOR
  | 1 | 8 | 9 | 10 | 11 | 20 | 21 | 22 | 24 | 25 => Some EVAC_LEAF
  | _ => None
  end.

(** An AD node whose pointer words are all null. *)
Definition ad_node_flat (b : block) : bool :=
  forallb (λ w, match w with Ptr p => p =? 0 | _ => true end) (words b).

Definition evac_kind_for (type : Z) (sub size : Z) (b : block) : EvacM evac_kind :=
  if is_port type then promotion_fail 2
  else if ESHKOL_IS_ANY_CALLABLE_TYPE type then
    if (sub =? 0) || (sub =? 1) then mret EVAC_CLOSURE
    else if sub =? 3 then mret EVAC_PRIMITIVE
    else if sub =? CALLABLE_SUBTYPE_AD_NODE then
      if size <? 160 then promotion_fail 2 else if ad_node_flat b then mret EVAC_LEAF else promotion_fail 2
    else promotion_fail 2
  else match heap_kind sub with Some k => mret k | None => promotion_fail 2 end.

Definition need (size n : Z) : EvacM unit := if size <? n then promotion_fail 2 else mret tt.
Definition num_word (b : block) (i : nat) : EvacM Z := match words b !! i with Some (Num _ n) => mret n | _ => crash end.

Definition SDNC_SIZE : Z := 8 + 8 + 256 * 256 * 4.

(** The size that the fields of an object ask for. *)
Definition evac_validate_object (b : block) (size : Z) (kind : evac_kind) (type sub : Z) : EvacM unit :=
  match kind with
  | EVAC_CONS => need size 32
  | EVAC_VECTOR => need size 8 ;; n ← num_word b 0; (if n <? 0 then promotion_fail 2 else s ← evac_size n 16 8; need size s)
  | EVAC_MULTIVALUE => need size 8 ;; n ← num_word b 0; s ← evac_size n 16 8; need size s
  | EVAC_EXCEPTION => need size 48
  | EVAC_TENSOR =>
      need size 32 ;;
      if negb (size =? 32) && negb (size =? 40) then promotion_fail 2
      else if size =? 40 then dtype ← num_word b 4; (if (4 <? dtype) && negb (dtype =? 64) then promotion_fail 2 else mret tt)
      else mret tt
  | EVAC_HASH => need size 56
  | EVAC_CLOSURE => need size 40
  | EVAC_PRIMITIVE => need size 24
  | EVAC_SUBSTITUTION =>
      need size 8 ;; n ← num_word b 0; cap ← num_word b 1;
      if cap <? n then promotion_fail 2 else s ← evac_size cap 24 8; need size s
  | EVAC_FACT => need size 16 ;; n ← num_word b 1; s ← evac_size n 16 16; need size s
  | EVAC_KNOWLEDGE_BASE => need size 16 ;; n ← num_word b 0; cap ← num_word b 1; if cap <? n then promotion_fail 2 else mret tt
  | EVAC_FACTOR_GRAPH => need size 72 ;; n ← num_word b 1; m ← num_word b 2; if m <? n then promotion_fail 2 else mret tt
  | EVAC_WORKSPACE =>
      need size 24 ;; n ← num_word b 0; m ← num_word b 1;
      if m <? n then promotion_fail 2 else s ← evac_size m 32 24; need size s
  | EVAC_PROMISE => need size 40
  | EVAC_RATIONAL => need size 40
  | EVAC_TAYLOR =>
      need size 8 ;; k ← num_word b 0; flags ← num_word b 1;
      let t := Z.land flags 255 in
      if negb (t =? 1) && negb (t =? 0) then promotion_fail 2
      else s ← evac_size (k + 1) (if t =? 1 then 16 else 8) 8; need size s
  | EVAC_LEAF =>
      if ESHKOL_IS_ANY_CALLABLE_TYPE type then need size 160
      else if (sub =? HEAP_SUBTYPE_STRING) || (sub =? HEAP_SUBTYPE_SYMBOL) then
        (if existsb (λ w, bool_decide (w = Num 1 0)) (words b) then mret tt else promotion_fail 2)
      else if sub =? HEAP_SUBTYPE_BIGNUM then need size 8 ;; n ← num_word b 1; s ← evac_size n 8 8; need size s
      else if sub =? HEAP_SUBTYPE_BYTEVECTOR then
        need size 8 ;; n ← num_word b 0; (if n <? 0 then promotion_fail 2 else s ← evac_size n 1 8; need size s)
      else if sub =? HEAP_SUBTYPE_I128 then need size 16
      else if sub =? HEAP_SUBTYPE_PRNG then need size 8
      else if sub =? HEAP_SUBTYPE_PARAMETER then need size 32
      else if sub =? HEAP_SUBTYPE_DNC then need size 24
      else if sub =? HEAP_SUBTYPE_SDNC then need size SDNC_SIZE
      else promotion_fail 2
  end.

Section evac.
Context (stack : list region) (target boundary_idx : Z).

Definition owning (st : evac_state) (p : Z) : Z := region_index_owning (st_heap st) stack p.

(** [region_index_owning(p) > st.boundary_idx]. *)
Definition inner (p : Z) : EvacM bool := λ st, Done (boundary_idx <? owning st p) st.

(** ** Copying *)

Definition evac_allocate (size : Z) (b : block) : EvacM Z :=
  if UINT64_MAX - 16 <? size then promotion_fail 3
  else λ st,
    match budget st with
    | Some O => Failed 1 st
    | bud =>
        let p := next_addr st in
        Done p (EvacState (<[p := b]> (st_heap st)) (p + size + 16) (option_map pred bud) (fwd st) (worklist st) (p :: spans st) (copies st))
    end.

Definition forward (old : Z) (e : fwd_entry) : EvacM unit := λ st,
  Done tt (EvacState (st_heap st) (next_addr st) (budget st) (<[old := e]> (fwd st)) (worklist st) (spans st) (copies st + 1)).
Definition enqueue (p : Z) (k : evac_kind) : EvacM unit := λ st,
  Done tt (EvacState (st_heap st) (next_addr st) (budget st) (fwd st) ((p, k) :: worklist st) (spans st) (copies st)).
Definition find_fwd (old : Z) : EvacM (option fwd_entry) := λ st, Done (fwd st !! old) st.

(** [n] bytes from the regional address [p] must belong to its object. *)
Definition evac_require_span (p n : Z) : EvacM unit := λ st,
  if p =? 0 then (if n =? 0 then Done tt st else Failed 2 st)
  else if owning st p <? 0 then Done tt st
  else match st_heap st !! p with Some b => if n <=? bytes (words b) then Done tt st else Crash | None => Crash end.

Definition evac_string_size (p : Z) : EvacM Z :=
  b ← block_at p;
  match list_find (λ w, w = Num 1 0) (words b) with Some (i, _) => mret (Z.of_nat i + 1) | None => crash end.

Definition evac_raw (old size : Z) : EvacM Z :=
  if old =? 0 then mret 0
  else
    f ← find_fwd old;
    match f with
    | Some e => if fw_object e || (fw_size e <? size) then promotion_fail 2 else mret (fw_data e)
    | None =>
        evac_require_span old size ;;
        b ← block_at old;
        match prefix size (words b) with
        | Some l =>
            raw ← evac_allocate (if size =? 0 then 1 else size) (Block None target (if size =? 0 then [Num 1 0] else l));
            forward old (EvacForward raw size false) ;; mret raw
        | None => crash
        end
    end.

Definition evac_object (old type : Z) : EvacM Z :=
  f ← find_fwd old;
  match f with
  | Some e => if fw_object e then mret (fw_data e) else promotion_fail 2
  | None =>
      b ← block_at old;
      match header b with
      | Some (sub, size) =>
          total ← evac_size size 1 8;
          if size =? 0 then promotion_fail 2
          else
            k ← evac_kind_for type sub size b;
            evac_validate_object b size k type sub ;;
            new ← evac_allocate total (Block (header b) target (words b));
            forward old (EvacForward new size true) ;;
            (match k with EVAC_LEAF => mret tt | _ => enqueue new k end) ;; mret new
      | None => crash
      end
  end.

Definition evac_value (v : word) : EvacM word :=
  match v with
  | Tag type flags p =>
      if negb (region_value_carries_pointer type) || (p =? 0) then mret v
      else
        dying ← inner p;
        if negb dying then mret v
        else if region_linear_resource type then promotion_fail 2
        else
          let raw_size := region_headerless_payload_size type in
          q ← (if raw_size =? 0 then evac_object p type else evac_raw p raw_size);
          mret (Tag type flags q)
  | _ => crash
  end.

Definition evac_tagged_slot (p : Z) (i : nat) : EvacM unit := v ← load p i; v' ← evac_value v; evac_assign p i v'.

Definition evac_object_ptr (p : Z) : EvacM Z :=
  if p =? 0 then mret p
  else dying ← inner p; if (dying : bool) then evac_object p ESHKOL_VALUE_HEAP_PTR else mret p.

(** ** The walk *)

(** [if (x->f && region_index_owning(x->f) > boundary) assign(x->f, evac_raw(x->f, size))]. *)
Definition raw_field (p : Z) (i : nat) (size : EvacM Z) : EvacM unit :=
  q ← load_ptr p i;
  if q =? 0 then mret tt
  else dying ← inner q; if (dying : bool) then n ← size; q' ← evac_raw q n; evac_assign p i (Ptr q') else mret tt.
Definition string_field (p : Z) (i : nat) : EvacM unit := q ← load_ptr p i; raw_field p i (evac_string_size q).
Definition object_field (p : Z) (i : nat) : EvacM unit := q ← load_ptr p i; q' ← evac_object_ptr q; evac_assign p i (Ptr q').

(** [n] tagged values from the word [i] of [p]. *)
Definition tagged_slots (p : Z) (i n : nat) : EvacM unit := each n i (evac_tagged_slot p).

(** An array of [n] tagged values behind the field [i] of [p]. *)
Definition tagged_array (p : Z) (i : nat) (n : Z) : EvacM unit :=
  q ← load_ptr p i;
  if q =? 0 then mret tt
  else s ← evac_size n 16 0; evac_require_span q s ;; tagged_slots q 0 (Z.to_nat n).

Definition walk_exception (p : Z) : EvacM unit :=
  string_field p 1 ;; string_field p 6 ;;
  n ← load_num p 3; raw_field p 2 (evac_size n 16 0) ;; tagged_array p 2 n.

(** [[dimensions; num_dimensions; elements; total_elements; dtype]], the last in a tensor of 40 bytes. *)
Definition walk_tensor (p : Z) : EvacM unit :=
  b ← block_at p;
  let dual := match header b with Some (_, size) => (40 <=? size) && bool_decide (words b !! 4%nat = Some (Num 8 64)) | None => false end in
  rank ← load_num p 1; total ← load_num p 3;
  raw_field p 0 (evac_size rank 8 0) ;;
  raw_field p 2 (evac_size total (if dual then 16 else 8) 0) ;;
  if dual then tagged_array p 2 total else mret tt.

(** [[capacity; size; tombstones; keys; values; status; home_arena]]. *)
Definition walk_hash (p : Z) : EvacM unit :=
  cap ← load_num p 0;
  raw_field p 3 (evac_size cap 16 0) ;; raw_field p 4 (evac_size cap 16 0) ;; raw_field p 5 (evac_size cap 1 0) ;;
  keys ← load_ptr p 3; values ← load_ptr p 4; status ← load_ptr p 5;
  (if (keys =? 0) || (values =? 0) || (status =? 0) then mret tt
   else
     s ← evac_size cap 16 0; evac_require_span keys s ;; evac_require_span values s ;; evac_require_span status cap ;;
     each (Z.to_nat cap) 0 (λ i,
       occupied ← load_num status i;
       if occupied =? 1 then evac_tagged_slot keys i ;; evac_tagged_slot values i else mret tt)) ;;
  evac_assign p 6 (Home target).

(** A capture: an integer that is the address of a cell in a dying region is the cell. *)
Definition evac_capture (env : Z) (i : nat) : EvacM unit :=
  w ← load env i;
  match w with
  | Tag type flags cell =>
      dying ← inner cell;
      if (type =? ESHKOL_VALUE_INT64) && negb (cell =? 0) && dying then
        nc ← evac_raw cell 16;
        if nc =? cell then mret tt else evac_tagged_slot nc 0 ;; evac_assign env i (Tag type flags nc)
      else evac_tagged_slot env i
  | _ => crash
  end.

Definition CLOSURE_ENV_GET_NUM_CAPTURES (packed : Z) : Z := Z.land packed (2 ^ 32 - 1).

(** [[func_ptr; env; sexpr_ptr; name; ...]], the environment [[num_captures; captures...]]. *)
Definition walk_closure (p : Z) : EvacM unit :=
  sexpr ← load_ptr p 2;
  (if sexpr =? 0 then mret tt else object_field p 2) ;;
  env ← load_ptr p 1;
  (if env =? 0 then mret tt
   else
     evac_require_span env 8 ;;
     packed ← load_num env 0;
     let ncap := CLOSURE_ENV_GET_NUM_CAPTURES packed in
     env_size ← evac_size ncap 16 8; evac_require_span env env_size ;;
     dying ← inner env;
     ne ← (if (dying : bool) then evac_raw env env_size else mret env);
     evac_assign p 1 (Ptr ne) ;;
     each (Z.to_nat ncap) 1 (evac_capture ne)) ;;
  string_field p 3.

(** [[predicate; arity; _; args...]]. *)
Definition walk_fact (p : Z) : EvacM unit :=
  n ← load_num p 1; tagged_slots p 3 (Z.to_nat n) ;; string_field p 0.

(** [[num_facts; capacity; facts]]. *)
Definition walk_knowledge_base (p : Z) : EvacM unit :=
  n ← load_num p 0; cap ← load_num p 1;
  raw_field p 2 (evac_size cap 8 0) ;;
  facts ← load_ptr p 2;
  if facts =? 0 then mret tt
  else s ← evac_size cap 8 0; evac_require_span facts s ;; each (Z.to_nat n) 0 (object_field facts).

(** [[num_modules; max_modules; dim; step_count; content; (name; process_fn; salience)...]]. *)
Definition walk_workspace (p : Z) : EvacM unit :=
  n ← load_num p 0; dim ← load_num p 2;
  raw_field p 4 (evac_size dim 8 0) ;;
  each (Z.to_nat n) 0 (λ i, string_field p (5 + 3 * i) ;; evac_tagged_slot p (6 + 3 * i)).

(** [[numerator; denominator; is_big; reserved; big_num; big_den]]. *)
Definition walk_rational (p : Z) : EvacM unit :=
  big ← load_num p 2;
  if big =? 0 then mret tt
  else
    num ← load_ptr p 4; (if num =? 0 then mret tt else object_field p 4) ;;
    den ← load_ptr p 5; (if den =? 0 then mret tt else object_field p 5).

(** [[order_k; flags; c...]]. *)
Definition walk_taylor (p : Z) : EvacM unit :=
  k ← load_num p 0; flags ← load_num p 1;
  if Z.land flags 255 =? 1 then tagged_slots p 2 (Z.to_nat (k + 1)) else mret tt.

(** The factor [[num_vars; cpt_size; cpt; dims; var_indices...]] behind the slot [i] of [factors]. *)
Definition walk_factor (factors : Z) (i : nat) : EvacM unit :=
  f ← load_ptr factors i;
  if f =? 0 then mret tt
  else
    evac_require_span f 24 ;;
    nv ← load_num f 0;
    dying ← inner f;
    f ← (if (dying : bool) then
            fsz ← evac_size nv 4 24; f' ← evac_raw f fsz; evac_assign factors i (Ptr f') ;; mret f'
          else mret f);
    cpt_size ← load_num f 1;
    raw_field f 2 (evac_size cpt_size 8 0) ;; raw_field f 3 (evac_size nv 4 0).

(** The messages of the variables [vi], [vi + 1], ... of the factor [f], from the edge [k]. *)
Fixpoint walk_edges (arr var_dims f total nvars : Z) (n vi : nat) (k : Z) : EvacM Z :=
  match n with
  | O => mret k
  | S n =>
      if total <=? k then mret k
      else
        var_id ← load_num f (4 + vi);
        if (var_dims =? 0) || (nvars <=? var_id) then promotion_fail 2
        else
          dim ← load_num var_dims (Z.to_nat var_id);
          raw_field arr (Z.to_nat k) (evac_size dim 8 0) ;; walk_edges arr var_dims f total nvars n (S vi) (k + 1)
  end.

Fixpoint walk_factor_edges (arr var_dims factors total nvars : Z) (n fi : nat) (k : Z) : EvacM unit :=
  match n with
  | O => mret tt
  | S n =>
      if total <=? k then mret tt
      else
        f ← (if factors =? 0 then mret 0 else load_ptr factors fi);
        if f =? 0 then walk_factor_edges arr var_dims factors total nvars n (S fi) k
        else
          evac_require_span f 24 ;;
          nv ← load_num f 0;
          fsz ← evac_size nv 4 24; evac_require_span f fsz ;;
          k ← walk_edges arr var_dims f total nvars (Z.to_nat nv) 0 k;
          walk_factor_edges arr var_dims factors total nvars n (S fi) k
  end.

(** The message array behind the field [i]. *)
Definition evac_msg_array (p : Z) (i : nat) (total nvars nfactors : Z) : EvacM unit :=
  arr ← load_ptr p i;
  if arr =? 0 then mret tt
  else
    raw_field p i (evac_size total 8 0) ;;
    arr ← load_ptr p i; s ← evac_size total 8 0; evac_require_span arr s ;;
    var_dims ← load_ptr p 5; factors ← load_ptr p 6;
    walk_factor_edges arr var_dims factors total nvars (Z.to_nat nfactors) 0 0.

(** [[num_vars; num_factors; max_factors; _; beliefs; var_dims; factors; msg_fv; msg_vf; total_messages; _; observed]]. *)
Definition walk_factor_graph (p : Z) : EvacM unit :=
  nvars ← load_num p 0; nfactors ← load_num p 1; maxf ← load_num p 2; total ← load_num p 9;
  raw_field p 5 (evac_size nvars 4 0) ;;
  raw_field p 4 (evac_size nvars 8 0) ;;
  beliefs ← load_ptr p 4; var_dims ← load_ptr p 5;
  (if (beliefs =? 0) || (var_dims =? 0) then mret tt
   else
     s ← evac_size nvars 8 0; evac_require_span beliefs s ;; t ← evac_size nvars 4 0; evac_require_span var_dims t ;;
     each (Z.to_nat nvars) 0 (λ i, dim ← load_num var_dims i; raw_field beliefs i (evac_size dim 8 0))) ;;
  raw_field p 11 (evac_size nvars 1 0) ;;
  raw_field p 6 (evac_size maxf 8 0) ;;
  factors ← load_ptr p 6;
  (if factors =? 0 then mret tt
   else s ← evac_size maxf 8 0; evac_require_span factors s ;; each (Z.to_nat nfactors) 0 (walk_factor factors)) ;;
  evac_msg_array p 7 total nvars nfactors ;;
  evac_msg_array p 8 total nvars nfactors.

Definition walk_object (p : Z) (k : evac_kind) : EvacM unit :=
  match k with
  | EVAC_CONS => evac_tagged_slot p 0 ;; evac_tagged_slot p 1
  | EVAC_VECTOR | EVAC_MULTIVALUE => n ← load_num p 0; tagged_slots p 1 (Z.to_nat n)
  | EVAC_EXCEPTION => walk_exception p
  | EVAC_TENSOR => walk_tensor p
  | EVAC_HASH => walk_hash p
  | EVAC_PRIMITIVE => string_field p 1
  | EVAC_CLOSURE => walk_closure p
  | EVAC_SUBSTITUTION => n ← load_num p 0; cap ← load_num p 1; tagged_slots p (2 + Z.to_nat cap) (Z.to_nat n)
  | EVAC_FACT => walk_fact p
  | EVAC_KNOWLEDGE_BASE => walk_knowledge_base p
  | EVAC_WORKSPACE => walk_workspace p
  | EVAC_PROMISE => evac_tagged_slot p 1 ;; evac_tagged_slot p 2
  | EVAC_RATIONAL => walk_rational p
  | EVAC_TAYLOR => walk_taylor p
  | EVAC_FACTOR_GRAPH => walk_factor_graph p
  | EVAC_LEAF => mret tt
  end.

Definition pop_work : EvacM (option (Z * evac_kind)) := λ st,
  match worklist st with
  | [] => Done None st
  | w :: l => Done (Some w) (EvacState (st_heap st) (next_addr st) (budget st) (fwd st) l (spans st) (copies st))
  end.

Fixpoint evac_walk (fuel : nat) : EvacM unit :=
  w ← pop_work;
  match w with
  | None => mret tt
  | Some (p, k) => match fuel with O => crash | S fuel => walk_object p k ;; evac_walk fuel end
  end.

Fixpoint evac_values (l : list word) : EvacM (list word) :=
  match l with [] => mret [] | v :: l => v' ← evac_value v; l' ← evac_values l; mret (v' :: l') end.
End evac.
