(* ===== verification/EvacSpec.v ===== *)
(** * EvacSpec: a typing of memory, and the invariant of a promotion *)

From S2P Require Export Evac.
Local Open Scope Z_scope.

(** ** A typing of memory

    The type of a block gives the role of each of its words: a tagged value, a
    captured value, a pointer to an object, to a string or to a buffer whose words
    have types of their own.  Numbers that bound an array are part of the type.
    Memory is well typed when every typed word leads to a block of the right type,
    so nothing dangles; the lifetime discipline of regions says that a block never
    points into a region younger than its own. *)

(** ** Types *)

(** [Any] is a word that the program does not follow; [Cell] is an integer that is
    the address of a cell, [Cap] any other captured value. *)
Inductive slot :=
| Any (width : Z)
| Const (width n : Z)
| Val
| Cap
| Cell
| Obj
| Raw (nullable : bool) (l : list slot)
| Txt
| HomeArena.

Inductive ty := TObj (callable : bool) (sub : Z) (l : list slot) | TBuf (l : list slot).
Definition slots (τ : ty) : list slot := match τ with TObj _ _ l | TBuf l => l end.
Abbreviation typing := (gmap Z ty).

Definition slot_width (σ : slot) : Z := match σ with Any k | Const k _ => k | Val | Cap | Cell => 16 | _ => 8 end.
Definition slot_bytes (l : list slot) : Z := foldr (λ σ n, slot_width σ + n) 0 l.
Definition text (s : list Z) : list slot := (Const 1 <$> s) ++ [Const 1 0].
Definition quiet (σ : slot) : Prop := match σ with Any _ | Const _ _ => True | _ => False end.

(** ** Layouts of the objects *)

Definition kind_of (callable : bool) (sub : Z) : option evac_kind :=
  if callable then
    if (sub =? 0) || (sub =? 1) then Some EVAC_CLOSURE
    else if sub =? 3 then Some EVAC_PRIMITIVE
    else if sub =? CALLABLE_SUBTYPE_AD_NODE then Some EVAC_LEAF
    else None
  else heap_kind sub.

Definition vals (n : Z) : list slot := replicate (Z.to_nat n) Val.
Definition anys (n k : Z) : list slot := replicate (Z.to_nat n) (Any k).

(** A hash array: only the slots of occupied entries hold values. *)
Definition entries (status : list Z) : list slot := map (λ s, if s =? 1 then Val else Any 16) status.

Definition env_slots (packed : Z) (caps : list bool) : list slot :=
  Const 8 packed :: map (λ cell : bool, if cell then Cell else Cap) caps.

(** A factor: the variables it connects and the size of its table. *)
Record factor := Factor { f_vars : list Z; f_cpt : Z }.
Definition factor_slots (f : factor) : list slot :=
  [Const 4 (Z.of_nat (length (f_vars f))); Const 4 (f_cpt f); Raw true (anys (f_cpt f) 8);
   Raw true (anys (Z.of_nat (length (f_vars f))) 4)] ++ (Const 4 <$> f_vars f).
Definition dim_of (dims : list Z) (v : Z) : Z := default 0 (dims !! Z.to_nat v).

(** The messages, an array per edge of the graph. *)
Definition edge_vars (fs : list factor) : list Z := concat (map f_vars fs).
Definition message_slots (dims : list Z) (fs : list factor) (total : Z) : list slot :=
  let l := take (Z.to_nat total) (map (λ v, Raw true (anys (dim_of dims v) 8)) (edge_vars fs)) in
  l ++ anys (total - Z.of_nat (length l)) 8.

Definition counts (n : Z) : Prop := 0 <= n.

Inductive layout (sub : Z) : evac_kind → list slot → Prop :=
| lay_cons : layout sub EVAC_CONS [Val; Val]
| lay_vector n rest : Forall quiet rest → layout sub EVAC_VECTOR (Const 8 n :: vals n ++ rest)
| lay_multi n rest : Forall quiet rest → layout sub EVAC_MULTIVALUE (Const 8 n :: vals n ++ rest)
| lay_hash cap (status : list Z) : cap = Z.of_nat (length status) →
    layout sub EVAC_HASH [Const 8 cap; Any 8; Any 8; Raw false (entries status); Raw false (entries status);
                          Raw false (Const 1 <$> status); HomeArena]
| lay_tensor rank total (rest : list slot) : counts rank → counts total → Forall quiet rest →
    (∀ σ, rest !! 0%nat = Some σ → ∃ n, n ≠ 64 ∧ σ = Const 8 n) →
    layout sub EVAC_TENSOR ([Raw true (anys rank 8); Const 8 rank; Raw true (anys total 8); Const 8 total] ++ rest)
| lay_tensor_dual rank total : counts rank → counts total →
    layout sub EVAC_TENSOR [Raw true (anys rank 8); Const 8 rank; Raw true (vals total); Const 8 total; Const 8 64]
| lay_exception k n rest : counts n → Forall quiet rest →
    layout sub EVAC_EXCEPTION ([Any k; Txt; Raw true (vals n); Const 4 n; Any 4; Any 4; Txt] ++ rest)
| lay_closure packed caps rest : length caps = Z.to_nat (CLOSURE_ENV_GET_NUM_CAPTURES packed) → Forall quiet rest →
    layout sub EVAC_CLOSURE ([Any 8; Raw true (env_slots packed caps); Obj; Txt] ++ rest)
| lay_substitution n cap rest : Forall quiet rest →
    layout sub EVAC_SUBSTITUTION ([Const 4 n; Const 4 cap] ++ anys cap 8 ++ vals n ++ rest)
| lay_fact n rest : Forall quiet rest → layout sub EVAC_FACT ([Txt; Const 4 n; Any 4] ++ vals n ++ rest)
| lay_knowledge_base n cap : counts n → n <= cap →
    layout sub EVAC_KNOWLEDGE_BASE [Const 4 n; Const 4 cap; Raw true (replicate (Z.to_nat n) Obj ++ anys (cap - n) 8)]
| lay_workspace n m dim step rest : counts dim → Forall quiet rest →
    layout sub EVAC_WORKSPACE ([Const 4 n; Const 4 m; Const 4 dim; Any step; Raw true (anys dim 8)]
                               ++ concat (replicate (Z.to_nat n) [Txt; Val; Any 8]) ++ rest)
| lay_promise k rest : Forall quiet rest → layout sub EVAC_PROMISE ([Any k; Val; Val] ++ rest)
| lay_primitive k rest : Forall quiet rest → layout sub EVAC_PRIMITIVE ([Any k; Txt] ++ rest)
| lay_rational a b big c rest : Forall quiet rest →
    layout sub EVAC_RATIONAL ([Any a; Any b; Const 4 big; Any c] ++ (if big =? 0 then [Any 8; Any 8] else [Obj; Obj]) ++ rest)
| lay_taylor k flags rest : Forall quiet rest →
    layout sub EVAC_TAYLOR ([Const 4 k; Const 4 flags] ++ (if Z.land flags 255 =? 1 then vals (k + 1) else []) ++ rest)
| lay_factor_graph dims fs nvars nfactors maxf total a b :
    nvars = Z.of_nat (length dims) → nfactors = Z.of_nat (length fs) → nfactors <= maxf → Forall counts dims →
    Forall (λ f, counts (f_cpt f) ∧ Forall counts (f_vars f)) fs → counts total →
    layout sub EVAC_FACTOR_GRAPH
      [Const 4 nvars; Const 4 nfactors; Const 4 maxf; Any a;
       Raw false (map (λ d, Raw true (anys d 8)) dims);
       Raw false (Const 4 <$> dims);
       Raw false (map (λ f, Raw false (factor_slots f)) fs ++ anys (maxf - nfactors) 8);
       Raw true (message_slots dims fs total); Raw true (message_slots dims fs total);
       Const 4 total; Any b; Raw true (anys nvars 1)]
| lay_leaf l : Forall quiet l → (sub = HEAP_SUBTYPE_BIGNUM → ∃ n, l !! 1%nat = Some (Const 4 n)) →
    (sub = HEAP_SUBTYPE_BYTEVECTOR → ∃ n, l !! 0%nat = Some (Const 8 n)) → layout sub EVAC_LEAF l.

Definition object_layout (callable : bool) (sub : Z) (l : list slot) : Prop :=
  ∀ k, kind_of callable sub = Some k → layout sub k l.

(** ** Well-typed memory *)

Definition callable_type (type : Z) : bool := ESHKOL_IS_ANY_CALLABLE_TYPE type.

Section typed.
Context (extern : Z → bool).

(** [extern] is what is not an address of this memory: external resources, code, and
    the integers that closures capture.  A value of tag [t] at [d] is an external resource, a pair of doubles without a
    header, or an object of the tag's family. *)
Definition value_ok (Γ : typing) (t d : Z) : Prop :=
  region_value_carries_pointer t = true → d ≠ 0 → extern d = false →
  region_linear_resource t = false ∧ is_port t = false ∧
  (if region_headerless_payload_size t =? 0 then ∃ sub l, Γ !! d = Some (TObj (callable_type t) sub l)
   else Γ !! d = Some (TBuf [Any 8; Any 8])).

Definition slot_ok (Γ : typing) (σ : slot) (w : word) : Prop :=
  match σ, w with
  | Any k, _ => width w = k ∧ 0 < k
  | Const k n, _ => w = Num k n ∧ 0 < k
  | Val, Tag t f d => value_ok Γ t d
  | Cap, Tag t f d => value_ok Γ t d ∧ (t = ESHKOL_VALUE_INT64 → extern d = true)
  | Cell, Tag t f d => t = ESHKOL_VALUE_INT64 ∧ d ≠ 0 ∧ Γ !! d = Some (TBuf [Val])
  | Obj, Ptr d => d ≠ 0 → extern d = false → ∃ sub l, Γ !! d = Some (TObj false sub l)
  | Raw nullable l, Ptr d => (nullable = true ∧ d = 0) ∨ Γ !! d = Some (TBuf l)
  | Txt, Ptr d => d ≠ 0 → extern d = false → ∃ s, Forall (λ c, c ≠ 0) s ∧ Γ !! d = Some (TBuf (text s))
  | HomeArena, Home _ => True
  | _, _ => False
  end.

Definition head_ok (τ : ty) (h : option (Z * Z)) : Prop :=
  match τ with TObj _ sub l => h = Some (sub, slot_bytes l) | TBuf _ => h = None end.

Definition block_ok (Γ : typing) (τ : ty) (b : block) : Prop :=
  head_ok τ (header b) ∧ Forall (λ w, 0 <= width w) (words b) ∧
  ∀ i σ, slots τ !! i = Some σ → ∃ w, words b !! i = Some w ∧ slot_ok Γ σ w.

(** Every typed address is a block of its type, so no typed word dangles. *)
Definition heap_typed (Γ : typing) (h : heap) : Prop := ∀ p τ, Γ !! p = Some τ → ∃ b, h !! p = Some b ∧ block_ok Γ τ b.

(** ** Lifetimes *)

(** The address that a word leads to in the role [σ]. *)
Definition target_of (σ : slot) (w : word) : option Z :=
  match σ, w with
  | (Val | Cap), Tag t _ d => if region_value_carries_pointer t then Some d else None
  | Cell, Tag _ _ d => Some d
  | (Obj | Txt | Raw _ _), Ptr d => Some d
  | _, _ => None
  end.

Definition dying (stack : list region) (bnd : Z) (h : heap) (p : Z) : bool := bnd <? region_index_owning h stack p.

(** An arena at or below the region [bnd]: of a region on the stack, or one of the
    arenas that no region owns. *)
Definition arena_alive (root : Z → bool) (stack : list region) (bnd a : Z) : Prop :=
  arena_index stack 0 a <= bnd ∧ (0 <= arena_index stack 0 a ∨ root a = true).

(** A word that does not lead into a region above [bnd], nor to an arena that ends before it. *)
Definition clean (root : Z → bool) (stack : list region) (bnd : Z) (h : heap) (σ : slot) (w : word) : Prop :=
  (∀ d, target_of σ w = Some d → dying stack bnd h d = false) ∧
  (∀ a, σ = HomeArena → w = Home a → arena_alive root stack bnd a).
End typed.

(** * the invariant of a promotion, and its primitive steps

    [J Γ X st] holds between any two steps: memory is typed by [Γ], the old blocks
    are unchanged, the new ones are copies of old ones word by word up to
    forwarding, and every block that outlives the region is clean, except those in
    [X] and on the worklist, which are still to be walked.  [ok Γ st m Q] says that
    [m] does not crash, that a failure leaves the old blocks alone, and that a
    result satisfies [Q] for a larger typing. *)

(** ** Words and types *)

Definition typed_words (e : Z → bool) (Γ : typing) (l : list slot) (ws : list word) : Prop :=
  ∀ i σ, l !! i = Some σ → ∃ w, ws !! i = Some w ∧ slot_ok e Γ σ w.

Lemma slot_ok_width e Γ σ w : slot_ok e Γ σ w → width w = slot_width σ ∧ 0 < slot_width σ.
Proof. destruct σ, w; simpl; intros H; destruct_and?; simplify_eq/=; try done; lia. Qed.

Lemma typed_words_cons e Γ σ l w ws : typed_words e Γ (σ :: l) (w :: ws) → slot_ok e Γ σ w ∧ typed_words e Γ l ws.
Proof.
  intros H. split; [|intros i τ Hi; exact (H (S i) τ Hi)].
  destruct (H 0%nat σ eq_refl) as (w' & E & Hw). by simplify_eq/=.
Qed.

Lemma slot_bytes_nonneg e Γ l ws : typed_words e Γ l ws → 0 <= slot_bytes l.
Proof.
  revert ws. induction l as [|σ l IH]; intros ws H; simpl; [lia|].
  destruct ws as [|w ws]; [by destruct (H 0%nat σ eq_refl) as (? & ? & _)|].
  apply typed_words_cons in H as [Hw H]. apply slot_ok_width in Hw. apply IH in H. lia.
Qed.

(** The typed words of a block are a prefix of it, of the size that its type says. *)
Lemma prefix_typed e Γ l ws : typed_words e Γ l ws → prefix (slot_bytes l) ws = Some (take (length l) ws).
Proof.
  revert ws. induction l as [|σ l IH]; intros ws H; [by destruct ws|].
  destruct ws as [|w ws]; [by destruct (H 0%nat σ eq_refl) as (? & ? & _)|].
  apply typed_words_cons in H as [Hw H]. apply slot_ok_width in Hw as [Ew Hw]. pose proof (slot_bytes_nonneg _ _ _ _ H) as Hn.
  simpl. destruct (Z.eqb_spec (slot_width σ + slot_bytes l) 0); [lia|].
  rewrite Ew, (proj2 (Z.leb_le _ _)) by lia. replace (slot_width σ + slot_bytes l - slot_width σ) with (slot_bytes l) by lia.
  by rewrite IH.
Qed.

Lemma bytes_typed e Γ l ws : typed_words e Γ l ws → slot_bytes l <= bytes (take (length l) ws).
Proof.
  revert ws. induction l as [|σ l IH]; intros ws H; simpl; [done|].
  destruct ws as [|w ws]; [by destruct (H 0%nat σ eq_refl) as (? & ? & _)|].
  apply typed_words_cons in H as [Hw H]. apply slot_ok_width in Hw as [Ew Hw]. apply IH in H. simpl. lia.
Qed.

Lemma bytes_take n ws : Forall (λ w, 0 <= width w) ws → bytes (take n ws) <= bytes ws.
Proof.
  intros H. revert n. induction H as [|w ws Hw H IH]; intros [|n]; simpl; try lia.
  - specialize (IH 0%nat). rewrite take_0 in IH. simpl in IH. lia.
  - specialize (IH n). lia.
Qed.

Lemma slot_ok_mono e Γ Γ' σ w : Γ ⊆ Γ' → slot_ok e Γ σ w → slot_ok e Γ' σ w.
Proof.
  intros Hs. assert (Hl : ∀ p τ, Γ !! p = Some τ → Γ' !! p = Some τ) by (intros; by eapply lookup_weaken).
  assert (Hv : ∀ t d, value_ok e Γ t d → value_ok e Γ' t d).
  { intros t d H Hc Hd He. destruct (H Hc Hd He) as (? & ? & Hk). repeat split; [done..|].
    destruct (_ =? 0); [destruct Hk as (? & ? & ?)|]; eauto. }
  destruct σ, w; simpl; intros H; naive_solver.
Qed.

(** ** The invariant *)

Section spec.
Context {stack : list region} {target bnd : Z} {extern root : Z → bool}.
Context {h0 : heap} {n0 : Z} {prev : fwd_map_t} {Γ0 : typing}.

Abbreviation dead := (dying stack bnd h0).
Abbreviation cleanw := (clean root stack bnd h0).

Class setting : Prop := {
  target_alive : arena_alive root stack bnd target;
  bnd_low : -1 <= bnd;
  null_free : h0 !! 0 = None;
  next_pos : 0 < n0;
  below_next p b : h0 !! p = Some b → p < n0;
  extern_below d : extern d = true → h0 !! d = None ∧ d < n0;
  prev_alive old e : prev !! old = Some e → dead old = true ∧ dead (fw_data e) = false ∧ is_Some (h0 !! fw_data e)
}.
Context `{Hset : setting}.

(** A word of a copy is the original's, or the address in it has been forwarded. *)
Definition wstep (f : fwd_map_t) (w w' : word) : Prop :=
  w' = w ∨
  match w, w' with
  | Tag t g d, Tag t' g' d' => t' = t ∧ g' = g ∧ dead d = true ∧ dead d' = false ∧ ∃ e, f !! d = Some e ∧ fw_data e = d'
  | Ptr d, Ptr d' => dead d = true ∧ dead d' = false ∧ ∃ e, f !! d = Some e ∧ fw_data e = d'
  | Home _, Home a => a = target
  | _, _ => False
  end.

(** [e] describes the copy of the old block [old]. *)
Definition copy_of (st : evac_state) (old : Z) (e : fwd_entry) : Prop :=
  fw_data e ∈ spans st ∧
  ∃ b0 b, h0 !! old = Some b0 ∧ st_heap st !! fw_data e = Some b ∧
    if fw_object e then header b = header b0 ∧ Forall2 (wstep (fwd st)) (words b0) (words b)
    else header b = None ∧ ∃ ws, prefix (fw_size e) (words b0) = Some ws ∧
      (fw_size e ≠ 0 → Forall2 (wstep (fwd st)) ws (words b)).

(** The copy has the type of the original; that of an object may have changed since
    an earlier promotion copied it. *)
Definition fwd_typed (Γ : typing) (old : Z) (e : fwd_entry) : Prop :=
  match Γ !! old with
  | Some (TObj c sub _) => fw_object e = true ∧ ∃ l, Γ !! fw_data e = Some (TObj c sub l)
  | Some (TBuf l) => fw_object e = false ∧ fw_size e = slot_bytes l ∧ Γ !! fw_data e = Some (TBuf l)
  | None => True
  end.

(** The old blocks survive; the rest of memory is the blocks of this promotion. *)
Record base (st : evac_state) : Prop := {
  b_old p b : h0 !! p = Some b → st_heap st !! p = Some b;
  b_span p : p ∈ spans st → h0 !! p = None ∧ ∃ b, st_heap st !! p = Some b ∧ arena_of b = target;
  b_new p b : st_heap st !! p = Some b → p < next_addr st ∧ (p ∈ spans st ∨ h0 !! p = Some b);
  b_next : n0 <= next_addr st;
  b_span_next p : p ∈ spans st → n0 <= p
}.

Record J (Γ : typing) (X : list Z) (st : evac_state) : Prop := {
  j_base : base st;
  j_typed : heap_typed extern Γ (st_heap st);
  j_old_types p : p ∉ spans st → Γ !! p = Γ0 !! p;
  j_layout p c sub l : Γ !! p = Some (TObj c sub l) → dead p = true ∨ p ∈ spans st → prev !! p = None → object_layout c sub l;
  j_prev : prev ⊆ fwd st;
  j_fwd old e : fwd st !! old = Some e → dead old = true ∧ dead (fw_data e) = false ∧ fwd_typed Γ old e;
  j_copy old e : fwd st !! old = Some e → prev !! old = None → copy_of st old e;
  j_inj old e old' e' : fwd st !! old = Some e → fwd st !! old' = Some e' → fw_data e = fw_data e' →
    prev !! old = None → old' = old;
  j_clean p τ b i σ w : Γ !! p = Some τ → st_heap st !! p = Some b → dead p = false → p ∉ X → p ∉ (worklist st).*1 →
    slots τ !! i = Some σ → words b !! i = Some w → cleanw σ w;
  j_work p k : (p, k) ∈ worklist st → ∃ c sub l, Γ !! p = Some (TObj c sub l) ∧ layout sub k l
}.

(** Dying blocks still to forward, and copies still to walk. *)
Definition dying_blocks : gset Z := filter (λ p, dead p = true) (dom h0).
Definition measure (st : evac_state) : nat := length (worklist st) + size (dying_blocks ∖ dom (fwd st)).

Record ext (st st' : evac_state) : Prop := {
  e_heap p b : st_heap st !! p = Some b →
    ∃ b', st_heap st' !! p = Some b' ∧ header b' = header b ∧ arena_of b' = arena_of b ∧
          Forall2 (wstep (fwd st')) (words b) (words b');
  e_fwd : fwd st ⊆ fwd st';
  e_measure : (measure st' <= measure st)%nat
}.

(** A result of [m] in [st]. *)
Definition ok {A} (Γ : typing) (st : evac_state) (m : EvacM A) (Q : A → typing → evac_state → Prop) : Prop :=
  match m st with
  | Done a st' => ∃ Γ', Γ ⊆ Γ' ∧ ext st st' ∧ Q a Γ' st'
  | Failed s st' => s ≠ 0 ∧ base st'
  | Crash => False
  end.

(** ** Rules *)

Lemma wstep_refl f w : wstep f w w.
Proof. by left. Qed.

Lemma wstep_mono f f' w w' : f ⊆ f' → wstep f w w' → wstep f' w w'.
Proof.
  intros Hs [->|H]; [by left|]. right. destruct w, w'; try done.
  - destruct H as (?&?&?&?&e&?&?). repeat split; try done. exists e. split; [by eapply lookup_weaken|done].
  - destruct H as (?&?&e&?&?). repeat split; try done. exists e. split; [by eapply lookup_weaken|done].
Qed.

Lemma wstep_trans f f' w w' w'' : f ⊆ f' → wstep f w w' → wstep f' w' w'' → wstep f' w w''.
Proof.
  intros Hs H1 [->|H2]; [by eapply wstep_mono|]. destruct H1 as [->|H1]; [by right|].
  right. destruct w, w', w''; naive_solver congruence.
Qed.

Lemma wsteps_trans f f' l l' l'' : f ⊆ f' → Forall2 (wstep f) l l' → Forall2 (wstep f') l' l'' → Forall2 (wstep f') l l''.
Proof.
  intros Hs. apply list.Forall2_trans. intros ???. by apply wstep_trans.
Qed.

Lemma ext_refl st : ext st st.
Proof. split; [|done|done]. intros p b E. exists b. repeat split; try done. apply Forall_Forall2_diag, Forall_true. intros; by left. Qed.

Lemma ext_trans st st' st'' : ext st st' → ext st' st'' → ext st st''.
Proof.
  intros [H1 F1 M1] [H2 F2 M2]. split; [|by etrans|lia].
  intros p b E. destruct (H1 p b E) as (b' & E' & Hh' & Ha' & W). destruct (H2 p b' E') as (b'' & E'' & Hh & Ha & W').
  exists b''. split; [done|]. split; [congruence|]. split; [congruence|by eapply wsteps_trans].
Qed.

Lemma ok_ret {A} (a : A) Γ st Q : Q a Γ st → ok Γ st (mret a) Q.
Proof. intros H. exists Γ. split; [done|]. split; [apply ext_refl|done]. Qed.

Lemma ok_fail {A} s Γ X st (Q : A → _) : J Γ X st → s ≠ 0 → ok Γ st (promotion_fail s) Q.
Proof. intros HJ Hs. split; [done|apply HJ]. Qed.

(** A step, then the rest from any state that it may lead to. *)
Lemma ok_seq {A B} (m : EvacM A) (f : A → EvacM B) Γ st Q R :
  ok Γ st m Q → (∀ a Γ' st', Γ ⊆ Γ' → ext st st' → Q a Γ' st' → ok Γ' st' (f a) R) → ok Γ st (m ≫= f) R.
Proof.
  unfold ok, mbind, evac_bind. intros Hm Hf. destruct (m st) as [a st'| |]; [|done..].
  destruct Hm as (Γ' & HΓ & He & HQ). specialize (Hf a Γ' st' HΓ He HQ). destruct (f a st') as [b st''| |]; [|done..].
  destruct Hf as (Γ'' & HΓ' & He' & HR). exists Γ''. split; [by etrans|]. split; [by eapply ext_trans|done].
Qed.

Lemma ok_mono {A} (m : EvacM A) Γ st Q R :
  ok Γ st m Q → (∀ a Γ' st', Γ ⊆ Γ' → ext st st' → Q a Γ' st' → R a Γ' st') → ok Γ st m R.
Proof.
  unfold ok. intros Hm H. destruct (m st); [|done..]. destruct Hm as (Γ' & HΓ & He & HQ). exists Γ'. eauto.
Qed.

Lemma ok_run {A B} (m : EvacM A) (f : A → EvacM B) a Γ st R :
  m st = Done a st → ok Γ st (f a) R → ok Γ st (m ≫= f) R.
Proof. intros E H. unfold ok, mbind, evac_bind. by rewrite E. Qed.

Lemma ok_run_fail {A B} (m : EvacM A) (f : A → EvacM B) s Γ X st R : J Γ X st → m st = Failed s st → s ≠ 0 → ok Γ st (m ≫= f) R.
Proof. intros HJ E Hs. unfold ok, mbind, evac_bind. rewrite E. split; [done|apply HJ]. Qed.

(** ** Facts that last *)

Definition at_word (st : evac_state) (p : Z) (i : nat) (w : word) : Prop := ∃ b, st_heap st !! p = Some b ∧ words b !! i = Some w.
Definition slot_clean (st : evac_state) (p : Z) (i : nat) (σ : slot) : Prop := ∃ w, at_word st p i w ∧ cleanw σ w.
(** [q] is where the old block [old] has gone. *)
Definition moved (st : evac_state) (old q : Z) : Prop := ∃ e, fwd st !! old = Some e ∧ fw_data e = q.

Lemma at_word_ext st st' p i w : ext st st' → at_word st p i w → ∃ w', at_word st' p i w' ∧ wstep (fwd st') w w'.
Proof.
  intros [H _ _] (b & E & Hw). destruct (H p b E) as (b' & E' & _ & _ & W).
  destruct (Forall2_lookup_l _ _ _ _ _ W Hw) as (w' & Hw' & Hs). exists w'. split; [by exists b'|done].
Qed.

Lemma at_ptr_ext st st' p i q : ext st st' → at_word st p i (Ptr q) → dead q = false → at_word st' p i (Ptr q).
Proof.
  intros He Hw Hd. destruct (at_word_ext _ _ _ _ _ He Hw) as (w' & Hw' & [->|Hs]); [done|].
  destruct w'; try done. destruct Hs. congruence.
Qed.

Lemma wstep_clean f σ w w' : cleanw σ w → wstep f w w' → cleanw σ w'.
Proof.
  intros [Hc Ha] [->|H]; [done|]. destruct w as [t g d|d|a|k n], w' as [t' g' d'|d'|a'|k' n']; try done.
  - destruct H as (-> & -> & Hd & Hd' & _). split; [|done]. intros x Hx. simpl in Hx.
    destruct σ; try done; simpl in *; try (destruct (region_value_carries_pointer t)); simplify_eq; done.
  - destruct H as (Hd & Hd' & _). split; [|done]. intros x Hx. destruct σ; simpl in *; simplify_eq; done.
  - simpl in H. subst. split; [intros x Hx; by destruct σ|]. intros a' -> [= <-]. apply target_alive.
Qed.

Lemma slot_clean_ext st st' p i σ : ext st st' → slot_clean st p i σ → slot_clean st' p i σ.
Proof.
  intros He (w & Hw & Hc). destruct (at_word_ext _ _ _ _ _ He Hw) as (w' & Hw' & Hs).
  exists w'. split; [done|by eapply wstep_clean].
Qed.

Lemma quiet_clean σ w : quiet σ → cleanw σ w.
Proof. intros Hq. split; [intros d Hd|intros a Ha Hw]; by destruct σ. Qed.

Lemma typed_at Γ X st p τ i σ : J Γ X st → Γ !! p = Some τ → slots τ !! i = Some σ →
  ∃ w, at_word st p i w ∧ slot_ok extern Γ σ w.
Proof.
  intros HJ HΓ Hσ. destruct (j_typed _ _ _ HJ p τ HΓ) as (b & E & _ & _ & Hb). destruct (Hb i σ Hσ) as (w & Hw & Hok).
  exists w. split; [by exists b|done].
Qed.

Lemma typed_alloc Γ X st p τ : J Γ X st → Γ !! p = Some τ → is_Some (st_heap st !! p).
Proof. intros HJ HΓ. destruct (j_typed _ _ _ HJ p τ HΓ) as (b & E & _). by exists b. Qed.

Lemma base_owning st p : base st → (bnd <? owning stack st p) = dead p.
Proof.
  intros Hb. unfold owning, dying, region_index_owning. pose proof bnd_low. destruct (st_heap st !! p) as [b|] eqn:E.
  - destruct (b_new _ Hb p b E) as [_ [Hs|Hs]]; [|by rewrite Hs].
    destruct (b_span _ Hb p Hs) as (-> & b' & E' & Ha). simplify_eq. destruct target_alive. rewrite Ha.
    rewrite !(proj2 (Z.ltb_ge _ _)); lia.
  - destruct (h0 !! p) as [b|] eqn:E0; [|done]. rewrite (b_old _ Hb p b E0) in E. done.
Qed.

Lemma dead_old p : dead p = true → is_Some (h0 !! p).
Proof.
  unfold dying, region_index_owning. destruct (h0 !! p); [done|]. intros Hd%Z.ltb_lt. pose proof bnd_low. lia.
Qed.

Lemma dead_null : dead 0 = false.
Proof. destruct (dead 0) eqn:E; [|done]. apply dead_old in E as [b E]. by rewrite null_free in E. Qed.

Lemma dead_extern d : extern d = true → dead d = false.
Proof. intros He. destruct (dead d) eqn:E; [|done]. apply dead_old in E as [b E]. by rewrite (proj1 (extern_below d He)) in E. Qed.

Lemma fresh_facts st : base st → st_heap st !! next_addr st = None ∧ h0 !! next_addr st = None ∧
  dead (next_addr st) = false ∧ next_addr st ∉ spans st.
Proof.
  intros Hb. assert (E : st_heap st !! next_addr st = None).
  { destruct (_ !! _) as [b|] eqn:E; [|done]. apply (b_new _ Hb) in E as [E _]. lia. }
  assert (E0 : h0 !! next_addr st = None).
  { destruct (h0 !! _) as [b|] eqn:E0; [|done]. apply (b_old _ Hb) in E0. congruence. }
  repeat split; try done.
  - destruct (dead _) eqn:D; [|done]. apply dead_old in D as [b D]. congruence.
  - intros Hs. destruct (b_span _ Hb _ Hs) as (_ & b & ? & _). congruence.
Qed.

(** ** Blocks that are still to be walked *)

Definition block_clean (Γ : typing) (st : evac_state) (p : Z) : Prop :=
  ∀ τ i σ, Γ !! p = Some τ → slots τ !! i = Some σ → slot_clean st p i σ.

Lemma J_weaken Γ X st q : J Γ X st → J Γ (q :: X) st.
Proof. intros []. split; try done. intros. by eapply j_clean0; set_solver. Qed.

Lemma J_drop Γ X st q : J Γ (q :: X) st → block_clean Γ st q → J Γ X st.
Proof.
  intros HJ Hq. destruct HJ. split; try done. intros p τ b i σ w HΓ E Hd HX HW Hσ Hw.
  destruct (decide (p = q)) as [->|]; [|eapply j_clean0; set_solver].
  destruct (Hq τ i σ HΓ Hσ) as (w' & (b' & E' & Hw') & Hc). by simplify_eq.
Qed.

Lemma quiet_block Γ X st q τ : J Γ X st → Γ !! q = Some τ → Forall quiet (slots τ) → block_clean Γ st q.
Proof.
  intros HJ HΓ Hq τ' i σ HΓ' Hσ. simplify_eq. destruct (typed_at _ _ _ _ _ _ _ HJ HΓ Hσ) as (w & Hw & _).
  exists w. split; [done|]. apply quiet_clean. by eapply Forall_lookup_1 in Hq.
Qed.

(** ** Writing a word *)

Definition put (st : evac_state) (p : Z) (b : block) (i : nat) (w : word) : evac_state :=
  EvacState (<[p := set_word b i w]> (st_heap st)) (next_addr st) (budget st) (fwd st) (worklist st) (spans st) (copies st).

Lemma put_base st p b i w : base st → p ∈ spans st → st_heap st !! p = Some b → base (put st p b i w).
Proof.
  intros Hb Hp E. destruct Hb as [Ho Hs Hn Hx Hsx]. split; simpl; try done.
  - intros q c E0. rewrite lookup_insert_ne; [by apply Ho|]. intros ->. destruct (Hs _ Hp). congruence.
  - intros q Hq. split; [by apply Hs|]. destruct (Hs q Hq) as (_ & c & Ec & Hc).
    destruct (decide (q = p)) as [->|]; [|exists c; by rewrite lookup_insert_ne].
    exists (set_word b i w). rewrite lookup_insert_eq. simplify_eq. done.
  - intros q c. destruct (decide (q = p)) as [->|]; [|rewrite lookup_insert_ne by done; apply Hn].
    intros _. split; [by apply (Hn p b)|by left].
Qed.

Lemma put_ext st p b i w w' : st_heap st !! p = Some b → words b !! i = Some w → wstep (fwd st) w w' → ext st (put st p b i w').
Proof.
  intros E Hw Hs. split; [|done|done]. intros q c Ec. simpl. destruct (decide (q = p)) as [->|].
  - simplify_eq. exists (set_word b i w'). rewrite lookup_insert_eq. repeat split. simpl.
    rewrite <- (list_insert_id (words b) i w) at 1 by done.
    apply Forall2_insert; [|done]. apply Forall_Forall2_diag, Forall_true. intros; by left.
  - exists c. rewrite lookup_insert_ne by done. repeat split; try done. apply Forall_Forall2_diag, Forall_true. intros; by left.
Qed.

Lemma put_copy st p b i w w' old e : st_heap st !! p = Some b → words b !! i = Some w → wstep (fwd st) w w' →
  copy_of st old e → copy_of (put st p b i w') old e.
Proof.
  intros E Hw Hs (Hsp & b0 & c & E0 & Ec & Hc). split; [done|]. exists b0. simpl.
  destruct (decide (fw_data e = p)) as [<-|]; [|exists c; by rewrite lookup_insert_ne by done].
  simplify_eq. exists (set_word b i w'). rewrite lookup_insert_eq. split; [done|]. split; [done|].
  assert (Hstep : ∀ ws, Forall2 (wstep (fwd st)) ws (words b) → Forall2 (wstep (fwd st)) ws (<[i := w']> (words b))).
  { intros ws HF. destruct (Forall2_lookup_r _ _ _ _ _ HF Hw) as (w0 & H0 & Hw0).
    rewrite <- (list_insert_id ws i w0) by done. apply Forall2_insert; [done|]. by eapply wstep_trans. }
  destruct (fw_object e); [naive_solver|]. destruct Hc as (Hh & ws & Hp & Hf). split; [done|]. exists ws. split; [done|]. intros Hn.
  apply Hstep, Hf, Hn.
Qed.

Lemma put_J Γ X st p τ b i σ w w' :
  J Γ X st → p ∈ spans st → Γ !! p = Some τ → slots τ !! i = Some σ → st_heap st !! p = Some b → words b !! i = Some w →
  wstep (fwd st) w w' → slot_ok extern Γ σ w' → cleanw σ w' → J Γ X (put st p b i w').
Proof.
  intros HJ Hp HΓ Hσ E Hw Hs Hok Hc. pose proof (put_base st p b i w' (j_base _ _ _ HJ) Hp E) as Hb.
  destruct HJ as [_ Ht Hg Hl Hpr Hf Hco Hi Hcl Hwk]. split; try done.
  - intros q τq Hq. simpl. destruct (decide (q = p)) as [->|].
    + simplify_eq. exists (set_word b i w'). rewrite lookup_insert_eq. split; [done|].
      destruct (Ht p τ HΓ) as (b' & E' & Hh & Hwid & Hsl). simplify_eq. split; [done|]. split.
      * simpl. apply Forall_insert; [done|]. apply slot_ok_width in Hok. lia.
      * intros j σj Hj. simpl. destruct (decide (j = i)) as [->|].
        -- rewrite list_lookup_insert_eq by (by eapply lookup_lt_Some). simplify_eq. eauto.
        -- rewrite list_lookup_insert_ne by done. by apply Hsl.
    + rewrite lookup_insert_ne by done. by apply Ht.
  - intros old e He Hn. eapply put_copy; eauto.
  - intros q τq c j σj wj Hq Ec Hd HX HW Hj Hcj. simpl in *.
    destruct (decide (q = p)) as [->|]; [|rewrite lookup_insert_ne in Ec by done; eauto].
    rewrite lookup_insert_eq in Ec. simplify_eq. simpl in Hcj. destruct (decide (j = i)) as [->|].
    + rewrite list_lookup_insert_eq in Hcj by (by eapply lookup_lt_Some). by simplify_eq.
    + rewrite list_lookup_insert_ne in Hcj by done. eauto.
Qed.

Lemma assign_ok Γ X st p τ i σ w w' :
  J Γ X st → Γ !! p = Some τ → slots τ !! i = Some σ → at_word st p i w →
  wstep (fwd st) w w' → slot_ok extern Γ σ w' → cleanw σ w' →
  ok Γ st (evac_assign p i w') (λ _ Γ' st', J Γ' X st' ∧ at_word st' p i w').
Proof.
  intros HJ HΓ Hσ (b & E & Hw) Hs Hok Hc. unfold evac_assign.
  assert (El : load p i st = Done w st).
  { unfold load, block_at, mbind, evac_bind. by rewrite E, Hw. }
  eapply ok_run; [exact El|]. simpl. destruct (decide (w = w')) as [->|Hne].
  { apply ok_ret. split; [done|]. by exists b. }
  unfold ok. destruct (decide (p ∈ spans st)) as [Hp|Hp]; [|split; [done|apply HJ]]. rewrite E.
  exists Γ. split; [done|]. change (EvacState (<[p := set_word b i w']> (st_heap st)) (next_addr st) (budget st) (fwd st)
    (worklist st) (spans st) (copies st)) with (put st p b i w'). split; [by eapply put_ext|].
  split; [by eapply put_J|]. exists (set_word b i w'). simpl. rewrite lookup_insert_eq. split; [done|].
  apply list_lookup_insert_eq. by eapply lookup_lt_Some.
Qed.

(** ** Copying a block *)

Definition grow (st : evac_state) (old : Z) (b : block) (sz : Z) (e : fwd_entry) (wl : list (Z * evac_kind)) : evac_state :=
  EvacState (<[next_addr st := b]> (st_heap st)) (next_addr st + sz + 16) (option_map pred (budget st))
    (<[old := e]> (fwd st)) wl (next_addr st :: spans st) (copies st + 1).

Lemma grow_base st old b sz e wl : base st → arena_of b = target → 0 <= sz → base (grow st old b sz e wl).
Proof.
  intros Hb Ha Hz. destruct (fresh_facts st Hb) as (Hf & Hf0 & _ & _). destruct Hb as [Ho Hs Hn Hx Hsx]. split; simpl.
  - intros q c E0. rewrite lookup_insert_ne; [by apply Ho|]. congruence.
  - intros q [->|Hq]%elem_of_cons; [split; [done|]; exists b; by rewrite lookup_insert_eq|].
    destruct (Hs q Hq) as (? & c & Ec & Hc). split; [done|]. exists c. rewrite lookup_insert_ne; [done|]. congruence.
  - intros q c. destruct (decide (q = next_addr st)) as [->|]; [intros _; split; [lia|left; left]|].
    rewrite lookup_insert_ne by done. intros Ec. destruct (Hn q c Ec) as [? [?|?]]; (split; [lia|]); [left; by right|by right].
  - lia.
  - intros q [->|Hq]%elem_of_cons; [done|by apply Hsx].
Qed.

Lemma grow_ext st old b sz e wl : base st → fwd st !! old = None → dead old = true →
  (length wl <= S (length (worklist st)))%nat → ext st (grow st old b sz e wl).
Proof.
  intros Hb Hn Hd Hwl. destruct (fresh_facts st Hb) as (Hf & _). split.
  - intros q c Ec. exists c. simpl. rewrite lookup_insert_ne by congruence. repeat split; try done.
    apply Forall_Forall2_diag, Forall_true. intros; by left.
  - simpl. by apply insert_subseteq.
  - unfold measure, grow; simpl. rewrite dom_insert_L.
    assert (Hin : old ∈ dying_blocks ∖ dom (fwd st)).
    { apply elem_of_difference. split; [|by apply not_elem_of_dom]. apply elem_of_filter. split; [done|].
      apply elem_of_dom. by apply dead_old. }
    replace (dying_blocks ∖ ({[old]} ∪ dom (fwd st))) with ((dying_blocks ∖ dom (fwd st)) ∖ {[old]}) by set_solver.
    rewrite size_difference by set_solver. rewrite size_singleton.
    assert (size (dying_blocks ∖ dom (fwd st)) ≠ 0%nat) by (intros H0%size_empty_inv; set_solver). lia.
Qed.

Lemma copy_mono st st' old e : base st → ext st st' → spans st ⊆ spans st' → copy_of st old e → copy_of st' old e.
Proof.
  intros Hb He Hs (Hsp & b0 & b & E0 & E & Hc). split; [by apply Hs|]. destruct (e_heap _ _ He _ _ E) as (b' & E' & Hh & _ & W).
  exists b0, b'. split; [done|]. split; [done|]. pose proof (e_fwd _ _ He) as Hf.
  destruct (fw_object e).
  - destruct Hc as [Hk Hc]. split; [congruence|]. by eapply wsteps_trans.
  - destruct Hc as (Hn & ws & Hp & Hw). split; [congruence|]. exists ws. split; [done|]. intros Hz. eapply wsteps_trans; eauto.
Qed.

(** What makes a new block the copy of [old], walked already or on the worklist. *)
Record copying (Γ : typing) (st : evac_state) (old : Z) (τ : ty) (b0 b : block) (e : fwd_entry) : Prop := {
  cp_dead : dead old = true;
  cp_new : fwd st !! old = None;
  cp_old : h0 !! old = Some b0;
  cp_type : Γ !! old = Some τ;
  cp_data : fw_data e = next_addr st;
  cp_arena : arena_of b = target;
  cp_block : block_ok extern Γ τ b;
  cp_kind : match τ with TObj _ _ _ => fw_object e = true ∧ header b = header b0 ∧ words b = words b0
            | TBuf l => fw_object e = false ∧ fw_size e = slot_bytes l ∧ header b = None ∧
                ∃ ws, prefix (fw_size e) (words b0) = Some ws ∧ (fw_size e ≠ 0 → words b = ws) end
}.

Lemma typed_insert Γ h p τ b : Γ !! p = None → h !! p = None → heap_typed extern Γ h → block_ok extern Γ τ b →
  heap_typed extern (<[p := τ]> Γ) (<[p := b]> h).
Proof.
  intros HΓ Hp Ht Hb.
  assert (Hmono : ∀ τ' b', block_ok extern Γ τ' b' → block_ok extern (<[p := τ]> Γ) τ' b').
  { intros τ' b' (Hh & Hw & Hs). split; [done|]. split; [done|]. intros i σ Hi. destruct (Hs i σ Hi) as (w & ? & ?).
    exists w. split; [done|]. eapply slot_ok_mono; [|done]. by apply insert_subseteq. }
  intros q τ' Hq. destruct (decide (q = p)) as [->|].
  - rewrite lookup_insert_eq in Hq. simplify_eq. exists b. rewrite lookup_insert_eq. eauto.
  - rewrite lookup_insert_ne in Hq by done. destruct (Ht q τ' Hq) as (b' & E & Hb'). exists b'.
    rewrite lookup_insert_ne by done. eauto.
Qed.

Lemma fwd_alloc Γ X st old e : J Γ X st → fwd st !! old = Some e → is_Some (st_heap st !! fw_data e).
Proof.
  intros HJ He. destruct (prev !! old) as [e'|] eqn:Hp.
  - pose proof (lookup_weaken _ _ _ _ Hp (j_prev _ _ _ HJ)). simplify_eq. destruct (prev_alive _ _ Hp) as (_ & _ & b & Hb).
    exists b. by apply (b_old _ (j_base _ _ _ HJ)).
  - destruct (j_copy _ _ _ HJ old e He Hp) as (_ & _ & b & _ & Hb & _). by exists b.
Qed.

Lemma grow_copy Γ st old τ b0 b e sz wl : copying Γ st old τ b0 b e → copy_of (grow st old b sz e wl) old e.
Proof.
  intros []. split; [rewrite cp_data0; left|]. exists b0, b. split; [done|]. simpl. rewrite cp_data0, lookup_insert_eq. split; [done|].
  assert (Hr : ∀ f ws, Forall2 (wstep f) ws ws) by (intros; apply Forall_Forall2_diag, Forall_true; intros; by left).
  destruct τ.
  - destruct cp_kind0 as (-> & -> & ->). done.
  - destruct cp_kind0 as (-> & _ & -> & ws & Hp & Hw). split; [done|]. exists ws. split; [done|]. intros Hz. by rewrite Hw.
Qed.

Lemma grow_fwd_typed Γ X st old τ b0 b e sz wl o eo : J Γ X st → copying Γ st old τ b0 b e →
  fwd (grow st old b sz e wl) !! o = Some eo →
  dead o = true ∧ dead (fw_data eo) = false ∧ fwd_typed (<[next_addr st := τ]> Γ) o eo.
Proof.
  intros HJ HC. destruct (fresh_facts st (j_base _ _ _ HJ)) as (Hf & Hf0 & Hd & _). destruct HC. simpl.
  destruct (decide (o = old)) as [->|Ho].
  - rewrite lookup_insert_eq. intros [= <-]. rewrite cp_data0. split; [done|]. split; [done|].
    unfold fwd_typed. rewrite lookup_insert_ne by congruence. rewrite cp_type0, cp_data0, lookup_insert_eq.
    destruct τ; naive_solver.
  - rewrite lookup_insert_ne by done. intros He. destruct (j_fwd _ _ _ HJ o eo He) as (H1 & H2 & H3).
    split; [done|]. split; [done|]. unfold fwd_typed in *. rewrite lookup_insert_ne by congruence.
    destruct (fwd_alloc _ _ _ _ _ HJ He) as [c Hc].
    destruct (Γ !! o) as [[]|]; rewrite ?(lookup_insert_ne _ (next_addr st) (fw_data eo)) by congruence; done.
Qed.

Lemma grow_inj Γ X st old τ b0 b e sz wl o eo o' eo' : J Γ X st → copying Γ st old τ b0 b e →
  fwd (grow st old b sz e wl) !! o = Some eo → fwd (grow st old b sz e wl) !! o' = Some eo' →
  fw_data eo = fw_data eo' → prev !! o = None → o' = o.
Proof.
  intros HJ HC. destruct (fresh_facts st (j_base _ _ _ HJ)) as (Hf & _). destruct HC. simpl.
  destruct (decide (o = old)) as [->|Ho], (decide (o' = old)) as [->|Ho']; try done;
    rewrite ?lookup_insert_eq, ?lookup_insert_ne by done; intros E1 E2 Ed Hp; simplify_eq.
  - destruct (fwd_alloc _ _ _ _ _ HJ E2). congruence.
  - destruct (fwd_alloc _ _ _ _ _ HJ E1). congruence.
  - by eapply (j_inj _ _ _ HJ o eo o' eo').
Qed.

Lemma grow_J Γ X X' st old τ b0 b e sz wl : J Γ X st → copying Γ st old τ b0 b e → 0 <= sz →
  (∀ c sub l, τ = TObj c sub l → object_layout c sub l) →
  (wl = worklist st ∧ X' = next_addr st :: X) ∨
  (∃ k c sub l, wl = (next_addr st, k) :: worklist st ∧ X' = X ∧ τ = TObj c sub l ∧ layout sub k l) →
  J (<[next_addr st := τ]> Γ) X' (grow st old b sz e wl).
Proof.
  intros HJ HC Hz Hlay Hwl. destruct (fresh_facts st (j_base _ _ _ HJ)) as (Hf & Hf0 & Hd & Hns).
  assert (HΓ : Γ !! next_addr st = None).
  { destruct (Γ !! _) eqn:E; [|done]. destruct (typed_alloc _ _ _ _ _ HJ E). congruence. }
  pose proof (grow_ext st old b sz e wl (j_base _ _ _ HJ) (cp_new _ _ _ _ _ _ _ HC) (cp_dead _ _ _ _ _ _ _ HC)) as Hext.
  assert (Hlen : (length wl <= S (length (worklist st)))%nat) by (destruct Hwl as [[-> _]|(?&?&?&?&->&_)]; simpl; lia).
  specialize (Hext Hlen).
  assert (Hnot : ∀ p, p ≠ next_addr st → p ∉ X' → p ∉ wl.*1 → p ∉ X ∧ p ∉ (worklist st).*1).
  { intros p Hp H1 H2. destruct Hwl as [[-> ->]|(?&?&?&?&->&->&_)]; simpl in *; set_solver. }
  split.
  - apply grow_base; [apply HJ|by apply HC|done].
  - apply typed_insert; [done|done|apply HJ|by apply HC].
  - intros p Hp. simpl in Hp. apply not_elem_of_cons in Hp as [Hp Hp']. rewrite lookup_insert_ne by done. by apply HJ.
  - intros p c sub l. destruct (decide (p = next_addr st)) as [->|Hp]; [rewrite lookup_insert_eq; intros [= ->] _ _; eauto|].
    rewrite lookup_insert_ne by done. simpl. rewrite elem_of_cons. intros HΓp [Hdp|[?|Hs]]; [|done|].
    + apply (j_layout _ _ _ HJ _ _ _ _ HΓp). by left.
    + apply (j_layout _ _ _ HJ _ _ _ _ HΓp). by right.
  - simpl. etrans; [apply HJ|]. apply insert_subseteq, HC.
  - intros o eo. by eapply grow_fwd_typed.
  - intros o eo. simpl. destruct (decide (o = old)) as [->|].
    + rewrite lookup_insert_eq. intros [= <-] _. by eapply grow_copy.
    + rewrite lookup_insert_ne by done. intros He Hp. eapply copy_mono; [apply HJ|done|simpl; set_solver|by eapply (j_copy _ _ _ HJ)].
  - intros o eo o' eo'. by eapply grow_inj.
  - intros p σ c i s w. simpl. destruct (decide (p = next_addr st)) as [->|Hp].
    + intros _ _ _ H1 H2. exfalso. destruct Hwl as [[-> ->]|(?&?&?&?&->&->&_)]; simpl in *; set_solver.
    + rewrite !lookup_insert_ne by done. intros HΓp Ec Hdp H1 H2. destruct (Hnot p Hp H1 H2). by eapply (j_clean _ _ _ HJ).
  - intros p k Hin. destruct Hwl as [[-> ->]|(k'&c&sub&l&->&->&->&Hk)].
    + destruct (j_work _ _ _ HJ p k Hin) as (c & sub & l & Hp & ?). exists c, sub, l. split; [|done].
      rewrite lookup_insert_ne; [done|]. congruence.
    + apply elem_of_cons in Hin as [[= -> ->]|Hin]; [exists c, sub, l; by rewrite lookup_insert_eq|].
      destruct (j_work _ _ _ HJ p k Hin) as (c' & sub' & l' & Hp & ?). exists c', sub', l'. split; [|done].
      rewrite lookup_insert_ne; [done|]. congruence.
Qed.
End spec.
