(* ===== verification/EvacWalk.v ===== *)
(** * EvacWalk: copying and walking keep the invariant

    Every operation of the promotion is safe on typed memory: it reads only words
    that are there, and leaves the blocks it has walked clean. *)

From S2P Require Export EvacSpec.
Local Open Scope Z_scope.

Section walk.
Context (stack : list region) (target bnd : Z) (extern root : Z → bool).
Context (h0 : heap) (n0 : Z) (prev : fwd_map_t) (Γ0 : typing).
Context `{Hset : !@setting stack target bnd extern root h0 n0 prev}.

#[local] Abbreviation dead := (dying stack bnd h0).
#[local] Abbreviation cleanw := (clean root stack bnd h0).
#[local] Abbreviation Inv := (@J stack target bnd extern root h0 n0 prev Γ0).
#[local] Abbreviation Ok := (@ok stack target bnd h0 n0 _).
#[local] Abbreviation Ext := (@ext stack target bnd h0).
#[local] Abbreviation Clean := (@slot_clean stack bnd root h0).
#[local] Abbreviation step := (@wstep stack target bnd h0).

(** ** Running the parts *)

Lemma inner_run Γ X st p : Inv Γ X st → inner stack bnd p st = Done (dead p) st.
Proof. intros HJ. unfold inner. by rewrite base_owning by apply HJ. Qed.

Lemma evac_size_run c w k st : evac_size c w k st = Done (k + c * w) st ∨ evac_size c w k st = Failed 3 st.
Proof. unfold evac_size. destruct (_ <? _); [by right|by left]. Qed.

Lemma load_at st p i w : at_word st p i w → load p i st = Done w st.
Proof. intros (b & E & Hw). unfold load, block_at, mbind, evac_bind. by rewrite E, Hw. Qed.

Lemma load_ptr_at st p i q : at_word st p i (Ptr q) → load_ptr p i st = Done q st.
Proof. intros Hw. unfold load_ptr, mbind, evac_bind. by rewrite (load_at _ _ _ _ Hw). Qed.

Lemma load_const Γ X st p τ i k n : Inv Γ X st → Γ !! p = Some τ → slots τ !! i = Some (Const k n) → load_num p i st = Done n st.
Proof.
  intros HJ HΓ Hσ. destruct (typed_at _ _ _ _ _ _ _ HJ HΓ Hσ) as (w & Hw & -> & _).
  unfold load_num, mbind, evac_bind. by rewrite (load_at _ _ _ _ Hw).
Qed.

Lemma require_typed Γ X st p l : Inv Γ X st → Γ !! p = Some (TBuf l) →
  ∀ n, n <= slot_bytes l → evac_require_span stack p n st = Done tt st ∨ p = 0.
Proof.
  intros HJ HΓ n Hn. destruct (decide (p = 0)) as [->|Hp]; [by right|left]. unfold evac_require_span.
  destruct (Z.eqb_spec p 0); [done|]. destruct (_ <? 0); [done|].
  destruct (j_typed _ _ _ HJ p _ HΓ) as (b & -> & _ & Hwd & Hb).
  pose proof (bytes_typed _ _ _ _ Hb). pose proof (bytes_take (length l) _ Hwd). rewrite (proj2 (Z.leb_le _ _)); [done|]. simpl in *. lia.
Qed.

Lemma typed_nonnull Γ X st p τ : Inv Γ X st → Γ !! p = Some τ → p ≠ 0.
Proof.
  intros HJ HΓ ->. destruct (typed_alloc _ _ _ _ _ HJ HΓ) as [b E].
  destruct (b_new _ (j_base _ _ _ HJ) _ _ E) as [_ [Hs|Hs]].
  - apply (b_span_next _ (j_base _ _ _ HJ)) in Hs. pose proof (next_pos). lia.
  - by rewrite null_free in Hs.
Qed.

(** A dying block is an old one. *)
Lemma dead_block Γ X st p τ : Inv Γ X st → Γ !! p = Some τ → dead p = true →
  ∃ b, h0 !! p = Some b ∧ st_heap st !! p = Some b ∧ block_ok extern Γ τ b.
Proof.
  intros HJ HΓ Hd. destruct (dead_old p Hd) as [b E].
  pose proof (b_old _ (j_base _ _ _ HJ) _ _ E) as E'.
  destruct (j_typed _ _ _ HJ p _ HΓ) as (b' & ? & ?). simplify_eq. eauto.
Qed.

(** ** Copying *)

(** No block is written. *)
Definition keeps (st st' : evac_state) : Prop := ∀ p b, st_heap st !! p = Some b → st_heap st' !! p = Some b.

Lemma keeps_refl st : keeps st st.
Proof. by intros ??. Qed.

Lemma keeps_word st st' p i w : keeps st st' → at_word st p i w → at_word st' p i w.
Proof. intros Hk (b & E & Hw). exists b. eauto. Qed.

Lemma copying_ok Γ X X' st old τ b0 nb n o sz todo : Inv Γ X st →
  @copying stack target bnd extern h0 Γ st old τ b0 nb (EvacForward (next_addr st) n o) → 0 <= sz →
  (∀ c sub l, τ = TObj c sub l → object_layout c sub l) →
  match todo with
  | None => X' = next_addr st :: X
  | Some k => X' = X ∧ ∃ c sub l, τ = TObj c sub l ∧ layout sub k l
  end →
  Ok Γ st (p ← evac_allocate sz nb; forward old (EvacForward p n o) ;; match todo with None => mret tt | Some k => enqueue p k end ;; mret p)
    (λ q Γ' st', Inv Γ' X' st' ∧ Γ' !! q = Some τ ∧ dead q = false ∧ q = next_addr st ∧ moved st' old q ∧ keeps st st').
Proof.
  intros HJ HC Hz Hlay Htodo. pose proof (fresh_facts st (j_base _ _ _ HJ)) as (Hfr & _ & Hfd & _).
  assert (HΓn : Γ !! next_addr st = None).
  { destruct (Γ !! next_addr st) eqn:HE; [|done]. destruct (typed_alloc _ _ _ _ _ HJ HE). congruence. }
  set (wl := match todo with None => worklist st | Some k => (next_addr st, k) :: worklist st end).
  assert (HG : Inv (<[next_addr st := τ]> Γ) X' (grow st old nb sz (EvacForward (next_addr st) n o) wl)).
  { eapply grow_J; [done..|]. unfold wl. destruct todo as [k|]; [right|by left].
    destruct Htodo as (-> & c & sub & l & ? & ?). by exists k, c, sub, l. }
  assert (HX : Ext st (grow st old nb sz (EvacForward (next_addr st) n o) wl)).
  { eapply grow_ext; [apply HJ|apply HC|apply HC|]. unfold wl. destruct todo; simpl; lia. }
  unfold ok, mbind, evac_bind, evac_allocate. destruct (_ <? sz); [split; [done|apply HJ]|].
  assert (Hend : ∃ Γ', Γ ⊆ Γ' ∧ Ext st (grow st old nb sz (EvacForward (next_addr st) n o) wl) ∧
    Inv Γ' X' (grow st old nb sz (EvacForward (next_addr st) n o) wl) ∧ Γ' !! next_addr st = Some τ ∧ dead (next_addr st) = false ∧
    next_addr st = next_addr st ∧ moved (grow st old nb sz (EvacForward (next_addr st) n o) wl) old (next_addr st) ∧
    keeps st (grow st old nb sz (EvacForward (next_addr st) n o) wl)).
  { exists (<[next_addr st := τ]> Γ). split; [by apply insert_subseteq|]. split; [done|]. split; [done|].
    rewrite lookup_insert_eq. repeat split; try done.
    - eexists. simpl. by rewrite lookup_insert_eq.
    - intros p b E. simpl. rewrite lookup_insert_ne; [done|congruence]. }
  unfold grow, wl in *. destruct (budget st) as [[|bud]|] eqn:Hbud; [split; [done|apply HJ]|..]; destruct todo; exact Hend.
Qed.

Lemma raw_copying Γ X st old l b p : Inv Γ X st → Γ !! old = Some (TBuf l) → dead old = true → fwd st !! old = None →
  h0 !! old = Some b → block_ok extern Γ (TBuf l) b → p = next_addr st →
  @copying stack target bnd extern h0 Γ st old (TBuf l) b
    (Block None target (if slot_bytes l =? 0 then [Num 1 0] else take (length l) (words b))) (EvacForward p (slot_bytes l) false).
Proof.
  intros HJ HΓ Hd Hf E0 (Hh & Hwd & Hsl) ->. change (slots (TBuf l)) with l in Hsl. split; try done.
  - split; [done|]. split; [simpl; destruct (_ =? 0); [by constructor|by apply Forall_take]|].
    intros i σ Hi. simpl in *. destruct (Z.eqb_spec (slot_bytes l) 0) as [Hz|Hz].
    + destruct l as [|σ0 l]; [done|]. exfalso. destruct (words b) as [|w ws]; [by destruct (Hsl 0%nat σ0 eq_refl) as (? & ? & _)|].
      apply typed_words_cons in Hsl as [H1 H2]. apply slot_ok_width in H1. apply slot_bytes_nonneg in H2. simpl in Hz. lia.
    + destruct (Hsl i σ Hi) as (w & Hw & Hok). exists w. split; [|done].
      rewrite lookup_take_lt; [done|]. by eapply lookup_lt_Some.
  - repeat split; try done. exists (take (length l) (words b)). split; [by eapply (prefix_typed extern Γ l)|]. simpl.
    destruct (Z.eqb_spec (slot_bytes l) 0); done.
Qed.

Lemma evac_raw_ok Γ X st old l : Inv Γ X st → Γ !! old = Some (TBuf l) → dead old = true →
  Ok Γ st (evac_raw stack target old (slot_bytes l))
    (λ q Γ' st', Inv Γ' (q :: X) st' ∧ Γ' !! q = Some (TBuf l) ∧ dead q = false ∧ moved st' old q ∧ keeps st st').
Proof.
  intros HJ HΓ Hd. unfold evac_raw. pose proof (typed_nonnull _ _ _ _ _ HJ HΓ) as Hnz.
  rewrite (proj2 (Z.eqb_neq _ _)) by done. eapply ok_run; [done|]. destruct (fwd st !! old) as [e|] eqn:Hf.
  - destruct (j_fwd _ _ _ HJ old e Hf) as (_ & Hd' & Ht). unfold fwd_typed in Ht. rewrite HΓ in Ht.
    destruct Ht as (-> & -> & Ht). rewrite Z.ltb_irrefl. simpl. apply ok_ret.
    split; [by apply J_weaken|]. split; [done|]. split; [done|]. split; [by exists e|apply keeps_refl].
  - destruct (require_typed _ _ _ _ _ HJ HΓ (slot_bytes l) ltac:(lia)) as [Hr|]; [|done]. eapply ok_run; [exact Hr|]. clear Hr.
    destruct (dead_block _ _ _ _ _ HJ HΓ Hd) as (b & E0 & E & Hb). pose proof Hb as (_ & _ & Hsl).
    eapply ok_run; [unfold block_at; by rewrite E|]. rewrite (prefix_typed extern Γ l _ Hsl).
    pose proof (slot_bytes_nonneg extern Γ l _ Hsl) as Hn0.
    eapply ok_mono; [eapply (copying_ok Γ X _ st old (TBuf l) b _ _ false _ None)|]; try done.
    + by eapply raw_copying.
    + destruct (_ =? 0); lia.
    + intros q Γ' st' _ _ (? & ? & ? & -> & ? & ?). done.
Qed.

(** ** Classifying and checking an object *)

(** A pure check: it passes, or fails and changes nothing. *)
Definition checks {A} (m : EvacM A) (Q : A → Prop) : Prop := ∀ st, (∃ a, m st = Done a st ∧ Q a) ∨ ∃ s, m st = Failed s st ∧ s ≠ 0.

Lemma checks_ret {A} (a : A) (Q : A → Prop) : Q a → checks (mret a) Q.
Proof. intros H st. left. by exists a. Qed.
Lemma checks_fail {A} s (Q : A → Prop) : s ≠ 0 → checks (promotion_fail s) Q.
Proof. intros Hs st. right. by exists s. Qed.
Lemma checks_bind {A B} (m : EvacM A) (f : A → EvacM B) P Q : checks m P → (∀ a, P a → checks (f a) Q) → checks (m ≫= f) Q.
Proof.
  intros Hm Hf st. unfold mbind, evac_bind. destruct (Hm st) as [(a & -> & Ha)|(s & -> & Hs)]; [by apply Hf|right; by exists s].
Qed.
Lemma checks_need size n : checks (need size n) (λ _, True).
Proof. unfold need. destruct (_ <? _); [by apply checks_fail|by apply checks_ret]. Qed.
Lemma checks_size c w k : checks (evac_size c w k) (λ n, n = k + c * w).
Proof. unfold evac_size. destruct (_ <? _); [by apply checks_fail|by apply checks_ret]. Qed.
Lemma checks_num b i k n Q : words b !! i = Some (Num k n) → Q n → checks (num_word b i) Q.
Proof. unfold num_word. intros -> H. by apply checks_ret. Qed.

Lemma ok_checks {A B} (m : EvacM A) (f : A → EvacM B) P Γ X st R : Inv Γ X st → checks m P →
  (∀ a, P a → Ok Γ st (f a) R) → Ok Γ st (m ≫= f) R.
Proof.
  intros HJ Hm Hf. destruct (Hm st) as [(a & E & Ha)|(s & E & Hs)]; [eapply ok_run; [exact E|by apply Hf]|by eapply ok_run_fail].
Qed.

Lemma kind_checks type sub size b : is_port type = false →
  checks (evac_kind_for type sub size b) (λ k, kind_of (callable_type type) sub = Some k).
Proof.
  intros Hp. unfold evac_kind_for, kind_of, callable_type. rewrite Hp.
  repeat case_match; simplify_eq; try (by apply checks_fail); by apply checks_ret.
Qed.

Lemma const_word Γ l b i k n : typed_words extern Γ l (words b) → l !! i = Some (Const k n) → words b !! i = Some (Num k n).
Proof. intros Ht Hi. destruct (Ht i _ Hi) as (w & Hw & -> & _). done. Qed.

Lemma validate_checks Γ b size k type sub l : size = slot_bytes l → layout sub k l → typed_words extern Γ l (words b) →
  checks (evac_validate_object b size k type sub) (λ _, True).
Proof.
  intros Hsize Hl Ht.
  assert (Hnum : ∀ i k n, l !! i = Some (Const k n) → checks (num_word b i) (λ m, m = n)).
  { intros i w n Hi. eapply checks_num; [by eapply const_word|done]. }
  assert (Hn : ∀ n, checks (need size n) (λ _, True)) by (intros; apply checks_need).
  assert (Hs : ∀ (c w q : Z), checks (s ← evac_size c w q; need size s) (λ _, True)).
  { intros. eapply checks_bind; [apply checks_size|]. intros; apply checks_need. }
  destruct Hl; simpl; try apply Hn;
    repeat first [ apply Hs | apply Hn | by apply checks_ret | by apply checks_fail
      | eapply checks_bind; [first [apply Hn | by eapply Hnum] | intros ? _ || intros ? ->] | case_match ].
  - destruct rest as [|σ rest]; [simpl in Hsize; subst; done|]. destruct (H2 σ eq_refl) as (n & _ & ->).
    eapply checks_bind; [by eapply Hnum|]. intros ? ->. case_match; [by apply checks_fail|by apply checks_ret].
  - destruct H0 as [n Hi]; [by apply Z.eqb_eq|]. eapply checks_bind; [by eapply Hnum|]. intros ? ->. apply Hs.
  - destruct H1 as [n Hi]; [by apply Z.eqb_eq|]. eapply checks_bind; [by eapply Hnum|]. intros ? ->.
    case_match; [by apply checks_fail|apply Hs].
Qed.

(** ** Copying an object *)

Lemma evac_object_ok Γ X st old c sub l type : Inv Γ X st → Γ !! old = Some (TObj c sub l) → dead old = true →
  callable_type type = c → is_port type = false →
  Ok Γ st (evac_object target old type)
    (λ q Γ' st', Inv Γ' X st' ∧ (∃ l', Γ' !! q = Some (TObj c sub l')) ∧ dead q = false ∧ moved st' old q ∧ keeps st st').
Proof.
  intros HJ HΓ Hd Hc Hport. unfold evac_object. eapply ok_run; [done|]. destruct (fwd st !! old) as [e|] eqn:Hf.
  - destruct (j_fwd _ _ _ HJ old e Hf) as (_ & Hd' & Ht). unfold fwd_typed in Ht. rewrite HΓ in Ht.
    destruct Ht as (-> & l' & Ht). apply ok_ret. split; [done|]. split; [by exists l'|]. split; [done|]. split; [by exists e|apply keeps_refl].
  - assert (Hp : prev !! old = None).
    { destruct (prev !! old) eqn:E; [|done]. pose proof (lookup_weaken _ _ _ _ E (j_prev _ _ _ HJ)). congruence. }
    pose proof (j_layout _ _ _ HJ old c sub l HΓ ltac:(by left) Hp) as Hlay. pose proof Hlay as Hol.
    destruct (dead_block _ _ _ _ _ HJ HΓ Hd) as (b & E0 & E & Hb). pose proof Hb as (Hh & Hwd & Hsl). simpl in Hh, Hsl.
    eapply ok_run; [unfold block_at; by rewrite E|]. rewrite Hh. pose proof (slot_bytes_nonneg extern Γ l _ Hsl) as Hn0.
    eapply ok_checks; [done|apply checks_size|]. intros total ->. case_match; [by eapply ok_fail|].
    eapply ok_checks; [done|by apply kind_checks|]. intros k Hk. rewrite Hc in Hk. specialize (Hlay k Hk).
    eapply ok_checks; [done|by eapply validate_checks|]. intros _ _.
    set (todo := match k with EVAC_LEAF => None | _ => Some k end).
    assert (HC : @copying stack target bnd extern h0 Γ st old (TObj c sub l) b (Block (header b) target (words b))
                   (EvacForward (next_addr st) (slot_bytes l) true)).
    { split; done. }
    assert (Hq : todo = None → Forall quiet l).
    { unfold todo. intros Ht. inversion Hlay; subst; done. }
    rewrite Hh in HC.
    set (X' := match todo with None => next_addr st :: X | Some _ => X end).
    assert (Htodo : match todo with None => X' = next_addr st :: X
                    | Some k => X' = X ∧ ∃ c' sub' l', TObj c sub l = TObj c' sub' l' ∧ layout sub' k l' end).
    { unfold X', todo. destruct k; eauto 10. }
    assert (Hcopy := copying_ok Γ X X' st old _ b _ _ true (8 + slot_bytes l * 1) todo HJ HC ltac:(lia)).
    eapply ok_mono; [destruct k; apply Hcopy; try done; intros ??? [= <- <- <-]; exact Hol|].
    intros q Γ' st' _ _ (HJ' & HΓ' & Hdq & Hq' & Hm & Hk'). split; [|by eauto].
    unfold X' in HJ'. destruct todo; [done|]. subst q. eapply J_drop; [done|]. eapply quiet_block; [done..|]. by apply Hq.
Qed.

(** ** Values and slots *)

Lemma moved_step st t f d q : dead d = true → dead q = false → moved st d q → step (fwd st) (Tag t f d) (Tag t f q).
Proof. intros Hd Hq (e & He & Hde). right. repeat split; try done. by exists e. Qed.

Lemma moved_ptr st d q : dead d = true → dead q = false → moved st d q → step (fwd st) (Ptr d) (Ptr q).
Proof. intros Hd Hq (e & He & Hde). right. repeat split; try done. by exists e. Qed.

Lemma dead_typed_value Γ t d : value_ok extern Γ t d → region_value_carries_pointer t = true → dead d = true →
  region_linear_resource t = false ∧ is_port t = false ∧
  (if region_headerless_payload_size t =? 0 then ∃ sub l, Γ !! d = Some (TObj (callable_type t) sub l)
   else Γ !! d = Some (TBuf [Any 8; Any 8])).
Proof.
  intros Hv Hc Hd. apply Hv; [done| |].
  - intros ->. by rewrite dead_null in Hd.
  - destruct (extern d) eqn:E; [|done]. by rewrite (dead_extern d E) in Hd.
Qed.

Lemma value_ok_weaken Γ Γ' t d : Γ ⊆ Γ' → value_ok extern Γ t d → value_ok extern Γ' t d.
Proof. intros Hs Hv. exact (slot_ok_mono extern Γ Γ' Val (Tag t 0 d) Hs Hv). Qed.

Lemma headerless_size t : region_headerless_payload_size t = 0 ∨ region_headerless_payload_size t = 16.
Proof. unfold region_headerless_payload_size. destruct (_ || _); auto. Qed.

Lemma evac_value_ok Γ X st t f d : Inv Γ X st → value_ok extern Γ t d →
  Ok Γ st (evac_value stack target bnd (Tag t f d)) (λ w' Γ' st', Inv Γ' X st' ∧ ∃ d', w' = Tag t f d' ∧
    step (fwd st') (Tag t f d) w' ∧ value_ok extern Γ' t d' ∧ (if region_value_carries_pointer t then dead d' = false else d' = d) ∧ keeps st st').
Proof.
  intros HJ Hv. simpl. destruct (region_value_carries_pointer t) eqn:Hc; simpl.
  2:{ apply ok_ret. split; [done|]. exists d. split; [done|]. split; [by left|]. split; [done|]. split; [done|apply keeps_refl]. }
  destruct (Z.eqb_spec d 0) as [->|Hd0].
  { apply ok_ret. split; [done|]. exists 0. split; [done|]. split; [by left|]. split; [done|]. split; [apply dead_null|apply keeps_refl]. }
  eapply ok_run; [by eapply inner_run|]. destruct (dead d) eqn:Hd; simpl.
  2:{ apply ok_ret. split; [done|]. exists d. split; [done|]. split; [by left|]. split; [done|]. split; [done|apply keeps_refl]. }
  destruct (dead_typed_value _ _ _ Hv Hc Hd) as (Hlin & Hport & Hty). rewrite Hlin.
  destruct (headerless_size t) as [Hs|Hs]; rewrite Hs in *; simpl in *.
  - destruct Hty as (sub & l & HΓ). eapply ok_seq; [by eapply evac_object_ok|].
    intros q Γ' st' _ _ (HJ' & (l' & Hq) & Hdq & Hm & Hk). apply ok_ret. split; [done|]. exists q. split; [done|].
    split; [by apply moved_step|]. split; [|by split].
    intros _ _ _. rewrite Hs. simpl. eauto 10.
  - change 16 with (slot_bytes [Any 8; Any 8]). eapply ok_seq; [by eapply evac_raw_ok|].
    intros q Γ' st' _ _ (HJ' & Hq & Hdq & Hm & Hk). apply ok_ret. split.
    { eapply J_drop; [done|]. eapply quiet_block; [done..|]. by repeat constructor. }
    exists q. split; [done|]. split; [by apply moved_step|]. split; [|by split].
    intros _ _ _. rewrite Hs. eauto.
Qed.

Definition value_slot (σ : slot) : Prop := σ = Val ∨ σ = Cap.

Lemma tagged_slot_ok Γ X st p τ i σ : Inv Γ X st → Γ !! p = Some τ → slots τ !! i = Some σ → value_slot σ →
  Ok Γ st (evac_tagged_slot stack target bnd p i) (λ _ Γ' st', Inv Γ' X st' ∧ Clean st' p i σ).
Proof.
  intros HJ HΓ Hσ Hval. destruct (typed_at _ _ _ _ _ _ _ HJ HΓ Hσ) as (w & Hw & Hok).
  assert (∃ t f d, w = Tag t f d ∧ value_ok extern Γ t d) as (t & f & d & -> & Hv).
  { destruct Hval as [-> | ->], w; try done; simpl in Hok; destruct_and?; eauto 10. }
  unfold evac_tagged_slot. eapply ok_run; [by apply load_at|]. eapply ok_seq; [by apply evac_value_ok|].
  intros w' Γ' st' HΓ' He (HJ' & d' & -> & Hs & Hv' & Hd' & Hk).
  eapply ok_mono; [eapply (assign_ok Γ' X st' p τ i σ); [done|by eapply lookup_weaken|done|by eapply keeps_word|done|..]|].
  - destruct Hval as [-> | ->]; [done|]. split; [done|]. intros ->. simpl in Hd'. subst d'. by apply Hok.
  - destruct Hval as [-> | ->]; (split; [intros x; simpl; destruct (region_value_carries_pointer t); naive_solver|done]).
  - simpl. intros _ Γ'' st'' _ _ [HJ'' Hw'']. split; [done|]. exists (Tag t f d'). split; [done|].
    destruct Hval as [-> | ->]; (split; [intros x; simpl; destruct (region_value_carries_pointer t); naive_solver|done]).
Qed.

(** ** Fields *)

Lemma require_ok {A} (f : unit → EvacM A) Γ X st q l n R : Inv Γ X st → Γ !! q = Some (TBuf l) → n <= slot_bytes l →
  Ok Γ st (f tt) R → Ok Γ st (evac_require_span stack q n ≫= f) R.
Proof.
  intros HJ HΓ Hn H. destruct (require_typed _ _ _ _ _ HJ HΓ n Hn) as [E|E]; [by eapply ok_run|].
  by apply (typed_nonnull _ _ _ _ _ HJ) in HΓ.
Qed.

Lemma const_ok {A} (f : Z → EvacM A) Γ X st p τ i k n R : Inv Γ X st → Γ !! p = Some τ → slots τ !! i = Some (Const k n) →
  Ok Γ st (f n) R → Ok Γ st (load_num p i ≫= f) R.
Proof. intros HJ HΓ Hσ H. eapply ok_run; [by eapply load_const|done]. Qed.

(** The pointer in a field, old or already moved. *)
Definition at_buffer (Γ : typing) (st : evac_state) (p : Z) (i : nat) (nullable : bool) (l : list slot) (q : Z) : Prop :=
  at_word st p i (Ptr q) ∧ dead q = false ∧ ((nullable = true ∧ q = 0) ∨ Γ !! q = Some (TBuf l)).

Lemma at_buffer_mono Γ Γ' st st' p i nl l q : Γ ⊆ Γ' → Ext st st' → at_buffer Γ st p i nl l q → at_buffer Γ' st' p i nl l q.
Proof.
  intros HΓ He (Hw & Hd & Hq). split; [by eapply at_ptr_ext|]. split; [done|].
  destruct Hq as [?|?]; [by left|right]. by eapply lookup_weaken.
Qed.

Lemma at_buffer_clean Γ st p i nl l q : at_buffer Γ st p i nl l q → Clean st p i (Raw nl l).
Proof. intros (Hw & Hd & _). exists (Ptr q). split; [done|]. split; [intros x [= <-]; done|done]. Qed.

Lemma typed_ptr Γ X st p τ i nl l : Inv Γ X st → Γ !! p = Some τ → slots τ !! i = Some (Raw nl l) →
  ∃ q, at_word st p i (Ptr q) ∧ ((nl = true ∧ q = 0) ∨ Γ !! q = Some (TBuf l)).
Proof.
  intros HJ HΓ Hσ. destruct (typed_at _ _ _ _ _ _ _ HJ HΓ Hσ) as (w & Hw & Hok). destruct w; try done. by exists p0.
Qed.

Lemma assign_ptr_ok Γ X st st0 p τ i σ q q' : Inv Γ X st → Γ !! p = Some τ → slots τ !! i = Some σ → σ ≠ HomeArena →
  at_word st0 p i (Ptr q) → keeps st0 st → dead q = true → dead q' = false → moved st q q' → slot_ok extern Γ σ (Ptr q') →
  Ok Γ st (evac_assign p i (Ptr q')) (λ _ Γ' st', Inv Γ' X st' ∧ at_word st' p i (Ptr q') ∧ Clean st' p i σ).
Proof.
  intros HJ HΓ Hσ Hh Hw Hk Hd Hd' Hm Hok.
  assert (Hc : cleanw σ (Ptr q')) by (split; [intros x Hx; destruct σ; simpl in Hx; by simplify_eq|done]).
  eapply ok_mono; [eapply (assign_ok Γ X st p τ i σ); [done..|by eapply keeps_word|by apply moved_ptr|done|done]|].
  simpl. intros _ Γ' st' _ _ [HJ' Hw']. split; [done|]. split; [done|]. by exists (Ptr q').
Qed.

Lemma raw_field_ok Γ X st p τ i nl l sz : Inv Γ X st → Γ !! p = Some τ → slots τ !! i = Some (Raw nl l) →
  (∀ q, at_word st p i (Ptr q) → q ≠ 0 → dead q = true → checks sz (λ n, n = slot_bytes l)) →
  Ok Γ st (raw_field stack target bnd p i sz) (λ _ Γ' st', ∃ q, at_buffer Γ' st' p i nl l q ∧ Inv Γ' (q :: X) st').
Proof.
  intros HJ HΓ Hσ Hsz. destruct (typed_ptr _ _ _ _ _ _ _ _ HJ HΓ Hσ) as (q & Hw & Hq).
  unfold raw_field. eapply ok_run; [by apply load_ptr_at|]. destruct (Z.eqb_spec q 0) as [->|Hq0].
  { apply ok_ret. exists 0. split; [|by apply J_weaken]. split; [done|]. split; [apply dead_null|done]. }
  destruct Hq as [[_ ?]|Hq]; [done|]. eapply ok_run; [by eapply inner_run|]. destruct (dead q) eqn:Hd.
  2:{ apply ok_ret. exists q. split; [|by apply J_weaken]. split; [done|]. split; [done|by right]. }
  eapply ok_checks; [done|by eapply Hsz|]. intros n ->. eapply ok_seq; [by eapply evac_raw_ok|].
  intros q' Γ' st' HΓ' He (HJ' & Hq' & Hd' & Hm & Hk).
  eapply ok_mono; [eapply (assign_ptr_ok Γ' (q' :: X) st' st p τ i (Raw nl l) q q'); try done|].
  - by eapply lookup_weaken.
  - by right.
  - simpl. intros _ Γ'' st'' HΓ'' _ (HJ'' & Hw'' & _). exists q'. split; [|done]. split; [done|]. split; [done|right].
    by eapply lookup_weaken.
Qed.

(** A buffer that nothing is followed from is clean as soon as it is copied. *)
Lemma raw_quiet_ok Γ X st p τ i nl l sz : Inv Γ X st → Γ !! p = Some τ → slots τ !! i = Some (Raw nl l) → Forall quiet l →
  checks sz (λ n, n = slot_bytes l) →
  Ok Γ st (raw_field stack target bnd p i sz) (λ _ Γ' st', Inv Γ' X st' ∧ ∃ q, at_buffer Γ' st' p i nl l q).
Proof.
  intros HJ HΓ Hσ Hl Hsz. eapply ok_mono; [by eapply raw_field_ok|]. simpl.
  intros _ Γ' st' _ _ (q & Hq & HJ'). split; [|by exists q]. eapply J_drop; [done|].
  intros τ' j σ Hτ Hj. destruct Hq as (_ & _ & [[_ ->]|Hq]); [by apply (typed_nonnull _ _ _ _ _ HJ') in Hτ|].
  eapply (quiet_block Γ' (q :: X)); [done|exact Hq|done|exact Hτ|done].
Qed.

Lemma slot_bytes_app l l' : slot_bytes (l ++ l') = slot_bytes l + slot_bytes l'.
Proof. induction l; simpl; lia. Qed.
Lemma slot_bytes_consts k s : slot_bytes (Const k <$> s) = Z.of_nat (length s) * k.
Proof. induction s as [|c s IH]; [done|]. rewrite fmap_cons, length_cons. simpl. rewrite IH. lia. Qed.
Lemma slot_bytes_replicate n σ : slot_bytes (replicate n σ) = Z.of_nat n * slot_width σ.
Proof. induction n as [|n IH]; [done|]. rewrite replicate_S. simpl. rewrite IH. lia. Qed.

Lemma text_size Γ X st q s : Inv Γ X st → Γ !! q = Some (TBuf (text s)) → Forall (λ c, c ≠ 0) s →
  evac_string_size q st = Done (slot_bytes (text s)) st.
Proof.
  intros HJ HΓ Hs. destruct (j_typed _ _ _ HJ q _ HΓ) as (b & E & _ & _ & Hb). simpl in Hb.
  unfold evac_string_size, block_at, mbind, evac_bind. rewrite E.
  assert (Hf : list_find (λ w, w = Num 1 0) (words b) = Some (length s, Num 1 0)).
  { apply list_find_Some. split; [eapply (const_word Γ); [exact Hb|]|split; [done|]].
    - unfold text. by rewrite lookup_app_r, length_fmap, Nat.sub_diag by (by rewrite length_fmap).
    - intros j w Hw Hj ->. destruct (lookup_lt_is_Some_2 s j Hj) as [c Hc].
      assert (Hcw : words b !! j = Some (Num 1 c)).
      { eapply (const_word Γ); [exact Hb|]. unfold text. rewrite lookup_app_l by (by rewrite length_fmap).
        by rewrite list_lookup_fmap, Hc. }
      rewrite Hw in Hcw. injection Hcw as <-. eapply Forall_lookup_1 in Hs; [|exact Hc]. done. }
  rewrite Hf. unfold text. rewrite slot_bytes_app, slot_bytes_consts. simpl. by rewrite Z.mul_1_r.
Qed.

Lemma ptr_slot Γ X st p τ i σ : Inv Γ X st → Γ !! p = Some τ → slots τ !! i = Some σ → σ = Txt ∨ σ = Obj →
  ∃ q, at_word st p i (Ptr q) ∧ slot_ok extern Γ σ (Ptr q).
Proof.
  intros HJ HΓ Hσ Hk. destruct (typed_at _ _ _ _ _ _ _ HJ HΓ Hσ) as (w & Hw & Hok).
  destruct Hk as [-> | ->], w; try done; by exists p0.
Qed.

Lemma stays_clean st p i σ q : at_word st p i (Ptr q) → dead q = false → σ ≠ HomeArena → Clean st p i σ.
Proof. intros Hw Hd Hh. exists (Ptr q). split; [done|]. split; [intros x Hx; destruct σ; simpl in Hx; by simplify_eq|done]. Qed.

Lemma dead_target d : dead d = true → d ≠ 0 ∧ extern d = false.
Proof.
  intros Hd. split; [intros ->; by rewrite dead_null in Hd|].
  destruct (extern d) eqn:E; [|done]. by rewrite (dead_extern d E) in Hd.
Qed.

Lemma string_field_ok Γ X st p τ i : Inv Γ X st → Γ !! p = Some τ → slots τ !! i = Some Txt →
  Ok Γ st (string_field stack target bnd p i) (λ _ Γ' st', Inv Γ' X st' ∧ Clean st' p i Txt).
Proof.
  intros HJ HΓ Hσ. destruct (ptr_slot _ _ _ _ _ _ _ HJ HΓ Hσ ltac:(by left)) as (q & Hw & Hok).
  unfold string_field, raw_field. eapply ok_run; [by apply load_ptr_at|]. eapply ok_run; [by apply load_ptr_at|].
  destruct (Z.eqb_spec q 0) as [->|Hq0].
  { apply ok_ret. split; [done|]. eapply stays_clean; [done|apply dead_null|done]. }
  eapply ok_run; [by eapply inner_run|]. destruct (dead q) eqn:Hd.
  2:{ apply ok_ret. split; [done|]. by eapply stays_clean. }
  destruct (dead_target q Hd) as [_ He]. destruct (Hok Hq0 He) as (s & Hs & Hq).
  eapply ok_run; [by eapply text_size|]. eapply ok_seq; [by eapply evac_raw_ok|].
  intros q' Γ' st' HΓ' _ (HJ' & Hq' & Hd' & Hm & Hk).
  assert (HJ'' : Inv Γ' X st').
  { eapply J_drop; [done|]. eapply quiet_block; [done..|]. simpl. apply Forall_app. split; [|by repeat constructor].
    apply Forall_fmap, Forall_true. done. }
  eapply ok_mono; [eapply (assign_ptr_ok Γ' X st' st p τ i Txt q q'); try done|].
  - by eapply lookup_weaken.
  - intros _ _. by exists s.
  - simpl. naive_solver.
Qed.

Lemma object_ptr_ok Γ X st q : Inv Γ X st → slot_ok extern Γ Obj (Ptr q) →
  Ok Γ st (evac_object_ptr stack target bnd q) (λ q' Γ' st', Inv Γ' X st' ∧ keeps st st' ∧ dead q' = false ∧
    (q' = q ∨ dead q = true ∧ moved st' q q' ∧ slot_ok extern Γ' Obj (Ptr q'))).
Proof.
  intros HJ Hok. unfold evac_object_ptr. destruct (Z.eqb_spec q 0) as [->|Hq0].
  { apply ok_ret. split; [done|]. split; [apply keeps_refl|]. split; [apply dead_null|by left]. }
  eapply ok_run; [by eapply inner_run|]. destruct (dead q) eqn:Hd.
  2:{ apply ok_ret. split; [done|]. split; [apply keeps_refl|]. split; [done|by left]. }
  destruct (dead_target q Hd) as [_ He]. destruct (Hok Hq0 He) as (sub & l & Hq).
  eapply ok_mono; [by eapply (evac_object_ok Γ X st q false sub l)|]. simpl.
  intros q' Γ' st' _ _ (HJ' & (l' & Hq') & Hd' & Hm & Hk). split; [done|]. split; [done|]. split; [done|right].
  split; [done|]. split; [done|].  intros _ _. by exists sub, l'.
Qed.

Lemma object_field_ok Γ X st p τ i : Inv Γ X st → Γ !! p = Some τ → slots τ !! i = Some Obj →
  Ok Γ st (object_field stack target bnd p i) (λ _ Γ' st', Inv Γ' X st' ∧ Clean st' p i Obj).
Proof.
  intros HJ HΓ Hσ. destruct (ptr_slot _ _ _ _ _ _ _ HJ HΓ Hσ ltac:(by right)) as (q & Hw & Hok).
  unfold object_field. eapply ok_run; [by apply load_ptr_at|]. eapply ok_seq; [by apply object_ptr_ok|].
  intros q' Γ' st' HΓ' _ (HJ' & Hk & Hd' & Hq'). pose proof (lookup_weaken _ _ _ _ HΓ HΓ') as Hp.
  destruct Hq' as [->|(Hd & Hm & Hok')].
  - pose proof (keeps_word _ _ _ _ _ Hk Hw) as Hw'.
    eapply ok_mono; [eapply (assign_ok Γ' X st' p τ i Obj); [done..|by left| |]|].
    + by eapply slot_ok_mono.
    + split; [intros x [= <-]; done|done].
    + simpl. intros _ Γ'' st'' _ _ [? ?]. split; [done|]. by eapply stays_clean.
  - eapply ok_mono; [by eapply (assign_ptr_ok Γ' X st' st p τ i Obj q q')|]. simpl. naive_solver.
Qed.

(** ** Loops and arrays *)

Lemma each_ok Γ X st (P : nat → evac_state → Prop) n i f : Inv Γ X st →
  (∀ j Γ' st', (i <= j < i + n)%nat → Γ ⊆ Γ' → Ext st st' → Inv Γ' X st' →
    Ok Γ' st' (f j) (λ _ Γ'' st'', Inv Γ'' X st'' ∧ P j st'')) →
  (∀ j st1 st2, Ext st1 st2 → P j st1 → P j st2) →
  Ok Γ st (each n i f) (λ _ Γ' st', Inv Γ' X st' ∧ ∀ j, (i <= j < i + n)%nat → P j st').
Proof.
  intros HJ Hf HP. revert i Γ st HJ Hf. induction n as [|n IH]; intros i Γ st HJ Hf; simpl.
  { apply ok_ret. split; [done|lia]. }
  eapply ok_seq; [apply Hf; [lia|done|apply ext_refl|done]|]. simpl. intros _ Γ1 st1 HΓ1 He1 [HJ1 HP1].
  eapply ok_mono; [apply (IH (S i)); [done|]|].
  - intros j Γ2 st2 Hj HΓ2 He2 HJ2. apply Hf; [lia|by etrans|by eapply ext_trans|done].
  - simpl. intros _ Γ2 st2 HΓ2 He2 [HJ2 HP2]. split; [done|]. intros j Hj.
    destruct (decide (j = i)) as [->|]; [by eapply HP|]. apply HP2. lia.
Qed.

Definition all_val (l : list slot) (i n : nat) : Prop := ∀ j, (i <= j < i + n)%nat → l !! j = Some Val.

Definition clean_range (st : evac_state) (p : Z) (i n : nat) : Prop := ∀ j, (i <= j < i + n)%nat → Clean st p j Val.

Lemma clean_range_ext st st' p i n : Ext st st' → clean_range st p i n → clean_range st' p i n.
Proof. intros He H j Hj. eapply slot_clean_ext; eauto. Qed.

Lemma tagged_slots_ok Γ X st p τ i n : Inv Γ X st → Γ !! p = Some τ → all_val (slots τ) i n →
  Ok Γ st (tagged_slots stack target bnd p i n) (λ _ Γ' st', Inv Γ' X st' ∧ clean_range st' p i n).
Proof.
  intros HJ HΓ Hv. unfold clean_range, tagged_slots. apply (each_ok Γ X st (λ j st, Clean st p j Val)); [done| |].
  - intros j Γ' st' Hj HΓ' _ HJ'. eapply tagged_slot_ok; [done|by eapply lookup_weaken|by apply Hv|by left].
  - intros j st1 st2 He. by apply slot_clean_ext.
Qed.

Lemma vals_lookup n rest j : (j < Z.to_nat n)%nat → (vals n ++ rest) !! j = Some Val.
Proof.
  intros Hj. rewrite lookup_app_l by (unfold vals; by rewrite length_replicate). by apply lookup_replicate_2.
Qed.

(** A buffer whose slots are all clean is no longer to be walked. *)
Lemma buffer_drop Γ X st p i nl l q : Inv Γ (q :: X) st → at_buffer Γ st p i nl l q →
  (q ≠ 0 → Γ !! q = Some (TBuf l) → ∀ j σ, l !! j = Some σ → quiet σ ∨ Clean st q j σ) → Inv Γ X st.
Proof.
  intros HJ (_ & _ & Hq) H. eapply J_drop; [done|]. intros τ j σ Hτ Hj. pose proof (typed_nonnull _ _ _ _ _ HJ Hτ) as Hnz.
  destruct Hq as [[_ ?]|Hq]; [done|]. simplify_eq. destruct (H Hnz Hq j σ Hj) as [Hs|]; [|done].
  destruct (typed_at _ _ _ _ _ _ _ HJ Hq Hj) as (w & Hw & _). exists w. split; [done|by apply quiet_clean].
Qed.

Lemma tagged_array_ok Γ X st p i nl n q : Inv Γ (q :: X) st → at_buffer Γ st p i nl (vals n) q → counts n →
  Ok Γ st (tagged_array stack target bnd p i n) (λ _ Γ' st', Inv Γ' X st').
Proof.
  intros HJ Hb Hn. pose proof Hb as (Hw & Hd & Hq). unfold tagged_array. eapply ok_run; [by apply load_ptr_at|].
  destruct (Z.eqb_spec q 0) as [->|Hq0].
  { apply ok_ret. eapply buffer_drop; [done|exact Hb|done]. }
  destruct Hq as [[_ ?]|Hq]; [done|]. eapply ok_checks; [done|apply checks_size|]. intros s ->.
  eapply require_ok; [done..| |].
  { unfold vals. rewrite slot_bytes_replicate. simpl. unfold counts in Hn. lia. }
  eapply ok_mono; [eapply tagged_slots_ok; [done|exact Hq|]|].
  - intros j Hj. simpl. rewrite <- (app_nil_r (vals n)). apply vals_lookup. lia.
  - simpl. intros _ Γ' st' HΓ' He [HJ' Hc]. eapply buffer_drop; [done|by eapply at_buffer_mono|].
    intros _ _ j σ Hj. right. unfold vals in Hj. apply lookup_replicate in Hj as [-> Hj]. apply Hc. lia.
Qed.

(** ** Objects, kind by kind *)

Definition walked (st : evac_state) (p : Z) (l : list slot) : Prop := ∀ i σ, l !! i = Some σ → quiet σ ∨ Clean st p i σ.

Lemma walked_quiet st p l : Forall quiet l → walked st p l.
Proof. intros H i σ Hi. left. by eapply Forall_lookup_1. Qed.

(** After a step, what was known is known of the new state. *)
Ltac lift_facts HΓ He :=
  match type of HΓ with ?Γ ⊆ _ => match type of He with ext ?st _ =>
    repeat match goal with
    | H : Γ !! _ = Some _ |- _ => eapply lookup_weaken in H; [|exact HΓ]
    | H : slot_clean st _ _ _ |- _ => eapply slot_clean_ext in H; [|exact He]
    | H : clean_range st _ _ _ |- _ => eapply clean_range_ext in H; [|exact He]
    | H : at_buffer Γ st _ _ _ _ _ |- _ => eapply at_buffer_mono in H; [|exact HΓ|exact He]
    | H : J Γ _ st |- _ => clear H
    end
  end end.

Tactic Notation "step_by" uconstr(L) := eapply ok_seq; [eapply L; try done|simpl; let HΓ := fresh "HΓs" in let He := fresh "Hes" in
  intros _ ? ? HΓ He [? ?]; lift_facts HΓ He].
Tactic Notation "last_by" uconstr(L) := eapply ok_mono; [eapply L; try done|simpl; let HΓ := fresh "HΓs" in let He := fresh "Hes" in
  intros _ ? ? HΓ He [? ?]; lift_facts HΓ He].

(** The clean slots of an object, one by one. *)
Ltac by_slot := intros i σ Hi; simpl in Hi;
  repeat match type of Hi with
  | (_ :: _) !! _ = _ => destruct i as [|i]; simpl in Hi; [injection Hi as <-; first [by left|by right|right; by eapply at_buffer_clean]|]
  end; try done.

Lemma walk_cons_ok Γ X st p c sub : Inv Γ X st → Γ !! p = Some (TObj c sub [Val; Val]) →
  Ok Γ st (walk_object stack target bnd p EVAC_CONS) (λ _ Γ' st', Inv Γ' X st' ∧ walked st' p [Val; Val]).
Proof.
  intros HJ HΓ. simpl. step_by (tagged_slot_ok Γ X st p _ 0%nat Val); [by left|]. 
  last_by (tagged_slot_ok _ X _ p _ 1%nat Val); [by left|]. split; [done|]. by_slot.
Qed.

Lemma all_val_app pre n rest : all_val (pre ++ vals n ++ rest) (length pre) (Z.to_nat n).
Proof.
  intros j Hj. rewrite lookup_app_r by lia. apply vals_lookup. lia.
Qed.

Lemma walked_vals st p k n rest i σ : clean_range st p k (Z.to_nat n) → Forall quiet rest →
  (vals n ++ rest) !! i = Some σ → quiet σ ∨ Clean st p (k + i) σ.
Proof.
  intros Hc Hr Hi. apply lookup_app_Some in Hi as [Hi|[_ Hi]].
  - right. apply lookup_replicate in Hi as [-> Hi]. apply Hc. lia.
  - left. by eapply Forall_lookup_1.
Qed.

Lemma walk_vector_ok Γ X st p c sub n rest k : k = EVAC_VECTOR ∨ k = EVAC_MULTIVALUE → Forall quiet rest →
  Inv Γ X st → Γ !! p = Some (TObj c sub (Const 8 n :: vals n ++ rest)) →
  Ok Γ st (walk_object stack target bnd p k) (λ _ Γ' st', Inv Γ' X st' ∧ walked st' p (Const 8 n :: vals n ++ rest)).
Proof.
  intros Hk Hr HJ HΓ.
  assert (Hw : Ok Γ st (n ← load_num p 0; tagged_slots stack target bnd p 1 (Z.to_nat n))
    (λ _ Γ' st', Inv Γ' X st' ∧ walked st' p (Const 8 n :: vals n ++ rest))).
  { eapply const_ok; [done|exact HΓ|done|]. last_by (tagged_slots_ok Γ X st p); [apply (all_val_app [Const 8 n])|].
    split; [done|]. by_slot. by eapply (walked_vals _ p 1). }
  by destruct Hk as [-> | ->].
Qed.

Lemma walk_fact_ok Γ X st p c sub n rest l : l = [Txt; Const 4 n; Any 4] ++ vals n ++ rest → Forall quiet rest →
  Inv Γ X st → Γ !! p = Some (TObj c sub l) →
  Ok Γ st (walk_fact stack target bnd p) (λ _ Γ' st', Inv Γ' X st' ∧ walked st' p l).
Proof.
  intros -> Hr HJ HΓ. eapply const_ok; [done|exact HΓ|done|].
  step_by (tagged_slots_ok Γ X st p); [apply (all_val_app [Txt; Const 4 n; Any 4])|].
  last_by (string_field_ok _ X _ p _ 0%nat). split; [done|]. by_slot. by eapply (walked_vals _ p 3).
Qed.

Lemma walk_substitution_ok Γ X st p c sub n cap rest l : l = [Const 4 n; Const 4 cap] ++ anys cap 8 ++ vals n ++ rest →
  Forall quiet rest → Inv Γ X st → Γ !! p = Some (TObj c sub l) →
  Ok Γ st (walk_object stack target bnd p EVAC_SUBSTITUTION) (λ _ Γ' st', Inv Γ' X st' ∧ walked st' p l).
Proof.
  intros -> Hr HJ HΓ. simpl. eapply const_ok; [done|exact HΓ|done|]. eapply const_ok; [done|exact HΓ|done|].
  assert (Hlen : length (anys cap 8) = Z.to_nat cap) by apply length_replicate.
  last_by (tagged_slots_ok Γ X st p).
  { simpl. intros j Hj. destruct j as [|[|j]]; [lia..|]. simpl. rewrite <- Hlen in Hj. apply all_val_app. lia. }
  split; [done|]. by_slot. apply lookup_app_Some in Hi as [Hi|[Hl Hi]].
  - left. by apply lookup_replicate in Hi as [-> _].
  - rewrite Hlen in *. replace (S (S i)) with (2 + Z.to_nat cap + (i - Z.to_nat cap))%nat by lia. by eapply walked_vals.
Qed.

Lemma walk_taylor_ok Γ X st p c sub k flags rest l :
  l = [Const 4 k; Const 4 flags] ++ (if Z.land flags 255 =? 1 then vals (k + 1) else []) ++ rest →
  Forall quiet rest → Inv Γ X st → Γ !! p = Some (TObj c sub l) →
  Ok Γ st (walk_taylor stack target bnd p) (λ _ Γ' st', Inv Γ' X st' ∧ walked st' p l).
Proof.
  intros -> Hr HJ HΓ. eapply const_ok; [done|exact HΓ|done|]. eapply const_ok; [done|exact HΓ|done|].
  destruct (_ =? 1).
  - last_by (tagged_slots_ok Γ X st p); [apply (all_val_app [Const 4 k; Const 4 flags])|].
    split; [done|]. by_slot. by eapply (walked_vals _ p 2).
  - apply ok_ret. split; [done|]. apply walked_quiet. by repeat constructor.
Qed.

Lemma walk_promise_ok Γ X st p c sub k rest l : l = [Any k; Val; Val] ++ rest → Forall quiet rest →
  Inv Γ X st → Γ !! p = Some (TObj c sub l) →
  Ok Γ st (walk_object stack target bnd p EVAC_PROMISE) (λ _ Γ' st', Inv Γ' X st' ∧ walked st' p l).
Proof.
  intros -> Hr HJ HΓ. simpl. step_by (tagged_slot_ok Γ X st p _ 1%nat Val); [by left|].
  last_by (tagged_slot_ok _ X _ p _ 2%nat Val); [by left|]. split; [done|]. by_slot.
  left. by eapply Forall_lookup_1.
Qed.

Lemma walk_primitive_ok Γ X st p c sub k rest l : l = [Any k; Txt] ++ rest → Forall quiet rest →
  Inv Γ X st → Γ !! p = Some (TObj c sub l) →
  Ok Γ st (walk_object stack target bnd p EVAC_PRIMITIVE) (λ _ Γ' st', Inv Γ' X st' ∧ walked st' p l).
Proof.
  intros -> Hr HJ HΓ. simpl. last_by (string_field_ok Γ X st p _ 1%nat). split; [done|]. by_slot.
  left. by eapply Forall_lookup_1.
Qed.

Lemma checks_array n w k l : slot_bytes l = k + n * w → checks (evac_size n w k) (λ m, m = slot_bytes l).
Proof. intros ->. apply checks_size. Qed.

Lemma anys_size n k : counts n → slot_bytes (anys n k) = 0 + n * k.
Proof. intros Hn. unfold anys. by rewrite slot_bytes_replicate, Z2Nat.id by done. Qed.

Lemma vals_size n : counts n → slot_bytes (vals n) = 0 + n * 16.
Proof. intros Hn. unfold vals. by rewrite slot_bytes_replicate, Z2Nat.id by done. Qed.

Lemma anys_quiet n k : Forall quiet (anys n k).
Proof. unfold anys. by apply Forall_replicate. Qed.

Tactic Notation "buffer_by" uconstr(L) := eapply ok_seq; [eapply L; try done|simpl; let HΓ := fresh "HΓs" in let He := fresh "Hes" in
  intros _ ? ? HΓ He (? & ? & ?); lift_facts HΓ He].
Tactic Notation "quiet_by" uconstr(L) := eapply ok_seq; [eapply L; try done|simpl; let HΓ := fresh "HΓs" in let He := fresh "Hes" in
  intros _ ? ? HΓ He [? [? ?]]; lift_facts HΓ He].

Lemma walk_exception_ok Γ X st p c sub k n rest l : l = [Any k; Txt; Raw true (vals n); Const 4 n; Any 4; Any 4; Txt] ++ rest →
  counts n → Forall quiet rest → Inv Γ X st → Γ !! p = Some (TObj c sub l) →
  Ok Γ st (walk_exception stack target bnd p) (λ _ Γ' st', Inv Γ' X st' ∧ walked st' p l).
Proof.
  intros -> Hn Hr HJ HΓ. unfold walk_exception.
  step_by (string_field_ok Γ X st p _ 1%nat). step_by (string_field_ok _ X _ p _ 6%nat).
  eapply const_ok; [done|exact HΓ|done|].
  buffer_by (raw_field_ok _ X _ p _ 2%nat true (vals n)). { intros _ _ _ _. by apply checks_array, vals_size. }
  eapply ok_mono; [by eapply tagged_array_ok|]. simpl. intros _ ?? HΓs2 Hes2 ?. lift_facts HΓs2 Hes2. split; [done|].
  by_slot. left. by eapply Forall_lookup_1.
Qed.

Lemma walk_tensor_ok Γ X st p c sub rank total rest dual l :
  l = [Raw true (anys rank 8); Const 8 rank; Raw true (if dual : bool then vals total else anys total 8); Const 8 total] ++ rest →
  (if dual then rest = [Const 8 64] else ∀ σ, rest !! 0%nat = Some σ → ∃ n, n ≠ 64 ∧ σ = Const 8 n) →
  counts rank → counts total → Forall quiet rest → Inv Γ X st → Γ !! p = Some (TObj c sub l) →
  Ok Γ st (walk_tensor stack target bnd p) (λ _ Γ' st', Inv Γ' X st' ∧ walked st' p l).
Proof.
  intros -> Hdual Hrank Htot Hr HJ HΓ. unfold walk_tensor.
  destruct (j_typed _ _ _ HJ p _ HΓ) as (b & E & Hh & _ & Hb). simpl in Hh, Hb. eapply ok_run; [unfold block_at; by rewrite E|].
  set (d := match header b with Some _ => _ | None => _ end).
  assert (d = dual) as ->.
  { unfold d. rewrite Hh. destruct dual.
    - subst rest. rewrite (const_word Γ _ _ 4%nat 8 64 Hb) by done. by rewrite bool_decide_eq_true_2.
    - destruct rest as [|σ rest]; [done|]. destruct (Hdual σ eq_refl) as (n & Hn & ->).
      rewrite (const_word Γ _ _ 4%nat 8 n Hb) by done. rewrite bool_decide_eq_false_2 by congruence. apply andb_false_r. }
  eapply const_ok; [done|exact HΓ|done|]. eapply const_ok; [done|exact HΓ|done|].
  quiet_by (raw_quiet_ok Γ X st p _ 0%nat true (anys rank 8)); [apply anys_quiet|by apply checks_array, anys_size|].
  destruct dual.
  - buffer_by (raw_field_ok _ X _ p _ 2%nat true (vals total)). { intros _ _ _ _. by apply checks_array, vals_size. }
    eapply ok_mono; [by eapply tagged_array_ok|]. simpl. intros _ ?? HΓs2 Hes2 ?. lift_facts HΓs2 Hes2. split; [done|].
    by_slot. left. by eapply Forall_lookup_1.
  - quiet_by (raw_quiet_ok _ X _ p _ 2%nat true (anys total 8)); [apply anys_quiet|by apply checks_array, anys_size|].
    apply ok_ret. split; [done|]. by_slot. left. by eapply Forall_lookup_1.
Qed.

Lemma entries_lookup status i s : status !! i = Some s → entries status !! i = Some (if s =? 1 then Val else Any 16).
Proof. intros Hs. unfold entries. by rewrite list_lookup_fmap, Hs. Qed.

Lemma entries_size status : slot_bytes (entries status) = 0 + Z.of_nat (length status) * 16.
Proof.
  induction status as [|s status IH]; [done|]. rewrite length_cons. simpl in *. rewrite IH. destruct (s =? 1); simpl; lia.
Qed.

Definition entry_clean (keys values : Z) (status : list Z) (i : nat) (st : evac_state) : Prop :=
  status !! i = Some 1 → Clean st keys i Val ∧ Clean st values i Val.

Lemma walk_entries_ok Γ X st keys values stp status : Inv Γ X st →
  Γ !! keys = Some (TBuf (entries status)) → Γ !! values = Some (TBuf (entries status)) → Γ !! stp = Some (TBuf (Const 1 <$> status)) →
  Ok Γ st (each (length status) 0 (λ i, occupied ← load_num stp i;
      if occupied =? 1 then evac_tagged_slot stack target bnd keys i ;; evac_tagged_slot stack target bnd values i else mret tt))
    (λ _ Γ' st', Inv Γ' X st' ∧ ∀ i, (0 <= i < 0 + length status)%nat → entry_clean keys values status i st').
Proof.
  intros HJ Hk Hv Hs. apply (each_ok Γ X st (entry_clean keys values status)); [done| |].
  - intros j Γ' st' Hj HΓ' _ HJ'. eapply lookup_weaken in Hk; [|exact HΓ']. eapply lookup_weaken in Hv; [|exact HΓ'].
    eapply lookup_weaken in Hs; [|exact HΓ']. destruct (lookup_lt_is_Some_2 status j ltac:(lia)) as [s Hsj].
    eapply const_ok; [done|exact Hs|by simpl; rewrite list_lookup_fmap, Hsj|].
    destruct (Z.eqb_spec s 1) as [->|Hne].
    + pose proof (entries_lookup status j 1 Hsj) as He.
      step_by (tagged_slot_ok Γ' X st' keys _ j Val); [by left|].
      last_by (tagged_slot_ok _ X _ values _ j Val); [by left|]. split; [done|]. by intros _.
    + apply ok_ret. split; [done|]. intros Hs1. congruence.
  - intros j st1 st2 He H Hs1. destruct (H Hs1). split; by eapply slot_clean_ext.
Qed.

Lemma entries_drop Γ X st p i q keys values status : Inv Γ (q :: X) st → at_buffer Γ st p i false (entries status) q →
  q = keys ∨ q = values → (∀ i, (0 <= i < 0 + length status)%nat → entry_clean keys values status i st) → Inv Γ X st.
Proof.
  intros HJ Hb Hq H. eapply buffer_drop; [done|exact Hb|]. intros _ _ j σ Hj.
  unfold entries in Hj. rewrite list_lookup_fmap in Hj. destruct (status !! j) as [s|] eqn:Hs; simplify_eq/=.
  destruct (Z.eqb_spec s 1) as [->|]; [right|by left]. destruct (H j) as [H1 H2]; [|done|by destruct Hq as [-> | ->]].
  apply lookup_lt_Some in Hs. lia.
Qed.

Lemma buffer_ptr {A} (f : Z → EvacM A) Γ st p i nl l q R : at_buffer Γ st p i nl l q →
  Ok Γ st (f q) R → Ok Γ st (load_ptr p i ≫= f) R.
Proof. intros (Hw & _) H. eapply ok_run; [by apply load_ptr_at|done]. Qed.

Lemma buffer_nonnull Γ X st p i l q : Inv Γ X st → at_buffer Γ st p i false l q → q ≠ 0 ∧ Γ !! q = Some (TBuf l).
Proof. intros HJ (_ & _ & [[? _]|Hq]); [done|]. split; [by eapply typed_nonnull|done]. Qed.

Lemma walk_hash_ok Γ X st p c sub status l :
  l = [Const 8 (Z.of_nat (length status)); Any 8; Any 8; Raw false (entries status); Raw false (entries status);
       Raw false (Const 1 <$> status); HomeArena] → Inv Γ X st → Γ !! p = Some (TObj c sub l) →
  Ok Γ st (walk_hash stack target bnd p) (λ _ Γ' st', Inv Γ' X st' ∧ walked st' p l).
Proof.
  intros -> HJ HΓ. unfold walk_hash. eapply const_ok; [done|exact HΓ|done|].
  buffer_by (raw_field_ok Γ X st p _ 3%nat false (entries status)). { intros _ _ _ _. apply checks_array, entries_size. }
  buffer_by (raw_field_ok _ _ _ p _ 4%nat false (entries status)). { intros _ _ _ _. apply checks_array, entries_size. }
  quiet_by (raw_quiet_ok _ _ _ p _ 5%nat false (Const 1 <$> status)).
  { by apply Forall_fmap, Forall_true. }
  { apply checks_array. by rewrite slot_bytes_consts. }
  rename x into keys, x0 into values, x1 into stp.
  match goal with H : at_buffer _ _ p 3 _ _ keys, H' : at_buffer _ _ p 4 _ _ values, H'' : at_buffer _ _ p 5 _ _ stp, HJ : Inv _ _ _ |- _ =>
    rename H into Hk, H' into Hv, H'' into Hs; rename HJ into HJ1 end.
  destruct (buffer_nonnull _ _ _ _ _ _ _ HJ1 Hk) as [Hk0 Hk1], (buffer_nonnull _ _ _ _ _ _ _ HJ1 Hv) as [Hv0 Hv1],
    (buffer_nonnull _ _ _ _ _ _ _ HJ1 Hs) as [Hs0 Hs1].
  eapply (buffer_ptr _ _ _ p 3); [exact Hk|]. eapply (buffer_ptr _ _ _ p 4); [exact Hv|]. eapply (buffer_ptr _ _ _ p 5); [exact Hs|].
  eapply ok_seq.
  { rewrite (proj2 (Z.eqb_neq keys 0) Hk0), (proj2 (Z.eqb_neq values 0) Hv0), (proj2 (Z.eqb_neq stp 0) Hs0). simpl.
    eapply ok_checks; [done|apply checks_size|]. intros sz ->.
    eapply require_ok; [done|exact Hk1|rewrite entries_size; lia|]. eapply require_ok; [done|exact Hv1|rewrite entries_size; lia|].
    eapply require_ok; [done|exact Hs1|rewrite slot_bytes_consts; lia|]. rewrite Nat2Z.id. by eapply walk_entries_ok. }
  simpl. intros _ Γ2 st2 HΓ2 He2 [HJ2 Hc]. lift_facts HΓ2 He2.
  assert (HJ3 : Inv Γ2 X st2).
  { eapply entries_drop; [eapply entries_drop; [exact HJ2|exact Hv|by right|exact Hc]|exact Hk|by left|exact Hc]. }
  destruct (typed_at _ _ _ _ _ 6%nat HomeArena HJ3 HΓ eq_refl) as (w & Hw & Hok). destruct w as [| |a|]; try done.
  eapply ok_mono; [eapply (assign_ok Γ2 X st2 p _ 6 HomeArena (Home a) (Home target)); [done|exact HΓ|done|done|by right|done|]|].
  { split; [done|]. intros a' _ [= <-]. apply target_alive. }
  simpl. intros _ Γ3 st3 HΓ3 He3 [HJ4 Hw3]. lift_facts HΓ3 He3. split; [done|].
  assert (Clean st3 p 6 HomeArena).
  { exists (Home target). split; [done|]. split; [done|]. intros a' _ [= <-]. apply target_alive. }
  by_slot.
Qed.

(** Two moves of a word are the same move. *)
Lemma step_join f t g d d' w e : dead d = true → dead d' = false → f !! d = Some e → fw_data e = d' →
  step f (Tag t g d) w → step f w (Tag t g d').
Proof.
  intros Hd Hd' He <- [->|Hw]; [right; repeat split; try done; by exists e|].
  destruct w as [t' g' d2| | |]; try done. destruct Hw as (-> & -> & _ & _ & e' & He' & <-). simplify_eq. by left.
Qed.

Lemma evac_capture_ok Γ X st env τ i σ : Inv Γ X st → Γ !! env = Some τ → slots τ !! i = Some σ → σ = Cell ∨ σ = Cap →
  Ok Γ st (evac_capture stack target bnd env i) (λ _ Γ' st', Inv Γ' X st' ∧ Clean st' env i σ).
Proof.
  intros HJ HΓ Hσ Hk. destruct (typed_at _ _ _ _ _ _ _ HJ HΓ Hσ) as (w & Hw & Hok).
  unfold evac_capture. eapply ok_run; [by apply load_at|].
  destruct w as [t f d|d|d|k d]; [|by destruct Hk as [-> | ->]..]. eapply ok_run; [by eapply inner_run|].
  destruct Hk as [-> | ->].
  - destruct Hok as (-> & Hd0 & Hd). rewrite (proj2 (Z.eqb_neq d 0) Hd0). simpl. destruct (dead d) eqn:Hdead.
    + change 16 with (slot_bytes [Val]). eapply ok_seq; [by eapply evac_raw_ok|].
      simpl. intros nc Γ1 st1 HΓ1 He1 (HJ1 & Hnc & Hdnc & (e & He & Hde) & Hk1). pose proof (keeps_word _ _ _ _ _ Hk1 Hw) as Hw1.
      lift_facts HΓ1 He1. rewrite (proj2 (Z.eqb_neq nc d)) by congruence.
      step_by (tagged_slot_ok Γ1 _ st1 nc _ 0%nat Val); [by left|]. rename Γ' into Γ2, st' into st2.
      match goal with H : Inv Γ2 _ st2 |- _ => rename H into HJ2 end.
      assert (HJ3 : Inv Γ2 X st2). { eapply J_drop; [exact HJ2|]. intros τ' j σ' Hτ Hj. simplify_eq. by destruct j as [|[|]]; simplify_eq/=. }
      destruct (at_word_ext _ _ _ _ _ Hes Hw1) as (w2 & Hw2 & Hs2).
      assert (He2 : fwd st2 !! d = Some e) by (eapply lookup_weaken; [exact He|apply Hes]).
      eapply ok_mono; [eapply (assign_ok Γ2 X st2 env τ i Cell w2); [done|exact HΓ|done|done|by eapply step_join| |]|].
      * simpl. repeat split; try done. by eapply typed_nonnull.
      * split; [intros x [= <-]; done|done].
      * simpl. intros _ Γ3 st3 _ _ [HJ4 Hw3]. split; [done|]. eexists. split; [done|]. split; [intros x [= <-]; done|done].
    + unfold evac_tagged_slot. eapply ok_run; [by apply load_at|]. eapply ok_run; [done|].
      eapply ok_mono; [eapply (assign_ok Γ X st env τ i Cell); [done..|by left|done|]|].
      * split; [intros x [= <-]; done|done].
      * simpl. intros _ Γ3 st3 _ _ [HJ4 Hw3]. split; [done|]. eexists. split; [done|]. split; [intros x [= <-]; done|done].
  - assert (Hb : (t =? ESHKOL_VALUE_INT64) && negb (d =? 0) && dead d = false).
    { destruct (Z.eqb_spec t ESHKOL_VALUE_INT64) as [->|]; [|done]. destruct Hok as [_ Hx].
      rewrite (dead_extern d (Hx eq_refl)). apply andb_false_r. }
    rewrite Hb. eapply tagged_slot_ok; [done..|by right].
Qed.

Lemma env_slots_lookup packed caps i σ : (1 <= i)%nat → env_slots packed caps !! i = Some σ → σ = Cell ∨ σ = Cap.
Proof.
  intros Hi. destruct i as [|i]; [lia|]. simpl. rewrite list_lookup_fmap. intros (b & _ & ->)%fmap_Some. destruct b; auto.
Qed.

Lemma env_slots_size packed caps : slot_bytes (env_slots packed caps) = 8 + Z.of_nat (length caps) * 16.
Proof.
  unfold env_slots. simpl. f_equal. induction caps as [|b caps IH]; [done|]. rewrite length_cons. simpl. rewrite IH. destruct b; simpl; lia.
Qed.

Lemma optional_object_ok Γ X st p τ i q : Inv Γ X st → Γ !! p = Some τ → slots τ !! i = Some Obj → at_word st p i (Ptr q) →
  Ok Γ st (if q =? 0 then mret tt else object_field stack target bnd p i) (λ _ Γ' st', Inv Γ' X st' ∧ Clean st' p i Obj).
Proof.
  intros HJ HΓ Hσ Hq. destruct (Z.eqb_spec q 0) as [->|]; [|by eapply object_field_ok].
  apply ok_ret. split; [done|]. eapply stays_clean; [done|apply dead_null|done].
Qed.

(** The environment of a closure: moved, then its captures. *)
Lemma walk_env_ok Γ X st p τ env packed caps : Inv Γ X st → Γ !! p = Some τ → slots τ !! 1%nat = Some (Raw true (env_slots packed caps)) →
  length caps = Z.to_nat (CLOSURE_ENV_GET_NUM_CAPTURES packed) → at_word st p 1 (Ptr env) → Γ !! env = Some (TBuf (env_slots packed caps)) →
  Ok Γ st (evac_require_span stack env 8 ;;
     packed ← load_num env 0;
     let ncap := CLOSURE_ENV_GET_NUM_CAPTURES packed in
     env_size ← evac_size ncap 16 8; evac_require_span stack env env_size ;;
     dying ← inner stack bnd env;
     ne ← (if (dying : bool) then evac_raw stack target env env_size else mret env);
     evac_assign p 1 (Ptr ne) ;;
     each (Z.to_nat ncap) 1 (evac_capture stack target bnd ne))
    (λ _ Γ' st', Inv Γ' X st' ∧ Clean st' p 1 (Raw true (env_slots packed caps))).
Proof.
  intros HJ HΓ Hσ Hlen Hw Henv.
  assert (Hpos : 0 <= CLOSURE_ENV_GET_NUM_CAPTURES packed) by (unfold CLOSURE_ENV_GET_NUM_CAPTURES; apply Z.land_nonneg; lia).
  pose proof (env_slots_size packed caps) as Hsz. rewrite Hlen, Z2Nat.id in Hsz by done.
  eapply require_ok; [done|exact Henv|lia|]. eapply const_ok; [done|exact Henv|done|]. simpl.
  eapply ok_checks; [done|apply checks_size|]. intros sz ->. rewrite <- Hsz.
  eapply require_ok; [done|exact Henv|done|]. eapply ok_run; [by eapply inner_run|].
  eapply (ok_seq _ _ _ _ (λ ne Γ' st', Inv Γ' (ne :: X) st' ∧ Γ' !! ne = Some (TBuf (env_slots packed caps)) ∧ dead ne = false ∧
    at_word st' p 1 (Ptr env) ∧ (ne = env ∨ dead env = true ∧ moved st' env ne))).
  { destruct (dead env) eqn:Hd.
    - eapply ok_mono; [by eapply evac_raw_ok|]. simpl. intros ne Γ' st' _ _ (H1 & H2 & H3 & H4 & Hk).
      split; [done|]. split; [done|]. split; [done|]. split; [by eapply keeps_word|by right].
    - apply ok_ret. split; [by apply J_weaken|]. split; [done|]. split; [done|]. split; [done|by left]. }
  simpl. intros ne Γ1 st1 HΓ1 He1 (HJ1 & Hne & Hdne & Hw1 & Hmv). lift_facts HΓ1 He1.
  eapply (ok_seq _ _ _ _ (λ _ Γ' st', Inv Γ' (ne :: X) st' ∧ at_buffer Γ' st' p 1 true (env_slots packed caps) ne)).
  { eapply ok_mono; [eapply (assign_ok Γ1 _ st1 p τ 1 (Raw true (env_slots packed caps)) (Ptr env) (Ptr ne)); [done..| | |]|].
    - destruct Hmv as [->|[Hd Hmv]]; [by left|by apply moved_ptr].
    - by right.
    - split; [intros x [= <-]; done|done].
    - simpl. intros _ Γ' st' HΓ' _ [HJ' Hw']. split; [done|]. split; [done|]. split; [done|right]. by eapply lookup_weaken. }
  simpl. intros _ Γ2 st2 HΓ2 He2 [HJ2 Hb]. lift_facts HΓ2 He2.
  eapply ok_mono; [eapply (each_ok Γ2 _ st2 (λ j st, ∀ σ, env_slots packed caps !! j = Some σ → Clean st ne j σ)); [done| |]|].
  - intros j Γ' st' Hj HΓ' _ HJ'. pose proof (env_slots_lookup packed caps j) as Hcap.
    assert (is_Some (env_slots packed caps !! j)) as [σ Hj'].
    { apply lookup_lt_is_Some_2. simpl. rewrite length_map. lia. }
    eapply ok_mono; [eapply (evac_capture_ok Γ' _ st' ne _ j σ); [done|by eapply lookup_weaken|done|apply Hcap; [lia|done]]|].
    simpl. intros _ ?? _ _ [? ?]. split; [done|]. intros σ' ?. by simplify_eq.
  - intros j st3 st4 He H σ Hj. eapply slot_clean_ext; eauto.
  - simpl. intros _ Γ3 st3 HΓ3 He3 [HJ3 Hc]. lift_facts HΓ3 He3. split; [|by eapply at_buffer_clean].
    eapply buffer_drop; [exact HJ3|exact Hb|]. intros _ _ [|j] σ Hj; [left; simpl in Hj; by simplify_eq|right].
    apply Hc; [|done]. apply lookup_lt_Some in Hj. simpl in Hj. rewrite length_map in Hj. lia.
Qed.

Lemma walk_closure_ok Γ X st p c sub packed caps rest l :
  l = [Any 8; Raw true (env_slots packed caps); Obj; Txt] ++ rest →
  length caps = Z.to_nat (CLOSURE_ENV_GET_NUM_CAPTURES packed) → Forall quiet rest → Inv Γ X st → Γ !! p = Some (TObj c sub l) →
  Ok Γ st (walk_closure stack target bnd p) (λ _ Γ' st', Inv Γ' X st' ∧ walked st' p l).
Proof.
  intros -> Hlen Hr HJ HΓ. unfold walk_closure.
  destruct (ptr_slot _ _ _ _ _ 2%nat Obj HJ HΓ eq_refl ltac:(by right)) as (s & Hs & _). eapply ok_run; [by apply load_ptr_at|].
  eapply (ok_seq _ _ _ _ (λ _ Γ' st', Inv Γ' X st' ∧ Clean st' p 2 Obj)).
  { by eapply optional_object_ok. }
  simpl. intros _ Γ1 st1 HΓ1 He1 [HJ1 H1]. lift_facts HΓ1 He1.
  destruct (typed_ptr _ _ _ _ _ 1%nat true (env_slots packed caps) HJ1 HΓ eq_refl) as (env & Hw & Henv). eapply ok_run; [by apply load_ptr_at|].
  eapply (ok_seq _ _ _ _ (λ _ Γ' st', Inv Γ' X st' ∧ Clean st' p 1 (Raw true (env_slots packed caps)))).
  { destruct (Z.eqb_spec env 0) as [->|Hnz].
    - apply ok_ret. split; [done|]. eapply stays_clean; [done|apply dead_null|done].
    - destruct Henv as [[_ ?]|Henv]; [done|]. eapply walk_env_ok; [exact HJ1|exact HΓ|done..]. }
  simpl. intros _ Γ2 st2 HΓ2 He2 [HJ2 H2]. lift_facts HΓ2 He2.
  last_by (string_field_ok Γ2 X st2 p _ 3%nat). split; [done|]. by_slot. left. by eapply Forall_lookup_1.
Qed.

Lemma walk_knowledge_base_ok Γ X st p c sub n cap l :
  l = [Const 4 n; Const 4 cap; Raw true (replicate (Z.to_nat n) Obj ++ anys (cap - n) 8)] → counts n → n <= cap →
  Inv Γ X st → Γ !! p = Some (TObj c sub l) →
  Ok Γ st (walk_knowledge_base stack target bnd p) (λ _ Γ' st', Inv Γ' X st' ∧ walked st' p l).
Proof.
  intros -> Hn Hcap HJ HΓ. unfold walk_knowledge_base. set (fl := replicate (Z.to_nat n) Obj ++ anys (cap - n) 8) in *.
  assert (Hsz : slot_bytes fl = 0 + cap * 8).
  { unfold fl. rewrite slot_bytes_app, slot_bytes_replicate, anys_size, Z2Nat.id by (unfold counts in *; lia). simpl. lia. }
  eapply const_ok; [done|exact HΓ|done|]. eapply const_ok; [done|exact HΓ|done|].
  buffer_by (raw_field_ok Γ X st p _ 2%nat true fl). { intros _ _ _ _. by apply checks_array. }
  rename x into q, H into Hb, H0 into HJ1, Γ' into Γ1, st' into st1.
  eapply buffer_ptr; [exact Hb|]. pose proof Hb as (_ & _ & Hq). destruct (Z.eqb_spec q 0) as [->|Hq0].
  { apply ok_ret. split; [eapply buffer_drop; [done|exact Hb|done]|]. by_slot. }
  destruct Hq as [[_ ?]|Hq]; [done|]. eapply ok_checks; [done|apply checks_size|]. intros sz ->.
  eapply require_ok; [done|exact Hq|lia|].
  eapply ok_mono; [eapply (each_ok Γ1 _ st1 (λ j st, Clean st q j Obj)); [done| |]|].
  - intros j Γ' st' Hj HΓ' _ HJ'. eapply object_field_ok; [done|by eapply lookup_weaken|]. simpl. unfold fl.
    rewrite lookup_app_l by (rewrite length_replicate; lia). apply lookup_replicate_2. lia.
  - intros j st2 st3 He. by apply slot_clean_ext.
  - simpl. intros _ Γ2 st2 HΓ2 He2 [HJ2 Hc]. lift_facts HΓ2 He2. split; [|by_slot].
    eapply buffer_drop; [exact HJ2|exact Hb|]. intros _ _ j σ Hj. apply lookup_app_Some in Hj as [Hj|[_ Hj]].
    + right. apply lookup_replicate in Hj as [-> Hj]. apply Hc. lia.
    + left. by apply lookup_replicate in Hj as [-> _].
Qed.

Definition modules (n : nat) : list slot := concat (replicate n [Txt; Val; Any 8]).

Lemma modules_length n : length (modules n) = (3 * n)%nat.
Proof. unfold modules. induction n as [|n IH]; [done|]. rewrite replicate_S. simpl. rewrite IH. lia. Qed.

Lemma modules_lookup n i j rest : (i < n)%nat → (j < 3)%nat → (modules n ++ rest) !! (3 * i + j)%nat = [Txt; Val; Any 8] !! j.
Proof.
  unfold modules. revert i. induction n as [|n IH]; intros i Hi Hj; [lia|]. rewrite replicate_S. destruct i as [|i].
  - destruct j as [|[|[|j]]]; done || lia.
  - replace (3 * S i + j)%nat with (S (S (S (3 * i + j)))) by lia. apply (IH i); lia.
Qed.

Lemma walk_workspace_ok Γ X st p c sub n m dim stp rest l :
  l = [Const 4 n; Const 4 m; Const 4 dim; Any stp; Raw true (anys dim 8)] ++ modules (Z.to_nat n) ++ rest → counts dim →
  Forall quiet rest → Inv Γ X st → Γ !! p = Some (TObj c sub l) →
  Ok Γ st (walk_workspace stack target bnd p) (λ _ Γ' st', Inv Γ' X st' ∧ walked st' p l).
Proof.
  intros Hl Hdim Hr HJ HΓ. subst l. unfold walk_workspace. eapply const_ok; [done|exact HΓ|done|]. eapply const_ok; [done|exact HΓ|done|].
  quiet_by (raw_quiet_ok Γ X st p _ 4%nat true (anys dim 8)); [apply anys_quiet|by apply checks_array, anys_size|].
  rename H into HJ1, H0 into Hb, Γ' into Γ1, st' into st1.
  eapply ok_mono; [eapply (each_ok Γ1 _ st1 (λ i st, Clean st p (5 + 3 * i) Txt ∧ Clean st p (6 + 3 * i) Val)); [done| |]|].
  - intros j Γ' st' Hj HΓ' He' HJ'. pose proof (lookup_weaken _ _ _ _ HΓ HΓ') as HΓj.
    step_by (string_field_ok Γ' X st' p _ (5 + 3 * j)%nat).
    { change ((modules (Z.to_nat n) ++ rest) !! (3 * j)%nat = Some Txt).
      replace (3 * j)%nat with (3 * j + 0)%nat by lia. rewrite modules_lookup by lia. done. }
    last_by (tagged_slot_ok _ X _ p _ (6 + 3 * j)%nat Val); [|by left|done].
    change ((modules (Z.to_nat n) ++ rest) !! S (3 * j)%nat = Some Val).
    replace (S (3 * j)) with (3 * j + 1)%nat by lia. rewrite modules_lookup by lia. done.
  - intros j st2 st3 He [? ?]. split; by eapply slot_clean_ext.
  - simpl. intros _ Γ2 st2 HΓ2 He2 [HJ2 Hc]. lift_facts HΓ2 He2. split; [done|]. by_slot.
    apply lookup_app_Some in Hi as [Hi|[_ Hi]]; [|left; by eapply Forall_lookup_1].
    pose proof (lookup_lt_Some _ _ _ Hi) as Hlt. rewrite modules_length in Hlt.
    pose proof (Nat.div_mod i 3 ltac:(lia)) as Hd. pose proof (Nat.mod_upper_bound i 3 ltac:(lia)) as Hm.
    destruct (Hc (i / 3)%nat ltac:(lia)) as [H1 H2].
    rewrite Hd, <- (app_nil_r (modules _)), modules_lookup in Hi by lia.
    destruct (i mod 3)%nat as [|[|[|k]]] eqn:Ei; simpl in Hi; [injection Hi as <-; right|injection Hi as <-; right|injection Hi as <-; by left|lia].
    + replace (S (S (S (S (S i))))) with (5 + 3 * (i / 3))%nat by lia. exact H1.
    + replace (S (S (S (S (S i))))) with (6 + 3 * (i / 3))%nat by lia. exact H2.
Qed.

Lemma walk_rational_ok Γ X st p c sub a b big r rest l :
  l = [Any a; Any b; Const 4 big; Any r] ++ (if big =? 0 then [Any 8; Any 8] else [Obj; Obj]) ++ rest →
  Forall quiet rest → Inv Γ X st → Γ !! p = Some (TObj c sub l) →
  Ok Γ st (walk_rational stack target bnd p) (λ _ Γ' st', Inv Γ' X st' ∧ walked st' p l).
Proof.
  intros -> Hr HJ HΓ. unfold walk_rational. eapply const_ok; [done|exact HΓ|done|]. destruct (big =? 0).
  { apply ok_ret. split; [done|]. by_slot. left. by eapply Forall_lookup_1. }
  destruct (ptr_slot _ _ _ _ _ 4%nat Obj HJ HΓ eq_refl ltac:(by right)) as (q & Hq & _). eapply ok_run; [by apply load_ptr_at|].
  step_by (optional_object_ok Γ X st p _ 4%nat q). rename H into HJ1, H0 into H4.
  destruct (ptr_slot _ _ _ _ _ 5%nat Obj HJ1 HΓ eq_refl ltac:(by right)) as (q' & Hq' & _). eapply ok_run; [by apply load_ptr_at|].
  last_by (optional_object_ok _ X _ p _ 5%nat q'). split; [done|]. by_slot. left. by eapply Forall_lookup_1.
Qed.

(** ** Factor graphs *)

Lemma factor_size f : slot_bytes (factor_slots f) = 24 + Z.of_nat (length (f_vars f)) * 4.
Proof. unfold factor_slots. rewrite slot_bytes_app, slot_bytes_consts. simpl. lia. Qed.

Lemma factor_var f j v : f_vars f !! j = Some v → factor_slots f !! (4 + j)%nat = Some (Const 4 v).
Proof. intros Hv. simpl. by rewrite list_lookup_fmap, Hv. Qed.

Lemma edge_messages dims fs total : length (take (Z.to_nat total) (map (λ v, Raw true (anys (dim_of dims v) 8)) (edge_vars fs)))
  = Nat.min (Z.to_nat total) (length (edge_vars fs)).
Proof. by rewrite length_take, length_map. Qed.

Lemma message_lookup dims fs total k v : edge_vars fs !! k = Some v → Z.of_nat k < total →
  message_slots dims fs total !! k = Some (Raw true (anys (dim_of dims v) 8)).
Proof.
  intros Hv Hk. unfold message_slots. cbv zeta. rewrite lookup_app_l.
  - rewrite lookup_take_lt by lia. by rewrite list_lookup_fmap, Hv.
  - rewrite edge_messages. apply lookup_lt_Some in Hv. lia.
Qed.

Lemma message_quiet dims fs total k σ : message_slots dims fs total !! k = Some σ →
  quiet σ ∨ (Z.of_nat k < total ∧ (k < length (edge_vars fs))%nat).
Proof.
  unfold message_slots. cbv zeta. intros [H|[_ H]]%lookup_app_Some.
  - right. apply lookup_lt_Some in H. rewrite edge_messages in H. lia.
  - left. by apply lookup_replicate in H as [-> _].
Qed.

Lemma message_size dims fs total : counts total → slot_bytes (message_slots dims fs total) = 0 + total * 8.
Proof.
  intros Hn. unfold counts in Hn. unfold message_slots. cbv zeta. rewrite slot_bytes_app.
  assert (Hs : ∀ (n : nat) l, slot_bytes (take n (map (λ v, Raw true (anys (dim_of dims v) 8)) l)) =
    Z.of_nat (length (take n (map (λ v, Raw true (anys (dim_of dims v) 8)) l))) * 8).
  { intros n l. revert n. induction l as [|v l IH]; intros [|n]; try done. simpl. rewrite IH. lia. }
  rewrite Hs, anys_size by (unfold counts; rewrite edge_messages; lia). lia.
Qed.

Definition message_clean (dims : list Z) (fs : list factor) (total arr : Z) (j : nat) (st : evac_state) : Prop :=
  ∀ σ, message_slots dims fs total !! j = Some σ → Clean st arr j σ.

Lemma message_clean_ext dims fs total arr j st st' : Ext st st' → message_clean dims fs total arr j st → message_clean dims fs total arr j st'.
Proof. intros He H σ Hσ. eapply slot_clean_ext; eauto. Qed.

Lemma dim_lookup dims v : Z.of_nat (length dims) <=? v = false → 0 <= v →
  (Const 4 <$> dims) !! Z.to_nat v = Some (Const 4 (dim_of dims v)).
Proof.
  intros Hv%Z.leb_gt H0. destruct (lookup_lt_is_Some_2 dims (Z.to_nat v)) as [d Hd]; [lia|].
  unfold dim_of. by rewrite list_lookup_fmap, Hd.
Qed.

Lemma walk_edges_ok dims fs fd total arr vd f X n : Forall counts dims → Forall counts (f_vars fd) →
  ∀ vi (k : nat) Γ st, Inv Γ X st → Γ !! arr = Some (TBuf (message_slots dims fs total)) →
  Γ !! vd = Some (TBuf (Const 4 <$> dims)) → Γ !! f = Some (TBuf (factor_slots fd)) →
  length (f_vars fd) = (vi + n)%nat → Z.of_nat k <= total →
  (∀ j, (j < n)%nat → edge_vars fs !! (k + j)%nat = f_vars fd !! (vi + j)%nat) →
  Ok Γ st (walk_edges stack target bnd arr vd f total (Z.of_nat (length dims)) n vi (Z.of_nat k))
    (λ k' Γ' st', Inv Γ' X st' ∧ k' = Z.min total (Z.of_nat (k + n)) ∧
      ∀ j, (k <= j)%nat → Z.of_nat j < k' → message_clean dims fs total arr j st').
Proof.
  intros Hdims Hvars. induction n as [|n IH]; intros vi k Γ st HJ Harr Hvd Hf Hlen Hk Hev; simpl.
  { apply ok_ret. split; [done|]. split; [lia|]. intros j; lia. }
  destruct (Z.leb_spec total (Z.of_nat k)) as [Hle|Hlt].
  { apply ok_ret. split; [done|]. split; [lia|]. intros j; lia. }
  destruct (lookup_lt_is_Some_2 (f_vars fd) vi) as [v Hv]; [lia|].
  pose proof (Hev 0%nat ltac:(lia)) as Hkv. rewrite !Nat.add_0_r, Hv in Hkv. pose proof (Forall_lookup_1 _ _ _ _ Hvars Hv) as Hv0.
  eapply (const_ok _ Γ X st f _ (4 + vi)); [done|exact Hf|by apply factor_var|].
  destruct (vd =? 0); simpl; [by eapply ok_fail|]. destruct (Z.of_nat (length dims) <=? v) eqn:Hin; [by eapply ok_fail|].
  eapply const_ok; [done|exact Hvd|by apply dim_lookup|]. rewrite Nat2Z.id.
  assert (Hd : counts (dim_of dims v)).
  { unfold dim_of. destruct (dims !! Z.to_nat v) eqn:E; [by eapply Forall_lookup_1 in Hdims|done]. }
  quiet_by (raw_quiet_ok Γ X st arr _ k true (anys (dim_of dims v) 8)); [by apply message_lookup|apply anys_quiet|by apply checks_array, anys_size|].
  rename H into HJ1, H0 into Hb, Γ' into Γ1, st' into st1. replace (Z.of_nat k + 1) with (Z.of_nat (S k)) by lia.
  eapply ok_mono; [eapply (IH (S vi) (S k)); [exact HJ1|done|done|done|lia|lia|]|].
  - intros j Hj. specialize (Hev (S j) ltac:(lia)). by rewrite <- !Nat.add_succ_comm in Hev.
  - simpl. intros k' Γ2 st2 HΓ2 He2 (HJ2 & -> & Hc). lift_facts HΓ2 He2. split; [done|]. split; [lia|].
    intros j Hj Hjk. destruct (decide (j = k)) as [->|]; [|apply Hc; lia].
    intros σ Hσ. rewrite (message_lookup _ _ _ _ v) in Hσ by done. simplify_eq. by eapply at_buffer_clean.
Qed.

Definition factor_ptrs (fs : list factor) (maxf : Z) : list slot :=
  map (λ f, Raw false (factor_slots f)) fs ++ anys (maxf - Z.of_nat (length fs)) 8.

Lemma factor_ptrs_lookup fs maxf i fd : fs !! i = Some fd → factor_ptrs fs maxf !! i = Some (Raw false (factor_slots fd)).
Proof.
  intros Hf. unfold factor_ptrs. rewrite lookup_app_l by (rewrite length_map; by eapply lookup_lt_Some).
  by rewrite list_lookup_fmap, Hf.
Qed.

Lemma factor_ptrs_size fs maxf : Z.of_nat (length fs) <= maxf → slot_bytes (factor_ptrs fs maxf) = 0 + maxf * 8.
Proof.
  intros H. unfold factor_ptrs. rewrite slot_bytes_app, anys_size by (unfold counts; lia).
  assert (Hs : slot_bytes (map (λ f, Raw false (factor_slots f)) fs) = Z.of_nat (length fs) * 8).
  { clear H. induction fs as [|f fs IH]; [done|]. rewrite length_cons. simpl. rewrite IH. lia. }
  rewrite Hs. lia.
Qed.

Lemma edge_vars_split fs i fd j : fs !! i = Some fd → (j < length (f_vars fd))%nat →
  edge_vars fs !! (length (edge_vars (take i fs)) + j)%nat = f_vars fd !! j.
Proof.
  intros Hf Hj. pose proof (take_drop_middle fs i fd Hf) as E. unfold edge_vars.
  assert (Hs : concat (map f_vars fs) = concat (map f_vars (take i fs)) ++ f_vars fd ++ concat (map f_vars (drop (S i) fs))).
  { rewrite <- E at 1. by rewrite map_app, concat_app. }
  rewrite Hs, lookup_app_r, lookup_app_l by lia. f_equal. lia.
Qed.

Lemma edge_vars_take fs i fd : fs !! i = Some fd →
  length (edge_vars (take (S i) fs)) = (length (edge_vars (take i fs)) + length (f_vars fd))%nat.
Proof.
  intros Hf. unfold edge_vars. rewrite (take_S_r _ _ _ Hf), map_app, concat_app, length_app. simpl. by rewrite app_nil_r.
Qed.

Lemma walk_factor_edges_ok dims fs maxf total arr vd factors X n : Forall counts dims →
  Forall (λ f, counts (f_cpt f) ∧ Forall counts (f_vars f)) fs → counts total →
  ∀ fi Γ st (k : Z), Inv Γ X st → Γ !! arr = Some (TBuf (message_slots dims fs total)) →
  Γ !! vd = Some (TBuf (Const 4 <$> dims)) → Γ !! factors = Some (TBuf (factor_ptrs fs maxf)) →
  length fs = (fi + n)%nat → k = Z.min total (Z.of_nat (length (edge_vars (take fi fs)))) →
  (∀ j, Z.of_nat j < k → message_clean dims fs total arr j st) →
  Ok Γ st (walk_factor_edges stack target bnd arr vd factors total (Z.of_nat (length dims)) n fi k)
    (λ _ Γ' st', Inv Γ' X st' ∧ ∀ j, Z.of_nat j < total → (j < length (edge_vars fs))%nat → message_clean dims fs total arr j st').
Proof.
  intros Hdims Hfs Htot. induction n as [|n IH]; intros fi Γ st k HJ Harr Hvd Hfac Hlen Hk Hc; simpl.
  { apply ok_ret. split; [done|]. intros j Hj Hj'. rewrite take_ge in Hk by lia. apply Hc. lia. }
  destruct (Z.leb_spec total k) as [Hle|Hlt].
  { apply ok_ret. split; [done|]. intros j Hj Hj'. apply Hc. lia. }
  rewrite (proj2 (Z.eqb_neq factors 0)) by (by eapply typed_nonnull).
  destruct (lookup_lt_is_Some_2 fs fi) as [fd Hfd]; [lia|].
  destruct (typed_ptr _ _ _ _ _ fi false (factor_slots fd) HJ Hfac (factor_ptrs_lookup _ _ _ _ Hfd)) as (f & Hw & [[? _]|Hf]); [done|].
  eapply ok_run; [by apply load_ptr_at|]. rewrite (proj2 (Z.eqb_neq f 0)) by (by eapply typed_nonnull).
  pose proof (factor_size fd) as Hsz.
  eapply require_ok; [done|exact Hf|lia|]. eapply const_ok; [done|exact Hf|done|].
  eapply ok_checks; [done|apply checks_size|]. intros sz ->. eapply require_ok; [done|exact Hf|lia|]. rewrite Nat2Z.id.
  destruct (Forall_lookup_1 _ _ _ _ Hfs Hfd) as [_ Hvars].
  assert (Hk0 : k = Z.of_nat (length (edge_vars (take fi fs)))) by lia.
  rewrite Hk0. eapply ok_seq; [eapply (walk_edges_ok dims fs fd); try done; [lia|]|].
  { intros j Hj. rewrite (edge_vars_split _ _ fd) by (done || lia). done. }
  simpl. intros k' Γ1 st1 HΓ1 He1 (HJ1 & Hk' & Hc1). lift_facts HΓ1 He1.
  eapply IH; [done..|lia|rewrite (edge_vars_take _ _ _ Hfd); lia|]. intros j Hj.
  destruct (decide (Z.of_nat j < k)) as [Hjk|Hjk]; [eapply message_clean_ext; eauto|apply Hc1; lia].
Qed.

Lemma walk_factor_ok Γ X st factors fs maxf i fd : Inv Γ X st → Γ !! factors = Some (TBuf (factor_ptrs fs maxf)) →
  fs !! i = Some fd → counts (f_cpt fd) →
  Ok Γ st (walk_factor stack target bnd factors i) (λ _ Γ' st', Inv Γ' X st' ∧ Clean st' factors i (Raw false (factor_slots fd))).
Proof.
  intros HJ Hfac Hfd Hcpt. unfold walk_factor. pose proof (factor_ptrs_lookup _ maxf _ _ Hfd) as Hslot. pose proof (factor_size fd) as Hsz.
  destruct (typed_ptr _ _ _ _ _ i false (factor_slots fd) HJ Hfac Hslot) as (f & Hw & [[? _]|Hf]); [done|].
  eapply ok_run; [by apply load_ptr_at|]. rewrite (proj2 (Z.eqb_neq f 0)) by (by eapply typed_nonnull).
  eapply require_ok; [done|exact Hf|lia|]. eapply const_ok; [done|exact Hf|done|]. eapply ok_run; [by eapply inner_run|].
  eapply (ok_seq _ _ _ _ (λ f' Γ' st', Inv Γ' (f' :: X) st' ∧ at_buffer Γ' st' factors i false (factor_slots fd) f')).
  { destruct (dead f) eqn:Hd.
    - eapply ok_checks; [done|apply checks_size|]. intros n ->. rewrite <- Hsz. eapply ok_seq; [by eapply evac_raw_ok|].
      intros f' Γ' st' HΓ' He (HJ' & Hf' & Hd' & Hm & Hk). eapply lookup_weaken in Hfac; [|exact HΓ'].
      eapply ok_seq; [eapply (assign_ptr_ok Γ' _ st' st factors _ i _ f f'); try done; by right|].
      simpl. intros _ Γ'' st'' HΓ'' _ (HJ'' & Hw'' & _). apply ok_ret. split; [done|]. split; [done|]. split; [done|right].
      by eapply lookup_weaken.
    - apply ok_ret. split; [by apply J_weaken|]. split; [done|]. split; [done|by right]. }
  simpl. intros f' Γ1 st1 HΓ1 He1 [HJ1 Hb]. lift_facts HΓ1 He1. destruct (buffer_nonnull _ _ _ _ _ _ _ HJ1 Hb) as [_ Hf'].
  eapply const_ok; [done|exact Hf'|done|].
  quiet_by (raw_quiet_ok Γ1 _ st1 f' _ 2%nat true (anys (f_cpt fd) 8)); [apply anys_quiet|by apply checks_array, anys_size|].
  eapply ok_mono; [eapply (raw_quiet_ok _ _ _ f' _ 3%nat true); try done; [apply anys_quiet|apply checks_array, anys_size; unfold counts; lia]|].
  simpl. intros _ Γ3 st3 HΓ3 He3 [HJ3 [q3 H3]]. lift_facts HΓ3 He3. split; [|by eapply at_buffer_clean].
  eapply buffer_drop; [exact HJ3|exact Hb|]. intros _ _ [|[|[|[|j]]]] σ Hj; simpl in Hj; try (injection Hj as <-).
  - by left.
  - by left.
  - right. by eapply at_buffer_clean.
  - right. by eapply at_buffer_clean.
  - left. rewrite list_lookup_fmap in Hj. by apply fmap_Some in Hj as (? & _ & ->).
Qed.

(** A factor graph whose variable tables and factors are in place. *)
Definition graph_slots (dims : list Z) (fs : list factor) (maxf total a b : Z) : list slot :=
  [Const 4 (Z.of_nat (length dims)); Const 4 (Z.of_nat (length fs)); Const 4 maxf; Any a;
   Raw false (map (λ d, Raw true (anys d 8)) dims); Raw false (Const 4 <$> dims); Raw false (factor_ptrs fs maxf);
   Raw true (message_slots dims fs total); Raw true (message_slots dims fs total); Const 4 total; Any b;
   Raw true (anys (Z.of_nat (length dims)) 1)].

Lemma msg_array_ok Γ X st p c sub dims fs maxf total a b i vd factors : Inv Γ X st →
  Γ !! p = Some (TObj c sub (graph_slots dims fs maxf total a b)) → i = 7%nat ∨ i = 8%nat →
  at_buffer Γ st p 5 false (Const 4 <$> dims) vd → at_buffer Γ st p 6 false (factor_ptrs fs maxf) factors →
  Forall counts dims → Forall (λ f, counts (f_cpt f) ∧ Forall counts (f_vars f)) fs → counts total →
  Ok Γ st (evac_msg_array stack target bnd p i total (Z.of_nat (length dims)) (Z.of_nat (length fs)))
    (λ _ Γ' st', Inv Γ' X st' ∧ Clean st' p i (Raw true (message_slots dims fs total))).
Proof.
  intros HJ HΓ Hi Hvd Hfac Hdims Hfs Htot. unfold evac_msg_array.
  assert (Hσ : slots (TObj c sub (graph_slots dims fs maxf total a b)) !! i = Some (Raw true (message_slots dims fs total))).
  { by destruct Hi as [-> | ->]. }
  destruct (typed_ptr _ _ _ _ _ i _ _ HJ HΓ Hσ) as (q & Hq & Hq'). eapply ok_run; [by apply load_ptr_at|].
  destruct (Z.eqb_spec q 0) as [->|Hq0].
  { apply ok_ret. split; [done|]. eapply stays_clean; [done|apply dead_null|done]. }
  pose proof (message_size dims fs total Htot) as Hsz.
  eapply ok_seq; [eapply (raw_field_ok Γ X st p _ i true); [done|exact HΓ|done|intros; by apply checks_array]|].
  simpl. intros _ Γ1 st1 HΓ1 He1 (arr & Hb & HJ1). pose proof (at_word_ext _ _ _ _ _ He1 Hq) as (w1 & Hw1 & Hs1). lift_facts HΓ1 He1.
  eapply buffer_ptr; [exact Hb|]. eapply ok_checks; [done|apply checks_size|]. intros sz ->.
  destruct (decide (arr = 0)) as [->|Ha0].
  { exfalso. destruct Hb as ((b1 & E1 & Hw) & _ & [[_ _]|H]); [|by apply (typed_nonnull _ _ _ _ _ HJ1) in H].
    destruct Hw1 as (b1' & E1' & Hw1). simplify_eq. destruct Hs1 as [[= ?]|(_ & _ & e & He & Hz)]; [done|].
    destruct (fwd_alloc _ _ _ _ _ HJ1 He) as [b2 E2]. rewrite Hz in E2.
    destruct (b_new _ (j_base _ _ _ HJ1) _ _ E2) as [_ [Hs|Hs]].
    - apply (b_span_next _ (j_base _ _ _ HJ1)) in Hs. pose proof next_pos. lia.
    - by rewrite null_free in Hs. }
  destruct (buffer_nonnull _ _ _ _ _ _ _ HJ1 Hvd) as [_ Hvd1], (buffer_nonnull _ _ _ _ _ _ _ HJ1 Hfac) as [_ Hfac1].
  pose proof Hb as (_ & _ & [[_ ?]|Harr]); [done|]. eapply require_ok; [done|exact Harr|lia|].
  eapply buffer_ptr; [exact Hvd|]. eapply buffer_ptr; [exact Hfac|]. rewrite Nat2Z.id.
  eapply ok_mono; [eapply (walk_factor_edges_ok dims fs maxf); try done; [rewrite take_0; unfold counts in Htot; simpl; lia|intros j; lia]|].
  simpl. intros _ Γ2 st2 HΓ2 He2 [HJ2 Hc]. lift_facts HΓ2 He2. split; [|by eapply at_buffer_clean].
  eapply buffer_drop; [exact HJ2|exact Hb|]. intros _ _ j σ Hj. destruct (message_quiet _ _ _ _ _ Hj) as [?|[? ?]]; [by left|right].
  by apply Hc.
Qed.

Lemma walk_beliefs_ok Γ X st dims beliefs vd : Inv Γ X st → Γ !! beliefs = Some (TBuf (map (λ d, Raw true (anys d 8)) dims)) →
  Γ !! vd = Some (TBuf (Const 4 <$> dims)) → Forall counts dims →
  Ok Γ st (each (length dims) 0 (λ i, dim ← load_num vd i; raw_field stack target bnd beliefs i (evac_size dim 8 0)))
    (λ _ Γ' st', Inv Γ' X st' ∧ ∀ j, (0 <= j < 0 + length dims)%nat → ∀ d, dims !! j = Some d → Clean st' beliefs j (Raw true (anys d 8))).
Proof.
  intros HJ Hb Hvd Hdims. apply (each_ok Γ X st (λ j st, ∀ d, dims !! j = Some d → Clean st beliefs j (Raw true (anys d 8)))); [done| |].
  - intros j Γ' st' Hj HΓ' _ HJ'. destruct (lookup_lt_is_Some_2 dims j ltac:(lia)) as [d Hd].
    pose proof (Forall_lookup_1 _ _ _ _ Hdims Hd) as Hd0. simpl in Hd0.
    eapply const_ok; [done|by eapply lookup_weaken|by simpl; rewrite list_lookup_fmap, Hd|].
    eapply ok_mono; [eapply (raw_quiet_ok Γ' X st' beliefs _ j true (anys d 8)); [done|by eapply lookup_weaken| |apply anys_quiet|by apply checks_array, anys_size]|].
    + simpl. by rewrite list_lookup_fmap, Hd.
    + simpl. intros _ Γ2 st2 _ _ [? [q Hq]]. split; [done|]. intros d' ?. simplify_eq. by eapply at_buffer_clean.
  - intros j st1 st2 He H d Hd. eapply slot_clean_ext; eauto.
Qed.

Lemma walk_factors_ok Γ X st factors fs maxf : Inv Γ X st → Γ !! factors = Some (TBuf (factor_ptrs fs maxf)) →
  Forall (λ f, counts (f_cpt f) ∧ Forall counts (f_vars f)) fs →
  Ok Γ st (each (length fs) 0 (walk_factor stack target bnd factors))
    (λ _ Γ' st', Inv Γ' X st' ∧ ∀ j, (0 <= j < 0 + length fs)%nat → ∀ f, fs !! j = Some f → Clean st' factors j (Raw false (factor_slots f))).
Proof.
  intros HJ Hf Hfs. apply (each_ok Γ X st (λ j st, ∀ f, fs !! j = Some f → Clean st factors j (Raw false (factor_slots f)))); [done| |].
  - intros j Γ' st' Hj HΓ' _ HJ'. destruct (lookup_lt_is_Some_2 fs j ltac:(lia)) as [f Hfj].
    destruct (Forall_lookup_1 _ _ _ _ Hfs Hfj) as [Hcpt _].
    eapply ok_mono; [eapply (walk_factor_ok Γ' X st' factors fs maxf j f); [done|by eapply lookup_weaken|done|done]|].
    simpl. intros _ Γ2 st2 _ _ [? ?]. split; [done|]. intros f' ?. by simplify_eq.
  - intros j st1 st2 He H f Hfj. eapply slot_clean_ext; eauto.
Qed.

Lemma walk_factor_graph_ok Γ X st p c sub dims fs maxf total a b l : l = graph_slots dims fs maxf total a b →
  Z.of_nat (length fs) <= maxf → Forall counts dims → Forall (λ f, counts (f_cpt f) ∧ Forall counts (f_vars f)) fs → counts total →
  Inv Γ X st → Γ !! p = Some (TObj c sub l) →
  Ok Γ st (walk_factor_graph stack target bnd p) (λ _ Γ' st', Inv Γ' X st' ∧ walked st' p l).
Proof.
  intros -> Hmax Hdims Hfs Htot HJ HΓ. unfold walk_factor_graph. do 4 (eapply const_ok; [done|exact HΓ|done|]).
  assert (Hds : slot_bytes (Const 4 <$> dims) = 0 + Z.of_nat (length dims) * 4) by (by rewrite slot_bytes_consts).
  assert (Hbs : slot_bytes (map (λ d, Raw true (anys d 8)) dims) = 0 + Z.of_nat (length dims) * 8).
  { clear. induction dims as [|d dims IH]; [done|]. rewrite length_cons. simpl in *. rewrite IH. lia. }
  quiet_by (raw_quiet_ok Γ X st p _ 5%nat false); [by apply Forall_fmap, Forall_true|by apply checks_array|]. rename x into vd, H0 into Hvd.
  buffer_by (raw_field_ok _ X _ p _ 4%nat false). { intros _ _ _ _. by apply checks_array. }
  rename x into beliefs, H0 into Hb, H1 into HJ2.
  eapply buffer_ptr; [exact Hb|]. eapply buffer_ptr; [exact Hvd|].
  destruct (buffer_nonnull _ _ _ _ _ _ _ HJ2 Hvd) as [Hvd0 Hvd1], (buffer_nonnull _ _ _ _ _ _ _ HJ2 Hb) as [Hb0 Hb1].
  eapply (ok_seq _ _ _ _ (λ _ Γ' st', Inv Γ' X st')).
  { rewrite (proj2 (Z.eqb_neq beliefs 0) Hb0), (proj2 (Z.eqb_neq vd 0) Hvd0). simpl.
    eapply ok_checks; [done|apply checks_size|]. intros sz ->. eapply require_ok; [done|exact Hb1|lia|].
    eapply ok_checks; [done|apply checks_size|]. intros sz ->. eapply require_ok; [done|exact Hvd1|lia|]. rewrite Nat2Z.id.
    eapply ok_mono; [by eapply walk_beliefs_ok|]. simpl. intros _ Γ3 st3 HΓ3 He3 [HJ3 Hc]. lift_facts HΓ3 He3.
    eapply buffer_drop; [exact HJ3|exact Hb|]. intros _ _ j σ Hj. rewrite list_lookup_fmap in Hj.
    apply fmap_Some in Hj as (d & Hd & ->). right. apply Hc; [|done]. apply lookup_lt_Some in Hd. lia. }
  simpl. intros _ Γ3 st3 HΓ3 He3 HJ3. lift_facts HΓ3 He3.
  quiet_by (raw_quiet_ok Γ3 X st3 p _ 11%nat true); [apply anys_quiet|apply checks_array, anys_size; unfold counts; lia|].
  buffer_by (raw_field_ok _ X _ p _ 6%nat false). { intros _ _ _ _. by apply checks_array, factor_ptrs_size. }
  rename x0 into factors, H1 into Hfac, H2 into HJ4, Γ'2 into Γ4, st'2 into st4.
  eapply buffer_ptr; [exact Hfac|]. destruct (buffer_nonnull _ _ _ _ _ _ _ HJ4 Hfac) as [Hfac0 Hfac1].
  eapply (ok_seq _ _ _ _ (λ _ Γ' st', Inv Γ' X st')).
  { rewrite (proj2 (Z.eqb_neq factors 0) Hfac0). eapply ok_checks; [done|apply checks_size|]. intros sz ->.
    eapply require_ok; [done|exact Hfac1|rewrite factor_ptrs_size by done; lia|]. rewrite Nat2Z.id.
    eapply ok_mono; [by eapply walk_factors_ok|]. simpl. intros _ Γ5 st5 HΓ5 He5 [HJ5 Hc]. lift_facts HΓ5 He5.
    eapply buffer_drop; [exact HJ5|exact Hfac|]. intros _ _ j σ [Hj|[_ Hj]]%lookup_app_Some.
    - rewrite list_lookup_fmap in Hj. apply fmap_Some in Hj as (f & Hf & ->). right. apply Hc; [|done]. apply lookup_lt_Some in Hf. lia.
    - left. by apply lookup_replicate in Hj as [-> _]. }
  simpl. intros _ Γ5 st5 HΓ5 He5 HJ5. lift_facts HΓ5 He5.
  step_by (msg_array_ok Γ5 X st5 p c sub dims fs maxf total a b 7 vd factors); [by left|].
  last_by (msg_array_ok _ X _ p c sub dims fs maxf total a b 8 vd factors); [by right|]. split; [done|]. unfold graph_slots. by_slot.
Qed.

(** ** The worklist *)

Lemma walk_object_ok Γ X st p c sub k l : Inv Γ X st → Γ !! p = Some (TObj c sub l) → layout sub k l →
  Ok Γ st (walk_object stack target bnd p k) (λ _ Γ' st', Inv Γ' X st' ∧ walked st' p l).
Proof.
  intros HJ HΓ Hl. destruct Hl.
  - by eapply walk_cons_ok.
  - eapply walk_vector_ok; [by left|done..|exact HΓ].
  - eapply walk_vector_ok; [by right|done..|exact HΓ].
  - subst. by eapply walk_hash_ok.
  - by eapply (walk_tensor_ok Γ X st p c sub rank total rest false).
  - eapply (walk_tensor_ok Γ X st p c sub rank total [Const 8 64] true); try done. by repeat constructor.
  - by eapply walk_exception_ok.
  - by eapply walk_closure_ok.
  - by eapply walk_substitution_ok.
  - by eapply walk_fact_ok.
  - by eapply walk_knowledge_base_ok.
  - by eapply walk_workspace_ok.
  - by eapply walk_promise_ok.
  - by eapply walk_primitive_ok.
  - by eapply walk_rational_ok.
  - by eapply walk_taylor_ok.
  - subst. eapply walk_factor_graph_ok; try done. 
  - apply ok_ret. split; [done|by apply walked_quiet].
Qed.

Lemma pop_ok Γ X st : Inv Γ X st →
  match worklist st with
  | [] => pop_work st = Done None st
  | (p, k) :: l => ∃ st', pop_work st = Done (Some (p, k)) st' ∧ Inv Γ (p :: X) st' ∧ Ext st st' ∧
      (S (@measure stack bnd h0 st') = @measure stack bnd h0 st)%nat
  end.
Proof.
  intros HJ. destruct (worklist st) as [|[p k] l] eqn:Hw; [by unfold pop_work; rewrite Hw|].
  unfold pop_work. rewrite Hw. eexists. split; [done|]. split; [|split].
  - destruct HJ as [HB Ht Hg Hl Hpr Hf Hco Hin Hcl Hwk]. destruct HB. split; try done.
    + simpl. intros q τ b i σ w Hq E Hd HX HWl Hσ Hi. apply not_elem_of_cons in HX as [HX1 HX2].
      eapply Hcl; try done. rewrite Hw. simpl. by apply not_elem_of_cons.
    + intros q k' Hq. apply Hwk. rewrite Hw. by right.
  - split; simpl; [|done|unfold measure; rewrite Hw; simpl; lia].
    intros q b E. exists b. repeat split; try done. apply Forall_Forall2_diag, Forall_true. intros; by left.
  - unfold measure. by rewrite Hw.
Qed.

Lemma evac_walk_ok fuel Γ X st : Inv Γ X st → (@measure stack bnd h0 st <= fuel)%nat →
  Ok Γ st (evac_walk stack target bnd fuel) (λ _ Γ' st', Inv Γ' X st' ∧ worklist st' = []).
Proof.
  revert Γ st. induction fuel as [|fuel IH]; intros Γ st HJ Hm; simpl; pose proof (pop_ok Γ X st HJ) as Hp.
  - destruct (worklist st) as [|[p k] l] eqn:Hw; [|unfold measure in Hm; rewrite Hw in Hm; simpl in Hm; lia].
    eapply ok_run; [exact Hp|]. by apply ok_ret.
  - destruct (worklist st) as [|[p k] l] eqn:Hw; [eapply ok_run; [exact Hp|]; by apply ok_ret|].
    destruct Hp as (st1 & Hp & HJ1 & He1 & Hm1).
    destruct (j_work _ _ _ HJ p k) as (c & sub & sl & HΓ & Hl); [rewrite Hw; by left|].
    assert (Hrest : Ok Γ st1 (walk_object stack target bnd p k ;; evac_walk stack target bnd fuel)
      (λ _ Γ' st', Inv Γ' X st' ∧ worklist st' = [])).
    { eapply ok_seq; [by eapply walk_object_ok|]. simpl. intros _ Γ2 st2 HΓ2 He2 [HJ2 Hw2]. eapply lookup_weaken in HΓ; [|exact HΓ2].
      apply IH; [|pose proof (e_measure _ _ He2); lia]. eapply J_drop; [exact HJ2|]. intros τ i σ Hτ Hσ. simplify_eq.
      destruct (Hw2 i σ Hσ) as [Hq|]; [|done]. destruct (typed_at _ _ _ _ _ _ _ HJ2 HΓ Hσ) as (w & Hwd & _).
      exists w. split; [done|by apply quiet_clean]. }
    unfold ok in Hrest |- *. unfold mbind at 1, evac_bind at 1. rewrite Hp.
    destruct ((walk_object stack target bnd p k ;; evac_walk stack target bnd fuel) st1) as [u st2| |]; [|done..].
    destruct Hrest as (Γ2 & HΓ2 & He2 & HQ). exists Γ2. split; [done|]. split; [by eapply ext_trans|done].
Qed.

Definition value_word (Γ : typing) (w : word) : Prop := ∃ t f d, w = Tag t f d ∧ value_ok extern Γ t d.

Lemma evac_values_ok Γ X st vs : Inv Γ X st → Forall (value_word Γ) vs →
  Ok Γ st (evac_values stack target bnd vs) (λ out Γ' st', Inv Γ' X st' ∧ Forall2 (step (fwd st')) vs out ∧
    Forall (value_word Γ') out ∧ Forall (cleanw Val) out).
Proof.
  revert Γ st. induction vs as [|v vs IH]; intros Γ st HJ Hv; simpl.
  { apply ok_ret. split; [done|]. repeat split; constructor. }
  apply Forall_cons_1 in Hv as [(t & f & d & -> & Hv) Hvs]. eapply ok_seq; [by eapply evac_value_ok|].
  simpl. intros w1 Γ1 st1 HΓ1 He1 (HJ1 & d1 & -> & Hs1 & Hv1 & Hd1 & _).
  eapply ok_seq; [apply IH; [exact HJ1|]|].
  { eapply list.Forall_impl; [exact Hvs|]. intros w (t' & f' & d' & -> & Hv'). exists t', f', d'. split; [done|]. by eapply value_ok_weaken. }
  simpl. intros out Γ2 st2 HΓ2 He2 (HJ2 & Hs2 & Hv2 & Hc2). apply ok_ret. split; [done|]. split.
  { constructor; [|done]. eapply wstep_mono; [apply He2|done]. }
  split; (constructor; [|done]).
  - exists t, f, d1. split; [done|]. by eapply value_ok_weaken.
  - split; [|done]. intros x. simpl. destruct (region_value_carries_pointer t); naive_solver.
Qed.
End walk.
