(* ===== verification/Regions.v ===== *)
(** * Regions: the region stack (lib/core/runtime_regions.cpp)

    A region has an arena of its own and dies with the end of a [with-region], a
    closed handle, or an unwinding.  This file has the stack of regions, the
    redirection of allocation into the innermost one, the transaction that promotes
    values out of it, the write barrier, the handles and the unwinding. *)

From S2P Require Export Evac.
Local Open Scope Z_scope.

Definition MAX_REGION_DEPTH : nat := 64.
Definition ESHKOL_MAX_REGION_HANDLES : nat := MAX_REGION_DEPTH.
Definition RH_SLOT_BITS : Z := 8.
Definition RH_SLOT_MASK : Z := 2 ^ RH_SLOT_BITS - 1.

Definition ESHKOL_RH_OK : Z := 0.
Definition ESHKOL_RH_ERR_STALE : Z := 1.
Definition ESHKOL_RH_ERR_NOT_LIVE : Z := 2.
Definition ESHKOL_RH_ERR_TOO_MANY : Z := 3.
Definition ESHKOL_RH_ERR_DEPTH : Z := 4.
Definition ESHKOL_RH_ERR_CREATE : Z := 5.

Record handle_slot := RegionHandleSlot {
  h_region : option Z;
  generation : Z;
  region_depth : nat;
  open_seq : Z;
  reclaim : bool;
  in_use : bool
}.
Definition unused_slot : handle_slot := RegionHandleSlot None 0 0 0 false false.

(** [global_arena] is the shared allocation slot, [allocation_domain] its mirror in
    the memory context of the thread; [unborn] bounds the arenas made so far. *)
Record memory := Memory {
  m_heap : heap;
  m_next : Z;
  m_budget : option nat;
  region_stack : list region;
  global_arena : Z;
  allocation_domain : option Z;
  thread_local_arena : option Z;
  shared_root_arena : Z;
  parallel_depth : Z;
  saved_arena_at_parallel : Z;
  worker : bool;
  region_handles : list handle_slot;
  region_handle_seq : Z;
  unborn : Z
}.

Definition set_heap (m : memory) (h : heap) (n : Z) (b : option nat) : memory :=
  Memory h n b (region_stack m) (global_arena m) (allocation_domain m) (thread_local_arena m) (shared_root_arena m)
    (parallel_depth m) (saved_arena_at_parallel m) (worker m) (region_handles m) (region_handle_seq m) (unborn m).
Definition set_stack (m : memory) (s : list region) : memory :=
  Memory (m_heap m) (m_next m) (m_budget m) s (global_arena m) (allocation_domain m) (thread_local_arena m) (shared_root_arena m)
    (parallel_depth m) (saved_arena_at_parallel m) (worker m) (region_handles m) (region_handle_seq m) (unborn m).
Definition set_slot (m : memory) (g : Z) (d : option Z) : memory :=
  Memory (m_heap m) (m_next m) (m_budget m) (region_stack m) g d (thread_local_arena m) (shared_root_arena m)
    (parallel_depth m) (saved_arena_at_parallel m) (worker m) (region_handles m) (region_handle_seq m) (unborn m).
Definition set_parallel (m : memory) (g : Z) (n s : Z) : memory :=
  Memory (m_heap m) (m_next m) (m_budget m) (region_stack m) g (allocation_domain m) (thread_local_arena m) (shared_root_arena m)
    n s (worker m) (region_handles m) (region_handle_seq m) (unborn m).
Definition set_handles (m : memory) (l : list handle_slot) (q : Z) : memory :=
  Memory (m_heap m) (m_next m) (m_budget m) (region_stack m) (global_arena m) (allocation_domain m) (thread_local_arena m)
    (shared_root_arena m) (parallel_depth m) (saved_arena_at_parallel m) (worker m) l q (unborn m).
Definition set_unborn (m : memory) (u : Z) : memory :=
  Memory (m_heap m) (m_next m) (m_budget m) (region_stack m) (global_arena m) (allocation_domain m) (thread_local_arena m)
    (shared_root_arena m) (parallel_depth m) (saved_arena_at_parallel m) (worker m) (region_handles m) (region_handle_seq m) u.

Definition depth (m : memory) : nat := length (region_stack m).
Definition region_current (m : memory) : option region := list.last (region_stack m).
Definition get_global_arena (m : memory) : Z := default (global_arena m) (thread_local_arena m).
Definition eshkol_current_arena (m : memory) : Z :=
  if parallel_depth m =? 0 then default (global_arena m) (allocation_domain m) else global_arena m.

Definition with_pinned (r : region) (b : bool) : region :=
  Region (r_id r) (r_arena r) (escape_base r) (fwd_map r) (fwd_target r) (escape_count r) (entry_saved_arena r) b (handle_owned r).
Definition with_saved (r : region) (a : option Z) : region :=
  Region (r_id r) (r_arena r) (escape_base r) (fwd_map r) (fwd_target r) (escape_count r) a (pinned r) (handle_owned r).
Definition with_owned (r : region) : region :=
  Region (r_id r) (r_arena r) (escape_base r) (fwd_map r) (fwd_target r) (escape_count r) (entry_saved_arena r) (pinned r) true.
Definition with_base (r : region) (a : Z) : region :=
  Region (r_id r) (r_arena r) a (fwd_map r) (fwd_target r) (escape_count r) (entry_saved_arena r) (pinned r) (handle_owned r).
Definition with_forwards (r : region) (f : fwd_map_t) (t n : Z) : region :=
  Region (r_id r) (r_arena r) (escape_base r) f t n (entry_saved_arena r) (pinned r) (handle_owned r).

(** [f] on the innermost region. *)
Definition on_current (f : region → region) (l : list region) : list region := alter f (pred (length l)) l.

(** ** Making, pushing and popping *)

(** [None] when [malloc] fails. *)
Definition region_create (ok : bool) (m : memory) : option (region * memory) :=
  if ok then Some (Region (unborn m) (unborn m) 0 ∅ 0 0 None false false, set_unborn m (unborn m + 1)) else None.

Definition region_push (r : region) (m : memory) : memory :=
  if (MAX_REGION_DEPTH <=? depth m)%nat then m
  else
    let base := match region_current m with Some parent => r_arena parent | None => get_global_arena m end in
    set_stack m (region_stack m ++ [with_base r base]).

(** The blocks of the arena [a] are freed; they are handed to [target]. *)
Definition arena_destroy (h : heap) (a : Z) : heap := filter (λ kv, arena_of kv.2 ≠ a) h.
Definition arena_adopt_blocks (h : heap) (target a : Z) : heap :=
  (λ b, if arena_of b =? a then Block (header b) target (words b) else b) <$> h.

Definition region_destroy (r : region) (m : memory) : memory :=
  if pinned r then
    let target := escape_base r in
    let pin p := if r_arena p =? target then with_pinned p true else p in
    let h := if target =? r_arena r then arena_destroy (m_heap m) (r_arena r) else arena_adopt_blocks (m_heap m) target (r_arena r) in
    set_heap (set_stack m (on_current pin (region_stack m))) h (m_next m) (m_budget m)
  else set_heap m (arena_destroy (m_heap m) (r_arena r)) (m_next m) (m_budget m).

Definition region_pop (m : memory) : memory :=
  match region_current m with
  | None => m
  | Some r => region_destroy r (set_stack m (take (pred (depth m)) (region_stack m)))
  end.

Definition eshkol_region_pin_all (m : memory) : memory := set_stack m (map (λ r, with_pinned r true) (region_stack m)).
Definition eshkol_region_any_handle_owned_open (m : memory) : bool := existsb handle_owned (region_stack m).

(** ** The allocation slot *)

(** [f] on the region [id], where it is on the stack. *)
Definition on_region (id : Z) (f : region → region) (l : list region) : list region := map (λ r, if r_id r =? id then f r else r) l.

(** [None] is [REGION_NO_HIJACK]. *)
Definition eshkol_region_enter (r : region) (m : memory) : option Z * memory :=
  let note saved := on_region (r_id r) (λ r, with_saved r saved) (region_stack m) in
  if negb (parallel_depth m =? 0) || worker m then (None, set_stack m (note None))
  else (Some (global_arena m), set_slot (set_stack m (note (Some (global_arena m)))) (r_arena r) (Some (r_arena r))).

Definition eshkol_region_leave (saved : option Z) (m : memory) : memory :=
  match saved with None => m | Some a => set_slot m a (Some a) end.

Definition eshkol_parallel_scope_begin (m : memory) : memory :=
  if parallel_depth m =? 0 then set_parallel m (shared_root_arena m) 1 (global_arena m)
  else set_parallel m (global_arena m) (parallel_depth m + 1) (saved_arena_at_parallel m).
Definition eshkol_parallel_scope_end (m : memory) : memory :=
  if parallel_depth m =? 1 then set_parallel m (saved_arena_at_parallel m) 0 0
  else set_parallel m (global_arena m) (parallel_depth m - 1) (saved_arena_at_parallel m).

(** ** Promotion *)

Definition region_escape_target (r : region) : Z := escape_base r.

(** The copies of a transaction that failed are wiped. *)
Definition zero_word (w : word) : word := match w with Tag _ _ _ => Tag 0 0 0 | Ptr _ => Ptr 0 | Home _ => Ptr 0 | Num k _ => Num k 0 end.
Definition wipe (b : block) : block := Block None (arena_of b) (map zero_word (words b)).
Definition wipe_all (l : list Z) (h : heap) : heap := foldr (λ p h, alter wipe p h) h l.

Fixpoint evac_needed (h : heap) (stack : list region) (bnd : Z) (values : list word) : option (bool * Z) :=
  match values with
  | [] => None
  | Tag t _ p :: l =>
      if region_value_carries_pointer t && negb (p =? 0) && (bnd <? region_index_owning h stack p)
      then Some (region_linear_resource t, p) else evac_needed h stack bnd l
  | _ :: l => evac_needed h stack bnd l
  end.

(** The transaction: the roots, then all they reach. *)
Definition evac_run (stack : list region) (target bnd : Z) (fuel : nat) (values : list word) : EvacM (list word) :=
  roots ← evac_values stack target bnd values; evac_walk stack target bnd fuel ;; mret roots.

Definition reusable (r : region) (target : Z) : fwd_map_t := if fwd_target r =? target then fwd_map r else ∅.

(** The status, the values for the caller, the memory after; [None] if the run crashes. *)
Abbreviation promoted := (option (Z * list word * memory)).

Definition region_transaction (values : list word) (target bnd : Z) (owner : region) (previous : fwd_map_t) (m : memory) : promoted :=
  let abandon st := set_heap m (wipe_all (spans st) (st_heap st)) (next_addr st) (budget st) in
  match evac_run (region_stack m) target bnd (size (m_heap m)) values (EvacState (m_heap m) (m_next m) (m_budget m) previous [] [] 0) with
  | Done roots st =>
      if UINT64_MAX - escape_count owner <? copies st then Some (3, values, abandon st)
      else
        let commit r := with_forwards r (fwd st) target (escape_count r + copies st) in
        Some (0, roots, set_stack (set_heap m (st_heap st) (next_addr st) (budget st)) (on_current commit (region_stack m)))
  | Failed status st => Some (status, values, abandon st)
  | Crash => None
  end.

(** A single root that has been forwarded needs no transaction. *)
Definition forwarded_root (e : fwd_entry) (t f : Z) (values : list word) (m : memory) : promoted :=
  let raw := region_headerless_payload_size t in
  if (negb (raw =? 0) && (fw_object e || (fw_size e <? raw))) || ((raw =? 0) && negb (fw_object e)) then Some (2, values, m)
  else Some (0, [Tag t f (fw_data e)], m).

Definition region_evacuate_batch (values : list word) (target : option Z) (bnd : Z) (m : memory) : promoted :=
  match evac_needed (m_heap m) (region_stack m) bnd values with
  | None => Some (0, values, m)
  | Some (true, _) => Some (2, values, m)
  | Some (false, _) =>
      match region_current m, target with
      | Some owner, Some target =>
          let previous := reusable owner target in
          match values with
          | [Tag t f p] =>
              match previous !! p with
              | Some e => forwarded_root e t f values m
              | None => region_transaction values target bnd owner previous m
              end
          | _ => region_transaction values target bnd owner previous m
          end
      | _, _ => Some (4, values, m)
      end
  end.

(** A failure transfers control with the status. *)
Inductive passage := Passed (values : list word) (m : memory) | EmergencyRaise (status : Z) (m : memory).

Definition or_raise (r : promoted) : option passage :=
  match r with
  | Some (status, values, m) => Some (if status =? 0 then Passed values m else EmergencyRaise status m)
  | None => None
  end.

Definition region_escape_batch_or_raise (values : list word) (m : memory) : option passage :=
  match values, region_current m with
  | [], _ | _, None => Some (Passed values m)
  | _, Some current => or_raise (region_evacuate_batch values (Some (region_escape_target current)) (Z.of_nat (depth m) - 2) m)
  end.

Definition region_escape_tagged_value_into (v : word) (m : memory) : option passage :=
  match v, region_current m with
  | Tag t _ p, Some current =>
      if negb (region_value_carries_pointer t) || (p =? 0) then Some (Passed [v] m)
      else or_raise (region_evacuate_batch [v] (Some (region_escape_target current)) (Z.of_nat (depth m) - 2) m)
  | _, _ => Some (Passed [v] m)
  end.

(** Values to be stored behind the address [dst]. *)
Definition eshkol_region_copy_tagged_checked (dst : Z) (values : list word) (m : memory) : promoted :=
  match values with
  | [] => Some (0, [], m)
  | _ =>
      let boundary := region_index_owning (m_heap m) (region_stack m) dst in
      let target :=
        match region_stack m with
        | [] => None
        | outermost :: _ => if 0 <=? boundary then r_arena <$> region_stack m !! Z.to_nat boundary else Some (escape_base outermost)
        end in
      region_evacuate_batch values target boundary m
  end.

Definition eshkol_region_write_barrier_into (dst : Z) (v : word) (m : memory) : option passage :=
  or_raise (eshkol_region_copy_tagged_checked dst [v] m).

(** The back edge of a loop with the nursery [region]. *)
Definition eshkol_iter_nursery_recycle (region : Z) (values : list word) (m : memory) : option passage :=
  match region_current m with
  | Some r =>
      if negb (r_id r =? region) then Some (Passed values m)
      else
        match region_escape_batch_or_raise values m with
        | Some (Passed values m) =>
            let m := set_heap m (arena_destroy (m_heap m) (r_arena r)) (m_next m) (m_budget m) in
            Some (Passed values (set_stack m (on_current (λ r, with_forwards r ∅ 0 (escape_count r)) (region_stack m))))
        | o => o
        end
  | None => Some (Passed values m)
  end.

(** The code around a loop with a nursery (lib/backend/llvm_codegen.cpp); a null
    region is neither pushed nor entered. *)
Definition emitIterNurseryOpen (ok : bool) (m : memory) : option Z * option Z * memory :=
  match region_create ok m with
  | None => (None, None, m)
  | Some (r, m) => let (saved, m) := eshkol_region_enter r (region_push r m) in (Some (r_id r), saved, m)
  end.

Definition emitIterNurseryClose (result : word) (saved : option Z) (m : memory) : option passage :=
  match region_escape_tagged_value_into result m with
  | Some (Passed escaped m) => Some (Passed escaped (eshkol_region_leave saved (region_pop m)))
  | o => o
  end.

(** ** Handles *)

Definition rh_token (slot : nat) (g : Z) : Z := u64 (Z.lor (u64 (Z.shiftl g RH_SLOT_BITS)) (Z.of_nat slot + 1)).

Definition rh_decode (token : Z) (m : memory) : option nat :=
  if token <=? 0 then None
  else
    let slot := Z.land token RH_SLOT_MASK - 1 in
    if (slot <? 0) || (Z.of_nat ESHKOL_MAX_REGION_HANDLES <=? slot) then None
    else
      match region_handles m !! Z.to_nat slot with
      | Some s => if in_use s && (Z.shiftr token RH_SLOT_BITS =? generation s) then Some (Z.to_nat slot) else None
      | None => None
      end.

Definition eshkol_region_handle_live (token : Z) (m : memory) : bool := match rh_decode token m with Some _ => true | None => false end.

Definition rh_retire (s : handle_slot) : handle_slot :=
  let g := u64 (generation s + 1) in RegionHandleSlot None (if g =? 0 then 1 else g) 0 0 false false.

(** [for (i = 0; i < 64; i++) if (f(slot[i])) rh_retire(i)]. *)
Definition rh_retire_if (f : handle_slot → bool) (m : memory) : memory :=
  set_handles m (map (λ s, if f s then rh_retire s else s) (region_handles m)) (region_handle_seq m).

Definition rh_retire_at (d : nat) : memory → memory := rh_retire_if (λ s, in_use s && reclaim s && (region_depth s =? d)%nat).
Definition eshkol_region_handle_seq_unwind_to (mark : Z) : memory → memory :=
  rh_retire_if (λ s, in_use s && negb (reclaim s) && (mark <? open_seq s)).

(** Regions above [mark] are closed, the innermost first; [n] bounds the levels. *)
Fixpoint unwind_levels (n mark : nat) (values : list word) (m : memory) : option passage :=
  match n with
  | O => Some (Passed values m)
  | S n =>
      match region_current m with
      | Some r =>
          if (depth m <=? mark)%nat then Some (Passed values m)
          else
            match region_escape_batch_or_raise values m with
            | Some (Passed values m) =>
                let m := rh_retire_at (depth m) m in
                let m := eshkol_region_leave (entry_saved_arena r) m in
                unwind_levels n mark values (region_pop m)
            | o => o
            end
      | None => Some (Passed values m)
      end
  end.
Definition eshkol_region_unwind_to (mark : nat) (values : list word) (m : memory) : option passage := unwind_levels (depth m) mark values m.

Definition open_slot (slot : nat) (s : handle_slot) (m : memory) : Z * Z * memory :=
  let g := if generation s =? 0 then 1 else generation s in
  let q := u64 (region_handle_seq m + 1) in
  let s := RegionHandleSlot (h_region s) g (region_depth s) q (reclaim s) true in
  (ESHKOL_RH_OK, i64 (rh_token slot g), set_handles m (<[slot := s]> (region_handles m)) q).

(** The status and the token. *)
Definition eshkol_region_handle_open (ok : bool) (real : bool) (m : memory) : Z * Z * memory :=
  match list_find (λ s, in_use s = false) (take ESHKOL_MAX_REGION_HANDLES (region_handles m)) with
  | None => (ESHKOL_RH_ERR_TOO_MANY, 0, m)
  | Some (slot, s) =>
      if real then
        if (MAX_REGION_DEPTH <=? depth m)%nat then (ESHKOL_RH_ERR_DEPTH, 0, m)
        else
          match region_create ok m with
          | None => (ESHKOL_RH_ERR_CREATE, 0, m)
          | Some (r, m) =>
              let m := snd (eshkol_region_enter r (region_push r m)) in
              let m := set_stack m (on_current with_owned (region_stack m)) in
              open_slot slot (RegionHandleSlot (Some (r_id r)) (generation s) (depth m) 0 true false) m
          end
      else open_slot slot (RegionHandleSlot None (generation s) 0 0 false false) m
  end.

(** The status, or the raise of a promotion that failed. *)
Definition eshkol_region_handle_close (token : Z) (values : list word) (m : memory) : option (Z * passage) :=
  match rh_decode token m with
  | None => Some (ESHKOL_RH_ERR_STALE, Passed values m)
  | Some slot =>
      match region_handles m !! slot with
      | None => None
      | Some s =>
          if negb (reclaim s) then
            Some (ESHKOL_RH_OK, Passed values (rh_retire_if (λ o, in_use o && negb (reclaim o) && (open_seq s <=? open_seq o)) m))
          else if (region_depth s =? 0)%nat || (depth m <? region_depth s)%nat || negb (bool_decide (r_id <$> region_stack m !! pred (region_depth s) = h_region s)) then
            Some (ESHKOL_RH_ERR_NOT_LIVE, Passed values (set_handles m (alter rh_retire slot (region_handles m)) (region_handle_seq m)))
          else (λ p, (ESHKOL_RH_OK, p)) <$> eshkol_region_unwind_to (pred (region_depth s)) values m
      end
  end.
