(* ===== verification/RegionSpec.v ===== *)
(** * RegionSpec: the memory that regions keep well formed

    The level of an address is the index on the region stack of the region that
    owns it, -1 outside all regions.  Memory is well formed when it is well typed
    and no typed word leads to a higher level than its own block. *)

From S2P Require Export Regions EvacWalk.
Local Open Scope Z_scope.

(** ** Levels *)

Lemma arena_index_ext s s' i a : map r_arena s = map r_arena s' → arena_index s i a = arena_index s' i a.
Proof.
  revert s' i. induction s as [|r s IH]; intros [|r' s'] i; simpl; try done. intros [= -> Hs]. by rewrite (IH s' (i + 1) Hs).
Qed.

Lemma arena_index_spec s i a : 0 <= i →
  (arena_index s i a = -1 ∧ ∀ k r, s !! k = Some r → r_arena r ≠ a) ∨
  (∃ k r, s !! k = Some r ∧ r_arena r = a ∧ arena_index s i a = i + Z.of_nat k).
Proof.
  revert i. induction s as [|r s IH]; intros i Hi; simpl; [by left|].
  destruct (IH (i + 1)) as [[-> H]|(k & r' & Hk & Ha & ->)]; [lia| |].
  - simpl. destruct (Z.eqb_spec (r_arena r) a) as [Ha|Ha]; [right; exists 0%nat, r; repeat split; [done|lia]|].
    left. split; [done|]. intros [|k] r' Hk; simplify_eq/=; [done|by eapply H].
  - rewrite (proj2 (Z.leb_le _ _)) by lia. right. exists (S k), r'. repeat split; [done|done|lia].
Qed.

Definition distinct_arenas (s : list region) : Prop := NoDup (map r_arena s).

Lemma arena_index_nth s k r : distinct_arenas s → s !! k = Some r → arena_index s 0 (r_arena r) = Z.of_nat k.
Proof.
  intros Hd Hk. destruct (arena_index_spec s 0 (r_arena r)) as [[_ H]|(k' & r' & Hk' & Ha & ->)]; [lia|by destruct (H k r)|].
  assert (k' = k) as ->; [|lia]. eapply (NoDup_lookup _ k' k (r_arena r) Hd).
  - rewrite list_lookup_fmap, Hk'. simpl. by rewrite Ha.
  - by rewrite list_lookup_fmap, Hk.
Qed.

Lemma arena_index_range s a : -1 <= arena_index s 0 a < Z.of_nat (length s).
Proof.
  destruct (arena_index_spec s 0 a) as [[-> _]|(k & r & Hk & _ & ->)]; [lia|lia|]. apply lookup_lt_Some in Hk. lia.
Qed.

Lemma arena_index_inv s a i : arena_index s 0 a = i → 0 <= i → ∃ r, s !! Z.to_nat i = Some r ∧ r_arena r = a.
Proof.
  intros <- Hi. destruct (arena_index_spec s 0 a) as [[E _]|(k & r & Hk & Ha & E)]; [lia|lia|]. rewrite E.
  exists r. by rewrite Z.add_0_l, Nat2Z.id.
Qed.

Lemma on_current_arenas f s : (∀ r, r_arena (f r) = r_arena r) → map r_arena (on_current f s) = map r_arena s.
Proof.
  intros Hf. unfold on_current. apply list_eq. intros i. rewrite !list_lookup_fmap.
  destruct (decide (i = pred (length s))) as [->|]; [rewrite list_lookup_alter_eq|by rewrite list_lookup_alter_ne].
  destruct (s !! _); simpl; [by rewrite Hf|done].
Qed.

Section region.
Context (extern root : Z → bool).

Definition level (m : memory) (p : Z) : Z := region_index_owning (m_heap m) (region_stack m) p.

(** ** Well-formed memory *)

Record world_ok (Γ : typing) (m : memory) : Prop := {
  w_typed : heap_typed extern Γ (m_heap m);
  w_lifetime p τ b i σ w : Γ !! p = Some τ → m_heap m !! p = Some b → slots τ !! i = Some σ → words b !! i = Some w →
    clean root (region_stack m) (level m p) (m_heap m) σ w;
  w_null : m_heap m !! 0 = None;
  w_next : 0 < m_next m;
  w_below p b : m_heap m !! p = Some b → p < m_next m;
  w_extern d : extern d = true → m_heap m !! d = None ∧ d < m_next m
}.

(** What an earlier promotion past [bnd] has copied, and what is still to copy. *)
Record previous_ok (Γ : typing) (m : memory) (bnd : Z) (prev : fwd_map_t) : Prop := {
  pv_entry old e : prev !! old = Some e → bnd < level m old ∧ level m (fw_data e) <= bnd ∧
    is_Some (m_heap m !! fw_data e) ∧ fwd_typed Γ old e;
  pv_layout p c sub l : Γ !! p = Some (TObj c sub l) → bnd < level m p → prev !! p = None → object_layout c sub l
}.

(** A typed word leads to NULL, outside, or to a typed block. *)
Lemma target_typed Γ σ w d : slot_ok extern Γ σ w → target_of σ w = Some d → d = 0 ∨ extern d = true ∨ is_Some (Γ !! d).
Proof.
  intros Hok Ht.
  assert (Hv : ∀ t, value_ok extern Γ t d → region_value_carries_pointer t = true → d = 0 ∨ extern d = true ∨ is_Some (Γ !! d)).
  { intros t Hv Hc. destruct (decide (d = 0)); [by left|]. destruct (extern d) eqn:He; [by right; left|]. right; right.
    destruct (Hv Hc) as (_ & _ & H); [done..|]. destruct (_ =? 0); naive_solver. }
  destruct σ, w; simpl in *; try done.
  - destruct (region_value_carries_pointer type) eqn:Hc; simplify_eq. eauto.
  - destruct (region_value_carries_pointer type) eqn:Hc; simplify_eq. destruct Hok. eauto.
  - simplify_eq. naive_solver.
  - simplify_eq. destruct (decide (d = 0)); [by left|]. destruct (extern d) eqn:He; [by right; left|]. naive_solver.
  - simplify_eq. destruct Hok as [[_ ->]|Hq]; [by left|right; right]. by eexists.
  - simplify_eq. destruct (decide (d = 0)); [by left|]. destruct (extern d) eqn:He; [by right; left|]. naive_solver.
Qed.

(** A heap that has grown upwards. *)
Record extends (m m' : memory) : Prop := {
  x_old p b : m_heap m !! p = Some b → m_heap m' !! p = Some b;
  x_new p b : m_heap m' !! p = Some b → m_heap m !! p = Some b ∨ m_next m <= p;
  x_next p b : m_heap m' !! p = Some b → p < m_next m';
  x_grow : m_next m <= m_next m';
  x_arenas : map r_arena (region_stack m') = map r_arena (region_stack m)
}.

Lemma level_old m m' p b : extends m m' → m_heap m !! p = Some b → level m' p = level m p.
Proof.
  intros Hx E. unfold level, region_index_owning. rewrite E, (x_old _ _ Hx p b E). apply arena_index_ext, Hx.
Qed.

Lemma level_target Γ m m' σ w d : world_ok Γ m → extends m m' → slot_ok extern Γ σ w → target_of σ w = Some d → level m' d = level m d.
Proof.
  intros Hw Hx Hok Ht. unfold level, region_index_owning. destruct (target_typed _ _ _ _ Hok Ht) as [->|[He|[τ Hτ]]].
  - rewrite (w_null _ _ Hw). destruct (m_heap m' !! 0) as [b|] eqn:E; [|done].
    destruct (x_new _ _ Hx _ _ E) as [E'|Hn]; [by rewrite (w_null _ _ Hw) in E'|]. pose proof (w_next _ _ Hw). lia.
  - destruct (w_extern _ _ Hw d He) as [-> Hn]. destruct (m_heap m' !! d) as [b|] eqn:E; [|done].
    destruct (x_new _ _ Hx _ _ E) as [E'|Hn']; [by rewrite (proj1 (w_extern _ _ Hw d He)) in E'|lia].
  - destruct (w_typed _ _ Hw d τ Hτ) as (b & E & _). rewrite E, (x_old _ _ Hx d b E). apply arena_index_ext, Hx.
Qed.

Lemma alive_ext s s' bnd a : map r_arena s' = map r_arena s → arena_alive root s bnd a → arena_alive root s' bnd a.
Proof. unfold arena_alive. intros Hs. by rewrite (arena_index_ext s' s _ _ Hs). Qed.

Lemma clean_extends Γ m m' bnd σ w : world_ok Γ m → extends m m' → slot_ok extern Γ σ w →
  clean root (region_stack m) bnd (m_heap m) σ w → clean root (region_stack m') bnd (m_heap m') σ w.
Proof.
  intros Hw Hx Hok [Hd Ha]. split.
  - intros d Ht. unfold dying. pose proof (level_target _ _ _ _ _ _ Hw Hx Hok Ht) as Hl. unfold level in Hl. rewrite Hl. by apply Hd.
  - intros a Hσ Hwa. eapply alive_ext; [apply Hx|]. by apply Ha.
Qed.

(** Growth alone keeps memory well formed. *)
Lemma world_extends Γ m m' : world_ok Γ m → extends m m' → world_ok Γ m'.
Proof.
  intros Hw Hx. split.
  - intros p τ HΓ. destruct (w_typed _ _ Hw p τ HΓ) as (b & E & Hb). exists b. split; [by apply Hx|done].
  - intros p τ b i σ w HΓ E Hσ Hwd. destruct (w_typed _ _ Hw p τ HΓ) as (b' & E' & _ & _ & Hb).
    pose proof (x_old _ _ Hx p b' E') as E''. simplify_eq. destruct (Hb i σ Hσ) as (w' & Hw' & Hok). simplify_eq.
    rewrite (level_old _ _ _ _ Hx E'). eapply clean_extends; [done..|]. by eapply (w_lifetime _ _ Hw).
  - destruct (m_heap m' !! 0) as [b|] eqn:E; [|done]. destruct (x_new _ _ Hx _ _ E) as [E'|Hn]; [by rewrite (w_null _ _ Hw) in E'|].
    pose proof (w_next _ _ Hw). lia.
  - pose proof (w_next _ _ Hw). pose proof (x_grow _ _ Hx). lia.
  - apply Hx.
  - intros d He. destruct (w_extern _ _ Hw d He) as [E Hn]. split; [|pose proof (x_grow _ _ Hx); lia].
    destruct (m_heap m' !! d) as [b|] eqn:E'; [|done]. destruct (x_new _ _ Hx _ _ E') as [?|?]; [congruence|lia].
Qed.

Lemma previous_extends Γ m m' bnd prev : world_ok Γ m → extends m m' → -1 <= bnd → previous_ok Γ m bnd prev → previous_ok Γ m' bnd prev.
Proof.
  intros Hw Hx Hbnd [He Hl]. split.
  - intros old e Hp. destruct (He old e Hp) as (H1 & H2 & [b H3] & H4).
    assert (is_Some (m_heap m !! old)) as [b0 H0].
    { unfold level, region_index_owning in H1. destruct (m_heap m !! old); [done|lia]. }
    rewrite (level_old _ _ _ _ Hx H0), (level_old _ _ _ _ Hx H3). split; [done|]. split; [done|]. split; [|done]. exists b. by apply Hx.
  - intros p c sub l HΓ Hlev Hp. destruct (w_typed _ _ Hw p _ HΓ) as (b & E & _).
    rewrite (level_old _ _ _ _ Hx E) in Hlev. by eapply Hl.
Qed.

(** What a promotion has done: [f] says where the blocks have gone. *)
Record promotion (Γ Γ' : typing) (m m' : memory) (target bnd : Z) (prev f : fwd_map_t) : Prop := {
  pr_types : Γ ⊆ Γ';
  pr_extends : extends m m';
  pr_new p b : m_heap m' !! p = Some b → m_heap m !! p = None → arena_of b = target;
  pr_world : world_ok Γ' m';
  pr_prev : prev ⊆ f;
  pr_previous : previous_ok Γ' m' bnd f;
  pr_old_types p : is_Some (m_heap m !! p) → Γ' !! p = Γ !! p;
  pr_layout p c sub l : m_heap m !! p = None → Γ' !! p = Some (TObj c sub l) → object_layout c sub l;
  pr_copy old e : f !! old = Some e → prev !! old = None → m_heap m !! fw_data e = None ∧
    ∃ b0 b, m_heap m !! old = Some b0 ∧ m_heap m' !! fw_data e = Some b ∧
      if fw_object e then header b = header b0 ∧ Forall2 (@wstep (region_stack m) target bnd (m_heap m) f) (words b0) (words b)
      else header b = None ∧ ∃ ws, prefix (fw_size e) (words b0) = Some ws ∧
        (fw_size e ≠ 0 → Forall2 (@wstep (region_stack m) target bnd (m_heap m) f) ws (words b));
  pr_injective old e old' e' : f !! old = Some e → f !! old' = Some e' → fw_data e = fw_data e' → prev !! old = None → old' = old
}.

(** ** The transaction *)

Section transaction.
Context (Γ : typing) (m : memory) (target bnd : Z) (prev : fwd_map_t).
Context (Hworld : world_ok Γ m) (Hlow : -1 <= bnd) (Htarget : arena_alive root (region_stack m) bnd target).
Context (Hindex : arena_index (region_stack m) 0 target = bnd) (Hprev : previous_ok Γ m bnd prev).

Local Abbreviation stack := (region_stack m).
Local Abbreviation h0 := (m_heap m).
Local Abbreviation Inv := (@J stack target bnd extern root h0 (m_next m) prev Γ).

Lemma dying_level p : dying stack bnd h0 p = true ↔ bnd < level m p.
Proof. unfold dying, level. apply Z.ltb_lt. Qed.

Lemma living_level p : dying stack bnd h0 p = false ↔ level m p <= bnd.
Proof. unfold dying, level. apply Z.ltb_ge. Qed.

Lemma transaction_setting : @setting stack target bnd extern root h0 (m_next m) prev.
Proof.
  split; [done|done|apply Hworld|apply Hworld|apply Hworld|apply Hworld|].
  intros old e Hp. destruct (pv_entry _ _ _ _ Hprev old e Hp) as (H1 & H2 & H3 & _).
  split; [by apply dying_level|]. split; [by apply living_level|done].
Qed.

Definition start : evac_state := EvacState h0 (m_next m) (m_budget m) prev [] [] 0.

Lemma transaction_start_ok : Inv Γ [] start.
Proof.
  split; simpl; try done.
  - split; simpl; [done|by intros ? ?%not_elem_of_nil| |done|by intros ? ?%not_elem_of_nil].
    intros p b E. split; [by eapply (w_below _ _ Hworld)|by right].
  - apply Hworld.
  - intros p c sub l HΓ [Hd|Hs] Hp; [|by apply not_elem_of_nil in Hs]. eapply (pv_layout _ _ _ _ Hprev); [done|by apply dying_level|done].
  - intros old e Hp. destruct (pv_entry _ _ _ _ Hprev old e Hp) as (H1 & H2 & _ & H4).
    split; [by apply dying_level|]. split; [by apply living_level|done].
  - congruence.
  - congruence.
  - intros p τ b i σ w HΓ E Hd _ _ Hσ Hw. apply living_level in Hd.
    destruct (w_lifetime _ _ Hworld p τ b i σ w HΓ E Hσ Hw) as [H1 H2]. split.
    + intros d Ht. specialize (H1 d Ht). unfold dying in *. apply Z.ltb_ge in H1. apply Z.ltb_ge. unfold level in *. lia.
    + intros a Hσa Hwa. destruct (H2 a Hσa Hwa) as [H3 H4]. split; [lia|done].
  - by intros p k ?%not_elem_of_nil.
Qed.

Lemma measure_start : (@measure stack bnd h0 start <= size h0)%nat.
Proof.
  unfold measure, start, dying_blocks. simpl. rewrite <- (size_dom h0).
  etrans; [apply subseteq_size, subseteq_difference_l; reflexivity|]. apply subseteq_size. intros p Hp. by apply elem_of_filter in Hp as [_ ?].
Qed.

Lemma run_ok values : Forall (value_word extern Γ) values →
  @ok stack target bnd h0 (m_next m) _ Γ start (evac_run stack target bnd (size h0) values)
    (λ out Γ' st', Inv Γ' [] st' ∧ worklist st' = [] ∧ Forall2 (@wstep stack target bnd h0 (fwd st')) values out ∧
      Forall (value_word extern Γ') out ∧ Forall (clean root stack bnd h0 Val) out).
Proof.
  intros Hv. pose proof transaction_setting as Hset. unfold evac_run. pose proof measure_start as Hm.
  eapply ok_seq; [eapply evac_values_ok; [exact Hset|exact transaction_start_ok|done]|]. simpl. intros out Γ1 st1 HΓ1 He1 (HJ1 & Hs1 & Hv1 & Hc1).
  eapply ok_seq; [eapply evac_walk_ok; [exact Hset|exact HJ1|pose proof (e_measure _ _ He1); lia]|].
  simpl. intros _ Γ2 st2 HΓ2 He2 (HJ2 & Hw2). apply ok_ret. split; [done|]. split; [done|]. split; [|split; [|done]].
  - eapply list.Forall2_impl; [exact Hs1|]. intros w w'. apply wstep_mono, He2.
  - eapply list.Forall_impl; [exact Hv1|]. intros w (t & f & d & -> & Hok). exists t, f, d. split; [done|].
    exact (slot_ok_mono extern Γ1 Γ2 Val (Tag t 0 d) HΓ2 Hok).
Qed.

Definition finish (st : evac_state) (l : list region) : memory := set_stack (set_heap m (st_heap st) (next_addr st) (budget st)) l.

Lemma finish_extends st l : @base target h0 (m_next m) st → map r_arena l = map r_arena stack → extends m (finish st l).
Proof.
  intros [Ho Hs Hn Hx Hsx] Hl. split; simpl; try done.
  - intros p b E. destruct (Hn p b E) as [_ [Hp|Hp]]; [right; by apply Hsx|by left].
  - intros p b E. by apply (Hn p b).
Qed.

Lemma span_level st l p : @base target h0 (m_next m) st → map r_arena l = map r_arena stack → p ∈ spans st → level (finish st l) p = bnd.
Proof.
  intros Hb Hl Hp. destruct (b_span _ Hb p Hp) as (_ & b & E & Ha). unfold level, region_index_owning. simpl.
  rewrite E, Ha, (arena_index_ext _ stack) by done. done.
Qed.

Lemma finish_world Γ' st l : Γ ⊆ Γ' → Inv Γ' [] st → worklist st = [] → map r_arena l = map r_arena stack → world_ok Γ' (finish st l).
Proof.
  intros HΓ HJ Hwl Hl. pose proof (finish_extends st l (j_base _ _ _ HJ) Hl) as Hx.
  destruct (world_extends _ _ _ Hworld Hx) as [_ Hlt Hz Hpos Hbel Hex]. split; try done; [apply HJ|].
  intros p τ b i σ w HΓp E Hσ Hw. destruct (b_new _ (j_base _ _ _ HJ) p b E) as [_ [Hs|E0]].
  - rewrite (span_level st l p (j_base _ _ _ HJ) Hl Hs).
    pose proof transaction_setting as Hset.
    assert (Hd : dying stack bnd h0 p = false).
    { apply living_level. unfold level, region_index_owning. by rewrite (proj1 (b_span _ (j_base _ _ _ HJ) p Hs)). }
    assert (Hc : clean root stack bnd h0 σ w) by (eapply (j_clean _ _ _ HJ); try done; [apply not_elem_of_nil|rewrite Hwl; apply not_elem_of_nil]).
    destruct Hc as [H1 H2]. split; [|intros a Ha Hwa; eapply alive_ext; [exact Hl|by apply H2]].
    intros d Ht. specialize (H1 d Ht). unfold dying in *. apply Z.ltb_ge in H1. apply Z.ltb_ge.
    destruct (decide (d ∈ spans st)) as [Hds|Hds].
    + pose proof (span_level st l d (j_base _ _ _ HJ) Hl Hds) as Hlev. unfold level in Hlev. simpl in *. lia.
    + unfold region_index_owning in *. simpl. destruct (st_heap st !! d) as [c|] eqn:Ec; [|lia].
      destruct (b_new _ (j_base _ _ _ HJ) d c Ec) as [_ [?|E0]]; [done|]. rewrite E0 in H1. by rewrite (arena_index_ext _ stack).
  - assert (HΓ0 : Γ !! p = Some τ).
    { rewrite <- HΓp. symmetry. apply (j_old_types _ _ _ HJ). intros Hs. by rewrite (proj1 (b_span _ (j_base _ _ _ HJ) p Hs)) in E0. }
    by apply (Hlt p τ b i σ w HΓ0 E Hσ Hw).
Qed.

Lemma finish_previous Γ' st l : Inv Γ' [] st → map r_arena l = map r_arena stack → previous_ok Γ' (finish st l) bnd (fwd st).
Proof.
  intros HJ Hl. pose proof (finish_extends st l (j_base _ _ _ HJ) Hl) as Hx. pose proof transaction_setting as Hset. split.
  - intros old e He. destruct (j_fwd _ _ _ HJ old e He) as (H1 & H2 & H3).
    destruct (dead_old old H1) as [b0 E0]. rewrite (level_old _ _ _ _ Hx E0).
    split; [by apply dying_level|]. destruct (fwd_alloc _ _ _ _ _ HJ He) as [b E]. split; [|by split].
    destruct (b_new _ (j_base _ _ _ HJ) _ b E) as [_ [Hs|Hs]]; [rewrite (span_level st l) by (done || apply HJ); lia|].
    rewrite (level_old _ _ _ _ Hx Hs). by apply living_level.
  - intros p c sub pl HΓp Hlev Hp. destruct (decide (p ∈ spans st)) as [Hs|Hs]; [rewrite (span_level st l) in Hlev by (done || apply HJ); lia|].
    apply (j_layout _ _ _ HJ p); [done| |].
    + left. apply dying_level. destruct (j_typed _ _ _ HJ p _ HΓp) as (b & E & _).
      destruct (b_new _ (j_base _ _ _ HJ) _ b E) as [_ [?|E0]]; [done|]. by rewrite <- (level_old _ _ _ _ Hx E0).
    + destruct (prev !! p) eqn:Epv; [|done]. pose proof (lookup_weaken _ _ _ _ Epv (j_prev _ _ _ HJ)). congruence.
Qed.

Lemma finish_promotion Γ' st l : Γ ⊆ Γ' → Inv Γ' [] st → worklist st = [] → map r_arena l = map r_arena stack →
  promotion Γ Γ' m (finish st l) target bnd prev (fwd st).
Proof.
  intros HΓ HJ Hwl Hl. split; [done|apply finish_extends; [apply HJ|done]| |by apply finish_world|apply HJ|by apply finish_previous|..].
  - intros p b E E0. simpl in E. destruct (b_new _ (j_base _ _ _ HJ) p b E) as [_ [Hs|?]]; [|congruence].
    destruct (b_span _ (j_base _ _ _ HJ) p Hs) as (_ & b' & ? & ?). congruence.
  - intros p [b E0]. apply (j_old_types _ _ _ HJ). intros Hs. by rewrite (proj1 (b_span _ (j_base _ _ _ HJ) p Hs)) in E0.
  - intros p c sub pl E0 Hp. destruct (j_typed _ _ _ HJ p _ Hp) as (b & E & _).
    destruct (b_new _ (j_base _ _ _ HJ) p b E) as [_ [Hs|?]]; [|congruence].
    apply (j_layout _ _ _ HJ p); [done|by right|]. destruct (prev !! p) eqn:Epv; [|done].
    destruct (pv_entry _ _ _ _ Hprev p _ Epv) as (H1 & _). unfold level, region_index_owning in H1. rewrite E0 in H1. lia.
  - intros old e He Hp. destruct (j_copy _ _ _ HJ old e He Hp) as (Hs & Hc).
    split; [by apply (b_span _ (j_base _ _ _ HJ))|exact Hc].
  - apply HJ.
Qed.

Lemma wipe_all_ne ps h p : p ∉ ps → wipe_all ps h !! p = h !! p.
Proof.
  induction ps as [|q ps IH]; simpl; [done|]. intros [Hq Hps]%not_elem_of_cons. rewrite lookup_alter_ne by done. by apply IH.
Qed.

Lemma wipe_all_some ps h p b : wipe_all ps h !! p = Some b → is_Some (h !! p).
Proof.
  revert b. induction ps as [|q ps IH]; simpl; intros b E; [by exists b|].
  destruct (decide (p = q)) as [->|]; [|rewrite lookup_alter_ne in E by done; by eapply IH].
  rewrite lookup_alter_eq in E. destruct (wipe_all ps h !! q) eqn:E'; [by eapply IH|done].
Qed.

(** An abandoned transaction leaves wiped blocks above the old memory. *)
Lemma abandon_extends st : @base target h0 (m_next m) st →
  extends m (set_heap m (wipe_all (spans st) (st_heap st)) (next_addr st) (budget st)).
Proof.
  intros [Ho Hs Hn Hx Hsx]. split; simpl; try done.
  - intros p b E. rewrite wipe_all_ne; [by apply Ho|]. intros Hp. destruct (Hs p Hp). congruence.
  - intros p b E. destruct (decide (p ∈ spans st)) as [Hp|Hp]; [right; by apply Hsx|]. rewrite wipe_all_ne in E by done.
    destruct (Hn p b E) as [_ [?|?]]; [done|by left].
  - intros p b E. destruct (wipe_all_some _ _ _ _ E) as [c Ec]. by apply (Hn p c).
Qed.

Lemma abandon_arena st p b : @base target h0 (m_next m) st → wipe_all (spans st) (st_heap st) !! p = Some b →
  h0 !! p = Some b ∨ arena_of b = target.
Proof.
  intros Hb. assert (Hin : ∀ ps b, (∀ q, q ∈ ps → q ∈ spans st) → wipe_all ps (st_heap st) !! p = Some b → p ∈ ps → arena_of b = target).
  { induction ps as [|q ps IH]; simpl; intros c Hq E Hp; [by apply not_elem_of_nil in Hp|].
    assert (Hps : ∀ q, q ∈ ps → q ∈ spans st) by (intros ? ?; apply Hq; by right).
    destruct (decide (p = q)) as [<-|]; [|rewrite lookup_alter_ne in E by done; apply (IH c); [done|done|]; by apply elem_of_cons in Hp as [?|?]].
    rewrite lookup_alter_eq in E. destruct (wipe_all ps (st_heap st) !! p) as [c'|] eqn:E'; [|done]. injection E as <-. simpl.
    destruct (decide (p ∈ ps)) as [Hps'|Hps']; [by apply (IH c')|]. rewrite wipe_all_ne in E' by done.
    destruct (b_span _ Hb p) as (_ & b' & ? & ?); [apply Hq; by left|]. congruence. }
  intros E. destruct (decide (p ∈ spans st)) as [Hp|Hp]; [right; by apply (Hin (spans st))|]. rewrite wipe_all_ne in E by done.
  destruct (b_new _ Hb p b E) as [_ [?|?]]; [done|by left].
Qed.

Definition abandoned (m' : memory) : Prop :=
  extends m m' ∧ m' = set_heap m (m_heap m') (m_next m') (m_budget m') ∧
  ∀ p b, m_heap m' !! p = Some b → h0 !! p = Some b ∨ arena_of b = target.

Lemma abandon_ok st : @base target h0 (m_next m) st →
  abandoned (set_heap m (wipe_all (spans st) (st_heap st)) (next_addr st) (budget st)).
Proof. intros Hb. split; [by apply abandon_extends|]. split; [done|]. intros p b. by apply abandon_arena. Qed.

Lemma region_transaction_ok owner values : region_current m = Some owner → Forall (value_word extern Γ) values →
  ∃ status out m', region_transaction values target bnd owner prev m = Some (status, out, m') ∧
    if decide (status = 0) then
      ∃ Γ' f n, promotion Γ Γ' m m' target bnd prev f ∧
        m' = set_stack (set_heap m (m_heap m') (m_next m') (m_budget m')) (on_current (λ r, with_forwards r f target n) stack) ∧
        Forall2 (@wstep stack target bnd h0 f) values out ∧ Forall (value_word extern Γ') out ∧
        Forall (λ w, ∀ d, target_of Val w = Some d → level m' d <= bnd) out
    else out = values ∧ abandoned m'.
Proof.
  intros Hown Hv. pose proof (run_ok values Hv) as Hrun. unfold ok, start in Hrun. unfold region_transaction.
  destruct (evac_run _ _ _ _ _ _) as [out st|status st|]; [| |done].
  - destruct Hrun as (Γ' & HΓ & _ & HJ & Hwl & Hs & Hok & Hc). destruct (_ <? copies st).
    { exists 3, values. eexists. split; [done|]. split; [done|]. apply abandon_ok, HJ. }
    exists 0, out. eexists. split; [done|]. simpl. exists Γ', (fwd st), (escape_count owner + copies st).
    assert (Hcommit : on_current (λ r, with_forwards r (fwd st) target (escape_count r + copies st)) stack =
                      on_current (λ r, with_forwards r (fwd st) target (escape_count owner + copies st)) stack).
    { unfold on_current. apply list_eq. intros i. destruct (decide (i = pred (length stack))) as [->|]; [|by rewrite !list_lookup_alter_ne].
      rewrite !list_lookup_alter_eq. unfold region_current in Hown. rewrite last_lookup in Hown. by rewrite Hown. }
    rewrite Hcommit.
    assert (Hl : map r_arena (on_current (λ r, with_forwards r (fwd st) target (escape_count owner + copies st)) stack) = map r_arena stack)
      by (by apply on_current_arenas).
    pose proof (finish_promotion Γ' st _ HΓ HJ Hwl Hl) as Hpr.
    split; [exact Hpr|]. split; [done|]. split; [done|]. split; [done|].
    rewrite Forall_forall in Hok, Hc |- *. intros w Hw d Ht. destruct (Hc w Hw) as [H1 _]. specialize (H1 d Ht). apply living_level in H1.
    destruct (decide (d ∈ spans st)) as [Hds|Hds]; [rewrite <- (span_level st _ d (j_base _ _ _ HJ) Hl Hds); reflexivity|].
    unfold level, region_index_owning in *. simpl. destruct (st_heap st !! d) as [c|] eqn:Ec; [|lia].
    destruct (b_new _ (j_base _ _ _ HJ) d c Ec) as [_ [?|E0]]; [done|]. rewrite E0 in H1. by rewrite (arena_index_ext _ stack).
  - destruct Hrun as [Hne Hb]. exists status, values. eexists. split; [done|]. rewrite decide_False by done.
    split; [done|]. by apply abandon_ok.
Qed.

(** A batch, with or without a transaction. *)
Definition batch_done (values out : list word) (m' : memory) (f : fwd_map_t) (Γ' : typing) : Prop :=
  promotion Γ Γ' m m' target bnd prev f ∧
  (m' = m ∧ f = prev ∨
   ∃ n, m' = set_stack (set_heap m (m_heap m') (m_next m') (m_budget m')) (on_current (λ r, with_forwards r f target n) stack)) ∧
  Forall2 (@wstep stack target bnd h0 f) values out ∧ Forall (value_word extern Γ') out ∧
  Forall (λ w, ∀ d, target_of Val w = Some d → level m' d <= bnd) out.

Lemma no_promotion : promotion Γ Γ m m target bnd prev prev.
Proof.
  split; try done.
  - split; try done; [by left|apply Hworld].
  - congruence.
  - intros p c sub l E Hp. destruct (w_typed _ _ Hworld p _ Hp) as (b & ? & _). congruence.
  - congruence.
  - congruence.
Qed.

Lemma not_needed values : Forall (value_word extern Γ) values → evac_needed h0 stack bnd values = None →
  Forall (λ w, ∀ d, target_of Val w = Some d → level m d <= bnd) values.
Proof.
  induction 1 as [|w values (t & f & d & -> & Hv) Hvs IH]; [constructor|]. cbn [evac_needed]. intros Hn.
  destruct (_ && _) eqn:E; [done|]. constructor; [|by apply IH]. intros x Hx. simpl in Hx.
  destruct (region_value_carries_pointer t); [|done]. simplify_eq/=. destruct (Z.eqb_spec x 0) as [->|]; simpl in E.
  - unfold level, region_index_owning. rewrite (w_null _ _ Hworld). done.
  - apply Z.ltb_ge in E. exact E.
Qed.

Lemma forwarded_value e t p : prev !! p = Some e → value_ok extern Γ t p → region_value_carries_pointer t = true →
  value_ok extern Γ t (fw_data e).
Proof.
  intros He Hv Hc. destruct (pv_entry _ _ _ _ Hprev p e He) as (H1 & _ & _ & H4).
  pose proof transaction_setting as Hset. destruct (dead_typed_value stack target bnd extern root h0 (m_next m) prev Γ t p Hv Hc) as (Hl & Hp & Ht).
  { by apply dying_level. }
  intros _ _ _. split; [done|]. split; [done|]. unfold fwd_typed in H4. destruct (_ =? 0).
  - destruct Ht as (sub & l & Ht). rewrite Ht in H4. destruct H4 as (_ & l' & ?). eauto.
  - rewrite Ht in H4. by destruct H4 as (_ & _ & ?).
Qed.

Lemma region_evacuate_batch_ok owner values : region_current m = Some owner → reusable owner target = prev →
  Forall (value_word extern Γ) values →
  ∃ status out m', region_evacuate_batch values (Some target) bnd m = Some (status, out, m') ∧
    if decide (status = 0) then ∃ Γ' f, batch_done values out m' f Γ' else out = values ∧ abandoned m'.
Proof.
  intros Hown Hre Hv.
  assert (Hrefl : ∀ f, Forall2 (@wstep stack target bnd h0 f) values values) by (intros; apply Forall_Forall2_diag, Forall_true; intros; by left).
  assert (Hself : abandoned m). { split; [apply no_promotion|]. split; [by destruct m|]. by left. }
  assert (Htr : ∃ status out m', region_transaction values target bnd owner prev m = Some (status, out, m') ∧
    if decide (status = 0) then ∃ Γ' f, batch_done values out m' f Γ' else out = values ∧ abandoned m').
  { destruct (region_transaction_ok owner values Hown Hv) as (status & out & m' & E & H). exists status, out, m'. split; [done|].
    destruct (decide (status = 0)); [|done]. destruct H as (Γ' & f & n & H1 & H2 & H3). exists Γ', f. split; [done|]. split; [right; by exists n|done]. }
  unfold region_evacuate_batch. destruct (evac_needed h0 stack bnd values) as [[[] p]|] eqn:En.
  - exists 2, values, m. done.
  - rewrite Hown, Hre. destruct values as [|[t f q| | |] [|]]; try exact Htr.
    destruct (prev !! q) as [e|] eqn:Hq; [|exact Htr]. clear Htr. unfold forwarded_root. destruct (_ || _); [by exists 2, [Tag t f q], m|].
    exists 0, [Tag t f (fw_data e)], m. split; [done|]. simpl. exists Γ, prev. split; [apply no_promotion|]. split; [by left|].
    destruct (pv_entry _ _ _ _ Hprev q e Hq) as (H1 & H2 & _). cbn [evac_needed] in En. destruct (region_value_carries_pointer t) eqn:Hc; [|done].
    split; [|split].
    + constructor; [|constructor]. right. split; [done|]. split; [done|]. split; [by apply dying_level|]. split; [by apply living_level|]. by exists e.
    + constructor; [|constructor]. apply Forall_cons_1 in Hv as [(t' & f' & q' & Heq & Hok) _]. injection Heq as <- <- <-. exists t, f, (fw_data e). split; [done|].
      by eapply forwarded_value.
    + constructor; [|constructor]. intros d. simpl. rewrite Hc. by intros [= <-].
  - exists 0, values, m. split; [done|]. simpl. exists Γ, prev. split; [apply no_promotion|]. split; [by left|].
    split; [done|]. split; [done|]. by apply not_needed.
Qed.
End transaction.

(** ** The region stack *)

Definition levels_of (m : memory) (target : Z) : Z := arena_index (region_stack m) 0 target.

(** The forwards that the region of index [i] keeps for its next promotion. *)
Definition forwards_ok (Γ : typing) (m : memory) (i : nat) (r : region) : Prop := ∀ old e, fwd_map r !! old = Some e →
  levels_of m (fwd_target r) < level m old <= Z.of_nat i ∧ level m (fw_data e) <= levels_of m (fwd_target r) ∧
  is_Some (m_heap m !! fw_data e) ∧ fwd_typed Γ old e ∧ fwd_target r < unborn m.

(** A region escapes to the arena below it, the outermost to one that no region owns. *)
Definition base_ok (s : list region) (i : nat) (r : region) : Prop :=
  match i with O => root (escape_base r) = true | S j => r_arena <$> s !! j = Some (escape_base r) end.

Record mem_ok (Γ : typing) (m : memory) : Prop := {
  mo_world : world_ok Γ m;
  mo_layout p c sub l : Γ !! p = Some (TObj c sub l) → object_layout c sub l;
  mo_forwards i r : region_stack m !! i = Some r → forwards_ok Γ m i r;
  mo_bases i r : region_stack m !! i = Some r → base_ok (region_stack m) i r;
  mo_distinct : distinct_arenas (region_stack m);
  mo_regions r : r ∈ region_stack m → root (r_arena r) = false ∧ r_arena r < unborn m;
  mo_blocks p b : m_heap m !! p = Some b → arena_of b < unborn m;
  mo_roots a : root a = true → a < unborn m
}.

Lemma mem_previous Γ m target r i : mem_ok Γ m → region_stack m !! i = Some r →
  previous_ok Γ m (levels_of m target) (reusable r target).
Proof.
  intros Hm Hr. split; [|intros; by eapply mo_layout]. intros old e He. unfold reusable in He.
  destruct (Z.eqb_spec (fwd_target r) target) as [<-|]; [|by rewrite lookup_empty in He].
  destruct (mo_forwards _ _ Hm i r Hr old e He) as (? & ? & ? & ? & _). split; [lia|done].
Qed.

Lemma level_range m p : -1 <= level m p < Z.of_nat (depth m).
Proof. unfold level, region_index_owning, depth. destruct (m_heap m !! p); [apply arena_index_range|lia]. Qed.

(** An arena outside the stack, or of the region below the current one. *)
Lemma base_level Γ m r i : mem_ok Γ m → region_stack m !! i = Some r →
  levels_of m (escape_base r) = Z.of_nat i - 1 ∧ arena_alive root (region_stack m) (Z.of_nat i - 1) (escape_base r).
Proof.
  intros Hm Hr. assert (H : levels_of m (escape_base r) = Z.of_nat i - 1 ∧ (i = 0%nat → root (escape_base r) = true)).
  { pose proof (mo_bases _ _ Hm i r Hr) as Hb. unfold levels_of. destruct i as [|j]; simpl in Hb.
    - split; [|done]. destruct (arena_index_spec (region_stack m) 0 (escape_base r)) as [[-> _]|(k & r' & Hk & Ha & _)]; [lia|done|].
      destruct (mo_regions _ _ Hm r') as [Hn _]; [by eapply list_elem_of_lookup_2|]. rewrite Ha in Hn. congruence.
    - destruct (region_stack m !! j) as [r'|] eqn:Hj; [|done]. injection Hb as <-.
      rewrite (arena_index_nth _ j r' (mo_distinct _ _ Hm) Hj). split; [lia|done]. }
  destruct H as [H1 H2]. split; [done|]. unfold arena_alive. unfold levels_of in H1. rewrite H1. split; [lia|].
  destruct i; [right; by apply H2|left; lia].
Qed.

Lemma fwd_typed_old Γ Γ' old e : Γ' !! old = Γ !! old → Γ' !! fw_data e = Γ !! fw_data e → fwd_typed Γ old e → fwd_typed Γ' old e.
Proof. unfold fwd_typed. by intros -> ->. Qed.

Lemma level_mapped m p : 0 <= level m p → is_Some (m_heap m !! p).
Proof. unfold level, region_index_owning. destruct (m_heap m !! p); [done|lia]. Qed.

(** The forwards of the other regions survive a promotion. *)
Lemma forwards_extends Γ Γ' m m' i r : extends m m' → unborn m' = unborn m → (∀ p, is_Some (m_heap m !! p) → Γ' !! p = Γ !! p) →
  forwards_ok Γ m i r → forwards_ok Γ' m' i r.
Proof.
  intros Hx Hu HΓ Hf old e He. destruct (Hf old e He) as (H1 & H2 & [b E] & H4 & H5).
  assert (Ht : levels_of m' (fwd_target r) = levels_of m (fwd_target r)) by (apply arena_index_ext, Hx).
  pose proof (arena_index_range (region_stack m) (fwd_target r)) as Hr. unfold levels_of in *.
  destruct (level_mapped m old) as [b0 E0]; [lia|].
  rewrite Ht, (level_old _ _ _ _ Hx E), (level_old _ _ _ _ Hx E0). split; [done|]. split; [done|]. split; [exists b; by apply Hx|].
  split; [|by rewrite Hu]. eapply fwd_typed_old; [..|done]; by apply HΓ; eexists.
Qed.

Lemma current_at m r : region_current m = Some r ↔ region_stack m !! pred (depth m) = Some r.
Proof. unfold region_current, depth. by rewrite last_lookup. Qed.

Lemma target_born Γ m target : mem_ok Γ m → 0 <= levels_of m target ∨ root target = true → target < unborn m.
Proof.
  intros Hm [Ht|Ht]; [|by eapply mo_roots]. destruct (arena_index_inv _ _ _ eq_refl Ht) as (r & Hr & <-).
  eapply mo_regions; [done|by eapply list_elem_of_lookup_2].
Qed.

Lemma mem_abandoned Γ m m' target : mem_ok Γ m → 0 <= levels_of m target ∨ root target = true → abandoned m target m' → mem_ok Γ m'.
Proof.
  intros Hm Ht (Hx & E & Ha). pose proof (target_born _ _ _ Hm Ht) as Hb.
  assert (Hs : region_stack m' = region_stack m) by by rewrite E. assert (Hu : unborn m' = unborn m) by by rewrite E.
  destruct Hm as [Hw Hl Hf Hba Hd Hr Hbl Hro]. split; rewrite ?Hs, ?Hu; try done.
  - by eapply world_extends.
  - intros i r Hi. by eapply forwards_extends; [..|by apply Hf].
  - intros p b Ep. destruct (Ha p b Ep) as [?| ->]; [by eapply Hbl|done].
Qed.

(** The regions after a promotion: the current one keeps its forwards. *)
Lemma commit_lookup s f t n i r : on_current (λ r, with_forwards r f t n) s !! i = Some r →
  ∃ r0, s !! i = Some r0 ∧ (r = r0 ∧ i ≠ pred (length s) ∨ r = with_forwards r0 f t n ∧ i = pred (length s)).
Proof.
  unfold on_current. destruct (decide (i = pred (length s))) as [->|Hi].
  - rewrite list_lookup_alter_eq. destruct (s !! _) as [r0|]; [|done]. simpl. intros [= <-]. exists r0. split; [done|]. by right.
  - rewrite list_lookup_alter_ne by done. intros ->. exists r. split; [done|]. by left.
Qed.

Lemma base_arenas s s' i r r' : map r_arena s' = map r_arena s → escape_base r' = escape_base r → base_ok s i r → base_ok s' i r'.
Proof.
  intros Hs Hb. unfold base_ok. rewrite Hb. destruct i as [|j]; [done|]. intros H.
  rewrite <- H. rewrite <- !list_lookup_fmap. change (fmap r_arena) with (map r_arena). by rewrite Hs.
Qed.

Lemma mem_promotion Γ Γ' m target owner values out m' f : mem_ok Γ m → region_current m = Some owner →
  0 <= levels_of m target ∨ root target = true →
  batch_done Γ m target (levels_of m target) (reusable owner target) values out m' f Γ' → mem_ok Γ' m'.
Proof.
  intros Hm Hcur Ht (Hp & Hc & _). pose proof (target_born _ _ _ Hm Ht) as Hb. pose proof (pr_extends _ _ _ _ _ _ _ _ Hp) as Hx.
  pose proof (x_arenas _ _ Hx) as Ha.
  assert (Hu : unborn m' = unborn m) by (destruct Hc as [[-> _]|[n ->]]; done).
  assert (Hs : ∀ i r, region_stack m' !! i = Some r → ∃ r0, region_stack m !! i = Some r0 ∧ r_arena r = r_arena r0 ∧
    escape_base r = escape_base r0 ∧ (r = r0 ∨ i = pred (depth m) ∧ fwd_map r = f ∧ fwd_target r = target)).
  { intros i r Hr. destruct Hc as [[-> _]|[n E]]; [exists r; repeat split; [done|by left]|].
    rewrite E in Hr. simpl in Hr. destruct (commit_lookup _ _ _ _ _ _ Hr) as (r0 & Hr0 & [[-> _]|[-> ->]]); exists r0; repeat split; try done;
      [by left|by right]. }
  split; rewrite ?Hu; try (by apply Hm); try (by apply Hp).
  - intros p c sub l HΓ. destruct (m_heap m !! p) as [b|] eqn:E; [|by eapply (pr_layout _ _ _ _ _ _ _ _ Hp)].
    rewrite (pr_old_types _ _ _ _ _ _ _ _ Hp) in HΓ by by eexists. by eapply mo_layout.
  - intros i r Hr. destruct (Hs i r Hr) as (r0 & Hr0 & _ & _ & [-> |(-> & Hf & Htg)]).
    + eapply forwards_extends; [done|done|apply Hp|by apply (mo_forwards _ _ Hm)].
    + intros old e He. rewrite Hf in He. unfold levels_of. rewrite Htg.
      destruct (pv_entry _ _ _ _ (pr_previous _ _ _ _ _ _ _ _ Hp) old e He) as (H1 & H2 & H3 & H4).
      pose proof (level_range m' old) as Hlr.
      assert (Hdep : depth m' = depth m). { unfold depth. rewrite <- (length_map r_arena), Ha. by rewrite length_map. }
      rewrite (arena_index_ext _ _ 0 target Ha). split; [unfold levels_of in *; lia|].
      rewrite Hu. done.
  - intros i r Hr. destruct (Hs i r Hr) as (r0 & Hr0 & _ & Hbs & _). eapply base_arenas; [exact Ha|exact Hbs|]. by eapply mo_bases.
  - unfold distinct_arenas. rewrite Ha. apply Hm.
  - intros r [i Hr]%list_elem_of_lookup_1. destruct (Hs i r Hr) as (r0 & Hr0 & -> & _). eapply mo_regions; [done|]. by eapply list_elem_of_lookup_2.
  - intros p b E. destruct (m_heap m !! p) as [b0|] eqn:E0.
    + pose proof (x_old _ _ Hx p b0 E0). simplify_eq. by apply (mo_blocks _ _ Hm p).
    + by rewrite (pr_new _ _ _ _ _ _ _ _ Hp p b E E0).
Qed.

(** A promotion past the arena [target], from whatever region is current. *)
Lemma promote_ok Γ m target owner values : mem_ok Γ m → region_current m = Some owner →
  0 <= levels_of m target ∨ root target = true → Forall (value_word extern Γ) values →
  ∃ status out m', region_evacuate_batch values (Some target) (levels_of m target) m = Some (status, out, m') ∧
    if decide (status = 0) then
      ∃ Γ' f, batch_done Γ m target (levels_of m target) (reusable owner target) values out m' f Γ' ∧ mem_ok Γ' m'
    else out = values ∧ abandoned m target m' ∧ mem_ok Γ m'.
Proof.
  intros Hm Hcur Ht Hv. pose proof (mem_previous _ _ target _ _ Hm (proj1 (current_at _ _) Hcur)) as Hp.
  edestruct (region_evacuate_batch_ok Γ m target (levels_of m target) (reusable owner target)) as (status & out & m' & E & H); try done.
  - apply Hm.
  - unfold levels_of. pose proof (arena_index_range (region_stack m) target). lia.
  - exists status, out, m'. split; [done|]. destruct (decide (status = 0)).
    + destruct H as (Γ' & f & H). exists Γ', f. split; [done|]. by eapply mem_promotion.
    + destruct H as [-> H]. split; [done|]. split; [done|]. by eapply mem_abandoned.
Qed.
End region.
