(* ===== verification/RegionStack.v ===== *)
(** * RegionStack: opening, closing and recycling a region

    Each operation on the region stack keeps memory well formed, with a typing that
    forgets the blocks that are freed. *)

From S2P Require Export RegionSpec.
Local Open Scope Z_scope.

Section stack.
Context (extern root : Z → bool).

(** ** Freeing the blocks of the current region *)

(** [m'] is [m] without the blocks of the arena [a]. *)
Record dropped (m m' : memory) (a : Z) : Prop := {
  dr_heap : m_heap m' = arena_destroy (m_heap m) a;
  dr_next : m_next m' = m_next m;
  dr_unborn : unborn m' = unborn m;
  dr_index x : x ≠ a → levels_of m' x = levels_of m x
}.

Definition kept (Γ : typing) (m : memory) (r : region) : typing := filter (λ kv, level m kv.1 < levels_of m (r_arena r)) Γ.

Lemma kept_some Γ m r p τ : kept Γ m r !! p = Some τ ↔ Γ !! p = Some τ ∧ level m p < levels_of m (r_arena r).
Proof. apply map_lookup_filter_Some. Qed.

Lemma kept_same Γ m r p : level m p < levels_of m (r_arena r) → kept Γ m r !! p = Γ !! p.
Proof.
  intros Hp. apply option_eq. intros τ. rewrite kept_some. by split; [intros [? _]|].
Qed.

Lemma slot_ok_kept Γ m r σ w : slot_ok extern Γ σ w → (∀ d, target_of σ w = Some d → level m d < levels_of m (r_arena r)) →
  slot_ok extern (kept Γ m r) σ w.
Proof.
  intros Hok Ht.
  assert (Hv : ∀ t d, value_ok extern Γ t d → (region_value_carries_pointer t = true → level m d < levels_of m (r_arena r)) → value_ok extern (kept Γ m r) t d).
  { intros t d H Hl Hc Hd He. destruct (H Hc Hd He) as (? & ? & Hk). repeat split; [done..|]. rewrite kept_same by auto. done. }
  destruct σ, w; simpl in *; try done.
  - apply Hv; [done|]. intros Hc. apply Ht. by rewrite Hc.
  - destruct Hok as [Hok ?]. split; [|done]. apply Hv; [done|]. intros Hc. apply Ht. by rewrite Hc.
  - rewrite kept_same by auto. done.
  - rewrite kept_same by auto. done.
  - rewrite kept_same by auto. done.
  - rewrite kept_same by auto. done.
Qed.

Section dropped.
Context (Γ : typing) (m m' : memory) (r : region).
Context (Hm : mem_ok extern root Γ m) (Hcur : region_current m = Some r) (Hdr : dropped m m' (r_arena r)).

Local Abbreviation top := (levels_of m (r_arena r)).

Lemma top_level : top = Z.of_nat (depth m) - 1.
Proof.
  pose proof (proj1 (current_at _ _) Hcur) as Hr. unfold levels_of. rewrite (arena_index_nth _ _ _ (mo_distinct _ _ _ _ Hm) Hr).
  apply lookup_lt_Some in Hr. unfold depth in *. lia.
Qed.

Lemma levels_top x : levels_of m x = top → x = r_arena r.
Proof.
  intros E. pose proof (proj1 (current_at _ _) Hcur) as Hr. pose proof (lookup_lt_Some _ _ _ Hr). rewrite top_level in E.
  destruct (arena_index_inv _ _ _ E) as (r' & Hr' & <-); [unfold depth in *; lia|].
  replace (Z.to_nat _) with (pred (depth m)) in Hr' by (unfold depth in *; lia). by simplify_eq.
Qed.

Lemma below_top p b : m_heap m !! p = Some b → level m p < top ↔ arena_of b ≠ r_arena r.
Proof.
  intros E. pose proof (level_range m p) as Hl. pose proof top_level as Ht. unfold level, region_index_owning in *. rewrite E in *. split.
  - intros H Ha. rewrite Ha in H. unfold levels_of in H. lia.
  - intros Ha. destruct (decide (arena_index (region_stack m) 0 (arena_of b) = top)) as [Hi|]; [by apply levels_top in Hi|lia].
Qed.

Lemma dropped_some p b : m_heap m' !! p = Some b ↔ m_heap m !! p = Some b ∧ arena_of b ≠ r_arena r.
Proof. rewrite (dr_heap _ _ _ Hdr). apply map_lookup_filter_Some. Qed.

Lemma dropped_level p : level m p < top → level m' p = level m p.
Proof.
  intros Hp. unfold level, region_index_owning. destruct (m_heap m !! p) as [b|] eqn:E.
  - pose proof (proj1 (below_top p b E) Hp) as Ha. rewrite (proj2 (dropped_some p b) (conj E Ha)). by apply (dr_index _ _ _ Hdr).
  - destruct (m_heap m' !! p) as [b|] eqn:E'; [|done]. apply dropped_some in E' as [? _]. congruence.
Qed.

Lemma dropped_alive bnd a : bnd < top → arena_alive root (region_stack m) bnd a → arena_alive root (region_stack m') bnd a.
Proof.
  intros Hb [H1 H2]. unfold arena_alive. fold (levels_of m' a). fold (levels_of m a) in H1, H2.
  rewrite (dr_index _ _ _ Hdr); [done|]. intros ->. lia.
Qed.

Lemma dropped_world : world_ok extern root (kept Γ m r) m'.
Proof.
  pose proof (mo_world _ _ _ _ Hm) as Hw.
  assert (Hsub : ∀ p b, m_heap m' !! p = Some b → m_heap m !! p = Some b) by (intros p b [? _]%dropped_some; done).
  assert (Hclean : ∀ p τ b i σ w, kept Γ m r !! p = Some τ → m_heap m !! p = Some b → slots τ !! i = Some σ → words b !! i = Some w →
    clean root (region_stack m) (level m p) (m_heap m) σ w ∧ level m p < top ∧ ∀ d, target_of σ w = Some d → level m d <= level m p).
  { intros p τ b i σ w [HΓ Hp]%kept_some E Hσ Hwd. pose proof (w_lifetime _ _ _ _ Hw _ _ _ _ _ _ HΓ E Hσ Hwd) as Hc.
    split; [done|]. split; [done|]. intros d Hd. apply Hc in Hd. by apply Z.ltb_ge in Hd. }
  split.
  - intros p τ Hk. pose proof Hk as [HΓ Hp]%kept_some. destruct (w_typed _ _ _ _ Hw p τ HΓ) as (b & E & Hh & Hwid & Hs).
    exists b. split; [apply dropped_some; split; [done|by apply (below_top p)]|]. split; [done|]. split; [done|].
    intros i σ Hi. destruct (Hs i σ Hi) as (w & Hiw & Hok). exists w. split; [done|].
    apply slot_ok_kept; [done|]. intros d Hd. destruct (Hclean p τ b i σ w) as (_ & ? & Hl); try done. specialize (Hl d Hd). lia.
  - intros p τ b i σ w Hk E Hσ Hwd. destruct (Hclean p τ b i σ w) as ([_ Ha] & Hp & Hl); [done|by apply Hsub|done|done|].
    rewrite (dropped_level p Hp). split.
    + intros d Hd. specialize (Hl d Hd). apply Z.ltb_ge. fold (level m' d). rewrite dropped_level by lia. done.
    + intros a Hσa Hwa. eapply dropped_alive; [done|by apply Ha].
  - destruct (m_heap m' !! 0) eqn:E; [|done]. apply Hsub in E. by rewrite (w_null _ _ _ _ Hw) in E.
  - rewrite (dr_next _ _ _ Hdr). apply Hw.
  - intros p b E%Hsub. rewrite (dr_next _ _ _ Hdr). by apply (w_below _ _ _ _ Hw p b).
  - intros d He. rewrite (dr_next _ _ _ Hdr). destruct (w_extern _ _ _ _ Hw d He) as [E ?]. split; [|done].
    destruct (m_heap m' !! d) eqn:E'; [|done]. apply Hsub in E'. congruence.
Qed.

(** The forwards of the regions below stay true. *)
Lemma dropped_forwards i r' : region_stack m !! i = Some r' → Z.of_nat i < top → forwards_ok (kept Γ m r) m' i r'.
Proof.
  intros Hi Hlt old e He. destruct (mo_forwards _ _ _ _ Hm i r' Hi old e He) as (H1 & H2 & [b E] & H4 & H5).
  assert (Ht : levels_of m' (fwd_target r') = levels_of m (fwd_target r')) by (apply (dr_index _ _ _ Hdr); intros Ha; rewrite Ha in *; lia).
  rewrite Ht, !dropped_level by lia. split; [done|]. split; [done|]. split.
  - exists b. apply dropped_some. split; [done|]. apply (below_top (fw_data e)); [done|lia].
  - split; [eapply fwd_typed_old; [..|done]; apply kept_same; lia|]. by rewrite (dr_unborn _ _ _ Hdr).
Qed.

Lemma dropped_value w : value_word extern Γ w → (∀ d, target_of Val w = Some d → level m d < top) → value_word extern (kept Γ m r) w.
Proof.
  intros (t & f & d & -> & Hv) Hl. exists t, f, d. split; [done|]. exact (slot_ok_kept Γ m r Val (Tag t 0 d) Hv Hl).
Qed.
End dropped.

(** Memory is as well formed as its heap and its regions. *)
Lemma mem_same Γ m m' : m_heap m' = m_heap m → m_next m' = m_next m → region_stack m' = region_stack m → unborn m' = unborn m →
  mem_ok extern root Γ m → mem_ok extern root Γ m'.
Proof.
  destruct m, m'. simpl. intros -> -> -> -> [[H1 H2 H3 H4 H5 H6] H7 H8 H9 H10 H11 H12 H13].
  split; [split; [exact H1|exact H2|exact H3|exact H4|exact H5|exact H6]|exact H7|exact H8|exact H9|exact H10|exact H11|exact H12|exact H13].
Qed.

(** ** Leaving a region *)

Lemma arena_index_snoc s r i a : 0 <= i → arena_index (s ++ [r]) i a = if r_arena r =? a then i + Z.of_nat (length s) else arena_index s i a.
Proof.
  revert i. induction s as [|r0 s IH]; intros i Hi; simpl; [destruct (_ =? _); [lia|done]|]. rewrite IH by lia.
  destruct (r_arena r =? a); [rewrite (proj2 (Z.leb_le _ _)) by lia; lia|done].
Qed.

Lemma stack_snoc m r : region_current m = Some r → region_stack m = take (pred (depth m)) (region_stack m) ++ [r].
Proof.
  intros Hr%current_at. pose proof (lookup_lt_Some _ _ _ Hr). rewrite <- (take_S_r _ _ _ Hr).
  rewrite firstn_all2 by (unfold depth in *; lia). done.
Qed.

Lemma pop_memory m r : region_current m = Some r → pinned r = false →
  region_pop m = set_heap (set_stack m (take (pred (depth m)) (region_stack m))) (arena_destroy (m_heap m) (r_arena r)) (m_next m) (m_budget m).
Proof. intros Hr Hp. unfold region_pop, region_destroy. by rewrite Hr, Hp. Qed.

Lemma pop_dropped m r : region_current m = Some r → pinned r = false → dropped m (region_pop m) (r_arena r).
Proof.
  intros Hr Hp. rewrite (pop_memory m r Hr Hp). split; try done. intros x Hx. unfold levels_of. simpl. rewrite (stack_snoc m r Hr) at 2.
  rewrite arena_index_snoc by lia. destruct (Z.eqb_spec (r_arena r) x); [congruence|done].
Qed.

Lemma region_popped_ok Γ m r : mem_ok extern root Γ m → region_current m = Some r → pinned r = false →
  mem_ok extern root (kept Γ m r) (region_pop m).
Proof.
  intros Hm Hr Hp. pose proof (pop_dropped m r Hr Hp) as Hd.
  assert (Hs : ∀ i r', region_stack (region_pop m) !! i = Some r' → region_stack m !! i = Some r' ∧ Z.of_nat i < levels_of m (r_arena r)).
  { intros i r' Hi. rewrite (pop_memory m r Hr Hp) in Hi. simpl in Hi. pose proof (lookup_lt_Some _ _ _ Hi) as Hlt. rewrite length_take in Hlt.
    rewrite lookup_take_lt in Hi by lia. split; [done|]. rewrite (top_level Γ m r Hm Hr). unfold depth in *. lia. }
  split.
  - by eapply dropped_world.
  - intros p c sub l [HΓ _]%kept_some. by eapply mo_layout.
  - intros i r' Hi. destruct (Hs i r' Hi). by eapply dropped_forwards.
  - intros i r' Hi. destruct (Hs i r' Hi) as [Hi' Hlt]. pose proof (mo_bases _ _ _ _ Hm i r' Hi') as Hb. destruct i as [|j]; [exact Hb|].
    unfold base_ok in *. rewrite (pop_memory m r Hr Hp). simpl. rewrite lookup_take_lt; [done|].
    rewrite (top_level Γ m r Hm Hr) in Hlt. unfold depth in *. lia.
  - unfold distinct_arenas. rewrite (pop_memory m r Hr Hp). simpl. pose proof (mo_distinct _ _ _ _ Hm) as Hn.
    unfold distinct_arenas in Hn. rewrite (stack_snoc m r Hr), map_app in Hn. by apply list.NoDup_app in Hn as [? _].
  - intros r' [i Hi]%list_elem_of_lookup_1. destruct (Hs i r' Hi) as [Hi' _]. rewrite (dr_unborn _ _ _ Hd).
    eapply mo_regions; [done|by eapply list_elem_of_lookup_2].
  - intros p b E. rewrite (dr_unborn _ _ _ Hd). eapply (dropped_some m (region_pop m) r Hd) in E as [E _]. by eapply mo_blocks.
  - intros a. rewrite (dr_unborn _ _ _ Hd). by eapply mo_roots.
Qed.

(** The end of one region: the values are promoted to the arena below it, and its
    blocks are freed. *)
Record left_region (m m' : memory) (r : region) : Prop := {
  lf_stack : region_stack m' = take (pred (depth m)) (region_stack m);
  lf_slot : global_arena m' = default (global_arena m) (entry_saved_arena r);
  lf_old p b : m_heap m !! p = Some b → level m p < Z.of_nat (depth m) - 1 → m_heap m' !! p = Some b;
  lf_new p b : m_heap m' !! p = Some b → arena_of b ≠ r_arena r ∧ (m_heap m !! p = Some b ∨ arena_of b = escape_base r)
}.

Definition leave_region (r : region) (m : memory) : memory :=
  region_pop (eshkol_region_leave (entry_saved_arena r) (rh_retire_at (depth m) m)).

Lemma batch_current Γ m target prev values out m' f Γ' bnd r : region_current m = Some r →
  batch_done extern root Γ m target bnd prev values out m' f Γ' →
  ∃ r', region_current m' = Some r' ∧ r_arena r' = r_arena r ∧ entry_saved_arena r' = entry_saved_arena r ∧ escape_base r' = escape_base r ∧
    pinned r' = pinned r ∧ take (pred (depth m')) (region_stack m') = take (pred (depth m)) (region_stack m) ∧ global_arena m' = global_arena m ∧
    depth m' = depth m ∧ unborn m' = unborn m.
Proof.
  intros Hr (_ & [[-> _]|[n ->]] & _); [by exists r|]. apply current_at in Hr.
  exists (with_forwards r f target n). rewrite current_at. unfold depth in *. simpl. unfold on_current. rewrite length_alter, list_lookup_alter_eq, Hr.
  repeat split. rewrite take_alter_ge by done. done.
Qed.

Lemma escape_ok Γ m r values : mem_ok extern root Γ m → region_current m = Some r → Forall (value_word extern Γ) values →
  ∃ p, region_escape_batch_or_raise values m = Some p ∧
    match p with
    | Passed out m' => ∃ Γ' f, batch_done extern root Γ m (escape_base r) (levels_of m (escape_base r)) (reusable r (escape_base r)) values out m' f Γ' ∧
        mem_ok extern root Γ' m'
    | EmergencyRaise status m' => status ≠ 0 ∧ mem_ok extern root Γ m' ∧ abandoned m (escape_base r) m'
    end.
Proof.
  intros Hm Hr Hv. pose proof (proj1 (current_at _ _) Hr) as Hi. pose proof (lookup_lt_Some _ _ _ Hi) as Hlt.
  destruct (base_level _ _ _ _ _ _ Hm Hi) as [Hlev [_ Halive]].
  destruct (promote_ok extern root Γ m (escape_base r) r values Hm Hr) as (status & out & m' & E & H); [|done|].
  { destruct Halive; [by left|by right]. }
  unfold region_escape_batch_or_raise, region_escape_target. rewrite Hr.
  replace (levels_of m (escape_base r)) with (Z.of_nat (depth m) - 2) in E by (rewrite Hlev; unfold depth in *; lia).
  destruct values as [|v values].
  - eexists. split; [done|]. exists Γ, (reusable r (escape_base r)). split; [|done].
    split; [apply no_promotion; [apply Hm|by eapply mem_previous]|]. split; [by left|done].
  - rewrite E. eexists. split; [done|]. destruct (decide (status = 0)) as [->|Hne]; simpl; [done|].
    destruct H as (_ & Ha & Hm'). rewrite (proj2 (Z.eqb_neq _ _) Hne). done.
Qed.

Lemma close_ok Γ m r values : mem_ok extern root Γ m → region_current m = Some r → pinned r = false → Forall (value_word extern Γ) values →
  ∃ p, region_escape_batch_or_raise values m = Some p ∧
    match p with
    | Passed out m1 => ∃ Γ', let m' := leave_region r m1 in
        mem_ok extern root Γ' m' ∧ Forall (value_word extern Γ') out ∧ left_region m m' r
    | EmergencyRaise status m' => status ≠ 0 ∧ mem_ok extern root Γ m' ∧ abandoned m (escape_base r) m'
    end.
Proof.
  intros Hm Hr Hp Hv. pose proof (proj1 (current_at _ _) Hr) as Hi. pose proof (lookup_lt_Some _ _ _ Hi) as Hlt.
  destruct (base_level _ _ _ _ _ _ Hm Hi) as [Hlev [_ Halive]]. unfold levels_of in Hlev.
  destruct (escape_ok Γ m r values Hm Hr Hv) as (p & Ep & H). exists p. split; [done|]. destruct p as [out m1|status m1]; [|done].
  destruct H as (Γ' & f & Hb & Hm1).
  destruct (batch_current _ _ _ _ _ _ _ _ _ _ _ Hr Hb) as (r' & Hr' & Ha & Hs & Hbs & Hp' & Ht & Hg & Hdp & Hu).
  destruct Hb as (Hpr & _ & _ & Hv' & Hlow). pose proof (pr_extends _ _ _ _ _ _ _ _ _ _ Hpr) as Hx.
  set (m2 := eshkol_region_leave (entry_saved_arena r) (rh_retire_at (depth m1) m1)).
  assert (Hm2 : mem_ok extern root Γ' m2) by (by apply (mem_same Γ' m1); unfold m2, eshkol_region_leave; destruct (entry_saved_arena r)).
  assert (E2 : m_heap m2 = m_heap m1 ∧ region_stack m2 = region_stack m1) by (by unfold m2, eshkol_region_leave; destruct (entry_saved_arena r)).
  destruct E2 as [E2 E2s].
  assert (Hr2 : region_current m2 = Some r') by (unfold region_current; by rewrite E2s).
  rewrite Hp in Hp'. exists (kept Γ' m2 r'). unfold leave_region. fold m2.
  assert (Htop : levels_of m2 (r_arena r') = Z.of_nat (depth m) - 1).
  { rewrite (top_level Γ' m2 r' Hm2 Hr2). unfold depth in *. rewrite E2s. lia. }
  pose proof (pop_dropped m2 r' Hr2 Hp') as Hdr.
  split; [by apply region_popped_ok|]. split.
  - rewrite Forall_forall in Hv', Hlow |- *. intros w Hw. apply dropped_value; [by apply Hv'|].
    intros d Hd. rewrite Htop. specialize (Hlow w Hw d Hd). unfold level in *. rewrite E2, E2s. unfold levels_of in Hlow. unfold depth in *. lia.
  - split.
    + rewrite (pop_memory m2 r' Hr2 Hp'). simpl. unfold depth at 1. rewrite E2s. exact Ht.
    + rewrite (pop_memory m2 r' Hr2 Hp'). simpl. unfold m2, eshkol_region_leave. destruct (entry_saved_arena r); [done|exact Hg].
    + intros p b E Hl. apply (dropped_some _ _ _ Hdr). rewrite E2. split; [by apply Hx|]. rewrite Ha.
      eapply (below_top Γ m r Hm Hr p b E). rewrite (top_level Γ m r Hm Hr). done.
    + intros p b E. apply (dropped_some _ _ _ Hdr) in E as [E Hne]. rewrite E2 in E. rewrite Ha in Hne. split; [done|].
      destruct (m_heap m !! p) as [b0|] eqn:E0; [left; by rewrite (x_old _ _ Hx p b0 E0) in E|right].
      by apply (pr_new _ _ _ _ _ _ _ _ _ _ Hpr p b).
Qed.

(** ** Entering a region *)

(** What the invariant reads of a region. *)
Definition same_region (r r' : region) : Prop :=
  r_arena r' = r_arena r ∧ escape_base r' = escape_base r ∧ fwd_map r' = fwd_map r ∧ fwd_target r' = fwd_target r.

Lemma mem_restack Γ m m' : mem_ok extern root Γ m → m_heap m' = m_heap m → m_next m' = m_next m → unborn m' = unborn m →
  Forall2 same_region (region_stack m) (region_stack m') → mem_ok extern root Γ m'.
Proof.
  intros Hm Eh En Eu Hf.
  assert (Ha : map r_arena (region_stack m') = map r_arena (region_stack m)).
  { clear -Hf. induction Hf as [|r r' l l' (E & _) _ IH]; simpl; [done|]. by rewrite E, IH. }
  assert (Hx : extends m m').
  { split; rewrite ?Eh, ?En; try done; [by left|]. apply (mo_world _ _ _ _ Hm). }
  assert (Hs : ∀ i r', region_stack m' !! i = Some r' → ∃ r, region_stack m !! i = Some r ∧ same_region r r').
  { intros i r' E. destruct (Forall2_lookup_r _ _ _ i r' Hf E) as (r & ? & ?). by exists r. }
  split; rewrite ?Eu, ?Eh; try (by apply Hm).
  - by eapply world_extends; [apply Hm|].
  - intros i r' Hi. destruct (Hs i r' Hi) as (r & Hr & _ & _ & E1 & E2).
    pose proof (forwards_extends Γ Γ m m' i r Hx Eu (λ _ _, eq_refl) (mo_forwards _ _ _ _ Hm i r Hr)) as H.
    intros old e. rewrite E1, E2. apply H.
  - intros i r' Hi. destruct (Hs i r' Hi) as (r & Hr & _ & E & _). eapply base_arenas; [done..|]. by eapply mo_bases.
  - unfold distinct_arenas. rewrite Ha. apply Hm.
  - intros r' [i Hi]%list_elem_of_lookup_1. destruct (Hs i r' Hi) as (r & Hr & -> & _). eapply mo_regions; [done|]. by eapply list_elem_of_lookup_2.
Qed.

Lemma same_stack f l : (∀ r, same_region r (f r)) → Forall2 same_region l (map f l).
Proof. intros Hf. induction l; constructor; auto. Qed.

Lemma same_current f l : (∀ r, same_region r (f r)) → Forall2 same_region l (on_current f l).
Proof.
  intros Hf. apply Forall2_same_length_lookup_2; [symmetry; apply length_alter|]. intros i r r' Hr. unfold on_current.
  destruct (decide (i = pred (length l))) as [->|]; [rewrite list_lookup_alter_eq, Hr|rewrite list_lookup_alter_ne, Hr by done].
  - intros [= <-]. apply Hf.
  - by intros [= <-].
Qed.

Lemma enter_ok Γ m r : mem_ok extern root Γ m → mem_ok extern root Γ (snd (eshkol_region_enter r m)).
Proof.
  intros Hm. unfold eshkol_region_enter, on_region.
  destruct (_ || _); apply (mem_restack Γ m); try done; apply same_stack; intros r'; by destruct (_ =? _).
Qed.

Lemma mem_reborn Γ m : mem_ok extern root Γ m → mem_ok extern root Γ (set_unborn m (unborn m + 1)).
Proof.
  intros [Hw Hl Hf Hb Hd Hr Hbl Hro]. split; try done.
  - by destruct Hw.
  - intros i r Hi old e He. destruct (Hf i r Hi old e He) as (? & ? & ? & ? & Hlt).
    split; [done|]. split; [done|]. split; [done|]. split; [done|]. simpl. lia.
  - intros r H. destruct (Hr r H). simpl. split; [done|lia].
  - intros p b E. specialize (Hbl p b E). simpl. lia.
  - intros a Ha. specialize (Hro a Ha). simpl. lia.
Qed.

(** A new region has an arena of its own, and escapes to the arena below it. *)
Lemma push_ok Γ m r m1 : mem_ok extern root Γ m → (region_stack m = [] → root (get_global_arena m) = true) →
  region_create true m = Some (r, m1) → mem_ok extern root Γ (region_push r m1).
Proof.
  intros Hm Hg [= <- <-]. unfold region_push. destruct (_ <=? _)%nat.
  { by apply mem_reborn. }
  set (base := match region_current _ with Some parent => r_arena parent | None => _ end).
  set (new := with_base _ base). set (m' := set_stack _ _).
  assert (Hidx : ∀ a, a < unborn m → levels_of m' a = levels_of m a).
  { intros a Ha. unfold levels_of, m'. simpl. rewrite arena_index_snoc by lia. simpl. by destruct (Z.eqb_spec (unborn m) a); [lia|]. }
  assert (Hlev : ∀ p, level m' p = level m p).
  { intros p. unfold level, region_index_owning, m'. simpl. destruct (m_heap m !! p) as [b|] eqn:E; [|done].
    apply (Hidx (arena_of b)). by eapply mo_blocks. }
  assert (Halive : ∀ bnd a, arena_alive root (region_stack m) bnd a → arena_alive root (region_stack m') bnd a).
  { intros bnd a [H1 H2]. unfold arena_alive. fold (levels_of m' a). fold (levels_of m a) in H1, H2. rewrite Hidx; [done|].
    by eapply target_born. }
  assert (Hstack : ∀ i r, region_stack m' !! i = Some r → region_stack m !! i = Some r ∨ i = depth m ∧ r = new).
  { intros i r. unfold m'. simpl. intros [?|(Hge & Hr)]%lookup_app_Some; [by left|]. right. unfold depth.
    apply list_lookup_singleton_Some in Hr as [? <-]. split; [lia|done]. }
  pose proof (mo_world _ _ _ _ Hm) as [Ht Hlt H3 H4 H5 H6].
  split; try (by apply Hm).
  - split; try done. intros p τ b i σ w HΓ E Hσ Hw. destruct (Hlt p τ b i σ w HΓ E Hσ Hw) as [Hc1 Hc2]. rewrite Hlev. split.
    + intros d Hd. specialize (Hc1 d Hd). unfold dying in *. pose proof (Hlev d) as Hd'. unfold level in Hd'. rewrite Hd'. exact Hc1.
    + intros a Hσa Hwa. apply Halive. by apply Hc2.
  - intros i r Hi. destruct (Hstack i r Hi) as [Hr|[-> ->]]; [|intros old e He; simpl in He; by rewrite lookup_empty in He].
    intros old e He. destruct (mo_forwards _ _ _ _ Hm i r Hr old e He) as (? & ? & ? & ? & ?). rewrite Hidx, !Hlev by done.
    split; [done|]. split; [done|]. split; [done|]. split; [done|]. simpl. lia.
  - intros i r Hi. destruct (Hstack i r Hi) as [Hr|[-> ->]].
    + pose proof (mo_bases _ _ _ _ Hm i r Hr) as Hb. destruct i as [|j]; [exact Hb|]. unfold base_ok in *. unfold m'. simpl.
      apply lookup_lt_Some in Hr. rewrite lookup_app_l by lia. done.
    + unfold base_ok. destruct (depth m) as [|j] eqn:Ed.
      * apply length_zero_iff_nil in Ed. unfold new, base, region_current. simpl. rewrite Ed. by apply Hg.
      * assert (is_Some (region_stack m !! j)) as [r Hr] by (apply lookup_lt_is_Some; unfold depth in Ed; lia).
        unfold m'. simpl. rewrite lookup_app_l by (unfold depth in Ed; lia). rewrite Hr. simpl. unfold new, base, region_current. simpl.
        rewrite last_lookup. unfold depth in Ed. rewrite Ed. simpl. by rewrite Hr.
  - unfold distinct_arenas, m'. simpl. rewrite map_app. apply list.NoDup_app. split; [apply Hm|]. split; [|apply NoDup_singleton].
    intros a (r & -> & Hr)%list_elem_of_fmap E%list_elem_of_singleton. destruct (mo_regions _ _ _ _ Hm r Hr). simpl in E. lia.
  - intros r [i Hi]%list_elem_of_lookup_1. destruct (Hstack i r Hi) as [Hr|[-> ->]]; simpl.
    + destruct (mo_regions _ _ _ _ Hm r) as [? ?]; [by eapply list_elem_of_lookup_2|]. split; [done|lia].
    + split; [|lia]. destruct (root (unborn m)) eqn:E; [|done]. apply (mo_roots _ _ _ _ Hm) in E. lia.
  - intros p b E. pose proof (mo_blocks _ _ _ _ Hm p b E). simpl. lia.
  - intros a Ha. pose proof (mo_roots _ _ _ _ Hm a Ha). simpl. lia.
Qed.

(** ** Storing a value *)

Definition store (p : Z) (i : nat) (w : word) (m : memory) : memory :=
  set_heap m (alter (λ b, set_word b i w) p (m_heap m)) (m_next m) (m_budget m).

Lemma store_lookup p i w m q b : m_heap (store p i w m) !! q = Some b →
  ∃ b0, m_heap m !! q = Some b0 ∧ arena_of b = arena_of b0 ∧ (b = b0 ∧ q ≠ p ∨ b = set_word b0 i w ∧ q = p).
Proof.
  simpl. destruct (decide (q = p)) as [->|Hq].
  - rewrite lookup_alter_eq. destruct (m_heap m !! p) as [b0|]; [|done]. simpl. intros [= <-]. exists b0. split; [done|]. split; [done|by right].
  - rewrite lookup_alter_ne by done. intros E. exists b. split; [done|]. split; [done|by left].
Qed.

Lemma store_level p i w m q : level (store p i w m) q = level m q.
Proof.
  unfold level, region_index_owning. simpl. destruct (decide (q = p)) as [->|Hq]; [|by rewrite lookup_alter_ne].
  rewrite lookup_alter_eq. by destruct (m_heap m !! p).
Qed.

Lemma store_some p i w m q : is_Some (m_heap (store p i w m) !! q) ↔ is_Some (m_heap m !! q).
Proof. simpl. apply lookup_alter_is_Some. Qed.

(** A word that fits the role of its slot and outlives its block may be stored. *)
Lemma store_slot_world Γ m p i τ σ0 w : world_ok extern root Γ m → Γ !! p = Some τ → slots τ !! i = Some σ0 → slot_ok extern Γ σ0 w →
  clean root (region_stack m) (level m p) (m_heap m) σ0 w → world_ok extern root Γ (store p i w m).
Proof.
  intros Hw Hp Hi Hv Hlow.
  assert (Hnone : ∀ q, m_heap m !! q = None → m_heap (store p i w m) !! q = None).
  { intros q E. destruct (m_heap (store p i w m) !! q) as [b|] eqn:E'; [|done].
    apply store_lookup in E' as (b0 & ? & _). congruence. }
  assert (Hlen : ∀ b, m_heap m !! p = Some b → (i < length (words b))%nat).
  { intros b E. destruct (w_typed _ _ _ _ Hw p τ Hp) as (b' & E' & _ & _ & Hs). simplify_eq.
    destruct (Hs i σ0 Hi) as (w' & Hiw & _). by apply lookup_lt_Some in Hiw. }
  split.
  - intros q τq HΓ. destruct (w_typed _ _ _ _ Hw q τq HΓ) as (b & E & Hh & Hwd & Hs). destruct (decide (q = p)) as [->|Hq].
    + simplify_eq. exists (set_word b i w). simpl. rewrite lookup_alter_eq, E. split; [done|]. split; [done|].
      split; [apply Forall_insert; [done|]; apply slot_ok_width in Hv; lia|].
      intros k σ Hk. simpl. destruct (Hs k σ Hk) as (w' & Hw' & Hok). destruct (decide (k = i)) as [->|].
      * simplify_eq. exists w. split; [by apply list_lookup_insert_eq, Hlen|done].
      * exists w'. by rewrite list_lookup_insert_ne.
    + exists b. simpl. by rewrite lookup_alter_ne.
  - intros q τq b k σ w' HΓ E Hk Hkw. rewrite store_level. apply store_lookup in E as (b0 & E & _ & Hb).
    assert (Hcase : clean root (region_stack m) (level m q) (m_heap m) σ w').
    { destruct Hb as [[-> _]|[-> ->]]; [by eapply w_lifetime|]. simpl in Hkw. destruct (decide (k = i)) as [->|].
      - simplify_eq. rewrite list_lookup_insert_eq in Hkw by by apply Hlen. by simplify_eq.
      - rewrite list_lookup_insert_ne in Hkw by done. by eapply w_lifetime. }
    destruct Hcase as [H1 H2]. split; [|done]. intros x Hx. specialize (H1 x Hx). unfold dying in *.
    pose proof (store_level p i w m x) as H. unfold level in H. simpl in H. simpl. by rewrite H.
  - apply Hnone, Hw.
  - apply Hw.
  - intros q b E. apply store_lookup in E as (b0 & E & _). by apply (w_below _ _ _ _ Hw q b0).
  - intros x Hx. destruct (w_extern _ _ _ _ Hw x Hx). split; [by apply Hnone|done].
Qed.

Lemma store_slot_ok Γ m p i τ σ w : mem_ok extern root Γ m → Γ !! p = Some τ → slots τ !! i = Some σ → slot_ok extern Γ σ w →
  clean root (region_stack m) (level m p) (m_heap m) σ w → mem_ok extern root Γ (store p i w m).
Proof.
  intros [Hw Hl Hf Hb Hd Hr Hbl Hro] Hp Hi Hv Hlow. split; try done; [by eapply store_slot_world| |].
  - intros k r Hk old e He. destruct (Hf k r Hk old e He) as (H1 & H2 & H3 & H4). rewrite !store_level.
    split; [exact H1|]. split; [exact H2|]. split; [by apply store_some|done].
  - intros q b E. apply store_lookup in E as (b0 & E & -> & _). by eapply Hbl.
Qed.

Lemma store_ok Γ m p i τ w : mem_ok extern root Γ m → Γ !! p = Some τ → slots τ !! i = Some Val → value_word extern Γ w →
  (∀ d, target_of Val w = Some d → level m d <= level m p) → mem_ok extern root Γ (store p i w m).
Proof.
  intros Hm Hp Hi (t & f & d & -> & Hv) Hlow. eapply store_slot_ok; [done|done|done|done|]. split; [|done].
  intros x Hx. unfold dying. apply Z.ltb_ge. by apply Hlow.
Qed.

(** ** The write barrier *)

Lemma barrier_target Γ m p target r : mem_ok extern root Γ m → region_current m = Some r →
  (match region_stack m with
   | [] => None
   | outermost :: _ => if 0 <=? level m p then r_arena <$> region_stack m !! Z.to_nat (level m p) else Some (escape_base outermost)
   end) = Some target →
  levels_of m target = level m p ∧ (0 <= levels_of m target ∨ root target = true).
Proof.
  intros Hm Hr. destruct (region_stack m) as [|r0 s] eqn:Es; [done|]. rewrite <- Es. pose proof (level_range m p) as Hlr.
  destruct (Z.leb_spec 0 (level m p)) as [Hl|Hl].
  - destruct (region_stack m !! Z.to_nat (level m p)) as [r'|] eqn:E; [|done]. intros [= <-].
    unfold levels_of. rewrite (arena_index_nth _ _ _ (mo_distinct _ _ _ _ Hm) E). lia.
  - intros [= <-]. assert (E : region_stack m !! 0%nat = Some r0) by by rewrite Es.
    destruct (base_level _ _ _ _ _ _ Hm E) as [-> [_ H]]. split; [lia|]. right. by apply (mo_bases _ _ _ _ Hm 0%nat r0).
Qed.

(** The value that the barrier lets through may be stored behind the address. *)
Lemma barrier_ok Γ m p v : mem_ok extern root Γ m → value_word extern Γ v →
  ∃ q, eshkol_region_write_barrier_into p v m = Some q ∧
    match q with
    | Passed out m' => ∃ Γ' v', out = [v'] ∧ mem_ok extern root Γ' m' ∧ Γ ⊆ Γ' ∧ value_word extern Γ' v' ∧ extends m m' ∧
        ∀ d, target_of Val v' = Some d → level m' d <= level m p
    | EmergencyRaise status m' => status ≠ 0 ∧ mem_ok extern root Γ m' ∧ extends m m'
    end.
Proof.
  intros Hm Hv. unfold eshkol_region_write_barrier_into, eshkol_region_copy_tagged_checked.
  fold (level m p). set (target := match region_stack m with [] => None | _ => _ end).
  destruct (region_current m) as [r|] eqn:Hr.
  - assert (∃ t, target = Some t) as [t Et].
    { unfold target. destruct (region_stack m) as [|r0 s] eqn:Es; [unfold region_current in Hr; by rewrite Es in Hr|]. rewrite <- Es.
      destruct (Z.leb_spec 0 (level m p)); [|by eexists]. pose proof (level_range m p).
      destruct (lookup_lt_is_Some_2 (region_stack m) (Z.to_nat (level m p))) as [r' ->]; [unfold depth in *; lia|by eexists]. }
    destruct (barrier_target Γ m p t r Hm Hr Et) as [Hlev Halive]. rewrite Et.
    destruct (promote_ok extern root Γ m t r [v] Hm Hr Halive) as (status & out & m' & E & H); [by constructor|].
    rewrite Hlev in E. rewrite E. eexists. split; [done|]. destruct (decide (status = 0)) as [->|Hne]; simpl.
    + destruct H as (Γ' & f & (Hpr & _ & Hst & Hval & Hlow) & Hm'). rewrite Hlev in Hlow.
      apply list.Forall2_cons_inv_l in Hst as (v' & l & _ & ->%Forall2_nil_inv_l & ->).
      apply Forall_cons_1 in Hval as [Hval _]. apply Forall_cons_1 in Hlow as [Hlow _].
      exists Γ', v'. split; [done|]. split; [done|]. split; [by eapply pr_types|]. split; [done|]. split; [by eapply pr_extends|done].
    + destruct H as (_ & (Hx & _) & Hm'). rewrite (proj2 (Z.eqb_neq _ _) Hne). done.
  - assert (Es : region_stack m = []) by by apply last_None.
    assert (Hall : ∀ q, level m q = -1).
    { intros q. pose proof (level_range m q) as Hq. unfold depth in Hq. rewrite Es in Hq. simpl in Hq. lia. }
    exists (Passed [v] m). split.
    + unfold region_evacuate_batch. replace (evac_needed _ _ _ _) with (@None (bool * Z)); [done|].
      destruct v; try done. cbn [evac_needed]. fold (level m data). rewrite !Hall. by rewrite andb_false_r.
    + exists Γ, v. split; [done|]. split; [done|]. split; [done|]. split; [done|]. split.
      * split; try done; [by left|apply (mo_world _ _ _ _ Hm)].
      * intros d _. rewrite !Hall. done.
Qed.

(** ** Recycling a nursery *)

(** The memory of the current region is reset, and what it has forwarded is forgotten. *)
Definition reset_region (r : region) (m : memory) : memory :=
  let m := set_heap m (arena_destroy (m_heap m) (r_arena r)) (m_next m) (m_budget m) in
  set_stack m (on_current (λ r, with_forwards r ∅ 0 (escape_count r)) (region_stack m)).

Lemma reset_arenas r m : map r_arena (region_stack (reset_region r m)) = map r_arena (region_stack m).
Proof. by apply on_current_arenas. Qed.

Lemma reset_dropped r m : dropped m (reset_region r m) (r_arena r).
Proof. split; try done. intros x _. apply arena_index_ext, reset_arenas. Qed.

Lemma reset_ok Γ m r : mem_ok extern root Γ m → region_current m = Some r → mem_ok extern root (kept Γ m r) (reset_region r m).
Proof.
  intros Hm Hr. pose proof (reset_dropped r m) as Hd.
  assert (Hs : ∀ i r', region_stack (reset_region r m) !! i = Some r' → ∃ r0, region_stack m !! i = Some r0 ∧ r_arena r' = r_arena r0 ∧
    escape_base r' = escape_base r0 ∧ (r' = r0 ∧ Z.of_nat i < levels_of m (r_arena r) ∨ fwd_map r' = ∅)).
  { intros i r'. simpl. unfold on_current. destruct (decide (i = pred (depth m))) as [->|Hne].
    - unfold depth. rewrite list_lookup_alter_eq. destruct (region_stack m !! _) as [r0|]; [|done]. simpl. intros [= <-]. exists r0.
      repeat split; by right.
    - rewrite list_lookup_alter_ne by done. intros E. exists r'. split; [done|]. split; [done|]. split; [done|]. left. split; [done|].
      rewrite (top_level Γ m r Hm Hr). apply lookup_lt_Some in E. unfold depth in *. lia. }
  split.
  - by eapply dropped_world.
  - intros p c sub l [HΓ _]%kept_some. by eapply mo_layout.
  - intros i r' Hi. destruct (Hs i r' Hi) as (r0 & Hr0 & _ & _ & [[-> Hlt]|He]); [by eapply dropped_forwards|].
    intros old e. by rewrite He, lookup_empty.
  - intros i r' Hi. destruct (Hs i r' Hi) as (r0 & Hr0 & _ & Hb & _). eapply base_arenas; [apply reset_arenas|done|]. by eapply mo_bases.
  - unfold distinct_arenas. rewrite reset_arenas. apply Hm.
  - intros r' [i Hi]%list_elem_of_lookup_1. destruct (Hs i r' Hi) as (r0 & Hr0 & -> & _).
    eapply (mo_regions _ _ _ _ Hm); by eapply list_elem_of_lookup_2.
  - intros p b E. eapply (dropped_some m _ r Hd) in E as [E _]. by eapply (mo_blocks _ _ _ _ Hm).
  - intros a. by eapply (mo_roots _ _ _ _ Hm).
Qed.

(** ** Unwinding *)

(** The allocation slot after the regions [l] are left. *)
Definition slot_after (l : list region) (g : Z) : Z := foldr (λ r g, default g (entry_saved_arena r)) g l.

(** What is left of the memory [m] once the regions above [mark] are closed. *)
Record unwound (m m' : memory) (mark : nat) : Prop := {
  un_stack : region_stack m' = take mark (region_stack m);
  un_slot : global_arena m' = slot_after (drop mark (region_stack m)) (global_arena m);
  un_old p b : m_heap m !! p = Some b → level m p < Z.of_nat mark → m_heap m' !! p = Some b;
  un_freed p b r : m_heap m' !! p = Some b → r ∈ drop mark (region_stack m) → arena_of b ≠ r_arena r;
  un_new p b : m_heap m' !! p = Some b → m_heap m !! p = Some b ∨ ∃ r, r ∈ drop mark (region_stack m) ∧ arena_of b = escape_base r
}.

Lemma unwound_refl m mark : (depth m <= mark)%nat → unwound m m mark.
Proof.
  intros Hd. unfold depth in Hd. split; rewrite ?drop_ge by lia; try done; [by rewrite firstn_all2|by intros p b r _ ?%not_elem_of_nil|by left].
Qed.

Lemma base_not_top Γ m r i r' : mem_ok extern root Γ m → region_current m = Some r → region_stack m !! i = Some r' → escape_base r' ≠ r_arena r.
Proof.
  intros Hm Hr Hi E. destruct (base_level _ _ _ _ _ _ Hm Hi) as [Hl _]. rewrite E, (top_level Γ m r Hm Hr) in Hl.
  apply lookup_lt_Some in Hi. unfold depth in *. lia.
Qed.

Lemma unwound_step Γ m r m1 m' mark : mem_ok extern root Γ m → region_current m = Some r → (mark < depth m)%nat →
  left_region m m1 r → unwound m1 m' mark → unwound m m' mark.
Proof.
  intros Hm Hr Hmark Hl Hu. pose proof (lf_stack _ _ _ Hl) as Hs.
  assert (Hdrop : drop mark (region_stack m) = drop mark (region_stack m1) ++ [r]).
  { rewrite (stack_snoc m r Hr) at 1. rewrite drop_app_le by (rewrite length_take; unfold depth in *; lia). by rewrite Hs. }
  assert (Hin : ∀ r', r' ∈ drop mark (region_stack m1) → ∃ i, region_stack m !! i = Some r').
  { intros r' Hr'. assert (H : r' ∈ drop mark (region_stack m)) by (rewrite Hdrop; apply elem_of_app; by left).
    apply list_elem_of_lookup_1 in H as [i Hi]. rewrite lookup_drop in Hi. by eexists. }
  assert (Hlow : ∀ p b, m_heap m !! p = Some b → level m p < Z.of_nat mark → level m1 p = level m p).
  { intros p b E Hp. unfold level, region_index_owning in *. rewrite (lf_old _ _ _ Hl p b E) by (unfold level, region_index_owning; rewrite E in *; lia).
    rewrite E in *. pose proof (arena_index_snoc (take (pred (depth m)) (region_stack m)) r 0 (arena_of b)) as Hi.
    rewrite <- (stack_snoc m r Hr), length_take in Hi. rewrite Hs, Hi by lia. destruct (_ =? _); [|done]. unfold depth in *. lia. }
  split.
  - rewrite (un_stack _ _ _ Hu), Hs, take_take. f_equal. lia.
  - rewrite (un_slot _ _ _ Hu), (lf_slot _ _ _ Hl), Hdrop. unfold slot_after. by rewrite foldr_app.
  - intros p b E Hp. apply (un_old _ _ _ Hu); [|by rewrite (Hlow p b)]. apply (lf_old _ _ _ Hl p b E). lia.
  - intros p b r' E. rewrite Hdrop, elem_of_app, list_elem_of_singleton. intros [Hr'| ->]; [by eapply (un_freed _ _ _ Hu)|].
    destruct (un_new _ _ _ Hu p b E) as [E1|(r' & Hr' & ->)]; [by apply (lf_new _ _ _ Hl p b)|].
    destruct (Hin r' Hr') as [i Hi]. by eapply base_not_top.
  - intros p b E. destruct (un_new _ _ _ Hu p b E) as [E1|(r' & Hr' & ->)].
    + destruct (lf_new _ _ _ Hl p b E1) as [_ [?| ->]]; [by left|right]. exists r. rewrite Hdrop, elem_of_app, list_elem_of_singleton. auto.
    + right. exists r'. rewrite Hdrop, elem_of_app. auto.
Qed.

Lemma unwind_ok n mark Γ m values : (depth m <= mark + n)%nat → mem_ok extern root Γ m →
  Forall (λ r, pinned r = false) (drop mark (region_stack m)) → Forall (value_word extern Γ) values →
  ∃ p, unwind_levels n mark values m = Some p ∧
    match p with
    | Passed out m' => ∃ Γ', mem_ok extern root Γ' m' ∧ Forall (value_word extern Γ') out ∧ unwound m m' mark
    | EmergencyRaise status m' => status ≠ 0 ∧ (mark < depth m')%nat ∧ Forall (λ r, pinned r = false) (drop mark (region_stack m')) ∧
        ∃ Γ', mem_ok extern root Γ' m'
    end.
Proof.
  revert Γ m values. induction n as [|n IH]; intros Γ m values Hn Hm Hp Hv; cbn [unwind_levels].
  { eexists. split; [done|]. exists Γ. split; [done|]. split; [done|]. apply unwound_refl. lia. }
  assert (Hstop : (depth m <= mark)%nat → ∃ Γ', mem_ok extern root Γ' m ∧ Forall (value_word extern Γ') values ∧ unwound m m mark).
  { intros Hd. exists Γ. split; [done|]. split; [done|]. by apply unwound_refl. }
  destruct (region_current m) as [r|] eqn:Hr.
  - destruct (Nat.leb_spec (depth m) mark) as [Hd|Hd]; [eexists; split; [done|by apply Hstop]|].
    pose proof (stack_snoc m r Hr) as Hs.
    pose proof Hp as Hall. rewrite Hs, drop_app_le in Hp by (rewrite length_take; unfold depth in *; lia).
    apply Forall_app in Hp as [Hp1 [Hpr _]%Forall_cons_1].
    destruct (close_ok Γ m r values Hm Hr Hpr Hv) as (p & -> & H). destruct p as [out m1|status m1].
    + destruct H as (Γ1 & Hm1 & Hv1 & Hl). fold (leave_region r m1). pose proof (lf_stack _ _ _ Hl) as Hst.
      destruct (IH Γ1 (leave_region r m1) out) as (p & E & H); try done.
      * unfold depth at 1. rewrite Hst, length_take. unfold depth in *. lia.
      * by rewrite Hst.
      * exists p. split; [exact E|]. destruct p as [out' m'|]; [|done]. destruct H as (Γ' & ? & ? & Hu). exists Γ'. split; [done|]. split; [done|].
        by eapply unwound_step.
    + destruct H as (? & ? & (_ & E & _)). eexists. split; [done|]. split; [done|]. rewrite E.
      split; [exact Hd|]. split; [exact Hall|]. exists Γ. by rewrite <- E.
  - eexists. split; [done|]. apply Hstop. apply last_None in Hr. unfold depth. rewrite Hr. simpl. lia.
Qed.
End stack.
