(* ===== verification/RegionProps.v ===== *)
(** * RegionProps: properties of regions, and a concrete memory for them *)

From S2P Require HashTable KeyHash.
From S2P Require Import RegionStack.
Local Open Scope Z_scope.

(** ** Handles *)

(** What an operation may do to a slot of the handle table. *)
Inductive slot_step (s : handle_slot) : handle_slot → Prop :=
| slot_same : slot_step s s
| slot_retired : in_use s = true → slot_step s (rh_retire s)
| slot_opened s' : in_use s = false → generation s' = (if generation s =? 0 then 1 else generation s) → slot_step s s'.

(** A step of the thread: an operation on handles, or anything that leaves them alone. *)
Inductive handle_step (m : memory) : memory → Prop :=
| step_open ok real : handle_step m (snd (eshkol_region_handle_open ok real m))
| step_close token values st out m' : eshkol_region_handle_close token values m = Some (st, Passed out m') → handle_step m m'
| step_close_raise token values st status m' :
    eshkol_region_handle_close token values m = Some (st, EmergencyRaise status m') → handle_step m m'
| step_seq mark : handle_step m (eshkol_region_handle_seq_unwind_to mark m)
| step_unwind mark values out m' : eshkol_region_unwind_to mark values m = Some (Passed out m') → handle_step m m'
| step_unwind_raise mark values status m' : eshkol_region_unwind_to mark values m = Some (EmergencyRaise status m') → handle_step m m'
| step_other m' : region_handles m' = region_handles m → handle_step m m'.

Lemma transaction_handles values target bnd owner prev m status out m' :
  region_transaction values target bnd owner prev m = Some (status, out, m') →
  region_handles m' = region_handles m ∧ depth m' = depth m.
Proof.
  unfold region_transaction. destruct (evac_run _ _ _ _ _ _) as [out' st|s st|]; [|by intros [= <- <- <-]|done].
  destruct (_ <? _); intros [= <- <- <-]; [done|]. split; [done|]. unfold depth. simpl. unfold on_current. by rewrite length_alter.
Qed.

Lemma batch_handles values target bnd m status out m' : region_evacuate_batch values target bnd m = Some (status, out, m') →
  region_handles m' = region_handles m ∧ depth m' = depth m.
Proof.
  unfold region_evacuate_batch. destruct (evac_needed _ _ _ _) as [[[] ?]|]; [by intros [= <- <- <-]| |by intros [= <- <- <-]].
  destruct (region_current m) as [owner|]; [|by intros [= <- <- <-]]. destruct target as [t|]; [|by intros [= <- <- <-]].
  destruct values as [|[ty f p| | |] [|]]; try by apply transaction_handles.
  destruct (_ !! p) as [e|]; [|by apply transaction_handles]. unfold forwarded_root. destruct (_ || _); by intros [= <- <- <-].
Qed.

Definition passage_memory (p : passage) : memory := match p with Passed _ m | EmergencyRaise _ m => m end.

Lemma escape_handles values m p : region_escape_batch_or_raise values m = Some p →
  region_handles (passage_memory p) = region_handles m ∧ depth (passage_memory p) = depth m.
Proof.
  unfold region_escape_batch_or_raise. destruct values as [|v l]; [by intros [= <-]|]. destruct (region_current m); [|by intros [= <-]].
  unfold or_raise. destruct (region_evacuate_batch _ _ _ m) as [[[status out] m']|] eqn:E; [|done].
  apply batch_handles in E. intros [= <-]. by destruct (status =? 0).
Qed.

Lemma pop_handles m : region_handles (region_pop m) = region_handles m ∧ depth (region_pop m) = pred (depth m).
Proof.
  unfold region_pop. destruct (region_current m) as [r|] eqn:E.
  - assert (Hl : length (take (pred (depth m)) (region_stack m)) = pred (depth m)) by (rewrite length_take; unfold depth; lia).
    unfold region_destroy. destruct (pinned r); split; try done. unfold depth at 1. simpl. unfold on_current. by rewrite length_alter.
  - apply last_None in E. unfold depth. by rewrite E.
Qed.

Lemma leave_handles r m : region_handles (leave_region r m) = region_handles (rh_retire_at (depth m) m) ∧ depth (leave_region r m) = pred (depth m).
Proof.
  unfold leave_region. destruct (pop_handles (eshkol_region_leave (entry_saved_arena r) (rh_retire_at (depth m) m))) as [-> ->].
  unfold eshkol_region_leave. by destruct (entry_saved_arena r).
Qed.

(** The operations that close regions only retire slots in use. *)
Definition retires (s s' : handle_slot) : Prop := s' = s ∨ in_use s = true ∧ s' = rh_retire s.

#[local] Instance retires_preorder : PreOrder retires.
Proof. split; [by left|]. intros s s' s'' [->|[H ->]] [->|[H' ->]]; [by left|by right|by right|done]. Qed.

Lemma retire_if_retires f m : (∀ s, f s = true → in_use s = true) → Forall2 retires (region_handles m) (region_handles (rh_retire_if f m)).
Proof.
  intros Hf. simpl. induction (region_handles m) as [|s l IH]; constructor; [|done].
  destruct (f s) eqn:E; [right; by split; [apply Hf|]|by left].
Qed.

Lemma retire_at_retires d m : Forall2 retires (region_handles m) (region_handles (rh_retire_at d m)).
Proof. apply retire_if_retires. intros s. by destruct (in_use s). Qed.

Lemma unwind_step_cases n mark values m p : unwind_levels (S n) mark values m = Some p →
  p = Passed values m ∨
  ∃ r q, region_current m = Some r ∧ (mark < depth m)%nat ∧ region_escape_batch_or_raise values m = Some q ∧
    match q with Passed out m1 => unwind_levels n mark out (leave_region r m1) = Some p | EmergencyRaise _ _ => p = q end.
Proof.
  cbn [unwind_levels]. destruct (region_current m) as [r|]; [|intros [= <-]; by left].
  destruct (Nat.leb_spec (depth m) mark); [intros [= <-]; by left|]. destruct (region_escape_batch_or_raise values m) as [[out m1|status m1]|]; [| |done].
  - intros E. right. by exists r, (Passed out m1).
  - intros [= <-]. right. by exists r, (EmergencyRaise status m1).
Qed.

Lemma unwind_retires n mark values m p : unwind_levels n mark values m = Some p →
  Forall2 retires (region_handles m) (region_handles (passage_memory p)).
Proof.
  revert m values. induction n as [|n IH]; intros m values; [by intros [= <-]|].
  intros [->|(r & q & _ & _ & He & Hq)]%unwind_step_cases; [done|].
  apply escape_handles in He as [He _]. destruct q as [out m1|status m1]; [|by rewrite Hq, He].
  apply IH in Hq. destruct (leave_handles r m1) as [Hl _]. rewrite Hl in Hq.
  simpl in He. rewrite <- He. etrans; [apply retire_at_retires|exact Hq].
Qed.

Lemma retires_slot_step s s' : retires s s' → slot_step s s'.
Proof. intros [->|[H ->]]; by constructor. Qed.

Lemma close_retires token values m st p : eshkol_region_handle_close token values m = Some (st, p) →
  Forall2 retires (region_handles m) (region_handles (passage_memory p)).
Proof.
  unfold eshkol_region_handle_close. destruct (rh_decode token m) as [slot|] eqn:Ed; [|by intros [= <- <-]].
  assert (Huse : ∀ s, region_handles m !! slot = Some s → in_use s = true).
  { unfold rh_decode in Ed. destruct (token <=? 0); [done|]. destruct (_ || _); [done|].
    destruct (region_handles m !! Z.to_nat _) as [s0|] eqn:Es; [|done]. destruct (in_use s0) eqn:Eu; [|done].
    destruct (_ =? _); [|done]. intros s Hs. injection Ed as <-. congruence. }
  destruct (region_handles m !! slot) as [s|] eqn:Es; [|done]. specialize (Huse s eq_refl). destruct (reclaim s); simpl.
  - destruct (_ || _).
    + intros [= <- <-]. simpl. apply Forall2_same_length_lookup_2; [symmetry; apply length_alter|]. intros i a b Ha.
      destruct (decide (i = slot)) as [->|].
      * rewrite list_lookup_alter_eq, Ha. simpl. intros [= <-]. right. split; [congruence|done].
      * rewrite list_lookup_alter_ne, Ha by done. intros [= <-]. by left.
    + destruct (eshkol_region_unwind_to _ _ _) as [q|] eqn:E; [|done]. intros [= <- <-]. by apply unwind_retires in E.
  - intros [= <- <-]. apply retire_if_retires. intros o. by destruct (in_use o).
Qed.

Lemma open_slots ok real m : Forall2 slot_step (region_handles m) (region_handles (snd (eshkol_region_handle_open ok real m))).
Proof.
  assert (Hrefl : ∀ l, Forall2 slot_step l l) by (intros l; induction l; constructor; [by constructor|done]).
  unfold eshkol_region_handle_open. destruct (list_find _ _) as [[slot s]|] eqn:Ef; [|done].
  apply list_find_Some in Ef as (Hs & Hu & _). apply lookup_take_Some in Hs as [Hs _].
  assert (Hopen : ∀ m' s', region_handles m' = region_handles m → generation s' = generation s →
    Forall2 slot_step (region_handles m) (region_handles (snd (open_slot slot s' m')))).
  { intros m' s' Eh Eg. simpl. rewrite Eh, Eg. apply Forall2_same_length_lookup_2; [by rewrite length_insert|]. intros i a b Ha.
    destruct (decide (i = slot)) as [->|].
    - rewrite list_lookup_insert_eq by (by eapply lookup_lt_Some). intros [= <-]. simplify_eq. by apply slot_opened.
    - rewrite list_lookup_insert_ne by done. rewrite Ha. intros [= <-]. by constructor. }
  destruct real; [|by apply Hopen]. destruct (_ <=? _)%nat; [done|]. destruct ok; [|done]. cbn [region_create].
  apply Hopen; [|done]. unfold eshkol_region_enter, region_push. destruct (_ || _), (_ <=? _)%nat; done.
Qed.

Lemma handle_slots m m' : handle_step m m' → Forall2 slot_step (region_handles m) (region_handles m').
Proof.
  assert (Hmono : ∀ l l', Forall2 retires l l' → Forall2 slot_step l l') by (intros l l' H; eapply list.Forall2_impl; [exact H|apply retires_slot_step]).
  intros [ok real|token values st out m1 E|token values st status m1 E|mark|mark values out m1 E|mark values status m1 E|m1 ->].
  - apply open_slots.
  - apply close_retires in E. by apply Hmono.
  - apply close_retires in E. by apply Hmono.
  - apply Hmono, retire_if_retires. intros s. by destruct (in_use s).
  - apply unwind_retires in E. by apply Hmono.
  - apply unwind_retires in E. by apply Hmono.
  - induction (region_handles m); constructor; [by constructor|done].
Qed.

(** ** Tokens *)

Lemma decode_slot token m slot : rh_decode token m = Some slot →
  ∃ s, region_handles m !! slot = Some s ∧ in_use s = true ∧ generation s = Z.shiftr token RH_SLOT_BITS ∧
    slot = Z.to_nat (Z.land token RH_SLOT_MASK - 1).
Proof.
  unfold rh_decode. destruct (token <=? 0); [done|]. destruct (_ || _); [done|].
  destruct (region_handles m !! Z.to_nat _) as [s|] eqn:E; [|done]. destruct (in_use s) eqn:Hu; [|done].
  destruct (Z.eqb_spec (Z.shiftr token RH_SLOT_BITS) (generation s)); [|done]. intros [= <-]. by exists s.
Qed.

(** Generations only grow, by at most one a step, until they reach the width of a word. *)
Lemma slot_step_generation s s' hi : slot_step s s' → 0 <= generation s <= hi → hi < 2 ^ 64 - 1 →
  generation s <= generation s' <= hi + 1.
Proof.
  intros [|Hu|s1 Hu Hg] H Hhi; [lia| |].
  - simpl. unfold u64. rewrite Z.mod_small by lia. rewrite (proj2 (Z.eqb_neq _ _)) by lia. lia.
  - rewrite Hg. destruct (Z.eqb_spec (generation s) 0); lia.
Qed.

Lemma steps_generation n m m' i s hi : nsteps handle_step n m m' → region_handles m !! i = Some s → 0 <= generation s <= hi →
  hi + Z.of_nat n < 2 ^ 64 → ∃ s', region_handles m' !! i = Some s' ∧ generation s <= generation s' <= hi + Z.of_nat n.
Proof.
  intros Hn. revert s hi. induction Hn as [m|n m m1 m' H1 _ IH]; intros s hi Hs Hg Hb; [exists s; split; [done|lia]|].
  destruct (Forall2_lookup_l _ _ _ i s (handle_slots _ _ H1) Hs) as (s1 & Hs1 & Hst).
  pose proof (slot_step_generation s s1 hi Hst Hg) as H. destruct (IH s1 (hi + 1) Hs1) as (s' & Hs' & ?); [lia|lia|].
  exists s'. split; [done|lia].
Qed.

Lemma steps_bound n m m' hi : nsteps handle_step n m m' → Forall (λ s, 0 <= generation s <= hi) (region_handles m) →
  hi + Z.of_nat n < 2 ^ 64 → Forall (λ s, 0 <= generation s <= hi + Z.of_nat n) (region_handles m').
Proof.
  intros Hn. revert hi. induction Hn as [m|n m m1 m' H1 _ IH]; intros hi Hg Hb; [by rewrite Z.add_0_r|].
  replace (hi + Z.of_nat (S n)) with (hi + 1 + Z.of_nat n) by lia. apply IH; [|lia].
  apply Forall_lookup_2. intros i s1 Hi. destruct (Forall2_lookup_r _ _ _ i s1 (handle_slots _ _ H1) Hi) as (s & Hs & Hst).
  pose proof (Forall_lookup_1 _ _ _ _ Hg Hs) as Hr. simpl in Hr. pose proof (slot_step_generation s s1 hi Hst Hr). lia.
Qed.

Lemma decode_same token m m' slot : rh_decode token m = Some slot → region_handles m' !! slot = region_handles m !! slot →
  rh_decode token m' = Some slot.
Proof.
  unfold rh_decode. destruct (token <=? 0); [done|]. destruct (_ || _); [done|].
  destruct (region_handles m !! Z.to_nat _) as [s|] eqn:E; [|done]. destruct (_ && _) eqn:Eb; [|done]. intros [= <-].
  rewrite E. intros ->. by rewrite Eb.
Qed.

(** C23: Once the token of a region handle has stopped being valid, no sequence of
    handle operations makes it valid again, as long as there are fewer of them than a
    64-bit generation counts. *)
Theorem stale_token_stays_stale m0 m1 m2 m3 n1 n2 token :
  Forall (λ s, generation s = 0) (region_handles m0) →
  nsteps handle_step n1 m0 m1 → eshkol_region_handle_live token m1 = true →
  handle_step m1 m2 → eshkol_region_handle_live token m2 = false →
  nsteps handle_step n2 m2 m3 → Z.of_nat n1 + Z.of_nat n2 < 2 ^ 64 - 2 →
  eshkol_region_handle_live token m3 = false.
Proof.
  intros H0 Hn1 Hlive H12 Hdead Hn2 Hb. unfold eshkol_region_handle_live in *.
  destruct (rh_decode token m1) as [slot|] eqn:E1; [|done]. destruct (decode_slot _ _ _ E1) as (s1 & Hs1 & Hu1 & Hg1 & Hslot).
  destruct (rh_decode token m3) as [slot3|] eqn:E3; [|done]. exfalso. destruct (decode_slot _ _ _ E3) as (s3 & Hs3 & _ & Hg3 & Hslot3).
  rewrite <- Hslot in Hslot3. subst slot3.
  assert (Hs1b : 0 <= generation s1 <= Z.of_nat n1).
  { assert (Hall : Forall (λ s, 0 <= generation s <= 0) (region_handles m0)) by (eapply list.Forall_impl; [exact H0|]; intros s ->; lia).
    apply (steps_bound n1 _ m1 0) in Hall; [|done|lia]. by apply (Forall_lookup_1 _ _ _ _ Hall Hs1). }
  destruct (Forall2_lookup_l _ _ _ slot s1 (handle_slots _ _ H12) Hs1) as (s2 & Hs2 & Hst).
  destruct Hst as [|_|s2 Hu _]; [| |congruence].
  - rewrite (decode_same token m1 m2 slot E1) in Hdead; [done|congruence].
  - assert (Hg2 : generation (rh_retire s1) = generation s1 + 1).
    { simpl. unfold u64. rewrite Z.mod_small by lia. by rewrite (proj2 (Z.eqb_neq _ _)) by lia. }
    destruct (steps_generation n2 m2 m3 slot (rh_retire s1) (Z.of_nat n1 + 1) Hn2 Hs2) as (s & Hs & ?); [lia|lia|].
    simplify_eq. lia.
Qed.

Lemma token_value slot g : (slot < 64)%nat → 1 <= g < 2 ^ 55 → i64 (rh_token slot g) = g * 2 ^ 8 + (Z.of_nat slot + 1).
Proof.
  intros Hs Hg. unfold rh_token, RH_SLOT_BITS. rewrite Z.shiftl_mul_pow2 by lia. rewrite (u64_id (g * 2 ^ 8)) by (unfold is_u64; lia).
  assert (Hl : Z.land (g * 2 ^ 8) (Z.of_nat slot + 1) = 0).
  { apply Z.bits_inj'. intros k Hk. rewrite Z.land_spec, Z.bits_0. destruct (Z.lt_ge_cases k 8).
    - by rewrite Z.mul_pow2_bits_low.
    - apply andb_false_intro2. rewrite <- (Z.mod_small (Z.of_nat slot + 1) (2 ^ 8)) by lia. by apply Z.mod_pow2_bits_high. }
  assert (Ho : Z.lor (g * 2 ^ 8) (Z.of_nat slot + 1) = g * 2 ^ 8 + (Z.of_nat slot + 1)).
  { rewrite <- Z.lxor_lor by done. symmetry. by apply Z.add_nocarry_lxor. }
  rewrite Ho, u64_id by (unfold is_u64; lia). apply i64_id. unfold is_i64. lia.
Qed.

Lemma decode_token slot g s m : (slot < 64)%nat → 1 <= g < 2 ^ 55 → region_handles m !! slot = Some s → in_use s = true → generation s = g →
  rh_decode (i64 (rh_token slot g)) m = Some slot.
Proof.
  intros Hs Hg Hl Hu Hgen. rewrite token_value by done. unfold rh_decode, RH_SLOT_MASK, RH_SLOT_BITS.
  assert (E1 : Z.land (g * 2 ^ 8 + (Z.of_nat slot + 1)) (2 ^ 8 - 1) = Z.of_nat slot + 1).
  { change (2 ^ 8 - 1) with (Z.ones 8). rewrite Z.land_ones by lia. rewrite Z.add_comm, Z.mod_add by lia. apply Z.mod_small. lia. }
  assert (E2 : Z.shiftr (g * 2 ^ 8 + (Z.of_nat slot + 1)) 8 = g).
  { rewrite Z.shiftr_div_pow2 by lia. rewrite Z.div_add_l by lia. rewrite Z.div_small by lia. lia. }
  rewrite E1, E2, (proj2 (Z.leb_gt _ _)) by lia.
  replace (Z.of_nat slot + 1 - 1) with (Z.of_nat slot) by lia. unfold ESHKOL_MAX_REGION_HANDLES, MAX_REGION_DEPTH.
  rewrite (proj2 (Z.ltb_ge _ _)) by lia. rewrite (proj2 (Z.leb_gt _ _)) by lia. simpl. by rewrite Nat2Z.id, Hl, Hu, Hgen, Z.eqb_refl.
Qed.

(** The handles once the regions above [mark] are closed. *)
Definition retired_above (mark : nat) (d : nat) (s : handle_slot) : handle_slot :=
  if in_use s && reclaim s && (mark <? region_depth s)%nat && (region_depth s <=? d)%nat then rh_retire s else s.

Lemma unwind_handles n mark values m out m' : (depth m <= mark + n)%nat → unwind_levels n mark values m = Some (Passed out m') →
  region_handles m' = map (retired_above mark (depth m)) (region_handles m) ∧ (depth m' <= mark)%nat.
Proof.
  assert (Hnone : ∀ l d, (d <= mark)%nat → map (retired_above mark d) l = l).
  { intros l d Hd. rewrite <- (map_id l) at 2. apply map_ext. intros s. unfold retired_above.
    destruct (Nat.ltb_spec mark (region_depth s)), (Nat.leb_spec (region_depth s) d); rewrite ?andb_false_r; try done. lia. }
  revert m values. induction n as [|n IH]; intros m values Hn.
  { intros [= <- <-]. rewrite Hnone by lia. split; [done|lia]. }
  destruct (decide (depth m <= mark)%nat) as [Hd|Hd].
  { cbn [unwind_levels]. rewrite (proj2 (Nat.leb_le _ _) Hd). destruct (region_current m); intros [= <- <-]; by rewrite Hnone. }
  cbn [unwind_levels]. rewrite (proj2 (Nat.leb_gt _ _)) by lia. destruct (region_current m) as [r|] eqn:Hr.
  2: { apply last_None in Hr. unfold depth in Hd. rewrite Hr in Hd. simpl in Hd. lia. }
  destruct (region_escape_batch_or_raise values m) as [[out1 m1|]|] eqn:He; [|done..].
  apply escape_handles in He as [Hh Hdp]. simpl in Hh, Hdp. intros E. fold (leave_region r m1) in E.
  destruct (leave_handles r m1) as [Hl Hld]. apply IH in E as [E1 E2]; [|lia]. split; [|done].
  rewrite E1, Hl, Hld. simpl. rewrite Hh, Hdp, map_map. apply map_ext. intros s. unfold retired_above.
  destruct (in_use s) eqn:Hu, (reclaim s) eqn:Hc; simpl; rewrite ?Hu, ?Hc; simpl; try done.
  destruct (Nat.eqb_spec (region_depth s) (depth m)) as [Heq|Hne]; simpl.
  - by rewrite Heq, Nat.leb_refl, (proj2 (Nat.ltb_lt _ _)) by lia.
  - rewrite Hu, Hc. simpl. destruct (Nat.ltb_spec mark (region_depth s)); simpl; [|done].
    destruct (Nat.leb_spec (region_depth s) (pred (depth m))), (Nat.leb_spec (region_depth s) (depth m)); done || lia.
Qed.

(** ** The whole of memory *)

Section memory.
Context (extern root : Z → bool).

(** The memory just after a new region is entered. *)
Lemma entered m r m1 : region_create true m = Some (r, m1) → (depth m < MAX_REGION_DEPTH)%nat →
  let m2 := snd (eshkol_region_enter r (region_push r m1)) in
  m_heap m2 = m_heap m ∧ region_handles m2 = region_handles m ∧ depth m2 = S (depth m) ∧
  ∃ r', region_current m2 = Some r' ∧ r_arena r' = unborn m ∧
    (parallel_depth m = 0 → worker m = false →
     parallel_depth m2 = 0 ∧ allocation_domain m2 = Some (r_arena r') ∧ entry_saved_arena r' = Some (global_arena m)).
Proof.
  intros [= <- <-] Hd. unfold region_push. rewrite (proj2 (Nat.leb_gt _ _)) by exact Hd.
  set (base := match region_current _ with Some parent => r_arena parent | None => _ end).
  unfold eshkol_region_enter, region_current, depth, on_region. simpl.
  destruct (_ || _) eqn:Eb; simpl; rewrite length_map, length_app, Nat.add_1_r; rewrite map_app; simpl; rewrite Z.eqb_refl, last_snoc;
    (split; [done|]); (split; [done|]); (split; [done|]); eexists; (split; [done|]); (split; [done|]).
  - intros Hp Hw. by rewrite Hp, Hw in Eb.
  - by intros -> _.
Qed.

(** Opening a handle with a region: on success memory stays well formed, a new
    innermost region takes the allocations, and its token is valid and new; on failure
    nothing changes. *)
Theorem region_handle_open_ok Γ m ok : mem_ok extern root Γ m → (region_stack m = [] → root (get_global_arena m) = true) →
  Forall (λ s, 0 <= generation s < 2 ^ 55 - 1) (region_handles m) →
  let '(status, token, m') := eshkol_region_handle_open ok true m in
  if status =? ESHKOL_RH_OK then
    mem_ok extern root Γ m' ∧ m_heap m' = m_heap m ∧
    (∃ r, region_current m' = Some r ∧ depth m' = S (depth m) ∧ r_arena r = unborn m ∧
      (parallel_depth m = 0 → worker m = false → eshkol_current_arena m' = r_arena r ∧ entry_saved_arena r = Some (global_arena m))) ∧
    eshkol_region_handle_live token m' = true ∧ eshkol_region_handle_live token m = false ∧
    ∀ t, eshkol_region_handle_live t m = true → eshkol_region_handle_live t m' = true
  else token = 0 ∧ m' = m.
Proof.
  intros Hm Hroot Hgen. unfold eshkol_region_handle_open. destruct (list_find _ _) as [[slot s]|] eqn:Ef; [|done].
  apply list_find_Some in Ef as (Hs & Hu & _). apply lookup_take_Some in Hs as [Hs Hslot].
  destruct (Nat.leb_spec MAX_REGION_DEPTH (depth m)) as [|Hd]; [done|]. destruct (region_create ok m) as [[r m1]|] eqn:Ec; [|done].
  destruct ok; [|done]. pose proof (push_ok extern root Γ m r m1 Hm Hroot Ec) as Hp. pose proof (enter_ok extern root Γ _ r Hp) as He.
  destruct (entered m r m1 Ec Hd) as (E1 & E2 & E3 & r' & E4 & E5 & E6). cbv zeta in *.
  set (m2 := snd (eshkol_region_enter r (region_push r m1))) in *.
  set (m3 := set_stack m2 (on_current with_owned (region_stack m2))). unfold open_slot. cbn [generation h_region region_depth reclaim].
  set (g := if generation s =? 0 then 1 else generation s). set (m4 := set_handles m3 _ _). rewrite Z.eqb_refl.
  pose proof (Forall_lookup_1 _ _ _ _ Hgen Hs) as Hg. simpl in Hg.
  assert (Hg' : 1 <= g < 2 ^ 55) by (unfold g; destruct (Z.eqb_spec (generation s) 0); lia).
  assert (Hlen : (slot < length (region_handles m))%nat) by by eapply lookup_lt_Some.
  assert (Hsame : ∀ i, i ≠ slot → region_handles m4 !! i = region_handles m !! i).
  { intros i Hi. unfold m4. simpl. rewrite list_lookup_insert_ne by done. by rewrite E2. }
  assert (Hdec : rh_decode (i64 (rh_token slot g)) m4 = Some slot).
  { eapply decode_token; [done|done|unfold m4; simpl; rewrite E2; by rewrite list_lookup_insert_eq|done|done]. }
  split; [|split; [exact E1|]; split; [|split; [|split]]].
  - apply (mem_same extern root Γ m3); [done..|]. apply (mem_restack extern root Γ m2); try done. by apply same_current.
  - apply current_at in E4. exists (with_owned r'). split; [|split; [|split; [exact E5|]]].
    + apply current_at. unfold depth. simpl. unfold on_current. rewrite length_alter, list_lookup_alter_eq.
      unfold depth in E4. by rewrite E4.
    + unfold depth. simpl. unfold on_current. rewrite length_alter. exact E3.
    + intros Hpar Hwk. destruct (E6 Hpar Hwk) as (H1 & H2 & H3). split; [|exact H3]. unfold eshkol_current_arena. simpl. by rewrite H1, H2.
  - unfold eshkol_region_handle_live. by rewrite Hdec.
  - unfold eshkol_region_handle_live. destruct (rh_decode _ m) as [k|] eqn:Ek; [|done].
    destruct (decode_slot _ _ _ Ek) as (sk & Hk & Huk & _ & Hk').
    destruct (decode_slot _ _ _ Hdec) as (_ & _ & _ & _ & Hslot'). rewrite <- Hslot' in Hk'. subst k. congruence.
  - intros t. unfold eshkol_region_handle_live. destruct (rh_decode t m) as [k|] eqn:Ek; [|done]. intros _.
    destruct (decode_slot _ _ _ Ek) as (sk & Hk & Huk & _). rewrite (decode_same t m m4 k Ek); [done|]. apply Hsame. intros ->. congruence.
Qed.


(** C8: A promotion is a faithful transaction: it always ends; when it succeeds the old
    blocks are unchanged, every new block is in the target arena, each block forwarded
    has a copy of its own whose words are the original's up to forwarding, and neither
    the results nor what they reach lead into the region that ends; when it fails the
    values and the old blocks are as before. *)
Theorem promotion_is_a_copy Γ m target owner values : mem_ok extern root Γ m → region_current m = Some owner →
  0 <= levels_of m target ∨ root target = true → Forall (value_word extern Γ) values →
  let bnd := levels_of m target in
  let same f := Forall2 (@wstep (region_stack m) target bnd (m_heap m) f) in
  ∃ status out m', region_evacuate_batch values (Some target) bnd m = Some (status, out, m') ∧
    (∀ p b, m_heap m !! p = Some b → m_heap m' !! p = Some b) ∧
    (∃ Γ', mem_ok extern root Γ' m' ∧ Forall (value_word extern Γ') out) ∧
    if decide (status = 0) then
      ∃ f, reusable owner target ⊆ f ∧ same f values out ∧
        Forall (λ w, ∀ d, target_of Val w = Some d → level m' d <= bnd) out ∧
        (∀ p b, m_heap m' !! p = Some b → m_heap m !! p = None → arena_of b = target) ∧
        (∀ old e, f !! old = Some e → reusable owner target !! old = None → m_heap m !! fw_data e = None ∧
          ∃ b0 b, m_heap m !! old = Some b0 ∧ m_heap m' !! fw_data e = Some b ∧
            if fw_object e then header b = header b0 ∧ same f (words b0) (words b)
            else header b = None ∧ ∃ ws, prefix (fw_size e) (words b0) = Some ws ∧ (fw_size e ≠ 0 → same f ws (words b))) ∧
        (∀ old e old' e', f !! old = Some e → f !! old' = Some e' → fw_data e = fw_data e' → reusable owner target !! old = None → old' = old)
    else out = values ∧ region_stack m' = region_stack m.
Proof.
  intros Hm Hr Ht Hv. destruct (promote_ok extern root Γ m target owner values Hm Hr Ht Hv) as (status & out & m' & E & H).
  exists status, out, m'. split; [done|]. destruct (decide (status = 0)).
  - destruct H as (Γ' & f & (Hpr & _ & Hst & Hval & Hlow) & Hm'). split; [apply Hpr|]. split; [by exists Γ'|]. exists f.
    split; [apply Hpr|]. split; [done|]. split; [done|]. split; [apply Hpr|]. split; [apply Hpr|apply Hpr].
  - destruct H as (-> & (Hx & Hm' & _) & Hok). split; [apply Hx|]. split; [by exists Γ|]. split; [done|]. by rewrite Hm'.
Qed.

(** C22: The value that the write barrier hands back can be stored behind the address
    it was asked for: memory stays well formed, so the slot never dangles. *)
Theorem barrier_then_store Γ m p i τ v : mem_ok extern root Γ m → value_word extern Γ v → Γ !! p = Some τ → slots τ !! i = Some Val →
  ∃ q, eshkol_region_write_barrier_into p v m = Some q ∧
    match q with
    | Passed out m' => ∃ Γ' v', out = [v'] ∧ Γ ⊆ Γ' ∧ mem_ok extern root Γ' (store p i v' m')
    | EmergencyRaise status m' => status ≠ 0 ∧ mem_ok extern root Γ m'
    end.
Proof.
  intros Hm Hv Hp Hi. destruct (barrier_ok extern root Γ m p v Hm Hv) as (q & E & H). exists q. split; [done|].
  destruct q as [out m'|status m']; [|naive_solver]. destruct H as (Γ' & v' & -> & Hm' & Hsub & Hv' & Hx & Hlow).
  exists Γ', v'. split; [done|]. split; [done|]. apply (store_ok extern root Γ' m' p i τ); try done; [by eapply lookup_weaken|].
  intros d Hd. destruct (w_typed _ _ _ _ (mo_world _ _ _ _ Hm) p τ Hp) as (b & Eb & _). rewrite (level_old _ _ _ _ Hx Eb). by apply Hlow.
Qed.

(** Recycling a nursery at the back edge of its loop frees every block of the
    iteration, and the values carried to the next one lead only to blocks that stay. *)
Theorem nursery_recycle_ok Γ m r values : mem_ok extern root Γ m → region_current m = Some r → Forall (value_word extern Γ) values →
  ∃ p, eshkol_iter_nursery_recycle (r_id r) values m = Some p ∧
    match p with
    | Passed out m' => ∃ Γ', mem_ok extern root Γ' m' ∧ Forall (value_word extern Γ') out ∧
        map r_arena (region_stack m') = map r_arena (region_stack m) ∧
        (∀ q b, m_heap m !! q = Some b → level m q < Z.of_nat (depth m) - 1 → m_heap m' !! q = Some b) ∧
        ∀ q b, m_heap m' !! q = Some b → arena_of b ≠ r_arena r
    | EmergencyRaise status m' => status ≠ 0 ∧ mem_ok extern root Γ m' ∧ extends m m'
    end.
Proof.
  intros Hm Hr Hv. unfold eshkol_iter_nursery_recycle. rewrite Hr, Z.eqb_refl. simpl.
  destruct (escape_ok extern root Γ m r values Hm Hr Hv) as (p & -> & Hp). destruct p as [out m1|status m1].
  - destruct Hp as (Γ' & f & Hb & Hm1). destruct (batch_current extern root _ _ _ _ _ _ _ _ _ _ _ Hr Hb) as (r' & Hr' & Ha & _ & _ & _ & _ & _ & Hdp & _).
    eexists. split; [done|]. exists (kept Γ' m1 r'). rewrite <- Ha. fold (reset_region r' m1).
    destruct Hb as (Hpr & _ & _ & Hval & Hlow). pose proof (pr_extends _ _ _ _ _ _ _ _ _ _ Hpr) as Hx.
    pose proof (top_level extern root Γ' m1 r' Hm1 Hr') as Htop. pose proof (proj1 (current_at _ _) Hr) as Hi. pose proof (lookup_lt_Some _ _ _ Hi).
    destruct (base_level extern root _ _ _ _ Hm Hi) as [Hlev _].
    split; [by apply reset_ok|]. split; [|split; [|split]].
    + rewrite Forall_forall in Hval, Hlow |- *. intros w Hw. apply dropped_value; [by apply Hval|].
      intros d Hd. specialize (Hlow w Hw d Hd). unfold depth in *. lia.
    + change (set_stack _ _) with (reset_region r' m1). rewrite reset_arenas. apply Hx.
    + intros q b E Hl. apply (dropped_some _ _ _ (reset_dropped r' m1)). split; [by apply Hx|].
      eapply (below_top extern root Γ' m1 r' Hm1 Hr' q b); [by apply Hx|]. rewrite (level_old _ _ _ _ Hx E). lia.
    + intros q b E. by apply (dropped_some _ _ _ (reset_dropped r' m1)) in E as [_ ?].
  - destruct Hp as (Hs & Hm1 & Hx & _). eexists. split; [done|]. done.
Qed.

(** Where the region of a handle still is on the stack. *)
Definition in_place (m : memory) (s : handle_slot) : Prop :=
  (0 < region_depth s <= depth m)%nat ∧ r_id <$> region_stack m !! pred (region_depth s) = h_region s.

(** Closing a region handle whose region is in place closes that region and all
    above it, and retires the handles of exactly those regions, its own included; a
    failed promotion raises with memory well formed. *)
Theorem region_handle_close_ok Γ m token slot s values : mem_ok extern root Γ m → rh_decode token m = Some slot →
  region_handles m !! slot = Some s → reclaim s = true → in_place m s →
  Forall (λ r, pinned r = false) (drop (pred (region_depth s)) (region_stack m)) → Forall (value_word extern Γ) values →
  ∃ p, eshkol_region_handle_close token values m = Some (ESHKOL_RH_OK, p) ∧
    match p with
    | Passed out m' =>
        (∃ Γ', mem_ok extern root Γ' m' ∧ Forall (value_word extern Γ') out) ∧ unwound m m' (pred (region_depth s)) ∧
        region_handles m' = map (retired_above (pred (region_depth s)) (depth m)) (region_handles m) ∧
        eshkol_region_handle_live token m' = false
    | EmergencyRaise status m' => status ≠ 0 ∧ ∃ Γ', mem_ok extern root Γ' m'
    end.
Proof.
  intros Hm Hd Hs Hc [Hpos Hid] Hp Hv. unfold eshkol_region_handle_close. rewrite Hd, Hs, Hc. simpl.
  rewrite (proj2 (Nat.eqb_neq _ _)), (proj2 (Nat.ltb_ge _ _)) by lia. rewrite bool_decide_true by done. simpl.
  destruct (unwind_ok extern root (depth m) (pred (region_depth s)) Γ m values) as (p & E & H); [lia|done..|].
  unfold eshkol_region_unwind_to. rewrite E. exists p. split; [done|]. destruct p as [out m'|status m']; [|naive_solver].
  destruct H as (Γ' & Hm' & Hv' & Hu). apply unwind_handles in E as [E _]; [|lia]. split; [by exists Γ'|]. split; [done|]. split; [done|].
  unfold eshkol_region_handle_live. destruct (rh_decode token m') as [k|] eqn:Ek; [|done]. exfalso.
  destruct (decode_slot _ _ _ Ek) as (sk & Hk & Huk & _ & ->). destruct (decode_slot _ _ _ Hd) as (s0 & Hs0 & Hu0 & _ & ->). simplify_eq.
  rewrite E, list_lookup_fmap, Hs in Hk. simpl in Hk. unfold retired_above in Hk. rewrite Hu0, Hc in Hk. simpl in Hk.
  rewrite (proj2 (Nat.ltb_lt _ _)), (proj2 (Nat.leb_le _ _)) in Hk by lia. simpl in Hk. by simplify_eq.
Qed.
End memory.

(** ** A concrete memory *)

(** Two regions; in the inner one a pair of a string and of a vector of the outer one. *)
Definition sample_region (id base : Z) : region := Region id id base ∅ 0 0 (Some base) false true.
Definition sample_heap : heap :=
  <[200 := Block (Some (0, 32)) 2 [Tag 8 0 300; Tag 8 0 100]]>
  (<[300 := Block (Some (1, 3)) 2 [Num 1 104; Num 1 105; Num 1 0]]>
  (<[100 := Block (Some (2, 24)) 1 [Num 8 1; Tag 1 0 7]]> ∅)).
Definition sample_types : typing :=
  <[200 := TObj false 0 [Val; Val]]>
  (<[300 := TObj false 1 [Const 1 104; Const 1 105; Const 1 0]]>
  (<[100 := TObj false 2 [Const 8 1; Val]]> ∅)).
Definition sample_slots : list handle_slot :=
  RegionHandleSlot (Some 1) 1 1 1 true true :: RegionHandleSlot (Some 2) 1 2 2 true true :: replicate 62 unused_slot.
Definition sample_budget (b : option nat) : memory :=
  Memory sample_heap 400 b [sample_region 1 0; sample_region 2 1] 2 (Some 2) None 0 0 0 false sample_slots 2 3.
Definition sample : memory := sample_budget None.
Definition no_extern (_ : Z) : bool := false.
Definition only_root (a : Z) : bool := a =? 0.

Ltac map_cases H :=
  unfold sample_types, sample_heap in H;
  repeat (apply lookup_insert_Some in H as [[? ?]|[_ H]]); simplify_eq; try (by rewrite lookup_empty in H).
Ltac slot_cases i := repeat (destruct i as [|i]; simpl; try done).

Lemma sample_ok b : mem_ok no_extern only_root sample_types (sample_budget b).
Proof.
  split.
  - split; try done.
    + intros p τ H. map_cases H; eexists; (split; [reflexivity|]); (split; [done|]); (split; [by repeat constructor|]);
        intros i σ; slot_cases i; intros [= <-]; eexists; (split; [done|]); simpl; try done; intros _ _ _; (split; [done|]); (split; [done|]); simpl; by eexists _, _.
    + intros p τ blk i σ w H E. map_cases H; vm_compute in E; injection E as <-; slot_cases i; intros [= <-] [= <-]; (split; [|done]); intros d; simpl; intros; simplify_eq; done.
    + intros p blk H. simpl in H. map_cases H; done.
  - intros p c sub l H. map_cases H; intros k Hk; vm_compute in Hk; injection Hk as <-; [apply lay_cons| |apply (lay_vector _ 1 []); constructor].
    apply lay_leaf; [by repeat constructor|done|done].
  - intros i r Hi old e He. slot_cases i; simpl in Hi; simplify_eq; by rewrite lookup_empty in He.
  - intros i r Hi. slot_cases i; simpl in Hi; by simplify_eq.
  - apply (bool_decide_unpack _). vm_compute. exact I.
  - intros r [->|[->|[]%not_elem_of_nil]%elem_of_cons]%elem_of_cons; done.
  - intros p blk H. simpl in H. map_cases H; done.
  - intros a Ha. apply Z.eqb_eq in Ha as ->. done.
Qed.

Lemma sample_values : Forall (value_word no_extern sample_types) [Tag 8 0 200].
Proof.
  constructor; [|constructor]. exists 8, 0, 200. split; [done|]. intros _ _ _. split; [done|]. split; [done|]. simpl. by eexists _, _.
Qed.

(** The thread before any handle, and after an open and a close. *)
Definition boot : memory := Memory ∅ 16 None [] 0 None None 0 0 0 false (replicate 64 unused_slot) 0 1.
Definition opened : memory := snd (eshkol_region_handle_open true true boot).
Definition closed : memory := match eshkol_region_handle_close 257 [] opened with Some (_, p) => passage_memory p | None => boot end.

Example close_257 : eshkol_region_handle_close 257 [] opened = Some (ESHKOL_RH_OK, Passed [] closed).
Proof. vm_compute. reflexivity. Qed.

Lemma stale_token_stays_stale_witness :
  eshkol_region_handle_live 257 opened = true ∧ eshkol_region_handle_live 257 (snd (eshkol_region_handle_open true true closed)) = false.
Proof.
  split; [reflexivity|].
  apply (stale_token_stays_stale boot opened closed _ 1 1 257);
    [by repeat constructor|apply nsteps_once, step_open|reflexivity|exact (step_close _ _ _ _ _ _ close_257)|reflexivity
    |apply nsteps_once, step_open|reflexivity].
Defined.


(** The pair and its string move to the outer region, or out of all regions. *)
Example unwind_one : ∃ m', eshkol_region_unwind_to 1 [Tag 8 0 200] sample = Some (Passed [Tag 8 0 400] m') ∧
  m_heap m' !! 400 = Some (Block (Some (0, 32)) 1 [Tag 8 0 456; Tag 8 0 100]) ∧ m_heap m' !! 200 = None.
Proof. eexists. split; [vm_compute; reflexivity|]. by split. Qed.

Example unwind_all : ∃ m', eshkol_region_unwind_to 0 [Tag 8 0 200] sample = Some (Passed [Tag 8 0 483] m') ∧
  m_heap m' !! 483 = Some (Block (Some (0, 32)) 0 [Tag 8 0 539; Tag 8 0 566]) ∧ m_heap m' !! 100 = None.
Proof. eexists. split; [vm_compute; reflexivity|]. by split. Qed.

Example unwind_raises : ∃ m', eshkol_region_unwind_to 0 [Tag 8 0 200] (sample_budget (Some 1%nat)) = Some (EmergencyRaise 1 m') ∧ depth m' = 2%nat.
Proof. eexists. split; [vm_compute; reflexivity|]. done. Qed.


Lemma promotion_is_a_copy_witness :
  ∃ status out m', region_evacuate_batch [Tag 8 0 200] (Some 1) 0 sample = Some (status, out, m') ∧
    ∃ Γ', mem_ok no_extern only_root Γ' m' ∧ Forall (value_word no_extern Γ') out.
Proof.
  destruct (promotion_is_a_copy no_extern only_root sample_types sample 1 (sample_region 2 1) [Tag 8 0 200]) as (status & out & m' & E & _ & H & _);
    [exact (sample_ok None)|reflexivity|by left|exact sample_values|].
  exists status, out, m'. split; [exact E|exact H].
Defined.

(** The pair is stored in the vector of the outer region. *)
Lemma barrier_then_store_witness :
  ∃ q, eshkol_region_write_barrier_into 100 (Tag 8 0 200) sample = Some q ∧
    match q with
    | Passed out m' => ∃ Γ' v', out = [v'] ∧ sample_types ⊆ Γ' ∧ mem_ok no_extern only_root Γ' (store 100 1 v' m')
    | EmergencyRaise status m' => status ≠ 0 ∧ mem_ok no_extern only_root sample_types m'
    end.
Proof.
  apply (barrier_then_store no_extern only_root sample_types sample 100 1 (TObj false 2 [Const 8 1; Val]) (Tag 8 0 200));
    [exact (sample_ok None)|exact (proj1 (Forall_cons_1 _ _ _ sample_values))|reflexivity|reflexivity].
Defined.


(** ** What the model shows at its edges *)

Import KeyHash.

(** The table at an address, its keys hashed by their words, as callables are. *)
Definition key_of (w : word) : key := match w with Tag t _ d => KImm t d | _ => KImm 0 0 end.
Definition entry_of (w : word) : HashTable.entry_status :=
  if decide (w = Num 1 1) then HashTable.OCCUPIED else if decide (w = Num 1 2) then HashTable.DELETED else HashTable.EMPTY.
Definition table_at (h : heap) (p : Z) : option (@HashTable.hash_table key word) :=
  match words <$> h !! p with
  | Some [Num _ cap; Num _ n; Num _ tomb; Ptr keys; Ptr values; Ptr status; Home _] =>
      match h !! keys, h !! values, h !! status with
      | Some k, Some v, Some s =>
          Some (HashTable.HashTable (map key_of (words k)) (words v) (map entry_of (words s)) (Z.to_nat cap) (Z.to_nat n) (Z.to_nat tomb))
      | _, _, _ => None
      end
  | _ => None
  end.
Definition hash_get (h : heap) (p : Z) (k : word) : option word :=
  t ← table_at h p; HashTable.hash_table_get (H := tagged_hash_key (λ _, None)) (KImm 0 0) (Tag 0 0 0) t (key_of k).

(** A table of four slots in a region, with a primitive of the region as its key. *)
Definition table_memory (pin : bool) : memory :=
  let hole := Tag 0 0 0 in
  Memory (<[500 := Block (Some (5, 56)) 1 [Num 8 4; Num 8 1; Num 8 0; Ptr 564; Ptr 628; Ptr 692; Home 1]]>
         (<[564 := Block None 1 [Tag 9 0 832; hole; hole; hole]]>
         (<[628 := Block None 1 [Tag 1 0 42; hole; hole; hole]]>
         (<[692 := Block None 1 [Num 1 1; Num 1 0; Num 1 0; Num 1 0]]>
         (<[832 := Block (Some (3, 24)) 1 [Num 16 0; Ptr 0]]> ∅)))))
    1000 None [with_pinned (sample_region 1 0) pin] 1 (Some 1) None 0 0 0 false [] 0 2.

(** A promoted table keeps its slots, but the hash of a key is its new address. *)
Example promoted_table_loses_key :
  hash_get (m_heap (table_memory false)) 500 (Tag 9 0 832) = Some (Tag 1 0 42) ∧
  ∃ m', eshkol_region_unwind_to 0 [Tag 8 0 500; Tag 9 0 832] (table_memory false) = Some (Passed [Tag 8 0 1000; Tag 9 0 1080] m') ∧
    hash_get (m_heap m') 1000 (Tag 9 0 1080) = None.
Proof. split; [vm_compute; reflexivity|]. eexists. split; [vm_compute; reflexivity|]. vm_compute. reflexivity. Qed.

(** A pinned region leaves its table behind with the arena that has been destroyed. *)
Example pinned_table_keeps_dead_home :
  let m' := region_pop (table_memory true) in
  (λ b, (arena_of b, words b !! 6%nat)) <$> m_heap m' !! 500 = Some (0, Some (Home 1)) ∧ region_stack m' = [].
Proof. split; vm_compute; reflexivity. Qed.

(** A nursery that does not fit on the stack takes the enclosing region with it. *)
Example nursery_on_full_stack :
  let full := Memory ∅ 16 None (map (λ i, sample_region (Z.of_nat i + 1) (Z.of_nat i)) (seq 0 64)) 64 (Some 64) None 0 0 0 false [] 0 65 in
  let '(_, saved, m) := emitIterNurseryOpen true full in
  depth m = 64%nat ∧ ∃ m', emitIterNurseryClose (Tag 1 0 5) saved m = Some (Passed [Tag 1 0 5] m') ∧ depth m' = 63%nat ∧ global_arena m' = 64.
Proof. split; [reflexivity|]. eexists. split; [vm_compute; reflexivity|]. by split. Qed.
