(* ===== verification/Control.v ===== *)
(** * Control: exceptions, continuations, dynamic-wind and promises
    (lib/core/runtime_continuations.cpp, lib/core/runtime_exceptions_hosted.cpp)

    What a non-local exit has to put in order: the extents of [dynamic-wind] that it
    crosses, the promises under evaluation, the regions that are open and the stack of
    handlers.  A dynamic-wind entry, a promise and a continuation are blocks of the
    memory of Regions.v.  A closure is an argument, [call]; it may return, leave through
    a [longjmp] or end the program.  The machine stack is not modelled, so resuming a
    continuation is the transfer to its [jmp_buf]. *)

From stdpp Require Import strings.
From S2P Require Export RegionStack.
Local Open Scope Z_scope.

Definition ESHKOL_VALUE_NULL : Z := 0.
Definition HEAP_SUBTYPE_EXCEPTION : Z := 6.
Definition HEAP_SUBTYPE_PROMISE : Z := 18.
Definition null_value : word := Tag ESHKOL_VALUE_NULL 0 0.

(** ** State *)

Record handler := Handler { jmp_buf_ptr : Z; wind_mark : Z; promise_mark : Z; region_mark : nat }.

(** A handler frame is [malloc]ed once and then stays on the handler stack or the free
    list; [frames_made] counts them and numbers the next one.  [buffers] are the other
    [malloc]ed arrays, [mallocs] the calls of [malloc] that will still succeed. *)
Record control := Control {
  mem : memory;
  wind : Z;
  promise_head : Z;
  handler_stack : list (Z * handler);
  free_list : list Z;
  frames_made : Z;
  buffers : gmap Z (list word);
  mallocs : option nat;
  current_exception : Z;
  raised_value : word;
  raised_set : bool
}.

Definition with_mem (m : memory) (s : control) : control :=
  Control m (wind s) (promise_head s) (handler_stack s) (free_list s) (frames_made s) (buffers s) (mallocs s)
    (current_exception s) (raised_value s) (raised_set s).
Definition with_wind (w : Z) (s : control) : control :=
  Control (mem s) w (promise_head s) (handler_stack s) (free_list s) (frames_made s) (buffers s) (mallocs s)
    (current_exception s) (raised_value s) (raised_set s).
Definition with_head (p : Z) (s : control) : control :=
  Control (mem s) (wind s) p (handler_stack s) (free_list s) (frames_made s) (buffers s) (mallocs s)
    (current_exception s) (raised_value s) (raised_set s).
Definition with_frames (h : list (Z * handler)) (f : list Z) (n : Z) (a : option nat) (s : control) : control :=
  Control (mem s) (wind s) (promise_head s) h f n (buffers s) a (current_exception s) (raised_value s) (raised_set s).
Definition with_buffers (b : gmap Z (list word)) (a : option nat) (s : control) : control :=
  Control (mem s) (wind s) (promise_head s) (handler_stack s) (free_list s) (frames_made s) b a
    (current_exception s) (raised_value s) (raised_set s).
Definition with_exception (e : Z) (v : word) (u : bool) (s : control) : control :=
  Control (mem s) (wind s) (promise_head s) (handler_stack s) (free_list s) (frames_made s) (buffers s) (mallocs s) e v u.

(** [Fault] is a read of what is not there, [Timeout] a loop that has used up its fuel. *)
Inductive outcome (A : Type) := Returned (a : A) (s : control) | Transferred (buf : Z) (s : control) | Exited (s : control) | Fault | Timeout.
Arguments Returned {A}. Arguments Transferred {A}. Arguments Exited {A}. Arguments Fault {A}. Arguments Timeout {A}.

Definition CtlM (A : Type) : Type := control → outcome A.
#[export] Instance ctl_ret : MRet CtlM := λ A a s, Returned a s.
#[export] Instance ctl_bind : MBind CtlM := λ A B f m s,
  match m s with
  | Returned a s => f a s | Transferred b s => Transferred b s | Exited s => Exited s | Fault => Fault | Timeout => Timeout
  end.
Definition fault {A} : CtlM A := λ _, Fault.
Definition timeout {A} : CtlM A := λ _, Timeout.
Definition exited {A} : CtlM A := λ s, Exited s.
Definition transfer {A} (buf : Z) : CtlM A := λ s, Transferred buf s.
Definition gets {A} (f : control → A) : CtlM A := λ s, Returned (f s) s.
Definition modify (f : control → control) : CtlM unit := λ s, Returned tt (f s).
Definition of_option {A} (o : option A) : CtlM A := match o with Some a => mret a | None => fault end.

(** The second return of [setjmp]. *)
Definition setjmp {A B} (buf : Z) (m : CtlM A) (k : A → CtlM B) (again : CtlM B) : CtlM B := λ s,
  match m s with
  | Returned a s => k a s
  | Transferred b s => if b =? buf then again s else Transferred b s
  | Exited s => Exited s | Fault => Fault | Timeout => Timeout
  end.

(** ** Memory *)

Definition word_at (h : heap) (p : Z) (i : nat) : option word := b ← h !! p; words b !! i.
Definition ptr_at (h : heap) (p : Z) (i : nat) : option Z := w ← word_at h p i; match w with Ptr q => Some q | _ => None end.
Definition num_at (h : heap) (p : Z) (i : nat) : option Z := w ← word_at h p i; match w with Num _ n => Some n | _ => None end.

Definition the_heap (s : control) : heap := m_heap (mem s).
Definition read (p : Z) (i : nat) : CtlM word := λ s, of_option (word_at (the_heap s) p i) s.
Definition read_ptr (p : Z) (i : nat) : CtlM Z := λ s, of_option (ptr_at (the_heap s) p i) s.
Definition read_num (p : Z) (i : nat) : CtlM Z := λ s, of_option (num_at (the_heap s) p i) s.
Definition write (p : Z) (i : nat) (w : word) : CtlM unit :=
  read p i ;; modify (λ s, with_mem (store p i w (mem s)) s).

(** NULL when the arena has no room. *)
Definition arena_new (arena : Z) (hd : option (Z * Z)) (l : list word) : CtlM Z := λ s,
  let m := mem s in
  match m_budget m with
  | Some O => Returned 0 s
  | bud =>
      let p := m_next m in
      Returned p (with_mem (set_heap m (<[p := Block hd arena l]> (m_heap m)) (p + bytes l + 16) (option_map pred bud)) s)
  end.

(** ** Closures *)

Definition CALLABLE_SUBTYPE_CLOSURE : Z := 0.
Definition CALLABLE_SUBTYPE_LAMBDA_SEXPR : Z := 1.
Definition CALLABLE_SUBTYPE_CONTINUATION : Z := 4.
Definition CLOSURE_ENV_IS_VARIADIC (packed : Z) : bool := Z.testbit packed 63.
Definition CLOSURE_FLAG_VARIADIC : Z := 1.
Definition ESHKOL_CLOSURE_FLAG_NAMED : Z := 2.

(** The environment is in the allocation of its closure: it has a block of its own but
    takes no room of the budget. *)
Definition tail_block (arena : Z) (l : list word) : CtlM Z := λ s,
  let m := mem s in let p := m_next m in
  Returned p (with_mem (set_heap m (<[p := Block None arena l]> (m_heap m)) (p + bytes l + 16) (m_budget m)) s).

(** [[func_ptr; env; sexpr_ptr; name; return_type; input_arity; flags; reserved; hott_type_id]]
    and the environment [[packed_info; captures ...]]. *)
Definition arena_allocate_closure_with_header (arena func_ptr packed_info sexpr_ptr return_type_info name : Z) : CtlM Z :=
  let n := CLOSURE_ENV_GET_NUM_CAPTURES packed_info in
  let flags := Z.lor (if CLOSURE_ENV_IS_VARIADIC packed_info then CLOSURE_FLAG_VARIADIC else 0)
                     (if name =? 0 then 0 else ESHKOL_CLOSURE_FLAG_NAMED) in
  closure ← arena_new arena (Some (if n =? 0 then CALLABLE_SUBTYPE_LAMBDA_SEXPR else CALLABLE_SUBTYPE_CLOSURE, 40))
    [Num 8 func_ptr; Ptr 0; Ptr sexpr_ptr; Ptr name; Num 1 (Z.land return_type_info 255); Num 1 (Z.land (Z.shiftr return_type_info 8) 255);
     Num 1 flags; Num 1 0; Num 4 (Z.land (Z.shiftr return_type_info 16) (2 ^ 32 - 1))];
  if (closure =? 0) || (n =? 0) then mret closure
  else env ← tail_block arena (Num 8 packed_info :: replicate (Z.to_nat n) null_value); write closure 1 (Ptr env) ;; mret closure.

(** ** Static conditions *)

(** The static exception objects lie outside every arena; negative numbers are their addresses. *)
Definition runtime_emergencies : list Z := [-1; -2; -3; -4; -5].
Definition runtime_emergency_identity (e : Z) : bool := existsb (Z.eqb e) runtime_emergencies.
Definition runtime_emergency_value (e : Z) : word := Tag ESHKOL_VALUE_HEAP_PTR 0 e.
Definition emergency_condition (condition : Z) : Z :=
  let c := if (condition <? 1) || (5 <? condition) then 4 else condition in
  default 0 (runtime_emergencies !! Z.to_nat (c - 1)).

Definition eshkol_set_raised_value (v : word) : CtlM unit := modify (λ s, with_exception (current_exception s) v true s).
Definition eshkol_get_raised_value : CtlM word := gets raised_value.
Definition eshkol_get_current_exception : CtlM Z := gets current_exception.
Definition eshkol_clear_current_exception : CtlM unit := modify (λ s, with_exception 0 (raised_value s) (raised_set s) s).

(** ** Promises *)

(** A promise is [[state; thunk; cached]]; while it is evaluated, in state 3 or 4, the
    cached slot links it to the promise that was evaluated before. *)
Definition promise_link_target (link : word) : Z := match link with Tag t _ p => if t =? ESHKOL_VALUE_HEAP_PTR then p else 0 | _ => 0 end.
Definition promise_link_value (p : Z) : word := if p =? 0 then null_value else Tag ESHKOL_VALUE_HEAP_PTR 0 p.

(** [None] where a promise of the chain is not there or the fuel is used up. *)
Fixpoint promise_mark_is_reachable (n : nat) (h : heap) (cursor mark : Z) : option bool :=
  if (cursor =? 0) || (cursor =? mark) then Some (cursor =? mark)
  else
    match n with
    | O => None
    | S n =>
        state ← num_at h cursor 0;
        if negb (state =? 3) && negb (state =? 4) then Some false
        else link ← word_at h cursor 2; promise_mark_is_reachable n h (promise_link_target link) mark
    end.

Definition eshkol_promise_eval_mark : CtlM Z := gets promise_head.

Definition eshkol_promise_eval_begin (p original_state : Z) : CtlM unit :=
  if (p =? 0) || (negb (original_state =? 0) && negb (original_state =? 2)) then mret tt
  else
    head ← gets promise_head;
    write p 2 (promise_link_value head) ;;
    write p 0 (Num 8 (if original_state =? 0 then 3 else 4)) ;;
    modify (with_head p).

Definition eshkol_promise_eval_commit_one (p : Z) (result : word) : CtlM unit :=
  head ← gets promise_head;
  if (p =? 0) || negb (head =? p) then mret tt
  else
    previous ← read p 2;
    state ← read_num p 0;
    if negb (state =? 3) && negb (state =? 4) then mret tt
    else modify (with_head (promise_link_target previous)) ;; write p 2 result ;; write p 0 (Num 8 1).

Fixpoint commit_loop (n : nat) (mark : Z) (result : word) : CtlM unit :=
  p ← gets promise_head;
  if p =? mark then mret tt
  else
    match n with
    | O => timeout
    | S n =>
        previous ← read p 2;
        modify (with_head (promise_link_target previous)) ;;
        write p 2 result ;; write p 0 (Num 8 1) ;;
        commit_loop n mark result
    end.

Definition eshkol_promise_eval_commit_to (n : nat) (mark : Z) (result : word) : CtlM unit :=
  ok ← (λ s, of_option (promise_mark_is_reachable n (the_heap s) (promise_head s) mark) s);
  if (ok : bool) then commit_loop n mark result else mret tt.

Fixpoint promise_unwind_loop (n : nat) (mark : Z) : CtlM unit :=
  p ← gets promise_head;
  if p =? mark then mret tt
  else
    match n with
    | O => timeout
    | S n =>
        previous ← read p 2;
        evaluating_state ← read_num p 0;
        modify (with_head (promise_link_target previous)) ;;
        write p 2 null_value ;;
        write p 0 (Num 8 (if evaluating_state =? 4 then 2 else 0)) ;;
        promise_unwind_loop n mark
    end.

(** A mark that is not on the chain is one of a completed force: the chain stays. *)
Definition eshkol_promise_eval_unwind_to (n : nat) (mark : Z) : CtlM unit :=
  ok ← (λ s, of_option (promise_mark_is_reachable n (the_heap s) (promise_head s) mark) s);
  if (ok : bool) then promise_unwind_loop n mark else mret tt.

(** ** Regions *)

(** Regions are closed down to [mark] with one value in flight. *)
Definition regions_unwind (mark : nat) (v : word) (failed : Z → CtlM word) : CtlM word := λ s,
  match eshkol_region_unwind_to mark [v] (mem s) with
  | Some (Passed [v] m) => Returned v (with_mem m s)
  | Some (EmergencyRaise status m) => failed status (with_mem m s)
  | _ => Fault
  end.

(** ** Continuation states *)

(** [[jmp_buf; value; wind_mark; promise_mark; region_mark; ...]]. *)
Definition eshkol_make_continuation_state_flags (arena jmp_buf flags : Z) : CtlM Z :=
  w ← gets wind; q ← gets promise_head; d ← gets (λ s, depth (mem s));
  state ← arena_new arena None [Ptr jmp_buf; null_value; Ptr w; Ptr q; Num 8 (Z.of_nat d); Ptr 0; Ptr 0; Ptr 0; Num 8 0];
  if state =? 0 then mret 0
  else
    owned ← gets (λ s, eshkol_region_any_handle_owned_open (mem s));
    let escape_only := negb (Z.land flags 1 =? 0) in
    (if (0 <? d)%nat && (negb escape_only || owned) then modify (λ s, with_mem (eshkol_region_pin_all (mem s)) s) else mret tt) ;;
    mret state.
Definition eshkol_make_continuation_state (arena jmp_buf : Z) : CtlM Z := eshkol_make_continuation_state_flags arena jmp_buf 0.

Definition set_subtype (sub : Z) (b : block) : block := Block (prod_map (λ _, sub) id <$> header b) (arena_of b) (words b).

(** The address of the name "<continuation>", a constant of the program. *)
Definition continuation_name : Z := -6.

(** A closure without code; its one capture is the state. *)
Definition eshkol_make_continuation_closure (arena state : Z) : CtlM Z :=
  closure ← arena_allocate_closure_with_header arena 0 (1 + Z.shiftl 1 32) 0 0 continuation_name;
  if closure =? 0 then mret 0
  else
    modify (λ s, let m := mem s in
      with_mem (set_heap m (alter (set_subtype CALLABLE_SUBTYPE_CONTINUATION) closure (m_heap m)) (m_next m) (m_budget m)) s) ;;
    env ← read_ptr closure 1;
    (if env =? 0 then mret tt else write env 1 (Tag ESHKOL_VALUE_HEAP_PTR 0 state)) ;;
    mret closure.

(** ** Dynamic-wind *)

Section closures.
Context (call : Z → list word → CtlM word).

(** A closure with no code does nothing; one with more than four captures is called
    with none of them. *)
Definition call_thunk_closure (p : Z) : CtlM word :=
  if p =? 0 then mret null_value
  else
    func_ptr ← read_num p 0;
    if func_ptr =? 0 then mret null_value
    else
      env ← read_ptr p 1;
      captures ← (if env =? 0 then mret 0 else packed ← read_num env 0; mret (CLOSURE_ENV_GET_NUM_CAPTURES packed));
      if captures <=? 4 then call p [] else fault.

Definition call_thunk_from_tagged (thunk : word) : CtlM unit :=
  match thunk with
  | Tag t _ p => if t =? ESHKOL_VALUE_CALLABLE then call_thunk_closure p ;; mret tt else mret tt
  | _ => fault
  end.

(** An entry is [[before; after; prev]]. *)
Definition eshkol_push_dynamic_wind (arena : Z) (before after : word) : CtlM unit :=
  prev ← gets wind;
  entry ← arena_new arena None [before; after; Ptr prev];
  if entry =? 0 then mret tt else modify (with_wind entry).

Definition eshkol_pop_dynamic_wind : CtlM unit :=
  w ← gets wind;
  if w =? 0 then mret tt else prev ← read_ptr w 2; modify (with_wind prev).

(** The innermost extent is left. *)
Definition leave_top : CtlM unit :=
  entry ← gets wind;
  prev ← read_ptr entry 2;
  modify (with_wind prev) ;;
  after ← read entry 1;
  call_thunk_from_tagged after.

Fixpoint eshkol_unwind_dynamic_wind (n : nat) (mark : Z) : CtlM unit :=
  entry ← gets wind;
  if (entry =? 0) || (entry =? mark) then mret tt
  else
    match n with O => timeout | S n => leave_top ;; eshkol_unwind_dynamic_wind n mark end.

Fixpoint eshkol_wind_depth (n : nat) (h : heap) (e : Z) : option nat :=
  if e =? 0 then Some O
  else match n with O => None | S n => prev ← ptr_at h e 2; S <$> eshkol_wind_depth n h prev end.

(** [while (k-- > 0) e = e->prev]. *)
Fixpoint ascend (k : nat) (h : heap) (e : Z) : option Z :=
  match k with O => Some e | S k => prev ← ptr_at h e 2; ascend k h prev end.

(** [while (c != t) { c = c->prev; t = t->prev; }]. *)
Fixpoint meet (n : nat) (h : heap) (c t : Z) : option Z :=
  if c =? t then Some c
  else match n with O => None | S n => c ← ptr_at h c 2; t ← ptr_at h t 2; meet n h c t end.

Definition common_ancestor (n : nat) (h : heap) (c t : Z) : option Z :=
  dc ← eshkol_wind_depth n h c; dt ← eshkol_wind_depth n h t;
  c ← ascend (dc - dt) h c; t ← ascend (dt - dc) h t;
  meet n h c t.

Fixpoint leave_winds (n : nat) (common : Z) : CtlM unit :=
  entry ← gets wind;
  if entry =? common then mret tt
  else
    match n with O => timeout | S n => leave_top ;; leave_winds n common end.

Fixpoint eshkol_wind_enter (n : nat) (target common : Z) : CtlM unit :=
  if (target =? 0) || (target =? common) then mret tt
  else
    match n with
    | O => timeout
    | S n =>
        prev ← read_ptr target 2;
        eshkol_wind_enter n prev common ;;
        before ← read target 0;
        call_thunk_from_tagged before ;;
        modify (with_wind target)
    end.

Definition eshkol_reroot_dynamic_wind (n : nat) (target : Z) : CtlM unit :=
  current ← gets wind;
  if current =? target then mret tt
  else
    common ← (λ s, of_option (common_ancestor n (the_heap s) current target) s);
    leave_winds n common ;;
    eshkol_wind_enter n target common ;;
    modify (with_wind target).

(** ** Raising *)

(** [n] bounds the loops and the emergencies raised while one is being delivered. *)
Fixpoint eshkol_raise {A} (n : nat) (exception : Z) {struct n} : CtlM A :=
  let deliver (h : handler) : CtlM A :=
    v ← gets raised_value;
    v ← regions_unwind (region_mark h) v (λ status, match n with O => timeout | S n => eshkol_raise n (emergency_condition status) end);
    modify (λ s, with_exception (current_exception s) v (raised_set s) s) ;;
    transfer (jmp_buf_ptr h) in
  (if runtime_emergency_identity exception
   then modify (λ s, with_exception (current_exception s) (runtime_emergency_value exception) true s) else mret tt) ;;
  modify (λ s,
    with_exception exception (if raised_set s then raised_value s else Tag ESHKOL_VALUE_HEAP_PTR 0 exception) false s) ;;
  handlers ← gets handler_stack;
  match handlers with
  | (_, h) :: _ =>
      if jmp_buf_ptr h =? 0 then exited
      else
        eshkol_unwind_dynamic_wind n (wind_mark h) ;;
        handlers ← gets handler_stack;
        match handlers with
        | (_, h) :: _ => eshkol_promise_eval_unwind_to n (promise_mark h) ;; deliver h
        | [] => fault
        end
  | [] => exited
  end.

Definition eshkol_runtime_emergency_raise_v1 {A} (n : nat) (condition : Z) : CtlM A := eshkol_raise n (emergency_condition condition).

Definition eshkol_runtime_emergency_rethrow_if_v1 (n : nat) (v : word) : CtlM unit :=
  match v with
  | Tag t f e =>
      if negb (t =? ESHKOL_VALUE_HEAP_PTR) || negb (f =? 0) then mret tt
      else if runtime_emergency_identity e then eshkol_raise n e else mret tt
  | _ => fault
  end.

(** ** The handler stack *)

Definition malloc_frame : CtlM Z := λ s,
  match mallocs s with
  | Some O => Returned (-1) s
  | a => Returned (frames_made s) (with_frames (handler_stack s) (free_list s) (frames_made s + 1) (option_map pred a) s)
  end.

Definition eshkol_push_exception_handler (n : nat) (jmp_buf : Z) : CtlM unit :=
  free ← gets free_list;
  frame ← (match free with
           | f :: l => modify (λ s, with_frames (handler_stack s) l (frames_made s) (mallocs s) s) ;; mret f
           | [] => malloc_frame
           end);
  if frame <? 0 then eshkol_runtime_emergency_raise_v1 n 5
  else modify (λ s,
    let h := Handler jmp_buf (wind s) (promise_head s) (depth (mem s)) in
    with_frames ((frame, h) :: handler_stack s) (free_list s) (frames_made s) (mallocs s) s).

Definition eshkol_pop_exception_handler : CtlM unit := modify (λ s,
  match handler_stack s with
  | (f, _) :: l => with_frames l (f :: free_list s) (frames_made s) (mallocs s) s
  | [] => s
  end).

(** Frames are made until [count] are free. *)
Fixpoint reserve_loop (n k : nat) : CtlM unit :=
  match k with
  | O => mret tt
  | S k =>
      frame ← malloc_frame;
      if frame <? 0 then eshkol_runtime_emergency_raise_v1 n 5
      else modify (λ s, with_frames (handler_stack s) (frame :: free_list s) (frames_made s) (mallocs s) s) ;; reserve_loop n k
  end.

Definition sizeof_handler : Z := 40.
Definition eshkol_runtime_reserve_exception_handlers_v1 (n : nat) (count : Z) : CtlM Z :=
  if (count <? 0) || (UINT64_MAX / sizeof_handler <? count) then eshkol_runtime_emergency_raise_v1 n 4
  else
    free ← gets free_list;
    reserve_loop n (Z.to_nat count - length free) ;; mret 0.

(** ** Compiled forms (lib/backend/llvm_codegen.cpp) *)

Definition getArenaPtr : CtlM Z := gets (λ s, get_global_arena (mem s)).

Definition c_string (t : String.string) : list word :=
  map (λ c, Num 1 (Z.of_N (Ascii.N_of_ascii c))) (String.list_ascii_of_string t) ++ [Num 1 0].

(** [[type; message; irritants; num_irritants; line; column; filename]] and padding, in
    the shared root arena; the message is copied, and stays NULL without room for it. *)
Definition eshkol_make_exception_with_header (type : Z) (message : String.string) : CtlM Z :=
  arena ← gets (λ s, shared_root_arena (mem s));
  e ← arena_new arena (Some (HEAP_SUBTYPE_EXCEPTION, 48)) [Num 8 type; Ptr 0; Ptr 0; Num 4 0; Num 4 0; Num 4 0; Ptr 0; Num 4 0];
  if e =? 0 then mret 0
  else text ← arena_new arena None (c_string message); write e 1 (Ptr text) ;; mret e.

Definition ESHKOL_EXCEPTION_ERROR : Z := 0.
Definition ESHKOL_EXCEPTION_USER_DEFINED : Z := 8.

(** [(raise v)] of a value that is not a string literal. *)
Definition codegenRaise {A} (n : nat) (v : word) : CtlM A :=
  eshkol_runtime_emergency_rethrow_if_v1 n v ;;
  eshkol_set_raised_value v ;;
  e ← eshkol_make_exception_with_header ESHKOL_EXCEPTION_USER_DEFINED "user exception"%string;
  eshkol_raise n e.

Definition codegenDynamicWind (before thunk after : word) (run : word → CtlM word) : CtlM word :=
  run before ;;
  arena ← getArenaPtr;
  eshkol_push_dynamic_wind arena before after ;;
  result ← run thunk;
  eshkol_pop_dynamic_wind ;;
  run after ;;
  mret result.

(** A clause whose test fails is [None]; the last one of an [else] never fails. *)
Fixpoint guard_clauses (clauses : list (word → CtlM (option word))) (raised : word) : CtlM (option word) :=
  match clauses with
  | [] => mret None
  | c :: l => r ← c raised; match r with Some v => mret (Some v) | None => guard_clauses l raised end
  end.

Definition codegenGuard (n : nat) (jmp_buf : Z) (body : CtlM word) (clauses : list (word → CtlM (option word))) : CtlM word :=
  eshkol_push_exception_handler n jmp_buf ;;
  setjmp jmp_buf body (λ v, eshkol_pop_exception_handler ;; mret v)
    (eshkol_pop_exception_handler ;;
     raised ← eshkol_get_raised_value;
     e ← eshkol_get_current_exception;
     match clauses with
     | [] => eshkol_clear_current_exception ;; mret (Tag ESHKOL_VALUE_HEAP_PTR 0 e)
     | _ =>
         r ← guard_clauses clauses raised;
         match r with
         | Some v => eshkol_clear_current_exception ;; mret v
         | None =>
             eshkol_runtime_emergency_rethrow_if_v1 n raised ;;
             e ← eshkol_get_current_exception;
             eshkol_raise n e
         end
     end).

Definition codegenWithExceptionHandler (n : nat) (jmp_buf : Z) (handler : word → CtlM word) (thunk : CtlM word) : CtlM word :=
  eshkol_push_exception_handler n jmp_buf ;;
  setjmp jmp_buf thunk (λ v, eshkol_pop_exception_handler ;; mret v)
    (eshkol_pop_exception_handler ;; raised ← eshkol_get_raised_value; handler raised).

Definition eshkol_region_unwind_for_continuation (n : nat) (k : Z) : CtlM unit :=
  if k =? 0 then mret tt
  else
    mark ← read_num k 4; v ← read k 1;
    v ← regions_unwind (Z.to_nat mark) v (λ status, eshkol_runtime_emergency_raise_v1 n status);
    write k 1 v.

(** The call of a continuation closure (in the code of any closure call). *)
Definition invoke_continuation {A} (n : nat) (closure : Z) (v : word) : CtlM A :=
  env ← read_ptr closure 1;
  capture ← read env 1;
  k ← of_option (match capture with Tag _ _ k => Some k | _ => None end);
  write k 1 v ;;
  wind_mark ← read_ptr k 2;
  eshkol_reroot_dynamic_wind n wind_mark ;;
  promise_mark ← read_ptr k 3;
  eshkol_promise_eval_unwind_to n promise_mark ;;
  eshkol_region_unwind_for_continuation n k ;;
  buf ← read_ptr k 0;
  transfer buf.

Definition eshkol_root_arena_v1 : CtlM Z := gets (λ s, shared_root_arena (mem s)).

(** [stays_local] is what the compiler knows of the continuation; the copy of the stack
    that is taken where it is false is left out. *)
Definition codegenCallCC (stays_local : bool) (jmp_buf : Z) (proc : word → CtlM word) : CtlM word :=
  arena ← (if stays_local then getArenaPtr else eshkol_root_arena_v1);
  k ← eshkol_make_continuation_state arena jmp_buf;
  closure ← eshkol_make_continuation_closure arena k;
  setjmp jmp_buf (proc (Tag ESHKOL_VALUE_CALLABLE 0 closure)) mret (read k 1).

(** ** force *)

Definition FUTURE_FLAG : Z := 10.

Definition header_at (h : heap) (p : Z) : option Z := if p =? 0 then None else b ← h !! p; fst <$> header b.

Definition make_lazy_promise (delay_force : bool) (thunk : word) : CtlM word :=
  arena ← gets (λ s, global_arena (mem s));
  p ← arena_new arena (Some (HEAP_SUBTYPE_PROMISE, 40)) [Num 8 (if delay_force then 2 else 0); thunk; null_value];
  mret (Tag ESHKOL_VALUE_HEAP_PTR 0 p).
Definition make_promise (v : word) : CtlM word :=
  arena ← gets (λ s, global_arena (mem s));
  p ← arena_new arena (Some (HEAP_SUBTYPE_PROMISE, 40)) [Num 8 1; null_value; v];
  mret (Tag ESHKOL_VALUE_HEAP_PTR 0 p).

(** [run] calls a closure from compiled code, [force_future] waits for a future. *)
Context (run : word → CtlM word) (force_future : Z → CtlM word).

Definition emit_promise_error {A} (n : nat) (message : String.string) : CtlM A :=
  e ← eshkol_make_exception_with_header ESHKOL_EXCEPTION_ERROR message; eshkol_raise n e.

Fixpoint force_loop (n : nat) (current : word) : CtlM word :=
  match current with
  | Tag t f p =>
      if (t =? ESHKOL_VALUE_HEAP_PTR) && (f =? FUTURE_FLAG) then force_future p
      else if negb (t =? ESHKOL_VALUE_HEAP_PTR) then mret current
      else
        sub ← (λ s, of_option (header_at (the_heap s) p) s);
        if negb (sub =? HEAP_SUBTYPE_PROMISE) then mret current
        else
          state ← read_num p 0;
          if state =? 1 then read p 2
          else if state =? 0 then
            eshkol_promise_eval_begin p 0 ;;
            thunk ← read p 1; evaluated ← run thunk;
            eshkol_promise_eval_commit_one p evaluated ;;
            mret evaluated
          else if state =? 2 then
            eshkol_promise_eval_begin p 2 ;;
            thunk ← read p 1; evaluated ← run thunk;
            match n with O => timeout | S n => force_loop n evaluated end
          else if (state =? 3) || (state =? 4) then emit_promise_error n "force: promise evaluation is re-entrant or cyclic"%string
          else emit_promise_error n "force: corrupt promise state"%string
  | _ => fault
  end.

Definition codegenForce (n : nat) (v : word) : CtlM word :=
  mark ← eshkol_promise_eval_mark;
  result ← force_loop n v;
  eshkol_promise_eval_commit_to n mark result ;;
  mret result.
End closures.
