(* ===== verification/ControlSpec.v ===== *)
(** * ControlSpec: the chains of dynamic-wind entries and of promises, and what crossing them does *)

From S2P Require Export Control.
Local Open Scope Z_scope.

(** * The chains of dynamic-wind entries, and what crossing them runs *)

(** ** The monad *)

Lemma bind_bind {A B C} (m : CtlM A) (f : A → CtlM B) (g : B → CtlM C) s :
  ((m ≫= f) ≫= g) s = (m ≫= λ a, f a ≫= g) s.
Proof. unfold mbind, ctl_bind. by destruct (m s). Qed.

Lemma bind_cong {A B} (m : CtlM A) (f g : A → CtlM B) s :
  (∀ a s', m s = Returned a s' → f a s' = g a s') → (m ≫= f) s = (m ≫= g) s.
Proof. intros H. unfold mbind, ctl_bind. destruct (m s) eqn:E; try done. by apply H. Qed.

Lemma bind_returned {A B} (m : CtlM A) (f : A → CtlM B) s b s' :
  (m ≫= f) s = Returned b s' ↔ ∃ a s1, m s = Returned a s1 ∧ f a s1 = Returned b s'.
Proof.
  unfold mbind, ctl_bind. split; [|by intros (a & s1 & -> & H)]. destruct (m s) eqn:E; try done. eauto.
Qed.

Lemma bind_run {A B} (m : CtlM A) (f : A → CtlM B) s a s1 : m s = Returned a s1 → (m ≫= f) s = f a s1.
Proof. unfold mbind, ctl_bind. by intros ->. Qed.

Lemma bind_same {A B} (m m' : CtlM A) (f : A → CtlM B) s : m s = m' s → (m ≫= f) s = (m' ≫= f) s.
Proof. unfold mbind, ctl_bind. by intros ->. Qed.

Lemma gets_bind {A B} (f : control → A) (k : A → CtlM B) s : (gets f ≫= k) s = k (f s) s.
Proof. done. Qed.
Lemma modify_bind {B} f (k : () → CtlM B) s : (modify f ≫= k) s = k tt (f s).
Proof. done. Qed.
Lemma ret_bind {A B} a (k : A → CtlM B) s : ((mret a : CtlM A) ≫= k) s = k a s.
Proof. done. Qed.
Lemma read_bind {B} p i w (k : word → CtlM B) s : word_at (the_heap s) p i = Some w → (read p i ≫= k) s = k w s.
Proof. intros H. apply bind_run. unfold read. by rewrite H. Qed.
Lemma read_ptr_bind {B} p i q (k : Z → CtlM B) s : ptr_at (the_heap s) p i = Some q → (read_ptr p i ≫= k) s = k q s.
Proof. intros H. apply bind_run. unfold read_ptr. by rewrite H. Qed.
Lemma read_num_bind {B} p i q (k : Z → CtlM B) s : num_at (the_heap s) p i = Some q → (read_num p i ≫= k) s = k q s.
Proof. intros H. apply bind_run. unfold read_num. by rewrite H. Qed.

Lemma word_at_same h h' p i : h' !! p = h !! p → word_at h' p i = word_at h p i.
Proof. unfold word_at. by intros ->. Qed.
Lemma ptr_at_same h h' p i : h' !! p = h !! p → ptr_at h' p i = ptr_at h p i.
Proof. unfold ptr_at. by intros ->%(word_at_same _ _ _ i). Qed.

Lemma with_wind_id s : with_wind (wind s) s = s.
Proof. by destruct s. Qed.

(** ** Chains *)

(** The entries from [p] to the root, the innermost first. *)
Fixpoint chain (h : heap) (p : Z) (l : list Z) : Prop :=
  match l with
  | [] => p = 0
  | q :: l => p = q ∧ q ≠ 0 ∧ is_Some (word_at h q 0) ∧ is_Some (word_at h q 1) ∧ ∃ r, ptr_at h q 2 = Some r ∧ chain h r l
  end.

Definition top_of (l : list Z) : Z := default 0 (head l).

Lemma chain_top h p l : chain h p l → p = top_of l.
Proof. destruct l; simpl; [done|]. by intros [-> _]. Qed.

Lemma chain_fun h p l l' : chain h p l → chain h p l' → l = l'.
Proof.
  revert p l'. induction l as [|q l IH]; intros p [|q' l'] H H'; simpl in *; try done.
  - destruct H' as (-> & ? & _). done.
  - destruct H as (-> & ? & _). done.
  - destruct H as (-> & _ & _ & _ & r & Hr & H), H' as (-> & _ & _ & _ & r' & Hr' & H'). simplify_eq. f_equal. by eapply IH.
Qed.

Lemma chain_drop h p l k : chain h p l → chain h (top_of (drop k l)) (drop k l).
Proof.
  revert p k. induction l as [|q l IH]; intros p [|k] H; simpl in *; try done.
  - destruct H as (-> & H). by split.
  - destruct H as (_ & _ & _ & _ & r & _ & H). by eapply IH.
Qed.

Lemma chain_app h p l l' : chain h p (l ++ l') → chain h (top_of l') l'.
Proof. intros H. apply (chain_drop _ _ _ (length l)) in H. by rewrite drop_app_length in H. Qed.

Lemma chain_at h p l i q : chain h p l → l !! i = Some q → chain h q (drop i l).
Proof. intros H Hi. apply (chain_drop _ _ _ i) in H. by rewrite (drop_S _ _ _ Hi) in *. Qed.

Lemma chain_nonzero h p l q : chain h p l → q ∈ l → q ≠ 0.
Proof. intros H [i Hi]%list_elem_of_lookup_1. pose proof (chain_at _ _ _ _ _ H Hi) as Hc. rewrite (drop_S _ _ _ Hi) in Hc. by destruct Hc as (_ & ? & _). Qed.

(** An entry of a chain heads a chain that is no longer. *)
Lemma chain_in_length h p l q l' : chain h p l → q ∈ l → chain h q l' → (length l' <= length l)%nat.
Proof.
  intros H [i Hi]%list_elem_of_lookup_1 H'. rewrite (chain_fun _ _ _ _ H' (chain_at _ _ _ _ _ H Hi)), length_drop. lia.
Qed.

Lemma chain_ext h h' p l : (∀ q, q ∈ l → h' !! q = h !! q) → chain h p l → chain h' p l.
Proof.
  revert p. induction l as [|q l IH]; intros p Hh H; simpl in *; [done|].
  destruct H as (-> & Hq & H0 & H1 & r & Hr & H). unfold ptr_at, word_at in *. rewrite (Hh q) by by constructor.
  split; [done|]. split; [done|]. split; [done|]. split; [done|]. exists r. split; [done|]. apply IH; [|done].
  intros x Hx. apply Hh. by constructor.
Qed.

Lemma depth_chain h p l n : chain h p l → (length l <= n)%nat → eshkol_wind_depth n h p = Some (length l).
Proof.
  revert p n. induction l as [|q l IH]; intros p n H Hn; simpl in *.
  - subst. by destruct n.
  - destruct H as (-> & Hq & _ & _ & r & Hr & H). destruct n as [|n]; [lia|]. simpl.
    destruct (Z.eqb_spec q 0); [done|]. rewrite Hr. simpl. rewrite (IH r n H) by lia. done.
Qed.

Lemma ascend_chain h p l k : chain h p l → (k <= length l)%nat → ascend k h p = Some (top_of (drop k l)).
Proof.
  revert p l. induction k as [|k IH]; intros p l H Hk; simpl.
  - rewrite drop_0. f_equal. by eapply chain_top.
  - destruct l as [|q l]; simpl in *; [lia|]. destruct H as (-> & _ & _ & _ & r & -> & H). simpl. apply IH; [done|lia].
Qed.

(** Two chains of one length, from below the point where they meet. *)
Lemma meet_chains h c t l1 l2 n : chain h c l1 → chain h t l2 → length l1 = length l2 → (length l1 <= n)%nat →
  ∃ out inn r, l1 = out ++ r ∧ l2 = inn ++ r ∧ meet n h c t = Some (top_of r) ∧
    (∀ p, p ∈ out → p ∉ l2) ∧ (∀ p, p ∈ inn → p ∉ l1).
Proof.
  revert c t l2 n. induction l1 as [|x l1 IH]; intros c t l2 n H1 H2 Hlen Hn.
  - destruct l2; [|done]. simpl in *. subst. exists [], [], []. split; [done|]. split; [done|].
    split; [by destruct n|]. split; intros ? ?%not_elem_of_nil; done.
  - destruct l2 as [|y l2]; [done|]. pose proof H1 as G1. pose proof H2 as G2. destruct H1 as (-> & Hx & _ & _ & r1 & Hr1 & H1), H2 as (-> & Hy & _ & _ & r2 & Hr2 & H2).
    destruct (Z.eqb_spec x y) as [->|Hne].
    + exists [], [], (y :: l2). pose proof (chain_fun _ _ _ _ G1 G2) as E. split; [done|]. split; [done|]. split.
      * destruct n; simpl; by rewrite Z.eqb_refl.
      * split; intros ? ?%not_elem_of_nil; done.
    + simpl in Hlen, Hn. destruct n as [|n]; [lia|]. destruct (IH r1 r2 l2 n H1 H2) as (out & inn & r & -> & -> & Hm & Ho & Hi); [lia..|].
      exists (x :: out), (y :: inn), r. split; [done|]. split; [done|]. split.
      * simpl. rewrite (proj2 (Z.eqb_neq _ _) Hne), Hr1, Hr2. exact Hm.
      * assert (Hx2 : x ∉ inn ++ r). { intros Hin. pose proof (chain_in_length _ _ _ _ _ H2 Hin G1) as Hl. simpl in Hl. lia. }
        assert (Hy1 : y ∉ out ++ r). { intros Hin. pose proof (chain_in_length _ _ _ _ _ H1 Hin G2) as Hl. simpl in Hl. lia. }
        split; intros p [->|Hp]%elem_of_cons; rewrite not_elem_of_cons; split; try done.
        -- intros ->. apply Hy1. apply elem_of_app. by left.
        -- by apply Ho.
        -- intros ->. apply Hx2. apply elem_of_app. by left.
        -- by apply Hi.
Qed.

Lemma chain_deeper h c t l1 l2 p : chain h c l1 → chain h t l2 → p ∈ take (length l1 - length l2) l1 → p ∉ l2.
Proof.
  intros H1 H2 [i Hi]%list_elem_of_lookup_1 Hp. pose proof (lookup_lt_Some _ _ _ Hi) as Hlt. rewrite length_take in Hlt.
  rewrite lookup_take_lt in Hi by lia.
  pose proof (chain_in_length _ _ _ _ _ H2 Hp (chain_at _ _ _ _ _ H1 Hi)) as Hl. rewrite length_drop in Hl. lia.
Qed.

(** The chains of the current entry and of the target split at the entry found. *)
Lemma common_ancestor_ok h c t l1 l2 n : chain h c l1 → chain h t l2 → (length l1 + length l2 <= n)%nat →
  ∃ out inn r, l1 = out ++ r ∧ l2 = inn ++ r ∧ common_ancestor n h c t = Some (top_of r) ∧
    (∀ p, p ∈ out → p ∉ l2) ∧ (∀ p, p ∈ inn → p ∉ l1).
Proof.
  intros H1 H2 Hn. unfold common_ancestor. rewrite (depth_chain _ _ _ _ H1), (depth_chain _ _ _ _ H2) by lia. simpl.
  set (k1 := (length l1 - length l2)%nat). set (k2 := (length l2 - length l1)%nat).
  rewrite (ascend_chain _ _ _ k1 H1), (ascend_chain _ _ _ k2 H2) by (subst k1 k2; lia). simpl.
  destruct (meet_chains h _ _ _ _ n (chain_drop _ _ _ k1 H1) (chain_drop _ _ _ k2 H2)) as (out & inn & r & E1 & E2 & Hm & Ho & Hi).
  { rewrite !length_drop. lia. }
  { rewrite length_drop. lia. }
  exists (take k1 l1 ++ out), (take k2 l2 ++ inn), r. split; [by rewrite <- app_assoc, <- E1, take_drop|].
  split; [by rewrite <- app_assoc, <- E2, take_drop|]. split; [exact Hm|].
  split; intros p [Hp|Hp]%elem_of_app.
  - by eapply (chain_deeper h c t).
  - specialize (Ho p Hp). rewrite <- (take_drop k2 l2). rewrite not_elem_of_app. split; [|done].
    intros Hp2. eapply (chain_deeper h t c); [done|done|exact Hp2|].
    rewrite <- (take_drop k1 l1), E1. set_solver.
  - by eapply (chain_deeper h t c).
  - specialize (Hi p Hp). rewrite <- (take_drop k1 l1). rewrite not_elem_of_app. split; [|done].
    intros Hp1. eapply (chain_deeper h c t); [done|done|exact Hp1|].
    rewrite <- (take_drop k2 l2), E2. set_solver.
Qed.

(** ** Crossing *)

Section crossing.
Context (call : Z → list word → CtlM word).

(** The thunks run one after the other, each with the entry outside it on top. *)
Fixpoint run_winds (l : list (Z * word)) : CtlM unit :=
  match l with
  | [] => mret tt
  | (w, thunk) :: l => modify (with_wind w) ;; call_thunk_from_tagged call thunk ;; run_winds l
  end.

Definition leaving (h : heap) (p : Z) : option (Z * word) := prev ← ptr_at h p 2; after ← word_at h p 1; Some (prev, after).
Definition entering (h : heap) (p : Z) : option (Z * word) := prev ← ptr_at h p 2; before ← word_at h p 0; Some (prev, before).

(** Entries [out] are left, the innermost first, then [inn] are entered, the outermost first. *)
Definition crossing (h : heap) (out inn : list Z) : list (Z * word) := omap (leaving h) out ++ omap (entering h) (reverse inn).

(** What a call that returns may not touch: the top of the stack and the entries [keep]. *)
Definition undisturbed (keep : list Z) (s s' : control) : Prop :=
  wind s' = wind s ∧ ∀ p, p ∈ keep → the_heap s' !! p = the_heap s !! p.
Definition balanced (keep : list Z) : Prop := ∀ p args s v s', call p args s = Returned v s' → undisturbed keep s s'.

Context (keep : list Z) (Hcall : balanced keep).

Lemma undisturbed_refl s : undisturbed keep s s.
Proof. by split. Qed.

Lemma thunk_undisturbed t s s' : call_thunk_from_tagged call t s = Returned tt s' → undisturbed keep s s'.
Proof.
  destruct t as [t f p| | |]; simpl; try done. destruct (t =? _); [|intros [= <-]; apply undisturbed_refl].
  rewrite bind_returned. intros (v & s1 & H & [= <-]). unfold call_thunk_closure in H.
  destruct (p =? 0); [injection H as _ <-; apply undisturbed_refl|].
  unfold read_num, read_ptr, of_option, fault, mbind, ctl_bind, mret, ctl_ret in H.
  repeat (case_match; simplify_eq/=); try apply undisturbed_refl; by eapply Hcall.
Qed.

Lemma run_winds_app l l' s : run_winds (l ++ l') s = (run_winds l ;; run_winds l') s.
Proof.
  revert s. induction l as [|[w t] l IH]; intros s; [done|]. simpl.
  rewrite bind_bind. apply bind_cong. intros [] s1 _. rewrite bind_bind. apply bind_cong. intros [] s2 _. apply IH.
Qed.

Lemma run_winds_keep l s s' : run_winds l s = Returned tt s' → ∀ p, p ∈ keep → the_heap s' !! p = the_heap s !! p.
Proof.
  revert s. induction l as [|[w t] l IH]; intros s; simpl; [by intros [= <-]|].
  rewrite bind_returned. intros ([] & s1 & [= <-] & H). apply bind_returned in H as ([] & s2 & H2 & H).
  intros p Hp. rewrite (IH s2 H p Hp). apply thunk_undisturbed in H2 as [_ H2]. by rewrite (H2 p Hp).
Qed.

(** One extent is left: its thunk runs with the entry outside it on top. *)
Lemma leave_top_ok h q l s : chain h (wind s) (q :: l) → q ∈ keep → the_heap s !! q = h !! q →
  ∃ w t, leaving h q = Some (w, t) ∧ w = top_of l ∧ chain h w l ∧
    leave_top call s = (modify (with_wind w) ;; call_thunk_from_tagged call t) s ∧
    ∀ s', leave_top call s = Returned tt s' → wind s' = w ∧ ∀ p, p ∈ keep → the_heap s' !! p = the_heap s !! p.
Proof.
  intros (Hw & Hq & _ & [a Ha] & prev & Hp & Hc) Hk Hs. exists prev, a.
  assert (E : leave_top call s = (modify (with_wind prev) ;; call_thunk_from_tagged call a) s).
  { unfold leave_top. rewrite gets_bind, Hw, (read_ptr_bind _ _ prev), !modify_bind by by rewrite (ptr_at_same _ _ _ _ Hs).
    by rewrite (read_bind _ _ a) by by rewrite (word_at_same h). }
  split; [unfold leaving; rewrite Hp; simpl; by rewrite Ha|]. split; [by eapply chain_top|]. split; [done|]. split; [done|].
  rewrite E, modify_bind. intros s' H. apply thunk_undisturbed in H. exact H.
Qed.

(** Leaving the entries [out] runs the thunks, and ends at the entry after them. *)
Lemma leave_winds_ok h out r n s : chain h (wind s) (out ++ r) → (∀ p, p ∈ out → p ∈ keep ∧ the_heap s !! p = h !! p) →
  top_of r ∉ out → (length out <= n)%nat →
  leave_winds call n (top_of r) s = run_winds (omap (leaving h) out) s ∧
  eshkol_unwind_dynamic_wind call n (top_of r) s = run_winds (omap (leaving h) out) s ∧
  ∀ s', run_winds (omap (leaving h) out) s = Returned tt s' → wind s' = top_of r.
Proof.
  revert n s. induction out as [|q out IH]; intros n s Hc Hh Hr Hn.
  - apply chain_top in Hc. simpl in *. split; [|split]; [..|by intros s' [= <-]];
      destruct n; simpl; rewrite gets_bind, Hc, Z.eqb_refl, ?orb_true_r; done.
  - destruct n as [|n]; [simpl in Hn; lia|]. simpl in Hn. rewrite not_elem_of_cons in Hr. destruct Hr as [Hqr Hr].
    destruct (Hh q) as [Hqk Hqs]; [by constructor|].
    destruct (leave_top_ok h q (out ++ r) s Hc Hqk Hqs) as (w & t & El & _ & Hcw & Et & Hs').
    assert (Hstep : ∀ s2, leave_top call s = Returned tt s2 →
      leave_winds call n (top_of r) s2 = run_winds (omap (leaving h) out) s2 ∧
      eshkol_unwind_dynamic_wind call n (top_of r) s2 = run_winds (omap (leaving h) out) s2 ∧
      ∀ s', run_winds (omap (leaving h) out) s2 = Returned tt s' → wind s' = top_of r).
    { intros s2 H2. destruct (Hs' s2 H2) as [Hw2 Hk2]. apply (IH n s2); [by rewrite Hw2| |done|lia].
      intros p Hp. destruct (Hh p) as [Hpk Hps]; [by constructor|]. split; [done|]. by rewrite (Hk2 p Hpk). }
    assert (E : run_winds ((w, t) :: omap (leaving h) out) s = (leave_top call ;; run_winds (omap (leaving h) out)) s).
    { rewrite (bind_same _ _ _ s Et). symmetry. apply bind_bind. }
    replace (omap (leaving h) (q :: out)) with ((w, t) :: omap (leaving h) out) by (simpl; by rewrite El).
    rewrite E. destruct Hc as (Hw & Hq & _). simpl. rewrite !gets_bind, Hw.
    rewrite (proj2 (Z.eqb_neq _ _) Hq), (proj2 (Z.eqb_neq q (top_of r))) by congruence. simpl. split; [|split].
    + apply bind_cong. intros [] s2 H2. by apply Hstep.
    + apply bind_cong. intros [] s2 H2. by apply Hstep.
    + intros s'. rewrite bind_returned. intros ([] & s2 & H2 & H). by apply (Hstep s2 H2).
Qed.

(** Entering the entries [inn] runs the thunks, the outermost first. *)
Lemma wind_enter_ok h inn r target n s : chain h target (inn ++ r) → (∀ p, p ∈ inn → p ∈ keep ∧ the_heap s !! p = h !! p) →
  top_of r ∉ inn → (length inn <= n)%nat → wind s = top_of r →
  eshkol_wind_enter call n target (top_of r) s = (run_winds (omap (entering h) (reverse inn)) ;; modify (with_wind target)) s.
Proof.
  revert target n s. induction inn as [|q inn IH]; intros target n s Hc Hh Hr Hn Hw.
  - apply chain_top in Hc as ->. simpl in *. rewrite ret_bind. unfold modify. rewrite <- Hw, with_wind_id.
    destruct n; simpl; by rewrite Z.eqb_refl, orb_true_r.
  - destruct n as [|n]; [simpl in Hn; lia|]. simpl in Hn, Hc. destruct Hc as (-> & Hq & [b Hb] & _ & prev & Hp & Hc).
    assert (E : entering h q = Some (prev, b)) by (unfold entering; by rewrite Hp; simpl; rewrite Hb).
    destruct (Hh q) as [Hqk Hqs]; [by constructor|]. rewrite not_elem_of_cons in Hr. destruct Hr as [Hqr Hr].
    simpl. destruct (Z.eqb_spec q 0); [done|]. destruct (Z.eqb_spec q (top_of r)) as [->|]; [done|].
    rewrite orb_false_r. rewrite (read_ptr_bind _ _ prev) by by rewrite (ptr_at_same _ _ _ _ Hqs).
    rewrite reverse_cons, omap_app. simpl omap. rewrite E.
    specialize (IH prev n s Hc (λ p Hp, Hh p (proj2 (elem_of_cons _ _ _) (or_intror Hp))) Hr ltac:(lia) Hw).
    rewrite (bind_same _ _ _ s IH), (bind_same _ _ _ s (run_winds_app _ [(prev, b)] s)), !bind_bind. apply bind_cong. intros [] s1 H1. simpl. rewrite !bind_bind, !modify_bind.
    rewrite (read_bind _ _ b).
    + rewrite !bind_bind. apply bind_cong. intros [] s2 H2. done.
    + rewrite (word_at_same h); [done|]. unfold the_heap at 1. simpl. by rewrite <- Hqs, <- (run_winds_keep _ _ _ H1 q Hqk).
Qed.

(** Rerooting is the crossing from the chain of the current entry to that of the target. *)
Lemma reroot_ok n s target ls lt : chain (the_heap s) (wind s) ls → chain (the_heap s) target lt →
  (∀ p, p ∈ ls ++ lt → p ∈ keep) → (length ls + length lt <= n)%nat →
  ∃ out inn r, ls = out ++ r ∧ lt = inn ++ r ∧ (∀ p, p ∈ out → p ∉ lt) ∧ (∀ p, p ∈ inn → p ∉ ls) ∧
    eshkol_reroot_dynamic_wind call n target s = (run_winds (crossing (the_heap s) out inn) ;; modify (with_wind target)) s.
Proof.
  intros Hs Ht Hk Hn. destruct (common_ancestor_ok _ _ _ _ _ n Hs Ht Hn) as (out & inn & r & -> & -> & Hc & Ho & Hi).
  exists out, inn, r. split; [done|]. split; [done|]. split; [done|]. split; [done|].
  assert (Hr : top_of r ∉ out ∧ top_of r ∉ inn).
  { destruct r as [|x r]; simpl; [|split; intros Hin; [eapply Ho|eapply Hi]; [done|set_solver|done|set_solver]].
    split; intros Hin; [eapply (chain_nonzero _ _ _ 0 Hs)|eapply (chain_nonzero _ _ _ 0 Ht)]; set_solver. }
  destruct Hr as [Hr1 Hr2]. unfold eshkol_reroot_dynamic_wind. rewrite gets_bind.
  destruct (Z.eqb_spec (wind s) target) as [E|Hne].
  - assert (E' : out ++ r = inn ++ r) by (eapply chain_fun; [exact Hs|by rewrite E]). apply app_inv_tail in E' as ->.
    assert (inn = []) as -> by (destruct inn as [|x inn]; [done|]; destruct (Ho x); set_solver).
    unfold crossing. simpl. rewrite ret_bind. unfold modify. by rewrite <- E, with_wind_id.
  - rewrite (bind_run _ _ s (top_of r) s) by by rewrite Hc.
    destruct (leave_winds_ok (the_heap s) out r n s Hs) as (El & _ & Hw); [|done|rewrite length_app in Hn; lia|].
    { intros p Hp. split; [apply Hk; set_solver|done]. }
    unfold crossing. rewrite (bind_same _ _ _ s El), (bind_same _ _ _ s (run_winds_app _ _ s)), bind_bind.
    apply bind_cong. intros [] s1 E1. erewrite bind_same; [|eapply (wind_enter_ok (the_heap s) inn r target n s1 Ht)].
    + rewrite bind_bind. by apply bind_cong.
    + intros p Hp. split; [apply Hk; set_solver|]. apply (run_winds_keep _ _ _ E1). apply Hk. set_solver.
    + done.
    + rewrite !length_app in Hn. lia.
    + by apply Hw.
Qed.
End crossing.

(** * The chain of promises under evaluation *)

Lemma write_bind {B} p i w w0 (k : () → CtlM B) s : word_at (the_heap s) p i = Some w0 →
  (write p i w ≫= k) s = k tt (with_mem (store p i w (mem s)) s).
Proof. intros H. unfold write. by rewrite bind_bind, (read_bind _ _ w0). Qed.

Lemma store_same_word h p i j w b : h !! p = Some b → word_at (alter (λ b, set_word b i w) p h) p j = <[i := w]> (words b) !! j.
Proof. intros E. unfold word_at. by rewrite lookup_alter_eq, E. Qed.

(** ** The chain *)

(** The promises from [p] down to the mark, each in state 3 or 4 and linked to the next. *)
Fixpoint evaluating (h : heap) (p mark : Z) (l : list Z) : Prop :=
  match l with
  | [] => p = mark
  | q :: l => p = q ∧ q ≠ 0 ∧ q ≠ mark ∧ ∃ st link, num_at h q 0 = Some st ∧ (st = 3 ∨ st = 4) ∧ word_at h q 2 = Some link ∧
      evaluating h (promise_link_target link) mark l
  end.

Lemma evaluating_fun h p mark l l' : evaluating h p mark l → evaluating h p mark l' → l = l'.
Proof.
  revert p l'. induction l as [|q l IH]; intros p [|q' l'] H H'; simpl in *; try done.
  - destruct H' as (-> & _ & Hm & _). congruence.
  - destruct H as (-> & _ & Hm & _). congruence.
  - destruct H as (-> & _ & _ & st & k & _ & _ & Hk & H), H' as (-> & _ & _ & st' & k' & _ & _ & Hk' & H'). simplify_eq.
    f_equal. by eapply IH.
Qed.

Lemma evaluating_at h p mark l i q : evaluating h p mark l → l !! i = Some q → evaluating h q mark (drop i l).
Proof.
  revert p i. induction l as [|x l IH]; intros p [|i] H Hi; simpl in *; simplify_eq.
  - destruct H as (-> & H). split; [done|exact H].
  - destruct H as (_ & _ & _ & st & k & _ & _ & _ & H). by eapply IH.
Qed.

(** A promise is evaluated once at a time. *)
Lemma evaluating_head h p mark q l : evaluating h p mark (q :: l) → q ∉ l.
Proof.
  intros H [i Hi]%list_elem_of_lookup_1. assert (Hq : evaluating h q mark (q :: l)) by by destruct H as (-> & H).
  pose proof (evaluating_at h p mark (q :: l) (S i) q H Hi) as H'. pose proof (evaluating_fun _ _ _ _ _ Hq H') as E.
  apply (f_equal length) in E. simpl in E. rewrite length_drop in E. apply lookup_lt_Some in Hi. lia.
Qed.

Lemma evaluating_ext h h' p mark l : (∀ q, q ∈ l → h' !! q = h !! q) → evaluating h p mark l → evaluating h' p mark l.
Proof.
  revert p. induction l as [|q l IH]; intros p Hh H; simpl in *; [done|].
  destruct H as (-> & Hq & Hm & st & link & Hs & Hst & Hl & H). split; [done|]. split; [done|]. split; [done|]. exists st, link.
  unfold num_at, word_at in *. rewrite (Hh q) by by constructor. split; [done|]. split; [done|]. split; [done|].
  apply IH; [|done]. intros x Hx. apply Hh. by constructor.
Qed.

Lemma evaluating_state h p mark l q : evaluating h p mark l → q ∈ l → ∃ st, num_at h q 0 = Some st ∧ (st = 3 ∨ st = 4).
Proof.
  intros H [i Hi]%list_elem_of_lookup_1. pose proof (evaluating_at _ _ _ _ _ _ H Hi) as Hc. rewrite (drop_S _ _ _ Hi) in Hc.
  destruct Hc as (_ & _ & _ & st & _ & ? & ? & _). by exists st.
Qed.

Lemma evaluating_app h p mark above below : evaluating h p 0 (above ++ below) → mark = top_of below → evaluating h p mark above.
Proof.
  intros H ->. revert p H. induction above as [|q above IH]; intros p H; simpl in *.
  - destruct below; [done|]. by destruct H as (-> & _).
  - pose proof (evaluating_head h p 0 q (above ++ below) H) as Hn. destruct H as (-> & Hq & _ & st & link & Hs & Hst & Hl & H).
    split; [done|]. split; [done|]. split; [|exists st, link; auto].
    intros ->. destruct below as [|x below]; [done|]. apply Hn. set_solver.
Qed.

Lemma evaluating_below h p above below : evaluating h p 0 (above ++ below) → evaluating h (top_of below) 0 below.
Proof.
  revert p. induction above as [|q above IH]; intros p H; simpl in *.
  - destruct below; [done|]. by destruct H as (-> & H).
  - destruct H as (_ & _ & _ & st & link & _ & _ & _ & H). by eapply IH.
Qed.

Lemma evaluating_words h p mark l q : evaluating h p mark l → q ∈ l →
  ∃ st link, num_at h q 0 = Some st ∧ word_at h q 2 = Some link.
Proof.
  intros H [i Hi]%list_elem_of_lookup_1. pose proof (evaluating_at _ _ _ _ _ _ H Hi) as Hc. rewrite (drop_S _ _ _ Hi) in Hc.
  destruct Hc as (_ & _ & _ & st & link & ? & _ & ? & _). by exists st, link.
Qed.

Lemma mark_reachable_ok n h p mark l : evaluating h p mark l → (length l <= n)%nat → promise_mark_is_reachable n h p mark = Some true.
Proof.
  revert n p. induction l as [|q l IH]; intros n p H Hn; simpl in *.
  - subst. destruct n; simpl; by rewrite Z.eqb_refl, orb_true_r.
  - destruct H as (-> & Hq & Hm & st & link & Hs & Hst & Hl & H). destruct n as [|n]; [lia|]. simpl.
    rewrite (proj2 (Z.eqb_neq _ _) Hq), (proj2 (Z.eqb_neq _ _) Hm), Hs. simpl.
    destruct Hst as [-> | ->]; simpl; rewrite Hl; simpl; apply IH; [done|lia|done|lia].
Qed.

(** A mark that is on no promise of the chain is out of reach. *)
Lemma unreachable_ok n h p mark l : evaluating h p 0 l → mark ≠ 0 → mark ∉ l → (length l <= n)%nat →
  promise_mark_is_reachable n h p mark = Some false.
Proof.
  revert n p. induction l as [|q l IH]; intros n p H Hm Hl Hn; simpl in *.
  - subst. destruct n; simpl; by destruct mark.
  - destruct H as (-> & Hq & _ & st & link & Hs & Hst & Hk & H). destruct n as [|n]; [lia|]. rewrite not_elem_of_cons in Hl. simpl.
    rewrite (proj2 (Z.eqb_neq _ _) Hq), (proj2 (Z.eqb_neq q mark)) by naive_solver. rewrite Hs. simpl.
    destruct Hst as [-> | ->]; simpl; rewrite Hk; simpl; (apply IH; [done|done|naive_solver|lia]).
Qed.

(** ** Settling *)

(** What becomes of a promise: its next state and value, by its state. *)
Definition settle (g : Z → Z * word) (b : block) : block :=
  match words b !! 0%nat with Some (Num _ st) => set_word (set_word b 2 (g st).2) 0 (Num 8 (g st).1) | _ => b end.
Definition settle_all (g : Z → Z * word) (l : list Z) (h : heap) : heap := foldl (λ h p, alter (settle g) p h) h l.

Definition rolled_back (st : Z) : Z * word := (if st =? 4 then 2 else 0, null_value).
Definition forced (v : word) (_ : Z) : Z * word := (1, v).

Lemma settle_all_ne g l h p : p ∉ l → settle_all g l h !! p = h !! p.
Proof.
  revert h. induction l as [|q l IH]; intros h Hp; [done|]. rewrite not_elem_of_cons in Hp.
  change (settle_all g (q :: l) h) with (settle_all g l (alter (settle g) q h)).
  rewrite IH by naive_solver. apply lookup_alter_ne. naive_solver.
Qed.

Lemma settle_all_lookup g l h p : NoDup l → p ∈ l → settle_all g l h !! p = settle g <$> h !! p.
Proof.
  revert h. induction l as [|q l IH]; intros h Hn Hp; [by apply not_elem_of_nil in Hp|]. apply list.NoDup_cons in Hn as [Hq Hn].
  change (settle_all g (q :: l) h) with (settle_all g l (alter (settle g) q h)).
  apply elem_of_cons in Hp as [->|Hp]; [by rewrite settle_all_ne, lookup_alter_eq|].
  rewrite IH by done. rewrite lookup_alter_ne; [done|]. by intros ->.
Qed.

Lemma evaluating_nodup h p mark l : evaluating h p mark l → NoDup l.
Proof.
  revert p. induction l as [|q l IH]; intros p H; [constructor|]. apply list.NoDup_cons. split; [by eapply evaluating_head|].
  destruct H as (_ & _ & _ & st & link & _ & _ & _ & H). by eapply IH.
Qed.

(** Settling one promise is two writes. *)
Lemma settle_writes g p st m : num_at (m_heap m) p 0 = Some st →
  store p 0 (Num 8 (g st).1) (store p 2 (g st).2 m) = set_heap m (alter (settle g) p (m_heap m)) (m_next m) (m_budget m).
Proof.
  intros Hs. unfold store. simpl. unfold set_heap. simpl. f_equal. rewrite alter_alter_eq. apply alter_ext.
  intros b Hb. unfold num_at, word_at in Hs. rewrite Hb in Hs. simpl in Hs. unfold settle. simpl.
  destruct (words b !! 0%nat) as [[| | |k n]|] eqn:E; simpl in Hs; try done. by simplify_eq.
Qed.

Definition settled (g : Z → Z * word) (l : list Z) (mark : Z) (s : control) : control :=
  with_head mark (with_mem (set_heap (mem s) (settle_all g l (the_heap s)) (m_next (mem s)) (m_budget (mem s))) s).

Lemma settle_step {B} g p r st link (k : CtlM B) s : num_at (the_heap s) p 0 = Some st → word_at (the_heap s) p 2 = Some link →
  (modify (with_head r) ;; write p 2 (g st).2 ;; write p 0 (Num 8 (g st).1) ;; k) s = k (settled g [p] r s).
Proof.
  intros Hs Hl. rewrite modify_bind.
  assert (E : ∃ b w, the_heap s !! p = Some b ∧ words b !! 0%nat = Some w).
  { unfold num_at, word_at in Hs. destruct (the_heap s !! p) as [b|]; [|done]. simpl in Hs.
    destruct (words b !! 0%nat) as [w|] eqn:E; [|done]. by exists b, w. }
  destruct E as (b & w & Eb & Ew).
  rewrite (write_bind _ _ _ link) by done. rewrite (write_bind _ _ _ w).
  - f_equal. unfold settled. simpl. f_equal. unfold with_mem, with_head. simpl. f_equal. exact (settle_writes g p st (mem s) Hs).
  - unfold the_heap in *. simpl. rewrite (store_same_word _ _ _ _ _ b) by done. by rewrite list_lookup_insert_ne.
Qed.

Lemma settle_last g p r st link s : num_at (the_heap s) p 0 = Some st → word_at (the_heap s) p 2 = Some link →
  (modify (with_head r) ;; write p 2 (g st).2 ;; write p 0 (Num 8 (g st).1)) s = Returned tt (settled g [p] r s).
Proof.
  intros Hs Hl. pose proof (settle_step g p r st link (mret tt) s Hs Hl) as E. rewrite modify_bind in *.
  rewrite (write_bind _ _ _ link) in * by done. unfold mbind at 1, ctl_bind at 1 in E.
  destruct (write p 0 (Num 8 (g st).1) _) as [[]| | | |]; done.
Qed.

(** The loops over the chain settle the promises above the mark, whatever they become. *)
Lemma settle_loop g n mark l s (loop : nat → CtlM unit) :
  (∀ n s, promise_head s = mark → loop n s = Returned tt s) →
  (∀ n s p st link, promise_head s = p → p ≠ mark → num_at (the_heap s) p 0 = Some st → word_at (the_heap s) p 2 = Some link →
    loop (S n) s = (modify (with_head (promise_link_target link)) ;; write p 2 (g st).2 ;; write p 0 (Num 8 (g st).1) ;; loop n) s) →
  evaluating (the_heap s) (promise_head s) mark l → (length l <= n)%nat → loop n s = Returned tt (settled g l mark s).
Proof.
  intros Hstop Hstep. revert n s. induction l as [|q l IH]; intros n s H Hn.
  - simpl in H. rewrite Hstop by done. unfold settled. simpl. rewrite <- H. by destruct s as [[]].
  - pose proof (evaluating_head _ _ _ _ _ H) as Hq. destruct H as (Hp & Hq0 & Hqm & st & link & Hs & Hst & Hl & H).
    simpl in Hn. destruct n as [|n]; [lia|]. rewrite (Hstep n s q st link) by done. rewrite (settle_step g q _ st link) by done.
    rewrite (IH n); [done| |lia]. simpl. eapply evaluating_ext; [|exact H]. intros x Hx. unfold the_heap. simpl.
    rewrite lookup_alter_ne; [done|by intros ->].
Qed.

Lemma promise_unwind_ok n mark l s : evaluating (the_heap s) (promise_head s) mark l → (length l <= n)%nat →
  eshkol_promise_eval_unwind_to n mark s = Returned tt (settled rolled_back l mark s).
Proof.
  intros H Hn. unfold eshkol_promise_eval_unwind_to. rewrite (bind_run _ _ s true s) by by rewrite (mark_reachable_ok _ _ _ _ _ H Hn).
  apply (settle_loop rolled_back n mark l s (λ n, promise_unwind_loop n mark)); [..|done|done].
  - intros [|k] s' E; simpl; rewrite gets_bind, E, Z.eqb_refl; done.
  - intros k s' p st link E Hp Hs Hl. simpl. rewrite gets_bind, E, (proj2 (Z.eqb_neq _ _) Hp).
    by rewrite (read_bind _ _ link), (read_num_bind _ _ st) by done.
Qed.

Lemma promise_unwind_stale n mark l s : evaluating (the_heap s) (promise_head s) 0 l → mark ≠ 0 → mark ∉ l → (length l <= n)%nat →
  eshkol_promise_eval_unwind_to n mark s = Returned tt s.
Proof.
  intros H Hm Hl Hn. unfold eshkol_promise_eval_unwind_to.
  by rewrite (bind_run _ _ s false s) by by rewrite (unreachable_ok _ _ _ _ _ H Hm Hl Hn).
Qed.

Lemma commit_to_ok n mark l v s : evaluating (the_heap s) (promise_head s) mark l → (length l <= n)%nat →
  eshkol_promise_eval_commit_to n mark v s = Returned tt (settled (forced v) l mark s).
Proof.
  intros H Hn. unfold eshkol_promise_eval_commit_to. rewrite (bind_run _ _ s true s) by by rewrite (mark_reachable_ok _ _ _ _ _ H Hn).
  apply (settle_loop (forced v) n mark l s (λ n, commit_loop n mark v)); [..|done|done].
  - intros [|k] s' E; simpl; rewrite gets_bind, E, Z.eqb_refl; done.
  - intros k s' p st link E Hp Hs Hl. simpl. rewrite gets_bind, E, (proj2 (Z.eqb_neq _ _) Hp). by rewrite (read_bind _ _ link) by done.
Qed.
