(* ===== verification/RaiseSpec.v ===== *)
(** * RaiseSpec: a raise reaches its handler *)

From stdpp Require Import strings.
From S2P Require Export ControlSpec.
Local Open Scope Z_scope.

(** ** Static conditions need no promotion *)

Lemma escape_static t f p m : m_heap m !! p = None →
  region_escape_batch_or_raise [Tag t f p] m = Some (Passed [Tag t f p] m).
Proof.
  intros Hp. unfold region_escape_batch_or_raise. destruct (region_current m) as [r|] eqn:Hr; [|done].
  assert (Hd : (0 < depth m)%nat).
  { unfold region_current in Hr. unfold depth. destruct (region_stack m); simpl; [done|lia]. }
  unfold region_evacuate_batch. cbn [evac_needed]. unfold region_index_owning. rewrite Hp.
  rewrite (proj2 (Z.ltb_ge _ _)) by lia. by rewrite andb_false_r.
Qed.

Lemma leave_absent r m p : m_heap m !! p = None → m_heap (leave_region r m) !! p = None.
Proof.
  intros Hp. unfold leave_region. set (m1 := eshkol_region_leave _ _).
  assert (E : m_heap m1 !! p = None) by (unfold m1; by destruct (entry_saved_arena r)).
  unfold region_pop. destruct (region_current m1) as [r'|]; [|done]. unfold region_destroy.
  unfold arena_destroy, arena_adopt_blocks. repeat case_match; simpl; try (by rewrite lookup_fmap, E);
    apply map_lookup_filter_None; by left.
Qed.

Lemma unwind_static n mark t f p m : m_heap m !! p = None →
  ∃ m', unwind_levels n mark [Tag t f p] m = Some (Passed [Tag t f p] m').
Proof.
  revert m. induction n as [|n IH]; intros m Hp; cbn [unwind_levels]; [by eexists|].
  destruct (region_current m) as [r|]; [|by eexists]. destruct (depth m <=? mark)%nat; [by eexists|].
  rewrite escape_static by done. apply IH. by apply (leave_absent r m).
Qed.

(** ** A promotion returns as many values as it is given *)

Lemma evac_values_length stack target bnd l st out st' : evac_values stack target bnd l st = Done out st' → length out = length l.
Proof.
  revert st out st'. induction l as [|v l IH]; intros st out st'; simpl; [by intros [= <- _]|].
  unfold mbind, evac_bind. destruct (evac_value _ _ _ v st) as [v' st1| |]; try done.
  destruct (evac_values _ _ _ l st1) as [l' st2| |] eqn:E; try done. intros [= <- _]. simpl. by rewrite (IH _ _ _ E).
Qed.

Lemma transaction_length values target bnd owner prev m status out m' :
  region_transaction values target bnd owner prev m = Some (status, out, m') → length out = length values.
Proof.
  unfold region_transaction, evac_run, mbind, evac_bind, mret, evac_ret.
  destruct (evac_values _ _ _ values _) as [vs st| |] eqn:E; [|by intros [= <- <- <-]|done].
  destruct (evac_walk _ _ _ _ st); [|by intros [= <- <- <-]|done].
  case_match; intros [= <- <- <-]; [done|]. by eapply evac_values_length.
Qed.

Lemma batch_length values target bnd m status out m' :
  region_evacuate_batch values target bnd m = Some (status, out, m') → length out = length values.
Proof.
  unfold region_evacuate_batch. destruct (evac_needed _ _ _ values) as [[[] ?]|]; [by intros [= <- <- <-]| |by intros [= <- <- <-]].
  destruct (region_current m) as [r|]; [|by intros [= <- <- <-]]. destruct target; [|by intros [= <- <- <-]].
  destruct values as [|[t f p| | |] [|]]; try (intros H; by eapply transaction_length). destruct (_ !! p).
  - unfold forwarded_root. case_match; by intros [= <- <- <-].
  - intros H. by eapply transaction_length.
Qed.

Lemma unwind_length n mark values m out m' : unwind_levels n mark values m = Some (Passed out m') → length out = length values.
Proof.
  revert values m. induction n as [|n IH]; intros values m; cbn [unwind_levels]; [by intros [= <- _]|].
  destruct (region_current m) as [r|]; [|by intros [= <- _]]. destruct (_ <=? _)%nat; [by intros [= <- _]|].
  destruct (region_escape_batch_or_raise values m) as [[vs m1|]|] eqn:E; try done. intros H. rewrite (IH _ _ H).
  unfold region_escape_batch_or_raise in E. destruct values as [|v l]; [by simplify_eq|].
  destruct (region_current m); [|by simplify_eq]. unfold or_raise in E.
  destruct (region_evacuate_batch _ _ _ m) as [[[st vs'] m2]|] eqn:E2; [|done]. destruct (st =? 0); [|done]. simplify_eq.
  by eapply batch_length.
Qed.

(** ** Raising *)

Section raise.
Context (call : Z → list word → CtlM word) (extern root : Z → bool).
Context (Hstatic : ∀ e, runtime_emergency_identity e = true → extern e = true).

(** The raised value and the exception are published before anything runs. *)
Definition published (e : Z) (s : control) : control :=
  let v := if runtime_emergency_identity e then runtime_emergency_value e
           else if raised_set s then raised_value s else Tag ESHKOL_VALUE_HEAP_PTR 0 e in
  with_exception e v false s.

Definition delivering {A} (n : nat) (h : handler) : CtlM A :=
  v ← gets raised_value;
  v ← regions_unwind (region_mark h) v (λ status, match n with O => timeout | S n => eshkol_raise call n (emergency_condition status) end);
  modify (λ s, with_exception (current_exception s) v (raised_set s) s) ;;
  transfer (jmp_buf_ptr h).

Lemma raise_run {A} n e s f h rest : handler_stack s = (f, h) :: rest → jmp_buf_ptr h ≠ 0 →
  @eshkol_raise call A n e s =
  (eshkol_unwind_dynamic_wind call n (wind_mark h) ;;
   handlers ← gets handler_stack;
   match handlers with (_, h) :: _ => eshkol_promise_eval_unwind_to n (promise_mark h) ;; delivering n h | [] => fault end)
  (published e s).
Proof.
  intros Hh Hj. assert (E : handler_stack (published e s) = (f, h) :: rest) by done.
  transitivity ((handlers ← gets handler_stack;
    match handlers with
    | (_, h) :: _ => if jmp_buf_ptr h =? 0 then exited else
        eshkol_unwind_dynamic_wind call n (wind_mark h) ;;
        handlers ← gets handler_stack;
        match handlers with (_, h) :: _ => eshkol_promise_eval_unwind_to n (promise_mark h) ;; delivering n h | [] => fault end
    | [] => exited (A := A) end) (published e s)).
  - unfold published. destruct n; cbn [eshkol_raise]; destruct (runtime_emergency_identity e); reflexivity.
  - rewrite gets_bind, E. by rewrite (proj2 (Z.eqb_neq _ _) Hj).
Qed.

(** Where there is no handler, the program ends. *)
Lemma raise_unhandled {A} n e s : handler_stack s = [] → ∃ s', @eshkol_raise call A n e s = Exited s' ∧ the_heap s' = the_heap s.
Proof.
  intros Hh. exists (published e s). split; [|done].
  unfold published. destruct n; cbn [eshkol_raise]; destruct (runtime_emergency_identity e);
    rewrite ?modify_bind, ?ret_bind; unfold mbind, ctl_bind, gets, modify; cbn; by rewrite Hh.
Qed.

(** ** A state from which a raise can be delivered *)

Definition promise_typed (Γ : typing) (p : Z) : Prop :=
  ∃ τ, Γ !! p = Some τ ∧ slots τ !! 0%nat = Some (Any 8) ∧ slots τ !! 2%nat = Some Val.

Record ready (h : handler) (n : nat) (Γ : typing) (s : control) : Prop := {
  rd_mem : mem_ok extern root Γ (mem s);
  rd_value : value_word extern Γ (raised_value s);
  rd_unpinned : Forall (λ r, pinned r = false) (drop (region_mark h) (region_stack (mem s)));
  rd_promises : ∃ l, evaluating (the_heap s) (promise_head s) (promise_mark h) l ∧ (length l <= n)%nat ∧ Forall (promise_typed Γ) l
}.

(** What the handler finds. *)
Record delivered (h : handler) (s s' : control) : Prop := {
  dl_wind : wind s' = wind_mark h;
  dl_head : promise_head s' = promise_mark h;
  dl_depth : (depth (mem s') <= region_mark h)%nat;
  dl_handlers : handler_stack s' = handler_stack s;
  dl_mem : ∃ Γ, mem_ok extern root Γ (mem s') ∧ value_word extern Γ (raised_value s');
  dl_exception : current_exception s' = current_exception s ∨
    runtime_emergency_identity (current_exception s') = true ∧ raised_value s' = runtime_emergency_value (current_exception s')
}.

Lemma settle_mem Γ g p st m : mem_ok extern root Γ m → promise_typed Γ p → num_at (m_heap m) p 0 = Some st →
  (g st).2 = null_value → mem_ok extern root Γ (set_heap m (alter (settle g) p (m_heap m)) (m_next m) (m_budget m)).
Proof.
  intros Hm (τ & Hτ & H0 & H2) Hs Hg. rewrite <- (settle_writes g p st) by done. rewrite Hg.
  eapply store_slot_ok; [|exact Hτ|exact H0|by split|done]. eapply store_ok; [done|done|done| |done].
  exists ESHKOL_VALUE_NULL, 0, 0. split; [done|]. intros Hc. by vm_compute in Hc.
Qed.

Lemma rolled_back_mem Γ mark l s : mem_ok extern root Γ (mem s) → Forall (promise_typed Γ) l →
  evaluating (the_heap s) (promise_head s) mark l → mem_ok extern root Γ (mem (settled rolled_back l mark s)).
Proof.
  revert s. induction l as [|q l IH]; intros s Hm Hl He.
  - unfold settled. simpl. by destruct s as [[]].
  - apply Forall_cons_1 in Hl as [Hq Hl]. pose proof (evaluating_head _ _ _ _ _ He) as Hn.
    destruct He as (_ & _ & _ & st & link & Hs & _ & _ & He).
    specialize (IH (settled rolled_back [q] (promise_link_target link) s)). apply IH; [|done|].
    + by apply (settle_mem Γ rolled_back q st).
    + eapply evaluating_ext; [|exact He]. intros x Hx. unfold the_heap. simpl. rewrite lookup_alter_ne; [done|by intros ->].
Qed.

Lemma static_value Γ e : runtime_emergency_identity e = true → value_word extern Γ (runtime_emergency_value e).
Proof. intros He. exists ESHKOL_VALUE_HEAP_PTR, 0, e. split; [done|]. intros _ _ Hx. by rewrite (Hstatic e He) in Hx. Qed.

Lemma emergency_identity c : runtime_emergency_identity (emergency_condition c) = true.
Proof.
  unfold emergency_condition. set (k := if (c <? 1) || (5 <? c) then 4 else c). assert (1 <= k <= 5) as Hk.
  { subst k. destruct (Z.ltb_spec c 1), (Z.ltb_spec 5 c); simpl; lia. }
  clearbody k. assert (k = 1 ∨ k = 2 ∨ k = 3 ∨ k = 4 ∨ k = 5) as [-> |[-> |[-> |[-> | ->]]]] by lia; done.
Qed.

(** A condition that is already static ends the delivery: nothing of it can fail. *)
Lemma static_delivered {A} n e s f h rest Γ : handler_stack s = (f, h) :: rest → jmp_buf_ptr h ≠ 0 →
  runtime_emergency_identity e = true → mem_ok extern root Γ (mem s) → wind s = wind_mark h → promise_head s = promise_mark h →
  Forall (λ r, pinned r = false) (drop (region_mark h) (region_stack (mem s))) →
  ∃ s', @eshkol_raise call A n e s = Transferred (jmp_buf_ptr h) s' ∧ delivered h s s'.
Proof.
  intros Hh Hj He Hm Hw Hp Hu. rewrite (raise_run _ _ _ _ _ _ Hh Hj). set (s0 := published e s).
  assert (E0 : raised_value s0 = runtime_emergency_value e) by (unfold s0, published; by rewrite He).
  assert (E1 : eshkol_unwind_dynamic_wind call n (wind_mark h) s0 = Returned tt s0).
  { destruct n; simpl; rewrite gets_bind; change (wind s0) with (wind s); by rewrite Hw, Z.eqb_refl, orb_true_r. }
  rewrite (bind_run _ _ _ _ _ E1), gets_bind. change (handler_stack s0) with (handler_stack s). rewrite Hh.
  assert (E2 : eshkol_promise_eval_unwind_to n (promise_mark h) s0 = Returned tt (settled rolled_back [] (promise_mark h) s0)).
  { apply promise_unwind_ok; [exact Hp|simpl; lia]. }
  rewrite (bind_run _ _ _ _ _ E2). set (s1 := settled _ _ _ s0). unfold delivering. rewrite gets_bind.
  change (raised_value s1) with (raised_value s0). rewrite E0. unfold regions_unwind.
  assert (Hm1 : mem s1 = mem s) by (unfold s1, settled; by destruct s as [[]]).
  assert (Hnone : m_heap (mem s) !! e = None) by (by apply (w_extern _ _ _ _ (mo_world _ _ _ _ Hm)), Hstatic).
  destruct (unwind_static (depth (mem s)) (region_mark h) ESHKOL_VALUE_HEAP_PTR 0 e (mem s) Hnone) as [m' E].
  destruct (unwind_ok extern root (depth (mem s)) (region_mark h) Γ (mem s) [runtime_emergency_value e]) as (p & E' & H); [lia|done|done| |].
  { constructor; [by apply static_value|constructor]. }
  unfold eshkol_region_unwind_to, runtime_emergency_value in *. rewrite E in E'. injection E' as <-. destruct H as (Γ' & Hm' & Hv' & Hun).
  erewrite bind_run; [|by rewrite Hm1, E]. rewrite modify_bind. eexists. split; [done|]. split; try done.
  - change (mem _) with m'. unfold depth. rewrite (un_stack _ _ _ Hun), length_take. lia.
  - exists Γ'. split; [done|]. by apply Forall_cons_1 in Hv' as [? _].
  - right. done.
Qed.

(** The rest of a raise, once the extents are left. *)
Lemma delivering_ok {A} n s f h rest Γ : handler_stack s = (f, h) :: rest → jmp_buf_ptr h ≠ 0 → ready h n Γ s → wind s = wind_mark h → (0 < n)%nat →
  ∃ s', (eshkol_promise_eval_unwind_to n (promise_mark h) ;; delivering (A := A) n h) s = Transferred (jmp_buf_ptr h) s' ∧ delivered h s s'.
Proof.
  intros Hh Hj [Hm Hv Hu (l & He & Hl & Ht)] Hw Hn. rewrite (bind_run _ _ _ _ _ (promise_unwind_ok n _ l s He Hl)).
  set (s1 := settled _ _ _ s). pose proof (rolled_back_mem Γ _ l s Hm Ht He) as Hm1. fold s1 in Hm1.
  unfold delivering. rewrite gets_bind. change (raised_value s1) with (raised_value s).
  destruct (unwind_ok extern root (depth (mem s1)) (region_mark h) Γ (mem s1) [raised_value s]) as (p & E & H); [lia|done|done| |].
  { constructor; [done|constructor]. }
  destruct p as [out m'|status m'].
  - destruct H as (Γ' & Hm' & Hv' & Hun).
    assert (∃ v, out = [v]) as [v ->].
    { apply unwind_length in E. destruct out as [|v [|]]; try done. by exists v. }
    erewrite bind_run; [|unfold regions_unwind, eshkol_region_unwind_to; by rewrite E]. rewrite modify_bind. eexists. split; [done|].
    split; try done.
    + change (mem _) with m'. unfold depth. rewrite (un_stack _ _ _ Hun), length_take. lia.
    + exists Γ'. split; [done|]. by apply Forall_cons_1 in Hv' as [? _].
    + by left.
  - destruct H as (_ & _ & Hu' & Γ' & Hm'). destruct n as [|n]; [lia|].
    edestruct (static_delivered (A := word) n (emergency_condition status) (with_mem m' s1)) as (s' & E' & Hd); [exact Hh|done|apply emergency_identity|exact Hm'|done|done|done|].
    exists s'. split; [|by destruct Hd]. unfold mbind, ctl_bind, regions_unwind, eshkol_region_unwind_to at 1. rewrite E, E'. done.
Qed.

(** What a call that returns may not touch while a raise to [h] is under way. *)
Definition civil (keep : list Z) (n : nat) (h : handler) : Prop := ∀ p args s v s', call p args s = Returned v s' →
  undisturbed keep s s' ∧ handler_stack s' = handler_stack s ∧ ∀ Γ, ready h n Γ s → ∃ Γ', ready h n Γ' s'.

Lemma civil_balanced keep n h : civil keep n h → balanced call keep.
Proof. intros H p args s v s' E. by apply (H p args s v s'). Qed.

(** A thunk is no call, or one. *)
Lemma thunk_cases t s s' : call_thunk_from_tagged call t s = Returned tt s' → s' = s ∨ ∃ p args v, call p args s = Returned v s'.
Proof.
  destruct t as [t f p| | |]; simpl; try done. destruct (t =? _); [|intros [= <-]; by left].
  rewrite bind_returned. intros (v & s1 & H & [= <-]). unfold call_thunk_closure in H.
  destruct (p =? 0); [injection H as _ <-; by left|].
  unfold read_num, read_ptr, of_option, fault, mbind, ctl_bind, mret, ctl_ret in H.
  repeat (case_match; simplify_eq/=); try (by left); right; by eexists _, _, _.
Qed.

Lemma ready_wind h n Γ w s : ready h n Γ s → ready h n Γ (with_wind w s).
Proof. intros [? ? ? ?]. by split. Qed.

Lemma run_winds_civil keep n h l s s' : civil keep n h → run_winds call l s = Returned tt s' →
  handler_stack s' = handler_stack s ∧ ∀ Γ, ready h n Γ s → ∃ Γ', ready h n Γ' s'.
Proof.
  intros Hc. revert s. induction l as [|[w t] l IH]; intros s; simpl; [intros [= <-]; split; [done|eauto]|].
  rewrite modify_bind, bind_returned. intros ([] & s1 & H1 & H). destruct (IH s1 H) as [-> Hr].
  apply thunk_cases in H1 as [->|(p & args & v & H1)].
  - split; [done|]. intros Γ Hg. apply (Hr Γ). by apply ready_wind.
  - destruct (Hc _ _ _ _ _ H1) as (_ & Hh & Hg). split; [by rewrite Hh|]. intros Γ HΓ.
    destruct (Hg Γ) as [Γ1 H2]; [by apply ready_wind|]. by apply (Hr Γ1).
Qed.

(** The thunks of the extents that are left run first; if they all return the handler
    gets the value, and one that does not return decides the outcome. *)
Lemma raise_ok {A} n e s f h rest Γ keep out r : handler_stack s = (f, h) :: rest → jmp_buf_ptr h ≠ 0 →
  chain (the_heap s) (wind s) (out ++ r) → top_of r = wind_mark h → (∀ p, p ∈ out → p ∈ keep) → (length out <= n)%nat → (0 < n)%nat →
  ready h n Γ (published e s) → civil keep n h →
  match run_winds call (omap (leaving (the_heap s)) out) (published e s) with
  | Returned _ s1 => ∃ s', @eshkol_raise call A n e s = Transferred (jmp_buf_ptr h) s' ∧ delivered h s1 s' ∧ handler_stack s' = handler_stack s
  | Transferred b s1 => @eshkol_raise call A n e s = Transferred b s1
  | Exited s1 => @eshkol_raise call A n e s = Exited s1
  | Fault => @eshkol_raise call A n e s = Fault
  | Timeout => @eshkol_raise call A n e s = Timeout
  end.
Proof.
  intros Hh Hj Hch Hr Hk Hl Hn Hg Hc. pose proof (raise_run (A := A) n e s f h rest Hh Hj) as Erun. set (s0 := published e s) in *.
  assert (Hr0 : top_of r ∉ out).
  { destruct r as [|x r]; simpl.
    - intros Hin. by eapply (chain_nonzero _ _ _ 0 Hch); [apply elem_of_app; left|].
    - intros [i Hi]%list_elem_of_lookup_1. assert (Hx : (out ++ x :: r) !! i = Some x) by by apply lookup_app_l_Some.
      pose proof (chain_at _ _ _ _ _ Hch Hx) as H1. pose proof (chain_app _ _ _ _ Hch) as H2.
      pose proof (chain_fun _ _ _ _ H1 H2) as E. apply (f_equal length) in E. apply lookup_lt_Some in Hi.
      rewrite length_drop, length_app in E. simpl in E. lia. }
  destruct (leave_winds_ok call keep (civil_balanced _ _ _ Hc) (the_heap s) out r n s0 Hch) as (_ & Eu & Hw); [|done|done|].
  { intros p Hp. split; [by apply Hk|done]. }
  rewrite Hr in Eu, Hw. rewrite (bind_same _ _ _ s0 Eu) in Erun. rewrite Erun. clear Erun. unfold mbind at 1 4 7 10 13, ctl_bind at 1 4 7 10 13.
  destruct (run_winds call _ s0) as [[] s1| | | |] eqn:E; try done.
  destruct (run_winds_civil _ _ _ _ _ _ Hc E) as [Hh1 Hg1]. destruct (Hg1 Γ Hg) as [Γ1 Hg']. change (handler_stack s0) with (handler_stack s) in Hh1.
  rewrite Hh in Hh1. destruct (delivering_ok (A := A) n s1 f h rest Γ1 Hh1 Hj Hg' (Hw s1 eq_refl) Hn) as (s' & E' & Hd).
  exists s'. split; [|split; [done|pose proof (dl_handlers _ _ _ Hd); congruence]]. rewrite <- E'. by rewrite gets_bind, Hh1.
Qed.

(** What would follow a raise is never run. *)
Lemma raise_bind {A B} n e (k : A → CtlM B) s : (eshkol_raise call n e ≫= k) s = eshkol_raise call n e s.
Proof.
  revert e s k. induction n as [|n IH]; intros e s k; cbn [eshkol_raise]; rewrite bind_bind; apply bind_cong; intros [] s1 _;
    rewrite bind_bind, !modify_bind, bind_bind, !gets_bind; (destruct (handler_stack _) as [|[f h] rest]; [done|]); (destruct (_ =? 0); [done|]);
    rewrite bind_bind; apply bind_cong; intros [] s2 _; rewrite bind_bind, !gets_bind; (destruct (handler_stack _) as [|[f' h'] rest']; [done|]);
    rewrite bind_bind; apply bind_cong; intros [] s3 _; rewrite bind_bind, !gets_bind, bind_bind; apply bind_cong; intros v s4 _;
    rewrite bind_bind; by apply bind_cong.
Qed.

Lemma raise_never_returns {A} n e s v s' : @eshkol_raise call A n e s ≠ Returned v s'.
Proof.
  revert A e s v s'. induction n as [|n IH]; intros A e s v s' H; cbn [eshkol_raise] in H;
    apply bind_returned in H as (_ & s1 & _ & H); rewrite modify_bind, gets_bind in H;
    destruct (handler_stack _) as [|[f h] rest]; try done; destruct (_ =? 0); try done;
    apply bind_returned in H as (_ & s2 & _ & H); rewrite gets_bind in H; destruct (handler_stack _) as [|[f' h'] rest']; try done;
    apply bind_returned in H as (_ & s3 & _ & H); rewrite gets_bind in H; apply bind_returned in H as (? & s4 & _ & H); done.
Qed.
End raise.

(** ** Forcing *)

Section force.
Context (call : Z → list word → CtlM word).

(** What a computation that returns may not touch: the promises under evaluation. *)
Definition discreet {A} (m : CtlM A) : Prop := ∀ s v s', m s = Returned v s' →
  promise_head s' = promise_head s ∧ ∀ l, evaluating (the_heap s) (promise_head s) 0 l → ∀ p, p ∈ l → the_heap s' !! p = the_heap s !! p.

Definition is_promise (h : heap) (v : word) (p : Z) : Prop :=
  ∃ f, v = Tag ESHKOL_VALUE_HEAP_PTR f p ∧ f ≠ FUTURE_FLAG ∧ header_at h p = Some HEAP_SUBTYPE_PROMISE.
Definition forced_to (h : heap) (p : Z) (r : word) : Prop :=
  header_at h p = Some HEAP_SUBTYPE_PROMISE ∧ num_at h p 0 = Some 1 ∧ word_at h p 2 = Some r.

Lemma evaluating_top h p l : evaluating h p 0 l → p = top_of l.
Proof. destruct l; simpl; [done|]. by intros [-> _]. Qed.

Lemma header_at_same h h' p : h' !! p = h !! p → header_at h' p = header_at h p.
Proof. unfold header_at. by intros ->. Qed.

(** What a promise is after its two words are written. *)
Lemma settle_block g p st link h : num_at h p 0 = Some st → word_at h p 2 = Some link →
  let h' := alter (settle g) p h in
  header_at h' p = header_at h p ∧ num_at h' p 0 = Some (g st).1 ∧ word_at h' p 2 = Some (g st).2 ∧
  word_at h' p 1 = word_at h p 1.
Proof.
  unfold num_at, word_at, header_at. intros Hs Hl. simpl. rewrite lookup_alter_eq. destruct (h !! p) as [b|]; [|done]. simpl in *.
  unfold settle. destruct (words b !! 0%nat) as [[| | |k n]|] eqn:E; try done. simpl in *. simplify_eq.
  destruct (words b) as [|w0 [|w1 [|w2 ws]]]; simplify_eq/=. done.
Qed.

(** A promise is put on the chain. *)
Lemma begin_ok s p l st w : evaluating (the_heap s) (promise_head s) 0 l → p ≠ 0 → num_at (the_heap s) p 0 = Some st →
  word_at (the_heap s) p 2 = Some w → st = 0 ∨ st = 2 →
  ∃ s', eshkol_promise_eval_begin p st s = Returned tt s' ∧
    the_heap s' = alter (settle (λ st, (if st =? 0 then 3 else 4, promise_link_value (promise_head s)))) p (the_heap s) ∧
    promise_head s' = p ∧ evaluating (the_heap s') p 0 (p :: l) ∧ p ∉ l.
Proof.
  intros He Hp Hs Hw Hst. set (g := λ st, (if st =? 0 then 3 else 4, promise_link_value (promise_head s))).
  assert (Hn : p ∉ l). { intros Hin. destruct (evaluating_state _ _ _ _ _ He Hin) as (st' & E & Hst'). simplify_eq. lia. }
  exists (settled g [p] p s). assert (Hh : the_heap (settled g [p] p s) = alter (settle g) p (the_heap s)) by done.
  split; [|split; [done|split; [done|split; [|done]]]].
  - unfold eshkol_promise_eval_begin. rewrite (proj2 (Z.eqb_neq _ _) Hp). simpl.
    replace (negb (st =? 0) && negb (st =? 2)) with false by (destruct Hst as [-> | ->]; done). rewrite gets_bind.
    pose proof (settle_step g p p st w (mret tt) s Hs Hw) as E. rewrite modify_bind in E.
    assert (Hs0 : ∃ w0, word_at (the_heap s) p 0 = Some w0). { unfold num_at in Hs. destruct (word_at _ _ _); [by eexists|done]. }
    destruct Hs0 as [w0 Hw0]. rewrite (write_bind _ _ _ w) by done. rewrite (write_bind _ _ _ w) in E by done.
    assert (Hw1 : ∀ m, m_heap m = m_heap (mem s) → word_at (m_heap (store p 2 (g st).2 m)) p 0 = Some w0).
    { intros m Em. unfold store. simpl. rewrite Em. unfold word_at in Hw0. destruct (the_heap s !! p) as [b|] eqn:Eb; [|done].
      rewrite (store_same_word _ _ _ _ _ b) by done. by rewrite list_lookup_insert_ne. }
    rewrite (write_bind _ _ _ w0) by by apply Hw1. rewrite (write_bind _ _ _ w0) in E by by apply Hw1.
    exact E.
  - rewrite Hh. destruct (settle_block g p st w (the_heap s) Hs Hw) as (_ & H0 & H2 & _).
    split; [done|]. split; [done|]. split; [done|]. exists (g st).1, (g st).2. split; [done|]. split; [simpl; destruct (st =? 0); lia|].
    split; [done|]. simpl. unfold promise_link_value, promise_link_target. destruct (Z.eqb_spec (promise_head s) 0) as [E|E]; simpl.
    + rewrite (evaluating_fun _ _ _ l [] He E). done.
    + eapply evaluating_ext; [|exact He]. intros q Hq. rewrite lookup_alter_ne; [done|by intros ->].
Qed.

Lemma commit_one_ok s p l v : evaluating (the_heap s) (promise_head s) 0 (p :: l) →
  ∃ s', eshkol_promise_eval_commit_one p v s = Returned tt s' ∧ the_heap s' = alter (settle (forced v)) p (the_heap s) ∧
    evaluating (the_heap s') (promise_head s') 0 l ∧ promise_head s' = top_of l.
Proof.
  intros He. pose proof (evaluating_head _ _ _ _ _ He) as Hn. destruct He as (Hp & Hp0 & _ & st & link & Hs & Hst & Hl & He).
  exists (settled (forced v) [p] (promise_link_target link) s). split; [|split; [done|split]].
  - unfold eshkol_promise_eval_commit_one. rewrite gets_bind, Hp, (proj2 (Z.eqb_neq _ _) Hp0), Z.eqb_refl. simpl.
    rewrite (read_bind _ _ link), (read_num_bind _ _ st) by done.
    replace (negb (st =? 3) && negb (st =? 4)) with false by (destruct Hst as [-> | ->]; done).
    exact (settle_last (forced v) p _ st link s Hs Hl).
  - eapply evaluating_ext; [|exact He]. intros q Hq. unfold the_heap. simpl. rewrite lookup_alter_ne; [done|by intros ->].
  - by eapply evaluating_top.
Qed.

Context (run : word → CtlM word) (force_future : Z → CtlM word).
Context (Hrun : ∀ t, discreet (run t)) (Hfuture : ∀ p, discreet (force_future p)).

Lemma force_loop_eq n v : force_loop call run force_future n v =
  match v with
  | Tag t f p =>
      if (t =? ESHKOL_VALUE_HEAP_PTR) && (f =? FUTURE_FLAG) then force_future p
      else if negb (t =? ESHKOL_VALUE_HEAP_PTR) then mret v
      else
        sub ← (λ s, of_option (header_at (the_heap s) p) s);
        if negb (sub =? HEAP_SUBTYPE_PROMISE) then mret v
        else
          state ← read_num p 0;
          if state =? 1 then read p 2
          else if state =? 0 then
            eshkol_promise_eval_begin p 0 ;;
            thunk ← read p 1; evaluated ← run thunk; eshkol_promise_eval_commit_one p evaluated ;; mret evaluated
          else if state =? 2 then
            eshkol_promise_eval_begin p 2 ;;
            thunk ← read p 1; evaluated ← run thunk;
            match n with O => timeout | S n => force_loop call run force_future n evaluated end
          else if (state =? 3) || (state =? 4) then emit_promise_error call n "force: promise evaluation is re-entrant or cyclic"%string
          else emit_promise_error call n "force: corrupt promise state"%string
  | _ => fault
  end.
Proof. by destruct n, v. Qed.

Lemma error_never_returns {A} n k s v s' : @emit_promise_error call A n k s ≠ Returned v s'.
Proof. unfold emit_promise_error. intros (e & s1 & _ & H)%bind_returned. by eapply raise_never_returns. Qed.

Lemma read_returned p i s w s' : read p i s = Returned w s' → word_at (the_heap s) p i = Some w ∧ s' = s.
Proof. unfold read, of_option. destruct (word_at _ _ _); intros [= <- <-]. done. Qed.
Lemma read_num_returned p i s w s' : read_num p i s = Returned w s' → num_at (the_heap s) p i = Some w ∧ s' = s.
Proof. unfold read_num, of_option. destruct (num_at _ _ _); intros [= <- <-]. done. Qed.

(** A thunk of a promise that is now on the chain has run. *)
Lemma eval_thunk_ok s p l st link v s' : evaluating (the_heap s) (promise_head s) 0 l → p ≠ 0 → num_at (the_heap s) p 0 = Some st →
  word_at (the_heap s) p 2 = Some link → st = 0 ∨ st = 2 → header_at (the_heap s) p = Some HEAP_SUBTYPE_PROMISE →
  (eshkol_promise_eval_begin p st ;; (thunk ← read p 1; run thunk)) s = Returned v s' →
  evaluating (the_heap s') (promise_head s') 0 (p :: l) ∧ (∀ q, q ∈ l → the_heap s' !! q = the_heap s !! q) ∧ p ∉ l ∧
  header_at (the_heap s') p = Some HEAP_SUBTYPE_PROMISE.
Proof.
  intros He Hp Hs Hl Hst Hh. destruct (begin_ok s p l st link He Hp Hs Hl Hst) as (s1 & E1 & Hh1 & Hp1 & He1 & Hn).
  rewrite (bind_run _ _ _ _ _ E1). intros (t & s2 & [_ ->]%read_returned & H)%bind_returned.
  assert (He2 : evaluating (the_heap s1) (promise_head s1) 0 (p :: l)) by by rewrite Hp1.
  destruct (Hrun _ _ _ _ H) as [Hhd Hk]. specialize (Hk _ He2). rewrite <- Hhd in He2.
  split; [by eapply evaluating_ext|]. split; [|split; [done|]].
  - intros q Hq. rewrite Hk by by constructor. rewrite Hh1, lookup_alter_ne; [done|by intros ->].
  - rewrite (header_at_same (the_heap s1)) by (apply Hk; by constructor). rewrite Hh1.
    by destruct (settle_block (λ st, (if st =? 0 then 3 else 4, promise_link_value (promise_head s))) p st link (the_heap s) Hs Hl) as (-> & _).
Qed.

(** While [l] is under evaluation, [l'] are the delay-force promises that this loop opens. *)
Lemma force_loop_ok n v s r s' l : evaluating (the_heap s) (promise_head s) 0 l → force_loop call run force_future n v s = Returned r s' →
  ∃ l', evaluating (the_heap s') (promise_head s') 0 (l' ++ l) ∧ (length l' <= n)%nat ∧
    (∀ p, p ∈ l → the_heap s' !! p = the_heap s !! p) ∧
    ∀ p, is_promise (the_heap s) v p → header_at (the_heap s') p = Some HEAP_SUBTYPE_PROMISE ∧ (p ∈ l' ∨ forced_to (the_heap s') p r).
Proof.
  revert v s l. induction n as [n IH] using lt_wf_ind. intros v s l He H. rewrite force_loop_eq in H. destruct v as [t f p| | |]; try done.
  destruct ((t =? ESHKOL_VALUE_HEAP_PTR) && (f =? FUTURE_FLAG)) eqn:Ef.
  { apply andb_true_iff in Ef as [_ Ef%Z.eqb_eq]. destruct (Hfuture _ _ _ _ H) as [Hhd Hk]. specialize (Hk l He). exists [].
    split; [rewrite Hhd; by eapply evaluating_ext|]. split; [simpl; lia|]. split; [done|]. intros q (f' & ? & ? & _). by simplify_eq. }
  destruct (Z.eqb_spec t ESHKOL_VALUE_HEAP_PTR) as [->|Ht]; simpl in H.
  2: { injection H as <- <-. exists []. split; [done|]. split; [simpl; lia|]. split; [done|]. intros q (f' & ? & _). by simplify_eq. }
  apply bind_returned in H as (sub & s1 & E & H). unfold of_option in E. destruct (header_at (the_heap s) p) as [sub'|] eqn:Hh; [|done].
  injection E as <- <-. destruct (Z.eqb_spec sub' HEAP_SUBTYPE_PROMISE) as [->|Hsub]; simpl in H.
  2: { injection H as <- <-. exists []. split; [done|]. split; [simpl; lia|]. split; [done|]. intros q (f' & ? & _ & ?). by simplify_eq. }
  assert (Hp : p ≠ 0) by (intros ->; done).
  apply bind_returned in H as (st & s1 & [Hs ->]%read_num_returned & H).
  destruct (Z.eqb_spec st 1) as [->|].
  { apply read_returned in H as [Hw ->]. exists []. split; [done|]. split; [simpl; lia|]. split; [done|].
    intros q (f' & ? & _ & ?). simplify_eq. split; [done|]. right. done. }
  assert (Hl : st = 0 ∨ st = 2 → ∃ link, word_at (the_heap s) p 2 = Some link).
  { intros Hst. destruct (word_at (the_heap s) p 2) as [w|] eqn:E; [by eexists|]. exfalso.
    assert (Hb : ∀ k : CtlM word, (eshkol_promise_eval_begin p st ;; k) s ≠ Returned r s').
    { intros k Hk. apply bind_returned in Hk as ([] & s1 & Hk & _). unfold eshkol_promise_eval_begin in Hk.
      rewrite (proj2 (Z.eqb_neq _ _) Hp) in Hk. simpl in Hk.
      replace (negb (st =? 0) && negb (st =? 2)) with false in Hk by (destruct Hst as [-> | ->]; done).
      rewrite gets_bind in Hk. apply bind_returned in Hk as ([] & s2 & Hk & _).
      unfold write in Hk. apply bind_returned in Hk as (? & s3 & [Hk _]%read_returned & _). congruence. }
    destruct Hst as [-> | ->]; simpl in H; by eapply Hb. }
  destruct (Z.eqb_spec st 0) as [->|].
  - destruct Hl as [link Hl]; [by left|].
    assert (E : ∃ s1, (eshkol_promise_eval_begin p 0 ;; (thunk ← read p 1; run thunk)) s = Returned r s1 ∧
      eshkol_promise_eval_commit_one p r s1 = Returned tt s').
    { apply bind_returned in H as ([] & sa & Ha & H). apply bind_returned in H as (t & sb & Hb & H).
      apply bind_returned in H as (v & sc & Hc & H). apply bind_returned in H as ([] & sd & Hd & [= <- <-]).
      exists sc. split; [|done]. by rewrite (bind_run _ _ _ _ _ Ha), (bind_run _ _ _ _ _ Hb). }
    destruct E as (s1 & E1 & E2). destruct (eval_thunk_ok s p l 0 link r s1) as (He1 & Hk1 & Hn & Hh1); [done..|by left|done|done|].
    destruct (commit_one_ok s1 p l r He1) as (s2 & E & Hh2 & He2 & _). rewrite E in E2. injection E2 as <-. exists [].
    split; [done|]. split; [simpl; lia|]. split.
    + intros q Hq. rewrite Hh2, lookup_alter_ne; [by apply Hk1|by intros ->].
    + intros q (f' & [= _ <-] & _ & _). destruct He1 as (_ & _ & _ & st1 & link1 & Hs1 & _ & Hl1 & _).
      destruct (settle_block (forced r) p st1 link1 (the_heap s1) Hs1 Hl1) as (F1 & F2 & F3 & _). rewrite Hh2. rewrite F1, Hh1.
      split; [done|]. right. split; [by rewrite F1|]. by split.
  - destruct (Z.eqb_spec st 2) as [->|]; [|by destruct (_ || _); apply error_never_returns in H].
    destruct Hl as [link Hl]; [by right|]. destruct n as [|n].
    { by repeat (apply bind_returned in H as (? & ? & _ & H)). }
    assert (E : ∃ v s1, (eshkol_promise_eval_begin p 2 ;; (thunk ← read p 1; run thunk)) s = Returned v s1 ∧
      force_loop call run force_future n v s1 = Returned r s').
    { apply bind_returned in H as ([] & sa & Ha & H). apply bind_returned in H as (t & sb & Hb & H).
      apply bind_returned in H as (v & sc & Hc & H). exists v, sc. split; [|done].
      by rewrite (bind_run _ _ _ _ _ Ha), (bind_run _ _ _ _ _ Hb). }
    destruct E as (v & s1 & E1 & E2). destruct (eval_thunk_ok s p l 2 link v s1) as (He1 & Hk1 & Hn & Hh1); [done..|by right|done|done|].
    destruct (IH n ltac:(lia) v s1 (p :: l) He1 E2) as (l' & He2 & Hlen & Hk2 & _). exists (l' ++ [p]).
    split; [by rewrite <- app_assoc|]. split; [rewrite length_app; simpl; lia|]. split.
    + intros q Hq. rewrite Hk2 by by constructor. by apply Hk1.
    + intros q (f' & [= _ <-] & _ & _). split; [|left; apply elem_of_app; right; by constructor].
      by rewrite (header_at_same (the_heap s1)) by (apply Hk2; by constructor).
Qed.

(** A promise that is forced gives its value at once. *)
Lemma forced_again (run' : word → CtlM word) (ff : Z → CtlM word) n f p r s : f ≠ FUTURE_FLAG → forced_to (the_heap s) p r →
  codegenForce call run' ff n (Tag ESHKOL_VALUE_HEAP_PTR f p) s = Returned r s.
Proof.
  intros Hf (Hh & Hs & Hw). unfold codegenForce, eshkol_promise_eval_mark. rewrite gets_bind.
  assert (E : force_loop call run' ff n (Tag ESHKOL_VALUE_HEAP_PTR f p) s = Returned r s).
  { destruct n; cbn [force_loop]; rewrite (proj2 (Z.eqb_neq _ _) Hf), andb_false_r, Z.eqb_refl; simpl;
      (rewrite (bind_run _ _ s HEAP_SUBTYPE_PROMISE s) by by rewrite Hh); simpl; rewrite (read_num_bind _ _ 1) by done; simpl;
      unfold read; by rewrite Hw. }
  rewrite (bind_run _ _ _ _ _ E). assert (E2 : eshkol_promise_eval_commit_to n (promise_head s) r s = Returned tt s).
  { rewrite (commit_to_ok n _ [] r s); [|done|simpl; lia]. unfold settled. simpl. by destruct s as [[]]. }
  by rewrite (bind_run _ _ _ _ _ E2).
Qed.

(** Forcing memoizes: the promises opened are settled, those under evaluation stay, and
    a second force runs nothing. *)
Lemma force_ok n v s r s' l : evaluating (the_heap s) (promise_head s) 0 l → codegenForce call run force_future n v s = Returned r s' →
  promise_head s' = promise_head s ∧ (∀ p, p ∈ l → the_heap s' !! p = the_heap s !! p) ∧
  ∀ p, is_promise (the_heap s) v p → forced_to (the_heap s') p r.
Proof.
  intros He H. unfold codegenForce in H. unfold eshkol_promise_eval_mark in H. rewrite gets_bind in H.
  apply bind_returned in H as (r' & s1 & H1 & H). apply bind_returned in H as ([] & s2 & H2 & [= <- <-]).
  destruct (force_loop_ok _ _ _ _ _ _ He H1) as (l' & He1 & Hlen & Hk & Hp).
  pose proof (evaluating_app _ _ _ l' l He1 (evaluating_top _ _ _ He)) as Ha.
  rewrite (commit_to_ok n _ l' r' s1 Ha Hlen) in H2. injection H2 as <-. pose proof (evaluating_nodup _ _ _ _ He1) as Hnd.
  assert (Hdis : ∀ p, p ∈ l → p ∉ l'). { intros p Hpl Hpl'. apply list.NoDup_app in Hnd as (_ & Hnd & _). by eapply Hnd. }
  assert (Hh : the_heap (settled (forced r') l' (promise_head s) s1) = settle_all (forced r') l' (the_heap s1)) by done. rewrite Hh.
  split; [done|]. split; [intros p Hpl; rewrite settle_all_ne; [by apply Hk|by apply Hdis]|].
  intros p Hpr. destruct (Hp p Hpr) as [Hd Hor]. destruct (decide (p ∈ l')) as [Hin|Hin].
  - apply list.NoDup_app in Hnd as (Hnd & _). destruct (evaluating_words _ _ _ _ _ Ha Hin) as (st & link & Hs & Hl).
    destruct (settle_block (forced r') p st link (the_heap s1) Hs Hl) as (F1 & F2 & F3 & _).
    assert (Es : settle_all (forced r') l' (the_heap s1) !! p = alter (settle (forced r')) p (the_heap s1) !! p)
      by (rewrite settle_all_lookup, lookup_alter_eq by done; done).
    unfold forced_to. rewrite (header_at_same _ _ _ Es), F1. unfold num_at, word_at in *. by rewrite Es.
  - destruct Hor as [?|(F1 & F2 & F3)]; [done|]. pose proof (settle_all_ne (forced r') l' (the_heap s1) p Hin) as Es.
    unfold forced_to. rewrite (header_at_same _ _ _ Es). unfold num_at, word_at in *. by rewrite Es.
Qed.
End force.
