(* ===== verification/Parameters.v ===== *)
(** * Parameters: make-parameter and parameterize
    (lib/core/runtime_parameters_hosted.cpp)

    A parameter is an object of an arena that points to a [malloc]ed stack of bindings,
    the constructor's value at the bottom.  A value is promoted out of every region
    before it is bound.  The capacity is an unbounded integer here. *)

From S2P Require Export RaiseSpec.
Local Open Scope Z_scope.

(** ** The malloc'ed stack *)

(** What [malloc] returns is not initialised. *)
Definition uninitialised : word := Num 16 0.

(** Buffers get addresses of no arena; NULL when [malloc] fails. *)
Definition new_buffer (l : list word) : CtlM Z := λ s,
  match mallocs s with
  | Some O => Returned 0 s
  | a =>
      let m := mem s in let q := m_next m in
      Returned q (with_buffers (<[q := l]> (buffers s)) (option_map pred a) (with_mem (set_heap m (m_heap m) (q + 16 * Z.of_nat (length l) + 16) (m_budget m)) s))
  end.
Definition malloc_values (n : Z) : CtlM Z := new_buffer (replicate (Z.to_nat n) uninitialised).
Definition free_buffer (q : Z) : CtlM unit := modify (λ s, with_buffers (delete q (buffers s)) (mallocs s) s).

(** [realloc] of NULL is [malloc]; the old buffer stays where it fails. *)
Definition realloc_values (q n : Z) : CtlM Z :=
  old ← (if q =? 0 then mret [] else λ s, of_option (buffers s !! q) s);
  q' ← new_buffer (take (Z.to_nat n) old ++ replicate (Z.to_nat n - length old) uninitialised);
  (if (q' =? 0) || (q =? 0) then mret tt else free_buffer q) ;;
  mret q'.

Definition get_binding (q i : Z) : CtlM word := λ s, of_option (l ← buffers s !! q; if i <? 0 then None else l !! Z.to_nat i) s.
Definition set_binding (q i : Z) (v : word) : CtlM unit :=
  get_binding q i ;; modify (λ s, with_buffers (alter (λ l, <[Z.to_nat i := v]> l) q (buffers s)) (mallocs s) s).

(** ** The operations *)

Section parameters.
Context (call : Z → list word → CtlM word).

Definition write_barrier (dst : Z) (v : word) (failed : Z → CtlM word) : CtlM word := λ s,
  match eshkol_region_copy_tagged_checked dst [v] (mem s) with
  | Some (status, [v], m) => if status =? 0 then Returned v (with_mem m s) else failed status (with_mem m s)
  | _ => Fault
  end.

(** [[stack; top; capacity; converter]]. *)
Definition eshkol_make_parameter (n : nat) (arena : Z) (default_val : word) : CtlM Z :=
  param ← arena_new arena (Some (HEAP_SUBTYPE_PARAMETER, 32)) [Ptr 0; Num 4 (-1); Num 4 0; null_value];
  if param =? 0 then mret 0
  else
    stack ← malloc_values 8;
    if stack =? 0 then mret param
    else
      promoted ← write_barrier stack default_val (λ status, free_buffer stack ;; eshkol_runtime_emergency_raise_v1 call n status);
      set_binding stack 0 promoted ;;
      write param 0 (Ptr stack) ;; write param 2 (Num 4 8) ;; write param 1 (Num 4 0) ;;
      mret param.

Definition eshkol_parameter_push (n : nat) (param : Z) (v : word) : CtlM unit :=
  if param =? 0 then mret tt
  else
    stack ← read_ptr param 0;
    promoted ← write_barrier stack v (λ status, eshkol_runtime_emergency_raise_v1 call n status);
    top ← read_num param 1;
    capacity ← read_num param 2;
    grown ← (if capacity <=? top + 1 then
               let new_capacity := Z.max 8 (capacity * 2) in
               new_stack ← realloc_values stack new_capacity;
               if new_stack =? 0 then mret false
               else write param 0 (Ptr new_stack) ;; write param 2 (Num 4 new_capacity) ;; mret true
             else mret true);
    if negb grown then mret tt
    else
      stack ← read_ptr param 0;
      set_binding stack (top + 1) promoted ;;
      write param 1 (Num 4 (top + 1)).

Definition eshkol_parameter_pop (param : Z) : CtlM unit :=
  if param =? 0 then mret tt
  else top ← read_num param 1; if 0 <? top then write param 1 (Num 4 (top - 1)) else mret tt.

Definition eshkol_parameter_set (n : nat) (param : Z) (v : word) : CtlM unit :=
  if param =? 0 then mret tt
  else
    top ← read_num param 1; stack ← read_ptr param 0;
    if (top <? 0) || (stack =? 0) then mret tt
    else
      promoted ← write_barrier stack v (λ status, eshkol_runtime_emergency_raise_v1 call n status);
      set_binding stack top promoted.

Definition eshkol_parameter_set_converter (n : nat) (param : Z) (converter : word) : CtlM unit :=
  if param =? 0 then mret tt
  else
    promoted ← write_barrier 0 converter (λ status, eshkol_runtime_emergency_raise_v1 call n status);
    write param 3 promoted.

Definition eshkol_parameter_converter_ref (param : Z) : CtlM word := if param =? 0 then mret null_value else read param 3.

Definition eshkol_parameter_ref (param : Z) : CtlM word :=
  if param =? 0 then mret null_value
  else
    top ← read_num param 1; stack ← read_ptr param 0;
    if (top <? 0) || (stack =? 0) then mret null_value else get_binding stack top.

(** ** Compiled forms (lib/backend/llvm_codegen.cpp, lib/frontend/parser.cpp) *)

Context (run : word → list word → CtlM word).

Definition codegenOptionalParameterConverter (converter v : word) : CtlM word :=
  match converter with Tag t _ _ => if t =? ESHKOL_VALUE_NULL then mret v else run converter [v] | _ => fault end.

Definition codegenMakeParameter (n : nat) (arena : Z) (initial converter : word) : CtlM Z :=
  v ← codegenOptionalParameterConverter converter initial;
  param ← eshkol_make_parameter n arena v;
  eshkol_parameter_set_converter n param converter ;;
  mret param.

(** [(parameterize ((p v) ...) body)]: the values are converted first; [before] pushes them in
    order and [after] pops in reverse. *)
Fixpoint parameterize_convert (bindings : list (Z * word)) : CtlM (list (Z * word)) :=
  match bindings with
  | [] => mret []
  | (p, raw) :: l =>
      converter ← eshkol_parameter_converter_ref p;
      v ← codegenOptionalParameterConverter converter raw;
      l ← parameterize_convert l;
      mret ((p, v) :: l)
  end.
Fixpoint parameterize_before (n : nat) (bindings : list (Z * word)) : CtlM unit :=
  match bindings with [] => mret tt | (p, v) :: l => eshkol_parameter_push n p v ;; parameterize_before n l end.
Fixpoint parameterize_after (params : list Z) : CtlM unit :=
  match params with [] => mret tt | p :: l => parameterize_after l ;; eshkol_parameter_pop p end.
End parameters.

(** ** A parameter is a stack of bindings *)

Definition param_ty : ty := TObj false HEAP_SUBTYPE_PARAMETER [Any 8; Any 4; Any 4; Any 16].
Definition fields (q top cap : Z) (c : word) : list word := [Ptr q; Num 4 top; Num 4 cap; c].

(** The parameter [p] has the bindings [l], the innermost last, and the converter [c]. *)
Record param_ok (Γ : typing) (s : control) (p : Z) (l : list word) (c : word) : Prop := {
  pm_typed : Γ !! p = Some param_ty;
  pm_bound : l ≠ [];
  pm_block : ∃ b q rest, the_heap s !! p = Some b ∧ q ≠ 0 ∧ buffers s !! q = Some (l ++ rest) ∧
    take 4 (words b) = fields q (Z.of_nat (length l) - 1) (Z.of_nat (length (l ++ rest))) c ∧
    the_heap s !! q = None ∧ q < m_next (mem s)
}.

(** A value that no region owns. *)
Definition outlives (m : memory) (w : word) : Prop := ∀ d, target_of Val w = Some d → level m d <= -1.

Section parameter_stack.
Context (call : Z → list word → CtlM word) (extern root : Z → bool).

Lemma field_at s p b q t k c i w : the_heap s !! p = Some b → take 4 (words b) = fields q t k c → fields q t k c !! i = Some w →
  word_at (the_heap s) p i = Some w.
Proof.
  intros Hb Hf Hi. unfold word_at. rewrite Hb. simpl. rewrite <- Hf in Hi. rewrite lookup_take_Some in Hi. tauto.
Qed.

(** A read of a field, and a write of one. *)
Lemma read_field s p b q t k c : the_heap s !! p = Some b → take 4 (words b) = fields q t k c →
  read_ptr p 0 s = Returned q s ∧ read_num p 1 s = Returned t s ∧ read_num p 2 s = Returned k s ∧ read p 3 s = Returned c s.
Proof.
  intros Hb Hf. unfold read_ptr, read_num, read, ptr_at, num_at.
  by rewrite (field_at _ _ _ _ _ _ _ 0 (Ptr q) Hb Hf), (field_at _ _ _ _ _ _ _ 1 (Num 4 t) Hb Hf),
    (field_at _ _ _ _ _ _ _ 2 (Num 4 k) Hb Hf), (field_at _ _ _ _ _ _ _ 3 c Hb Hf).
Qed.

Lemma write_field Γ s p b q t k c i w : mem_ok extern root Γ (mem s) → Γ !! p = Some param_ty → the_heap s !! p = Some b →
  take 4 (words b) = fields q t k c → (i < 4)%nat → slots param_ty !! i = Some (Any (width w)) → 0 < width w →
  write p i w s = Returned tt (with_mem (store p i w (mem s)) s) ∧ mem_ok extern root Γ (store p i w (mem s)) ∧
  ∃ b', m_heap (store p i w (mem s)) !! p = Some b' ∧ take 4 (words b') = <[i := w]> (fields q t k c).
Proof.
  intros Hm Ht Hb Hf Hi Hs Hw. split; [|split].
  - destruct (lookup_lt_is_Some_2 (fields q t k c) i Hi) as [w0 Hw0]. unfold write, read.
    unfold mbind, ctl_bind. by rewrite (field_at _ _ _ _ _ _ _ i w0 Hb Hf Hw0).
  - eapply store_slot_ok; [done|done|done|by split|done].
  - exists (set_word b i w). split; [simpl; by rewrite lookup_alter_eq; unfold the_heap in Hb; rewrite Hb|].
    simpl. by rewrite <- Hf, take_insert_lt.
Qed.

Lemma reserve_ok Γ m k : mem_ok extern root Γ m → m_next m <= k → mem_ok extern root Γ (set_heap m (m_heap m) k (m_budget m)).
Proof.
  intros [[Ht Hlt Hnull Hnext Hbelow Hext] Hl Hf Hb Hd Hr Hbl Hro] Hk. split; try done. split; try done; simpl.
  - lia.
  - intros p b E. specialize (Hbelow p b E). lia.
  - intros d Hx. destruct (Hext d Hx). split; [done|lia].
Qed.

(** The barrier hands back a value that outlives every region, or its failure is raised. *)
Lemma write_barrier_ok Γ s q v failed : mem_ok extern root Γ (mem s) → value_word extern Γ v → the_heap s !! q = None →
  (∃ Γ' v' m, write_barrier q v failed s = Returned v' (with_mem m s) ∧ Γ ⊆ Γ' ∧ mem_ok extern root Γ' m ∧ extends (mem s) m ∧
    value_word extern Γ' v' ∧ outlives m v') ∨
  (∃ status m, write_barrier q v failed s = failed status (with_mem m s) ∧ mem_ok extern root Γ m ∧ extends (mem s) m).
Proof.
  intros Hm Hv Hq. destruct (barrier_ok extern root Γ (mem s) q v Hm Hv) as (r & E & H).
  unfold eshkol_region_write_barrier_into in E. unfold write_barrier.
  destruct (eshkol_region_copy_tagged_checked q [v] (mem s)) as [[[st out] m]|] eqn:Ec; [|done].
  assert (∃ v', out = [v']) as [v' ->].
  { apply batch_length in Ec. destruct out as [|v' [|]]; try done. by exists v'. }
  assert (Hlev : level (mem s) q = -1) by (unfold level, region_index_owning; unfold the_heap in Hq; by rewrite Hq).
  simpl in E. injection E as <-. destruct (st =? 0).
  - left. destruct H as (Γ' & v0 & [= <-] & Hm' & Hs & Hx & Hv' & Ho). exists Γ', v', m. rewrite Hlev in Ho. eauto 10.
  - right. destruct H as (_ & Hm' & Hx). eauto.
Qed.

Lemma absent_extends m m' q : extends m m' → m_heap m !! q = None → q < m_next m → m_heap m' !! q = None ∧ q < m_next m'.
Proof.
  intros Hx Hn Hlt. pose proof (x_grow _ _ Hx). split; [|lia]. destruct (m_heap m' !! q) as [b|] eqn:E; [|done].
  destruct (x_new _ _ Hx q b E) as [E'|]; [congruence|lia].
Qed.

(** A parameter is as it was after a promotion. *)
Lemma param_extends Γ Γ' s m p l c : Γ ⊆ Γ' → extends (mem s) m → param_ok Γ s p l c → param_ok Γ' (with_mem m s) p l c.
Proof.
  intros Hs Hx [Ht Hl (b & q & rest & Hb & Hq & Hbuf & Hf & Hn & Hlt)]. split; [by eapply lookup_weaken|done|].
  exists b, q, rest. split; [by apply (x_old _ _ Hx)|]. split; [done|]. split; [done|]. split; [done|].
  by apply (absent_extends _ _ _ Hx).
Qed.

Lemma get_binding_run s q buf i v : buffers s !! q = Some buf → buf !! i = Some v → get_binding q (Z.of_nat i) s = Returned v s.
Proof.
  intros Hb Hi. unfold get_binding. rewrite Hb. simpl. rewrite (proj2 (Z.ltb_ge _ _)) by lia. by rewrite Nat2Z.id, Hi.
Qed.

Lemma set_binding_run s q buf i w v : buffers s !! q = Some buf → buf !! i = Some w →
  set_binding q (Z.of_nat i) v s = Returned tt (with_buffers (<[q := <[i := v]> buf]> (buffers s)) (mallocs s) s).
Proof.
  intros Hb Hi. unfold set_binding. rewrite (bind_run _ _ _ _ _ (get_binding_run _ _ _ _ _ Hb Hi)). unfold modify. rewrite Nat2Z.id.
  do 3 f_equal. apply map_eq. intros k. destruct (decide (k = q)) as [->|Hk].
  - by rewrite lookup_alter_eq, Hb, lookup_insert_eq.
  - by rewrite lookup_alter_ne, lookup_insert_ne.
Qed.

(** The binding above the top is written and becomes the top. *)
Lemma bind_above Γ s p b q c l x rest v : mem_ok extern root Γ (mem s) → Γ !! p = Some param_ty → l ≠ [] → the_heap s !! p = Some b → q ≠ 0 →
  buffers s !! q = Some (l ++ x :: rest) → take 4 (words b) = fields q (Z.of_nat (length l) - 1) (Z.of_nat (length (l ++ x :: rest))) c →
  the_heap s !! q = None → q < m_next (mem s) →
  ∃ s', (set_binding q (Z.of_nat (length l)) v ;; write p 1 (Num 4 (Z.of_nat (length l)))) s = Returned tt s' ∧
    mem_ok extern root Γ (mem s') ∧ param_ok Γ s' p (l ++ [v]) c ∧ ∀ w, outlives (mem s) w → outlives (mem s') w.
Proof.
  intros Hm Ht Hl Hb Hq Hbuf Hf Hn Hlt.
  assert (Hx : (l ++ x :: rest) !! length l = Some x) by (rewrite lookup_app_r, Nat.sub_diag by lia; done).
  rewrite (bind_run _ _ _ _ _ (set_binding_run s q _ _ _ v Hbuf Hx)). set (s1 := with_buffers _ _ s).
  destruct (write_field Γ s1 p b q _ _ c 1 (Num 4 (Z.of_nat (length l))) Hm Ht Hb Hf) as (E & Hm' & b' & Hb' & Hf'); [lia|done|done|].
  rewrite E. eexists. split; [done|]. split; [done|].
  assert (El : <[length l := v]> (l ++ x :: rest) = (l ++ [v]) ++ rest) by (rewrite insert_app_r_alt, Nat.sub_diag by lia; by rewrite <- app_assoc).
  split.
  - split; [done|by destruct l|]. exists b', q, rest. split; [done|]. split; [done|]. split; [|split; [|split; [|done]]].
    + simpl. by rewrite lookup_insert_eq, El.
    + rewrite Hf'. replace (Z.of_nat (length (l ++ [v])) - 1) with (Z.of_nat (length l)) by (rewrite length_app; simpl; lia).
      by replace (length ((l ++ [v]) ++ rest)) with (length (l ++ x :: rest)) by (rewrite !length_app; simpl; lia).
    + unfold the_heap. simpl. destruct (decide (q = p)) as [->|Hqp]; [congruence|]. by rewrite lookup_alter_ne.
  - intros w Hw d Hd. simpl. rewrite store_level. by apply Hw.
Qed.

Lemma failed_barrier {B} s q v n (k : word → CtlM B) status m :
  write_barrier q v (λ st, eshkol_runtime_emergency_raise_v1 call n st) s = eshkol_runtime_emergency_raise_v1 call n status (with_mem m s) →
  (write_barrier q v (λ st, eshkol_runtime_emergency_raise_v1 call n st) ≫= k) s = eshkol_raise call n (emergency_condition status) (with_mem m s).
Proof. intros E. rewrite <- (raise_bind call n _ k). unfold mbind, ctl_bind. by rewrite E. Qed.

Lemma new_buffer_run L s : mallocs s ≠ Some 0%nat → ∃ s', new_buffer L s = Returned (m_next (mem s)) s' ∧
  mem s' = set_heap (mem s) (m_heap (mem s)) (m_next (mem s) + 16 * Z.of_nat (length L) + 16) (m_budget (mem s)) ∧ buffers s' = <[m_next (mem s) := L]> (buffers s).
Proof. intros H. unfold new_buffer. destruct (mallocs s) as [[|k]|]; [done|..]; by eexists. Qed.

(** A full stack moves to a larger buffer. *)
Lemma grow_ok Γ s p b q l c cap : mem_ok extern root Γ (mem s) → Γ !! p = Some param_ty → the_heap s !! p = Some b → q ≠ 0 →
  buffers s !! q = Some l → take 4 (words b) = fields q (Z.of_nat (length l) - 1) (Z.of_nat (length l)) c →
  q < m_next (mem s) → mallocs s ≠ Some 0%nat → Z.of_nat (length l) < cap →
  ∃ q' s' b' x rest, (new_stack ← realloc_values q cap;
      if new_stack =? 0 then mret false
      else write p 0 (Ptr new_stack) ;; write p 2 (Num 4 cap) ;; mret true) s = Returned true s' ∧
    mem_ok extern root Γ (mem s') ∧ the_heap s' !! p = Some b' ∧ q' ≠ 0 ∧ buffers s' !! q' = Some (l ++ x :: rest) ∧
    take 4 (words b') = fields q' (Z.of_nat (length l) - 1) (Z.of_nat (length (l ++ x :: rest))) c ∧
    the_heap s' !! q' = None ∧ q' < m_next (mem s') ∧ ∀ w, outlives (mem s) w → outlives (mem s') w.
Proof.
  intros Hm Ht Hb Hq Hbuf Hf Hlt Hma Hcap. set (k := (Z.to_nat cap - length l)%nat). set (q' := m_next (mem s)).
  assert (Hk : k = S (pred k)) by (subst k; lia).
  assert (EL : take (Z.to_nat cap) l ++ replicate k uninitialised = l ++ uninitialised :: replicate (pred k) uninitialised).
  { rewrite take_ge by lia. by rewrite Hk. }
  destruct (new_buffer_run (take (Z.to_nat cap) l ++ replicate k uninitialised) s Hma) as (s2 & E2 & Hm2 & Hb2). fold q' in E2, Hb2.
  assert (Hq' : 0 < q') by apply (mo_world _ _ _ _ Hm). pose proof (proj2 (Z.eqb_neq q' 0)) as Hz. specialize (Hz ltac:(lia)).
  set (s3 := with_buffers (delete q (buffers s2)) (mallocs s2) s2).
  assert (E3 : realloc_values q cap s = Returned q' s3).
  { unfold realloc_values. rewrite (proj2 (Z.eqb_neq _ _) Hq). rewrite (bind_run _ _ s l s) by by rewrite Hbuf.
    fold k. rewrite (bind_run _ _ _ _ _ E2), Hz. done. }
  assert (Hm3 : mem_ok extern root Γ (mem s3)).
  { change (mem s3) with (mem s2). rewrite Hm2. apply reserve_ok; [done|lia]. }
  assert (Hh3 : the_heap s3 = the_heap s) by (unfold the_heap; change (mem s3) with (mem s2); by rewrite Hm2).
  rewrite (bind_run _ _ _ _ _ E3), Hz. rewrite <- Hh3 in Hb.
  destruct (write_field Γ s3 p b q _ _ c 0 (Ptr q') Hm3 Ht Hb Hf) as (E4 & Hm4 & b4 & Hb4 & Hf4); [lia|done|done|].
  rewrite (bind_run _ _ _ _ _ E4). set (s4 := with_mem _ s3) in *. simpl in Hf4.
  destruct (write_field Γ s4 p b4 q' _ _ c 2 (Num 4 cap) Hm4 Ht Hb4 Hf4) as (E5 & Hm5 & b5 & Hb5 & Hf5); [lia|done|done|].
  rewrite (bind_run _ _ _ _ _ E5). set (s5 := with_mem _ s4) in *. exists q', s5, b5, uninitialised, (replicate (pred k) uninitialised).
  split; [done|]. split; [done|]. split; [done|]. split; [lia|]. split; [|split; [|split; [|split]]].
  - change (buffers s5) with (delete q (buffers s2)). rewrite lookup_delete_ne, Hb2, lookup_insert_eq by lia. by rewrite EL.
  - rewrite Hf5. simpl. unfold fields. repeat f_equal. rewrite length_app. simpl. rewrite length_replicate. lia.
  - destruct (m_heap (mem s) !! q') as [b'|] eqn:E; [pose proof (w_below _ _ _ _ (mo_world _ _ _ _ Hm) q' b' E); lia|].
    unfold the_heap. destruct (m_heap (mem s5) !! q') as [b'|] eqn:E'; [|done]. exfalso.
    apply store_lookup in E' as (b0 & E0 & _). apply store_lookup in E0 as (b1 & E1 & _). unfold the_heap in Hh3. rewrite Hh3 in E1. congruence.
  - change (m_next (mem s5)) with (m_next (mem s2)). rewrite Hm2. simpl. lia.
  - intros w Hw d Hd. change (mem s5) with (store p 2 (Num 4 cap) (store p 0 (Ptr q') (mem s2))). rewrite !store_level.
    rewrite Hm2. by apply Hw.
Qed.

(** A push binds a promoted copy of the value, growing the stack where it is full. *)
Lemma param_push_ok n Γ s p l c v : mem_ok extern root Γ (mem s) → param_ok Γ s p l c → value_word extern Γ v → mallocs s ≠ Some 0%nat → p ≠ 0 →
  (∃ Γ' v' s', eshkol_parameter_push call n p v s = Returned tt s' ∧ Γ ⊆ Γ' ∧ mem_ok extern root Γ' (mem s') ∧
    param_ok Γ' s' p (l ++ [v']) c ∧ value_word extern Γ' v' ∧ outlives (mem s') v') ∨
  (∃ status m, eshkol_parameter_push call n p v s = eshkol_raise call n (emergency_condition status) (with_mem m s) ∧
    mem_ok extern root Γ m ∧ param_ok Γ (with_mem m s) p l c).
Proof.
  intros Hm Hp Hv Hma Hp0. unfold eshkol_parameter_push. rewrite (proj2 (Z.eqb_neq _ _) Hp0).
  destruct (pm_block _ _ _ _ _ Hp) as (b & q & rest & Hb & Hq & Hbuf & Hf & Hn & Hlt).
  destruct (read_field _ _ _ _ _ _ _ Hb Hf) as (E0 & _). rewrite (bind_run _ _ _ _ _ E0).
  destruct (write_barrier_ok Γ s q v (λ st, eshkol_runtime_emergency_raise_v1 call n st) Hm Hv Hn)
    as [(Γ' & v' & m & E & Hs & Hm' & Hx & Hv' & Ho)|(st & m & E & Hm' & Hx)].
  2: { right. exists st, m. split; [|split; [done|by eapply param_extends]]. by apply failed_barrier. }
  left. exists Γ', v'. rewrite (bind_run _ _ _ _ _ E). pose proof (param_extends Γ Γ' s m p l c Hs Hx Hp) as Hp'.
  set (s1 := with_mem m s) in *. apply (x_old _ _ Hx) in Hb. change (the_heap s1 !! p = Some b) in Hb.
  destruct (absent_extends _ _ _ Hx Hn Hlt) as [Hn1 Hlt1]. clear E E0 Hn Hlt. rename Hn1 into Hn, Hlt1 into Hlt. destruct Hp' as [Ht Hl _]. change (buffers s1 !! q = Some (l ++ rest)) in Hbuf.
  destruct (read_field _ _ _ _ _ _ _ Hb Hf) as (E0 & E1 & E2 & _). rewrite (bind_run _ _ _ _ _ E1), (bind_run _ _ _ _ _ E2).
  replace (Z.of_nat (length l) - 1 + 1) with (Z.of_nat (length l)) by lia. destruct rest as [|x rest].
  - rewrite app_nil_r in *. rewrite Z.leb_refl. set (cap := Z.max 8 (Z.of_nat (length l) * 2)).
    destruct (grow_ok Γ' s1 p b q l c cap Hm' Ht Hb Hq Hbuf Hf Hlt Hma) as (q' & s2 & b' & x & rest & E & Hm2 & Hb2 & Hq2 & Hbuf2 & Hf2 & Hn2 & Hlt2 & Hk2).
    { subst cap. destruct l; [done|]. simpl length. lia. }
    rewrite (bind_run _ _ _ _ _ E). simpl. destruct (read_field _ _ _ _ _ _ _ Hb2 Hf2) as (E3 & _). rewrite (bind_run _ _ _ _ _ E3).
    destruct (bind_above Γ' s2 p b' q' c l x rest v' Hm2 Ht Hl Hb2 Hq2 Hbuf2 Hf2 Hn2 Hlt2) as (s' & E4 & Hm4 & Hp4 & Hk4).
    exists s'. split; [exact E4|]. split; [done|]. split; [done|]. split; [done|]. split; [done|]. by apply Hk4, Hk2.
  - rewrite (proj2 (Z.leb_gt _ _)) by (rewrite length_app; simpl; lia). rewrite ret_bind. simpl. rewrite (bind_run _ _ _ _ _ E0).
    destruct (bind_above Γ' s1 p b q c l x rest v' Hm' Ht Hl Hb Hq Hbuf Hf Hn Hlt) as (s' & E & Hm2 & Hp2 & Hk).
    exists s'. split; [exact E|]. split; [done|]. split; [done|]. split; [done|]. split; [done|]. by apply Hk.
Qed.

Lemma top_index (l : list word) x : Z.of_nat (length (l ++ [x])) - 1 = Z.of_nat (length l).
Proof. rewrite length_app. cbn [length]. lia. Qed.

(** A pop takes the top binding, but never the constructor's. *)
Lemma param_pop_ok Γ s p l x c : mem_ok extern root Γ (mem s) → param_ok Γ s p (l ++ [x]) c → p ≠ 0 →
  ∃ s', eshkol_parameter_pop p s = Returned tt s' ∧ mem_ok extern root Γ (mem s') ∧
    param_ok Γ s' p (match l with [] => [x] | _ => l end) c.
Proof.
  intros Hm [Ht Hl (b & q & rest & Hb & Hq & Hbuf & Hf & Hn & Hlt)] Hp. unfold eshkol_parameter_pop. rewrite (proj2 (Z.eqb_neq _ _) Hp).
  destruct (read_field _ _ _ _ _ _ _ Hb Hf) as (_ & E1 & _). rewrite (bind_run _ _ _ _ _ E1). rewrite <- app_assoc in *. rewrite length_app in *. simpl in *.
  destruct l as [|y l].
  - simpl in *. exists s. split; [done|]. split; [done|]. split; [done|done|]. by exists b, q, rest.
  - rewrite (proj2 (Z.ltb_lt _ _)) by (simpl; lia).
    destruct (write_field Γ s p b q _ _ c 1 (Num 4 (Z.of_nat (length (y :: l) + 1) - 1 - 1)) Hm Ht Hb Hf) as (E & Hm' & b' & Hb' & Hf'); [lia|done|done|].
    eexists. split; [exact E|]. split; [done|]. split; [done|done|]. exists b', q, (x :: rest). split; [done|]. split; [done|]. split; [done|].
    split; [|split; [|done]].
    + rewrite Hf'. unfold fields. simpl. by replace (Z.of_nat (S (length l + 1)) - 1 - 1) with (Z.of_nat (S (length l)) - 1) by lia.
    + unfold the_heap. simpl. destruct (decide (q = p)) as [->|Hqp]; [congruence|]. by rewrite lookup_alter_ne.
Qed.

Lemma ref_ok Γ s p l x c : param_ok Γ s p (l ++ [x]) c → p ≠ 0 →
  eshkol_parameter_ref p s = Returned x s ∧ eshkol_parameter_converter_ref p s = Returned c s.
Proof.
  intros [Ht Hl (b & q & rest & Hb & Hq & Hbuf & Hf & Hn & Hlt)] Hp.
  destruct (read_field _ _ _ _ _ _ _ Hb Hf) as (E0 & E1 & _ & E3). unfold eshkol_parameter_ref, eshkol_parameter_converter_ref.
  rewrite (proj2 (Z.eqb_neq _ _) Hp). split; [|done]. rewrite (bind_run _ _ _ _ _ E1), (bind_run _ _ _ _ _ E0), top_index.
  rewrite (proj2 (Z.ltb_ge _ _)), (proj2 (Z.eqb_neq _ _) Hq) by lia. simpl.
  eapply get_binding_run; [done|]. rewrite <- app_assoc, lookup_app_r, Nat.sub_diag by lia. done.
Qed.

(** An assignment replaces the top binding by a promoted copy of the value. *)
Lemma set_ok n Γ s p l x c v : mem_ok extern root Γ (mem s) → param_ok Γ s p (l ++ [x]) c → value_word extern Γ v → p ≠ 0 →
  (∃ Γ' v' s', eshkol_parameter_set call n p v s = Returned tt s' ∧ Γ ⊆ Γ' ∧ mem_ok extern root Γ' (mem s') ∧
    param_ok Γ' s' p (l ++ [v']) c ∧ value_word extern Γ' v' ∧ outlives (mem s') v') ∨
  (∃ status m, eshkol_parameter_set call n p v s = eshkol_raise call n (emergency_condition status) (with_mem m s) ∧
    mem_ok extern root Γ m ∧ param_ok Γ (with_mem m s) p (l ++ [x]) c).
Proof.
  intros Hm Hp Hv Hp0. pose proof Hp as [Ht Hl (b & q & rest & Hb & Hq & Hbuf & Hf & Hn & Hlt)].
  destruct (read_field _ _ _ _ _ _ _ Hb Hf) as (E0 & E1 & _). unfold eshkol_parameter_set. rewrite (proj2 (Z.eqb_neq _ _) Hp0).
  rewrite (bind_run _ _ _ _ _ E1), (bind_run _ _ _ _ _ E0), top_index.
  rewrite (proj2 (Z.ltb_ge _ _)), (proj2 (Z.eqb_neq _ _) Hq) by lia. simpl.
  destruct (write_barrier_ok Γ s q v (λ st, eshkol_runtime_emergency_raise_v1 call n st) Hm Hv Hn)
    as [(Γ' & v' & m & E & Hs & Hm' & Hx & Hv' & Ho)|(st & m & E & Hm' & Hx)].
  2: { right. exists st, m. split; [by apply failed_barrier|split; [done|by eapply param_extends]]. }
  left. exists Γ', v'. rewrite (bind_run _ _ _ _ _ E).
  change (buffers (with_mem m s) !! q = Some ((l ++ [x]) ++ rest)) in Hbuf.
  assert (Hi : ((l ++ [x]) ++ rest) !! length l = Some x) by (rewrite <- app_assoc, lookup_app_r, Nat.sub_diag by lia; done).
  rewrite (set_binding_run _ _ _ _ _ v' Hbuf Hi). eexists. split; [done|]. split; [done|]. split; [done|]. split; [|done].
  destruct (absent_extends _ _ _ Hx Hn Hlt) as [Hn' Hlt']. split; [by eapply lookup_weaken|by destruct l|].
  exists b, q, rest. split; [by apply (x_old _ _ Hx)|]. split; [done|]. split; [|split; [|done]].
  - simpl. rewrite lookup_insert_eq. rewrite <- app_assoc, insert_app_r_alt, Nat.sub_diag by lia. by rewrite <- app_assoc.
  - rewrite Hf. by rewrite !length_app.
Qed.
End parameter_stack.
