(* ===== verification/ControlProps.v ===== *)
(** * ControlProps: what non-local exits guarantee *)

From S2P Require Export Parameters RegionProps.
Local Open Scope Z_scope.

Section control.
Context (call : Z → list word → CtlM word) (extern root : Z → bool).

(** ** Dynamic-wind *)

(** C12: Rerooting to a saved entry runs exactly the [after] thunks of the extents that
    are left, the innermost first, then the [before] thunks of those that are entered,
    the outermost first, each with the entry outside it on top, and ends at the saved
    entry; no extent is both left and entered. *)
Theorem reroot_runs_the_crossing n s target ls lt :
  chain (the_heap s) (wind s) ls → chain (the_heap s) target lt → balanced call (ls ++ lt) → (length ls + length lt <= n)%nat →
  ∃ out inn r, ls = out ++ r ∧ lt = inn ++ r ∧ (∀ p, p ∈ out → p ∉ lt) ∧ (∀ p, p ∈ inn → p ∉ ls) ∧
    eshkol_reroot_dynamic_wind call n target s = (run_winds call (crossing (the_heap s) out inn) ;; modify (with_wind target)) s.
Proof. intros Hs Ht Hc Hn. by apply (reroot_ok call (ls ++ lt) Hc). Qed.

(** ** Raising *)


(** ** Promises *)

(** Unwinding to a mark of the chain gives every promise above it back its state
    before the evaluation, 0 or 2, with a null value, and leaves the others and the rest
    of memory alone; a mark of a force that is over changes nothing. *)
Theorem promise_unwinding_restores n mark l s : evaluating (the_heap s) (promise_head s) 0 l → (length l <= n)%nat →
  (∀ above below, l = above ++ below → mark = top_of below →
    ∃ s', eshkol_promise_eval_unwind_to n mark s = Returned tt s' ∧ promise_head s' = mark ∧ evaluating (the_heap s') mark 0 below ∧
      (∀ p, p ∈ above → ∃ st, num_at (the_heap s) p 0 = Some st ∧
        num_at (the_heap s') p 0 = Some (if st =? 4 then 2 else 0) ∧ word_at (the_heap s') p 2 = Some null_value ∧
        word_at (the_heap s') p 1 = word_at (the_heap s) p 1) ∧
      ∀ p, p ∉ above → the_heap s' !! p = the_heap s !! p) ∧
  (mark ≠ 0 → mark ∉ l → eshkol_promise_eval_unwind_to n mark s = Returned tt s).
Proof.
  intros He Hn. split; [|intros Hm Hl; by eapply promise_unwind_stale]. intros above below -> Hm.
  pose proof (evaluating_app _ _ _ above below He Hm) as Ha. exists (settled rolled_back above mark s).
  split; [apply promise_unwind_ok; [done|rewrite length_app in Hn; lia]|]. split; [done|].
  assert (Hh : the_heap (settled rolled_back above mark s) = settle_all rolled_back above (the_heap s)) by done. rewrite Hh.
  pose proof (evaluating_nodup _ _ _ _ He) as (Hnd & Hdis & _)%list.NoDup_app.
  split; [|split; [|intros p Hp; by apply settle_all_ne]].
  - eapply evaluating_ext; [|rewrite Hm; exact (evaluating_below _ _ _ _ He)]. intros p Hp. apply settle_all_ne. intros Hin. by eapply Hdis.
  - intros p Hp. destruct (evaluating_words _ _ _ _ _ Ha Hp) as (st & link & Hs & Hl). exists st. split; [done|].
    assert (Es : settle_all rolled_back above (the_heap s) !! p = alter (settle rolled_back) p (the_heap s) !! p)
      by (rewrite settle_all_lookup, lookup_alter_eq by done; done).
    destruct (settle_block rolled_back p st link (the_heap s) Hs Hl) as (_ & F0 & F2 & F1).
    unfold num_at, word_at in *. rewrite Es. done.
Qed.

(** C15: A force that returns leaves the promises under evaluation as they were and the
    chain where it was, and settles the promise it was given, through any number of
    delay-force steps, to the value returned: forcing it again returns that value, runs
    nothing and changes nothing. *)
Theorem force_memoizes (run : word → CtlM word) (force_future : Z → CtlM word) n v s r s' l :
  (∀ t, discreet (run t)) → (∀ p, discreet (force_future p)) →
  evaluating (the_heap s) (promise_head s) 0 l → codegenForce call run force_future n v s = Returned r s' →
  promise_head s' = promise_head s ∧ (∀ p, p ∈ l → the_heap s' !! p = the_heap s !! p) ∧
  ∀ p, is_promise (the_heap s) v p →
    forced_to (the_heap s') p r ∧ ∀ run' force_future' n', codegenForce call run' force_future' n' v s' = Returned r s'.
Proof.
  intros Hrun Hfut He H. destruct (force_ok call run force_future Hrun Hfut n v s r s' l He H) as (Hh & Hk & Hp).
  split; [done|]. split; [done|]. intros p Hpr. pose proof (Hp p Hpr) as Hf. split; [done|]. intros run' ff' n'.
  destruct Hpr as (f & -> & Hfl & _). by apply forced_again.
Qed.

(** ** Handlers *)

Inductive handler_op := PushHandler (jmp_buf : Z) | PopHandler.
Definition handler_step (n : nat) (o : handler_op) : CtlM unit :=
  match o with PushHandler b => eshkol_push_exception_handler call n b | PopHandler => eshkol_pop_exception_handler end.
Fixpoint handler_run (n : nat) (l : list handler_op) : CtlM unit :=
  match l with [] => mret tt | o :: l => handler_step n o ;; handler_run n l end.

(** The [jmp_buf]s of the guards that are open, and the deepest nesting. *)
Definition open_step (o : handler_op) (l : list Z) : list Z := match o with PushHandler b => b :: l | PopHandler => tail l end.
Fixpoint open_guards (ops : list handler_op) (l : list Z) : list Z := match ops with [] => l | o :: ops => open_guards ops (open_step o l) end.
Fixpoint deepest (ops : list handler_op) (l : list Z) : nat :=
  match ops with [] => length l | o :: ops => Nat.max (length l) (deepest ops (open_step o l)) end.

(** Guards only push and pop: every frame made is on the stack or free, once. *)
Record frames_ok (s : control) (l : list Z) (k : nat) : Prop := {
  fr_open : map (λ f, jmp_buf_ptr f.2) (handler_stack s) = l;
  fr_made : frames_made s = Z.of_nat k;
  fr_where : map fst (handler_stack s) ++ free_list s ≡ₚ seqZ 0 (Z.of_nat k);
  fr_malloc : mallocs s = None
}.

Lemma handler_step_ok n o s l k : frames_ok s l k → (length l <= k)%nat →
  ∃ s', handler_step n o s = Returned tt s' ∧ frames_ok s' (open_step o l) (Nat.max k (length (open_step o l))) ∧ mem s' = mem s ∧ wind s' = wind s.
Proof.
  intros [Ho Hk Hw Hm] Hl. assert (El : length (handler_stack s) = length l) by by rewrite <- Ho, length_map.
  assert (Hlen : (length (handler_stack s) + length (free_list s) = k)%nat).
  { apply Permutation_length in Hw. rewrite length_app, length_map, length_seqZ in Hw. lia. }
  assert (Hin : ∀ x, x ∈ free_list s → 0 <= x).
  { intros x Hx. assert (Hs : x ∈ seqZ 0 (Z.of_nat k)) by (rewrite <- Hw; apply elem_of_app; by right). apply elem_of_seqZ in Hs. lia. }
  destruct o as [b|].
  - unfold handler_step, eshkol_push_exception_handler. rewrite gets_bind. destruct (free_list s) as [|f fl] eqn:Ef.
    + unfold malloc_frame, mbind, ctl_bind. rewrite Hm. rewrite (proj2 (Z.ltb_ge _ _)) by (rewrite Hk; lia). eexists. split; [done|].
      simpl length in Hlen. simpl open_step. replace (Nat.max k (length (b :: l))) with (S k) by (simpl; lia). split; [|done]. split; simpl.
      * by rewrite Ho.
      * lia.
      * rewrite Hk, Nat2Z.inj_succ, <- Z.add_1_r, seqZ_app by lia. rewrite (seqZ_cons (0 + Z.of_nat k) 1) by lia. change (seqZ _ (Z.pred 1)) with (@nil Z).
        rewrite Z.add_0_l, <- Hw, ?Ef, !app_nil_r. apply Permutation_cons_append.
      * done.
    + rewrite bind_bind, modify_bind, ret_bind. rewrite (proj2 (Z.ltb_ge _ _)) by (apply Hin; by constructor). eexists. split; [done|].
      simpl length in Hlen. simpl open_step. replace (Nat.max k (length (b :: l))) with k by (simpl; lia). split; [|done]. split; simpl.
      * by rewrite Ho.
      * done.
      * rewrite <- Hw. apply Permutation_middle.
      * done.
  - unfold handler_step, eshkol_pop_exception_handler. eexists. split; [done|]. simpl open_step.
    replace (Nat.max k (length (tail l))) with k by (destruct l; simpl in *; lia).
    destruct (handler_stack s) as [|[f h] hs] eqn:Eh; simpl in *.
    + subst l. split; [|done]. split; [by rewrite Eh|done|by rewrite Eh|done].
    + subst l. split; [|done]. split; simpl; [done|done| |done]. rewrite <- Hw. symmetry. apply Permutation_middle.
Qed.

(** Any sequence of guard entries and exits, from a thread without frames, keeps the
    handlers of the open guards, the innermost first, and has allocated exactly as many
    frames as the deepest nesting reached, however many guards were entered; each frame
    is on the stack or on the free list, once. *)
Theorem handler_frames_bounded n ops s : handler_stack s = [] → free_list s = [] → frames_made s = 0 → mallocs s = None →
  ∃ s', handler_run n ops s = Returned tt s' ∧ frames_ok s' (open_guards ops []) (deepest ops []) ∧ mem s' = mem s ∧ wind s' = wind s.
Proof.
  intros Hs Hf Hk Hm. assert (H0 : frames_ok s [] 0) by (split; rewrite ?Hs, ?Hf; done).
  assert (G : ∀ ops s l k, frames_ok s l k → (length l <= k)%nat → ∃ s', handler_run n ops s = Returned tt s' ∧
    frames_ok s' (open_guards ops l) (Nat.max k (deepest ops l)) ∧ mem s' = mem s ∧ wind s' = wind s).
  { clear. induction ops as [|o ops IH]; intros s l k H Hl; simpl.
    - exists s. rewrite Nat.max_l by lia. done.
    - destruct (handler_step_ok n o s l k H Hl) as (s1 & E & H1 & Em & Ew). rewrite (bind_run _ _ _ _ _ E).
      destruct (IH s1 _ _ H1) as (s2 & E2 & H2 & Em2 & Ew2); [lia|]. exists s2. split; [done|]. split; [|by rewrite Em2, Ew2].
      replace (Nat.max k (Nat.max (length l) (deepest ops (open_step o l)))) with
        (Nat.max (Nat.max k (length (open_step o l))) (deepest ops (open_step o l))); [done|].
      assert (length (open_step o l) <= deepest ops (open_step o l))%nat by (destruct ops; simpl; lia). lia. }
  destruct (G ops s [] 0%nat H0) as (s' & H); [simpl; lia|]. by exists s'.
Qed.

(** ** Parameters *)

(** C20: A parameter is a stack of bindings above the constructor's value: its value is the
    top one, a pop takes the top one but never the last, a push binds and an assignment
    replaces the top by a promoted copy of the value that outlives every region, whatever
    the capacity of the stack, and the pop after a push restores the bindings exactly;
    where promotion fails the bindings are as before. *)
Theorem parameter_is_a_stack n Γ s p l x c v :
  mem_ok extern root Γ (mem s) → param_ok Γ s p (l ++ [x]) c → value_word extern Γ v → mallocs s ≠ Some 0%nat → p ≠ 0 →
  (eshkol_parameter_ref p s = Returned x s ∧ eshkol_parameter_converter_ref p s = Returned c s) ∧
  (∃ s', eshkol_parameter_pop p s = Returned tt s' ∧ mem_ok extern root Γ (mem s') ∧
    param_ok Γ s' p (match l with [] => [x] | _ => l end) c) ∧
  ((∃ Γ' v' s', eshkol_parameter_push call n p v s = Returned tt s' ∧ mem_ok extern root Γ' (mem s') ∧
      param_ok Γ' s' p (l ++ [x; v']) c ∧ value_word extern Γ' v' ∧ outlives (mem s') v' ∧ eshkol_parameter_ref p s' = Returned v' s' ∧
      ∃ s2, eshkol_parameter_pop p s' = Returned tt s2 ∧ mem_ok extern root Γ' (mem s2) ∧ param_ok Γ' s2 p (l ++ [x]) c) ∨
   (∃ status m, eshkol_parameter_push call n p v s = eshkol_raise call n (emergency_condition status) (with_mem m s) ∧
      mem_ok extern root Γ m ∧ param_ok Γ (with_mem m s) p (l ++ [x]) c)) ∧
  ((∃ Γ' v' s', eshkol_parameter_set call n p v s = Returned tt s' ∧ mem_ok extern root Γ' (mem s') ∧
      param_ok Γ' s' p (l ++ [v']) c ∧ value_word extern Γ' v' ∧ outlives (mem s') v') ∨
   (∃ status m, eshkol_parameter_set call n p v s = eshkol_raise call n (emergency_condition status) (with_mem m s) ∧
      mem_ok extern root Γ m ∧ param_ok Γ (with_mem m s) p (l ++ [x]) c)).
Proof.
  intros Hm Hp Hv Hma Hp0. split; [by eapply ref_ok|]. split; [by apply param_pop_ok|]. split.
  - destruct (param_push_ok call extern root n Γ s p _ c v Hm Hp Hv Hma Hp0) as [(Γ' & v' & s' & E & Hs & Hm' & Hp' & Hv' & Ho)|H]; [left|by right].
    exists Γ', v', s'. destruct (ref_ok call extern root Γ' s' p (l ++ [x]) v' c Hp' Hp0) as [Er _].
    destruct (param_pop_ok call extern root Γ' s' p (l ++ [x]) v' c Hm' Hp' Hp0) as (s2 & E2 & Hm2 & Hp2).
    rewrite <- app_assoc in Hp'. repeat (split; [done|]). exists s2. split; [done|]. split; [done|]. by destruct l.
  - destruct (set_ok call extern root n Γ s p l x c v Hm Hp Hv Hp0) as [(Γ' & v' & s' & E & Hs & H)|H]; [left|by right].
    by exists Γ', v', s'.
Qed.
End control.

(** ** A concrete thread *)

(** The memory of [sample] with a promise under evaluation, two that wait, a parameter and, outside all
    regions, the entries of two nested extents and of one beside them. *)
Definition thunk_block : block := Block None 0 [Num 8 77; Ptr 0].
Definition control_heap : heap :=
  <[120 := Block (Some (18, 40)) 1 [Num 8 3; null_value; null_value]]>
  (<[130 := Block (Some (18, 40)) 1 [Num 8 0; Tag 9 0 360; null_value]]>
  (<[140 := Block (Some (18, 40)) 1 [Num 8 2; Tag 9 0 361; null_value]]>
  (<[220 := Block (Some (HEAP_SUBTYPE_PARAMETER, 32)) 1 (fields 390 1 8 null_value)]>
  (<[330 := Block None 0 [Tag 9 0 360; Tag 9 0 361; Ptr 0]]>
  (<[331 := Block None 0 [Tag 9 0 362; Tag 9 0 363; Ptr 330]]>
  (<[332 := Block None 0 [Tag 9 0 364; Tag 9 0 365; Ptr 330]]>
  (<[360 := thunk_block]> (<[361 := thunk_block]> (<[362 := thunk_block]> (<[363 := thunk_block]> (<[364 := thunk_block]> (<[365 := thunk_block]> sample_heap)))))))))))).
Definition control_types : typing :=
  <[120 := TObj false 18 [Any 8; Val; Val]]> (<[220 := param_ty]> sample_types).
Definition control_memory (b : option nat) : memory :=
  Memory control_heap 400 b [sample_region 1 0; sample_region 2 1] 2 (Some 2) None 0 0 0 false sample_slots 2 3.
Definition guard_frame : handler := Handler 9 330 0 1.
Definition sample_thread (b : option nat) : control :=
  Control (control_memory b) 331 120 [(0, guard_frame)] [] 1 (<[390 := [Tag 1 0 5; Tag 1 0 6] ++ replicate 6 uninitialised]> ∅) None 0 (Tag 8 0 200) true.

Lemma control_ok b : mem_ok runtime_emergency_identity only_root control_types (control_memory b).
Proof.
  unfold control_types.
  split.
  - split; try done.
    + intros p τ H. map_cases H; eexists; (split; [reflexivity|]); (split; [done|]); (split; [by repeat constructor|]);
        intros i σ; slot_cases i; intros [= <-]; eexists; (split; [done|]); simpl; try done; intros _ _ _; (split; [done|]); (split; [done|]); simpl; by eexists _, _.
    + intros p τ blk i σ w H E. map_cases H; vm_compute in E; injection E as <-; slot_cases i; intros [= <-] [= <-]; (split; [|done]); intros d; simpl; intros; simplify_eq; done.
    + intros p blk H. simpl in H. unfold control_heap in H. map_cases H; done.
    + intros d Hd. apply existsb_exists in Hd as (x & Hx & ->%Z.eqb_eq).
      repeat (destruct Hx as [<-|Hx]; [by split|]). by destruct Hx.
  - intros p c sub l H. map_cases H; try match goal with H : param_ty = _ |- _ => injection H as <- <- <- end; intros k Hk; vm_compute in Hk; injection Hk as <-.
    + apply (lay_promise 18 8 []). constructor.
    + by apply lay_leaf; [repeat constructor|..].
    + apply lay_cons.
    + by apply lay_leaf; [repeat constructor|..].
    + apply (lay_vector _ 1 []). constructor.
  - intros i r Hi old e He. slot_cases i; simpl in Hi; simplify_eq; by rewrite lookup_empty in He.
  - intros i r Hi. slot_cases i; simpl in Hi; by simplify_eq.
  - apply (bool_decide_unpack _). vm_compute. exact I.
  - intros r [->|[->|[]%not_elem_of_nil]%elem_of_cons]%elem_of_cons; done.
  - intros p blk H. simpl in H. unfold control_heap in H. map_cases H; done.
  - intros a Ha. apply Z.eqb_eq in Ha as ->. done.
Qed.

Definition mute (_ : Z) (_ : list word) : CtlM word := mret null_value.
(** The thunk of the second promise delays to the first. *)
Definition delayed (t : word) : CtlM word := mret (match t with Tag _ _ 361 => Tag 8 0 130 | _ => Tag 1 0 42 end).

Lemma mute_balanced keep : balanced mute keep.
Proof. intros p args s v s' [= _ <-]. apply undisturbed_refl. Qed.
Lemma mute_civil keep n h : civil mute runtime_emergency_identity only_root keep n h.
Proof. intros p args s v s' [= _ <-]. split; [apply undisturbed_refl|]. split; [done|eauto]. Qed.
Lemma delayed_discreet t : discreet (delayed t).
Proof. by intros s v s' [= _ <-]. Qed.
Lemma sample_evaluating : evaluating control_heap 120 0 [120].
Proof. repeat (split; [done|]). eexists _, _. repeat (split; [by vm_compute; eauto|]). done. Qed.

Lemma control_value : value_word runtime_emergency_identity control_types (Tag 8 0 200).
Proof. exists 8, 0, 200. split; [done|]. intros _ _ _. split; [done|]. split; [done|]. simpl. by eexists _, _. Qed.

Lemma sample_ready b : ready runtime_emergency_identity only_root guard_frame 9 control_types (published 1000 (sample_thread b)).
Proof.
  split; [exact (control_ok b)|exact control_value|by repeat constructor|]. exists [120]. split; [exact sample_evaluating|].
  split; [simpl; lia|]. repeat constructor. by eexists.
Qed.

Lemma reroot_runs_the_crossing_witness : ∃ out inn r, [331; 330] = out ++ r ∧ [332; 330] = inn ++ r ∧
  (∀ p, p ∈ out → p ∉ [332; 330]) ∧ (∀ p, p ∈ inn → p ∉ [331; 330]) ∧
  eshkol_reroot_dynamic_wind mute 9 332 (sample_thread None) =
    (run_winds mute (crossing control_heap out inn) ;; modify (with_wind 332)) (sample_thread None).
Proof.
  apply (reroot_runs_the_crossing mute 9 (sample_thread None) 332 [331; 330] [332; 330]);
    [by repeat (split; [done|]); eexists; repeat (split; [done|]); eexists|by repeat (split; [done|]); eexists; repeat (split; [done|]); eexists|apply mute_balanced|simpl; lia].
Defined.



Definition force_sample : outcome word := codegenForce mute delayed (λ _, mret null_value) 9 (Tag 8 0 140) (sample_thread None).
Definition forced_sample : control := match force_sample with Returned _ s => s | _ => sample_thread None end.

Example force_runs : force_sample = Returned (Tag 1 0 42) forced_sample.
Proof. vm_compute. reflexivity. Qed.

Lemma force_memoizes_witness : promise_head forced_sample = 120 ∧ forced_to (the_heap forced_sample) 140 (Tag 1 0 42) ∧
  codegenForce mute (λ _, fault) (λ _, fault) 0 (Tag 8 0 140) forced_sample = Returned (Tag 1 0 42) forced_sample.
Proof.
  destruct (force_memoizes mute delayed (λ _, mret null_value) 9 (Tag 8 0 140) (sample_thread None) (Tag 1 0 42) forced_sample [120])
    as (Hh & _ & H); [exact delayed_discreet|by intros p s v s' [= _ <-]|exact sample_evaluating|exact force_runs|].
  split; [exact Hh|]. destruct (H 140) as [Hf Ha]; [exists 0; by repeat split|]. split; [exact Hf|]. exact (Ha (λ _, fault) (λ _, fault) 0%nat).
Defined.

Definition boot_thread : control := Control boot 0 0 [] [] 0 ∅ None 0 null_value false.


Lemma sample_param : param_ok control_types (sample_thread None) 220 ([Tag 1 0 5] ++ [Tag 1 0 6]) null_value.
Proof. split; [done|done|]. eexists _, 390, (replicate 6 uninitialised). by repeat (split; [reflexivity|]). Qed.

Lemma parameter_is_a_stack_witness :
  eshkol_parameter_ref 220 (sample_thread None) = Returned (Tag 1 0 6) (sample_thread None) ∧
  ∃ s', eshkol_parameter_pop 220 (sample_thread None) = Returned tt s' ∧ param_ok control_types s' 220 [Tag 1 0 5] null_value.
Proof.
  destruct (parameter_is_a_stack mute runtime_emergency_identity only_root 9 control_types (sample_thread None) 220 [Tag 1 0 5] (Tag 1 0 6) null_value (Tag 8 0 200))
    as ([Hr _] & (s' & E & _ & H) & _); [exact (control_ok None)|exact sample_param|exact control_value|done|done|].
  split; [exact Hr|]. exists s'. split; [exact E|exact H].
Defined.

(** ** What the model shows at its edges *)

Definition result_of {A} (o : outcome A) : option A := match o with Returned a _ => Some a | _ => None end.
Definition state_of {A} (o : outcome A) : option control := match o with Returned _ s => Some s | _ => None end.
Definition catch_all : list (word → CtlM (option word)) := [λ v, mret (Some v)].
Definition plain_thread : control :=
  Control (control_memory None) 0 0 [] [] 0 (<[390 := [Tag 1 0 5; Tag 1 0 6] ++ replicate 6 uninitialised]> ∅) None 0 null_value false.

(** An [after] thunk that raises and handles a 2 of its own: the handler outside, to
    which a 1 was raised, finds the 2. *)
Definition cleanup (p : Z) (_ : list word) : CtlM word :=
  if p =? 361 then codegenGuard mute 9 50 (codegenRaise mute 9 (Tag 1 0 2)) catch_all else mret null_value.
Definition run_cleanup (t : word) : CtlM word :=
  match t with Tag _ _ p => if p =? 362 then codegenRaise cleanup 9 (Tag 1 0 1) else cleanup p [] | _ => fault end.
Example after_thunk_replaces_raised_value :
  result_of (codegenGuard cleanup 9 51 (codegenDynamicWind (Tag 9 0 360) (Tag 9 0 362) (Tag 9 0 361) run_cleanup) catch_all plain_thread) = Some (Tag 1 0 2).
Proof. vm_compute. reflexivity. Qed.

(** A guard none of whose clauses applies raises again, but the guard outside finds
    the exception object in place of the 1. *)
Example reraise_loses_the_value :
  result_of (codegenGuard mute 9 51 (codegenGuard mute 9 50 (codegenRaise mute 9 (Tag 1 0 1)) [λ _, mret None]) catch_all plain_thread) = Some (Tag 8 0 400).
Proof. vm_compute. reflexivity. Qed.

Definition call_with (call : Z → list word → CtlM word) (n : Z) (k : word) : CtlM word :=
  match k with Tag _ _ p => invoke_continuation call 9 p (Tag 1 0 n) | _ => fault end.

(** A continuation that leaves a guard leaves the handler of the guard installed. *)
Example continuation_keeps_dead_handler :
  map (λ f, jmp_buf_ptr f.2) <$> (handler_stack <$>
    state_of (codegenCallCC false 60 (λ k, codegenGuard mute 9 61 (call_with mute 5 k) catch_all) plain_thread)) = Some [61].
Proof. vm_compute. reflexivity. Qed.

(** As the [after] thunk of an extent that is left, a continuation is not called: it has
    no code of its own. *)
Example continuation_thunk_is_ignored :
  result_of ((k ← eshkol_make_continuation_closure 0 0; call_thunk_from_tagged (λ _ _, fault) (Tag 9 0 k)) plain_thread) = Some tt.
Proof. vm_compute. reflexivity. Qed.

(** A thunk with five captures is called without them, which its code reads. *)
Example five_captures_are_dropped :
  (k ← arena_allocate_closure_with_header 0 77 5 0 0 0; call_thunk_from_tagged mute (Tag 9 0 k)) plain_thread = Fault.
Proof. vm_compute. reflexivity. Qed.

(** The result of a promise is stored without a write barrier: it dies with its region. *)
Example forced_value_dangles :
  ∃ s m, codegenForce mute (λ _, mret (Tag 8 0 200)) (λ _, fault) 9 (Tag 8 0 130) plain_thread = Returned (Tag 8 0 200) s ∧
    eshkol_region_unwind_to 1 [] (mem s) = Some (Passed [] m) ∧
    word_at (m_heap m) 130 2 = Some (Tag 8 0 200) ∧ m_heap m !! 200 = None.
Proof. eexists _, _. split; [vm_compute; reflexivity|]. split; [vm_compute; reflexivity|]. by split. Qed.

(** The copy of a promise that is promoted while it is evaluated stays in evaluation. *)
Example promoted_promise_never_settles :
  ∃ out m s, eshkol_region_unwind_to 0 [Tag 8 0 120] (set_stack (control_memory None) [with_pinned (sample_region 1 0) true]) = Some (Passed out m) ∧
    out = [Tag 8 0 400] ∧
    eshkol_promise_eval_commit_one 120 (Tag 1 0 42) (with_head 120 (with_mem m plain_thread)) = Returned tt s ∧
    num_at (the_heap s) 120 0 = Some 1 ∧ num_at (the_heap s) 400 0 = Some 3.
Proof. eexists _, _, _. split; [vm_compute; reflexivity|]. split; [vm_compute; reflexivity|]. split; [vm_compute; reflexivity|]. by split. Qed.

(** A binding that finds no memory is dropped, and the pop that matches it takes the one below. *)
Example dropped_push_loses_a_binding :
  let full := with_buffers (<[390 := map (Tag 1 0) (seqZ 1 8)]> ∅) (Some 0%nat)
                (with_mem (store 220 1 (Num 4 7) (control_memory None)) plain_thread) in
  result_of (eshkol_parameter_ref 220 full) = Some (Tag 1 0 8) ∧
  result_of ((eshkol_parameter_push mute 9 220 (Tag 1 0 9) ;; eshkol_parameter_pop 220 ;; eshkol_parameter_ref 220) full) = Some (Tag 1 0 7).
Proof. split; vm_compute; reflexivity. Qed.

(** A parameter and its promoted copy share one stack, which a push on the copy frees. *)
Definition pushes (n : nat) (p : Z) : CtlM unit := Nat.iter n (λ m, eshkol_parameter_push mute 9 p (Tag 1 0 7) ;; m) (mret tt).
Example promoted_parameter_frees_stack :
  ∃ m, region_evacuate_batch [Tag 8 0 220] (Some 0) (-1) (control_memory None) = Some (0, [Tag 8 0 400], m) ∧
    (pushes 6 400 ;; eshkol_parameter_ref 220) (with_mem m plain_thread) ≠ Fault ∧
    (pushes 7 400 ;; eshkol_parameter_ref 220) (with_mem m plain_thread) = Fault.
Proof. eexists. split; [vm_compute; reflexivity|]. by split; vm_compute. Qed.

(** An extent is allocated in the region that is open: a region closed within it takes it away. *)
Example extent_dies_with_region :
  (eshkol_push_dynamic_wind 2 null_value null_value ;; modify (λ s, with_mem (region_pop (mem s)) s) ;; eshkol_pop_dynamic_wind) plain_thread = Fault.
Proof. vm_compute. reflexivity. Qed.
