(* ===== verification/Macro.v ===== *)
(** * Macro: the hygienic macro expander

    [MacroExpander] of [lib/frontend/macro_expander.cpp] over the syntax tree of
    [eshkol.h]: the table of macros by scope, the matcher of [syntax-rules] patterns
    with nested ellipses, the substitution of templates with the renaming of the
    binders they introduce, and the driver that expands a program.

    A nullable pointer to a node is an [option], an array with its count is a list.
    The record of a node keeps what the expander reads: positions, annotations of
    types and the flags of a definition are copied with the node and left out.
    A [match] form is left out of the tree: its clauses are changed in place, so two
    uses of a macro share them.  The innermost scope of macros is the first of the
    list [scope_stack_], where the vector has it last.  The parser fills every array and
    has told the literals of a pattern from its variables; the list of literals that the
    matcher passes along is not read. *)

From stdpp Require Import base gmap strings pretty list.
From S2P Require Import Prelude.

(** ** The syntax tree *)

Definition ESHKOL_INVALID : Z := 0.
Definition ESHKOL_INT64 : Z := 9.
Definition ESHKOL_NULL : Z := 16.

(** What a node without children holds. *)
Inductive leaf_data := NoData | IntData (n : Z) | TextData (s : string).

(** The operations that use the layout [call_op], those that use [sequence_op], and
    the family of [let_op]. *)
Inductive call_form := CALL | COND | CASE | WHEN | UNLESS | DO | QUASIQUOTE | UNQUOTE | UNQUOTE_SPLICING | QUOTE.
Inductive sequence_form := SEQUENCE | AND | OR.
Inductive let_form := LET | LET_STAR | LETREC | LETREC_STAR.

#[export] Instance call_form_dec : EqDecision call_form.
Proof. solve_decision. Defined.
#[export] Instance let_form_dec : EqDecision let_form.
Proof. solve_decision. Defined.

(** [eshkol_macro_pattern_t]; an element of a list comes with its [followed_by_ellipsis]. *)
Inductive pattern :=
| PatLiteral (identifier : string)
| PatVariable (identifier : string)
| PatEllipsis
| PatList (elements : list (pattern * bool))
| PatImproper (elements : list (pattern * bool)) (rest : pattern).

(** [Leaf] is every node that no walk enters, [OtherOp] an operation that falls into
    the [default] of every walk. *)
Inductive ast :=
| Leaf (type : Z) (data : leaf_data)
| Var (id : string)
| Cons (car cdr : option ast)
| CallOp (form : call_form) (func : option ast) (variables : list ast)
| SequenceOp (form : sequence_form) (expressions : list ast)
| DefineOp (name : string) (value : option ast) (parameters : list ast)
| LambdaOp (parameters : list ast) (rest_param : option string) (body : option ast)
| LetOp (form : let_form) (bindings : list ast) (body : option ast) (name : option string)
| SetOp (name : string) (value : option ast)
| GuardOp (var_name : string) (clauses body : list ast)
| RaiseOp (exception : option ast)
| ValuesOp (expressions : list ast)
| CallCcOp (proc : option ast)
| DynamicWindOp (before thunk after : option ast)
| DefineSyntaxOp (macro : option macro_def)
| LetSyntaxOp (letrec : bool) (macros : list macro_def) (body : ast)
| TheOp (type_expr : Z) (expr : option ast)
| OtherOp (op : Z) (parts : list ast)
with template :=
| TplLiteral (literal : option ast)
| TplVariable (variable_name : string)
| TplList (elements : list template)
| TplEllipsis
with macro_rule := Rule (pat : option pattern) (template_ : option template)
with macro_def := MacroDef (name : string) (literals : list string) (rules : list macro_rule).

Definition macro_name (m : macro_def) : string := let '(MacroDef name _ _) := m in name.
Definition macro_rules (m : macro_def) : list macro_rule := let '(MacroDef _ _ rules) := m in rules.

(** [eshkol_ast_t{}] and the node of [eshkol_ast_make_null]. *)
Definition empty_ast : ast := Leaf ESHKOL_INVALID NoData.
Definition null_ast : ast := Leaf ESHKOL_NULL NoData.

(** [MatchTree] and [Bindings] *)
Inductive match_tree := Tree (depth : nat) (scalar : ast) (elements : list match_tree).

Definition tree_depth (t : match_tree) : nat := let '(Tree d _ _) := t in d.
Definition tree_scalar (t : match_tree) : ast := let '(Tree _ a _) := t in a.
Definition tree_elements (t : match_tree) : list match_tree := let '(Tree _ _ l) := t in l.

Notation bindings := (gmap string match_tree).

(** ** The state of the expander

    [rename_counter_] counts the names allocated; the [uint64_t] of the code is this
    number modulo 2^64.  [log] is the text given to [eshkol_error], the last first. *)
Record expander := Expander {
  scope_stack_ : list (gmap string macro_def);
  active_renames_ : gmap string string;
  rename_counter_ : N;
  in_datum_ : bool;
  log : list string;
}.

(** A call ends in a state, or reads the front of an empty vector, or would need more
    rounds than it is given. *)
Inductive result (A : Type) := Done (a : A) (s : expander) | Undefined | OutOfRounds.
Arguments Done {A} a s.
Arguments Undefined {A}.
Arguments OutOfRounds {A}.

Definition ExpM (A : Type) : Type := expander → result A.

#[export] Instance exp_ret : MRet ExpM := λ A a s, Done a s.
#[export] Instance exp_bind : MBind ExpM := λ A B f m s,
  match m s with Done a s' => f a s' | Undefined => Undefined | OutOfRounds => OutOfRounds end.

Definition get : ExpM expander := λ s, Done s s.
Definition undefined_behaviour {A} : ExpM A := λ _, Undefined.

Definition set_scopes (sc : list (gmap string macro_def)) : ExpM () := λ s,
  Done () (Expander sc (active_renames_ s) (rename_counter_ s) (in_datum_ s) (log s)).
Definition set_renames (rn : gmap string string) : ExpM () := λ s,
  Done () (Expander (scope_stack_ s) rn (rename_counter_ s) (in_datum_ s) (log s)).
Definition set_counter (c : N) : ExpM () := λ s,
  Done () (Expander (scope_stack_ s) (active_renames_ s) c (in_datum_ s) (log s)).
Definition set_datum (b : bool) : ExpM () := λ s,
  Done () (Expander (scope_stack_ s) (active_renames_ s) (rename_counter_ s) b (log s)).
Definition eshkol_error (text : string) : ExpM () := λ s,
  Done () (Expander (scope_stack_ s) (active_renames_ s) (rename_counter_ s) (in_datum_ s) (text :: log s)).

(** Saving [active_renames_] around a binding form, and [in_datum_] around a call form. *)
Definition scoped_renames {A} (m : ExpM A) : ExpM A :=
  s ← get; r ← m; _ ← set_renames (active_renames_ s); mret r.

Definition scoped_datum {A} (enter : bool → bool) (m : ExpM A) : ExpM A :=
  s ← get; _ ← set_datum (enter (in_datum_ s)); r ← m; _ ← set_datum (in_datum_ s); mret r.

(** Walks over an optional node and over an array. *)
Section Walk.
Context {A B : Type} (f : A → ExpM B).

Definition opt_walk (o : option A) : ExpM (option B) :=
  match o with Some a => r ← f a; mret (Some r) | None => mret None end.

Fixpoint list_walk (l : list A) : ExpM (list B) :=
  match l with [] => mret [] | a :: l' => r ← f a; r' ← list_walk l'; mret (r :: r') end.
End Walk.

(** ** Scopes of macros *)

Definition new_expander : expander := Expander [∅] ∅ 0 false [].

Definition pushScope : ExpM () := s ← get; set_scopes (∅ :: scope_stack_ s).

Definition popScope : ExpM () :=
  s ← get;
  if decide (1 < length (scope_stack_ s))%nat then set_scopes (tail (scope_stack_ s)) else mret ().

Definition registerMacro (m : macro_def) : ExpM () :=
  s ← get;
  match scope_stack_ s with
  | [] => mret ()
  | innermost :: outer => set_scopes (<[macro_name m := m]> innermost :: outer)
  end.

Fixpoint find_scope (scopes : list (gmap string macro_def)) (name : string) : option macro_def :=
  match scopes with
  | [] => None
  | scope :: outer => match scope !! name with Some m => Some m | None => find_scope outer name end
  end.

Definition lookupMacro (name : string) : ExpM (option macro_def) := s ← get; mret (find_scope (scope_stack_ s) name).

Definition isMacro (name : string) : ExpM bool := m ← lookupMacro name; mret (bool_decide (is_Some m)).

(** ** Matching a pattern *)

Definition isSymbol (a : ast) (name : string) : bool := match a with Var id => String.eqb id name | _ => false end.

Definition isEllipsisSymbol (a : ast) : bool := isSymbol a "...".

(** The pattern variables of [pattern] with their depth of ellipses, from [depth]. *)
Fixpoint collectPatternVarDepths (p : pattern) (depth : nat) (out : gmap string nat) : gmap string nat :=
  match p with
  | PatVariable name => if String.eqb name "" || String.eqb name "_" then out else <[name := depth]> out
  | PatList elements =>
      (fix go (els : list (pattern * bool)) (out : gmap string nat) := match els with
       | [] => out
       | (child, ell) :: els' =>
           go els' (collectPatternVarDepths child (if (ell : bool) then S depth else depth) out)
       end) elements out
  | _ => out
  end.

(** The tree of a variable under an ellipsis: one element for each repetition. *)
Definition merge_tree (subs : list bindings) (name : string) (child_depth : nat) : match_tree :=
  Tree (S child_depth) empty_ast
    (map (λ sub : bindings, match sub !! name with Some t => t | None => Tree child_depth empty_ast [] end) subs).

Definition merge_repetitions (elem : pattern) (subs : list bindings) (B : bindings) : bindings :=
  map_imap (λ name d, Some (merge_tree subs name d)) (collectPatternVarDepths elem 0 ∅) ∪ B.

Section Sequence.
Context (matchPattern : pattern → ast → bindings → option bindings).

(** Each of [args] matched against [elem], with bindings of its own. *)
Definition match_repetitions (elem : pattern) : list ast → option (list bindings) :=
  fix go (args : list ast) : option (list bindings) :=
    match args with
    | [] => Some []
    | a :: args' => sub ← matchPattern elem a ∅; subs ← go args'; Some (sub :: subs)
    end.

(** An element followed by an ellipsis takes all the arguments that are left. *)
Fixpoint matchPatternSeqWith (elements : list (pattern * bool)) (args : list ast) (B : bindings) : option bindings :=
  match elements with
  | [] => match args with [] => Some B | _ => None end
  | (elem, true) :: elements' =>
      subs ← match_repetitions elem args;
      matchPatternSeqWith elements' [] (merge_repetitions elem subs B)
  | (elem, false) :: elements' =>
      match args with
      | [] => None
      | a :: args' => B' ← matchPattern elem a B; matchPatternSeqWith elements' args' B'
      end
  end.
End Sequence.

Fixpoint matchPattern (p : pattern) (a : ast) (B : bindings) {struct p} : option bindings :=
  match p with
  | PatVariable var_name => if String.eqb var_name "_" then Some B else Some (<[var_name := Tree 0 a []]> B)
  | PatLiteral lit_name => if isSymbol a lit_name then Some B else None
  | PatList elements =>
      match a with
      | CallOp CALL (Some func) variables => matchPatternSeqWith matchPattern elements (func :: variables) B
      | _ => None
      end
  | _ => None
  end.

Definition matchPatternSeq : list (pattern * bool) → list ast → bindings → option bindings := matchPatternSeqWith matchPattern.

(** ** Match trees *)

Definition matchTreeHasValue (t : match_tree) : bool :=
  match tree_depth t with O => true | S _ => negb (bool_decide (tree_elements t = [])) end.

(** [None] is the call of [front] on an empty vector. *)
Fixpoint matchTreeFirstScalar (t : match_tree) : option ast :=
  match t with
  | Tree O scalar _ => Some scalar
  | Tree (S _) _ [] => None
  | Tree (S _) _ (t0 :: _) => matchTreeFirstScalar t0
  end.

Definition peel_tree (index : nat) (t : match_tree) : match_tree :=
  match tree_depth t with
  | O => t
  | S d => match tree_elements t !! (min index (length (tree_elements t) - 1)) with
           | Some t' => t'
           | None => Tree d empty_ast []
           end
  end.

Definition peelBindingsAtIndex (B : bindings) (index : nat) : bindings := peel_tree index <$> B.

Definition or_find (o : option string) (o' : option string) : option string :=
  match o with Some x => Some x | None => o' end.

Definition opt_find (f : ast → option string) (o : option ast) : option string :=
  match o with Some a => f a | None => None end.

Definition list_find (f : ast → option string) : list ast → option string :=
  fix go (l : list ast) : option string := match l with [] => None | a :: l' => or_find (f a) (go l') end.

Fixpoint findEllipsisDriver (B : bindings) (a : ast) {struct a} : option string :=
  match a with
  | Var name =>
      match B !! name with
      | Some t => if decide (1 <= tree_depth t)%nat then Some name else None
      | None => None
      end
  | Cons car cdr => or_find (opt_find (findEllipsisDriver B) car) (opt_find (findEllipsisDriver B) cdr)
  | CallOp _ func variables => or_find (opt_find (findEllipsisDriver B) func) (list_find (findEllipsisDriver B) variables)
  | SequenceOp _ expressions => list_find (findEllipsisDriver B) expressions
  | DefineOp _ value _ => opt_find (findEllipsisDriver B) value
  | LambdaOp _ _ body => opt_find (findEllipsisDriver B) body
  | LetOp _ lets body _ => or_find (list_find (findEllipsisDriver B) lets) (opt_find (findEllipsisDriver B) body)
  | SetOp _ value => opt_find (findEllipsisDriver B) value
  | GuardOp _ clauses body => or_find (list_find (findEllipsisDriver B) clauses) (list_find (findEllipsisDriver B) body)
  | RaiseOp exception => opt_find (findEllipsisDriver B) exception
  | ValuesOp expressions => list_find (findEllipsisDriver B) expressions
  | CallCcOp proc => opt_find (findEllipsisDriver B) proc
  | DynamicWindOp before thunk after =>
      or_find (opt_find (findEllipsisDriver B) before)
        (or_find (opt_find (findEllipsisDriver B) thunk) (opt_find (findEllipsisDriver B) after))
  | _ => None
  end.

(** ** Fresh names *)

Definition fresh_name (counter : N) (name : string) : string :=
  "_h" +:+ pretty (counter `mod` 2 ^ 64)%N +:+ "." +:+ name.

Definition freshName (name : string) : ExpM string :=
  s ← get;
  let fresh := fresh_name (rename_counter_ s) name in
  _ ← set_counter (rename_counter_ s + 1)%N;
  _ ← set_renames (<[name := fresh]> (active_renames_ s));
  mret fresh.

Definition isRenameableBinder (name : string) (B : bindings) : bool :=
  if String.eqb name "" || String.eqb name "_" then false else bool_decide (B !! name = None).

(** A binder that is a node, and one that is a name kept in the record of its form. *)
Definition rename_node (B : bindings) (p : ast) : ExpM () :=
  match p with
  | Var name => if isRenameableBinder name B then _ ← freshName name; mret () else mret ()
  | _ => mret ()
  end.

Definition rename_field (B : bindings) (name : string) : ExpM string :=
  if isRenameableBinder name B then freshName name else mret name.

(** ** Lists with ellipses *)

Fixpoint count_ellipses (items : list ast) : nat :=
  match items with a :: items' => if isEllipsisSymbol a then S (count_ellipses items') else O | [] => O end.

Definition misplaced_ellipsis : string := "misplaced ellipsis in macro template".

(** [instantiate] is the substitution of the element; [more] is [ellipsis_count - 1]. *)
Fixpoint expandEllipsisElementN (instantiate : bindings → ExpM ast) (a : ast) (more : nat) (B : bindings) : ExpM (list ast) :=
  match findEllipsisDriver B a with
  | None => _ ← eshkol_error misplaced_ellipsis; r ← instantiate B; mret [r]
  | Some drive =>
      let n := match B !! drive with Some t => length (tree_elements t) | None => O end in
      rs ← list_walk (λ i,
        let peeled := peelBindingsAtIndex B i in
        match more with
        | O => r ← instantiate peeled; mret [r]
        | S more' => expandEllipsisElementN instantiate a more' peeled
        end) (seq 0 n);
      mret (concat rs)
  end.

Section Substitution.
Context (substituteBindings : ast → bindings → ExpM ast).

(** [skip] markers in front of [items] belong to the element before. *)
Definition substitute_items (B : bindings) : nat → list ast → ExpM (list ast) :=
  fix go (skip : nat) (items : list ast) : ExpM (list ast) :=
    match items with
    | [] => mret []
    | a :: items' =>
        match skip with
        | S skip' => go skip' items'
        | O =>
            match count_ellipses items' with
            | S more =>
                expanded ← expandEllipsisElementN (substituteBindings a) a more B;
                rest ← go (S more) items'; mret (expanded ++ rest)
            | O =>
                if isEllipsisSymbol a then _ ← eshkol_error misplaced_ellipsis; go O items'
                else r ← substituteBindings a B; rest ← go O items'; mret (r :: rest)
            end
        end
    end.

Definition substituteBindingsInList (items : list ast) (B : bindings) : ExpM (list ast) := substitute_items B O items.

Definition substitute_opt (B : bindings) (o : option ast) : ExpM (option ast) :=
  match o with Some a => r ← substituteBindings a B; mret (Some r) | None => mret None end.

(** The children of a cons cell: a missing one becomes an empty node. *)
Definition substitute_child (B : bindings) (o : option ast) : ExpM (option ast) :=
  match o with Some a => r ← substituteBindings a B; mret (Some r) | None => mret (Some empty_ast) end.

Definition substitute_each (B : bindings) : list ast → ExpM (list ast) := list_walk (λ a, substituteBindings a B).

(** Parameters: each is renamed, then replaced. *)
Definition substitute_params (B : bindings) : list ast → ExpM (list ast) :=
  list_walk (λ p, _ ← rename_node B p; substituteBindings p B).

(** A binding of a [let] is a cons cell of its variable and its value. *)
Definition binding_var (b : ast) : option ast := match b with Cons (Some car) _ => Some car | _ => None end.

Definition rename_binding (B : bindings) (b : ast) : ExpM () :=
  match binding_var b with Some car => rename_node B car | None => mret () end.

(** Pass 1: the values, [None] for an element that is not a binding. *)
Definition substitute_inits (is_seq : bool) (B : bindings) : list ast → ExpM (list (option ast)) :=
  list_walk (λ b,
    match b with
    | Cons (Some car) cdr =>
        init ← match cdr with Some e => substituteBindings e B | None => mret empty_ast end;
        _ ← (if is_seq then rename_node B car else mret ());
        mret (Some init)
    | _ => mret None
    end).

(** Pass 2: the variables, with the values of pass 1. *)
Definition substitute_binders (B : bindings) : list ast → list (option ast) → ExpM (list ast) :=
  fix go (lets : list ast) (inits : list (option ast)) : ExpM (list ast) :=
    match lets, inits with
    | b :: lets', init :: inits' =>
        nb ← match b, init with
             | Cons (Some car) _, Some i => r ← substituteBindings car B; mret (Cons (Some r) (Some i))
             | _, _ => substituteBindings b B
             end;
        rest ← go lets' inits'; mret (nb :: rest)
    | _, _ => mret []
    end.

Definition substitute_let (form : let_form) (lets : list ast) (body : option ast) (name : option string) (B : bindings) : ExpM ast :=
  let is_rec := bool_decide (form = LETREC) || bool_decide (form = LETREC_STAR) in
  let is_seq := bool_decide (form = LET_STAR) in
  scoped_renames (
    _ ← (if is_rec then list_walk (rename_binding B) lets else mret []);
    name' ← opt_walk (rename_field B) name;
    inits ← substitute_inits is_seq B lets;
    _ ← (if is_rec || is_seq then mret [] else list_walk (rename_binding B) lets);
    lets' ← substitute_binders B lets inits;
    body' ← substitute_opt B body;
    mret (LetOp form lets' body' name')).
End Substitution.

(** The value of a pattern variable: [None] when it has none. *)
Definition bound_value (B : bindings) (name : string) : ExpM (option ast) :=
  match B !! name with
  | Some t =>
      if matchTreeHasValue t
      then match matchTreeFirstScalar t with Some a => mret (Some a) | None => undefined_behaviour end
      else mret None
  | None => mret None
  end.

(** The target of [set!] is a name, not a node. *)
Definition substitute_target (B : bindings) (target : string) : ExpM string :=
  v ← bound_value B target;
  match v with
  | Some (Var id) => mret id
  | Some _ => mret target
  | None => s ← get; mret (match active_renames_ s !! target with Some fresh => fresh | None => target end)
  end.

Definition substitute_var (B : bindings) (name : string) : ExpM ast :=
  v ← bound_value B name;
  match v with
  | Some a => mret a
  | None =>
      s ← get;
      match active_renames_ s !! name with
      | Some fresh => mret (Var (if in_datum_ s then name else fresh))
      | None => mret (Var name)
      end
  end.

(** Quoted data hold symbols, an unquoted part holds identifiers again. *)
Definition enter_form (form : call_form) (in_datum : bool) : bool :=
  match form with QUOTE | QUASIQUOTE => true | UNQUOTE | UNQUOTE_SPLICING => false | _ => in_datum end.

Fixpoint substituteBindings (a : ast) (B : bindings) {struct a} : ExpM ast :=
  match a with
  | Var name => substitute_var B name
  | Cons car cdr =>
      car' ← substitute_child substituteBindings B car;
      cdr' ← substitute_child substituteBindings B cdr;
      mret (Cons car' cdr')
  | CallOp form func variables =>
      scoped_datum (enter_form form) (
        func' ← substitute_opt substituteBindings B func;
        variables' ← substituteBindingsInList substituteBindings variables B;
        mret (CallOp form func' variables'))
  | SequenceOp form expressions =>
      expressions' ← substituteBindingsInList substituteBindings expressions B;
      mret (SequenceOp form expressions')
  | DefineOp name value parameters =>
      value' ← substitute_opt substituteBindings B value;
      mret (DefineOp name value' parameters)
  | LambdaOp parameters rest_param body =>
      scoped_renames (
        parameters' ← substitute_params substituteBindings B parameters;
        rest_param' ← opt_walk (rename_field B) rest_param;
        body' ← substitute_opt substituteBindings B body;
        mret (LambdaOp parameters' rest_param' body'))
  | LetOp form lets body name => substitute_let substituteBindings form lets body name B
  | SetOp name value =>
      name' ← substitute_target B name;
      value' ← substitute_opt substituteBindings B value;
      mret (SetOp name' value')
  | GuardOp var_name clauses body =>
      clauses' ← substitute_each substituteBindings B clauses;
      body' ← substituteBindingsInList substituteBindings body B;
      mret (GuardOp var_name clauses' body')
  | RaiseOp exception =>
      exception' ← substitute_opt substituteBindings B exception;
      mret (RaiseOp exception')
  | ValuesOp expressions =>
      expressions' ← substituteBindingsInList substituteBindings expressions B;
      mret (ValuesOp expressions')
  | CallCcOp proc =>
      proc' ← substitute_opt substituteBindings B proc;
      mret (CallCcOp proc')
  | DynamicWindOp before thunk after =>
      before' ← substitute_opt substituteBindings B before;
      thunk' ← substitute_opt substituteBindings B thunk;
      after' ← substitute_opt substituteBindings B after;
      mret (DynamicWindOp before' thunk' after')
  | _ => mret a
  end.

(** ** Expanding a macro call *)

(** A call built from the instantiated elements of a list template. *)
Definition build_call (expanded : list ast) : ast :=
  match expanded with [] => null_ast | func :: variables => CallOp CALL (Some func) variables end.

Fixpoint instantiateTemplate (t : template) (B : bindings) : ExpM ast :=
  _ ← set_renames ∅;
  match t with
  | TplLiteral (Some literal) => substituteBindings literal B
  | TplLiteral None => mret null_ast
  | TplVariable variable_name => v ← bound_value B variable_name; mret (match v with Some a => a | None => Var variable_name end)
  | TplList elements => expanded ← list_walk (λ e, instantiateTemplate e B) elements; mret (build_call expanded)
  | TplEllipsis => mret null_ast
  end.

Definition no_matching_pattern (name : string) : string := "syntax error: no matching pattern for macro '" +:+ name +:+ "'".

(** The first rule whose pattern matches; the first element of a pattern is skipped. *)
Fixpoint first_matching_rule (rules : list macro_rule) (args : list ast) : option (template * bindings) :=
  match rules with
  | [] => None
  | Rule (Some (PatList elements)) (Some t) :: rules' =>
      match matchPatternSeq (tail elements) args ∅ with
      | Some B => Some (t, B)
      | None => first_matching_rule rules' args
      end
  | _ :: rules' => first_matching_rule rules' args
  end.

Definition tryExpandMacroCall (name : string) (args : list ast) : ExpM ast :=
  m ← lookupMacro name;
  match m with
  | None => mret (CallOp CALL (Some (Var name)) args)
  | Some macro =>
      match first_matching_rule (macro_rules macro) args with
      | Some (t, B) => instantiateTemplate t B
      | None => _ ← eshkol_error (no_matching_pattern name); mret (CallOp CALL (Some (Var name)) args)
      end
  end.

(** ** Expanding a node *)

(** The loop at a node ends with the node that is returned, or with one whose parts
    are to be expanded. *)
Inductive node_exit := Return (a : ast) | Descend (a : ast).

Definition circular_expansion (name : string) : string :=
  "Circular macro expansion detected: '" +:+ name +:+ "' expands back to itself".
Definition depth_exceeded : string := "macro expansion depth limit exceeded (>1000)".

Section Node.
Context (expandNode : ast → ExpM ast).

Fixpoint expand_loop (rounds : nat) (expansion_chain : gset string) (current : ast) : ExpM node_exit :=
  match current with
  | DefineSyntaxOp macro =>
      _ ← match macro with Some m => registerMacro m | None => mret () end;
      mret (Return null_ast)
  | LetSyntaxOp _ macros body =>
      _ ← pushScope;
      _ ← list_walk registerMacro macros;
      expanded_body ← expandNode body;
      _ ← popScope;
      mret (Return expanded_body)
  | CallOp CALL (Some (Var func_name)) args =>
      known ← isMacro func_name;
      if (known : bool) then
        if decide (func_name ∈ expansion_chain) then _ ← eshkol_error (circular_expansion func_name); mret (Return current)
        else match rounds with
             | O => λ _, OutOfRounds
             | S rounds' =>
                 next ← tryExpandMacroCall func_name args;
                 expand_loop rounds' ({[func_name]} ∪ expansion_chain) next
             end
      else mret (Descend current)
  | _ => mret (Descend current)
  end.

Definition expand_opt : option ast → ExpM (option ast) := opt_walk expandNode.
Definition expand_list : list ast → ExpM (list ast) := list_walk expandNode.

(** The value of a binding. *)
Definition expand_binding (b : ast) : ExpM ast :=
  match b with Cons car (Some cdr) => cdr' ← expandNode cdr; mret (Cons car (Some cdr')) | _ => mret b end.

Definition expand_parts (current : ast) : ExpM ast :=
  match current with
  | CallOp QUOTE func variables => mret current
  | CallOp form func variables =>
      func' ← expand_opt func; variables' ← expand_list variables; mret (CallOp form func' variables')
  | SequenceOp form expressions => expressions' ← expand_list expressions; mret (SequenceOp form expressions')
  | DefineOp name value parameters => value' ← expand_opt value; mret (DefineOp name value' parameters)
  | LambdaOp parameters rest_param body => body' ← expand_opt body; mret (LambdaOp parameters rest_param body')
  | LetOp form lets body name =>
      lets' ← list_walk expand_binding lets; body' ← expand_opt body; mret (LetOp form lets' body' name)
  | SetOp name value => value' ← expand_opt value; mret (SetOp name value')
  | GuardOp var_name clauses body =>
      clauses' ← expand_list clauses; body' ← expand_list body; mret (GuardOp var_name clauses' body')
  | RaiseOp exception => exception' ← expand_opt exception; mret (RaiseOp exception')
  | ValuesOp expressions => expressions' ← expand_list expressions; mret (ValuesOp expressions')
  | CallCcOp proc => proc' ← expand_opt proc; mret (CallCcOp proc')
  | DynamicWindOp before thunk after =>
      before' ← expand_opt before; thunk' ← expand_opt thunk; after' ← expand_opt after;
      mret (DynamicWindOp before' thunk' after')
  | TheOp type_expr expr => expr' ← expand_opt expr; mret (TheOp type_expr expr')
  | _ => mret current
  end.
End Node.

(** The names of the macros in scope; a chain has no name twice. *)
Definition macro_names (scopes : list (gmap string macro_def)) : gset string := ⋃ (dom <$> scopes).

(** [left] is 1000 less [expansion_depth]: the calls that may still be nested. *)
Fixpoint expandNode (left : nat) (a : ast) : ExpM ast :=
  match left with
  | O => _ ← eshkol_error depth_exceeded; mret a
  | S left' =>
      s ← get;
      exit ← expand_loop (expandNode left') (size (macro_names (scope_stack_ s))) ∅ a;
      match exit with
      | Return r => mret r
      | Descend current => expand_parts (expandNode left') current
      end
  end.

Definition expand : ast → ExpM ast := expandNode 1000.

Definition is_define_syntax (a : ast) : bool := match a with DefineSyntaxOp _ => true | _ => false end.

(** All macros of the top level first, then the other forms. *)
Definition register_top (a : ast) : ExpM () := match a with DefineSyntaxOp (Some m) => registerMacro m | _ => mret () end.

Definition expandAll (asts : list ast) : ExpM (list ast) :=
  _ ← list_walk register_top asts;
  list_walk expand (filter (λ a, is_define_syntax a = false) asts).
