(* ===== verification/MacroSpec.v ===== *)
(** * MacroSpec: lemmas about the macro expander

    Induction over syntax trees, inversion of the expander's monad, the matcher and the
    substitution as inverses of each other, and the calls that keep the state. *)

From stdpp Require Import base gmap strings pretty list.
From S2P Require Import Prelude Macro.

(** ** Induction over syntax trees

    In a binding of a [let] the hypothesis is about the variable and the value. *)

Definition opt_all {A} (P : A → Prop) (o : option A) : Prop := match o with Some a => P a | None => True end.

Definition binding_all (P : ast → Prop) (b : ast) : Prop :=
  P b ∧ match b with Cons car cdr => opt_all P car ∧ opt_all P cdr | _ => True end.

Section Induction.
Context (P : ast → Prop).
Hypothesis HLeaf : ∀ type data, P (Leaf type data).
Hypothesis HVar : ∀ id, P (Var id).
Hypothesis HCons : ∀ car cdr, opt_all P car → opt_all P cdr → P (Cons car cdr).
Hypothesis HCall : ∀ form func l, opt_all P func → Forall P l → P (CallOp form func l).
Hypothesis HSequence : ∀ form l, Forall P l → P (SequenceOp form l).
Hypothesis HDefine : ∀ name value parameters, opt_all P value → P (DefineOp name value parameters).
Hypothesis HLambda : ∀ parameters rest body, Forall P parameters → opt_all P body → P (LambdaOp parameters rest body).
Hypothesis HLet : ∀ form lets body name, Forall (binding_all P) lets → opt_all P body → P (LetOp form lets body name).
Hypothesis HSet : ∀ name value, opt_all P value → P (SetOp name value).
Hypothesis HGuard : ∀ var_name clauses body, Forall P clauses → Forall P body → P (GuardOp var_name clauses body).
Hypothesis HRaise : ∀ e, opt_all P e → P (RaiseOp e).
Hypothesis HValues : ∀ l, Forall P l → P (ValuesOp l).
Hypothesis HCallCc : ∀ proc, opt_all P proc → P (CallCcOp proc).
Hypothesis HWind : ∀ before thunk after, opt_all P before → opt_all P thunk → opt_all P after → P (DynamicWindOp before thunk after).
Hypothesis HDefineSyntax : ∀ m, P (DefineSyntaxOp m).
Hypothesis HLetSyntax : ∀ r ms body, P (LetSyntaxOp r ms body).
Hypothesis HThe : ∀ t e, opt_all P e → P (TheOp t e).
Hypothesis HOther : ∀ op parts, Forall P parts → P (OtherOp op parts).

Definition opt_each {A} (Q : A → Prop) (f : ∀ x, Q x) (o : option A) : opt_all Q o :=
  match o with Some a => f a | None => I end.

Fixpoint ast_deep_ind (a : ast) : P a :=
  match a with
  | Leaf type data => HLeaf type data
  | Var id => HVar id
  | Cons car cdr => HCons car cdr (opt_each P ast_deep_ind car) (opt_each P ast_deep_ind cdr)
  | CallOp form func l => HCall form func l (opt_each P ast_deep_ind func) (forall_each P ast_deep_ind l)
  | SequenceOp form l => HSequence form l (forall_each P ast_deep_ind l)
  | DefineOp name value ps => HDefine name value ps (opt_each P ast_deep_ind value)
  | LambdaOp ps rest body => HLambda ps rest body (forall_each P ast_deep_ind ps) (opt_each P ast_deep_ind body)
  | LetOp form lets body name =>
      HLet form lets body name
        (forall_each (binding_all P)
           (λ b, conj (ast_deep_ind b)
              match b return (match b with Cons car cdr => opt_all P car ∧ opt_all P cdr | _ => True end) with
              | Cons car cdr => conj (opt_each P ast_deep_ind car) (opt_each P ast_deep_ind cdr)
              | _ => I
              end) lets)
        (opt_each P ast_deep_ind body)
  | SetOp name value => HSet name value (opt_each P ast_deep_ind value)
  | GuardOp v cs body => HGuard v cs body (forall_each P ast_deep_ind cs) (forall_each P ast_deep_ind body)
  | RaiseOp e => HRaise e (opt_each P ast_deep_ind e)
  | ValuesOp l => HValues l (forall_each P ast_deep_ind l)
  | CallCcOp p => HCallCc p (opt_each P ast_deep_ind p)
  | DynamicWindOp b t c => HWind b t c (opt_each P ast_deep_ind b) (opt_each P ast_deep_ind t) (opt_each P ast_deep_ind c)
  | DefineSyntaxOp m => HDefineSyntax m
  | LetSyntaxOp r ms body => HLetSyntax r ms body
  | TheOp t e => HThe t e (opt_each P ast_deep_ind e)
  | OtherOp op parts => HOther op parts (forall_each P ast_deep_ind parts)
  end.
End Induction.

(** ** Running the monad *)

Lemma bind_done {A B} (m : ExpM A) (f : A → ExpM B) s a s1 : m s = Done a s1 → (m ≫= f) s = f a s1.
Proof. intros E. unfold mbind, exp_bind. by rewrite E. Qed.

Lemma bind_inv {A B} (m : ExpM A) (f : A → ExpM B) s r s' :
  (m ≫= f) s = Done r s' → ∃ a s1, m s = Done a s1 ∧ f a s1 = Done r s'.
Proof. unfold mbind, exp_bind. destruct (m s) as [a s1| |]; naive_solver. Qed.

(** [run H] takes apart a call that ended: [H] becomes one equation for each step. *)
Ltac run H :=
  lazymatch type of H with
  | (_ ≫= _) _ = Done _ _ =>
      let a := fresh "a" in let s1 := fresh "s" in let E := fresh "E" in
      apply bind_inv in H as (a & s1 & E & H); run H
  | mret _ _ = Done _ _ => unfold mret, exp_ret in H; simplify_eq
  | _ => idtac
  end.

Lemma list_walk_done {A B} (f : A → ExpM B) (s : expander) l rs :
  Forall2 (λ a r, f a s = Done r s) l rs → list_walk f l s = Done rs s.
Proof.
  induction 1 as [|a r l rs Ha _ IH]; [done|]. simpl.
  rewrite (bind_done _ _ _ _ _ Ha), (bind_done _ _ _ _ _ IH). done.
Qed.

Lemma scoped_datum_done {A} enter (m : ExpM A) s a s' :
  m (Expander (scope_stack_ s) (active_renames_ s) (rename_counter_ s) (enter (in_datum_ s)) (log s)) = Done a s' →
  scoped_datum enter m s = Done a (Expander (scope_stack_ s') (active_renames_ s') (rename_counter_ s') (in_datum_ s) (log s')).
Proof.
  intros E. unfold scoped_datum. rewrite (bind_done get _ s s s) by done.
  erewrite bind_done by (unfold set_datum; done). by rewrite (bind_done _ _ _ _ _ E).
Qed.

(** ** Patterns as templates *)

Section PatternInduction.
Context (P : pattern → Prop).
Hypothesis HLit : ∀ x, P (PatLiteral x).
Hypothesis HPVar : ∀ x, P (PatVariable x).
Hypothesis HEll : P PatEllipsis.
Hypothesis HList : ∀ els, Forall (λ e : pattern * bool, P e.1) els → P (PatList els).
Hypothesis HImp : ∀ els rest, P (PatImproper els rest).

Fixpoint pattern_deep_ind (p : pattern) : P p :=
  match p with
  | PatLiteral x => HLit x
  | PatVariable x => HPVar x
  | PatEllipsis => HEll
  | PatList els => HList els (forall_each _ (λ e : pattern * bool, match e return P e.1 with (q, _) => pattern_deep_ind q end) els)
  | PatImproper els rest => HImp els rest
  end.
End PatternInduction.

(** The variables and the literals of a pattern, in order. *)
Fixpoint pat_vars (p : pattern) : list string :=
  match p with
  | PatVariable x => if String.eqb x "_" then [] else [x]
  | PatList els => (fix go (els : list (pattern * bool)) := match els with [] => [] | (e, _) :: els' => pat_vars e ++ go els' end) els
  | _ => []
  end.
Definition seq_vars (els : list (pattern * bool)) : list string := pat_vars (PatList els).

Fixpoint pat_literals (p : pattern) : list string :=
  match p with
  | PatLiteral x => [x]
  | PatList els => (fix go (els : list (pattern * bool)) := match els with [] => [] | (e, _) :: els' => pat_literals e ++ go els' end) els
  | _ => []
  end.
Definition seq_literals (els : list (pattern * bool)) : list string := pat_literals (PatList els).

(** The template that is written like the pattern. *)
Fixpoint template_of (p : pattern) : ast :=
  match p with
  | PatLiteral x | PatVariable x => Var x
  | PatList els =>
      build_call ((fix go (els : list (pattern * bool)) := match els with
                   | [] => []
                   | (e, ell) :: els' => template_of e :: (if (ell : bool) then [Var "..."] else []) ++ go els'
                   end) els)
  | _ => null_ast
  end.
Fixpoint template_seq (els : list (pattern * bool)) : list ast :=
  match els with
  | [] => []
  | (e, ell) :: els' => template_of e :: (if (ell : bool) then [Var "..."] else []) ++ template_seq els'
  end.

Lemma template_of_list els : template_of (PatList els) = build_call (template_seq els).
Proof. done. Qed.

(** Every variable can be written in a template: no wildcard; an ellipsis repeats a
    variable, and does not follow the first element of a nested list. *)
Fixpoint rebuildable (p : pattern) : Prop :=
  match p with
  | PatVariable x => x ∉ [""; "_"; "..."]
  | PatLiteral x => x ≠ "..."
  | PatList els =>
      match els with (_, false) :: _ => True | _ => False end ∧
      (fix go (els : list (pattern * bool)) := match els with
       | [] => True
       | (e, ell) :: els' => rebuildable e ∧ ((ell : bool) = true → pat_vars e ≠ []) ∧ go els'
       end) els
  | _ => False
  end.
Fixpoint rebuildable_seq (els : list (pattern * bool)) : Prop :=
  match els with
  | [] => True
  | (e, ell) :: els' => rebuildable e ∧ ((ell : bool) = true → pat_vars e ≠ []) ∧ rebuildable_seq els'
  end.

Lemma rebuildable_list els :
  rebuildable (PatList els) ↔ match els with (_, false) :: _ => True | _ => False end ∧ rebuildable_seq els.
Proof. done. Qed.

(** ** What a match binds *)

Lemma collect_spec p : ∀ depth out x, rebuildable p →
  (x ∈ pat_vars p → is_Some (collectPatternVarDepths p depth out !! x)) ∧
  (x ∉ pat_vars p → collectPatternVarDepths p depth out !! x = out !! x).
Proof.
  induction p as [y|y| |els IH|els rest] using pattern_deep_ind; intros depth out x Hp; simpl in Hp; try done.
  - simpl. split; [set_solver|done].
  - simpl. destruct (String.eqb_spec y ""), (String.eqb_spec y "_"); simpl; [set_solver..|]. split.
    + intros ->%list_elem_of_singleton. rewrite lookup_insert_eq. by eexists.
    + intros ?. apply lookup_insert_ne. set_solver.
  - apply rebuildable_list in Hp as [_ Hp]. simpl. revert out.
    induction IH as [|[e ell] els He _ IHl]; intros out; simpl in *; [split; [set_solver|done]|].
    destruct Hp as (Hpe & _ & Hps). specialize (IHl Hps (collectPatternVarDepths e (if ell then S depth else depth) out)) as [H1 H2].
    specialize (He (if ell then S depth else depth) out x Hpe) as [H3 H4]. split.
    + intros [Hx|Hx]%elem_of_app; [|by apply H1].
      destruct (decide (x ∈ seq_vars els)) as [Hy|Hy]; [by apply H1|]. rewrite H2 by done. by apply H3.
    + intros [Hx Hy]%not_elem_of_app. rewrite H2 by done. by apply H4.
Qed.

Lemma merge_lookup e subs (B : bindings) x : rebuildable e →
  (x ∈ pat_vars e → ∃ d, merge_repetitions e subs B !! x = Some (merge_tree subs x d)) ∧
  (x ∉ pat_vars e → merge_repetitions e subs B !! x = B !! x).
Proof.
  intros Hp. destruct (collect_spec e 0 ∅ x Hp) as [H1 H2]. unfold merge_repetitions. split; intros Hx.
  - destruct (H1 Hx) as [d Hd]. exists d. rewrite lookup_union, map_lookup_imap, Hd. simpl. by destruct (B !! x).
  - rewrite lookup_union, map_lookup_imap, (H2 Hx), lookup_empty. simpl. by destruct (B !! x).
Qed.

Lemma repetitions_inv e args subs :
  match_repetitions matchPattern e args = Some subs → Forall2 (λ a sub, matchPattern e a ∅ = Some sub) args subs.
Proof.
  revert subs. induction args as [|a args IH]; intros subs Hs; simpl in Hs; [simplify_eq; constructor|].
  destruct (matchPattern e a ∅) as [sub|] eqn:Ha; [|done]. simpl in Hs.
  destruct (match_repetitions matchPattern e args) as [subs'|] eqn:Hr; [|done]. simpl in Hs. simplify_eq.
  constructor; [done|]. by apply IH.
Qed.

(** A match binds the variables of the pattern and nothing else. *)
Definition binds_vars (vars : list string) (B0 B1 : bindings) : Prop :=
  ∀ x, (x ∈ vars → is_Some (B1 !! x)) ∧ (x ∉ vars → B1 !! x = B0 !! x).

Lemma match_seq_binds els :
  Forall (λ e : pattern * bool, ∀ a B0 B1, rebuildable e.1 → matchPattern e.1 a B0 = Some B1 → binds_vars (pat_vars e.1) B0 B1) els →
  ∀ args B0 B1, rebuildable_seq els → matchPatternSeq els args B0 = Some B1 → binds_vars (seq_vars els) B0 B1.
Proof.
  induction 1 as [|[e ell] els He _ IH]; intros args B0 B1 Hp Hm.
  - destruct args; [|done]. simpl in Hm. simplify_eq. split; [set_solver|done].
  - destruct Hp as (Hpe & _ & Hps). unfold matchPatternSeq in Hm. simpl in Hm, He.
    assert (∃ B' args', binds_vars (pat_vars e) B0 B' ∧ matchPatternSeq els args' B' = Some B1) as (B' & args' & Hb & Hm').
    { destruct ell.
      - destruct (match_repetitions matchPattern e args) as [subs|]; [|done]. simpl in Hm.
        eexists _, []. split; [|exact Hm]. intros x. destruct (merge_lookup e subs B0 x Hpe) as [H1 H2].
        split; [|done]. intros [d ->]%H1. by eexists.
      - destruct args as [|a args]; [done|]. destruct (matchPattern e a B0) as [B'|] eqn:Ha; [|done].
        exists B', args. split; [by eapply He|done]. }
    intros x. destruct (IH _ _ _ Hps Hm' x) as [H1 H2]. destruct (Hb x) as [H3 H4]. unfold seq_vars in *. simpl in *. split.
    + intros Hx. destruct (decide (x ∈ pat_vars (PatList els))) as [Hy|Hy]; [by apply H1|]. simpl in Hy.
      rewrite H2 by done. apply H3. set_solver.
    + intros [Hx Hy]%not_elem_of_app. rewrite H2 by done. by apply H4.
Qed.

Lemma match_binds p : ∀ a B0 B1, rebuildable p → matchPattern p a B0 = Some B1 → binds_vars (pat_vars p) B0 B1.
Proof.
  induction p as [y|y| |els IH|els rest] using pattern_deep_ind; intros a B0 B1 Hp Hm; simpl in Hm; try done.
  - destruct (isSymbol a y); [|done]. simplify_eq. split; [set_solver|done].
  - simpl. destruct (String.eqb_spec y "_"); [simpl in Hp; set_solver|]. simplify_eq. intros x. split.
    + intros ->%list_elem_of_singleton. rewrite lookup_insert_eq. by eexists.
    + intros ?. apply lookup_insert_ne. set_solver.
  - apply rebuildable_list in Hp as [_ Hp]. destruct a; try done. destruct form; try done. destruct func; try done.
    by eapply match_seq_binds.
Qed.

Lemma seq_binds els args B0 B1 : rebuildable_seq els → matchPatternSeq els args B0 = Some B1 → binds_vars (seq_vars els) B0 B1.
Proof. apply match_seq_binds. apply Forall_true. intros e. apply match_binds. Qed.

(** ** Instantiating a pattern gives back what it matched *)

Lemma or_find_head (l l' : list string) : or_find (head l) (head l') = head (l ++ l').
Proof. by destruct l. Qed.

(** [B] holds a value for the variables, and nothing for the other names written in a
    template of the pattern. *)
Definition repeats (B : bindings) (vars : list string) : Prop :=
  ∀ x, x ∈ vars → ∃ t, B !! x = Some t ∧ (1 <= tree_depth t)%nat.
Definition unbound (B : bindings) (names : list string) : Prop := ∀ x, x ∈ names → B !! x = None.

Lemma driver_of_pattern B p : rebuildable p → unbound B ("..." :: pat_literals p) → repeats B (pat_vars p) →
  findEllipsisDriver B (template_of p) = head (pat_vars p).
Proof.
  induction p as [y|y| |els IH|els rest] using pattern_deep_ind; intros Hp Hu Hr; try done.
  - simpl. by rewrite (Hu y) by set_solver.
  - simpl in *. destruct (String.eqb_spec y "_"); [set_solver|]. destruct (Hr y) as (t & -> & Ht); [set_solver|].
    by rewrite decide_True.
  - apply rebuildable_list in Hp as [_ Hp]. rewrite template_of_list.
    assert (list_find (findEllipsisDriver B) (template_seq els) = head (seq_vars els)) as Hl.
    { induction IH as [|[e ell] els He _ IHl]; [done|]. destruct Hp as (Hpe & _ & Hps). simpl in He.
      unfold seq_vars, unbound, repeats in *. simpl in *. rewrite He; [|done|set_solver|set_solver].
      rewrite <-or_find_head. f_equal. etrans; [|apply IHl; [done|set_solver|set_solver]].
      destruct ell; [|done]. simpl. by rewrite (Hu "...") by set_solver. }
    destruct els as [|[e ell] els]; [done|]. exact Hl.
Qed.

(** [B] gives the variables the values of [B1], and the literals none. *)
Definition agrees (B B1 : bindings) (vars literals : list string) : Prop :=
  (∀ x, x ∈ vars → B !! x = B1 !! x) ∧ unbound B ("..." :: literals).

Definition rebuilds (p : pattern) : Prop := ∀ a B0 B1 B s,
  rebuildable p → NoDup (pat_vars p) → matchPattern p a B0 = Some B1 → agrees B B1 (pat_vars p) (pat_literals p) →
  active_renames_ s = ∅ → substituteBindings (template_of p) B s = Done a s.

Lemma substitute_pattern_name B x s : B !! x = None → active_renames_ s = ∅ → substitute_var B x s = Done (Var x) s.
Proof.
  intros HB Hs. unfold substitute_var, bound_value. rewrite HB. rewrite (bind_done (mret None) _ s None s) by done.
  rewrite (bind_done get _ s s s) by done. by rewrite Hs, lookup_empty.
Qed.

(** The repetitions of an element followed by an ellipsis. *)
Lemma rebuild_repetitions e args subs B0 B s :
  rebuilds e → rebuildable e → pat_vars e ≠ [] → NoDup (pat_vars e) →
  Forall2 (λ a sub, matchPattern e a ∅ = Some sub) args subs →
  agrees B (merge_repetitions e subs B0) (pat_vars e) (pat_literals e) →
  active_renames_ s = ∅ →
  expandEllipsisElementN (substituteBindings (template_of e)) (template_of e) 0 B s = Done args s.
Proof.
  intros He Hp Hne Hnd Hargs [Hag Hun] Hs.
  assert (∀ x, x ∈ pat_vars e → ∃ d, B !! x = Some (merge_tree subs x d)) as HB.
  { intros x Hx. destruct (merge_lookup e subs B0 x Hp) as [[d Hd] _]; [done|]. exists d. by rewrite Hag. }
  simpl. rewrite driver_of_pattern; [|done|done|].
  2:{ intros x Hx. destruct (HB x Hx) as [d ->]. eexists. split; [done|]. simpl. lia. }
  destruct (pat_vars e) as [|x vars] eqn:Hv; [done|]. simpl.
  destruct (HB x) as [d ->]; [set_solver|]. cbn [tree_elements merge_tree]. rewrite length_map.
  rewrite <-Hv in *. clear Hv.
  rewrite (bind_done _ _ s ((λ a, [a]) <$> args) s).
  { unfold mret, exp_ret. f_equal. clear. induction args; simpl; by f_equal. }
  apply list_walk_done. apply Forall2_fmap_r, Forall2_same_length_lookup_2.
  { rewrite length_seq. symmetry. by eapply Forall2_length. }
  intros i j a Hi Ha. apply lookup_seq in Hi as [-> Hi]. simpl in *.
  destruct (Forall2_lookup_l _ _ _ _ _ Hargs Ha) as (sub & Hsub & Hm).
  rewrite (bind_done _ _ s a s); [done|]. eapply (He a ∅ sub); try done. split.
  - intros y Hy. destruct (HB y Hy) as [d' HBy]. unfold peelBindingsAtIndex. rewrite lookup_fmap, HBy. simpl.
    unfold peel_tree, merge_tree. cbn [tree_depth tree_elements]. rewrite length_map, Nat.min_l by lia.
    change (map ?f subs) with (f <$> subs). rewrite list_lookup_fmap, Hsub. simpl.
    destruct (match_binds _ _ _ _ Hp Hm y) as [[t ->] _]; done.
  - intros y Hy. unfold peelBindingsAtIndex. by rewrite lookup_fmap, Hun.
Qed.

Lemma template_head_not_ellipsis e : rebuildable e → isEllipsisSymbol (template_of e) = false.
Proof.
  destruct e as [x|x| |els|]; intros Hp; try done.
  - simpl in *. unfold isEllipsisSymbol, isSymbol. by apply String.eqb_neq.
  - simpl in *. unfold isEllipsisSymbol, isSymbol. apply String.eqb_neq. set_solver.
  - rewrite template_of_list. by destruct els as [|[]].
Qed.

Lemma template_seq_count els : rebuildable_seq els → count_ellipses (template_seq els) = O.
Proof. destruct els as [|[e ell] els]; [done|]. intros (Hp & _). simpl. by rewrite template_head_not_ellipsis. Qed.

Lemma rebuild_seq els : Forall (λ e : pattern * bool, rebuilds e.1) els → ∀ args B0 B1 B s,
  rebuildable_seq els → NoDup (seq_vars els) → matchPatternSeq els args B0 = Some B1 →
  agrees B B1 (seq_vars els) (seq_literals els) → active_renames_ s = ∅ →
  substituteBindingsInList substituteBindings (template_seq els) B s = Done args s.
Proof.
  induction 1 as [|[e ell] els He Hels IH]; intros args B0 B1 B s Hp Hnd Hm [Hag Hun] Hs.
  { destruct args; [done|]. done. }
  destruct Hp as (Hpe & Hell & Hps). unfold seq_vars, seq_literals, matchPatternSeq in *. simpl in Hnd, Hm, Hag, Hun, He.
  apply list.NoDup_app in Hnd as (Hnd1 & Hdisj & Hnd2).
  assert (∀ args' B', matchPatternSeq els args' B' = Some B1 →
    agrees B B' (pat_vars e) (pat_literals e) ∧ agrees B B1 (pat_vars (PatList els)) (pat_literals (PatList els))) as Hsplit.
  { intros args' B' Hm'. split; (split; [|intros x Hx; apply Hun; set_solver]); [|intros x Hx; apply Hag; set_solver].
    intros x Hx. rewrite Hag by set_solver.
    assert (binds_vars (seq_vars els) B' B1) as Hb.
    { by eapply seq_binds. }
    apply (Hb x). by apply Hdisj. }
  unfold substituteBindingsInList. destruct ell; simpl.
  - destruct (match_repetitions matchPattern e args) as [subs|] eqn:Hr; [|done]. simpl in Hm.
    destruct (Hsplit [] _ Hm) as [Ha1 Ha2]. rewrite template_seq_count by done.
    rewrite (bind_done _ _ s args s).
    2:{ eapply rebuild_repetitions; try done; [by apply Hell|]. by apply repetitions_inv. }
    rewrite (bind_done _ _ s [] s); [by rewrite app_nil_r|]. by eapply (IH [] _ B1).
  - destruct args as [|a args]; [done|]. destruct (matchPattern e a B0) as [B'|] eqn:Ha; [|done]. simpl in Hm.
    destruct (Hsplit args _ Hm) as [Ha1 Ha2]. rewrite template_seq_count, template_head_not_ellipsis by done.
    rewrite (bind_done _ _ s a s) by (by eapply He). rewrite (bind_done _ _ s args s); [done|]. by eapply (IH args _ B1).
Qed.

Lemma restore_datum s : Expander (scope_stack_ s) (active_renames_ s) (rename_counter_ s) (in_datum_ s) (log s) = s.
Proof. by destruct s. Qed.

Lemma rebuild_call f fr vs vs' B s s1 :
  substituteBindings f B s = Done fr s1 → substituteBindingsInList substituteBindings vs B s1 = Done vs' s →
  substituteBindings (CallOp CALL (Some f) vs) B s = Done (CallOp CALL (Some fr) vs') s.
Proof.
  intros Hf Hvs. simpl. erewrite scoped_datum_done; [by rewrite restore_datum|]. simpl. rewrite restore_datum.
  rewrite (bind_done _ _ s (Some fr) s1); [by rewrite (bind_done _ _ _ _ _ Hvs)|]. by rewrite (bind_done _ _ _ _ _ Hf).
Qed.

Lemma match_rebuilds p : rebuilds p.
Proof.
  induction p as [y|y| |els IH|els rest] using pattern_deep_ind; intros a B0 B1 B s Hp Hnd Hm Hag Hs; try done.
  - simpl in Hm. destruct a as [|z| | | | | | | | | | | | | | | |]; simpl in Hm; try done.
    destruct (String.eqb_spec z y) as [->|]; [|done]. apply substitute_pattern_name; [|done]. destruct Hag as [_ Hun]. apply Hun. simpl. set_solver.
  - simpl in *. destruct (String.eqb_spec y "_"); [set_solver|]. simplify_eq. unfold substitute_var, bound_value.
    destruct Hag as [Hag _]. rewrite Hag, lookup_insert_eq by set_solver. done.
  - apply rebuildable_list in Hp as [Hhead Hp]. destruct a; try done. destruct form; try done. destruct func as [f|]; [|done].
    assert (substituteBindingsInList substituteBindings (template_seq els) B s = Done (f :: variables) s) as Hseq.
    { by eapply rebuild_seq. }
    rewrite template_of_list. destruct els as [|[e [|]] els]; try done. simpl in Hseq.
    destruct Hp as (Hpe & _ & Hps). unfold substituteBindingsInList in Hseq. simpl in Hseq.
    rewrite template_seq_count in Hseq; [|done]. rewrite template_head_not_ellipsis in Hseq; [|done].
    run Hseq. by eapply rebuild_call.
Qed.

(** ** Calls that keep the state

    [quiet R m]: no run of [m] is out of rounds, and one that ends relates its states
    by [R].  A substitution keeps the scopes, the renames and the mode, allocates
    names and may report errors; a step inside a binding form may change the renames. *)

Definition quiet {A} (R : expander → expander → Prop) (m : ExpM A) : Prop := ∀ s,
  match m s with Done _ s' => R s s' | Undefined => True | OutOfRounds => False end.

Definition keeps (s s' : expander) : Prop :=
  scope_stack_ s' = scope_stack_ s ∧ in_datum_ s' = in_datum_ s ∧
  (rename_counter_ s <= rename_counter_ s')%N ∧ log s `suffix_of` log s'.

Definition keeps_all (s s' : expander) : Prop := keeps s s' ∧ active_renames_ s' = active_renames_ s.

#[export] Instance keeps_state_preorder : PreOrder keeps.
Proof.
  split; [by intros s; split_and!|]. intros s1 s2 s3 (E1 & E2 & L & S) (E1' & E2' & L' & S').
  split_and!; [congruence|congruence|lia|by etrans].
Qed.

#[export] Instance keeps_all_preorder : PreOrder keeps_all.
Proof. split; [done|]. intros s1 s2 s3 [K E] [K' E']. split; [by etrans|congruence]. Qed.

Lemma quiet_mono {A} (R R' : expander → expander → Prop) (m : ExpM A) : (∀ s s', R s s' → R' s s') → quiet R m → quiet R' m.
Proof. intros HR Hm s. specialize (Hm s). destruct (m s); [by apply HR|done..]. Qed.

Lemma quiet_keeps {A} (m : ExpM A) : quiet keeps_all m → quiet keeps m.
Proof. apply quiet_mono. by intros s s' []. Qed.

Section Quiet.
Context (R : expander → expander → Prop) `{!PreOrder R}.

Lemma quiet_ret {A} (a : A) : quiet R (mret a).
Proof. intros s. simpl. reflexivity. Qed.

Lemma quiet_undefined {A} : quiet R (undefined_behaviour (A := A)).
Proof. by intros s. Qed.

Lemma quiet_get : quiet R get.
Proof. intros s. simpl. reflexivity. Qed.

Lemma quiet_bind {A B} (m : ExpM A) (f : A → ExpM B) : quiet R m → (∀ a, quiet R (f a)) → quiet R (m ≫= f).
Proof.
  intros Hm Hf s. specialize (Hm s). unfold mbind, exp_bind. destruct (m s) as [a s1| |]; [|done|done].
  specialize (Hf a s1). destruct (f a s1) as [b s2| |]; [by etrans|done|done].
Qed.

Lemma quiet_list_walk {A B} (f : A → ExpM B) l : Forall (λ a, quiet R (f a)) l → quiet R (list_walk f l).
Proof.
  induction 1 as [|a l Ha _ IH]; simpl; [apply quiet_ret|].
  apply quiet_bind; [done|intros r]. apply quiet_bind; [done|intros r']. apply quiet_ret.
Qed.

Lemma quiet_opt_walk {A B} (f : A → ExpM B) o : opt_all (λ a, quiet R (f a)) o → quiet R (opt_walk f o).
Proof. destruct o as [a|]; simpl; intros H; [apply quiet_bind; [done|intros r]|]; apply quiet_ret. Qed.
End Quiet.

Create HintDb quiet.
#[export] Hint Resolve quiet_ret quiet_undefined quiet_get quiet_bind quiet_list_walk quiet_opt_walk keeps_state_preorder keeps_all_preorder : quiet.
#[export] Hint Extern 1 (PreOrder _) => apply _ : quiet.

Lemma quiet_error R text : (∀ s s', keeps_all s s' → R s s') → quiet R (eshkol_error text).
Proof. intros HR s. apply HR. split; [|done]. split_and!; simpl; [done|done|lia|by apply suffix_cons_r]. Qed.

Lemma quiet_scoped_renames {A} (m : ExpM A) : quiet keeps m → quiet keeps_all (scoped_renames m).
Proof.
  intros Hm s. specialize (Hm s). unfold scoped_renames, mbind, exp_bind, get.
  destruct (m s) as [a s1| |]; [|done|done]. by split.
Qed.

Lemma quiet_scoped_datum {A} enter (m : ExpM A) : quiet keeps_all m → quiet keeps_all (scoped_datum enter m).
Proof.
  intros Hm s. unfold scoped_datum, mbind, exp_bind, get, set_datum.
  specialize (Hm (Expander (scope_stack_ s) (active_renames_ s) (rename_counter_ s) (enter (in_datum_ s)) (log s))).
  destruct (m _) as [a s1| |]; [|done|done]. destruct Hm as [(E1 & _ & L & S) E]. by split; [split_and!|].
Qed.

Lemma quiet_freshName name : quiet keeps (freshName name).
Proof. intros s. simpl. split_and!; simpl; [done|done|lia|done]. Qed.

Lemma quiet_rename_node B p : quiet keeps (rename_node B p).
Proof.
  destruct p; try apply quiet_ret, _. simpl. destruct (isRenameableBinder _ _); [|apply quiet_ret, _].
  apply quiet_bind; [apply _|apply quiet_freshName|intros _; apply quiet_ret, _].
Qed.

Lemma quiet_rename_field B name : quiet keeps (rename_field B name).
Proof. unfold rename_field. destruct (isRenameableBinder _ _); [apply quiet_freshName|apply quiet_ret, _]. Qed.

Lemma quiet_bound_value R `{!PreOrder R} B name : quiet R (bound_value B name).
Proof. unfold bound_value. repeat case_match; auto with quiet. Qed.

(** ** Substitution keeps the state *)

Section QuietSubstitution.
Context (sub : ast → bindings → ExpM ast).
Notation keeping := (λ a, ∀ B, quiet keeps_all (sub a B)).

Lemma quiet_expand_element a more B : keeping a → quiet keeps_all (expandEllipsisElementN (sub a) a more B).
Proof.
  intros Ha. revert B. induction more as [|more IH]; intros B; simpl; destruct (findEllipsisDriver B a).
  all: try (apply quiet_bind; [apply _|by apply quiet_error|intros _]; apply quiet_bind; [apply _|apply Ha|intros r]; apply quiet_ret, _).
  all: apply quiet_bind; [apply _| |intros r; apply quiet_ret, _]; apply quiet_list_walk; [apply _|]; apply Forall_true; intros i.
  - apply quiet_bind; [apply _|apply Ha|intros r; apply quiet_ret, _].
  - apply IH.
Qed.

Lemma quiet_items l B : Forall keeping l → quiet keeps_all (substituteBindingsInList sub l B).
Proof.
  unfold substituteBindingsInList. generalize O as skip. intros skip Hl. revert skip.
  induction Hl as [|a l Ha _ IH]; intros skip; simpl; [apply quiet_ret, _|]. destruct skip as [|skip]; [|apply IH].
  destruct (count_ellipses l) as [|more].
  - destruct (isEllipsisSymbol a).
    + apply quiet_bind; [apply _|by apply quiet_error|intros _; apply IH].
    + apply quiet_bind; [apply _|apply Ha|intros r]. apply quiet_bind; [apply _|apply IH|intros r']. apply quiet_ret, _.
  - apply quiet_bind; [apply _|by apply quiet_expand_element|intros r].
    apply quiet_bind; [apply _|apply IH|intros r']. apply quiet_ret, _.
Qed.

Lemma quiet_opt o B : opt_all keeping o → quiet keeps_all (substitute_opt sub B o).
Proof. destruct o as [a|]; simpl; intros Ha; [apply quiet_bind; [apply _|apply Ha|intros r]|]; apply quiet_ret, _. Qed.

Lemma quiet_child o B : opt_all keeping o → quiet keeps_all (substitute_child sub B o).
Proof. destruct o as [a|]; simpl; intros Ha; [apply quiet_bind; [apply _|apply Ha|intros r]|]; apply quiet_ret, _. Qed.

Lemma quiet_each l B : Forall keeping l → quiet keeps_all (substitute_each sub B l).
Proof. intros Hl. apply quiet_list_walk; [apply _|]. eapply List.Forall_impl; [|exact Hl]. intros a Ha. apply Ha. Qed.

Lemma quiet_params l B : Forall keeping l → quiet keeps (substitute_params sub B l).
Proof.
  intros Hl. apply quiet_list_walk; [apply _|]. eapply List.Forall_impl; [|exact Hl]. intros a Ha.
  apply quiet_bind; [apply _|apply quiet_rename_node|intros _]. apply quiet_keeps, Ha.
Qed.

Lemma quiet_inits is_seq l B : Forall (binding_all keeping) l → quiet keeps (substitute_inits sub is_seq B l).
Proof.
  intros Hl. apply quiet_list_walk; [apply _|]. eapply List.Forall_impl; [|exact Hl]. intros b [_ Hb].
  destruct b as [| |[car|] cdr| | | | | | | | | | | | | | |]; try apply quiet_ret, _. destruct Hb as [_ Hcdr].
  apply quiet_bind; [apply _| |intros init; apply quiet_bind; [apply _| |intros _; apply quiet_ret, _]].
  - destruct cdr as [e|]; [apply quiet_keeps, Hcdr|apply quiet_ret, _].
  - destruct is_seq; [apply quiet_rename_node|apply quiet_ret, _].
Qed.

Lemma quiet_binders l inits B : Forall (binding_all keeping) l → quiet keeps_all (substitute_binders sub B l inits).
Proof.
  intros Hl. revert inits. induction Hl as [|b l [Hb Hb'] _ IH]; intros inits; simpl; [apply quiet_ret, _|].
  destruct inits as [|init inits]; [apply quiet_ret, _|].
  apply quiet_bind; [apply _| |intros nb; apply quiet_bind; [apply _|apply IH|intros r; apply quiet_ret, _]].
  destruct b as [| |[car|] cdr| | | | | | | | | | | | | | |]; destruct init as [i|]; try apply Hb.
  apply quiet_bind; [apply _|apply Hb'|intros r; apply quiet_ret, _].
Qed.

Lemma quiet_rename_bindings l B : quiet keeps (list_walk (rename_binding B) l).
Proof.
  apply quiet_list_walk; [apply _|]. apply Forall_true. intros b. unfold rename_binding.
  destruct (binding_var b); [apply quiet_rename_node|apply quiet_ret, _].
Qed.

Lemma quiet_let form l body name B : Forall (binding_all keeping) l → opt_all keeping body →
  quiet keeps_all (substitute_let sub form l body name B).
Proof.
  intros Hl Hbody. apply quiet_scoped_renames.
  apply quiet_bind; [apply _| |intros _]. { case_match; [apply quiet_rename_bindings|apply quiet_ret, _]. }
  apply quiet_bind; [apply _| |intros name'].
  { apply quiet_opt_walk; [apply _|]. destruct name; [apply quiet_rename_field|done]. }
  apply quiet_bind; [apply _|by apply quiet_inits|intros inits].
  apply quiet_bind; [apply _| |intros _]. { case_match; [apply quiet_ret, _|apply quiet_rename_bindings]. }
  apply quiet_bind; [apply _|by apply quiet_keeps, quiet_binders|intros l'].
  apply quiet_bind; [apply _|by apply quiet_keeps, quiet_opt|intros body']. apply quiet_ret, _.
Qed.
End QuietSubstitution.

Lemma quiet_target B name : quiet keeps_all (substitute_target B name).
Proof.
  apply quiet_bind; [apply _|apply quiet_bound_value, _|intros v]. repeat case_match; try apply quiet_ret, _.
  apply quiet_bind; [apply _|apply quiet_get, _|intros s; apply quiet_ret, _].
Qed.

Lemma quiet_var B name : quiet keeps_all (substitute_var B name).
Proof.
  apply quiet_bind; [apply _|apply quiet_bound_value, _|intros v]. case_match; [apply quiet_ret, _|].
  apply quiet_bind; [apply _|apply quiet_get, _|intros s; case_match; apply quiet_ret, _].
Qed.

#[export] Hint Resolve quiet_items quiet_opt quiet_child quiet_each quiet_target : quiet.

Ltac quiet_steps := repeat first [apply quiet_ret; apply _ | solve [eauto with quiet] | apply quiet_bind; [apply _|solve [eauto with quiet]|intros ?]].

(** A substitution leaves the scopes, the renames and the mode as they are. *)
Lemma quiet_substitute a : ∀ B, quiet keeps_all (substituteBindings a B).
Proof.
  induction a using ast_deep_ind; intros B; simpl; try solve [quiet_steps].
  - apply quiet_var.
  - apply quiet_scoped_datum. quiet_steps.
  - apply quiet_scoped_renames. apply quiet_bind; [apply _|by apply quiet_params|intros ps].
    apply quiet_bind; [apply _| |intros r].
    { apply quiet_opt_walk; [apply _|]. destruct rest; [apply quiet_rename_field|done]. }
    apply quiet_bind; [apply _|by apply quiet_keeps, quiet_opt|intros b]. apply quiet_ret, _.
  - by apply quiet_let.
Qed.

(** ** Expansion returns *)

Section TemplateInduction.
Context (P : template → Prop).
Hypothesis HTLit : ∀ o, P (TplLiteral o).
Hypothesis HTVar : ∀ x, P (TplVariable x).
Hypothesis HTList : ∀ l, Forall P l → P (TplList l).
Hypothesis HTEll : P TplEllipsis.

Fixpoint template_deep_ind (t : template) : P t :=
  match t with
  | TplLiteral o => HTLit o
  | TplVariable x => HTVar x
  | TplList l => HTList l (forall_each P template_deep_ind l)
  | TplEllipsis => HTEll
  end.
End TemplateInduction.

Lemma quiet_set_renames rn : quiet keeps (set_renames rn).
Proof. intros s. simpl. by split_and!. Qed.

Lemma quiet_instantiate t B : quiet keeps (instantiateTemplate t B).
Proof.
  induction t as [o|x|l IH|] using template_deep_ind; simpl;
    (apply quiet_bind; [apply _|apply quiet_set_renames|intros _]); try apply quiet_ret, _.
  - destruct o; [apply quiet_keeps, quiet_substitute|apply quiet_ret, _].
  - apply quiet_bind; [apply _|apply quiet_bound_value, _|intros v; apply quiet_ret, _].
  - apply quiet_bind; [apply _|by apply quiet_list_walk; [apply _|]|intros r; apply quiet_ret, _].
Qed.

Lemma quiet_try_expand name args : quiet keeps (tryExpandMacroCall name args).
Proof.
  apply quiet_bind; [apply _|by intros s; simpl; split_and!|intros [m|]; [|apply quiet_ret, _]].
  destruct (first_matching_rule _ _) as [[t B]|]; [apply quiet_instantiate|].
  apply quiet_bind; [apply _| |intros _; apply quiet_ret, _]. apply quiet_error. by intros s s' [].
Qed.

(** A form may define macros in the innermost scope; the scopes around it and the names
    that are defined stay. *)
Definition grows (s s' : expander) : Prop :=
  tail (scope_stack_ s') = tail (scope_stack_ s) ∧ length (scope_stack_ s') = length (scope_stack_ s) ∧
  macro_names (scope_stack_ s) ⊆ macro_names (scope_stack_ s') ∧
  in_datum_ s' = in_datum_ s ∧ (rename_counter_ s <= rename_counter_ s')%N ∧ log s `suffix_of` log s'.

#[export] Instance grows_preorder : PreOrder grows.
Proof.
  split; [by intros s; split_and!|]. intros s1 s2 s3 (T & N & M & E & L & S) (T' & N' & M' & E' & L' & S').
  split_and!; [congruence|congruence|by etrans|congruence|lia|by etrans].
Qed.

Lemma keeps_grows s s' : keeps s s' → grows s s'.
Proof. intros (E & Ed & L & S). by split_and!; rewrite ?E. Qed.

Lemma quiet_register m : quiet grows (registerMacro m).
Proof.
  intros s. unfold registerMacro, mbind, exp_bind, get. destruct (scope_stack_ s) as [|innermost outer] eqn:E; [by split_and!|].
  split_and!; simpl; rewrite ?E; try done. unfold macro_names. simpl. apply union_mono_r. set_solver.
Qed.

Lemma is_macro_spec name s : isMacro name s = Done (bool_decide (name ∈ macro_names (scope_stack_ s))) s.
Proof.
  unfold isMacro, lookupMacro, mbind, exp_bind, get, mret, exp_ret. f_equal. apply bool_decide_ext.
  induction (scope_stack_ s) as [|scope outer IH]; unfold macro_names in *; simpl; [split; [by intros []|set_solver]|].
  rewrite elem_of_union, elem_of_dom, <-IH. destruct (scope !! name); split; [by left|by eexists|by right|by intros [[]|]].
Qed.

Section QuietNode.
Context (expandNode : ast → ExpM ast).

(** The stack of scopes has a global scope. *)
Definition guarded {A} (m : ExpM A) : Prop := ∀ s, scope_stack_ s ≠ [] →
  match m s with Done _ s' => grows s s' | Undefined => True | OutOfRounds => False end.

Hypothesis Hrec : ∀ a, guarded (expandNode a).

Lemma guarded_quiet {A} (m : ExpM A) : quiet grows m → guarded m.
Proof. intros Hm s _. apply Hm. Qed.

Lemma grows_scopes s s' : grows s s' → scope_stack_ s ≠ [] → scope_stack_ s' ≠ [].
Proof. intros (_ & N & _). destruct (scope_stack_ s), (scope_stack_ s'); done. Qed.

Lemma guarded_bind {A B} (m : ExpM A) (f : A → ExpM B) : guarded m → (∀ a, guarded (f a)) → guarded (m ≫= f).
Proof.
  intros Hm Hf s Hs. specialize (Hm s Hs). unfold mbind, exp_bind. destruct (m s) as [a s1| |]; [|done|done].
  specialize (Hf a s1 (grows_scopes _ _ Hm Hs)). destruct (f a s1) as [b s2| |]; [by etrans|done|done].
Qed.

Lemma guarded_ret {A} (a : A) : guarded (mret a).
Proof. apply guarded_quiet, quiet_ret, _. Qed.

Lemma guarded_list {A B} (f : A → ExpM B) l : (∀ a, guarded (f a)) → guarded (list_walk f l).
Proof.
  intros Hf. induction l as [|a l IH]; simpl; [apply guarded_ret|].
  apply guarded_bind; [apply Hf|intros r]. apply guarded_bind; [apply IH|intros r'; apply guarded_ret].
Qed.

Lemma guarded_opt o : guarded (expand_opt expandNode o).
Proof. destruct o; simpl; [apply guarded_bind; [apply Hrec|intros r]|]; apply guarded_ret. Qed.

Lemma guarded_exprs l : guarded (expand_list expandNode l).
Proof. apply guarded_list, Hrec. Qed.

Lemma guarded_binding b : guarded (expand_binding expandNode b).
Proof. destruct b as [| |car [cdr|]| | | | | | | | | | | | | | |]; try apply guarded_ret. apply guarded_bind; [apply Hrec|intros r; apply guarded_ret]. Qed.

Lemma guarded_parts a : guarded (expand_parts expandNode a).
Proof.
  destruct a; simpl; try apply guarded_ret.
  all: repeat first [apply guarded_ret | apply guarded_bind; [first [apply guarded_opt|apply guarded_exprs|apply guarded_list, guarded_binding]|intros ?]
    | case_match].
Qed.

Lemma guarded_define_syntax macro : guarded (
  _ ← match macro with Some m => registerMacro m | None => mret () end; mret (Return null_ast)).
Proof. apply guarded_bind; [|intros _; apply guarded_ret]. destruct macro; [apply guarded_quiet, quiet_register|apply guarded_ret]. Qed.

(** A scope pushed and popped leaves the stack as it was. *)
Lemma guarded_let_syntax ms body : guarded (
  _ ← pushScope; _ ← list_walk registerMacro ms; expanded_body ← expandNode body; _ ← popScope; mret (Return expanded_body)).
Proof.
  intros s Hs. rewrite (bind_done pushScope _ s () (Expander (∅ :: scope_stack_ s) (active_renames_ s) (rename_counter_ s) (in_datum_ s) (log s))) by done.
  assert (guarded (_ ← list_walk registerMacro ms; expandNode body)) as Hin.
  { apply guarded_bind; [|intros _; apply Hrec]. apply guarded_list. intros m. apply guarded_quiet, quiet_register. }
  specialize (Hin (Expander (∅ :: scope_stack_ s) (active_renames_ s) (rename_counter_ s) (in_datum_ s) (log s)) ltac:(done)).
  unfold mbind, exp_bind in *. destruct (list_walk registerMacro ms _) as [? s1| |]; [|done|done].
  destruct (expandNode body s1) as [r s2| |]; [|done|done]. destruct Hin as (T & N & _ & E & L & S). simpl in *.
  unfold popScope, mbind, exp_bind, get. rewrite decide_True.
  2:{ rewrite N. destruct (scope_stack_ s); [done|]. simpl. lia. }
  unfold set_scopes, mret, exp_ret. split_and!; simpl; rewrite ?T; done.
Qed.

(** Each round adds the name of a macro in scope to the chain. *)
Lemma guarded_loop a : ∀ rounds chain s, scope_stack_ s ≠ [] →
  chain ⊆ macro_names (scope_stack_ s) → (size (macro_names (scope_stack_ s)) <= rounds + size chain)%nat →
  match expand_loop expandNode rounds chain a s with Done _ s' => grows s s' | Undefined => True | OutOfRounds => False end.
Proof.
  intros rounds. revert a. induction rounds as [|rounds IH]; intros a chain s Hs Hc Hsize.
  all: destruct a as [| | |form func args| | | | | | | | | | |m|? ms body| |]; try by apply guarded_ret.
  all: try by apply guarded_define_syntax.
  all: try by apply guarded_let_syntax.
  all: destruct form; try by apply guarded_ret.
  all: destruct func as [[|f| | | | | | | | | | | | | | | |]|]; try by apply guarded_ret.
  all: simpl; rewrite (bind_done _ _ _ _ _ (is_macro_spec f s)); case_bool_decide as Hf; [|by apply guarded_ret].
  all: case_decide as Hd; [apply keeps_grows; by split_and!; simpl; [..|lia|apply suffix_cons_r]|].
  all: assert (size ({[f]} ∪ chain) = S (size chain)) as Hadd by (rewrite size_union, size_singleton by set_solver; done).
  all: assert ({[f]} ∪ chain ⊆ macro_names (scope_stack_ s)) as Hc' by set_solver.
  - apply subseteq_size in Hc'. lia.
  - pose proof (quiet_try_expand f args s) as Ht. unfold mbind, exp_bind.
    destruct (tryExpandMacroCall f args s) as [next s1| |]; [|done|done].
    pose proof (keeps_grows _ _ Ht) as Hg. destruct Ht as (E & _).
    specialize (IH next ({[f]} ∪ chain) s1). rewrite E in IH. specialize (IH Hs Hc' ltac:(lia)).
    destruct (expand_loop _ _ _ _ _); [by etrans|done|done].
Qed.
End QuietNode.

(** Expanding a node returns, whatever the macros are. *)
Lemma expand_node_returns left : ∀ a, guarded (expandNode left a).
Proof.
  induction left as [|left IH]; intros a s Hs; simpl.
  - apply keeps_grows. split_and!; simpl; [done|done|lia|by apply suffix_cons_r].
  - rewrite (bind_done get _ s s s) by done.
    pose proof (guarded_loop _ IH a (size (macro_names (scope_stack_ s))) ∅ s Hs ltac:(set_solver) ltac:(lia)) as Hl.
    unfold mbind, exp_bind. destruct (expand_loop _ _ _ _ _) as [exit s1| |]; [|done|done].
    pose proof (grows_scopes _ _ Hl Hs) as Hs1. destruct exit as [r|current]; [done|].
    pose proof (guarded_parts _ IH current s1 Hs1) as Hp. destruct (expand_parts _ _ _); [by etrans|done|done].
Qed.

(** ** A form without macros is left alone

    [settled names left a]: nothing in [a] that is evaluated uses or defines a macro,
    and its parts are nested at most [left] deep. *)
Fixpoint settled (names : gset string) (left : nat) (a : ast) : Prop :=
  match left with
  | O => False
  | S left' =>
      let here := settled names left' in
      match a with
      | CallOp QUOTE _ _ => True
      | CallOp form func variables =>
          match form, func with CALL, Some (Var f) => f ∉ names | _, _ => True end ∧ opt_all here func ∧ Forall here variables
      | SequenceOp _ l | ValuesOp l => Forall here l
      | DefineOp _ o _ | LambdaOp _ _ o | SetOp _ o | RaiseOp o | CallCcOp o | TheOp _ o => opt_all here o
      | LetOp _ lets body _ =>
          Forall (λ b, match b with Cons _ cdr => opt_all here cdr | _ => True end) lets ∧ opt_all here body
      | GuardOp _ clauses body => Forall here clauses ∧ Forall here body
      | DynamicWindOp before thunk after => opt_all here before ∧ opt_all here thunk ∧ opt_all here after
      | DefineSyntaxOp _ | LetSyntaxOp _ _ _ => False
      | _ => True
      end
  end.

Lemma opt_all_impl {A} (P Q : A → Prop) o : (∀ a, P a → Q a) → opt_all P o → opt_all Q o.
Proof. destruct o; [|done]. intros H. apply H. Qed.

Lemma settled_mono names left : ∀ left' a, (left <= left')%nat → settled names left a → settled names left' a.
Proof.
  induction left as [|left IH]; intros [|left'] a Hle Ha; try done; [lia|].
  assert (∀ a, settled names left a → settled names left' a) as H by (intros b; apply IH; lia).
  pose proof (λ o, opt_all_impl _ _ o H) as Ho. pose proof (λ l, List.Forall_impl (l := l) _ H) as Hl.
  assert (∀ l, Forall (λ b, match b with Cons _ cdr => opt_all (settled names left) cdr | _ => True end) l →
    Forall (λ b, match b with Cons _ cdr => opt_all (settled names left') cdr | _ => True end) l) as Hb.
  { intros l. apply List.Forall_impl. intros b. destruct b; try done. apply Ho. }
  destruct a as [| | |form| | | | | | | | | | | | | |]; cbn [settled] in *; try done; destruct_and?; split_and?; eauto.
  destruct form; try done; destruct_and?; split_and!; eauto.
Qed.

Section Settled.
Context (names : gset string) (expandNode : ast → ExpM ast) (s : expander).
Hypothesis Hnames : macro_names (scope_stack_ s) = names.

Notation fixed := (λ a, expandNode a s = Done a s).

Lemma fixed_list l : Forall fixed l → list_walk expandNode l s = Done l s.
Proof. intros Hl. apply list_walk_done. induction Hl; by constructor. Qed.

Lemma fixed_opt o : opt_all fixed o → expand_opt expandNode o s = Done o s.
Proof. destruct o as [a|]; simpl; intros Ha; [by rewrite (bind_done _ _ _ _ _ Ha)|done]. Qed.

Lemma fixed_lets l : Forall (λ b, match b with Cons _ cdr => opt_all fixed cdr | _ => True end) l →
  list_walk (expand_binding expandNode) l s = Done l s.
Proof.
  intros Hl. apply list_walk_done. induction Hl as [|b l Hb _ IH]; constructor; [|done].
  destruct b as [| |car [cdr|]| | | | | | | | | | | | | | |]; try done. simpl in *. by rewrite (bind_done _ _ _ _ _ Hb).
Qed.
End Settled.

Lemma settled_list names left l s :
  (∀ a, settled names left a → expandNode left a s = Done a s) → Forall (settled names left) l →
  expand_list (expandNode left) l s = Done l s.
Proof. intros IH Hl. apply fixed_list. eapply List.Forall_impl; [|exact Hl]. apply IH. Qed.

Lemma settled_opt names left o s :
  (∀ a, settled names left a → expandNode left a s = Done a s) → opt_all (settled names left) o →
  expand_opt (expandNode left) o s = Done o s.
Proof. intros IH Ho. apply fixed_opt. destruct o; [by apply IH|done]. Qed.

Lemma settled_lets names left l s :
  (∀ a, settled names left a → expandNode left a s = Done a s) →
  Forall (λ b, match b with Cons _ cdr => opt_all (settled names left) cdr | _ => True end) l →
  list_walk (expand_binding (expandNode left)) l s = Done l s.
Proof.
  intros IH Hl. apply fixed_lets. eapply List.Forall_impl; [|exact Hl]. intros b Hb.
  destruct b as [| |car [cdr|]| | | | | | | | | | | | | | |]; try done. by apply IH.
Qed.

Lemma settled_parts names left a s :
  (∀ a, settled names left a → expandNode left a s = Done a s) → settled names (S left) a →
  expand_parts (expandNode left) a s = Done a s.
Proof.
  intros IH Ha.
  pose proof (λ o Ho, settled_opt names left o s IH Ho) as Hopt.
  pose proof (λ l Hl, settled_list names left l s IH Hl) as Hlist.
  pose proof (λ l Hl, settled_lets names left l s IH Hl) as Hlets.
  destruct a as [| | |form| | | | | | | | | | | | | |]; try done; try (destruct form; simpl in *; try done); simpl in *; destruct_and?.
  all: repeat match goal with
    | |- context [expand_opt _ ?o] => rewrite (bind_done _ _ _ _ _ (Hopt o ltac:(done)))
    | |- context [expand_list _ ?l] => rewrite (bind_done _ _ _ _ _ (Hlist l ltac:(done)))
    | |- context [list_walk (expand_binding _) ?l] => rewrite (bind_done _ _ _ _ _ (Hlets l ltac:(done)))
    end; done.
Qed.

Lemma settled_loop names left a s rec rounds chain : macro_names (scope_stack_ s) = names → settled names left a →
  expand_loop rec rounds chain a s = Done (Descend a) s.
Proof.
  intros Hn Ha. destruct left as [|left]; [done|].
  destruct a as [| | |form func| | | | | | | | | | | | | |]; try done; try by destruct rounds.
  destruct form; try by destruct rounds.
  destruct func as [[|f| | | | | | | | | | | | | | | |]|]; try by destruct rounds.
  destruct Ha as [Hf _]. destruct rounds; simpl; rewrite (bind_done _ _ _ _ _ (is_macro_spec f s)), bool_decide_false by (by subst); done.
Qed.

Lemma expand_settled names left : ∀ a s, macro_names (scope_stack_ s) = names → settled names left a → expandNode left a s = Done a s.
Proof.
  induction left as [|left IH]; intros a s Hn Ha; [done|]. cbn [expandNode].
  rewrite (bind_done get _ s s s) by done. rewrite (bind_done _ _ _ _ _ (settled_loop names (S left) a s _ _ _ Hn Ha)).
  eapply settled_parts; [|done]. intros b Hb. by apply IH.
Qed.
