(* ===== verification/MacroScope.v ===== *)
(** * MacroScope: the scopes of an expansion

    What an identifier of a syntax tree refers to, as a tree without names; the
    expansion that marks every identifier of the template, as the reference; and the
    proof that renaming the binders of a template gives the scopes of that reference. *)

From stdpp Require Import base gmap strings pretty list.
From S2P Require Import Prelude Macro MacroSpec.

(** ** Names

    A name of the source is a C string, so it does not start with a null byte: this
    byte marks the identifiers that a template introduces. *)

Definition mark (x : string) : string := String Ascii.zero x.

Definition unmark (x : string) : option string :=
  match x with String c y => if Ascii.eqb c Ascii.zero then Some y else None | EmptyString => None end.

(** [x] is a name of the source that is not allocated from [c0] on. *)
Definition old_name (c0 : N) (x : string) : Prop :=
  unmark x = None ∧ ∀ n y, (c0 <= n < 2 ^ 64)%N → x ≠ fresh_name n y.

(** ** The tree without names *)

Inductive label := LbCons | LbCall (form : call_form) | LbSequence (form : sequence_form)
| LbLambda (rest : bool) | LbLet (form : let_form) (named : bool) | LbBinding | LbSet | LbRaise | LbValues | LbCallCc | LbWind.

(** An identifier is bound by the [i]-th binder around it, or free; a symbol of quoted
    data is itself. *)
Inductive scoped :=
| SBound (i : nat)
| SFree (x : string)
| SSymbol (x : string)
| SLeaf (type : Z) (data : leaf_data)
| SBinder
| SNone
| SNode (l : label) (children : list scoped)
| SOpaque.

Fixpoint index (x : string) (env : list string) : option nat :=
  match env with [] => None | y :: env' => if String.eqb x y then Some O else S <$> index x env' end.

(** A marked name that nothing marked binds is the plain name. *)
Definition resolve_id (env : list string) (x : string) : scoped :=
  match index x env with
  | Some i => SBound i
  | None =>
      let y := match unmark x with Some y => y | None => x end in
      match index y env with Some i => SBound i | None => SFree y end
  end.

Definition binder_of (p : ast) : option string := match p with Var x => Some x | _ => None end.
Definition bind_name (env : list string) (x : option string) : list string := match x with Some x => x :: env | None => env end.
Definition bind_nodes (env : list string) (ps : list ast) : list string := foldl (λ env p, bind_name env (binder_of p)) env ps.

Definition let_vars (lets : list ast) : list ast := omap binding_var lets.

Definition scoped_opt (f : ast → scoped) (o : option ast) : scoped := match o with Some a => f a | None => SNone end.

(** A parameter, or what stands in its place. *)
Definition resolve_param (res : ast → scoped) (p : ast) : scoped := match p with Var _ => SBinder | _ => res p end.

(** The bindings of a [let]: a value sees the scope around the form, the variables
    before its own, or all of them. *)
Definition resolve_bindings (res : list string → ast → scoped) (form : let_form) (env inside : list string) :
    list string → list ast → list scoped :=
  fix go (sofar : list string) (lets : list ast) : list scoped :=
    match lets with
    | [] => []
    | Cons (Some var) value :: lets' =>
        let scope := match form with LET => env | LET_STAR => sofar | _ => inside end in
        SNode LbBinding [resolve_param (res env) var; scoped_opt (res scope) value]
          :: go (bind_name sofar (binder_of var)) lets'
    | _ :: lets' => SOpaque :: go sofar lets'
    end.

(** The forms whose binders are [lambda] parameters and the variables of the [let]
    family are resolved; the others are opaque. *)
Fixpoint resolve (datum : bool) (env : list string) (a : ast) {struct a} : scoped :=
  match a with
  | Leaf type data => SLeaf type data
  | Var x => if datum then SSymbol x else resolve_id env x
  | Cons car cdr => SNode LbCons [scoped_opt (resolve datum env) car; scoped_opt (resolve datum env) cdr]
  | CallOp CASE _ _ | CallOp DO _ _ => SOpaque
  | CallOp form func variables =>
      let inner := resolve (enter_form form datum) env in
      SNode (LbCall form) (scoped_opt inner func :: map inner variables)
  | SequenceOp form l => SNode (LbSequence form) (map (resolve datum env) l)
  | LambdaOp ps rest body =>
      let inside := bind_name (bind_nodes env ps) rest in
      SNode (LbLambda (bool_decide (is_Some rest)))
        (map (resolve_param (resolve datum env)) ps ++ [scoped_opt (resolve datum inside) body])
  | LetOp form lets body name =>
      let outer := bind_name env name in
      let inside := bind_nodes outer (let_vars lets) in
      SNode (LbLet form (bool_decide (is_Some name)))
        (resolve_bindings (resolve datum) form env inside outer lets ++ [scoped_opt (resolve datum inside) body])
  | SetOp name value => SNode LbSet [if datum then SSymbol name else resolve_id env name; scoped_opt (resolve datum env) value]
  | RaiseOp e => SNode LbRaise [scoped_opt (resolve datum env) e]
  | ValuesOp l => SNode LbValues (map (resolve datum env) l)
  | CallCcOp p => SNode LbCallCc [scoped_opt (resolve datum env) p]
  | DynamicWindOp b t c => SNode LbWind [scoped_opt (resolve datum env) b; scoped_opt (resolve datum env) t; scoped_opt (resolve datum env) c]
  | _ => SOpaque
  end.

(** ** The reference expansion

    Every identifier of the template is marked, in a binder or not, and the forms of
    the caller are put in as they are. *)

Definition pattern_value (B : bindings) (name : string) : option (option ast) :=
  match B !! name with
  | Some t => if matchTreeHasValue t then Some <$> matchTreeFirstScalar t else Some None
  | None => Some None
  end.

Definition mark_name (B : bindings) (x : string) : string := if bool_decide (B !! x = None) then mark x else x.

Definition mark_var (datum : bool) (B : bindings) (x : string) : option ast :=
  v ← pattern_value B x; Some (match v with Some a => a | None => Var (if datum then x else mark_name B x) end).

Definition mark_target (B : bindings) (x : string) : option string :=
  v ← pattern_value B x; Some (match v with Some (Var y) => y | Some _ => x | None => mark_name B x end).

Definition all_of {A C} (f : A → option C) : list A → option (list C) :=
  fix go (l : list A) : option (list C) := match l with [] => Some [] | a :: l' => r ← f a; r' ← go l'; Some (r :: r') end.

Definition opt_of {A C} (f : A → option C) (o : option A) : option (option C) :=
  match o with Some a => Some <$> f a | None => Some None end.

Fixpoint mark_repetitions (inst : bindings → option ast) (a : ast) (more : nat) (B : bindings) : option (list ast) :=
  match findEllipsisDriver B a with
  | None => r ← inst B; Some [r]
  | Some drive =>
      let n := match B !! drive with Some t => length (tree_elements t) | None => O end in
      rs ← all_of (λ i,
        match more with
        | O => r ← inst (peelBindingsAtIndex B i); Some [r]
        | S more' => mark_repetitions inst a more' (peelBindingsAtIndex B i)
        end) (seq 0 n);
      Some (concat rs)
  end.

Definition mark_items (markBindings : ast → bindings → option ast) (B : bindings) : nat → list ast → option (list ast) :=
  fix go (skip : nat) (items : list ast) : option (list ast) :=
    match items with
    | [] => Some []
    | a :: items' =>
        match skip with
        | S skip' => go skip' items'
        | O =>
            match count_ellipses items' with
            | S more => l ← mark_repetitions (markBindings a) a more B; rest ← go (S more) items'; Some (l ++ rest)
            | O => if isEllipsisSymbol a then go O items' else r ← markBindings a B; rest ← go O items'; Some (r :: rest)
            end
        end
    end.

Definition mark_child (f : ast → option ast) (o : option ast) : option (option ast) :=
  match o with Some a => Some <$> f a | None => Some (Some empty_ast) end.

Fixpoint markBindings (datum : bool) (a : ast) (B : bindings) {struct a} : option ast :=
  match a with
  | Var x => mark_var datum B x
  | Cons car cdr =>
      car' ← mark_child (λ e, markBindings datum e B) car; cdr' ← mark_child (λ e, markBindings datum e B) cdr; Some (Cons car' cdr')
  | CallOp form func l =>
      func' ← opt_of (λ e, markBindings (enter_form form datum) e B) func;
      l' ← mark_items (markBindings (enter_form form datum)) B O l; Some (CallOp form func' l')
  | SequenceOp form l => l' ← mark_items (markBindings datum) B O l; Some (SequenceOp form l')
  | LambdaOp ps rest body =>
      ps' ← all_of (λ p, markBindings datum p B) ps;
      body' ← opt_of (λ e, markBindings datum e B) body;
      Some (LambdaOp ps' (mark_name B <$> rest) body')
  | LetOp form lets body name =>
      lets' ← all_of (λ b, markBindings datum b B) lets;
      body' ← opt_of (λ e, markBindings datum e B) body;
      Some (LetOp form lets' body' (mark_name B <$> name))
  | SetOp name value =>
      name' ← mark_target B name; value' ← opt_of (λ e, markBindings datum e B) value; Some (SetOp name' value')
  | RaiseOp e => e' ← opt_of (λ e, markBindings datum e B) e; Some (RaiseOp e')
  | ValuesOp l => l' ← mark_items (markBindings datum) B O l; Some (ValuesOp l')
  | CallCcOp p => p' ← opt_of (λ e, markBindings datum e B) p; Some (CallCcOp p')
  | DynamicWindOp b t c =>
      b' ← opt_of (λ e, markBindings datum e B) b; t' ← opt_of (λ e, markBindings datum e B) t;
      c' ← opt_of (λ e, markBindings datum e B) c; Some (DynamicWindOp b' t' c')
  | _ => Some a
  end.

(** ** The forms the statement covers *)

Definition each {A} (P : A → Prop) : list A → Prop :=
  fix go (l : list A) : Prop := match l with [] => True | a :: l' => P a ∧ go l' end.

(** Code, quoted data, and quasiquoted data. *)
Inductive mode := Code | Quoted | Quasi.
Definition mode_datum (m : mode) : bool := match m with Code => false | _ => true end.

Definition enter_mode (form : call_form) (m : mode) : option mode :=
  match m, form with
  | Code, QUOTE => Some Quoted
  | Code, QUASIQUOTE => Some Quasi
  | Code, (CASE | DO) => None
  | Code, _ => Some Code
  | _, CALL => Some m
  | Quasi, (UNQUOTE | UNQUOTE_SPLICING) => Some Code
  | _, _ => None
  end.

Section Covered.
Context (c0 : N).

(** A form of the caller: no binders but those that are resolved. *)
Fixpoint caller_form (a : ast) : Prop :=
  match a with
  | Leaf _ _ => True
  | Var x => old_name c0 x
  | Cons car cdr => opt_all caller_form car ∧ opt_all caller_form cdr
  | CallOp form func l => form ≠ CASE ∧ form ≠ DO ∧ opt_all caller_form func ∧ each caller_form l
  | SequenceOp _ l | ValuesOp l => each caller_form l
  | LambdaOp ps rest body => each caller_form ps ∧ opt_all (old_name c0) rest ∧ opt_all caller_form body
  | LetOp _ lets body name =>
      each (λ b, match b with Cons (Some var) value => caller_form var ∧ opt_all caller_form value | _ => False end) lets ∧
      opt_all (old_name c0) name ∧ opt_all caller_form body
  | SetOp name value => old_name c0 name ∧ opt_all caller_form value
  | RaiseOp o | CallCcOp o => opt_all caller_form o
  | DynamicWindOp b t c => opt_all caller_form b ∧ opt_all caller_form t ∧ opt_all caller_form c
  | _ => False
  end.

Fixpoint caller_tree (t : match_tree) : Prop :=
  let '(Tree _ scalar elements) := t in caller_form scalar ∧ each caller_tree elements.

Definition caller_bindings (B : bindings) : Prop := ∀ x t, B !! x = Some t → caller_tree t.

(** A template over the pattern variables [V]: binders are names, no two binders of
    a [let] are the same name of the template, and a loop name is not used in the
    values of its variables ([avoid]). *)
Section Template.
Context (V : gset string).

Definition introduced (x : string) : Prop := x ∉ V.

Definition template_name (avoid : list string) (x : string) : Prop :=
  old_name c0 x ∧ x ≠ "" ∧ x ≠ "_" ∧ x ∉ avoid.

Definition field_name (avoid : list string) (o : option string) : Prop :=
  match o with Some x => template_name avoid x ∧ introduced x | None => True end.

Definition let_name (b : ast) : option string := match b with Cons (Some (Var x)) _ => Some x | _ => None end.

Definition distinct_binders (lets : list ast) : Prop := NoDup (filter (λ x, x ∉ V) (omap let_name lets)).

Fixpoint covered (m : mode) (avoid : list string) (a : ast) : Prop :=
  match a with
  | Leaf _ _ => True
  | Var x => template_name avoid x
  | Cons car cdr => opt_all (covered m avoid) car ∧ opt_all (covered m avoid) cdr
  | CallOp form func l =>
      match enter_mode form m with
      | Some m' => opt_all (covered m' avoid) func ∧ each (covered m' avoid) l
      | None => False
      end
  | SequenceOp _ l | ValuesOp l => m = Code ∧ each (covered m avoid) l
  | LambdaOp ps rest body =>
      m = Code ∧ each (λ p, match p with Var x => template_name avoid x | _ => False end) ps ∧
      field_name avoid rest ∧ opt_all (covered m avoid) body
  | LetOp form lets body name =>
      m = Code ∧ field_name avoid name ∧ (name ≠ None → form = LET) ∧ distinct_binders lets ∧
      each (λ b, match b with
                 | Cons (Some (Var x)) (Some value) =>
                     template_name avoid x ∧ covered m (match name with Some n => n :: avoid | None => avoid end) value
                 | _ => False
                 end) lets ∧
      opt_all (covered m avoid) body
  | SetOp name value => m = Code ∧ template_name avoid name ∧ opt_all (covered m avoid) value
  | RaiseOp o | CallCcOp o => m = Code ∧ opt_all (covered m avoid) o
  | DynamicWindOp b t c =>
      m = Code ∧ opt_all (covered m avoid) b ∧ opt_all (covered m avoid) t ∧ opt_all (covered m avoid) c
  | _ => False
  end.
End Template.
End Covered.

(** ** Fresh names *)

Fixpoint no_dot (s : string) : Prop := match s with String c s' => c ≠ Ascii.ascii_of_nat 46 ∧ no_dot s' | EmptyString => True end.

Lemma digit_not_dot x : pretty_N_char x ≠ Ascii.ascii_of_nat 46.
Proof. unfold pretty_N_char. repeat case_match; done. Qed.

Lemma pretty_no_dot (n : N) : no_dot (pretty n).
Proof.
  assert (∀ s, no_dot s → no_dot (pretty_N_go n s)) as Hgo.
  { induction (N.lt_wf_0 n) as [n _ IH]. intros s Hs. destruct (decide (n = 0)%N) as [->|Hn]; [done|].
    rewrite pretty_N_go_step by lia. apply IH; [apply N.div_lt; lia|]. split; [apply digit_not_dot|done]. }
  unfold pretty, pretty_N. case_decide; [done|]. by apply Hgo.
Qed.

Lemma split_at_dot s t x y : no_dot s → no_dot t → s +:+ "." +:+ x = t +:+ "." +:+ y → s = t ∧ x = y.
Proof.
  revert t. induction s as [|c s IH]; intros [|d t] Hs Ht E; simpl in *; simplify_eq; [done|naive_solver..|].
  destruct Hs, Ht. destruct (IH t) as [-> ->]; done.
Qed.

Lemma fresh_name_inj n m x y : (n < 2 ^ 64)%N → (m < 2 ^ 64)%N → fresh_name n x = fresh_name m y → n = m ∧ x = y.
Proof.
  intros Hn Hm E. unfold fresh_name in E. apply (inj (String.append "_h")) in E.
  apply split_at_dot in E as [E ->]; [|apply pretty_no_dot..]. apply (inj pretty) in E. rewrite !N.mod_small in E by lia. done.
Qed.

Lemma unmark_fresh n x : unmark (fresh_name n x) = None.
Proof. done. Qed.

Lemma unmark_mark x : unmark (mark x) = Some x.
Proof. done. Qed.

(** ** Two environments of the same scopes *)

Lemma index_cons_ne x y env : x ≠ y → index x (y :: env) = S <$> index x env.
Proof. intros. simpl. by destruct (String.eqb_spec x y). Qed.

Lemma index_cons_eq x env : index x (x :: env) = Some O.
Proof. simpl. by rewrite String.eqb_refl. Qed.

Lemma index_lookup x env i : index x env = Some i → env !! i = Some x.
Proof.
  revert i. induction env as [|y env IH]; intros i; [done|]. simpl. destruct (String.eqb_spec x y) as [->|]; [naive_solver|].
  intros (j & Hj & ->)%fmap_Some. by apply IH.
Qed.

Section Environments.
Context (c0 : N).

(** A binder of the output and of the reference: the same name of the caller, or a
    name allocated before [c] and the marked name. *)
Definition entry (c : N) (a b : string) : Prop :=
  (old_name c0 a ∧ a = b) ∨ ∃ n y, (c0 <= n < c)%N ∧ (n < 2 ^ 64)%N ∧ a = fresh_name n y ∧ b = mark y.

(** The renames in force give each name its binder, but for the names of [avoid]. *)
Definition env_rel (c : N) (rn : gmap string string) (avoid ec er : list string) : Prop :=
  Forall2 (entry c) ec er ∧
  ∀ x, x ∉ avoid →
    match rn !! x with
    | Some f => ∃ i, index f ec = Some i ∧ index (mark x) er = Some i
    | None => index (mark x) er = None
    end.

Lemma entry_mono c c' a b : (c <= c')%N → entry c a b → entry c' a b.
Proof. intros Hc [H|(n & y & ? & ? & ? & ?)]; [by left|]. right. exists n, y. split_and!; [lia..|done|done]. Qed.

Lemma env_rel_mono c c' rn avoid ec er : (c <= c')%N → env_rel c rn avoid ec er → env_rel c' rn avoid ec er.
Proof. intros Hc [H1 H2]. split; [|done]. eapply Forall2_impl; [|exact H1]. intros a b. by apply entry_mono. Qed.

Lemma entry_index c ec er x : Forall2 (entry c) ec er → old_name c0 x → index x ec = index x er.
Proof.
  intros H [Hu Hf]. induction H as [|a b ec er Hab _ IH]; [done|]. simpl.
  destruct Hab as [[_ <-]|(n & y & Hn & Hn' & -> & ->)]; [by rewrite IH|].
  destruct (String.eqb_spec x (fresh_name n y)) as [->|]; [by destruct (Hf n y); [lia|]|].
  destruct (String.eqb_spec x (mark y)) as [->|]; [done|]. by rewrite IH.
Qed.

Lemma resolve_old c ec er x : Forall2 (entry c) ec er → old_name c0 x → resolve_id ec x = resolve_id er x.
Proof. intros H Hx. pose proof Hx as [Hu _]. unfold resolve_id. by rewrite Hu, !(entry_index c ec er x). Qed.

(** An identifier of the template, renamed or not, and marked. *)
Lemma resolve_introduced c rn avoid ec er x : env_rel c rn avoid ec er → old_name c0 x → x ∉ avoid →
  resolve_id ec (match rn !! x with Some f => f | None => x end) = resolve_id er (mark x).
Proof.
  intros [H1 H2] Hx Ha. specialize (H2 x Ha). unfold resolve_id at 2. destruct (rn !! x) as [f|].
  - destruct H2 as (i & Hi & ->). unfold resolve_id. by rewrite Hi.
  - rewrite H2, unmark_mark. rewrite (resolve_old c ec er x H1 Hx). unfold resolve_id.
    destruct Hx as [-> _]. by destruct (index x er).
Qed.

(** Going under a binder. *)
Lemma push_old c rn avoid ec er y : env_rel c rn avoid ec er → old_name c0 y → env_rel c rn avoid (y :: ec) (y :: er).
Proof.
  intros [H1 H2] Hy. split; [constructor; [by left|done]|]. intros x Hx. specialize (H2 x Hx).
  destruct (rn !! x) as [f|].
  - destruct H2 as (i & Hi & Hm). exists (S i). apply index_lookup in Hi as Hl. apply index_lookup in Hm as Hl'.
    destruct (Forall2_lookup_lr _ _ _ _ _ _ H1 Hl Hl') as [[[Hu _] ->]|(n & z & ? & ? & -> & Hz)]; [done|].
    rewrite !index_cons_ne, Hi, Hm; [done| |].
    + intros <-. by destruct Hy.
    + intros <-. destruct Hy as [_ Hy]. by apply (Hy n z); [lia|].
  - rewrite index_cons_ne, H2; [done|]. intros <-. by destruct Hy.
Qed.

Lemma push_fresh c rn avoid ec er x : (c0 <= c < 2 ^ 64)%N → env_rel c rn avoid ec er →
  env_rel (c + 1) (<[x := fresh_name c x]> rn) avoid (fresh_name c x :: ec) (mark x :: er).
Proof.
  intros Hc [H1 H2]. split.
  - constructor; [right; exists c, x; split_and!; [lia..|done|done]|].
    eapply Forall2_impl; [|exact H1]. intros a b. apply entry_mono. lia.
  - intros z Hz. destruct (decide (z = x)) as [->|Hne].
    + rewrite lookup_insert_eq. exists O. by rewrite !index_cons_eq.
    + rewrite lookup_insert_ne by done. assert (mark z ≠ mark x) as Hm by (intros [=]; done).
      specialize (H2 z Hz). destruct (rn !! z) as [f|]; [|by rewrite index_cons_ne, H2].
      destruct H2 as (i & Hi & Hi'). exists (S i). apply index_lookup in Hi as Hl. apply index_lookup in Hi' as Hl'.
      destruct (Forall2_lookup_lr _ _ _ _ _ _ H1 Hl Hl') as [[[Hu _] ->]|(n & y & ? & ? & -> & _)]; [done|].
      rewrite !index_cons_ne, Hi, Hi'; [done|done|]. intros [-> _]%fresh_name_inj; lia.
Qed.

(** Names that are not used may have any renaming. *)
Lemma env_rel_avoid c rn rn' avoid avoid' ec er : env_rel c rn avoid ec er →
  (∀ x, x ∉ avoid' → x ∉ avoid ∧ rn' !! x = rn !! x) → env_rel c rn' avoid' ec er.
Proof. intros [H1 H2] Ha. split; [done|]. intros x [Hx ->]%Ha. by apply H2. Qed.

(** ** Forms of the caller *)

Lemma each_forall {A} (P : A → Prop) l : each P l ↔ Forall P l.
Proof. induction l as [|a l IH]; simpl; [by split; [constructor|]|]. by rewrite list.Forall_cons, IH. Qed.

Lemma bind_nodes_entry c ps ec er : Forall (caller_form c0) ps → Forall2 (entry c) ec er →
  Forall2 (entry c) (bind_nodes ec ps) (bind_nodes er ps).
Proof.
  intros Hps. revert ec er. induction Hps as [|p ps Hp _ IH]; intros ec er H; simpl; [done|]. apply IH.
  destruct p; try done. constructor; [by left|done].
Qed.

Lemma bind_name_entry c o ec er : opt_all (old_name c0) o → Forall2 (entry c) ec er →
  Forall2 (entry c) (bind_name ec o) (bind_name er o).
Proof. destruct o; simpl; intros Ho H; [|done]. constructor; [by left|done]. Qed.

Notation same a := (∀ d c ec er, Forall2 (entry c) ec er → resolve d ec a = resolve d er a).

Lemma same_list l d c ec er : Forall (λ a, caller_form c0 a → same a) l → each (caller_form c0) l → Forall2 (entry c) ec er →
  map (resolve d ec) l = map (resolve d er) l.
Proof. intros Hl. induction Hl as [|a l Ha _ IH]; [done|]. intros [Hc Hcs] H. simpl. f_equal; [by eapply Ha|by apply IH]. Qed.

Lemma same_params l d c ec er : Forall (λ a, caller_form c0 a → same a) l → each (caller_form c0) l → Forall2 (entry c) ec er →
  map (resolve_param (resolve d ec)) l = map (resolve_param (resolve d er)) l.
Proof.
  intros Hl. induction Hl as [|a l Ha _ IH]; [done|]. intros [Hc Hcs] H. simpl. f_equal; [|by apply IH].
  unfold resolve_param. destruct a; try done; by eapply Ha.
Qed.

Lemma same_opt o d c ec er : opt_all (λ a, caller_form c0 a → same a) o → opt_all (caller_form c0) o → Forall2 (entry c) ec er →
  scoped_opt (resolve d ec) o = scoped_opt (resolve d er) o.
Proof. destruct o as [a|]; [|done]. simpl. intros Ha Hc H. by eapply Ha. Qed.

(** The bindings of a [let] of the caller. *)
Definition caller_binding (b : ast) : Prop :=
  match b with Cons (Some var) value => caller_form c0 var ∧ opt_all (caller_form c0) value | _ => False end.

Lemma caller_vars lets : Forall caller_binding lets → Forall (caller_form c0) (let_vars lets).
Proof.
  induction 1 as [|b lets Hb _ IH]; [constructor|]. destruct b as [| |[var|] value| | | | | | | | | | | | | | |]; try done.
  unfold let_vars in *. simpl. constructor; [apply Hb|done].
Qed.

Lemma same_bindings lets d c form ec er ic ir : Forall (binding_all (λ a, caller_form c0 a → same a)) lets →
  Forall caller_binding lets → Forall2 (entry c) ec er → Forall2 (entry c) ic ir → ∀ sc sr, Forall2 (entry c) sc sr →
  resolve_bindings (resolve d) form ec ic sc lets = resolve_bindings (resolve d) form er ir sr lets.
Proof.
  intros Hl Hc He Hi. induction Hl as [|b lets Hb _ IH]; intros sc sr Hs; [done|].
  apply list.Forall_cons in Hc as [Hcb Hcs]. destruct b as [| |[var|] value| | | | | | | | | | | | | | |]; try done.
  destruct Hb as [_ [Hvar Hvalue]], Hcb as [Hcvar Hcvalue]. simpl. f_equal.
  - f_equal. f_equal; [|f_equal].
    + unfold resolve_param. destruct var; try done; by eapply Hvar.
    + by destruct form; eapply same_opt.
  - apply IH; [done|]. destruct var; try done. simpl. constructor; [by left|done].
Qed.

(** A form of the caller refers to the same binders in both. *)
Lemma resolve_caller a : caller_form c0 a → same a.
Proof.
  induction a using ast_deep_ind; intros Hc d c ec er H'; simpl in Hc; try done; destruct_and?.
  - simpl. destruct d; [done|]. by eapply resolve_old.
  - simpl. by rewrite !(same_opt _ d c ec er).
  - simpl. destruct form; try done; by rewrite (same_opt _ _ c ec er), (same_list _ _ c ec er).
  - simpl. by rewrite (same_list _ d c ec er).
  - simpl. rewrite (same_params _ d c ec er) by done.
    by rewrite (same_opt _ d c _ (bind_name (bind_nodes er parameters) rest));
      [..|apply bind_name_entry; [|apply bind_nodes_entry; [apply each_forall|]]].
  - simpl. rewrite each_forall in *. assert (Forall2 (entry c) (bind_name ec name) (bind_name er name)) as Hn by by apply bind_name_entry.
    assert (Forall2 (entry c) (bind_nodes (bind_name ec name) (let_vars lets)) (bind_nodes (bind_name er name) (let_vars lets))).
    { apply bind_nodes_entry; [by apply caller_vars|done]. }
    f_equal. f_equal; [by eapply same_bindings|]. f_equal. by eapply same_opt.
  - simpl. rewrite (same_opt _ d c ec er) by done. destruct d; [done|]. by rewrite (resolve_old c ec er).
  - simpl. by rewrite (same_opt _ d c ec er).
  - simpl. by rewrite (same_list _ d c ec er).
  - simpl. by rewrite (same_opt _ d c ec er).
  - simpl. by rewrite !(same_opt _ d c ec er).
Qed.
End Environments.

(** ** Substitution against the reference *)

#[export] Hint Resolve quiet_substitute : quiet.

Lemma quiet_subs l : Forall (λ a, ∀ B, quiet keeps_all (substituteBindings a B)) l.
Proof. apply Forall_true. intros a B. apply quiet_substitute. Qed.

Lemma quiet_sub_opt o B : quiet keeps_all (substitute_opt substituteBindings B o).
Proof. apply quiet_opt. destruct o; simpl; [apply quiet_substitute|done]. Qed.

Lemma quiet_sub_child o B : quiet keeps_all (substitute_child substituteBindings B o).
Proof. apply quiet_child. destruct o; simpl; [apply quiet_substitute|done]. Qed.

Lemma quiet_sub_items l B : quiet keeps_all (substituteBindingsInList substituteBindings l B).
Proof. apply quiet_items, quiet_subs. Qed.

Lemma quiet_sub_expand a more B : quiet keeps_all (expandEllipsisElementN (substituteBindings a) a more B).
Proof. apply quiet_expand_element. intros. apply quiet_substitute. Qed.

#[export] Hint Resolve quiet_sub_opt quiet_sub_child quiet_sub_items quiet_sub_expand : quiet.

Section Simulation.
Context (c0 : N).

(** [m] run with the renames [rn] in the mode [d] is simulated by [o]. *)
Definition simulates {A C} (Rel : A → C → Prop) (c : N) (rn : gmap string string) (d : bool) (m : ExpM A) (o : option C) : Prop :=
  ∀ s r s', active_renames_ s = rn → in_datum_ s = d → (c <= rename_counter_ s)%N → (rename_counter_ s' <= 2 ^ 64)%N →
  m s = Done r s' → ∃ q, o = Some q ∧ Rel r q.

Lemma sim_ret {A C} (Rel : A → C → Prop) c rn d r q : Rel r q → simulates Rel c rn d (mret r) (Some q).
Proof. intros H s r' s' _ _ _ _ [= -> ->]. eauto. Qed.

Lemma sim_bind {A A' C C'} (Rel : A → C → Prop) (Rel' : A' → C' → Prop) c rn d (m : ExpM A) (f : A → ExpM A') o g :
  quiet keeps_all m → (∀ r, quiet keeps_all (f r)) →
  simulates Rel c rn d m o → (∀ r q, Rel r q → simulates Rel' c rn d (f r) (g q)) → simulates Rel' c rn d (m ≫= f) (o ≫= g).
Proof.
  intros Qm Qf Hm Hf s r s' Hrn Hd Hc Hs' (a & s1 & E1 & E2)%bind_inv.
  pose proof (Qm s) as K1. rewrite E1 in K1. pose proof (Qf a s1) as K2. rewrite E2 in K2.
  destruct K1 as [(_ & Kd & Kc & _) Kr], K2 as [(_ & _ & Kc' & _) _].
  destruct (Hm s a s1 Hrn Hd Hc ltac:(lia) E1) as (q & -> & Hq). simpl.
  apply (Hf a q Hq s1 r s'); [congruence|congruence|lia|done|done].
Qed.

Lemma sim_weaken {A C} (Rel Rel' : A → C → Prop) c rn d m o : (∀ r q, Rel r q → Rel' r q) → simulates Rel c rn d m o → simulates Rel' c rn d m o.
Proof. intros HR Hm s r s' ?????. destruct (Hm s r s') as (q & ? & ?); eauto. Qed.

Lemma sim_list {A A' C} (Rel : A → C → Prop) c rn d (f : A' → ExpM A) (g : A' → option C) l :
  (∀ x, quiet keeps_all (f x)) → Forall (λ x, simulates Rel c rn d (f x) (g x)) l →
  simulates (Forall2 Rel) c rn d (list_walk f l) (all_of g l).
Proof.
  intros Qf Hl. assert (∀ l, quiet keeps_all (list_walk f l)) as Ql.
  { intros l'. apply quiet_list_walk; [apply _|]. by apply Forall_true. }
  induction Hl as [|x l Hx _ IH]; [by apply sim_ret|]. simpl.
  eapply sim_bind; [done| |done|]. { intros r. quiet_steps. }
  intros r q Hrq. eapply sim_bind; [done| |done|]. { intros rs. quiet_steps. }
  intros rs qs Hrs. apply sim_ret. by constructor.
Qed.

Lemma forall2_concat {A C} (R : A → C → Prop) ls ks : Forall2 (Forall2 R) ls ks → Forall2 R (concat ls) (concat ks).
Proof. induction 1; simpl; [constructor|by apply Forall2_app]. Qed.

(** The same scopes under any environments of the two outputs. *)
Definition alike (c : N) (rn : gmap string string) (avoid : list string) (d : bool) (r q : ast) : Prop :=
  ∀ ec er, env_rel c0 c rn avoid ec er → resolve d ec r = resolve d er q.

Definition alike_opt c rn avoid d : option ast → option ast → Prop := option_Forall2 (alike c rn avoid d).

Lemma alike_caller c rn avoid d a : caller_form c0 a → alike c rn avoid d a a.
Proof. intros Ha ec er [H _]. by eapply resolve_caller. Qed.

Lemma alike_map c rn avoid d rs qs ec er : Forall2 (alike c rn avoid d) rs qs → env_rel c0 c rn avoid ec er →
  map (resolve d ec) rs = map (resolve d er) qs.
Proof. intros H He. induction H as [|r q rs qs Hrq _ IH]; [done|]. simpl. f_equal; [by apply Hrq|done]. Qed.

Lemma alike_scoped_opt c rn avoid d r q ec er : alike_opt c rn avoid d r q → env_rel c0 c rn avoid ec er →
  scoped_opt (resolve d ec) r = scoped_opt (resolve d er) q.
Proof. intros H He. destruct H as [r q H|]; [by apply H|done]. Qed.

(** ** Pattern variables *)

Definition caller_value (v w : option ast) : Prop := v = w ∧ opt_all (caller_form c0) v.

Lemma first_scalar_caller t a : caller_tree c0 t → matchTreeFirstScalar t = Some a → caller_form c0 a.
Proof.
  revert t. fix IH 1. intros [d scalar l] [Hs Hl] E. destruct d as [|d]; simpl in E; [by simplify_eq|].
  destruct l as [|t l]; [done|]. destruct Hl as [Ht _]. by apply (IH t).
Qed.

Lemma sim_bound_value c rn d B x : caller_bindings c0 B → simulates caller_value c rn d (bound_value B x) (pattern_value B x).
Proof.
  intros HB. unfold bound_value, pattern_value. destruct (B !! x) as [t|] eqn:E; [|by apply sim_ret].
  destruct (matchTreeHasValue t); [|by apply sim_ret]. destruct (matchTreeFirstScalar t) as [a|] eqn:Ea; [|by intros s r s'].
  apply sim_ret. split; [done|]. simpl. eapply first_scalar_caller; [|done]. by eapply HB.
Qed.

Lemma peel_caller B i : caller_bindings c0 B → caller_bindings c0 (peelBindingsAtIndex B i).
Proof.
  intros HB x t Hx. unfold peelBindingsAtIndex in Hx. rewrite lookup_fmap in Hx.
  destruct (B !! x) as [t'|] eqn:E; [|done]. simpl in Hx. injection Hx as <-. specialize (HB x t' E).
  destruct t' as [d scalar l]. unfold peel_tree. simpl. destruct d as [|d]; [done|]. destruct (l !! _) as [t|] eqn:Et; [|done].
  destruct HB as [_ Hl]. rewrite each_forall in Hl. by eapply Forall_lookup_1.
Qed.

Lemma peel_dom B i : dom (peelBindingsAtIndex B i) = dom B.
Proof. unfold peelBindingsAtIndex. apply dom_fmap_L. Qed.

(** ** The statement, for one template *)

Definition tracks (a : ast) : Prop := ∀ B avoid m c rn, (c0 <= c)%N →
  covered c0 (dom B) m avoid a → caller_bindings c0 B → dom rn ## dom B →
  simulates (alike c rn avoid (mode_datum m)) c rn (mode_datum m) (substituteBindings a B) (markBindings (mode_datum m) a B).

Lemma tracks_var x : tracks (Var x).
Proof.
  intros B avoid m c rn Hc (Hold & _ & _ & Ha) HB Hdom. simpl.
  eapply sim_bind; [apply quiet_bound_value, _| |by apply sim_bound_value|].
  { intros [v|]; [quiet_steps|]. apply quiet_bind; [apply _|apply quiet_get, _|intros s]. case_match; apply quiet_ret, _. }
  intros v w [-> Hv]. destruct w as [a|]; [by apply sim_ret, alike_caller|].
  intros s r s' Hrn Hd _ _ E. rewrite (bind_done get _ s s s) in E by done. rewrite Hrn, Hd in E.
  eexists. split; [done|]. intros ec er He. unfold mark_name.
  assert (r = Var (if mode_datum m then x else match rn !! x with Some f => f | None => x end)) as ->.
  { destruct (rn !! x), (mode_datum m); unfold mret, exp_ret in E; by simplify_eq. }
  simpl. destruct (mode_datum m) eqn:Em; [done|]. case_bool_decide as Hx.
  - by eapply resolve_introduced.
  - destruct (rn !! x) as [f|] eqn:Ef; [|destruct He as [He _]; by eapply resolve_old].
    apply not_eq_None_Some in Hx as [t Ht]. apply elem_of_dom_2 in Ef. apply elem_of_dom_2 in Ht. set_solver.
Qed.

(** An ellipsis with nothing to repeat is reported, and its element taken once. *)
Lemma tracks_error a B avoid m c rn : tracks a → (c0 <= c)%N →
  covered c0 (dom B) m avoid a → caller_bindings c0 B → dom rn ## dom B →
  simulates (Forall2 (alike c rn avoid (mode_datum m))) c rn (mode_datum m)
    (_ ← eshkol_error misplaced_ellipsis; r ← substituteBindings a B; mret [r]) (r ← markBindings (mode_datum m) a B; Some [r]).
Proof.
  intros Ha Hc Hcov HB Hdom s r s' Hrn Hd Hcs Hs' E. unfold eshkol_error in E. apply bind_inv in E as (? & s1 & [= _ <-] & E).
  apply bind_inv in E as (r1 & s2 & E & [= <- <-]).
  match type of E with _ ?s0 = _ => destruct (Ha B avoid m c rn Hc Hcov HB Hdom s0 r1 s2 Hrn Hd Hcs Hs' E) as (q & -> & Hq) end. exists [q]. split; [done|by constructor].
Qed.

Lemma tracks_repetitions a : tracks a → ∀ more B avoid m c rn, (c0 <= c)%N →
  covered c0 (dom B) m avoid a → caller_bindings c0 B → dom rn ## dom B →
  simulates (Forall2 (alike c rn avoid (mode_datum m))) c rn (mode_datum m)
    (expandEllipsisElementN (substituteBindings a) a more B) (mark_repetitions (markBindings (mode_datum m) a) a more B).
Proof.
  intros Ha more. induction more as [|more IH]; intros B avoid m c rn Hc Hcov HB Hdom; simpl.
  all: destruct (findEllipsisDriver B a) as [x|].
  all: try by eapply tracks_error.
  all: eapply (sim_bind (Forall2 (Forall2 (alike c rn avoid (mode_datum m))))); [| | |].
  all: try (intros rs qs Hrs; apply sim_ret; by apply forall2_concat).
  all: try (intros rs; apply quiet_ret, _).
  all: try (apply quiet_list_walk; [apply _|]; apply Forall_true; intros i; quiet_steps).
  all: try (apply sim_list; [intros i; quiet_steps|]; apply Forall_true; intros i).
  - eapply sim_bind; [apply quiet_substitute|intros r; apply quiet_ret, _|apply (Ha _ avoid m); [done|by rewrite peel_dom|by apply peel_caller|by rewrite peel_dom]|].
    intros r q Hrq. apply sim_ret. by repeat constructor.
  - apply IH; [done|by rewrite peel_dom|by apply peel_caller|by rewrite peel_dom].
Qed.

Lemma tracks_items l B avoid m c rn : Forall tracks l → (c0 <= c)%N →
  each (covered c0 (dom B) m avoid) l → caller_bindings c0 B → dom rn ## dom B →
  simulates (Forall2 (alike c rn avoid (mode_datum m))) c rn (mode_datum m)
    (substituteBindingsInList substituteBindings l B) (mark_items (markBindings (mode_datum m)) B O l).
Proof.
  intros Hl Hc Hcov HB Hdom. unfold substituteBindingsInList. generalize O as skip.
  assert (∀ skip l', quiet keeps_all (substitute_items substituteBindings B skip l')) as Qi.
  { intros skip l'. revert skip. induction l' as [|a l' IH]; intros skip; simpl; [quiet_steps|].
    destruct skip; [|apply IH]. destruct (count_ellipses l') as [|more]; [destruct (isEllipsisSymbol a)|].
    all: try (apply quiet_bind; [apply _|by apply quiet_error|intros _; apply IH]).
    all: apply quiet_bind; [apply _|eauto with quiet|intros r]; apply quiet_bind; [apply _|apply IH|intros r']; quiet_steps. }
  induction Hl as [|a l Ha _ IH]; intros skip; simpl; [by apply sim_ret|].
  destruct Hcov as [Hca Hcl]. specialize (IH Hcl). destruct skip as [|skip]; [|apply IH].
  destruct (count_ellipses l) as [|more].
  - destruct (isEllipsisSymbol a).
    + intros s r s' Hrn Hd Hcs Hs' E. unfold eshkol_error in E. apply bind_inv in E as (? & s1 & [= _ <-] & E).
      match type of E with _ ?s0 = _ => by destruct (IH O s0 r s' Hrn Hd Hcs Hs' E) as (q & Hq & ?); exists q end.
    + eapply sim_bind; [apply quiet_substitute| |by apply (Ha B avoid m)|].
      { intros r. apply quiet_bind; [apply _|apply Qi|intros; quiet_steps]. }
      intros r q Hrq. eapply sim_bind; [apply Qi|intros; quiet_steps|apply IH|].
      intros rs qs Hrs. apply sim_ret. by constructor.
  - eapply sim_bind; [apply quiet_sub_expand| |by apply (tracks_repetitions a Ha more B avoid m)|].
    { intros r. apply quiet_bind; [apply _|apply Qi|intros; quiet_steps]. }
    intros r q Hrq. eapply sim_bind; [apply Qi|intros; quiet_steps|apply IH|].
    intros rs qs Hrs. apply sim_ret. by apply Forall2_app.
Qed.

Lemma tracks_opt o B avoid m c rn : opt_all tracks o → (c0 <= c)%N →
  opt_all (covered c0 (dom B) m avoid) o → caller_bindings c0 B → dom rn ## dom B →
  simulates (alike_opt c rn avoid (mode_datum m)) c rn (mode_datum m)
    (substitute_opt substituteBindings B o) (opt_of (λ e, markBindings (mode_datum m) e B) o).
Proof.
  intros Ho Hc Hcov HB Hdom. destruct o as [a|]; simpl; [|apply sim_ret; constructor].
  intros s r s' Hrn Hd Hcs Hs' (b & s1 & E & [= <- <-])%bind_inv.
  destruct (Ho B avoid m c rn Hc Hcov HB Hdom s b s1 Hrn Hd Hcs Hs' E) as (q & -> & Hq). exists (Some q). split; [done|by constructor].
Qed.

Lemma tracks_child o B avoid m c rn : opt_all tracks o → (c0 <= c)%N →
  opt_all (covered c0 (dom B) m avoid) o → caller_bindings c0 B → dom rn ## dom B →
  simulates (alike_opt c rn avoid (mode_datum m)) c rn (mode_datum m)
    (substitute_child substituteBindings B o) (mark_child (λ e, markBindings (mode_datum m) e B) o).
Proof.
  intros Ho Hc Hcov HB Hdom. destruct o as [a|]; simpl; [|apply sim_ret; by constructor].
  intros s r s' Hrn Hd Hcs Hs' (b & s1 & E & [= <- <-])%bind_inv.
  destruct (Ho B avoid m c rn Hc Hcov HB Hdom s b s1 Hrn Hd Hcs Hs' E) as (q & -> & Hq). exists (Some q). split; [done|by constructor].
Qed.

(** ** Forms without binders *)

Lemma mode_datum_enter m form m' : enter_mode form m = Some m' → enter_form form (mode_datum m) = mode_datum m'.
Proof. by destruct m, form; intros [= <-]. Qed.

Lemma enter_not_opaque m form m' : enter_mode form m = Some m' → form ≠ CASE ∧ form ≠ DO.
Proof. by destruct m, form. Qed.

Lemma tracks_cons car cdr : opt_all tracks car → opt_all tracks cdr → tracks (Cons car cdr).
Proof.
  intros Ha Hd B avoid m c rn Hc [Hca Hcd] HB Hdom. simpl.
  eapply sim_bind; [quiet_steps| |by apply (tracks_child car B avoid m)|]; [intros; quiet_steps|].
  intros r q Hrq. eapply sim_bind; [quiet_steps|intros; quiet_steps|by apply (tracks_child cdr B avoid m)|].
  intros r' q' Hrq'. apply sim_ret. intros ec er He. simpl. by rewrite (alike_scoped_opt _ _ _ _ _ _ _ _ Hrq He), (alike_scoped_opt _ _ _ _ _ _ _ _ Hrq' He).
Qed.

Lemma tracks_call form func l : opt_all tracks func → Forall tracks l → tracks (CallOp form func l).
Proof.
  intros Hf Hl B avoid m c rn Hc Hcov HB Hdom. simpl in Hcov. destruct (enter_mode form m) as [m'|] eqn:Em; [|done]. destruct Hcov as [Hcf Hcl].
  pose proof (mode_datum_enter _ _ _ Em) as Hd. pose proof (enter_not_opaque _ _ _ Em) as [Hn1 Hn2]. simpl. rewrite Hd.
  intros s r s' Hrn Hds Hcs Hs' E. unfold scoped_datum in E. apply bind_inv in E as (? & ? & [= <- <-] & E).
  apply bind_inv in E as (? & s1 & [= _ <-] & E). apply bind_inv in E as (r1 & s2 & E & (? & ? & [= _ <-] & [= <- <-])%bind_inv).
  simpl in Hs'. match type of E with _ ?s0 = _ => assert (∃ q, (func' ← opt_of (λ e, markBindings (mode_datum m') e B) func;
    l' ← mark_items (markBindings (mode_datum m')) B 0 l; Some (CallOp form func' l')) = Some q ∧ alike c rn avoid (mode_datum m) r1 q) as Hq end.
  2: exact Hq.
  revert E. match goal with |- _ ?s0 = _ → _ => assert (active_renames_ s0 = rn ∧ in_datum_ s0 = mode_datum m' ∧ (c <= rename_counter_ s0)%N) as (H1 & H2 & H3) end.
  { simpl. by rewrite Hds. }
  revert H1 H2 H3. match goal with |- context [in_datum_ ?s0] => generalize s0 end. intros s0 H1 H2 H3 E.
  assert (simulates (alike c rn avoid (mode_datum m)) c rn (mode_datum m')
    (func' ← substitute_opt substituteBindings B func; variables' ← substituteBindingsInList substituteBindings l B; mret (CallOp form func' variables'))
    (func' ← opt_of (λ e, markBindings (mode_datum m') e B) func; l' ← mark_items (markBindings (mode_datum m')) B 0 l; Some (CallOp form func' l'))) as Hsim.
  { eapply sim_bind; [quiet_steps| |by apply (tracks_opt func B avoid m')|]; [intros; quiet_steps|].
    intros f' qf Hf'. eapply sim_bind; [quiet_steps|intros; quiet_steps|by apply (tracks_items l B avoid m')|].
    intros l' ql Hl'. apply sim_ret. intros ec er He. simpl.
    destruct form; try done; rewrite ?Hd, (alike_scoped_opt _ _ _ _ _ _ _ _ Hf' He), (alike_map _ _ _ _ _ _ _ _ Hl' He); done. }
  by eapply Hsim.
Qed.

Lemma tracks_list (C : list ast → ast) (lb : label) l
  (HC : ∀ d env l, resolve d env (C l) = SNode lb (map (resolve d env) l))
  (HS : ∀ B, substituteBindings (C l) B = (l' ← substituteBindingsInList substituteBindings l B; mret (C l')))
  (HM : ∀ d B, markBindings d (C l) B = (l' ← mark_items (markBindings d) B O l; Some (C l')))
  (HV : ∀ V m avoid, covered c0 V m avoid (C l) → each (covered c0 V m avoid) l) : Forall tracks l → tracks (C l).
Proof.
  intros Hl B avoid m c rn Hc Hcov%HV HB Hdom. rewrite HS, HM.
  eapply sim_bind; [quiet_steps|intros; quiet_steps|by apply (tracks_items l B avoid m)|].
  intros r q Hrq. apply sim_ret. intros ec er He. by rewrite !HC, (alike_map _ _ _ _ _ _ _ _ Hrq He).
Qed.

Lemma tracks_one (C : option ast → ast) (lb : label) o
  (HC : ∀ d env o, resolve d env (C o) = SNode lb [scoped_opt (resolve d env) o])
  (HS : ∀ B, substituteBindings (C o) B = (o' ← substitute_opt substituteBindings B o; mret (C o')))
  (HM : ∀ d B, markBindings d (C o) B = (o' ← opt_of (λ e, markBindings d e B) o; Some (C o')))
  (HV : ∀ V m avoid, covered c0 V m avoid (C o) → opt_all (covered c0 V m avoid) o) : opt_all tracks o → tracks (C o).
Proof.
  intros Ho B avoid m c rn Hc Hcov%HV HB Hdom. rewrite HS, HM.
  eapply sim_bind; [quiet_steps|intros; quiet_steps|by apply (tracks_opt o B avoid m)|].
  intros r q Hrq. apply sim_ret. intros ec er He. by rewrite !HC, (alike_scoped_opt _ _ _ _ _ _ _ _ Hrq He).
Qed.

Lemma tracks_wind b t a : opt_all tracks b → opt_all tracks t → opt_all tracks a → tracks (DynamicWindOp b t a).
Proof.
  intros Hb Ht Ha B avoid m c rn Hc (_ & Hcb & Hct & Hca) HB Hdom. simpl.
  eapply sim_bind; [quiet_steps|intros; quiet_steps|by apply (tracks_opt b B avoid m)|].
  intros r1 q1 H1. eapply sim_bind; [quiet_steps|intros; quiet_steps|by apply (tracks_opt t B avoid m)|].
  intros r2 q2 H2. eapply sim_bind; [quiet_steps|intros; quiet_steps|by apply (tracks_opt a B avoid m)|].
  intros r3 q3 H3. apply sim_ret. intros ec er He. simpl.
  by rewrite (alike_scoped_opt _ _ _ _ _ _ _ _ H1 He), (alike_scoped_opt _ _ _ _ _ _ _ _ H2 He), (alike_scoped_opt _ _ _ _ _ _ _ _ H3 He).
Qed.

(** The target of an assignment is an identifier. *)
Lemma sim_target B avoid c rn x : (c0 <= c)%N → template_name c0 avoid x → caller_bindings c0 B → dom rn ## dom B →
  simulates (λ r q, alike c rn avoid false (Var r) (Var q)) c rn false (substitute_target B x) (mark_target B x).
Proof.
  intros Hc Hx HB Hdom. eapply sim_bind; [apply quiet_bound_value, _| |by apply sim_bound_value|].
  { intros [v|]; [case_match; quiet_steps|]. apply quiet_bind; [apply _|apply quiet_get, _|intros; quiet_steps]. }
  pose proof Hx as (Hold & _ & _ & Hav).
  assert (∀ y, old_name c0 y → alike c rn avoid false (Var y) (Var y)) as Hy by (intros; by apply alike_caller).
  intros v w [-> Hv]. destruct w as [a|].
  { destruct a; apply sim_ret; try by apply Hy. }
  intros s r s' Hrn Hd Hcs _ E. rewrite (bind_done get _ s s s) in E by done. unfold mret, exp_ret in E. injection E as <- <-.
  eexists. split; [done|]. rewrite Hrn. intros ec er He. simpl. unfold mark_name. case_bool_decide as Hb; [by eapply resolve_introduced|].
  apply not_eq_None_Some in Hb as [t Ht]. apply elem_of_dom_2 in Ht.
  destruct (rn !! x) eqn:Ef; [apply elem_of_dom_2 in Ef; set_solver|]. destruct He as [He _]. by eapply resolve_old.
Qed.

Lemma tracks_set name value : opt_all tracks value → tracks (SetOp name value).
Proof.
  intros Hv B avoid m c rn Hc (-> & Hname & Hcv) HB Hdom. simpl.
  eapply sim_bind; [apply quiet_target|intros; quiet_steps|by apply (sim_target B avoid)|].
  intros x y Hxy. eapply sim_bind; [quiet_steps|intros; quiet_steps|by apply (tracks_opt value B avoid Code)|].
  intros v w Hvw. apply sim_ret. intros ec er He. simpl. specialize (Hxy ec er He). simpl in Hxy.
  pose proof (alike_scoped_opt _ _ _ _ _ _ _ _ Hvw He) as Hs. simpl in Hs. by rewrite Hxy, Hs.
Qed.

(** ** Binders *)

Lemma renameable_spec avoid x B : template_name c0 avoid x → isRenameableBinder x B = bool_decide (B !! x = None).
Proof. intros (_ & H1 & H2 & _). unfold isRenameableBinder. by destruct (String.eqb_spec x ""), (String.eqb_spec x "_"). Qed.

(** The state after a name of the template is allocated. *)
Definition allocated (x : string) (s s1 : expander) : Prop :=
  active_renames_ s1 = <[x := fresh_name (rename_counter_ s) x]> (active_renames_ s) ∧
  rename_counter_ s1 = (rename_counter_ s + 1)%N ∧ in_datum_ s1 = in_datum_ s.

Lemma rename_node_inv avoid B x s u s1 : template_name c0 avoid x → rename_node B (Var x) s = Done u s1 →
  (B !! x = None ∧ allocated x s s1) ∨ (B !! x ≠ None ∧ s1 = s).
Proof.
  intros Hx E. simpl in E. rewrite (renameable_spec avoid) in E by done. case_bool_decide.
  - left. split; [done|]. unfold freshName, set_counter, set_renames, mbind, exp_bind, get, mret, exp_ret in E. by simplify_eq.
  - right. unfold mret, exp_ret in E. by simplify_eq.
Qed.

Lemma rename_field_inv avoid B x s f s1 : template_name c0 avoid x → B !! x = None → rename_field B x s = Done f s1 →
  f = fresh_name (rename_counter_ s) x ∧ allocated x s s1.
Proof.
  intros Hx Hb E. unfold rename_field in E. rewrite (renameable_spec avoid), bool_decide_true in E by done.
  unfold freshName, set_counter, set_renames, mbind, exp_bind, get, mret, exp_ret in E. by simplify_eq.
Qed.

(** What stands for the binder [x] in the output and in the reference. *)
Definition binder_pair (rn : gmap string string) (B : bindings) (x : string) (r q : ast) : Prop :=
  (B !! x = None ∧ r = Var (default x (rn !! x)) ∧ q = Var (mark x)) ∨ (B !! x ≠ None ∧ r = q ∧ caller_form c0 r).

Lemma binder_value avoid B x s r s1 : template_name c0 avoid x → caller_bindings c0 B → dom (active_renames_ s) ## dom B →
  in_datum_ s = false → substitute_var B x s = Done r s1 →
  s1 = s ∧ ∃ q, mark_var false B x = Some q ∧ binder_pair (active_renames_ s) B x r q.
Proof.
  intros (Hold & _) HB Hdom Hd E. apply bind_inv in E as (v & s2 & E1 & E2).
  unfold mark_var, pattern_value. unfold bound_value in E1. destruct (B !! x) as [t|] eqn:Hx.
  - assert (active_renames_ s !! x = None) as Hr.
    { apply not_elem_of_dom. apply elem_of_dom_2 in Hx. set_solver. }
    destruct (matchTreeHasValue t).
    + destruct (matchTreeFirstScalar t) as [a|] eqn:Ea; [|done]. unfold mret, exp_ret in E1, E2. simplify_eq. split; [done|].
      exists r. split; [done|]. right. rewrite Hx. split_and!; [done|done|]. eapply first_scalar_caller; [|done]. by eapply HB.
    + unfold mret, exp_ret in E1. simplify_eq. rewrite (bind_done get _ s2 s2 s2) in E2 by done. rewrite Hr in E2.
      unfold mret, exp_ret in E2. simplify_eq. split; [done|]. simpl. unfold mark_name. rewrite bool_decide_false by (by rewrite Hx).
      eexists. split; [done|]. right. by rewrite Hx.
  - unfold mret, exp_ret in E1. simplify_eq. rewrite (bind_done get _ s2 s2 s2) in E2 by done. rewrite Hd in E2.
    assert (s1 = s2 ∧ r = Var (default x (active_renames_ s2 !! x))) as [-> ->].
    { destruct (active_renames_ s2 !! x); unfold mret, exp_ret in E2; by simplify_eq. }
    split; [done|]. simpl. unfold mark_name. rewrite bool_decide_true by done. eexists. split; [done|]. by left.
Qed.

Lemma binder_param rn B x r q c ec er : binder_pair rn B x r q → Forall2 (entry c0 c) ec er →
  resolve_param (resolve false ec) r = resolve_param (resolve false er) q.
Proof.
  intros [(_ & -> & ->)|(_ & -> & Hc)] H; [done|]. unfold resolve_param. destruct q; try done; by eapply resolve_caller.
Qed.

Lemma push_caller c rn avoid ec er a : env_rel c0 c rn avoid ec er → caller_form c0 a →
  env_rel c0 c rn avoid (bind_name ec (binder_of a)) (bind_name er (binder_of a)).
Proof. intros He Ha. destruct a; try done. by apply push_old. Qed.

Lemma fresh_disjoint (rn : gmap string string) (B : bindings) x f : B !! x = None → dom rn ## dom B → dom (<[x := f]> rn) ## dom B.
Proof. intros Hx Hd. apply not_elem_of_dom in Hx. rewrite dom_insert. set_solver. Qed.

(** The parameters of a [lambda]: each is in scope after the ones before. *)
Lemma params_inv avoid B ps s rs s1 :
  each (λ p, match p with Var x => template_name c0 avoid x | _ => False end) ps → caller_bindings c0 B →
  (c0 <= rename_counter_ s)%N → (rename_counter_ s1 <= 2 ^ 64)%N → dom (active_renames_ s) ## dom B → in_datum_ s = false →
  substitute_params substituteBindings B ps s = Done rs s1 →
  dom (active_renames_ s1) ## dom B ∧ in_datum_ s1 = false ∧ (rename_counter_ s <= rename_counter_ s1)%N ∧
  ∃ qs, all_of (λ p, markBindings false p B) ps = Some qs ∧
  (∀ c ec er, Forall2 (entry c0 c) ec er → map (resolve_param (resolve false ec)) rs = map (resolve_param (resolve false er)) qs) ∧
  (∀ av ec er, env_rel c0 (rename_counter_ s) (active_renames_ s) av ec er →
     env_rel c0 (rename_counter_ s1) (active_renames_ s1) av (bind_nodes ec rs) (bind_nodes er qs)).
Proof.
  revert s rs. induction ps as [|p ps IH]; intros s rs Hps HB Hc Hs1 Hdom Hd E.
  { simpl in E. unfold mret, exp_ret in E. simplify_eq. split_and!; [done..|lia|]. by exists []. }
  destruct Hps as [Hp Hps]. destruct p as [|x| | | | | | | | | | | | | | | |]; try done.
  unfold substitute_params in E. cbn [list_walk] in E. apply bind_inv in E as (r & s2 & E & E').
  apply bind_inv in E' as (rs' & s3 & E' & [= <- <-]). apply bind_inv in E as (u & s4 & E0 & E).
  assert (quiet keeps (substitute_params substituteBindings B ps)) as Q by apply quiet_params, quiet_subs.
  specialize (Q s2). unfold substitute_params in Q. rewrite E' in Q. destruct Q as (_ & _ & Q & _).
  destruct (rename_node_inv _ _ _ _ _ _ Hp E0) as [[Hx (Hr & Hn & Hd')]|[Hx ->]].
  - assert (dom (active_renames_ s4) ## dom B) as Hdom4 by (rewrite Hr; by apply fresh_disjoint).
    destruct (binder_value avoid B x s4 r s2 Hp HB Hdom4 ltac:(congruence) E) as (-> & q & Hq & Hpair).
    destruct (IH s4 rs' Hps HB ltac:(lia) Hs1 Hdom4 ltac:(congruence) E') as (Hd1 & Hd2 & Hle & qs & Hqs & Hmap & Henv).
    split_and!; [done..|lia|]. exists (q :: qs). simpl. rewrite Hq. simpl. rewrite Hqs. split_and!; [done| |].
    + intros c ec er H. simpl. f_equal; [by eapply binder_param|by eapply Hmap].
    + intros av ec er He. apply Henv. destruct Hpair as [(_ & -> & ->)|[? _]]; [|done]. simpl. rewrite Hr, lookup_insert_eq, Hn. simpl.
      apply push_fresh; [lia|done].
  - destruct (binder_value avoid B x s r s2 Hp HB Hdom Hd E) as (-> & q & Hq & Hpair).
    destruct (IH s rs' Hps HB Hc Hs1 Hdom Hd E') as (Hd1 & Hd2 & Hle & qs & Hqs & Hmap & Henv).
    split_and!; [done..|]. exists (q :: qs). simpl. rewrite Hq. simpl. rewrite Hqs. split_and!; [done| |].
    + intros c ec er H. simpl. f_equal; [by eapply binder_param|by eapply Hmap].
    + intros av ec er He. apply Henv. destruct Hpair as [[? _]|(_ & -> & Hq')]; [done|]. by apply push_caller.
Qed.

(** A name kept in the record of a form: a rest parameter or the name of a loop. *)
Lemma field_inv avoid B o s o' s1 : field_name c0 (dom B) avoid o → dom (active_renames_ s) ## dom B →
  opt_walk (rename_field B) o s = Done o' s1 → (c0 <= rename_counter_ s)%N → (rename_counter_ s1 <= 2 ^ 64)%N →
  dom (active_renames_ s1) ## dom B ∧ in_datum_ s1 = in_datum_ s ∧ (rename_counter_ s <= rename_counter_ s1)%N ∧
  bool_decide (is_Some o') = bool_decide (is_Some o) ∧
  (∀ av ec er, env_rel c0 (rename_counter_ s) (active_renames_ s) av ec er →
     env_rel c0 (rename_counter_ s1) (active_renames_ s1) av (bind_name ec o') (bind_name er (mark_name B <$> o)) ∧
     env_rel c0 (rename_counter_ s1) (active_renames_ s1) (match o with Some n => n :: av | None => av end) ec er).
Proof.
  intros Hf Hdom E Hc Hs1. destruct o as [n|]; simpl in E; [|unfold mret, exp_ret in E; simplify_eq; split_and!; [done..|lia|done|done]].
  destruct Hf as [Hn Hi]. apply not_elem_of_dom in Hi. apply bind_inv in E as (f & s2 & E & [= <- <-]).
  destruct (rename_field_inv _ _ _ _ _ _ Hn Hi E) as [-> (Hr & Hcn & Hd)]. rewrite Hr, Hcn in *.
  split_and!; [by apply fresh_disjoint|done|lia|done|].
  intros av ec er He. simpl. unfold mark_name. rewrite bool_decide_true by done. split; [apply push_fresh; [lia|done]|].
  apply env_rel_avoid with (active_renames_ s) av; [apply env_rel_mono with (rename_counter_ s); [lia|done]|].
  intros x [Hx Hx']%not_elem_of_cons. split; [done|]. by rewrite lookup_insert_ne.
Qed.

Lemma resolve_lambda d env ps rest body :
  resolve d env (LambdaOp ps rest body) = SNode (LbLambda (bool_decide (is_Some rest)))
    (map (resolve_param (resolve d env)) ps ++ [scoped_opt (resolve d (bind_name (bind_nodes env ps) rest)) body]).
Proof. done. Qed.

Lemma mark_some (B : bindings) o : bool_decide (is_Some (mark_name B <$> o)) = bool_decide (is_Some o).
Proof. by destruct o. Qed.

Lemma tracks_lambda ps rest body : Forall tracks ps → opt_all tracks body → tracks (LambdaOp ps rest body).
Proof.
  intros _ Hbody B avoid m c rn Hc (-> & Hps & Hrest & Hcb) HB Hdom s r s' Hrn Hd Hcs Hs' E. simpl in *.
  apply bind_inv in E as (? & ? & [= <- <-] & E). apply bind_inv in E as (r1 & s1 & E & (? & ? & [= _ <-] & [= <- <-])%bind_inv).
  simpl in Hs'. apply bind_inv in E as (ps' & s2 & Eps & E). apply bind_inv in E as (rest' & s3 & Erest & E).
  apply bind_inv in E as (body' & s4 & Ebody & [= <- <-]). subst rn.
  assert (rename_counter_ s2 <= rename_counter_ s3 ∧ rename_counter_ s3 <= rename_counter_ s4)%N as [L1 L2].
  { pose proof (quiet_sub_opt body B s3) as Q. rewrite Ebody in Q. destruct Q as [(_ & _ & Q & _) _]. split; [|done].
    assert (quiet keeps (opt_walk (rename_field B) rest)) as Qf by (apply quiet_opt_walk; [apply _|destruct rest; [apply quiet_rename_field|done]]).
    specialize (Qf s2). rewrite Erest in Qf. by destruct Qf as (_ & _ & ? & _). }
  destruct (params_inv avoid B ps s ps' s2 Hps HB ltac:(lia) ltac:(lia) Hdom Hd Eps) as (Hdom2 & Hd2 & Hle & qs & Hqs & Hmap & Henv).
  destruct (field_inv avoid B rest s2 rest' s3 Hrest Hdom2 Erest ltac:(lia) ltac:(lia)) as (Hdom3 & Hd3 & _ & Hsome & Hfield).
  destruct (tracks_opt body B avoid Code (rename_counter_ s3) (active_renames_ s3) Hbody ltac:(lia) Hcb HB Hdom3 s3 body' s4 eq_refl
    ltac:(simpl; congruence) ltac:(lia) ltac:(lia) Ebody) as (qb & Hqb & Hal).
  simpl in Hqb, Hal. rewrite Hqs. simpl. rewrite Hqb. simpl. eexists. split; [done|]. intros ec er He.
  rewrite !resolve_lambda, Hsome, mark_some. f_equal. f_equal; [destruct He as [He _]; by eapply Hmap|]. f_equal.
  apply env_rel_mono with (c' := rename_counter_ s) in He; [|lia].
  apply (alike_scoped_opt _ _ _ _ _ _ _ _ Hal). by apply Hfield, Henv.
Qed.

(** ** The [let] family *)

(** The bindings of a template: the variable [x] with the value [e]. *)
Definition binding_of (xe : string * ast) : ast := Cons (Some (Var xe.1)) (Some xe.2).

Lemma covered_bindings V avoid (P : ast → Prop) lets :
  each (λ b, match b with Cons (Some (Var x)) (Some value) => template_name c0 avoid x ∧ P value | _ => False end) lets →
  ∃ xes, lets = binding_of <$> xes ∧ Forall (λ xe, template_name c0 avoid xe.1 ∧ P xe.2) xes ∧
    (distinct_binders V lets → NoDup (filter (λ x, x ∉ V) xes.*1)).
Proof.
  intros H. assert (∃ xes, lets = binding_of <$> xes ∧ Forall (λ xe, template_name c0 avoid xe.1 ∧ P xe.2) xes) as (xes & -> & Hx).
  { induction lets as [|b lets IH]; [by exists []|]. destruct H as [Hb Hl]. destruct (IH Hl) as (xes & -> & Hxes).
    destruct b as [| |[[|x| | | | | | | | | | | | | | | |]|] [e|]| | | | | | | | | | | | | | |]; try done.
    exists ((x, e) :: xes). split; [done|by constructor]. }
  exists xes. split_and!; [done..|]. unfold distinct_binders. intros Hd.
  assert (omap let_name (binding_of <$> xes) = xes.*1) as <-; [|done]. clear. induction xes as [|[x e] xes IH]; [done|]. simpl. by f_equal.
Qed.

(** The names of the template among [xs] are allocated in order, with other steps
    between. *)
Inductive allocs (B : bindings) : list string → gmap string string → N → gmap string string → N → Prop :=
| allocs_nil rn c c' : (c <= c')%N → allocs B [] rn c rn c'
| allocs_old x xs rn c rn' c' : B !! x ≠ None → allocs B xs rn c rn' c' → allocs B (x :: xs) rn c rn' c'
| allocs_new x xs rn c c1 rn' c' : B !! x = None → (c <= c1)%N →
    allocs B xs (<[x := fresh_name c1 x]> rn) (c1 + 1) rn' c' → allocs B (x :: xs) rn c rn' c'.

Lemma allocs_le B xs rn c rn' c' : allocs B xs rn c rn' c' → (c <= c')%N.
Proof. induction 1; lia. Qed.

Lemma allocs_weaken B xs rn c c1 rn' c' : allocs B xs rn c1 rn' c' → (c <= c1)%N → allocs B xs rn c rn' c'.
Proof.
  intros H. revert c. induction H as [rn c1 c' H|x xs rn c1 rn' c' Hx H IH|x xs rn c1 c2 rn' c' Hx Hc H IH]; intros c Hle.
  - constructor. lia.
  - apply allocs_old; [done|by apply IH].
  - apply allocs_new with c2; [done|lia|done].
Qed.

Lemma allocs_frame B xs rn c rn' c' x : allocs B xs rn c rn' c' → x ∉ filter (λ x, x ∉ dom B) xs → rn' !! x = rn !! x.
Proof.
  induction 1 as [|y xs rn c rn' c' Hy H IH|y xs rn c c1 rn' c' Hy Hc H IH]; intros Hx; [done| |].
  - apply IH. rewrite filter_cons_False in Hx; [done|]. apply not_eq_None_Some in Hy. rewrite elem_of_dom. tauto.
  - rewrite filter_cons_True in Hx by (by apply not_elem_of_dom). apply not_elem_of_cons in Hx as [Hne Hx].
    rewrite IH by done. by apply lookup_insert_ne.
Qed.

Lemma allocs_disjoint B xs rn c rn' c' : allocs B xs rn c rn' c' → dom rn ## dom B → dom rn' ## dom B.
Proof. induction 1 as [|? ? ? ? ? ? ? ? IH|? ? ? ? ? ? ? Hx ? ? IH]; intros Hd; [done|by apply IH|]. apply IH. by apply fresh_disjoint. Qed.

(** Entering the scope of the variables: the names at the end are the ones allocated. *)
Lemma push_group B xs rn c rn' c' rs qs av ec er : allocs B xs rn c rn' c' → (c0 <= c)%N → (c' <= 2 ^ 64)%N →
  NoDup (filter (λ x, x ∉ dom B) xs) → Forall3 (binder_pair rn' B) xs rs qs → env_rel c0 c rn av ec er →
  env_rel c0 c' rn' av (bind_nodes ec rs) (bind_nodes er qs).
Proof.
  intros H. revert rs qs ec er. induction H as [rn c c' Hle|x xs rn c rn' c' Hx H IH|x xs rn c c1 rn' c' Hx Hle H IH];
    intros rs qs ec er Hc Hc' Hnd Hp He.
  - inversion Hp; subst. simpl. by apply env_rel_mono with c.
  - apply Forall3_cons_inv_l in Hp as (r & rs' & q & qs' & -> & -> & Hp & Hps). simpl. apply IH; [done..| |done|].
    + rewrite filter_cons_False in Hnd; [done|]. apply not_eq_None_Some in Hx. rewrite elem_of_dom. tauto.
    + destruct Hp as [[? _]|(_ & -> & Hq)]; [done|]. by apply push_caller.
  - apply Forall3_cons_inv_l in Hp as (r & rs' & q & qs' & -> & -> & Hp & Hps). simpl.
    rewrite filter_cons_True in Hnd by (by apply not_elem_of_dom). apply list.NoDup_cons in Hnd as [Hnx Hnd].
    pose proof (allocs_le _ _ _ _ _ _ H). apply IH; [lia|done|done|done|].
    destruct Hp as [(_ & -> & ->)|[? _]]; [|done]. rewrite (allocs_frame _ _ _ _ _ _ _ H Hnx), lookup_insert_eq. simpl.
    apply push_fresh; [lia|]. by apply env_rel_mono with c.
Qed.

Lemma rename_bindings_inv avoid B (xes : list (string * ast)) s us s1 : Forall (λ xe, template_name c0 avoid xe.1) xes →
  list_walk (rename_binding B) (binding_of <$> xes) s = Done us s1 →
  allocs B xes.*1 (active_renames_ s) (rename_counter_ s) (active_renames_ s1) (rename_counter_ s1) ∧ in_datum_ s1 = in_datum_ s.
Proof.
  intros H. revert s us. induction H as [|[x e] xes Hx _ IH]; intros s us E; simpl in E.
  { unfold mret, exp_ret in E. simplify_eq. split; [by constructor|done]. }
  apply bind_inv in E as (u & s2 & E1 & E). apply bind_inv in E as (us' & s3 & E2 & [= _ <-]).
  destruct (IH _ _ E2) as [Ha Hd]. destruct (rename_node_inv avoid _ _ _ _ _ Hx E1) as [[HB (Hr & Hc & Hd')]|[HB ->]].
  - rewrite Hr, Hc in Ha. split; [|congruence]. by apply allocs_new with (rename_counter_ s).
  - split; [|done]. by apply allocs_old.
Qed.

(** Pass 2 puts the variables before the values. *)
Lemma binders_inv avoid B (xes : list (string * ast)) inits s lets' s1 :
  Forall (λ xe, template_name c0 avoid xe.1) xes → caller_bindings c0 B → dom (active_renames_ s) ## dom B → in_datum_ s = false →
  length inits = length xes → substitute_binders substituteBindings B (binding_of <$> xes) (Some <$> inits) s = Done lets' s1 →
  s1 = s ∧ ∃ rs qs, lets' = zip_with (λ r i, Cons (Some r) (Some i)) rs inits ∧ length rs = length inits ∧
    all_of (mark_var false B) xes.*1 = Some qs ∧ Forall3 (binder_pair (active_renames_ s) B) xes.*1 rs qs.
Proof.
  intros H HB Hdom Hd. revert inits lets'. induction H as [|[x e] xes Hx _ IH]; intros [|i inits] lets' Hlen E; simplify_eq/=.
  { unfold mret, exp_ret in E. simplify_eq. split; [done|]. exists [], []. split_and!; [done..|constructor]. }
  apply bind_inv in E as (nb & s2 & E1 & E). apply bind_inv in E as (rest & s3 & E2 & [= <- <-]).
  apply bind_inv in E1 as (r & s4 & E1 & [= <- <-]).
  destruct (binder_value avoid B x s r s4 Hx HB Hdom Hd E1) as (-> & q & Hq & Hp).
  destruct (IH inits rest ltac:(lia) E2) as (-> & rs & qs & -> & Hl & Hqs & Hps). split; [done|].
  exists (r :: rs), (q :: qs). simpl. rewrite Hq. simpl. rewrite Hqs. split_and!; [done|by rewrite Hl|done|by constructor].
Qed.

Lemma mark_bindings B (xes : list (string * ast)) qs es : all_of (mark_var false B) xes.*1 = Some qs →
  all_of (λ e, markBindings false e B) xes.*2 = Some es →
  all_of (λ b, markBindings false b B) (binding_of <$> xes) = Some (zip_with (λ q e, Cons (Some q) (Some e)) qs es).
Proof.
  revert qs es. induction xes as [|[x e] xes IH]; intros qs es Hq He; simpl in *; [by simplify_eq|].
  apply bind_Some in Hq as (q & Eq & (qs' & Eqs & [= <-])%bind_Some). apply bind_Some in He as (e' & Ee & (es' & Ees & [= <-])%bind_Some).
  rewrite Eq, Ee. simpl. specialize (IH qs' es' Eqs Ees). unfold fmap in IH. by rewrite IH.
Qed.

Lemma let_vars_zip rs inits : length rs = length inits → let_vars (zip_with (λ r i, Cons (Some r) (Some i)) rs inits) = rs.
Proof. revert inits. induction rs as [|r rs IH]; intros [|i inits] Hl; try done. unfold let_vars in *. simpl. f_equal. apply IH. simpl in Hl. lia. Qed.

Notation zip_bindings := (zip_with (λ r i, Cons (Some r) (Some i))).

Lemma sub_keeps a B s r s1 : substituteBindings a B s = Done r s1 → keeps_all s s1.
Proof. intros E. pose proof (quiet_substitute a B s) as Q. by rewrite E in Q. Qed.

(** Values that all see the same scope. *)
Lemma inits_inv avoid B (xes : list (string * ast)) s inits s1 :
  Forall (λ xe, tracks xe.2 ∧ covered c0 (dom B) Code avoid xe.2) xes → caller_bindings c0 B →
  (c0 <= rename_counter_ s)%N → (rename_counter_ s1 <= 2 ^ 64)%N → dom (active_renames_ s) ## dom B → in_datum_ s = false →
  substitute_inits substituteBindings false B (binding_of <$> xes) s = Done inits s1 →
  keeps_all s s1 ∧ ∃ vs qs, inits = Some <$> vs ∧ length vs = length xes ∧
    all_of (λ e, markBindings false e B) xes.*2 = Some qs ∧ Forall2 (alike (rename_counter_ s) (active_renames_ s) avoid false) vs qs.
Proof.
  intros H HB. revert s inits. induction H as [|[x e] xes [Ht Hcov] _ IH]; intros s inits Hc Hs1 Hdom Hd E.
  { simpl in E. unfold mret, exp_ret in E. simplify_eq. split; [done|]. by exists [], []. }
  unfold substitute_inits in E. simpl in E. apply bind_inv in E as (init & s2 & E1 & E). apply bind_inv in E as (rest & s3 & E2 & [= <- <-]).
  apply bind_inv in E1 as (i & s4 & E1 & [= <- <-]). pose proof (sub_keeps _ _ _ _ _ E1) as K. pose proof K as [(_ & Kd & Kc & _) Kr].
  destruct (IH s4 rest) as [K' (vs & qs & -> & Hl & Hqs & Hal)]; [lia|done|by rewrite Kr|congruence|done|].
  pose proof K' as [(_ & _ & Kc' & _) _]. split; [by etrans|].
  destruct (Ht B avoid Code (rename_counter_ s) (active_renames_ s) Hc Hcov HB Hdom s i s4 eq_refl Hd ltac:(lia) ltac:(lia) E1) as (q & Hq & Hiq).
  exists (i :: vs), (q :: qs). simpl in *. rewrite Hq. simpl. unfold fmap in Hqs. rewrite Hqs. split_and!; [done|by rewrite Hl|done|].
  constructor; [done|]. eapply Forall2_impl; [|exact Hal]. intros r q' Hrq ec er He. apply Hrq. rewrite Kr. by apply env_rel_mono with (rename_counter_ s).
Qed.

(** Values that see the variables before their own. *)
Inductive steps (B : bindings) (avoid : list string) :
    list string → list ast → list ast → gmap string string → N → gmap string string → N → Prop :=
| steps_nil rn c c' : (c <= c')%N → steps B avoid [] [] [] rn c rn c'
| steps_old x xs i vs q qs rn c c1 rn' c' : B !! x ≠ None → alike c rn avoid false i q → (c <= c1)%N →
    steps B avoid xs vs qs rn c1 rn' c' → steps B avoid (x :: xs) (i :: vs) (q :: qs) rn c rn' c'
| steps_new x xs i vs q qs rn c c1 rn' c' : B !! x = None → alike c rn avoid false i q → (c <= c1)%N →
    steps B avoid xs vs qs (<[x := fresh_name c1 x]> rn) (c1 + 1) rn' c' → steps B avoid (x :: xs) (i :: vs) (q :: qs) rn c rn' c'.

Lemma steps_allocs B avoid xs vs qs rn c rn' c' : steps B avoid xs vs qs rn c rn' c' → allocs B xs rn c rn' c'.
Proof.
  induction 1 as [|? ? ? ? ? ? ? ? ? ? ? ? ? ? ? IH|]; [by constructor| |by eapply allocs_new].
  apply allocs_old; [done|]. by eapply allocs_weaken.
Qed.

Lemma star_inv avoid B (xes : list (string * ast)) s inits s1 :
  Forall (λ xe, template_name c0 avoid xe.1 ∧ tracks xe.2 ∧ covered c0 (dom B) Code avoid xe.2) xes → caller_bindings c0 B →
  (c0 <= rename_counter_ s)%N → (rename_counter_ s1 <= 2 ^ 64)%N → dom (active_renames_ s) ## dom B → in_datum_ s = false →
  substitute_inits substituteBindings true B (binding_of <$> xes) s = Done inits s1 →
  in_datum_ s1 = false ∧ ∃ vs qs, inits = Some <$> vs ∧ length vs = length xes ∧
    all_of (λ e, markBindings false e B) xes.*2 = Some qs ∧
    steps B avoid xes.*1 vs qs (active_renames_ s) (rename_counter_ s) (active_renames_ s1) (rename_counter_ s1).
Proof.
  intros H HB. revert s inits. induction H as [|[x e] xes (Hx & Ht & Hcov) _ IH]; intros s inits Hc Hs1 Hdom Hd E.
  { simpl in E. unfold mret, exp_ret in E. simplify_eq. split; [done|]. exists [], []. split_and!; [done..|by constructor]. }
  unfold substitute_inits in E. cbn [list_walk fmap list_fmap binding_of fst snd] in E.
  apply bind_inv in E as (init & s2 & E1 & E). apply bind_inv in E as (rest & s3 & E2 & [= <- <-]).
  apply bind_inv in E1 as (i & s4 & E1 & E3). apply bind_inv in E3 as (u & s5 & E3 & [= <- <-]).
  pose proof (sub_keeps _ _ _ _ _ E1) as [(_ & Kd & Kc & _) Kr].
  assert (∃ r2 c2, r2 = active_renames_ s5 ∧ c2 = rename_counter_ s5 ∧ dom r2 ## dom B ∧ in_datum_ s5 = false ∧ (rename_counter_ s4 <= c2)%N ∧
    ((B !! x = None ∧ r2 = <[x := fresh_name (rename_counter_ s4) x]> (active_renames_ s) ∧ c2 = (rename_counter_ s4 + 1)%N) ∨
     (B !! x ≠ None ∧ r2 = active_renames_ s ∧ c2 = rename_counter_ s4))) as (r2 & c2 & Hr2 & Hc2 & Hdom2 & Hd2 & Hle & Hcase).
  { destruct (rename_node_inv _ _ _ _ _ _ Hx E3) as [[Hb (Hr & Hn & Hd')]|[Hb ->]]; do 2 eexists; (split_and!; [reflexivity|reflexivity|..]).
    1: rewrite Hr, Kr; by apply fresh_disjoint. all: try (rewrite ?Kr; done). all: try congruence. all: try lia.
    - left. by rewrite Hr, Kr. - right. by rewrite Kr. }
  destruct (IH s5 rest) as (Hd1 & vs & qs & -> & Hl & Hqs & Hsteps); [lia|done|by rewrite <-Hr2|done|done|].
  rewrite <-Hr2, <-Hc2 in Hsteps. pose proof (allocs_le _ _ _ _ _ _ (steps_allocs _ _ _ _ _ _ _ _ _ Hsteps)) as Hle'.
  destruct (Ht B avoid Code (rename_counter_ s) (active_renames_ s) Hc Hcov HB Hdom s i s4 eq_refl Hd ltac:(lia) ltac:(lia) E1) as (q & Hq & Hiq).
  split; [done|]. exists (i :: vs), (q :: qs). simpl in *. rewrite Hq. simpl. unfold fmap in Hqs. rewrite Hqs. split_and!; [done|by rewrite Hl|done|].
  destruct Hcase as [(Hb & -> & ->)|(Hb & -> & ->)]; [by eapply steps_new|by eapply steps_old].
Qed.

(** ** The scopes of the bindings *)

Lemma resolve_flat (res : list string → ast → scoped) form env inside sofar rs inits : form ≠ LET_STAR → length rs = length inits →
  resolve_bindings res form env inside sofar (zip_bindings rs inits) =
  zip_with (λ r i, SNode LbBinding [resolve_param (res env) r; res (match form with LET => env | _ => inside end) i]) rs inits.
Proof.
  intros Hf. revert inits sofar. induction rs as [|r rs IH]; intros [|i inits] sofar Hl; try done. simpl.
  rewrite IH by (simpl in Hl; lia). by destruct form.
Qed.

Lemma same_flat c rn B xs rs qs vs es ec er sc sr : Forall3 (binder_pair rn B) xs rs qs → Forall2 (entry c0 c) ec er →
  Forall2 (λ i e, resolve false sc i = resolve false sr e) vs es →
  zip_with (λ r i, SNode LbBinding [resolve_param (resolve false ec) r; resolve false sc i]) rs vs =
  zip_with (λ r i, SNode LbBinding [resolve_param (resolve false er) r; resolve false sr i]) qs es.
Proof.
  intros Hp He H. revert vs es H. induction Hp as [|x r q xs rs qs Hrq _ IH]; intros vs es H; [done|].
  destruct H as [|i e vs es Hi H]; [done|]. simpl. rewrite (IH vs es) by done. by rewrite (binder_param _ _ _ _ _ _ _ _ Hrq He), Hi.
Qed.

Lemma same_star B avoid xs vs es rn c rn' c' rs qs cc ec er ic ir : steps B avoid xs vs es rn c rn' c' → (c0 <= c)%N → (c' <= 2 ^ 64)%N →
  NoDup (filter (λ x, x ∉ dom B) xs) → Forall3 (binder_pair rn' B) xs rs qs → Forall2 (entry c0 cc) ec er →
  ∀ sc sr, env_rel c0 c rn avoid sc sr →
  resolve_bindings (resolve false) LET_STAR ec ic sc (zip_bindings rs vs) = resolve_bindings (resolve false) LET_STAR er ir sr (zip_bindings qs es).
Proof.
  intros H. revert rs qs. induction H as [rn c c' Hle|x xs i vs q qs' rn c c1 rn' c' Hx Hal Hle H IH|x xs i vs q qs' rn c c1 rn' c' Hx Hal Hle H IH];
    intros rs qs Hc Hc' Hnd Hp He sc sr Hs.
  - by inversion Hp.
  - apply Forall3_cons_inv_l in Hp as (r & rs' & p & ps' & -> & -> & Hrp & Hps). simpl.
    rewrite (binder_param _ _ _ _ _ _ _ _ Hrp He), (Hal _ _ Hs). f_equal. apply IH; [lia|done| |done|done|].
    { rewrite filter_cons_False in Hnd; [done|]. apply not_eq_None_Some in Hx. rewrite elem_of_dom. tauto. }
    destruct Hrp as [[? _]|(_ & -> & Hcf)]; [done|]. apply push_caller; [|done]. by apply env_rel_mono with c.
  - apply Forall3_cons_inv_l in Hp as (r & rs' & p & ps' & -> & -> & Hrp & Hps). simpl.
    rewrite (binder_param _ _ _ _ _ _ _ _ Hrp He), (Hal _ _ Hs). f_equal.
    rewrite filter_cons_True in Hnd by (by apply not_elem_of_dom). apply list.NoDup_cons in Hnd as [Hnx Hnd].
    pose proof (steps_allocs _ _ _ _ _ _ _ _ _ H) as Ha. pose proof (allocs_le _ _ _ _ _ _ Ha). apply IH; [lia|done|done|done|done|].
    destruct Hrp as [(_ & -> & ->)|[? _]]; [|done]. rewrite (allocs_frame _ _ _ _ _ _ _ Ha Hnx), lookup_insert_eq. simpl.
    apply push_fresh; [lia|]. by apply env_rel_mono with c.
Qed.

Lemma quiet_counter {A} (m : ExpM A) s a s' : quiet keeps m → m s = Done a s' → (rename_counter_ s <= rename_counter_ s')%N.
Proof. intros Q E. specialize (Q s). rewrite E in Q. by destruct Q as (_ & _ & ? & _). Qed.

Lemma resolve_let d env form lets body name :
  resolve d env (LetOp form lets body name) =
  let outer := bind_name env name in let inside := bind_nodes outer (let_vars lets) in
  SNode (LbLet form (bool_decide (is_Some name))) (resolve_bindings (resolve d) form env inside outer lets ++ [scoped_opt (resolve d inside) body]).
Proof. done. Qed.

Lemma all_of_length {A C} (g : A → option C) l qs : all_of g l = Some qs → length qs = length l.
Proof. revert qs. induction l as [|a l IH]; intros qs H; simpl in H; [by simplify_eq|]. apply bind_Some in H as (q & _ & (qs' & Hq & [= <-])%bind_Some). simpl. by rewrite (IH qs'). Qed.

(** The last pass and the body, once the names are allocated and the values are done. *)
Lemma let_tail avoid B (xes : list (string * ast)) vs s lets' s1 body body' s2 :
  Forall (λ xe, template_name c0 avoid xe.1) xes → opt_all tracks body → opt_all (covered c0 (dom B) Code avoid) body →
  caller_bindings c0 B → dom (active_renames_ s) ## dom B → in_datum_ s = false → (c0 <= rename_counter_ s)%N → (rename_counter_ s2 <= 2 ^ 64)%N →
  length vs = length xes → substitute_binders substituteBindings B (binding_of <$> xes) (Some <$> vs) s = Done lets' s1 →
  substitute_opt substituteBindings B body s1 = Done body' s2 →
  s1 = s ∧ ∃ rs qs qb, lets' = zip_bindings rs vs ∧ length rs = length vs ∧ length qs = length vs ∧ all_of (mark_var false B) xes.*1 = Some qs ∧
    Forall3 (binder_pair (active_renames_ s) B) xes.*1 rs qs ∧ opt_of (λ e, markBindings false e B) body = Some qb ∧
    alike_opt (rename_counter_ s) (active_renames_ s) avoid false body' qb.
Proof.
  intros Hx Ht Hcov HB Hdom Hd Hc Hc2 Hl E1 E2.
  destruct (binders_inv avoid B xes vs s lets' s1 Hx HB Hdom Hd Hl E1) as (-> & rs & qs & -> & Hlr & Hqs & Hp). split; [done|].
  destruct (tracks_opt body B avoid Code (rename_counter_ s) (active_renames_ s) Ht Hc Hcov HB Hdom s body' s2 eq_refl Hd ltac:(lia) Hc2 E2) as (qb & Hqb & Hal).
  exists rs, qs, qb. split_and!; try done. apply all_of_length in Hqs. rewrite length_fmap in Hqs. lia.
Qed.

(** The parts of a covered [let]. *)
Lemma let_parts (B : bindings) avoid form lets body name : Forall (binding_all tracks) lets →
  covered c0 (dom B) Code avoid (LetOp form lets body name) →
  field_name c0 (dom B) avoid name ∧ (name ≠ None → form = LET) ∧ opt_all (covered c0 (dom B) Code avoid) body ∧
  ∃ xes, lets = binding_of <$> xes ∧ NoDup (filter (λ x, x ∉ dom B) xes.*1) ∧ Forall (λ xe, template_name c0 avoid xe.1) xes ∧
    Forall (λ xe, tracks xe.2 ∧ covered c0 (dom B) Code (match name with Some n => n :: avoid | None => avoid end) xe.2) xes.
Proof.
  intros Hl (_ & Hname & Hform & Hdist & Hlets & Hbody). split_and!; [done..|].
  destruct (covered_bindings (dom B) avoid (covered c0 (dom B) Code (match name with Some n => n :: avoid | None => avoid end)) lets Hlets)
    as (xes & -> & Hx & Hnd).
  exists xes. split_and!; [done|by apply Hnd|eapply List.Forall_impl; [|exact Hx]; by intros xe []|].
  clear Hlets Hdist Hnd. induction xes as [|[x e] xes IH]; [constructor|]. apply list.Forall_cons in Hl as [Hb Hl], Hx as [Hxe Hx].
  constructor; [|by apply IH]. destruct Hb as [_ [_ Hb]], Hxe as [_ Hxe]. done.
Qed.

(** The proof for [let] and [letrec], where the values share a scope. *)
Lemma let_scopes B avoid form rs qs vs es xs body' qb name name' cn rnn ci rni c rn ec er :
  form ≠ LET_STAR → bool_decide (is_Some name') = bool_decide (is_Some name) →
  length rs = length vs → length qs = length vs →
  Forall3 (binder_pair rn B) xs rs qs → alike_opt c rn avoid false body' qb →
  let outc := bind_name ec name' in let outr := bind_name er (mark_name B <$> name) in
  let sc := match form with LET => ec | _ => bind_nodes outc rs end in let sr := match form with LET => er | _ => bind_nodes outr qs end in
  env_rel c0 c rn avoid (bind_nodes outc rs) (bind_nodes outr qs) →
  Forall2 (entry c0 cn) ec er → Forall2 (alike ci rni rnn false) vs es → env_rel c0 ci rni rnn sc sr → length es = length vs →
  resolve false ec (LetOp form (zip_bindings rs vs) body' name') = resolve false er (LetOp form (zip_bindings qs es) qb (mark_name B <$> name)).
Proof.
  intros Hf Hname Hlr Hlq Hp Hb outc outr sc sr Hin He Hv Hsc Hle. rewrite !resolve_let. cbn zeta. fold outc outr.
  rewrite !let_vars_zip, Hname, mark_some by lia. f_equal. rewrite !resolve_flat by (done || lia). f_equal.
  - assert (Forall2 (λ i e, resolve false sc i = resolve false sr e) vs es) as H2.
    { eapply Forall2_impl; [|exact Hv]. intros i e Hie. by apply Hie. }
    subst sc sr. by destruct form; eapply same_flat.
  - f_equal. by eapply alike_scoped_opt.
Qed.

Lemma quiet_lets B (xes : list (string * ast)) is_seq : quiet keeps (substitute_inits substituteBindings is_seq B (binding_of <$> xes)).
Proof.
  apply quiet_inits. apply Forall_fmap, Forall_true. intros [x e]. split; [intros ?; apply quiet_substitute|].
  split; intros ?; apply quiet_substitute.
Qed.

(** The counter over the last pass and the body. *)
Lemma tail_counter B (xes : list (string * ast)) inits body s lets' s1 body' s2 :
  substitute_binders substituteBindings B (binding_of <$> xes) inits s = Done lets' s1 →
  substitute_opt substituteBindings B body s1 = Done body' s2 → (rename_counter_ s <= rename_counter_ s2)%N.
Proof.
  intros E1 E2. assert (quiet keeps_all (substitute_binders substituteBindings B (binding_of <$> xes) inits)) as Q.
  { apply quiet_binders, Forall_fmap, Forall_true. intros [x e]. split; [intros ?; apply quiet_substitute|].
    split; intros ?; apply quiet_substitute. }
  pose proof (quiet_counter _ _ _ _ (quiet_keeps _ Q) E1). pose proof (quiet_counter _ _ _ _ (quiet_keeps _ (quiet_sub_opt body B)) E2). lia.
Qed.

Lemma quiet_field B name : quiet keeps (opt_walk (rename_field B) name).
Proof. apply quiet_opt_walk; [apply _|]. destruct name; [apply quiet_rename_field|done]. Qed.

Notation covered_let B avoid form lets body name := (covered c0 (dom (B : bindings)) Code avoid (LetOp form lets body name)).

(** [tracks] at a state, for the body of [substitute_let]. *)
Notation let_goal B avoid form lets body name s r :=
  (∃ q, markBindings false (LetOp form lets body name) B = Some q ∧ alike (rename_counter_ s) (active_renames_ s) avoid false r q).

Lemma tracks_plain_let B avoid lets body name s r s' : Forall (binding_all tracks) lets → opt_all tracks body →
  covered_let B avoid LET lets body name → caller_bindings c0 B → dom (active_renames_ s) ## dom B → in_datum_ s = false →
  (c0 <= rename_counter_ s)%N → (rename_counter_ s' <= 2 ^ 64)%N →
  substituteBindings (LetOp LET lets body name) B s = Done r s' → let_goal B avoid LET lets body name s r.
Proof.
  intros Hlets Hbody Hcov HB Hdom Hd Hc Hs' E. destruct (let_parts B avoid LET lets body name Hlets Hcov) as (Hname & _ & Hcb & xes & -> & Hnd & Hx & Hxe).
  simpl in E. unfold substitute_let in E. simpl in E. apply bind_inv in E as (? & ? & [= <- <-] & E).
  apply bind_inv in E as (r1 & s1 & E & (? & ? & [= _ <-] & [= <- <-])%bind_inv). simpl in Hs'.
  apply bind_inv in E as (? & ? & [= _ <-] & E). apply bind_inv in E as (name' & s2 & En & E). apply bind_inv in E as (inits & s3 & Ei & E).
  apply bind_inv in E as (us & s4 & Ea & E). apply bind_inv in E as (lets' & s5 & Eb & E). apply bind_inv in E as (body' & s6 & Ebody & [= <- <-]).
  pose proof (quiet_counter _ _ _ _ (quiet_field B name) En) as L1. pose proof (quiet_counter _ _ _ _ (quiet_lets B xes false) Ei) as L2.
  pose proof (quiet_counter _ _ _ _ (quiet_rename_bindings (binding_of <$> xes) B) Ea) as L3. pose proof (tail_counter _ _ _ _ _ _ _ _ _ Eb Ebody) as L4.
  destruct (field_inv avoid B name s name' s2 Hname Hdom En Hc ltac:(lia)) as (Hdom2 & Hd2 & _ & Hsome & Hfield).
  destruct (inits_inv _ B xes s2 inits s3 Hxe HB ltac:(lia) ltac:(lia) Hdom2 ltac:(congruence) Ei) as ([(_ & Kd & _) Kr] & vs & es & -> & Hlv & Hes & Hv).
  destruct (rename_bindings_inv avoid B xes s3 us s4 Hx Ea) as [Hall Hd4].
  assert (dom (active_renames_ s4) ## dom B) as Hdom4 by (eapply allocs_disjoint; [exact Hall|by rewrite Kr]).
  destruct (let_tail avoid B xes vs s4 lets' s5 body body' s6 Hx Hbody Hcb HB Hdom4 ltac:(congruence) ltac:(lia) Hs' Hlv Eb Ebody)
    as (-> & rs & qs & qb & -> & Hlr & Hlq & Hqs & Hp & Hqb & Hal).
  simpl. rewrite (mark_bindings B xes qs es Hqs Hes). simpl. rewrite Hqb. eexists. split; [done|]. intros ec er He.
  destruct (Hfield _ _ _ He) as [Hf1 Hf2].
  eapply (let_scopes B avoid LET rs qs vs es xes.*1 body' qb name name'); try done.
  - eapply push_group; [exact Hall|lia|lia|done|done|]. rewrite Kr. by apply env_rel_mono with (rename_counter_ s2).
  - apply Hf2.
  - apply all_of_length in Hes. rewrite length_fmap in Hes. lia.
Qed.

Lemma tracks_letrec B avoid form lets body s r s' : form = LETREC ∨ form = LETREC_STAR → Forall (binding_all tracks) lets → opt_all tracks body →
  covered_let B avoid form lets body None → caller_bindings c0 B → dom (active_renames_ s) ## dom B → in_datum_ s = false →
  (c0 <= rename_counter_ s)%N → (rename_counter_ s' <= 2 ^ 64)%N →
  substituteBindings (LetOp form lets body None) B s = Done r s' → let_goal B avoid form lets body None s r.
Proof.
  intros Hform Hlets Hbody Hcov HB Hdom Hd Hc Hs' E. destruct (let_parts B avoid form lets body None Hlets Hcov) as (_ & _ & Hcb & xes & -> & Hnd & Hx & Hxe).
  simpl in E. unfold substitute_let in E. replace (bool_decide (form = LETREC) || bool_decide (form = LETREC_STAR)) with true in E by (by destruct Hform; subst).
  replace (bool_decide (form = LET_STAR)) with false in E by (by destruct Hform; subst). simpl in E.
  apply bind_inv in E as (? & ? & [= <- <-] & E).
  apply bind_inv in E as (r1 & s1 & E & (? & ? & [= _ <-] & [= <- <-])%bind_inv). simpl in Hs'.
  apply bind_inv in E as (us & s2 & Ea & E). apply bind_inv in E as (? & ? & [= <- <-] & E). apply bind_inv in E as (inits & s3 & Ei & E).
  apply bind_inv in E as (? & ? & [= _ <-] & E). apply bind_inv in E as (lets' & s5 & Eb & E). apply bind_inv in E as (body' & s6 & Ebody & [= <- <-]).
  pose proof (quiet_counter _ _ _ _ (quiet_rename_bindings (binding_of <$> xes) B) Ea) as L1.
  pose proof (quiet_counter _ _ _ _ (quiet_lets B xes false) Ei) as L2. pose proof (tail_counter _ _ _ _ _ _ _ _ _ Eb Ebody) as L4.
  destruct (rename_bindings_inv avoid B xes s us s2 Hx Ea) as [Hall Hd2].
  assert (dom (active_renames_ s2) ## dom B) as Hdom2 by by eapply allocs_disjoint.
  destruct (inits_inv _ B xes s2 inits s3 Hxe HB ltac:(lia) ltac:(lia) Hdom2 ltac:(congruence) Ei) as ([(_ & Kd & _) Kr] & vs & es & -> & Hlv & Hes & Hv).
  destruct (let_tail avoid B xes vs s3 lets' s5 body body' s6 Hx Hbody Hcb HB ltac:(by rewrite Kr) ltac:(congruence) ltac:(lia) Hs' Hlv Eb Ebody)
    as (-> & rs & qs & qb & -> & Hlr & Hlq & Hqs & Hp & Hqb & Hal). rewrite Kr in *.
  simpl. rewrite (mark_bindings B xes qs es Hqs Hes). simpl. rewrite Hqb. eexists. split; [done|]. intros ec er He.
  assert (env_rel c0 (rename_counter_ s2) (active_renames_ s2) avoid (bind_nodes ec rs) (bind_nodes er qs)) as Hin.
  { eapply push_group; [exact Hall|lia|lia|done|done|done]. }
  eapply (let_scopes B avoid form rs qs vs es xes.*1 body' qb None None); try done.
  - by destruct Hform; subst.
  - simpl. eapply env_rel_mono; [exact L2|done].
  - apply He.
  - by destruct Hform; subst.
  - apply all_of_length in Hes. rewrite length_fmap in Hes. lia.
Qed.

Lemma tracks_let_star B avoid lets body s r s' : Forall (binding_all tracks) lets → opt_all tracks body →
  covered_let B avoid LET_STAR lets body None → caller_bindings c0 B → dom (active_renames_ s) ## dom B → in_datum_ s = false →
  (c0 <= rename_counter_ s)%N → (rename_counter_ s' <= 2 ^ 64)%N →
  substituteBindings (LetOp LET_STAR lets body None) B s = Done r s' → let_goal B avoid LET_STAR lets body None s r.
Proof.
  intros Hlets Hbody Hcov HB Hdom Hd Hc Hs' E. destruct (let_parts B avoid LET_STAR lets body None Hlets Hcov) as (_ & _ & Hcb & xes & -> & Hnd & Hx & Hxe).
  simpl in E. unfold substitute_let in E. simpl in E. apply bind_inv in E as (? & ? & [= <- <-] & E).
  apply bind_inv in E as (r1 & s1 & E & (? & ? & [= _ <-] & [= <- <-])%bind_inv). simpl in Hs'.
  apply bind_inv in E as (? & ? & [= _ <-] & E). apply bind_inv in E as (? & ? & [= <- <-] & E). apply bind_inv in E as (inits & s3 & Ei & E).
  apply bind_inv in E as (? & ? & [= _ <-] & E). apply bind_inv in E as (lets' & s5 & Eb & E). apply bind_inv in E as (body' & s6 & Ebody & [= <- <-]).
  pose proof (quiet_counter _ _ _ _ (quiet_lets B xes true) Ei) as L2. pose proof (tail_counter _ _ _ _ _ _ _ _ _ Eb Ebody) as L4.
  assert (Forall (λ xe, template_name c0 avoid xe.1 ∧ tracks xe.2 ∧ covered c0 (dom B) Code avoid xe.2) xes) as Hxxe.
  { rewrite Forall_forall in Hx, Hxe |- *. intros xe Hin. split; [by apply Hx|by apply Hxe]. }
  destruct (star_inv avoid B xes s inits s3 Hxxe HB Hc ltac:(lia) Hdom Hd Ei) as (Hd3 & vs & es & -> & Hlv & Hes & Hst).
  pose proof (steps_allocs _ _ _ _ _ _ _ _ _ Hst) as Hall.
  destruct (let_tail avoid B xes vs s3 lets' s5 body body' s6 Hx Hbody Hcb HB ltac:(by eapply allocs_disjoint) Hd3 ltac:(lia) Hs' Hlv Eb Ebody)
    as (-> & rs & qs & qb & -> & Hlr & Hlq & Hqs & Hp & Hqb & Hal).
  simpl. rewrite (mark_bindings B xes qs es Hqs Hes). simpl. rewrite Hqb. eexists. split; [done|]. intros ec er He.
  assert (length es = length vs) as Hle by (apply all_of_length in Hes; rewrite length_fmap in Hes; lia).
  rewrite !resolve_let. simpl. rewrite !let_vars_zip by lia. f_equal. f_equal.
  - eapply same_star; [exact Hst|lia|lia|done|done|apply He|done].
  - f_equal. eapply alike_scoped_opt; [exact Hal|]. eapply push_group; [exact Hall|lia|lia|done|done|done].
Qed.

Lemma alike_mono c c' rn avoid d r q : (c <= c')%N → alike c' rn avoid d r q → alike c rn avoid d r q.
Proof. intros Hc H ec er He. apply H. by apply env_rel_mono with c. Qed.

Lemma tracks_let form lets body name : Forall (binding_all tracks) lets → opt_all tracks body → tracks (LetOp form lets body name).
Proof.
  intros Hlets Hbody B avoid m c rn Hc Hcov HB Hdom s r s' Hrn Hd Hcs Hs' E.
  assert (m = Code) as -> by apply Hcov. subst rn. simpl in Hd.
  assert (let_goal B avoid form lets body name s r) as (q & Hq & Hal).
  { destruct (let_parts B avoid form lets body name Hlets Hcov) as (_ & Hform & _).
    destruct form; [by eapply tracks_plain_let; try done; lia|..];
      (destruct name as [n|]; [by specialize (Hform ltac:(done))|]); [by eapply tracks_let_star; try done; lia|..];
      eapply tracks_letrec; try done; (by left) || (by right) || lia. }
  exists q. split; [done|]. by eapply alike_mono.
Qed.

(** ** Every template *)

Lemma tracks_all a : tracks a.
Proof.
  induction a using ast_deep_ind; try (by intros B avoid md c rn Hc Hcov).
  - intros B avoid m c rn Hc Hcov HB Hdom. simpl. apply sim_ret. by intros ec er He.
  - apply tracks_var.
  - by apply tracks_cons.
  - by apply tracks_call.
  - by apply (tracks_list (SequenceOp form) (LbSequence form)); try done; intros ??? [].
  - by apply tracks_lambda.
  - by apply tracks_let.
  - by apply tracks_set.
  - by apply (tracks_one RaiseOp LbRaise); try done; intros ??? [].
  - by apply (tracks_list ValuesOp LbValues); try done; intros ??? [].
  - by apply (tracks_one CallCcOp LbCallCc); try done; intros ??? [].
  - by apply tracks_wind.
Qed.
End Simulation.
