(* ===== verification/MacroProps.v ===== *)
(** * MacroProps: the properties of the macro expander

    Hygiene of an expansion, the matcher and the templates as inverses, and the return
    of every expansion, with examples. *)

From stdpp Require Import base gmap strings pretty list.
From S2P Require Import Prelude Macro MacroSpec MacroScope.

(** ** What a match captures *)

Lemma caller_insert c0 (B : bindings) x a : caller_bindings c0 B → caller_form c0 a → caller_bindings c0 (<[x := Tree 0 a []]> B).
Proof. intros HB Ha y t. rewrite lookup_insert_Some. intros [[_ <-]|[_ Hy]]; [done|by eapply HB]. Qed.

Lemma caller_merge c0 e subs (B : bindings) : Forall (caller_bindings c0) subs → caller_bindings c0 B → caller_bindings c0 (merge_repetitions e subs B).
Proof.
  intros Hs HB y t. unfold merge_repetitions. intros [Ht|[_ Ht]]%lookup_union_Some_raw; [|by eapply HB].
  rewrite map_lookup_imap in Ht. destruct (collectPatternVarDepths e 0 ∅ !! y) as [d|]; simpl in Ht; [|done].
  - injection Ht as <-. split; [done|]. apply each_forall, Forall_fmap. eapply List.Forall_impl; [|exact Hs]. intros sub Hsub. simpl.
    destruct (sub !! y) as [t'|] eqn:E; [by eapply Hsub|done].
Qed.

Lemma match_seq_caller c0 els : Forall (λ e : pattern * bool, ∀ a B B', caller_form c0 a → caller_bindings c0 B →
    matchPattern e.1 a B = Some B' → caller_bindings c0 B') els →
  ∀ args B B', Forall (caller_form c0) args → caller_bindings c0 B → matchPatternSeq els args B = Some B' → caller_bindings c0 B'.
Proof.
  induction 1 as [|[e ell] els He _ IH]; intros args B B' Ha HB Hm; unfold matchPatternSeq in *; simpl in *.
  { destruct args; [|done]. by simplify_eq. }
  destruct ell.
  - apply bind_Some in Hm as (subs & Hs & Hm). apply repetitions_inv in Hs. eapply IH; [| |exact Hm]; [constructor|].
    apply caller_merge; [|done]. clear -He Ha Hs. induction Hs as [|a sub args subs Hsub _ IH]; constructor.
    + apply list.Forall_cons in Ha as [Ha _]. by eapply (He a ∅).
    + apply list.Forall_cons in Ha as [_ Ha]. by apply IH.
  - destruct args as [|a args]; [done|]. apply bind_Some in Hm as (B1 & H1 & Hm). apply list.Forall_cons in Ha as [Ha Has].
    eapply IH; [exact Has| |exact Hm]. by eapply (He a B).
Qed.

Lemma match_caller c0 p : ∀ a B B', caller_form c0 a → caller_bindings c0 B → matchPattern p a B = Some B' → caller_bindings c0 B'.
Proof.
  induction p as [y|y| |els IH|els rest] using pattern_deep_ind; intros a B B' Ha HB Hm; simpl in Hm; try done.
  - destruct (isSymbol a y); by simplify_eq.
  - destruct (String.eqb y "_"); simplify_eq; [done|by apply caller_insert].
  - destruct a; try done. destruct form; try done. destruct func as [f|]; [|done]. simpl in Ha. destruct Ha as (_ & _ & Hf & Hl).
    eapply match_seq_caller; [exact IH| |exact HB|exact Hm]. constructor; [done|]. by apply each_forall.
Qed.

Lemma rule_caller c0 rules args t B : Forall (caller_form c0) args → first_matching_rule rules args = Some (t, B) → caller_bindings c0 B.
Proof.
  intros Ha. induction rules as [|[p o] rules IH]; [done|]. simpl. destruct p as [[| | |els|]|]; try done. destruct o as [t'|]; [|done].
  destruct (matchPatternSeq (tail els) args ∅) as [B'|] eqn:E; [|done]. intros [= -> ->].
  eapply match_seq_caller; [|exact Ha| |exact E]; [apply Forall_true; intros e; apply match_caller|done].
Qed.

(** ** Hygiene *)

Lemma same_env c env : Forall (old_name c) env → env_rel c c ∅ [] env env.
Proof.
  intros H. split.
  - induction H; constructor; [by left|done].
  - intros x _. rewrite lookup_empty. induction H as [|y env [Hy _] _ IH]; [done|]. rewrite index_cons_ne; [by rewrite IH|]. by intros <-.
Qed.


(** Checking that a concrete template or form is covered. *)
Ltac check_covered :=
  repeat match goal with
  | |- _ ∧ _ => split
  | |- old_name _ _ => split; [done|intros ? ? _ ?; done]
  | |- _ ∉ _ => set_solver
  | |- NoDup _ => apply (bool_decide_unpack _); vm_compute; exact I
  | |- template_name _ _ _ => unfold template_name
  | |- distinct_binders _ _ => apply (bool_decide_unpack _); vm_compute; exact I
  | _ => progress simpl
  | _ => done
  end.

(** [(define-syntax my-or (syntax-rules () ((_ e) e) ((_ a b ...) (let ((t a)) (if t t (my-or b ...))))))],
    called as [(my-or x t)] in a scope that binds [t] and [x]. *)
Definition call (f : string) (args : list ast) : ast := CallOp CALL (Some (Var f)) args.

Definition or_template : ast :=
  LetOp LET [Cons (Some (Var "t")) (Some (Var "a"))] (Some (call "if" [Var "t"; Var "t"; call "my-or" [Var "b"; Var "..."]])) None.

Definition my_or : macro_def := MacroDef "my-or" []
  [Rule (Some (PatList [(PatVariable "_", false); (PatVariable "e", false)])) (Some (TplLiteral (Some (Var "e"))));
   Rule (Some (PatList [(PatVariable "_", false); (PatVariable "a", false); (PatVariable "b", true)])) (Some (TplLiteral (Some or_template)))].

Definition with_macro (m : macro_def) : expander := Expander [{[macro_name m := m]}] ∅ 0 false [].

Definition or_bindings : bindings := {["a" := Tree 0 (Var "x") []; "b" := Tree 1 empty_ast [Tree 0 (Var "t") []]]}.

Definition or_result : ast :=
  LetOp LET [Cons (Some (Var "_h0.t")) (Some (Var "x"))] (Some (call "if" [Var "_h0.t"; Var "_h0.t"; call "my-or" [Var "t"]])) None.


(** ** Patterns and templates *)

(** The forms that a pattern describes: an ellipsis stands for any number of forms. *)
Fixpoint fits (p : pattern) (a : ast) {struct p} : Prop :=
  match p with
  | PatVariable _ => True
  | PatLiteral x => a = Var x
  | PatList els =>
      match a with
      | CallOp CALL (Some f) vs =>
          (fix go (els : list (pattern * bool)) (args : list ast) : Prop := match els with
           | [] => args = []
           | (e, true) :: els' => ∃ l l', args = l ++ l' ∧ Forall (fits e) l ∧ go els' l'
           | (e, false) :: els' => match args with [] => False | a :: args' => fits e a ∧ go els' args' end
           end) els (f :: vs)
      | _ => False
      end
  | _ => False
  end.
Fixpoint fits_seq (els : list (pattern * bool)) (args : list ast) : Prop :=
  match els with
  | [] => args = []
  | (e, true) :: els' => ∃ l l', args = l ++ l' ∧ Forall (fits e) l ∧ fits_seq els' l'
  | (e, false) :: els' => match args with [] => False | a :: args' => fits e a ∧ fits_seq els' args' end
  end.

(** An ellipsis follows the last element of its list, or no element. *)
Fixpoint ellipsis_last (p : pattern) : Prop :=
  match p with
  | PatList els =>
      (fix go (els : list (pattern * bool)) : Prop := match els with
       | [] => True
       | (e, ell) :: els' => ellipsis_last e ∧ ((ell : bool) = true → els' = []) ∧ go els'
       end) els
  | _ => True
  end.
Definition ellipsis_last_seq (els : list (pattern * bool)) : Prop := ellipsis_last (PatList els).

Lemma fits_match_seq els : Forall (λ e : pattern * bool, ∀ a B, ellipsis_last e.1 → fits e.1 a ↔ is_Some (matchPattern e.1 a B)) els →
  ∀ args B, ellipsis_last_seq els → fits_seq els args ↔ is_Some (matchPatternSeq els args B).
Proof.
  induction 1 as [|[e ell] els He _ IH]; intros args B Hl; unfold matchPatternSeq in *; simpl in *.
  { destruct args; split; [by eexists|done|done|by intros []]. }
  destruct Hl as (Hle & Hell & Hls). destruct ell.
  - rewrite (Hell eq_refl) in *. assert (Forall (fits e) args ↔ is_Some (match_repetitions matchPattern e args)) as Hrep.
    { clear -He Hle. induction args as [|a args IH]; simpl; [split; [by eexists|constructor]|]. rewrite list.Forall_cons, IH, (He a ∅) by done.
      unfold is_Some. destruct (matchPattern e a ∅), (match_repetitions matchPattern e args); simpl; naive_solver. }
    split.
    + intros (l & l' & -> & Hf & ->). rewrite app_nil_r in Hrep |- *. apply Hrep in Hf as [subs ->]. by eexists.
    + intros [B' Hm]. apply bind_Some in Hm as (subs & Hs & _). exists args, []. rewrite app_nil_r. split_and!; [done|apply Hrep; by eexists|done].
  - destruct args as [|a args]; [by split; [|intros []]|]. rewrite (He a B) by done.
    destruct (matchPattern e a B) as [B'|]; simpl; [|split; [by intros [[] _]|by intros []]].
    rewrite (IH args B') by done. split; [by intros [_ ?]|intros ?; split; [by eexists|done]].
Qed.

Lemma fits_match p : ∀ a B, ellipsis_last p → fits p a ↔ is_Some (matchPattern p a B).
Proof.
  induction p as [y|y| |els IH|els rest] using pattern_deep_ind; intros a B Hl; simpl; try (by split; [|intros []]).
  - destruct a; simpl; try by split; [|intros []]. unfold is_Some. destruct (String.eqb_spec id y); naive_solver.
  - destruct (String.eqb y "_"); split; by try eexists.
  - destruct a; try by split; [|intros []]. destruct form; try by split; [|intros []]. destruct func as [f|]; [|by split; [|intros []]].
    by apply (fits_match_seq els IH).
Qed.


(** ** Return *)


Definition int (n : Z) : ast := Leaf ESHKOL_INT64 (IntData n).

(** The pattern [(_ in (n v ...) (b0 b1 ...) ...)]. *)
Definition sample_pattern : list (pattern * bool) :=
  [(PatLiteral "in", false); (PatList [(PatVariable "n", false); (PatVariable "v", true)], false);
   (PatList [(PatVariable "b0", false); (PatVariable "b1", true)], true)].

Definition sample_operands : list ast := [Var "in"; call "x" [int 1; int 2]; call "y" []; call "z" [call "f" [int 3]; int 4]].



(** ** Examples *)

Definition one_rule (name : string) (els : list (pattern * bool)) (t : ast) : macro_def :=
  MacroDef name [] [Rule (Some (PatList ((PatVariable "_", false) :: els))) (Some (TplLiteral (Some t)))].

Definition binding (x : string) (e : ast) : ast := Cons (Some (Var x)) (Some e).

(** [swap!]: the targets of the assignments are the caller's variables. *)
Example swap_targets :
  tryExpandMacroCall "swap!" [Var "tmp"; Var "y"]
    (with_macro (one_rule "swap!" [(PatVariable "a", false); (PatVariable "b", false)]
      (LetOp LET [binding "tmp" (Var "a")] (Some (SequenceOp SEQUENCE [SetOp "a" (Some (Var "b")); SetOp "b" (Some (Var "tmp"))])) None)))
  = Done (LetOp LET [binding "_h0.tmp" (Var "tmp")] (Some (SequenceOp SEQUENCE [SetOp "tmp" (Some (Var "y")); SetOp "y" (Some (Var "_h0.tmp"))])) None)
      (Expander (scope_stack_ (with_macro (one_rule "swap!" [(PatVariable "a", false); (PatVariable "b", false)]
        (LetOp LET [binding "tmp" (Var "a")] (Some (SequenceOp SEQUENCE [SetOp "a" (Some (Var "b")); SetOp "b" (Some (Var "tmp"))])) None)))) ∅ 1 false []).
Proof. vm_compute. reflexivity. Qed.

Definition output (r : result ast) : option ast := match r with Done a _ => Some a | _ => None end.
Definition reported (r : result ast) : list string := match r with Done _ s => log s | _ => [] end.

(** A [let*] that binds a name twice: both variables take the last fresh name, and the
    value of the second keeps the first one, which nothing binds. *)
Example let_star_twice :
  output (tryExpandMacroCall "m" [int 1]
    (with_macro (one_rule "m" [(PatVariable "e", false)] (LetOp LET_STAR [binding "x" (Var "e"); binding "x" (call "f" [Var "x"])] (Some (Var "x")) None))))
  = Some (LetOp LET_STAR [binding "_h1.x" (int 1); binding "_h1.x" (call "f" [Var "_h0.x"])] (Some (Var "_h1.x")) None).
Proof. vm_compute. reflexivity. Qed.

(** The name of a loop is renamed in the values of its variables, where it is not bound. *)
Example loop_name_in_value :
  output (tryExpandMacroCall "m" [] (with_macro (one_rule "m" [] (LetOp LET [binding "i" (Var "loop")] (Some (call "loop" [Var "i"])) (Some "loop")))))
  = Some (LetOp LET [binding "_h1.i" (Var "_h0.loop")] (Some (call "_h0.loop" [Var "_h1.i"])) (Some "_h0.loop")).
Proof. vm_compute. reflexivity. Qed.

(** An ellipsis after a parameter is taken for a parameter: [(lambda (n ...) b)] binds
    the first [n] and a fresh name for the ellipsis. *)
Example ellipsis_in_parameters :
  output (tryExpandMacroCall "m" [call "x" [Var "y"]; Var "b"]
    (with_macro (one_rule "m" [(PatList [(PatVariable "n", true)], false); (PatVariable "b", false)] (LambdaOp [Var "n"; Var "..."] None (Some (Var "b"))))))
  = Some (LambdaOp [Var "x"; Var "_h0...."] None (Some (Var "b"))).
Proof. vm_compute. reflexivity. Qed.

(** A macro whose template is a call of itself is reported as circular, also when its
    operands get fewer. *)
Example recursion_is_reported :
  reported (expand (call "last" [Var "x"; Var "y"; Var "z"])
    (with_macro (MacroDef "last" [] [Rule (Some (PatList [(PatVariable "_", false); (PatVariable "a", false)])) (Some (TplLiteral (Some (Var "a"))));
       Rule (Some (PatList [(PatVariable "_", false); (PatVariable "a", false); (PatVariable "b", true)])) (Some (TplLiteral (Some (call "last" [Var "b"; Var "..."]))))])))
  = [circular_expansion "last"].
Proof. vm_compute. reflexivity. Qed.

(** A call without a matching rule is reported twice: it is then taken for a circular one. *)
Example no_rule_is_reported_twice :
  reported (expand (call "my-or" []) (with_macro my_or)) = [circular_expansion "my-or"; no_matching_pattern "my-or"].
Proof. vm_compute. reflexivity. Qed.

(** A variable under two ellipses used without one, where the first repetition is empty. *)
Example empty_first_repetition :
  tryExpandMacroCall "m" [call "x" []]
    (with_macro (one_rule "m" [(PatList [(PatVariable "a", false); (PatVariable "r", true)], true)] (call "f" [Var "r"]))) = Undefined.
Proof. vm_compute. reflexivity. Qed.

(** An ellipsis after the operator of a template is misplaced, so the other operands
    of the repetition are lost. *)
Example ellipsis_after_operator :
  let r := tryExpandMacroCall "m" [Var "f"; Var "x"] (with_macro (one_rule "m" [(PatVariable "r", true)] (call "r" [Var "..."]))) in
  output r = Some (call "f" []) ∧ reported r = [misplaced_ellipsis].
Proof. vm_compute. done. Qed.

(** A template under two ellipses of which only one counts: the variable of the inner
    one drives the outer, so it has no value left for its own ellipsis. *)
Example outer_driver :
  let r := tryExpandMacroCall "m" [call "x" [Var "y"]; call "1" [Var "2"]]
    (with_macro (one_rule "m" [(PatList [(PatVariable "a", false); (PatVariable "r", true)], false); (PatList [(PatVariable "n", true)], false)]
       (call "list" [call "g" [Var "r"; Var "..."; Var "n"]; Var "..."]))) in
  output r = Some (call "list" [call "g" [Var "y"; Var "1"]]) ∧ reported r = [misplaced_ellipsis].
Proof. vm_compute. done. Qed.
